(* ===== verification/_CoqProject ===== *)
-Q . S2P
Prelude.v
Types.v
Events.v
Encode.v
Config.v
Store.v
StoreCalls.v
Samples.v
Paths.v
PathsSpec.v
Capability.v
CapabilitySpec.v
ConfigSpec.v
JournalInv.v
RunInv.v
FencingInv.v
StoreSpec.v
Domain.v
Authority.v
Rollback.v
Recovery.v
DomainInv.v
DomainSpec.v
ReleaseSpec.v
DomainLock.v
AuthoritySpec.v
RollbackSpec.v
RecoverySpec.v
RecoveryLive.v
Drainer.v
DrainerSpec.v
Supervisor.v
ProcessRun.v
ProcessFlow.v
ProcessInv.v
ProcessSpec.v
ProcessHold.v
ProcessRecord.v
Isa.v
Codec.v
Cbor.v
CborSpec.v
Validator.v
DependencySpec.v
ValidatorSpec.v
AdmissionSpec.v
Pipeline.v
CoordinatorInv.v
PipelineInv.v
PipelineSpec.v
PipelineLive.v
PipelineEnd.v
WorkTree.v
WorkTreeSpec.v
Rows.v
Causal.v
CausalSpec.v
CausalRecord.v
CausalMethods.v
Index.v
IndexSpec.v
Observations.v
ObservationsSpec.v
Transactions.v
TransactionsSpec.v
CommitIsolation.v
CommitRecord.v
ReadTracking.v
ReadTrackingSpec.v
Agents.v
AgentsSpec.v
AgentRuntime.v
AgentRuntimeInv.v
AgentRuntimeScope.v
AgentRuntimeSteps.v
AgentRuntimeJournal.v
AgentLife.v
