(* ===== verification/Prelude.v ===== *)
(** * A model of the xioflow kernel, and what it guarantees

    xioflow is an execution kernel for coding agents. One process owns a domain (a
    directory with a SQLite database), runs commands on behalf of runs, keeps
    other operations away from what a command may touch, and records what happened
    in a journal from which a restart decides what may be released. The parts, how
    they call each other, and the files that model them:

      parts of src/src                         model          theorems
      types.ts, driver/types.ts                Types, Encode
      store/event-envelope.ts                  Events         JournalInv
      config/snapshot.ts                       Config         ConfigSpec
      store/sqlite.ts, schema.ts,              Store,         StoreSpec, JournalInv,
        recovery/evidence.ts                   StoreCalls     RunInv, FencingInv
      capability/path-utils.ts                 Paths          PathsSpec
      capability/check.ts                      Capability     CapabilitySpec
      domain.ts                                Domain         DomainInv, DomainSpec,
                                                              ReleaseSpec, DomainLock
      domain.ts (capabilities)                 Authority      AuthoritySpec
      supervisor/rollback.ts, snapshot-ops.ts, Rollback       RollbackSpec
        snapshot/ignored-manifest.ts
      recovery/engine.ts                       Recovery       RecoverySpec, RecoveryLive
      supervisor/drainer.ts                    Drainer        DrainerSpec
      supervisor/admission.ts, finalize.ts,    Supervisor
        fingerprint.ts, replay.ts, types.ts
      supervisor/process-run.ts,               ProcessRun     ProcessFlow, ProcessInv,
        process-monitor.ts, process-output.ts,                ProcessSpec, ProcessHold,
        supervisor.ts, driver/tree-settlement.ts              ProcessRecord
      isa/types.ts, opcodes.generated.ts,      Isa
        registry.generated.ts
      isa/codec.ts (JSON text)                 Codec
      isa/codec.ts (CBOR)                      Cbor           CborSpec
      isa/validator.ts                         Validator      DependencySpec, ValidatorSpec,
                                                              AdmissionSpec
      isa/pipeline.ts                          Pipeline       CoordinatorInv, PipelineInv,
                                                              PipelineSpec, PipelineLive,
                                                              PipelineEnd
      workspace/transactions.ts (apply)        WorkTree       WorkTreeSpec
      workspace/transactions.ts                Transactions   TransactionsSpec, CommitRecord,
                                                              CommitIsolation
      workspace/incremental-index.ts           Index          IndexSpec
      workspace/observation-replay.ts          Observations   ObservationsSpec
      workspace/read-tracking.ts               ReadTracking   ReadTrackingSpec
      workspace/causal-graph.ts                Causal         CausalSpec, CausalRecord,
                                                              CausalMethods
      agents/journal.ts, run-budget.ts,        Agents         AgentsSpec
        runtime.ts (sync)
      agents/runtime.ts, execution.ts          AgentRuntime   AgentRuntimeInv, -Scope,
                                                              -Steps, -Journal, AgentLife

    ** How the code is modelled

    A method is a function of the state of its object. A TypeScript method that
    throws keeps the mutations it made before the [throw], so a method is a
    computation of the monad [ST] below, which returns the state on both outcomes:
    [SM] for the methods of a store handle ([SqliteStore]: the tables, the epoch the
    handle writes under, whether a transaction is open), [DM] for those of a domain
    ([ExecutionDomain]: the isolation tables, the wait queue and its promises, next to
    its store handle) and [PM] for those of a run (the domain and the [Flight] of the
    operation). A definition has the name of the function it translates where Rocq
    allows it, the guards in the order of the code, and its early returns and errors
    as branches; a block of a long function that is a definition of its own is
    mapped to its lines.

    A call reads the clock once: [now] is an argument. What answers from outside (the
    platform driver, the file system, SHA-256, the snapshot driver, random suffixes,
    [process.kill(pid, 0)]) is an argument or a class ([Crypto], [FileSystem]), and an
    answer may be a rejection. The database is a record of tables, a table the list of
    its rows in rowid order; the constraints of the schema are checked where SQLite
    checks them.

    Asynchronous code is a machine. Between two [await]s nothing interleaves, so a run
    of a process ([ProcessRun]) is the place where it waits with its state, and a step
    is an answer or something that happens beside the run; [told] is the history of
    the events it took. A drainer ([Drainer]) moves on the chunks of its stream and the
    answers of its writer. The calls of any number of store handles, in any order, are
    the relation [db_step] of StoreCalls; [db_reachable] are the databases they produce.
    Theorems on runs and drainers are about every sequence of events, theorems on the
    journal, the runs and the epochs about every reachable database.

    A validator run ([Validator]) is a computation over the issues found so far. The
    pipeline ([Pipeline]) is one machine for all the calls of a domain: its events are
    the continuations of the promises and the answers of the host.

    A runtime of agents ([AgentRuntime]) is a machine too: the calls of its host, the
    continuations of its promises, the answers it waits for and its own restarts are
    events, each with the [World] it happens in. Its journal is the list of the rows of
    the domain, and what it knows is folded from them ([sync]).

    Fuel appears in a few places. The walk up the parents of a capability is a loop over stored
    identifiers: AuthoritySpec proves that parents are older than their children in
    every reachable state, so the number of capabilities is enough. The scan of a
    buffer for the start of a character takes at most as many steps as it has bytes.
    The depth-first search of the validator recurses on the stack of the engine: more
    frames than instructions are enough (DependencySpec). The loops of the runtime of agents
    are bounded by what is in its journal (AgentsSpec, AgentLife).
    Everything else is structural recursion.

    ** What the theorems show

    - The journal (JournalInv): it only grows, an execution event comes after the
      intent of its operation, no operation has two results, nothing secret is in it.
    - Runs (RunInv, StoreSpec): a terminal run stays terminal; success is reported only
      over settled operations and agents; the single writer of results, branch by
      branch.
    - Ownership (FencingInv, DomainLock): epochs grow strictly at a change of owner, a
      stale handle changes nothing through a fenced call, a live owner is not replaced.
    - Isolation (DomainSpec, ReleaseSpec): allocation, a fair wait queue that is served as
      far as it can be, what a release gives up, what adjudication demands, what the
      rebuild after a restart locks.
    - Authority (CapabilitySpec, AuthoritySpec): admission exactly characterised, attenuation
      never widens, revocation cascades, the walks end.
    - Recovery (RecoverySpec, RecoveryLive): it releases only what is accounted for, and
      what it says it releases has no lease left; it leaves
      no operation unfinished and no run running by them, and it returns.
    - Rollback (RollbackSpec): a result that claims to be complete was earned.
    - Output (DrainerSpec): what is shown refines the stream, within the limit, in whole
      characters; the spilled file is the stream; backpressure.
    - Processes: the order of the waits and their bound (ProcessFlow), no lease is given up
      before the process is accounted for (ProcessHold), what is returned is on record
      and is what a replay returns (ProcessRecord).
    - Configuration (ConfigSpec), paths (PathsSpec).
    - Programs (ValidatorSpec, AdmissionSpec, DependencySpec): what the validator admits is
      well formed, its arguments of their types, and within its capability; the dependency search decides acyclicity;
      the validator returns a verdict where its inputs let it, and the inputs where it
      throws are exhibited.
    - The pipeline (PipelineSpec, PipelineLive, PipelineEnd): over every interleaving of
      any number of calls that share a domain, resources and commits are exclusive, an
      instruction is executed once, after its dependencies and preconditions; a run
      returns a result per instruction; no state is stuck; histories are bounded.
    - The workspace: a commit that saw no conflict is a serial execution, of a regular
      write set and a transaction that reads what it is recorded to read
      (TransactionsSpec; the examples there show why); an unfinished one keeps its workspace locked (CommitIsolation), is found again by a
      restart (CommitRecord), and applying a regular write set installs it and can be done
      again after a crash (WorkTreeSpec). An index survives the journal and merging accumulates
      (IndexSpec); a replay proves what it reports (ObservationsSpec); the scan of access
      times reports what was read (ReadTrackingSpec).
    - The causal graph (CausalRecord, CausalMethods): what is recorded reads
      back in topological order; a view is the ancestry of its heads, a plan is
      reachability from what changed, and an explanation is a shortest path.
    - Agents (AgentLife): [history] of AgentsSpec says which rows may follow which; the
      runtime writes histories only, over every orderly interleaving of its calls and
      promises and over restarts (what is orderly, and what goes wrong otherwise, is in
      AgentLife). So a step is dispatched at most once, runs and agents stay
      within their budgets, and a reopened domain has nothing at work. Cancelling a
      scope fences the subtree; reconciling ends.

    Interfaces: [Crypto] and [FileSystem] state what the model asks of Node (the laws of
    the latter are hypotheses of PathsSpec and are met by a concrete tree in its
    witnesses), [Engine] what it asks of the engine: the text of a fraction, how many
    arguments a call takes and how deep [join] recurs, beyond which it throws; [respects] below is the contract between the layers: a file proves that
    its calls move the tables along a preorder, and the layer above lifts it ([DomainInv]
    from the store to the domain, [ProcessInv] from the domain to a run).

    ** What is not modelled

    Spawning, signalling and sampling processes (driver/), the sandboxes
    (confinement/), sockets, HTTP and JSON-RPC (ipc/, gateway/, mcp/, otel/), the command
    line, the migrations of the schema and the files of the artifacts: they are calls
    into the operating system, which the model receives as answers. Within the modelled
    parts: the English text of errors; the journal rows that record artifacts; the sharing
    of one domain by several supervisors; in [ProcessRun] a sample is one event, its two
    reads included, and the subscribers of the output are left out.
    Of the instruction set: the compiler and the calls that bind programs
    to the kernel. The pipeline takes the program [validateProgram] admitted as read
    back by [decodeProgram]; an outcome of the executor has the fields of its type; the
    digest of an instruction is a parameter; a concurrency limit is an integer. A number
    is a rational or not finite: there is no negative zero, which the CBOR writer of the
    code writes as zero.
    Of the transactions: calls run one after the other, as the queue of commits and aborts
    makes them; what runs beside an inspection is in the answers of the host. The host
    checks an operation id against the domain, not against the running processes of the
    supervisor; its snapshots, forks, differences and access times are [TransactionHost].
    Of the workspace: paths on the disk of [WorkTree] have no links above them, which
    [assertNoSymlinkedParent] is there to check; a causal node that this code did not
    write is refused when it is read, and the ASCII letters stand for all in [trim].
    Of the agents: what the code asks of other rows of the journal (whether a run or a
    workspace transaction is open) is an answer of the [World] of an event; a listener of
    an abort signal does not call the runtime back; a run has a nonempty id; a round of
    the drain does not begin between the return of a quantum and its [finally] (the code
    enforces neither: AgentLife exhibits what happens otherwise, a step that is called
    twice included). Walks up the parents of agents and
    over their scopes have the number of agents as fuel, which is enough (AgentsSpec).

    ** This file

    - [ST], the state-and-exception monad, and [respects], a compositional calculus for
      "this method only moves the state along the preorder R", with the hint database
      [xio];
    - insertion-ordered maps and sets (the JavaScript [Map] and [Set]), with their
      refinement to stdpp's [gmap];
    - the string functions of JavaScript the sources use;
    - generic lemmas on lists. *)

From Corelib Require Export ssreflect.
From stdpp Require Export base gmap strings list fin_maps sets sorting.
From Stdlib Require Export Sorted ZArith Lia Ascii.

Global Open Scope general_if_scope.
Global Set SsrOldRewriteGoalsOrder.
Ltac done := stdpp.tactics.done.

Declare Scope xio_scope.
Delimit Scope xio_scope with xio.
Open Scope xio_scope.

Create HintDb xio.

(** ** Outcomes and the state-and-exception monad *)

Inductive outcome (E A : Type) : Type :=
| Ok (a : A)
| Throw (e : E).
Arguments Ok {E A} a.
Arguments Throw {E A} e.

Definition is_ok {E A} (o : outcome E A) : bool :=
  match o with Ok _ => true | Throw _ => false end.

Definition ST (E S A : Type) : Type := S → outcome E A * S.

#[export] Instance ST_ret E S : MRet (ST E S) := λ A a s, (Ok a, s).
#[export] Instance ST_bind E S : MBind (ST E S) := λ A B f m s,
  match m s with
  | (Ok a, s') => f a s'
  | (Throw e, s') => (Throw e, s')
  end.

(** The pure part of a method: no state, only the outcome. *)
#[export] Instance outcome_ret E : MRet (outcome E) := λ A a, Ok a.
#[export] Instance outcome_bind E : MBind (outcome E) := λ A B f o,
  match o with Ok a => f a | Throw e => Throw e end.

(** [l.map(f)] for a throwing [f]. *)
Definition map_outcome {E A B : Type} (f : A → outcome E B) : list A → outcome E (list B) :=
  fix go l := match l with
  | [] => Ok []
  | x :: l' => y ← f x; ys ← go l'; Ok (y :: ys)
  end.
Lemma map_outcome_ok {E A B} (f : A → outcome E B) l :
  (∀ x, x ∈ l → is_ok (f x) = true) → is_ok (map_outcome f l) = true.
Proof.
  induction l as [|x l IH]; intros Hf; [done|]. simpl.
  pose proof (Hf x ltac:(set_solver)) as Hx. destruct (f x); [|done]. simpl.
  specialize (IH ltac:(set_solver)). fold (map_outcome f) in *. by destruct (map_outcome f l).
Qed.

(** Calling a pure function from a method. *)
Definition lift {E S A} (o : outcome E A) : ST E S A := λ s, (o, s).

Lemma bind_Ok {E A B} (o : outcome E A) (f : A → outcome E B) b :
  o ≫= f = Ok b ↔ ∃ a, o = Ok a ∧ f a = Ok b.
Proof. destruct o; naive_solver. Qed.

Section Primitives.
Context {E S : Type}.

Definition throw {A} (e : E) : ST E S A := λ s, (Throw e, s).
Definition get_state : ST E S S := λ s, (Ok s, s).
Definition gets {A} (f : S → A) : ST E S A := λ s, (Ok (f s), s).
Definition modify (f : S → S) : ST E S unit := λ s, (Ok tt, f s).
(** [if (b) throw e] *)
Definition throw_if (b : bool) (e : E) : ST E S unit :=
  if b then throw e else mret tt.
(** [if (b) { m }] *)
Definition when (b : bool) (m : ST E S unit) : ST E S unit :=
  if b then m else mret tt.
(** [try { m } catch {}]: the mutations of [m] stay. *)
Definition try_ignore (m : ST E S unit) : ST E S unit :=
  λ s, (Ok tt, (m s).2).
(** [try { m } catch (err) { h(err) }] *)
Definition try_catch {A} (m : ST E S A) (h : E → ST E S A) : ST E S A := λ s,
  match m s with
  | (Ok a, s') => (Ok a, s')
  | (Throw e, s') => h e s'
  end.
(** [for (const x of l) f(x)] *)
Fixpoint for_each {A} (l : list A) (f : A → ST E S unit) : ST E S unit :=
  match l with
  | [] => mret tt
  | x :: l' => f x ;; for_each l' f
  end.
(** The same loop threading a local variable of the method. *)
Fixpoint fold_each {A B} (f : B → A → ST E S B) (l : list A) (b : B) : ST E S B :=
  match l with
  | [] => mret b
  | x :: l' => b' ← f b x; fold_each f l' b'
  end.
End Primitives.

(** Running a method of an object held in a field of a larger object. *)
Section Focus.
Context {E S T : Type} (get : T → S) (set : S → T → T).
Definition focus {A} (m : ST E S A) : ST E T A := λ t,
  let '(o, s') := m (get t) in (o, set s' t).
End Focus.

(** ** Methods that move the state along a preorder *)

Section Respects.
Context {E S : Type} (R : relation S) `{!PreOrder R}.

(** Whatever the outcome, the final state is an [R]-successor. *)
Definition respects {A} (m : ST E S A) : Prop := ∀ s, R s (m s).2.

Lemma respects_ret {A} (a : A) : respects (mret a).
Proof using Type*. intros s. simpl. reflexivity. Qed.
Lemma respects_throw {A} (e : E) : respects (A:=A) (throw e).
Proof using Type*. intros s. simpl. reflexivity. Qed.
Lemma respects_get : respects get_state.
Proof using Type*. intros s. simpl. reflexivity. Qed.
Lemma respects_gets {A} (f : S → A) : respects (gets f).
Proof using Type*. intros s. simpl. reflexivity. Qed.
Lemma respects_lift {A} (o : outcome E A) : respects (lift o).
Proof using Type*. intros s. simpl. reflexivity. Qed.
Lemma respects_bind {A B} (m : ST E S A) (f : A → ST E S B) :
  respects m → (∀ a, respects (f a)) → respects (m ≫= f).
Proof using Type*.
  intros Hm Hf s. unfold mbind, ST_bind. specialize (Hm s).
  destruct (m s) as [[a|e] s']; simpl in *; [|done].
  etransitivity; [exact Hm|apply Hf].
Qed.
Lemma respects_modify (f : S → S) :
  (∀ s, R s (f s)) → respects (modify f).
Proof using Type. intros Hf s. apply Hf. Qed.
Lemma respects_if {A} (b : bool) (m1 m2 : ST E S A) :
  respects m1 → respects m2 → respects (if b then m1 else m2).
Proof using Type. by destruct b. Qed.
Lemma respects_throw_if b e : respects (throw_if b e).
Proof using Type*. apply respects_if; [apply respects_throw|apply respects_ret]. Qed.
Lemma respects_when b m : respects m → respects (when b m).
Proof using Type*. intros. apply respects_if; [done|apply respects_ret]. Qed.
Lemma respects_try_ignore m : respects m → respects (try_ignore m).
Proof using Type. intros Hm s. apply Hm. Qed.
Lemma respects_try_catch {A} (m : ST E S A) h :
  respects m → (∀ e, respects (h e)) → respects (try_catch m h).
Proof using Type*.
  intros Hm Hh s. unfold try_catch. specialize (Hm s).
  destruct (m s) as [[a|e] s']; simpl in *; [done|].
  etransitivity; [exact Hm|apply Hh].
Qed.
Lemma respects_for_each {A} (l : list A) f :
  (∀ x, respects (f x)) → respects (for_each l f).
Proof using Type*.
  intros Hf. induction l as [|x l IH]; simpl;
    [apply respects_ret|apply respects_bind; auto].
Qed.
Lemma respects_fold_each {A B} (f : B → A → ST E S B) l : ∀ b,
  (∀ b x, respects (f b x)) → respects (fold_each f l b).
Proof using Type*.
  induction l as [|x l IH]; intros b Hf; simpl;
    [apply respects_ret|apply respects_bind; auto].
Qed.
End Respects.

#[export] Hint Resolve respects_ret respects_throw respects_get respects_gets respects_lift
  respects_throw_if respects_when respects_try_ignore : xio.

(** ** Running a method, one statement at a time *)

Section Equations.
Context {E S : Type}.
Implicit Types (s : S).

Lemma run_gets {A B} (f : S → A) (k : A → ST E S B) s : (gets f ≫= k) s = k (f s) s.
Proof. done. Qed.
Lemma run_modify {B} (f : S → S) (k : unit → ST E S B) s : (modify f ≫= k) s = k tt (f s).
Proof. done. Qed.
Lemma run_ret {A B} (a : A) (k : A → ST E S B) s : (mret a ≫= k) s = k a s.
Proof. done. Qed.
Lemma run_throw {A B} (e : E) (k : A → ST E S B) s : (throw e ≫= k) s = (Throw e, s).
Proof. done. Qed.
Lemma run_throw_if {B} b (e : E) (k : unit → ST E S B) s :
  (throw_if b e ≫= k) s = if b then (Throw e, s) else k tt s.
Proof. by destruct b. Qed.
Lemma run_lift {A B} (o : outcome E A) (k : A → ST E S B) s :
  (lift o ≫= k) s = match o with Ok a => k a s | Throw e => (Throw e, s) end.
Proof. by destruct o. Qed.
Lemma run_assoc {A B C} (m : ST E S A) (f : A → ST E S B) (g : B → ST E S C) s :
  ((m ≫= f) ≫= g) s = (m ≫= (λ a, f a ≫= g)) s.
Proof. unfold mbind, ST_bind. by destruct (m s) as [[]]. Qed.

Lemma run_bind_Ok {A B} (m : ST E S A) (k : A → ST E S B) a s s' :
  m s = (Ok a, s') → (m ≫= k) s = k a s'.
Proof. unfold mbind, ST_bind. by intros ->. Qed.
Lemma run_bind_Throw {A B} (m : ST E S A) (k : A → ST E S B) e s s' :
  m s = (Throw e, s') → (m ≫= k) s = (Throw e, s').
Proof. unfold mbind, ST_bind. by intros ->. Qed.
Lemma bind_Ok_inv {A B} (m : ST E S A) (k : A → ST E S B) s b s' :
  (m ≫= k) s = (Ok b, s') → ∃ a s1, m s = (Ok a, s1) ∧ k a s1 = (Ok b, s').
Proof. unfold mbind, ST_bind. destruct (m s) as [[a|e] s1]; naive_solver. Qed.
(** A loop that ends without a throw establishes what each round establishes, if
    the later rounds keep it. *)
Lemma for_each_collects (R : relation S) `{!PreOrder R} {A} (Q : A → S → Prop) f :
  (∀ x s s', f x s = (Ok tt, s') → R s s' ∧ Q x s') →
  (∀ x s s', R s s' → Q x s → Q x s') →
  ∀ (l : list A) s s', for_each (E:=E) l f s = (Ok tt, s') → R s s' ∧ ∀ x, x ∈ l → Q x s'.
Proof.
  intros Hf Hkeep l. induction l as [|x l IH]; intros s s' Hrun.
  - injection Hrun as <-. split; [reflexivity|set_solver].
  - apply bind_Ok_inv in Hrun as ([] & s1 & [HR HQ]%Hf & [HR' Hall]%IH).
    split; [by etransitivity|]. intros y [->|Hy]%elem_of_cons; eauto.
Qed.
Lemma respects_after (R : relation S) `{!PreOrder R} {A} (m : ST E S A) s s1 :
  R s s1 → respects R m → R s (m s1).2.
Proof. intros H1 Hm. etransitivity; [exact H1|apply Hm]. Qed.
Lemma respects_at_bind (R : relation S) `{!PreOrder R} {A B} (m : ST E S A) (f : A → ST E S B) s :
  R s (m s).2 → (∀ a, respects R (f a)) → R s ((m ≫= f) s).2.
Proof.
  intros Hm Hf. unfold mbind, ST_bind. destruct (m s) as [[a|e] s']; simpl in *; [|done].
  etransitivity; [exact Hm|apply Hf].
Qed.
End Equations.

#[export] Hint Rewrite @run_gets @run_modify @run_ret @run_throw @run_throw_if @run_lift
  @run_assoc : xio_run.

(** [respects_tac] walks a method body: binds, branches and matches, then the
    lemmas of [xio] close the calls. *)
Ltac respects_step :=
  lazymatch goal with
  | |- respects _ (_ ≫= _) => apply respects_bind; [typeclasses eauto| |intros ?]
  | |- respects _ (try_catch _ _) => apply respects_try_catch; [typeclasses eauto| |intros ?]
  | |- respects _ (when _ _) => apply respects_when; [typeclasses eauto|]
  | |- respects _ (for_each _ _) => apply respects_for_each; [typeclasses eauto|intros ?]
  | |- respects _ (fold_each _ _ _) =>
      apply respects_fold_each; [typeclasses eauto|intros ? ?]
  | |- respects _ (if ?b then _ else _) => destruct b
  | |- respects _ (match ?x with _ => _ end) => destruct x
  | |- respects _ (let '(_, _) := ?x in _) => destruct x
  end.
Ltac respects_tac :=
  repeat first [progress (eauto 3 with xio typeclass_instances) | respects_step].

(** ** The JavaScript [Map] and [Set]: insertion order is kept *)

Section JsMap.
Context {V : Type}.
Implicit Types (m : list (string * V)) (k : string) (v : V).

Fixpoint jm_get m k : option V :=
  match m with
  | [] => None
  | (k', v) :: m' => if decide (k' = k) then Some v else jm_get m' k
  end.
Definition jm_has m k : bool := bool_decide (is_Some (jm_get m k)).
(** [Map.set] keeps the position of a key it already has. *)
Fixpoint jm_set m k v : list (string * V) :=
  match m with
  | [] => [(k, v)]
  | (k', v') :: m' => if decide (k' = k) then (k, v) :: m' else (k', v') :: jm_set m' k v
  end.
Definition jm_delete m k : list (string * V) :=
  List.filter (λ p, negb (bool_decide (p.1 = k))) m.

Definition jm_ok m : Prop := NoDup m.*1.
Definition jm_map m : gmap string V := list_to_map m.

Lemma jm_get_map m k : jm_get m k = jm_map m !! k.
Proof.
  unfold jm_map. induction m as [|[k' v] m IH]; simpl; [by rewrite lookup_empty|].
  case_decide; subst; [by rewrite lookup_insert_eq|by rewrite lookup_insert_ne].
Qed.
Lemma jm_set_map m k v : jm_map (jm_set m k v) = <[k:=v]> (jm_map m).
Proof.
  unfold jm_map. induction m as [|[k' v'] m IH]; simpl; [done|].
  case_decide; subst; simpl; [by rewrite insert_insert_eq|].
  by rewrite IH insert_insert_ne.
Qed.
Lemma jm_delete_map m k : jm_map (jm_delete m k) = delete k (jm_map m).
Proof.
  unfold jm_map, jm_delete.
  induction m as [|[k' v'] m IH]; simpl; [by rewrite delete_empty|].
  case_bool_decide; simpl; subst; rewrite IH.
  - by rewrite delete_insert_eq.
  - by rewrite delete_insert_ne.
Qed.
Lemma jm_get_set m k k' v :
  jm_get (jm_set m k v) k' = if decide (k = k') then Some v else jm_get m k'.
Proof.
  rewrite !jm_get_map jm_set_map. case_decide; subst;
    [by rewrite lookup_insert_eq|by rewrite lookup_insert_ne].
Qed.
Lemma jm_get_delete m k k' :
  jm_get (jm_delete m k) k' = if decide (k = k') then None else jm_get m k'.
Proof.
  rewrite !jm_get_map jm_delete_map. case_decide; subst;
    [by rewrite lookup_delete_eq|by rewrite lookup_delete_ne].
Qed.
Lemma jm_get_in m k v : jm_get m k = Some v → (k, v) ∈ m.
Proof.
  induction m as [|[k' v'] m IH]; simpl; [done|].
  case_decide; intros; simplify_eq; set_solver.
Qed.
Lemma jm_in_get m k v : jm_ok m → (k, v) ∈ m → jm_get m k = Some v.
Proof.
  unfold jm_ok. intros Hnd Hin. rewrite jm_get_map. by apply elem_of_list_to_map.
Qed.
End JsMap.

(** [new Set(l)], [Set.add], [Set.has] over lists without duplicates. *)
Definition js_has (s : list string) (x : string) : bool := bool_decide (x ∈ s).
Definition js_add (s : list string) (x : string) : list string :=
  if js_has s x then s else s ++ [x].
Definition js_delete (s : list string) (x : string) : list string :=
  List.filter (λ y, negb (bool_decide (y = x))) s.
Definition js_set (l : list string) : list string := foldl js_add [] l.

Lemma js_has_spec s x : js_has s x = true ↔ x ∈ s.
Proof. apply bool_decide_eq_true. Qed.

Lemma elem_of_js_add s x y : y ∈ js_add s x ↔ y ∈ s ∨ y = x.
Proof.
  unfold js_add, js_has. case_bool_decide; set_solver.
Qed.

Lemma NoDup_js_add s x : NoDup s → NoDup (js_add s x).
Proof.
  unfold js_add, js_has. case_bool_decide; [done|].
  intros. apply NoDup_app. split_and!; [done|set_solver|apply NoDup_singleton].
Qed.

Lemma elem_of_foldl_js_add l : ∀ s y, y ∈ foldl js_add s l ↔ y ∈ s ∨ y ∈ l.
Proof.
  induction l as [|x l IH]; intros s y; simpl; [set_solver|].
  rewrite IH elem_of_js_add. set_solver.
Qed.

Lemma elem_of_js_set l y : y ∈ js_set l ↔ y ∈ l.
Proof. unfold js_set. rewrite elem_of_foldl_js_add. set_solver. Qed.

Lemma NoDup_foldl_js_add l : ∀ s, NoDup s → NoDup (foldl js_add s l).
Proof. induction l; simpl; intros; [done|]. by apply IHl, NoDup_js_add. Qed.

Lemma elem_of_js_delete s x y : y ∈ js_delete s x ↔ y ∈ s ∧ y ≠ x.
Proof.
  unfold js_delete. rewrite !list_elem_of_In filter_In.
  case_bool_decide; simpl; naive_solver.
Qed.

Lemma js_add_length s x : length (js_add s x) ≤ S (length s).
Proof. unfold js_add. case_match; [lia|]. rewrite length_app. simpl. lia. Qed.

(** Keys of a map, fresh keys and fresh elements. *)
Lemma jm_has_in {A} (g : list (string * A)) a : jm_has g a = true ↔ a ∈ g.*1.
Proof.
  unfold jm_has. rewrite bool_decide_eq_true jm_get_map. unfold jm_map. split.
  - intros [v Hv%elem_of_list_to_map_2]. apply list_elem_of_fmap. by exists (a, v).
  - intros Ha. apply not_eq_None_Some. by intros ?%not_elem_of_list_to_map.
Qed.
Lemma jm_set_keys {A} (m : list (string * A)) k v : (jm_set m k v).*1 = js_add m.*1 k.
Proof.
  unfold js_add, js_has. induction m as [|[k' v'] m IH]; simpl; [done|].
  destruct (decide (k' = k)) as [->|Hk]; simpl.
  - rewrite bool_decide_true; [done|set_solver].
  - change (k' :: (jm_set m k v).*1
      = if bool_decide (k ∈ k' :: m.*1) then k' :: m.*1 else k' :: m.*1 ++ [k]).
    rewrite IH. destruct (decide (k ∈ m.*1)) as [Hin|Hin].
    + rewrite !bool_decide_true //. set_solver.
    + rewrite !bool_decide_false //. set_solver.
Qed.

Lemma jm_set_fresh {A} (m : list (string * A)) k v : k ∉ m.*1 → jm_set m k v = m ++ [(k, v)].
Proof.
  induction m as [|[k' v'] m IH]; simpl; [done|]. intros Hk.
  case_decide; [set_solver|]. rewrite IH //. set_solver.
Qed.
Lemma js_add_fresh s x : js_has s x = false → js_add s x = s ++ [x].
Proof. unfold js_add. by intros ->. Qed.
Lemma js_has_false s x : js_has s x = false ↔ x ∉ s.
Proof. apply bool_decide_eq_false. Qed.
Lemma NoDup_snoc {A} (l : list A) x : NoDup l → x ∉ l → NoDup (l ++ [x]).
Proof. intros Hl Hx. apply NoDup_app. split_and!; [done|set_solver|apply NoDup_singleton]. Qed.

Lemma elem_of_foldl_js_delete l : ∀ held x, x ∈ foldl js_delete held l ↔ x ∈ held ∧ x ∉ l.
Proof.
  induction l as [|y l IH]; intros held x; simpl; [set_solver|].
  rewrite IH elem_of_js_delete. set_solver.
Qed.

(** ** JavaScript strings (ASCII) and truthiness *)

Fixpoint includes (needle hay : string) : bool :=
  String.prefix needle hay ||
  match hay with EmptyString => false | String _ t => includes needle t end.

Definition startsWith (hay needle : string) : bool := String.prefix needle hay.
Fixpoint endsWith (hay needle : string) : bool :=
  bool_decide (hay = needle) ||
  match hay with EmptyString => false | String _ t => endsWith t needle end.
(** [s.slice(0, -n)] *)
Definition drop_last (n : nat) (s : string) : string := String.substring 0 (String.length s - n) s.

(** [l.sort()] on strings. *)
Definition string_le (a b : string) : Prop := String.leb a b = true.
#[export] Instance string_le_dec a b : Decision (string_le a b).
Proof. unfold string_le. apply _. Defined.
Definition sort_strings : list string → list string := merge_sort string_le.

Definition lower_ascii (a : ascii) : ascii :=
  let n := nat_of_ascii a in
  if (65 <=? n)%nat && (n <=? 90)%nat then ascii_of_nat (n + 32) else a.
Fixpoint toLowerCase (s : string) : string :=
  match s with EmptyString => EmptyString | String a t => String (lower_ascii a) (toLowerCase t) end.

(** [s.slice(n)] *)
Fixpoint slice_from (n : nat) (s : string) : string :=
  match n, s with
  | O, _ => s
  | S n', String _ t => slice_from n' t
  | S _, EmptyString => EmptyString
  end.

(** A string in a boolean position; [x || undefined] on an optional string. *)
Definition truthy_str (s : string) : bool := negb (bool_decide (s = "")).
Definition or_undef (o : option string) : option string :=
  match o with Some s => if truthy_str s then Some s else None | None => None end.
Definition truthy_opt (o : option string) : bool :=
  match o with Some s => truthy_str s | None => false end.
(** [n || undefined] on an optional number. *)
Definition or_undef_Z (o : option Z) : option Z :=
  match o with Some n => if bool_decide (n = 0%Z) then None else Some n | None => None end.

(** [a ?? b] *)
Definition nullish {A} (o : option A) (d : A) : A := default d o.
Definition nullish_opt {A} (o d : option A) : option A :=
  match o with Some a => Some a | None => d end.
Definition is_undef {A} (o : option A) : bool :=
  match o with None => true | Some _ => false end.

(** ** Lists *)

Section Lists.
Context {A : Type}.

(** [UPDATE .. SET f WHERE p] *)
Definition update_where (p : A → bool) (f : A → A) (l : list A) : list A :=
  map (λ x, if p x then f x else x) l.

Lemma find_update_where p q f (l : list A) :
  (∀ x, p x = true → q (f x) = q x) →
  List.find q (update_where p f l)
  = (λ x, if p x then f x else x) <$> List.find q l.
Proof.
  intros Hq. induction l as [|x l IH]; simpl; [done|].
  destruct (p x) eqn:Hp; simpl.
  - rewrite (Hq x Hp). destruct (q x); simpl; [by rewrite Hp|done].
  - destruct (q x); simpl; [by rewrite Hp|done].
Qed.

Lemma find_app (q : A → bool) l1 l2 :
  List.find q (l1 ++ l2) = match List.find q l1 with Some x => Some x | None => List.find q l2 end.
Proof. induction l1 as [|x l1 IH]; simpl; [done|]. by destruct (q x). Qed.

Lemma update_where_none p f (l : list A) : List.find p l = None → update_where p f l = l.
Proof.
  induction l as [|x l IH]; simpl; [done|]. destruct (p x); [done|].
  intros H. by rewrite IH.
Qed.

Lemma snoc_split (l l1 l2 : list A) x y :
  l ++ [x] = l1 ++ y :: l2 →
  (l1 = l ∧ y = x ∧ l2 = []) ∨ (∃ l2', l2 = l2' ++ [x] ∧ l = l1 ++ y :: l2').
Proof.
  intros H. destruct l2 as [|z l2 _] using rev_ind.
  - apply app_inj_tail in H as [-> ->]. by left.
  - right. exists l2. rewrite app_comm_cons assoc in H.
    by apply app_inj_tail in H as [-> ->].
Qed.

Lemma StronglySorted_snoc (R : relation A) l x :
  StronglySorted R l → Forall (λ y, R y x) l → StronglySorted R (l ++ [x]).
Proof.
  induction 1 as [|y l Hl IH Hy]; simpl; intros Hx.
  - by repeat constructor.
  - inversion Hx; subst. constructor; [by apply IH|]. apply Forall_app. by repeat constructor.
Qed.

Lemma existsb_In (q : A → bool) l : existsb q l = true ↔ ∃ x, x ∈ l ∧ q x = true.
Proof.
  rewrite existsb_exists. setoid_rewrite list_elem_of_In. done.
Qed.

Lemma existsb_app_mono (q : A → bool) l1 l2 :
  existsb q l1 = true → existsb q (l1 ++ l2) = true.
Proof. rewrite existsb_app. by intros ->. Qed.
End Lists.

Ltac inv_outcome :=
  repeat match goal with
  | H : (Ok _, _) = (Ok _, _) |- _ => injection H as; subst
  | H : (Throw _, _) = (Throw _, _) |- _ => injection H as; subst
  | H : (Ok _, _) = (Throw _, _) |- _ => discriminate
  | H : (Throw _, _) = (Ok _, _) |- _ => discriminate
  end.
