(* ===== verification/Types.v ===== *)
(** * Types: the kernel's data model (src/src/types.ts)

    Interfaces are records whose fields carry a short prefix, string-literal
    unions are enumerations, discriminated unions are inductive types. Numbers
    that the kernel counts with are [Z]. An ISO-8601 string is either the
    rendering of an instant ([Iso]) or a string [Date] cannot parse. Thrown
    errors are values of [error]: the class thrown and its fields; the English
    text of a message is not modelled. *)

From S2P Require Import Prelude.

(** ** Dates *)

Inductive DateStr : Type :=
| Iso (ms : Z)
| NotADate (raw : string).

#[export] Instance DateStr_eq_dec : EqDecision DateStr.
Proof. solve_decision. Defined.

(** [new Date(s).getTime()]; [None] is [NaN]. *)
Definition getTime (d : DateStr) : option Z :=
  match d with Iso ms => Some ms | NotADate _ => None end.
Definition truthy_date (d : DateStr) : bool :=
  match d with Iso _ => true | NotADate s => truthy_str s end.
Definition or_undef_date (o : option DateStr) : option DateStr :=
  match o with Some d => if truthy_date d then Some d else None | None => None end.
(** [new Date(d).getTime() <= t]: every comparison with [NaN] is false. *)
Definition date_le (d : DateStr) (t : Z) : bool :=
  match getTime d with Some ms => bool_decide (ms ≤ t)%Z | None => false end.
Definition date_lt (d : DateStr) (t : Z) : bool :=
  match getTime d with Some ms => bool_decide (ms < t)%Z | None => false end.

(** ** JavaScript values, as they reach an event payload *)

Inductive jsnum : Type :=
| NumFin (z : Z)
| NumNaN
| NumInf (negative : bool).

Inductive jsval : Type :=
| JUndef
| JNull
| JBool (b : bool)
| JNum (n : jsnum)
| JStr (s : string)
| JDate (d : DateStr) (* a string holding a date *)
| JArr (l : list jsval)
| JObj (fields : list (string * jsval))
| JOpaque. (* a function, a symbol or a bigint *)

Section jsval_ind.
Variable P : jsval → Prop.
Hypothesis Hundef : P JUndef.
Hypothesis Hnull : P JNull.
Hypothesis Hbool : ∀ b, P (JBool b).
Hypothesis Hnum : ∀ n, P (JNum n).
Hypothesis Hstr : ∀ s, P (JStr s).
Hypothesis Hdate : ∀ d, P (JDate d).
Hypothesis Harr : ∀ l, Forall P l → P (JArr l).
Hypothesis Hobj : ∀ fs, Forall (λ kv, P kv.2) fs → P (JObj fs).
Hypothesis Hopaque : P JOpaque.

Fixpoint jsval_nested_ind (v : jsval) : P v :=
  match v with
  | JUndef => Hundef
  | JNull => Hnull
  | JBool b => Hbool b
  | JNum n => Hnum n
  | JStr s => Hstr s
  | JDate d => Hdate d
  | JArr l => Harr l
      ((fix go l := match l return Forall P l with
        | [] => Forall_nil_2 _
        | x :: l' => Forall_cons_2 _ _ _ (jsval_nested_ind x) (go l')
        end) l)
  | JObj fs => Hobj fs
      ((fix go fs := match fs return Forall (λ kv, P kv.2) fs with
        | [] => Forall_nil_2 _
        | kv :: fs' => Forall_cons_2 _ _ _ (jsval_nested_ind kv.2) (go fs')
        end) fs)
  | JOpaque => Hopaque
  end.
End jsval_ind.

(** Property access on a payload, [payload.k] ([None]: absent). *)
Definition jfield (v : jsval) (k : string) : option jsval :=
  match v with
  | JObj fs => jm_get fs k
  | _ => None
  end.
Definition jopt {A} (f : A → jsval) (o : option A) : jsval :=
  match o with Some a => f a | None => JUndef end.
Definition JZ (z : Z) : jsval := JNum (NumFin z).

(** ** Tasks and runs *)

Record Task := mkTask {
  task_id : string;
  task_domainId : string;
  task_name : string;
  task_createdAt : DateStr;
  task_meta : option jsval;
}.

Inductive KernelRunStatus :=
| run_queued | run_starting | run_running | run_stopping
| run_succeeded | run_failed | run_cancelled | run_indeterminate.

#[export] Instance KernelRunStatus_eq_dec : EqDecision KernelRunStatus.
Proof. solve_decision. Defined.

Inductive TerminationReason :=
| completed | user_cancelled | timed_out | resource_preempted | crash_detected
| exit_unobserved | memory_exceeded | cpu_exceeded | pids_exceeded
| output_exceeded | observation_failed.

#[export] Instance TerminationReason_eq_dec : EqDecision TerminationReason.
Proof. solve_decision. Defined.

(** ** Budgets *)

Inductive Enforcement := observe | soft | hard.
#[export] Instance Enforcement_eq_dec : EqDecision Enforcement.
Proof. solve_decision. Defined.

Record ResourceBudget := mkResourceBudget {
  maxMemoryBytes : option Z;
  maxPids : option Z;
  maxCpuTimeMs : option Z;
  maxOutputBytes : option Z;
  enforcement : Enforcement;
}.

#[export] Instance ResourceBudget_eq_dec : EqDecision ResourceBudget.
Proof. solve_decision. Defined.

Record DomainBudget := mkDomainBudget {
  maxTotalMemoryBytes : option Z;
  maxConcurrentOps : option Z;
  maxTotalOutputBytes : option Z;
}.

(** ** Recovery evidence *)

Record ProcessIdentity := mkProcessIdentity {
  pid : Z;
  pgid : option Z;
  startTimeMonotonic : option Z;
  spawnTime : DateStr;
  osStartTime : option DateStr;
  commandFingerprint : option string;
  bootId : option string;
  cgroupPath : option string;
}.

Inductive StartTimeSource := procfs | ps_lstart | no_start_time.
Inductive DescendantEnumeration := enum_full | enum_cgroup | enum_subreaper | enum_none.
#[export] Instance DescendantEnumeration_eq_dec : EqDecision DescendantEnumeration.
Proof. solve_decision. Defined.

Record DriverCapabilityFacts := mkDriverCapabilityFacts {
  processGroupKill : bool;
  accurateStartTime : bool;
  startTimeSource : option StartTimeSource;
  descendantEnumeration : DescendantEnumeration;
  gatedSpawn : option bool;
}.

Inductive EvidenceSource := src_spawn | src_natural_exit | src_stop | src_recovery.
Inductive TreeStatus := tree_empty | tree_residual | tree_unknown.
Inductive TreeScope :=
| scope_direct_child | scope_process_group | scope_containment_cgroup
| scope_subreaper_tree | scope_tracked_tree | scope_unknown.
Inductive PipeStatus := pipe_ignored | pipe_open | pipe_closed | pipe_drained | pipe_unknown.
Inductive ContainmentKind :=
| kind_cgroup | kind_process_group | kind_tracked_tree | kind_none | kind_unknown.
Inductive ContainmentStatus := cont_held | cont_empty | cont_residual | cont_unknown.

Record TreeEvidence := mkTreeEvidence {
  tree_status : TreeStatus; tree_scope : option TreeScope;
  tree_residualPids : option (list Z); tree_source : EvidenceSource; tree_observedAt : DateStr;
}.
Record PipeEvidence := mkPipeEvidence {
  pipe_stdin : PipeStatus; pipe_stdout : PipeStatus; pipe_stderr : PipeStatus;
  pipe_source : EvidenceSource; pipe_observedAt : DateStr;
}.
Record ContainmentEvidence := mkContainmentEvidence {
  cont_kind : ContainmentKind; cont_path : option string; cont_status : ContainmentStatus;
  cont_source : EvidenceSource; cont_observedAt : DateStr;
}.

Record RecoveryEvidence := mkRecoveryEvidence {
  rev_driverName : string;
  rev_driverCapabilities : DriverCapabilityFacts;
  rev_identity : option ProcessIdentity;
  rev_tree : option TreeEvidence;
  rev_pipes : option PipeEvidence;
  rev_containment : option ContainmentEvidence;
}.

Record RequestConfigSnapshot := mkRequestConfigSnapshot {
  cfg_schemaVersion : string;
  cfg_capabilityId : option string;
  cfg_capabilityPolicyVersion : option string;
  cfg_driverName : string;
  cfg_driverVersion : string;
  cfg_driverCapabilities : list (string * jsval);
  cfg_retentionVersion : string;
  cfg_redactionVersion : string;
  cfg_config : list (string * jsval);
  cfg_digest : string;
  cfg_createdAt : DateStr;
}.

Record Run := mkRun {
  run_id : string;
  run_taskId : string;
  run_domainId : string;
  run_owner : string;
  run_status : KernelRunStatus;
  run_terminationReason : option TerminationReason;
  run_startedAt : DateStr;
  run_endedAt : option DateStr;
  run_configSnapshotWhiteList : option (list (string * jsval));
  run_configSnapshot : option RequestConfigSnapshot;
}.

(** ** Operation results *)

Inductive AdjudicationVerdict := confirmed_stopped_verdict | abandon_with_residuals.
#[export] Instance AdjudicationVerdict_eq_dec : EqDecision AdjudicationVerdict.
Proof. solve_decision. Defined.
Inductive AdjudicationDecision := dec_succeeded | dec_failed | dec_rolled_back | dec_partial.

Record AdjudicationRecord := mkAdjudicationRecord {
  adj_operationId : string;
  adj_verdict : AdjudicationVerdict;
  adj_decision : option AdjudicationDecision;
  adj_actor : string;
  adj_note : option string;
  adj_evidence : option string;
  adj_residualPids : option (list Z);
  adj_decidedAt : DateStr;
}.

Record BaseResult := mkBaseResult {
  res_durationMs : Z;
  res_completedAt : DateStr;
  res_replayed : bool;
  res_runId : option string;
  res_capabilityId : option string;
}.

Inductive ProcStatus := proc_succeeded | proc_failed | proc_cancelled.
Inductive IdentityVerificationResult :=
| is_original_process | not_original_process | cannot_determine.
#[export] Instance IdentityVerificationResult_eq_dec : EqDecision IdentityVerificationResult.
Proof. solve_decision. Defined.
Inductive TreeSettlement := settled_empty | settled_reaped | settled_unverified.
Inductive ExitEvidence := observed | unobserved.

Inductive ReadTracking := track_atime | track_unobserved | track_failed.
Record ReadEvidence := mkReadEvidence {
  rd_tracking : ReadTracking;
  rd_reason : option string;
  rd_statCachesRuledOut : bool;
  rd_roots : list string;
  rd_entryCount : option Z;
  rd_digest : option string;
  rd_ref : option string;
  rd_error : option string;
}.

Record ProcessOperationResult := mkProcessOperationResult {
  pr_status : ProcStatus;
  pr_exitCode : option Z;
  pr_signal : option string;
  pr_stdout : string;
  pr_stderr : string;
  pr_confinementDriver : option string;
  pr_confined : option bool;
  pr_isTruncated : bool;
  pr_stdoutTruncated : option bool;
  pr_stderrTruncated : option bool;
  pr_stdoutRef : option string;
  pr_stderrRef : option string;
  pr_stdoutBytes : option Z;
  pr_stderrBytes : option Z;
  pr_stdoutHash : option string;
  pr_stderrHash : option string;
  pr_outputRef : option string;
  pr_outputHash : option string;
  pr_terminationReason : option TerminationReason;
  pr_spawnFailure : option string;
  pr_peakMemoryBytes : option Z;
  pr_cpuTimeMs : option Z;
  pr_resourceSamplingError : option string;
  pr_residualProcessesReaped : option bool;
  pr_treeSettlement : option TreeSettlement;
  pr_streamCallbackError : option string;
  pr_spillError : option string;
  pr_stdoutSpillError : option string;
  pr_stderrSpillError : option string;
  pr_residualPids : option (list Z);
  pr_unreapedPids : option (list Z);
  pr_identityVerification : IdentityVerificationResult;
  pr_evidence : option ExitEvidence;
  pr_readEvidence : option ReadEvidence;
}.

Inductive FsAction := fs_create | fs_modify | fs_delete.
Record FilesystemOperationResult := mkFilesystemOperationResult {
  fr_succeeded : bool;
  fr_targetPath : string;
  fr_action : FsAction;
  fr_bytesWritten : option Z;
  fr_outputRef : option string;
  fr_errorMessage : option string;
}.

Record GenericOperationResult := mkGenericOperationResult {
  gr_status : ProcStatus;
  gr_outputRef : option string;
  gr_errorMessage : option string;
}.

Record IndeterminateResult := mkIndeterminateResult {
  ir_terminationReason : option TerminationReason;
  ir_resourceSamplingError : option string;
  ir_reason : string;
  ir_recoveryGuidance : string;
  ir_adjudication : option AdjudicationRecord;
}.

Inductive SnapshotCoverage := worktree_non_ignored | full_tree.
#[export] Instance SnapshotCoverage_eq_dec : EqDecision SnapshotCoverage.
Proof. solve_decision. Defined.

Record SnapshotRef := mkSnapshotRef {
  snap_id : string;
  snap_domainId : string;
  snap_opId : string;
  snap_driver : string;
  snap_roots : list string;
  snap_coverage : SnapshotCoverage;
  snap_treeFingerprint : string;
  snap_commitHash : option string;
  snap_journalSeq : option Z;
  snap_createdAt : DateStr;
  snap_treeSizeBytes : option Z;
  snap_ignoredManifestDigest : option string;
}.

Record SnapshotOperationResult := mkSnapshotOperationResult {
  sr_succeeded : bool;
  sr_snapshot : option SnapshotRef;
  sr_errorMessage : option string;
}.

Inductive RollbackStatus := rb_restored | rb_partial | rb_failed.
#[export] Instance RollbackStatus_eq_dec : EqDecision RollbackStatus.
Proof. solve_decision. Defined.
Inductive RollbackCoverage := cov_complete | cov_non_ignored | cov_declared_roots | cov_none.
#[export] Instance RollbackCoverage_eq_dec : EqDecision RollbackCoverage.
Proof. solve_decision. Defined.
Inductive OutOfScopeEffects := none_possible | possible.
#[export] Instance OutOfScopeEffects_eq_dec : EqDecision OutOfScopeEffects.
Proof. solve_decision. Defined.
Inductive IgnoredFiles := ign_restored | ign_unchanged_verified | ign_not_captured | ign_unverified.
#[export] Instance IgnoredFiles_eq_dec : EqDecision IgnoredFiles.
Proof. solve_decision. Defined.

Record IgnoredChanges := mkIgnoredChanges {
  ign_added : list string; ign_removed : list string;
  ign_modified : list string; ign_metadataOnly : list string;
  ign_truncated : bool;
  ign_counts : Z * Z * Z * Z;
}.

Record RollbackOperationResult := mkRollbackOperationResult {
  rr_status : RollbackStatus;
  rr_snapshotId : string;
  rr_unrestoredPaths : option (list string);
  rr_coverage : RollbackCoverage;
  rr_outOfScopeEffects : OutOfScopeEffects;
  rr_ignoredFiles : IgnoredFiles;
  rr_ignoredChanges : option IgnoredChanges;
  rr_coverageBasis : list string;
  rr_errorMessage : option string;
}.

(** The discriminated union [OperationResult]; every member extends [BaseResult]. *)
Inductive ResultBody :=
| RProcess (r : ProcessOperationResult)
| RFilesystem (r : FilesystemOperationResult)
| RGeneric (r : GenericOperationResult)
| RIndeterminate (r : IndeterminateResult)
| RSnapshot (r : SnapshotOperationResult)
| RRollback (r : RollbackOperationResult).

Record OperationResult := mkOperationResult {
  res_base : BaseResult;
  res_body : ResultBody;
}.

Definition is_indeterminate (r : OperationResult) : bool :=
  match res_body r with RIndeterminate _ => true | _ => false end.
(** [result.outputRef], absent on the members that do not declare it. *)
Definition result_outputRef (r : OperationResult) : option string :=
  match res_body r with
  | RProcess p => pr_outputRef p
  | RFilesystem f => fr_outputRef f
  | RGeneric g => gr_outputRef g
  | _ => None
  end.

(** ** Operations *)

Inductive OpKind :=
| op_process | op_filesystem | op_gate | op_custom | op_service | op_snapshot | op_rollback.
#[export] Instance OpKind_eq_dec : EqDecision OpKind.
Proof. solve_decision. Defined.

Inductive OperationStatus := st_pending | st_intent_registered | st_active | st_stopping | st_done.
#[export] Instance OperationStatus_eq_dec : EqDecision OperationStatus.
Proof. solve_decision. Defined.

(** [op_domainId] is the [domainId] the store adds to a persisted operation. *)
Record Operation := mkOperation {
  op_id : string;
  op_runId : string;
  op_domainId : string;
  op_kind : OpKind;
  op_name : string;
  op_inputFingerprint : string;
  op_requiredResources : list string;
  op_mutationRoots : option (list string);
  op_capabilityId : option string;
  op_timeoutMs : option Z;
  op_resourceBudget : option ResourceBudget;
  op_spawnGated : option bool;
  op_recoveryEvidence : option RecoveryEvidence;
  op_configSnapshot : option RequestConfigSnapshot;
  op_outputRef : option string;
  op_status : OperationStatus;
  op_result : option OperationResult;
  op_processIdentity : option ProcessIdentity;
}.

(** ** Ownership, leases, journal, artifacts *)

Record OwnerRecord := mkOwnerRecord {
  own_domainId : string;
  own_ownerId : string;
  own_epoch : Z;
  own_heartbeatAt : DateStr;
  own_expiresAt : DateStr;
  own_hostname : string;
}.

Record ResourceLease := mkResourceLease {
  lease_resourceId : string;
  lease_operationId : string;
  lease_domainId : string;
  lease_acquiredAt : DateStr;
  lease_budget : option ResourceBudget;
}.

Inductive EventSensitivity := sens_public | sens_internal | sens_sensitive | sens_secret.
#[export] Instance EventSensitivity_eq_dec : EqDecision EventSensitivity.
Proof. solve_decision. Defined.

(** [Omit<JournalEvent, 'seq'>]: what a caller hands to the journal. *)
Record EventInput := mkEventInput {
  ev_domainId : string;
  ev_runId : option string;
  ev_operationId : option string;
  ev_type : string;
  ev_payload : jsval;
  ev_timestamp : DateStr;
  ev_schemaVersion : option string;
  ev_requestId : option string;
  ev_programId : option string;
  ev_instructionId : option string;
  ev_opId : option string;
  ev_event : option string;
  ev_sensitivity : option EventSensitivity;
  ev_createdAt : option DateStr;
}.

Inductive ArtifactSensitivity := art_public | art_internal | art_secret.
Inductive ArtifactEncryptionState := enc_unknown | enc_plaintext | enc_encrypted.
Inductive ArtifactDeletionState := del_present | del_deleted | del_unknown.
#[export] Instance ArtifactDeletionState_eq_dec : EqDecision ArtifactDeletionState.
Proof. solve_decision. Defined.

Record ArtifactRecord := mkArtifactRecord {
  art_id : string;
  art_domainId : string;
  art_ownerOperationId : option string;
  art_creatingInstructionId : option string;
  art_path : string;
  art_sha256 : option string;
  art_sizeBytes : option Z;
  art_createdAt : DateStr;
  art_expiresAt : option DateStr;
  art_sensitivity : ArtifactSensitivity;
  art_encryptionState : ArtifactEncryptionState;
  art_deletionState : ArtifactDeletionState;
  art_dev : string;
  art_ino : string;
  art_birthtimeNs : string;
  art_deletedAt : option DateStr;
  art_deletionReason : option string;
}.

(** ** Capabilities *)

Record CapabilityScope := mkCapabilityScope {
  cs_write : list string;
  cs_exclusive : list string;
  cs_opcodes : list string;
  cs_workspaces : list string;
  cs_paths : list string;
  cs_secrets : list string;
}.

Record CapabilityScopeInput := mkCapabilityScopeInput {
  ci_write : option (list string);
  ci_exclusive : option (list string);
  ci_opcodes : option (list string);
  ci_workspaces : option (list string);
  ci_paths : option (list string);
  ci_secrets : option (list string);
}.

Record CapabilityLimits := mkCapabilityLimits {
  cl_cpuMs : Z;
  cl_memoryBytes : Z;
  cl_outputBytes : Z;
  cl_concurrentOps : Z;
  cl_processes : Z;
}.

(** [Partial<CapabilityLimits>] *)
Record PartialLimits := mkPartialLimits {
  pl_cpuMs : option Z;
  pl_memoryBytes : option Z;
  pl_outputBytes : option Z;
  pl_concurrentOps : option Z;
  pl_processes : option Z;
}.

Record Capability := mkCapability {
  cap_id : string;
  cap_domainId : string;
  cap_scope : CapabilityScope;
  cap_issuer : string;
  cap_policyVersion : string;
  cap_reason : string;
  cap_limits : CapabilityLimits;
  cap_expiresAt : DateStr;
  cap_parentId : option string;
  cap_epoch : Z;
  cap_createdAt : DateStr;
  cap_revokedAt : option DateStr;
}.

Inductive ViolationReason :=
| v_expired | v_revoked | v_epoch_mismatch | v_out_of_scope_resource
| v_out_of_scope_path | v_out_of_scope_opcode | v_out_of_scope_workspace
| v_out_of_scope_secret | v_budget_exceeded | v_concurrency_exceeded
| v_policy_mismatch | v_domain_mismatch | v_attenuation_widened.

(** ** Thrown errors *)

Inductive error :=
| UnsupportedCapabilityError (capability platform requestedEnforcement : string)
| EpochFencedError (domainId : string) (expectedEpoch actualEpoch : Z)
| DomainLockedError (domainId : string) (ownerPid : Z) (acquiredAt : DateStr)
| ResourceConflictError (resourceId existingOwnerOpId requestingOpId : string) (waitedDurationMs : Z)
| DuplicateOperationError (opId existingStatus existingRunId : string)
| OperationIdConflictError (opId existingFingerprint requestedFingerprint existingRunId : string)
| RecoveryRequiredError (opId : string) (status : OperationStatus) (runId : string)
| CapabilityViolationError (reason : ViolationReason)
| OperationNotActiveError (opId reason : string)
| SqliteConstraintError (table : string)
| TypeErr (what : string)
| Err (what : string).

Definition is_conflict (e : error) : bool :=
  match e with ResourceConflictError _ _ _ _ => true | _ => false end.

(** ** [sanitizeConfigSnapshot] *)

Definition SAFE_CONFIG_WHITELIST : list string :=
  ["model"; "temperature"; "maxTokens"; "cwd"; "timeoutMs"; "maxRetries"; "mode";
   "environment"; "permissionScope"; "toolsAllowed"].

Definition sensitive_config_key (key : string) : bool :=
  let lowerKey := toLowerCase key in
  includes "token" lowerKey || includes "key" lowerKey || includes "secret" lowerKey ||
  includes "password" lowerKey || includes "auth" lowerKey || includes "credential" lowerKey.

Definition is_primitive (v : jsval) : bool :=
  match v with JStr _ | JDate _ | JNum _ | JBool _ => true | _ => false end.

Definition sanitizeConfigSnapshot (config : option (list (string * jsval)))
  : list (string * jsval) :=
  match config with
  | None => []
  | Some entries =>
      foldl (λ sanitized '(key, value),
        if sensitive_config_key key then sanitized
        else if js_has SAFE_CONFIG_WHITELIST key || is_primitive value
        then jm_set sanitized key value else sanitized) [] entries
  end.

(** Every surviving entry was in the input, is not named like a credential, and
    is whitelisted or primitive. *)
Lemma sanitize_entries config k v :
  (k, v) ∈ sanitizeConfigSnapshot (Some config) →
  (k, v) ∈ config ∧ sensitive_config_key k = false ∧
  (k ∈ SAFE_CONFIG_WHITELIST ∨ is_primitive v = true).
Proof.
  unfold sanitizeConfigSnapshot.
  assert (∀ acc, (k, v) ∈ foldl (λ sanitized '(key, value),
        if sensitive_config_key key then sanitized
        else if js_has SAFE_CONFIG_WHITELIST key || is_primitive value
        then jm_set sanitized key value else sanitized) acc config →
    (k, v) ∈ acc ∨ ((k, v) ∈ config ∧ sensitive_config_key k = false ∧
    (k ∈ SAFE_CONFIG_WHITELIST ∨ is_primitive v = true))) as Hgen;
    [|intros [Hin|?]%Hgen; [by apply not_elem_of_nil in Hin|done]].
  induction config as [|[k' v'] config IH]; intros acc; simpl; [by left|].
  intros Hin. apply IH in Hin as [Hin|(?&?&?)]; [|right; set_solver].
  destruct (sensitive_config_key k') eqn:Hs; [by left|].
  destruct (_ || _) eqn:Hw; [|by left].
  apply orb_true_iff in Hw.
  assert ((k, v) ∈ jm_set acc k' v' → (k, v) ∈ acc ∨ (k, v) = (k', v')) as Hset.
  { clear. induction acc as [|[a b] acc IH]; simpl; [set_solver|].
    case_decide; set_solver. }
  apply Hset in Hin as [?|[= -> ->]]; [by left|].
  right. split_and!; [set_solver|done|].
  destruct Hw as [Hw|Hw]; [left; by apply js_has_spec|by right].
Qed.
