(* ===== verification/Events.v ===== *)
(** * Events: the journal's event envelope (src/src/store/event-envelope.ts)

    Every fact the kernel journals goes through [createEventEnvelope], which
    validates the names, checks that the payload is JSON and drops every object
    property whose name matches [SECRET_KEY], at any depth. *)

From S2P Require Import Prelude Types.

(** ** The secret-key pattern *)

Fixpoint dash_to_underscore (s : string) : string :=
  match s with
  | EmptyString => EmptyString
  | String a t => String (if bool_decide (a = "-"%char) then "_"%char else a) (dash_to_underscore t)
  end.

(** [/(prompt|secret|token|password|authorization|credential|api[_-]?key|
    environment|(?:^|[_-])env(?:$|[_-])|content|body|stdin|stdout|stderr)/iu]:
    case is folded, the separators [-] and [_] are identified, and the anchors
    of the [env] alternative become one more separator on each side. *)
Definition SECRET_KEY (key : string) : bool :=
  let k := dash_to_underscore (toLowerCase key) in
  existsb (λ word, includes word k)
    ["prompt"; "secret"; "token"; "password"; "authorization"; "credential"; "apikey";
     "api_key"; "environment"; "content"; "body"; "stdin"; "stdout"; "stderr"]
  || includes "_env_" ("_" +:+ k +:+ "_").

Definition isRecord (v : jsval) : bool :=
  match v with JObj _ => true | _ => false end.

(** ** [jsonValue]: JSON check and redaction in one traversal *)

Definition is_undefined (v : jsval) : bool :=
  match v with JUndef => true | _ => false end.

(** The [for (const [key, item] of Object.entries(value))] loop. *)
Definition map_fields (f : jsval → outcome error jsval)
  : list (string * jsval) → outcome error (list (string * jsval)) :=
  fix go fs := match fs with
  | [] => Ok []
  | (key, item) :: rest =>
      if SECRET_KEY key then go rest
      else if is_undefined item then go rest
      else item' ← f item; rest' ← go rest; Ok ((key, item') :: rest')
  end.

Fixpoint jsonValue (v : jsval) : outcome error jsval :=
  match v with
  | JNull | JStr _ | JDate _ | JBool _ => Ok v
  | JNum (NumFin _) => Ok v
  | JNum _ => Throw (TypeErr "non-finite number")
  | JArr l => l' ← map_outcome jsonValue l; Ok (JArr l')
  | JUndef | JOpaque => Throw (TypeErr "non-JSON value")
  | JObj fs => fs' ← map_fields jsonValue fs; Ok (JObj fs')
  end.

Definition redactEventPayload (payload : jsval) (sensitivity : EventSensitivity)
  : outcome error jsval :=
  if decide (sensitivity = sens_secret) then Ok (JObj [("redacted", JBool true)])
  else
    value ← jsonValue (match payload with JUndef | JNull => JObj [] | p => p end);
    if isRecord value then Ok value else Throw (TypeErr "event payload must be an object").

(** ** Names *)

Definition is_alpha (a : ascii) : bool :=
  let n := nat_of_ascii a in
  ((65 <=? n)%nat && (n <=? 90)%nat) || ((97 <=? n)%nat && (n <=? 122)%nat).
Definition is_digit (a : ascii) : bool :=
  let n := nat_of_ascii a in (48 <=? n)%nat && (n <=? 57)%nat.
Fixpoint all_chars (p : ascii → bool) (s : string) : bool :=
  match s with EmptyString => true | String a t => p a && all_chars p t end.
(** The value of a string of decimal digits. *)
Fixpoint digits_value (acc : Z) (s : string) : option Z :=
  match s with
  | EmptyString => Some acc
  | String a t =>
      if is_digit a then digits_value (10 * acc + Z.of_nat (nat_of_ascii a - 48))%Z t else None
  end.
Definition one_of (chars : list ascii) (a : ascii) : bool := bool_decide (a ∈ chars).

(** [/^[A-Za-z][class]{0,n}$/] *)
Definition name_regex (cls : ascii → bool) (n : nat) (s : string) : bool :=
  match s with
  | EmptyString => false
  | String a t => is_alpha a && all_chars cls t && (String.length t <=? n)%nat
  end.
Definition schema_version_regex : string → bool :=
  name_regex (λ a, is_alpha a || is_digit a || one_of ["."; "_"; "/"; "-"]%char a) 63.
Definition event_name_regex : string → bool :=
  name_regex (λ a, is_alpha a || is_digit a || one_of ["."; "_"; ":"; "-"]%char a) 127.

(** ** Envelopes *)

Record EventEnvelope := mkEventEnvelope {
  env_schemaVersion : string;
  env_domainId : string;
  env_requestId : option string;
  env_programId : option string;
  env_instructionId : option string;
  env_opId : option string;
  env_event : string;
  env_payload : jsval;
  env_sensitivity : EventSensitivity;
  env_createdAt : DateStr;
}.

Record EventEnvelopeInput := mkEventEnvelopeInput {
  in_schemaVersion : option string;
  in_domainId : string;
  in_requestId : option string;
  in_programId : option string;
  in_instructionId : option string;
  in_opId : option string;
  in_event : string;
  in_payload : jsval;
  in_sensitivity : option EventSensitivity;
  in_createdAt : option DateStr;
}.

Definition createEventEnvelope (now : Z) (input : EventEnvelopeInput)
  : outcome error EventEnvelope :=
  if negb (truthy_str (in_domainId input)) || negb (truthy_str (in_event input))
  then Throw (TypeErr "event envelope requires domainId and event")
  else
  let schemaVersion := nullish (in_schemaVersion input) "xio/event/1.0" in
  let sensitivity := nullish (in_sensitivity input) sens_internal in
  if negb (schema_version_regex schemaVersion) then Throw (TypeErr "invalid event schemaVersion")
  else if negb (event_name_regex (in_event input)) then Throw (TypeErr "invalid event name")
  else
  payload ← redactEventPayload (in_payload input) sensitivity;
  Ok {| env_schemaVersion := schemaVersion;
        env_domainId := in_domainId input;
        env_requestId := in_requestId input;
        env_programId := in_programId input;
        env_instructionId := in_instructionId input;
        env_opId := in_opId input;
        env_event := in_event input;
        env_payload := payload;
        env_sensitivity := sensitivity;
        env_createdAt := nullish (in_createdAt input) (Iso now) |}.

(** ** Redacted JSON *)

(** [v] is JSON (no [undefined], no opaque value, finite numbers) and no object
    in it, at any depth, has a property named like a secret. *)
Inductive redacted : jsval → Prop :=
| red_null : redacted JNull
| red_bool b : redacted (JBool b)
| red_num z : redacted (JNum (NumFin z))
| red_str s : redacted (JStr s)
| red_date d : redacted (JDate d)
| red_arr l : Forall redacted l → redacted (JArr l)
| red_obj fs : Forall (λ kv, SECRET_KEY kv.1 = false ∧ redacted kv.2) fs → redacted (JObj fs).

Lemma map_outcome_Forall {E A B} (P : B → Prop) (f : A → outcome E B) l l' :
  (Forall (λ x, ∀ y, f x = Ok y → P y) l) →
  map_outcome f l = Ok l' → Forall P l'.
Proof.
  intros HF. revert l'. induction HF as [|x l Hx HF IH]; simpl; intros l' Hl.
  - by simplify_eq.
  - apply bind_Ok in Hl as (y & Hy & (ys & Hys & [= <-])%bind_Ok).
    constructor; eauto.
Qed.

Lemma jsonValue_redacted v : ∀ w, jsonValue v = Ok w → redacted w.
Proof.
  induction v as [| |b|n|s|d|l IH|fs IH|] using jsval_nested_ind; intros w Hw;
    simpl in Hw; simplify_eq; try by constructor.
  - destruct n; simplify_eq. constructor.
  - apply bind_Ok in Hw as (l' & Hl' & [= <-]). constructor.
    eapply map_outcome_Forall; [|exact Hl']. done.
  - apply bind_Ok in Hw as (fs' & Hfs' & [= <-]). constructor.
    revert fs' Hfs'. induction IH as [|[k item] fs Hk HF IHfs]; intros fs' Hfs'; simpl in *;
      [by simplify_eq|].
    destruct (SECRET_KEY k) eqn:Hs; [eauto|].
    destruct (is_undefined item); [eauto|].
    apply bind_Ok in Hfs' as (item' & Hi & (rest' & Hr & [= <-])%bind_Ok).
    constructor; [split; simpl; eauto|eauto].
Qed.

(** Redaction leaves redacted JSON alone. *)
Lemma jsonValue_fix v : redacted v → jsonValue v = Ok v.
Proof.
  induction v as [| |b|n|s|d|l IH|fs IH|] using jsval_nested_ind; intros Hv;
    inversion Hv as [| | | | |l' Hl|fs' Hfs]; subst; simpl; try done.
  - assert (map_outcome jsonValue l = Ok l) as ->; [|done].
    clear Hv. induction IH as [|x l Hx HF IHl]; simpl; [done|].
    inversion Hl; subst. rewrite Hx //= IHl //.
  - assert (map_fields jsonValue fs = Ok fs) as ->; [|done].
    clear Hv. induction IH as [|[k item] fs Hk HF IHfs]; simpl in *; [done|].
    inversion Hfs as [|? ? [Hs Hr] Hfs']; subst; simpl in *.
    rewrite Hs. assert (is_undefined item = false) as -> by by destruct Hr.
    rewrite Hk //= IHfs //.
Qed.

Lemma redactEventPayload_redacted p s w : redactEventPayload p s = Ok w → redacted w.
Proof.
  unfold redactEventPayload. case_decide; intros Hw.
  - simplify_eq. repeat constructor.
  - apply bind_Ok in Hw as (v & Hv & Hw). destruct (isRecord v); simplify_eq.
    by eapply jsonValue_redacted.
Qed.

Lemma createEventEnvelope_fields now input e :
  createEventEnvelope now input = Ok e →
  env_domainId e = in_domainId input ∧ env_event e = in_event input ∧
  env_opId e = in_opId input ∧ redacted (env_payload e) ∧
  event_name_regex (env_event e) = true ∧ truthy_str (in_domainId input) = true.
Proof.
  unfold createEventEnvelope. intros He.
  destruct (truthy_str (in_domainId input)) eqn:Hd; [|done].
  destruct (truthy_str (in_event input)); [|done]. simpl in He.
  destruct (schema_version_regex _); [|done]. simpl in He.
  destruct (event_name_regex _) eqn:Hn; [|done]. simpl in He.
  apply bind_Ok in He as (p & Hp%redactEventPayload_redacted & [= <-]).
  by split_and!.
Qed.
