(* ===== verification/Encode.v ===== *)
(** * Encode: the kernel's records as the JavaScript objects they are

    The store hands records (a result, a process identity, a budget) to the
    journal inside event payloads. These functions give the object each record
    of [Types] is: one property per field, [undefined] where the field is
    absent, the string literal of each enumeration. *)

From S2P Require Import Prelude Types.

Definition run_status_name (s : KernelRunStatus) : string :=
  match s with
  | run_queued => "queued" | run_starting => "starting" | run_running => "running"
  | run_stopping => "stopping" | run_succeeded => "succeeded" | run_failed => "failed"
  | run_cancelled => "cancelled" | run_indeterminate => "indeterminate"
  end.
Definition op_status_name (s : OperationStatus) : string :=
  match s with
  | st_pending => "pending" | st_intent_registered => "intent_registered"
  | st_active => "active" | st_stopping => "stopping" | st_done => "done"
  end.
Definition op_kind_name (k : OpKind) : string :=
  match k with
  | op_process => "process" | op_filesystem => "filesystem" | op_gate => "gate"
  | op_custom => "custom" | op_service => "service" | op_snapshot => "snapshot"
  | op_rollback => "rollback"
  end.
Definition termination_reason_name (r : TerminationReason) : string :=
  match r with
  | completed => "completed" | user_cancelled => "user_cancelled" | timed_out => "timed_out"
  | resource_preempted => "resource_preempted" | crash_detected => "crash_detected"
  | exit_unobserved => "exit_unobserved" | memory_exceeded => "memory_exceeded"
  | cpu_exceeded => "cpu_exceeded" | pids_exceeded => "pids_exceeded"
  | output_exceeded => "output_exceeded" | observation_failed => "observation_failed"
  end.
Definition enforcement_name (e : Enforcement) : string :=
  match e with observe => "observe" | soft => "soft" | hard => "hard" end.
Definition proc_status_name (s : ProcStatus) : string :=
  match s with
  | proc_succeeded => "succeeded" | proc_failed => "failed" | proc_cancelled => "cancelled"
  end.
Definition identity_name (v : IdentityVerificationResult) : string :=
  match v with
  | is_original_process => "is_original_process"
  | not_original_process => "not_original_process"
  | cannot_determine => "cannot_determine"
  end.
Definition settlement_name (t : TreeSettlement) : string :=
  match t with
  | settled_empty => "empty" | settled_reaped => "reaped" | settled_unverified => "unverified"
  end.

Definition js_strings (l : list string) : jsval := JArr (map JStr l).
Definition js_pids (l : list Z) : jsval := JArr (map JZ l).

Definition js_budget (b : ResourceBudget) : jsval := JObj
  [("maxMemoryBytes", jopt JZ (maxMemoryBytes b)); ("maxPids", jopt JZ (maxPids b));
   ("maxCpuTimeMs", jopt JZ (maxCpuTimeMs b)); ("maxOutputBytes", jopt JZ (maxOutputBytes b));
   ("enforcement", JStr (enforcement_name (enforcement b)))].

Definition js_identity (i : ProcessIdentity) : jsval := JObj
  [("pid", JZ (pid i)); ("pgid", jopt JZ (pgid i));
   ("startTimeMonotonic", jopt JZ (startTimeMonotonic i)); ("spawnTime", JDate (spawnTime i));
   ("osStartTime", jopt JDate (osStartTime i));
   ("commandFingerprint", jopt JStr (commandFingerprint i));
   ("bootId", jopt JStr (bootId i)); ("cgroupPath", jopt JStr (cgroupPath i))].

Definition verdict_name (v : AdjudicationVerdict) : string :=
  match v with
  | confirmed_stopped_verdict => "confirmed_stopped"
  | abandon_with_residuals => "abandon_with_residuals"
  end.
Definition decision_name (d : AdjudicationDecision) : string :=
  match d with
  | dec_succeeded => "succeeded" | dec_failed => "failed"
  | dec_rolled_back => "rolled_back" | dec_partial => "partial"
  end.

Definition adjudication_fields (a : AdjudicationRecord) : list (string * jsval) :=
  [("operationId", JStr (adj_operationId a)); ("verdict", JStr (verdict_name (adj_verdict a)));
   ("decision", jopt (λ d, JStr (decision_name d)) (adj_decision a));
   ("actor", JStr (adj_actor a)); ("note", jopt JStr (adj_note a));
   ("evidence", jopt JStr (adj_evidence a));
   ("residualPids", jopt js_pids (adj_residualPids a)); ("decidedAt", JDate (adj_decidedAt a))].

Definition tracking_name (t : ReadTracking) : string :=
  match t with
  | track_atime => "atime" | track_unobserved => "unobserved" | track_failed => "failed"
  end.
Definition js_read_evidence (r : ReadEvidence) : jsval := JObj
  [("tracking", JStr (tracking_name (rd_tracking r))); ("reason", jopt JStr (rd_reason r));
   ("scope", JStr "content_reads");
   ("statCaches", JStr (if rd_statCachesRuledOut r then "ruled_out" else "possible"));
   ("roots", js_strings (rd_roots r)); ("entryCount", jopt JZ (rd_entryCount r));
   ("digest", jopt JStr (rd_digest r)); ("ref", jopt JStr (rd_ref r));
   ("error", jopt JStr (rd_error r))].

Definition process_fields (p : ProcessOperationResult) : list (string * jsval) :=
  [("kind", JStr "process"); ("status", JStr (proc_status_name (pr_status p)));
   ("exitCode", match pr_exitCode p with Some n => JZ n | None => JNull end);
   ("signal", match pr_signal p with Some s => JStr s | None => JNull end);
   ("stdout", JStr (pr_stdout p)); ("stderr", JStr (pr_stderr p));
   ("confinementDriver", jopt JStr (pr_confinementDriver p));
   ("confined", jopt JBool (pr_confined p)); ("isTruncated", JBool (pr_isTruncated p));
   ("stdoutTruncated", jopt JBool (pr_stdoutTruncated p));
   ("stderrTruncated", jopt JBool (pr_stderrTruncated p));
   ("stdoutRef", jopt JStr (pr_stdoutRef p)); ("stderrRef", jopt JStr (pr_stderrRef p));
   ("stdoutBytes", jopt JZ (pr_stdoutBytes p)); ("stderrBytes", jopt JZ (pr_stderrBytes p));
   ("stdoutHash", jopt JStr (pr_stdoutHash p)); ("stderrHash", jopt JStr (pr_stderrHash p));
   ("outputRef", jopt JStr (pr_outputRef p)); ("outputHash", jopt JStr (pr_outputHash p));
   ("terminationReason", jopt (λ r, JStr (termination_reason_name r)) (pr_terminationReason p));
   ("spawnFailure", jopt JStr (pr_spawnFailure p));
   ("peakMemoryBytes", jopt JZ (pr_peakMemoryBytes p)); ("cpuTimeMs", jopt JZ (pr_cpuTimeMs p));
   ("resourceSamplingError", jopt JStr (pr_resourceSamplingError p));
   ("residualProcessesReaped", jopt JBool (pr_residualProcessesReaped p));
   ("treeSettlement", jopt (λ t, JStr (settlement_name t)) (pr_treeSettlement p));
   ("streamCallbackError", jopt JStr (pr_streamCallbackError p));
   ("spillError", jopt JStr (pr_spillError p));
   ("stdoutSpillError", jopt JStr (pr_stdoutSpillError p));
   ("stderrSpillError", jopt JStr (pr_stderrSpillError p));
   ("residualPids", jopt js_pids (pr_residualPids p));
   ("unreapedPids", jopt js_pids (pr_unreapedPids p));
   ("identityVerification", JStr (identity_name (pr_identityVerification p)));
   ("evidence", jopt (λ e, JStr (match e with observed => "observed" | unobserved => "unobserved" end))
     (pr_evidence p));
   ("readEvidence", jopt js_read_evidence (pr_readEvidence p))].

Definition js_snapshot_ref (s : SnapshotRef) : jsval := JObj
  [("id", JStr (snap_id s)); ("domainId", JStr (snap_domainId s)); ("opId", JStr (snap_opId s));
   ("driver", JStr (snap_driver s)); ("roots", js_strings (snap_roots s));
   ("coverage", JStr (match snap_coverage s with
     worktree_non_ignored => "worktree_non_ignored" | full_tree => "full_tree" end));
   ("treeFingerprint", JStr (snap_treeFingerprint s));
   ("commitHash", jopt JStr (snap_commitHash s)); ("journalSeq", jopt JZ (snap_journalSeq s));
   ("createdAt", JDate (snap_createdAt s)); ("treeSizeBytes", jopt JZ (snap_treeSizeBytes s));
   ("ignoredManifestDigest", jopt JStr (snap_ignoredManifestDigest s))].

Definition js_ignored_changes (i : IgnoredChanges) : jsval :=
  let '(a, r, m, o) := ign_counts i in JObj
  [("added", js_strings (ign_added i)); ("removed", js_strings (ign_removed i));
   ("modified", js_strings (ign_modified i)); ("metadataOnly", js_strings (ign_metadataOnly i));
   ("truncated", JBool (ign_truncated i));
   ("counts", JObj [("added", JZ a); ("removed", JZ r); ("modified", JZ m); ("metadataOnly", JZ o)])].

Definition rollback_fields (r : RollbackOperationResult) : list (string * jsval) :=
  [("kind", JStr "rollback");
   ("status", JStr (match rr_status r with
     rb_restored => "restored" | rb_partial => "partial" | rb_failed => "failed" end));
   ("snapshotId", JStr (rr_snapshotId r));
   ("unrestoredPaths", jopt js_strings (rr_unrestoredPaths r));
   ("coverage", JStr (match rr_coverage r with cov_complete => "complete"
     | cov_non_ignored => "non_ignored" | cov_declared_roots => "declared_roots"
     | cov_none => "none" end));
   ("outOfScopeEffects", JStr (match rr_outOfScopeEffects r with
     none_possible => "none_possible" | possible => "possible" end));
   ("ignoredFiles", JStr (match rr_ignoredFiles r with ign_restored => "restored"
     | ign_unchanged_verified => "unchanged_verified" | ign_not_captured => "not_captured"
     | ign_unverified => "unverified" end));
   ("ignoredChanges", jopt js_ignored_changes (rr_ignoredChanges r));
   ("coverageBasis", js_strings (rr_coverageBasis r));
   ("errorMessage", jopt JStr (rr_errorMessage r))].

Definition body_fields (b : ResultBody) : list (string * jsval) :=
  match b with
  | RProcess p => process_fields p
  | RFilesystem f =>
      [("kind", JStr "filesystem"); ("status", JStr (if fr_succeeded f then "succeeded" else "failed"));
       ("targetPath", JStr (fr_targetPath f));
       ("action", JStr (match fr_action f with
         fs_create => "create" | fs_modify => "modify" | fs_delete => "delete" end));
       ("bytesWritten", jopt JZ (fr_bytesWritten f)); ("outputRef", jopt JStr (fr_outputRef f));
       ("errorMessage", jopt JStr (fr_errorMessage f))]
  | RGeneric g =>
      [("kind", JStr "generic"); ("status", JStr (proc_status_name (gr_status g)));
       ("outputRef", jopt JStr (gr_outputRef g)); ("errorMessage", jopt JStr (gr_errorMessage g))]
  | RIndeterminate i =>
      [("kind", JStr "indeterminate"); ("status", JStr "indeterminate");
       ("terminationReason", jopt (λ r, JStr (termination_reason_name r)) (ir_terminationReason i));
       ("resourceSamplingError", jopt JStr (ir_resourceSamplingError i));
       ("reason", JStr (ir_reason i)); ("recoveryGuidance", JStr (ir_recoveryGuidance i));
       ("adjudication", jopt (λ a, JObj (adjudication_fields a)) (ir_adjudication i))]
  | RSnapshot s =>
      [("kind", JStr "snapshot"); ("status", JStr (if sr_succeeded s then "succeeded" else "failed"));
       ("snapshot", jopt js_snapshot_ref (sr_snapshot s));
       ("errorMessage", jopt JStr (sr_errorMessage s))]
  | RRollback r => rollback_fields r
  end.

Definition js_result (r : OperationResult) : jsval := JObj
  (body_fields (res_body r) ++
   [("durationMs", JZ (res_durationMs (res_base r)));
    ("completedAt", JDate (res_completedAt (res_base r)));
    ("replayed", if res_replayed (res_base r) then JBool true else JUndef);
    ("runId", jopt JStr (res_runId (res_base r)));
    ("capabilityId", jopt JStr (res_capabilityId (res_base r)))]).
