(* ===== verification/Config.v ===== *)
(** * Config: the immutable request binding (src/src/config/snapshot.ts)

    A request is bound, before admission, to a snapshot of its configuration
    with the credentials scrubbed out and a digest over the rest; the store and
    the recovery engine re-verify the binding before they use it. SHA-256 over
    the canonical JSON is Node's: the class [Crypto] stands for it. *)

From stdpp Require Import sorting.
From S2P Require Import Prelude Types Events.

Class Crypto := sha256_json : jsval → string.

Definition CONFIG_SCHEMA_VERSION : string := "xio/config/1".
Definition RETENTION_POLICY_VERSION : string := "xio/retention/1".
Definition REDACTION_POLICY_VERSION : string := "xio/redaction/1".

(** [/(token|secret|password|authorization|credential|api[_-]?key|private[_-]?key)/iu] *)
Definition CONFIG_SECRET_KEY (key : string) : bool :=
  let k := dash_to_underscore (toLowerCase key) in
  existsb (λ word, includes word k)
    ["token"; "secret"; "password"; "authorization"; "credential"; "apikey"; "api_key";
     "privatekey"; "private_key"].

(** [/keys$/iu] *)
Definition keys_suffix (key : string) : bool := endsWith (toLowerCase key) "keys".
Definition scrubbed_key (key : string) : bool := CONFIG_SECRET_KEY key && negb (keys_suffix key).

(** [.sort()] on property names. *)
Definition field_le (a b : string * jsval) : Prop := String.leb a.1 b.1 = true.
#[export] Instance field_le_dec a b : Decision (field_le a b).
Proof. unfold field_le. apply _. Defined.
Definition sort_fields : list (string * jsval) → list (string * jsval) := merge_sort field_le.

(** [[...value].sort()] on an array of strings. *)
Definition string_value (v : jsval) : string := match v with JStr s => s | _ => "" end.
Definition value_le (a b : jsval) : Prop := String.leb (string_value a) (string_value b) = true.
#[export] Instance value_le_dec a b : Decision (value_le a b).
Proof. unfold value_le. apply _. Defined.

(** [scrub(value)]; the key test is made where a property is visited. *)
Definition scrub_fields (f : jsval → option jsval)
  : list (string * jsval) → list (string * jsval) :=
  fix go fs := match fs with
  | [] => []
  | (key, item) :: rest =>
      if scrubbed_key key then go rest
      else match f item with
      | Some entry => (key, entry) :: go rest
      | None => go rest
      end
  end.

Fixpoint scrub (v : jsval) : option jsval :=
  match v with
  | JNull | JStr _ | JDate _ | JBool _ => Some v
  | JNum (NumFin _) => Some v
  | JNum _ => None
  | JArr l => Some (JArr (omap scrub l))
  | JObj fs => Some (JObj (sort_fields (scrub_fields scrub fs)))
  | JUndef | JOpaque => None
  end.

Fixpoint isJsonValue (v : jsval) : bool :=
  match v with
  | JNull | JStr _ | JDate _ | JBool _ => true
  | JNum (NumFin _) => true
  | JNum _ => false
  | JArr l => forallb isJsonValue l
  | JObj fs => forallb (λ kv, isJsonValue kv.2) fs
  | JUndef | JOpaque => false
  end.

Definition is_string (v : jsval) : bool :=
  match v with JStr _ | JDate _ => true | _ => false end.

(** [driverFacts]: the driver is its name and its capability object. *)
Definition driverFacts (capabilities : list (string * jsval)) : list (string * jsval) :=
  omap (λ '(key, value), match value with
    | JArr l => Some (key, JArr (merge_sort value_le l))
    | JBool _ | JStr _ | JDate _ => Some (key, value)
    | _ => None
    end) (sort_fields capabilities).

(** The object the digest is taken over: the snapshot less its [digest]. *)
Definition without_digest (s : RequestConfigSnapshot) : jsval := JObj
  [("schemaVersion", JStr (cfg_schemaVersion s));
   ("capabilityId", jopt JStr (cfg_capabilityId s));
   ("capabilityPolicyVersion", jopt JStr (cfg_capabilityPolicyVersion s));
   ("driverName", JStr (cfg_driverName s)); ("driverVersion", JStr (cfg_driverVersion s));
   ("driverCapabilities", JObj (cfg_driverCapabilities s));
   ("retentionVersion", JStr (cfg_retentionVersion s));
   ("redactionVersion", JStr (cfg_redactionVersion s));
   ("config", JObj (cfg_config s)); ("createdAt", JDate (cfg_createdAt s))].

Definition is_hex (a : ascii) : bool :=
  is_digit a || (let n := nat_of_ascii a in (97 <=? n)%nat && (n <=? 102)%nat).
Definition digest_regex (s : string) : bool :=
  all_chars is_hex s && (String.length s =? 64)%nat.

Definition capability_fact_ok (v : jsval) : bool :=
  match v with
  | JBool _ | JStr _ | JDate _ => true
  | JArr l => forallb is_string l
  | _ => false
  end.

Record RequestConfigSnapshotInput := mkRequestConfigSnapshotInput {
  rci_driverName : string;
  rci_driverCapabilities : list (string * jsval);
  rci_capabilityId : option string;
  rci_capabilityPolicyVersion : option string;
  rci_driverVersion : option string;
  rci_config : list (string * jsval);
  rci_retentionVersion : option string;
  rci_redactionVersion : option string;
}.

Section Snapshot.
Context `{Crypto}.

Definition createRequestConfigSnapshot (now : Z) (input : RequestConfigSnapshotInput)
  : RequestConfigSnapshot :=
  let s := {|
    cfg_schemaVersion := CONFIG_SCHEMA_VERSION;
    cfg_capabilityId := rci_capabilityId input;
    cfg_capabilityPolicyVersion := rci_capabilityPolicyVersion input;
    cfg_driverName := rci_driverName input;
    cfg_driverVersion := nullish (rci_driverVersion input) (rci_driverName input +:+ "/1.0");
    cfg_driverCapabilities := driverFacts (rci_driverCapabilities input);
    cfg_retentionVersion := nullish (rci_retentionVersion input) RETENTION_POLICY_VERSION;
    cfg_redactionVersion := nullish (rci_redactionVersion input) REDACTION_POLICY_VERSION;
    cfg_config := sort_fields (scrub_fields scrub (rci_config input));
    cfg_digest := "";
    cfg_createdAt := Iso now |} in
  {| cfg_schemaVersion := cfg_schemaVersion s;
     cfg_capabilityId := cfg_capabilityId s;
     cfg_capabilityPolicyVersion := cfg_capabilityPolicyVersion s;
     cfg_driverName := cfg_driverName s;
     cfg_driverVersion := cfg_driverVersion s;
     cfg_driverCapabilities := cfg_driverCapabilities s;
     cfg_retentionVersion := cfg_retentionVersion s;
     cfg_redactionVersion := cfg_redactionVersion s;
     cfg_config := cfg_config s;
     cfg_digest := sha256_json (without_digest s);
     cfg_createdAt := cfg_createdAt s |}.

(** The type tests that a typed snapshot passes by construction are left out. *)
Definition assertRequestConfigSnapshot (s : RequestConfigSnapshot) : outcome error unit :=
  if negb (bool_decide (cfg_schemaVersion s = CONFIG_SCHEMA_VERSION))
  then Throw (Err "Unsupported config snapshot schema")
  else if negb (truthy_str (cfg_driverName s) && truthy_str (cfg_driverVersion s)
    && truthy_str (cfg_retentionVersion s) && truthy_str (cfg_redactionVersion s))
  then Throw (Err "Config snapshot is incomplete")
  else if negb (forallb (λ kv, capability_fact_ok kv.2) (cfg_driverCapabilities s))
  then Throw (Err "Config snapshot driverCapabilities contains an invalid value")
  else if negb (isJsonValue (JObj (cfg_config s)))
  then Throw (Err "Config snapshot config is invalid")
  else if is_undef (getTime (cfg_createdAt s))
  then Throw (Err "Config snapshot createdAt is invalid")
  else if negb (digest_regex (cfg_digest s)) then Throw (Err "Config snapshot digest is invalid")
  else if negb (bool_decide (sha256_json (without_digest s) = cfg_digest s))
  then Throw (Err "Config snapshot digest mismatch")
  else Ok tt.
End Snapshot.
