(* ===== verification/Store.v ===== *)
(** * Store: the durable state (src/src/store/sqlite.ts, store/schema.ts)

    The SQLite database is a record of tables; a table is the list of its rows
    in rowid order, and the constraints of the schema (primary keys, foreign
    keys, [AUTOINCREMENT]) are checked where SQLite checks them. A [SqliteStore]
    is a handle on that database with the epoch it writes under. A row holds the
    value whose JSON the column stores: [JSON.parse(JSON.stringify(v))] is the
    identity on the values the kernel stores. Each method runs at one instant
    [now]; [kill0 p] is the answer of [process.kill(p, 0)]. *)

From S2P Require Import Prelude Types Events Encode Config.

(** ** Tables *)

Record JournalRow := mkJournalRow {
  je_seq : Z;
  je_domain_id : string;
  je_run_id : option string;
  je_operation_id : option string;
  je_type : string;
  je_payload : jsval;
  je_timestamp : DateStr;
  je_schema_version : string;
  je_request_id : option string;
  je_program_id : option string;
  je_instruction_id : option string;
  je_op_id : option string;
  je_event : string;
  je_sensitivity : EventSensitivity;
  je_created_at : DateStr;
}.

Record Db := mkDb {
  db_owners : list OwnerRecord;
  db_tasks : list Task;
  db_runs : list Run;
  db_operations : list Operation;
  db_resource_leases : list ResourceLease;
  db_journal_events : list JournalRow;
  db_journal_seq : Z; (* the last AUTOINCREMENT value *)
  db_snapshots : list SnapshotRef;
  db_capabilities : list Capability;
  db_artifacts : list ArtifactRecord;
}.

Definition empty_db : Db := mkDb [] [] [] [] [] [] 0 [] [] [].

Record SqliteStore := mkStore {
  db : Db;
  currentEpoch : option Z;
  inTransaction : bool;
}.

Notation SM := (ST error SqliteStore).

(** ** Column and table updates *)

Definition with_owners (f : list OwnerRecord → list OwnerRecord) (d : Db) : Db :=
  mkDb (f (db_owners d)) (db_tasks d) (db_runs d) (db_operations d) (db_resource_leases d)
    (db_journal_events d) (db_journal_seq d) (db_snapshots d) (db_capabilities d) (db_artifacts d).
Definition with_tasks (f : list Task → list Task) (d : Db) : Db :=
  mkDb (db_owners d) (f (db_tasks d)) (db_runs d) (db_operations d) (db_resource_leases d)
    (db_journal_events d) (db_journal_seq d) (db_snapshots d) (db_capabilities d) (db_artifacts d).
Definition with_runs (f : list Run → list Run) (d : Db) : Db :=
  mkDb (db_owners d) (db_tasks d) (f (db_runs d)) (db_operations d) (db_resource_leases d)
    (db_journal_events d) (db_journal_seq d) (db_snapshots d) (db_capabilities d) (db_artifacts d).
Definition with_operations (f : list Operation → list Operation) (d : Db) : Db :=
  mkDb (db_owners d) (db_tasks d) (db_runs d) (f (db_operations d)) (db_resource_leases d)
    (db_journal_events d) (db_journal_seq d) (db_snapshots d) (db_capabilities d) (db_artifacts d).
Definition with_leases (f : list ResourceLease → list ResourceLease) (d : Db) : Db :=
  mkDb (db_owners d) (db_tasks d) (db_runs d) (db_operations d) (f (db_resource_leases d))
    (db_journal_events d) (db_journal_seq d) (db_snapshots d) (db_capabilities d) (db_artifacts d).
Definition with_journal (row : JournalRow) (d : Db) : Db :=
  mkDb (db_owners d) (db_tasks d) (db_runs d) (db_operations d) (db_resource_leases d)
    (db_journal_events d ++ [row]) (je_seq row) (db_snapshots d) (db_capabilities d) (db_artifacts d).
Definition with_snapshots (f : list SnapshotRef → list SnapshotRef) (d : Db) : Db :=
  mkDb (db_owners d) (db_tasks d) (db_runs d) (db_operations d) (db_resource_leases d)
    (db_journal_events d) (db_journal_seq d) (f (db_snapshots d)) (db_capabilities d) (db_artifacts d).
Definition with_capabilities (f : list Capability → list Capability) (d : Db) : Db :=
  mkDb (db_owners d) (db_tasks d) (db_runs d) (db_operations d) (db_resource_leases d)
    (db_journal_events d) (db_journal_seq d) (db_snapshots d) (f (db_capabilities d)) (db_artifacts d).
Definition with_artifacts (f : list ArtifactRecord → list ArtifactRecord) (d : Db) : Db :=
  mkDb (db_owners d) (db_tasks d) (db_runs d) (db_operations d) (db_resource_leases d)
    (db_journal_events d) (db_journal_seq d) (db_snapshots d) (db_capabilities d) (f (db_artifacts d)).

(** A statement executed on the connection. *)
Definition exec (f : Db → Db) : SM unit :=
  modify (λ s, mkStore (f (db s)) (currentEpoch s) (inTransaction s)).
Definition query {A} (f : Db → A) : SM A := gets (λ s, f (db s)).
Definition set_currentEpoch (e : option Z) : SM unit :=
  modify (λ s, mkStore (db s) e (inTransaction s)).
Definition set_inTransaction (b : bool) : SM unit :=
  modify (λ s, mkStore (db s) (currentEpoch s) b).

(** ** Transactions and fencing *)

(** [transaction(fn)]: nested calls join; a throw rolls the tables back, not the
    handle's in-memory epoch. *)
Definition transaction {A} (fn : SM A) : SM A := λ s,
  if inTransaction s then fn s
  else
    let '(o, s') := fn (mkStore (db s) (currentEpoch s) true) in
    match o with
    | Ok a => (Ok a, mkStore (db s') (currentEpoch s') false)
    | Throw e => (Throw e, mkStore (db s) (currentEpoch s') false)
    end.

(** [fence()] *)
Definition fence : SM unit := set_currentEpoch (Some (-1)%Z).

Definition find_owner (domainId : string) (d : Db) : option OwnerRecord :=
  List.find (λ o, bool_decide (own_domainId o = domainId)) (db_owners d).
Definition getOwner (domainId : string) : SM (option OwnerRecord) := query (find_owner domainId).

(** The epoch test of [verifyEpochFencing], as a function of the handle. *)
Definition fencing_error (domainId : string) (s : SqliteStore) : option error :=
  match currentEpoch s with
  | None => None
  | Some e =>
      match find_owner domainId (db s) with
      | Some owner => if bool_decide (own_epoch owner = e) then None
                      else Some (EpochFencedError domainId e (own_epoch owner))
      | None => None
      end
  end.
Definition verifyEpochFencing (domainId : string) : SM unit :=
  o ← gets (fencing_error domainId);
  match o with Some e => throw e | None => mret tt end.

(** ** Owner leases *)

(** [Number(ownerId.split('-')[1]) || 0], for decimal pids. *)
Fixpoint until_dash (s : string) : string :=
  match s with
  | EmptyString => EmptyString
  | String a t => if bool_decide (a = "-"%char) then EmptyString else String a (until_dash t)
  end.
Fixpoint after_dash (s : string) : string :=
  match s with
  | EmptyString => EmptyString
  | String a t => if bool_decide (a = "-"%char) then t else after_dash t
  end.
Definition ownerPidOf (ownerId : string) : Z :=
  default 0%Z (digits_value 0 (until_dash (after_dash ownerId))).

Definition acquireOwnerLease (kill0 : Z → bool) (now : Z)
    (domainId ownerId hostname : string) (ttlMs : Z) (force : bool) : SM OwnerRecord :=
  transaction (
    existing ← getOwner domainId;
    let expiresAt := Iso (now + ttlMs) in
    let nowStr := Iso now in
    newEpoch ← match existing with
    | None =>
        exec (with_owners (λ l, l ++ [mkOwnerRecord domainId ownerId 1 nowStr expiresAt hostname]));;
        mret 1%Z
    | Some ex =>
        let isExpired := date_le (own_expiresAt ex) now in
        let oldPid := ownerPidOf (own_ownerId ex) in
        let isOldProcessAlive :=
          if bool_decide (own_hostname ex = hostname) && bool_decide (0 < oldPid)%Z
          then kill0 oldPid else negb isExpired in
        if bool_decide (own_ownerId ex = ownerId) then
          exec (with_owners (update_where
            (λ o, bool_decide (own_domainId o = domainId) && bool_decide (own_ownerId o = ownerId))
            (λ o, mkOwnerRecord (own_domainId o) (own_ownerId o) (own_epoch o) nowStr expiresAt hostname)));;
          mret (own_epoch ex)
        else if force || isExpired || negb isOldProcessAlive then
          exec (with_owners (update_where (λ o, bool_decide (own_domainId o = domainId))
            (λ o, mkOwnerRecord (own_domainId o) ownerId (own_epoch ex + 1) nowStr expiresAt hostname)));;
          mret (own_epoch ex + 1)%Z
        else throw (DomainLockedError domainId oldPid (own_heartbeatAt ex))
    end;
    set_currentEpoch (Some newEpoch);;
    mret (mkOwnerRecord domainId ownerId newEpoch nowStr expiresAt hostname)).

Definition releaseOwnerLease (domainId ownerId : string) : SM unit :=
  exec (with_owners (update_where
    (λ o, bool_decide (own_domainId o = domainId) && bool_decide (own_ownerId o = ownerId))
    (λ o, mkOwnerRecord (own_domainId o) (own_ownerId o) (own_epoch o) (own_heartbeatAt o)
            (Iso 0) (own_hostname o)))).

(** ** Tasks *)

Definition find_task (id : string) (d : Db) : option Task :=
  List.find (λ t, bool_decide (task_id t = id)) (db_tasks d).
Definition getTask (id : string) : SM (option Task) := query (find_task id).

Definition saveTask (task : Task) : SM unit :=
  verifyEpochFencing (task_domainId task);;
  existing ← getTask (task_id task);
  match existing with
  | None => exec (with_tasks (λ l, l ++ [task]))
  | Some _ =>
      exec (with_tasks (update_where (λ t, bool_decide (task_id t = task_id task))
        (λ t, mkTask (task_id t) (task_domainId t) (task_name task) (task_createdAt t) (task_meta task))))
  end.

(** ** The journal *)

Definition has_event (opId type : string) (d : Db) : bool :=
  existsb (λ r, bool_decide (je_operation_id r = Some opId) && bool_decide (je_type r = type))
    (db_journal_events d).

Definition preIntentCancelled_flag (payload : jsval) : bool :=
  match jfield payload "preIntentCancelled" with Some (JBool true) => true | _ => false end.

(** [/^(?:SERVICE|SNAPSHOT|WORKSPACE|ARTIFACT|PROCESS|PROC)_/u] *)
Definition execution_event (name : string) : bool :=
  existsb (λ p, startsWith name p)
    ["SERVICE_"; "SNAPSHOT_"; "WORKSPACE_"; "ARTIFACT_"; "PROCESS_"; "PROC_"].

Definition requiresIntent (name : string) : bool :=
  bool_decide (name = "OPERATION_RESULT_RECORDED") ||
  bool_decide (name = "OPERATION_STATUS_TRANSITION") ||
  bool_decide (name = "CAPABILITY_USED") || execution_event name.

Definition exempt_event (name : string) : bool :=
  bool_decide (name = "OPERATION_INTENT_REGISTERED") ||
  bool_decide (name = "RESOURCES_RELEASED") || bool_decide (name = "OPERATION_REPLAYED").

(** The values of [INSERT INTO journal_events]. *)
Definition event_row (seq : Z) (event : EventInput) (envelope : EventEnvelope) : JournalRow := {|
  je_seq := seq;
  je_domain_id := ev_domainId event;
  je_run_id := or_undef (ev_runId event);
  je_operation_id := or_undef (ev_operationId event);
  je_type := env_event envelope;
  je_payload := env_payload envelope;
  je_timestamp := env_createdAt envelope;
  je_schema_version := env_schemaVersion envelope;
  je_request_id := or_undef (env_requestId envelope);
  je_program_id := or_undef (env_programId envelope);
  je_instruction_id := or_undef (env_instructionId envelope);
  je_op_id := or_undef (env_opId envelope);
  je_event := env_event envelope;
  je_sensitivity := env_sensitivity envelope;
  je_created_at := env_createdAt envelope;
|}.

Definition recordEventAndTransitionState (now : Z) (event : EventInput) : SM Z :=
  verifyEpochFencing (ev_domainId event);;
  let operationId := nullish_opt (ev_operationId event) (ev_opId event) in
  let eventName := nullish (ev_event event) (ev_type event) in
  let preIntentCancelled :=
    bool_decide (eventName = "OPERATION_RESULT_RECORDED") &&
    preIntentCancelled_flag (ev_payload event) in
  d ← query (λ d, d);
  throw_if (truthy_opt operationId && requiresIntent eventName && negb (exempt_event eventName)
      && negb preIntentCancelled
      && negb (has_event (default "" operationId) "OPERATION_INTENT_REGISTERED" d))
    (Err "durable intent was not recorded");;
  throw_if (bool_decide (eventName = "OPERATION_RESULT_RECORDED") && truthy_opt operationId
      && negb preIntentCancelled
      && has_event (default "" operationId) "OPERATION_RESULT_RECORDED" d)
    (Err "result event already exists");;
  envelope ← lift (createEventEnvelope now {|
    in_schemaVersion := ev_schemaVersion event;
    in_domainId := ev_domainId event;
    in_requestId := ev_requestId event;
    in_programId := ev_programId event;
    in_instructionId := ev_instructionId event;
    in_opId := nullish_opt (ev_opId event) (ev_operationId event);
    in_event := nullish (ev_event event) (ev_type event);
    in_payload := ev_payload event;
    in_sensitivity := ev_sensitivity event;
    in_createdAt := Some (nullish (ev_createdAt event) (ev_timestamp event)) |});
  let seq := (db_journal_seq d + 1)%Z in
  exec (with_journal (event_row seq event envelope));;
  mret seq.

(** An event given by the fields the kernel's own calls use. *)
Definition simple_event (domainId : string) (runId operationId : option string)
    (type : string) (payload : jsval) (timestamp : DateStr) : EventInput :=
  {| ev_domainId := domainId; ev_runId := runId; ev_operationId := operationId;
     ev_type := type; ev_payload := payload; ev_timestamp := timestamp;
     ev_schemaVersion := None; ev_requestId := None; ev_programId := None;
     ev_instructionId := None; ev_opId := None; ev_event := None;
     ev_sensitivity := None; ev_createdAt := None |}.

Definition recordJournalEvent (now : Z) (event : EventInput) : SM Z :=
  recordEventAndTransitionState now event.

Definition recordEventEnvelope (now : Z) (event : EventEnvelopeInput) : SM Z :=
  envelope ← lift (createEventEnvelope now event);
  recordEventAndTransitionState now {|
    ev_domainId := env_domainId envelope; ev_runId := None;
    ev_operationId := env_opId envelope; ev_type := env_event envelope;
    ev_payload := env_payload envelope; ev_timestamp := env_createdAt envelope;
    ev_schemaVersion := Some (env_schemaVersion envelope);
    ev_requestId := env_requestId envelope; ev_programId := env_programId envelope;
    ev_instructionId := env_instructionId envelope; ev_opId := env_opId envelope;
    ev_event := Some (env_event envelope);
    ev_sensitivity := Some (env_sensitivity envelope);
    ev_createdAt := Some (env_createdAt envelope) |}.

(** [getJournalEvents(domainId, fromSeq)]; rows are in [seq] order. *)
Definition select_journal (domainId : string) (fromSeq : Z) (d : Db) : list JournalRow :=
  List.filter (λ r, bool_decide (je_domain_id r = domainId) && bool_decide (fromSeq ≤ je_seq r)%Z)
    (db_journal_events d).
Definition getJournalEvents (domainId : string) (fromSeq : Z) : SM (list JournalRow) :=
  query (select_journal domainId fromSeq).
Definition find_journal_event (domainId : string) (seq : Z) (d : Db) : option JournalRow :=
  List.find (λ r, bool_decide (je_domain_id r = domainId) && bool_decide (je_seq r = seq))
    (db_journal_events d).
Definition getJournalEvent (domainId : string) (seq : Z) : SM (option JournalRow) :=
  query (find_journal_event domainId seq).
Definition getEventsByRun (runId : string) : SM (list JournalRow) :=
  query (λ d, List.filter (λ r, bool_decide (je_run_id r = Some runId)) (db_journal_events d)).

(** ** Runs *)

Definition run_is_terminal (s : KernelRunStatus) : bool :=
  match s with
  | run_succeeded | run_failed | run_cancelled | run_indeterminate => true
  | _ => false
  end.

Definition find_run (id : string) (d : Db) : option Run :=
  List.find (λ r, bool_decide (run_id r = id)) (db_runs d).
Definition getRun (id : string) : SM (option Run) := query (find_run id).

Section Runs.
Context `{Crypto}.

Definition assert_config (c : option RequestConfigSnapshot) : SM unit :=
  match c with Some c => lift (assertRequestConfigSnapshot c) | None => mret tt end.

Definition saveRun (run : Run) : SM unit :=
  verifyEpochFencing (run_domainId run);;
  existing ← getRun (run_id run);
  match existing with
  | Some ex =>
      throw_if (run_is_terminal (run_status ex) && negb (bool_decide (run_status ex = run_status run)))
        (Err "Cannot transition Run from terminal status")
  | None => mret tt
  end;;
  let sanitized := sanitizeConfigSnapshot (run_configSnapshotWhiteList run) in
  assert_config (run_configSnapshot run);;
  match existing with
  | None =>
      task ← getTask (run_taskId run);
      throw_if (is_undef task) (SqliteConstraintError "runs");;
      exec (with_runs (λ l, l ++
        [mkRun (run_id run) (run_taskId run) (run_domainId run) (run_owner run) (run_status run)
           (run_terminationReason run) (run_startedAt run) (or_undef_date (run_endedAt run))
           (Some sanitized) (run_configSnapshot run)]))
  | Some _ =>
      exec (with_runs (update_where (λ r, bool_decide (run_id r = run_id run))
        (λ r, mkRun (run_id r) (run_taskId r) (run_domainId r) (run_owner r) (run_status run)
           (run_terminationReason run) (run_startedAt r) (or_undef_date (run_endedAt run))
           (Some sanitized) (nullish_opt (run_configSnapshot r) (run_configSnapshot run)))))
  end.

Definition bindRunConfigSnapshot (runId : string) (snapshot : RequestConfigSnapshot) : SM unit :=
  lift (assertRequestConfigSnapshot snapshot);;
  transaction (
    run ← getRun runId;
    match run with
    | None => throw (Err "Run not found")
    | Some run =>
        match run_configSnapshot run with
        | Some c => lift (assertRequestConfigSnapshot c)
        | None =>
            verifyEpochFencing (run_domainId run);;
            exec (with_runs (update_where
              (λ r, bool_decide (run_id r = runId) && is_undef (run_configSnapshot r))
              (λ r, mkRun (run_id r) (run_taskId r) (run_domainId r) (run_owner r) (run_status r)
                 (run_terminationReason r) (run_startedAt r) (run_endedAt r)
                 (run_configSnapshotWhiteList r) (Some snapshot))))
        end
    end).
End Runs.

Definition updateRunStatus (now : Z) (runId : string) (status : KernelRunStatus)
    (terminationReason : option TerminationReason) (endedAt : option DateStr) : SM unit :=
  transaction (
    run ← getRun runId;
    proceed ← match run with
    | Some run =>
        verifyEpochFencing (run_domainId run);;
        if run_is_terminal (run_status run) then
          if bool_decide (run_status run = status) then mret false
          else throw (Err "Cannot transition Run from terminal status")
        else mret true
    | None => mret true
    end;
    if proceed : bool then
      exec (with_runs (update_where (λ r, bool_decide (run_id r = runId))
        (λ r, mkRun (run_id r) (run_taskId r) (run_domainId r) (run_owner r) status
           (nullish_opt terminationReason (run_terminationReason r)) (run_startedAt r)
           (nullish_opt (or_undef_date endedAt) (run_endedAt r))
           (run_configSnapshotWhiteList r) (run_configSnapshot r))));;
      match run with
      | Some run =>
          recordEventAndTransitionState now (simple_event (run_domainId run) (Some runId) None
            "RUN_STATUS_TRANSITION"
            (JObj [("status", JStr (run_status_name status));
                   ("terminationReason", jopt (λ r, JStr (termination_reason_name r)) terminationReason);
                   ("endedAt", jopt JDate endedAt)])
            (Iso now));; mret tt
      | None => mret tt
      end
    else mret tt).

Definition select_operations_by_run (runId : string) (d : Db) : list Operation :=
  List.filter (λ o, bool_decide (op_runId o = runId)) (db_operations d).
Definition getOperationsByRun (runId : string) : SM (list Operation) :=
  query (select_operations_by_run runId).

(** The last journaled status of each agent of the run, as a [Map]. A payload
    without [state] throws; an id that is not a string shares one key, a status
    that is not a string is none of the names tested below. *)
Definition js_text (tag : string) (v : option jsval) : string :=
  match v with Some (JStr s) => tag +:+ s | _ => "" end.
Definition agent_state_of (payload : jsval) : outcome error (string * string) :=
  match jfield payload "state" with
  | None | Some JUndef | Some JNull => Throw (TypeErr "cannot read properties of undefined")
  | Some state => Ok (js_text "#" (jfield state "id"), js_text "" (jfield state "status"))
  end.
Fixpoint agent_statuses_from (runId : string) (agents : list (string * string))
    (events : list JournalRow) : outcome error (list (string * string)) :=
  match events with
  | [] => Ok agents
  | r :: rest =>
      if bool_decide (je_type r = "AGENT_STATE") && bool_decide (je_run_id r = Some runId) then
        agent ← agent_state_of (je_payload r);
        agent_statuses_from runId (jm_set agents agent.1 agent.2) rest
      else agent_statuses_from runId agents rest
  end.
Definition agent_statuses (runId : string) (events : list JournalRow)
  : outcome error (list (string * string)) := agent_statuses_from runId [] events.
Definition agent_settled (status : string) : bool :=
  bool_decide (status = "completed") || bool_decide (status = "failed").

Definition op_indeterminate (o : Operation) : bool :=
  match op_result o with Some r => is_indeterminate r | None => false end.
Definition op_done (o : Operation) : bool := bool_decide (op_status o = st_done).
Definition indeterminate_reason (o : Operation) : option TerminationReason :=
  match op_result o with
  | Some r => match res_body r with RIndeterminate i => ir_terminationReason i | _ => None end
  | None => None
  end.

Definition reportRunSucceeded (now : Z) (runId : string) : SM unit :=
  transaction (
    run ← getRun runId;
    match run with
    | None => throw (Err "Run not found")
    | Some run =>
        verifyEpochFencing (run_domainId run);;
        match run_status run with
        | run_succeeded => mret tt
        | run_failed | run_cancelled | run_indeterminate => throw (Err "already finalized")
        | _ =>
            ops ← getOperationsByRun runId;
            events ← getJournalEvents (run_domainId run) 0;
            agents ← lift (agent_statuses runId events);
            throw_if (existsb (λ status, negb (agent_settled status)) agents.*2)
              (Err "agents are not in terminal status");;
            throw_if (existsb (λ o, negb (op_done o)) ops)
              (Err "operations are not in terminal status");;
            match List.find op_indeterminate ops with
            | Some o => updateRunStatus now runId run_indeterminate (indeterminate_reason o) (Some (Iso now))
            | None => updateRunStatus now runId run_succeeded (Some completed) (Some (Iso now))
            end
        end
    end).

Definition reportRunFailed (now : Z) (runId : string) (reason : TerminationReason) : SM unit :=
  transaction (
    run ← getRun runId;
    match run with
    | None => throw (Err "Run not found")
    | Some run =>
        verifyEpochFencing (run_domainId run);;
        match run_status run with
        | run_failed => mret tt
        | run_succeeded | run_cancelled | run_indeterminate => throw (Err "already finalized")
        | _ => updateRunStatus now runId run_failed (Some reason) (Some (Iso now))
        end
    end).

Definition reportRunCancelled (now : Z) (runId : string) (reason : TerminationReason) : SM unit :=
  transaction (
    run ← getRun runId;
    match run with
    | None => throw (Err "Run not found")
    | Some run =>
        verifyEpochFencing (run_domainId run);;
        if run_is_terminal (run_status run) then throw (Err "already finalized")
        else updateRunStatus now runId run_cancelled (Some reason) (Some (Iso now))
    end).

Definition getActiveRuns (domainId : string) : SM (list Run) :=
  query (λ d, List.filter (λ r, bool_decide (run_domainId r = domainId)
    && bool_decide (run_status r = run_running)) (db_runs d)).

(** ** Operations *)

Definition find_operation (id : string) (d : Db) : option Operation :=
  List.find (λ o, bool_decide (op_id o = id)) (db_operations d).
Definition getOperation (id : string) : SM (option Operation) := query (find_operation id).

Definition op_unfinished (o : Operation) : bool :=
  match op_status o with
  | st_intent_registered | st_active | st_stopping => true
  | _ => false
  end.
Definition select_unfinished (domainId : string) (d : Db) : list Operation :=
  List.filter (λ o, bool_decide (op_domainId o = domainId) && op_unfinished o) (db_operations d).
Definition getUnfinishedOperations (domainId : string) : SM (list Operation) :=
  query (select_unfinished domainId).
Definition select_operations (domainId : string) (d : Db) : list Operation :=
  List.filter (λ o, bool_decide (op_domainId o = domainId)) (db_operations d).
Definition getAllOperations (domainId : string) : SM (list Operation) :=
  query (select_operations domainId).

(** The row [INSERT INTO operations] stores: columns written with [x || null]
    lose empty strings and zero. *)
Definition operation_row (op : Operation) (domainId : string) (status : OperationStatus)
    (result : option OperationResult) (spawnGated : option bool)
    (recoveryEvidence : option RecoveryEvidence) : Operation :=
  mkOperation (op_id op) (op_runId op) domainId (op_kind op) (op_name op) (op_inputFingerprint op)
    (op_requiredResources op) (op_mutationRoots op) (or_undef (op_capabilityId op))
    (or_undef_Z (op_timeoutMs op)) (op_resourceBudget op) spawnGated recoveryEvidence
    (op_configSnapshot op) (or_undef (op_outputRef op)) status result (op_processIdentity op).

(** [INSERT INTO operations]: primary key and the foreign key on [runs]. *)
Definition insert_operation (row : Operation) : SM unit :=
  existing ← getOperation (op_id row);
  run ← getRun (op_runId row);
  throw_if (negb (is_undef existing) || is_undef run) (SqliteConstraintError "operations");;
  exec (with_operations (λ l, l ++ [row])).

Definition lease_key_taken (resourceId operationId : string) (d : Db) : bool :=
  existsb (λ l, bool_decide (lease_resourceId l = resourceId)
    && bool_decide (lease_operationId l = operationId)) (db_resource_leases d).
(** [INSERT INTO resource_leases], keyed by (resource, operation). *)
Definition insert_lease (lease : ResourceLease) : SM unit :=
  taken ← query (lease_key_taken (lease_resourceId lease) (lease_operationId lease));
  throw_if taken (SqliteConstraintError "resource_leases");;
  exec (with_leases (λ l, l ++ [lease])).

Definition js_config_binding (c : RequestConfigSnapshot) : jsval := JObj
  [("schemaVersion", JStr (cfg_schemaVersion c));
   ("capabilityId", jopt JStr (cfg_capabilityId c));
   ("capabilityPolicyVersion", jopt JStr (cfg_capabilityPolicyVersion c));
   ("driverName", JStr (cfg_driverName c)); ("driverVersion", JStr (cfg_driverVersion c));
   ("retentionVersion", JStr (cfg_retentionVersion c));
   ("redactionVersion", JStr (cfg_redactionVersion c)); ("digest", JStr (cfg_digest c))].

Definition assert_run_accepts (run : option Run) : SM unit :=
  match run with
  | None => throw (Err "Run is not registered in domain")
  | Some run => throw_if (run_is_terminal (run_status run)) (Err "Run is already finalized")
  end.

Section Operations.
Context `{Crypto}.

Definition registerOperationIntent (now : Z) (op : Operation) (domainId : string) : SM unit :=
  assert_config (op_configSnapshot op);;
  run ← getRun (op_runId op);
  assert_run_accepts run;;
  transaction (
    verifyEpochFencing domainId;;
    insert_operation (operation_row op domainId st_intent_registered (op_result op)
      (op_spawnGated op) (op_recoveryEvidence op));;
    for_each (op_requiredResources op) (λ res,
      insert_lease (mkResourceLease res (op_id op) domainId (Iso now) (op_resourceBudget op)));;
    recordEventAndTransitionState now (simple_event domainId (Some (op_runId op)) (Some (op_id op))
      "OPERATION_INTENT_REGISTERED"
      (JObj [("kind", JStr (op_kind_name (op_kind op))); ("name", JStr (op_name op));
             ("requiredResources", js_strings (op_requiredResources op));
             ("inputFingerprint", JStr (op_inputFingerprint op));
             ("resourceBudget", jopt js_budget (op_resourceBudget op));
             ("spawnGated", jopt JBool (op_spawnGated op));
             ("configBinding", jopt js_config_binding (op_configSnapshot op))])
      (Iso now));;
    mret tt).

Definition recordPreIntentCancelledOperation (now : Z) (op : Operation) (domainId : string)
    (result : OperationResult) : SM unit :=
  assert_config (op_configSnapshot op);;
  run ← getRun (op_runId op);
  assert_run_accepts run;;
  transaction (
    verifyEpochFencing domainId;;
    existing ← getOperation (op_id op);
    throw_if (negb (is_undef existing)) (Err "Operation already exists");;
    insert_operation (operation_row op domainId st_done (Some result) None None);;
    recordEventAndTransitionState now (simple_event domainId (Some (op_runId op)) (Some (op_id op))
      "OPERATION_RESULT_RECORDED"
      (JObj [("result", js_result result); ("releaseResources", JBool false);
             ("preIntentCancelled", JBool true)])
      (res_completedAt (res_base result)));;
    mret tt).
End Operations.

(** ** Recovery evidence (src/src/recovery/evidence.ts) *)

Definition withRecoveryIdentity (now : Z) (evidence : option RecoveryEvidence)
    (identity : ProcessIdentity) : option RecoveryEvidence :=
  match evidence with
  | None => None
  | Some ev => Some (mkRecoveryEvidence (rev_driverName ev) (rev_driverCapabilities ev)
      (Some identity) (rev_tree ev)
      (match rev_pipes ev with
       | Some p => Some (mkPipeEvidence pipe_open pipe_open pipe_open (pipe_source p) (Iso now))
       | None => None
       end)
      (if truthy_opt (cgroupPath identity)
       then Some (mkContainmentEvidence kind_cgroup (cgroupPath identity) cont_held src_spawn (Iso now))
       else rev_containment ev))
  end.

Definition containmentKind (d : DescendantEnumeration) : ContainmentKind :=
  match d with
  | enum_cgroup => kind_cgroup
  | enum_subreaper => kind_tracked_tree
  | enum_full => kind_process_group
  | enum_none => kind_unknown
  end.

Definition createRecoveryEvidence (now : Z) (driverName : string) (caps : DriverCapabilityFacts)
  : RecoveryEvidence :=
  mkRecoveryEvidence driverName caps None
    (Some (mkTreeEvidence tree_unknown None None src_spawn (Iso now)))
    (Some (mkPipeEvidence pipe_unknown pipe_unknown pipe_unknown src_spawn (Iso now)))
    (Some (mkContainmentEvidence (containmentKind (descendantEnumeration caps)) None cont_unknown
             src_spawn (Iso now))).

Definition updateOperationStatus (now : Z) (opId : string) (status : OperationStatus)
    (processIdentity : option ProcessIdentity) (outputRef : option string) : SM unit :=
  transaction (
    op ← getOperation opId;
    match op with Some op => verifyEpochFencing (op_domainId op) | None => mret tt end;;
    let recoveryEvidence :=
      processIdentity ≫= withRecoveryIdentity now (op ≫= op_recoveryEvidence) in
    exec (with_operations (update_where (λ o, bool_decide (op_id o = opId))
      (λ o, mkOperation (op_id o) (op_runId o) (op_domainId o) (op_kind o) (op_name o)
         (op_inputFingerprint o) (op_requiredResources o) (op_mutationRoots o) (op_capabilityId o)
         (op_timeoutMs o) (op_resourceBudget o) (op_spawnGated o)
         (nullish_opt recoveryEvidence (op_recoveryEvidence o)) (op_configSnapshot o)
         (nullish_opt (or_undef outputRef) (op_outputRef o)) status (op_result o)
         (nullish_opt processIdentity (op_processIdentity o)))));;
    match op with
    | Some op =>
        recordEventAndTransitionState now (simple_event (op_domainId op) (Some (op_runId op)) (Some opId)
          "OPERATION_STATUS_TRANSITION"
          (JObj [("status", JStr (op_status_name status));
                 ("processIdentity", jopt js_identity processIdentity);
                 ("outputRef", jopt JStr outputRef)])
          (Iso now));; mret tt
    | None => mret tt
    end).

(** [patch]: the [Partial<RecoveryEvidence>] members that can be replaced. *)
Record EvidencePatch := mkEvidencePatch {
  patch_identity : option ProcessIdentity;
  patch_tree : option TreeEvidence;
  patch_pipes : option PipeEvidence;
  patch_containment : option ContainmentEvidence;
}.

Definition set_op_recoveryEvidence (e : RecoveryEvidence) (o : Operation) : Operation :=
  mkOperation (op_id o) (op_runId o) (op_domainId o) (op_kind o) (op_name o)
    (op_inputFingerprint o) (op_requiredResources o) (op_mutationRoots o) (op_capabilityId o)
    (op_timeoutMs o) (op_resourceBudget o) (op_spawnGated o) (Some e) (op_configSnapshot o)
    (op_outputRef o) (op_status o) (op_result o) (op_processIdentity o).
Definition set_op_result (r : OperationResult) (o : Operation) : Operation :=
  mkOperation (op_id o) (op_runId o) (op_domainId o) (op_kind o) (op_name o)
    (op_inputFingerprint o) (op_requiredResources o) (op_mutationRoots o) (op_capabilityId o)
    (op_timeoutMs o) (op_resourceBudget o) (op_spawnGated o) (op_recoveryEvidence o)
    (op_configSnapshot o) (op_outputRef o) (op_status o) (Some r) (op_processIdentity o).
Definition finish_op (r : OperationResult) (o : Operation) : Operation :=
  mkOperation (op_id o) (op_runId o) (op_domainId o) (op_kind o) (op_name o)
    (op_inputFingerprint o) (op_requiredResources o) (op_mutationRoots o)
    (nullish_opt (or_undef (res_capabilityId (res_base r))) (op_capabilityId o))
    (op_timeoutMs o) (op_resourceBudget o) (op_spawnGated o) (op_recoveryEvidence o)
    (op_configSnapshot o) (nullish_opt (or_undef (result_outputRef r)) (op_outputRef o))
    st_done (Some r) (op_processIdentity o).

Definition updateRecoveryEvidence (opId : string) (patch : EvidencePatch) : SM unit :=
  transaction (
    op ← getOperation opId;
    match op with
    | None => throw (Err "Operation not found")
    | Some op =>
        verifyEpochFencing (op_domainId op);;
        match op_recoveryEvidence op with
        | None => mret tt
        | Some ev =>
            exec (with_operations (update_where (λ o, bool_decide (op_id o = opId))
              (set_op_recoveryEvidence (mkRecoveryEvidence (rev_driverName ev)
                (rev_driverCapabilities ev)
                (nullish_opt (patch_identity patch) (rev_identity ev))
                (nullish_opt (patch_tree patch) (rev_tree ev))
                (nullish_opt (patch_pipes patch) (rev_pipes ev))
                (nullish_opt (patch_containment patch) (rev_containment ev))))))
        end
    end).

Definition updateOperationResult (opId : string) (result : OperationResult) : SM unit :=
  transaction (
    op ← getOperation opId;
    match op with
    | None => throw (Err "Operation not found")
    | Some op =>
        verifyEpochFencing (op_domainId op);;
        exec (with_operations (update_where (λ o, bool_decide (op_id o = opId)) (set_op_result result)))
    end).

Definition delete_leases_of (operationId : string) (d : Db) : Db :=
  with_leases (List.filter (λ l, negb (bool_decide (lease_operationId l = operationId)))) d.

Definition recordOperationResult (now : Z) (opId : string) (result : OperationResult)
    (releaseResources : bool) : SM unit :=
  transaction (
    op ← getOperation opId;
    match op with
    | None => throw (Err "Operation not found")
    | Some op =>
        verifyEpochFencing (op_domainId op);;
        throw_if (op_done op) (Err "operation is already finalized");;
        intent ← query (has_event opId "OPERATION_INTENT_REGISTERED");
        throw_if (negb intent) (Err "durable intent was not recorded");;
        priorResult ← query (has_event opId "OPERATION_RESULT_RECORDED");
        throw_if priorResult (Err "result event already exists");;
        exec (with_operations (update_where (λ o, bool_decide (op_id o = opId)) (finish_op result)));;
        when (releaseResources && negb (is_indeterminate result)) (exec (delete_leases_of opId));;
        recordEventAndTransitionState now (simple_event (op_domainId op) (Some (op_runId op)) (Some opId)
          "OPERATION_RESULT_RECORDED"
          (JObj [("result", js_result result); ("releaseResources", JBool releaseResources)])
          (res_completedAt (res_base result)));;
        mret tt
    end).

Inductive ReplayMode := mode_joined | mode_recorded | mode_indeterminate.
Definition replay_mode_name (m : ReplayMode) : string :=
  match m with
  | mode_joined => "joined" | mode_recorded => "recorded" | mode_indeterminate => "indeterminate"
  end.

Definition recordReplay (now : Z) (domainId opId : string) (mode : ReplayMode)
    (callingRunId : string) : SM unit :=
  verifyEpochFencing domainId;;
  op ← getOperation opId;
  recordEventAndTransitionState now (simple_event domainId (Some callingRunId) (Some opId)
    "OPERATION_REPLAYED"
    (JObj [("mode", JStr (replay_mode_name mode)); ("opId", JStr opId);
           ("callingRunId", JStr callingRunId);
           ("originalRunId", jopt (λ o, JStr (op_runId o)) op);
           ("originalStatus", jopt (λ o, JStr (op_status_name (op_status o))) op)])
    (Iso now));;
  mret tt.

(** ** Leases *)

Definition select_leases (domainId : string) (d : Db) : list ResourceLease :=
  List.filter (λ l, bool_decide (lease_domainId l = domainId)) (db_resource_leases d).
Definition getPersistedResourceLeases (domainId : string) : SM (list ResourceLease) :=
  query (select_leases domainId).

Definition releaseResourceLease (operationId : string) (resourceId : option string) : SM unit :=
  match or_undef resourceId with
  | Some res => exec (with_leases (List.filter (λ l,
      negb (bool_decide (lease_operationId l = operationId) && bool_decide (lease_resourceId l = res)))))
  | None => exec (delete_leases_of operationId)
  end.

(** ** Artifacts, snapshots, capabilities *)

Definition same_file (domainId dev ino birthtimeNs : string) (a : ArtifactRecord) : bool :=
  bool_decide (art_domainId a = domainId) && bool_decide (art_dev a = dev)
  && bool_decide (art_ino a = ino) && bool_decide (art_birthtimeNs a = birthtimeNs).

(** [UNIQUE(domain_id, path, dev, ino, birthtime_ns)] and the primary key. *)
Definition artifact_clash (r a : ArtifactRecord) : bool :=
  bool_decide (art_id a = art_id r) ||
  (same_file (art_domainId r) (art_dev r) (art_ino r) (art_birthtimeNs r) a
   && bool_decide (art_path a = art_path r)).

Definition recordArtifact (record : ArtifactRecord) : SM unit :=
  transaction (
    verifyEpochFencing (art_domainId record);;
    clash ← query (λ d, existsb (artifact_clash record) (db_artifacts d));
    throw_if clash (SqliteConstraintError "artifacts");;
    exec (with_artifacts (λ l, l ++ [record]))).

Definition set_artifact_facts (sha256 : string) (sizeBytes : Z) (a : ArtifactRecord) : ArtifactRecord :=
  mkArtifactRecord (art_id a) (art_domainId a) (art_ownerOperationId a) (art_creatingInstructionId a)
    (art_path a) (Some sha256) (Some sizeBytes) (art_createdAt a) (art_expiresAt a)
    (art_sensitivity a) (art_encryptionState a) (art_deletionState a) (art_dev a) (art_ino a)
    (art_birthtimeNs a) (art_deletedAt a) (art_deletionReason a).

Definition finalizeArtifact (domainId dev ino birthtimeNs sha256 : string) (sizeBytes : Z) : SM unit :=
  transaction (
    verifyEpochFencing domainId;;
    exec (with_artifacts (update_where (same_file domainId dev ino birthtimeNs)
      (set_artifact_facts sha256 sizeBytes)))).

Definition set_artifact_deleted (now : Z) (reason : string) (a : ArtifactRecord) : ArtifactRecord :=
  mkArtifactRecord (art_id a) (art_domainId a) (art_ownerOperationId a) (art_creatingInstructionId a)
    (art_path a) (art_sha256 a) (art_sizeBytes a) (art_createdAt a) (art_expiresAt a)
    (art_sensitivity a) (art_encryptionState a) del_deleted (art_dev a) (art_ino a)
    (art_birthtimeNs a) (Some (Iso now)) (Some reason).

Definition markArtifactDeleted (now : Z) (domainId dev ino birthtimeNs reason : string) : SM unit :=
  transaction (
    verifyEpochFencing domainId;;
    exec (with_artifacts (update_where (same_file domainId dev ino birthtimeNs)
      (set_artifact_deleted now reason)))).

(** [INSERT OR REPLACE]: a row with the same key is deleted, the new one is last. *)
Definition replace_row {A} (same_key : A → bool) (row : A) (l : list A) : list A :=
  List.filter (λ x, negb (same_key x)) l ++ [row].

Definition recordSnapshot (snapshot : SnapshotRef) : SM unit :=
  verifyEpochFencing (snap_domainId snapshot);;
  exec (with_snapshots (replace_row (λ s, bool_decide (snap_id s = snap_id snapshot)) snapshot)).
Definition find_snapshot (id : string) (d : Db) : option SnapshotRef :=
  List.find (λ s, bool_decide (snap_id s = id)) (db_snapshots d).
Definition getSnapshot (id : string) : SM (option SnapshotRef) := query (find_snapshot id).

(** [ORDER BY journal_seq DESC LIMIT 1] over the snapshots at or before [seq]. *)
Definition later_snapshot (best : option SnapshotRef) (s : SnapshotRef) : option SnapshotRef :=
  match best with
  | Some b => if bool_decide (default 0 (snap_journalSeq b) < default 0 (snap_journalSeq s))%Z
              then Some s else best
  | None => Some s
  end.
Definition select_snapshot_at_or_before (domainId : string) (seq : Z) (d : Db) : option SnapshotRef :=
  foldl later_snapshot None
    (List.filter (λ s, bool_decide (snap_domainId s = domainId)
      && match snap_journalSeq s with Some n => bool_decide (n ≤ seq)%Z | None => false end)
      (db_snapshots d)).
Definition findSnapshotAtOrBefore (domainId : string) (seq : Z) : SM (option SnapshotRef) :=
  query (select_snapshot_at_or_before domainId seq).
Definition deleteSnapshot (id : string) : SM unit :=
  exec (with_snapshots (List.filter (λ s, negb (bool_decide (snap_id s = id))))).

Definition recordCapability (capability : Capability) : SM unit :=
  verifyEpochFencing (cap_domainId capability);;
  exec (with_capabilities
    (replace_row (λ c, bool_decide (cap_id c = cap_id capability)) capability)).
Definition find_capability (id : string) (d : Db) : option Capability :=
  List.find (λ c, bool_decide (cap_id c = id)) (db_capabilities d).
(** [mapCapabilityRow]: the columns read back with [x || default]. *)
Definition mapCapabilityRow (c : Capability) : Capability :=
  mkCapability (cap_id c) (cap_domainId c) (cap_scope c) (cap_issuer c)
    (if truthy_str (cap_policyVersion c) then cap_policyVersion c else "legacy/0")
    (if truthy_str (cap_reason c) then cap_reason c else "legacy-capability")
    (cap_limits c) (cap_expiresAt c) (or_undef (cap_parentId c)) (cap_epoch c)
    (cap_createdAt c) (or_undef_date (cap_revokedAt c)).
Definition getCapability (id : string) : SM (option Capability) :=
  query (λ d, mapCapabilityRow <$> find_capability id d).

Definition set_cap_revokedAt (at_ : DateStr) (c : Capability) : Capability :=
  mkCapability (cap_id c) (cap_domainId c) (cap_scope c) (cap_issuer c) (cap_policyVersion c)
    (cap_reason c) (cap_limits c) (cap_expiresAt c) (cap_parentId c) (cap_epoch c)
    (cap_createdAt c) (Some at_).
Definition revokeCapability (id domainId : string) (revokedAt : DateStr) : SM unit :=
  verifyEpochFencing domainId;;
  exec (with_capabilities (update_where
    (λ c, bool_decide (cap_id c = id) && bool_decide (cap_domainId c = domainId))
    (set_cap_revokedAt revokedAt))).
