(* ===== verification/StoreCalls.v ===== *)
(** * StoreCalls: the writing interface of the store, and its step relation

    [StoreCall] enumerates the public methods of [SqliteStore] that write, and
    [run_call] dispatches them. [db_step] is the transition of the tables made
    by one call of a handle, whatever its outcome; [db_reachable] are the
    databases the calls of any number of handles, in any order and at any
    instants, can produce from the empty one. *)

From S2P Require Import Prelude Types Events Encode Config Store.

Section Calls.
Context `{Crypto}.

Inductive StoreCall : Type :=
| CAcquireOwnerLease (kill0 : Z → bool) (domainId ownerId hostname : string) (ttlMs : Z) (force : bool)
| CReleaseOwnerLease (domainId ownerId : string)
| CFence
| CSaveTask (task : Task)
| CSaveRun (run : Run)
| CBindRunConfigSnapshot (runId : string) (snapshot : RequestConfigSnapshot)
| CUpdateRunStatus (runId : string) (status : KernelRunStatus)
    (reason : option TerminationReason) (endedAt : option DateStr)
| CReportRunSucceeded (runId : string)
| CReportRunFailed (runId : string) (reason : TerminationReason)
| CReportRunCancelled (runId : string) (reason : TerminationReason)
| CRegisterOperationIntent (op : Operation) (domainId : string)
| CRecordPreIntentCancelled (op : Operation) (domainId : string) (result : OperationResult)
| CUpdateOperationStatus (opId : string) (status : OperationStatus)
    (identity : option ProcessIdentity) (outputRef : option string)
| CUpdateRecoveryEvidence (opId : string) (patch : EvidencePatch)
| CUpdateOperationResult (opId : string) (result : OperationResult)
| CRecordOperationResult (opId : string) (result : OperationResult) (releaseResources : bool)
| CRecordReplay (domainId opId : string) (mode : ReplayMode) (callingRunId : string)
| CReleaseResourceLease (operationId : string) (resourceId : option string)
| CRecordEvent (event : EventInput)
| CRecordEventEnvelope (event : EventEnvelopeInput)
| CRecordArtifact (record : ArtifactRecord)
| CFinalizeArtifact (domainId dev ino birthtimeNs sha256 : string) (sizeBytes : Z)
| CMarkArtifactDeleted (domainId dev ino birthtimeNs reason : string)
| CRecordSnapshot (snapshot : SnapshotRef)
| CDeleteSnapshot (id : string)
| CRecordCapability (capability : Capability)
| CRevokeCapability (id domainId : string) (revokedAt : DateStr).

Definition ignore_result {A} (m : SM A) : SM unit := m ;; mret tt.

Definition run_call (now : Z) (c : StoreCall) : SM unit :=
  match c with
  | CAcquireOwnerLease k d o h t f => ignore_result (acquireOwnerLease k now d o h t f)
  | CReleaseOwnerLease d o => releaseOwnerLease d o
  | CFence => fence
  | CSaveTask t => saveTask t
  | CSaveRun r => saveRun r
  | CBindRunConfigSnapshot r c => bindRunConfigSnapshot r c
  | CUpdateRunStatus r s t e => updateRunStatus now r s t e
  | CReportRunSucceeded r => reportRunSucceeded now r
  | CReportRunFailed r t => reportRunFailed now r t
  | CReportRunCancelled r t => reportRunCancelled now r t
  | CRegisterOperationIntent o d => registerOperationIntent now o d
  | CRecordPreIntentCancelled o d r => recordPreIntentCancelledOperation now o d r
  | CUpdateOperationStatus o s i r => updateOperationStatus now o s i r
  | CUpdateRecoveryEvidence o p => updateRecoveryEvidence o p
  | CUpdateOperationResult o r => updateOperationResult o r
  | CRecordOperationResult o r b => recordOperationResult now o r b
  | CRecordReplay d o m r => recordReplay now d o m r
  | CReleaseResourceLease o r => releaseResourceLease o r
  | CRecordEvent e => ignore_result (recordEventAndTransitionState now e)
  | CRecordEventEnvelope e => ignore_result (recordEventEnvelope now e)
  | CRecordArtifact r => recordArtifact r
  | CFinalizeArtifact d a b c s n => finalizeArtifact d a b c s n
  | CMarkArtifactDeleted d a b c r => markArtifactDeleted now d a b c r
  | CRecordSnapshot s => recordSnapshot s
  | CDeleteSnapshot i => deleteSnapshot i
  | CRecordCapability c => recordCapability c
  | CRevokeCapability i d t => revokeCapability i d t
  end.

(** One call of a handle that writes under [epoch]. *)
Inductive db_step (d d' : Db) : Prop :=
| db_step_call now epoch c :
    db (run_call now c (mkStore d epoch false)).2 = d' → db_step d d'.

Inductive db_steps : Db → Db → Prop :=
| db_steps_refl d : db_steps d d
| db_steps_cons d1 d2 d3 : db_step d1 d2 → db_steps d2 d3 → db_steps d1 d3.

Definition db_reachable (d : Db) : Prop := db_steps empty_db d.

Lemma db_steps_preorder (R : relation Db) `{!PreOrder R} :
  (∀ d d', db_step d d' → R d d') → ∀ d d', db_steps d d' → R d d'.
Proof.
  intros Hstep d d' Hs. induction Hs as [|d1 d2 d3 H1 _ IH]; [reflexivity|].
  etransitivity; [by apply Hstep|done].
Qed.

Lemma db_steps_invariant (I : Db → Prop) :
  (∀ d d', db_step d d' → I d → I d') → ∀ d d', db_steps d d' → I d → I d'.
Proof. intros Hstep d d' Hs. induction Hs; eauto. Qed.
End Calls.

(** ** The calculus over tables *)

(** A relation on databases, lifted to handles. *)
Definition on_db (R : relation Db) : relation SqliteStore := λ s s', R (db s) (db s').
#[export] Instance on_db_preorder R `{!PreOrder R} : PreOrder (on_db R).
Proof.
  split.
  - intros s. unfold on_db. reflexivity.
  - intros s1 s2 s3 H1 H2. unfold on_db in *. by etransitivity.
Qed.

Lemma respects_transaction R `{!PreOrder R} {A} (fn : SM A) :
  respects (on_db R) fn → respects (on_db R) (transaction fn).
Proof.
  intros Hfn s. unfold transaction. destruct (inTransaction s); [apply Hfn|].
  specialize (Hfn (mkStore (db s) (currentEpoch s) true)).
  destruct (fn _) as [[a|e] s']; simpl in *; [done|]. unfold on_db. simpl. reflexivity.
Qed.
Lemma respects_exec (R : relation Db) f : (∀ d, R d (f d)) → respects (on_db R) (exec f).
Proof. intros Hf s. apply Hf. Qed.
Lemma respects_query R `{!PreOrder R} {A} (f : Db → A) : respects (on_db R) (query f).
Proof. apply respects_gets. apply _. Qed.
Lemma respects_set_currentEpoch R `{!PreOrder R} e : respects (on_db R) (set_currentEpoch e).
Proof. intros s. unfold on_db. simpl. reflexivity. Qed.
Lemma respects_verifyEpochFencing R `{!PreOrder R} dom : respects (on_db R) (verifyEpochFencing dom).
Proof. unfold verifyEpochFencing. respects_tac. Qed.

#[export] Hint Resolve respects_query respects_set_currentEpoch respects_verifyEpochFencing : xio.

Lemma run_verify {B} dom (k : unit → SM B) s :
  (verifyEpochFencing dom ≫= k) s
  = match fencing_error dom s with Some e => (Throw e, s) | None => k tt s end.
Proof.
  unfold verifyEpochFencing. autorewrite with xio_run.
  by destruct (fencing_error dom s).
Qed.
Lemma run_query {A B} (f : Db → A) (k : A → SM B) s : (query f ≫= k) s = k (f (db s)) s.
Proof. done. Qed.
Lemma run_exec {B} (f : Db → Db) (k : unit → SM B) s :
  (exec f ≫= k) s = k tt (mkStore (f (db s)) (currentEpoch s) (inTransaction s)).
Proof. done. Qed.
#[export] Hint Rewrite @run_verify @run_query @run_exec : xio_run.

(** ** The one place the journal is written *)

(** What [recordEventAndTransitionState] demands of a row before it is appended. *)
Definition row_flagged (r : JournalRow) : bool :=
  bool_decide (je_type r = "OPERATION_RESULT_RECORDED") &&
  (preIntentCancelled_flag (je_payload r) || bool_decide (je_sensitivity r = sens_secret)).

Record row_admissible (d : Db) (r : JournalRow) : Prop := {
  adm_seq : je_seq r = (db_journal_seq d + 1)%Z;
  adm_redacted : redacted (je_payload r);
  adm_intent : ∀ op, je_operation_id r = Some op →
    requiresIntent (je_type r) = true → exempt_event (je_type r) = false →
    row_flagged r = false → has_event op "OPERATION_INTENT_REGISTERED" d = true;
  adm_result : ∀ op, je_operation_id r = Some op →
    je_type r = "OPERATION_RESULT_RECORDED" → row_flagged r = false →
    has_event op "OPERATION_RESULT_RECORDED" d = false;
}.

Lemma map_fields_get fs fs' k v :
  SECRET_KEY k = false → v ≠ JUndef → jsonValue v = Ok v →
  map_fields jsonValue fs = Ok fs' → jm_get fs k = Some v → jm_get fs' k = Some v.
Proof.
  intros Hk Hv Hfix. revert fs'. induction fs as [|[k' item] fs IH]; intros fs'; simpl; [done|].
  case_decide as Hkk; [subst k'; rewrite Hk|]; intros Hm Hget.
  - simplify_eq. destruct (is_undefined v) eqn:Hu; [by destruct v|].
    apply bind_Ok in Hm as (i & Hi & (r & Hr & [= <-])%bind_Ok).
    rewrite Hfix in Hi. injection Hi as <-. simpl. by rewrite decide_True.
  - destruct (SECRET_KEY k'); [by apply IH|]. destruct (is_undefined item); [by apply IH|].
    apply bind_Ok in Hm as (i & Hi & (r & Hr & [= <-])%bind_Ok).
    simpl. rewrite decide_False //. by apply IH.
Qed.

Lemma redact_keeps_flag p s p' :
  s ≠ sens_secret → redactEventPayload p s = Ok p' →
  preIntentCancelled_flag p = true → preIntentCancelled_flag p' = true.
Proof.
  unfold redactEventPayload, preIntentCancelled_flag. intros Hs Hp.
  rewrite decide_False // in Hp. apply bind_Ok in Hp as (w & Hw & Hp).
  destruct (jfield p "preIntentCancelled") as [v|] eqn:Hf; [|done].
  destruct p as [| | | | | | |fs|]; simpl in Hf; try done.
  destruct v as [| |[]| | | | | |]; try done. intros _.
  simpl in Hw. apply bind_Ok in Hw as (fs' & Hfs & [= <-]). simpl in Hp. simplify_eq. simpl.
  by rewrite (map_fields_get fs fs' "preIntentCancelled" (JBool true) eq_refl ltac:(done) eq_refl Hfs Hf).
Qed.

Lemma or_undef_Some o s : or_undef o = Some s → o = Some s ∧ truthy_str s = true.
Proof. destruct o as [t|]; simpl; [|done]. destruct (truthy_str t) eqn:?; naive_solver. Qed.

(** The two outcomes: nothing happened, or one admissible row was appended. *)
Lemma recordEvent_cases now ev s :
  (∃ e, recordEventAndTransitionState now ev s = (Throw e, s)) ∨
  (∃ row, recordEventAndTransitionState now ev s
      = (Ok (je_seq row), mkStore (with_journal row (db s)) (currentEpoch s) (inTransaction s))
    ∧ row_admissible (db s) row
    ∧ je_type row = nullish (ev_event ev) (ev_type ev)
    ∧ je_operation_id row = or_undef (ev_operationId ev)
    ∧ je_domain_id row = ev_domainId ev).
Proof.
  unfold recordEventAndTransitionState, verifyEpochFencing, query, gets, throw_if, exec, lift, modify.
  unfold mbind, ST_bind, mret, ST_ret, throw.
  destruct (fencing_error (ev_domainId ev) s); [left; by eexists|].
  set (name := nullish (ev_event ev) (ev_type ev)).
  set (oid := nullish_opt (ev_operationId ev) (ev_opId ev)).
  set (pre := bool_decide (name = _) && _).
  destruct (truthy_opt oid && requiresIntent name && _ && _ && _) eqn:Hintent; [left; by eexists|].
  destruct (bool_decide (name = _) && truthy_opt oid && _ && _) eqn:Hprior; [left; by eexists|].
  destruct (createEventEnvelope now _) as [env|e] eqn:Henv; [|left; by eexists].
  right. exists (event_row (db_journal_seq (db s) + 1) ev env). split; [reflexivity|].
  pose proof (createEventEnvelope_fields _ _ _ Henv) as (_ & Hname & _ & Hred & _). simpl in Hname.
  fold name in Hname.
  assert (∀ r, je_type r = env_event env → je_payload r = env_payload env →
    je_sensitivity r = env_sensitivity env → row_flagged r = false → pre = false) as Hflag.
  { intros r Ht Hp Hs. unfold row_flagged. rewrite Ht Hname Hp Hs. unfold pre.
    case_bool_decide; simpl; [|done]. intros [Hf Hns%bool_decide_eq_false]%orb_false_iff.
    destruct (preIntentCancelled_flag (ev_payload ev)) eqn:Hraw; [|done].
    rewrite -Hf. symmetry.
    unfold createEventEnvelope in Henv. simpl in Henv.
    repeat (case_match; try done).
    apply bind_Ok in Henv as (p & Hp' & [= <-]). simpl in *.
    by eapply redact_keeps_flag. }
  assert (∀ op, or_undef (ev_operationId ev) = Some op → oid = Some op ∧ truthy_opt oid = true) as Hoid.
  { intros op [Ho Ht]%or_undef_Some. unfold oid. rewrite Ho. done. }
  split_and!; simpl; try done.
  constructor; simpl; [done|done| |].
  - intros op [Ho Ht]%Hoid Hreq Hex Hrow%Hflag; [|done..]. simpl in *.
    rewrite Hname in Hreq, Hex. rewrite Ht Hreq Hex Hrow Ho /= in Hintent.
    by apply negb_false_iff in Hintent.
  - intros op [Ho Ht]%Hoid Hty Hrow%Hflag; [|done..]. rewrite Hname in Hty.
    rewrite Hty Ht Hrow Ho in Hprior. exact Hprior.
Qed.

Lemma respects_recordEvent (R : relation Db) `{!PreOrder R} now ev :
  (∀ d row, row_admissible d row → R d (with_journal row d)) →
  respects (on_db R) (recordEventAndTransitionState now ev).
Proof.
  intros Hrow s. destruct (recordEvent_cases now ev s) as [[e ->]|(row & -> & Hadm & _)];
    unfold on_db; simpl; [reflexivity|by apply Hrow].
Qed.

(** Unfolds the calls down to reads, writes, the fence and the journal; the
    calls whose proof is about one table are left to the lemmas in context. *)
Ltac unfold_calls :=
  unfold ignore_result, acquireOwnerLease, releaseOwnerLease, fence, saveTask,
    saveRun, bindRunConfigSnapshot, reportRunSucceeded, reportRunFailed, reportRunCancelled,
    registerOperationIntent, recordPreIntentCancelledOperation, updateOperationStatus,
    updateRecoveryEvidence, updateOperationResult, recordOperationResult, recordReplay,
    releaseResourceLease, recordEventEnvelope, recordArtifact, finalizeArtifact,
    markArtifactDeleted, recordSnapshot, deleteSnapshot, recordCapability, revokeCapability,
    insert_lease, getTask, getRun, getOperation, getOwner, getOperationsByRun, getJournalEvents,
    assert_config, assert_run_accepts.
