(* ===== verification/Samples.v ===== *)
(** * Samples: a small concrete history

    A domain "dom" with one task, one run and two operations, driven through the
    store by two handles. The witnesses of the theorems evaluate on it. SHA-256
    is instantiated with a constant of the right shape. *)

From S2P Require Import Prelude Types Events Encode Config Store StoreCalls.

Definition sample_digest : string :=
  "0123456789abcdef0123456789abcdef0123456789abcdef0123456789abcdef".
Definition sample_crypto : Crypto := λ _, sample_digest.

Definition sample_task : Task := mkTask "task-1" "dom" "build" (Iso 10) None.
Definition sample_run : Run :=
  mkRun "run-1" "task-1" "dom" "alice" run_running None (Iso 20) None
    (Some [("model", JStr "m"); ("apiKey", JStr "sk-1"); ("cwd", JStr "/w")]) None.
Definition sample_op (id : string) (res : list string) : Operation :=
  mkOperation id "run-1" "dom" op_process "ls" "fp-1" res None None None None None None None None
    st_pending None None.
Definition sample_process_result (st : ProcStatus) : ProcessOperationResult :=
  mkProcessOperationResult st (Some 0%Z) None "" "" None None false None None None None None None
    None None None None None None None None None None None None None None None None None
    cannot_determine (Some observed) None.
Definition sample_result : OperationResult :=
  mkOperationResult (mkBaseResult 5 (Iso 60) false (Some "run-1") None)
    (RProcess (sample_process_result proc_succeeded)).
Definition sample_indeterminate : OperationResult :=
  mkOperationResult (mkBaseResult 5 (Iso 60) false (Some "run-1") None)
    (RIndeterminate (mkIndeterminateResult (Some crash_detected) None "unknown" "adjudicate" None)).
Definition sample_input : RequestConfigSnapshotInput :=
  mkRequestConfigSnapshotInput "node" [("processGroupKill", JBool true)] None None None
    [("cwd", JStr "/w"); ("apiKey", JStr "sk-1"); ("toolKeys", JArr [JStr "a"])] None None.

(** [(instant, epoch of the calling handle, call)] *)
Notation history := (list (Z * option Z * StoreCall)).
Definition play `{Crypto} (h : history) (d : Db) : Db :=
  foldl (λ d '(now, epoch, c), db (run_call now c (mkStore d epoch false)).2) d h.

Lemma play_steps `{Crypto} h d : db_steps d (play h d).
Proof.
  unfold play. revert d. induction h as [|[[now epoch] c] h IH]; intros d; simpl; [constructor|].
  eapply db_steps_cons; [by econstructor|apply IH].
Qed.

Definition alive : Z → bool := λ _, true.

Definition opening : history :=
  [(0%Z, None, CAcquireOwnerLease alive "dom" "owner-41" "host" 100 false);
   (10%Z, Some 1%Z, CSaveTask sample_task);
   (20%Z, Some 1%Z, CSaveRun sample_run);
   (30%Z, Some 1%Z, CRegisterOperationIntent (sample_op "op-1" ["r1"]) "dom");
   (31%Z, Some 1%Z, CRegisterOperationIntent (sample_op "op-2" ["r2"]) "dom")].
Definition working : history :=
  [(40%Z, Some 1%Z, CUpdateOperationStatus "op-1" st_active None None);
   (60%Z, Some 1%Z, CRecordOperationResult "op-1" sample_result true)].
Definition closing : history :=
  [(70%Z, Some 1%Z, CRecordOperationResult "op-2" sample_result true);
   (80%Z, Some 1%Z, CReportRunSucceeded "run-1")].
Definition takeover : history :=
  [(500%Z, None, CAcquireOwnerLease alive "dom" "owner-42" "other-host" 100 false)].

Definition db_open : Db := play (H:=sample_crypto) opening empty_db.
Definition db_work : Db := play (H:=sample_crypto) working db_open.
Definition db_closed : Db := play (H:=sample_crypto) closing db_work.
Definition db_taken : Db := play (H:=sample_crypto) takeover db_work.

Lemma db_open_reachable : db_reachable (H:=sample_crypto) db_open.
Proof. exact (play_steps (H:=sample_crypto) opening empty_db). Qed.
Lemma db_steps_trans `{Crypto} d1 d2 d3 : db_steps d1 d2 → db_steps d2 d3 → db_steps d1 d3.
Proof. induction 1; intros; [done|]. econstructor; eauto. Qed.
Lemma db_work_reachable : db_reachable (H:=sample_crypto) db_work.
Proof.
  exact (db_steps_trans (H:=sample_crypto) _ _ _ db_open_reachable
    (play_steps (H:=sample_crypto) working db_open)).
Qed.

(** The history does what it says. *)
Example sample_open_leases : map lease_resourceId (db_resource_leases db_open) = ["r1"; "r2"].
Proof. vm_compute. reflexivity. Qed.
Example sample_work_journal :
  map je_type (db_journal_events db_work) =
  ["OPERATION_INTENT_REGISTERED"; "OPERATION_INTENT_REGISTERED";
   "OPERATION_STATUS_TRANSITION"; "OPERATION_RESULT_RECORDED"].
Proof. vm_compute. reflexivity. Qed.
Example sample_run_closed : run_status <$> find_run "run-1" db_closed = Some run_succeeded.
Proof. vm_compute. reflexivity. Qed.
Example sample_taken_epoch : own_epoch <$> find_owner "dom" db_taken = Some 2%Z.
Proof. vm_compute. reflexivity. Qed.
