(* ===== verification/Paths.v ===== *)
(** * Paths: real paths and segment-wise containment (src/src/capability/path-utils.ts)

    POSIX paths. Node's [path] functions work on strings; an absolute normalised
    path is its list of segments, [render] its string. What the disk answers
    ([fs.realpathSync], [fs.existsSync]) and the working directory are the class
    [FileSystem]. *)

From S2P Require Import Prelude.

Class FileSystem := {
  cwd : string;
  fs_realpathSync : string → option string; (* [None]: it throws *)
  fs_existsSync : string → bool;
}.

(** ** Segments *)

Definition slash : ascii := "/"%char.
(** [s.split('/')] *)
Fixpoint split_slash (s : string) : list string :=
  match s with
  | EmptyString => [""]
  | String a t =>
      if bool_decide (a = slash) then "" :: split_slash t
      else match split_slash t with
      | seg :: rest => String a seg :: rest
      | [] => [String a EmptyString]
      end
  end.

(** One step of [path.normalize] on an absolute path; [acc] is reversed. *)
Definition normalize_step (acc : list string) (seg : string) : list string :=
  if bool_decide (seg = "") || bool_decide (seg = ".") then acc
  else if bool_decide (seg = "..") then tail acc
  else seg :: acc.
Definition normalize (segs : list string) : list string := rev (foldl normalize_step [] segs).

Definition render_tail (segs : list string) : string :=
  foldr (λ seg acc, "/" +:+ seg +:+ acc) "" segs.
Definition render (segs : list string) : string :=
  match segs with [] => "/" | _ => render_tail segs end.

Section Paths.
Context `{FileSystem}.

(** [path.resolve(p)] *)
Definition resolve_path (p : string) : list string :=
  if startsWith p "/" then normalize (split_slash p)
  else normalize (split_slash cwd ++ split_slash p).

(** The [while (!fs.existsSync(cur))] loop: [rcur] is [cur] reversed, [parts]
    the segments taken off; it stops at the root. *)
Fixpoint nearest_existing (rcur : list string) (parts : list string) : list string * list string :=
  if fs_existsSync (render (rev rcur)) then (rev rcur, parts)
  else match rcur with
  | [] => ([], parts)
  | base :: parent => nearest_existing parent (base :: parts)
  end.

Definition resolveRealPath (p : string) : string :=
  let resolved := resolve_path p in
  match fs_realpathSync (render resolved) with
  | Some real => real
  | None =>
      let '(cur, parts) := nearest_existing (rev resolved) [] in
      let realBase := nullish (fs_realpathSync (render cur)) (render cur) in
      match parts with
      | [] => realBase
      | _ => render (normalize (split_slash realBase ++ parts))
      end
  end.

Definition ends_with_slash (s : string) : bool :=
  bool_decide (String.get (String.length s - 1) s = Some slash).

Definition isPathContained (parentPath childPath : string) : bool :=
  let realParent := resolveRealPath parentPath in
  let realChild := resolveRealPath childPath in
  bool_decide (realParent = realChild) || bool_decide (realParent = "/") ||
  startsWith realChild (if ends_with_slash realParent then realParent else realParent +:+ "/").
End Paths.
