(* ===== verification/PathsSpec.v ===== *)
(** * PathsSpec: containment is the prefix order on segments

    Under what a file system promises of real paths, [resolveRealPath] returns
    absolute normalised paths and is idempotent, and [isPathContained] decides
    the prefix order on their segments: "/a/b" does not contain "/a/bc". *)

From S2P Require Import Prelude Paths.

(** ** Strings and segments *)

Definition no_slash (s : string) : Prop := split_slash s = [s].
Definition wf_seg (s : string) : Prop := no_slash s ∧ s ≠ "" ∧ s ≠ "." ∧ s ≠ "..".
Definition wf_path (segs : list string) : Prop := Forall wf_seg segs.

Lemma append_cons a s t : String a s +:+ t = String a (s +:+ t).
Proof. reflexivity. Qed.
Lemma append_empty t : "" +:+ t = t.
Proof. reflexivity. Qed.
Lemma app_nil_string s : s +:+ "" = s.
Proof. induction s as [|a s IH]; [done|]. by rewrite append_cons IH. Qed.
Lemma app_assoc_string s t u : (s +:+ t) +:+ u = s +:+ (t +:+ u).
Proof. induction s as [|a s IH]; [done|]. by rewrite !append_cons IH. Qed.

Lemma split_slash_nonempty s : ∃ seg rest, split_slash s = seg :: rest.
Proof.
  destruct s as [|a t]; simpl; [by eexists _, _|]. case_bool_decide; [by eexists _, _|].
  destruct (split_slash t) as [|seg rest]; by eexists _, _.
Qed.

Lemma split_slash_app s t : split_slash (s +:+ "/" +:+ t) = split_slash s ++ split_slash t.
Proof.
  induction s as [|a s IH]; [done|]. rewrite append_cons. simpl. rewrite IH. case_bool_decide; [done|].
  by destruct (split_slash_nonempty s) as (seg & rest & ->).
Qed.

Lemma split_slash_no_slash s : Forall no_slash (split_slash s).
Proof.
  induction s as [|a s IH]; simpl; [by repeat constructor|]. case_bool_decide as Ha; [by constructor|].
  destruct (split_slash s) as [|seg rest]; simpl.
  - repeat constructor. unfold no_slash. simpl. by rewrite bool_decide_false.
  - inversion IH as [|? ? Hseg Hrest]; subst. constructor; [|done].
    unfold no_slash in *. simpl. rewrite bool_decide_false // Hseg //.
Qed.

Lemma normalize_step_wf acc seg :
  Forall wf_seg acc → no_slash seg → Forall wf_seg (normalize_step acc seg).
Proof.
  intros Hacc Hseg. unfold normalize_step.
  case_bool_decide; [done|]. case_bool_decide; [done|]. simpl.
  case_bool_decide; [by destruct Hacc|]. by repeat constructor.
Qed.
Lemma normalize_wf segs : Forall no_slash segs → wf_path (normalize segs).
Proof.
  intros Hsegs. unfold normalize, wf_path. apply Forall_rev.
  enough (∀ acc, Forall wf_seg acc → Forall wf_seg (foldl normalize_step acc segs)) by by auto.
  induction Hsegs as [|seg segs Hseg _ IH]; intros acc Hacc; simpl; [done|].
  by apply IH, normalize_step_wf.
Qed.

Lemma normalize_fix_from segs acc :
  wf_path segs → foldl normalize_step acc segs = rev segs ++ acc.
Proof.
  intros Hwf. revert acc. induction Hwf as [|seg segs (_ & H0 & H1 & H2) _ IH]; intros acc; simpl; [done|].
  unfold normalize_step at 2. rewrite !bool_decide_false //=. by rewrite IH -app_assoc.
Qed.
Lemma normalize_fix segs : wf_path segs → normalize segs = segs.
Proof. intros Hwf. unfold normalize. by rewrite normalize_fix_from // app_nil_r rev_involutive. Qed.
Lemma normalize_cons_empty segs : normalize ("" :: segs) = normalize segs.
Proof. done. Qed.

Lemma split_slash_slash t : split_slash ("/" +:+ t) = "" :: split_slash t.
Proof. reflexivity. Qed.
Lemma split_render_tail segs : wf_path segs → split_slash (render_tail segs) = "" :: segs.
Proof.
  induction 1 as [|seg segs (Hns & _) _ IH]; [done|].
  change (render_tail (seg :: segs)) with ("/" +:+ (seg +:+ render_tail segs)).
  rewrite split_slash_slash. f_equal. destruct segs as [|seg' segs'].
  - change (render_tail []) with "". by rewrite app_nil_string Hns.
  - change (render_tail (seg' :: segs')) with ("/" +:+ (seg' +:+ render_tail segs')) in *.
    rewrite split_slash_app Hns. rewrite split_slash_slash in IH. injection IH as ->. done.
Qed.

Lemma prefix_string_spec p s : String.prefix p s = true ↔ ∃ t, s = p +:+ t.
Proof.
  revert s. induction p as [|a p IH]; intros s; [split; [by exists s|by destruct s]|].
  destruct s as [|b s]; [split; [done|intros [t ?]; done]|]. simpl.
  destruct (ascii_dec a b) as [->|Hne].
  - rewrite IH. split; intros [t Ht]; exists t.
    + by rewrite append_cons Ht.
    + rewrite append_cons in Ht. by injection Ht.
  - split; [done|]. intros [t Ht]. rewrite append_cons in Ht. by injection Ht.
Qed.

Lemma render_cons seg segs : render (seg :: segs) = render_tail (seg :: segs).
Proof. done. Qed.
Lemma render_absolute segs : startsWith (render segs) "/" = true.
Proof. destruct segs; [done|]. unfold startsWith. apply prefix_string_spec. eexists. reflexivity. Qed.

Lemma normalize_split_render segs : wf_path segs → normalize (split_slash (render segs)) = segs.
Proof.
  intros Hwf. destruct segs as [|seg segs]; [done|].
  rewrite render_cons split_render_tail // normalize_cons_empty. by apply normalize_fix.
Qed.
(** [path.join] of a real path with further segments. *)
Lemma normalize_join real rest :
  wf_path (real ++ rest) → normalize (split_slash (render real) ++ rest) = real ++ rest.
Proof.
  intros Hwf. destruct real as [|r rs].
  - change (normalize rest = rest). by apply normalize_fix.
  - apply Forall_app in Hwf as Hsplit. destruct Hsplit as [Hr _].
    rewrite render_cons split_render_tail //. exact (normalize_fix ((r :: rs) ++ rest) Hwf).
Qed.
Lemma render_inj s1 s2 : wf_path s1 → wf_path s2 → render s1 = render s2 → s1 = s2.
Proof. intros H1 H2 Heq. by rewrite -(normalize_split_render s1) // Heq normalize_split_render. Qed.

Lemma render_tail_app s1 s2 : render_tail (s1 ++ s2) = render_tail s1 +:+ render_tail s2.
Proof.
  induction s1 as [|seg s1 IH]; [done|].
  change (render_tail ((seg :: s1) ++ s2)) with ("/" +:+ (seg +:+ render_tail (s1 ++ s2))).
  by rewrite IH -!app_assoc_string.
Qed.

Lemma get_app_length s a t : String.get (String.length s) (s +:+ String a t) = Some a.
Proof. induction s as [|b s IH]; [done|exact IH]. Qed.

Lemma string_snoc s : s = "" ∨ ∃ s' a, s = s' +:+ String a "".
Proof.
  induction s as [|b s [->|(s' & a & ->)]]; [by left|right..].
  - by exists "", b.
  - by exists (String b s'), a.
Qed.

Lemma length_snoc s a : String.length (s +:+ String a "") = S (String.length s).
Proof. induction s as [|b s IH]; [done|]. rewrite append_cons. simpl. by rewrite IH. Qed.

Lemma ends_with_slash_snoc s a : ends_with_slash (s +:+ String a "") = bool_decide (a = slash).
Proof.
  unfold ends_with_slash. rewrite length_snoc /= Nat.sub_0_r get_app_length.
  apply bool_decide_ext. naive_solver.
Qed.

Lemma no_slash_last s a : no_slash (s +:+ String a "") → a ≠ slash.
Proof.
  intros Hns ->. unfold no_slash in Hns.
  change (String slash "") with ("/" +:+ "") in Hns. rewrite split_slash_app in Hns.
  destruct (split_slash_nonempty s) as (seg & rest & Heq). rewrite Heq in Hns.
  by destruct rest.
Qed.

Lemma render_ends segs : wf_path segs → segs ≠ [] → ends_with_slash (render segs) = false.
Proof.
  intros Hwf Hne. destruct segs as [|seg segs _] using rev_ind; [done|].
  apply Forall_app in Hwf as [_ (Hseg & _)%Forall_cons]. destruct Hseg as (Hns & H0 & _).
  assert (render (segs ++ [seg]) = render_tail segs +:+ "/" +:+ seg) as ->.
  { transitivity (render_tail (segs ++ [seg])); [by destruct segs|].
    rewrite render_tail_app. change (render_tail [seg]) with ("/" +:+ (seg +:+ "")).
    by rewrite app_nil_string. }
  destruct (string_snoc seg) as [->|(s' & a & ->)]; [done|].
  rewrite -!app_assoc_string ends_with_slash_snoc. apply bool_decide_false.
  by eapply no_slash_last.
Qed.

(** The test of [isPathContained], on the strings of two paths. *)
Definition contained_strings (realParent realChild : string) : bool :=
  bool_decide (realParent = realChild) || bool_decide (realParent = "/") ||
  startsWith realChild (if ends_with_slash realParent then realParent else realParent +:+ "/").

Lemma contained_prefix ps cs :
  wf_path ps → wf_path cs →
  contained_strings (render ps) (render cs) = bool_decide (ps `prefix_of` cs).
Proof.
  intros Hp Hc. unfold contained_strings.
  destruct ps as [|p ps]; [by rewrite orb_true_r bool_decide_true //; apply prefix_nil|].
  rewrite render_ends //. apply eq_true_iff_eq.
  rewrite !orb_true_iff !bool_decide_eq_true. unfold startsWith. rewrite prefix_string_spec. split.
  - intros [[Heq|Heq]|[t Ht]].
    + apply render_inj in Heq as ->; [|done..]. done.
    + change "/" with (render []) in Heq. apply render_inj in Heq; [done..|]. constructor.
    + apply (f_equal split_slash) in Ht.
      rewrite app_assoc_string split_slash_app render_cons split_render_tail // in Ht.
      destruct cs as [|c cs].
      * simpl in Ht. injection Ht as Hp0 _. simplify_eq.
        inversion Hp as [|? ? (_ & H0 & _)]; subst. done.
      * rewrite render_cons split_render_tail // in Ht. injection Ht as -> ->. by exists (split_slash t).
  - intros [[|x xs] ->].
    + left. left. by rewrite app_nil_r.
    + right. exists (x +:+ render_tail xs).
      change (render ((p :: ps) ++ x :: xs)) with (render_tail ((p :: ps) ++ x :: xs)).
      by rewrite render_tail_app -render_cons app_assoc_string.
Qed.

(** ** What a file system promises *)

Class FileSystemLaws `{FileSystem} : Prop := {
  (* a real path is absolute and normalised, and is its own real path *)
  realpath_canonical p q : fs_realpathSync p = Some q →
    (∃ segs, wf_path segs ∧ q = render segs) ∧ fs_realpathSync q = Some q;
  (* a path exists exactly when it has a real path; the root does *)
  exists_realpath p : fs_existsSync p = negb (is_undef (fs_realpathSync p));
  root_exists : fs_existsSync "/" = true;
  (* what is below a directory is below its real path *)
  realpath_below segs real rest : wf_path segs → wf_path real → wf_path rest →
    fs_realpathSync (render segs) = Some (render real) →
    fs_realpathSync (render (segs ++ rest)) = fs_realpathSync (render (real ++ rest));
}.

Section Resolve.
Context `{FileSystemLaws}.

Lemma resolve_path_wf p : wf_path (resolve_path p).
Proof using Type.
  unfold resolve_path. destruct (startsWith p "/"); apply normalize_wf; [apply split_slash_no_slash|].
  apply Forall_app. split; apply split_slash_no_slash.
Qed.
Lemma resolve_path_render segs : wf_path segs → resolve_path (render segs) = segs.
Proof using Type. intros Hwf. unfold resolve_path. by rewrite render_absolute normalize_split_render. Qed.

(** What the search for the nearest existing ancestor returns. *)
Lemma nearest_existing_spec rcur parts cur parts' :
  nearest_existing rcur parts = (cur, parts') →
  ∃ taken, rev rcur = cur ++ taken ∧ parts' = taken ++ parts ∧
    fs_existsSync (render cur) = true ∧
    (∀ k, 0 < k ≤ length taken → fs_existsSync (render (cur ++ take k taken)) = false).
Proof using Type*.
  revert parts. induction rcur as [|base rcur IH]; intros parts; simpl.
  - rewrite root_exists. intros [= <- <-]. exists []. split_and!; [done..|apply root_exists|].
    simpl. intros k ?. lia.
  - destruct (fs_existsSync (render (rev rcur ++ [base]))) eqn:He.
    + intros [= <- <-]. exists []. split_and!; [by rewrite app_nil_r|done..|]. simpl. intros k ?. lia.
    + intros (taken & Hr & -> & Hex & Hk)%IH. exists (taken ++ [base]).
      split_and!; [by rewrite Hr -assoc|by rewrite -assoc|done|].
      intros k. rewrite length_app /=. intros Hlen.
      destruct (decide (k = length taken + 1)) as [->|].
      * rewrite take_ge; [|rewrite length_app /=; lia]. by rewrite assoc -Hr.
      * rewrite take_app_le; [|lia]. apply Hk. lia.
Qed.

Lemma realpath_None p : fs_realpathSync p = None ↔ fs_existsSync p = false.
Proof using Type*. rewrite exists_realpath. by destruct (fs_realpathSync p). Qed.

(** A real path is an existing canonical path followed by segments of which the
    first does not exist. *)
Lemma resolveRealPath_shape p :
  ∃ real rest, wf_path (real ++ rest) ∧ resolveRealPath p = render (real ++ rest) ∧
    fs_realpathSync (render real) = Some (render real) ∧
    (∀ k, 0 < k ≤ length rest → fs_existsSync (render (real ++ take k rest)) = false).
Proof using Type*.
  unfold resolveRealPath. pose proof (resolve_path_wf p) as Hwf.
  destruct (fs_realpathSync (render (resolve_path p))) as [q|] eqn:Hq.
  - destruct (realpath_canonical _ _ Hq) as [(segs & Hsegs & ->) Hfix].
    exists segs, []. rewrite app_nil_r. split_and!; [done..|]. simpl. intros k ?. lia.
  - destruct (nearest_existing _ []) as [cur parts] eqn:Hn.
    apply nearest_existing_spec in Hn as (taken & Hr & -> & Hex & Hk).
    rewrite rev_involutive in Hr. rewrite app_nil_r. rewrite Hr in Hwf.
    apply Forall_app in Hwf as [Hcur Htaken].
    rewrite exists_realpath in Hex. destruct (fs_realpathSync (render cur)) as [q|] eqn:Hreal; [|done].
    destruct (realpath_canonical _ _ Hreal) as [(real & Hwreal & ->) Hfix]. simpl.
    exists real, taken.
    assert (wf_path (real ++ taken)) as Hwf by by apply Forall_app.
    split_and!; [done| |done|].
    + destruct taken as [|x xs]; [by rewrite app_nil_r|]. by rewrite normalize_join.
    + intros k Hlen. specialize (Hk k Hlen). apply realpath_None. apply realpath_None in Hk.
      rewrite -(realpath_below cur) //. by apply Forall_take.
Qed.

Lemma resolveRealPath_wf p : ∃ segs, wf_path segs ∧ resolveRealPath p = render segs.
Proof using Type*. destruct (resolveRealPath_shape p) as (real & rest & Hwf & Heq & _). eauto. Qed.

Lemma nearest_existing_skip real rest parts :
  fs_existsSync (render real) = true →
  (∀ k, 0 < k ≤ length rest → fs_existsSync (render (real ++ take k rest)) = false) →
  nearest_existing (rev (real ++ rest)) parts = (real, rest ++ parts).
Proof using Type.
  intros Hreal. revert parts. induction rest as [|x rest IH] using rev_ind; intros parts Hk.
  - rewrite app_nil_r. destruct real as [|r rs _] using rev_ind; simpl; [by rewrite Hreal|].
    rewrite rev_app_distr /= rev_involutive Hreal //.
  - rewrite assoc rev_app_distr /= rev_app_distr -rev_app_distr rev_involutive.
    pose proof (Hk (length (rest ++ [x]))) as Hall. rewrite take_ge // in Hall.
    rewrite assoc in Hall. rewrite Hall; [|rewrite length_app /=; lia].
    rewrite IH; [by rewrite -assoc|]. intros k Hlen.
    rewrite -(take_app_le rest [x]); [|lia]. apply Hk. rewrite length_app. lia.
Qed.
End Resolve.

Lemma resolve_resolved `{FileSystemLaws} p :
  resolveRealPath (resolveRealPath p) = resolveRealPath p.
Proof.
  destruct (resolveRealPath_shape p) as (real & rest & Hwf & -> & Hfix & Hk).
  unfold resolveRealPath. rewrite resolve_path_render //.
  destruct rest as [|x xs].
  - by rewrite app_nil_r Hfix.
  - assert (fs_realpathSync (render (real ++ x :: xs)) = None) as ->.
    { apply realpath_None. specialize (Hk (length (x :: xs))). rewrite take_ge // in Hk.
      apply Hk. simpl. lia. }
    rewrite nearest_existing_skip //; [|by rewrite exists_realpath Hfix].
    rewrite app_nil_r Hfix. cbn [nullish default]. by rewrite normalize_join.
Qed.

(** [resolveRealPath] is idempotent: resolving a resolved path, whether it
    exists or not, changes nothing, so stored scopes stay what they are. *)
Theorem resolveRealPath_idempotent `{FileSystemLaws} p :
  resolveRealPath (resolveRealPath p) = resolveRealPath p.
Proof. apply resolve_resolved. Qed.

Lemma contained_iff_prefix `{FileSystemLaws} parentPath childPath :
  ∃ ps cs, wf_path ps ∧ wf_path cs ∧
    resolveRealPath parentPath = render ps ∧ resolveRealPath childPath = render cs ∧
    isPathContained parentPath childPath = bool_decide (ps `prefix_of` cs).
Proof.
  destruct (resolveRealPath_wf parentPath) as (ps & Hp & Hpe).
  destruct (resolveRealPath_wf childPath) as (cs & Hc & Hce).
  exists ps, cs. split_and!; [done..|]. rewrite -contained_prefix // -Hpe -Hce. done.
Qed.

(** Containment is the prefix order on the segments of the two real paths. *)
Theorem isPathContained_prefix `{FileSystemLaws} parentPath childPath :
  ∃ ps cs, wf_path ps ∧ wf_path cs ∧
    resolveRealPath parentPath = render ps ∧ resolveRealPath childPath = render cs ∧
    isPathContained parentPath childPath = bool_decide (ps `prefix_of` cs).
Proof. apply contained_iff_prefix. Qed.

(** ** Witnesses: a disk with a directory "/w" and a symbolic link "/l" to it *)

Definition sample_real (segs : list string) : option (list string) :=
  if bool_decide (segs = []) then Some []
  else if bool_decide (segs = ["w"]) || bool_decide (segs = ["l"]) then Some ["w"] else None.
#[export] Instance sample_fs : FileSystem := {
  cwd := "/w";
  fs_realpathSync p := render <$> sample_real (normalize (split_slash p));
  fs_existsSync p := negb (is_undef (sample_real (normalize (split_slash p))));
}.

Lemma sample_real_Some segs real :
  sample_real segs = Some real →
  (segs = [] ∧ real = []) ∨ ((segs = ["w"] ∨ segs = ["l"]) ∧ real = ["w"]).
Proof. unfold sample_real. repeat case_bool_decide; naive_solver. Qed.
Lemma wf_w : wf_path ["w"].
Proof. repeat constructor; done. Qed.

#[export] Instance sample_fs_laws : FileSystemLaws (H:=sample_fs).
Proof.
  split; simpl.
  - intros p q [real [Hreal ->]]%fmap_Some.
    apply sample_real_Some in Hreal as [[_ ->]|[_ ->]]; (split; [|done]).
    + exists []. split; [constructor|reflexivity].
    + exists ["w"]. split; [apply wf_w|done].
  - intros p. destruct (sample_real _); reflexivity.
  - done.
  - intros segs real rest Hs Hr Hrest [real' [Hreal Heq]]%fmap_Some.
    rewrite normalize_split_render // in Hreal.
    assert (∀ l, wf_path l → normalize (split_slash (render l)) = l) as Hn
      by exact normalize_split_render.
    rewrite !Hn; [|by apply Forall_app..].
    apply sample_real_Some in Hreal as [[-> ->]|[Hw ->]];
      (apply render_inj in Heq as ->; [|done || apply wf_w..]); [done|].
    destruct Hw as [->| ->]; [done|]. destruct rest as [|x xs]; [done|]. done.
Qed.

Lemma resolveRealPath_idempotent_witness :
  resolveRealPath (resolveRealPath "/l/new/../a") = resolveRealPath "/l/new/../a" ∧
  resolveRealPath "/l/new/../a" = "/w/a".
Proof. split; [apply resolveRealPath_idempotent|vm_compute; reflexivity]. Defined.
Lemma isPathContained_prefix_witness :
  ∃ ps cs, wf_path ps ∧ wf_path cs ∧
    resolveRealPath "/l" = render ps ∧ resolveRealPath "src" = render cs ∧
    isPathContained "/l" "src" = bool_decide (ps `prefix_of` cs).
Proof. apply isPathContained_prefix. Defined.
Example sibling_not_contained : isPathContained "/w" "/wc" = false.
Proof. vm_compute. reflexivity. Qed.
Example link_is_followed : isPathContained "/w" "/l/x" = true.
Proof. vm_compute. reflexivity. Qed.
