(* ===== verification/Capability.v ===== *)
(** * Capability: scopes, attenuation and admission (src/src/capability/check.ts)

    A capability is a row of the store. Admission re-reads it and walks its
    chain of parents, then tests the request against the scope and the limits;
    every refusal is journaled before it is thrown. The walk is a loop over
    stored identifiers, so it takes fuel; [None] says the fuel ran out. *)

From S2P Require Import Prelude Types Events Encode Config Store Paths.

Definition DEFAULT_CAPABILITY_LIMITS : CapabilityLimits :=
  mkCapabilityLimits 315360000000 1099511627776 107374182400 4096 65536.

Definition ISA_V1_OPCODES : list string :=
  ["fs.read"; "fs.write"; "fs.patch"; "fs.move"; "fs.delete"; "fs.stat";
   "workspace.snapshot"; "workspace.diff"; "workspace.commit"; "workspace.rollback";
   "proc.spawn"; "proc.wait"; "proc.signal"; "proc.inspect"; "observe.files";
   "observe.resources"; "control.status"; "control.health"; "control.cancel";
   "control.resolve"; "control.resume"; "artifact.put"; "artifact.get"; "artifact.stream"].

Definition unique (values : list string) : list string := js_set values.

(** [value.search(/[*?\[]/u)]: the text before the first wildcard and the rest. *)
Definition is_wildcard (a : ascii) : bool := bool_decide (a ∈ ["*"; "?"; "["]%char).
Fixpoint split_wildcard (s : string) : option (string * string) :=
  match s with
  | EmptyString => None
  | String a t =>
      if is_wildcard a then Some (EmptyString, s)
      else (λ '(p, q), (String a p, q)) <$> split_wildcard t
  end.

(** ** Limits *)

Inductive LimitKey := cpuMs | memoryBytes | outputBytes | concurrentOps | processes.
Definition limit_keys : list LimitKey := [cpuMs; memoryBytes; outputBytes; concurrentOps; processes].
Definition limit_of (l : CapabilityLimits) (k : LimitKey) : Z :=
  match k with
  | cpuMs => cl_cpuMs l | memoryBytes => cl_memoryBytes l | outputBytes => cl_outputBytes l
  | concurrentOps => cl_concurrentOps l | processes => cl_processes l
  end.
Definition partial_limit_of (l : PartialLimits) (k : LimitKey) : option Z :=
  match k with
  | cpuMs => pl_cpuMs l | memoryBytes => pl_memoryBytes l | outputBytes => pl_outputBytes l
  | concurrentOps => pl_concurrentOps l | processes => pl_processes l
  end.
(** [{ ...base, ...(limits ?? {}) }] *)
Definition merge_limits (base : CapabilityLimits) (limits : option PartialLimits) : CapabilityLimits :=
  let pick k := nullish (limits ≫= λ l, partial_limit_of l k) (limit_of base k) in
  mkCapabilityLimits (pick cpuMs) (pick memoryBytes) (pick outputBytes) (pick concurrentOps)
    (pick processes).

(** [Number.isSafeInteger(v) && v >= 0], on integers. *)
Definition MAX_SAFE_INTEGER : Z := 9007199254740991.
Definition valid_limit (v : Z) : bool := bool_decide (0 ≤ v ≤ MAX_SAFE_INTEGER)%Z.

Definition normalizeCapabilityLimits (base : CapabilityLimits) (limits : option PartialLimits)
  : outcome error CapabilityLimits :=
  let merged := merge_limits base limits in
  if forallb (λ k, valid_limit (limit_of merged k)) limit_keys then Ok merged
  else Throw (TypeErr "Capability limit must be a non-negative safe integer").

Definition narrowCapabilityLimits (parent : CapabilityLimits) (requested : option PartialLimits)
  : outcome error CapabilityLimits :=
  child ← normalizeCapabilityLimits parent requested;
  if existsb (λ k, bool_decide (limit_of parent k < limit_of child k)%Z) limit_keys
  then Throw (CapabilityViolationError v_attenuation_widened)
  else Ok child.

Section Scopes.
Context `{FileSystem}.

Definition normalizePathPattern (value : string) : string :=
  match split_wildcard value with
  | None => resolveRealPath value
  | Some (prefix, suffix) =>
      resolveRealPath (if truthy_str prefix then prefix else ".") +:+ suffix
  end.

Definition normalizeScope (scope : CapabilityScopeInput) : CapabilityScope :=
  let legacyWrites := nullish (ci_write scope) [] in
  let requestedPaths := nullish (ci_paths scope) legacyWrites in
  {| cs_write := unique (map normalizePathPattern legacyWrites);
     cs_exclusive := unique (nullish (ci_exclusive scope) []);
     cs_opcodes := unique (nullish (ci_opcodes scope) ISA_V1_OPCODES);
     cs_workspaces := unique (nullish (ci_workspaces scope) []);
     cs_paths := unique (map normalizePathPattern requestedPaths);
     cs_secrets := unique (nullish (ci_secrets scope) []) |}.

(** A full scope where a partial one is expected. *)
Definition scope_input (s : CapabilityScope) : CapabilityScopeInput :=
  mkCapabilityScopeInput (Some (cs_write s)) (Some (cs_exclusive s)) (Some (cs_opcodes s))
    (Some (cs_workspaces s)) (Some (cs_paths s)) (Some (cs_secrets s)).

Definition all_in (child parent : list string) : bool := forallb (js_has parent) child.
Definition path_allowed (paths : list string) (child : string) : bool :=
  existsb (λ parent, isPathContained parent child) paths.

Definition validateScopeNarrowing (parentScope : CapabilityScope) (narrowerScope : CapabilityScopeInput)
  : outcome error CapabilityScope :=
  let normParent := normalizeScope (scope_input parentScope) in
  let widened := Throw (CapabilityViolationError v_attenuation_widened) in
  let requestedPaths := nullish_opt (ci_paths narrowerScope) (ci_write narrowerScope) in
  let newPaths := match requestedPaths with
    | None => cs_paths normParent
    | Some req => unique (map normalizePathPattern req)
    end in
  let pick o inherited := match o with None => inherited | Some l => unique l end in
  let newExclusive := pick (ci_exclusive narrowerScope) (cs_exclusive normParent) in
  let newOpcodes := pick (ci_opcodes narrowerScope) (cs_opcodes normParent) in
  let newWorkspaces := pick (ci_workspaces narrowerScope) (cs_workspaces normParent) in
  let newSecrets := pick (ci_secrets narrowerScope) (cs_secrets normParent) in
  let restricted := negb (bool_decide (cs_workspaces normParent = [])) in
  if negb (forallb (path_allowed (cs_paths normParent)) newPaths) then widened
  else if negb (all_in newExclusive (cs_exclusive normParent)) then widened
  else if negb (all_in newOpcodes (cs_opcodes normParent)) then widened
  else if restricted && negb (all_in newWorkspaces (cs_workspaces normParent)) then widened
  else if restricted && bool_decide (ci_workspaces narrowerScope = Some []) then widened
  else if negb (all_in newSecrets (cs_secrets normParent)) then widened
  else Ok {|
    cs_write := match requestedPaths with None => cs_write normParent | Some _ => newPaths end;
    cs_exclusive := newExclusive;
    cs_opcodes := newOpcodes;
    cs_workspaces := newWorkspaces;
    cs_paths := newPaths;
    cs_secrets := newSecrets |}.
End Scopes.

(** ** Admission *)

Record CheckCapabilityAdmissionOptions := mkAdmissionOptions {
  ao_domainId : string;
  ao_currentEpoch : Z;
  ao_capabilityId : string;
  ao_requiredResources : option (list string);
  ao_mutationRoots : option (list string);
  ao_opcode : option string;
  ao_workspace : option string;
  ao_secretRefs : option (list string);
  ao_requestedLimits : option PartialLimits;
  ao_currentConcurrentOps : option Z;
  ao_currentProcesses : option Z;
  ao_policyVersion : option string;
  ao_runId : option string;
  ao_opId : option string;
}.

Record CapabilityAdmissionResult := mkAdmissionResult {
  ar_capability : Capability;
  ar_effectiveResources : list string;
  ar_effectiveMutationRoots : list string;
  ar_effectiveLimits : CapabilityLimits;
}.

Definition reason_name (r : ViolationReason) : string :=
  match r with
  | v_expired => "expired" | v_revoked => "revoked" | v_epoch_mismatch => "epoch_mismatch"
  | v_out_of_scope_resource => "out_of_scope_resource" | v_out_of_scope_path => "out_of_scope_path"
  | v_out_of_scope_opcode => "out_of_scope_opcode"
  | v_out_of_scope_workspace => "out_of_scope_workspace"
  | v_out_of_scope_secret => "out_of_scope_secret" | v_budget_exceeded => "budget_exceeded"
  | v_concurrency_exceeded => "concurrency_exceeded" | v_policy_mismatch => "policy_mismatch"
  | v_domain_mismatch => "domain_mismatch" | v_attenuation_widened => "attenuation_widened"
  end.

(** The capability [getCapability] returns. *)
Definition read_capability (id : string) (d : Db) : option Capability :=
  mapCapabilityRow <$> find_capability id d.

(** Expiry, revocation and epoch of one link of the chain. *)
Definition link_violation (now epoch : Z) (c : Capability) : option ViolationReason :=
  if negb (is_undef (cap_revokedAt c)) then Some v_revoked
  else if negb (bool_decide (cap_epoch c = epoch)) then Some v_epoch_mismatch
  else if date_le (cap_expiresAt c) now then Some v_expired
  else None.

(** The [while (ancestorId)] loop: [Some None] is a valid chain, [None] no answer
    within the fuel. *)
Fixpoint ancestor_violation (fuel : nat) (now epoch : Z) (d : Db) (ancestorId : option string)
  : option (option ViolationReason) :=
  match fuel with
  | O => None
  | S fuel' =>
      match or_undef ancestorId with
      | None => Some None
      | Some id =>
          match read_capability id d with
          | None => Some (Some v_revoked)
          | Some ancestor =>
              match link_violation now epoch ancestor with
              | Some v => Some (Some v)
              | None => ancestor_violation fuel' now epoch d (cap_parentId ancestor)
              end
          end
      end
  end.

(** The tests on the capability itself, before its chain is walked. *)
Definition self_violation (now : Z) (o : CheckCapabilityAdmissionOptions) (cap : Capability)
  : option ViolationReason :=
  if negb (bool_decide (cap_domainId cap = ao_domainId o)) then Some v_domain_mismatch
  else if negb (bool_decide (cap_epoch cap = ao_currentEpoch o)) then Some v_epoch_mismatch
  else if date_le (cap_expiresAt cap) now then Some v_expired
  else if negb (is_undef (cap_revokedAt cap)) then Some v_revoked
  else match ao_policyVersion o with
  | Some pv => if bool_decide (cap_policyVersion cap = pv) then None else Some v_policy_mismatch
  | None => None
  end.

Definition limit_violation (limits : CapabilityLimits) (o : CheckCapabilityAdmissionOptions)
  : option ViolationReason :=
  if existsb (λ k, match ao_requestedLimits o ≫= λ l, partial_limit_of l k with
      | Some requested => bool_decide (limit_of limits k < requested)%Z
      | None => false end) limit_keys
  then Some v_budget_exceeded
  else if match ao_currentConcurrentOps o with
    | Some n => bool_decide (cl_concurrentOps limits ≤ n)%Z | None => false end
  then Some v_concurrency_exceeded
  else if bool_decide (ao_opcode o = Some "proc.spawn") && match ao_currentProcesses o with
    | Some n => bool_decide (cl_processes limits ≤ n)%Z | None => false end
  then Some v_concurrency_exceeded
  else None.

Section Admission.
Context `{FileSystem}.

(** Opcode, workspace and secrets; then the limits; then resources and paths. *)
Definition scope_violation (scope : CapabilityScope) (o : CheckCapabilityAdmissionOptions)
  : option ViolationReason :=
  if match ao_opcode o with Some op => negb (js_has (cs_opcodes scope) op) | None => false end
  then Some v_out_of_scope_opcode
  else if match ao_workspace o with
    | Some w => negb (bool_decide (cs_workspaces scope = [])) && negb (js_has (cs_workspaces scope) w)
    | None => false end
  then Some v_out_of_scope_workspace
  else if match ao_secretRefs o with Some l => negb (all_in l (cs_secrets scope)) | None => false end
  then Some v_out_of_scope_secret
  else None.

(** [x !== undefined && x.length > 0] *)
Definition requested (o : option (list string)) : option (list string) :=
  match o with Some [] | None => None | Some l => Some l end.

Definition resource_violation (scope : CapabilityScope) (o : CheckCapabilityAdmissionOptions)
  : option ViolationReason :=
  if match requested (ao_requiredResources o) with
     | Some l => negb (all_in l (cs_exclusive scope)) | None => false end
  then Some v_out_of_scope_resource
  else if match requested (ao_mutationRoots o) with
     | Some l => negb (forallb (path_allowed (cs_paths scope)) (map normalizePathPattern l))
     | None => false end
  then Some v_out_of_scope_path
  else None.

(** The first test that fails, in the order of the code. *)
Definition first_violation (vs : list (option ViolationReason)) : option ViolationReason :=
  foldr (λ v rest, match v with Some r => Some r | None => rest end) None vs.

Definition js_opt_strings (o : option (list string)) : jsval := jopt js_strings o.

(** [reject(reason, message)]: journal the refusal if possible, then throw. *)
Definition reject {A} (now : Z) (o : CheckCapabilityAdmissionOptions) (reason : ViolationReason)
    (message : string) : SM A :=
  try_ignore (recordJournalEvent now (simple_event (ao_domainId o) (ao_runId o) (ao_opId o)
    "CAPABILITY_REJECTED"
    (JObj [("capabilityId", JStr (ao_capabilityId o)); ("reason", JStr (reason_name reason));
           ("message", JStr message);
           ("requiredResources", js_opt_strings (ao_requiredResources o));
           ("mutationRoots", js_opt_strings (ao_mutationRoots o))])
    (Iso now));; mret tt);;
  throw (CapabilityViolationError reason).

Definition admission_result (cap : Capability) (scope : CapabilityScope)
    (o : CheckCapabilityAdmissionOptions) : CapabilityAdmissionResult :=
  {| ar_capability := mkCapability (cap_id cap) (cap_domainId cap) scope (cap_issuer cap)
       (cap_policyVersion cap) (cap_reason cap) (cap_limits cap) (cap_expiresAt cap)
       (cap_parentId cap) (cap_epoch cap) (cap_createdAt cap) (cap_revokedAt cap);
     ar_effectiveResources := nullish (requested (ao_requiredResources o)) (cs_exclusive scope);
     ar_effectiveMutationRoots := nullish (map normalizePathPattern <$> requested (ao_mutationRoots o))
       (cs_paths scope);
     ar_effectiveLimits := cap_limits cap |}.

(** [None]: the walk up the parents has not ended within the fuel. *)
Definition checkCapabilityAdmission (fuel : nat) (now : Z) (o : CheckCapabilityAdmissionOptions)
  : SM (option CapabilityAdmissionResult) :=
  cap ← getCapability (ao_capabilityId o);
  match cap with
  | None => reject now o v_revoked "capability not found"
  | Some cap =>
      match self_violation now o cap with
      | Some v => reject now o v "capability refused"
      | None =>
          chain ← query (λ d, ancestor_violation fuel now (ao_currentEpoch o) d (cap_parentId cap));
          match chain with
          | None => mret None
          | Some (Some v) => reject now o v "capability ancestor refused"
          | Some None =>
              let scope := normalizeScope (scope_input (cap_scope cap)) in
              match first_violation [scope_violation scope o; limit_violation (cap_limits cap) o;
                resource_violation scope o] with
              | Some v => reject now o v "request out of scope"
              | None => mret (Some (admission_result cap scope o))
              end
          end
      end
  end.
End Admission.
