(* ===== verification/CapabilitySpec.v ===== *)
(** * CapabilitySpec: attenuation only narrows, admission is sound, revocation cascades *)

From S2P Require Import Prelude Types Events Encode Config Store StoreCalls Samples Paths PathsSpec Capability.

(** ** Attenuation *)

Lemma all_in_spec child parent : all_in child parent = true ↔ ∀ x, x ∈ child → x ∈ parent.
Proof.
  unfold all_in. rewrite forallb_forall. split.
  - intros Hall x Hx%list_elem_of_In. by apply js_has_spec, Hall.
  - intros Hsub x Hx%list_elem_of_In. by apply js_has_spec, Hsub.
Qed.
Lemma all_in_refl l : all_in l l = true.
Proof. by apply all_in_spec. Qed.
Lemma all_in_trans l1 l2 l3 : all_in l1 l2 = true → all_in l2 l3 = true → all_in l1 l3 = true.
Proof. rewrite !all_in_spec. auto. Qed.

Section Containment.
Context `{FileSystemLaws}.

Lemma isPathContained_trans a b c :
  isPathContained a b = true → isPathContained b c = true → isPathContained a c = true.
Proof.
  destruct (contained_iff_prefix a b) as (sa & sb & Ha & Hb & Hra & Hrb & ->).
  destruct (contained_iff_prefix b c) as (sb' & sc & Hb' & Hc & Hrb' & Hrc & ->).
  destruct (contained_iff_prefix a c) as (sa' & sc' & Ha' & Hc' & Hra' & Hrc' & ->).
  rewrite Hrb in Hrb'. rewrite Hra in Hra'. rewrite Hrc in Hrc'.
  apply render_inj in Hrb' as <-; [|done..]. apply render_inj in Hra' as <-; [|done..].
  apply render_inj in Hrc' as <-; [|done..].
  rewrite !bool_decide_eq_true. intros. by etransitivity.
Qed.

Lemma isPathContained_refl a : isPathContained a a = true.
Proof. unfold isPathContained. by rewrite bool_decide_true. Qed.

Lemma path_allowed_trans parents children p :
  forallb (path_allowed parents) children = true → path_allowed children p = true →
  path_allowed parents p = true.
Proof.
  rewrite forallb_forall. intros Hall (c & Hc%list_elem_of_In & Hcp)%existsb_In.
  apply Hall, existsb_In in Hc as (q & Hq & Hqc). apply existsb_In. exists q.
  split; [done|]. by eapply isPathContained_trans.
Qed.

Lemma path_allowed_self l : forallb (path_allowed l) l = true.
Proof.
  apply forallb_forall. intros p Hp%list_elem_of_In. apply existsb_In. exists p.
  split; [done|apply isPathContained_refl].
Qed.

(** [child] grants nothing that [parent] does not. *)
Record scope_within (child parent : CapabilityScope) : Prop := {
  within_exclusive : all_in (cs_exclusive child) (cs_exclusive parent) = true;
  within_opcodes : all_in (cs_opcodes child) (cs_opcodes parent) = true;
  within_secrets : all_in (cs_secrets child) (cs_secrets parent) = true;
  within_paths : forallb (path_allowed (cs_paths parent)) (cs_paths child) = true;
  within_workspaces : cs_workspaces parent ≠ [] →
    cs_workspaces child ≠ [] ∧ all_in (cs_workspaces child) (cs_workspaces parent) = true;
}.

Lemma unique_nonempty l : l ≠ [] → unique l ≠ [].
Proof.
  intros Hl Hu. destruct l as [|x l]; [done|].
  assert (x ∈ unique (x :: l)) as Hx by (apply elem_of_js_set; set_solver).
  rewrite Hu in Hx. by apply not_elem_of_nil in Hx.
Qed.

Lemma narrowing_within parent narrower child :
  validateScopeNarrowing parent narrower = Ok child →
  scope_within child (normalizeScope (scope_input parent)).
Proof.
  unfold validateScopeNarrowing. set (np := normalizeScope _). cbv zeta. intros Hv.
  repeat match type of Hv with (if ?b then _ else _) = Ok _ =>
    let Hb := fresh "Hb" in destruct b eqn:Hb; [discriminate|] end.
  injection Hv as <-. apply negb_false_iff in Hb, Hb0, Hb1, Hb4.
  split; simpl; [done..|]. intros Hne. rewrite (bool_decide_false _ Hne) /= in Hb2 Hb3.
  apply negb_false_iff in Hb2. apply bool_decide_eq_false in Hb3.
  split; [|done]. destruct (ci_workspaces narrower) as [l|]; [|done].
  apply unique_nonempty. intros ->. by apply Hb3.
Qed.

(** ** What the request tests say *)

Lemma scope_violation_None scope o :
  scope_violation scope o = None ↔
  (∀ op, ao_opcode o = Some op → op ∈ cs_opcodes scope) ∧
  (∀ w, ao_workspace o = Some w → cs_workspaces scope ≠ [] → w ∈ cs_workspaces scope) ∧
  (∀ l, ao_secretRefs o = Some l → all_in l (cs_secrets scope) = true).
Proof.
  assert (∀ l x, negb (js_has l x) = true ↔ x ∉ l) as Hnot.
  { intros l x. rewrite negb_true_iff -not_true_iff_false js_has_spec. done. }
  unfold scope_violation. split.
  - intros Hv. repeat match type of Hv with (if ?b then _ else _) = None =>
      let Hb := fresh "Hb" in destruct b eqn:Hb; [discriminate|] end.
    split_and!.
    + intros op Ho. rewrite Ho in Hb. by apply negb_false_iff, js_has_spec in Hb.
    + intros w Hw Hne. rewrite Hw bool_decide_false //= in Hb0. by apply negb_false_iff, js_has_spec in Hb0.
    + intros l Hl. rewrite Hl in Hb1. by apply negb_false_iff in Hb1.
  - intros (Hop & Hws & Hsec).
    assert (match ao_opcode o with Some op => negb (js_has (cs_opcodes scope) op) | None => false end = false)
      as ->.
    { destruct (ao_opcode o); [|done]. apply negb_false_iff, js_has_spec. auto. }
    assert (match ao_workspace o with
      | Some w => negb (bool_decide (cs_workspaces scope = [])) && negb (js_has (cs_workspaces scope) w)
      | None => false end = false) as ->.
    { destruct (ao_workspace o); [|done]. case_bool_decide; [done|]. apply negb_false_iff, js_has_spec. auto. }
    destruct (ao_secretRefs o) as [l|]; [|done]. by rewrite (Hsec l).
Qed.

Lemma resource_violation_None scope o :
  resource_violation scope o = None ↔
  (∀ l, requested (ao_requiredResources o) = Some l → all_in l (cs_exclusive scope) = true) ∧
  (∀ l, requested (ao_mutationRoots o) = Some l →
    forallb (path_allowed (cs_paths scope)) (map normalizePathPattern l) = true).
Proof.
  unfold resource_violation. split.
  - intros Hv. repeat match type of Hv with (if ?b then _ else _) = None =>
      let Hb := fresh "Hb" in destruct b eqn:Hb; [discriminate|] end.
    split; intros l Hl; [rewrite Hl in Hb; by apply negb_false_iff in Hb|].
    rewrite Hl in Hb0. by apply negb_false_iff in Hb0.
  - intros [Hres Hroot].
    destruct (requested (ao_requiredResources o)); [rewrite (Hres _ eq_refl)|]; simpl;
      (destruct (requested (ao_mutationRoots o)); [by rewrite (Hroot _ eq_refl)|done]).
Qed.

Lemma within_violations child parent o :
  scope_within child parent → scope_violation child o = None → resource_violation child o = None →
  scope_violation parent o = None ∧ resource_violation parent o = None.
Proof.
  intros [Hex Hop Hsec Hpaths Hws]. rewrite !scope_violation_None !resource_violation_None.
  rewrite !all_in_spec in Hex Hop Hsec. intros (Ho & Hw & Hs) (Hres & Hroot). split_and!.
  - auto.
  - intros w Hw' [Hne Hsub]%Hws. rewrite all_in_spec in Hsub. auto.
  - intros l Hl. apply all_in_spec. intros x Hx. apply Hsec.
    specialize (Hs l Hl). rewrite all_in_spec in Hs. auto.
  - intros l Hl. specialize (Hres l Hl). rewrite all_in_spec in Hres. apply all_in_spec. auto.
  - intros l Hl. specialize (Hroot l Hl). rewrite !forallb_forall in Hroot |- *.
    intros p Hp. eapply path_allowed_trans; [exact Hpaths|auto].
Qed.

Lemma within_result cap1 cap2 child parent o :
  scope_within child parent → resource_violation child o = None →
  all_in (ar_effectiveResources (admission_result cap1 child o)) (cs_exclusive parent) = true ∧
  forallb (path_allowed (cs_paths parent))
    (ar_effectiveMutationRoots (admission_result cap2 child o)) = true.
Proof.
  intros [Hex _ _ Hpaths _] [Hres Hroot]%resource_violation_None. simpl. split.
  - destruct (requested (ao_requiredResources o)) as [l|]; simpl; [|done].
    eapply all_in_trans; [by apply Hres|done].
  - destruct (requested (ao_mutationRoots o)) as [l|]; simpl; [|done].
    specialize (Hroot l eq_refl). rewrite !forallb_forall in Hroot |- *.
    intros p Hp. eapply path_allowed_trans; [exact Hpaths|auto].
Qed.
End Containment.

Lemma merge_valid base req l :
  normalizeCapabilityLimits base req = Ok l → l = merge_limits base req ∧
  (∀ k, 0 ≤ limit_of l k ≤ MAX_SAFE_INTEGER)%Z.
Proof.
  unfold normalizeCapabilityLimits. destruct (forallb _ limit_keys) eqn:Hv; [|done].
  intros [= <-]. split; [done|]. intros k. rewrite forallb_forall in Hv.
  eapply bool_decide_eq_true, (Hv k). destruct k; simpl; tauto.
Qed.

Lemma narrow_limits parent req child :
  narrowCapabilityLimits parent req = Ok child →
  ∀ k, (0 ≤ limit_of child k ≤ limit_of parent k)%Z.
Proof.
  unfold narrowCapabilityLimits. intros (l & [_ Hl]%merge_valid & Hc)%bind_Ok k.
  destruct (existsb _ limit_keys) eqn:He; [done|]. injection Hc as <-.
  specialize (Hl k). split; [lia|].
  apply not_true_iff_false in He. rewrite existsb_In in He.
  destruct (decide (limit_of parent k < limit_of l k)%Z); [|lia].
  exfalso. apply He. exists k. split; [|by apply bool_decide_eq_true].
  apply list_elem_of_In. destruct k; simpl; tauto.
Qed.

Lemma within_limits child parent o :
  (∀ k, (limit_of child k ≤ limit_of parent k)%Z) →
  limit_violation child o = None → limit_violation parent o = None.
Proof.
  intros Hle. unfold limit_violation. intros Hv.
  repeat match type of Hv with (if ?b then _ else _) = None =>
      let Hb := fresh "Hb" in destruct b eqn:Hb; [discriminate|] end.
  assert (∀ (b1 b2 : bool) {A} (x y : A), (b2 = true → b1 = true) → b1 = false →
    (if b2 then x else y) = y) as Hif.
  { intros [] [] A x y Himp Hb'; [done|done| |done]. by specialize (Himp eq_refl). }
  rewrite (Hif _ _ _ _ _ _ Hb).
  2:{ rewrite !existsb_In. intros (k & Hk & Hreq). exists k. split; [done|].
      destruct (_ ≫= _); [|done]. apply bool_decide_eq_true in Hreq. apply bool_decide_eq_true.
      specialize (Hle k). lia. }
  rewrite (Hif _ _ _ _ _ _ Hb0).
  2:{ destruct (ao_currentConcurrentOps o); [|done]. rewrite !bool_decide_eq_true.
      specialize (Hle concurrentOps). simpl in Hle. lia. }
  refine (Hif _ _ _ _ _ _ Hb1). rewrite !andb_true_iff. intros [Ho Hp]. split; [done|].
  destruct (ao_currentProcesses o); [|done]. apply bool_decide_eq_true in Hp.
  apply bool_decide_eq_true. specialize (Hle processes). simpl in Hle. lia.
Qed.

(** ** What a request may ask *)

(** The request stays within [scope] and [limits]. *)
Record in_scope `{FileSystem} (scope : CapabilityScope) (limits : CapabilityLimits)
    (o : CheckCapabilityAdmissionOptions) : Prop := mkInScope {
  in_opcode : ∀ op, ao_opcode o = Some op → op ∈ cs_opcodes scope;
  in_workspace : ∀ w, ao_workspace o = Some w → cs_workspaces scope ≠ [] → w ∈ cs_workspaces scope;
  in_secrets : ∀ l x, ao_secretRefs o = Some l → x ∈ l → x ∈ cs_secrets scope;
  in_limits : ∀ l k r, ao_requestedLimits o = Some l → partial_limit_of l k = Some r →
    (r ≤ limit_of limits k)%Z;
  in_concurrency : ∀ n, ao_currentConcurrentOps o = Some n → (n < cl_concurrentOps limits)%Z;
  in_processes : ∀ n, ao_opcode o = Some "proc.spawn" → ao_currentProcesses o = Some n →
    (n < cl_processes limits)%Z;
  in_resources : ∀ l r, ao_requiredResources o = Some l → r ∈ l → r ∈ cs_exclusive scope;
  in_roots : ∀ l r, ao_mutationRoots o = Some l → r ∈ l →
    ∃ p, p ∈ cs_paths scope ∧ isPathContained p (normalizePathPattern r) = true;
}.

Lemma limit_violation_None limits o :
  limit_violation limits o = None ↔
  (∀ l k r, ao_requestedLimits o = Some l → partial_limit_of l k = Some r →
    (r ≤ limit_of limits k)%Z) ∧
  (∀ n, ao_currentConcurrentOps o = Some n → (n < cl_concurrentOps limits)%Z) ∧
  (∀ n, ao_opcode o = Some "proc.spawn" → ao_currentProcesses o = Some n →
    (n < cl_processes limits)%Z).
Proof.
  assert (∀ (b : bool) (x : ViolationReason) y, (if b then Some x else y) = None ↔ b = false ∧ y = None)
    as Hif by (intros [] x y; naive_solver).
  unfold limit_violation. rewrite !Hif -!not_true_iff_false existsb_In andb_true_iff bool_decide_eq_true.
  split.
  - intros (Hlim & Hconc & Hproc & _). split_and!.
    + intros l k r Hl Hk. apply Z.nlt_ge. intros Hlt. apply Hlim. exists k.
      split; [apply list_elem_of_In; destruct k; simpl; tauto|].
      rewrite Hl /= Hk. by apply bool_decide_eq_true.
    + intros n Hn. rewrite Hn bool_decide_eq_true in Hconc. lia.
    + intros n Ho Hn. rewrite Hn bool_decide_eq_true in Hproc. apply Z.nle_gt. tauto.
  - intros (Hlim & Hconc & Hproc). split_and!; [| | |done].
    + intros (k & _ & Hk). destruct (ao_requestedLimits o) as [l|]; [|done]. simpl in Hk.
      destruct (partial_limit_of l k) as [r|] eqn:Hr; [|done]. apply bool_decide_eq_true in Hk.
      specialize (Hlim l k r eq_refl Hr). lia.
    + destruct (ao_currentConcurrentOps o) as [n|]; [|done]. rewrite bool_decide_eq_true.
      specialize (Hconc n eq_refl). lia.
    + intros [Ho Hn]. destruct (ao_currentProcesses o) as [n|]; [|done].
      apply bool_decide_eq_true in Hn. specialize (Hproc n Ho eq_refl). lia.
Qed.

Lemma requested_forall (P : string → Prop) o :
  (∀ l, requested o = Some l → ∀ x, x ∈ l → P x) ↔ (∀ l x, o = Some l → x ∈ l → P x).
Proof.
  destruct o as [[|y l]|]; simpl; split.
  - intros _ l x [= <-] Hx. by apply not_elem_of_nil in Hx.
  - by intros _ l.
  - intros Hl l' x [= <-] Hx. by apply (Hl _ eq_refl).
  - intros Hl l' [= <-] x Hx. by apply (Hl _ x eq_refl).
  - by intros _ l x.
  - by intros _ l.
Qed.

Lemma in_scope_tests `{FileSystem} scope limits o :
  in_scope scope limits o ↔
  scope_violation scope o = None ∧ limit_violation limits o = None ∧ resource_violation scope o = None.
Proof.
  rewrite scope_violation_None limit_violation_None resource_violation_None.
  setoid_rewrite all_in_spec. rewrite requested_forall.
  assert ((∀ l, requested (ao_mutationRoots o) = Some l →
      forallb (path_allowed (cs_paths scope)) (map normalizePathPattern l) = true) ↔
    (∀ l r, ao_mutationRoots o = Some l → r ∈ l →
      ∃ p, p ∈ cs_paths scope ∧ isPathContained p (normalizePathPattern r) = true)) as ->.
  { rewrite -(requested_forall (λ r, ∃ p, p ∈ cs_paths scope ∧ isPathContained p (normalizePathPattern r) = true)).
    setoid_rewrite forallb_forall. setoid_rewrite in_map_iff. unfold path_allowed.
    setoid_rewrite existsb_In. setoid_rewrite <- list_elem_of_In. naive_solver. }
  split; [intros []; split_and!; eauto|intros ((?&?&?)&(?&?&?)&?&?); split; eauto].
Qed.

(** Attenuation never widens: whatever an attenuated capability permits, the
    capability it was attenuated from permits; and what the child is granted by
    default lies within the parent's scope. *)
Theorem attenuation_never_widens `{FileSystemLaws} parent narrower child plimits requested climits o :
  validateScopeNarrowing parent narrower = Ok child →
  narrowCapabilityLimits plimits requested = Ok climits →
  in_scope child climits o →
  let np := normalizeScope (scope_input parent) in
  in_scope np plimits o ∧
  ∀ cap, all_in (ar_effectiveResources (admission_result cap child o)) (cs_exclusive np) = true ∧
    forallb (path_allowed (cs_paths np))
      (ar_effectiveMutationRoots (admission_result cap child o)) = true.
Proof.
  intros Hv%narrowing_within Hl (Hs & Hlim & Hr)%in_scope_tests np.
  destruct (within_violations _ _ _ Hv Hs Hr) as [Hs' Hr']. split.
  - apply in_scope_tests. split_and!; [done| |done].
    eapply within_limits; [|done]. intros k. by apply (narrow_limits _ _ _ Hl k).
  - intros cap. by apply within_result.
Qed.

(** ** The chain of parents *)

(** Not revoked, of the current epoch, not expired. *)
Record live (now epoch : Z) (c : Capability) : Prop := mkLive {
  live_kept : cap_revokedAt c = None;
  live_epoch : cap_epoch c = epoch;
  live_unexpired : ∀ t, getTime (cap_expiresAt c) = Some t → (now < t)%Z;
}.
Lemma date_le_false d t : date_le d t = false ↔ ∀ ms, getTime d = Some ms → (t < ms)%Z.
Proof.
  unfold date_le. destruct (getTime d) as [ms|]; [|naive_solver].
  rewrite bool_decide_eq_false. split; [intros ? ? [= <-]; lia|intros Hd; specialize (Hd ms eq_refl); lia].
Qed.
Lemma link_violation_None now epoch c : link_violation now epoch c = None ↔ live now epoch c.
Proof.
  unfold link_violation. split.
  - destruct (cap_revokedAt c) eqn:Hr; [done|]. cbn [is_undef negb]. case_bool_decide; [|done].
    destruct (date_le _ now) eqn:Hd; [done|]. intros _. split; [done..|]. by apply date_le_false.
  - intros [-> Hepoch Hexp%date_le_false]. by rewrite Hexp bool_decide_true.
Qed.
Lemma self_violation_None now o cap :
  self_violation now o cap = None ↔
  cap_domainId cap = ao_domainId o ∧ live now (ao_currentEpoch o) cap ∧
  (∀ pv, ao_policyVersion o = Some pv → cap_policyVersion cap = pv).
Proof.
  rewrite -link_violation_None. unfold self_violation, link_violation.
  repeat case_bool_decide; destruct (date_le _ now), (cap_revokedAt cap), (ao_policyVersion o);
    simpl; try case_bool_decide; naive_solver.
Qed.

(** Following [parentId] from a capability, every link exists and is live. *)
Inductive chain_valid (now epoch : Z) (d : Db) : option string → Prop :=
| chain_end p : or_undef p = None → chain_valid now epoch d p
| chain_link p id c :
    or_undef p = Some id → read_capability id d = Some c → live now epoch c →
    chain_valid now epoch d (cap_parentId c) → chain_valid now epoch d p.

(** [id] is an ancestor reached from the parent field [p]. *)
Inductive ancestor (d : Db) : option string → string → Prop :=
| anc_here p id : or_undef p = Some id → ancestor d p id
| anc_up p id c a :
    or_undef p = Some id → read_capability id d = Some c → ancestor d (cap_parentId c) a →
    ancestor d p a.

Lemma ancestor_violation_sound fuel now epoch d p :
  ancestor_violation fuel now epoch d p = Some None → chain_valid now epoch d p.
Proof.
  revert p. induction fuel as [|fuel IH]; intros p; simpl; [done|].
  destruct (or_undef p) as [id|] eqn:Hp; [|by intros; constructor].
  destruct (read_capability id d) as [c|] eqn:Hc; [|done].
  destruct (link_violation now epoch c) eqn:Hl; [done|].
  apply link_violation_None in Hl. intros Hrec. eapply chain_link; eauto.
Qed.

Lemma chain_valid_ancestor now epoch d p a :
  chain_valid now epoch d p → ancestor d p a →
  ∃ c, read_capability a d = Some c ∧ live now epoch c.
Proof.
  intros Hv Ha. induction Ha as [p id Hp|p id c a Hp Hc _ IH]; inversion Hv; subst; try congruence.
  - match goal with H : live _ _ ?c |- _ => exists c end. split; [congruence|done].
  - apply IH. congruence.
Qed.

(** Capabilities are issued before they are attenuated: the parent a row names
    is an earlier row. *)
Definition chain_ordered (d : Db) : Prop :=
  ∀ l1 c l2 pid, db_capabilities d = l1 ++ c :: l2 → or_undef (cap_parentId c) = Some pid →
    ∃ c', c' ∈ l1 ∧ cap_id c' = pid.

Lemma find_first {A} (q : A → bool) l x :
  List.find q l = Some x → ∃ l1 l2, l = l1 ++ x :: l2 ∧ q x = true ∧ ∀ y, y ∈ l1 → q y = false.
Proof.
  induction l as [|z l IH]; simpl; [done|]. destruct (q z) eqn:Hz.
  - intros [= ->]. exists [], l. split_and!; [done..|]. intros y Hy. by apply not_elem_of_nil in Hy.
  - intros (l1 & l2 & -> & Hx & Hl1)%IH. exists (z :: l1), l2. split_and!; [done..|].
    intros y [->|Hy]%elem_of_cons; auto.
Qed.
Lemma find_In_Some {A} (q : A → bool) l x : x ∈ l → q x = true → ∃ y, List.find q l = Some y.
Proof.
  intros Hx Hq. destruct (List.find q l) as [y|] eqn:Hf; [by eexists|].
  rewrite list_elem_of_In in Hx. by rewrite (find_none _ _ Hf x Hx) in Hq.
Qed.
Lemma or_undef_idem o : or_undef (or_undef o) = or_undef o.
Proof. destruct o as [s|]; simpl; [|done]. by destruct (truthy_str s) eqn:Hs; simpl; rewrite ?Hs. Qed.

(** With as much fuel as there are rows above the link, the walk ends. *)
Lemma ancestor_walk_ends now epoch d :
  chain_ordered d → ∀ n fuel p,
  n < fuel →
  (∀ id, or_undef p = Some id → ∃ l1 l2, db_capabilities d = l1 ++ l2 ∧ length l1 ≤ n ∧
    ∃ c, c ∈ l1 ∧ cap_id c = id) →
  ∃ r, ancestor_violation fuel now epoch d p = Some r.
Proof.
  intros Hord. induction n as [n IH] using lt_wf_ind. intros fuel p Hfuel Hp.
  destruct fuel as [|fuel]; [lia|]. simpl.
  destruct (or_undef p) as [id|] eqn:Hid; [|by eexists].
  destruct (Hp id eq_refl) as (l1 & l2 & Hdb & Hlen & c0 & Hc0 & Hid0). unfold read_capability.
  destruct (find_capability id d) as [c|] eqn:Hc; simpl; [|by eexists].
  destruct (link_violation _ _ _); [by eexists|].
  unfold find_capability in Hc. pose proof Hc as Hc'.
  apply find_first in Hc' as (k1 & k2 & Hk & _ & Hfirst).
  assert (length k1 < length l1) as Hlt.
  { destruct (decide (length k1 < length l1)); [done|]. exfalso.
    assert (c0 ∈ k1) as Hin.
    { rewrite Hk in Hdb. apply list_elem_of_lookup_1 in Hc0 as [i Hi].
      pose proof (lookup_lt_Some _ _ _ Hi). apply list_elem_of_lookup_2 with i.
      assert ((k1 ++ c :: k2) !! i = Some c0) as Heq by by rewrite Hdb lookup_app_l.
      rewrite lookup_app_l in Heq; [done|lia]. }
    apply Hfirst in Hin. by apply bool_decide_eq_false in Hin. }
  destruct n as [|n]; [lia|].
  apply (IH (length k1)); [lia..|]. simpl. rewrite or_undef_idem. intros pid Hpid.
  destruct (Hord _ _ _ _ Hk Hpid) as (c' & Hc'1 & Hc'2).
  exists k1, (c :: k2). split_and!; [done|done|by exists c'].
Qed.

Lemma parent_walk_ends fuel now epoch d id cap :
  chain_ordered d → length (db_capabilities d) < fuel → read_capability id d = Some cap →
  ∃ r, ancestor_violation fuel now epoch d (cap_parentId cap) = Some r.
Proof.
  intros Hord Hfuel (c & Hc & ->)%fmap_Some.
  apply (ancestor_walk_ends now epoch d Hord (length (db_capabilities d))); [done|].
  simpl. rewrite or_undef_idem. intros pid Hpid. apply find_first in Hc as (l1 & l2 & Hl & _).
  destruct (Hord _ _ _ _ Hl Hpid) as (c' & Hc' & Hid).
  exists l1, (c :: l2). split_and!; [done| |by exists c'].
  rewrite Hl length_app. lia.
Qed.
Lemma admission_decides `{FileSystem} fuel now o s :
  chain_ordered (db s) → length (db_capabilities (db s)) < fuel →
  (checkCapabilityAdmission fuel now o s).1 ≠ Ok None.
Proof.
  intros Hord Hfuel. unfold checkCapabilityAdmission, getCapability. autorewrite with xio_run.
  destruct (mapCapabilityRow <$> find_capability _ _) as [cap|] eqn:Hcap; [|done].
  destruct (self_violation now o cap); [done|]. autorewrite with xio_run.
  destruct (parent_walk_ends fuel now (ao_currentEpoch o) (db s) _ cap Hord Hfuel Hcap) as [r ->].
  destruct r as [v|]; [done|]. by destruct (first_violation _).
Qed.

(** ** Admission *)

Lemma chain_valid_answer fuel now epoch d p :
  chain_valid now epoch d p →
  ancestor_violation fuel now epoch d p = None ∨ ancestor_violation fuel now epoch d p = Some None.
Proof.
  intros Hv. revert fuel. induction Hv as [p Hp|p id c Hp Hc Hl _ IH]; intros [|fuel]; simpl; auto.
  - rewrite Hp. by right.
  - apply link_violation_None in Hl. rewrite Hp Hc Hl. apply IH.
Qed.

(** A refusal throws the violation; at most its record was appended. *)
Definition refused {A} (s : SqliteStore) (v : ViolationReason) (out : outcome error A * SqliteStore) : Prop :=
  out.1 = Throw (CapabilityViolationError v) ∧
  (out.2 = s ∨ ∃ row, je_type row = "CAPABILITY_REJECTED" ∧
    out.2 = mkStore (with_journal row (db s)) (currentEpoch s) (inTransaction s)).

Lemma reject_refused {A} now o v msg s : refused s v (reject (A:=A) now o v msg s).
Proof.
  unfold reject, recordJournalEvent. split; [done|].
  unfold mbind, ST_bind, try_ignore. simpl.
  match goal with |- context [recordEventAndTransitionState now ?ev s] =>
    destruct (recordEvent_cases now ev s) as [[e ->]|(row & -> & _ & Hty & _)] end; simpl.
  - by left.
  - right. exists row. by split.
Qed.

(** Everything admission asks of a request, on the tables it reads. *)
Record admissible `{FileSystem} (now : Z) (o : CheckCapabilityAdmissionOptions) (d : Db)
    (cap : Capability) : Prop := {
  adm_found : read_capability (ao_capabilityId o) d = Some cap;
  adm_domain : cap_domainId cap = ao_domainId o;
  adm_live : live now (ao_currentEpoch o) cap;
  adm_policy : ∀ pv, ao_policyVersion o = Some pv → cap_policyVersion cap = pv;
  adm_chain : chain_valid now (ao_currentEpoch o) d (cap_parentId cap);
  adm_scope : in_scope (normalizeScope (scope_input (cap_scope cap))) (cap_limits cap) o;
}.
Lemma admissible_tests `{FileSystem} now o d cap :
  admissible now o d cap ↔
  read_capability (ao_capabilityId o) d = Some cap ∧ self_violation now o cap = None ∧
  chain_valid now (ao_currentEpoch o) d (cap_parentId cap) ∧
  let scope := normalizeScope (scope_input (cap_scope cap)) in
  scope_violation scope o = None ∧ limit_violation (cap_limits cap) o = None ∧
  resource_violation scope o = None.
Proof.
  cbv zeta. rewrite self_violation_None -in_scope_tests.
  split; [by intros []|]. intros (?&(?&?&?)&?&?). by split.
Qed.

Lemma admission_exact `{FileSystem} fuel now o s :
  chain_ordered (db s) → length (db_capabilities (db s)) < fuel →
  (∃ cap, admissible now o (db s) cap ∧
    checkCapabilityAdmission fuel now o s
    = (Ok (Some (admission_result cap (normalizeScope (scope_input (cap_scope cap))) o)), s)) ∨
  ((¬ ∃ cap, admissible now o (db s) cap) ∧
    ∃ v, refused s v (checkCapabilityAdmission fuel now o s)).
Proof.
  intros Hord Hfuel.
  pose proof (admission_decides fuel now o s Hord Hfuel) as Hend. revert Hend. unfold checkCapabilityAdmission, getCapability. autorewrite with xio_run.
  fold (read_capability (ao_capabilityId o) (db s)).
  destruct (read_capability (ao_capabilityId o) (db s)) as [cap|] eqn:Hcap.
  2:{ intros _. right. split; [intros [cap []]; congruence|]. eexists. apply reject_refused. }
  assert (∀ c, admissible now o (db s) c → c = cap) as Huniq.
  { intros c []. congruence. }
  destruct (self_violation now o cap) as [v|] eqn:Hself.
  { intros _. right. split; [|eexists; apply reject_refused].
    intros [c Hc]. pose proof (Huniq c Hc) as ->. apply admissible_tests in Hc as (?&?&_). congruence. }
  autorewrite with xio_run.
  destruct (ancestor_violation _ _ _ _ _) as [[v|]|] eqn:Hchain; [..|by intros []].
  { intros _. right. split; [|eexists; apply reject_refused].
    intros [c Hc]. pose proof (Huniq c Hc) as ->. destruct Hc as [_ _ _ _ Hv _].
    destruct (chain_valid_answer fuel _ _ _ _ Hv); congruence. }
  apply ancestor_violation_sound in Hchain. simpl.
  destruct (scope_violation _ o) as [v|] eqn:Hs;
    [|destruct (limit_violation _ o) as [v|] eqn:Hl;
      [|destruct (resource_violation _ o) as [v|] eqn:Hr]].
  4:{ intros _. left. exists cap. split; [by apply admissible_tests|done]. }
  all: intros _; right; split; [|eexists; apply reject_refused];
    intros [c Hc]; pose proof (Huniq c Hc) as ->; apply admissible_tests in Hc as (?&?&?&?&?&?); congruence.
Qed.

(** C16. Admission is exact: with enough fuel, and each capability listed after its
    parent, it grants a request if and only if the capability exists, is live and of
    this domain, epoch and policy version (where they are asked for), every ancestor
    is live, and the request is within scope and limits; a grant changes
    nothing, a refusal throws and leaves at most its own record in the journal. *)
Theorem checkCapabilityAdmission_exact `{FileSystem} fuel now o s :
  chain_ordered (db s) → length (db_capabilities (db s)) < fuel →
  (∃ cap, admissible now o (db s) cap ∧
    checkCapabilityAdmission fuel now o s
    = (Ok (Some (admission_result cap (normalizeScope (scope_input (cap_scope cap))) o)), s)) ∨
  ((¬ ∃ cap, admissible now o (db s) cap) ∧
    ∃ v, refused s v (checkCapabilityAdmission fuel now o s)).
Proof. intros; apply admission_exact; assumption. Qed.

(** *** Revocation *)

Lemma find_capability_revoked id a dom t d :
  find_capability id (with_capabilities (update_where
    (λ c, bool_decide (cap_id c = a) && bool_decide (cap_domainId c = dom)) (set_cap_revokedAt t)) d)
  = (λ c, if bool_decide (cap_id c = a) && bool_decide (cap_domainId c = dom)
          then set_cap_revokedAt t c else c) <$> find_capability id d.
Proof. unfold find_capability. simpl. by rewrite find_update_where. Qed.

Lemma ancestor_revoked a dom t d p id :
  ancestor d p id →
  ancestor (with_capabilities (update_where
    (λ c, bool_decide (cap_id c = a) && bool_decide (cap_domainId c = dom)) (set_cap_revokedAt t)) d) p id.
Proof.
  induction 1 as [p id Hp|p id c x Hp Hc _ IH]; [by constructor|].
  unfold read_capability in Hc. apply fmap_Some in Hc as (c0 & Hc0 & ->).
  eapply anc_up; [exact Hp| |].
  - unfold read_capability. rewrite find_capability_revoked Hc0. reflexivity.
  - simpl in *. by case_match.
Qed.

Lemma chain_ordered_update p f d :
  (∀ c, cap_id (f c) = cap_id c ∧ cap_parentId (f c) = cap_parentId c) →
  chain_ordered d → chain_ordered (with_capabilities (update_where p f) d).
Proof.
  intros Hf Hord l1 c l2 pid. simpl. unfold update_where. intros Heq Hpid.
  apply map_eq_app in Heq as (k1 & k2 & Hdb & <- & Hk2).
  destruct k2 as [|c0 k2]; [done|]. injection Hk2 as Hc _.
  assert (cap_parentId c = cap_parentId c0) as Hpar by (subst c; case_match; [apply Hf|done]).
  rewrite Hpar in Hpid. destruct (Hord _ _ _ _ Hdb Hpid) as (c' & Hc' & Hid).
  exists (if p c' then f c' else c'). split.
  { apply list_elem_of_In, in_map_iff. exists c'. split; [done|by apply list_elem_of_In]. }
  destruct (p c'); [rewrite -Hid; apply Hf|exact Hid].
Qed.

(** Revocation cascades: once a capability is revoked, admission refuses it
    and every capability attenuated from it, however deep. *)
Theorem revocation_cascades `{FileSystem} a dom t s s1 ca cap fuel now o :
  revokeCapability a dom (Iso t) s = (Ok tt, s1) →
  find_capability a (db s) = Some ca → cap_domainId ca = dom →
  read_capability (ao_capabilityId o) (db s) = Some cap →
  a = ao_capabilityId o ∨ ancestor (db s) (cap_parentId cap) a →
  chain_ordered (db s) → length (db_capabilities (db s)) < fuel →
  ∃ v, refused s1 v (checkCapabilityAdmission fuel now o s1).
Proof.
  unfold revokeCapability. rewrite run_verify. destruct (fencing_error dom s); [done|].
  unfold exec, modify. intros [= <-] Hca Hdom Hcap Hanc Hord Hfuel.
  set (s1 := mkStore _ _ _).
  assert (∀ c, read_capability a (db s1) = Some c → cap_revokedAt c ≠ None) as Hrev.
  { intros c. unfold read_capability, s1. cbn [db]. rewrite find_capability_revoked Hca. simpl.
    unfold find_capability in Hca. apply find_some in Hca as [_ Hid].
    rewrite Hid Hdom bool_decide_true //=. by intros [= <-]. }
  destruct (admission_exact fuel now o s1) as [(c & [Hf _ Hself _ Hch _] & _)|[_ ?]];
    [by apply chain_ordered_update|by unfold s1; simpl; rewrite length_map| |done].
  exfalso. destruct Hanc as [->|Hanc].
  - apply (Hrev c Hf), Hself.
  - assert (cap_parentId c = cap_parentId cap) as Hpar.
    { unfold read_capability, s1 in Hf. cbn [db] in Hf. rewrite find_capability_revoked in Hf.
      unfold read_capability in Hcap. destruct (find_capability (ao_capabilityId o) (db s)) as [c0|]; [|done].
      cbn -[set_cap_revokedAt] in Hf, Hcap. injection Hf as <-. injection Hcap as <-.
      by destruct (bool_decide (cap_id c0 = a) && _). }
    apply (ancestor_revoked a dom (Iso t)) in Hanc. rewrite -Hpar in Hanc.
    destruct (chain_valid_ancestor _ _ _ _ _ Hch Hanc) as (c' & Hc' & Hl).
    apply (Hrev c' Hc'), Hl.
Qed.

(** ** Witnesses *)

Definition sample_scope : CapabilityScope :=
  mkCapabilityScope ["/w"] ["r1"; "r2"] ["fs.read"; "proc.spawn"] [] ["/w"] [].
Definition sample_narrower : CapabilityScopeInput :=
  mkCapabilityScopeInput None (Some ["r1"]) (Some ["proc.spawn"]) None (Some ["/l/src"]) None.
Definition sample_limits : CapabilityLimits := mkCapabilityLimits 1000 1000 1000 4 4.
Definition sample_partial : PartialLimits := mkPartialLimits (Some 10%Z) None None None None.
Definition sample_cap (id : string) (scope : CapabilityScope) (parent : option string) : Capability :=
  mkCapability id "dom" scope "alice" "p/1" "build" sample_limits (Iso 1000) parent 1 (Iso 5) None.
Definition child_scope : CapabilityScope :=
  mkCapabilityScope ["/w/src"] ["r1"] ["proc.spawn"] [] ["/w/src"] [].
Definition sample_request : CheckCapabilityAdmissionOptions :=
  mkAdmissionOptions "dom" 1 "cap-2" (Some ["r1"]) (Some ["/w/src/a"]) (Some "proc.spawn") None None
    None (Some 0%Z) (Some 0%Z) None (Some "run-1") (Some "op-9").
Definition caps_store : SqliteStore :=
  mkStore (with_capabilities (λ _, [sample_cap "cap-1" sample_scope None;
    sample_cap "cap-2" child_scope (Some "cap-1")]) empty_db) None false.

Lemma caps_ordered : chain_ordered (db caps_store).
Proof.
  intros l1 c l2 pid. simpl. intros Heq Hpid. destruct l1 as [|c1 [|c2 l1]]; simplify_eq/=.
  - eexists. split; [by left|done].
  - by destruct l1.
Qed.

Lemma attenuation_never_widens_witness :
  in_scope (normalizeScope (scope_input sample_scope)) sample_limits sample_request.
Proof.
  eapply (attenuation_never_widens sample_scope sample_narrower child_scope sample_limits
    (Some sample_partial) (mkCapabilityLimits 10 1000 1000 4 4) sample_request);
    [vm_compute; reflexivity..|].
  apply in_scope_tests. by vm_compute.
Defined.
Lemma checkCapabilityAdmission_exact_witness :
  (∃ cap, admissible 100 sample_request (db caps_store) cap ∧
    checkCapabilityAdmission 3 100 sample_request caps_store
    = (Ok (Some (admission_result cap (normalizeScope (scope_input (cap_scope cap))) sample_request)),
       caps_store)) ∨
  ((¬ ∃ cap, admissible 100 sample_request (db caps_store) cap) ∧
    ∃ v, refused caps_store v (checkCapabilityAdmission 3 100 sample_request caps_store)).
Proof.
  apply checkCapabilityAdmission_exact; [exact caps_ordered|]. vm_compute. repeat constructor.
Defined.
(** The request is granted, and refused once the parent is revoked. *)
Example sample_granted : is_ok (checkCapabilityAdmission 3 100 sample_request caps_store).1 = true.
Proof. vm_compute. reflexivity. Qed.
Definition caps_revoked : SqliteStore := (revokeCapability "cap-1" "dom" (Iso 90) caps_store).2.
Lemma revocation_cascades_witness :
  ∃ v, refused caps_revoked v (checkCapabilityAdmission 3 100 sample_request caps_revoked).
Proof.
  apply (revocation_cascades "cap-1" "dom" 90 caps_store caps_revoked
    (sample_cap "cap-1" sample_scope None) (sample_cap "cap-2" child_scope (Some "cap-1"))).
  - reflexivity.
  - reflexivity.
  - reflexivity.
  - reflexivity.
  - right. by apply anc_here.
  - exact caps_ordered.
  - vm_compute. repeat constructor.
Defined.
