(* ===== verification/ConfigSpec.v ===== *)
(** * ConfigSpec: the binding is valid, free of credentials and tamper-evident *)

From stdpp Require Import sorting.
From S2P Require Import Prelude Types Events Encode Config Store StoreCalls Samples.

(** No object inside [v], at any depth, has a property named like a credential. *)
Inductive credential_free : jsval → Prop :=
| cf_null : credential_free JNull
| cf_bool b : credential_free (JBool b)
| cf_num z : credential_free (JNum (NumFin z))
| cf_str s : credential_free (JStr s)
| cf_date d : credential_free (JDate d)
| cf_arr l : Forall credential_free l → credential_free (JArr l)
| cf_obj fs : Forall (λ kv, scrubbed_key kv.1 = false ∧ credential_free kv.2) fs →
    credential_free (JObj fs).

Lemma credential_free_json v : credential_free v → isJsonValue v = true.
Proof.
  induction v as [| | | | | |l IH|fs IH|] using jsval_nested_ind; intros Hv;
    inversion Hv as [| | | | |l' Hl|fs' Hfs]; subst; simpl; try done.
  - apply forallb_forall. intros x Hx%list_elem_of_In. rewrite !Forall_forall in IH, Hl. auto.
  - apply forallb_forall. intros x Hx%list_elem_of_In. rewrite !Forall_forall in IH, Hfs.
    apply IH; [done|]. by apply Hfs.
Qed.

Lemma sort_fields_Forall (P : string * jsval → Prop) fs : Forall P fs → Forall P (sort_fields fs).
Proof. intros HP. unfold sort_fields. by rewrite merge_sort_Permutation. Qed.

Lemma scrub_fields_Forall (P : jsval → Prop) f fs :
  Forall (λ kv, ∀ w, f kv.2 = Some w → P w) fs →
  Forall (λ kv, scrubbed_key kv.1 = false ∧ P kv.2) (scrub_fields f fs).
Proof.
  induction 1 as [|[k v] fs Hv _ IH]; simpl; [constructor|].
  destruct (scrubbed_key k) eqn:Hk; [done|]. simpl in Hv.
  destruct (f v) as [w|]; [|done]. constructor; [|done]. split; [done|by apply Hv].
Qed.

Lemma scrub_credential_free v : ∀ w, scrub v = Some w → credential_free w.
Proof.
  induction v as [| |b|n|s|d|l IH|fs IH|] using jsval_nested_ind; intros w Hw;
    simpl in Hw; simplify_eq; try by constructor.
  - destruct n; simplify_eq. constructor.
  - constructor. induction IH as [|x l Hx _ IHl]; simpl; [constructor|].
    destruct (scrub x) as [y|]; [constructor; auto|done].
  - constructor. apply sort_fields_Forall, scrub_fields_Forall. exact IH.
Qed.

Lemma scrubbed_config_credential_free fs :
  credential_free (JObj (sort_fields (scrub_fields scrub fs))).
Proof.
  constructor. apply sort_fields_Forall, scrub_fields_Forall, Forall_forall.
  intros kv _ w. apply scrub_credential_free.
Qed.

(** A driver reports its capabilities as flags, strings and lists of strings. *)
Lemma driverFacts_ok caps :
  Forall (λ kv, match kv.2 with JArr l => forallb is_string l = true | _ => True end) caps →
  forallb (λ kv, capability_fact_ok kv.2) (driverFacts caps) = true.
Proof.
  intros Hcaps. unfold driverFacts.
  apply sort_fields_Forall in Hcaps. revert Hcaps. generalize (sort_fields caps). clear caps.
  induction 1 as [|[k v] caps Hv _ IH]; simpl; [done|].
  destruct v; simpl; try done. rewrite IH andb_true_r.
  apply forallb_forall. intros x Hx%list_elem_of_In.
  rewrite merge_sort_Permutation in Hx. simpl in Hv.
  rewrite forallb_forall in Hv. by apply Hv, list_elem_of_In.
Qed.

Section ConfigTheorems.
Context `{Crypto}.

Lemma create_digest now input :
  cfg_digest (createRequestConfigSnapshot now input)
  = sha256_json (without_digest (createRequestConfigSnapshot now input)).
Proof. done. Qed.

Lemma assert_digest s :
  assertRequestConfigSnapshot s = Ok tt → sha256_json (without_digest s) = cfg_digest s.
Proof.
  unfold assertRequestConfigSnapshot. repeat (case_match; try done).
  intros _. by repeat match goal with
    | H : negb _ = false |- _ => apply negb_false_iff in H
    | H : bool_decide _ = true |- _ => apply bool_decide_eq_true in H end.
Qed.
End ConfigTheorems.

(** What is bound is what passes: for a driver with a name, list-of-string
    facts and non-empty version overrides, the snapshot the kernel creates is
    accepted by the assertion every reader of a binding makes. *)
Theorem created_snapshot_is_valid `{Crypto} now input :
  (∀ v, digest_regex (sha256_json v) = true) →
  truthy_str (rci_driverName input) = true →
  Forall (λ kv, match kv.2 with JArr l => forallb is_string l = true | _ => True end)
    (rci_driverCapabilities input) →
  Forall (λ o, o ≠ Some "")
    [rci_driverVersion input; rci_retentionVersion input; rci_redactionVersion input] →
  assertRequestConfigSnapshot (createRequestConfigSnapshot now input) = Ok tt.
Proof.
  intros Hhex Hname Hcaps Hver. rewrite !Forall_cons in Hver. destruct Hver as (Hd & Hret & Hred & _).
  unfold assertRequestConfigSnapshot. rewrite bool_decide_true //.
  rewrite -create_digest (bool_decide_true (cfg_digest _ = _)) // create_digest Hhex.
  assert (∀ o def, o ≠ Some "" → truthy_str def = true → truthy_str (nullish o def) = true) as Hnull.
  { intros [[|]|] def ??; done. }
  unfold createRequestConfigSnapshot. cbn -[isJsonValue sort_fields scrub_fields driverFacts].
  rewrite Hname !Hnull //; [|by destruct (rci_driverName input)].
  rewrite driverFacts_ok // credential_free_json //. apply scrubbed_config_credential_free.
Qed.

(** A binding never holds a credential: no property of the bound
    configuration, at any depth, is named like a token, key, secret or password
    (names ending in "keys" excepted, as in the source). *)
Theorem bound_config_is_credential_free `{Crypto} now input :
  credential_free (JObj (cfg_config (createRequestConfigSnapshot now input))).
Proof. apply scrubbed_config_credential_free. Qed.

(** A binding is tamper-evident: if a snapshot passes the assertion, a
    different snapshot carrying the same digest does not, unless the digest
    function collides on the two. *)
Theorem binding_is_tamper_evident `{Crypto} s1 s2 :
  (sha256_json (without_digest s1) = sha256_json (without_digest s2) →
   without_digest s1 = without_digest s2) →
  assertRequestConfigSnapshot s1 = Ok tt → cfg_digest s2 = cfg_digest s1 → s2 ≠ s1 →
  ∃ e, assertRequestConfigSnapshot s2 = Throw e.
Proof.
  intros Hinj H1 Hdig Hne.
  destruct (assertRequestConfigSnapshot s2) as [[]|e] eqn:H2; [|by eexists]. exfalso. apply Hne.
  apply assert_digest in H1, H2. rewrite H1 H2 Hdig in Hinj. specialize (Hinj eq_refl).
  destruct s1, s2. unfold without_digest in Hinj. simpl in *.
  injection Hinj as. subst.
  repeat match goal with o : option string |- _ => destruct o; simplify_eq/= end; done.
Qed.

(** ** Witnesses *)

Lemma created_snapshot_is_valid_witness :
  assertRequestConfigSnapshot (H:=sample_crypto)
    (createRequestConfigSnapshot (H:=sample_crypto) 5 sample_input) = Ok tt.
Proof.
  apply (created_snapshot_is_valid (H:=sample_crypto)).
  - intros v. vm_compute. reflexivity.
  - reflexivity.
  - repeat constructor.
  - repeat constructor; discriminate.
Defined.

(** A digest that tells drivers apart. *)
Definition driver_crypto : Crypto := λ v,
  match jfield v "driverName" with
  | Some (JStr "node") => sample_digest
  | _ => "ffffffffffffffffffffffffffffffffffffffffffffffffffffffffffffffff"
  end.
Definition honest_binding : RequestConfigSnapshot :=
  createRequestConfigSnapshot (H:=driver_crypto) 5 sample_input.
Definition forged_binding : RequestConfigSnapshot :=
  mkRequestConfigSnapshot (cfg_schemaVersion honest_binding) None None "unconfined"
    (cfg_driverVersion honest_binding) [] RETENTION_POLICY_VERSION REDACTION_POLICY_VERSION []
    (cfg_digest honest_binding) (Iso 5).
Lemma binding_is_tamper_evident_witness :
  ∃ e, assertRequestConfigSnapshot (H:=driver_crypto) forged_binding = Throw e.
Proof.
  apply (binding_is_tamper_evident (H:=driver_crypto) honest_binding forged_binding).
  - vm_compute. discriminate.
  - vm_compute. reflexivity.
  - reflexivity.
  - intros Heq. apply (f_equal cfg_driverName) in Heq. vm_compute in Heq. discriminate.
Defined.
