(* ===== verification/JournalInv.v ===== *)
(** * JournalInv: what the journal guarantees, whoever writes and in whatever order

    The invariants of the event journal over [db_reachable]: every database that
    the writing calls of any number of store handles can produce. *)

From S2P Require Import Prelude Types Events Encode Config Store StoreCalls Samples.

Definition same_journal (d d' : Db) : Prop :=
  db_journal_events d' = db_journal_events d ∧ db_journal_seq d' = db_journal_seq d.

(** ** Any relation that looks only at the journal *)

Section JournalRelation.
Context `{Crypto} (R : relation Db) `{!PreOrder R}.
Hypothesis R_same : ∀ d d', same_journal d d' → R d d'.
Hypothesis R_row : ∀ d row, row_admissible d row → R d (with_journal row d).

Lemma respects_exec_same f : (∀ d, same_journal d (f d)) → respects (on_db R) (exec f).
Proof using R_same. intros Hf. apply respects_exec. auto. Qed.

Lemma respects_event now ev : respects (on_db R) (recordEventAndTransitionState now ev).
Proof using Type*. by apply respects_recordEvent. Qed.

Ltac journal_tac :=
  repeat first
    [ progress (eauto 3 with xio typeclass_instances)
    | apply respects_event
    | apply respects_exec_same; intros ?; by split
    | apply respects_transaction; [typeclasses eauto|]
    | respects_step ].

Lemma respects_updateRunStatus now r s t e : respects (on_db R) (updateRunStatus now r s t e).
Proof using Type*. unfold updateRunStatus, getRun. journal_tac. Qed.

Lemma respects_insert_operation row : respects (on_db R) (insert_operation row).
Proof using Type*. unfold insert_operation, getOperation, getRun. journal_tac. Qed.

Lemma respects_run_call now c : respects (on_db R) (run_call now c).
Proof using Type*.
  pose proof respects_updateRunStatus. pose proof respects_insert_operation.
  destruct c; simpl; unfold_calls; journal_tac.
Qed.

Lemma journal_relation_step d d' : db_step d d' → R d d'.
Proof using Type*. intros [now epoch c <-]. apply (respects_run_call now c (mkStore d epoch false)). Qed.

Lemma journal_relation_steps d d' : db_steps d d' → R d d'.
Proof using Type*. apply db_steps_preorder; [done|]. apply journal_relation_step. Qed.
End JournalRelation.

(** ** Invariants of the journal *)

(** An invariant as a preorder on databases. *)
Definition preserves (I : Db → Prop) : relation Db := λ d d', I d → I d'.
#[export] Instance preserves_preorder I : PreOrder (preserves I).
Proof. split; unfold preserves; [intros d|intros d1 d2 d3]; auto. Qed.

Record journal_ok (d : Db) : Prop := {
  jok_sorted : StronglySorted Z.lt (je_seq <$> db_journal_events d);
  jok_bound : Forall (λ r, (je_seq r ≤ db_journal_seq d)%Z) (db_journal_events d);
  jok_redacted : Forall (λ r, redacted (je_payload r)) (db_journal_events d);
  jok_intent : ∀ l1 r l2 op, db_journal_events d = l1 ++ r :: l2 →
    je_operation_id r = Some op → requiresIntent (je_type r) = true →
    exempt_event (je_type r) = false → row_flagged r = false →
    ∃ r0, r0 ∈ l1 ∧ je_operation_id r0 = Some op ∧ je_type r0 = "OPERATION_INTENT_REGISTERED";
  jok_result : ∀ l1 r l2 op, db_journal_events d = l1 ++ r :: l2 →
    je_operation_id r = Some op → je_type r = "OPERATION_RESULT_RECORDED" →
    row_flagged r = false → ∀ r0, r0 ∈ l1 →
    ¬ (je_operation_id r0 = Some op ∧ je_type r0 = "OPERATION_RESULT_RECORDED");
}.

Lemma has_event_spec op type d :
  has_event op type d = true ↔
  ∃ r, r ∈ db_journal_events d ∧ je_operation_id r = Some op ∧ je_type r = type.
Proof.
  unfold has_event. rewrite existsb_In. f_equiv. intros r.
  rewrite andb_true_iff !bool_decide_eq_true. done.
Qed.

Lemma journal_ok_same d d' : same_journal d d' → journal_ok d → journal_ok d'.
Proof. intros [He Hs] [????]. constructor; rewrite ?He ?Hs //. Qed.

Lemma journal_ok_row d row : row_admissible d row → journal_ok d → journal_ok (with_journal row d).
Proof.
  intros [Hseq Hred Hint Hres] [Hsorted Hbound Hreds Hintent Hresult].
  constructor; simpl.
  - rewrite fmap_app /=. apply StronglySorted_snoc; [done|].
    apply Forall_fmap. eapply Forall_impl; [exact Hbound|]. simpl. lia.
  - apply Forall_app. split; [|repeat constructor; lia].
    eapply Forall_impl; [exact Hbound|]. simpl. lia.
  - apply Forall_app. by repeat constructor.
  - intros l1 r l2 op Heq Ho Hreq Hex Hfl.
    apply snoc_split in Heq as [(-> & -> & ->)|(l2' & -> & Heq)]; [|by eapply Hintent].
    apply has_event_spec. by apply Hint.
  - intros l1 r l2 op Heq Ho Hty Hfl r0 Hr0.
    apply snoc_split in Heq as [(-> & -> & ->)|(l2' & -> & Heq)]; [|by eapply Hresult].
    intros [Ho0 Hty0]. pose proof (Hres op Ho Hty Hfl) as Hno.
    apply not_true_iff_false in Hno. apply Hno, has_event_spec. eauto.
Qed.

Lemma journal_ok_reachable `{Crypto} d : db_reachable d → journal_ok d.
Proof.
  intros Hd. apply (journal_relation_steps (preserves journal_ok)) in Hd; [apply Hd|..].
  - constructor; simpl; repeat constructor; intros l1 ???; by destruct l1.
  - exact journal_ok_same.
  - exact journal_ok_row.
Qed.

(** ** The theorems *)

Definition journal_prefix : relation Db := λ d d',
  db_journal_events d `prefix_of` db_journal_events d'.
#[export] Instance journal_prefix_preorder : PreOrder journal_prefix.
Proof.
  split; unfold journal_prefix; [intros d; done|intros d1 d2 d3 H1 H2; by etransitivity].
Qed.

(** The journal is append-only: whatever calls are made between two states,
    the earlier journal is a prefix of the later one. *)
Theorem journal_append_only `{Crypto} d d' :
  db_steps d d' → db_journal_events d `prefix_of` db_journal_events d'.
Proof.
  apply (journal_relation_steps journal_prefix); unfold journal_prefix.
  - intros d1 d2 [-> _]. done.
  - intros d1 row _. simpl. by apply prefix_app_r.
Qed.

(** Sequence numbers are strictly increasing along the journal. *)
Theorem journal_seq_strictly_increasing `{Crypto} d :
  db_reachable d → StronglySorted Z.lt (je_seq <$> db_journal_events d).
Proof. intros Hd. by eapply jok_sorted, journal_ok_reachable. Qed.

(** Nothing named like a secret is ever durable in the journal. *)
Theorem journal_payloads_redacted `{Crypto} d r :
  db_reachable d → r ∈ db_journal_events d → redacted (je_payload r).
Proof.
  intros Hd%journal_ok_reachable Hr. pose proof (jok_redacted d Hd) as Hall.
  rewrite Forall_forall in Hall. by apply Hall.
Qed.

(** C3. Execution facts come after the durable intent of their operation. *)
Theorem intent_precedes_execution `{Crypto} d l1 r l2 op :
  db_reachable d → db_journal_events d = l1 ++ r :: l2 →
  je_operation_id r = Some op → requiresIntent (je_type r) = true →
  exempt_event (je_type r) = false → row_flagged r = false →
  ∃ r0, r0 ∈ l1 ∧ je_operation_id r0 = Some op ∧ je_type r0 = "OPERATION_INTENT_REGISTERED".
Proof. intros Hd. by eapply jok_intent, journal_ok_reachable. Qed.

(** An operation has at most one result event. *)
Theorem at_most_one_result `{Crypto} d i j r1 r2 op :
  db_reachable d → db_journal_events d !! i = Some r1 → db_journal_events d !! j = Some r2 →
  je_operation_id r1 = Some op → je_operation_id r2 = Some op →
  je_type r1 = "OPERATION_RESULT_RECORDED" → je_type r2 = "OPERATION_RESULT_RECORDED" →
  row_flagged r1 = false → row_flagged r2 = false → i = j.
Proof.
  intros Hd%journal_ok_reachable Hi Hj Ho1 Ho2 Ht1 Ht2 Hf1 Hf2.
  assert (∀ i j r1 r2, db_journal_events d !! i = Some r1 → db_journal_events d !! j = Some r2 →
    je_operation_id r1 = Some op → je_operation_id r2 = Some op →
    je_type r1 = "OPERATION_RESULT_RECORDED" → je_type r2 = "OPERATION_RESULT_RECORDED" →
    row_flagged r2 = false → ¬ (i < j)) as Hlt.
  { clear -Hd. intros i j r1 r2 Hi Hj ????? Hij.
    apply list_elem_of_split_length in Hj as (l1 & l2 & Heq & ->).
    eapply (jok_result _ Hd _ _ _ _ Heq) with (r0 := r1); [done..| |by split].
    rewrite Heq lookup_app_l in Hi; [|done]. by eapply list_elem_of_lookup_2. }
  destruct (lt_eq_lt_dec i j) as [[?|?]|?]; [exfalso|done|exfalso].
  - by eapply (Hlt i j r1 r2).
  - by eapply (Hlt j i r2 r1).
Qed.

(** ** Witnesses *)

Definition sample_row (i : nat) (d : Db) : JournalRow :=
  nth i (db_journal_events d)
    (mkJournalRow 0 "" None None "" JNull (Iso 0) "" None None None None "" sens_internal (Iso 0)).

Lemma journal_append_only_witness :
  length (db_journal_events db_open) = 2 ∧
  db_journal_events db_open `prefix_of` db_journal_events db_work.
Proof.
  split; [vm_compute; reflexivity|].
  apply (journal_append_only (H:=sample_crypto)), play_steps.
Defined.
Lemma journal_seq_strictly_increasing_witness :
  StronglySorted Z.lt (je_seq <$> db_journal_events db_work).
Proof. apply (journal_seq_strictly_increasing (H:=sample_crypto)), db_work_reachable. Defined.
Lemma journal_payloads_redacted_witness : redacted (je_payload (sample_row 3 db_work)).
Proof.
  apply (journal_payloads_redacted (H:=sample_crypto) db_work); [apply db_work_reachable|].
  apply list_elem_of_lookup_2 with 3. vm_compute. reflexivity.
Defined.
Lemma intent_precedes_execution_witness :
  ∃ r0, r0 ∈ take 3 (db_journal_events db_work) ∧ je_operation_id r0 = Some "op-1" ∧
    je_type r0 = "OPERATION_INTENT_REGISTERED".
Proof.
  apply (intent_precedes_execution (H:=sample_crypto) db_work _ (sample_row 3 db_work) []);
    [apply db_work_reachable|vm_compute; reflexivity..].
Defined.
Lemma at_most_one_result_witness : 3 = 3.
Proof.
  apply (at_most_one_result (H:=sample_crypto) db_work 3 3 (sample_row 3 db_work)
    (sample_row 3 db_work) "op-1"); [apply db_work_reachable|vm_compute; reflexivity..].
Defined.
