(* ===== verification/RunInv.v ===== *)
(** * RunInv: the life of a run

    Over any calls by any handles: a run never disappears, keeps its domain and
    task, keeps a terminal status once it has one, and keeps the first
    configuration binding it was given. *)

From S2P Require Import Prelude Types Events Encode Config Store StoreCalls Samples.

Definition run_forward (r r' : Run) : Prop :=
  run_id r' = run_id r ∧ run_domainId r' = run_domainId r ∧ run_taskId r' = run_taskId r ∧
  (run_is_terminal (run_status r) = true → run_status r' = run_status r) ∧
  (∀ c, run_configSnapshot r = Some c → run_configSnapshot r' = Some c).

#[export] Instance run_forward_preorder : PreOrder run_forward.
Proof.
  split.
  - intros r. unfold run_forward. naive_solver.
  - intros r1 r2 r3 (?&?&?&Ht&Hc) (?&?&?&Ht'&Hc'). unfold run_forward.
    split_and!; [congruence..| |naive_solver].
    intros Hterm. rewrite -Ht // Ht' // Ht //.
Qed.

Definition runs_forward : relation Db := λ d d',
  ∀ id r, find_run id d = Some r → ∃ r', find_run id d' = Some r' ∧ run_forward r r'.

#[export] Instance runs_forward_preorder : PreOrder runs_forward.
Proof.
  split.
  - intros d id r Hr. exists r. split; [done|reflexivity].
  - intros d1 d2 d3 H1 H2 id r (r' & Hr' & Hf)%H1.
    apply H2 in Hr' as (r'' & Hr'' & Hf'). exists r''. split; [done|by etransitivity].
Qed.

Lemma runs_forward_same d d' : db_runs d' = db_runs d → runs_forward d d'.
Proof. intros Heq id r Hr. exists r. split; [|reflexivity]. unfold find_run. by rewrite Heq. Qed.

Lemma find_run_id id d r : find_run id d = Some r → run_id r = id.
Proof. intros [_ H]%find_some. by apply bool_decide_eq_true in H. Qed.

(** An [UPDATE runs .. WHERE id = id'] moves every run forward if it moves the
    run it addresses forward. *)
Lemma runs_forward_update d id' f p :
  (∀ r, run_id (f r) = run_id r) → (∀ r, p r = true → run_id r = id') →
  (∀ r, find_run id' d = Some r → p r = true → run_forward r (f r)) →
  runs_forward d (with_runs (update_where p f) d).
Proof.
  intros Hid Hp Hf id r Hr. unfold find_run in *. simpl.
  rewrite find_update_where; [|intros x _; by rewrite Hid]. rewrite Hr /=.
  eexists. split; [done|]. destruct (p r) eqn:Hpr; [|reflexivity].
  pose proof (find_run_id id d r Hr) as Hrid. pose proof (Hp r Hpr) as Hrid'.
  apply Hf; [|done]. unfold find_run. by rewrite -Hrid' Hrid.
Qed.

Lemma runs_forward_insert d row :
  runs_forward d (with_runs (λ l, l ++ [row]) d).
Proof.
  intros id r Hr. exists r. split; [|reflexivity].
  unfold find_run in *. simpl. by rewrite find_app Hr.
Qed.

Section RunCalls.
Context `{Crypto}.

Lemma respects_exec_runs f :
  (∀ d, db_runs (f d) = db_runs d) → respects (on_db runs_forward) (exec f).
Proof. intros Hf. apply respects_exec. intros d. by apply runs_forward_same. Qed.
Lemma respects_event_runs now ev :
  respects (on_db runs_forward) (recordEventAndTransitionState now ev).
Proof. apply respects_recordEvent; [apply _|]. intros d row _. by apply runs_forward_same. Qed.

Ltac runs_tac :=
  repeat first
    [ progress (eauto 3 with xio typeclass_instances)
    | apply respects_event_runs
    | apply respects_exec_runs; intros ?; done
    | apply respects_transaction; [typeclasses eauto|]
    | respects_step ].

Lemma respects_updateRunStatus_runs now id st t e :
  respects (on_db runs_forward) (updateRunStatus now id st t e).
Proof.
  apply respects_transaction; [apply _|]. intros s. unfold getRun.
  autorewrite with xio_run. destruct (find_run id (db s)) as [run|] eqn:Hrun.
  - autorewrite with xio_run. destruct (fencing_error _ s); [reflexivity|].
    destruct (run_is_terminal (run_status run)) eqn:Hterm.
    { case_bool_decide; reflexivity. }
    autorewrite with xio_run.
    apply (respects_after (on_db runs_forward)); [|runs_tac].
    unfold on_db. simpl. apply runs_forward_update with (id' := id); [done|..].
    + by intros r ?%bool_decide_eq_true.
    + intros r Hr _. simplify_eq. unfold run_forward. simpl. rewrite Hterm. naive_solver.
  - autorewrite with xio_run. simpl.
    unfold on_db. simpl. apply runs_forward_update with (id' := id); [done|..].
    + by intros r ?%bool_decide_eq_true.
    + intros r Hr _. simplify_eq.
Qed.

(** [assert_config] reads nothing and writes nothing. *)
Lemma run_assert_config {B} c (k : unit → SM B) s :
  (assert_config c ≫= k) s =
  match c ≫= λ c, match assertRequestConfigSnapshot c with Throw e => Some e | Ok _ => None end with
  | Some e => (Throw e, s)
  | None => k tt s
  end.
Proof.
  destruct c as [c|]; [|done]. unfold assert_config. rewrite run_lift. simpl.
  by destruct (assertRequestConfigSnapshot c) as [[]|].
Qed.

Lemma respects_saveRun_runs run : respects (on_db runs_forward) (saveRun run).
Proof.
  intros s. unfold saveRun, getRun, getTask. autorewrite with xio_run.
  destruct (fencing_error _ s); [reflexivity|].
  destruct (find_run (run_id run) (db s)) as [ex|] eqn:Hex; autorewrite with xio_run.
  - destruct (_ && _) eqn:Hterm; [reflexivity|].
    rewrite run_assert_config. case_match; [reflexivity|].
    unfold on_db. simpl. apply runs_forward_update with (id' := run_id run); [done|..].
    + by intros r ?%bool_decide_eq_true.
    + intros r Hr _. simplify_eq. unfold run_forward. simpl. split_and!; try done.
      * intros Ht. rewrite Ht /= in Hterm.
        by apply negb_false_iff, bool_decide_eq_true in Hterm.
      * intros c Hc. by rewrite Hc.
  - rewrite run_assert_config. case_match; [reflexivity|]. autorewrite with xio_run.
    destruct (is_undef _); [reflexivity|]. apply runs_forward_insert.
Qed.

Lemma respects_bindRun_runs id c : respects (on_db runs_forward) (bindRunConfigSnapshot id c).
Proof.
  unfold bindRunConfigSnapshot. apply respects_bind; [apply _|runs_tac|]. intros _.
  apply respects_transaction; [apply _|]. intros s. unfold getRun. autorewrite with xio_run.
  destruct (find_run id (db s)) as [run|] eqn:Hrun; [|reflexivity].
  destruct (run_configSnapshot run) eqn:Hc; [unfold lift; reflexivity|].
  autorewrite with xio_run. destruct (fencing_error _ s); [reflexivity|].
  unfold on_db. simpl. apply runs_forward_update with (id' := id); [done|..].
  - intros r [Hr _]%andb_true_iff. by apply bool_decide_eq_true in Hr.
  - intros r Hr _. simplify_eq. unfold run_forward. simpl. split_and!; try done.
    intros c' Hc'. congruence.
Qed.

Lemma respects_insert_operation_runs row : respects (on_db runs_forward) (insert_operation row).
Proof. unfold insert_operation, getOperation, getRun. runs_tac. Qed.

Lemma respects_run_call_runs now c : respects (on_db runs_forward) (run_call now c).
Proof.
  pose proof respects_updateRunStatus_runs. pose proof respects_saveRun_runs.
  pose proof respects_bindRun_runs. pose proof respects_insert_operation_runs.
  destruct c; simpl; auto; unfold_calls; runs_tac.
Qed.

Lemma runs_forward_steps d d' : db_steps d d' → runs_forward d d'.
Proof.
  apply db_steps_preorder; [apply _|]. intros d1 d2 [now epoch c <-].
  apply (respects_run_call_runs now c (mkStore d1 epoch false)).
Qed.
End RunCalls.

(** A terminal status is final. *)
Theorem terminal_run_is_final `{Crypto} d d' id r :
  db_steps d d' → find_run id d = Some r → run_is_terminal (run_status r) = true →
  ∃ r', find_run id d' = Some r' ∧ run_status r' = run_status r.
Proof.
  intros Hs Hr Ht. destruct (runs_forward_steps _ _ Hs _ _ Hr) as (r' & Hr' & (_&_&_&Hf&_)).
  exists r'. split; [done|]. by apply Hf.
Qed.

(** The first configuration binding of a run is immutable. *)
Theorem run_binding_immutable `{Crypto} d d' id r c :
  db_steps d d' → find_run id d = Some r → run_configSnapshot r = Some c →
  ∃ r', find_run id d' = Some r' ∧ run_configSnapshot r' = Some c.
Proof.
  intros Hs Hr Hc. destruct (runs_forward_steps _ _ Hs _ _ Hr) as (r' & Hr' & (_&_&_&_&Hf)).
  exists r'. split; [done|]. by apply Hf.
Qed.

(** ** Witnesses *)

(** Calls that try to reopen or rebind the finished run. *)
Definition tampering : history :=
  [(90%Z, Some 1%Z, CUpdateRunStatus "run-1" run_running None None);
   (91%Z, Some 1%Z, CReportRunFailed "run-1" crash_detected);
   (92%Z, Some 1%Z, CBindRunConfigSnapshot "run-1"
      (createRequestConfigSnapshot (H:=sample_crypto) 1 sample_input))].

Lemma terminal_run_is_final_witness :
  ∃ r', find_run "run-1" (play (H:=sample_crypto) tampering db_closed) = Some r' ∧
    run_status r' = run_succeeded.
Proof.
  destruct (find_run "run-1" db_closed) as [r|] eqn:Hr; [|vm_compute in Hr; discriminate].
  assert (run_status r = run_succeeded) as <-.
  { vm_compute in Hr. injection Hr as <-. reflexivity. }
  apply (terminal_run_is_final (H:=sample_crypto) db_closed); [apply play_steps|exact Hr|].
  vm_compute in Hr. injection Hr as <-. reflexivity.
Defined.

Definition sample_binding : RequestConfigSnapshot :=
  createRequestConfigSnapshot (H:=sample_crypto) 5 sample_input.
Definition db_bound : Db :=
  play (H:=sample_crypto) [(25%Z, Some 1%Z, CBindRunConfigSnapshot "run-1" sample_binding)] db_open.
Lemma run_binding_immutable_witness :
  ∃ r', find_run "run-1" (play (H:=sample_crypto) tampering db_bound) = Some r' ∧
    run_configSnapshot r' = Some sample_binding.
Proof.
  destruct (find_run "run-1" db_bound) as [r|] eqn:Hr; [|vm_compute in Hr; discriminate].
  apply (run_binding_immutable (H:=sample_crypto) db_bound _ "run-1" r);
    [apply play_steps|exact Hr|].
  vm_compute in Hr. injection Hr as <-. reflexivity.
Defined.
