(* ===== verification/FencingInv.v ===== *)
(** * FencingInv: ownership epochs and the stale writer

    The epoch of a domain only grows and grows strictly at every change of
    owner; a handle whose epoch is no longer the owner's cannot change the
    tables through any fenced call; a live, unexpired owner cannot be displaced
    without [force]. *)

From S2P Require Import Prelude Types Events Encode Config Store StoreCalls Samples.

(** ** Epochs over any calls *)

Definition owner_forward (o o' : OwnerRecord) : Prop :=
  (own_epoch o ≤ own_epoch o')%Z ∧
  (own_ownerId o' ≠ own_ownerId o → (own_epoch o < own_epoch o')%Z).

Definition owners_forward : relation Db := λ d d',
  ∀ dom o, find_owner dom d = Some o → ∃ o', find_owner dom d' = Some o' ∧ owner_forward o o'.

#[export] Instance owner_forward_preorder : PreOrder owner_forward.
Proof.
  split.
  - intros o. split; [lia|done].
  - intros o1 o2 o3 [H1 H1'] [H2 H2']. split; [lia|]. intros Hne.
    destruct (decide (own_ownerId o2 = own_ownerId o1)) as [Heq|Hne'].
    + rewrite -Heq in Hne. specialize (H2' Hne). lia.
    + specialize (H1' Hne'). lia.
Qed.

#[export] Instance owners_forward_preorder : PreOrder owners_forward.
Proof.
  split.
  - intros d dom o Ho. exists o. split; [done|reflexivity].
  - intros d1 d2 d3 H1 H2 dom o (o' & Ho' & Hf)%H1.
    apply H2 in Ho' as (o'' & Ho'' & Hf'). exists o''. split; [done|by etransitivity].
Qed.

Lemma owners_forward_same d d' : db_owners d' = db_owners d → owners_forward d d'.
Proof. intros Heq dom o Ho. exists o. split; [|reflexivity]. unfold find_owner. by rewrite Heq. Qed.

Lemma find_owner_domain dom d o : find_owner dom d = Some o → own_domainId o = dom.
Proof. intros [_ H]%find_some. by apply bool_decide_eq_true in H. Qed.

Lemma owners_forward_update d dom p f :
  (∀ o, own_domainId (f o) = own_domainId o) → (∀ o, p o = true → own_domainId o = dom) →
  (∀ o, find_owner dom d = Some o → p o = true → owner_forward o (f o)) →
  owners_forward d (with_owners (update_where p f) d).
Proof.
  intros Hid Hp Hf dom' o Ho. unfold find_owner in *. simpl.
  rewrite find_update_where; [|intros x _; by rewrite Hid]. rewrite Ho /=.
  eexists. split; [done|]. destruct (p o) eqn:Hpo; [|reflexivity].
  pose proof (find_owner_domain dom' d o Ho) as Hd. pose proof (Hp o Hpo) as Hd'.
  apply Hf; [|done]. unfold find_owner. by rewrite -Hd' Hd.
Qed.

Section OwnerCalls.
Context `{Crypto}.

Lemma respects_exec_owners f :
  (∀ d, db_owners (f d) = db_owners d) → respects (on_db owners_forward) (exec f).
Proof. intros Hf. apply respects_exec. intros d. by apply owners_forward_same. Qed.
Lemma respects_event_owners now ev :
  respects (on_db owners_forward) (recordEventAndTransitionState now ev).
Proof. apply respects_recordEvent; [apply _|]. intros d row _. by apply owners_forward_same. Qed.

Ltac owners_tac :=
  repeat first
    [ progress (eauto 3 with xio typeclass_instances)
    | apply respects_event_owners
    | apply respects_exec_owners; intros ?; done
    | apply respects_transaction; [typeclasses eauto|]
    | respects_step ].

Lemma respects_acquire_owners k now dom ow h t f :
  respects (on_db owners_forward) (acquireOwnerLease k now dom ow h t f).
Proof.
  apply respects_transaction; [apply _|]. intros s. unfold getOwner. autorewrite with xio_run.
  destruct (find_owner dom (db s)) as [ex|] eqn:Hex.
  - case_bool_decide as Hown; [|destruct (_ || _)]; autorewrite with xio_run; [..|reflexivity];
      unfold on_db; simpl; (apply owners_forward_update with (dom := dom); [done|..]).
    + intros o [Ho _]%andb_true_iff. by apply bool_decide_eq_true in Ho.
    + intros o Ho [_ Hid%bool_decide_eq_true]%andb_true_iff. simplify_eq.
      unfold owner_forward. simpl. split; [lia|done].
    + by intros o ?%bool_decide_eq_true.
    + intros o Ho _. simplify_eq. unfold owner_forward. simpl. split; lia.
  - autorewrite with xio_run. unfold on_db. simpl. intros dom' o Ho. exists o.
    split; [|reflexivity]. unfold find_owner in *. simpl. by rewrite find_app Ho.
Qed.

Lemma respects_release_owners dom ow : respects (on_db owners_forward) (releaseOwnerLease dom ow).
Proof.
  apply respects_exec. intros d. apply owners_forward_update with (dom := dom); [done|..].
  - intros o [Ho _]%andb_true_iff. by apply bool_decide_eq_true in Ho.
  - intros o _ _. unfold owner_forward. simpl. split; [lia|done].
Qed.

Lemma respects_updateRunStatus_owners now r s t e :
  respects (on_db owners_forward) (updateRunStatus now r s t e).
Proof. unfold updateRunStatus, getRun. owners_tac. Qed.
Lemma respects_insert_operation_owners row : respects (on_db owners_forward) (insert_operation row).
Proof. unfold insert_operation, getOperation, getRun. owners_tac. Qed.

Lemma respects_run_call_owners now c : respects (on_db owners_forward) (run_call now c).
Proof.
  pose proof respects_acquire_owners. pose proof respects_release_owners.
  pose proof respects_updateRunStatus_owners. pose proof respects_insert_operation_owners.
  destruct c; simpl; auto; unfold_calls; owners_tac.
Qed.

Lemma owners_forward_steps d d' : db_steps d d' → owners_forward d d'.
Proof.
  apply db_steps_preorder; [apply _|]. intros d1 d2 [now epoch c <-].
  apply (respects_run_call_owners now c (mkStore d1 epoch false)).
Qed.
End OwnerCalls.

(** Epochs grow, strictly at every change of owner. *)
Theorem epoch_grows_on_takeover `{Crypto} d d' dom o :
  db_steps d d' → find_owner dom d = Some o →
  ∃ o', find_owner dom d' = Some o' ∧ (own_epoch o ≤ own_epoch o')%Z ∧
    (own_ownerId o' ≠ own_ownerId o → (own_epoch o < own_epoch o')%Z).
Proof. intros Hs Ho. apply (owners_forward_steps _ _ Hs _ _ Ho). Qed.

(** ** The stale writer *)

(** A domain has its own database file: every row belongs to it. *)
Definition single_domain (dom : string) (d : Db) : Prop :=
  (∀ id r, find_run id d = Some r → run_domainId r = dom) ∧
  (∀ id o, find_operation id d = Some o → op_domainId o = dom).

Definition stale (dom : string) (s : SqliteStore) : Prop :=
  ∃ e o, currentEpoch s = Some e ∧ find_owner dom (db s) = Some o ∧ own_epoch o ≠ e.

(** The calls that are fenced, and the domain an explicit argument names. *)
Definition fenced_call (dom : string) (c : StoreCall) : Prop :=
  match c with
  | CAcquireOwnerLease _ _ _ _ _ _ | CReleaseOwnerLease _ _ | CReleaseResourceLease _ _
  | CDeleteSnapshot _ => False
  | CSaveTask t => task_domainId t = dom
  | CSaveRun r => run_domainId r = dom
  | CRegisterOperationIntent _ d | CRecordPreIntentCancelled _ d _ => d = dom
  | CRecordReplay d _ _ _ => d = dom
  | CRecordEvent e => ev_domainId e = dom
  | CRecordEventEnvelope e => in_domainId e = dom
  | CRecordArtifact r => art_domainId r = dom
  | CFinalizeArtifact d _ _ _ _ _ | CMarkArtifactDeleted d _ _ _ _ => d = dom
  | CRecordSnapshot s => snap_domainId s = dom
  | CRecordCapability c => cap_domainId c = dom
  | CRevokeCapability _ d _ => d = dom
  | _ => True
  end.

Section Stale.
Context `{Crypto} (dom : string).

(** While a handle is stale, the tables do not move. *)
Definition frozen : relation SqliteStore := λ s s',
  single_domain dom (db s) → stale dom s → db s' = db s ∧ currentEpoch s' = currentEpoch s.

#[local] Instance frozen_preorder : PreOrder frozen.
Proof.
  split.
  - intros s. done.
  - intros s1 s2 s3 H1 H2 Hsd Hst. destruct (H1 Hsd Hst) as [Hd He].
    destruct H2 as [Hd' He'].
    + by rewrite Hd.
    + unfold stale. by rewrite Hd He.
    + split; congruence.
Qed.

Lemma stale_fencing s : stale dom s → ∃ e, fencing_error dom s = Some e.
Proof.
  intros (e & o & He & Ho & Hne). unfold fencing_error. rewrite He Ho.
  rewrite bool_decide_false //. by eexists.
Qed.

(** A method whose next fenced check is for [dom] stops there. *)
Lemma frozen_verify {B} (k : unit → SM B) : respects frozen (verifyEpochFencing dom ≫= k).
Proof.
  intros s Hsd Hst. rewrite run_verify. destruct (stale_fencing s Hst) as [e ->]. done.
Qed.
Lemma frozen_transaction {A} (fn : SM A) : respects frozen fn → respects frozen (transaction fn).
Proof.
  intros Hfn s. unfold transaction. destruct (inTransaction s); [apply Hfn|].
  specialize (Hfn (mkStore (db s) (currentEpoch s) true)).
  destruct (fn _) as [[a|e] s']; intros Hsd Hst; destruct (Hfn Hsd Hst); done.
Qed.
Lemma frozen_query {A B} (f : Db → A) (k : A → SM B) :
  (∀ s, single_domain dom (db s) → stale dom s → frozen s (k (f (db s)) s).2) →
  respects frozen (query f ≫= k).
Proof. intros Hk s Hsd Hst. rewrite run_query. by apply Hk. Qed.

Lemma frozen_on_run {B} id (k1 : Run → SM B) (k0 : SM B) :
  respects frozen k0 →
  respects frozen (getRun id ≫= λ r, match r with
    | Some r => verifyEpochFencing (run_domainId r) ;; k1 r | None => k0 end).
Proof.
  intros H0. apply frozen_query. intros s Hsd Hst. destruct (find_run id (db s)) as [r|] eqn:Hr.
  - destruct Hsd as [Hruns _]. rewrite (Hruns _ _ Hr). by apply frozen_verify.
  - by apply H0.
Qed.
Lemma frozen_on_op {B} id (k1 : Operation → SM B) (k0 : SM B) :
  respects frozen k0 →
  respects frozen (getOperation id ≫= λ o, match o with
    | Some o => verifyEpochFencing (op_domainId o) ;; k1 o | None => k0 end).
Proof.
  intros H0. apply frozen_query. intros s Hsd Hst. destruct (find_operation id (db s)) as [o|] eqn:Ho.
  - destruct Hsd as [_ Hops]. rewrite (Hops _ _ Ho). by apply frozen_verify.
  - by apply H0.
Qed.

Lemma exec_update_run_none id f s :
  find_run id (db s) = None →
  mkStore (with_runs (update_where (λ r, bool_decide (run_id r = id)) f) (db s))
    (currentEpoch s) (inTransaction s) = s.
Proof.
  intros Hn. destruct s as [d e t]. simpl in *. f_equal. destruct d. unfold with_runs. simpl.
  f_equal. by apply update_where_none.
Qed.
Lemma exec_update_op_none id f s :
  find_operation id (db s) = None →
  mkStore (with_operations (update_where (λ o, bool_decide (op_id o = id)) f) (db s))
    (currentEpoch s) (inTransaction s) = s.
Proof.
  intros Hn. destruct s as [d e t]. simpl in *. f_equal. destruct d. unfold with_operations. simpl.
  f_equal. by apply update_where_none.
Qed.

Lemma frozen_updateRunStatus now id st t e : respects frozen (updateRunStatus now id st t e).
Proof.
  apply frozen_transaction, frozen_query. intros s Hsd Hst. autorewrite with xio_run.
  destruct (find_run id (db s)) as [r|] eqn:Hr; autorewrite with xio_run.
  - destruct Hsd as [Hruns _]. rewrite (Hruns _ _ Hr).
    destruct (stale_fencing s Hst) as [er ->]. done.
  - simpl. by rewrite exec_update_run_none.
Qed.

Lemma frozen_updateOperationStatus now id st i r :
  respects frozen (updateOperationStatus now id st i r).
Proof.
  apply frozen_transaction, frozen_query. intros s Hsd Hst.
  destruct (find_operation id (db s)) as [o|] eqn:Ho; autorewrite with xio_run.
  - destruct Hsd as [_ Hops]. rewrite (Hops _ _ Ho).
    destruct (stale_fencing s Hst) as [er ->]. done.
  - simpl. by rewrite exec_update_op_none.
Qed.

Lemma frozen_bind id c : respects frozen (bindRunConfigSnapshot id c).
Proof.
  unfold bindRunConfigSnapshot. apply respects_bind; [apply _|auto with xio typeclass_instances|].
  intros _. apply frozen_transaction, frozen_query. intros s Hsd Hst.
  destruct (find_run id (db s)) as [r|] eqn:Hr; [|done].
  destruct (run_configSnapshot r); [done|]. destruct Hsd as [Hruns Hops].
  rewrite (Hruns _ _ Hr). by apply frozen_verify.
Qed.

Ltac frozen_tac :=
  repeat first
    [ apply frozen_transaction | apply frozen_verify
    | apply frozen_on_run | apply frozen_on_op
    | progress (eauto 3 with xio typeclass_instances) | respects_step ].

Lemma frozen_event now ev :
  ev_domainId ev = dom → respects frozen (recordEventAndTransitionState now ev).
Proof. intros Hd. unfold recordEventAndTransitionState. rewrite Hd. apply frozen_verify. Qed.

Lemma frozen_envelope now ev :
  in_domainId ev = dom → respects frozen (recordEventEnvelope now ev).
Proof.
  intros Hin. unfold recordEventEnvelope. intros s. rewrite run_lift.
  destruct (createEventEnvelope now ev) as [env|] eqn:He; [|done].
  apply createEventEnvelope_fields in He as [Hd _]. apply frozen_event. simpl. congruence.
Qed.

Lemma frozen_call now c :
  fenced_call dom c → c ≠ CFence → respects frozen (run_call now c).
Proof.
  pose proof frozen_updateRunStatus. pose proof frozen_updateOperationStatus.
  pose proof frozen_bind. pose proof frozen_event. pose proof frozen_envelope.
  destruct c; simpl; intros Hc Hf; try done; auto;
  unfold_calls; rewrite ?Hc; frozen_tac.
Qed.
End Stale.

(** C31. In a store that serves a single domain, a stale handle changes nothing through
    any fenced call. *)
Theorem stale_handle_cannot_write `{Crypto} dom now c s :
  single_domain dom (db s) → stale dom s → fenced_call dom c →
  db (run_call now c s).2 = db s.
Proof.
  intros Hsd Hst Hc. destruct c; try (by apply (frozen_call dom now _ Hc)).
  done.
Qed.

(** A handle superseded by a takeover stays stale for ever. *)
Theorem superseded_handle_stays_stale `{Crypto} dom d d' o e :
  db_steps d d' → find_owner dom d = Some o → (e < own_epoch o)%Z →
  ∀ tx, stale dom (mkStore d' (Some e) tx).
Proof.
  intros Hs Ho He tx. destruct (owners_forward_steps _ _ Hs _ _ Ho) as (o' & Ho' & [Hle _]).
  exists e, o'. simpl. split_and!; [done|done|lia].
Qed.

(** ** Witnesses *)

Lemma epoch_grows_on_takeover_witness :
  ∃ o', find_owner "dom" db_taken = Some o' ∧ (1 ≤ own_epoch o')%Z ∧
    (own_ownerId o' ≠ "owner-41" → (1 < own_epoch o')%Z).
Proof.
  destruct (find_owner "dom" db_work) as [o|] eqn:Ho; [|vm_compute in Ho; discriminate].
  pose proof (epoch_grows_on_takeover (H:=sample_crypto) db_work db_taken "dom" o
    (play_steps (H:=sample_crypto) takeover db_work) Ho) as Hgrow.
  vm_compute in Ho. injection Ho as <-. exact Hgrow.
Defined.

Lemma single_domain_rows dom d :
  forallb (λ r, bool_decide (run_domainId r = dom)) (db_runs d) = true →
  forallb (λ o, bool_decide (op_domainId o = dom)) (db_operations d) = true → single_domain dom d.
Proof.
  rewrite !forallb_forall. intros Hr Ho. split.
  - intros id r [Hin _]%find_some. eapply bool_decide_eq_true, Hr, Hin.
  - intros id o [Hin _]%find_some. eapply bool_decide_eq_true, Ho, Hin.
Qed.
(** The first owner's handle, after the takeover. *)
Definition sample_stale : SqliteStore := mkStore db_taken (Some 1%Z) false.
Lemma stale_handle_cannot_write_witness :
  db (run_call (H:=sample_crypto) 600 (CRecordOperationResult "op-2" sample_result true)
    sample_stale).2 = db sample_stale.
Proof.
  apply (stale_handle_cannot_write (H:=sample_crypto) "dom" 600
    (CRecordOperationResult "op-2" sample_result true) sample_stale).
  - apply single_domain_rows; vm_compute; reflexivity.
  - exists 1%Z. eexists. split; [reflexivity|].
    split; [vm_compute; reflexivity|]. discriminate.
  - exact I.
Defined.
Lemma superseded_handle_stays_stale_witness :
  stale "dom" (mkStore (play (H:=sample_crypto) closing db_taken) (Some 1%Z) false).
Proof.
  destruct (find_owner "dom" db_taken) as [o|] eqn:Ho; [|vm_compute in Ho; discriminate].
  apply (superseded_handle_stays_stale (H:=sample_crypto) "dom" db_taken _ o 1);
    [apply play_steps|exact Ho|].
  vm_compute in Ho. injection Ho as <-. reflexivity.
Defined.
