(* ===== verification/StoreSpec.v ===== *)
(** * StoreSpec: what each writing method does, branch by branch

    The functional behaviour of the owner lease, of the one writer of results
    and of the run-completion protocol. *)

From S2P Require Import Prelude Types Events Encode Config Store StoreCalls Samples.

(** ** Every record the kernel journals is JSON *)

Fixpoint json_ok (v : jsval) : bool :=
  match v with
  | JNull | JStr _ | JDate _ | JBool _ | JNum (NumFin _) => true
  | JNum _ | JUndef | JOpaque => false
  | JArr l => forallb json_ok l
  | JObj fs => forallb (λ kv, is_undefined kv.2 || json_ok kv.2) fs
  end.
Definition field_ok (kv : string * jsval) : bool := is_undefined kv.2 || json_ok kv.2.

Lemma jsonValue_total v : json_ok v = true → ∃ w, jsonValue v = Ok w.
Proof.
  induction v as [| |b|n|s|d|l IH|fs IH|] using jsval_nested_ind; intros Hv; simpl in *; try done;
    try by eexists.
  - destruct n; [by eexists|done..].
  - enough (∃ l', map_outcome jsonValue l = Ok l') as [l' ->] by by eexists.
    induction IH as [|x l Hx HF IHl]; simpl; [by eexists|].
    apply andb_true_iff in Hv as [Hj Hl]. destruct (Hx Hj) as [w ->], (IHl Hl) as [ws ->].
    by eexists.
  - enough (∃ fs', map_fields jsonValue fs = Ok fs') as [fs' ->] by by eexists.
    induction IH as [|[k x] fs Hx HF IHl]; simpl; [by eexists|]. simpl in *.
    apply andb_true_iff in Hv as [Hj Hl]. destruct (IHl Hl) as [ws Hws].
    destruct (SECRET_KEY k); [by eexists|]. destruct (is_undefined x); [by eexists|].
    simpl in Hj. destruct (Hx Hj) as [w ->]. rewrite Hws. by eexists.
Qed.

Lemma field_ok_jopt {A} k (f : A → jsval) o :
  (∀ a, json_ok (f a) = true) → field_ok (k, jopt f o) = true.
Proof. intros Hf. destruct o; unfold field_ok; simpl; [by rewrite Hf orb_true_r|done]. Qed.
Lemma json_ok_strings l : json_ok (js_strings l) = true.
Proof. simpl. by induction l. Qed.
Lemma json_ok_pids l : json_ok (js_pids l) = true.
Proof. simpl. by induction l. Qed.

Ltac field_tac :=
  repeat first
    [ done
    | apply field_ok_jopt; intros ?
    | apply json_ok_strings | apply json_ok_pids
    | apply Forall_cons; split
    | apply Forall_nil ].

Lemma fields_forallb fs : Forall (λ kv, field_ok kv = true) fs → json_ok (JObj fs) = true.
Proof. simpl. induction 1 as [|kv fs Hkv _ IH]; simpl; [done|]. by rewrite -/(field_ok kv) Hkv. Qed.

Lemma json_ok_adjudication a : json_ok (JObj (adjudication_fields a)) = true.
Proof. apply fields_forallb. unfold adjudication_fields. field_tac. Qed.
Lemma json_ok_read_evidence r : json_ok (js_read_evidence r) = true.
Proof. apply fields_forallb. field_tac. Qed.
Lemma json_ok_snapshot_ref s : json_ok (js_snapshot_ref s) = true.
Proof. apply fields_forallb. field_tac. Qed.
Lemma json_ok_ignored i : json_ok (js_ignored_changes i) = true.
Proof. unfold js_ignored_changes. destruct (ign_counts i) as [[[? ?] ?] ?]. apply fields_forallb. field_tac. Qed.

Lemma process_fields_ok p : Forall (λ kv, field_ok kv = true) (process_fields p).
Proof.
  unfold process_fields. destruct (pr_exitCode p), (pr_signal p); field_tac;
    apply json_ok_read_evidence.
Qed.
Lemma body_fields_ok b : Forall (λ kv, field_ok kv = true) (body_fields b).
Proof.
  destruct b as [p|f|g|i|s|r]; simpl; [apply process_fields_ok|..]; unfold rollback_fields; field_tac.
  - apply json_ok_adjudication.
  - apply json_ok_snapshot_ref.
  - apply json_ok_ignored.
Qed.
Lemma json_ok_result r : json_ok (js_result r) = true.
Proof.
  apply fields_forallb, Forall_app. split; [apply body_fields_ok|].
  destruct (res_replayed (res_base r)); field_tac.
Qed.
Lemma json_ok_identity i : json_ok (js_identity i) = true.
Proof. apply fields_forallb. field_tac. Qed.
Lemma json_ok_budget b : json_ok (js_budget b) = true.
Proof. apply fields_forallb. field_tac. Qed.
Lemma json_ok_binding c : json_ok (js_config_binding c) = true.
Proof. apply fields_forallb. field_tac. Qed.

(** A kernel event with a valid name and a JSON object payload is journaled
    whenever the fence and the intent rules let it through. *)
Lemma createEventEnvelope_total now input :
  truthy_str (in_domainId input) = true → event_name_regex (in_event input) = true →
  in_schemaVersion input = None → isRecord (in_payload input) = true →
  json_ok (in_payload input) = true →
  ∃ env, createEventEnvelope now input = Ok env.
Proof.
  intros Hd Hn Hs Hr Hj. unfold createEventEnvelope.
  assert (truthy_str (in_event input) = true) as ->.
  { by destruct (in_event input). }
  rewrite Hd Hn Hs. simpl.
  assert (∃ p, redactEventPayload (in_payload input) (nullish (in_sensitivity input) sens_internal) = Ok p)
    as [p ->]; [|by eexists].
  unfold redactEventPayload. case_decide; [by eexists|].
  destruct (in_payload input) as [| | | | | | |fs|]; try done.
  destruct (jsonValue_total _ Hj) as [w Hw]. rewrite Hw. simpl in Hw.
  apply bind_Ok in Hw as (fs' & _ & [= <-]). by eexists.
Qed.

Definition admissible_event (ev : EventInput) (d : Db) : bool :=
  let operationId := ev_operationId ev in
  let name := ev_type ev in
  let pre := bool_decide (name = "OPERATION_RESULT_RECORDED") && preIntentCancelled_flag (ev_payload ev) in
  negb (truthy_opt operationId && requiresIntent name && negb (exempt_event name) && negb pre
        && negb (has_event (default "" operationId) "OPERATION_INTENT_REGISTERED" d)) &&
  negb (bool_decide (name = "OPERATION_RESULT_RECORDED") && truthy_opt operationId && negb pre
        && has_event (default "" operationId) "OPERATION_RESULT_RECORDED" d).

Lemma simple_event_recorded now dom run op type payload ts s :
  fencing_error dom s = None → truthy_str dom = true → event_name_regex type = true →
  isRecord payload = true → json_ok payload = true →
  admissible_event (simple_event dom run op type payload ts) (db s) = true →
  ∃ row, recordEventAndTransitionState now (simple_event dom run op type payload ts) s
    = (Ok (je_seq row), mkStore (with_journal row (db s)) (currentEpoch s) (inTransaction s))
    ∧ je_type row = type ∧ je_operation_id row = or_undef op ∧ je_run_id row = or_undef run
    ∧ je_domain_id row = dom.
Proof.
  intros Hf Hd Hn Hr Hj Hadm.
  unfold recordEventAndTransitionState. autorewrite with xio_run. simpl ev_domainId. rewrite Hf.
  autorewrite with xio_run. unfold admissible_event in Hadm.
  apply andb_true_iff in Hadm as [H1%negb_true_iff H2%negb_true_iff]. simpl in H1, H2.
  assert (∀ o : option string, nullish_opt o None = o) as Hno by by intros [].
  simpl. rewrite Hno H1 H2.
  set (input := mkEventEnvelopeInput _ _ _ _ _ _ _ _ _ _).
  destruct (createEventEnvelope_total now input) as [env Henv]; try done.
  pose proof (createEventEnvelope_fields _ _ _ Henv) as (_ & Hname & _). simpl in Hname.
  exists (event_row (db_journal_seq (db s) + 1) (simple_event dom run op type payload ts) env).
  unfold lift, mbind, ST_bind. rewrite Henv. split_and!; done.
Qed.

(** ** The one writer of results *)

Lemma find_update_op id d f :
  (∀ o, op_id (f o) = op_id o) →
  find_operation id (with_operations (update_where (λ o, bool_decide (op_id o = id)) f) d)
  = f <$> find_operation id d.
Proof.
  intros Hf. unfold find_operation. simpl. rewrite find_update_where; [|intros o _; by rewrite Hf].
  destruct (List.find _ (db_operations d)) as [o|] eqn:Ho; simpl; [|done].
  apply find_some in Ho as [_ ->]. done.
Qed.

(** The tables after a successful [recordOperationResult]. *)
Definition result_recorded (id : string) (r : OperationResult) (release : bool) (d : Db) : Db :=
  let d1 := with_operations (update_where (λ o, bool_decide (op_id o = id)) (finish_op r)) d in
  if release && negb (is_indeterminate r) then delete_leases_of id d1 else d1.

Lemma result_recorded_find id r release d op :
  find_operation id d = Some op →
  find_operation id (result_recorded id r release d) = Some (finish_op r op).
Proof.
  intros Hop. unfold result_recorded.
  pose proof (find_update_op id d (finish_op r)) as Hup. rewrite Hop in Hup.
  case_match; by apply Hup.
Qed.
Lemma result_recorded_leases id r release d l :
  l ∈ db_resource_leases (result_recorded id r release d) ↔
  l ∈ db_resource_leases d ∧
  (release && negb (is_indeterminate r) = true → lease_operationId l ≠ id).
Proof.
  unfold result_recorded. destruct (release && negb (is_indeterminate r)); simpl; [|naive_solver].
  rewrite !list_elem_of_In filter_In negb_true_iff bool_decide_eq_false. naive_solver.
Qed.

Definition can_record_result (id : string) (s : SqliteStore) : Prop :=
  ∃ op, find_operation id (db s) = Some op ∧ fencing_error (op_domainId op) s = None ∧
    op_done op = false ∧ has_event id "OPERATION_INTENT_REGISTERED" (db s) = true ∧
    has_event id "OPERATION_RESULT_RECORDED" (db s) = false.

Lemma transaction_run {A} (fn : SM A) s :
  inTransaction s = false →
  transaction fn s =
  let '(o, s') := fn (mkStore (db s) (currentEpoch s) true) in
  (o, mkStore (if is_ok o then db s' else db s) (currentEpoch s') false).
Proof. intros Ht. unfold transaction. rewrite Ht. by destruct (fn _) as [[a|e] s']. Qed.

Lemma fencing_error_db dom s s' :
  db_owners (db s') = db_owners (db s) → currentEpoch s' = currentEpoch s →
  fencing_error dom s' = fencing_error dom s.
Proof. intros Ho He. unfold fencing_error, find_owner. by rewrite Ho He. Qed.

Lemma has_event_row op type row d :
  has_event op type (with_journal row d)
  = has_event op type d || (bool_decide (je_operation_id row = Some op) && bool_decide (je_type row = type)).
Proof. unfold has_event. simpl. by rewrite existsb_app /= orb_false_r. Qed.

Lemma with_journal_operations row d : db_operations (with_journal row d) = db_operations d.
Proof. done. Qed.

Lemma transaction_Ok {A} (fn : SM A) s a s' :
  transaction fn s = (Ok a, s') →
  ∃ s1, fn (mkStore (db s) (currentEpoch s) true) = (Ok a, s1) ∧ db s' = db s1 ∧
    currentEpoch s' = currentEpoch s1 ∧ (inTransaction s = false → inTransaction s' = false).
Proof.
  destruct s as [d e t]. unfold transaction. simpl. destruct t.
  - intros Hrun. exists s'. by split_and!.
  - destruct (fn _) as [[b|err] s1]; [|done]. intros [= <- <-]. exists s1. by split_and!.
Qed.

(** What a call that returned has done. *)
Lemma record_result_inv now id r release s s' :
  recordOperationResult now id r release s = (Ok tt, s') →
  ∃ op row, find_operation id (db s) = Some op ∧ op_done op = false ∧
    fencing_error (op_domainId op) s = None ∧
    db s' = with_journal row (result_recorded id r release (db s)) ∧
    je_type row = "OPERATION_RESULT_RECORDED" ∧ je_operation_id row = or_undef (Some id) ∧
    currentEpoch s' = currentEpoch s ∧ (inTransaction s = false → inTransaction s' = false).
Proof.
  intros (s1 & Hrun & -> & -> & Ht)%transaction_Ok. revert Hrun. unfold getOperation.
  autorewrite with xio_run. cbn [db]. destruct (find_operation id (db s)) as [op|]; [|done].
  autorewrite with xio_run. rewrite (fencing_error_db _ s) //.
  destruct (fencing_error _ s) eqn:Hf; [done|]. autorewrite with xio_run.
  destruct (op_done op) eqn:Hd; [done|]. autorewrite with xio_run. cbn [db].
  destruct (has_event id "OPERATION_INTENT_REGISTERED" (db s)); [|done]. simpl negb.
  autorewrite with xio_run. cbn [db].
  destruct (has_event id "OPERATION_RESULT_RECORDED" (db s)); [done|]. autorewrite with xio_run.
  intros ([] & s2 & Hrel & (seq & s3 & Hev & [= <-])%bind_Ok_inv)%bind_Ok_inv.
  assert (s2 = mkStore (result_recorded id r release (db s)) (currentEpoch s) true) as ->.
  { unfold result_recorded, when, exec, modify in *.
    destruct (release && negb (is_indeterminate r)); by injection Hrel as <-. }
  match type of Hev with recordEventAndTransitionState now ?ev ?s = _ =>
    destruct (recordEvent_cases now ev s) as [[e He]|(row & He & _ & Hty & Hop & _)] end;
    rewrite He in Hev; [done|]. injection Hev as _ <-.
  exists op, row. by split_and!.
Qed.

Lemma recordOperationResult_returns now id r release s op :
  inTransaction s = false → can_record_result id s → find_operation id (db s) = Some op →
  truthy_str (op_domainId op) = true → truthy_str id = true →
  ∃ row s', recordOperationResult now id r release s = (Ok tt, s') ∧
    db s' = with_journal row (result_recorded id r release (db s)) ∧
    je_type row = "OPERATION_RESULT_RECORDED" ∧ je_operation_id row = Some id ∧
    find_operation id (db s') = Some (finish_op r op) ∧
    (∀ l, l ∈ db_resource_leases (db s') ↔
      l ∈ db_resource_leases (db s) ∧
      (release && negb (is_indeterminate r) = true → lease_operationId l ≠ id)).
Proof.
  intros Htx (op' & Hop & Hf & Hdone & Hint & Hprior) Hop' Hdom Hid.
  rewrite Hop in Hop'. injection Hop' as ->.
  unfold recordOperationResult. rewrite transaction_run //. unfold getOperation.
  autorewrite with xio_run. cbn [db]. rewrite Hop. autorewrite with xio_run.
  rewrite (fencing_error_db _ s) // Hf. autorewrite with xio_run. rewrite Hdone.
  autorewrite with xio_run. cbn [db]. rewrite Hint. simpl negb. autorewrite with xio_run.
  cbn [db]. rewrite Hprior. autorewrite with xio_run. cbn [db].
  set (d1 := with_operations _ (db s)).
  assert (∀ (k : unit → SM unit) s1, db s1 = d1 →
    (when (release && negb (is_indeterminate r)) (exec (delete_leases_of id)) ≫= k) s1
    = k tt (mkStore (result_recorded id r release (db s)) (currentEpoch s1) (inTransaction s1))) as Hwhen.
  { intros k s1 Hs1. destruct s1 as [d e t]. simpl in Hs1. subst d. unfold result_recorded. fold d1.
    by destruct (release && negb (is_indeterminate r)). }
  rewrite Hwhen //. simpl.
  edestruct (simple_event_recorded now (op_domainId op) (Some (op_runId op)) (Some id)
    "OPERATION_RESULT_RECORDED"
    (JObj [("result", js_result r); ("releaseResources", JBool release)])
    (res_completedAt (res_base r)) (mkStore (result_recorded id r release (db s)) (currentEpoch s) true))
    as (row & Hrow & Hty & Hoid & _).
  - rewrite (fencing_error_db _ s) //. simpl. unfold result_recorded. by case_match.
  - done.
  - by vm_compute.
  - done.
  - apply fields_forallb. repeat constructor. apply orb_true_iff. right. apply json_ok_result.
  - unfold admissible_event. simpl. rewrite Hid.
    assert (∀ t, has_event id t (result_recorded id r release (db s)) = has_event id t (db s)) as Hhe.
    { intros t. unfold result_recorded. by case_match. }
    by rewrite !Hhe Hint Hprior.
  - unfold mbind at 1, ST_bind at 1. rewrite Hrow. simpl. exists row. eexists. split; [done|].
    simpl. split_and!; try done.
    + rewrite Hoid. simpl. by rewrite Hid.
    + by apply result_recorded_find.
    + intros l. apply result_recorded_leases.
Qed.

(** The single writer of results, on the accepting branch: the operation
    becomes [done] with the result, exactly one result event is journaled, and
    its leases are deleted if and only if the caller released them and the
    result is not indeterminate. *)
Theorem recordOperationResult_accepts now id r release s op :
  inTransaction s = false → can_record_result id s → find_operation id (db s) = Some op →
  truthy_str (op_domainId op) = true → truthy_str id = true →
  ∃ row s', recordOperationResult now id r release s = (Ok tt, s') ∧
    db s' = with_journal row (result_recorded id r release (db s)) ∧
    je_type row = "OPERATION_RESULT_RECORDED" ∧ je_operation_id row = Some id ∧
    find_operation id (db s') = Some (finish_op r op) ∧
    (∀ l, l ∈ db_resource_leases (db s') ↔
      l ∈ db_resource_leases (db s) ∧
      (release && negb (is_indeterminate r) = true → lease_operationId l ≠ id)).
Proof. apply recordOperationResult_returns. Qed.

(** On every other branch the tables do not move. *)
Theorem recordOperationResult_rejects now id r release s :
  inTransaction s = false →
  (∀ op, find_operation id (db s) = Some op →
    fencing_error (op_domainId op) s ≠ None ∨ op_done op = true ∨
    has_event id "OPERATION_INTENT_REGISTERED" (db s) = false ∨
    has_event id "OPERATION_RESULT_RECORDED" (db s) = true) →
  ∃ e s', recordOperationResult now id r release s = (Throw e, s') ∧ db s' = db s.
Proof.
  intros Htx Hbad. unfold recordOperationResult. rewrite transaction_run //. unfold getOperation.
  autorewrite with xio_run. cbn [db].
  destruct (find_operation id (db s)) as [op|]; [|by do 2 eexists].
  autorewrite with xio_run. rewrite (fencing_error_db _ s) //.
  destruct (fencing_error _ s) eqn:Hf; [by do 2 eexists|]. autorewrite with xio_run.
  destruct (op_done op) eqn:Hd; [by do 2 eexists|]. autorewrite with xio_run. cbn [db].
  destruct (has_event id "OPERATION_INTENT_REGISTERED" (db s)) eqn:Hi; [|by do 2 eexists].
  simpl negb. autorewrite with xio_run. cbn [db].
  destruct (has_event id "OPERATION_RESULT_RECORDED" (db s)) eqn:Hr; [by do 2 eexists|].
  destruct (Hbad op eq_refl) as [?|[?|[?|?]]]; congruence.
Qed.

(** ** Owner leases *)

Definition considered_alive (k : Z → bool) (hostname : string) (ex : OwnerRecord) : bool :=
  let oldPid := ownerPidOf (own_ownerId ex) in
  if bool_decide (own_hostname ex = hostname) && bool_decide (0 < oldPid)%Z then k oldPid else true.

(** A live, unexpired owner cannot be displaced without [force]. *)
Theorem live_owner_not_displaced k now dom ownerId hostname ttl s ex :
  inTransaction s = false → find_owner dom (db s) = Some ex → own_ownerId ex ≠ ownerId →
  date_le (own_expiresAt ex) now = false → considered_alive k hostname ex = true →
  acquireOwnerLease k now dom ownerId hostname ttl false s
  = (Throw (DomainLockedError dom (ownerPidOf (own_ownerId ex)) (own_heartbeatAt ex)), s).
Proof.
  intros Htx Hex Hne Hexp Halive. unfold acquireOwnerLease. rewrite transaction_run //.
  unfold getOwner. autorewrite with xio_run. cbn [db]. rewrite Hex.
  rewrite bool_decide_false // Hexp /=. unfold considered_alive in Halive.
  destruct s as [d e t]. simpl in *. subst t.
  destruct (_ && _); [rewrite Halive|]; done.
Qed.

Lemma acquire_facts k now dom ownerId hostname ttl force s rec s' :
  inTransaction s = false →
  acquireOwnerLease k now dom ownerId hostname ttl force s = (Ok rec, s') →
  find_owner dom (db s') = Some rec ∧ own_ownerId rec = ownerId ∧
  own_expiresAt rec = Iso (now + ttl) ∧ currentEpoch s' = Some (own_epoch rec) ∧
  fencing_error dom s' = None ∧
  (∀ ex, find_owner dom (db s) = Some ex → own_ownerId ex ≠ ownerId → (own_epoch ex < own_epoch rec)%Z).
Proof.
  intros Htx. unfold acquireOwnerLease. rewrite transaction_run //. unfold getOwner.
  autorewrite with xio_run. cbn [db]. intros Hrun.
  enough (find_owner dom (db s') = Some rec ∧ own_ownerId rec = ownerId ∧
    own_expiresAt rec = Iso (now + ttl) ∧ currentEpoch s' = Some (own_epoch rec) ∧
    (∀ ex, find_owner dom (db s) = Some ex → own_ownerId ex ≠ ownerId →
      (own_epoch ex < own_epoch rec)%Z)) as (Ho&?&?&He&?).
  { split_and!; try done. unfold fencing_error. by rewrite He Ho bool_decide_true. }
  destruct (find_owner dom (db s)) as [ex|] eqn:Hex.
  - pose proof Hex as Hdom. unfold find_owner in Hdom. apply find_some in Hdom as [_ Hdom].
    apply bool_decide_eq_true in Hdom.
    case_bool_decide as Hown; [|destruct (_ || _) in Hrun]; autorewrite with xio_run in Hrun;
      simpl in Hrun; simplify_eq; simpl; split_and!; try done;
      try (unfold find_owner; simpl; (rewrite find_update_where; [|done]);
        unfold find_owner in Hex; rewrite Hex /=; by rewrite !bool_decide_true).
    all: intros ex' [= <-] Hne; by [congruence|lia].
  - autorewrite with xio_run in Hrun. simpl in Hrun. simplify_eq. simpl. split_and!; try done.
    unfold find_owner in *. simpl. by rewrite find_app Hex /= bool_decide_true.
Qed.

(** Whoever acquires owns: the row names it, the lease runs to now + ttl,
    its handle passes the fence, and its epoch is strictly above that of the
    owner it displaced. *)
Theorem acquire_makes_owner k now dom ownerId hostname ttl force s rec s' :
  inTransaction s = false →
  acquireOwnerLease k now dom ownerId hostname ttl force s = (Ok rec, s') →
  find_owner dom (db s') = Some rec ∧ own_ownerId rec = ownerId ∧
  own_expiresAt rec = Iso (now + ttl) ∧ currentEpoch s' = Some (own_epoch rec) ∧
  fencing_error dom s' = None ∧
  (∀ ex, find_owner dom (db s) = Some ex → own_ownerId ex ≠ ownerId → (own_epoch ex < own_epoch rec)%Z).
Proof. apply acquire_facts. Qed.

(** ** Completing a run *)

Lemma transaction_nested {A} (fn : SM A) s : inTransaction s = true → transaction fn s = fn s.
Proof. intros Ht. unfold transaction. by rewrite Ht. Qed.

Definition run_after (st : KernelRunStatus) (reason : option TerminationReason)
    (endedAt : option DateStr) (r : Run) : Run :=
  mkRun (run_id r) (run_taskId r) (run_domainId r) (run_owner r) st
    (nullish_opt reason (run_terminationReason r)) (run_startedAt r)
    (nullish_opt (or_undef_date endedAt) (run_endedAt r))
    (run_configSnapshotWhiteList r) (run_configSnapshot r).
Definition run_moved (id : string) (f : Run → Run) : Db → Db :=
  with_runs (update_where (λ r, bool_decide (run_id r = id)) f).

Lemma find_run_moved id f d :
  (∀ r, run_id (f r) = run_id r) → find_run id (run_moved id f d) = f <$> find_run id d.
Proof.
  intros Hf. unfold find_run, run_moved. simpl. rewrite find_update_where; [|intros r _; by rewrite Hf].
  destruct (List.find _ (db_runs d)) as [r|] eqn:Hr; simpl; [|done].
  apply find_some in Hr as [_ ->]. done.
Qed.

Lemma updateRunStatus_live now id st reason ended s r :
  inTransaction s = true → find_run id (db s) = Some r → fencing_error (run_domainId r) s = None →
  run_is_terminal (run_status r) = false → truthy_str (run_domainId r) = true →
  ∃ row, updateRunStatus now id st reason ended s
    = (Ok tt, mkStore (with_journal row (run_moved id (run_after st reason ended) (db s)))
        (currentEpoch s) true).
Proof.
  intros Ht Hr Hf Hterm Hdom. unfold updateRunStatus. rewrite transaction_nested //. unfold getRun.
  autorewrite with xio_run. rewrite Hr. autorewrite with xio_run. rewrite Hf Hterm.
  autorewrite with xio_run. cbn [db currentEpoch inTransaction].
  edestruct (simple_event_recorded now (run_domainId r) (Some id) None "RUN_STATUS_TRANSITION"
    (JObj [("status", JStr (run_status_name st));
           ("terminationReason", jopt (λ r, JStr (termination_reason_name r)) reason);
           ("endedAt", jopt JDate ended)]) (Iso now)
    (mkStore (run_moved id (run_after st reason ended) (db s)) (currentEpoch s) (inTransaction s)))
    as (row & Hrow & _); [..|unfold mbind at 1, ST_bind at 1; rewrite Hrow].
  - by rewrite (fencing_error_db _ s).
  - done.
  - by vm_compute.
  - done.
  - apply fields_forallb. field_tac.
  - done.
  - exists row. cbn [db currentEpoch inTransaction]. by rewrite Ht.
Qed.

(** The conditions [reportRunSucceeded] puts on the run. *)
Definition agents_settled (id : string) (r : Run) (d : Db) : bool :=
  match agent_statuses id (select_journal (run_domainId r) 0 d) with
  | Ok agents => forallb agent_settled agents.*2
  | Throw _ => false
  end.
Definition operations_settled (id : string) (d : Db) : bool :=
  forallb op_done (select_operations_by_run id d).
Definition some_indeterminate (id : string) (d : Db) : bool :=
  existsb op_indeterminate (select_operations_by_run id d).

Lemma find_existsb {A} (q : A → bool) l :
  existsb q l = match List.find q l with Some _ => true | None => false end.
Proof. induction l as [|x l IH]; simpl; [done|]. by destruct (q x). Qed.
Lemma existsb_negb {A} (p q : A → bool) l :
  (∀ x, p x = negb (q x)) → existsb p l = negb (forallb q l).
Proof. intros Hpq. induction l as [|x l IH]; simpl; [done|]. by rewrite IH Hpq negb_andb. Qed.

(** A live run is reported successful only if every agent journaled for
    it and every operation of it has settled; it becomes succeeded when no
    operation is indeterminate and indeterminate otherwise. In every other case
    the tables do not move. *)
Theorem reportRunSucceeded_spec now id s r :
  inTransaction s = false → find_run id (db s) = Some r → fencing_error (run_domainId r) s = None →
  run_is_terminal (run_status r) = false → truthy_str (run_domainId r) = true →
  ∃ o s', reportRunSucceeded now id s = (o, s') ∧
  if agents_settled id r (db s) && operations_settled id (db s)
  then o = Ok tt ∧ ∃ r', find_run id (db s') = Some r' ∧
    run_status r' = if some_indeterminate id (db s) then run_indeterminate else run_succeeded
  else is_ok o = false ∧ db s' = db s.
Proof.
  intros Ht Hr Hf Hterm Hdom. unfold reportRunSucceeded. rewrite transaction_run //.
  unfold getRun, getOperationsByRun, getJournalEvents. autorewrite with xio_run. cbn [db].
  rewrite Hr. autorewrite with xio_run. rewrite (fencing_error_db _ s) // Hf.
  set (s1 := mkStore (db s) (currentEpoch s) true).
  assert (∀ m : SM unit, (match run_status r with run_succeeded => mret tt
    | run_failed | run_cancelled | run_indeterminate => throw (Err "already finalized")
    | _ => m end) = m) as -> by by destruct (run_status r).
  autorewrite with xio_run. cbn [db s1].
  unfold agents_settled.
  destruct (agent_statuses id _) as [agents|e]; [|by do 2 eexists]. autorewrite with xio_run.
  rewrite (existsb_negb _ agent_settled); [|done].
  destruct (forallb agent_settled agents.*2); simpl negb; [|by do 2 eexists].
  autorewrite with xio_run. rewrite (existsb_negb _ op_done); [|done].
  rewrite -/(operations_settled id (db s)).
  destruct (operations_settled id (db s)); simpl negb; [|by do 2 eexists].
  unfold some_indeterminate. rewrite find_existsb.
  assert (∀ st reason, ∃ o s', (let '(o, s') := updateRunStatus now id st reason (Some (Iso now)) s1 in
    (o, mkStore (if is_ok o then db s' else db s) (currentEpoch s') false)) = (o, s') ∧
    o = Ok tt ∧ ∃ r', find_run id (db s') = Some r' ∧ run_status r' = st) as Hup.
  { intros st reason. destruct (updateRunStatus_live now id st reason (Some (Iso now)) s1 r)
      as [row ->]; try done. do 2 eexists. split; [done|]. split; [done|]. cbn [db is_ok].
    exists (run_after st reason (Some (Iso now)) r). split; [|done].
    change (find_run id (with_journal row ?d)) with (find_run id d).
    rewrite find_run_moved //. cbn [db s1]. by rewrite Hr. }
  destruct (List.find op_indeterminate _); apply Hup.
Qed.

(** ** Witnesses *)

Definition sample_handle : SqliteStore := mkStore db_work (Some 1%Z) false.

Lemma recordOperationResult_accepts_witness :
  ∃ row s', recordOperationResult 70 "op-2" sample_result true sample_handle = (Ok tt, s') ∧
    db s' = with_journal row (result_recorded "op-2" sample_result true (db sample_handle)) ∧
    je_type row = "OPERATION_RESULT_RECORDED" ∧ je_operation_id row = Some "op-2" ∧
    find_operation "op-2" (db s') =
      finish_op sample_result <$> find_operation "op-2" (db sample_handle) ∧
    (∀ l, l ∈ db_resource_leases (db s') ↔
      l ∈ db_resource_leases (db sample_handle) ∧ (true = true → lease_operationId l ≠ "op-2")).
Proof.
  destruct (find_operation "op-2" (db sample_handle)) as [op|] eqn:Ho; [|vm_compute in Ho; discriminate].
  apply (recordOperationResult_accepts 70 "op-2" sample_result true sample_handle op);
    [reflexivity| |exact Ho| |reflexivity].
  - exists op. split; [exact Ho|]. vm_compute in Ho. injection Ho as <-.
    vm_compute. by split_and!.
  - vm_compute in Ho. injection Ho as <-. reflexivity.
Defined.
Lemma recordOperationResult_rejects_witness :
  ∃ e s', recordOperationResult 70 "op-1" sample_result true sample_handle = (Throw e, s') ∧
    db s' = (db sample_handle).
Proof.
  apply (recordOperationResult_rejects 70 "op-1" sample_result true sample_handle);
    [reflexivity|].
  intros op Ho. right. left. vm_compute in Ho. injection Ho as <-. reflexivity.
Defined.
Lemma live_owner_not_displaced_witness :
  acquireOwnerLease alive 50 "dom" "owner-42" "other-host" 100 false sample_handle
  = (Throw (DomainLockedError "dom" 41 (Iso 0)), sample_handle).
Proof.
  destruct (find_owner "dom" (db sample_handle)) as [ex|] eqn:He; [|vm_compute in He; discriminate].
  pose proof (live_owner_not_displaced alive 50 "dom" "owner-42" "other-host" 100
    sample_handle ex eq_refl He) as Hlive.
  vm_compute in He. injection He as <-. apply Hlive; vm_compute; done.
Defined.
Lemma acquire_makes_owner_witness :
  ∃ rec s', acquireOwnerLease alive 500 "dom" "owner-42" "other-host" 100 false sample_handle
    = (Ok rec, s') ∧ own_epoch rec = 2%Z ∧ fencing_error "dom" s' = None.
Proof.
  destruct (acquireOwnerLease alive 500 "dom" "owner-42" "other-host" 100 false sample_handle)
    as [[rec|e] s'] eqn:Ha; [|vm_compute in Ha; discriminate].
  exists rec, s'. split; [reflexivity|].
  pose proof (acquire_makes_owner alive 500 "dom" "owner-42" "other-host" 100 false
    sample_handle rec s' eq_refl Ha) as (_ & _ & _ & _ & Hf & _).
  split; [|exact Hf]. vm_compute in Ha. injection Ha as <- _. reflexivity.
Defined.
Lemma reportRunSucceeded_spec_witness :
  ∃ o s', reportRunSucceeded 80 "run-1" sample_handle = (o, s') ∧
    is_ok o = false ∧ db s' = (db sample_handle).
Proof.
  destruct (find_run "run-1" (db sample_handle)) as [r|] eqn:Hr; [|vm_compute in Hr; discriminate].
  pose proof (reportRunSucceeded_spec 80 "run-1" sample_handle r eq_refl Hr) as Hspec.
  vm_compute in Hr. injection Hr as <-. apply Hspec; vm_compute; done.
Defined.
