(* ===== verification/Domain.v ===== *)
(** * Domain: the execution domain (src/src/domain.ts)

    The in-memory isolation state of the one process that owns a domain, next to
    its store handle. A method is a computation of [DM]; a promise handed to a
    waiter is its identifier in the queue, and [settled] lists the promises that
    were resolved or rejected, in order. A callback is interrogated when the code
    calls it: [cancelled i] is what the [isCancelled] of waiter [i] answers. *)

From S2P Require Import Prelude Types Events Encode Config Store Paths Capability.

Record WaitItem := mkWaitItem {
  wi_id : nat;
  wi_operationId : string;
  wi_resources : list string;
  wi_budget : option ResourceBudget;
  wi_startTime : Z;
  wi_maxWaitMs : Z;
}.

#[export] Instance WaitItem_eq_dec : EqDecision WaitItem.
Proof. solve_decision. Defined.

Record ExecutionDomain := mkDomain {
  dom_id : string;
  dom_store : SqliteStore;
  dom_lockHeld : bool; (* lockFd !== null *)
  dom_ownerRecord : OwnerRecord;
  dom_budget : option DomainBudget;
  inMemoryLockedResources : list (string * string);
  inMemoryAllocatedOps : list string;
  inMemoryBudgets : list (string * ResourceBudget);
  waitQueue : list WaitItem;
  dom_nextWait : nat; (* the next promise *)
  dom_settled : list (nat * outcome error unit);
  dom_heartbeat : bool; (* heartbeatInterval !== null *)
  isFenced : bool;
}.

Notation DM := (ST error ExecutionDomain).

(** ** Field updates *)

Definition set_store (s : SqliteStore) (d : ExecutionDomain) : ExecutionDomain :=
  mkDomain (dom_id d) s (dom_lockHeld d) (dom_ownerRecord d) (dom_budget d)
    (inMemoryLockedResources d) (inMemoryAllocatedOps d) (inMemoryBudgets d) (waitQueue d)
    (dom_nextWait d) (dom_settled d) (dom_heartbeat d) (isFenced d).
Definition set_owner (o : OwnerRecord) (d : ExecutionDomain) : ExecutionDomain :=
  mkDomain (dom_id d) (dom_store d) (dom_lockHeld d) o (dom_budget d)
    (inMemoryLockedResources d) (inMemoryAllocatedOps d) (inMemoryBudgets d) (waitQueue d)
    (dom_nextWait d) (dom_settled d) (dom_heartbeat d) (isFenced d).
Definition set_budget (b : option DomainBudget) (d : ExecutionDomain) : ExecutionDomain :=
  mkDomain (dom_id d) (dom_store d) (dom_lockHeld d) (dom_ownerRecord d) b
    (inMemoryLockedResources d) (inMemoryAllocatedOps d) (inMemoryBudgets d) (waitQueue d)
    (dom_nextWait d) (dom_settled d) (dom_heartbeat d) (isFenced d).
Definition set_isolation (locks : list (string * string)) (ops : list string)
    (budgets : list (string * ResourceBudget)) (d : ExecutionDomain) : ExecutionDomain :=
  mkDomain (dom_id d) (dom_store d) (dom_lockHeld d) (dom_ownerRecord d) (dom_budget d)
    locks ops budgets (waitQueue d)
    (dom_nextWait d) (dom_settled d) (dom_heartbeat d) (isFenced d).
Definition set_queue (q : list WaitItem) (d : ExecutionDomain) : ExecutionDomain :=
  mkDomain (dom_id d) (dom_store d) (dom_lockHeld d) (dom_ownerRecord d) (dom_budget d)
    (inMemoryLockedResources d) (inMemoryAllocatedOps d) (inMemoryBudgets d) q
    (dom_nextWait d) (dom_settled d) (dom_heartbeat d) (isFenced d).
Definition push_wait (mk : nat → WaitItem) (d : ExecutionDomain) : ExecutionDomain :=
  mkDomain (dom_id d) (dom_store d) (dom_lockHeld d) (dom_ownerRecord d) (dom_budget d)
    (inMemoryLockedResources d) (inMemoryAllocatedOps d) (inMemoryBudgets d)
    (waitQueue d ++ [mk (dom_nextWait d)])
    (S (dom_nextWait d)) (dom_settled d) (dom_heartbeat d) (isFenced d).
Definition set_settled (l : list (nat * outcome error unit)) (d : ExecutionDomain) : ExecutionDomain :=
  mkDomain (dom_id d) (dom_store d) (dom_lockHeld d) (dom_ownerRecord d) (dom_budget d)
    (inMemoryLockedResources d) (inMemoryAllocatedOps d) (inMemoryBudgets d) (waitQueue d)
    (dom_nextWait d) l (dom_heartbeat d) (isFenced d).
Definition set_flags (held heartbeat fenced : bool) (d : ExecutionDomain) : ExecutionDomain :=
  mkDomain (dom_id d) (dom_store d) held (dom_ownerRecord d) (dom_budget d)
    (inMemoryLockedResources d) (inMemoryAllocatedOps d) (inMemoryBudgets d) (waitQueue d)
    (dom_nextWait d) (dom_settled d) heartbeat fenced.

(** A call on [this.store]; the database of a closed domain is not open. *)
Definition on_store {A} (m : SM A) : DM A := λ d,
  if dom_lockHeld d then focus dom_store set_store m d
  else (Throw (Err "database is not open"), d).

(** [resolve] and [reject] of a waiter's promise. *)
Definition settle (id : nat) (o : outcome error unit) : DM unit :=
  modify (λ d, set_settled (dom_settled d ++ [(id, o)]) d).

Definition getEpoch (d : ExecutionDomain) : Z := own_epoch (dom_ownerRecord d).

Definition assertNotFenced : DM unit :=
  fenced ← gets isFenced;
  if fenced : bool then
    d ← get_state;
    owner ← on_store (getOwner (dom_id d));
    throw (EpochFencedError (dom_id d) (getEpoch d)
      (match owner with Some o => own_epoch o | None => -1 end)%Z)
  else mret tt.

(** ** Rebuilding the isolation barrier *)

Definition jstring (v : option jsval) : option string :=
  match v with Some (JStr s) => Some s | _ => None end.
(** [a ?? b] on payload values *)
Definition jnullish (v : option jsval) (w : option jsval) : option jsval :=
  match v with None | Some JUndef | Some JNull => w | Some x => Some x end.

Definition isolate_lease (acc : list (string * string) * list (string * ResourceBudget))
    (lease : ResourceLease) : list (string * string) * list (string * ResourceBudget) :=
  (jm_set acc.1 (lease_resourceId lease) (lease_operationId lease),
   match lease_budget lease with
   | Some b => jm_set acc.2 (lease_operationId lease) b
   | None => acc.2
   end).

Record Isolation := mkIsolation {
  iso_locks : list (string * string);
  iso_ops : list string;
  iso_budgets : list (string * ResourceBudget);
}.
Definition isolate_op (i : Isolation) (op : Operation) : Isolation :=
  {| iso_ops := js_add (iso_ops i) (op_id op);
     iso_locks := foldl (λ m res, jm_set m res (op_id op)) (iso_locks i) (op_requiredResources op);
     iso_budgets := match op_resourceBudget op with
       | Some b => jm_set (iso_budgets i) (op_id op) b
       | None => iso_budgets i
       end |}.

(** Unsettled workspace commits, from the [TX_] events of the journal. *)
Record TxScan := mkTxScan {
  tx_roots : list (string * (option jsval * option jsval));
  tx_pending : list (string * list string);
}.
Definition scan_tx (s : TxScan) (e : JournalRow) : outcome error TxScan :=
  let p := je_payload e in
  match startsWith (je_type e) "TX_", jstring (jfield p "txId") with
  | true, Some txId =>
      if bool_decide (je_type e = "TX_BEGUN") then
        Ok (mkTxScan (jm_set (tx_roots s) txId (jfield p "root", jfield p "forkRoot")) (tx_pending s))
      else if bool_decide (je_type e = "TX_COMMITTING") then
        let begun := jm_get (tx_roots s) txId in
        let target := jnullish (jfield p "root") (begun ≫= fst) in
        let source := jnullish (jfield p "sourceRoot") (begun ≫= snd) in
        match jstring target, jstring source with
        | Some target, Some source =>
            Ok (mkTxScan (tx_roots s) (jm_set (tx_pending s) txId (js_set [target; source])))
        | _, _ => Throw (Err "Workspace transaction has incomplete commit isolation evidence")
        end
      else if bool_decide (je_type e = "TX_COMMITTED") || bool_decide (je_type e = "TX_ABORTED") then
        Ok (mkTxScan (tx_roots s) (jm_delete (tx_pending s) txId))
      else Ok s
  | _, _ => Ok s
  end.
Fixpoint scan_txs (s : TxScan) (l : list JournalRow) : outcome error TxScan :=
  match l with
  | [] => Ok s
  | e :: l' => s' ← scan_tx s e; scan_txs s' l'
  end.

(** One root of a pending commit. *)
Definition isolate_root (owner root : string) : DM unit :=
  let resource := "workspace:write:" +:+ root in
  d ← get_state;
  match jm_get (inMemoryLockedResources d) resource with
  | Some existing =>
      throw_if (truthy_str existing && negb (bool_decide (existing = owner)))
        (ResourceConflictError resource existing owner 0)
  | None => mret tt
  end;;
  modify (λ d, set_isolation (jm_set (inMemoryLockedResources d) resource owner)
    (inMemoryAllocatedOps d) (inMemoryBudgets d) d).

(** One pending commit: its id must be free, its roots unlocked. *)
Definition isolate_tx (pending : string * list string) : DM unit :=
  let owner := pending.1 +:+ ":apply" in
  operation ← on_store (getOperation owner);
  match operation with
  | Some op => throw (DuplicateOperationError owner (op_status_name (op_status op)) (op_runId op))
  | None => mret tt
  end;;
  for_each pending.2 (isolate_root owner);;
  modify (λ d, set_isolation (inMemoryLockedResources d) (js_add (inMemoryAllocatedOps d) owner)
    (inMemoryBudgets d) d).

(** The isolation the leases and the unfinished operations of [dom] call for. *)
Definition base_isolation (dom : string) (db : Db) : Isolation :=
  let '(locks, budgets) := foldl isolate_lease ([], []) (select_leases dom db) in
  foldl isolate_op (mkIsolation locks [] budgets) (select_unfinished dom db).

Definition rebuildIsolationFromStore : DM unit :=
  modify (set_isolation [] [] []);;
  d ← get_state;
  i ← on_store (query (base_isolation (dom_id d)));
  modify (set_isolation (iso_locks i) (iso_ops i) (iso_budgets i));;
  events ← on_store (getJournalEvents (dom_id d) 0);
  scan ← lift (scan_txs (mkTxScan [] []) events);
  for_each (tx_pending scan) isolate_tx.

(** ** Allocation *)

Definition isResourceLocked (d : ExecutionDomain) (res : string) : bool :=
  jm_has (inMemoryLockedResources d) res.
Definition getResourceOwner (d : ExecutionDomain) (res : string) : option string :=
  jm_get (inMemoryLockedResources d) res.

Definition unfinished_ids (d : ExecutionDomain) : list string :=
  map op_id (select_unfinished (dom_id d) (db (dom_store d))).
Definition active_ids (d : ExecutionDomain) : list string :=
  foldl js_add (inMemoryAllocatedOps d) (unfinished_ids d).
Definition getActiveOperationIds : DM (list string) :=
  d ← get_state;
  unfinished ← on_store (getUnfinishedOperations (dom_id d));
  mret (foldl js_add (inMemoryAllocatedOps d) (map op_id unfinished)).

(** The first resource another operation holds. *)
Fixpoint first_held (locks : list (string * string)) (operationId : string) (resources : list string)
  : option (string * string) :=
  match resources with
  | [] => None
  | res :: rest =>
      match jm_get locks res with
      | Some existing =>
          if truthy_str existing && negb (bool_decide (existing = operationId))
          then Some (res, existing) else first_held locks operationId rest
      | None => first_held locks operationId rest
      end
  end.

(** [domainBudget && domainBudget.maxConcurrentOps] *)
Definition concurrency_cap (d : ExecutionDomain) : option Z :=
  dom_budget d ≫= λ b, or_undef_Z (maxConcurrentOps b).
Definition cap_holder (active : list string) : string :=
  match active with h :: _ => if truthy_str h then h else "domain-concurrency-cap"
  | [] => "domain-concurrency-cap" end.
Definition check_cap (operationId : string) (waited : Z) : DM (option error) :=
  cap ← gets concurrency_cap;
  match cap with
  | None => mret None
  | Some cap =>
      active ← getActiveOperationIds;
      if bool_decide (cap ≤ Z.of_nat (length active))%Z && negb (js_has active operationId)
      then mret (Some (ResourceConflictError "domain:max_concurrent_ops" (cap_holder active)
        operationId waited))
      else mret None
  end.

Definition diagnoseConflict (operationId : string) (resources : list string) (waited : Z) : DM error :=
  d ← get_state;
  match first_held (inMemoryLockedResources d) operationId resources with
  | Some (res, existing) => mret (ResourceConflictError res existing operationId waited)
  | None =>
      match List.find (λ res, existsb (λ item, negb (bool_decide (wi_operationId item = operationId))
              && js_has (wi_resources item) res) (waitQueue d)) resources with
      | Some res =>
          mret (ResourceConflictError res
            (match List.find (λ item, negb (bool_decide (wi_operationId item = operationId))
                 && js_has (wi_resources item) res) (waitQueue d) with
             | Some earlier => wi_operationId earlier | None => "" end) operationId waited)
      | None =>
          capped ← check_cap operationId waited;
          match capped with
          | Some e => mret e
          | None => mret (ResourceConflictError
              (match resources with r :: _ => if truthy_str r then r else "domain:resource"
               | [] => "domain:resource" end) "unknown" operationId waited)
          end
      end
  end.

(** What a granted allocation does to the isolation tables. *)
Definition grant (operationId : string) (resources : list string) (budget : option ResourceBudget)
    (d : ExecutionDomain) : ExecutionDomain :=
  set_isolation (foldl (λ m res, jm_set m res operationId) (inMemoryLockedResources d) resources)
    (js_add (inMemoryAllocatedOps d) operationId)
    (match budget with Some b => jm_set (inMemoryBudgets d) operationId b | None => inMemoryBudgets d end) d.

Definition allocateResources (operationId : string) (resources : list string) (waited : Z)
    (budget : option ResourceBudget) : DM unit :=
  assertNotFenced;;
  locks ← gets inMemoryLockedResources;
  match first_held locks operationId resources with
  | Some (res, existing) => throw (ResourceConflictError res existing operationId waited)
  | None =>
      capped ← check_cap operationId waited;
      match capped with
      | Some e => throw e
      | None => modify (grant operationId resources budget)
      end
  end.

(** ** The wait queue *)

(** What [allocateResourcesWithWait] answers: a settled promise, or the promise
    of a queued waiter. *)
Inductive WaitAnswer := answered | queued (id : nat).

Definition overlaps (resources reserved : list string) : bool := existsb (js_has reserved) resources.

Definition enqueue (now : Z) (operationId : string) (resources : list string) (maxWaitMs : Z)
    (budget : option ResourceBudget) : DM WaitAnswer :=
  id ← gets dom_nextWait;
  modify (push_wait (λ id, mkWaitItem id operationId resources budget now maxWaitMs));;
  mret (queued id).

Definition allocateResourcesWithWait (now : Z) (cancelledNow : bool) (operationId : string)
    (resources : list string) (maxWaitMs : Z) (budget : option ResourceBudget) : DM WaitAnswer :=
  assertNotFenced;;
  if cancelledNow then mret answered
  else
    queue ← gets waitQueue;
    if negb (overlaps resources (concat (map wi_resources queue))) then
      try_catch (allocateResources operationId resources 0 budget;; mret answered)
        (λ err, if is_conflict err && bool_decide (0 < maxWaitMs)%Z
                then enqueue now operationId resources maxWaitMs budget else throw err)
    else if bool_decide (maxWaitMs ≤ 0)%Z then
      err ← diagnoseConflict operationId resources 0; throw err
    else enqueue now operationId resources maxWaitMs budget.

Definition remove_wait (id : nat) (q : list WaitItem) : list WaitItem :=
  List.filter (λ item, negb (bool_decide (wi_id item = id))) q.

(** The timer of waiter [id]; it was cleared if the promise is settled. *)
Definition waitTimeout (now : Z) (cancelled : nat → bool) (id : nat) : DM unit :=
  queue ← gets waitQueue;
  match List.find (λ item, bool_decide (wi_id item = id)) queue with
  | None => mret tt
  | Some item =>
      modify (set_queue (remove_wait id queue));;
      if cancelled id then settle id (Ok tt)
      else
        err ← diagnoseConflict (wi_operationId item) (wi_resources item) (now - wi_startTime item);
        settle id (Throw err)
  end.

Definition cancelWait (operationId : string) : DM bool :=
  queue ← gets waitQueue;
  match List.find (λ item, bool_decide (wi_operationId item = operationId)) queue with
  | None => mret false
  | Some item => modify (set_queue (remove_wait (wi_id item) queue));; settle (wi_id item) (Ok tt);; mret true
  end.

(** The [while] loop of [processWaitQueue]; the result is what stays queued.
    [allocateResources] does not read the queue. *)
Definition is_cap_conflict (e : error) : bool :=
  match e with
  | ResourceConflictError res _ _ _ => bool_decide (res = "domain:max_concurrent_ops")
  | _ => false
  end.
Fixpoint process_items (now : Z) (cancelled : nat → bool) (items : list WaitItem)
    (reserved : list string) (blocked : bool) : DM (list WaitItem) :=
  match items with
  | [] => mret []
  | item :: rest =>
      let keep reserved' blocked' :=
        kept ← process_items now cancelled rest reserved' blocked'; mret (item :: kept) in
      let reserved' := foldl js_add reserved (wi_resources item) in
      if cancelled (wi_id item) then
        settle (wi_id item) (Ok tt);; process_items now cancelled rest reserved blocked
      else if overlaps (wi_resources item) reserved || blocked then keep reserved' blocked
      else
        r ← try_catch (allocateResources (wi_operationId item) (wi_resources item)
              (now - wi_startTime item) (wi_budget item);; mret None) (λ e, mret (Some e));
        match r with
        | None => settle (wi_id item) (Ok tt);; process_items now cancelled rest reserved blocked
        | Some err =>
            if is_conflict err then keep reserved' (blocked || is_cap_conflict err)
            else settle (wi_id item) (Throw err);; process_items now cancelled rest reserved blocked
        end
  end.

Definition processWaitQueue (now : Z) (cancelled : nat → bool) : DM unit :=
  d ← get_state;
  if bool_decide (waitQueue d = []) || isFenced d then mret tt
  else
    kept ← process_items now cancelled (waitQueue d) [] false;
    modify (set_queue kept).

(** ** Release *)

Definition lock_unlock (res : string) (d : ExecutionDomain) : ExecutionDomain :=
  set_isolation (jm_delete (inMemoryLockedResources d) res) (inMemoryAllocatedOps d) (inMemoryBudgets d) d.
Definition forget_op (operationId : string) (d : ExecutionDomain) : ExecutionDomain :=
  set_isolation (inMemoryLockedResources d) (js_delete (inMemoryAllocatedOps d) operationId)
    (jm_delete (inMemoryBudgets d) operationId) d.

(** The resources given up, in order. *)
Fixpoint release_listed (operationId : string) (persisted : list string) (resources : list string)
  : DM (list string) :=
  match resources with
  | [] => mret []
  | res :: rest =>
      locks ← gets inMemoryLockedResources;
      if bool_decide (jm_get locks res = Some operationId) || js_has persisted res then
        modify (lock_unlock res);;
        on_store (releaseResourceLease operationId (Some res));;
        released ← release_listed operationId persisted rest;
        mret (res :: released)
      else release_listed operationId persisted rest
  end.

Definition internalReleaseResources (now : Z) (cancelled : nat → bool) (operationId : string)
    (resources : option (list string)) : DM unit :=
  assertNotFenced;;
  d ← get_state;
  on_store (verifyEpochFencing (dom_id d));;
  releasedList ← match resources with
    | Some ((_ :: _) as resources) =>
        leases ← on_store (getPersistedResourceLeases (dom_id d));
        let persisted := js_set (map lease_resourceId
          (List.filter (λ l, bool_decide (lease_operationId l = operationId)) leases)) in
        release_listed operationId persisted resources
    | _ =>
        let mine := List.filter (λ p, bool_decide (p.2 = operationId)) (inMemoryLockedResources d) in
        modify (λ d, foldl (λ d res, lock_unlock res d) d mine.*1);;
        on_store (releaseResourceLease operationId None);;
        mret mine.*1
    end;
  locks ← gets inMemoryLockedResources;
  when (negb (js_has locks.*2 operationId)) (modify (forget_op operationId));;
  on_store (recordEventAndTransitionState now (simple_event (dom_id d) None (Some operationId)
    "RESOURCES_RELEASED"
    (JObj [("operationId", JStr operationId); ("resources", js_strings releasedList);
           ("releaseReason", JStr "kernel_release")]) (Iso now)));;
  processWaitQueue now cancelled.

(** ** Adjudication *)

(** What the operating system and the driver answer: is a pid (or, negated, a
    group) alive, and the members of a group, if the driver can list them. *)
Record Probes := mkProbes {
  probeAlive : Z → bool;
  groupEvidence : option (Z → outcome string (list Z));
}.
Definition js_push (l : list Z) (p : Z) : list Z := if bool_decide (p ∈ l) then l else l ++ [p].

(** The residual pids and whether the scan of the group failed. *)
Definition residual_scan (probes : Probes) (identity : option ProcessIdentity) : list Z * bool :=
  let p := identity ≫= λ i, or_undef_Z (Some (pid i)) in
  let own := match p with Some p => if probeAlive probes p then [p] else [] | None => [] end in
  match identity ≫= pgid with
  | None => (own, false)
  | Some g =>
      match groupEvidence probes with
      | Some evidence =>
          match evidence g with
          | Ok members => (foldl js_push own members, false)
          | Throw _ => (own, true)
          end
      | None =>
          (match p with
           | Some p => if probeAlive probes (- g) then js_push own p else own
           | None => own
           end, false)
      end
  end.

Definition with_adjudication (r : OperationResult) (record : AdjudicationRecord) : OperationResult :=
  mkOperationResult (res_base r)
    (match res_body r with
     | RIndeterminate i => RIndeterminate (mkIndeterminateResult (ir_terminationReason i)
         (ir_resourceSamplingError i) (ir_reason i) (ir_recoveryGuidance i) (Some record))
     | body => body
     end).

Definition adjudicate (now : Z) (cancelled : nat → bool) (probes : Probes) (opId : string)
    (verdict : AdjudicationVerdict) (actor : string) (note : option string)
    (decision : option AdjudicationDecision) (evidence : option string) : DM AdjudicationRecord :=
  assertNotFenced;;
  d ← get_state;
  on_store (verifyEpochFencing (dom_id d));;
  op ← on_store (getOperation opId);
  match op with
  | None => throw (Err "Operation not found")
  | Some op =>
      match op_result op with
      | Some result =>
          if op_done op && is_indeterminate result then
            let '(residualPids, scanFailed) := residual_scan probes (op_processIdentity op) in
            throw_if (bool_decide (verdict = confirmed_stopped_verdict) && scanFailed)
              (Err "Cannot adjudicate: residual scan failed");;
            throw_if (bool_decide (verdict = confirmed_stopped_verdict)
                && negb (bool_decide (residualPids = [])))
              (Err "Cannot adjudicate: residual processes are still alive");;
            let record := {| adj_operationId := opId; adj_verdict := verdict; adj_decision := decision;
              adj_actor := actor; adj_note := note; adj_evidence := evidence;
              adj_residualPids := if bool_decide (residualPids = []) then None else Some residualPids;
              adj_decidedAt := Iso now |} in
            on_store (recordEventAndTransitionState now (simple_event (dom_id d) (Some (op_runId op))
              (Some opId) "OPERATION_ADJUDICATED"
              (JObj (adjudication_fields record ++
                [("processIdentity", jopt js_identity (op_processIdentity op))])) (Iso now)));;
            on_store (updateOperationResult opId (with_adjudication result record));;
            internalReleaseResources now cancelled opId (Some (op_requiredResources op));;
            mret record
          else throw (Err "Cannot adjudicate: status must be indeterminate")
      | None => throw (Err "Cannot adjudicate: status must be indeterminate")
      end
  end.

(** ** Run completion, intents *)

Definition dom_reportRunCancelled (now : Z) (runId : string) (reason : TerminationReason) : DM unit :=
  assertNotFenced;; on_store (reportRunCancelled now runId reason).
Definition dom_reportRunSucceeded (now : Z) (runId : string) : DM unit :=
  assertNotFenced;; on_store (reportRunSucceeded now runId).
Definition dom_reportRunFailed (now : Z) (runId : string) (reason : TerminationReason) : DM unit :=
  assertNotFenced;; on_store (reportRunFailed now runId reason).

Definition assertOperationIdAvailable (opId : string) : DM unit :=
  assertNotFenced;;
  existing ← on_store (getOperation opId);
  allocated ← gets inMemoryAllocatedOps;
  throw_if (negb (is_undef existing) || js_has allocated opId)
    (DuplicateOperationError opId
      (match existing with Some o => op_status_name (op_status o) | None => "allocated" end)
      (match existing with Some o => op_runId o | None => "unknown" end)).

Section Intents.
Context `{Crypto}.

Definition dom_registerOperationIntent (now : Z) (cancelled : nat → bool) (op : Operation) : DM unit :=
  assertOperationIdAvailable (op_id op);;
  allocateResources (op_id op) (op_requiredResources op) 0 (op_resourceBudget op);;
  d ← get_state;
  try_catch (on_store (registerOperationIntent now op (dom_id d)))
    (λ err, internalReleaseResources now cancelled (op_id op) (Some (op_requiredResources op));; throw err).
End Intents.

(** ** Heartbeat and close *)

(** [renewHeartbeat]; the interval callback is the same without the rethrow. *)
Definition renewHeartbeat (kill0 : Z → bool) (now : Z) (hostname : string) : DM unit :=
  d ← get_state;
  try_catch
    (if dom_lockHeld d then
       owner ← on_store (acquireOwnerLease kill0 now (dom_id d) (own_ownerId (dom_ownerRecord d))
         hostname 60000 false);
       modify (set_owner owner)
     else mret tt)
    (λ err,
      modify (λ d, set_flags (dom_lockHeld d) false true d);;
      try_ignore (on_store fence);;
      throw err).
Definition heartbeatTick (kill0 : Z → bool) (now : Z) (hostname : string) : DM unit :=
  try_ignore (renewHeartbeat kill0 now hostname).

Definition close : DM unit :=
  queue ← gets waitQueue;
  for_each queue (λ item, settle (wi_id item) (Throw (Err "Domain closed while waiting for resources")));;
  modify (set_queue []);;
  d ← get_state;
  try_ignore (on_store (releaseOwnerLease (dom_id d) (own_ownerId (dom_ownerRecord d))));;
  modify (λ d, set_flags false false (isFenced d) d).

(** ** Acquiring a domain *)

Record DomainLockMetadata := mkLockMetadata {
  lock_domainId : string;
  lock_ownerPid : Z;
  lock_acquiredAt : DateStr;
  lock_hostname : string;
}.
(** The file domain.lock; unreadable content is [lock_corrupt]. *)
Inductive LockFile := lock_absent | lock_corrupt | lock_file (meta : DomainLockMetadata).

(** The domain directory: its lock file and its database ([None]: no file). *)
Record DomainDir := mkDomainDir {
  dir_lock : LockFile;
  dir_db : option Db;
}.

(** The process that calls [acquire]. *)
Record Process := mkProcess {
  proc_pid : Z;
  proc_hostname : string;
  proc_ownerId : string; (* owner-<pid>-<now> *)
}.

Definition lease_expired (now : Z) (domainId : string) (db : option Db) : bool :=
  match db ≫= find_owner domainId with
  | Some owner => date_lt (own_expiresAt owner) now
  | None => false
  end.

(** The lock file another acquisition left, if it forbids this one. *)
Definition lock_refusal (kill0 : Z → bool) (now : Z) (domainId : string) (dir : DomainDir)
  : option error :=
  match dir_lock dir with
  | lock_file meta =>
      if kill0 (lock_ownerPid meta) && negb (lease_expired now domainId (dir_db dir))
      then Some (DomainLockedError (lock_domainId meta) (lock_ownerPid meta) (lock_acquiredAt meta))
      else None
  | _ => None
  end.

(** The constructor: the owner lease, then the isolation barrier. *)
Definition construct (kill0 : Z → bool) (now : Z) (p : Process) (domainId : string) (db : Db)
  : outcome error unit * ExecutionDomain :=
  let '(o, s) := acquireOwnerLease kill0 now domainId (proc_ownerId p) (proc_hostname p) 60000 false
    (mkStore db None false) in
  match o with
  | Ok owner => rebuildIsolationFromStore
      (mkDomain domainId s true owner None [] [] [] [] 0 [] false false)
  | Throw e => (Throw e, mkDomain domainId s true
      (mkOwnerRecord "" "" 0 (Iso 0) (Iso 0) "") None [] [] [] [] 0 [] false false)
  end.

(** [ExecutionDomain.acquire(domainPath, domainId)] *)
Definition acquire (kill0 : Z → bool) (now : Z) (p : Process) (domainId : string) (dir : DomainDir)
  : outcome error ExecutionDomain * DomainDir :=
  match lock_refusal kill0 now domainId dir with
  | Some e => (Throw e, dir)
  | None =>
      let meta := mkLockMetadata domainId (proc_pid p) (Iso now) (proc_hostname p) in
      match construct kill0 now p domainId (default empty_db (dir_db dir)) with
      | (Ok _, d) =>
          (Ok (set_flags true true (isFenced d) d), mkDomainDir (lock_file meta) (Some (db (dom_store d))))
      | (Throw e, d) => (Throw e, mkDomainDir lock_absent (Some (db (dom_store d))))
      end
  end.

(** [close], with the removal of a lock file that names this process. *)
Definition close_dir (p : Process) (d : ExecutionDomain) (lock : LockFile) : ExecutionDomain * DomainDir :=
  let d' := (close d).2 in
  let lock' := match lock with
    | lock_file meta => if bool_decide (lock_ownerPid meta = proc_pid p) then lock_absent else lock
    | _ => lock
    end in
  (d', mkDomainDir lock' (Some (db (dom_store d')))).
