(* ===== verification/Authority.v ===== *)
(** * Authority: issuing, attenuating and revoking capabilities (src/src/domain.ts)

    The capability methods of [ExecutionDomain]. The random suffix of a new
    identifier is an argument; the several reads of the clock in one call are one
    instant. *)

From S2P Require Import Prelude Types Events Encode Config Store Paths Capability Domain.

Definition js_scope (s : CapabilityScope) : jsval :=
  JObj [("write", js_strings (cs_write s)); ("exclusive", js_strings (cs_exclusive s));
        ("opcodes", js_strings (cs_opcodes s)); ("workspaces", js_strings (cs_workspaces s));
        ("paths", js_strings (cs_paths s)); ("secrets", js_strings (cs_secrets s))].
Definition js_limits (l : CapabilityLimits) : jsval :=
  JObj [("cpuMs", JZ (cl_cpuMs l)); ("memoryBytes", JZ (cl_memoryBytes l));
        ("outputBytes", JZ (cl_outputBytes l)); ("concurrentOps", JZ (cl_concurrentOps l));
        ("processes", JZ (cl_processes l))].

(** [if (this.isFenced) throw new EpochFencedError(...)] *)
Definition refuse_fenced : DM unit :=
  d ← get_state;
  throw_if (isFenced d) (EpochFencedError (dom_id d) (getEpoch d) (getEpoch d)).

(** ** Issuing *)

Record CapabilityIssueRequest := mkIssueRequest {
  ir_scope : CapabilityScopeInput;
  ir_issuer : string;
  ir_policyVersion : string;
  ir_reason : string;
  ir_limits : PartialLimits;
  ir_ttlMs : option Z;
  ir_expiresAt : option DateStr;
  ir_parentId : option string; (* no method reads it *)
}.
(** The two call forms of [issueCapability]. *)
Inductive IssueCall :=
| issue_request (request : CapabilityIssueRequest)
| issue_legacy (scope : CapabilityScopeInput) (actor : option string) (ttlMs : option Z).

Definition issue_issuer (c : IssueCall) : option string :=
  match c with issue_request r => Some (ir_issuer r) | issue_legacy _ actor _ => actor end.
Definition issue_expiresAt (now : Z) (c : IssueCall) : DateStr :=
  match c with
  | issue_request r => match ir_expiresAt r with
      | Some d => d | None => Iso (now + nullish (ir_ttlMs r) 60000%Z) end
  | issue_legacy _ _ ttl => Iso (now + nullish ttl 60000%Z)
  end.
Definition issue_scope (c : IssueCall) : CapabilityScopeInput :=
  match c with issue_request r => ir_scope r | issue_legacy scope _ _ => scope end.
Definition issue_limits (c : IssueCall) : option PartialLimits :=
  match c with issue_request r => Some (ir_limits r) | issue_legacy _ _ _ => None end.
Definition issue_prefix (c : IssueCall) : string :=
  match c with issue_request _ => "cap:" | issue_legacy _ _ _ => "cap-" end.
Definition issue_policyVersion (c : IssueCall) : string :=
  match c with issue_request r => ir_policyVersion r | issue_legacy _ _ _ => "legacy/0" end.
Definition issue_reason (c : IssueCall) : string :=
  match c with issue_request r => ir_reason r | issue_legacy _ _ _ => "legacy-capability" end.

(** Recording a capability, then its event: two writes, no transaction. *)
Definition store_capability (now : Z) (cap : Capability) (type : string) (fields : list (string * jsval))
  : DM unit :=
  d ← get_state;
  on_store (recordCapability cap);;
  on_store (recordJournalEvent now (simple_event (dom_id d) None None type (JObj fields)
    (cap_createdAt cap)));;
  mret tt.

(** The fields both events end with. *)
Definition authority_fields (actor : string) (cap : Capability) : list (string * jsval) :=
  [("actor", JStr actor); ("issuer", JStr (cap_issuer cap));
   ("policyVersion", JStr (cap_policyVersion cap)); ("reason", JStr (cap_reason cap));
   ("scope", js_scope (cap_scope cap)); ("limits", js_limits (cap_limits cap));
   ("expiresAt", JDate (cap_expiresAt cap)); ("epoch", JZ (cap_epoch cap))].

Section Authority.
Context `{FileSystem}.

Definition issueCapability (now : Z) (suffix : string) (call : IssueCall) : DM Capability :=
  refuse_fenced;;
  d ← get_state;
  match or_undef (issue_issuer call) with
  | None => throw (TypeErr "Capability issuer is required")
  | Some issuer =>
      let expiresAt := issue_expiresAt now call in
      throw_if (match getTime expiresAt with Some ms => bool_decide (ms ≤ now)%Z | None => true end)
        (TypeErr "Capability expiration must be a future ISO timestamp");;
      let scope := normalizeScope (issue_scope call) in
      limits ← lift (normalizeCapabilityLimits DEFAULT_CAPABILITY_LIMITS (issue_limits call));
      let cap := {| cap_id := issue_prefix call +:+ suffix; cap_domainId := dom_id d;
        cap_scope := scope; cap_issuer := issuer;
        cap_policyVersion := issue_policyVersion call; cap_reason := issue_reason call;
        cap_limits := limits; cap_expiresAt := expiresAt; cap_parentId := None;
        cap_epoch := getEpoch d; cap_createdAt := Iso now; cap_revokedAt := None |} in
      store_capability now cap "CAPABILITY_ISSUED"
        (("capabilityId", JStr (cap_id cap)) :: authority_fields issuer cap);;
      mret cap
  end.

(** ** Attenuation *)

Record AttenuateOptions := mkAttenuateOptions {
  at_ttlMs : option Z;
  at_policyVersion : option string;
  at_reason : option string;
  at_limits : option PartialLimits;
}.

(** The tests on the parent, before its own chain is walked. *)
Definition parent_violation (now epoch : Z) (parent : Capability) : option ViolationReason :=
  if negb (bool_decide (cap_epoch parent = epoch)) then Some v_epoch_mismatch
  else if negb (is_undef (cap_revokedAt parent)) then Some v_revoked
  else if date_le (cap_expiresAt parent) now then Some v_expired
  else None.

(** [new Date(Math.min(requestedExpiry, parentExpiry)).toISOString()] *)
Definition child_expiry (now : Z) (parent : Capability) (options : AttenuateOptions) : outcome error DateStr :=
  match getTime (cap_expiresAt parent) with
  | None => Throw (Err "Invalid time value")
  | Some parentExpiry =>
      Ok (Iso (match at_ttlMs options with
        | None => parentExpiry | Some ttl => Z.min (now + ttl) parentExpiry end))
  end.

(** [None]: the walk up the parents has not ended within the fuel. *)
Definition attenuate (fuel : nat) (now : Z) (suffix capId : string) (narrowerScope : CapabilityScopeInput)
    (actor : string) (options : AttenuateOptions) : DM (option Capability) :=
  refuse_fenced;;
  d ← get_state;
  parent ← on_store (getCapability capId);
  match parent with
  | None => throw (CapabilityViolationError v_revoked)
  | Some parent =>
      match parent_violation now (getEpoch d) parent with
      | Some v => throw (CapabilityViolationError v)
      | None =>
          chain ← on_store (query (λ db, ancestor_violation fuel now (getEpoch d) db (cap_parentId parent)));
          match chain with
          | None => mret None
          | Some (Some v) => throw (CapabilityViolationError v)
          | Some None =>
              childScope ← lift (validateScopeNarrowing (cap_scope parent) narrowerScope);
              throw_if (match at_policyVersion options with
                  | Some pv => negb (bool_decide (pv = cap_policyVersion parent)) | None => false end)
                (CapabilityViolationError v_policy_mismatch);;
              childLimits ← lift (narrowCapabilityLimits (cap_limits parent) (at_limits options));
              childExpiresAt ← lift (child_expiry now parent options);
              let child := {|
                cap_id := (if startsWith (cap_id parent) "cap:" then "cap:" else "cap-") +:+ suffix;
                cap_domainId := dom_id d; cap_scope := childScope; cap_issuer := actor;
                cap_policyVersion := cap_policyVersion parent;
                cap_reason := nullish (at_reason options) "attenuation"; cap_limits := childLimits;
                cap_expiresAt := childExpiresAt; cap_parentId := Some (cap_id parent);
                cap_epoch := getEpoch d; cap_createdAt := Iso now; cap_revokedAt := None |} in
              store_capability now child "CAPABILITY_ATTENUATED"
                (("capabilityId", JStr (cap_id child)) :: ("parentId", JStr (cap_id parent))
                  :: authority_fields actor child);;
              mret (Some child)
          end
      end
  end.

(** ** Revocation, admission *)

Definition dom_revokeCapability (now : Z) (capId actor : string) : DM unit :=
  refuse_fenced;;
  d ← get_state;
  cap ← on_store (getCapability capId);
  match cap with
  | None => mret tt
  | Some _ =>
      on_store (revokeCapability capId (dom_id d) (Iso now));;
      on_store (recordJournalEvent now (simple_event (dom_id d) None None "CAPABILITY_REVOKED"
        (JObj [("capabilityId", JStr capId); ("actor", JStr actor); ("revokedAt", JDate (Iso now))])
        (Iso now)));;
      mret tt
  end.

(** The unfinished operations that already use the capability. *)
Definition capability_users (capabilityId : string) (opId : option string) (ops : list Operation)
  : list Operation :=
  List.filter (λ op, bool_decide (op_capabilityId op = Some capabilityId)
    && negb (bool_decide (Some (op_id op) = opId)) && negb (op_done op)) ops.
Definition runs_process (op : Operation) : bool :=
  bool_decide (op_kind op = op_process) || bool_decide (op_kind op = op_service).

Definition dom_checkCapabilityAdmission (fuel : nat) (now : Z) (capabilityId : string)
    (requiredResources mutationRoots : option (list string)) (opcode workspace : option string)
    (secretRefs : option (list string)) (requestedLimits : option PartialLimits)
    (policyVersion runId opId : option string) : DM (option CapabilityAdmissionResult) :=
  d ← get_state;
  ops ← on_store (getAllOperations (dom_id d));
  let active := capability_users capabilityId opId ops in
  on_store (checkCapabilityAdmission fuel now
    {| ao_domainId := dom_id d; ao_currentEpoch := getEpoch d; ao_capabilityId := capabilityId;
       ao_requiredResources := requiredResources; ao_mutationRoots := mutationRoots;
       ao_opcode := opcode; ao_workspace := workspace; ao_secretRefs := secretRefs;
       ao_requestedLimits := requestedLimits;
       ao_currentConcurrentOps := Some (Z.of_nat (length active));
       ao_currentProcesses := Some (Z.of_nat (length (List.filter runs_process active)));
       ao_policyVersion := policyVersion; ao_runId := runId; ao_opId := opId |}).
End Authority.
