(* ===== verification/Rollback.v ===== *)
(** * Rollback: the rollback protocol and what its result claims
    (src/src/supervisor/rollback.ts, snapshot/ignored-manifest.ts,
    supervisor/snapshot-ops.ts)

    The snapshot driver and the file system answer through arguments. *)

From S2P Require Import Prelude Types Events Encode Config Store Paths Capability Domain Authority.

(** ** The ignored-files manifest *)

(** Nanosecond times are decimal strings in the file; here, the integers. *)
Record IgnoredManifestEntry := mkIgnoredEntry {
  ie_path : string; ie_size : string; ie_mtimeNs : Z; ie_ctimeNs : Z; ie_mode : Z;
}.
Definition UTIMES_PRECISION_NS : Z := 1000.
Definition sameMtime (a b : Z) : bool := bool_decide (Z.abs (a - b) < UTIMES_PRECISION_NS)%Z.
Definition IGNORED_CHANGES_LIMIT : nat := 50.

Inductive IgnoredManifestState :=
| man_unchanged | man_changed | man_inconclusive | man_unreadable | man_absent.
#[export] Instance IgnoredManifestState_eq_dec : EqDecision IgnoredManifestState.
Proof. solve_decision. Defined.

Definition entry_modified (now old : IgnoredManifestEntry) : bool :=
  negb (bool_decide (ie_size now = ie_size old)) || negb (bool_decide (ie_mode now = ie_mode old))
  || negb (sameMtime (ie_mtimeNs now) (ie_mtimeNs old)).

Record ManifestDiff := mkManifestDiff {
  md_current : list (string * IgnoredManifestEntry);
  md_removed : list string; md_modified : list string; md_metadataOnly : list string;
}.
Definition diff_entry (d : ManifestDiff) (old : IgnoredManifestEntry) : ManifestDiff :=
  match jm_get (md_current d) (ie_path old) with
  | None => mkManifestDiff (md_current d) (md_removed d ++ [ie_path old]) (md_modified d) (md_metadataOnly d)
  | Some now =>
      let current := jm_delete (md_current d) (ie_path old) in
      if entry_modified now old
      then mkManifestDiff current (md_removed d) (md_modified d ++ [ie_path old]) (md_metadataOnly d)
      else if negb (bool_decide (ie_ctimeNs now = ie_ctimeNs old))
      then mkManifestDiff current (md_removed d) (md_modified d) (md_metadataOnly d ++ [ie_path old])
      else mkManifestDiff current (md_removed d) (md_modified d) (md_metadataOnly d)
  end.

Definition diffIgnoredEntries (before after : list IgnoredManifestEntry)
  : IgnoredManifestState * option IgnoredChanges :=
  let current := foldl (λ m e, jm_set m (ie_path e) e) [] after in
  let d := foldl diff_entry (mkManifestDiff current [] [] []) before in
  let added := (md_current d).*1 in
  let count l := Z.of_nat (length (l : list string)) in
  let counts := (count added, count (md_removed d), count (md_modified d), count (md_metadataOnly d)) in
  let definite := length added + length (md_removed d) + length (md_modified d) in
  let over l := bool_decide (IGNORED_CHANGES_LIMIT < length (l : list string)) in
  if bool_decide (definite = 0) && bool_decide (length (md_metadataOnly d) = 0) then (man_unchanged, None)
  else (if bool_decide (0 < definite) then man_changed else man_inconclusive,
    Some (mkIgnoredChanges (take IGNORED_CHANGES_LIMIT added) (take IGNORED_CHANGES_LIMIT (md_removed d))
      (take IGNORED_CHANGES_LIMIT (md_modified d)) (take IGNORED_CHANGES_LIMIT (md_metadataOnly d))
      (over added || over (md_removed d) || over (md_modified d) || over (md_metadataOnly d)) counts)).

(** ** The coverage claim *)

Inductive RollbackEffects := eff_confined | eff_unconfined | eff_unverified.
#[export] Instance RollbackEffects_eq_dec : EqDecision RollbackEffects.
Proof. solve_decision. Defined.

Record RollbackCoverageFacts := mkCoverageFacts {
  rf_status : RollbackStatus;
  rf_effects : RollbackEffects;
  rf_snapshotCoverage : SnapshotCoverage;
  rf_ignoredManifest : IgnoredManifestState;
}.
Definition EFFECTS_BASIS (e : RollbackEffects) : string :=
  match e with
  | eff_confined => "all_ops_confined" | eff_unconfined => "unconfined_op_since_snapshot"
  | eff_unverified => "effects_unverified"
  end.
Definition MANIFEST_BASIS (m : IgnoredManifestState) : string :=
  match m with
  | man_unchanged => "ignored_manifest_unchanged" | man_changed => "ignored_manifest_changed"
  | man_inconclusive => "ignored_manifest_ctime_only" | man_unreadable => "ignored_manifest_unreadable"
  | man_absent => "ignored_not_captured"
  end.

Record CoverageClaim := mkCoverageClaim {
  cc_coverage : RollbackCoverage;
  cc_outOfScopeEffects : OutOfScopeEffects;
  cc_ignoredFiles : IgnoredFiles;
  cc_coverageBasis : list string;
}.

Definition deriveRollbackCoverage (facts : RollbackCoverageFacts) : CoverageClaim :=
  let fullTree := bool_decide (rf_snapshotCoverage facts = full_tree) in
  let ignoredFiles :=
    if fullTree then if bool_decide (rf_status facts = rb_failed) then ign_unverified else ign_restored
    else if bool_decide (rf_ignoredManifest facts = man_unchanged) then ign_unchanged_verified
    else ign_not_captured in
  let ignoredBasis := if fullTree then "snapshot_full_tree" else MANIFEST_BASIS (rf_ignoredManifest facts) in
  match rf_status facts with
  | rb_failed => mkCoverageClaim cov_none possible ignoredFiles ["fingerprint_mismatch"]
  | rb_partial => mkCoverageClaim cov_declared_roots possible ignoredFiles ["unrestored_paths"; ignoredBasis]
  | rb_restored =>
      let coverageBasis := [EFFECTS_BASIS (rf_effects facts); ignoredBasis] in
      if negb (bool_decide (rf_effects facts = eff_confined))
      then mkCoverageClaim cov_declared_roots possible ignoredFiles coverageBasis
      else mkCoverageClaim
        (if bool_decide (ignoredFiles = ign_not_captured) then cov_non_ignored else cov_complete)
        none_possible ignoredFiles coverageBasis
  end.

(** ** The facts the claim is derived from *)

Definition is_snapshot_or_rollback (op : Operation) : bool :=
  bool_decide (op_kind op = op_snapshot) || bool_decide (op_kind op = op_rollback).
(** [(op.result as { confined?: boolean }).confined]: only a process result has one. *)
Definition result_confined (r : OperationResult) : option bool :=
  match res_body r with RProcess p => pr_confined p | _ => None end.
Definition may_still_run (op : Operation) : bool :=
  negb (op_done op) || match op_result op with
    | Some r => is_indeterminate r && negb (bool_decide (result_confined r = Some true))
    | None => false
    end.

(** [Boolean(v)] of a JSON value *)
Definition jtruthy (v : jsval) : bool :=
  match v with
  | JUndef | JNull => false
  | JBool b => b
  | JStr s => truthy_str s
  | JDate d => truthy_date d
  | JNum n => match n with NumFin z => negb (bool_decide (z = 0%Z)) | NumNaN => false | _ => true end
  | _ => true
  end.

(** [v === true] *)
Definition is_true (o : option jsval) : bool := match o with Some (JBool b) => b | _ => false end.

Section Facts.
Context `{FileSystem}.

(** One result event since the snapshot. *)
Definition event_confined (targetRoots : list string) (db : Db) (e : JournalRow) : bool :=
  let storedOp := je_operation_id e ≫= λ id, find_operation id db in
  if match storedOp with Some op => is_snapshot_or_rollback op | None => false end then true
  else
    let res := match jfield (je_payload e) "result" with
      | Some r => if jtruthy r then r else je_payload e | None => je_payload e end in
    if negb (is_true (jfield res "confined")) then false
    else
      let opRoots := match storedOp with Some op => default [] (op_mutationRoots op) | None => [] end in
      forallb (λ opr, existsb (λ sr, isPathContained sr opr) targetRoots) opRoots.

Definition allEffectsConfinedToRoots (dom : string) (snapshot : SnapshotRef) (targetRoots : list string)
    (rollbackOpId : string) (db : Db) : bool :=
  if existsb (λ op, negb (bool_decide (op_id op = rollbackOpId)) && negb (is_snapshot_or_rollback op)
      && may_still_run op) (select_operations dom db) then false
  else
    let eventsSince := match snap_journalSeq snapshot with
      | Some seq => select_journal dom seq db | None => [] end in
    forallb (event_confined targetRoots db)
      (List.filter (λ e, bool_decide (je_type e = "OPERATION_RESULT_RECORDED")
        && negb (bool_decide (je_operation_id e = Some rollbackOpId))) eventsSince).

(** ** The roots must be quiescent *)

Record RootAlias := mkRootAlias { ra_root : string; ra_realRoot : string }.
Definition rootAliases (root : string) : RootAlias :=
  mkRootAlias root (nullish (fs_realpathSync root) root).
Definition writeRes (a : RootAlias) : string := "workspace:write:" +:+ ra_root a.
Definition writeResReal (a : RootAlias) : string := "workspace:write:" +:+ ra_realRoot a.

Definition touchesRoot (op : Operation) (a : RootAlias) : bool :=
  js_has (op_requiredResources op) (writeRes a) || js_has (op_requiredResources op) (writeResReal a)
  || existsb (λ mr, let resolved := render (resolve_path mr) in
       bool_decide (resolved = ra_root a) || bool_decide (resolved = ra_realRoot a))
     (default [] (op_mutationRoots op)).

Definition locked_conflict (aliases : list RootAlias) (opId : string) (d : ExecutionDomain) : option error :=
  (λ res, let owner := default "" (getResourceOwner d res) in
    ResourceConflictError res (if truthy_str owner then owner else "unknown") opId 0)
  <$> List.find (isResourceLocked d) (concat (map (λ a, [writeRes a; writeResReal a]) aliases)).
Definition operation_conflict (aliases : list RootAlias) (opId : string) (ops : list Operation) : option error :=
  (λ p, ResourceConflictError (writeRes p.2) (op_id p.1) opId 0)
  <$> List.find (λ p, touchesRoot p.1 p.2)
    (list_prod (List.filter (λ op, negb (bool_decide (op_id op = opId))) ops) aliases).
Definition lease_conflict (aliases : list RootAlias) (opId : string) (leases : list ResourceLease) : option error :=
  (λ p, ResourceConflictError (lease_resourceId p.1) (lease_operationId p.1) opId 0)
  <$> List.find (λ p, (bool_decide (lease_resourceId p.1 = writeRes p.2)
        || bool_decide (lease_resourceId p.1 = writeResReal p.2))
        && negb (bool_decide (lease_operationId p.1 = opId))) (list_prod leases aliases).
Definition throw_opt (e : option error) : DM unit := match e with Some e => throw e | None => mret tt end.

Definition assertRootsQuiescent (targetRoots : list string) (opId : string) : DM unit :=
  d ← get_state;
  let aliases := map rootAliases targetRoots in
  throw_opt (locked_conflict aliases opId d);;
  ops ← on_store (getUnfinishedOperations (dom_id d));
  throw_opt (operation_conflict aliases opId ops);;
  leases ← on_store (getPersistedResourceLeases (dom_id d));
  throw_opt (lease_conflict aliases opId leases).
End Facts.

(** ** Operations the kernel runs itself *)

Definition recordCapabilityUsed (now : Z) (runId opId capabilityId : string)
    (opcode workspace : option string) (secretRefs : option (list string))
    (capAdmission : CapabilityAdmissionResult) : DM unit :=
  d ← get_state;
  on_store (recordJournalEvent now (simple_event (dom_id d) (Some runId) (Some opId) "CAPABILITY_USED"
    (JObj [("capabilityId", JStr capabilityId);
           ("scope", js_scope (cap_scope (ar_capability capAdmission)));
           ("limits", js_limits (ar_effectiveLimits capAdmission));
           ("actor", JStr (cap_issuer (ar_capability capAdmission)));
           ("opcode", jopt JStr opcode); ("workspace", jopt JStr workspace);
           ("secretRefs", js_opt_strings secretRefs)]) (Iso now)));;
  mret tt.

Section Rollback.
Context `{Crypto} `{FileSystem}.

(** Intent, configuration binding, [active], and the use of the capability. *)
Definition activateInternalOperation (now : Z) (cancelled : nat → bool) (op : Operation)
    (capAdmission : option CapabilityAdmissionResult) : DM unit :=
  dom_registerOperationIntent now cancelled op;;
  match op_configSnapshot op with
  | Some c => on_store (bindRunConfigSnapshot (op_runId op) c)
  | None => mret tt
  end;;
  on_store (updateOperationStatus now (op_id op) st_active None None);;
  d ← get_state;
  on_store (recordEventAndTransitionState now (simple_event (dom_id d) (Some (op_runId op))
    (Some (op_id op)) "OPERATION_STATUS_TRANSITION" (JObj [("status", JStr "active")]) (Iso now)));;
  match or_undef (op_capabilityId op), capAdmission with
  | Some capabilityId, Some admission =>
      recordCapabilityUsed now (op_runId op) (op_id op) capabilityId
        (match op_kind op with
         | op_snapshot => Some "workspace.snapshot" | op_rollback => Some "workspace.rollback"
         | _ => None end) None None admission
  | _, _ => mret tt
  end.

Record RollbackOptions := mkRollbackOptions {
  ro_runId : string;
  ro_opId : string;
  ro_snapshotId : string;
  ro_roots : option (list string);
  ro_capabilityId : option string;
  ro_capabilityWorkspace : option string;
  ro_force : option bool;
  ro_removeNewIgnored : option bool;
  ro_timeoutMs : option Z;
}.

(** What the snapshot driver answers to this rollback: [restore] gives the paths
    it could not restore and the new ignored files it kept; [fingerprint] the
    tree it finds afterwards. [manifestBefore] is the manifest the snapshot
    recorded, when its digest matches; [listIgnored] the ignored files now, when
    the driver can list them. *)
Record SnapshotDriverAnswers := mkSnapshotDriverAnswers {
  sd_name : string;
  sd_restore : outcome error (list string * option (list string));
  sd_fingerprint : outcome error string;
  manifestBefore : option (list IgnoredManifestEntry);
  listIgnored : option (outcome error (list IgnoredManifestEntry));
}.

Definition compareIgnoredManifest (driver : SnapshotDriverAnswers) (snapshot : SnapshotRef)
  : outcome error (IgnoredManifestState * option IgnoredChanges) :=
  match or_undef (snap_ignoredManifestDigest snapshot) with
  | None => Ok (man_absent, None)
  | Some _ =>
      match manifestBefore driver, listIgnored driver with
      | Some before, Some after => after ← after; Ok (diffIgnoredEntries before after)
      | _, _ => Ok (man_unreadable, None)
      end
  end.

(** The identity of a platform driver, for the configuration snapshot. *)
Record DriverFacts := mkDriverFacts {
  df_name : string; df_version : option string; df_capabilities : list (string * jsval);
}.

Definition rollback_operation (now : Z) (driver : DriverFacts) (sd : SnapshotDriverAnswers)
    (o : RollbackOptions) (targetRoots : list string) (cap : option CapabilityAdmissionResult) : Operation :=
  {| op_id := ro_opId o; op_runId := ro_runId o; op_domainId := ""; op_kind := op_rollback;
     op_name := "rollback:" +:+ ro_snapshotId o;
     op_inputFingerprint := sha256_json (JObj [("kind", JStr "rollback");
       ("snapshotId", JStr (ro_snapshotId o)); ("targetRoots", js_strings targetRoots);
       ("capabilityId", match ro_capabilityId o with Some c => JStr c | None => JNull end)]);
     op_requiredResources := map (λ r, "workspace:write:" +:+ r) targetRoots;
     op_mutationRoots := Some targetRoots; op_capabilityId := ro_capabilityId o;
     op_timeoutMs := ro_timeoutMs o; op_resourceBudget := None; op_spawnGated := None;
     op_recoveryEvidence := None;
     op_configSnapshot := Some (createRequestConfigSnapshot now {|
       rci_driverName := df_name driver; rci_driverCapabilities := df_capabilities driver;
       rci_capabilityId := ro_capabilityId o;
       rci_capabilityPolicyVersion := cap_policyVersion ∘ ar_capability <$> cap;
       rci_driverVersion := df_version driver;
       rci_config := [("kind", JStr "workspace.rollback"); ("snapshotId", JStr (ro_snapshotId o));
         ("roots", js_strings targetRoots); ("force", JBool (nullish (ro_force o) false));
         ("removeNewIgnored", JBool (nullish (ro_removeNewIgnored o) false));
         ("timeoutMs", jopt JZ (ro_timeoutMs o)); ("snapshotDriver", JStr (sd_name sd))];
       rci_retentionVersion := None; rci_redactionVersion := None |});
     op_outputRef := Some (ro_snapshotId o); op_status := st_intent_registered;
     op_result := None; op_processIdentity := None |}.

Definition rollback_result (now startTime : Z) (o : RollbackOptions) (status : RollbackStatus)
    (unrestoredPaths : list string) (ignored : option IgnoredChanges) (claim : CoverageClaim) : OperationResult :=
  mkOperationResult (mkBaseResult (now - startTime) (Iso now) false None (ro_capabilityId o))
    (RRollback (mkRollbackOperationResult status (ro_snapshotId o)
      (if bool_decide (unrestoredPaths = []) then None else Some unrestoredPaths)
      (cc_coverage claim) (cc_outOfScopeEffects claim) (cc_ignoredFiles claim) ignored
      (cc_coverageBasis claim) None)).

(** From the restored tree to the recorded result. *)
Definition verify_rollback (now startTime : Z) (sd : SnapshotDriverAnswers) (o : RollbackOptions)
    (snapshot : SnapshotRef) (targetRoots : list string) : DM OperationResult :=
  restored ← lift (sd_restore sd);
  let newIgnoredPaths := nullish restored.2 [] in
  currentFp ← lift (sd_fingerprint sd);
  let unrestoredPaths := restored.1 ++ newIgnoredPaths in
  let status := if negb (bool_decide (currentFp = snap_treeFingerprint snapshot)) then rb_failed
    else if bool_decide (unrestoredPaths = []) then rb_restored else rb_partial in
  ignored ← lift (compareIgnoredManifest sd snapshot);
  d ← get_state;
  confined ← on_store (query (allEffectsConfinedToRoots (dom_id d) snapshot targetRoots (ro_opId o)));
  let claim := deriveRollbackCoverage (mkCoverageFacts status
    (if confined : bool then eff_confined else eff_unconfined) (snap_coverage snapshot) ignored.1) in
  let result := rollback_result now startTime o status unrestoredPaths ignored.2 claim in
  on_store (transaction (
    recordOperationResult now (ro_opId o) result true;;
    updateOperationStatus now (ro_opId o) st_done None None));;
  mret result.

(** [None]: the capability walk has not ended within the fuel. *)
Definition rollback (fuel : nat) (now : Z) (cancelled : nat → bool) (driver : DriverFacts)
    (sd : SnapshotDriverAnswers) (o : RollbackOptions) : DM (option OperationResult) :=
  snapshot ← on_store (getSnapshot (ro_snapshotId o));
  match snapshot with
  | None => throw (Err "Snapshot not found")
  | Some snapshot =>
      let targetRoots := map (λ r, render (resolve_path r)) (nullish (ro_roots o) (snap_roots snapshot)) in
      cap ← match or_undef (ro_capabilityId o) with
        | None => mret (Some None)
        | Some capabilityId =>
            r ← dom_checkCapabilityAdmission fuel now capabilityId None (Some targetRoots)
              (Some "workspace.rollback") (ro_capabilityWorkspace o) None None None
              (Some (ro_runId o)) (Some (ro_opId o));
            mret (Some <$> r)
        end;
      match cap with
      | None => mret None
      | Some cap =>
          let targetRoots := match cap with Some a => ar_effectiveMutationRoots a | None => targetRoots end in
          assertRootsQuiescent targetRoots (ro_opId o);;
          activateInternalOperation now cancelled (rollback_operation now driver sd o targetRoots cap) cap;;
          try_catch
            (result ← verify_rollback now now sd o snapshot targetRoots;
             internalReleaseResources now cancelled (ro_opId o) None;;
             mret (Some result))
            (λ err, internalReleaseResources now cancelled (ro_opId o) None;; throw err)
      end
  end.
End Rollback.
