(* ===== verification/Recovery.v ===== *)
(** * Recovery: the decisions after a restart (src/src/recovery/engine.ts)

    What the platform driver, the snapshot driver and the operating system answer
    about an operation is a record of answers, one per operation; a driver method
    that is optional in the source is an optional answer, and an answer may be a
    rejection. One recovery runs to its end without another caller in between,
    and its reads of the clock are one instant. *)

From stdpp Require Import pretty.
From S2P Require Import Prelude Types Events Encode Config Store Paths Capability Domain Authority Rollback.

(** ** What the drivers answer *)

Inductive StopProcessStatus := confirmed_stopped | not_stopped | stop_cannot_determine.
#[export] Instance StopProcessStatus_eq_dec : EqDecision StopProcessStatus.
Proof. solve_decision. Defined.
Record StopProcessResult := mkStopProcessResult {
  stopped : StopProcessStatus;
  stop_scope : TreeScope;
  stop_residualPids : option (list Z);
  stop_unreapedPids : option (list Z);
  stop_errorDetails : option string;
}.

(** The driver's answer to [settleTree]. *)
Inductive TreeAnswer := answer_empty | answer_residual | answer_unknown.
#[export] Instance TreeAnswer_eq_dec : EqDecision TreeAnswer.
Proof. solve_decision. Defined.

Record RecoveryAnswers := mkRecoveryAnswers {
  verifyIdentity : outcome error IdentityVerificationResult;
  terminate : outcome error StopProcessResult;
  settleTree : option (outcome error TreeAnswer);
  isGroupAlive : bool;
  readBootId : option (outcome error (option string));
  getGroupEvidence : option (outcome error (list (Z * option Z)));
  terminateGroup : option (outcome error StopProcessResult);
  snapshotFingerprint : outcome error string;
}.

(** ** The report *)

Inductive RecoveryAction :=
| cleaned_unspawned | stopped_alive_process | marked_dead | isolated_indeterminate.
#[export] Instance RecoveryAction_eq_dec : EqDecision RecoveryAction.
Proof. solve_decision. Defined.
Definition action_name (a : RecoveryAction) : string :=
  match a with
  | cleaned_unspawned => "cleaned_unspawned" | stopped_alive_process => "stopped_alive_process"
  | marked_dead => "marked_dead" | isolated_indeterminate => "isolated_indeterminate"
  end.

Record RecoveredOperation := mkRecoveredOperation {
  rec_opId : string; rec_action : RecoveryAction; rec_resourcesReleased : bool;
}.
Record RecoveredServiceSummary := mkRecoveredServiceSummary {
  rs_serviceId : string; rs_instanceOpIds : list string;
  rs_action : RecoveryAction; rs_resourcesReleased : bool;
}.
Record RecoveryReport := mkRecoveryReport {
  recoveredOperations : list RecoveredOperation;
  recoveredServices : list RecoveredServiceSummary;
}.

(** ** The verdict on one operation *)

(** The result to record, the action to report, whether the resources go and
    whether a service instance is journaled as stopped. *)
Record Verdict := mkVerdict {
  v_result : OperationResult;
  v_action : RecoveryAction;
  v_released : bool;
  v_stopped : bool;
}.

Definition isolate (now duration : Z) (stopped : bool) (reason guidance : string) : Verdict :=
  mkVerdict (mkOperationResult (mkBaseResult duration (Iso now) false None None)
    (RIndeterminate (mkIndeterminateResult None None reason guidance None)))
    isolated_indeterminate false stopped.

(** [...(pids?.length ? { unreapedPids: pids } : {})] *)
Definition some_pids (pids : option (list Z)) : option (list Z) :=
  match pids with Some (_ :: _) => pids | _ => None end.

(** The result of a process recovery did not see end. *)
Definition unseen_process (now duration : Z) (status : ProcStatus) (stderr : string)
    (reason : option TerminationReason) (reaped : option bool) (unreaped : option (list Z))
    (identity : IdentityVerificationResult) (evidence : option ExitEvidence) : OperationResult :=
  mkOperationResult (mkBaseResult duration (Iso now) false None None)
    (RProcess {| pr_status := status; pr_exitCode := None; pr_signal := None; pr_stdout := "";
      pr_stderr := stderr; pr_confinementDriver := None; pr_confined := None; pr_isTruncated := false;
      pr_stdoutTruncated := None; pr_stderrTruncated := None; pr_stdoutRef := None; pr_stderrRef := None;
      pr_stdoutBytes := None; pr_stderrBytes := None; pr_stdoutHash := None; pr_stderrHash := None;
      pr_outputRef := None; pr_outputHash := None; pr_terminationReason := reason;
      pr_spawnFailure := None; pr_peakMemoryBytes := None; pr_cpuTimeMs := None;
      pr_resourceSamplingError := None; pr_residualProcessesReaped := reaped; pr_treeSettlement := None;
      pr_streamCallbackError := None; pr_spillError := None; pr_stdoutSpillError := None;
      pr_stderrSpillError := None; pr_residualPids := None; pr_unreapedPids := some_pids unreaped;
      pr_identityVerification := identity; pr_evidence := evidence; pr_readEvidence := None |}).

(** [calcDurationMs]: an empty or unreadable spawn time counts as no time. *)
Definition calcDurationMs (now : Z) (identity : ProcessIdentity) : Z :=
  if truthy_date (spawnTime identity)
  then match getTime (spawnTime identity) with Some t => Z.max 0 (now - t) | None => 0%Z end
  else 0%Z.

(** [`${error.message}`] *)
Definition error_message (e : error) : string :=
  match e with TypeErr m | Err m => m | _ => "" end.

(** *** A rollback the crash interrupted *)

(** [op.outputRef || op.name.replace(/^rollback:/, '')] *)
Definition rollback_snapshot_id (op : Operation) : string :=
  match or_undef (op_outputRef op) with
  | Some id => id
  | None => if startsWith (op_name op) "rollback:" then slice_from 9 (op_name op) else op_name op
  end.

(** The tree has the fingerprint of the snapshot. *)
Definition rollback_matches (ans : RecoveryAnswers) (op : Operation) (snapshot : option SnapshotRef)
  : option SnapshotRef :=
  match snapshot with
  | Some s =>
      match nullish (op_mutationRoots op) (snap_roots s), snapshotFingerprint ans with
      | _ :: _, Ok fp => if bool_decide (fp = snap_treeFingerprint s) then Some s else None
      | _, _ => None
      end
  | None => None
  end.

Definition judge_rollback (now : Z) (ans : RecoveryAnswers) (op : Operation)
    (snapshot : option SnapshotRef) : Verdict :=
  match rollback_matches ans op snapshot with
  | Some s =>
      let claim := deriveRollbackCoverage
        (mkCoverageFacts rb_restored eff_unverified (snap_coverage s) man_absent) in
      mkVerdict (mkOperationResult (mkBaseResult 0 (Iso now) false None None)
        (RRollback (mkRollbackOperationResult rb_restored (rollback_snapshot_id op) None
          (cc_coverage claim) (cc_outOfScopeEffects claim) (cc_ignoredFiles claim) None
          (cc_coverageBasis claim) None))) cleaned_unspawned true false
  | None =>
      isolate now 0 false
        "Rollback interrupted by crash and tree fingerprint does not match target snapshot"
        "Workspace tree may be dirty or partially restored. Inspect files and retry rollback."
  end.

(** *** An operation with a process identity *)

Definition judge_original (now : Z) (ans : RecoveryAnswers) (identity : ProcessIdentity)
  : outcome error Verdict :=
  let duration := calcDurationMs now identity in
  stop ← terminate ans;
  Ok (if bool_decide (stopped stop = confirmed_stopped) then
        mkVerdict (unseen_process now duration proc_cancelled "" None None (stop_unreapedPids stop)
          is_original_process (Some unobserved)) stopped_alive_process true true
      else isolate now duration true "Alive process failed to stop during recovery"
        "Residual PID detected. Check system processes manually.").

(** What is left of the tree of a dead owner: nothing, orphans that were stopped,
    or something that must be isolated, for a reason, with a guidance. *)
Inductive Remains :=
| nothing_left
| orphans_stopped (unreaped : option (list Z))
| cannot_clear (reason guidance : string).

Definition cgroup_remains (ans : RecoveryAnswers) (path : string) : outcome error Remains :=
  match settleTree ans with
  | None => Ok (cannot_clear
      "Original intent used cgroup containment but the recovery driver cannot observe cgroup tree settlement"
      "Inspect the persisted containment path and adjudicate the operation before releasing leases.")
  | Some tree =>
      tree ← tree;
      if bool_decide (tree = answer_empty) then Ok nothing_left
      else
        reaped ← terminate ans;
        Ok (if bool_decide (stopped reaped = confirmed_stopped) then orphans_stopped (stop_unreapedPids reaped)
            else cannot_clear ("Owner is dead but cgroup " +:+ path +:+ " could not be confirmed empty: "
                +:+ nullish (stop_errorDetails reaped) "still populated")
              "Processes left by the crashed owner are still in its cgroup; inspect them before retrying.")
  end.

(** The boot the group was started in, when both are known and differ. *)
Definition foreign_boot (ans : RecoveryAnswers) (identity : ProcessIdentity) : outcome error (option (string * string)) :=
  match or_undef (bootId identity), readBootId ans with
  | Some recorded, Some current =>
      current ← current;
      Ok (match or_undef current with
          | Some current => if bool_decide (recorded = current) then None else Some (recorded, current)
          | None => None
          end)
  | _, _ => Ok None
  end.

(** A member of the group started more than a second before the operation. *)
Definition foreign_member (ans : RecoveryAnswers) (identity : ProcessIdentity) : outcome error bool :=
  match getGroupEvidence ans with
  | Some members =>
      members ← members;
      Ok (match getTime (nullish (osStartTime identity) (spawnTime identity)) with
          | Some opSpawnMs => existsb (λ m : Z * option Z, match m.2 with
              | Some start => bool_decide (start < opSpawnMs - 1000)%Z | None => false end) members
          | None => false
          end)
  | None => Ok false
  end.

Definition group_remains (ans : RecoveryAnswers) (identity : ProcessIdentity) (pgid : Z) : outcome error Remains :=
  boot ← foreign_boot ans identity;
  match boot with
  | Some (recorded, current) => Ok (cannot_clear
      ("Host bootId changed (recorded: '" +:+ recorded +:+ "', current: '" +:+ current
        +:+ "'); process group " +:+ pretty pgid +:+ " belongs to a different boot session")
      "Host was rebooted after the crash. Do not terminate external process groups; manual inspection required.")
  | None =>
      earlier ← foreign_member ans identity;
      if earlier : bool then Ok (cannot_clear
        ("Process group " +:+ pretty pgid
          +:+ " membership start time is earlier than operation spawn time; suspected PGID reuse")
        "External process group occupies the recorded PGID. Do not terminate; verify process ownership manually.")
      else
        reaped ← match terminateGroup ans with
          | Some r => r
          | None => Ok (mkStopProcessResult not_stopped scope_unknown None None None)
          end;
        Ok (if bool_decide (stopped reaped = confirmed_stopped) then orphans_stopped (stop_unreapedPids reaped)
            else cannot_clear "Owner is dead but its process group could not be confirmed stopped"
              "Residual processes from the crashed owner are still alive; inspect them before retrying.")
  end.

Definition dead_remains (ans : RecoveryAnswers) (identity : ProcessIdentity)
    (evidence : option RecoveryEvidence) : outcome error Remains :=
  let enumeration := descendantEnumeration ∘ rev_driverCapabilities <$> evidence in
  match or_undef (cgroupPath identity) with
  | Some path =>
      if bool_decide (enumeration = Some enum_cgroup) then cgroup_remains ans path
      else if is_undef evidence then Ok (cannot_clear
        "Containment identity exists without original driver evidence; recovery cannot infer cgroup semantics from the replacement driver"
        "Inspect the recorded containment path and adjudicate the operation before releasing leases.")
      else match pgid identity with
        | Some g => if isGroupAlive ans then group_remains ans identity g else Ok nothing_left
        | None => Ok nothing_left
        end
  | None =>
      match pgid identity with
      | Some g => if isGroupAlive ans then group_remains ans identity g else Ok nothing_left
      | None => Ok nothing_left
      end
  end.

Definition dead_process (now duration : Z) (orphans : bool) (unreaped : option (list Z)) : Verdict :=
  mkVerdict (unseen_process now duration proc_failed
      (if orphans then "orphaned descendants were confirmed stopped during recovery" else "")
      (Some exit_unobserved) (Some orphans) unreaped not_original_process (Some unobserved))
    marked_dead true true.

Definition judge_dead (now : Z) (ans : RecoveryAnswers) (identity : ProcessIdentity)
    (evidence : option RecoveryEvidence) : outcome error Verdict :=
  let duration := calcDurationMs now identity in
  remains ← dead_remains ans identity evidence;
  Ok (match remains with
      | nothing_left => dead_process now duration false None
      | orphans_stopped unreaped => dead_process now duration true unreaped
      | cannot_clear reason guidance => isolate now duration false reason guidance
      end).

Definition judge_identity (now : Z) (ans : RecoveryAnswers) (identity : ProcessIdentity)
    (evidence : option RecoveryEvidence) : outcome error Verdict :=
  verification ← verifyIdentity ans;
  match verification with
  | is_original_process => judge_original now ans identity
  | not_original_process => judge_dead now ans identity evidence
  | cannot_determine => Ok (isolate now (calcDurationMs now identity) true
      "Cannot determine process identity after restart"
      "Manual inspection required. Resource isolation remains active.")
  end.

(** *** The decision list *)

Definition never_released (op : Operation) : bool :=
  bool_decide (op_status op = st_intent_registered) && bool_decide (op_spawnGated op = Some true).

Definition judge_process (now : Z) (ans : RecoveryAnswers) (op : Operation) : outcome error Verdict :=
  match op_processIdentity op with
  | Some identity => judge_identity now ans identity (op_recoveryEvidence op)
  | None =>
      if never_released op then
        Ok (mkVerdict (unseen_process now 0 proc_failed
          "Command was not released through its execution gate before the crash"
          None None None not_original_process None) cleaned_unspawned true true)
      else Ok (isolate now 0 true
        "Process identity was not recorded; durable gated-spawn evidence does not prove non-execution"
        "Inspect processes and side effects before adjudication. Do not retry with a new operation ID.")
  end.

Section Judge.
Context `{Crypto}.

Definition invalid_config (op : Operation) : option string :=
  match op_configSnapshot op with
  | Some c => match assertRequestConfigSnapshot c with Ok _ => None | Throw e => Some (error_message e) end
  | None => None
  end.

(** [snapshot]: the one a rollback names, if it is in the store. *)
Definition judge (now : Z) (ans : RecoveryAnswers) (snapshot : option SnapshotRef) (op : Operation)
  : outcome error Verdict :=
  match invalid_config op with
  | Some message => Ok (isolate now 0 false
      ("Persisted request config snapshot is invalid: " +:+ message)
      "Inspect the immutable request binding and adjudicate the operation before releasing its lease.")
  | None =>
      match op_kind op with
      | op_rollback => Ok (judge_rollback now ans op snapshot)
      | op_snapshot => Ok (mkVerdict (mkOperationResult (mkBaseResult 0 (Iso now) false None None)
          (RSnapshot (mkSnapshotOperationResult false None
            (Some "Snapshot interrupted by crash before completion")))) cleaned_unspawned true false)
      | _ => judge_process now ans op
      end
  end.

(** ** Settling one operation *)

Fixpoint before_last (c : ascii) (s : string) : option string :=
  match s with
  | EmptyString => None
  | String a t =>
      match before_last c t with
      | Some p => Some (String a p)
      | None => if bool_decide (a = c) then Some EmptyString else None
      end
  end.
Definition serviceIdOf (op : Operation) : string := nullish (before_last "#"%char (op_id op)) (op_id op).

(** [serviceInstances]: the instances of each service, in the order of the table. *)
Definition service_instances (ops : list Operation) : list (string * list string) :=
  foldl (λ m op, if bool_decide (op_kind op = op_service)
    then jm_set m (serviceIdOf op) (default [] (jm_get m (serviceIdOf op)) ++ [op_id op]) else m) [] ops.

Definition unsettled (op : Operation) : bool :=
  negb (op_done op) || match op_result op with
    | Some r => match res_body r with RIndeterminate i => is_undef (ir_adjudication i) | _ => false end
    | None => false
    end.
Definition unsettledInstances (instances : list (string * list string)) (serviceId : string) (db : Db)
  : list string :=
  List.filter (λ id, match find_operation id db with Some op => unsettled op | None => false end)
    (default [] (jm_get instances serviceId)).

Definition releaseOpAndServiceResources (now : Z) (cancelled : nat → bool)
    (instances : list (string * list string)) (op : Operation) : DM unit :=
  internalReleaseResources now cancelled (op_id op) (Some (op_requiredResources op));;
  when (bool_decide (op_kind op = op_service))
    (left ← on_store (query (unsettledInstances instances (serviceIdOf op)));
     when (bool_decide (left = []))
       (internalReleaseResources now cancelled ("service:" +:+ serviceIdOf op)
          (Some (op_requiredResources op)))).

Definition recordServiceStoppedIfNeeded (now : Z) (op : Operation) (action : RecoveryAction) : DM unit :=
  when (bool_decide (op_kind op = op_service))
    (d ← get_state;
     on_store (recordEventAndTransitionState now (simple_event (dom_id d) (Some (op_runId op))
       (Some (op_id op)) "SERVICE_STOPPED"
       (JObj [("serviceId", JStr (serviceIdOf op)); ("runId", JStr (op_runId op));
              ("instanceOpId", JStr (op_id op)); ("reason", JStr "recovered_after_crash");
              ("action", JStr (action_name action))]) (Iso now)));;
     mret tt).

Definition recover_op (now : Z) (cancelled : nat → bool) (answers : string → RecoveryAnswers)
    (instances : list (string * list string)) (op : Operation) : DM RecoveredOperation :=
  snapshot ← on_store (getSnapshot (rollback_snapshot_id op));
  v ← lift (judge now (answers (op_id op)) snapshot op);
  on_store (recordOperationResult now (op_id op) (v_result v) (v_released v));;
  when (v_released v) (releaseOpAndServiceResources now cancelled instances op);;
  when (v_stopped v) (recordServiceStoppedIfNeeded now op (v_action v));;
  mret (mkRecoveredOperation (op_id op) (v_action v) (v_released v)).

Fixpoint recover_ops (now : Z) (cancelled : nat → bool) (answers : string → RecoveryAnswers)
    (instances : list (string * list string)) (ops : list Operation) : DM (list RecoveredOperation) :=
  match ops with
  | [] => mret []
  | op :: rest =>
      r ← recover_op now cancelled answers instances op;
      rs ← recover_ops now cancelled answers instances rest;
      mret (r :: rs)
  end.

(** ** Convergence of the runs *)

Definition converge_run (now : Z) (run : Run) : DM unit :=
  runOps ← on_store (getOperationsByRun (run_id run));
  when (forallb op_done runOps)
    (if existsb op_indeterminate runOps
     then on_store (updateRunStatus now (run_id run) run_indeterminate None (Some (Iso now)))
     else on_store (updateRunStatus now (run_id run) run_failed (Some crash_detected) (Some (Iso now)))).

(** ** Services *)

Record ServiceEntry := mkServiceEntry {
  se_instanceOpIds : list string;
  se_actions : list RecoveryAction;
  se_resourcesReleased : bool;
}.

Definition aggregate_op (unfinishedOps : list Operation) (m : list (string * ServiceEntry))
    (rec : RecoveredOperation) : list (string * ServiceEntry) :=
  match List.find (λ o, bool_decide (op_id o = rec_opId rec)) unfinishedOps with
  | Some op =>
      if bool_decide (op_kind op = op_service) then
        let entry := default (mkServiceEntry [] [] true) (jm_get m (serviceIdOf op)) in
        jm_set m (serviceIdOf op) (mkServiceEntry (se_instanceOpIds entry ++ [rec_opId rec])
          (se_actions entry ++ [rec_action rec])
          (se_resourcesReleased entry && rec_resourcesReleased rec))
      else m
  | None => m
  end.

(** Instances an earlier recovery isolated are done, but not settled. *)
Definition aggregate_unsettled (instances : list (string * list string)) (db : Db)
    (m : list (string * ServiceEntry)) (serviceId : string) : list (string * ServiceEntry) :=
  match unsettledInstances instances serviceId db with
  | [] => m
  | unsettled =>
      let entry := default (mkServiceEntry [] [] false) (jm_get m serviceId) in
      jm_set m serviceId (mkServiceEntry (js_set (se_instanceOpIds entry ++ unsettled))
        (se_actions entry ++ [isolated_indeterminate]) false)
  end.

(** The leases of services in backoff. *)
Definition clear_backoff_lease (now : Z) (cancelled : nat → bool) (m : list (string * ServiceEntry))
    (lease : ResourceLease) : DM (list (string * ServiceEntry)) :=
  if startsWith (lease_operationId lease) "service:" then
    let serviceId := slice_from 8 (lease_operationId lease) in
    match jm_get m serviceId with
    | Some entry =>
        when (se_resourcesReleased entry)
          (internalReleaseResources now cancelled (lease_operationId lease) (Some [lease_resourceId lease]));;
        mret m
    | None =>
        internalReleaseResources now cancelled (lease_operationId lease) (Some [lease_resourceId lease]);;
        d ← get_state;
        on_store (recordEventAndTransitionState now (simple_event (dom_id d) None None "SERVICE_STOPPED"
          (JObj [("serviceId", JStr serviceId); ("reason", JStr "recovered_after_crash");
                 ("action", JStr "cleared_backoff_lease")]) (Iso now)));;
        mret (jm_set m serviceId (mkServiceEntry [] [stopped_alive_process] true))
    end
  else mret m.
Fixpoint clear_backoff_leases (now : Z) (cancelled : nat → bool) (m : list (string * ServiceEntry))
    (leases : list ResourceLease) : DM (list (string * ServiceEntry)) :=
  match leases with
  | [] => mret m
  | lease :: rest =>
      m' ← clear_backoff_lease now cancelled m lease; clear_backoff_leases now cancelled m' rest
  end.

Definition service_summary (p : string * ServiceEntry) : RecoveredServiceSummary :=
  let has a := bool_decide (a ∈ se_actions p.2) in
  mkRecoveredServiceSummary p.1 (se_instanceOpIds p.2)
    (if has isolated_indeterminate then isolated_indeterminate
     else if has stopped_alive_process then stopped_alive_process
     else if has marked_dead then marked_dead else cleaned_unspawned)
    (se_resourcesReleased p.2).

(** ** [recover] *)

Definition recover (now : Z) (cancelled : nat → bool) (answers : string → RecoveryAnswers)
  : DM RecoveryReport :=
  d ← get_state;
  unfinishedOps ← on_store (getUnfinishedOperations (dom_id d));
  ops ← on_store (getAllOperations (dom_id d));
  let instances := service_instances ops in
  recovered ← recover_ops now cancelled answers instances unfinishedOps;
  activeRuns ← on_store (getActiveRuns (dom_id d));
  for_each activeRuns (converge_run now);;
  m ← on_store (query (λ db, foldl (aggregate_unsettled instances db)
    (foldl (aggregate_op unfinishedOps) [] recovered) instances.*1));
  leases ← on_store (getPersistedResourceLeases (dom_id d));
  m ← clear_backoff_leases now cancelled m leases;
  mret (mkRecoveryReport recovered (map service_summary m)).
End Judge.
