(* ===== verification/DomainInv.v ===== *)
(** * DomainInv: what the methods of a domain do to the tables

    A relation on databases that the store calls of a method respect is respected
    by the method: the calculus of Prelude.v lifted from the store to the domain. *)

From S2P Require Import Prelude Types Events Encode Config Store StoreCalls Capability Domain.

(** A method of an open domain that returns has run its store call. *)
Lemma on_store_Ok {A} (m : SM A) d a d' :
  on_store m d = (Ok a, d') →
  dom_lockHeld d = true ∧ ∃ s', m (dom_store d) = (Ok a, s') ∧ d' = set_store s' d.
Proof.
  unfold on_store, focus. destruct (dom_lockHeld d); [|done].
  destruct (m (dom_store d)) as [o s']. intros [= -> <-]. split; [done|]. by exists s'.
Qed.
Lemma on_query_Ok {A} (f : Db → A) d a d' :
  on_store (query f) d = (Ok a, d') → a = f (db (dom_store d)) ∧ d' = d.
Proof. intros (_ & s' & [= <- <-] & ->)%on_store_Ok. by destruct d. Qed.

(** [if (b) { m }], when it returned. *)
Lemma when_Ok {E S} (b : bool) (m : ST E S unit) s s' :
  when b m s = (Ok tt, s') → (b = true ∧ m s = (Ok tt, s')) ∨ (b = false ∧ s' = s).
Proof. destruct b; [by left|]. intros [= <-]. by right. Qed.

Lemma unlock_all_store l : ∀ d, dom_store (foldl (λ d res, lock_unlock res d) d l) = dom_store d.
Proof. induction l as [|x l IH]; intros d; [done|]. simpl. by rewrite IH. Qed.

Section Lift.
Context (R : relation Db) `{!PreOrder R}.

Definition dom_db : relation ExecutionDomain := λ d d', R (db (dom_store d)) (db (dom_store d')).
#[export] Instance dom_db_preorder : PreOrder dom_db.
Proof using Type*.
  split; unfold dom_db; [intros d; reflexivity|]. intros d1 d2 d3 H1 H2. by etransitivity.
Qed.

Lemma respects_on_store {A} (m : SM A) : respects (on_db R) m → respects dom_db (on_store m).
Proof using Type*.
  intros Hm d. unfold on_store, focus. destruct (dom_lockHeld d); [|reflexivity].
  specialize (Hm (dom_store d)). by destruct (m (dom_store d)).
Qed.
Lemma respects_on_query {A} (f : Db → A) : respects dom_db (on_store (query f)).
Proof using Type*. apply respects_on_store, respects_query, _. Qed.
Lemma respects_memory (f : ExecutionDomain → ExecutionDomain) :
  (∀ d, dom_store (f d) = dom_store d) → respects dom_db (modify (E:=error) f).
Proof using Type*. intros Hf. apply respects_modify. intros d. unfold dom_db. by rewrite Hf. Qed.
Lemma respects_settle id o : respects dom_db (settle id o).
Proof using Type*. by apply respects_memory. Qed.

Ltac memory_tac :=
  repeat first
    [ progress (eauto 3 using respects_on_query, respects_settle with xio typeclass_instances)
    | respects_step
    | apply respects_memory; intros ?; done ].

Lemma respects_assertNotFenced : respects dom_db assertNotFenced.
Proof using Type*. unfold assertNotFenced, getOwner. memory_tac. Qed.
Lemma respects_allocateResources op res w b : respects dom_db (allocateResources op res w b).
Proof using Type*.
  pose proof respects_assertNotFenced.
  unfold allocateResources, check_cap, getActiveOperationIds, getUnfinishedOperations. memory_tac.
Qed.
Lemma respects_process_items now cancelled items : ∀ reserved blocked,
  respects dom_db (process_items now cancelled items reserved blocked).
Proof using Type*.
  pose proof respects_allocateResources.
  induction items as [|item items IH]; intros reserved blocked; simpl; memory_tac.
Qed.
Lemma respects_processWaitQueue now cancelled : respects dom_db (processWaitQueue now cancelled).
Proof using Type*. pose proof respects_process_items. unfold processWaitQueue. memory_tac. Qed.

Section Release.
Context (operationId : string).
Context (Hlease : ∀ res, respects (on_db R) (releaseResourceLease operationId res)).
Context (Hevent : ∀ now dom payload ts, respects (on_db R) (recordEventAndTransitionState now
  (simple_event dom None (Some operationId) "RESOURCES_RELEASED" payload ts))).

Lemma respects_release_listed persisted resources :
  respects dom_db (release_listed operationId persisted resources).
Proof using PreOrder0 Hlease.
  pose proof (λ res, respects_on_store _ (Hlease res)).
  induction resources as [|res resources IH]; simpl; memory_tac.
Qed.

(** Releasing moves the tables as the deletion of leases and the event do. *)
Lemma respects_internalRelease now cancelled resources :
  respects dom_db (internalReleaseResources now cancelled operationId resources).
Proof using Type*.
  pose proof respects_assertNotFenced. pose proof respects_release_listed.
  pose proof (λ res, respects_on_store _ (Hlease res)).
  pose proof (λ now dom p ts, respects_on_store _ (Hevent now dom p ts)).
  pose proof respects_processWaitQueue.
  assert (∀ dom, respects dom_db (on_store (verifyEpochFencing dom))).
  { intros dom. apply respects_on_store. eauto with xio typeclass_instances. }
  unfold internalReleaseResources, getPersistedResourceLeases. memory_tac.
  all: by apply respects_memory, unlock_all_store.
Qed.
End Release.
End Lift.
