(* ===== verification/DomainSpec.v ===== *)
(** * DomainSpec: isolation, fairness and release in an execution domain

    Allocation never takes a resource from its holder and keeps the concurrency
    cap; the wait queue is fair between requests that share a resource and is
    served as far as it can be at every release. *)

From S2P Require Import Prelude Types Events Encode Config Store StoreCalls Samples Paths Capability StoreSpec Domain.

(** ** Running store calls from the domain *)

Lemma set_store_same d : set_store (dom_store d) d = d.
Proof. by destruct d. Qed.

Lemma run_on_store {A B} (m : SM A) (k : A → DM B) d :
  dom_lockHeld d = true →
  (on_store m ≫= k) d =
  match m (dom_store d) with
  | (Ok a, s') => k a (set_store s' d)
  | (Throw e, s') => (Throw e, set_store s' d)
  end.
Proof.
  intros Hopen. unfold on_store, focus, mbind, ST_bind. rewrite Hopen.
  by destruct (m (dom_store d)) as [[]].
Qed.
Lemma run_on_query {A B} (f : Db → A) (k : A → DM B) d :
  dom_lockHeld d = true → (on_store (query f) ≫= k) d = k (f (db (dom_store d))) d.
Proof. intros Hopen. rewrite run_on_store //= set_store_same //. Qed.

Lemma run_on_verify {B} dom (k : unit → DM B) d :
  dom_lockHeld d = true →
  (on_store (verifyEpochFencing dom) ≫= k) d
  = match fencing_error dom (dom_store d) with Some e => (Throw e, d) | None => k tt d end.
Proof.
  intros Hopen. rewrite run_on_store //. unfold verifyEpochFencing.
  change ((gets ?f ≫= ?g) ?s) with (g (f s) s).
  by destruct (fencing_error dom (dom_store d)); simpl; rewrite set_store_same.
Qed.

Lemma run_assertNotFenced {B} (k : unit → DM B) d :
  isFenced d = false → (assertNotFenced ≫= k) d = k tt d.
Proof. intros Hf. unfold assertNotFenced. autorewrite with xio_run. by rewrite Hf. Qed.
Lemma run_get_state {E S B} (k : S → ST E S B) s : (get_state ≫= k) s = k s s.
Proof. done. Qed.
#[export] Hint Rewrite @run_get_state : xio_run.

Lemma fenced_throws {B} (k : unit → DM B) d :
  isFenced d = true → ∃ e, (assertNotFenced ≫= k) d = (Throw e, d).
Proof.
  intros Hf. unfold assertNotFenced. autorewrite with xio_run. rewrite Hf. autorewrite with xio_run.
  destruct (dom_lockHeld d) eqn:Hopen.
  - unfold getOwner. rewrite run_on_query //. by eexists.
  - unfold on_store, mbind, ST_bind. rewrite Hopen. by eexists.
Qed.

(** ** Allocation, as a decision on the state *)

Definition cap_error (d : ExecutionDomain) (operationId : string) (waited : Z) : option error :=
  match concurrency_cap d with
  | None => None
  | Some cap =>
      if bool_decide (cap ≤ Z.of_nat (length (active_ids d)))%Z && negb (js_has (active_ids d) operationId)
      then Some (ResourceConflictError "domain:max_concurrent_ops" (cap_holder (active_ids d))
        operationId waited)
      else None
  end.
Definition alloc_error (d : ExecutionDomain) (operationId : string) (resources : list string)
    (waited : Z) : option error :=
  match first_held (inMemoryLockedResources d) operationId resources with
  | Some (res, existing) => Some (ResourceConflictError res existing operationId waited)
  | None => cap_error d operationId waited
  end.

Lemma run_check_cap {B} op w (k : option error → DM B) d :
  dom_lockHeld d = true → (check_cap op w ≫= k) d = k (cap_error d op w) d.
Proof.
  intros Hopen. unfold check_cap, cap_error. autorewrite with xio_run.
  destruct (concurrency_cap d) as [cap|]; [|done]. autorewrite with xio_run.
  unfold getActiveOperationIds, getUnfinishedOperations. autorewrite with xio_run.
  rewrite run_on_query //. autorewrite with xio_run. unfold active_ids, unfinished_ids.
  by case_match.
Qed.

Lemma allocate_eq op res w b d :
  dom_lockHeld d = true → isFenced d = false →
  allocateResources op res w b d
  = match alloc_error d op res w with
    | Some e => (Throw e, d)
    | None => (Ok tt, grant op res b d)
    end.
Proof.
  intros Hopen Hf. unfold allocateResources, alloc_error. rewrite run_assertNotFenced //.
  autorewrite with xio_run. destruct (first_held _ _ _) as [[r o]|]; [done|].
  rewrite run_check_cap //. by destruct (cap_error d op w).
Qed.

Lemma alloc_error_conflict d op res w e : alloc_error d op res w = Some e → is_conflict e = true.
Proof.
  unfold alloc_error, cap_error. destruct (first_held _ _ _) as [[]|]; [by intros [= <-]|].
  destruct (concurrency_cap d); [|done]. case_match; by intros [= <-].
Qed.

(** *** The lock table *)

Definition blocks (existing op : string) : Prop := truthy_str existing = true ∧ existing ≠ op.

Lemma blocks_bool existing op :
  truthy_str existing && negb (bool_decide (existing = op)) = true ↔ blocks existing op.
Proof. unfold blocks. rewrite andb_true_iff negb_true_iff bool_decide_eq_false. done. Qed.

Lemma first_held_None locks op res :
  first_held locks op res = None ↔
  ∀ r o, r ∈ res → jm_get locks r = Some o → ¬ blocks o op.
Proof.
  induction res as [|r res IH]; simpl; [set_solver|].
  destruct (jm_get locks r) as [o|] eqn:Hr.
  - destruct (truthy_str o && _) eqn:Hb.
    + split; [done|]. intros Hall. exfalso. apply (Hall r o); [set_solver|done|by apply blocks_bool].
    + rewrite IH. apply not_true_iff_false in Hb. rewrite blocks_bool in Hb. split.
      * intros Hall r' o' [->|Hr']%elem_of_cons Ho'; [congruence|by eapply Hall].
      * intros Hall r' o' Hr'. apply Hall. set_solver.
  - rewrite IH. split.
    + intros Hall r' o' [->|Hr']%elem_of_cons Ho'; [congruence|by eapply Hall].
    + intros Hall r' o' Hr'. apply Hall. set_solver.
Qed.
Lemma first_held_Some locks op res r o :
  first_held locks op res = Some (r, o) → r ∈ res ∧ jm_get locks r = Some o ∧ blocks o op.
Proof.
  induction res as [|r' res IH]; simpl; [done|].
  destruct (jm_get locks r') as [o'|] eqn:Hr; [|intros [??]%IH; set_solver].
  destruct (truthy_str o' && _) eqn:Hb; [|intros [??]%IH; set_solver].
  intros [= <- <-]. rewrite blocks_bool in Hb. set_solver.
Qed.

Lemma jm_get_set_all (locks : list (string * string)) (op : string) res r :
  jm_get (foldl (λ m res, jm_set m res op) locks res) r
  = if bool_decide (r ∈ res) then Some op else jm_get locks r.
Proof.
  revert locks. induction res as [|x res IH]; intros locks; cbn [foldl].
  - case_bool_decide; [set_solver|done].
  - rewrite IH jm_get_set. repeat case_bool_decide; repeat case_decide; set_solver.
Qed.

Lemma grant_owner op res b d r :
  getResourceOwner (grant op res b d) r
  = if bool_decide (r ∈ res) then Some op else getResourceOwner d r.
Proof. apply jm_get_set_all. Qed.

Lemma active_ids_grant op res b d x :
  x ∈ active_ids (grant op res b d) ↔ x ∈ active_ids d ∨ x = op.
Proof.
  unfold active_ids. rewrite !elem_of_foldl_js_add. simpl. rewrite elem_of_js_add.
  change (unfinished_ids (grant op res b d)) with (unfinished_ids d). naive_solver.
Qed.

Lemma NoDup_active_ids d : NoDup (inMemoryAllocatedOps d) → NoDup (active_ids d).
Proof. apply NoDup_foldl_js_add. Qed.

(** Allocation is all or nothing and never steals: it succeeds exactly when
    no requested resource has another holder and the domain has room; then the
    operation holds all it asked for, every other lock is as it was and the
    number of active operations is within the cap or as before; otherwise
    nothing changes and the error is a resource conflict. *)
Theorem allocateResources_spec op res w b d o d' :
  dom_lockHeld d = true → isFenced d = false → NoDup (inMemoryAllocatedOps d) →
  allocateResources op res w b d = (o, d') →
  match o with
  | Ok _ =>
      (∀ r, r ∈ res → getResourceOwner d' r = Some op) ∧
      (∀ r, r ∉ res → getResourceOwner d' r = getResourceOwner d r) ∧
      (∀ r x, r ∈ res → getResourceOwner d r = Some x → ¬ blocks x op) ∧
      op ∈ active_ids d' ∧
      (∀ cap, concurrency_cap d = Some cap →
        (Z.of_nat (length (active_ids d')) ≤ Z.max cap (Z.of_nat (length (active_ids d))))%Z)
  | Throw e =>
      d' = d ∧ is_conflict e = true ∧
      ((∃ r x, r ∈ res ∧ getResourceOwner d r = Some x ∧ blocks x op) ∨
       (∃ cap, concurrency_cap d = Some cap ∧ op ∉ active_ids d ∧
         (cap ≤ Z.of_nat (length (active_ids d)))%Z))
  end.
Proof.
  intros Hopen Hf Hnd. rewrite allocate_eq //. unfold alloc_error.
  destruct (first_held _ _ _) as [[r x]|] eqn:Hh.
  { intros [= <- <-]. apply first_held_Some in Hh as (Hr & Hx & Hb). split_and!; [done..|].
    left. by exists r, x. }
  rewrite first_held_None in Hh. destruct (cap_error d op w) as [e|] eqn:Hc.
  - intros [= <- <-]. unfold cap_error in Hc. destruct (concurrency_cap d) as [cap|]; [|done].
    destruct (_ && _) eqn:Hfull; [|done]. injection Hc as <-.
    apply andb_true_iff in Hfull as [Hle%bool_decide_eq_true Hnot%negb_true_iff].
    split_and!; [done..|]. right. exists cap. split_and!; [done| |done].
    intros Hin%js_has_spec. congruence.
  - intros [= <- <-]. split_and!.
    + intros r Hr. rewrite grant_owner bool_decide_true //.
    + intros r Hr. rewrite grant_owner bool_decide_false //.
    + exact Hh.
    + apply active_ids_grant. by right.
    + intros cap Hcap. unfold cap_error in Hc. rewrite Hcap in Hc.
      destruct (decide (op ∈ active_ids d)) as [Hin|Hout].
      * enough (length (active_ids (grant op res b d)) ≤ length (active_ids d)) by lia.
        apply submseteq_length, NoDup_submseteq; [apply NoDup_active_ids; by apply NoDup_js_add|].
        intros x [?| ->]%active_ids_grant; done.
      * assert (js_has (active_ids d) op = false) as Hjs.
        { apply not_true_iff_false. by rewrite js_has_spec. }
        rewrite Hjs andb_true_r in Hc. case_bool_decide; [done|].
        enough (length (active_ids (grant op res b d)) ≤ S (length (active_ids d))) by lia.
        apply (submseteq_length _ (op :: active_ids d)), NoDup_submseteq;
          [apply NoDup_active_ids; by apply NoDup_js_add|].
        intros x [?| ->]%active_ids_grant; set_solver.
Qed.

(** ** The wait queue *)

Definition settled_as (id : nat) (o : outcome error unit) (d : ExecutionDomain) : ExecutionDomain :=
  set_settled (dom_settled d ++ [(id, o)]) d.

(** The loop of [processWaitQueue] as a function: what stays queued, and the state. *)
Fixpoint serve (now : Z) (cancelled : nat → bool) (items : list WaitItem) (reserved : list string)
    (blocked : bool) (d : ExecutionDomain) : list WaitItem * ExecutionDomain :=
  match items with
  | [] => ([], d)
  | item :: rest =>
      let reserved' := foldl js_add reserved (wi_resources item) in
      let keep b := let '(kept, d') := serve now cancelled rest reserved' b d in (item :: kept, d') in
      if cancelled (wi_id item) then
        serve now cancelled rest reserved blocked (settled_as (wi_id item) (Ok tt) d)
      else if overlaps (wi_resources item) reserved || blocked then keep blocked
      else match alloc_error d (wi_operationId item) (wi_resources item) (now - wi_startTime item) with
      | None => serve now cancelled rest reserved blocked (settled_as (wi_id item) (Ok tt)
          (grant (wi_operationId item) (wi_resources item) (wi_budget item) d))
      | Some err => keep (blocked || is_cap_conflict err)
      end
  end.

Lemma process_items_serve now cancelled items : ∀ reserved blocked d,
  dom_lockHeld d = true → isFenced d = false →
  process_items now cancelled items reserved blocked d
  = (Ok (serve now cancelled items reserved blocked d).1,
     (serve now cancelled items reserved blocked d).2).
Proof.
  induction items as [|item items IH]; intros reserved blocked d Hopen Hf; [done|].
  cbn [process_items serve]. destruct (cancelled (wi_id item)).
  { unfold settle. autorewrite with xio_run. by rewrite IH. }
  assert (∀ r b, (kept ← process_items now cancelled items r b; mret (item :: kept)) d
    = (Ok (item :: (serve now cancelled items r b d).1), (serve now cancelled items r b d).2)) as Hkeep.
  { intros r b. unfold mbind, ST_bind. by rewrite IH. }
  destruct (_ || blocked); [rewrite Hkeep; by destruct (serve _ _ _ _ _ _)|].
  unfold mbind at 1, ST_bind at 1. unfold try_catch. unfold mbind at 1, ST_bind at 1.
  rewrite allocate_eq //. destruct (alloc_error d _ _ _) as [err|] eqn:He; cbn [mret ST_ret].
  - rewrite (alloc_error_conflict _ _ _ _ _ He) Hkeep. by destruct (serve _ _ _ _ _ _).
  - unfold settle. autorewrite with xio_run. by rewrite IH.
Qed.

(** Serving the queue only grants: locks of others stay, active operations stay. *)
Record grants (d d' : ExecutionDomain) : Prop := {
  grants_frame : dom_lockHeld d' = dom_lockHeld d ∧ isFenced d' = isFenced d ∧
    dom_store d' = dom_store d ∧ dom_budget d' = dom_budget d ∧ waitQueue d' = waitQueue d ∧
    dom_id d' = dom_id d;
  grants_locks : ∀ r o, getResourceOwner d r = Some o → truthy_str o = true →
    getResourceOwner d' r = Some o;
  grants_active : ∀ x, x ∈ active_ids d → x ∈ active_ids d';
  grants_NoDup : NoDup (inMemoryAllocatedOps d) → NoDup (inMemoryAllocatedOps d');
}.
#[export] Instance grants_preorder : PreOrder grants.
Proof.
  split.
  - intros d. by split.
  - intros d1 d2 d3 [(?&?&?&?&?&?) Hl Ha Hn] [(?&?&?&?&?&?) Hl' Ha' Hn'].
    split; [split_and!; congruence|by eauto..].
Qed.

Lemma grants_settled id o d : grants d (settled_as id o d).
Proof. by split. Qed.
Lemma grants_grant op res w b d : alloc_error d op res w = None → grants d (grant op res b d).
Proof.
  unfold alloc_error. destruct (first_held _ _ _) as [[]|] eqn:Hh; [done|]. intros _.
  rewrite first_held_None in Hh. split; [done| | |].
  - intros r o Hr Ho. rewrite grant_owner. case_bool_decide as Hin; [|done].
    destruct (decide (o = op)) as [->|Hne]; [done|]. by destruct (Hh r o Hin Hr).
  - intros x Hx. apply active_ids_grant. by left.
  - intros Hnd. by apply NoDup_js_add.
Qed.

Lemma serve_grants now cancelled items : ∀ reserved blocked d,
  grants d (serve now cancelled items reserved blocked d).2.
Proof.
  induction items as [|item items IH]; intros reserved blocked d; cbn [serve]; [reflexivity|].
  assert (∀ r b, grants d (let '(kept, d') := serve now cancelled items r b d in (item :: kept, d')).2)
    as Hkeep.
  { intros r b. specialize (IH r b d). by destruct (serve _ _ _ _ _ _). }
  destruct (cancelled (wi_id item)); [etransitivity; [apply grants_settled|apply IH]|].
  destruct (_ || blocked); [apply Hkeep|].
  destruct (alloc_error d _ _ _) eqn:He; [apply Hkeep|].
  etransitivity; [by eapply grants_grant|]. etransitivity; [apply grants_settled|apply IH].
Qed.

Lemma overlaps_spec res reserved : overlaps res reserved = true ↔ ∃ r, r ∈ res ∧ r ∈ reserved.
Proof.
  unfold overlaps. rewrite existsb_In. setoid_rewrite js_has_spec. done.
Qed.
Lemma overlaps_mono res s1 s2 :
  (∀ r, r ∈ s1 → r ∈ s2) → overlaps res s1 = true → overlaps res s2 = true.
Proof. rewrite !overlaps_spec. naive_solver. Qed.

Lemma serve_sublist now cancelled items : ∀ reserved blocked d,
  (serve now cancelled items reserved blocked d).1 `sublist_of` items.
Proof.
  induction items as [|item items IH]; intros reserved blocked d; cbn [serve]; [constructor|].
  assert (∀ r b, (let '(kept, d') := serve now cancelled items r b d in (item :: kept, d')).1
    `sublist_of` item :: items) as Hkeep.
  { intros r b. specialize (IH r b d). destruct (serve _ _ _ _ _ _). by constructor. }
  destruct (cancelled (wi_id item)); [by constructor|]. destruct (_ || blocked); [apply Hkeep|].
  destruct (alloc_error d _ _ _); [apply Hkeep|by constructor].
Qed.

(** A waiter that leaves the queue uncancelled does not use a reserved resource. *)
Lemma serve_avoids_reserved now cancelled items y : ∀ reserved blocked d,
  y ∈ items → y ∉ (serve now cancelled items reserved blocked d).1 →
  cancelled (wi_id y) = true ∨ overlaps (wi_resources y) reserved = false.
Proof.
  induction items as [|item items IH]; intros reserved blocked d; [set_solver|]. cbn [serve].
  intros Hy. destruct (cancelled (wi_id item)) eqn:Hc.
  { apply elem_of_cons in Hy as [->|Hy]; [by left|by apply IH]. }
  assert (∀ b, y ∉ (let '(kept, d') := serve now cancelled items
      (foldl js_add reserved (wi_resources item)) b d in (item :: kept, d')).1 →
    cancelled (wi_id y) = true ∨ overlaps (wi_resources y) reserved = false) as Hkeep.
  { intros b. specialize (IH (foldl js_add reserved (wi_resources item)) b d).
    destruct (serve _ _ _ _ _ _) as [kept d']. simpl. intros [Hne Hk]%not_elem_of_cons.
    apply elem_of_cons in Hy as [->|Hy]; [done|].
    destruct (IH Hy Hk) as [?|Hov]; [by left|right]. apply not_true_iff_false.
    apply not_true_iff_false in Hov. contradict Hov. eapply overlaps_mono; [|done].
    intros r. rewrite elem_of_foldl_js_add. by left. }
  destruct (overlaps (wi_resources item) reserved || blocked) eqn:Hob; [apply Hkeep|].
  destruct (alloc_error d _ _ _); [apply Hkeep|].
  apply elem_of_cons in Hy as [->|Hy]; [|by apply IH].
  intros _. right. by apply orb_false_iff in Hob as [? _].
Qed.

Lemma serve_fair now cancelled items i j x y : ∀ reserved blocked d,
  NoDup items → items !! i = Some x → items !! j = Some y → i < j →
  x ∈ (serve now cancelled items reserved blocked d).1 →
  y ∉ (serve now cancelled items reserved blocked d).1 →
  cancelled (wi_id y) = true ∨ ∀ r, r ∈ wi_resources x → r ∉ wi_resources y.
Proof.
  revert i j. induction items as [|item items IH]; intros i j reserved blocked d Hnd Hi Hj Hij; [done|].
  apply NoDup_cons in Hnd as [Hitem Hnd]. destruct j as [|j]; [lia|]. simpl in Hj.
  assert (∀ r b d, x ∈ (serve now cancelled items r b d).1 → y ∉ (serve now cancelled items r b d).1 →
    cancelled (wi_id y) = true ∨ ∀ r, r ∈ wi_resources x → r ∉ wi_resources y) as Hrest.
  { intros r b d' Hx Hy. destruct i as [|i].
    - simpl in Hi. simplify_eq. exfalso. apply Hitem.
      eapply elem_of_submseteq; [exact Hx|apply sublist_submseteq, serve_sublist].
    - by apply (IH i j r b d' Hnd); [|  |lia| |]. }
  assert (∀ b, x ∈ (let '(kept, d') := serve now cancelled items
      (foldl js_add reserved (wi_resources item)) b d in (item :: kept, d')).1 →
    y ∉ (let '(kept, d') := serve now cancelled items
      (foldl js_add reserved (wi_resources item)) b d in (item :: kept, d')).1 →
    cancelled (wi_id y) = true ∨ ∀ r, r ∈ wi_resources x → r ∉ wi_resources y) as Hkeep.
  { intros b. specialize (Hrest (foldl js_add reserved (wi_resources item)) b d).
    pose proof (serve_avoids_reserved now cancelled items y (foldl js_add reserved (wi_resources item)) b d)
      as Havoid.
    destruct (serve _ _ _ _ _ _) as [kept d']. simpl in *.
    intros Hx [Hne Hk]%not_elem_of_cons. apply elem_of_cons in Hx as [->|Hx]; [|by apply Hrest].
    destruct Havoid as [?|Hov]; [by eapply list_elem_of_lookup_2|done|by left|right].
    intros r Hr Hr'. apply not_true_iff_false in Hov. apply Hov, overlaps_spec.
    exists r. split; [done|]. apply elem_of_foldl_js_add. by right. }
  cbn [serve]. destruct (cancelled (wi_id item)); [apply Hrest|].
  destruct (_ || blocked); [apply Hkeep|]. destruct (alloc_error d _ _ _); [apply Hkeep|apply Hrest].
Qed.

(** The domain runs as many operations as its cap allows. *)
Definition cap_full (d : ExecutionDomain) : Prop :=
  ∃ cap, concurrency_cap d = Some cap ∧ (cap ≤ Z.of_nat (length (active_ids d)))%Z.

(** Something a queued request must wait for: a resource an earlier waiter wants,
    a resource another operation holds, or the concurrency cap. *)
Definition must_wait (d : ExecutionDomain) (wanted : list string) (x : WaitItem) : Prop :=
  overlaps (wi_resources x) wanted = true ∨
  (∃ r o, r ∈ wi_resources x ∧ getResourceOwner d r = Some o ∧ blocks o (wi_operationId x)) ∨
  cap_full d.
Definition queue_waits (d : ExecutionDomain) (q : list WaitItem) : Prop :=
  ∀ k1 x k2, q = k1 ++ x :: k2 → must_wait d (concat (map wi_resources k1)) x.
(** No waiter is left that nothing holds back. *)
Definition quiescent (d : ExecutionDomain) : Prop := queue_waits d (waitQueue d).

Lemma cap_full_grants d d' :
  NoDup (inMemoryAllocatedOps d) → grants d d' → cap_full d → cap_full d'.
Proof.
  intros Hnd [(_ & _ & _ & Hb & _) _ Ha _] (cap & Hcap & Hle). exists cap. split.
  - unfold concurrency_cap in *. by rewrite Hb.
  - enough (length (active_ids d) ≤ length (active_ids d')) by lia.
    apply submseteq_length, NoDup_submseteq; [by apply NoDup_active_ids|done].
Qed.
Lemma must_wait_grants d d' w w' x :
  NoDup (inMemoryAllocatedOps d) → grants d d' → (∀ r, r ∈ w → r ∈ w') →
  must_wait d w x → must_wait d' w' x.
Proof.
  intros Hnd Hg Hw [Ho|[(r & o & Hr & Hget & Hbl)|Hc]].
  - left. by eapply overlaps_mono.
  - right. left. exists r, o. split_and!; [done| |done]. eapply grants_locks; [done..|]. apply Hbl.
  - right. right. by eapply cap_full_grants.
Qed.

Lemma alloc_error_waits d op res w e :
  alloc_error d op res w = Some e →
  (∃ r o, r ∈ res ∧ getResourceOwner d r = Some o ∧ blocks o op) ∨ cap_full d.
Proof.
  unfold alloc_error. destruct (first_held _ _ _) as [[r o]|] eqn:Hh.
  { intros _. apply first_held_Some in Hh as (?&?&?). left. by exists r, o. }
  unfold cap_error. destruct (concurrency_cap d) as [cap|] eqn:Hc; [|done].
  case_bool_decide; [|done]. intros _. right. by exists cap.
Qed.
Lemma cap_conflict_full d op res w e :
  first_held (inMemoryLockedResources d) op res = None →
  alloc_error d op res w = Some e → cap_full d.
Proof.
  intros Hh. unfold alloc_error. rewrite Hh. unfold cap_error.
  destruct (concurrency_cap d) as [cap|] eqn:Hc; [|done].
  case_bool_decide; [|done]. intros _. by exists cap.
Qed.

(** Whatever stays queued must wait, in the state the loop ends in; [blocked]
    is only set when the cap is full or a resource of that name is taken. *)
Lemma serve_waits now cancelled items : ∀ reserved blocked d,
  NoDup (inMemoryAllocatedOps d) → (blocked = true → cap_full d) →
  Forall (λ x, "domain:max_concurrent_ops" ∉ wi_resources x) items →
  let '(kept, d') := serve now cancelled items reserved blocked d in
  ∀ k1 x k2, kept = k1 ++ x :: k2 → must_wait d' (reserved ++ concat (map wi_resources k1)) x.
Proof.
  induction items as [|item items IH]; intros reserved blocked d Hnd Hb Hres; cbn [serve].
  { intros k1 x k2 Hk. by destruct k1. }
  apply Forall_cons in Hres as [Hitem Hres].
  assert (∀ b, (b = true → cap_full d) → must_wait d reserved item →
    let '(kept, d') := (let '(kept, d') := serve now cancelled items
      (foldl js_add reserved (wi_resources item)) b d in (item :: kept, d')) in
    ∀ k1 x k2, kept = k1 ++ x :: k2 → must_wait d' (reserved ++ concat (map wi_resources k1)) x) as Hkeep.
  { intros b Hb' Hmust. specialize (IH (foldl js_add reserved (wi_resources item)) b d Hnd Hb' Hres).
    pose proof (serve_grants now cancelled items (foldl js_add reserved (wi_resources item)) b d) as Hg.
    destruct (serve _ _ _ _ _ _) as [kept d']. simpl in Hg. intros k1 x k2 Hk.
    destruct k1 as [|z k1]; simplify_eq/=.
    - eapply must_wait_grants; [exact Hnd|exact Hg| |exact Hmust]. set_solver.
    - eapply must_wait_grants; [|reflexivity| |by eapply IH].
      + by apply (grants_NoDup d).
      + intros r. rewrite !elem_of_app elem_of_foldl_js_add. tauto. }
  destruct (cancelled (wi_id item)); [by apply IH|].
  destruct (overlaps (wi_resources item) reserved || blocked) eqn:Hov.
  - apply Hkeep; [done|]. apply orb_true_iff in Hov as [?|?]; [by left|right; right; auto].
  - destruct (alloc_error d _ _ _) as [err|] eqn:He.
    + apply Hkeep; [|right; by eapply alloc_error_waits].
      intros Hblk. apply orb_true_iff in Hblk as [?|Hcap]; [by apply Hb|].
      eapply cap_conflict_full; [|exact He]. unfold alloc_error in He.
      destruct (first_held _ _ _) as [[r o]|] eqn:Hh; [|done]. injection He as <-.
      apply bool_decide_eq_true in Hcap as ->. by apply first_held_Some in Hh as [? _].
    + apply IH; [by apply NoDup_js_add| |done]. apply orb_false_iff in Hov as [_ ->]. done.
Qed.

Lemma processWaitQueue_serve now cancelled d :
  dom_lockHeld d = true → isFenced d = false →
  processWaitQueue now cancelled d =
  (Ok tt, set_queue (serve now cancelled (waitQueue d) [] false d).1
            (serve now cancelled (waitQueue d) [] false d).2).
Proof.
  intros Hopen Hf. unfold processWaitQueue. autorewrite with xio_run. rewrite Hf orb_false_r.
  case_bool_decide as Hq.
  - rewrite Hq. simpl. destruct d; simpl in *; subst. done.
  - unfold mbind, ST_bind. by rewrite process_items_serve.
Qed.

(** The queue is served to the end: after [processWaitQueue] every request
    that is still queued waits for something, so no wake-up is lost at a
    release. Resources are not named like the concurrency pseudo-resource. *)
Theorem processWaitQueue_quiescent now cancelled d o d' :
  dom_lockHeld d = true → isFenced d = false → NoDup (inMemoryAllocatedOps d) →
  Forall (λ x, "domain:max_concurrent_ops" ∉ wi_resources x) (waitQueue d) →
  processWaitQueue now cancelled d = (o, d') → o = Ok tt ∧ quiescent d'.
Proof.
  intros Hopen Hf Hnd Hres. rewrite processWaitQueue_serve //. intros [= <- <-]. split; [done|].
  pose proof (serve_waits now cancelled (waitQueue d) [] false d Hnd ltac:(done) Hres) as Hw.
  destruct (serve _ _ _ _ _ _) as [kept d1]. exact Hw.
Qed.

(** C34. The queue is fair: of two queued requests that share a resource, the
    later one is never granted while the earlier one stays queued. *)
Theorem processWaitQueue_fair now cancelled d o d' i j x y :
  dom_lockHeld d = true → isFenced d = false → NoDup (waitQueue d) →
  processWaitQueue now cancelled d = (o, d') →
  waitQueue d !! i = Some x → waitQueue d !! j = Some y → i < j →
  x ∈ waitQueue d' → y ∉ waitQueue d' → cancelled (wi_id y) = false →
  ∀ r, r ∈ wi_resources x → r ∉ wi_resources y.
Proof.
  intros Hopen Hf Hnd. rewrite processWaitQueue_serve //. intros [= <- <-] Hi Hj Hij Hx Hy Hc.
  destruct (serve_fair now cancelled _ _ _ _ _ [] false d Hnd Hi Hj Hij Hx Hy); [congruence|done].
Qed.

(** *** Requests, cancellation and the lost wake-up *)

Lemma queue_waits_mono d d' q :
  NoDup (inMemoryAllocatedOps d) → grants d d' → queue_waits d q → queue_waits d' q.
Proof. intros Hnd Hg Hq k1 x k2 Hk. eapply must_wait_grants; [done..|]. by eapply Hq. Qed.

Lemma queue_waits_push d q x :
  queue_waits d q → must_wait d (concat (map wi_resources q)) x → queue_waits d (q ++ [x]).
Proof.
  intros Hq Hx k1 y k2 Hk. apply snoc_split in Hk as [(-> & -> & _)|(k2' & _ & Hk)]; [done|].
  by eapply Hq.
Qed.

Lemma run_diagnoseConflict {B} op res w (k : error → DM B) d :
  dom_lockHeld d = true → ∃ e, (diagnoseConflict op res w ≫= k) d = k e d.
Proof.
  intros Hopen. unfold diagnoseConflict. autorewrite with xio_run.
  destruct (first_held _ _ _) as [[]|]; [by eexists|].
  destruct (List.find _ res); [by eexists|].
  rewrite run_assoc run_check_cap //. destruct (cap_error d op w); by eexists.
Qed.

Lemma wait_quiescent now cancelledNow op res maxWait b d o d' :
  dom_lockHeld d = true → isFenced d = false → NoDup (inMemoryAllocatedOps d) → quiescent d →
  allocateResourcesWithWait now cancelledNow op res maxWait b d = (o, d') →
  quiescent d' ∧ (∀ id, o = Ok (queued id) → ∃ x, waitQueue d' = waitQueue d ++ [x] ∧ wi_id x = id ∧
    wi_operationId x = op ∧ wi_resources x = res).
Proof.
  intros Hopen Hf Hnd Hq. unfold allocateResourcesWithWait. rewrite run_assertNotFenced //.
  destruct cancelledNow; [by intros [= <- <-]|]. autorewrite with xio_run.
  assert (∀ x, must_wait d (concat (map wi_resources (waitQueue d))) x →
    wi_operationId x = op → wi_resources x = res → wi_id x = dom_nextWait d →
    let d1 := push_wait (λ _, x) d in
    quiescent d1 ∧ (∀ id, Ok (E:=error) (queued (dom_nextWait d)) = Ok (queued id) →
      ∃ x, waitQueue d1 = waitQueue d ++ [x] ∧ wi_id x = id ∧ wi_operationId x = op ∧
        wi_resources x = res)) as Hpush.
  { intros x Hx Hop Hr Hid. split.
    - exact (queue_waits_push d (waitQueue d) x Hq Hx).
    - intros id [= <-]. by exists x. }
  destruct (overlaps res _) eqn:Hov; simpl.
  - case_bool_decide.
    + match goal with |- context [(diagnoseConflict _ _ _ ≫= ?k) _] =>
        destruct (run_diagnoseConflict op res 0 k d Hopen) as [e ->] end. by intros [= <- <-].
    + intros [= <- <-]. by apply (Hpush (mkWaitItem _ _ _ _ _ _)); [left|..].
  - unfold try_catch at 1. unfold mbind at 1, ST_bind at 1. rewrite allocate_eq //.
    destruct (alloc_error d op res 0) as [e|] eqn:He; cbn [mret ST_ret].
    + destruct (is_conflict e && _); [|by intros [= <- <-]].
      intros [= <- <-]. apply (Hpush (mkWaitItem _ _ _ _ _ _)); [|done..].
      apply alloc_error_waits in He as [?|?]; [by right; left|by right; right].
    + intros [= <- <-]. split; [|done]. eapply (queue_waits_mono d); [done|by eapply grants_grant|done].
Qed.

(** Asking for resources keeps the queue quiescent: a request is granted at
    once, refused, or queued behind something it must wait for; the waiters
    already queued are not disturbed. *)
Theorem allocateResourcesWithWait_quiescent now cancelledNow op res maxWait b d o d' :
  dom_lockHeld d = true → isFenced d = false → NoDup (inMemoryAllocatedOps d) → quiescent d →
  allocateResourcesWithWait now cancelledNow op res maxWait b d = (o, d') →
  quiescent d' ∧ (∀ id, o = Ok (queued id) → ∃ x, waitQueue d' = waitQueue d ++ [x] ∧ wi_id x = id ∧
    wi_operationId x = op ∧ wi_resources x = res).
Proof. apply wait_quiescent. Qed.

(** ** Cancelling a waiter *)

(** The domain of [Samples] after a restart: "op-1" holds "r1", "op-2" "r2". *)
Definition sample_owner : OwnerRecord := mkOwnerRecord "dom" "owner-41" 1 (Iso 0) (Iso 100) "host".
Definition sample_domain : ExecutionDomain :=
  (rebuildIsolationFromStore (mkDomain "dom" (mkStore db_open (Some 1%Z) false) true sample_owner
    (Some (mkDomainBudget None (Some 4%Z) None)) [] [] [] [] 0 [] true false)).2.
Definition nobody : nat → bool := λ _, false.
(** "op-3" waits for "r1" and reserves "r3"; "op-4" waits behind it for "r3". *)
Definition domain_waiting : ExecutionDomain :=
  (allocateResourcesWithWait 41 false "op-4" ["r3"] 1000 None
    (allocateResourcesWithWait 40 false "op-3" ["r1"; "r3"] 1000 None sample_domain).2).2.

Lemma NoDup_bool (l : list string) : bool_decide (NoDup l) = true → NoDup l.
Proof. apply bool_decide_eq_true. Qed.

Lemma not_must_wait_head d x q :
  waitQueue d = x :: q → first_held (inMemoryLockedResources d) (wi_operationId x) (wi_resources x) = None →
  concurrency_cap d = Some 4%Z → length (active_ids d) < 4 → ¬ quiescent d.
Proof.
  intros Hq Hh Hc Hl Hquiet. destruct (Hquiet [] x q Hq) as [Ho|[(r & o & Hr & Hget & Hb)|(cap & Hcap & Hle)]].
  - apply overlaps_spec in Ho as (r & _ & Hr). by apply not_elem_of_nil in Hr.
  - rewrite first_held_None in Hh. by eapply Hh.
  - rewrite Hc in Hcap. injection Hcap as <-. lia.
Qed.

(** Cancelling a waiter does not serve the queue: the waiter behind it is left
    queued although nothing holds it back any more. *)
Lemma cancelWait_strands_waiter :
  quiescent domain_waiting ∧
  (cancelWait "op-3" domain_waiting).1 = Ok true ∧
  ¬ quiescent (cancelWait "op-3" domain_waiting).2.
Proof.
  assert (quiescent sample_domain) as H0.
  { intros k1 x k2 Hk. assert (waitQueue sample_domain = []) as Hn by reflexivity.
    rewrite Hn in Hk. destruct k1; discriminate Hk. }
  split_and!.
  - eapply (wait_quiescent 41 false "op-4" ["r3"] 1000 None
      (allocateResourcesWithWait 40 false "op-3" ["r1"; "r3"] 1000 None sample_domain).2);
      [vm_compute; reflexivity..| | |apply surjective_pairing].
    + apply NoDup_bool. vm_compute. reflexivity.
    + eapply (wait_quiescent 40 false "op-3" ["r1"; "r3"] 1000 None sample_domain);
        [vm_compute; reflexivity..| |exact H0|apply surjective_pairing].
      apply NoDup_bool. vm_compute. reflexivity.
  - vm_compute. reflexivity.
  - eapply not_must_wait_head; [vm_compute; reflexivity..|]. vm_compute. repeat constructor.
Qed.

(** ** Witnesses *)

Lemma sample_ops_nodup : NoDup (inMemoryAllocatedOps domain_waiting).
Proof. apply NoDup_bool. vm_compute. reflexivity. Qed.
Lemma allocateResources_spec_witness :
  ∃ d', allocateResources "op-5" ["r5"] 0 None domain_waiting = (Ok tt, d') ∧
    getResourceOwner d' "r5" = Some "op-5" ∧
    getResourceOwner d' "r1" = getResourceOwner domain_waiting "r1".
Proof.
  destruct (allocateResources "op-5" ["r5"] 0 None domain_waiting) as [o d'] eqn:Ha.
  pose proof (allocateResources_spec "op-5" ["r5"] 0 None domain_waiting o d' ltac:(reflexivity)
    ltac:(reflexivity) sample_ops_nodup Ha) as Hspec.
  destruct o as [[]|e]; [|vm_compute in Ha; discriminate].
  destruct Hspec as (H1 & H2 & _). exists d'. split; [reflexivity|].
  split; [apply H1; by left|apply H2]. apply (bool_decide_unpack _). vm_compute. exact I.
Defined.
Lemma waiting_resources :
  Forall (λ x, "domain:max_concurrent_ops" ∉ wi_resources x) (waitQueue domain_waiting).
Proof. apply (bool_decide_unpack _). vm_compute. exact I. Qed.
Lemma processWaitQueue_quiescent_witness :
  ∃ d', processWaitQueue 50 nobody domain_waiting = (Ok tt, d') ∧ quiescent d'.
Proof.
  destruct (processWaitQueue 50 nobody domain_waiting) as [o d'] eqn:Hp.
  destruct (processWaitQueue_quiescent 50 nobody domain_waiting o d' ltac:(reflexivity)
    ltac:(reflexivity) sample_ops_nodup waiting_resources Hp) as [-> Hq].
  exists d'. split; [reflexivity|exact Hq].
Defined.
(** "op-7" wants a free resource, behind "op-3" who waits for "r1". *)
Definition waiter_3 : WaitItem := mkWaitItem 0 "op-3" ["r1"; "r3"] None 40 1000.
Definition waiter_7 : WaitItem := mkWaitItem 1 "op-7" ["r9"] None 41 1000.
Definition domain_mixed : ExecutionDomain := set_queue [waiter_3; waiter_7] sample_domain.
Lemma processWaitQueue_fair_witness :
  waitQueue (processWaitQueue 50 nobody domain_mixed).2 = [waiter_3] ∧
  ∀ r, r ∈ wi_resources waiter_3 → r ∉ wi_resources waiter_7.
Proof.
  split; [vm_compute; reflexivity|].
  apply (processWaitQueue_fair 50 nobody domain_mixed (processWaitQueue 50 nobody domain_mixed).1
    (processWaitQueue 50 nobody domain_mixed).2 0 1 waiter_3 waiter_7);
    [reflexivity|reflexivity| |apply surjective_pairing|reflexivity|reflexivity|lia| | |reflexivity];
    apply (bool_decide_unpack _); vm_compute; exact I.
Defined.
Lemma allocateResourcesWithWait_quiescent_witness :
  ∃ d' id, allocateResourcesWithWait 45 false "op-6" ["r3"] 10 None domain_waiting = (Ok (queued id), d') ∧
    quiescent d'.
Proof.
  destruct (allocateResourcesWithWait 45 false "op-6" ["r3"] 10 None domain_waiting) as [o d'] eqn:Ha.
  destruct (allocateResourcesWithWait_quiescent 45 false "op-6" ["r3"] 10 None domain_waiting o d'
    ltac:(reflexivity) ltac:(reflexivity) sample_ops_nodup (proj1 cancelWait_strands_waiter) Ha) as [Hq _].
  exists d', 2. split; [|exact Hq]. vm_compute in Ha |- *. injection Ha as <- <-. reflexivity.
Defined.
