(* ===== verification/ReleaseSpec.v ===== *)
(** * ReleaseSpec: release, adjudication and rebuilding

    What [internalReleaseResources] gives up and keeps, that it serves the queue,
    that adjudication only closes operations whose processes are accounted for,
    and that the isolation rebuilt at start covers every persisted lease and
    every unfinished operation. *)

From S2P Require Import Prelude Types Events Encode Config Store StoreCalls Samples Paths Capability StoreSpec Domain DomainInv DomainSpec.

(** ** Giving up resources *)

Definition holds_lease (d : ExecutionDomain) (op r : string) : Prop :=
  ∃ l, l ∈ db_resource_leases (db (dom_store d)) ∧ lease_operationId l = op ∧
    lease_resourceId l = r ∧ lease_domainId l = dom_id d.

(** [d'] is [d] after [op] gave something up. *)
Record gives_up (op : string) (d d' : ExecutionDomain) : Prop := {
  gu_frame : dom_id d' = dom_id d ∧ dom_lockHeld d' = dom_lockHeld d ∧ isFenced d' = isFenced d ∧
    waitQueue d' = waitQueue d ∧ dom_budget d' = dom_budget d;
  gu_store : currentEpoch (dom_store d') = currentEpoch (dom_store d) ∧
    db_owners (db (dom_store d')) = db_owners (db (dom_store d)) ∧
    db_operations (db (dom_store d')) = db_operations (db (dom_store d));
  gu_ops : inMemoryAllocatedOps d' = inMemoryAllocatedOps d ∨
    inMemoryAllocatedOps d' = js_delete (inMemoryAllocatedOps d) op;
  gu_locks : ∀ r o, getResourceOwner d' r = Some o → getResourceOwner d r = Some o;
  gu_others : ∀ r o, getResourceOwner d r = Some o → o ≠ op → ¬ holds_lease d op r →
    getResourceOwner d' r = Some o;
  gu_leases : ∀ l, l ∈ db_resource_leases (db (dom_store d')) → l ∈ db_resource_leases (db (dom_store d));
  gu_lease_others : ∀ l, l ∈ db_resource_leases (db (dom_store d)) → lease_operationId l ≠ op →
    l ∈ db_resource_leases (db (dom_store d'));
}.

Lemma js_delete_idem l x : js_delete (js_delete l x) x = js_delete l x.
Proof.
  unfold js_delete. induction l as [|y l IH]; simpl; [done|].
  destruct (negb (bool_decide (y = x))) eqn:Hy; simpl; [by rewrite Hy IH|done].
Qed.

#[export] Instance gives_up_preorder op : PreOrder (gives_up op).
Proof.
  split.
  - intros d. split; auto.
  - intros d1 d2 d3 [(?&?&?&?&?) (?&?&?) Hops Hl Ho Hle Hlo] [(?&?&?&?&?) (?&?&?) Hops' Hl' Ho' Hle' Hlo'].
    split; [split_and!; congruence..| |by eauto| |by eauto|by eauto].
    + destruct Hops as [Ho1|Ho1], Hops' as [Ho2|Ho2]; rewrite Ho2 Ho1; rewrite ?js_delete_idem; auto.
    + intros r o Hr Hne Hno. apply Ho'; [by apply Ho|done|]. contradict Hno.
      destruct Hno as (l & Hin & ? & ? & Hd). exists l. split_and!; [by apply Hle|done..|congruence].
Qed.

(** One resource of the list: the lock and the lease go together. *)
Definition unhold (op res : string) (d : ExecutionDomain) : ExecutionDomain :=
  set_store (mkStore (with_leases (List.filter (λ l,
      negb (bool_decide (lease_operationId l = op) && bool_decide (lease_resourceId l = res))))
    (db (dom_store d))) (currentEpoch (dom_store d)) (inTransaction (dom_store d))) (lock_unlock res d).

Lemma owner_unlock res d r :
  getResourceOwner (lock_unlock res d) r = if decide (res = r) then None else getResourceOwner d r.
Proof. apply jm_get_delete. Qed.

Lemma lease_filter (q : ResourceLease → bool) l leases :
  l ∈ List.filter q leases ↔ l ∈ leases ∧ q l = true.
Proof. by rewrite !list_elem_of_In filter_In. Qed.

Lemma unhold_gives op res d :
  truthy_str res = true →
  getResourceOwner d res = Some op ∨ getResourceOwner d res = None ∨ holds_lease d op res →
  gives_up op d (unhold op res d).
Proof.
  intros Hres Hmine. split; [done|done|by left| | | |].
  - intros r o. change (getResourceOwner (unhold op res d) r) with (getResourceOwner (lock_unlock res d) r).
    rewrite owner_unlock. by case_decide.
  - intros r o Hr Hne Hno.
    change (getResourceOwner (unhold op res d) r) with (getResourceOwner (lock_unlock res d) r).
    rewrite owner_unlock. case_decide; [|done]. subst r. destruct Hmine as [?|[?|?]]; congruence || done.
  - intros l. simpl. rewrite lease_filter. tauto.
  - intros l Hl Hne. simpl. apply lease_filter. split; [done|]. by rewrite bool_decide_false.
Qed.

Fixpoint released (op : string) (persisted resources : list string) (d : ExecutionDomain)
  : list string * ExecutionDomain :=
  match resources with
  | [] => ([], d)
  | res :: rest =>
      if bool_decide (getResourceOwner d res = Some op) || js_has persisted res then
        let '(l, d') := released op persisted rest (unhold op res d) in (res :: l, d')
      else released op persisted rest d
  end.

Lemma run_release_listed op persisted resources : ∀ d,
  dom_lockHeld d = true → Forall (λ r, truthy_str r = true) resources →
  release_listed op persisted resources d
  = (Ok (released op persisted resources d).1, (released op persisted resources d).2).
Proof.
  induction resources as [|res rest IH]; intros d Hopen Hres; [done|].
  apply Forall_cons in Hres as [Hr Hres]. cbn [release_listed released].
  autorewrite with xio_run. unfold getResourceOwner. destruct (_ || _); [|by apply IH].
  autorewrite with xio_run. rewrite run_on_store //. unfold releaseResourceLease. simpl. rewrite Hr.
  unfold exec, modify, mbind, ST_bind.
  change (set_store _ (lock_unlock res d)) with (unhold op res d).
  rewrite IH //. by destruct (released _ _ _ _).
Qed.

Lemma unhold_gone op res d :
  getResourceOwner (unhold op res d) res = None ∧ ¬ holds_lease (unhold op res d) op res.
Proof.
  split.
  - change (getResourceOwner (lock_unlock res d) res = None). rewrite owner_unlock. by case_decide.
  - intros (l & Hin & Hop & Hr & _). simpl in Hin. apply lease_filter in Hin as [_ Hin].
    by rewrite !bool_decide_true in Hin.
Qed.
Lemma holds_lease_gives op d d' r : gives_up op d d' → holds_lease d' op r → holds_lease d op r.
Proof.
  intros [(Hid&_) _ _ _ _ Hle _] (l & Hin & ? & ? & ?). exists l. split_and!; [auto|done..|congruence].
Qed.
Lemma owner_none_gives op d d' r :
  gives_up op d d' → getResourceOwner d r = None → getResourceOwner d' r = None.
Proof.
  intros Hg Hn. destruct (getResourceOwner d' r) as [o|] eqn:Ho; [|done].
  apply (gu_locks _ _ _ Hg) in Ho. congruence.
Qed.

Lemma released_gives op persisted resources : ∀ d,
  Forall (λ r, truthy_str r = true) resources →
  (∀ r, holds_lease d op r → r ∈ persisted) →
  (∀ r, r ∈ persisted → holds_lease d op r ∨ getResourceOwner d r = None) →
  let d' := (released op persisted resources d).2 in
  gives_up op d d' ∧
  (∀ r, r ∈ resources → getResourceOwner d' r ≠ Some op ∧ ¬ holds_lease d' op r).
Proof.
  induction resources as [|res rest IH]; intros d Hres Hall Hper; cbn [released].
  { split; [reflexivity|set_solver]. }
  apply Forall_cons in Hres as [Hr Hres].
  destruct (bool_decide _ || _) eqn:Hb.
  - apply orb_true_iff in Hb. rewrite bool_decide_eq_true js_has_spec in Hb.
    assert (gives_up op d (unhold op res d)) as Hg.
    { apply unhold_gives; [done|]. destruct Hb as [?|[?|?]%Hper]; auto. }
    destruct (unhold_gone op res d) as [Hnone Hnol].
    specialize (IH (unhold op res d) Hres). destruct (released _ _ _ _) as [l d']. simpl in *.
    destruct IH as [Hg' Hrest].
    + intros r Hl. by eapply Hall, holds_lease_gives.
    + intros r Hr'. destruct (decide (r = res)) as [->|Hne]; [by right|].
      destruct (Hper r Hr') as [(l' & Hin & ? & ? & ?)|Hn]; [left|right; by eapply owner_none_gives].
      exists l'. split_and!; [|done..]. simpl. apply lease_filter. split; [done|].
      rewrite (bool_decide_false (lease_resourceId l' = res)); [|congruence]. by rewrite andb_false_r.
    + split; [by etransitivity|]. intros r [->|?]%elem_of_cons; [|by apply Hrest]. split.
      * intros Ho. apply (gu_locks _ _ _ Hg') in Ho. congruence.
      * intros Hl. by eapply Hnol, holds_lease_gives.
  - apply orb_false_iff in Hb as [Hb1%bool_decide_eq_false Hb2].
    apply not_true_iff_false in Hb2. rewrite js_has_spec in Hb2.
    destruct (IH d Hres Hall Hper) as [Hg Hrest]. split; [done|].
    intros r [->|?]%elem_of_cons; [|by apply Hrest]. split.
    + intros Ho. apply (gu_locks _ _ _ Hg) in Ho. done.
    + intros Hl. by eapply Hb2, Hall, holds_lease_gives.
Qed.

(** The other branch: everything the operation holds. *)
Definition held_by (op : string) (d : ExecutionDomain) : list string :=
  (List.filter (λ p, bool_decide (p.2 = op)) (inMemoryLockedResources d)).*1.
Definition unhold_all (op : string) (d : ExecutionDomain) : ExecutionDomain :=
  set_store (mkStore (delete_leases_of op (db (dom_store d))) (currentEpoch (dom_store d))
    (inTransaction (dom_store d))) (foldl (λ d res, lock_unlock res d) d (held_by op d)).

Lemma unlock_all_frame l : ∀ d, let d' := foldl (λ d res, lock_unlock res d) d l in
  dom_id d' = dom_id d ∧ dom_lockHeld d' = dom_lockHeld d ∧ isFenced d' = isFenced d ∧
  waitQueue d' = waitQueue d ∧ dom_budget d' = dom_budget d ∧ dom_store d' = dom_store d ∧
  inMemoryAllocatedOps d' = inMemoryAllocatedOps d ∧
  ∀ r, getResourceOwner d' r = if bool_decide (r ∈ l) then None else getResourceOwner d r.
Proof.
  induction l as [|x l IH]; intros d; cbn [foldl].
  - by split_and!.
  - destruct (IH (lock_unlock x d)) as (->&->&->&->&->&->&->&Hr). split_and!; try done.
    intros r. rewrite Hr owner_unlock. repeat case_bool_decide; repeat case_decide; set_solver.
Qed.

Lemma held_by_spec op d r :
  jm_ok (inMemoryLockedResources d) → r ∈ held_by op d ↔ getResourceOwner d r = Some op.
Proof.
  intros Hok. unfold held_by, getResourceOwner. rewrite list_elem_of_fmap. split.
  - intros ([r' o] & -> & Hin). rewrite list_elem_of_In filter_In bool_decide_eq_true in Hin.
    destruct Hin as [Hin Ho]. simpl in *. subst. apply jm_in_get; [done|by apply list_elem_of_In].
  - intros Hr. exists (r, op). split; [done|]. apply list_elem_of_In, filter_In.
    split; [by apply list_elem_of_In, jm_get_in|by apply bool_decide_eq_true].
Qed.

Lemma unhold_all_gives op d :
  jm_ok (inMemoryLockedResources d) →
  gives_up op d (unhold_all op d) ∧
  (∀ r, getResourceOwner (unhold_all op d) r ≠ Some op ∧ ¬ holds_lease (unhold_all op d) op r).
Proof.
  intros Hok. destruct (unlock_all_frame (held_by op d) d) as (H1&H2&H3&H4&H5&H6&H7&Hr).
  assert (∀ r, getResourceOwner (unhold_all op d) r
    = if bool_decide (r ∈ held_by op d) then None else getResourceOwner d r) as Hr' by exact Hr.
  split.
  - split; simpl; [done|done|by left|..].
    + intros r o. rewrite Hr'. by case_bool_decide.
    + intros r o Ho Hne _. rewrite Hr'. case_bool_decide as Hin; [|done].
      apply held_by_spec in Hin; [congruence|done].
    + intros l. rewrite lease_filter. tauto.
    + intros l Hl Hne. apply lease_filter. split; [done|]. by rewrite bool_decide_false.
  - intros r. split.
    + rewrite Hr'. case_bool_decide as Hin; [done|]. by rewrite -held_by_spec.
    + intros (l & Hin & Hop & _). simpl in Hin. apply lease_filter in Hin as [_ Hin].
      by rewrite bool_decide_true in Hin.
Qed.

(** ** Serving the queue *)

Lemma serve_new_owner now cancelled items : ∀ reserved blocked d r o,
  getResourceOwner (serve now cancelled items reserved blocked d).2 r = Some o →
  getResourceOwner d r = Some o ∨ ∃ x, x ∈ items ∧ wi_operationId x = o.
Proof.
  induction items as [|item items IH]; intros reserved blocked d r o; cbn [serve]; [by left|].
  assert (∀ d1, getResourceOwner d1 r = Some o ∨ (∃ x, x ∈ items ∧ wi_operationId x = o) →
    getResourceOwner d1 r = Some o ∨ ∃ x, x ∈ item :: items ∧ wi_operationId x = o) as Hup.
  { intros d1 [?|(x & ? & ?)]; [by left|right]. exists x. split; [by right|done]. }
  assert (∀ res b, getResourceOwner (let '(kept, d') := serve now cancelled items res b d in
    (item :: kept, d')).2 r = Some o →
    getResourceOwner d r = Some o ∨ ∃ x, x ∈ item :: items ∧ wi_operationId x = o) as Hkeep.
  { intros res b Hr. apply Hup, (IH res b). by destruct (serve _ _ _ _ _ _). }
  destruct (cancelled (wi_id item)); [intros Hr; apply (Hup d); exact (IH _ _ _ _ _ Hr)|].
  destruct (_ || blocked); [apply Hkeep|]. destruct (alloc_error d _ _ _); [apply Hkeep|].
  intros Hr. apply IH in Hr.
  change (getResourceOwner (settled_as _ _ ?g) r) with (getResourceOwner g r) in Hr.
  rewrite grant_owner in Hr. case_bool_decide.
  - destruct Hr as [[= <-]|(x & ? & ?)]; right; eexists; (split; [|done]); [by left|by right].
  - by apply Hup.
Qed.

(** ** The whole release *)

Record dom_ok (d : ExecutionDomain) : Prop := {
  dok_ops : NoDup (inMemoryAllocatedOps d);
  dok_locks : jm_ok (inMemoryLockedResources d);
  dok_queue : Forall (λ x, "domain:max_concurrent_ops" ∉ wi_resources x) (waitQueue d);
}.

Definition in_scope (resources : option (list string)) (r : string) : Prop :=
  match resources with Some ((_ :: _) as l) => r ∈ l | _ => True end.

(** The first half of a release: locks, leases and the operation's own entry. *)
Lemma release_gives op resources d :
  dom_lockHeld d = true → dom_ok d → Forall (λ r, truthy_str r = true) (default [] resources) →
  ∃ l d1, (match resources with
    | Some ((_ :: _) as resources) =>
        leases ← on_store (getPersistedResourceLeases (dom_id d));
        let persisted := js_set (map lease_resourceId
          (List.filter (λ l, bool_decide (lease_operationId l = op)) leases)) in
        release_listed op persisted resources
    | _ =>
        let mine := List.filter (λ p, bool_decide (p.2 = op)) (inMemoryLockedResources d) in
        modify (λ d, foldl (λ d res, lock_unlock res d) d mine.*1);;
        on_store (releaseResourceLease op None);;
        mret mine.*1
    end) d = (Ok l, d1) ∧ gives_up op d d1 ∧
    ∀ r, in_scope resources r → getResourceOwner d1 r ≠ Some op ∧ ¬ holds_lease d1 op r.
Proof.
  intros Hopen [_ Hok _] Hres. destruct resources as [[|r rs]|].
  2:{ unfold getPersistedResourceLeases. rewrite run_on_query //. cbn zeta.
      set (persisted := js_set _). rewrite run_release_listed //. do 2 eexists. split; [done|].
      assert (∀ r', r' ∈ persisted ↔ holds_lease d op r') as Hper.
      { intros r'. unfold persisted. rewrite elem_of_js_set list_elem_of_fmap. unfold holds_lease.
        setoid_rewrite list_elem_of_In. setoid_rewrite filter_In. unfold select_leases.
        setoid_rewrite filter_In. setoid_rewrite bool_decide_eq_true. naive_solver. }
      destruct (released_gives op persisted (r :: rs) d) as [Hg Hall]; [done|..].
      - intros r'. apply Hper.
      - intros r' Hr'. left. by apply Hper.
      - by split. }
  all: cbn zeta; fold (held_by op d); autorewrite with xio_run;
    destruct (unlock_all_frame (held_by op d) d) as (_&Ho&_&_&_&Hs&_);
    rewrite run_on_store; [|by rewrite Ho]; rewrite Hs;
    do 2 eexists; (split; [reflexivity|]);
    change (set_store _ (foldl _ d _)) with (unhold_all op d);
    destruct (unhold_all_gives op d Hok) as [Hg Hall]; (split; [exact Hg|]); intros r' _; apply Hall.
Qed.

(** The journal stays as it was. *)
Definition same_journal (d d' : Db) : Prop := db_journal_events d' = db_journal_events d.
#[export] Instance same_journal_preorder : PreOrder same_journal.
Proof. split; [done|]. intros d1 d2 d3. unfold same_journal. congruence. Qed.
Lemma release_list_journal op resources d l d1 :
  (match resources with
    | Some ((_ :: _) as resources) =>
        leases ← on_store (getPersistedResourceLeases (dom_id d));
        let persisted := js_set (map lease_resourceId
          (List.filter (λ l, bool_decide (lease_operationId l = op)) leases)) in
        release_listed op persisted resources
    | _ =>
        let mine := List.filter (λ p, bool_decide (p.2 = op)) (inMemoryLockedResources d) in
        modify (λ d, foldl (λ d res, lock_unlock res d) d mine.*1);;
        on_store (releaseResourceLease op None);;
        mret mine.*1
    end) d = (Ok l, d1) → same_journal (db (dom_store d)) (db (dom_store d1)).
Proof.
  assert (∀ res, respects (on_db same_journal) (releaseResourceLease op res)) as Hlease.
  { intros res. unfold releaseResourceLease. destruct (or_undef res); by apply respects_exec. }
  pose proof (respects_release_listed same_journal op Hlease) as Hlisted.
  pose proof (λ res, respects_on_store same_journal _ (Hlease res)) as Hon.
  match goal with |- ?m d = _ → _ => assert (respects (dom_db same_journal) m) as Hm end.
  { pose proof (λ A f, @respects_on_query same_journal _ A f). unfold getPersistedResourceLeases.
    destruct resources as [[|r rs]|]; respects_tac;
      (apply respects_memory; [apply _|]; intros ?; apply unlock_all_store). }
  intros Hrun. specialize (Hm d). unfold dom_db in Hm. by rewrite Hrun in Hm.
Qed.

Lemma gives_up_forget op d : gives_up op d (forget_op op d).
Proof. split; [done|done|by right|auto..]. Qed.

(** The store after the [RESOURCES_RELEASED] event. *)
Lemma run_release_event now op l d :
  dom_lockHeld d = true → fencing_error (dom_id d) (dom_store d) = None →
  truthy_str (dom_id d) = true →
  ∃ d1, (∀ B (k : Z → DM B), ∃ n, (on_store (recordEventAndTransitionState now
      (simple_event (dom_id d) None (Some op) "RESOURCES_RELEASED"
        (JObj [("operationId", JStr op); ("resources", js_strings l);
               ("releaseReason", JStr "kernel_release")]) (Iso now))) ≫= k) d = k n d1) ∧
    gives_up op d d1 ∧ inMemoryLockedResources d1 = inMemoryLockedResources d ∧
    inMemoryAllocatedOps d1 = inMemoryAllocatedOps d ∧
    db_resource_leases (db (dom_store d1)) = db_resource_leases (db (dom_store d)) ∧
    ∃ row, db_journal_events (db (dom_store d1)) = db_journal_events (db (dom_store d)) ++ [row] ∧
      je_type row = "RESOURCES_RELEASED" ∧ je_operation_id row = or_undef (Some op) ∧ je_domain_id row = dom_id d.
Proof.
  intros Hopen Hf Hdom.
  edestruct (simple_event_recorded now (dom_id d) None (Some op) "RESOURCES_RELEASED"
    (JObj [("operationId", JStr op); ("resources", js_strings l);
           ("releaseReason", JStr "kernel_release")]) (Iso now) (dom_store d))
    as (row & Hrow & Hty & Hop & _ & Hd); try done.
  - apply fields_forallb. repeat constructor. apply orb_true_iff. right. apply json_ok_strings.
  - unfold admissible_event. simpl. by rewrite andb_false_r.
  - eexists. split.
    + intros B k. exists (je_seq row). rewrite run_on_store // Hrow. reflexivity.
    + split_and!; [|done..|by exists row]. split; [done|done|by left|auto..].
Qed.

Lemma release_facts now cancelled op resources d :
  dom_lockHeld d = true → isFenced d = false → dom_ok d → truthy_str (dom_id d) = true →
  Forall (λ r, truthy_str r = true) (default [] resources) →
  match fencing_error (dom_id d) (dom_store d) with
  | Some e => internalReleaseResources now cancelled op resources d = (Throw e, d)
  | None => ∃ d', internalReleaseResources now cancelled op resources d = (Ok tt, d') ∧
      quiescent d' ∧
      (∀ r, in_scope resources r → ¬ holds_lease d' op r ∧
        (getResourceOwner d' r = Some op → ∃ x, x ∈ waitQueue d ∧ wi_operationId x = op)) ∧
      (∀ r o, getResourceOwner d r = Some o → truthy_str o = true → o ≠ op → ¬ holds_lease d op r →
        getResourceOwner d' r = Some o) ∧
      (∀ l, l ∈ db_resource_leases (db (dom_store d)) → lease_operationId l ≠ op →
        l ∈ db_resource_leases (db (dom_store d'))) ∧
      ∃ row, db_journal_events (db (dom_store d')) = db_journal_events (db (dom_store d)) ++ [row] ∧
        je_type row = "RESOURCES_RELEASED" ∧ je_operation_id row = or_undef (Some op) ∧ je_domain_id row = dom_id d
  end.
Proof.
  intros Hopen Hf Hok Hdom Hres. unfold internalReleaseResources. rewrite run_assertNotFenced //.
  autorewrite with xio_run. rewrite run_on_verify //.
  destruct (fencing_error (dom_id d) (dom_store d)) as [e|] eqn:Hfe; [done|].
  destruct (release_gives op resources d Hopen Hok Hres) as (l & d1 & Hrel & Hg1 & Hall).
  pose proof (release_list_journal _ _ _ _ _ Hrel) as Hj1. unfold same_journal in Hj1.
  rewrite (run_bind_Ok _ _ _ _ _ Hrel). autorewrite with xio_run.
  set (b := negb _).
  assert (∀ B (k : unit → DM B), ∃ d2, (when b (modify (forget_op op)) ≫= k) d1 = k tt d2 ∧
    gives_up op d1 d2 ∧ inMemoryLockedResources d2 = inMemoryLockedResources d1 ∧
    db_resource_leases (db (dom_store d2)) = db_resource_leases (db (dom_store d1)) ∧
    db_journal_events (db (dom_store d2)) = db_journal_events (db (dom_store d1))) as Hwhen.
  { intros B k. destruct b; [exists (forget_op op d1)|exists d1];
      (split; [done|]); (split; [|done]); [apply gives_up_forget|reflexivity]. }
  match goal with |- context [(when b _ ≫= ?k) d1] =>
    destruct (Hwhen _ k) as (d2 & -> & Hg2 & Hlocks2 & Hleases2 & Hj2) end.
  assert (gives_up op d d2) as Hg by by etransitivity.
  pose proof (gu_frame _ _ _ Hg) as (Hid & Hopen2 & Hf2 & Hq2 & Hb2).
  pose proof (gu_store _ _ _ Hg) as (Hep & Hown & _).
  destruct (run_release_event now op l d2) as (d3 & Hev & Hg3 & Hlocks3 & Hops3 & Hleases3 & row & Hj3 & Hty & Hoid & Hrd);
    [congruence| |congruence|].
  { rewrite Hid -Hfe. by apply fencing_error_db. }
  rewrite Hid in Hev. match goal with |- context [(on_store (recordEventAndTransitionState _ _) ≫= ?k) d2] =>
    destruct (Hev _ k) as [n ->] end.
  assert (gives_up op d d3) as Hgd by by etransitivity.
  pose proof (gu_frame _ _ _ Hgd) as (_ & Hopen3 & Hf3 & Hq3 & _).
  rewrite processWaitQueue_serve; [|congruence..].
  destruct Hok as [Hnd _ Hcap].
  assert (NoDup (inMemoryAllocatedOps d3)) as Hnd3.
  { destruct (gu_ops _ _ _ Hgd) as [->| ->]; [done|]. unfold js_delete.
    apply NoDup_ListNoDup. by apply List.NoDup_filter, NoDup_ListNoDup. }
  pose proof (serve_waits now cancelled (waitQueue d3) [] false d3 Hnd3 ltac:(done)) as Hw.
  pose proof (serve_grants now cancelled (waitQueue d3) [] false d3) as Hgr.
  pose proof (serve_new_owner now cancelled (waitQueue d3) [] false d3) as Hnew.
  rewrite Hq3 in Hw Hgr Hnew |- *. specialize (Hw Hcap).
  destruct (serve _ _ _ _ _ _) as [kept d4]. simpl in Hgr, Hnew.
  eexists. split; [reflexivity|]. cbn [fst snd].
  destruct (grants_frame _ _ Hgr) as (_ & _ & Hst & _ & _ & Hid4).
  split_and!.
  - exact Hw.
  - intros r Hr. destruct (Hall r Hr) as [Hno Hnol]. split.
    + intros (l' & Hin & ? & ? & Hd). apply Hnol. exists l'. simpl in Hin, Hd.
      rewrite Hst Hleases3 Hleases2 in Hin. split_and!; [done..|].
      rewrite Hd Hid4. destruct (gu_frame _ _ _ Hgd) as [-> _].
      by destruct (gu_frame _ _ _ Hg1) as [-> _].
    + intros Ho. apply Hnew in Ho as [Ho|?]; [|done]. exfalso. apply Hno.
      unfold getResourceOwner in *. by rewrite -Hlocks2 -Hlocks3.
  - intros r o Ho Htr Hne Hnl. eapply (grants_locks _ _ Hgr); [|done].
    by apply (gu_others _ _ _ Hgd).
  - intros l' Hl' Hne. simpl. rewrite Hst. by apply (gu_lease_others _ _ _ Hgd).
  - exists row. simpl. rewrite Hst Hj3 Hj2 Hj1 Hrd. by destruct (gu_frame _ _ _ Hg) as [-> _].
Qed.


(** ** Adjudication *)

(** Nothing of the operation is left running, as far as the probes can tell. *)
Definition scan_clean (probes : Probes) (identity : option ProcessIdentity) : bool :=
  let '(residual, failed) := residual_scan probes identity in
  bool_decide (residual = []) && negb failed.

Lemma foldl_js_push_nil members : ∀ own, foldl js_push own members = [] → own = [] ∧ members = [].
Proof.
  induction members as [|m members IH]; intros own; simpl; [done|].
  intros [Hp ->]%IH. unfold js_push in Hp. case_bool_decide; [|by destruct own].
  subst. set_solver.
Qed.

(** A clean scan means what it says: the recorded process is gone, and so is its
    group when the driver can list it. *)
Lemma scan_clean_sound probes identity :
  scan_clean probes (Some identity) = true →
  (pid identity ≠ 0%Z → probeAlive probes (pid identity) = false) ∧
  (∀ g evidence, pgid identity = Some g → groupEvidence probes = Some evidence → evidence g = Ok []).
Proof.
  unfold scan_clean. destruct (residual_scan probes (Some identity)) as [residual failed] eqn:Hs.
  intros [->%bool_decide_eq_true ->%negb_true_iff]%andb_true_iff.
  unfold residual_scan in Hs. simpl in Hs.
  set (p := if bool_decide (pid identity = 0%Z) then None else Some (pid identity)) in Hs.
  set (own := match p with Some p => if probeAlive probes p then [p] else [] | None => [] end) in Hs.
  assert (own = [] ∧ ∀ g evidence, pgid identity = Some g → groupEvidence probes = Some evidence →
    evidence g = Ok []) as [Hown Hg].
  { destruct (pgid identity) as [g|]; [|by simplify_eq].
    destruct (groupEvidence probes) as [evidence|].
    - destruct (evidence g) as [members|] eqn:He; [|done]. injection Hs as Hs.
      apply foldl_js_push_nil in Hs as [-> ->]. split; [done|]. by intros g' ev [= <-] [= <-].
    - split; [|done]. destruct p as [p|]; [|done].
      injection Hs as Hs. destruct (probeAlive probes (- g)); [|done].
      unfold js_push in Hs. case_bool_decide; [done|by destruct own]. }
  split; [|done]. intros Hne. unfold own, p in Hown. rewrite bool_decide_false // in Hown.
  by destruct (probeAlive probes (pid identity)).
Qed.

(** What [adjudicate] asks of the operation. *)
Record adjudicable (probes : Probes) (opId : string) (verdict : AdjudicationVerdict)
    (d : ExecutionDomain) (op : Operation) (result : OperationResult) : Prop := {
  adj_fence : fencing_error (dom_id d) (dom_store d) = None;
  adj_found : find_operation opId (db (dom_store d)) = Some op;
  adj_result : op_result op = Some result;
  adj_done : op_done op = true;
  adj_indeterminate : is_indeterminate result = true;
  adj_scan : verdict = confirmed_stopped_verdict → scan_clean probes (op_processIdentity op) = true;
}.

Section Adjudication.
Context (now : Z) (cancelled : nat → bool) (probes : Probes) (opId : string)
  (verdict : AdjudicationVerdict) (actor : string) (note : option string)
  (decision : option AdjudicationDecision) (evidence : option string).
Let run := adjudicate now cancelled probes opId verdict actor note decision evidence.

Definition adjudication_of (op : Operation) : AdjudicationRecord :=
  let residual := (residual_scan probes (op_processIdentity op)).1 in
  mkAdjudicationRecord opId verdict decision actor note evidence
    (if bool_decide (residual = []) then None else Some residual) (Iso now).

Lemma adjudicate_refuses d :
  dom_lockHeld d = true → isFenced d = false →
  (¬ ∃ op result, adjudicable probes opId verdict d op result) → ∃ e, run d = (Throw e, d).
Proof using Type.
  intros Hopen Hf Hno. unfold run, adjudicate. rewrite run_assertNotFenced //.
  autorewrite with xio_run. rewrite run_on_verify //.
  destruct (fencing_error (dom_id d) (dom_store d)) eqn:Hfe; [by eexists|].
  unfold getOperation. rewrite run_on_query //.
  destruct (find_operation opId _) as [op|] eqn:Hop; [|by eexists].
  destruct (op_result op) as [result|] eqn:Hres; [|by eexists].
  destruct (op_done op && is_indeterminate result) eqn:Hstate; [|by eexists].
  apply andb_true_iff in Hstate as [Hdone Hind].
  destruct (residual_scan probes (op_processIdentity op)) as [residual failed] eqn:Hscan.
  autorewrite with xio_run. case_bool_decide as Hv; simpl.
  - destruct failed; [by eexists|]. autorewrite with xio_run.
    case_bool_decide as Hr; simpl; [|by eexists]. exfalso. apply Hno. exists op, result. split; try done.
    intros _. unfold scan_clean. rewrite Hscan Hr. done.
  - exfalso. apply Hno. exists op, result. by split.
Qed.

Lemma adjudicate_accepts d op result :
  dom_lockHeld d = true → isFenced d = false → dom_ok d → truthy_str (dom_id d) = true →
  Forall (λ r, truthy_str r = true) (op_requiredResources op) →
  op_domainId op = dom_id d →
  adjudicable probes opId verdict d op result →
  ∃ d', run d = (Ok (adjudication_of op), d') ∧ quiescent d' ∧
    (∀ r, in_scope (Some (op_requiredResources op)) r → ¬ holds_lease d' opId r).
Proof using Type.
  intros Hopen Hf Hok Hdom Hres Hopd [Hfe Hop Hresult Hdone Hind Hscan].
  unfold run, adjudicate. rewrite run_assertNotFenced //.
  autorewrite with xio_run. rewrite run_on_verify // Hfe.
  unfold getOperation. rewrite run_on_query // Hop Hresult Hdone Hind. cbn [andb].
  unfold scan_clean, adjudication_of in *.
  destruct (residual_scan probes (op_processIdentity op)) as [residual failed]. cbn [fst].
  rewrite !run_throw_if.
  assert (bool_decide (verdict = confirmed_stopped_verdict) && failed = false ∧
    bool_decide (verdict = confirmed_stopped_verdict) && negb (bool_decide (residual = [])) = false)
    as [-> ->].
  { destruct (bool_decide (verdict = confirmed_stopped_verdict)) eqn:Hv; [|done].
    apply bool_decide_eq_true in Hv. specialize (Hscan Hv). apply andb_true_iff in Hscan as [-> Hfl].
    by apply negb_true_iff in Hfl as ->. }
  set (record := mkAdjudicationRecord _ _ _ _ _ _ _ _).
  edestruct (simple_event_recorded now (dom_id d) (Some (op_runId op)) (Some opId)
    "OPERATION_ADJUDICATED" (JObj (adjudication_fields record ++
      [("processIdentity", jopt js_identity (op_processIdentity op))])) (Iso now) (dom_store d))
    as (row & Hrow & _); try done.
  { apply fields_forallb, Forall_app. split; [unfold adjudication_fields; field_tac|].
    repeat constructor. apply field_ok_jopt, json_ok_identity. }
  { unfold admissible_event. simpl. by rewrite andb_false_r. }
  rewrite run_on_store // Hrow. set (d1 := set_store _ d).
  rewrite run_on_store //. cbn [dom_store d1 set_store].
  set (s1 := mkStore _ _ _).
  assert (∃ s2, updateOperationResult opId (with_adjudication result record) s1 = (Ok tt, s2) ∧
    currentEpoch s2 = currentEpoch s1 ∧ db_owners (db s2) = db_owners (db s1) ∧
    db_resource_leases (db s2) = db_resource_leases (db s1)) as (s2 & -> & Hep & Hown & Hle).
  { unfold updateOperationResult, transaction. destruct (inTransaction s1); unfold getOperation;
      autorewrite with xio_run; change (find_operation opId (db _)) with (find_operation opId (db (dom_store d)));
      rewrite Hop; autorewrite with xio_run; rewrite (fencing_error_db _ (dom_store d)) // Hopd Hfe;
      eexists; split; reflexivity || done. }
  set (d2 := set_store s2 d1).
  destruct Hok as [Hn Hl Hc].
  pose proof (release_facts now cancelled opId (Some (op_requiredResources op)) d2
    Hopen Hf ltac:(by split) Hdom Hres) as Hrel.
  change (dom_id d2) with (dom_id d) in Hrel. change (dom_store d2) with s2 in Hrel.
  rewrite (fencing_error_db _ (dom_store d)) // Hfe in Hrel.
  destruct Hrel as (d' & Hrun & Hq & Hscope & _). exists d'. split_and!; [|done|].
  - change (set_store s2 d1) with d2. by rewrite (run_bind_Ok _ _ _ _ _ Hrun).
  - intros r Hr. by apply Hscope.
Qed.
End Adjudication.

(** Adjudication closes only what is accounted for: it is refused, with
    nothing changed, unless the operation is done and indeterminate, the domain
    is the current owner and, for [confirmed_stopped], the scan of its processes
    completed and found none; when it is accepted, the record lists exactly the
    residual processes and the operation's leases are gone. *)
Theorem adjudicate_gate now cancelled probes opId verdict actor note decision evidence d :
  dom_lockHeld d = true → isFenced d = false → dom_ok d → truthy_str (dom_id d) = true →
  (∀ op, find_operation opId (db (dom_store d)) = Some op →
    op_domainId op = dom_id d ∧ Forall (λ r, truthy_str r = true) (op_requiredResources op)) →
  let run := adjudicate now cancelled probes opId verdict actor note decision evidence d in
  (∃ op result d', adjudicable probes opId verdict d op result ∧
    run = (Ok (adjudication_of now probes opId verdict actor note decision evidence op), d') ∧
    quiescent d' ∧
    ∀ r, in_scope (Some (op_requiredResources op)) r → ¬ holds_lease d' opId r) ∨
  ((¬ ∃ op result, adjudicable probes opId verdict d op result) ∧ ∃ e, run = (Throw e, d)).
Proof.
  intros Hopen Hf Hok Hdom Hops run.
  assert (Decision (∃ op result, adjudicable probes opId verdict d op result)) as Hdec.
  { destruct (fencing_error (dom_id d) (dom_store d)) eqn:Hfe; [right; intros (?&?&[]); congruence|].
    destruct (find_operation opId (db (dom_store d))) as [op|] eqn:Ho;
      [|right; intros (?&?&[]); congruence].
    destruct (op_result op) as [result|] eqn:Hr; [|right; intros (?&?&[]); congruence].
    destruct (op_done op) eqn:Hd; [|right; intros (?&?&[]); congruence].
    destruct (is_indeterminate result) eqn:Hi; [|right; intros (?&?&[]); congruence].
    destruct (decide (verdict = confirmed_stopped_verdict → scan_clean probes (op_processIdentity op) = true))
      as [?|Hn]; [left; by exists op, result|right; intros (?&?&[? ? ? ? ? Hs]); apply Hn; congruence]. }
  destruct Hdec as [(op & result & Hadj)|Hno]; [left|right].
  - destruct (Hops op) as [Hd Hr]; [apply Hadj|].
    destruct (adjudicate_accepts now cancelled probes opId verdict actor note decision evidence d op result)
      as (d' & ? & ? & ?); [done..|]. by exists op, result, d'.
  - split; [done|]. by apply adjudicate_refuses.
Qed.

(** ** Rebuilding the barrier *)

(** [o] may hold [r] after a restart: it has a lease on it, is unfinished and
    requires it, or is the apply phase of a workspace commit. *)
Definition may_hold (dom : string) (db : Db) (r o : string) : Prop :=
  (∃ l, l ∈ select_leases dom db ∧ lease_resourceId l = r ∧ lease_operationId l = o) ∨
  (∃ op, op ∈ select_unfinished dom db ∧ r ∈ op_requiredResources op ∧ op_id op = o) ∨
  (∃ txId, o = txId +:+ ":apply").

Definition lock_covers (P : string → string → Prop) (locks : list (string * string)) (r : string) : Prop :=
  ∃ o, jm_get locks r = Some o ∧ P r o.

Lemma lock_covers_set (P : string → string → Prop) locks r r' o :
  P r' o → lock_covers P locks r ∨ r = r' → lock_covers P (jm_set locks r' o) r.
Proof.
  intros HP Hr. unfold lock_covers. setoid_rewrite jm_get_set. case_decide; [subst; by exists o|].
  by destruct Hr as [?|?].
Qed.
Lemma lock_covers_set_all (P : string → string → Prop) rs o r : ∀ locks,
  (∀ r', r' ∈ rs → P r' o) → lock_covers P locks r ∨ r ∈ rs →
  lock_covers P (foldl (λ m res, jm_set m res o) locks rs) r.
Proof.
  intros locks HP Hr. unfold lock_covers. setoid_rewrite jm_get_set_all.
  case_bool_decide; [eexists; split; [done|auto]|]. by destruct Hr.
Qed.

Lemma isolate_leases_cover P ls r : ∀ acc,
  (∀ l, l ∈ ls → P (lease_resourceId l) (lease_operationId l)) →
  lock_covers P acc.1 r ∨ (∃ l, l ∈ ls ∧ lease_resourceId l = r) →
  lock_covers P (foldl isolate_lease acc ls).1 r.
Proof.
  induction ls as [|l ls IH]; intros acc HP Hr; cbn [foldl].
  { destruct Hr as [?|(l & Hl & _)]; [done|set_solver]. }
  apply IH; [set_solver|]. destruct Hr as [Hr|(l' & [->|Hl]%elem_of_cons & <-)].
  - left. apply lock_covers_set; [set_solver|by left].
  - left. apply lock_covers_set; [set_solver|by right].
  - right. by exists l'.
Qed.
Lemma isolate_ops_cover P ops r : ∀ i,
  (∀ op r', op ∈ ops → r' ∈ op_requiredResources op → P r' (op_id op)) →
  lock_covers P (iso_locks i) r ∨ (∃ op, op ∈ ops ∧ r ∈ op_requiredResources op) →
  lock_covers P (iso_locks (foldl isolate_op i ops)) r.
Proof.
  induction ops as [|op ops IH]; intros i HP Hr; cbn [foldl].
  { destruct Hr as [?|(op & Ho & _)]; [done|set_solver]. }
  apply IH; [set_solver|]. destruct Hr as [Hr|(op' & [->|Hop]%elem_of_cons & Hr)].
  - left. apply lock_covers_set_all; [set_solver|by left].
  - left. apply lock_covers_set_all; [set_solver|by right].
  - right. by exists op'.
Qed.
Lemma isolate_ops_active ops x : ∀ i,
  x ∈ iso_ops i ∨ (∃ op, op ∈ ops ∧ op_id op = x) → x ∈ iso_ops (foldl isolate_op i ops).
Proof.
  induction ops as [|op ops IH]; intros i Hx; cbn [foldl].
  { destruct Hx as [?|(op & Ho & _)]; [done|set_solver]. }
  apply IH. destruct Hx as [Hx|(op' & [->|Hop]%elem_of_cons & <-)].
  - left. apply elem_of_js_add. by left.
  - left. apply elem_of_js_add. by right.
  - right. by exists op'.
Qed.

(** The commit scan only adds locks, of [:apply] owners, and active operations. *)
Definition barrier_grows (P : string → string → Prop) : relation ExecutionDomain := λ d d',
  dom_lockHeld d' = dom_lockHeld d ∧
  (∀ r, lock_covers P (inMemoryLockedResources d) r → lock_covers P (inMemoryLockedResources d') r) ∧
  (∀ x, x ∈ inMemoryAllocatedOps d → x ∈ inMemoryAllocatedOps d').
#[export] Instance barrier_grows_preorder P : PreOrder (barrier_grows P).
Proof.
  split; [intros d; by split_and!|intros d1 d2 d3 (?&?&?) (?&?&?); split_and!; [congruence|eauto..]].
Qed.

Lemma respects_barrier_query P {A} (f : Db → A) : respects (barrier_grows P) (on_store (query f)).
Proof. intros d. unfold on_store, focus. destruct (dom_lockHeld d); simpl; by split_and!. Qed.

Lemma respects_isolate_tx P pending :
  (∀ r txId, P r (txId +:+ ":apply")) → respects (barrier_grows P) (isolate_tx pending).
Proof.
  intros HP. unfold isolate_tx, getOperation.
  apply respects_bind; [apply _|apply respects_barrier_query|intros op].
  apply respects_bind; [apply _|respects_tac|intros _].
  apply respects_bind; [apply _| |].
  - apply respects_for_each; [apply _|]. intros root. unfold isolate_root.
    apply respects_bind; [apply _|respects_tac|intros d].
    apply respects_bind; [apply _|respects_tac|intros _].
    apply respects_modify. intros d'. split_and!; [done| |done].
    intros r Hr. apply lock_covers_set; [apply HP|by left].
  - intros _. apply respects_modify. intros d. split_and!; [done..|].
    intros x Hx. apply elem_of_js_add. by left.
Qed.

(** When the scan ends, the roots of every pending commit are locked by it. *)
Definition keeps_locks : relation ExecutionDomain := λ d d',
  dom_lockHeld d' = dom_lockHeld d ∧ dom_store d' = dom_store d ∧
  ∀ r o, truthy_str o = true → getResourceOwner d r = Some o → getResourceOwner d' r = Some o.
#[export] Instance keeps_locks_preorder : PreOrder keeps_locks.
Proof.
  split; [intros d; by split_and!|].
  intros d1 d2 d3 (?&?&?) (?&?&?); split_and!; [congruence..|eauto].
Qed.
Lemma apply_truthy txId : truthy_str (txId +:+ ":apply") = true.
Proof. by destruct txId. Qed.

Lemma isolate_root_locks owner root d d' :
  truthy_str owner = true → isolate_root owner root d = (Ok tt, d') →
  keeps_locks d d' ∧ getResourceOwner d' ("workspace:write:" +:+ root) = Some owner.
Proof.
  intros Howner. unfold isolate_root. autorewrite with xio_run.
  generalize ("workspace:write:" +:+ root). intros resource Hrun.
  apply bind_Ok_inv in Hrun as ([] & d1 & Hguard & [= <-]).
  assert (d1 = d ∧ ∀ o, truthy_str o = true → getResourceOwner d resource = Some o → o = owner)
    as [-> Hsame].
  { unfold getResourceOwner. destruct (jm_get (inMemoryLockedResources d) resource) as [o|];
      [|by injection Hguard as <-].
    unfold throw_if in Hguard. destruct (truthy_str o && negb (bool_decide (o = owner))) eqn:Hb;
      [done|]. injection Hguard as <-. split; [done|]. intros o' Ho' [= ->].
    rewrite Ho' /= in Hb. by case_bool_decide. }
  unfold keeps_locks, getResourceOwner in *. cbn. rewrite jm_get_set decide_True //.
  split_and!; [done..| |done]. intros r o Ho Hr. rewrite jm_get_set.
  case_decide; [subst|done]. f_equal. symmetry. eauto.
Qed.
Lemma isolate_tx_locks pending d d' :
  isolate_tx pending d = (Ok tt, d') →
  keeps_locks d d' ∧
  ∀ root, root ∈ pending.2 →
    getResourceOwner d' ("workspace:write:" +:+ root) = Some (pending.1 +:+ ":apply").
Proof.
  unfold isolate_tx. intros (op & d1 & Hop & Hrun)%bind_Ok_inv.
  assert (d1 = d) as ->.
  { unfold getOperation, on_store, focus in Hop. destruct (dom_lockHeld d); [|done].
    simpl in Hop. rewrite set_store_same in Hop. congruence. }
  destruct op; [done|]. rewrite run_ret in Hrun.
  apply bind_Ok_inv in Hrun as ([] & d2 & Hloop & [= <-]).
  apply (for_each_collects keeps_locks (λ root d,
    getResourceOwner d ("workspace:write:" +:+ root) = Some (pending.1 +:+ ":apply"))) in Hloop
    as [Hkeep Hall]; [by split|..].
  - intros root s s'. apply isolate_root_locks, apply_truthy.
  - intros root s s' (_ & _ & Hk). apply Hk, apply_truthy.
Qed.

Lemma rebuild_facts d o d' :
  dom_lockHeld d = true → rebuildIsolationFromStore d = (o, d') →
  let db := db (dom_store d) in
  (∀ l, l ∈ select_leases (dom_id d) db →
    lock_covers (may_hold (dom_id d) db) (inMemoryLockedResources d') (lease_resourceId l)) ∧
  (∀ op, op ∈ select_unfinished (dom_id d) db →
    op_id op ∈ inMemoryAllocatedOps d' ∧
    ∀ r, r ∈ op_requiredResources op →
      lock_covers (may_hold (dom_id d) db) (inMemoryLockedResources d') r) ∧
  (o = Ok tt → ∃ scan, scan_txs (mkTxScan [] []) (select_journal (dom_id d) 0 db) = Ok scan ∧
    ∀ pending root, pending ∈ tx_pending scan → root ∈ pending.2 →
      getResourceOwner d' ("workspace:write:" +:+ root) = Some (pending.1 +:+ ":apply")).
Proof.
  intros Hopen Hrun sdb. set (P := may_hold (dom_id d) sdb).
  set (i := base_isolation (dom_id d) sdb).
  set (d1 := set_isolation (iso_locks i) (iso_ops i) (iso_budgets i) d).
  assert (barrier_grows P d1 d') as (_ & Hlocks & Hact).
  { replace d' with (rebuildIsolationFromStore d).2 by by rewrite Hrun.
    unfold rebuildIsolationFromStore. autorewrite with xio_run. rewrite run_on_query //.
    autorewrite with xio_run. apply respects_after; [apply _|reflexivity|].
    apply respects_bind; [apply _|apply respects_barrier_query|intros events].
    apply respects_bind; [apply _|respects_tac|intros scan].
    apply respects_for_each; [apply _|]. intros pending. apply respects_isolate_tx.
    intros r txId. right. right. by exists txId. }
  assert (∀ r, (∃ l, l ∈ select_leases (dom_id d) sdb ∧ lease_resourceId l = r) ∨
    (∃ op, op ∈ select_unfinished (dom_id d) sdb ∧ r ∈ op_requiredResources op) →
    lock_covers P (iso_locks i) r) as Hbase.
  { intros r Hr. unfold i, base_isolation.
    pose proof (isolate_leases_cover P (select_leases (dom_id d) sdb) r ([], [])) as Hl.
    destruct (foldl isolate_lease _ _) as [locks budgets].
    apply isolate_ops_cover.
    - intros op r' Hop Hr'. right. left. by exists op.
    - destruct Hr as [Hr|?]; [left|by right]. apply Hl; [|by right].
      intros l Hl'. left. by exists l. }
  split_and!.
  - intros l Hl. apply Hlocks, Hbase. left. by exists l.
  - intros op Hop. split.
    + apply Hact. unfold d1, i, base_isolation. destruct (foldl isolate_lease _ _). simpl.
      apply isolate_ops_active. right. by exists op.
    + intros r Hr. apply Hlocks, Hbase. right. by exists op.
  - intros ->. revert Hrun. unfold rebuildIsolationFromStore, getJournalEvents.
    do 2 (autorewrite with xio_run; rewrite run_on_query //). autorewrite with xio_run.
    change (dom_store d1) with (dom_store d). change (dom_id d1) with (dom_id d).
    cbn [dom_store dom_id set_isolation].
    destruct (scan_txs _ _) as [scan|] eqn:Hscan; [|done]. intros Hrun. exists scan.
    split; [done|].
    apply (for_each_collects keeps_locks (λ pending d, ∀ root, root ∈ pending.2 →
      getResourceOwner d ("workspace:write:" +:+ root) = Some (pending.1 +:+ ":apply"))) in Hrun
      as [_ Hall]; [eauto|apply isolate_tx_locks|].
    intros pending s s' (_ & _ & Hk) HQ root Hroot. apply Hk; [apply apply_truthy|auto].
Qed.

(** C35. Recovery before execution: after the rebuild, every resource a persisted
    lease or an unfinished operation claims is locked by one of its claimants,
    and every unfinished operation counts as active; this holds even if the scan
    of pending workspace commits stops with an error. When the rebuild succeeds,
    every root of a pending commit is locked by that commit. *)
Theorem rebuild_covers_everything d o d' :
  dom_lockHeld d = true → rebuildIsolationFromStore d = (o, d') →
  let db := db (dom_store d) in
  (∀ l, l ∈ select_leases (dom_id d) db →
    lock_covers (may_hold (dom_id d) db) (inMemoryLockedResources d') (lease_resourceId l)) ∧
  (∀ op, op ∈ select_unfinished (dom_id d) db →
    op_id op ∈ inMemoryAllocatedOps d' ∧
    ∀ r, r ∈ op_requiredResources op →
      lock_covers (may_hold (dom_id d) db) (inMemoryLockedResources d') r) ∧
  (o = Ok tt → ∃ scan, scan_txs (mkTxScan [] []) (select_journal (dom_id d) 0 db) = Ok scan ∧
    ∀ pending root, pending ∈ tx_pending scan → root ∈ pending.2 →
      getResourceOwner d' ("workspace:write:" +:+ root) = Some (pending.1 +:+ ":apply")).
Proof. intros; eapply rebuild_facts; eassumption. Qed.

(** ** Witnesses *)

Lemma sample_dom_ok : dom_ok domain_waiting.
Proof.
  split; [exact sample_ops_nodup| |exact waiting_resources].
  apply NoDup_bool. vm_compute. reflexivity.
Qed.

(** "op-2" ended indeterminate and was not released; its process is gone. *)
Definition gone : Probes := mkProbes (λ _, false) None.
Definition lingering : Probes := mkProbes (λ p, bool_decide (p = 77)%Z) None.
Definition sample_identity : ProcessIdentity :=
  mkProcessIdentity 77 None None (Iso 35) None None None None.
Definition domain_indeterminate : ExecutionDomain :=
  set_store (mkStore (play (H:=sample_crypto)
    [(35%Z, Some 1%Z, CUpdateOperationStatus "op-2" st_active (Some sample_identity) None);
     (50%Z, Some 1%Z, CRecordOperationResult "op-2" sample_indeterminate false)] db_open)
    (Some 1%Z) false) domain_waiting.
Lemma adjudicate_gate_witness :
  let run p := adjudicate 70 nobody p "op-2" confirmed_stopped_verdict "alice" None None None
    domain_indeterminate in
  (∃ e, run lingering = (Throw e, domain_indeterminate)) ∧
  (∃ record d', run gone = (Ok record, d') ∧ quiescent d').
Proof.
  assert (∀ op, find_operation "op-2" (db (dom_store domain_indeterminate)) = Some op →
    op_domainId op = dom_id domain_indeterminate ∧
    Forall (λ r, truthy_str r = true) (op_requiredResources op)) as Hops.
  { intros op Ho. vm_compute in Ho. injection Ho as <-. split; [reflexivity|]. by repeat constructor. }
  assert (dom_ok domain_indeterminate) as Hok by (destruct sample_dom_ok; by split).
  cbv zeta. split.
  - destruct (adjudicate_gate 70 nobody lingering "op-2" confirmed_stopped_verdict "alice" None None None
      domain_indeterminate ltac:(reflexivity) ltac:(reflexivity) Hok ltac:(reflexivity) Hops)
      as [(op & result & d' & [_ Ho _ _ _ Hs] & _)|[_ He]]; [|exact He].
    specialize (Hs eq_refl). vm_compute in Ho. injection Ho as <-. vm_compute in Hs. discriminate.
  - destruct (adjudicate_gate 70 nobody gone "op-2" confirmed_stopped_verdict "alice" None None None
      domain_indeterminate ltac:(reflexivity) ltac:(reflexivity) Hok ltac:(reflexivity) Hops)
      as [(op & result & d' & _ & Hrun & Hq & _)|[_ [e He]]].
    + do 2 eexists. split; [exact Hrun|exact Hq].
    + apply (f_equal (λ x, is_ok x.1)) in He. vm_compute in He. discriminate.
Defined.
Lemma sample_unfinished : ∃ op, op_id op = "op-1" ∧ op ∈ select_unfinished "dom" db_open.
Proof.
  assert ("op-1" ∈ map op_id (select_unfinished "dom" db_open)) as (op & -> & Hop)%list_elem_of_fmap
    by (apply (bool_decide_unpack _); vm_compute; exact I).
  by exists op.
Qed.
Lemma rebuild_covers_everything_witness : "op-1" ∈ inMemoryAllocatedOps sample_domain.
Proof.
  pose proof (rebuild_covers_everything
    (mkDomain "dom" (mkStore db_open (Some 1%Z) false) true sample_owner
      (Some (mkDomainBudget None (Some 4%Z) None)) [] [] [] [] 0 [] true false) _ sample_domain
    eq_refl (surjective_pairing _)) as (_ & Hops & _).
  destruct sample_unfinished as (op & <- & Hop). apply (Hops op Hop).
Defined.
