(* ===== verification/DomainLock.v ===== *)
(** * DomainLock: one owner per domain

    Acquiring a domain directory: who is refused, what a successful acquisition
    owns, and what a failed one leaves behind; releasing on close. *)

From S2P Require Import Prelude Types Events Encode Config Store StoreCalls Samples Paths Capability StoreSpec Domain DomainSpec ReleaseSpec.

(** The owner on record is alive or its lease has not run out. *)
Definition owner_holds (kill0 : Z → bool) (now : Z) (p : Process) (o : OwnerRecord) : bool :=
  negb (date_le (own_expiresAt o) now) && considered_alive kill0 (proc_hostname p) o.

Lemma rebuild_store d o d' :
  rebuildIsolationFromStore d = (o, d') → dom_store d' = dom_store d ∧ dom_id d' = dom_id d ∧
    dom_ownerRecord d' = dom_ownerRecord d ∧ dom_lockHeld d' = dom_lockHeld d ∧ isFenced d' = isFenced d.
Proof.
  intros Hrun. replace d' with (rebuildIsolationFromStore d).2 by by rewrite Hrun. clear o d' Hrun.
  set (R := λ d d' : ExecutionDomain, dom_store d' = dom_store d ∧ dom_id d' = dom_id d ∧
    dom_ownerRecord d' = dom_ownerRecord d ∧ dom_lockHeld d' = dom_lockHeld d ∧ isFenced d' = isFenced d).
  assert (PreOrder R) as HR.
  { split; [intros x; by split_and!|intros x y z (?&?&?&?&?) (?&?&?&?&?); split_and!; congruence]. }
  assert (∀ A (f : Db → A), respects R (on_store (query f))) as Hq.
  { intros A f x. unfold on_store, focus. destruct (dom_lockHeld x); simpl; unfold R; by split_and!. }
  enough (respects R rebuildIsolationFromStore) as Hr by apply Hr.
  unfold rebuildIsolationFromStore, isolate_tx, isolate_root, getJournalEvents, getOperation.
  repeat first [ apply Hq | apply respects_modify; intros ?; by split_and! | respects_tac | respects_step ].
Qed.

Lemma acquire_refuses_owner k now p dom s ex :
  inTransaction s = false → find_owner dom (db s) = Some ex → own_ownerId ex ≠ proc_ownerId p →
  owner_holds k now p ex = true →
  acquireOwnerLease k now dom (proc_ownerId p) (proc_hostname p) 60000 false s
  = (Throw (DomainLockedError dom (ownerPidOf (own_ownerId ex)) (own_heartbeatAt ex)), s).
Proof.
  intros Ht Hex Hne [Hexp%negb_true_iff Halive]%andb_true_iff. unfold acquireOwnerLease.
  rewrite transaction_run //. unfold getOwner. autorewrite with xio_run. cbn [db]. rewrite Hex.
  rewrite bool_decide_false // Hexp /=. unfold considered_alive in Halive.
  destruct s as [d e t]. simpl in *. subst t. destruct (_ && _); [rewrite Halive|]; done.
Qed.

(** C38. One owner at a time: while the owner on record is alive with an
    unexpired lease, no other process acquires the domain, whatever the lock
    file says: not when it is missing, unreadable or names a dead process. *)
Theorem acquire_excludes_second_owner k now p dom dir ex :
  dir_db dir ≫= find_owner dom = Some ex → own_ownerId ex ≠ proc_ownerId p →
  owner_holds k now p ex = true →
  ∃ e, (acquire k now p dom dir).1 = Throw e ∧
    dir_db (acquire k now p dom dir).2 = dir_db dir.
Proof.
  intros Hex Hne Hown. destruct (dir_db dir) as [db|] eqn:Hdb; [|done]. simpl in Hex.
  unfold acquire. destruct (lock_refusal k now dom dir) as [e|]; [by eexists|].
  rewrite Hdb. cbn [default]. unfold construct.
  rewrite (acquire_refuses_owner _ _ _ _ (mkStore db None false) ex) //. by eexists.
Qed.

(** What a successful acquisition means: this process is the owner on
    record, its handle passes the fence, the lock file names it, the epoch is
    strictly above that of a displaced owner, and the barrier covers every
    lease and unfinished operation it found. *)
Theorem acquire_owns k now p dom dir d dir' :
  acquire k now p dom dir = (Ok d, dir') →
  find_owner dom (db (dom_store d)) = Some (dom_ownerRecord d) ∧
  own_ownerId (dom_ownerRecord d) = proc_ownerId p ∧
  fencing_error dom (dom_store d) = None ∧
  (∃ meta, dir_lock dir' = lock_file meta ∧ lock_ownerPid meta = proc_pid p) ∧
  (∀ ex, dir_db dir ≫= find_owner dom = Some ex → own_ownerId ex ≠ proc_ownerId p →
    (own_epoch ex < own_epoch (dom_ownerRecord d))%Z) ∧
  (∀ l, l ∈ select_leases dom (db (dom_store d)) → isResourceLocked d (lease_resourceId l) = true) ∧
  (∀ op, op ∈ select_unfinished dom (db (dom_store d)) → op_id op ∈ inMemoryAllocatedOps d).
Proof.
  unfold acquire. destruct (lock_refusal k now dom dir); [done|].
  unfold construct. set (s0 := mkStore _ None false).
  destruct (acquireOwnerLease _ _ _ _ _ _ _ s0) as [[owner|e] s] eqn:Hacq; [|done].
  set (d0 := mkDomain _ _ _ _ _ _ _ _ _ _ _ _ _).
  destruct (rebuildIsolationFromStore d0) as [[[]|e] d1] eqn:Hreb; [|done].
  intros [= <- <-]. destruct (rebuild_store _ _ _ Hreb) as (Hs & _ & Ho & _).
  destruct (rebuild_facts d0 _ _ eq_refl Hreb) as (Hl & Hop & _).
  pose proof (acquire_facts k now dom (proc_ownerId p) (proc_hostname p) 60000 false s0 owner s eq_refl Hacq)
    as (Hfind & Hown & _ & _ & Hfence & Hepoch).
  cbn [dom_store dom_ownerRecord set_flags inMemoryAllocatedOps]. rewrite Hs Ho.
  split_and!; [done..| | | |].
  - by eexists.
  - intros ex Hex Hne. apply Hepoch; [|done]. by destruct (dir_db dir).
  - intros l Hin. unfold isResourceLocked, jm_has. apply bool_decide_eq_true.
    destruct (Hl l Hin) as (o & Ho' & _). by exists o.
  - intros op Hin. by apply Hop.
Qed.

(** ** A failed acquisition *)

Definition sample_process (ownerId : string) : Process := mkProcess 43 "host" ownerId.
(** A journal whose last commit lost its [TX_BEGUN]. *)
Definition db_incomplete : Db :=
  play (H:=sample_crypto) [(60%Z, None, CRecordEvent (simple_event "dom" None None "TX_COMMITTING"
    (JObj [("txId", JStr "tx-1")]) (Iso 60)))] empty_db.
Definition failed_acquire : outcome error ExecutionDomain * DomainDir :=
  acquire alive 200 (sample_process "owner-43-200") "dom" (mkDomainDir lock_absent (Some db_incomplete)).

(** When the barrier cannot be rebuilt the lock file is removed but the owner
    lease stays: for its 60 s the same process is refused its own domain. *)
Lemma failed_rebuild_keeps_the_lease :
  (∃ e, failed_acquire.1 = Throw e) ∧ dir_lock failed_acquire.2 = lock_absent ∧
  (acquire alive 201 (sample_process "owner-43-201") "dom" failed_acquire.2).1
  = Throw (DomainLockedError "dom" 43 (Iso 200)).
Proof. split; [eexists; vm_compute; reflexivity|]. split; vm_compute; reflexivity. Qed.

(** ** Witnesses *)

Lemma acquire_excludes_second_owner_witness :
  ∃ e, (acquire alive 50 (sample_process "owner-43-50") "dom"
      (mkDomainDir lock_corrupt (Some db_work))).1 = Throw e.
Proof.
  destruct (acquire_excludes_second_owner alive 50 (sample_process "owner-43-50") "dom"
    (mkDomainDir lock_corrupt (Some db_work)) (mkOwnerRecord "dom" "owner-41" 1 (Iso 0) (Iso 100) "host"))
    as [e [He _]].
  - vm_compute. reflexivity.
  - vm_compute. discriminate.
  - vm_compute. reflexivity.
  - exists e. exact He.
Defined.
Lemma acquire_owns_witness :
  ∃ d dir', acquire (λ _, false) 500 (sample_process "owner-43-500") "dom"
      (mkDomainDir (lock_file (mkLockMetadata "dom" 41 (Iso 0) "host")) (Some db_work)) = (Ok d, dir') ∧
    (1 < own_epoch (dom_ownerRecord d))%Z.
Proof.
  destruct (acquire (λ _, false) 500 (sample_process "owner-43-500") "dom"
      (mkDomainDir (lock_file (mkLockMetadata "dom" 41 (Iso 0) "host")) (Some db_work))) as [[d|e] dir'] eqn:Ha.
  - destruct (acquire_owns (λ _, false) 500 (sample_process "owner-43-500") "dom" _ d dir' Ha)
      as (_ & _ & _ & _ & Hepoch & _).
    exists d, dir'. split; [reflexivity|].
    apply (Hepoch (mkOwnerRecord "dom" "owner-41" 1 (Iso 0) (Iso 100) "host"));
      vm_compute; [reflexivity|discriminate].
  - exfalso. vm_compute in Ha. discriminate.
Defined.
