(* ===== verification/AuthoritySpec.v ===== *)
(** * AuthoritySpec: what the capability methods of a domain guarantee

    The chain of parents is acyclic in every state these methods can reach, so
    the walks of admission and attenuation end; and whatever an attenuated
    capability is granted, its parent would be granted too. *)

From S2P Require Import Prelude Types Events Encode Config Store StoreCalls Samples Paths PathsSpec Capability CapabilitySpec StoreSpec Domain Authority DomainInv DomainSpec.

(** ** The table of capabilities *)

Definition caps (d : ExecutionDomain) : list Capability := db_capabilities (db (dom_store d)).

(** Every call but [recordCapability] keeps the order of the chain. *)
Section Calls.
Context `{Crypto}.

Definition ordered_kept : relation Db := λ d d', chain_ordered d → chain_ordered d'.
#[export] Instance ordered_kept_preorder : PreOrder ordered_kept.
Proof. split; unfold ordered_kept; [intros d|intros d1 d2 d3]; auto. Qed.

Lemma chain_ordered_same d d' : db_capabilities d' = db_capabilities d → ordered_kept d d'.
Proof. intros Heq Hord l1 c l2 pid. rewrite Heq. apply Hord. Qed.
Lemma respects_exec_caps f :
  (∀ d, db_capabilities (f d) = db_capabilities d) → respects (on_db ordered_kept) (exec f).
Proof. intros Hf. apply respects_exec. intros d. by apply chain_ordered_same. Qed.
Lemma respects_event_caps now ev :
  respects (on_db ordered_kept) (recordEventAndTransitionState now ev).
Proof. apply respects_recordEvent; [apply _|]. intros d row _. by apply chain_ordered_same. Qed.

Ltac caps_tac :=
  repeat first
    [ progress (eauto 3 with xio typeclass_instances)
    | apply respects_event_caps
    | apply respects_exec_caps; intros ?; done
    | apply respects_transaction; [typeclasses eauto|]
    | respects_step ].

Lemma respects_updateRunStatus_caps now r s t e :
  respects (on_db ordered_kept) (updateRunStatus now r s t e).
Proof. unfold updateRunStatus, getRun. caps_tac. Qed.
Lemma respects_insert_operation_caps row : respects (on_db ordered_kept) (insert_operation row).
Proof. unfold insert_operation, getOperation, getRun. caps_tac. Qed.
Lemma respects_revoke_caps id dom t : respects (on_db ordered_kept) (revokeCapability id dom t).
Proof.
  unfold revokeCapability. caps_tac. apply respects_exec. intros d Hord.
  by apply chain_ordered_update.
Qed.

Definition records_capability (c : StoreCall) : bool :=
  match c with CRecordCapability _ => true | _ => false end.

Lemma respects_run_call_caps now c :
  records_capability c = false → respects (on_db ordered_kept) (run_call now c).
Proof.
  pose proof respects_updateRunStatus_caps. pose proof respects_insert_operation_caps.
  pose proof respects_revoke_caps.
  destruct c; intros Hc; try done; simpl; auto; unfold_calls; caps_tac.
Qed.
End Calls.

Lemma chain_ordered_snoc d c :
  chain_ordered d →
  (∀ pid, or_undef (cap_parentId c) = Some pid → ∃ c', c' ∈ db_capabilities d ∧ cap_id c' = pid) →
  chain_ordered (with_capabilities (λ l, l ++ [c]) d).
Proof.
  intros Hord Hc l1 c1 l2 pid Heq Hpid. simpl in Heq.
  destruct l2 as [|x l2 _] using rev_ind.
  - apply app_inj_tail in Heq as [<- <-]. by apply Hc.
  - rewrite app_comm_cons app_assoc in Heq. apply app_inj_tail in Heq as [Heq _].
    by eapply Hord.
Qed.

(** No row has this identifier: what the random suffix is for. *)
Definition fresh_id (id : string) (l : list Capability) : Prop := ∀ c, c ∈ l → cap_id c ≠ id.
Lemma replace_fresh cap l :
  fresh_id (cap_id cap) l → replace_row (λ c, bool_decide (cap_id c = cap_id cap)) cap l = l ++ [cap].
Proof.
  intros Hf. unfold replace_row. f_equal. induction l as [|c l IH]; [done|]. simpl.
  rewrite bool_decide_false /=; [|apply Hf; by left]. f_equal. apply IH.
  intros x Hx. apply Hf. by right.
Qed.

Definition with_cap (cap : Capability) (db : Db) : Db :=
  with_capabilities (replace_row (λ c, bool_decide (cap_id c = cap_id cap)) cap) db.

(** Recording: nothing, the row, or the row and its event. *)
Lemma store_capability_cases now cap type fields d :
  let s := dom_store d in
  (∃ e, store_capability now cap type fields d = (Throw e, d)) ∨
  (∃ e, store_capability now cap type fields d
    = (Throw e, set_store (mkStore (with_cap cap (db s)) (currentEpoch s) (inTransaction s)) d)) ∨
  (∃ row, je_type row = type ∧ je_domain_id row = dom_id d ∧ store_capability now cap type fields d
    = (Ok tt, set_store (mkStore (with_journal row (with_cap cap (db s)))
        (currentEpoch s) (inTransaction s)) d)).
Proof.
  cbv zeta. unfold store_capability. autorewrite with xio_run. destruct (dom_lockHeld d) eqn:Hopen.
  2:{ left. unfold on_store. unfold mbind, ST_bind. rewrite Hopen. by eexists. }
  rewrite run_on_store //. unfold recordCapability. autorewrite with xio_run.
  destruct (fencing_error _ _); [left; eexists; by rewrite set_store_same|].
  unfold exec, modify. right. rewrite run_on_store //. unfold recordJournalEvent.
  match goal with |- context [recordEventAndTransitionState now ?ev ?s] =>
    destruct (recordEvent_cases now ev s) as [[e ->]|(row & -> & _ & Hty & _ & Hdom)] end.
  - left. by eexists.
  - right. exists row. by split_and!.
Qed.

Lemma store_capability_caps now cap type fields d :
  caps (store_capability now cap type fields d).2 = caps d ∨
  caps (store_capability now cap type fields d).2
    = replace_row (λ c, bool_decide (cap_id c = cap_id cap)) cap (caps d).
Proof.
  destruct (store_capability_cases now cap type fields d) as [[e ->]|[[e ->]|(row & _ & _ & ->)]];
    [by left|by right..].
Qed.

Lemma store_capability_ordered now cap type fields d :
  chain_ordered (db (dom_store d)) → fresh_id (cap_id cap) (caps d) →
  (∀ pid, or_undef (cap_parentId cap) = Some pid → ∃ c', c' ∈ caps d ∧ cap_id c' = pid) →
  chain_ordered (db (dom_store (store_capability now cap type fields d).2)).
Proof.
  intros Hord Hf Hp. pose proof (chain_ordered_snoc _ cap Hord Hp) as Hsnoc.
  destruct (store_capability_caps now cap type fields d) as [Heq|Heq].
  - by apply (chain_ordered_same (db (dom_store d))).
  - rewrite replace_fresh // in Heq.
    by apply (chain_ordered_same (with_capabilities (λ l, l ++ [cap]) (db (dom_store d)))).
Qed.

(** ** Reading an attenuation backwards *)

Lemma run_on_getCapability {B} id (k : option Capability → DM B) d :
  dom_lockHeld d = true →
  (on_store (getCapability id) ≫= k) d = k (read_capability id (db (dom_store d))) d.
Proof. intros Hopen. unfold getCapability. by rewrite run_on_query. Qed.

Lemma parent_violation_None now epoch p : parent_violation now epoch p = None → live now epoch p.
Proof.
  intros Hpv. apply link_violation_None. revert Hpv. unfold parent_violation, link_violation.
  by destruct (bool_decide (cap_epoch p = epoch)), (is_undef (cap_revokedAt p)), (date_le _ _).
Qed.

Section Attenuation.
Context `{FileSystem}.

(** The child an attenuation of [p] makes. *)
Record attenuates (now epoch : Z) (p : Capability) (narrower : CapabilityScopeInput)
    (options : AttenuateOptions) (child : Capability) : Prop := {
  att_scope : validateScopeNarrowing (cap_scope p) narrower = Ok (cap_scope child);
  att_limits : narrowCapabilityLimits (cap_limits p) (at_limits options) = Ok (cap_limits child);
  att_expiry : child_expiry now p options = Ok (cap_expiresAt child);
  att_policy : cap_policyVersion child = cap_policyVersion p;
  att_parent : cap_parentId child = Some (cap_id p);
  att_epoch : cap_epoch child = epoch;
  att_kept : cap_revokedAt child = None;
}.

Ltac refused_tac := left; eexists; split; [reflexivity|done].

(** Nothing is written, or a child of a live parent with a live chain is. *)
Lemma attenuate_cases fuel now suffix capId narrower actor options d :
  let s := dom_store d in
  (∃ o, attenuate fuel now suffix capId narrower actor options d = (o, d) ∧
    ∀ child, o ≠ Ok (Some child)) ∨
  ∃ p child fields, read_capability capId (db s) = Some p ∧ live now (getEpoch d) p ∧
    chain_valid now (getEpoch d) (db s) (cap_parentId p) ∧
    attenuates now (getEpoch d) p narrower options child ∧ cap_domainId child = dom_id d ∧
    cap_id child = (if startsWith (cap_id p) "cap:" then "cap:" else "cap-") +:+ suffix ∧
    attenuate fuel now suffix capId narrower actor options d
    = (store_capability now child "CAPABILITY_ATTENUATED" fields;; mret (Some child)) d.
Proof.
  cbv zeta. unfold attenuate, refuse_fenced. autorewrite with xio_run.
  destruct (isFenced d); [refused_tac|].
  destruct (dom_lockHeld d) eqn:Hopen.
  2:{ left. unfold on_store. unfold mbind at 1, ST_bind at 1. rewrite Hopen. by eexists. }
  rewrite run_on_getCapability //.
  destruct (read_capability capId (db (dom_store d))) as [p|] eqn:Hp; [|refused_tac].
  destruct (parent_violation now (getEpoch d) p) as [v|] eqn:Hpv; [refused_tac|].
  rewrite run_on_query //.
  destruct (ancestor_violation _ _ _ _ _) as [[v|]|] eqn:Hch; [refused_tac| |refused_tac].
  rewrite run_lift. destruct (validateScopeNarrowing _ _) as [scope|e] eqn:Hs; [|refused_tac].
  rewrite run_throw_if.
  destruct (match at_policyVersion options with Some _ => _ | None => _ end); [refused_tac|].
  rewrite run_lift. destruct (narrowCapabilityLimits _ _) as [limits|e] eqn:Hl; [|refused_tac].
  rewrite run_lift. destruct (child_expiry _ _ _) as [exp|e] eqn:He; [|refused_tac].
  right. exists p. eexists _, _. split; [done|]. split.
  { by apply parent_violation_None. }
  split; [by eapply ancestor_violation_sound|].
  split; [|split; [|split; [|reflexivity]]]; [by split|done..].
Qed.

Lemma attenuate_Ok fuel now suffix capId narrower actor options d child d' :
  attenuate fuel now suffix capId narrower actor options d = (Ok (Some child), d') →
  ∃ p row, read_capability capId (db (dom_store d)) = Some p ∧ live now (getEpoch d) p ∧
    chain_valid now (getEpoch d) (db (dom_store d)) (cap_parentId p) ∧
    attenuates now (getEpoch d) p narrower options child ∧ cap_domainId child = dom_id d ∧
    je_type row = "CAPABILITY_ATTENUATED" ∧
    db (dom_store d') = with_journal row (with_cap child (db (dom_store d))).
Proof.
  intros Hrun. destruct (attenuate_cases fuel now suffix capId narrower actor options d)
    as [(o & Ho & Hno)|(p & c & fields & ? & ? & ? & ? & ? & _ & Heq)].
  { rewrite Ho in Hrun. injection Hrun as -> _. by destruct (Hno child). }
  rewrite Heq in Hrun. apply bind_Ok_inv in Hrun as ([] & d1 & Hst & [= -> ->]).
  destruct (store_capability_cases now child "CAPABILITY_ATTENUATED" fields d)
    as [[e He]|[[e He]|(row & Hty & _ & He)]]; rewrite He in Hst; [done..|].
  injection Hst as <-. by exists p, row.
Qed.
End Attenuation.

(** ** Chains of parents end *)

Section Steps.
Context `{Crypto} `{FileSystem}.

(** One call on the domain: a capability method with an unused identifier, or
    any writing call of its store except [recordCapability]. *)
Inductive authority_step (d d' : ExecutionDomain) : Prop :=
| step_issue now suffix call :
    fresh_id (issue_prefix call +:+ suffix) (caps d) →
    (issueCapability now suffix call d).2 = d' → authority_step d d'
| step_attenuate fuel now suffix capId narrower actor options :
    fresh_id ("cap:" +:+ suffix) (caps d) → fresh_id ("cap-" +:+ suffix) (caps d) →
    (attenuate fuel now suffix capId narrower actor options d).2 = d' → authority_step d d'
| step_revoke now capId actor :
    (dom_revokeCapability now capId actor d).2 = d' → authority_step d d'
| step_store now c :
    records_capability c = false → (on_store (run_call now c) d).2 = d' → authority_step d d'.

Inductive authority_steps : ExecutionDomain → ExecutionDomain → Prop :=
| authority_refl d : authority_steps d d
| authority_cons d1 d2 d3 :
    authority_step d1 d2 → authority_steps d2 d3 → authority_steps d1 d3.

Notation dom_ordered := (dom_db ordered_kept).

Lemma then_ret {E S A B} (m : ST E S A) (b : B) s : ((m;; mret b) s).2 = (m s).2.
Proof. unfold mbind, ST_bind. by destruct (m s) as [[]]. Qed.

Lemma issue_ordered now suffix call d :
  fresh_id (issue_prefix call +:+ suffix) (caps d) →
  dom_ordered d (issueCapability now suffix call d).2.
Proof.
  intros Hfresh Hord. unfold issueCapability, refuse_fenced. autorewrite with xio_run.
  destruct (isFenced d); [done|]. destruct (or_undef (issue_issuer call)); [|done].
  autorewrite with xio_run. destruct (match getTime _ with Some _ => _ | None => _ end); [done|].
  destruct (normalizeCapabilityLimits _ _); [|done].
  rewrite then_ret. by apply store_capability_ordered.
Qed.

Lemma parent_listed now epoch p narrower options child (l : list Capability) :
  attenuates now epoch p narrower options child →
  (∃ c, c ∈ l ∧ cap_id c = cap_id p) →
  ∀ pid, or_undef (cap_parentId child) = Some pid → ∃ c', c' ∈ l ∧ cap_id c' = pid.
Proof.
  intros [_ _ _ _ Hpar _ _] (c & Hc & Hid) pid Hpid. rewrite Hpar in Hpid.
  apply or_undef_Some in Hpid as [[= <-] _]. by exists c.
Qed.
Lemma read_capability_row id db p :
  read_capability id db = Some p →
  ∃ c, c ∈ db_capabilities db ∧ p = mapCapabilityRow c ∧ cap_id p = id.
Proof.
  intros (c & Hc & ->)%fmap_Some. apply find_some in Hc as [Hin Hid].
  exists c. split_and!; [by apply list_elem_of_In|done|by apply bool_decide_eq_true in Hid].
Qed.

Lemma attenuate_ordered fuel now suffix capId narrower actor options d :
  fresh_id ("cap:" +:+ suffix) (caps d) → fresh_id ("cap-" +:+ suffix) (caps d) →
  dom_ordered d (attenuate fuel now suffix capId narrower actor options d).2.
Proof.
  intros Hf1 Hf2 Hord. destruct (attenuate_cases fuel now suffix capId narrower actor options d)
    as [(o & -> & _)|(p & child & fields & Hp & _ & _ & Hatt & _ & Hid & ->)]; [done|].
  rewrite then_ret. apply store_capability_ordered; [done|..].
  - rewrite Hid. by destruct (startsWith _ _).
  - eapply parent_listed; [done|]. apply read_capability_row in Hp as (c & Hc & -> & _).
    by exists c.
Qed.

Lemma authority_step_ordered d d' : authority_step d d' → dom_ordered d d'.
Proof.
  intros [now suffix call Hf <-|fuel now suffix capId narrower actor options Hf1 Hf2 <-
    |now capId actor <-|now c Hc <-].
  - by apply issue_ordered.
  - by apply attenuate_ordered.
  - unfold dom_revokeCapability, refuse_fenced, recordJournalEvent, getCapability.
    pose proof respects_revoke_caps. pose proof respects_event_caps.
    assert (respects dom_ordered (A:=unit) (d ← get_state; throw_if (isFenced d)
      (EpochFencedError (dom_id d) (getEpoch d) (getEpoch d)))) by respects_tac.
    pose proof (λ A m, @respects_on_store ordered_kept _ A m).
    apply respects_after; [apply _|reflexivity|]. respects_tac; auto.
  - by apply (respects_on_store ordered_kept), respects_run_call_caps.
Qed.
Lemma authority_steps_ordered d d' : authority_steps d d' → dom_ordered d d'.
Proof.
  intros Hs. induction Hs as [d|d1 d2 d3 H1 _ IH]; [reflexivity|].
  etransitivity; [by apply authority_step_ordered|done].
Qed.
End Steps.

(** Chains of parents end: in every state the capability methods and the
    other calls can reach from one with no capability, admission and attenuation
    reach a decision with one unit of fuel more than there are capabilities. *)
Theorem capability_walks_end `{Crypto} `{FileSystem} d d' fuel :
  caps d = [] → authority_steps d d' → length (caps d') < fuel →
  (∀ now o, (checkCapabilityAdmission fuel now o (dom_store d')).1 ≠ Ok None) ∧
  (∀ now suffix capId narrower actor options,
    (attenuate fuel now suffix capId narrower actor options d').1 ≠ Ok None).
Proof.
  intros Hnil Hs Hfuel. apply authority_steps_ordered in Hs.
  assert (chain_ordered (db (dom_store d'))) as Hord.
  { apply Hs. intros l1 c l2 pid Heq. unfold caps in Hnil. rewrite Hnil in Heq. by destruct l1. }
  split; [intros now o; by apply admission_decides|].
  intros now suffix capId narrower actor options. unfold attenuate, refuse_fenced.
  autorewrite with xio_run. destruct (isFenced d'); [done|]. destruct (dom_lockHeld d') eqn:Hopen.
  2:{ unfold on_store, mbind, ST_bind. by rewrite Hopen. }
  rewrite run_on_getCapability //.
  destruct (read_capability capId _) as [p|] eqn:Hp; [|done].
  destruct (parent_violation _ _ _); [done|]. rewrite run_on_query //.
  destruct (parent_walk_ends fuel now (getEpoch d') _ _ _ Hord Hfuel Hp) as [[v|] ->]; [done|].
  rewrite run_lift. destruct (validateScopeNarrowing _ _); [|done]. rewrite run_throw_if.
  destruct (match at_policyVersion options with Some _ => _ | None => _ end); [done|].
  rewrite run_lift. destruct (narrowCapabilityLimits _ _); [|done].
  rewrite run_lift. destruct (child_expiry _ _ _); [|done].
  match goal with |- ((store_capability now ?c ?t ?f;; _) _).1 ≠ _ =>
    destruct (store_capability_cases now c t f d') as [[e He]|[[e He]|(row & _ & _ & He)]] end;
    unfold mbind, ST_bind; by rewrite He.
Qed.

(** ** A child is granted nothing its parent is not *)

(** The paths of a scope are plain paths, without a wildcard. *)
Definition plain_paths (s : CapabilityScope) : Prop :=
  ∀ p, p ∈ cs_paths s → split_wildcard p = None.

Section Grants.
Context `{FileSystemLaws}.

Lemma isPathContained_resolve a p : isPathContained a (resolveRealPath p) = isPathContained a p.
Proof. unfold isPathContained. by rewrite resolve_resolved. Qed.

Lemma unique_within l parent : all_in l parent = true → all_in (unique l) parent = true.
Proof. rewrite !all_in_spec. intros Hall x Hx. apply Hall. by apply (elem_of_js_set l x). Qed.

(** Admission normalises the stored scope again, which changes nothing that
    counts. *)
Lemma renormalize_within child parent :
  plain_paths child → scope_within child parent →
  scope_within (normalizeScope (scope_input child)) parent.
Proof.
  intros Hplain [Hex Hop Hsec Hpaths Hws]. split; simpl.
  1-3: by apply unique_within.
  - rewrite !forallb_forall in Hpaths |- *.
    intros p (q & -> & Hq)%list_elem_of_In%elem_of_js_set%list_elem_of_fmap.
    unfold normalizePathPattern. rewrite Hplain //.
    apply list_elem_of_In, Hpaths, existsb_In in Hq as (a & Ha & Hc). apply existsb_In.
    exists a. by rewrite isPathContained_resolve.
  - intros [Hne Hall]%Hws. split; [by apply unique_nonempty|by apply unique_within].
Qed.

(** The same request under another capability. *)
Definition under (id : string) (o : CheckCapabilityAdmissionOptions) : CheckCapabilityAdmissionOptions :=
  mkAdmissionOptions (ao_domainId o) (ao_currentEpoch o) id (ao_requiredResources o)
    (ao_mutationRoots o) (ao_opcode o) (ao_workspace o) (ao_secretRefs o) (ao_requestedLimits o)
    (ao_currentConcurrentOps o) (ao_currentProcesses o) (ao_policyVersion o) (ao_runId o) (ao_opId o).
Lemma in_scope_under id scope limits o : in_scope scope limits o → in_scope scope limits (under id o).
Proof. intros []. by split. Qed.

Definition granted (fuel : nat) (now : Z) (o : CheckCapabilityAdmissionOptions) (s : SqliteStore) : Prop :=
  ∃ r, (checkCapabilityAdmission fuel now o s).1 = Ok (Some r).

Lemma granted_admissible fuel now o s :
  chain_ordered (db s) → length (db_capabilities (db s)) < fuel →
  granted fuel now o s ↔ ∃ cap, admissible now o (db s) cap.
Proof.
  intros Hord Hfuel. destruct (admission_exact fuel now o s Hord Hfuel)
    as [(cap & Hadm & Heq)|[Hno (v & Hv & _)]]; unfold granted; [|rewrite Hv; naive_solver].
  rewrite Heq. split; [by exists cap|by eexists].
Qed.

Lemma read_capability_add id cap row db :
  fresh_id (cap_id cap) (db_capabilities db) →
  read_capability id (with_journal row (with_cap cap db))
  = match read_capability id db with
    | Some c => Some c
    | None => if bool_decide (cap_id cap = id) then Some (mapCapabilityRow cap) else None
    end.
Proof.
  intros Hf. unfold read_capability, find_capability, with_cap. simpl. rewrite replace_fresh //.
  rewrite find_app. destruct (List.find _ (db_capabilities db)); [done|]. simpl.
  by case_bool_decide.
Qed.

(** From a child's admission to its parent's, across the attenuation. *)
Lemma admissible_parent now p child narrower options t row db epoch o cap :
  attenuates t epoch p narrower options child →
  read_capability (cap_id p) db = Some p → truthy_str (cap_id p) = true →
  cap_domainId p = cap_domainId child → fresh_id (cap_id child) (db_capabilities db) →
  plain_paths (cap_scope child) →
  let db' := with_journal row (with_cap child db) in
  admissible now (under (cap_id child) o) db' cap → admissible now (under (cap_id p) o) db' p.
Proof.
  intros [Hscope Hlim _ Hpol Hpar _ _] Hp Htr Hdom Hfresh Hplain db' [Hfound Hd Hlive Hv Hch Hin].
  assert (read_capability (cap_id p) db' = Some p) as Hp' by by rewrite read_capability_add // Hp.
  simpl in Hfound. unfold db' in Hfound. rewrite read_capability_add // bool_decide_true // in Hfound.
  destruct (read_capability (cap_id child) db) as [c|] eqn:Hc.
  { exfalso. apply read_capability_row in Hc as (c' & Hc' & -> & Hid). by apply (Hfresh c' Hc'). }
  injection Hfound as <-. simpl in Hch. rewrite Hpar /= Htr in Hch.
  inversion Hch as [q Hq|q id c Hq Hc' Hl Hrest]; subst; simpl in *.
  { by rewrite Htr in Hq. }
  rewrite Htr in Hq. injection Hq as <-. fold db' in Hc'. rewrite Hp' in Hc'. injection Hc' as <-.
  split; simpl; [done|by rewrite Hdom|done| |done|].
  - intros pv Hpv. rewrite -(Hv pv Hpv) /= Hpol.
    assert (truthy_str (cap_policyVersion p) = true) as Htp; [|by rewrite Htp].
    apply read_capability_row in Hp as (c & _ & -> & _). simpl.
    by destruct (truthy_str (cap_policyVersion c)) eqn:Hc'.
  - apply (in_scope_under (cap_id p)) in Hin.
    apply in_scope_tests in Hin as (Hs & Hl' & Hr). apply in_scope_tests.
    destruct (within_violations _ _ _ (renormalize_within _ _ Hplain (narrowing_within _ _ _ Hscope)) Hs Hr)
      as [? ?].
    split_and!; [done| |done]. eapply within_limits; [|exact Hl'].
    intros k. by apply (narrow_limits _ _ _ Hlim k).
Qed.
End Grants.

Lemma child_expiry_bounded now p options e :
  child_expiry now p options = Ok e →
  ∃ te tp, getTime e = Some te ∧ getTime (cap_expiresAt p) = Some tp ∧ (te ≤ tp)%Z.
Proof.
  unfold child_expiry. destruct (getTime (cap_expiresAt p)) as [tp|]; [|done]. intros [= <-].
  eexists _, tp. split_and!; [done..|]. destruct (at_ttlMs options); lia.
Qed.

(** C37. A child is granted nothing its parent is not: when an attenuation
    succeeds, in a store whose capabilities all belong to the domain, each listed after
    its parent, for a child id that is not in use and a child scope without wildcard
    paths, every request that admission grants under the child it grants under
    the parent; the child names the parent, has its policy version and epoch and
    expires no later, and of the tables only its row and
    one CAPABILITY_ATTENUATED event are new. *)
Theorem attenuated_child_never_exceeds_parent `{FileSystemLaws}
    fuel now suffix capId narrower actor options d child d' :
  chain_ordered (db (dom_store d)) →
  (∀ c, c ∈ caps d → cap_domainId c = dom_id d) →
  truthy_str capId = true → fresh_id (cap_id child) (caps d) → plain_paths (cap_scope child) →
  attenuate fuel now suffix capId narrower actor options d = (Ok (Some child), d') →
  (∀ fuel' now' o, length (caps d') < fuel' →
    granted fuel' now' (under (cap_id child) o) (dom_store d') →
    granted fuel' now' (under capId o) (dom_store d')) ∧
  (∃ p te tp, read_capability capId (db (dom_store d)) = Some p ∧ getTime (cap_expiresAt child) = Some te ∧
    getTime (cap_expiresAt p) = Some tp ∧ (te ≤ tp)%Z ∧ cap_parentId child = Some (cap_id p) ∧
    cap_policyVersion child = cap_policyVersion p ∧ cap_epoch child = cap_epoch p) ∧
  ∃ row, je_type row = "CAPABILITY_ATTENUATED" ∧
    db (dom_store d') = with_journal row (with_cap child (db (dom_store d))).
Proof.
  intros Hord Hdom Htr Hfresh Hplain Hrun.
  destruct (attenuate_Ok _ _ _ _ _ _ _ _ _ _ Hrun) as (p & row & Hp & Hlive & Hch & Hatt & Hcd & Hty & Hdb).
  pose proof (read_capability_row _ _ _ Hp) as (c & Hc & Hpc & Hid). split_and!.
  - intros fuel' now' o Hfuel.
    assert (chain_ordered (db (dom_store d'))) as Hord'.
    { rewrite Hdb. apply (chain_ordered_same (with_capabilities (λ l, l ++ [child]) (db (dom_store d)))).
      - unfold with_cap. simpl. by rewrite replace_fresh.
      - apply chain_ordered_snoc; [done|]. eapply parent_listed; [done|].
        exists c. split; [done|]. by rewrite Hpc. }
    rewrite !granted_admissible //. intros [cap Hcap]. exists p.
    rewrite -Hid. rewrite Hdb in Hcap |- *.
    eapply admissible_parent; [exact Hatt|by rewrite Hid|by rewrite Hid| |done..|exact Hcap].
    rewrite Hcd Hpc /=. by apply Hdom.
  - destruct (child_expiry_bounded _ _ _ _ (att_expiry _ _ _ _ _ _ Hatt)) as (te & tp & ? & ? & ?).
    exists p, te, tp. destruct Hatt as [_ _ _ Hpol Hpar Hep _], Hlive as [_ Hlep _]. split_and!; congruence.
  - by exists row.
Qed.

(** ** Witnesses *)

Definition authority_domain : ExecutionDomain :=
  mkDomain "dom" caps_store true (mkOwnerRecord "dom" "owner-1-0" 1 (Iso 0) (Iso 60000) "host")
    None [] [] [] [] 0 [] true false.
Definition sample_attenuation : DM (option Capability) :=
  attenuate 3 100 "new" "cap-1" sample_narrower "bob" (mkAttenuateOptions (Some 50%Z) None None None).
Definition sample_child : Capability :=
  mkCapability "cap-new" "dom" child_scope "bob" "p/1" "attenuation" sample_limits (Iso 150)
    (Some "cap-1") 1 (Iso 100) None.
Definition sample_attenuated : ExecutionDomain := (sample_attenuation authority_domain).2.

Lemma sample_attenuation_ok :
  sample_attenuation authority_domain = (Ok (Some sample_child), sample_attenuated).
Proof. vm_compute. reflexivity. Qed.

Lemma fresh_id_bool id l :
  forallb (λ c, negb (bool_decide (cap_id c = id))) l = true → fresh_id id l.
Proof.
  rewrite forallb_forall. intros Hall c Hc%list_elem_of_In Hid.
  specialize (Hall c Hc). by rewrite bool_decide_true in Hall.
Qed.

(** From no capability: one is issued, then attenuated. *)
Definition bare_domain : ExecutionDomain :=
  mkDomain "dom" (mkStore empty_db None false) true sample_owner None [] [] [] [] 0 [] true false.
Definition sample_issue : IssueCall :=
  issue_legacy (scope_input sample_scope) (Some "alice") (Some 1000%Z).
Definition issued_domain : ExecutionDomain := (issueCapability 5 "one" sample_issue bare_domain).2.
Definition attenuated_domain : ExecutionDomain :=
  (attenuate 9 100 "two" "cap-one" sample_narrower "bob" (mkAttenuateOptions None None None None)
    issued_domain).2.
Lemma sample_authority_steps : authority_steps (H:=sample_crypto) bare_domain attenuated_domain.
Proof.
  assert (fresh_id "cap-one" (caps bare_domain)) as H1 by (apply fresh_id_bool; vm_compute; reflexivity).
  assert (fresh_id "cap:two" (caps issued_domain)) as H2 by (apply fresh_id_bool; vm_compute; reflexivity).
  assert (fresh_id "cap-two" (caps issued_domain)) as H3 by (apply fresh_id_bool; vm_compute; reflexivity).
  exact (authority_cons _ _ _ (step_issue bare_domain issued_domain 5 "one" sample_issue H1 eq_refl)
    (authority_cons _ _ _ (step_attenuate issued_domain attenuated_domain 9 100 "two" "cap-one"
      sample_narrower "bob" (mkAttenuateOptions None None None None) H2 H3 eq_refl)
    (authority_refl attenuated_domain))).
Qed.

Lemma capability_walks_end_witness :
  (checkCapabilityAdmission (H:=sample_fs) 3 7 (under "cap-two" sample_request)
    (dom_store attenuated_domain)).1 ≠ Ok None.
Proof.
  assert (length (caps attenuated_domain) < 3) as Hfuel by (vm_compute; lia).
  exact (proj1 (capability_walks_end (H:=sample_crypto) bare_domain attenuated_domain 3 eq_refl
    sample_authority_steps Hfuel) 7%Z (under "cap-two" sample_request)).
Defined.

Lemma sample_caps_domain : ∀ c, c ∈ caps authority_domain → cap_domainId c = dom_id authority_domain.
Proof. by intros c [<-|[<-|[]]]%list_elem_of_In. Qed.
Lemma sample_child_plain : plain_paths (cap_scope sample_child).
Proof. by intros p [<-|[]]%list_elem_of_In. Qed.

Lemma attenuated_child_never_exceeds_parent_witness :
  granted 4 120 (under "cap-1" sample_request) (dom_store sample_attenuated).
Proof.
  pose proof (attenuated_child_never_exceeds_parent 3 100 "new" "cap-1" sample_narrower "bob"
    (mkAttenuateOptions (Some 50%Z) None None None) authority_domain sample_child sample_attenuated
    caps_ordered sample_caps_domain eq_refl
    (fresh_id_bool (cap_id sample_child) (caps authority_domain) eq_refl)
    sample_child_plain sample_attenuation_ok) as [Hgrant _].
  assert (length (caps sample_attenuated) < 4) as Hfuel by (vm_compute; lia).
  apply (Hgrant 4 120%Z sample_request Hfuel).
  eexists. vm_compute. reflexivity.
Defined.

(** The parent's domain is not checked: a capability of another domain, of the
    same epoch, can be attenuated into one of this domain. *)
Definition foreign_store : SqliteStore :=
  mkStore (with_capabilities (λ _, [mkCapability "cap-1" "other" sample_scope "alice" "p/1" "build"
    sample_limits (Iso 1000) None 1 (Iso 5) None]) empty_db) None false.
Lemma attenuate_ignores_the_parent_domain :
  let d := set_store foreign_store authority_domain in
  let d' := (sample_attenuation d).2 in
  is_ok (checkCapabilityAdmission 3 100 (under "cap-1" sample_request) (dom_store d)).1 = false ∧
  is_ok (checkCapabilityAdmission 3 120 (under "cap-new" sample_request) (dom_store d')).1 = true.
Proof. by vm_compute. Qed.
