(* ===== verification/RollbackSpec.v ===== *)
(** * RollbackSpec: a rollback claims only what was verified *)

From S2P Require Import Prelude Types Events Encode Config Store StoreCalls Samples Paths PathsSpec Capability CapabilitySpec StoreSpec Domain Authority Rollback DomainSpec.

(** ** The claim *)

Lemma derive_complete facts :
  cc_coverage (deriveRollbackCoverage facts) = cov_complete ↔
  rf_status facts = rb_restored ∧ rf_effects facts = eff_confined ∧
  (rf_snapshotCoverage facts = full_tree ∨ rf_ignoredManifest facts = man_unchanged).
Proof. destruct facts as [[] [] [] []]; vm_compute; intuition congruence. Qed.
Lemma derive_none_possible facts :
  cc_outOfScopeEffects (deriveRollbackCoverage facts) = none_possible ↔
  rf_status facts = rb_restored ∧ rf_effects facts = eff_confined.
Proof. destruct facts as [[] [] [] []]; vm_compute; intuition congruence. Qed.

(** ** The ignored-files manifest: [unchanged] means the same entries *)

(** The two entries agree on everything that proves the content unchanged. *)
Definition same_entry (a b : IgnoredManifestEntry) : Prop :=
  ie_path a = ie_path b ∧ ie_size a = ie_size b ∧ ie_mode a = ie_mode b ∧
  (Z.abs (ie_mtimeNs a - ie_mtimeNs b) < UTIMES_PRECISION_NS)%Z ∧ ie_ctimeNs a = ie_ctimeNs b.

Definition no_difference (d : ManifestDiff) : Prop :=
  md_removed d = [] ∧ md_modified d = [] ∧ md_metadataOnly d = [].

Lemma diff_entry_none d old :
  no_difference (diff_entry d old) →
  no_difference d ∧ ∃ now, jm_get (md_current d) (ie_path old) = Some now ∧
    md_current (diff_entry d old) = jm_delete (md_current d) (ie_path old) ∧
    entry_modified now old = false ∧ ie_ctimeNs now = ie_ctimeNs old.
Proof.
  unfold diff_entry, no_difference. destruct (jm_get _ _) as [now|]; simpl.
  2:{ intros (Hr & _). by destruct (md_removed d). }
  destruct (entry_modified now old) eqn:Hm; simpl.
  { intros (_ & Hmod & _). by destruct (md_modified d). }
  case_bool_decide; simpl.
  - intros ?. split; [done|]. exists now. done.
  - intros (_ & _ & Hmeta). by destruct (md_metadataOnly d).
Qed.

Lemma diff_entries_none before : ∀ d,
  no_difference (foldl diff_entry d before) →
  no_difference d ∧
  (∀ old, old ∈ before → ∃ now, jm_get (md_current d) (ie_path old) = Some now ∧
    entry_modified now old = false ∧ ie_ctimeNs now = ie_ctimeNs old) ∧
  (∀ p now, jm_get (md_current d) p = Some now →
    jm_get (md_current (foldl diff_entry d before)) p = None → ∃ old, old ∈ before ∧ ie_path old = p).
Proof.
  induction before as [|old before IH]; intros d; cbn [foldl].
  { intros Hd. split_and!; [done|set_solver|congruence]. }
  intros (Hd' & Hold & Hgone)%IH. apply diff_entry_none in Hd' as (Hd & now & Hnow & Hcur & Hm & Hc).
  split_and!; [done| |].
  - intros o [->|Ho]%elem_of_cons; [by exists now|].
    destruct (Hold o Ho) as (n & Hn & ?). exists n. split; [|done].
    rewrite Hcur jm_get_delete in Hn. by case_decide.
  - intros p n Hp Hfin. destruct (decide (ie_path old = p)) as [<-|Hne].
    + exists old. split; [by left|done].
    + destruct (Hgone p n) as (o & Ho & <-); [|done|exists o; split; [by right|done]].
      by rewrite Hcur jm_get_delete decide_False.
Qed.

Lemma jm_get_entries es : ∀ m p now,
  jm_get (foldl (λ m e, jm_set m (ie_path e) e) m es) p = Some now →
  (now ∈ es ∧ ie_path now = p) ∨ jm_get m p = Some now.
Proof.
  induction es as [|e es IH]; intros m p now; cbn [foldl]; [by right|].
  intros [[? ?]|Hm]%IH; [left; split; [by right|done]|].
  rewrite jm_get_set in Hm. case_decide; [|by right]. injection Hm as <-.
  left. split; [by left|done].
Qed.
Lemma jm_get_entry es e : ∀ m, e ∈ es →
  ∃ now, jm_get (foldl (λ m e, jm_set m (ie_path e) e) m es) (ie_path e) = Some now.
Proof.
  assert (∀ es m p, is_Some (jm_get m p) →
    is_Some (jm_get (foldl (λ m e, jm_set m (ie_path e) e) m es) p)) as Hkeep.
  { clear. induction es as [|e es IH]; intros m p Hm; [done|]. cbn [foldl]. apply IH.
    rewrite jm_get_set. by case_decide. }
  induction es as [|x es IH]; intros m He; [by apply not_elem_of_nil in He|].
  apply elem_of_cons in He as [->|He]; cbn [foldl]; [|by apply IH].
  destruct (Hkeep es (jm_set m (ie_path x) x) (ie_path x)) as [n Hn]; [|by exists n].
  by rewrite jm_get_set decide_True.
Qed.

(** An unchanged manifest means unchanged files: every recorded entry is there
    now with the same size, mode, change time and, up to the precision of utimes,
    modification time; and no other file is. *)
Lemma diff_unchanged before after changes :
  diffIgnoredEntries before after = (man_unchanged, changes) →
  changes = None ∧
  (∀ old, old ∈ before → ∃ now, now ∈ after ∧ same_entry now old) ∧
  (∀ now, now ∈ after → ∃ old, old ∈ before ∧ ie_path old = ie_path now).
Proof.
  unfold diffIgnoredEntries. set (current := foldl _ [] after).
  set (d := foldl diff_entry _ before). cbv zeta.
  destruct (bool_decide _ && bool_decide _) eqn:Hz; [|by destruct (bool_decide (0 < _))].
  intros [= <-]. apply andb_true_iff in Hz as [Hdef%bool_decide_eq_true Hmeta%bool_decide_eq_true].
  assert (no_difference d ∧ (md_current d).*1 = []) as [Hno Hadd].
  { unfold no_difference. destruct (md_removed d), (md_modified d), (md_metadataOnly d), ((md_current d).*1);
      simpl in *; try lia; done. }
  apply diff_entries_none in Hno as (_ & Hold & Hgone). cbn [md_current] in *.
  split_and!; [done| |].
  - intros old Ho. destruct (Hold old Ho) as (now & Hnow & Hm & Hc).
    apply jm_get_entries in Hnow as [[Hin Hp]|[=]]. exists now. split; [done|].
    unfold entry_modified, sameMtime in Hm.
    apply orb_false_iff in Hm as [[Hs Hmo]%orb_false_iff Ht].
    rewrite !negb_false_iff !bool_decide_eq_true in Hs, Hmo, Ht. by split_and!.
  - intros now Hin. destruct (jm_get_entry after now [] Hin) as [n Hn].
    apply (Hgone (ie_path now) n Hn). fold d. destruct (md_current d) as [|[k v] l]; [done|].
    discriminate Hadd.
Qed.

(** The ignored files are as the snapshot recorded them. *)
Definition ignored_files_verified (sd : SnapshotDriverAnswers) : Prop :=
  ∃ before after, manifestBefore sd = Some before ∧ listIgnored sd = Some (Ok after) ∧
    (∀ old, old ∈ before → ∃ now, now ∈ after ∧ same_entry now old) ∧
    (∀ now, now ∈ after → ∃ old, old ∈ before ∧ ie_path old = ie_path now).

Lemma compare_unchanged sd snapshot changes :
  compareIgnoredManifest sd snapshot = Ok (man_unchanged, changes) → ignored_files_verified sd.
Proof.
  unfold compareIgnoredManifest, ignored_files_verified.
  destruct (or_undef (snap_ignoredManifestDigest snapshot)); [|done].
  destruct (manifestBefore sd) as [before|]; [|done]. destruct (listIgnored sd) as [l|]; [|done].
  intros (after & -> & [= Hd])%bind_Ok. exists before, after.
  destruct (diff_unchanged _ _ _ Hd) as (_ & ? & ?). by split_and!.
Qed.

(** ** The effects since the snapshot *)

(** The result event [e] is that of a confined operation, which writes only below
    [targetRoots], or of a snapshot or a rollback. *)
Definition confined_event `{FileSystem} (targetRoots : list string) (db : Db) (e : JournalRow) : Prop :=
  (∃ op, je_operation_id e ≫= (λ id, find_operation id db) = Some op ∧
    is_snapshot_or_rollback op = true) ∨
  ((∃ res, (jfield (je_payload e) "result" = Some res ∨ je_payload e = res) ∧
    jfield res "confined" = Some (JBool true)) ∧
   ∀ op root, je_operation_id e ≫= (λ id, find_operation id db) = Some op →
     root ∈ default [] (op_mutationRoots op) →
     ∃ sr, sr ∈ targetRoots ∧ isPathContained sr root = true).

Lemma event_confined_sound `{FileSystem} roots db e :
  event_confined roots db e = true → confined_event roots db e.
Proof.
  unfold event_confined, confined_event.
  destruct (je_operation_id e ≫= _) as [op|] eqn:Hop.
  - destruct (is_snapshot_or_rollback op) eqn:Hk; [by left; exists op|].
    set (res := match jfield _ _ with Some _ => _ | None => _ end).
    destruct (is_true (jfield res "confined")) eqn:Hc; [|done]. simpl. rewrite forallb_forall.
    intros Hall. right. split.
    + exists res. split; [|by destruct (jfield res "confined") as [[| |[]| | | | | |]|]].
      unfold res. destruct (jfield (je_payload e) "result") as [r|]; [|by right].
      destruct (jtruthy r); [by left|by right].
    + intros op' root [= <-] Hroot%list_elem_of_In. apply Hall, existsb_In in Hroot. done.
  - set (res := match jfield _ _ with Some _ => _ | None => _ end).
    destruct (is_true (jfield res "confined")) eqn:Hc; [|done]. intros _. right. split; [|done].
    exists res. split; [|by destruct (jfield res "confined") as [[| |[]| | | | | |]|]].
    unfold res. destruct (jfield (je_payload e) "result") as [r|]; [|by right].
    destruct (jtruthy r); [by left|by right].
Qed.

(** No other operation may still be running, and every result recorded since the
    snapshot is confined. *)
Record effects_confined `{FileSystem} (dom : string) (snapshot : SnapshotRef) (roots : list string)
    (opId : string) (db : Db) : Prop := mkEffectsConfined {
  conf_settled : ∀ op, op ∈ select_operations dom db → op_id op ≠ opId →
    is_snapshot_or_rollback op = false →
    op_done op = true ∧ ∀ r, op_result op = Some r → is_indeterminate r = false;
  conf_events : ∀ seq e, snap_journalSeq snapshot = Some seq → e ∈ select_journal dom seq db →
    je_type e = "OPERATION_RESULT_RECORDED" → je_operation_id e ≠ Some opId →
    confined_event roots db e;
}.

Lemma allEffects_sound `{FileSystem} dom snapshot roots opId db :
  allEffectsConfinedToRoots dom snapshot roots opId db = true →
  effects_confined dom snapshot roots opId db.
Proof.
  unfold allEffectsConfinedToRoots. destruct (existsb _ (select_operations dom db)) eqn:He; [done|].
  rewrite forallb_forall. intros Hall. split.
  - intros op Hop Hne Hk. apply not_true_iff_false in He. rewrite existsb_In in He.
    destruct (may_still_run op) eqn:Hm.
    { exfalso. apply He. exists op. split; [done|]. by rewrite bool_decide_false // Hk Hm. }
    apply orb_false_iff in Hm as [Hd%negb_false_iff Hi]. split; [done|]. intros r Hr.
    rewrite Hr in Hi. unfold result_confined, is_indeterminate in *. by destruct (res_body r).
  - intros seq e Hseq Hin Hty Hne. apply event_confined_sound, Hall. rewrite Hseq.
    apply filter_In. split; [by apply list_elem_of_In|].
    by rewrite bool_decide_true // bool_decide_false.
Qed.

Lemma update_status_done now id s s' r op :
  updateOperationStatus now id st_done None None s = (Ok tt, s') →
  find_operation id (db s) = Some op → op_result op = Some r →
  ∃ op', find_operation id (db s') = Some op' ∧ op_status op' = st_done ∧ op_result op' = Some r.
Proof.
  intros (s1 & Hrun & -> & _)%transaction_Ok Hop Hr. revert Hrun. unfold getOperation.
  autorewrite with xio_run. cbn [db]. rewrite Hop. autorewrite with xio_run.
  destruct (fencing_error _ _); [done|]. autorewrite with xio_run. cbn [db].
  set (f := λ o, mkOperation _ _ _ _ _ _ _ _ _ _ _ _ _ _ _ _ _ _).
  intros (seq & s2 & Hev & [= <-])%bind_Ok_inv. exists (f op). split_and!; [|done|done].
  pose proof (find_update_op id (db s) f (λ _, eq_refl)) as Hup. rewrite Hop in Hup.
  match type of Hev with recordEventAndTransitionState now ?ev ?s = _ =>
    destruct (recordEvent_cases now ev s) as [[e He]|(row & He & _)] end;
    rewrite He in Hev; [done|]. injection Hev as _ <-. exact Hup.
Qed.

(** C19. A rollback that claims [complete] has earned it: the tree has the
    fingerprint of the snapshot, every path was restored, no other operation may
    still be running, every result recorded since the snapshot (when it has its place
    in the journal: one without is followed by no results, in the code too) is confined below
    the rolled-back roots, and the ignored files were in the snapshot or are
    proved unchanged. Whatever it claims, the result is recorded. *)
Theorem rollback_complete_is_earned `{FileSystem} now start sd o snapshot roots d r d' :
  dom_lockHeld d = true → verify_rollback now start sd o snapshot roots d = (Ok r, d') →
  (∃ op, find_operation (ro_opId o) (db (dom_store d')) = Some op ∧
    op_status op = st_done ∧ op_result op = Some r) ∧
  ∃ rr, res_body r = RRollback rr ∧ (rr_coverage rr = cov_complete →
    sd_fingerprint sd = Ok (snap_treeFingerprint snapshot) ∧
    (∃ kept, sd_restore sd = Ok ([], kept) ∧ nullish kept [] = []) ∧
    effects_confined (dom_id d) snapshot roots (ro_opId o) (db (dom_store d)) ∧
    (snap_coverage snapshot = full_tree ∨ ignored_files_verified sd)).
Proof.
  intros Hopen. unfold verify_rollback. rewrite run_lift.
  destruct (sd_restore sd) as [[unrestored kept]|] eqn:Hres; [|done]. cbn [fst snd]. rewrite run_lift.
  destruct (sd_fingerprint sd) as [fp|] eqn:Hfp; [|done]. rewrite run_lift.
  destruct (compareIgnoredManifest sd snapshot) as [[man changes]|] eqn:Hman; [|done].
  autorewrite with xio_run. rewrite run_on_query //.
  set (status := if negb _ then rb_failed else _).
  set (confined := allEffectsConfinedToRoots _ _ _ _ _).
  set (claim := deriveRollbackCoverage _). set (result := rollback_result _ _ _ _ _ _ _).
  intros ([] & d1 & Htx & [= <- <-])%bind_Ok_inv. split.
  - unfold on_store, focus in Htx. rewrite Hopen in Htx.
    destruct (transaction _ (dom_store d)) as [out s'] eqn:Ht. injection Htx as -> <-. cbn [dom_store set_store].
    apply transaction_Ok in Ht as (s1 & ([] & s2 & Hrec & Hup)%bind_Ok_inv & -> & _).
    apply record_result_inv in Hrec as (op & row & Hop & _ & _ & Hdb & _). cbn [db] in Hop, Hdb.
    eapply update_status_done; [exact Hup| |].
    + rewrite Hdb. by apply result_recorded_find.
    + done.
  - eexists. split; [reflexivity|]. cbn [rr_coverage]. unfold claim. intros Hc%derive_complete.
    simpl in Hc. destruct Hc as (Hst & Heff & Hcov). unfold status in Hst.
    case_bool_decide as Hf; simpl in Hst; [|done]. case_bool_decide as Hu; [|done].
    destruct confined eqn:Hconf; [|done]. apply app_eq_nil in Hu as [-> Hk].
    split_and!; [by rewrite Hf|by exists kept|by apply allEffects_sound|].
    destruct Hcov as [Hcov|Hcov]; [by left|right; rewrite Hcov in Hman; by eapply compare_unchanged].
Qed.

(** ** Witness: a complete rollback, recorded as operation op-1 *)

Definition sample_snapshot : SnapshotRef :=
  mkSnapshotRef "snap-1" "dom" "snap-1" "git-shadow" ["/w"] worktree_non_ignored "fp" None (Some 0%Z) (Iso 1)
    None (Some "digest").
Definition sample_entry : IgnoredManifestEntry := mkIgnoredEntry "/w/cache" "10" 5000 7000 33188.
Definition sample_sd : SnapshotDriverAnswers :=
  mkSnapshotDriverAnswers "git-shadow" (Ok ([], None)) (Ok "fp") (Some [sample_entry])
    (Some (Ok [mkIgnoredEntry "/w/cache" "10" 5400 7000 33188])).
Definition sample_rollback : RollbackOptions :=
  mkRollbackOptions "run-1" "op-1" "snap-1" None None None None None None.
(** The other operation has finished, confined. *)
Definition confined_result : OperationResult :=
  mkOperationResult (mkBaseResult 5 (Iso 45) false (Some "run-1") None)
    (RProcess (mkProcessOperationResult proc_succeeded (Some 0%Z) None "" "" (Some "bubblewrap") (Some true) false
      None None None None None None None None None None None None None None None None None None None
      None None None None cannot_determine (Some observed) None)).
Definition rollback_domain : ExecutionDomain :=
  set_store (recordOperationResult 45 "op-2" confined_result true (dom_store sample_domain)).2 sample_domain.
Definition rollback_run : outcome error OperationResult * ExecutionDomain :=
  verify_rollback 50 40 sample_sd sample_rollback sample_snapshot ["/w"] rollback_domain.
Definition sample_rollback_result : OperationResult :=
  mkOperationResult (mkBaseResult 10 (Iso 50) false None None)
    (RRollback (mkRollbackOperationResult rb_restored "snap-1" None cov_complete none_possible
      ign_unchanged_verified None ["all_ops_confined"; "ignored_manifest_unchanged"] None)).

Lemma rollback_run_ok : verify_rollback 50 40 sample_sd sample_rollback sample_snapshot ["/w"] rollback_domain
  = (Ok sample_rollback_result, rollback_run.2).
Proof. vm_compute. reflexivity. Qed.

Lemma rollback_complete_is_earned_witness :
  ignored_files_verified sample_sd ∧
  effects_confined "dom" sample_snapshot ["/w"] "op-1" (db (dom_store rollback_domain)).
Proof.
  destruct (rollback_complete_is_earned 50 40 sample_sd sample_rollback sample_snapshot ["/w"] rollback_domain
    sample_rollback_result rollback_run.2 eq_refl rollback_run_ok) as (_ & rr & Hrr & Hclaim).
  injection Hrr as <-. destruct (Hclaim eq_refl) as (_ & _ & Heff & Hign). destruct Hign as [Hfull|Hign]; [discriminate Hfull|].
  split; [exact Hign|exact Heff].
Defined.
