(* ===== verification/RecoverySpec.v ===== *)
(** * RecoverySpec: after a restart nothing is released on a guess, and no run is
    left running *)

From S2P Require Import Prelude Types Events Encode Config Store StoreCalls Samples Paths Capability StoreSpec Domain Authority Rollback Recovery DomainInv DomainSpec ReleaseSpec.

(** ** The verdict *)

Section Verdict.
Context `{Crypto}.

(** Nothing of the process tree of a dead owner is left, and nothing else was
    signalled: the group that is still there is of this boot, and started no
    earlier than the operation, as far as the driver can tell. *)
Definition same_boot (ans : RecoveryAnswers) (identity : ProcessIdentity) : Prop :=
  ∀ recorded current, or_undef (bootId identity) = Some recorded →
    readBootId ans = Some (Ok current) → ∀ c, or_undef current = Some c → c = recorded.
Definition no_earlier_member (ans : RecoveryAnswers) (identity : ProcessIdentity) : Prop :=
  ∀ members spawned p start, getGroupEvidence ans = Some (Ok members) →
    getTime (nullish (osStartTime identity) (spawnTime identity)) = Some spawned →
    (p, Some start) ∈ members → (spawned - 1000 ≤ start)%Z.
Definition confirms (r : outcome error StopProcessResult) : Prop :=
  ∃ s, r = Ok s ∧ stopped s = confirmed_stopped.

Inductive tree_gone (ans : RecoveryAnswers) (identity : ProcessIdentity)
    (evidence : option RecoveryEvidence) : Prop :=
| gone_cgroup_empty path e :
    or_undef (cgroupPath identity) = Some path → evidence = Some e →
    descendantEnumeration (rev_driverCapabilities e) = enum_cgroup →
    settleTree ans = Some (Ok answer_empty) → tree_gone ans identity evidence
| gone_cgroup_stopped path e t :
    or_undef (cgroupPath identity) = Some path → evidence = Some e →
    descendantEnumeration (rev_driverCapabilities e) = enum_cgroup →
    settleTree ans = Some (Ok t) → t ≠ answer_empty → confirms (terminate ans) →
    tree_gone ans identity evidence
| gone_no_group :
    (or_undef (cgroupPath identity) = None ∨
     ∃ e, evidence = Some e ∧ descendantEnumeration (rev_driverCapabilities e) ≠ enum_cgroup) →
    (pgid identity = None ∨ isGroupAlive ans = false) → tree_gone ans identity evidence
| gone_group_stopped g stop :
    (or_undef (cgroupPath identity) = None ∨
     ∃ e, evidence = Some e ∧ descendantEnumeration (rev_driverCapabilities e) ≠ enum_cgroup) →
    pgid identity = Some g → same_boot ans identity → no_earlier_member ans identity →
    terminateGroup ans = Some stop → confirms stop → tree_gone ans identity evidence.

(** What an operation left behind is accounted for. *)
Inductive accounted_for (ans : RecoveryAnswers) (snapshot : option SnapshotRef) (op : Operation) : Prop :=
| acc_snapshot : op_kind op = op_snapshot → accounted_for ans snapshot op
| acc_rollback s : op_kind op = op_rollback → snapshot = Some s →
    nullish (op_mutationRoots op) (snap_roots s) ≠ [] →
    snapshotFingerprint ans = Ok (snap_treeFingerprint s) → accounted_for ans snapshot op
| acc_never_released : is_snapshot_or_rollback op = false → op_processIdentity op = None →
    op_status op = st_intent_registered → op_spawnGated op = Some true → accounted_for ans snapshot op
| acc_stopped identity : is_snapshot_or_rollback op = false → op_processIdentity op = Some identity →
    verifyIdentity ans = Ok is_original_process → confirms (terminate ans) → accounted_for ans snapshot op
| acc_dead identity : is_snapshot_or_rollback op = false → op_processIdentity op = Some identity →
    verifyIdentity ans = Ok not_original_process → tree_gone ans identity (op_recoveryEvidence op) →
    accounted_for ans snapshot op.

(** A verdict either releases with a determinate result or isolates. *)
Definition verdict_ok (v : Verdict) : Prop :=
  v_released v = negb (is_indeterminate (v_result v)) ∧
  (v_action v = isolated_indeterminate ↔ v_released v = false).

Lemma isolate_ok now t b r g : verdict_ok (isolate now t b r g) ∧ v_released (isolate now t b r g) = false.
Proof. done. Qed.

Lemma cgroup_cleared ans path r :
  cgroup_remains ans path = Ok r → (∀ m g, r ≠ cannot_clear m g) →
  settleTree ans = Some (Ok answer_empty) ∨
  ∃ t, settleTree ans = Some (Ok t) ∧ t ≠ answer_empty ∧ confirms (terminate ans).
Proof.
  unfold cgroup_remains, confirms. destruct (settleTree ans) as [t|].
  2:{ intros [= <-] Hr. by destruct (Hr _ _ eq_refl). }
  intros (t' & -> & Hr)%bind_Ok Hclear. case_bool_decide as Ht; [left; by rewrite Ht|right].
  apply bind_Ok in Hr as (stop & -> & [= <-]). exists t'. split_and!; [done|done|].
  case_bool_decide as Hs; [by exists stop|by destruct (Hclear _ _ eq_refl)].
Qed.

Lemma foreign_boot_None ans identity : foreign_boot ans identity = Ok None → same_boot ans identity.
Proof.
  unfold foreign_boot, same_boot. intros Hf recorded current Hr Hc c Hcur. rewrite Hr Hc /= Hcur in Hf.
  by case_bool_decide.
Qed.
Lemma foreign_member_false ans identity :
  foreign_member ans identity = Ok false → no_earlier_member ans identity.
Proof.
  unfold foreign_member, no_earlier_member. intros Hf members spawned p start Hm Ht Hin.
  rewrite Hm /= Ht in Hf. injection Hf as Hf. apply not_true_iff_false in Hf.
  rewrite existsb_In in Hf. destruct (decide (spawned - 1000 ≤ start)%Z); [done|].
  destruct Hf. exists (p, Some start). split; [done|]. simpl. rewrite bool_decide_eq_true. lia.
Qed.

Lemma group_cleared ans identity g r :
  group_remains ans identity g = Ok r → (∀ m g, r ≠ cannot_clear m g) →
  same_boot ans identity ∧ no_earlier_member ans identity ∧
  ∃ stop, terminateGroup ans = Some stop ∧ confirms stop.
Proof.
  unfold group_remains, confirms. intros ([[]|] & Hboot & Hr)%bind_Ok Hclear.
  { injection Hr as <-. by destruct (Hclear _ _ eq_refl). }
  apply bind_Ok in Hr as ([] & Hmem & Hr); [injection Hr as <-; by destruct (Hclear _ _ eq_refl)|].
  split_and!; [by apply foreign_boot_None|by apply foreign_member_false|].
  apply bind_Ok in Hr as (stop & Hstop & [= <-]). case_bool_decide as Hs; [|by destruct (Hclear _ _ eq_refl)].
  destruct (terminateGroup ans) as [r'|]; [|by injection Hstop as <-].
  exists r'. split; [done|]. by exists stop.
Qed.

Lemma dead_cleared ans identity evidence r :
  dead_remains ans identity evidence = Ok r → (∀ m g, r ≠ cannot_clear m g) →
  tree_gone ans identity evidence.
Proof.
  unfold dead_remains. intros Hr Hclear.
  assert (match pgid identity with
    | Some g => if isGroupAlive ans then group_remains ans identity g else Ok nothing_left
    | None => Ok nothing_left end = Ok r →
    (or_undef (cgroupPath identity) = None ∨
      ∃ e, evidence = Some e ∧ descendantEnumeration (rev_driverCapabilities e) ≠ enum_cgroup) →
    tree_gone ans identity evidence) as Hgroup.
  { intros Hg Hc. destruct (pgid identity) as [g|] eqn:Hp; [|apply gone_no_group; auto].
    destruct (isGroupAlive ans) eqn:Ha; [|apply gone_no_group; auto].
    destruct (group_cleared _ _ _ _ Hg Hclear) as (? & ? & stop & ? & ?).
    by eapply gone_group_stopped. }
  destruct (or_undef (cgroupPath identity)) as [path|] eqn:Hpath; [|apply Hgroup; [done|by left]].
  destruct evidence as [e|]; simpl in Hr.
  2:{ injection Hr as <-. by destruct (Hclear _ _ eq_refl). }
  case_bool_decide as He; [|apply Hgroup; [done|right; exists e; split; [done|congruence]]].
  injection He as He. destruct (cgroup_cleared _ _ _ Hr Hclear) as [Ht|(t & Ht & Hne & Hs)].
  - by eapply gone_cgroup_empty.
  - by eapply gone_cgroup_stopped.
Qed.

Lemma gone_clears ans identity evidence r :
  tree_gone ans identity evidence → dead_remains ans identity evidence = Ok r →
  ∀ m g, r ≠ cannot_clear m g.
Proof.
  unfold dead_remains. intros Hgone.
  assert (∀ r, match pgid identity with
    | Some g => if isGroupAlive ans then group_remains ans identity g else Ok nothing_left
    | None => Ok nothing_left end = Ok r → (pgid identity = None ∨ isGroupAlive ans = false) →
    ∀ m g, r ≠ cannot_clear m g) as Hnone.
  { intros r' Hr [Hp|Ha] m g ->; [by rewrite Hp in Hr|].
    destruct (pgid identity); [by rewrite Ha in Hr|done]. }
  assert (∀ g stop r, pgid identity = Some g → same_boot ans identity → no_earlier_member ans identity →
    terminateGroup ans = Some stop → confirms stop → group_remains ans identity g = Ok r →
    ∀ m g, r ≠ cannot_clear m g) as Hstop.
  { clear r. intros g stop r _ Hb Hm Ht (s & -> & Hs) Hr m g' ->. unfold group_remains in Hr.
    apply bind_Ok in Hr as (boot & Hboot & Hr). destruct boot as [[rec cur]|].
    { unfold foreign_boot in Hboot. destruct (or_undef (bootId identity)) as [b|] eqn:Hrec; [|done].
      destruct (readBootId ans) as [c|] eqn:Hc; [|done]. apply bind_Ok in Hboot as (c' & -> & Hboot).
      destruct (or_undef c') as [c''|] eqn:Hcur; [|done]. pose proof (Hb _ _ Hrec Hc _ Hcur).
      by rewrite bool_decide_true in Hboot. }
    apply bind_Ok in Hr as (early & Hearly & Hr). destruct early.
    { unfold foreign_member in Hearly. destruct (getGroupEvidence ans) as [ms|] eqn:Hg; [|done].
      apply bind_Ok in Hearly as (ms' & -> & Hearly). destruct (getTime _) as [t|] eqn:Htime; [|done].
      injection Hearly as He. apply existsb_In in He as ([p [start|]] & Hin & He); [|done].
      apply bool_decide_eq_true in He. pose proof (Hm _ _ _ _ Hg Htime Hin). lia. }
    rewrite Ht /= bool_decide_true // in Hr. }
  destruct Hgone as [path e Hp -> He Ht|path e t Hp -> He Ht Hne (s & Hs & Hc)|Hp Hg|g stop Hp Hg Hb Hm Ht Hs].
  - rewrite Hp /= He bool_decide_true // /cgroup_remains Ht /=. by intros [= <-].
  - rewrite Hp /= He bool_decide_true // /cgroup_remains Ht /= Hs /=. case_bool_decide; [done|].
    simpl. rewrite bool_decide_true //. by intros [= <-].
  - destruct Hp as [->|(e & -> & He)]; [by intros; eapply Hnone|]. simpl.
    rewrite bool_decide_false; [|congruence]. destruct (or_undef _); intros; by eapply Hnone.
  - assert (∀ r, match pgid identity with
      | Some g => if isGroupAlive ans then group_remains ans identity g else Ok nothing_left
      | None => Ok nothing_left end = Ok r → ∀ m g, r ≠ cannot_clear m g) as Hall.
    { clear r. intros r Hr. rewrite Hg in Hr. destruct (isGroupAlive ans); [by eapply Hstop|].
      by injection Hr as <-. }
    destruct Hp as [->|(e & -> & He)]; [apply Hall|]. simpl.
    rewrite bool_decide_false; [|congruence]. destruct (or_undef _); apply Hall.
Qed.

(** ** Exactly what is accounted for is released *)

Lemma judge_rollback_exact now ans op snapshot :
  op_kind op = op_rollback → let v := judge_rollback now ans op snapshot in
  verdict_ok v ∧ (v_released v = true ↔ accounted_for ans snapshot op).
Proof.
  intros Hk v. unfold v, judge_rollback, rollback_matches. split.
  { by destruct snapshot as [s|]; [destruct (nullish _ _), (snapshotFingerprint ans); try case_bool_decide|]. }
  split.
  - destruct snapshot as [s|]; [|done]. destruct (nullish _ _) as [|x l] eqn:Hr; [done|].
    destruct (snapshotFingerprint ans) as [fp|] eqn:Hf; [|done]. case_bool_decide as Hfp; [|done].
    intros _. apply (acc_rollback _ _ _ s); [done|done|by rewrite Hr|by rewrite Hf Hfp].
  - assert (is_snapshot_or_rollback op = true) as Hks by (unfold is_snapshot_or_rollback; by rewrite Hk).
    intros [Hs|s _ -> Hr Hf|Hs|? Hs|? Hs]; try congruence.
    destruct (nullish _ _); [done|]. by rewrite Hf bool_decide_true.
Qed.

Lemma judge_identity_exact now ans op identity snapshot v :
  is_snapshot_or_rollback op = false → op_processIdentity op = Some identity →
  judge_identity now ans identity (op_recoveryEvidence op) = Ok v →
  verdict_ok v ∧ (v_released v = true ↔ accounted_for ans snapshot op).
Proof.
  intros Hk Hid (ver & Hver & Hv)%bind_Ok.
  assert (accounted_for ans snapshot op ↔
    (ver = is_original_process ∧ confirms (terminate ans)) ∨
    (ver = not_original_process ∧ tree_gone ans identity (op_recoveryEvidence op))) as ->.
  { split.
    - intros [Hs|s Hs|_ Hs|i _ Hi Hv' Hc|i _ Hi Hv' Hg]; try congruence;
        [unfold is_snapshot_or_rollback in Hk; by rewrite Hs in Hk..| |].
      + left. split; [congruence|done].
      + right. split; congruence.
    - intros [[-> Hc]|[-> Hg]]; [by eapply acc_stopped|by eapply acc_dead]. }
  destruct ver; simpl in Hv.
  - apply bind_Ok in Hv as (stop & Hstop & [= <-]). unfold confirms. rewrite Hstop.
    case_bool_decide as Hs; (split; [done|]); split; simpl; try done.
    + intros _. left. split; [done|]. by exists stop.
    + intros [[_ (s & [= <-] & ?)]|[? _]]; congruence.
  - apply bind_Ok in Hv as (r & Hr & [= <-]). split; [by destruct r|]. split.
    + intros Hrel. right. split; [done|]. eapply dead_cleared; [exact Hr|]. by intros m g ->.
    + intros [[? _]|[_ Hg]]; [done|]. pose proof (gone_clears _ _ _ _ Hg Hr).
      destruct r as [| |m g]; [done..|congruence].
  - injection Hv as <-. split; [done|]. split; [done|]. intros [[? _]|[? _]]; congruence.
Qed.

Lemma judge_process_exact now ans op snapshot v :
  is_snapshot_or_rollback op = false → judge_process now ans op = Ok v →
  verdict_ok v ∧ (v_released v = true ↔ accounted_for ans snapshot op).
Proof.
  intros Hk. unfold judge_process.
  destruct (op_processIdentity op) as [identity|] eqn:Hid; [by eapply judge_identity_exact|].
  assert (accounted_for ans snapshot op ↔ never_released op = true) as ->.
  { unfold never_released. rewrite andb_true_iff !bool_decide_eq_true. split.
    - intros [Hs|s Hs|_ _ ? ?|? ? ?|? ? ?]; try done; try congruence;
        unfold is_snapshot_or_rollback in Hk; by rewrite Hs in Hk.
    - intros [? ?]. by apply acc_never_released. }
  intros Hn. destruct (never_released op); injection Hn as <-; by split.
Qed.

Lemma judge_exact now ans snapshot op v :
  judge now ans snapshot op = Ok v →
  verdict_ok v ∧ (v_released v = true ↔ invalid_config op = None ∧ accounted_for ans snapshot op).
Proof.
  unfold judge. destruct (invalid_config op) as [m|].
  { intros [= <-]. split; [done|]. split; [done|]. by intros [? _]. }
  intros Hv. rewrite (_ : (None = None ∧ accounted_for ans snapshot op) ↔ accounted_for ans snapshot op);
    [|naive_solver].
  destruct (op_kind op) eqn:Hk;
    try (apply (judge_process_exact now); [unfold is_snapshot_or_rollback; by rewrite Hk|exact Hv]).
  - injection Hv as <-. split; [done|]. split; [|done]. intros _. by apply acc_snapshot.
  - injection Hv as <-. by apply judge_rollback_exact.
Qed.
End Verdict.

(** ** How recovery moves the tables *)

Definition op_moves (o o' : Operation) : Prop :=
  op_id o' = op_id o ∧ op_domainId o' = op_domainId o ∧ op_runId o' = op_runId o ∧
  (o' = o ∨ op_done o' = true).
Definition run_moves (r r' : Run) : Prop :=
  run_id r' = run_id r ∧ run_domainId r' = run_domainId r ∧
  (r' = r ∨ run_is_terminal (run_status r') = true).
#[export] Instance op_moves_preorder : PreOrder op_moves.
Proof. unfold op_moves. split; [intros o; naive_solver|intros o1 o2 o3; naive_solver congruence]. Qed.
#[export] Instance run_moves_preorder : PreOrder run_moves.
Proof. unfold run_moves. split; [intros o; naive_solver|intros o1 o2 o3; naive_solver congruence]. Qed.

(** No lease is taken. *)
Definition shrinks (d d' : Db) : Prop := ∀ l, l ∈ db_resource_leases d' → l ∈ db_resource_leases d.
#[export] Instance shrinks_preorder : PreOrder shrinks.
Proof. split; [by intros d l|]. intros d1 d2 d3 H1 H2 l Hl. by apply H1, H2. Qed.
Lemma filter_shrinks (q : ResourceLease → bool) d : shrinks d (with_leases (List.filter q) d).
Proof. intros l (Hl & _)%list_elem_of_In%filter_In. by apply list_elem_of_In. Qed.

(** Operations only become done, done ones keep their row, runs only end. *)
Record moves (d d' : Db) : Prop := {
  mv_ops : Forall2 op_moves (db_operations d) (db_operations d');
  mv_done : ∀ id o, find_operation id d = Some o → op_done o = true → find_operation id d' = Some o;
  mv_runs : Forall2 run_moves (db_runs d) (db_runs d');
  mv_snapshots : db_snapshots d' = db_snapshots d;
  mv_shrinks : shrinks d d';
}.
#[export] Instance moves_preorder : PreOrder moves.
Proof.
  split.
  - intros d. split; [reflexivity|done|reflexivity|done|reflexivity].
  - intros d1 d2 d3 [H1 H2 H3 H4 H5] [K1 K2 K3 K4 K5].
    split; [by etransitivity|eauto|by etransitivity|congruence|by etransitivity].
Qed.
(** The leases of an operation stay. *)
Definition keeps_leases (id : string) (d d' : Db) : Prop :=
  ∀ l, lease_operationId l = id → l ∈ db_resource_leases d → l ∈ db_resource_leases d'.
#[export] Instance keeps_leases_preorder id : PreOrder (keeps_leases id).
Proof. split; [by intros d l|intros d1 d2 d3 H1 H2 l Hl Hin; by apply H2, H1]. Qed.
(** After the operations: no row of one moves. *)
Record ends_runs (d d' : Db) : Prop := {
  er_ops : db_operations d' = db_operations d;
  er_leases : ∀ id, startsWith id "service:" = false → keeps_leases id d d';
  er_runs : Forall2 run_moves (db_runs d) (db_runs d');
  er_snapshots : db_snapshots d' = db_snapshots d;
  er_shrinks : shrinks d d';
}.
#[export] Instance ends_runs_preorder : PreOrder ends_runs.
Proof.
  split.
  - intros d. split; [done|done|reflexivity|done|reflexivity].
  - intros d1 d2 d3 [H1 H2 H3 H4 H5] [K1 K2 K3 K4 K5].
    split; [congruence|intros id Hid; etransitivity; eauto|by etransitivity|congruence|by etransitivity].
Qed.
Lemma ends_runs_moves d d' : ends_runs d d' → moves d d'.
Proof.
  intros [H1 H2 H3 H4 H5]. split; [by rewrite H1|intros id o; unfold find_operation; by rewrite H1|done..].
Qed.

Lemma forall2_find {A} (R : relation A) (q : A → bool) l l' y :
  (∀ a b, R a b → q b = q a) → Forall2 R l l' → List.find q l' = Some y →
  ∃ x, List.find q l = Some x ∧ R x y.
Proof.
  intros Hq Hl. induction Hl as [|a b l l' Hab Hl IH]; simpl; [done|].
  rewrite (Hq _ _ Hab). destruct (q a); [intros [= <-]; by exists a|exact IH].
Qed.
Lemma forall2_in {A B} (R : A → B → Prop) l l' y : Forall2 R l l' → y ∈ l' → ∃ x, x ∈ l ∧ R x y.
Proof.
  intros Hl [i Hy]%list_elem_of_lookup. destruct (Forall2_lookup_r _ _ _ _ _ Hl Hy) as (x & Hx & HR).
  exists x. split; [by eapply list_elem_of_lookup_2|done].
Qed.
Lemma moves_find_back d d' id o' :
  moves d d' → find_operation id d' = Some o' → ∃ o, find_operation id d = Some o ∧ op_moves o o'.
Proof.
  intros [Hops _ _ _ _]. apply forall2_find; [|done]. intros a b (Hid & _). by rewrite Hid.
Qed.
Lemma run_moves_back d d' id r :
  Forall2 run_moves (db_runs d) (db_runs d') → find_run id d' = Some r → run_status r = run_running →
  find_run id d = Some r.
Proof.
  intros Hruns Hr Hrun. unfold find_run in *. apply (forall2_find run_moves _ (db_runs d)) in Hr as (r0 & -> & Hm).
  - destruct Hm as (_ & _ & [->|Ht]); [done|]. by rewrite Hrun in Ht.
  - intros a b (Hid & _). by rewrite Hid.
  - done.
Qed.

(** *** The calls *)

Section Calls.
Context (R : relation Db) `{!PreOrder R}.
(** Neither the journal nor the listed tables matter to [R]. *)
Context (Hrow : ∀ row d, R d (with_journal row d)).

Lemma respects_any_event now ev : respects (on_db R) (recordEventAndTransitionState now ev).
Proof using Type*. apply respects_recordEvent; [done|]. intros d row _. apply Hrow. Qed.
End Calls.

Lemma moves_same d d' :
  db_operations d' = db_operations d → db_runs d' = db_runs d → db_snapshots d' = db_snapshots d → shrinks d d' →
  moves d d'.
Proof. intros Ho Hr Hs Hl. split; [by rewrite Ho|intros id o; unfold find_operation; by rewrite Ho|by rewrite Hr|done..]. Qed.

Lemma respects_release_moves id res : respects (on_db moves) (releaseResourceLease id res).
Proof. unfold releaseResourceLease. destruct (or_undef res); apply respects_exec; intros d; apply moves_same;
  (done || apply filter_shrinks). Qed.
Lemma respects_release_keeps id id' res :
  id ≠ id' → respects (on_db (keeps_leases id)) (releaseResourceLease id' res).
Proof.
  intros Hne. unfold releaseResourceLease. destruct (or_undef res); apply respects_exec;
    intros d l Hl Hin; simpl; apply list_elem_of_In, filter_In; (split; [by apply list_elem_of_In|]);
    rewrite bool_decide_false //; congruence.
Qed.
Lemma respects_release_ends id res :
  startsWith id "service:" = true → respects (on_db ends_runs) (releaseResourceLease id res).
Proof.
  intros Hid s. pose proof (λ id', respects_release_keeps id' id res) as Hk.
  assert (db_operations (db (releaseResourceLease id res s).2) = db_operations (db s) ∧
    db_runs (db (releaseResourceLease id res s).2) = db_runs (db s) ∧
    db_snapshots (db (releaseResourceLease id res s).2) = db_snapshots (db s)) as (Ho & Hr & Hs).
  { unfold releaseResourceLease. by destruct (or_undef res). }
  pose proof (mv_shrinks _ _ (respects_release_moves id res s)).
  split; [done| |by rewrite Hr|done..]. intros id' Hid'. apply (Hk id'). congruence.
Qed.

Lemma moves_event row d : moves d (with_journal row d).
Proof. apply moves_same; [done..|by intros l]. Qed.
Lemma keeps_event id row d : keeps_leases id d (with_journal row d).
Proof. by intros l. Qed.
Lemma ends_event row d : ends_runs d (with_journal row d).
Proof. split; [done|by intros id _ l|reflexivity|done|by intros l]. Qed.
#[local] Hint Resolve moves_event keeps_event ends_event respects_release_moves respects_release_keeps
  respects_release_ends respects_any_event : recovery.

Lemma release_moves now cancelled id res :
  respects (dom_db moves) (internalReleaseResources now cancelled id res).
Proof. apply respects_internalRelease; eauto with recovery typeclass_instances. Qed.
Lemma release_keeps now cancelled id id' res :
  id ≠ id' → respects (dom_db (keeps_leases id)) (internalReleaseResources now cancelled id' res).
Proof. intros. apply respects_internalRelease; eauto with recovery typeclass_instances. Qed.
Lemma release_ends now cancelled id res :
  startsWith id "service:" = true → respects (dom_db ends_runs) (internalReleaseResources now cancelled id res).
Proof. intros. apply respects_internalRelease; eauto with recovery typeclass_instances. Qed.
Lemma service_prefix s : startsWith ("service:" +:+ s) "service:" = true.
Proof. by destruct s. Qed.

(** What follows the record of an operation. *)
Lemma after_record R `{!PreOrder R} now cancelled instances op v
    (Hevent : ∀ dom run oid payload ts, respects (on_db R) (recordEventAndTransitionState now
      (simple_event dom run oid "SERVICE_STOPPED" payload ts)))
    (Hrel : v_released v = true → respects (dom_db R) (internalReleaseResources now cancelled (op_id op)
      (Some (op_requiredResources op))))
    (Hsvc : respects (dom_db R) (internalReleaseResources now cancelled ("service:" +:+ serviceIdOf op)
      (Some (op_requiredResources op)))) :
  respects (dom_db R)
    (when (v_released v) (releaseOpAndServiceResources now cancelled instances op);;
     when (v_stopped v) (recordServiceStoppedIfNeeded now op (v_action v));;
     mret (mkRecoveredOperation (op_id op) (v_action v) (v_released v))).
Proof.
  pose proof (λ A f, @respects_on_query R _ A f).
  pose proof (λ dom run oid p ts, respects_on_store R _ (Hevent dom run oid p ts)).
  unfold releaseOpAndServiceResources, recordServiceStoppedIfNeeded.
  destruct (v_released v); [specialize (Hrel eq_refl)|]; respects_tac.
Qed.

(** *** One operation *)

Lemma result_recorded_others id r release d id' :
  id' ≠ id → find_operation id' (result_recorded id r release d) = find_operation id' d.
Proof.
  intros Hne. unfold result_recorded, find_operation.
  assert (List.find (λ o, bool_decide (op_id o = id'))
    (update_where (λ o, bool_decide (op_id o = id)) (finish_op r) (db_operations d))
    = List.find (λ o, bool_decide (op_id o = id')) (db_operations d)) as Heq.
  { rewrite find_update_where //. destruct (List.find _ (db_operations d)) as [o|] eqn:Ho; [|done]. simpl.
    apply find_some in Ho as [_ Ho%bool_decide_eq_true]. rewrite bool_decide_false //. congruence. }
  by case_match.
Qed.

Lemma record_moves id r release d op row :
  find_operation id d = Some op → op_done op = false →
  moves d (with_journal row (result_recorded id r release d)).
Proof.
  intros Hop Hnd.
  assert (Hops : db_operations (result_recorded id r release d)
    = update_where (λ o, bool_decide (op_id o = id)) (finish_op r) (db_operations d)).
  { unfold result_recorded. by case_match. }
  split.
  - simpl. rewrite Hops. apply Forall2_fmap_r, Forall_Forall2_diag, Forall_forall.
    intros o _. simpl. unfold op_moves. case_bool_decide; simpl; naive_solver.
  - intros id' o Ho Hdone. unfold find_operation. simpl. fold (find_operation id' (result_recorded id r release d)).
    destruct (decide (id' = id)) as [->|Hne]; [congruence|]. by rewrite result_recorded_others.
  - unfold result_recorded. by case_match.
  - unfold result_recorded. by case_match.
  - intros l Hl. simpl in Hl. by apply result_recorded_leases in Hl as [? _].
Qed.

Definition row_settled (id : string) (d : Db) : Prop := ∀ o, o ∈ db_operations d → op_id o = id → op_done o = true.
Lemma row_settled_moves id d d' : moves d d' → row_settled id d → row_settled id d'.
Proof.
  intros [Hops _ _ _ _] Hs o Ho Hid. destruct (forall2_in _ _ _ _ Hops Ho) as (o0 & Hin & Hm).
  destruct Hm as (Hi & _ & _ & [->|Hd]); [|done]. apply Hs; congruence.
Qed.
Lemma record_settles id r release d row : row_settled id (with_journal row (result_recorded id r release d)).
Proof.
  intros o Ho Hid. simpl in Ho. unfold result_recorded in Ho.
  assert (o ∈ update_where (λ o, bool_decide (op_id o = id)) (finish_op r) (db_operations d)) as Hin
    by (by case_match).
  apply list_elem_of_fmap in Hin as (o0 & -> & _). revert Hid. case_bool_decide; [done|congruence].
Qed.

Section Recover.
Context `{Crypto} (now : Z) (cancelled : nat → bool) (answers : string → RecoveryAnswers)
  (instances : list (string * list string)).

(** The verdict on an operation, in the database [d]. *)
Definition judged (d : Db) (op : Operation) (v : Verdict) : Prop :=
  judge now (answers (op_id op)) (find_snapshot (rollback_snapshot_id op) d) op = Ok v.

(** What a recovered operation becomes. *)
Record recovered_as (d d' : Db) (op : Operation) (r : RecoveredOperation) (v : Verdict) : Prop := {
  ra_judged : judged d op v;
  ra_report : r = mkRecoveredOperation (op_id op) (v_action v) (v_released v);
  ra_open : ∃ o, find_operation (op_id op) d = Some o ∧ op_done o = false;
  ra_done : ∃ o, find_operation (op_id op) d' = Some o ∧ op_done o = true ∧ op_result o = Some (v_result v);
  ra_settled : row_settled (op_id op) d';
  ra_freed : v_released v = true → ∀ l, l ∈ db_resource_leases d' → lease_operationId l ≠ op_id op;
}.

Lemma recover_op_inv op d r d' :
  recover_op now cancelled answers instances op d = (Ok r, d') →
  let b := db (dom_store d) in let a := db (dom_store d') in
  moves b a ∧ ∃ v, recovered_as b a op r v ∧
  ∀ id, startsWith id "service:" = false → (id = op_id op → v_released v = false) → keeps_leases id b a.
Proof.
  intros (snapshot & d0 & [-> ->]%on_query_Ok & Hrun)%bind_Ok_inv. cbv zeta.
  apply bind_Ok_inv in Hrun as (v & d1 & [= Hv <-] & Hrun).
  apply bind_Ok_inv in Hrun as ([] & d2 & (_ & s2 & Hrec & ->)%on_store_Ok & Hrun).
  pose proof Hrec as (o & row & Ho & Hnd & _ & Hdb & _)%record_result_inv.
  set (after := when _ _;; _) in Hrun.
  assert (∀ R `{!PreOrder R}, respects (dom_db R) after → R (db s2) (db (dom_store d'))) as Hafter.
  { intros R ? HR. specialize (HR (set_store s2 d)). unfold dom_db in HR. by rewrite Hrun in HR. }
  pose proof (record_moves _ (v_result v) (v_released v) _ _ row Ho Hnd) as Hm1. rewrite -Hdb in Hm1.
  assert (moves (db s2) (db (dom_store d'))) as Hm2.
  { apply Hafter; [apply _|]. apply after_record; intros; auto using respects_any_event, moves_event, release_moves with typeclass_instances. }
  assert (r = mkRecoveredOperation (op_id op) (v_action v) (v_released v)) as Hr.
  { unfold after in Hrun. apply bind_Ok_inv in Hrun as (? & ? & _ & Hrun).
    apply bind_Ok_inv in Hrun as (? & ? & _ & Hrun). by injection Hrun. }
  split; [by etransitivity|]. exists v. split.
  - split; [done|done|by exists o| | |].
    + exists (finish_op (v_result v) o). split_and!; [|done..]. apply (mv_done _ _ Hm2); [|done].
      rewrite Hdb. by apply result_recorded_find.
    + eapply row_settled_moves; [done|]. rewrite Hdb. apply record_settles.
    + intros Hrel l Hl%(mv_shrinks _ _ Hm2). rewrite Hdb in Hl. apply result_recorded_leases in Hl as [_ Hl].
      apply Hl. apply judge_exact in Hv as ((Hok & _) & _). by rewrite -Hok Hrel.
  - intros id Hsvc Hid. transitivity (db s2).
    + intros l Hl Hin. rewrite Hdb. simpl. apply result_recorded_leases. split; [done|].
      intros [Hrel _]%andb_true_iff Heq. rewrite Hid in Hrel; congruence.
    + apply Hafter; [apply _|]. apply after_record; [apply _|intros; apply respects_any_event; [apply _|apply keeps_event]|intros Hrel|].
      * apply release_keeps. intros ->. by rewrite Hid in Hrel.
      * apply release_keeps. intros ->. by rewrite service_prefix in Hsvc.
Qed.

(** *** The loop *)

Lemma recovered_as_moves d d0 d1 d' op r v :
  moves d d0 → moves d1 d' → recovered_as d0 d1 op r v → recovered_as d d' op r v.
Proof.
  intros H0 H1 [Hj Hr (o & Ho & Hnd) (o1 & Ho1 & Hd1 & Hres) Hs Hf]. split.
  - unfold judged in *. unfold find_snapshot in *. by rewrite -(mv_snapshots _ _ H0).
  - done.
  - destruct (moves_find_back _ _ _ _ H0 Ho) as (o' & Ho' & _). exists o'. split; [done|].
    apply not_true_iff_false. intros Hd. rewrite (mv_done _ _ H0 _ _ Ho' Hd) in Ho. congruence.
  - exists o1. split; [by apply (mv_done _ _ H1)|done].
  - by eapply row_settled_moves.
  - intros Hrel l Hl. apply Hf; [done|]. by apply (mv_shrinks _ _ H1).
Qed.

Lemma recover_ops_inv ops : ∀ d rs d',
  recover_ops now cancelled answers instances ops d = (Ok rs, d') →
  let b := db (dom_store d) in let a := db (dom_store d') in
  moves b a ∧ Forall2 (λ op r, ∃ v, recovered_as b a op r v) ops rs ∧ NoDup (map op_id ops) ∧
  ∀ id, startsWith id "service:" = false →
    (∀ r, r ∈ rs → rec_opId r = id → rec_resourcesReleased r = false) → keeps_leases id b a.
Proof.
  induction ops as [|op ops IH]; intros d rs d'; cbv zeta.
  { intros [= <- <-]. split_and!; [reflexivity|constructor|constructor|by intros ????]. }
  intros (r & d1 & (Hm1 & v & Hv & Hk1)%recover_op_inv & Hrun)%bind_Ok_inv.
  apply bind_Ok_inv in Hrun as (rs' & d2 & (Hm2 & Hrs & Hnd & Hk2)%IH & [= <- <-]).
  split_and!; [by etransitivity| | |].
  - constructor.
    + exists v. eapply recovered_as_moves; [reflexivity|exact Hm2|exact Hv].
    + eapply Forall2_impl; [exact Hrs|]. intros x y (v' & Hv'). exists v'.
      eapply recovered_as_moves; [exact Hm1|reflexivity|exact Hv'].
  - simpl. constructor; [|done]. intros (op' & Hid & Hin)%list_elem_of_fmap.
    apply list_elem_of_lookup in Hin as [i Hi]. destruct (Forall2_lookup_l _ _ _ _ _ Hrs Hi) as (r' & _ & v' & Hv').
    destruct (ra_open _ _ _ _ _ Hv') as (o' & Ho' & Hopen), (ra_done _ _ _ _ _ Hv) as (o & Ho & Hdone & _).
    congruence.
  - intros id Hsvc Hall. etransitivity.
    + apply Hk1; [done|]. intros ->. rewrite (ra_report _ _ _ _ _ Hv) in Hall. by apply (Hall _ ltac:(by left)).
    + apply Hk2; [done|]. intros r' Hr'. apply Hall. by right.
Qed.

End Recover.

(** *** The runs *)

Section Runs.
Context (now : Z) (cancelled : nat → bool).


(** The run has ended, or an operation keeps it open. *)
Definition run_closed (id : string) (d : Db) : Prop :=
  (∀ r, find_run id d = Some r → run_status r ≠ run_running) ∨
  ∃ op, op ∈ select_operations_by_run id d ∧ op_done op = false.
Lemma run_closed_ends id d d' : ends_runs d d' → run_closed id d → run_closed id d'.
Proof.
  intros [Ho _ Hr _ _] [Hend|(op & Hop & Hnd)].
  - left. intros r Hfind Hrun. by apply (Hend r (run_moves_back _ _ _ _ Hr Hfind Hrun)).
  - right. exists op. unfold select_operations_by_run in *. by rewrite Ho.
Qed.

Lemma updateRunStatus_ends id st reason ended s s' :
  run_is_terminal st = true → updateRunStatus now id st reason ended s = (Ok tt, s') →
  ends_runs (db s) (db s') ∧ (∀ r, find_run id (db s') = Some r → run_status r ≠ run_running).
Proof.
  intros Hst (s1 & Hrun & -> & _)%transaction_Ok. revert Hrun. unfold getRun. autorewrite with xio_run. cbn [db].
  set (f := λ r, mkRun _ _ _ _ _ _ _ _ _ _).
  set (d1 := with_runs (update_where (λ r, bool_decide (run_id r = id)) f) (db s)).
  assert (ends_runs (db s) d1 ∧ ∀ r, find_run id d1 = Some r → run_status r ≠ run_running) as [He Hf].
  { split; [split; [done|by intros ????| |done|by intros l]|].
    - simpl. apply Forall2_fmap_r, Forall_Forall2_diag, Forall_forall. intros r _. simpl.
      unfold run_moves. case_bool_decide; [|naive_solver]. split_and!; [done|done|by right].
    - intros r Hr Hrun. unfold find_run, d1 in Hr. simpl in Hr. rewrite find_update_where in Hr; [|done].
      destruct (List.find _ (db_runs (db s))) as [r0|] eqn:Hr0; [|done].
      apply find_some in Hr0 as [_ Hid]. simpl in Hr. rewrite Hid in Hr. injection Hr as <-.
      simpl in Hrun. by rewrite Hrun in Hst. }
  destruct (find_run id (db s)) as [run|] eqn:Hfind.
  - autorewrite with xio_run. destruct (fencing_error _ _); [done|].
    destruct (run_is_terminal (run_status run)) eqn:Hterm.
    { case_bool_decide; [|done]. autorewrite with xio_run. intros [= <-]. cbn [db]. split; [reflexivity|].
      intros r Hr. rewrite Hfind in Hr. injection Hr as <-. intros Hrun. by rewrite Hrun in Hterm. }
    autorewrite with xio_run. cbn [db currentEpoch inTransaction].
    intros (seq & s2 & Hev & [= <-])%bind_Ok_inv.
    match type of Hev with recordEventAndTransitionState now ?ev ?s = _ =>
      destruct (recordEvent_cases now ev s) as [[e Hx]|(row & Hx & _)] end;
      rewrite Hx in Hev; [done|]. injection Hev as _ <-. cbn [db]. fold f d1.
    split; [|exact Hf]. etransitivity; [exact He|apply ends_event].
  - autorewrite with xio_run. intros [= <-]. cbn [db]. by split.
Qed.

Lemma converge_run_inv run d d' :
  converge_run now run d = (Ok tt, d') →
  ends_runs (db (dom_store d)) (db (dom_store d')) ∧ run_closed (run_id run) (db (dom_store d')).
Proof.
  intros (ops & d0 & [-> ->]%on_query_Ok & [[Hd Hrun]|[Hd ->]]%when_Ok)%bind_Ok_inv.
  - assert (∃ st reason, run_is_terminal st = true ∧
      on_store (updateRunStatus now (run_id run) st reason (Some (Iso now))) d = (Ok tt, d')) as (st & re & Hst & Hu).
    { destruct (existsb _ _) in Hrun; do 2 eexists; (split; [|exact Hrun]); done. }
    apply on_store_Ok in Hu as (_ & s' & [He Hf]%updateRunStatus_ends & ->); [|done].
    split; [exact He|by left].
  - split; [reflexivity|right]. apply not_true_iff_false in Hd. rewrite forallb_forall in Hd.
    destruct (decide (Exists (λ o, op_done o = false) (select_operations_by_run (run_id run) (db (dom_store d)))))
      as [(o & Ho & Hn)%Exists_exists|Hall]; [by exists o|].
    destruct Hd. intros o Ho%list_elem_of_In. apply not_Exists_Forall in Hall; [|intros ?; apply _].
    rewrite Forall_forall in Hall. specialize (Hall o Ho). simpl in Hall. by destruct (op_done o).
Qed.

Lemma converge_runs_inv runs d d' :
  for_each runs (converge_run now) d = (Ok tt, d') →
  ends_runs (db (dom_store d)) (db (dom_store d')) ∧
  ∀ run, run ∈ runs → run_closed (run_id run) (db (dom_store d')).
Proof.
  apply (for_each_collects (dom_db ends_runs) (λ run d, run_closed (run_id run) (db (dom_store d)))).
  - intros run d1 d2. apply converge_run_inv.
  - intros run d1 d2. apply run_closed_ends.
Qed.

(** *** The leases of services *)

Lemma clear_backoff_ends m lease : respects (dom_db ends_runs) (clear_backoff_lease now cancelled m lease).
Proof.
  unfold clear_backoff_lease. destruct (startsWith (lease_operationId lease) "service:") eqn:Hs.
  2: apply respects_ret, _.
  pose proof (λ res, release_ends now cancelled _ res Hs).
  pose proof (λ ev, respects_on_store ends_runs _ (respects_any_event ends_runs ends_event now ev)). respects_tac.
Qed.
Lemma clear_all_backoff_ends leases : ∀ m, respects (dom_db ends_runs) (clear_backoff_leases now cancelled m leases).
Proof. pose proof clear_backoff_ends. induction leases as [|l ls IH]; intros m; simpl; respects_tac. Qed.
End Runs.

(** *** The locks *)

Definition quiet (id : string) (d : ExecutionDomain) : Prop := Forall (λ x, wi_operationId x ≠ id) (waitQueue d).
Definition free (id res : string) (d : ExecutionDomain) : Prop := getResourceOwner d res ≠ Some id.
(** An operation without a request takes no lock. *)
Definition takes_nothing (id res : string) (d d' : ExecutionDomain) : Prop :=
  quiet id d → quiet id d' ∧ (free id res d → free id res d').
#[export] Instance takes_nothing_preorder id res : PreOrder (takes_nothing id res).
Proof. split; [by intros d|]. intros d1 d2 d3 H1 H2 Hq. destruct (H1 Hq) as [Hq2 ?], (H2 Hq2). auto. Qed.

Section Locks.
Context (id res : string).
Notation T := (takes_nothing id res).

Lemma takes_same d d' : waitQueue d' = waitQueue d → inMemoryLockedResources d' = inMemoryLockedResources d → T d d'.
Proof using Type. intros Hq Hl H. unfold quiet, free, getResourceOwner in *. by rewrite Hq Hl. Qed.
Lemma takes_on_store {A} (m : SM A) : respects T (on_store m).
Proof using Type.
  intros d. unfold on_store, focus. destruct (dom_lockHeld d); [|reflexivity].
  destruct (m (dom_store d)). by apply takes_same.
Qed.
Lemma takes_memory (f : ExecutionDomain → ExecutionDomain) :
  (∀ d, waitQueue (f d) = waitQueue d ∧ inMemoryLockedResources (f d) = inMemoryLockedResources d) →
  respects T (modify (E:=error) f).
Proof using Type. intros Hf. apply respects_modify. intros d. by apply takes_same; apply Hf. Qed.
Lemma takes_assertNotFenced : respects T assertNotFenced.
Proof using Type. pose proof @takes_on_store. unfold assertNotFenced. respects_tac. Qed.
Lemma takes_allocate op rs w b : op ≠ id → respects T (allocateResources op rs w b).
Proof using Type.
  intros Hne. pose proof @takes_on_store. pose proof takes_assertNotFenced.
  assert (respects T (modify (E:=error) (grant op rs b))).
  { apply respects_modify. intros d Hq. split; [done|]. unfold free. rewrite grant_owner. case_bool_decide; congruence. }
  unfold allocateResources, check_cap, getActiveOperationIds. respects_tac.
Qed.
Lemma takes_process_items now cancelled items : Forall (λ x, wi_operationId x ≠ id) items → ∀ reserved blocked,
  respects T (process_items now cancelled items reserved blocked).
Proof using Type.
  pose proof takes_allocate. assert (∀ i o, respects T (settle i o)) by (intros; by apply takes_memory).
  induction 1 as [|item items Hi Hitems IH]; intros reserved blocked; simpl; respects_tac.
Qed.
Lemma kept_of_items now cancelled items : ∀ reserved blocked d kept d',
  process_items now cancelled items reserved blocked d = (Ok kept, d') → ∀ x, x ∈ kept → x ∈ items.
Proof using Type.
  induction items as [|item items IH]; intros reserved blocked d kept d'; simpl; [by intros [= <- <-]|].
  assert (∀ r b d, (kept' ← process_items now cancelled items r b; mret (item :: kept')) d = (Ok kept, d') →
    ∀ x, x ∈ kept → x ∈ item :: items) as Hkeep.
  { intros r b d0 (kept' & d1 & Hk & [= <- <-])%bind_Ok_inv. intros y Hy. apply elem_of_cons in Hy as [->|Hy]; [by left|].
    right. eauto. }
  assert (∀ i o r b d, (settle i o;; process_items now cancelled items r b) d = (Ok kept, d') →
    ∀ x, x ∈ kept → x ∈ item :: items) as Hdrop.
  { intros i o r b d0 (u & d1 & _ & Hk)%bind_Ok_inv. intros y Hy. right. eauto. }
  destruct (cancelled _); [apply Hdrop|]. destruct (_ || _); [apply Hkeep|].
  intros ([e|] & d1 & _ & Hrun)%bind_Ok_inv; [destruct (is_conflict e)|]; eauto.
Qed.
Lemma takes_processWaitQueue now cancelled : respects T (processWaitQueue now cancelled).
Proof using Type.
  intros d Hq. unfold processWaitQueue. rewrite run_get_state. destruct (_ || _); [by apply takes_same|].
  pose proof (takes_process_items now cancelled _ Hq [] false d) as Hp.
  pose proof (kept_of_items now cancelled (waitQueue d) [] false d) as Hk.
  unfold mbind, ST_bind. destruct (process_items _ _ _ _ _ d) as [[kept|e] d']; simpl in *; [|by apply Hp].
  destruct (Hp Hq) as [_ Hf]. split; [|exact Hf]. apply Forall_forall. intros x Hx. simpl in Hx.
  eapply Forall_forall in Hq; [exact Hq|]. by eapply Hk.
Qed.
Lemma takes_unlock r d : T d (lock_unlock r d).
Proof using Type. intros Hq. split; [done|]. unfold free. rewrite owner_unlock. by case_decide. Qed.
Lemma takes_release_listed op persisted rs : respects T (release_listed op persisted rs).
Proof using Type.
  pose proof @takes_on_store. assert (∀ r, respects T (modify (E:=error) (lock_unlock r))).
  { intros r. apply respects_modify, takes_unlock. }
  induction rs as [|r rs IH]; simpl; respects_tac.
Qed.

(** The lists of what is given up, and what follows. *)
Definition given_up (op : string) (resources : option (list string)) (d : ExecutionDomain) : DM (list string) :=
  match resources with
  | Some ((_ :: _) as resources) =>
      leases ← on_store (getPersistedResourceLeases (dom_id d));
      let persisted := js_set (map lease_resourceId
        (List.filter (λ l, bool_decide (lease_operationId l = op)) leases)) in
      release_listed op persisted resources
  | _ =>
      let mine := List.filter (λ p, bool_decide (p.2 = op)) (inMemoryLockedResources d) in
      modify (λ d, foldl (λ d res, lock_unlock res d) d mine.*1);;
      on_store (releaseResourceLease op None);;
      mret mine.*1
  end.
Definition after_given_up now cancelled op (d : ExecutionDomain) (l : list string) : DM unit :=
  locks ← gets inMemoryLockedResources;
  when (negb (js_has locks.*2 op)) (modify (forget_op op));;
  on_store (recordEventAndTransitionState now (simple_event (dom_id d) None (Some op) "RESOURCES_RELEASED"
    (JObj [("operationId", JStr op); ("resources", js_strings l); ("releaseReason", JStr "kernel_release")]) (Iso now)));;
  processWaitQueue now cancelled.
Lemma internalRelease_eq now cancelled op resources : internalReleaseResources now cancelled op resources =
  (assertNotFenced;; d ← get_state; on_store (verifyEpochFencing (dom_id d));;
   l ← given_up op resources d; after_given_up now cancelled op d l).
Proof using Type. done. Qed.
Lemma takes_given_up op resources d : respects T (given_up op resources d).
Proof using Type.
  pose proof @takes_on_store. pose proof takes_release_listed.
  assert (∀ l, respects T (modify (E:=error) (λ d, foldl (λ d res, lock_unlock res d) d l))).
  { intros l. apply respects_modify. induction l as [|r l IH]; intros d0; [reflexivity|]. simpl.
    etransitivity; [apply takes_unlock|apply IH]. }
  unfold given_up. respects_tac.
Qed.
Lemma takes_after now cancelled op d l : respects T (after_given_up now cancelled op d l).
Proof using Type.
  pose proof @takes_on_store. pose proof takes_processWaitQueue.
  assert (respects T (modify (E:=error) (forget_op op))) by by apply takes_memory.
  unfold after_given_up. respects_tac.
Qed.
Lemma takes_release now cancelled op resources : respects T (internalReleaseResources now cancelled op resources).
Proof using Type.
  rewrite internalRelease_eq. pose proof takes_assertNotFenced. pose proof @takes_on_store.
  pose proof takes_given_up. pose proof takes_after. respects_tac.
Qed.

(** What is given up is free. *)
Lemma listed_frees persisted rs : ∀ d l d', res ∈ rs → release_listed id persisted rs d = (Ok l, d') → quiet id d → free id res d'.
Proof using Type.
  induction rs as [|r rs IH]; intros d l d' Hin Hrun Hq; [by apply elem_of_nil in Hin|]. simpl in Hrun.
  rewrite run_gets in Hrun. destruct (bool_decide _ || _) eqn:Hb.
  - apply bind_Ok_inv in Hrun as (? & d1 & [= _ <-] & Hrun). apply bind_Ok_inv in Hrun as (? & d2 & Hs & Hrun).
    pose proof (takes_on_store (releaseResourceLease id (Some r)) (lock_unlock r d)) as Ht. rewrite Hs in Ht.
    apply bind_Ok_inv in Hrun as (l' & d3 & Hrun & [= _ <-]). destruct (Ht Hq) as [Hq2 Hf].
    apply elem_of_cons in Hin as [<-|Hin]; [|by eapply IH].
    pose proof (takes_release_listed id persisted rs d2) as Hl. rewrite Hrun in Hl. apply (Hl Hq2), Hf.
    unfold free. by rewrite owner_unlock decide_True.
  - apply orb_false_iff in Hb as [Hb%bool_decide_eq_false _]. apply elem_of_cons in Hin as [<-|Hin]; [|by eapply IH].
    pose proof (takes_release_listed id persisted rs d) as Hl. rewrite Hrun in Hl. by apply (Hl Hq).
Qed.
Lemma given_up_frees resources d d0 l d' :
  in_scope resources res → inMemoryLockedResources d0 = inMemoryLockedResources d → quiet id d0 →
  given_up id resources d d0 = (Ok l, d') → free id res d'.
Proof using Type.
  intros Hin Hlocks Hq. unfold given_up.
  assert ((let mine := List.filter (λ p, bool_decide (p.2 = id)) (inMemoryLockedResources d) in
      modify (λ d, foldl (λ d res, lock_unlock res d) d mine.*1);;
      on_store (releaseResourceLease id None);; mret mine.*1) d0 = (Ok l, d') → free id res d') as Hall.
  { cbn zeta. intros ([] & d1 & [= <-] & ([] & d2 & Hs & [= _ <-])%bind_Ok_inv)%bind_Ok_inv.
    destruct (unlock_all_frame (held_by id d) d0) as (_ & _ & _ & Hqu & _ & _ & _ & Hr).
    pose proof (takes_on_store (releaseResourceLease id None) (foldl (λ d res, lock_unlock res d) d0 (held_by id d))) as Ht.
    unfold held_by in Ht. rewrite Hs in Ht. apply Ht; [unfold quiet; fold (held_by id d); by rewrite Hqu|].
    fold (held_by id d). unfold free. rewrite Hr. case_bool_decide as Hh; [done|]. intros Ho. apply Hh.
    unfold getResourceOwner in Ho. rewrite Hlocks in Ho. apply jm_get_in in Ho. unfold held_by. apply list_elem_of_fmap.
    exists (res, id). split; [done|]. apply list_elem_of_In, filter_In. split; [by apply list_elem_of_In|by apply bool_decide_eq_true]. }
  destruct resources as [[|r rs]|]; [exact Hall| |exact Hall].
  intros (leases & d1 & Hs & Hrun)%bind_Ok_inv. eapply listed_frees; [exact Hin|exact Hrun|].
  pose proof (takes_on_store (getPersistedResourceLeases (dom_id d)) d0) as Ht. rewrite Hs in Ht. by apply Ht.
Qed.
Lemma release_frees now cancelled resources d d' :
  internalReleaseResources now cancelled id resources d = (Ok tt, d') → quiet id d → in_scope resources res → free id res d'.
Proof using Type.
  rewrite internalRelease_eq. intros Hrun Hq Hin. apply bind_Ok_inv in Hrun as ([] & d1 & H1 & Hrun).
  pose proof (takes_assertNotFenced d) as Ht. rewrite H1 in Ht. destruct (Ht Hq) as [Hq1 _]. rewrite run_get_state in Hrun.
  apply bind_Ok_inv in Hrun as ([] & d2 & (_ & s' & _ & ->)%on_store_Ok & Hrun).
  apply bind_Ok_inv in Hrun as (l & d3 & Hg & Hrun).
  pose proof (takes_given_up id resources d1 (set_store s' d1)) as Ht3. rewrite Hg in Ht3. destruct (Ht3 Hq1) as [Hq3 _].
  pose proof (takes_after now cancelled id d1 l d3) as Ht4. rewrite Hrun in Ht4. apply (Ht4 Hq3).
  by eapply (given_up_frees _ d1 (set_store s' d1)).
Qed.

Context `{Crypto} (now : Z) (cancelled : nat → bool) (answers : string → RecoveryAnswers).
Lemma takes_service_stopped op action : respects T (recordServiceStoppedIfNeeded now op action).
Proof using Type. pose proof @takes_on_store. unfold recordServiceStoppedIfNeeded. respects_tac. Qed.
Lemma takes_service_release instances op : respects T
  (when (bool_decide (op_kind op = op_service))
    (left ← on_store (query (unsettledInstances instances (serviceIdOf op)));
     when (bool_decide (left = []))
       (internalReleaseResources now cancelled ("service:" +:+ serviceIdOf op) (Some (op_requiredResources op))))).
Proof using Type. pose proof @takes_on_store. pose proof takes_release. respects_tac. Qed.
Lemma takes_recover_op instances op : respects T (recover_op now cancelled answers instances op).
Proof using Type.
  pose proof @takes_on_store. pose proof takes_release. pose proof takes_service_stopped. pose proof takes_service_release.
  unfold recover_op, releaseOpAndServiceResources. respects_tac.
Qed.
Lemma takes_recover_ops instances ops : respects T (recover_ops now cancelled answers instances ops).
Proof using Type. pose proof takes_recover_op. induction ops as [|op ops IH]; simpl; respects_tac. Qed.
Lemma takes_converge_run run : respects T (converge_run now run).
Proof using Type. pose proof @takes_on_store. unfold converge_run. respects_tac. Qed.
Lemma takes_clear_backoff leases : ∀ m, respects T (clear_backoff_leases now cancelled m leases).
Proof using Type.
  pose proof @takes_on_store. pose proof takes_release.
  induction leases as [|l ls IH]; intros m; simpl; unfold clear_backoff_lease; respects_tac.
Qed.

Lemma recover_op_frees instances op d r d' :
  recover_op now cancelled answers instances op d = (Ok r, d') → op_id op = id → quiet id d →
  rec_resourcesReleased r = true → in_scope (Some (op_requiredResources op)) res → free id res d'.
Proof using Type.
  intros (snapshot & d0 & [_ ->]%on_query_Ok & Hrun)%bind_Ok_inv Hid Hq Hrel Hin.
  apply bind_Ok_inv in Hrun as (v & d1 & [= _ <-] & Hrun).
  apply bind_Ok_inv in Hrun as ([] & d2 & (_ & s2 & _ & ->)%on_store_Ok & Hrun).
  apply bind_Ok_inv in Hrun as ([] & d3 & Hr & Hrun). apply bind_Ok_inv in Hrun as ([] & d4 & Hs & [= <- <-]).
  simpl in Hrel. rewrite Hrel in Hr. simpl in Hr. apply bind_Ok_inv in Hr as ([] & d5 & Hi & Hr). rewrite Hid in Hi.
  pose proof (release_frees _ _ _ _ _ Hi Hq Hin) as Hf.
  pose proof (takes_release now cancelled id (Some (op_requiredResources op)) (set_store s2 d)) as Ht.
  rewrite Hi in Ht. destruct (Ht Hq) as [Hq5 _].
  pose proof (takes_service_release instances op d5) as Ht5. rewrite Hr in Ht5. destruct (Ht5 Hq5) as [Hq3 Hf3].
  assert (T d3 d4) as Ht3.
  { destruct (v_stopped v); [|injection Hs as <-; reflexivity].
    pose proof (takes_service_stopped op (v_action v) d3) as Hx. simpl in Hs. by rewrite Hs in Hx. }
  apply (Ht3 Hq3). auto.
Qed.
End Locks.

(** What a recovery that releases an operation leaves locked. *)
Definition unlocked (op : Operation) (d : ExecutionDomain) : Prop :=
  ∀ res, in_scope (Some (op_requiredResources op)) res → free (op_id op) res d.

Section RecoverLocks.
Context `{Crypto} (now : Z) (cancelled : nat → bool) (answers : string → RecoveryAnswers).
Lemma recover_ops_free instances ops : ∀ d rs d', recover_ops now cancelled answers instances ops d = (Ok rs, d') →
  Forall2 (λ op r, quiet (op_id op) d → rec_resourcesReleased r = true → unlocked op d') ops rs.
Proof using Type.
  induction ops as [|op ops IH]; intros d rs d'; simpl; [intros [= <- <-]; constructor|].
  intros (r & d1 & Hr & (rs' & d2 & Hrs & [= <- <-])%bind_Ok_inv)%bind_Ok_inv. constructor.
  - intros Hq Hrel res Hin. pose proof (recover_op_frees (op_id op) res _ _ _ _ _ _ _ _ Hr eq_refl Hq Hrel Hin) as Hf.
    pose proof (takes_recover_op (op_id op) res now cancelled answers instances op d) as H1. rewrite Hr in H1.
    pose proof (takes_recover_ops (op_id op) res now cancelled answers instances ops d1) as H2. rewrite Hrs in H2.
    apply H2; [by apply H1|done].
  - eapply Forall2_impl; [by eapply IH|]. intros x y Hx Hq. apply Hx. 
    pose proof (takes_recover_op (op_id x) "" now cancelled answers instances op d) as H1. rewrite Hr in H1. by apply H1.
Qed.
Lemma recover_free d report d' : recover now cancelled answers d = (Ok report, d') →
  Forall2 (λ op r, quiet (op_id op) d → rec_resourcesReleased r = true → unlocked op d')
    (select_unfinished (dom_id d) (db (dom_store d))) (recoveredOperations report).
Proof using Type.
  unfold recover. autorewrite with xio_run.
  intros (unfinished & d0 & [-> ->]%on_query_Ok & Hrun)%bind_Ok_inv.
  apply bind_Ok_inv in Hrun as (ops & d0 & [-> ->]%on_query_Ok & Hrun).
  apply bind_Ok_inv in Hrun as (rs & d1 & Hops & Hrun).
  assert (recoveredOperations report = rs ∧ ∀ id res, takes_nothing id res d1 d') as [-> Ht].
  { apply bind_Ok_inv in Hrun as (runs & d2 & [_ ->]%on_query_Ok & Hrun).
    apply bind_Ok_inv in Hrun as ([] & d2 & Hc & Hrun).
    apply bind_Ok_inv in Hrun as (sm & d3 & [_ ->]%on_query_Ok & Hrun).
    apply bind_Ok_inv in Hrun as (leases & d3 & [_ ->]%on_query_Ok & Hrun).
    apply bind_Ok_inv in Hrun as (sm' & d3 & Hclear & [= <- <-]). split; [done|]. intros id res.
    assert (respects (takes_nothing id res) (for_each runs (converge_run now))) as H1.
    { pose proof (takes_converge_run id res now). respects_tac. }
    specialize (H1 d1). rewrite Hc in H1.
    pose proof (takes_clear_backoff id res now cancelled leases sm d2) as H2. rewrite Hclear in H2.
    etransitivity; [exact H1|exact H2]. }
  pose proof (recover_ops_free _ _ _ _ _ Hops) as Hf. eapply Forall2_impl; [exact Hf|].
  intros op r Hx Hq Hrel res Hin. apply Ht; [|by apply Hx].
  match type of Hops with recover_ops _ _ _ ?i ?l _ = _ =>
    pose proof (takes_recover_ops (op_id op) res now cancelled answers i l d) as H1 end.
  rewrite Hops in H1. by apply H1.
Qed.
End RecoverLocks.

(** ** Recovery as a whole *)

Section Theorems.
Context `{Crypto} (now : Z) (cancelled : nat → bool) (answers : string → RecoveryAnswers).

(** What a recovery that returned has done to the tables: [m], when its
    operations are settled. *)
Record recovery_run (dom : string) (report : RecoveryReport) (b m a : Db) : Prop := {
  rr_moves : moves b m;
  rr_ops : Forall2 (λ op r, ∃ v, recovered_as now answers b m op r v)
    (select_unfinished dom b) (recoveredOperations report);
  rr_nodup : NoDup (map op_id (select_unfinished dom b));
  rr_keeps : ∀ id, startsWith id "service:" = false →
    (∀ r, r ∈ recoveredOperations report → rec_opId r = id → rec_resourcesReleased r = false) →
    keeps_leases id b m;
  rr_ends : ends_runs m a;
  rr_runs : ∀ id run, find_run id m = Some run → run_domainId run = dom →
    run_status run = run_running → run_closed id a;
}.

Lemma recover_inv d report d' :
  recover now cancelled answers d = (Ok report, d') →
  ∃ m, recovery_run (dom_id d) report (db (dom_store d)) m (db (dom_store d')).
Proof.
  unfold recover. autorewrite with xio_run.
  intros (unfinished & d0 & [-> ->]%on_query_Ok & Hrun)%bind_Ok_inv.
  apply bind_Ok_inv in Hrun as (ops & d0 & [-> ->]%on_query_Ok & Hrun).
  apply bind_Ok_inv in Hrun as (rs & d1 & (Hm & Hrs & Hnd & Hk)%recover_ops_inv & Hrun).
  apply bind_Ok_inv in Hrun as (runs & d2 & [-> ->]%on_query_Ok & Hrun).
  apply bind_Ok_inv in Hrun as ([] & d2 & [He Hc]%converge_runs_inv & Hrun).
  apply bind_Ok_inv in Hrun as (sm & d3 & [_ ->]%on_query_Ok & Hrun).
  apply bind_Ok_inv in Hrun as (leases & d3 & [-> ->]%on_query_Ok & Hrun).
  apply bind_Ok_inv in Hrun as (sm' & d3 & Hclear & [= <- <-]).
  assert (ends_runs (db (dom_store d2)) (db (dom_store d3))) as He'.
  { match type of Hclear with clear_backoff_leases ?n ?c ?l ?m _ = _ =>
      pose proof (clear_all_backoff_ends n c m l d2) as Hx end.
    rewrite Hclear in Hx. exact Hx. }
  exists (db (dom_store d1)). split; [done|done|done|done|by etransitivity|].
  intros id run Hrun Hdom Hst. eapply run_closed_ends; [exact He'|].
  apply find_some in Hrun as [Hin Hid%bool_decide_eq_true]. subst id. apply Hc.
  apply list_elem_of_In, filter_In. split; [done|]. by rewrite !bool_decide_true.
Qed.

Lemma recovery_run_report dom report b m a r (Q : Operation → RecoveredOperation → Prop) :
  recovery_run dom report b m a → Forall2 Q (select_unfinished dom b) (recoveredOperations report) →
  r ∈ recoveredOperations report →
  ∃ op v, op ∈ select_unfinished dom b ∧ recovered_as now answers b m op r v ∧ Q op r.
Proof.
  intros Hr HQ (i & Hi)%list_elem_of_lookup. destruct (Forall2_lookup_r _ _ _ _ _ (rr_ops _ _ _ _ _ Hr) Hi)
    as (op & Hop & v & Hv). destruct (Forall2_lookup_r _ _ _ _ _ HQ Hi) as (op' & Hop' & Hq).
  assert (op' = op) as -> by congruence. exists op, v. split_and!; [by eapply list_elem_of_lookup_2|done..].
Qed.
Lemma recovery_run_isolated dom report b m a r :
  recovery_run dom report b m a → r ∈ recoveredOperations report → rec_resourcesReleased r = false →
  startsWith (rec_opId r) "service:" = false → keeps_leases (rec_opId r) b a.
Proof.
  intros Hr Hin Hrel Hsvc. etransitivity; [|by apply (er_leases _ _ (rr_ends _ _ _ _ _ Hr))].
  apply (rr_keeps _ _ _ _ _ Hr); [done|]. intros r' Hin' Hid.
  pose proof (rr_ops _ _ _ _ _ Hr) as Hops. pose proof (rr_nodup _ _ _ _ _ Hr) as Hnd.
  apply list_elem_of_lookup in Hin as [i Hi], Hin' as [j Hj].
  destruct (Forall2_lookup_r _ _ _ _ _ Hops Hi) as (op & Hop & v & Hv).
  destruct (Forall2_lookup_r _ _ _ _ _ Hops Hj) as (op' & Hop' & v' & Hv').
  assert (i = j) as <-.
  { rewrite (ra_report _ _ _ _ _ _ _ Hv) (ra_report _ _ _ _ _ _ _ Hv') /= in Hid.
    eapply (NoDup_lookup _ _ _ (op_id op) Hnd); rewrite list_lookup_fmap ?Hop ?Hop' /=; congruence. }
  congruence.
Qed.

(** C2. Recovery releases nothing on a guess: every unfinished operation is
    judged once and ends done with the judged result; the verdict is to release it
    if and only if its configuration binding is intact and what it left behind is
    accounted for, that is: it never ran, or it is a snapshot, or the rolled back
    tree is as the snapshot recorded it, or its process is confirmed stopped, or
    its owner is dead and nothing of its tree is left. When the verdict is to release,
    no lease of the operation is left and, unless it has a request waiting in the
    queue, it owns none of the resources it required any more (none at all when it
    required none). Otherwise the result is indeterminate and its leases stay -
    except for an operation whose id starts with "service:", the names under which
    services hold leases between two instances, which recovery may clear. *)
Theorem recovery_releases_only_the_accounted_for d report d' :
  recover now cancelled answers d = (Ok report, d') →
  map rec_opId (recoveredOperations report) = map op_id (select_unfinished (dom_id d) (db (dom_store d))) ∧
  ∀ r, r ∈ recoveredOperations report →
    ∃ op o result, op ∈ select_unfinished (dom_id d) (db (dom_store d)) ∧ op_id op = rec_opId r ∧
      find_operation (op_id op) (db (dom_store d')) = Some o ∧ op_status o = st_done ∧
      op_result o = Some result ∧ is_indeterminate result = negb (rec_resourcesReleased r) ∧
      (rec_resourcesReleased r = true ↔ invalid_config op = None ∧ accounted_for (answers (op_id op))
        (find_snapshot (rollback_snapshot_id op) (db (dom_store d))) op) ∧
      (rec_resourcesReleased r = true →
        (∀ l, l ∈ db_resource_leases (db (dom_store d')) → lease_operationId l ≠ rec_opId r) ∧
        (Forall (λ x, wi_operationId x ≠ rec_opId r) (waitQueue d) →
         ∀ res, in_scope (Some (op_requiredResources op)) res → getResourceOwner d' res ≠ Some (rec_opId r))) ∧
      (rec_resourcesReleased r = false → startsWith (rec_opId r) "service:" = false →
        keeps_leases (rec_opId r) (db (dom_store d)) (db (dom_store d'))).
Proof.
  intros Hr. pose proof (recover_free _ _ _ _ _ _ Hr) as Hfree. apply recover_inv in Hr as (m & Hrun). split.
  - clear Hfree. pose proof (rr_ops _ _ _ _ _ Hrun) as Hops.
    induction Hops as [|op r ops rs (v & [_ -> _ _ _]) _ IH]; [done|]. simpl. by rewrite IH.
  - intros r Hr. pose proof (recovery_run_isolated _ _ _ _ _ _ Hrun Hr) as Hkeep.
    destruct (recovery_run_report _ _ _ _ _ _ _ Hrun Hfree Hr) as (op & v & Hop & Hv & Hunl).
    destruct Hv as [Hj -> _ (o & Ho & Hd & Hres) _ Hfreed]. apply judge_exact in Hj as ((Hrel & _) & Hacc).
    exists op, o, (v_result v). cbn [rec_opId rec_resourcesReleased] in *.
    split_and!; try done.
    + unfold find_operation. by rewrite (er_ops _ _ (rr_ends _ _ _ _ _ Hrun)).
    + by apply bool_decide_eq_true in Hd.
    + by rewrite Hrel negb_involutive.
    + intros Htrue. split.
      * intros l Hl%(er_shrinks _ _ (rr_ends _ _ _ _ _ Hrun)). by apply Hfreed.
      * intros Hq res Hin. by apply Hunl.
Qed.

(** C20. Recovery converges: when it returns, no operation of the domain is left
    unfinished, and a run of the domain is left running only by an operation that
    was not started or that belongs to another domain. *)
Theorem recovery_converges d report d' :
  recover now cancelled answers d = (Ok report, d') →
  select_unfinished (dom_id d) (db (dom_store d')) = [] ∧
  ∀ id run, find_run id (db (dom_store d')) = Some run → run_domainId run = dom_id d →
    run_status run = run_running →
    ∃ op, op ∈ select_operations_by_run id (db (dom_store d')) ∧
      op_done op = false ∧ (op_domainId op ≠ dom_id d ∨ op_status op = st_pending).
Proof.
  intros (m & Hrun)%recover_inv. set (a := db (dom_store d')) in *. set (b := db (dom_store d)) in *.
  pose proof (rr_ends _ _ _ _ _ Hrun) as Hends.
  assert (∀ op, op ∈ db_operations a → op_domainId op = dom_id d → op_unfinished op = false) as Hdone.
  { intros op Hop Hdom. rewrite (er_ops _ _ Hends) in Hop.
    destruct (forall2_in _ _ _ _ (mv_ops _ _ (rr_moves _ _ _ _ _ Hrun)) Hop) as (o & Ho & Hid & Hd & _ & Hm).
    apply not_true_iff_false. intros Hun.
    assert (op_done op = true) as Hdn; [|apply bool_decide_eq_true in Hdn; unfold op_unfinished in Hun; by rewrite Hdn in Hun].
    destruct Hm as [->|Hm]; [|done].
    assert (o ∈ select_unfinished (dom_id d) b) as [i Hi]%list_elem_of_lookup.
    { apply list_elem_of_In, filter_In. split; [by apply list_elem_of_In|]. rewrite bool_decide_true //. }
    destruct (Forall2_lookup_l _ _ _ _ _ (rr_ops _ _ _ _ _ Hrun) Hi) as (r & _ & v & Hv).
    by apply (ra_settled _ _ _ _ _ _ _ Hv). }
  split.
  - unfold select_unfinished. destruct (List.filter _ (db_operations a)) as [|x l] eqn:Hf; [done|].
    assert (List.In x (List.filter (λ o, bool_decide (op_domainId o = dom_id d) && op_unfinished o)
      (db_operations a))) as Hx by (rewrite Hf; by left).
    apply filter_In in Hx as [Hin [Hd%bool_decide_eq_true Hu]%andb_true_iff].
    rewrite Hdone in Hu; [done|by apply list_elem_of_In|done].
  - intros id run Hfind Hdom Hst.
    pose proof (run_moves_back _ _ _ _ (er_runs _ _ Hends) Hfind Hst) as Hm.
    destruct (rr_runs _ _ _ _ _ Hrun _ _ Hm Hdom Hst) as [Hend|(op & Hop & Hnd)]; [by destruct (Hend run)|].
    exists op. split_and!; [done|done|]. apply list_elem_of_In, filter_In in Hop as [Hin _].
    destruct (decide (op_domainId op = dom_id d)) as [Hd|]; [right|by left].
    assert (op_unfinished op = false) as Hu by (apply Hdone; [by apply list_elem_of_In|done]).
    unfold op_unfinished, op_done in *. by destruct (op_status op).
Qed.
End Theorems.

(** ** Witnesses: three operations after a crash

    "op-1" was running as pid 77, which is gone; "op-2" has no identity and was
    not gated; "op-3" never passed its gate. *)

Definition crash_identity : ProcessIdentity := mkProcessIdentity 77 None None (Iso 35) None None None None.
Definition gated_op : Operation :=
  mkOperation "op-3" "run-1" "dom" op_process "ls" "fp-3" ["r3"] None None None None (Some true) None None None
    st_pending None None.
Definition crashed_db : Db := play (H:=sample_crypto)
  [(35%Z, Some 1%Z, CUpdateOperationStatus "op-1" st_active (Some crash_identity) None);
   (36%Z, Some 1%Z, CRegisterOperationIntent gated_op "dom")] db_open.
Definition crashed_domain : ExecutionDomain :=
  mkDomain "dom" (mkStore crashed_db (Some 1%Z) false) true
    (mkOwnerRecord "dom" "owner-41" 1 (Iso 0) (Iso 100) "host") None [] [] [] [] 0 [] true false.
Definition owner_gone (_ : string) : RecoveryAnswers :=
  mkRecoveryAnswers (Ok not_original_process) (Ok (mkStopProcessResult not_stopped scope_unknown None None None))
    None false None None None (Throw (Err "no snapshot driver")).
Definition nobody_waits : nat → bool := λ _, false.
Definition crash_report : RecoveryReport := mkRecoveryReport
  [mkRecoveredOperation "op-1" marked_dead true; mkRecoveredOperation "op-2" isolated_indeterminate false;
   mkRecoveredOperation "op-3" cleaned_unspawned true] [].
Definition recovered_domain : ExecutionDomain :=
  (recover (H:=sample_crypto) 90 nobody_waits owner_gone crashed_domain).2.

Lemma crash_recovery :
  recover (H:=sample_crypto) 90 nobody_waits owner_gone crashed_domain = (Ok crash_report, recovered_domain).
Proof. vm_compute. reflexivity. Qed.

Lemma recovery_releases_only_the_accounted_for_witness :
  keeps_leases "op-2" (db (dom_store crashed_domain)) (db (dom_store recovered_domain)) ∧
  map lease_resourceId (db_resource_leases (db (dom_store recovered_domain))) = ["r2"].
Proof.
  destruct (recovery_releases_only_the_accounted_for (H:=sample_crypto) 90 nobody_waits owner_gone
    crashed_domain crash_report recovered_domain crash_recovery) as [_ Hall].
  destruct (Hall (mkRecoveredOperation "op-2" isolated_indeterminate false)) as (op & o & result & H).
  { right. left. }
  destruct H as (_ & _ & _ & _ & _ & _ & _ & _ & Hkeep). split; [exact (Hkeep eq_refl eq_refl)|].
  vm_compute. reflexivity.
Defined.
Lemma recovery_converges_witness :
  select_unfinished (dom_id crashed_domain) (db (dom_store recovered_domain)) = [] ∧
  run_status <$> find_run "run-1" (db (dom_store recovered_domain)) = Some run_indeterminate.
Proof.
  split; [|vm_compute; reflexivity].
  exact (proj1 (recovery_converges (H:=sample_crypto) 90 nobody_waits owner_gone
    crashed_domain crash_report recovered_domain crash_recovery)).
Defined.
