(* ===== verification/RecoveryLive.v ===== *)
(** * RecoveryLive: a recovery returns

    The other half of RecoverySpec.v: on a domain this process owns, over tables
    whose unfinished operations have a journaled intent and no journaled result,
    and with drivers that answer, [recover] returns a report. *)

From S2P Require Import Prelude Types Events Encode Config Store StoreCalls Samples Paths Capability StoreSpec Domain Authority Rollback Recovery DomainInv DomainSpec RecoverySpec.

(** ** Methods that return *)

(** From [s], [m] returns, in a state where [J] holds. *)
Definition returns {E S A} (J : S → Prop) (m : ST E S A) (s : S) : Prop :=
  ∃ a s', m s = (Ok a, s') ∧ J s'.

Section Returns.
Context {E S : Type} (J : S → Prop).
Lemma returns_ret {A} (a : A) s : J s → returns (E:=E) J (mret a) s.
Proof. intros Hs. by exists a, s. Qed.
Lemma returns_bind {A B} (m : ST E S A) (f : A → ST E S B) s :
  returns J m s → (∀ a s', m s = (Ok a, s') → J s' → returns J (f a) s') → returns J (m ≫= f) s.
Proof.
  intros (a & s' & Hm & HJ) Hf. destruct (Hf a s' Hm HJ) as (b & s'' & Hf' & HJ').
  exists b, s''. split; [|done]. by rewrite (run_bind_Ok _ _ _ _ _ Hm).
Qed.
Lemma returns_when b (m : ST E S unit) s : J s → (b = true → returns J m s) → returns J (when b m) s.
Proof. destruct b; intros HJ Hm; [by apply Hm|by apply returns_ret]. Qed.
Lemma returns_for_each {A} (l : list A) (f : A → ST E S unit) :
  (∀ x s, x ∈ l → J s → returns J (f x) s) → ∀ s, J s → returns J (for_each l f) s.
Proof.
  induction l as [|x l IH]; intros Hf s Hs; [by apply returns_ret|]. simpl. apply returns_bind.
  - apply Hf; [by left|done].
  - intros [] s' _ Hs'. apply IH; [|done]. intros y s1 Hy. apply Hf. by right.
Qed.
End Returns.

Section Live.
Context (D : string) (HD : truthy_str D = true).

(** This process owns the open domain [D]. *)
Record usable (d : ExecutionDomain) : Prop := {
  us_open : dom_lockHeld d = true;
  us_unfenced : isFenced d = false;
  us_id : dom_id d = D;
  us_fence : fencing_error D (dom_store d) = None;
  us_tx : inTransaction (dom_store d) = false;
}.

Lemma usable_frame d d' :
  usable d →
  dom_lockHeld d' = dom_lockHeld d ∧ isFenced d' = isFenced d ∧ dom_id d' = dom_id d ∧
  dom_store d' = dom_store d → usable d'.
Proof. intros [? ? ? ? ?] (H1 & H2 & H3 & H4). by split; rewrite ?H1 ?H2 ?H3 ?H4. Qed.
Lemma usable_store s d :
  usable d → db_owners (db s) = db_owners (db (dom_store d)) →
  currentEpoch s = currentEpoch (dom_store d) → inTransaction s = false → usable (set_store s d).
Proof.
  intros [? ? ? Hf ?] Ho He Ht. split; try done. simpl. by rewrite (fencing_error_db D (dom_store d)).
Qed.

Lemma unlock_all_usable l : ∀ d, let d' := foldl (λ d res, lock_unlock res d) d l in
  dom_lockHeld d' = dom_lockHeld d ∧ isFenced d' = isFenced d ∧ dom_id d' = dom_id d ∧ dom_store d' = dom_store d.
Proof. induction l as [|x l IH]; intros d; [done|]. simpl. by destruct (IH (lock_unlock x d)) as (-> & -> & -> & ->). Qed.

(** A store call that returns, without moving the owners or the epoch. *)
Lemma returns_store {A} (m : SM A) d a s :
  usable d → m (dom_store d) = (Ok a, s) → db_owners (db s) = db_owners (db (dom_store d)) →
  currentEpoch s = currentEpoch (dom_store d) → inTransaction s = inTransaction (dom_store d) →
  returns usable (on_store m) d.
Proof.
  intros Hd Hm Ho He Ht. exists a, (set_store s d). split.
  - unfold on_store, focus. by rewrite (us_open _ Hd) Hm.
  - apply usable_store; [done..|]. rewrite Ht. apply Hd.
Qed.
Lemma returns_query {A} (f : Db → A) d : usable d → returns usable (on_store (query f)) d.
Proof. intros Hd. by eapply returns_store. Qed.

Lemma returns_event now run op type payload ts d :
  usable d → event_name_regex type = true → isRecord payload = true → json_ok payload = true →
  (requiresIntent type = true → ∀ id, op = Some id → truthy_str id = true →
    has_event id "OPERATION_INTENT_REGISTERED" (db (dom_store d)) = true) →
  type ≠ "OPERATION_RESULT_RECORDED" →
  returns usable (on_store (recordEventAndTransitionState now (simple_event D run op type payload ts))) d.
Proof.
  intros Hd Hn Hr Hj Hi Hres.
  edestruct (simple_event_recorded now D run op type payload ts (dom_store d)) as (row & Hrow & _);
    [apply Hd|done..| |by eapply returns_store].
  unfold admissible_event. simpl. rewrite (bool_decide_false (type = _)) //= andb_true_r.
  destruct op as [id|]; simpl; [|done]. destruct (truthy_str id) eqn:Hid; [|done].
  destruct (requiresIntent type); [|done]. by rewrite (Hi eq_refl id) // andb_false_r.
Qed.

(** *** Releasing *)

Lemma returns_release_lease id res d : usable d → returns usable (on_store (releaseResourceLease id res)) d.
Proof. intros Hd. unfold releaseResourceLease. by destruct (or_undef res); eapply returns_store. Qed.
Lemma returns_release_listed id persisted resources : ∀ d,
  usable d → returns usable (release_listed id persisted resources) d.
Proof.
  induction resources as [|res rest IH]; intros d Hd; [by apply returns_ret|]. simpl.
  unfold returns. autorewrite with xio_run. destruct (_ || _); [|by apply IH].
  autorewrite with xio_run. apply returns_bind.
  { apply returns_release_lease. by eapply usable_frame. }
  intros ? d1 _ Hd1. apply returns_bind; [by apply IH|]. intros l d2 _ Hd2. by apply returns_ret.
Qed.
Lemma returns_queue now cancelled d : usable d → returns usable (processWaitQueue now cancelled) d.
Proof.
  intros Hd. unfold returns. rewrite processWaitQueue_serve; [|apply Hd..]. do 2 eexists. split; [done|].
  destruct (grants_frame _ _ (serve_grants now cancelled (waitQueue d) [] false d)) as (H1 & H2 & H3 & _ & _ & H4).
  eapply usable_frame; [exact Hd|]. by split_and!.
Qed.

Lemma returns_release now cancelled id resources d :
  usable d → returns usable (internalReleaseResources now cancelled id resources) d.
Proof.
  intros Hd. unfold returns, internalReleaseResources. rewrite run_assertNotFenced; [|apply Hd].
  autorewrite with xio_run. rewrite run_on_verify; [|apply Hd]. rewrite (us_id _ Hd) (us_fence _ Hd).
  apply returns_bind.
  - destruct resources as [[|r rs]|]; autorewrite with xio_run.
    2:{ apply returns_bind; [by apply returns_query|]. intros leases d1 _ Hd1. by apply returns_release_listed. }
    all: cbn zeta; set (l := List.filter _ _); apply returns_bind;
      [by do 2 eexists; (split; [reflexivity|]); eapply usable_frame; [exact Hd|apply unlock_all_usable]|];
      intros ? d1 _ Hd1; apply returns_bind; [by apply returns_release_lease|];
      intros ? d2 _ Hd2; by apply returns_ret.
  - intros l d1 _ Hd1. unfold returns. autorewrite with xio_run. apply returns_bind.
    { apply returns_when; [done|]. intros _. do 2 eexists. split; [reflexivity|]. by eapply usable_frame. }
    intros ? d2 _ Hd2. apply returns_bind.
    { apply returns_event; [done|by vm_compute|done| |by vm_compute|done]. apply fields_forallb. repeat constructor.
      apply orb_true_iff. right. apply json_ok_strings. }
    intros ? d3 _ Hd3. by apply returns_queue.
Qed.

(** ** One operation *)

(** The store accepts a result of [id]. *)
Record recordable (id : string) (d : Db) : Prop := {
  rec_row : ∃ o, find_operation id d = Some o ∧ op_domainId o = D ∧ op_done o = false;
  rec_intent : has_event id "OPERATION_INTENT_REGISTERED" d = true;
  rec_none : has_event id "OPERATION_RESULT_RECORDED" d = false;
}.
(** What [recordable] reads has not moved. *)
Definition same_record (id : string) (d d' : Db) : Prop :=
  find_operation id d' = find_operation id d ∧
  has_event id "OPERATION_INTENT_REGISTERED" d' = has_event id "OPERATION_INTENT_REGISTERED" d ∧
  has_event id "OPERATION_RESULT_RECORDED" d' = has_event id "OPERATION_RESULT_RECORDED" d.
#[local] Instance same_record_preorder id : PreOrder (same_record id).
Proof. split; unfold same_record; [done|]. intros d1 d2 d3 (H1 & H2 & H3) (K1 & K2 & K3). by rewrite K1 K2 K3. Qed.
Lemma recordable_same id d d' : same_record id d d' → recordable id d → recordable id d'.
Proof. intros (H1 & H2 & H3) [? ? ?]. by split; rewrite ?H1 ?H2 ?H3. Qed.

Lemma same_record_row id row d :
  je_type row ≠ "OPERATION_INTENT_REGISTERED" →
  (je_type row = "OPERATION_RESULT_RECORDED" → je_operation_id row ≠ Some id) →
  same_record id d (with_journal row d).
Proof.
  intros Hi Hr. unfold same_record. rewrite !has_event_row. split_and!; [done| |].
  - by rewrite (bool_decide_false (je_type row = _)) // andb_false_r orb_false_r.
  - case_bool_decide as H1; simpl; [|by rewrite orb_false_r]. rewrite bool_decide_false ?orb_false_r //. naive_solver.
Qed.
Lemma respects_event_record id now dom run op type payload ts :
  type ≠ "OPERATION_INTENT_REGISTERED" → type ≠ "OPERATION_RESULT_RECORDED" →
  respects (on_db (same_record id)) (recordEventAndTransitionState now (simple_event dom run op type payload ts)).
Proof.
  intros Hi Hr s. destruct (recordEvent_cases now (simple_event dom run op type payload ts) s)
    as [[e ->]|(row & -> & _ & Hty & _)]; unfold on_db; cbn [fst snd db]; [reflexivity|].
  simpl in Hty. apply same_record_row; congruence.
Qed.
Lemma respects_release_record id now cancelled op res :
  respects (dom_db (same_record id)) (internalReleaseResources now cancelled op res).
Proof.
  apply respects_internalRelease; [apply _| |].
  - intros r. unfold releaseResourceLease. destruct (or_undef r); by apply respects_exec.
  - intros. by apply respects_event_record.
Qed.

(** An intent stays journaled. *)
Definition intent_kept (id : string) (d d' : Db) : Prop :=
  has_event id "OPERATION_INTENT_REGISTERED" d = true → has_event id "OPERATION_INTENT_REGISTERED" d' = true.
#[local] Instance intent_kept_preorder id : PreOrder (intent_kept id).
Proof. split; unfold intent_kept; [by intros d ?|]. intros d1 d2 d3. auto. Qed.
Lemma intent_kept_row id row d : intent_kept id d (with_journal row d).
Proof. unfold intent_kept. rewrite has_event_row. by intros ->. Qed.
Lemma respects_release_intent id now cancelled op res :
  respects (dom_db (intent_kept id)) (internalReleaseResources now cancelled op res).
Proof.
  apply respects_internalRelease; [apply _| |].
  - intros r. unfold releaseResourceLease. destruct (or_undef r); apply respects_exec; intros d Hd; exact Hd.
  - intros. apply respects_any_event; [apply _|apply intent_kept_row].
Qed.

Lemma record_returns now id r release d :
  usable d → recordable id (db (dom_store d)) → truthy_str id = true →
  ∃ d', on_store (recordOperationResult now id r release) d = (Ok tt, d') ∧ usable d' ∧
    has_event id "OPERATION_INTENT_REGISTERED" (db (dom_store d')) = true ∧
    ∀ id', id' ≠ id → same_record id' (db (dom_store d)) (db (dom_store d')).
Proof.
  intros Hd [(o & Ho & Hdom & Hnd) Hi Hn] Hid.
  destruct (recordOperationResult_returns now id r release (dom_store d) o) as (row & s' & Hrec & Hdb & Hty & Hoid & _);
    [apply Hd| |done|congruence|done|].
  { exists o. by rewrite Hdom (us_fence _ Hd). }
  pose proof (record_result_inv _ _ _ _ _ _ Hrec) as (_ & _ & _ & _ & _ & _ & _ & _ & He & Ht).
  exists (set_store s' d). split_and!.
  - unfold on_store, focus. by rewrite (us_open _ Hd) Hrec.
  - apply usable_store; [done| |done|apply Ht, Hd]. rewrite Hdb. unfold result_recorded. by case_match.
  - simpl. rewrite Hdb has_event_row. apply orb_true_iff. left.
    assert (∀ t, has_event id t (result_recorded id r release (db (dom_store d)))
      = has_event id t (db (dom_store d))) as -> by (intros t; unfold result_recorded; by case_match). done.
  - intros id' Hne. simpl. rewrite Hdb. transitivity (result_recorded id r release (db (dom_store d))).
    + split_and!; [by apply result_recorded_others|unfold result_recorded; by case_match..].
    + apply same_record_row; [by rewrite Hty|]. intros _. rewrite Hoid. congruence.
Qed.

(** The drivers answer, whatever the answer. *)
Record resolves (ans : RecoveryAnswers) : Prop := {
  rs_verify : is_ok (verifyIdentity ans) = true;
  rs_terminate : is_ok (terminate ans) = true;
  rs_settle : ∀ x, settleTree ans = Some x → is_ok x = true;
  rs_boot : ∀ x, readBootId ans = Some x → is_ok x = true;
  rs_group : ∀ x, getGroupEvidence ans = Some x → is_ok x = true;
  rs_stop : ∀ x, terminateGroup ans = Some x → is_ok x = true;
}.
Lemma is_ok_Ok {E A} (o : outcome E A) : is_ok o = true → ∃ a, o = Ok a.
Proof. destruct o; [by eexists|done]. Qed.
Lemma bind_is_ok {E A B} (o : outcome E A) (f : A → outcome E B) :
  is_ok o = true → (∀ a, is_ok (f a) = true) → is_ok (o ≫= f) = true.
Proof. intros Ho Hf. destruct o as [a|]; [exact (Hf a)|done]. Qed.

Lemma dead_remains_returns ans identity evidence :
  resolves ans → is_ok (dead_remains ans identity evidence) = true.
Proof.
  intros [Hv Ht Hs Hb Hg Hk].
  assert (∀ path, is_ok (cgroup_remains ans path) = true) as Hc.
  { intros path. unfold cgroup_remains. destruct (settleTree ans) as [x|]; [|done].
    apply bind_is_ok; [by apply Hs|]. intros a. case_bool_decide; [done|]. by apply bind_is_ok. }
  assert (∀ g, is_ok (group_remains ans identity g) = true) as Hgr.
  { intros g. unfold group_remains. apply bind_is_ok.
    - unfold foreign_boot. destruct (or_undef (bootId identity)); [|done].
      destruct (readBootId ans) as [x|]; [|done]. apply bind_is_ok; [by apply Hb|done].
    - intros [[]|]; [done|]. apply bind_is_ok.
      + unfold foreign_member. destruct (getGroupEvidence ans) as [x|]; [|done].
        apply bind_is_ok; [by apply Hg|done].
      + intros []; [done|]. apply bind_is_ok; [|done]. destruct (terminateGroup ans) as [x|]; [by apply Hk|done]. }
  unfold dead_remains. destruct (or_undef (cgroupPath identity)); [case_bool_decide; [apply Hc|]|].
  1: destruct (is_undef evidence); [done|].
  all: destruct (pgid identity); [destruct (isGroupAlive ans)|]; auto.
Qed.
Lemma judge_returns `{Crypto} now ans snapshot op : resolves ans → ∃ v, judge now ans snapshot op = Ok v.
Proof.
  intros Hans. apply is_ok_Ok. unfold judge. destruct (invalid_config op); [done|].
  assert (is_ok (judge_process now ans op) = true) as Hp; [|by destruct (op_kind op)].
  unfold judge_process. destruct (op_processIdentity op) as [identity|]; [|by destruct (never_released op)].
  unfold judge_identity. apply bind_is_ok; [apply Hans|]. intros [].
  - apply bind_is_ok; [apply Hans|done].
  - apply bind_is_ok; [by apply dead_remains_returns|done].
  - done.
Qed.

Section Recover.
Context `{Crypto} (now : Z) (cancelled : nat → bool) (answers : string → RecoveryAnswers)
  (instances : list (string * list string)) (Hans : ∀ id, resolves (answers id)).

Lemma service_stopped_returns op action d :
  usable d → has_event (op_id op) "OPERATION_INTENT_REGISTERED" (db (dom_store d)) = true →
  returns usable (recordServiceStoppedIfNeeded now op action) d.
Proof.
  intros Hd Hint. apply returns_when; [done|]. intros _. unfold returns. autorewrite with xio_run.
  rewrite (us_id _ Hd). apply returns_bind; [apply returns_event; [done|by vm_compute|done| |by intros _ ? [= <-]|done]; apply fields_forallb; by repeat constructor|]. intros ? d1 _ Hd1. by apply returns_ret.
Qed.
Lemma release_all_returns op d :
  usable d → returns usable (releaseOpAndServiceResources now cancelled instances op) d.
Proof.
  intros Hd. apply returns_bind; [by apply returns_release|]. intros ? d1 _ Hd1.
  apply returns_when; [done|]. intros _. apply returns_bind; [by apply returns_query|].
  intros left d2 _ Hd2. apply returns_when; [done|]. intros _. by apply returns_release.
Qed.

Lemma release_all_intent id op :
  respects (dom_db (intent_kept id)) (releaseOpAndServiceResources now cancelled instances op).
Proof.
  pose proof (respects_release_intent id now cancelled).
  pose proof (λ A f, @respects_on_query (intent_kept id) _ A f).
  unfold releaseOpAndServiceResources. respects_tac.
Qed.

Lemma recover_op_returns op d :
  usable d → recordable (op_id op) (db (dom_store d)) → truthy_str (op_id op) = true →
  ∃ r d', recover_op now cancelled answers instances op d = (Ok r, d') ∧ usable d' ∧
    ∀ id, id ≠ op_id op → same_record id (db (dom_store d)) (db (dom_store d')).
Proof using HD Hans.
  intros Hd Hrec Hid. unfold recover_op, getSnapshot. rewrite run_on_query; [|apply Hd].
  destruct (judge_returns now (answers (op_id op))
    (find_snapshot (rollback_snapshot_id op) (db (dom_store d))) op (Hans _)) as [v Hv].
  autorewrite with xio_run. rewrite Hv.
  destruct (record_returns now _ (v_result v) (v_released v) d Hd Hrec Hid) as (d1 & Hr & Hd1 & Hint & Hsame).
  rewrite (run_bind_Ok _ _ _ _ _ Hr).
  match goal with |- context [?m d1 = _] => assert (returns usable m d1) as (r & d2 & Hrun & Hd2);
    [|assert (∀ id, respects (dom_db (same_record id)) m) as Hkeep] end.
  - apply returns_bind; [apply returns_when; [done|intros _; by apply release_all_returns]|].
    intros ? d2 Hrun2 Hd2. apply returns_bind; [apply returns_when; [done|intros _; apply service_stopped_returns; [done|]]|].
    { pose proof (respects_when (dom_db (intent_kept (op_id op))) (v_released v)
        (releaseOpAndServiceResources now cancelled instances op)) as Hk.
      specialize (Hk (release_all_intent _ op) d1). rewrite Hrun2 in Hk. by apply Hk. }
    intros ? d3 _ Hd3. by apply returns_ret.
  - intros id. apply after_record; [apply _|..]; intros; [by apply respects_event_record|apply respects_release_record..].
  - exists r, d2. split_and!; [done..|]. intros id Hne. etransitivity; [by apply Hsame|].
    specialize (Hkeep id d1). by rewrite Hrun in Hkeep.
Qed.

Lemma recover_ops_returns ops : ∀ d,
  usable d → NoDup (map op_id ops) →
  Forall (λ op, recordable (op_id op) (db (dom_store d)) ∧ truthy_str (op_id op) = true) ops →
  returns usable (recover_ops now cancelled answers instances ops) d.
Proof using HD Hans.
  induction ops as [|op ops IH]; intros d Hd Hnd Hall; [by apply returns_ret|].
  apply Forall_cons in Hall as [[Hrec Hid] Hall]. simpl in Hnd. apply NoDup_cons in Hnd as [Hout Hnd].
  destruct (recover_op_returns op d Hd Hrec Hid) as (r & d1 & Hrun & Hd1 & Hsame).
  unfold returns. simpl. rewrite (run_bind_Ok _ _ _ _ _ Hrun). apply returns_bind.
  - apply IH; [done..|]. rewrite !Forall_forall in Hall |- *. intros op' Hop'.
    destruct (Hall op' Hop') as [Hrec' Hid']. split; [|done]. eapply recordable_same; [|exact Hrec'].
    apply Hsame. intros Heq. apply Hout. rewrite -Heq. by apply list_elem_of_fmap_2.
  - intros rs d2 _ Hd2. by apply returns_ret.
Qed.

(** *** The services in backoff *)

Lemma clear_backoff_returns leases : ∀ m d,
  usable d → returns usable (clear_backoff_leases now cancelled m leases) d.
Proof using HD.
  induction leases as [|l leases IH]; intros m d Hd; [by apply returns_ret|]. simpl.
  apply returns_bind; [|intros m' d1 _ Hd1; by apply IH].
  unfold clear_backoff_lease. destruct (startsWith _ _); [|by apply returns_ret].
  destruct (jm_get m _) as [entry|].
  - apply returns_bind; [apply returns_when; [done|intros _; by apply returns_release]|].
    intros ? d1 _ Hd1. by apply returns_ret.
  - apply returns_bind; [by apply returns_release|]. intros ? d1 _ Hd1. unfold returns.
    autorewrite with xio_run. rewrite (us_id _ Hd1). apply returns_bind; [apply returns_event; [done|by vm_compute|done| |done|done]; apply fields_forallb; by repeat constructor|].
    intros ? d2 _ Hd2. by apply returns_ret.
Qed.
End Recover.

(** ** The runs *)

Lemma updateRunStatus_transaction now id st reason ended s :
  inTransaction s = false →
  updateRunStatus now id st reason ended s =
  let '(o, s') := updateRunStatus now id st reason ended (mkStore (db s) (currentEpoch s) true) in
  (o, mkStore (if is_ok o then db s' else db s) (currentEpoch s') false).
Proof. intros Ht. unfold updateRunStatus. by rewrite transaction_run // (transaction_nested _ (mkStore _ _ true)). Qed.

Lemma update_run_returns now id st reason ended r d :
  usable d → find_run id (db (dom_store d)) = Some r → run_domainId r = D → run_is_terminal (run_status r) = false →
  ∃ d', on_store (updateRunStatus now id st reason ended) d = (Ok tt, d') ∧ usable d' ∧
    ∀ id', id' ≠ id → find_run id' (db (dom_store d')) = find_run id' (db (dom_store d)).
Proof.
  intros Hd Hr Hdom Hterm.
  destruct (updateRunStatus_live now id st reason ended
    (mkStore (db (dom_store d)) (currentEpoch (dom_store d)) true) r) as [row Hrun]; try done.
  { rewrite Hdom (fencing_error_db D (dom_store d)) //. apply Hd. }
  { by rewrite Hdom. }
  eexists. split_and!.
  - unfold on_store, focus. rewrite (us_open _ Hd) updateRunStatus_transaction; [|apply Hd].
    rewrite Hrun. reflexivity.
  - by apply usable_store.
  - intros id' Hne. simpl. unfold find_run. simpl. rewrite find_update_where; [|done].
    destruct (List.find _ (db_runs (db (dom_store d)))) as [x|] eqn:Hx; [|done]. simpl.
    apply find_some in Hx as [_ Hx%bool_decide_eq_true]. rewrite bool_decide_false //. congruence.
Qed.

Definition live_run (id : string) (d : Db) : Prop :=
  ∃ r, find_run id d = Some r ∧ run_domainId r = D ∧ run_is_terminal (run_status r) = false.
Lemma converge_returns now run d :
  usable d → live_run (run_id run) (db (dom_store d)) →
  ∃ d', converge_run now run d = (Ok tt, d') ∧ usable d' ∧
    ∀ id, id ≠ run_id run → live_run id (db (dom_store d)) → live_run id (db (dom_store d')).
Proof using HD.
  intros Hd (r & Hr & Hdom & Hterm). unfold converge_run, getOperationsByRun.
  rewrite run_on_query; [|apply Hd]. unfold when. destruct (forallb _ _); [|by exists d].
  assert (∀ st reason, ∃ d', on_store (updateRunStatus now (run_id run) st reason (Some (Iso now))) d = (Ok tt, d') ∧
    usable d' ∧ ∀ id, id ≠ run_id run → live_run id (db (dom_store d)) → live_run id (db (dom_store d'))) as Hall.
  { intros st reason. destruct (update_run_returns now _ st reason (Some (Iso now)) r d Hd Hr Hdom Hterm)
      as (d' & Hrun & Hd' & Hsame). exists d'. split_and!; [done..|].
    intros id Hne (r' & Hr' & ?). exists r'. by rewrite Hsame. }
  destruct (existsb _ _); apply Hall.
Qed.
Lemma converge_all_returns now runs : ∀ d,
  usable d → NoDup (map run_id runs) → Forall (λ run, live_run (run_id run) (db (dom_store d))) runs →
  returns usable (for_each runs (converge_run now)) d.
Proof using HD.
  induction runs as [|run runs IH]; intros d Hd Hnd Hall; [by apply returns_ret|].
  apply Forall_cons in Hall as [Hlive Hall]. simpl in Hnd. apply NoDup_cons in Hnd as [Hout Hnd].
  destruct (converge_returns now run d Hd Hlive) as (d1 & Hrun & Hd1 & Hkeep).
  unfold returns. simpl. rewrite (run_bind_Ok _ _ _ _ _ Hrun). apply IH; [done..|].
  rewrite !Forall_forall in Hall |- *. intros x Hx. apply Hkeep; [|by apply Hall].
  intros Heq. apply Hout. rewrite -Heq. by apply list_elem_of_fmap_2.
Qed.
End Live.

(** ** The whole recovery *)

Lemma find_unique {A} (k : A → string) (l : list A) x :
  NoDup (map k l) → x ∈ l → List.find (λ y, bool_decide (k y = k x)) l = Some x.
Proof.
  induction l as [|y l IH]; intros Hnd Hx; [by apply not_elem_of_nil in Hx|].
  simpl in Hnd. apply NoDup_cons in Hnd as [Hout Hnd]. simpl. case_bool_decide as Heq.
  - apply elem_of_cons in Hx as [->|Hx]; [done|]. destruct Hout. rewrite Heq. by apply list_elem_of_fmap_2.
  - apply IH; [done|]. apply elem_of_cons in Hx as [->|Hx]; done.
Qed.
Lemma NoDup_filter_map {A B} (k : A → B) (q : A → bool) l : NoDup (map k l) → NoDup (map k (List.filter q l)).
Proof.
  induction l as [|x l IH]; simpl; intros Hnd; [done|]. apply NoDup_cons in Hnd as [Hout Hnd].
  destruct (q x); [|by apply IH]. simpl. constructor; [|by apply IH].
  intros (y & Hy & Hin)%list_elem_of_fmap. apply Hout. rewrite Hy. apply list_elem_of_fmap_2.
  by apply list_elem_of_In, filter_In in Hin as [?%list_elem_of_In _].
Qed.

(** The state a recovery starts from: this process owns the domain, the primary
    keys hold, and every unfinished operation has its intent in the journal, and
    no result. *)
Record recoverable (d : ExecutionDomain) : Prop := {
  rc_domain : truthy_str (dom_id d) = true;
  rc_usable : usable (dom_id d) d;
  rc_op_ids : NoDup (map op_id (db_operations (db (dom_store d))));
  rc_run_ids : NoDup (map run_id (db_runs (db (dom_store d))));
  rc_unfinished : ∀ op, op ∈ select_unfinished (dom_id d) (db (dom_store d)) →
    truthy_str (op_id op) = true ∧
    has_event (op_id op) "OPERATION_INTENT_REGISTERED" (db (dom_store d)) = true ∧
    has_event (op_id op) "OPERATION_RESULT_RECORDED" (db (dom_store d)) = false;
}.

Lemma unfinished_recordable d op :
  recoverable d → op ∈ select_unfinished (dom_id d) (db (dom_store d)) →
  recordable (dom_id d) (op_id op) (db (dom_store d)) ∧ truthy_str (op_id op) = true.
Proof.
  intros [_ _ Hids _ Hun] Hop. destruct (Hun op Hop) as (Hid & Hint & Hres). split; [|done].
  apply list_elem_of_In, filter_In in Hop as [Hin%list_elem_of_In [Hdom%bool_decide_eq_true Hu]%andb_true_iff].
  split; [|done|done]. exists op. split_and!; [by apply find_unique|done|].
  unfold op_unfinished, op_done in *. by destruct (op_status op).
Qed.

(** C39. A recovery returns: whatever the drivers answer, as long as they
    answer, and whatever the crash left behind, as long as ids are unique and every
    unfinished operation has its intent journaled and no result event yet, the owner of
    the domain gets its report. *)
Theorem recovery_returns `{Crypto} now cancelled answers d :
  recoverable d → (∀ id, resolves (answers id)) →
  ∃ report d', recover now cancelled answers d = (Ok report, d').
Proof.
  intros Hrec Hans. pose proof Hrec as [Hdom Hd Hops Hruns _].
  assert (returns (usable (dom_id d)) (recover now cancelled answers) d) as (report & d' & Hrun & _);
    [|by exists report, d'].
  unfold returns, recover. autorewrite with xio_run. unfold getUnfinishedOperations, getAllOperations.
  rewrite !run_on_query; [|apply Hd..].
  set (instances := service_instances _).
  destruct (recover_ops_returns (dom_id d) Hdom now cancelled answers instances Hans
    (select_unfinished (dom_id d) (db (dom_store d))) d Hd) as (rs & d1 & Hrs & Hd1).
  { by apply NoDup_filter_map. }
  { apply Forall_forall. intros op Hop. by apply unfinished_recordable. }
  pose proof (recover_ops_inv _ _ _ _ _ _ _ _ Hrs) as (Hm & _).
  rewrite (run_bind_Ok _ _ _ _ _ Hrs). unfold getActiveRuns. rewrite run_on_query; [|apply Hd1].
  assert (map run_id (db_runs (db (dom_store d1))) = map run_id (db_runs (db (dom_store d)))) as Hids.
  { pose proof (mv_runs _ _ Hm) as Hf. clear -Hf. induction Hf as [|r r' l l' (Hid & _) _ IH]; [done|]. simpl. f_equal; [exact Hid|exact IH]. }
  apply returns_bind.
  - apply converge_all_returns; [done|done| |].
    + apply NoDup_filter_map. by rewrite Hids.
    + apply Forall_forall. intros run [Hin%list_elem_of_In [Hrd%bool_decide_eq_true Hst%bool_decide_eq_true]%andb_true_iff]%list_elem_of_In%filter_In.
      exists run. split_and!; [by apply find_unique; [rewrite Hids|]|done|by rewrite Hst].
  - intros _ d2 _ Hd2. unfold returns, getPersistedResourceLeases. rewrite !run_on_query; [|apply Hd2..].
    apply returns_bind; [by apply clear_backoff_returns|]. intros m d3 _ Hd3. by apply returns_ret.
Qed.

Lemma crashed_recoverable : recoverable crashed_domain.
Proof.
  split.
  - reflexivity.
  - by split.
  - vm_compute. repeat constructor; set_solver.
  - vm_compute. repeat constructor; set_solver.
  - apply Forall_forall. vm_compute. repeat constructor.
Qed.
Lemma owner_gone_resolves id : resolves (owner_gone id).
Proof. by split. Qed.
Lemma recovery_returns_witness :
  ∃ report d', recover (H:=sample_crypto) 90 nobody_waits owner_gone crashed_domain = (Ok report, d').
Proof. exact (recovery_returns (H:=sample_crypto) 90 nobody_waits owner_gone crashed_domain crashed_recoverable owner_gone_resolves). Defined.
