(* ===== verification/Drainer.v ===== *)
(** * Drainer: the bounded drainer of an output stream (src/src/supervisor/drainer.ts)

    A drainer is a value that moves on events: a chunk of the stream, the answer
    of the operating system to the write in flight, the end of the stream (or
    [forceFinalize]) and the answers to the closing of the artifact. The writes of
    the promise chain [writeTail] are a queue whose head is the write in flight.
    A byte is an integer, and decoding a buffer to a string is left to the reader
    of the content. The callback [onData] does not throw: the one the supervisor
    passes catches what its subscribers throw. *)

From stdpp Require Import pretty.
From S2P Require Import Prelude.

(** ** Cutting a buffer between characters *)

(** The bytes of the character a lead byte announces. *)
Definition needed (b : Z) : nat :=
  if bool_decide (Z.land b 0xe0 = 0xc0%Z) then 2
  else if bool_decide (Z.land b 0xf0 = 0xe0%Z) then 3
  else if bool_decide (Z.land b 0xf8 = 0xf0%Z) then 4 else 1.

Fixpoint trim_at (buf : list Z) (i fuel : nat) : list Z :=
  match fuel with
  | O => buf
  | S fuel' =>
      let b := nth (length buf - i) buf 0%Z in
      if bool_decide (Z.land b 0xc0 = 0xc0%Z) then
        if i <? needed b then take (length buf - i) buf else buf
      else if bool_decide (Z.land b 0x80 = 0%Z) then buf
      else trim_at buf (S i) fuel'
  end.
Definition trimToValidUtf8 (buf : list Z) : list Z := trim_at buf 1 (Nat.min 3 (length buf)).

Fixpoint trimStartToValidUtf8 (buf : list Z) : list Z :=
  match buf with
  | b :: buf' => if bool_decide (Z.land b 0xc0 = 0x80%Z) then trimStartToValidUtf8 buf' else buf
  | [] => []
  end.

(** ** Bounds *)

Definition MAX_PENDING_WRITE_BYTES : N := 1024 * 1024.
Definition overhead (maxBytes : nat) : nat :=
  if 80 <=? maxBytes then Nat.min 64 (maxBytes / 4) else 0.
Definition effectiveMax (maxBytes : nat) : nat := maxBytes - overhead maxBytes.
(** [Math.floor(effectiveMax * 0.75)] *)
Definition headMaxBytes (maxBytes : nat) : nat :=
  if 0 <? overhead maxBytes then 3 * effectiveMax maxBytes / 4 else maxBytes.
Definition tailMaxBytes (maxBytes : nat) : nat :=
  if 0 <? overhead maxBytes then effectiveMax maxBytes - headMaxBytes maxBytes else 0.

(** ** What is kept of the stream in memory *)

Record Retained := mkRetained {
  headChunks : list (list Z);
  headBytes : nat;
  bytesSeen : nat;
  isTruncated : bool;
  tailRing : list Z; (* empty when there is no tail *)
  tailHead : nat;
  tailCount : nat;
}.

Definition no_bytes (maxBytes : nat) : Retained :=
  mkRetained [] 0 0 false (replicate (tailMaxBytes maxBytes) 0%Z) 0 0.

Definition keep_head (maxBytes : nat) (buf : list Z) (r : Retained) : Retained :=
  let headMax := headMaxBytes maxBytes in
  if headBytes r <? headMax then
    if headBytes r + length buf <=? headMax then
      mkRetained (headChunks r ++ [buf]) (headBytes r + length buf) (bytesSeen r) (isTruncated r)
        (tailRing r) (tailHead r) (tailCount r)
    else
      let remaining := headMax - headBytes r in
      mkRetained (headChunks r ++ [take remaining buf]) (headBytes r + remaining) (bytesSeen r) true
        (tailRing r) (tailHead r) (tailCount r)
  else mkRetained (headChunks r) (headBytes r) (bytesSeen r) true (tailRing r) (tailHead r) (tailCount r).

(** [tailRing[tailHead] = byte; tailHead = (tailHead + 1) % tailMaxBytes] *)
Definition ring_put (max : nat) (ring : list Z * nat) (byte : Z) : list Z * nat :=
  (<[ring.2 := byte]> ring.1, (ring.2 + 1) mod max).

Definition keep_tail (maxBytes : nat) (buf : list Z) (r : Retained) : Retained :=
  let tailMax := tailMaxBytes maxBytes in
  if 0 <? tailMax then
    if tailMax <=? length buf then
      mkRetained (headChunks r) (headBytes r) (bytesSeen r) (isTruncated r)
        (drop (length buf - tailMax) buf) 0 tailMax
    else
      let '(ring, head) := foldl (ring_put tailMax) (tailRing r, tailHead r) buf in
      mkRetained (headChunks r) (headBytes r) (bytesSeen r) (isTruncated r)
        ring head (Nat.min tailMax (tailCount r + length buf))
  else r.

Definition see (n : nat) (r : Retained) : Retained :=
  mkRetained (headChunks r) (headBytes r) (bytesSeen r + n) (isTruncated r)
    (tailRing r) (tailHead r) (tailCount r).
Definition over_limit (maxBytes : nat) (r : Retained) : Retained :=
  if maxBytes <? bytesSeen r then
    mkRetained (headChunks r) (headBytes r) (bytesSeen r) true (tailRing r) (tailHead r) (tailCount r)
  else r.

(** The part of the ['data'] handler that fills the memory. *)
Definition retain (maxBytes : nat) (r : Retained) (buf : list Z) : Retained :=
  keep_tail maxBytes buf (over_limit maxBytes (keep_head maxBytes buf (see (length buf) r))).

(** *** The content of the result *)

Definition raw_tail (maxBytes : nat) (r : Retained) : list Z :=
  if tailCount r <? tailMaxBytes maxBytes then take (tailCount r) (tailRing r)
  else drop (tailHead r) (tailRing r) ++ take (tailHead r) (tailRing r).

(** The whole output, or its two ends around the marker. *)
Inductive Content :=
| whole (bytes : list Z)
| elided (head : list Z) (truncatedBytes : nat) (tail : list Z).

Definition content (maxBytes : nat) (r : Retained) : Content :=
  if bytesSeen r <=? maxBytes then whole (concat (headChunks r))
  else
    let rawHead := trimToValidUtf8 (concat (headChunks r)) in
    let cleanTail := if 0 <? tailCount r then trimStartToValidUtf8 (raw_tail maxBytes r) else [] in
    elided rawHead (bytesSeen r - length rawHead - length cleanTail) cleanTail.

Definition newline : string := String (ascii_of_nat 10) "".
Definition marker (truncatedBytes : nat) : string :=
  newline +:+ "[... truncated " +:+ pretty truncatedBytes +:+ " bytes ...]" +:+ newline.
(** The length of the content before its bytes are decoded. *)
Definition content_length (c : Content) : nat :=
  match c with
  | whole bytes => length bytes
  | elided head n tail => length head + String.length (marker n) + length tail
  end.

(** ** The artifact the whole stream is spilled to *)

Inductive FilePresence := no_file | on_disk | unlinked.
#[export] Instance FilePresence_eq_dec : EqDecision FilePresence.
Proof. solve_decision. Defined.

Record Spill := mkSpill {
  spillFilePath : option string;
  spillFd : bool; (* spillFd !== null *)
  ownedSpill : bool;
  spillError : option string;
  queue : list (list Z); (* the writes not settled; the head is in flight *)
  offset : nat; (* of the write in flight *)
  pendingWriteBytes : N;
  streamPausedForWriter : bool;
  file : list Z; (* the bytes that reached the file *)
  hashed : list Z; (* the bytes given to hash.update *)
  file_presence : FilePresence;
}.

Definition setSpillError (e : string) (w : Spill) : Spill :=
  mkSpill (spillFilePath w) (spillFd w) (ownedSpill w)
    (match spillError w with Some e0 => Some e0 | None => Some e end)
    (queue w) (offset w) (pendingWriteBytes w) (streamPausedForWriter w) (file w) (hashed w) (file_presence w).
Definition set_writes (q : list (list Z)) (off : nat) (pending : N) (paused : bool) (f h : list Z) (w : Spill) : Spill :=
  mkSpill (spillFilePath w) (spillFd w) (ownedSpill w) (spillError w) q off pending paused f h (file_presence w).
Definition set_file (fd : bool) (p : FilePresence) (w : Spill) : Spill :=
  mkSpill (spillFilePath w) fd (ownedSpill w) (spillError w) (queue w) (offset w) (pendingWriteBytes w)
    (streamPausedForWriter w) (file w) (hashed w) p.

Definition spill_failed (w : Spill) : bool := truthy_opt (spillError w).

(** What [createArtifact] answers: the error that is thrown, if any. *)
Definition open_spill (path : option string) (initError openError : option string) : Spill :=
  if truthy_opt path && negb (truthy_opt initError) then
    match openError with
    | None => mkSpill path true true initError [] 0 0%N false [] [] on_disk
    | Some e => mkSpill path false false (Some e) [] 0 0%N false [] [] no_file
    end
  else mkSpill path false false initError [] 0 0%N false [] [] no_file.

Definition enqueueWrite (buf : list Z) (w : Spill) : Spill :=
  if spillFd w && negb (spill_failed w) then
    let pending := (pendingWriteBytes w + N.of_nat (length buf))%N in
    set_writes (queue w ++ [buf]) (offset w) pending
      (streamPausedForWriter w || (MAX_PENDING_WRITE_BYTES <? pending)%N) (file w) (hashed w) w
  else w.

(** The spilling part of the ['data'] handler. *)
Definition spill (buf : list Z) (w : Spill) : Spill :=
  if spillFd w then enqueueWrite buf w
  else if negb (truthy_opt (spillFilePath w)) && negb (spill_failed w) then
    set_writes (queue w) (offset w) (pendingWriteBytes w) (streamPausedForWriter w) (file w) (hashed w ++ buf) w
  else w.

(** [pendingWriteBytes -= buf.length; resumeAfterWrite()] *)
Definition settle_write (isFinalized : bool) (q : list (list Z)) (n : nat) (f h : list Z) (w : Spill) : Spill :=
  let pending := (pendingWriteBytes w - N.of_nat n)%N in
  let resume := streamPausedForWriter w && (pending <=? MAX_PENDING_WRITE_BYTES / 2)%N && negb isFinalized in
  set_writes q 0 pending (streamPausedForWriter w && negb resume) f h w.

(** A rejected write; the writes queued behind it return without touching the file. *)
Definition fail_write (isFinalized : bool) (e : string) (w : Spill) : Spill :=
  settle_write isFinalized [] (length (concat (queue w))) (file w) (hashed w) (setSpillError e w).

(** The callback of [fs.write]: an error, or how many bytes it wrote. *)
Definition write_callback (isFinalized : bool) (answer : outcome string nat) (w : Spill) : Spill :=
  match queue w with
  | [] => w
  | buf :: q =>
      match answer with
      | Throw e => fail_write isFinalized e w
      | Ok written =>
          if bool_decide (written = 0) then fail_write isFinalized "Artifact writer made no progress" w
          else
            let f := file w ++ take written (drop (offset w) buf) in
            if offset w + written <? length buf
            then set_writes (queue w) (offset w + written) (pendingWriteBytes w) (streamPausedForWriter w) f (hashed w) w
            else settle_write isFinalized q (length buf) f (hashed w ++ buf) w
      end
  end.

(** *** Finalization, once [writeTail] has settled *)

Record FinalizeAnswers := mkFinalizeAnswers {
  fsync_error : option string;
  close_error : option string;
  onArtifactFinalized_error : option string;
  removeOwnedArtifact_error : option string;
  onArtifactDeleted_error : option string;
}.

Definition or_fail (e : option string) (w : Spill) : Spill :=
  match e with Some e => setSpillError e w | None => w end.

Definition close_spill (io : FinalizeAnswers) (w : Spill) : Spill :=
  if spillFd w then set_file false (file_presence w) (or_fail (close_error io) (or_fail (fsync_error io) w))
  else w.

(** [onArtifactFinalized?.(ownedSpill, { sha256: outputHash, sizeBytes: bytesSeen })] *)
Definition record_spill (io : FinalizeAnswers) (hash : option string) (seen : nat) (w : Spill)
  : option (string * nat) * Spill :=
  match hash, onArtifactFinalized_error io with
  | Some h, None => if ownedSpill w then (Some (h, seen), w) else (None, w)
  | Some _, Some e => if ownedSpill w then (None, setSpillError e w) else (None, w)
  | None, _ => (None, w)
  end.

Definition remove_spill (io : FinalizeAnswers) (truncated : bool) (w : Spill) : Spill :=
  if ownedSpill w && (negb truncated || spill_failed w) then
    match removeOwnedArtifact_error io with
    | Some e => setSpillError e w
    | None => or_fail (onArtifactDeleted_error io) (set_file (spillFd w) unlinked w)
    end
  else w.

(** ** The drainer *)

Inductive Stage := draining | finalizing | finished.
#[export] Instance Stage_eq_dec : EqDecision Stage.
Proof. solve_decision. Defined.

Record Drainer := mkDrainer {
  retained : Retained;
  spilled : Spill;
  stage : Stage;
  outputHash : option string;
  recordedFacts : option (string * nat); (* what onArtifactFinalized accepted *)
}.

Inductive DrainerEvent :=
| Data (chunk : list Z)
| WriteCallback (answer : outcome string nat)
| StreamEnd (* end, close, error, forceFinalize *)
| Settle (io : FinalizeAnswers).

Section Step.
Variable sha256 : list Z → string.
Variable maxBytes : nat.

Definition setupStreamDrainer (path : option string) (initError openError : option string) : Drainer :=
  mkDrainer (no_bytes maxBytes) (open_spill path initError openError) draining None None.

Definition on_data (chunk : list Z) (d : Drainer) : Drainer :=
  if bool_decide (stage d = draining) then
    mkDrainer (retain maxBytes (retained d) chunk) (spill chunk (spilled d)) (stage d)
      (outputHash d) (recordedFacts d)
  else d.

(** [doFinalize] up to its first [await]. *)
Definition doFinalize (d : Drainer) : Drainer :=
  if bool_decide (stage d = draining) then
    let w := spilled d in
    mkDrainer (retained d)
      (set_writes (queue w) (offset w) (pendingWriteBytes w) false (file w) (hashed w) w) finalizing
      (outputHash d) (recordedFacts d)
  else d.

(** The rest of [doFinalize]. *)
Definition settle_spill (io : FinalizeAnswers) (d : Drainer) : Drainer :=
  let w := close_spill io (spilled d) in
  let hash := if spill_failed w then None else Some (sha256 (hashed w)) in
  let '(facts, w) := record_spill io hash (bytesSeen (retained d)) w in
  mkDrainer (retained d) (remove_spill io (isTruncated (retained d)) w) finished hash facts.

Definition step (d : Drainer) (e : DrainerEvent) : Drainer :=
  match e with
  | Data chunk => on_data chunk d
  | WriteCallback answer =>
      mkDrainer (retained d) (write_callback (negb (bool_decide (stage d = draining))) answer (spilled d))
        (stage d) (outputHash d) (recordedFacts d)
  | StreamEnd => doFinalize d
  | Settle io =>
      if bool_decide (stage d = finalizing) && bool_decide (queue (spilled d) = [])
      then settle_spill io d else d
  end.

Definition run_drainer (d : Drainer) (es : list DrainerEvent) : Drainer := foldl step d es.
End Step.

(** ** The result *)

Record StreamDrainerResult := mkStreamDrainerResult {
  res_content : Content;
  res_isTruncated : bool;
  res_outputRef : option string;
  res_outputHash : option string;
  res_bytesSeen : nat;
  res_spillError : option string;
}.

Definition getResult (maxBytes : nat) (d : Drainer) : StreamDrainerResult :=
  let r := retained d in
  let w := spilled d in
  mkStreamDrainerResult (content maxBytes r) (isTruncated r)
    (if isTruncated r && truthy_opt (spillFilePath w) && negb (spill_failed w) then spillFilePath w else None)
    (if spill_failed w then None else outputHash d) (bytesSeen r) (spillError w).
