(* ===== verification/DrainerSpec.v ===== *)
(** * DrainerSpec: the properties of a drainer

    The abstract view of a drainer is the stream itself: what is shown is a
    function of the bytes that arrived, whatever the chunks they came in and
    whatever the writer of the artifact was doing. Then the invariant of that writer,
    the bound of its backpressure, and the properties of the result of a drainer, each
    for every sequence of events. *)

From stdpp Require Import pretty.
From S2P Require Import Prelude Drainer.

(** * What a drainer keeps and shows *)

(** ** The last bytes of a list *)

Definition lastn {A} (n : nat) (l : list A) : list A := drop (length l - n) l.

Lemma tail_drop {A} n (l : list A) : tail (drop n l) = drop (S n) l.
Proof. revert l. induction n as [|n IH]; intros [|x l]; simpl; auto. Qed.

Lemma lastn_snoc {A} n (l : list A) x :
  n ≤ length l → 0 < n → lastn n (l ++ [x]) = tail (lastn n l) ++ [x].
Proof.
  intros Hn H0. unfold lastn. rewrite tail_drop length_app /= drop_app_le; [|lia].
  do 2 f_equal. lia.
Qed.

Lemma lastn_app_long {A} n (l k : list A) : n ≤ length k → lastn n (l ++ k) = lastn n k.
Proof.
  intros. unfold lastn. rewrite length_app drop_app_ge; [|lia]. f_equal. lia.
Qed.

Lemma length_lastn {A} n (l : list A) : length (lastn n l) = Nat.min n (length l).
Proof. unfold lastn. rewrite length_drop. lia. Qed.

(** ** The ring buffer *)

Record ring_holds (max : nat) (ring : list Z) (head count : nat) (s : list Z) : Prop := {
  ring_length : length ring = max;
  ring_head : head < max;
  ring_count : count = Nat.min max (length s);
  ring_filling : length s < max → head = length s ∧ take head ring = s;
  ring_full : max ≤ length s → drop head ring ++ take head ring = lastn max s;
}.

Lemma take_S_insert {A} (l : list A) i x : i < length l → take (S i) (<[i:=x]> l) = take i l ++ [x].
Proof.
  intros. rewrite (take_S_r _ _ x); [|by rewrite list_lookup_insert_eq].
  by rewrite take_insert_ge.
Qed.

Lemma rotate_insert {A} (l : list A) i x :
  i < length l →
  drop (S i) (<[i:=x]> l) ++ take (S i) (<[i:=x]> l) = tail (drop i l ++ take i l) ++ [x].
Proof.
  intros Hi. rewrite take_S_insert // drop_insert_lt; [|lia].
  destruct (drop i l) as [|y k] eqn:Hk.
  - apply (f_equal length) in Hk. rewrite length_drop /= in Hk. lia.
  - rewrite -(tail_drop i l) Hk /=. by rewrite assoc.
Qed.

Lemma ring_put_holds max ring head count s b :
  ring_holds max ring head count s →
  ring_holds max (ring_put max (ring, head) b).1 (ring_put max (ring, head) b).2
    (Nat.min max (count + 1)) (s ++ [b]).
Proof.
  intros [Hl Hh Hc Hfill Hfull]. subst max count. unfold ring_put. simpl.
  assert (Hmod : (head + 1) mod length ring = if S head <? length ring then S head else 0).
  { destruct (Nat.ltb_spec (S head) (length ring)).
    - rewrite Nat.mod_small; lia.
    - replace (head + 1) with (length ring) by lia. apply Nat.Div0.mod_same. }
  assert (Hwrap : drop ((head + 1) mod length ring) (<[head:=b]> ring)
      ++ take ((head + 1) mod length ring) (<[head:=b]> ring)
      = drop (S head) (<[head:=b]> ring) ++ take (S head) (<[head:=b]> ring)).
  { rewrite Hmod. destruct (Nat.ltb_spec (S head) (length ring)); [done|].
    rewrite app_nil_r (drop_ge _ (S head)) ?length_insert; [|lia].
    by rewrite take_ge ?length_insert; [|lia]. }
  split.
  - by rewrite length_insert.
  - rewrite Hmod. case_match; [by apply Nat.ltb_lt|lia].
  - rewrite length_app /=. lia.
  - rewrite length_app /= => Hlt. destruct Hfill as [-> Hs]; [lia|].
    rewrite Hmod. replace (S (length s) <? length ring) with true by (symmetry; apply Nat.ltb_lt; lia).
    split; [lia|]. rewrite take_S_insert; [|lia]. by rewrite Hs.
  - rewrite length_app /= => Hge. rewrite Hwrap.
    destruct (decide (length ring ≤ length s)) as [Hs|Hs].
    + rewrite rotate_insert // Hfull // lastn_snoc //. lia.
    + destruct Hfill as [-> Hs']; [lia|]. rewrite take_S_insert ?Hs'; [|lia].
      rewrite drop_ge ?length_insert; [|lia]. unfold lastn.
      replace (length (s ++ [b]) - length ring) with 0; [done|]. rewrite length_app /=. lia.
Qed.

Lemma ring_fold_holds max buf : ∀ ring head count s,
  ring_holds max ring head count s →
  ring_holds max (foldl (ring_put max) (ring, head) buf).1 (foldl (ring_put max) (ring, head) buf).2
    (Nat.min max (count + length buf)) (s ++ buf).
Proof.
  induction buf as [|b buf IH]; intros ring head count s H; simpl.
  - rewrite app_nil_r Nat.add_0_r. destruct H. split; auto. simpl. lia.
  - pose proof (ring_put_holds _ _ _ _ _ b H) as Hb.
    destruct (ring_put max (ring, head) b) as [ring' head'] eqn:Hp.
    specialize (IH ring' head' _ _ Hb). rewrite -assoc /= in IH.
    replace (Nat.min max (count + S (length buf)))
      with (Nat.min max (Nat.min max (count + 1) + length buf)) by lia.
    exact IH.
Qed.

Lemma ring_overwritten max s : 0 < max → max ≤ length s → ring_holds max (lastn max s) 0 max s.
Proof.
  intros H0 Hs. split; rewrite ?length_lastn; try lia.
  intros _. by rewrite app_nil_r.
Qed.

(** ** What is kept in memory refines the stream *)

Record holds (maxBytes : nat) (r : Retained) (s : list Z) : Prop := {
  holds_head : concat (headChunks r) = take (headMaxBytes maxBytes) s;
  holds_headBytes : headBytes r = Nat.min (headMaxBytes maxBytes) (length s);
  holds_seen : bytesSeen r = length s;
  holds_ring : tailMaxBytes maxBytes = 0 ∧ tailCount r = 0 ∧ tailRing r = []
    ∨ ring_holds (tailMaxBytes maxBytes) (tailRing r) (tailHead r) (tailCount r) s;
  holds_cut : headMaxBytes maxBytes < length s → isTruncated r = true;
}.

Lemma headMaxBytes_le maxBytes : headMaxBytes maxBytes ≤ maxBytes.
Proof.
  unfold headMaxBytes, effectiveMax. case_match; [|lia].
  apply Nat.Div0.div_le_upper_bound. lia.
Qed.

Lemma no_bytes_holds maxBytes : holds maxBytes (no_bytes maxBytes) [].
Proof.
  split; simpl; rewrite ?take_nil ?Nat.min_0_r //; [|lia].
  destruct (tailMaxBytes maxBytes) as [|n]; [by left|right].
  split; rewrite ?length_replicate /=; try lia; done.
Qed.

Lemma keep_head_concat max (cs : list (list Z)) s buf :
  concat cs = take max s →
  concat (if Nat.min max (length s) <? max then
            if Nat.min max (length s) + length buf <=? max then cs ++ [buf]
            else cs ++ [take (max - Nat.min max (length s)) buf]
          else cs) = take max (s ++ buf).
Proof.
  intros Hc. destruct (Nat.ltb_spec (Nat.min max (length s)) max).
  - rewrite take_ge in Hc; [|lia]. rewrite take_app (take_ge s); [|lia].
    replace (max - Nat.min max (length s)) with (max - length s) by lia.
    destruct (Nat.leb_spec (Nat.min max (length s) + length buf) max);
      rewrite concat_app /= app_nil_r Hc //.
    by rewrite (take_ge buf); [|lia].
  - by rewrite Hc take_app_le; [|lia].
Qed.

Lemma retain_fields maxBytes r buf :
  let r' := retain maxBytes r buf in
  headChunks r' = (if headBytes r <? headMaxBytes maxBytes then
      if headBytes r + length buf <=? headMaxBytes maxBytes then headChunks r ++ [buf]
      else headChunks r ++ [take (headMaxBytes maxBytes - headBytes r) buf]
    else headChunks r) ∧
  headBytes r' = (if headBytes r <? headMaxBytes maxBytes then
      if headBytes r + length buf <=? headMaxBytes maxBytes then headBytes r + length buf
      else headBytes r + (headMaxBytes maxBytes - headBytes r)
    else headBytes r) ∧
  bytesSeen r' = bytesSeen r + length buf ∧
  isTruncated r' = ((if headBytes r <? headMaxBytes maxBytes then
      if headBytes r + length buf <=? headMaxBytes maxBytes then isTruncated r else true
    else true) || (maxBytes <? bytesSeen r + length buf)) ∧
  (tailRing r', tailHead r', tailCount r') =
    if 0 <? tailMaxBytes maxBytes then
      if tailMaxBytes maxBytes <=? length buf
      then (drop (length buf - tailMaxBytes maxBytes) buf, 0, tailMaxBytes maxBytes)
      else (foldl (ring_put (tailMaxBytes maxBytes)) (tailRing r, tailHead r) buf,
            Nat.min (tailMaxBytes maxBytes) (tailCount r + length buf))
    else (tailRing r, tailHead r, tailCount r).
Proof.
  simpl. unfold retain, keep_tail, over_limit, keep_head, see. simpl.
  destruct (headBytes r <? headMaxBytes maxBytes),
    (headBytes r + length buf <=? headMaxBytes maxBytes); simpl;
    destruct (maxBytes <? bytesSeen r + length buf), (0 <? tailMaxBytes maxBytes),
      (tailMaxBytes maxBytes <=? length buf); simpl;
    rewrite ?orb_true_r ?orb_false_r; try destruct (foldl _ _ _) as [ring head]; auto.
Qed.

Lemma retain_holds maxBytes r s buf :
  holds maxBytes r s → holds maxBytes (retain maxBytes r buf) (s ++ buf).
Proof.
  intros [Hh Hb Hs Hr Hc].
  destruct (retain_fields maxBytes r buf) as (Eh & Eb & Es & Et & Er).
  pose proof (headMaxBytes_le maxBytes) as Hm.
  split; rewrite ?Eh ?Eb ?Es ?Et.
  - rewrite Hb. by apply keep_head_concat.
  - rewrite Hb length_app.
    destruct (Nat.ltb_spec (Nat.min (headMaxBytes maxBytes) (length s)) (headMaxBytes maxBytes)); [|lia].
    destruct (Nat.leb_spec (Nat.min (headMaxBytes maxBytes) (length s) + length buf) (headMaxBytes maxBytes)); lia.
  - by rewrite length_app Hs.
  - destruct Hr as [(H0 & Hc0 & Hr0)|Hr].
    + left. rewrite H0 /= in Er. injection Er as -> _ ->. done.
    + right. assert (0 < tailMaxBytes maxBytes) as H0 by (destruct Hr; lia).
      rewrite (proj2 (Nat.ltb_lt _ _) H0) in Er.
      destruct (Nat.leb_spec (tailMaxBytes maxBytes) (length buf)).
      * injection Er as -> -> ->. rewrite -/(lastn _ buf) -(lastn_app_long _ s) //.
        apply ring_overwritten; [done|]. rewrite length_app. lia.
      * pose proof (ring_fold_holds _ buf _ _ _ _ Hr) as Hf.
        destruct (foldl _ _ _) as [ring head]. by injection Er as -> -> ->.
  - rewrite length_app Hb => Hlt. apply orb_true_iff.
    destruct (Nat.ltb_spec (Nat.min (headMaxBytes maxBytes) (length s)) (headMaxBytes maxBytes)); [|by left].
    destruct (Nat.leb_spec (Nat.min (headMaxBytes maxBytes) (length s) + length buf) (headMaxBytes maxBytes)); [lia|by left].
Qed.

(** ** The content, as a function of the stream *)

(** The chunks that arrived before the drainer was finalized. *)
Fixpoint drained (es : list DrainerEvent) : list (list Z) :=
  match es with
  | [] | StreamEnd :: _ => []
  | Data chunk :: es' => chunk :: drained es'
  | _ :: es' => drained es'
  end.
Definition stream (es : list DrainerEvent) : list Z := concat (drained es).

Section Run.
Variable sha256 : list Z → string.
Variable maxBytes : nat.
Notation step := (step sha256 maxBytes).
Notation run := (run_drainer sha256 maxBytes).

Lemma run_retained_stopped es : ∀ d, stage d ≠ draining → retained (run d es) = retained d.
Proof.
  induction es as [|e es IH]; intros d Hd; simpl; [done|].
  assert (stage (step d e) ≠ draining ∧ retained (step d e) = retained d) as [Hs <-]; [|by apply IH].
  destruct e; simpl; unfold on_data, doFinalize; rewrite ?(bool_decide_eq_false_2 _ Hd) //.
  case_match; [|done]. unfold settle_spill. by repeat case_match.
Qed.

Lemma run_retained es : ∀ d,
  stage d = draining → retained (run d es) = foldl (retain maxBytes) (retained d) (drained es).
Proof.
  induction es as [|e es IH]; intros d Hd; simpl; [done|]. destruct e; simpl.
  - rewrite IH; unfold on_data; by rewrite Hd.
  - by rewrite IH.
  - rewrite run_retained_stopped; unfold doFinalize; by rewrite Hd.
  - rewrite Hd. by apply IH.
Qed.

Lemma foldl_holds cs : ∀ r s, holds maxBytes r s → holds maxBytes (foldl (retain maxBytes) r cs) (s ++ concat cs).
Proof.
  induction cs as [|c cs IH]; intros r s H; simpl; [by rewrite app_nil_r|].
  rewrite assoc. by apply IH, retain_holds.
Qed.

Lemma run_holds path e1 e2 es :
  holds maxBytes (retained (run (setupStreamDrainer maxBytes path e1 e2) es)) (stream es).
Proof. rewrite run_retained //. apply (foldl_holds (drained es) _ []), no_bytes_holds. Qed.

Lemma holds_tail r s : holds maxBytes r s → 
  (if 0 <? tailCount r then trimStartToValidUtf8 (raw_tail maxBytes r) else [])
  = trimStartToValidUtf8 (lastn (tailMaxBytes maxBytes) s).
Proof.
  intros [_ _ _ [(H0 & -> & _)|[Hl Hh Hc Hfill Hfull]] _]; simpl.
  - rewrite H0 /lastn Nat.sub_0_r drop_all //.
  - unfold raw_tail. rewrite Hc.
    destruct (Nat.ltb_spec (Nat.min (tailMaxBytes maxBytes) (length s)) (tailMaxBytes maxBytes)) as [Hlt|Hge].
    + destruct Hfill as [Hhd Hs]; [lia|].
      rewrite /lastn (_ : length s - _ = 0); [|lia]. rewrite drop_0.
      replace (Nat.min _ _) with (tailHead r) by lia. rewrite Hs.
      case_match; [done|]. destruct s; [done|]. simpl in *; rewrite -> Hhd in *. done.
    + rewrite Hfull; [|lia]. case_match; [done|].
      destruct (Nat.ltb_spec 0 (Nat.min (tailMaxBytes maxBytes) (length s))); [done|].
      rewrite /lastn drop_ge //. lia.
Qed.
End Run.

(** ** Characters *)

Definition continuation (b : Z) : Prop := Z.land b 0xc0 = 0x80%Z.

(** The bytes of one character: a lead byte and the continuations it announces. *)
Definition character (c : list Z) : Prop :=
  match c with
  | b :: ks => (Z.land b 0x80 = 0%Z ∧ ks = [] ∨ needed b = S (length ks) ∧ 2 ≤ needed b) ∧ Forall continuation ks
  | [] => False
  end.

Lemma lead_byte b : 2 ≤ needed b → Z.land b 0xc0 = 0xc0%Z ∧ needed b ≤ 4.
Proof.
  unfold needed. assert (∀ m v, Z.land m 0xc0 = 0xc0%Z → Z.land v 0xc0 = 0xc0%Z →
    Z.land b m = v → Z.land b 0xc0 = 0xc0%Z) as H.
  { intros m v Hm Hv Hb. etransitivity; [|exact Hv]. by rewrite -Hb -Z.land_assoc Hm. }
  repeat case_bool_decide; intros; (split; [|lia]); try lia; eapply H; eauto; done.
Qed.

Lemma continuation_inv b : continuation b → Z.land b 0xc0 ≠ 0xc0%Z ∧ Z.land b 0x80 ≠ 0%Z.
Proof.
  unfold continuation. intros H. split; [by rewrite H|]. intros H0.
  assert (Z.land (Z.land b 0xc0) 0x80 = 0x80%Z) as E by by rewrite H.
  rewrite -Z.land_assoc in E. change (Z.land 0xc0 0x80) with 0x80%Z in E. by rewrite H0 in E.
Qed.

Lemma trim_at_here l b ks f :
  trim_at (l ++ b :: ks) (S (length ks)) (S f) =
    if bool_decide (Z.land b 0xc0 = 0xc0%Z) then
      if S (length ks) <? needed b then l else l ++ b :: ks
    else if bool_decide (Z.land b 0x80 = 0%Z) then l ++ b :: ks
    else trim_at (l ++ b :: ks) (S (S (length ks))) f.
Proof.
  simpl. rewrite length_app /=. replace (length l + S (length ks) - S (length ks)) with (length l) by lia.
  by rewrite nth_middle take_app_length.
Qed.

Lemma trim_at_skip ks : ∀ l ks2 f, Forall continuation ks →
  trim_at (l ++ ks ++ ks2) (S (length ks2)) (length ks + f)
  = trim_at (l ++ ks ++ ks2) (S (length ks2) + length ks) f.
Proof.
  induction ks as [|b ks IH] using rev_ind; intros l ks2 f Hks; [by rewrite Nat.add_0_r|].
  apply Forall_app in Hks as [Hks Hb]. rewrite Forall_singleton in Hb.
  destruct (continuation_inv _ Hb) as [H1 H2].
  rewrite -!assoc length_app /= Nat.add_1_r.
  rewrite (assoc _ l) trim_at_here !bool_decide_eq_false_2 // -assoc.
  change (S (S (length ks2))) with (S (length (b :: ks2))).
  rewrite IH //. f_equal. simpl. lia.
Qed.

Lemma trim_lead l b ks :
  Forall continuation ks → 2 ≤ needed b → S (length ks) ≤ needed b →
  trimToValidUtf8 (l ++ b :: ks) = if S (length ks) <? needed b then l else l ++ b :: ks.
Proof.
  intros Hks Hn Hle. destruct (lead_byte b Hn) as [Hb H4]. unfold trimToValidUtf8.
  assert (Hskip : ∀ f, trim_at (l ++ b :: ks) 1 (length ks + f) = trim_at (l ++ b :: ks) (S (length ks)) f).
  { intros f. pose proof (trim_at_skip ks (l ++ [b]) [] f Hks) as E.
    by rewrite app_nil_r -assoc /= in E. }
  rewrite length_app. change (length (b :: ks)) with (S (length ks)).
  destruct (decide (length ks ≤ 2)).
  - replace (Nat.min 3 (length l + S (length ks)))
      with (length ks + S (Nat.min 3 (length l + S (length ks)) - S (length ks))) by lia.
    by rewrite Hskip trim_at_here bool_decide_eq_true_2.
  - replace (Nat.min 3 (length l + S (length ks))) with (length ks + 0) by lia.
    rewrite Hskip /=. by destruct (Nat.ltb_spec (S (length ks)) (needed b)); [lia|].
Qed.

Lemma trim_character l c : character c → trimToValidUtf8 (l ++ c) = l ++ c.
Proof.
  destruct c as [|b ks]; simpl; [done|]. intros [[[Hb ->]|[Hn H2]] Hks].
  - unfold trimToValidUtf8. rewrite length_app. change (length [b]) with 1.
    replace (Nat.min 3 (length l + 1)) with (S (Nat.min 2 (length l))) by lia.
    rewrite (trim_at_here l b []) (bool_decide_eq_true_2 (Z.land b 0x80 = 0%Z)) // bool_decide_eq_false_2 //.
    intros H. assert (Z.land (Z.land b 0xc0) 0x80 = 0x80%Z) as E by by rewrite H.
    rewrite -Z.land_assoc in E. change (Z.land 0xc0 0x80) with 0x80%Z in E. by rewrite Hb in E.
  - rewrite trim_lead //; [|lia]. by rewrite Hn Nat.ltb_irrefl.
Qed.

Lemma trim_partial l part rest :
  character (part ++ rest) → rest ≠ [] → trimToValidUtf8 (l ++ part) =
    match part with [] => trimToValidUtf8 l | _ => l end.
Proof.
  destruct part as [|b ks]; simpl; [by rewrite app_nil_r|].
  intros [[[Hb H]|[Hn H2]] Hks] Hr; [by destruct ks|].
  apply Forall_app in Hks as [Hks _].
  assert (0 < length rest) by (destruct rest; simpl; [done|lia]). rewrite length_app in Hn.
  rewrite trim_lead //; [|lia]. by rewrite (proj2 (Nat.ltb_lt _ _)); [|lia].
Qed.

(** Where a cut of a sequence of characters falls. *)
Lemma cut_between (cs : list (list Z)) : ∀ n,
  n < length (concat cs) →
  ∃ k part rest, cs !! k = Some (part ++ rest) ∧ rest ≠ [] ∧
    take n (concat cs) = concat (take k cs) ++ part ∧
    drop n (concat cs) = rest ++ concat (drop (S k) cs).
Proof.
  induction cs as [|c cs IH]; simpl; intros n Hn; [lia|]. rewrite length_app in Hn.
  destruct (decide (n < length c)).
  - exists 0, (take n c), (drop n c). rewrite take_drop /= drop_0 take_app_le ?drop_app_le; [|lia..].
    split_and!; auto. intros H. apply (f_equal length) in H. rewrite length_drop /= in H. lia.
  - destruct (IH (n - length c)) as (k & part & rest & Hk & Hr & Ht & Hd); [lia|].
    exists (S k), part, rest. rewrite take_app_ge ?drop_app_ge ?Ht ?Hd /= -?assoc; [|lia..]. done.
Qed.

Lemma trim_concat cs : Forall character cs → trimToValidUtf8 (concat cs) = concat cs.
Proof.
  destruct cs as [|c cs _] using rev_ind; [done|]. intros [_ Hc]%Forall_app. rewrite Forall_singleton in Hc.
  rewrite concat_app /= app_nil_r. by apply trim_character.
Qed.

Lemma trimStart_continuations ks s :
  Forall continuation ks → trimStartToValidUtf8 (ks ++ s) = trimStartToValidUtf8 s.
Proof. induction 1 as [|b ks Hb _ IH]; simpl; [done|]. by rewrite bool_decide_eq_true_2. Qed.

Lemma trimStart_concat cs : Forall character cs → trimStartToValidUtf8 (concat cs) = concat cs.
Proof.
  destruct 1 as [|c cs Hc _]; [done|]. destruct c as [|b ks]; simpl; [done|].
  rewrite bool_decide_eq_false_2 //. intros Hb%continuation_inv.
  destruct Hc as [[[H _]|[_ H%lead_byte]] _]; tauto.
Qed.

Lemma trim_cut cs n : Forall character cs → n < length (concat cs) →
  ∃ before after, cs = before ++ after ∧ trimToValidUtf8 (take n (concat cs)) = concat before ∧
    length (concat before) ≤ n < length (concat before) + 4.
Proof.
  intros Hcs Hn. destruct (cut_between cs n Hn) as (k & part & rest & Hk & Hr & Ht & _).
  exists (take k cs), (drop k cs). rewrite take_drop. split; [done|].
  pose proof (Forall_lookup_1 _ _ _ _ Hcs Hk) as Hc.
  assert (length (concat (take k cs) ++ part) = n) as Hl by (rewrite -Ht length_take; lia).
  rewrite length_app in Hl. rewrite Ht (trim_partial _ _ rest) //.
  assert (length part < 4).
  { destruct part as [|b ks]; simpl in *; [lia|]. destruct Hc as [[[_ H]|[Hb H2]] _]; [by destruct ks|].
    destruct (lead_byte b H2). rewrite length_app in Hb.
    assert (0 < length rest) by (destruct rest; [done|simpl; lia]). lia. }
  destruct part; [rewrite trim_concat; [|by apply Forall_take]|]; split; auto; lia.
Qed.

Lemma trimStart_cut cs n : Forall character cs → n < length (concat cs) →
  ∃ before after, cs = before ++ after ∧ trimStartToValidUtf8 (drop n (concat cs)) = concat after ∧
    length (concat before) < n + 4 ∧ n ≤ length (concat before).
Proof.
  intros Hcs Hn. destruct (cut_between cs n Hn) as (k & part & rest & Hk & Hr & Ht & Hd).
  pose proof (Forall_lookup_1 _ _ _ _ Hcs Hk) as Hc.
  assert (length (concat (take k cs) ++ part) = n) as Hl by (rewrite -Ht length_take; lia).
  rewrite length_app in Hl.
  pose proof (take_drop_middle _ _ _ Hk) as Hmid. rewrite Hd.
  destruct part as [|b ks]; simpl in *.
  - exists (take k cs), (drop k cs). rewrite take_drop. split_and!; [done| |lia..].
    rewrite -(drop_S _ _ _ Hk) in Hmid |- *.
    change (rest ++ concat (drop (S k) cs)) with (concat (rest :: drop (S k) cs)).
    rewrite -(drop_S _ _ _ Hk). by apply trimStart_concat, Forall_drop.
  - exists (take (S k) cs), (drop (S k) cs). rewrite take_drop. split; [done|].
    assert (length (b :: ks ++ rest) ≤ 4 ∧ Forall continuation rest) as [H4 Hrest].
    { destruct Hc as [[[_ H]|[Hb H2]] Hall]; [by destruct ks, rest|].
      destruct (lead_byte b H2). simpl. split; [lia|]. by apply Forall_app in Hall as [_ ?]. }
    rewrite trimStart_continuations //. split; [by apply trimStart_concat, Forall_drop|].
    rewrite (take_S_r _ _ _ Hk) concat_app /= app_nil_r length_app /= length_app.
    simpl in H4. rewrite length_app in H4. assert (0 < length rest) by (destruct rest; [done|simpl; lia]). lia.
Qed.

Lemma character_nonempty c : character c → 0 < length c.
Proof. destruct c; simpl; [done|lia]. Qed.

(** Two ways of cutting one sequence of characters are nested. *)
Lemma cuts_nested (b1 a1 b2 a2 : list (list Z)) :
  b1 ++ a1 = b2 ++ a2 → Forall character (b1 ++ a1) → length (concat b1) ≤ length (concat b2) →
  ∃ middle, b2 = b1 ++ middle ∧ a1 = middle ++ a2.
Proof.
  intros E Hcs Hl. destruct (List.app_eq_app _ _ _ _ E) as (l & [[-> ->]|[-> ->]]); [|by exists l].
  exists []. rewrite concat_app length_app in Hl. rewrite -app_assoc in Hcs.
  apply Forall_app in Hcs as [_ Hcs]. apply Forall_app in Hcs as [Hl' _].
  destruct Hl' as [|c l Hc _]; [by rewrite !app_nil_r|].
  apply character_nonempty in Hc. simpl in Hl. rewrite length_app in Hl. lia.
Qed.

(** ** What is shown *)

(** What a reader of the whole stream would show of it. *)
Definition shown (maxBytes : nat) (s : list Z) : Content :=
  if length s <=? headMaxBytes maxBytes then whole s
  else if length s <=? maxBytes then whole (take (headMaxBytes maxBytes) s)
  else
    let head := trimToValidUtf8 (take (headMaxBytes maxBytes) s) in
    let tail := trimStartToValidUtf8 (lastn (tailMaxBytes maxBytes) s) in
    elided head (length s - length head - length tail) tail.

Lemma content_shown maxBytes r s : holds maxBytes r s → content maxBytes r = shown maxBytes s.
Proof.
  intros H. unfold content, shown. rewrite (holds_tail _ _ _ H).
  destruct H as [-> _ -> _ _]. pose proof (headMaxBytes_le maxBytes).
  destruct (Nat.leb_spec (length s) (headMaxBytes maxBytes)); [|done].
  rewrite (proj2 (Nat.leb_le _ _)); [|lia]. by rewrite take_ge.
Qed.

Lemma bounds_sum maxBytes : headMaxBytes maxBytes + tailMaxBytes maxBytes + overhead maxBytes ≤ maxBytes.
Proof.
  unfold headMaxBytes, tailMaxBytes, headMaxBytes, effectiveMax, overhead.
  destruct (Nat.leb_spec 80 maxBytes); [|simpl; lia].
  assert (∀ n, 3 * n / 4 ≤ n) as H34 by (intros; apply Nat.Div0.div_le_upper_bound; lia).
  assert (maxBytes / 4 ≤ maxBytes) by (apply Nat.Div0.div_le_upper_bound; lia).
  specialize (H34 (maxBytes - Nat.min 64 (maxBytes / 4))).
  destruct (Nat.ltb_spec 0 (Nat.min 64 (maxBytes / 4))); lia.
Qed.

(** The digits of a number. *)
Lemma pretty_N_go_length k : ∀ n s, (n < 10 ^ N.of_nat k)%N →
  String.length (pretty_N_go n s) ≤ k + String.length s.
Proof.
  induction k as [|k IH]; intros n s Hn.
  - change (10 ^ N.of_nat 0)%N with 1%N in Hn. replace n with 0%N by lia. by rewrite pretty_N_go_0.
  - destruct (decide (n = 0)%N) as [->|Hn0]; [rewrite pretty_N_go_0; lia|].
    rewrite pretty_N_go_step; [|lia].
    assert (n `div` 10 < 10 ^ N.of_nat k)%N as Hd.
    { apply N.Div0.div_lt_upper_bound. by rewrite Nat2N.inj_succ N.pow_succ_r' in Hn. }
    pose proof (IH _ (String (pretty_N_char (n `mod` 10)) s) Hd) as Hl. simpl in Hl. lia.
Qed.

Lemma pretty_length k n : (N.of_nat n < 10 ^ N.of_nat (S k))%N → String.length (pretty n) ≤ S k.
Proof.
  intros Hn. unfold pretty, pretty_nat, pretty, pretty_N. case_decide; [simpl; lia|].
  pose proof (pretty_N_go_length _ _ "" Hn). simpl in *. lia.
Qed.

Lemma length_sapp s t : String.length (s +:+ t) = String.length s + String.length t.
Proof. induction s as [|a s IH]; simpl; [done|]. by rewrite IH. Qed.

Lemma marker_length n : String.length (marker n) = 28 + String.length (pretty n).
Proof. unfold marker. rewrite !length_sapp. simpl. lia. Qed.

Lemma length_trimToValidUtf8 buf : length (trimToValidUtf8 buf) ≤ length buf.
Proof.
  unfold trimToValidUtf8. generalize 1, (Nat.min 3 (length buf)). intros i f. revert i.
  induction f as [|f IH]; intros i; simpl; [done|].
  repeat case_match; rewrite ?length_take; auto; lia.
Qed.
Lemma length_trimStart buf : length (trimStartToValidUtf8 buf) ≤ length buf.
Proof. induction buf as [|b buf IH]; simpl; [done|]. case_match; simpl; lia. Qed.

Lemma shown_length maxBytes s :
  176 ≤ maxBytes → (N.of_nat (length s) < 10 ^ 16)%N → content_length (shown maxBytes s) ≤ maxBytes.
Proof.
  intros Hmax Hs. pose proof (headMaxBytes_le maxBytes). pose proof (bounds_sum maxBytes) as Hsum.
  unfold shown. repeat case_match; rewrite -> ?Nat.leb_le, ?Nat.leb_gt in *; cbn [content_length]; [lia|rewrite length_take; lia|].
  rewrite marker_length.
  pose proof (length_trimToValidUtf8 (take (headMaxBytes maxBytes) s)) as Hh.
  pose proof (length_trimStart (lastn (tailMaxBytes maxBytes) s)) as Ht.
  rewrite length_take in Hh. rewrite length_lastn in Ht.
  match goal with |- context [pretty ?n] => assert (String.length (pretty n) ≤ 16) by
    (apply pretty_length; eapply N.le_lt_trans; [|exact Hs]; lia) end.
  assert (44 ≤ overhead maxBytes); [|lia].
  unfold overhead. rewrite (proj2 (Nat.leb_le _ _)); [|lia].
  apply Nat.min_glb; [lia|]. by apply Nat.div_le_lower_bound; lia.
Qed.

(** ** The truncation flag *)

Lemma foldl_truncated maxBytes cs : ∀ r s,
  holds maxBytes r s → isTruncated r = (headMaxBytes maxBytes <? length s) → Forall (λ c, c ≠ []) cs →
  isTruncated (foldl (retain maxBytes) r cs) = (headMaxBytes maxBytes <? length (s ++ concat cs)).
Proof.
  induction cs as [|c cs IH]; intros r s H Ht Hcs; simpl; [by rewrite app_nil_r|].
  inversion_clear Hcs as [|? ? Hc Hcs']. rewrite assoc. apply IH; [by apply retain_holds| |done].
  destruct (retain_fields maxBytes r c) as (_ & _ & _ & -> & _).
  destruct H as [_ -> -> _ _]. rewrite Ht length_app. pose proof (headMaxBytes_le maxBytes).
  assert (0 < length c) by (destruct c; [done|simpl; lia]).
  repeat match goal with |- context [?a <? ?b] => destruct (Nat.ltb_spec a b) end;
  repeat match goal with |- context [?a <=? ?b] => destruct (Nat.leb_spec a b) end; simpl; lia || done.
Qed.

(** * The writer, and the properties *)

(** ** The spilled artifact *)

(** An error the drainer is told of has a message. *)
Definition told (e : option string) : Prop := e ≠ Some "".
Definition well_told (e : DrainerEvent) : Prop :=
  match e with
  | WriteCallback (Throw m) => m ≠ ""
  | Settle io => told (fsync_error io) ∧ told (close_error io) ∧ told (onArtifactFinalized_error io)
      ∧ told (removeOwnedArtifact_error io) ∧ told (onArtifactDeleted_error io)
  | _ => True
  end.

Lemma truthy_opt_Some e : told (Some e) → truthy_opt (Some e) = true.
Proof. unfold told, truthy_opt, truthy_str. intros H. rewrite bool_decide_eq_false_2 //. congruence. Qed.

Ltac spill_fields :=
  cbn [spillError setSpillError set_writes set_file spillFilePath pendingWriteBytes queue
    streamPausedForWriter ownedSpill spillFd file_presence hashed file offset].

(** The file, the queue and the hash agree on the stream, while nothing failed. *)
Definition intact (path : option string) (w : Spill) (s : list Z) : Prop :=
  if truthy_opt path then
    ownedSpill w = true ∧ spillFd w = true ∧ file_presence w = on_disk ∧
    hashed w ++ concat (queue w) = s ∧
    file w = hashed w ++ take (offset w) (concat (queue w)) ∧
    offset w ≤ length (default [] (head (queue w)))
  else ownedSpill w = false ∧ spillFd w = false ∧ queue w = [] ∧ hashed w = s.

Record writer_ok (path : option string) (w : Spill) (s : list Z) : Prop := {
  writer_path : spillFilePath w = path;
  writer_told : told (spillError w);
  writer_pending : pendingWriteBytes w = N.of_nat (length (concat (queue w)));
  writer_paused : streamPausedForWriter w = true → (MAX_PENDING_WRITE_BYTES / 2 < pendingWriteBytes w)%N;
  writer_failed : spill_failed w = true → queue w = [];
  writer_intact : spill_failed w = false → intact path w s;
}.

Lemma spill_failed_set e w : told (Some e) → told (spillError w) → spill_failed (setSpillError e w) = true.
Proof.
  unfold spill_failed, setSpillError. simpl. destruct (spillError w); intros; by apply truthy_opt_Some.
Qed.
Lemma told_set e w : told (Some e) → told (spillError w) → told (spillError (setSpillError e w)).
Proof. unfold setSpillError. simpl. by destruct (spillError w). Qed.

Lemma open_spill_ok path e1 e2 : told e1 → told e2 → writer_ok path (open_spill path e1 e2) [].
Proof.
  intros H1 H2. unfold open_spill.
  destruct (truthy_opt path) eqn:Hp, (truthy_opt e1) eqn:He; simpl;
    try destruct e2 as [e|]; split; unfold spill_failed, intact; spill_fields;
    rewrite ?Hp ?He ?truthy_opt_Some //.
Qed.

Lemma max_pending_half : (MAX_PENDING_WRITE_BYTES / 2 < MAX_PENDING_WRITE_BYTES)%N.
Proof. reflexivity. Qed.

Lemma spill_when_failed buf w : spill_failed w = true → spill buf w = w.
Proof. intros H. unfold spill, enqueueWrite. rewrite H !andb_false_r. by case_match. Qed.

Lemma spill_ok path w s buf : writer_ok path w s → writer_ok path (spill buf w) (s ++ buf).
Proof.
  intros [Hp He Hpend Hpause Hf Hi]. destruct (spill_failed w) eqn:Hfail.
  - rewrite spill_when_failed //. by split; rewrite ?Hfail.
  - specialize (Hi eq_refl). unfold spill, enqueueWrite, intact in *. rewrite Hp Hfail /=.
    destruct (truthy_opt path) eqn:Htp.
    + destruct Hi as (Ho & Hfd & Hdisk & <- & Hfile & Hoff). rewrite Hfd /=.
      split; unfold spill_failed, intact in *; spill_fields; rewrite ?Hfail ?Htp ?concat_app ?length_app /= ?app_nil_r //.
      * rewrite Hpend. lia.
      * intros [H%Hpause|H%N.ltb_lt]%orb_true_iff; [lia|].
        by eapply N.lt_trans; [apply max_pending_half|].
      * intros _. split_and!; [done..|by rewrite app_assoc| |].
        -- rewrite Hfile take_app_le //. destruct (queue w); simpl in *; rewrite ?length_app; lia.
        -- by destruct (queue w); simpl in *; lia.
    + destruct Hi as (Ho & Hfd & Hq & <-). rewrite Hfd /=.
      split; unfold spill_failed, intact in *; spill_fields; rewrite ?Hfail ?Htp //.
Qed.

Lemma settle_pause fin w q n f h :
  streamPausedForWriter (settle_write fin q n f h w) = true → fin = false →
  (MAX_PENDING_WRITE_BYTES / 2 < pendingWriteBytes (settle_write fin q n f h w))%N.
Proof.
  unfold settle_write. cbn [streamPausedForWriter pendingWriteBytes set_writes].
  intros H ->. destruct (streamPausedForWriter w); [|done].
  destruct (N.leb_spec (pendingWriteBytes w - N.of_nat n) (MAX_PENDING_WRITE_BYTES / 2)); [done|lia].
Qed.

Lemma fail_write_ok path fin e w s :
  told (Some e) → (fin = true → streamPausedForWriter w = false) →
  writer_ok path w s → writer_ok path (fail_write fin e w) s.
Proof.
  intros Ht Hfin [Hp He Hpend Hpause Hf Hi].
  pose proof (spill_failed_set e w Ht He) as Hfail. unfold fail_write.
  split; auto.
  - by apply told_set.
  - unfold settle_write. spill_fields. rewrite Hpend. simpl. lia.
  - destruct fin; [|by intros; apply settle_pause].
    unfold settle_write. spill_fields. by rewrite Hfin.
  - intros H. by rewrite (Hfail : spill_failed (settle_write _ _ _ _ _ _) = true) in H.
Qed.

Lemma write_callback_ok path fin answer w s :
  well_told (WriteCallback answer) → (fin = true → streamPausedForWriter w = false) →
  writer_ok path w s → writer_ok path (write_callback fin answer w) s.
Proof.
  intros Ht Hfin H. unfold write_callback. destruct (queue w) as [|buf q] eqn:Hq; [done|].
  destruct answer as [n|e]; [|apply fail_write_ok; auto; unfold told; simpl in *; congruence].
  case_bool_decide; [by apply fail_write_ok|].
  destruct H as [Hp He Hpend Hpause Hf Hi].
  destruct (spill_failed w) eqn:Hfail; [by rewrite Hf in Hq|]. specialize (Hi eq_refl).
  unfold intact in *. destruct (truthy_opt path) eqn:Htp; [|destruct Hi as (_ & _ & ? & _); congruence].
  rewrite Hq /= in Hi Hpend. destruct Hi as (Ho & Hfd & Hdisk & <- & Hfile & Hoff).
  rewrite take_app_le // in Hfile. rewrite length_app in Hpend.
  destruct (Nat.ltb_spec (offset w + n) (length buf)) as [Hlt|Hge].
  - split; unfold spill_failed, intact; spill_fields;
      rewrite ?Hq ?Htp ?(Hfail : truthy_opt (spillError w) = false) /= ?length_app; auto; [done|].
    intros _. split_and!; auto; [|lia].
    rewrite take_app_le; [|lia]. rewrite Hfile -assoc. f_equal. by rewrite take_take_drop.
  - split; unfold spill_failed, intact; auto.
    + unfold settle_write. spill_fields. rewrite Hpend. lia.
    + destruct fin; [|by intros; apply settle_pause].
      unfold settle_write. spill_fields. by rewrite Hfin.
    + unfold settle_write. spill_fields. by rewrite (Hfail : truthy_opt (spillError w) = false).
    + unfold settle_write. spill_fields. rewrite Htp take_0 app_nil_r -assoc. intros _. split_and!; auto; [|lia].
      rewrite Hfile -assoc. f_equal. rewrite (take_ge (drop _ _)) ?take_drop // length_drop. lia.
Qed.

(** What is left when the drainer has finished without a failure. *)
Definition artifact_settled (sha256 : list Z → string) (path : option string) (d : Drainer) (s : list Z) : Prop :=
  outputHash d = Some (sha256 s) ∧
  (truthy_opt path = true →
    file (spilled d) = s ∧
    file_presence (spilled d) = (if isTruncated (retained d) then on_disk else unlinked) ∧
    recordedFacts d = Some (sha256 s, bytesSeen (retained d))).

Lemma or_fail_ok e w :
  told e → told (spillError w) →
  told (spillError (or_fail e w)) ∧ (spill_failed (or_fail e w) = false → or_fail e w = w).
Proof.
  intros He Hw. destruct e as [e|]; simpl; [|done]. split; [by apply told_set|].
  by rewrite spill_failed_set.
Qed.

Lemma close_spill_ok io w :
  told (fsync_error io) → told (close_error io) → told (spillError w) →
  told (spillError (close_spill io w)) ∧
  (spill_failed (close_spill io w) = false →
    close_spill io w = if spillFd w then set_file false (file_presence w) w else w).
Proof.
  intros H1 H2 Hw. unfold close_spill. destruct (spillFd w); [|done].
  destruct (or_fail_ok _ _ H1 Hw) as [Ht1 Hf1]. destruct (or_fail_ok _ _ H2 Ht1) as [Ht2 Hf2].
  split; [done|]. intros Hf. change (spill_failed (or_fail (close_error io) (or_fail (fsync_error io) w)) = false) in Hf.
  pose proof (Hf2 Hf) as E. rewrite E in Hf |- *. by rewrite (Hf1 Hf).
Qed.

Lemma remove_spill_ok io truncated w :
  told (removeOwnedArtifact_error io) → told (onArtifactDeleted_error io) → told (spillError w) →
  spill_failed (remove_spill io truncated w) = false →
  spill_failed w = false ∧
  remove_spill io truncated w = if ownedSpill w && negb truncated then set_file (spillFd w) unlinked w else w.
Proof.
  intros H1 H2 Hw. unfold remove_spill. destruct (ownedSpill w); simpl; [|done].
  destruct (spill_failed w) eqn:Hf.
  - rewrite orb_true_r. destruct (removeOwnedArtifact_error io); simpl; [by rewrite spill_failed_set|].
    intros Hg. exfalso. pose proof (proj2 (or_fail_ok _ (set_file (spillFd w) unlinked w) H2 Hw) Hg) as E.
    rewrite E in Hg. unfold spill_failed in *. simpl in Hg. congruence.
  - rewrite orb_false_r. destruct truncated; simpl; [done|].
    destruct (removeOwnedArtifact_error io); simpl; [by rewrite spill_failed_set|].
    intros Hg. split; [done|]. by apply (or_fail_ok _ (set_file (spillFd w) unlinked w) H2 Hw).
Qed.

Lemma record_spill_ok io hash seen w :
  told (onArtifactFinalized_error io) → told (spillError w) →
  let r := record_spill io hash seen w in
  told (spillError r.2) ∧ spillFilePath r.2 = spillFilePath w ∧ queue r.2 = queue w ∧
  (spill_failed r.2 = false →
    r.2 = w ∧ r.1 = match hash with Some h => if ownedSpill w then Some (h, seen) else None | None => None end).
Proof.
  intros H1 Hw. unfold record_spill.
  destruct hash, (onArtifactFinalized_error io), (ownedSpill w); simpl; split_and!; auto; try by apply told_set.
  by rewrite spill_failed_set.
Qed.

Lemma spill_same io truncated w :
  (spillFilePath (close_spill io w) = spillFilePath w ∧ queue (close_spill io w) = queue w) ∧
  (spillFilePath (remove_spill io truncated w) = spillFilePath w ∧ queue (remove_spill io truncated w) = queue w).
Proof. unfold close_spill, remove_spill, or_fail. split; by repeat case_match. Qed.

Lemma settle_spill_ok sha256 path io d s :
  well_told (Settle io) → queue (spilled d) = [] → writer_ok path (spilled d) s →
  let d' := settle_spill sha256 io d in
  spillFilePath (spilled d') = path ∧ queue (spilled d') = [] ∧
  (spill_failed (spilled d') = false → artifact_settled sha256 path d' s).
Proof.
  intros (H1 & H2 & H3 & H4 & H5) Hq [Hp He Hpend Hpause Hf Hi]. cbn zeta. unfold settle_spill.
  destruct (close_spill_ok io _ H1 H2 He) as [Hte Hce].
  destruct (spill_same io true (spilled d)) as [[Hp' Hq'] _].
  set (w := close_spill io (spilled d)) in *.
  set (hash := if spill_failed w then None else Some (sha256 (hashed w))).
  pose proof (record_spill_ok io hash (bytesSeen (retained d)) w H3 Hte) as (Htr & Hpr & Hqr & Hr).
  destruct (record_spill io hash _ w) as [facts w']. cbn [spilled fst snd] in *.
  destruct (spill_same io (isTruncated (retained d)) w') as [_ [Hpm Hqm]].
  split_and!; [congruence..|]. intros Hg.
  destruct (remove_spill_ok _ _ _ H4 H5 Htr Hg) as [Hw' Hm]. destruct (Hr Hw') as [-> ->].
  specialize (Hce Hw'). unfold hash. rewrite Hw'. unfold artifact_settled.
  cbn [outputHash spilled recordedFacts retained]. rewrite Hm.
  assert (spill_failed (spilled d) = false) as Hfd by (rewrite Hce in Hw'; by destruct (spillFd (spilled d))).
  specialize (Hi Hfd). unfold intact in Hi. rewrite Hq in Hi.
  destruct (truthy_opt path); rewrite Hce.
  - destruct Hi as (Ho & -> & Hdisk & Hs & Hfile & _). cbn [set_file hashed ownedSpill]. 
    rewrite Ho app_nil_r in Hs |- *. rewrite take_nil app_nil_r Hs in Hfile. rewrite Hs.
    split; [done|]. intros _. by destruct (isTruncated (retained d)).
  - destruct Hi as (_ & -> & _ & ->). done.
Qed.

Section Artifact.
Variable sha256 : list Z → string.
Variable maxBytes : nat.
Variable path : option string.
Notation step := (step sha256 maxBytes).
Notation run := (run_drainer sha256 maxBytes).

Definition drainer_ok (d : Drainer) (s : list Z) : Prop :=
  match stage d with
  | draining => writer_ok path (spilled d) s
  | finalizing => writer_ok path (spilled d) s ∧ streamPausedForWriter (spilled d) = false
  | finished => spillFilePath (spilled d) = path ∧ queue (spilled d) = [] ∧
      (spill_failed (spilled d) = false → artifact_settled sha256 path d s)
  end.

Definition arrived (d : Drainer) (e : DrainerEvent) : list Z :=
  match e with Data chunk => if bool_decide (stage d = draining) then chunk else [] | _ => [] end.

Lemma write_callback_nil fin answer w : queue w = [] → write_callback fin answer w = w.
Proof. unfold write_callback. by intros ->. Qed.

Lemma write_callback_unpaused fin answer w :
  streamPausedForWriter w = false → streamPausedForWriter (write_callback fin answer w) = false.
Proof.
  intros H. unfold write_callback, fail_write, settle_write.
  repeat case_match; spill_fields; rewrite ?H; auto.
Qed.

Lemma step_ok d e s : well_told e → drainer_ok d s → drainer_ok (step d e) (s ++ arrived d e).
Proof.
  unfold drainer_ok. intros He H. destruct e; simpl; rewrite ?app_nil_r.
  - unfold on_data. destruct (stage d) eqn:Hs; rewrite ?Hs ?app_nil_r //; simpl. by apply spill_ok.
  - destruct (stage d) eqn:Hs; simpl.
    + apply write_callback_ok; [done|done|done].
    + destruct H. split; [by apply write_callback_ok|by apply write_callback_unpaused].
    + destruct H as (Hp & Hq & Hok). by rewrite write_callback_nil.
  - unfold doFinalize. destruct (stage d) eqn:Hs; rewrite ?Hs //; simpl. split; [|done].
    destruct H. by split.
  - destruct (stage d) eqn:Hs; simpl; rewrite ?Hs //. case_bool_decide as Hq; rewrite ?Hs //; simpl.
    destruct H as [H _]. pose proof (settle_spill_ok sha256 path io d s He Hq H) as Hok.
    unfold settle_spill in *. by destruct (record_spill _ _ _ _).
Qed.

Lemma stage_step d e : stage (step d e) = draining ↔ stage d = draining ∧ e ≠ StreamEnd.
Proof.
  destruct e; simpl; unfold on_data, doFinalize; destruct (stage d) eqn:Hs; simpl; rewrite ?Hs;
    try (split; [done|by intros []]); try by split.
  case_bool_decide; simpl; rewrite ?Hs; split; try done; try by intros [].
  unfold settle_spill. by destruct (record_spill _ _ _ _).
Qed.

Lemma run_ok es : ∀ d s, Forall well_told es → drainer_ok d s →
  drainer_ok (run d es) (s ++ if bool_decide (stage d = draining) then stream es else []).
Proof.
  induction es as [|e es IH]; intros d s Hes H; simpl.
  - unfold stream. simpl. by case_bool_decide; rewrite app_nil_r.
  - inversion_clear Hes as [|? ? He Hes']. pose proof (IH _ _ Hes' (step_ok _ _ _ He H)) as Hr.
    assert ((if bool_decide (stage d = draining) then stream (e :: es) else [])
      = arrived d e ++ if bool_decide (stage (step d e) = draining) then stream es else []) as ->;
      [|by rewrite app_assoc].
    pose proof (stage_step d e) as Hs. unfold arrived.
    destruct (decide (stage d = draining)) as [Hd|Hd].
    + rewrite (bool_decide_eq_true_2 _ Hd). destruct e.
      4: rewrite bool_decide_eq_true_2; [done|by apply Hs].
      all: try (rewrite bool_decide_eq_true_2; [done|by apply Hs]).
      rewrite bool_decide_eq_false_2; [done|]. intros Hc. by apply Hs in Hc as [_ ?].
    + rewrite (bool_decide_eq_false_2 _ Hd) (bool_decide_eq_false_2 (stage (step d e) = draining));
        [by destruct e|]. intros Hc. by apply Hs in Hc as [? _].
Qed.
End Artifact.

(** *** Backpressure *)

Section Backpressure.
Variable sha256 : list Z → string.
Variable maxBytes : nat.
Variable limit : nat.
Notation step := (step sha256 maxBytes).
Notation run := (run_drainer sha256 maxBytes).

(** A paused stream delivers nothing, and no chunk is longer than the limit. *)
Fixpoint paced (d : Drainer) (es : list DrainerEvent) : Prop :=
  match es with
  | [] => True
  | e :: es' =>
      match e with
      | Data chunk => length chunk ≤ limit ∧ (stage d = draining → streamPausedForWriter (spilled d) = false)
      | _ => True
      end ∧ paced (step d e) es'
  end.

Definition pressure_ok (d : Drainer) : Prop :=
  (pendingWriteBytes (spilled d) ≤ MAX_PENDING_WRITE_BYTES + N.of_nat limit)%N ∧
  (stage d = draining → streamPausedForWriter (spilled d) = false →
    (pendingWriteBytes (spilled d) ≤ MAX_PENDING_WRITE_BYTES)%N).

Lemma write_callback_pressure fin answer w :
  (pendingWriteBytes (write_callback fin answer w) ≤ pendingWriteBytes w)%N ∧
  (streamPausedForWriter (write_callback fin answer w) = false →
    streamPausedForWriter w = false ∨
    (pendingWriteBytes (write_callback fin answer w) ≤ MAX_PENDING_WRITE_BYTES / 2)%N).
Proof.
  assert (∀ q n f h w', pendingWriteBytes w' = pendingWriteBytes w → streamPausedForWriter w' = streamPausedForWriter w →
    (pendingWriteBytes (settle_write fin q n f h w') ≤ pendingWriteBytes w)%N ∧
    (streamPausedForWriter (settle_write fin q n f h w') = false →
      streamPausedForWriter w = false ∨
      (pendingWriteBytes (settle_write fin q n f h w') ≤ MAX_PENDING_WRITE_BYTES / 2)%N)) as Hsettle.
  { intros q n f h w' E1 E2. unfold settle_write. spill_fields. rewrite E1 E2. split; [lia|].
    destruct (streamPausedForWriter w); [|by left]. simpl.
    destruct (N.leb_spec (pendingWriteBytes w - N.of_nat n) (MAX_PENDING_WRITE_BYTES / 2)); simpl; [by right|done]. }
  unfold write_callback, fail_write. destruct (queue w) as [|buf q]; [by split; [|left]|].
  destruct answer as [n|e]; [|by apply Hsettle]. case_bool_decide; [by apply Hsettle|].
  case_match; [by split; [|left]|by apply Hsettle].
Qed.

Lemma step_pressure d e es : paced d (e :: es) → pressure_ok d → pressure_ok (step d e).
Proof.
  intros [Hp _] [Hb Hi]. unfold pressure_ok. destruct e; simpl.
  - unfold on_data. case_bool_decide as Hd; [|done]. destruct Hp as [Hl Hp]. specialize (Hp Hd). specialize (Hi Hd Hp).
    cbn [spilled stage]. unfold spill, enqueueWrite. repeat case_match; spill_fields; rewrite ?Hp; try (split; [lia|auto]).
    intros _ H'. apply N.ltb_ge in H'. exact H'.
  - destruct (write_callback_pressure (negb (bool_decide (stage d = draining))) answer (spilled d)) as [Hle Hpause].
    split; [lia|]. intros Hd Hu. destruct (Hpause Hu) as [Hw|Hw]; [specialize (Hi Hd Hw); lia|].
    pose proof max_pending_half. lia.
  - unfold doFinalize. case_bool_decide; [|done]. by split.
  - case_match; [|done]. unfold settle_spill.
    assert (∀ e w, pendingWriteBytes (or_fail e w) = pendingWriteBytes w) as Hof by by intros [].
    assert (pendingWriteBytes (close_spill io (spilled d)) = pendingWriteBytes (spilled d)) as Ec.
    { unfold close_spill. case_match; spill_fields; rewrite ?Hof //. }
    destruct (record_spill io _ _ _) as [facts w] eqn:Hr. cbn [spilled stage]. split; [|done].
    assert (pendingWriteBytes w = pendingWriteBytes (close_spill io (spilled d))) as Ew.
    { unfold record_spill in Hr. repeat case_match; by simplify_eq. }
    unfold remove_spill. repeat case_match; spill_fields; rewrite ?Hof; spill_fields; lia.
Qed.

Lemma run_pressure es : ∀ d, paced d es → pressure_ok d → pressure_ok (run d es).
Proof.
  induction es as [|e es IH]; intros d Hp H; [done|]. simpl. apply IH; [apply Hp|].
  by eapply step_pressure.
Qed.
End Backpressure.

(** ** The properties *)

Section Properties.
Variable sha256 : list Z → string.
Variable maxBytes : nat.
Variable path : option string.
Variables initError openError : option string.
Notation drained_by es :=
  (run_drainer sha256 maxBytes (setupStreamDrainer maxBytes path initError openError) es).

(** C17. The drainer refines its stream: whatever the chunks the bytes came in, whatever the writer of
    the artifact was doing and whenever the end came, the content and the byte count of the result are those
    of the bytes that arrived before the end, and an output that is not shown whole is flagged as
    truncated. *)
Theorem content_refines_stream (es : list DrainerEvent) :
  let result := getResult maxBytes (drained_by es) in
  res_content result = shown maxBytes (stream es) ∧
  res_bytesSeen result = length (stream es) ∧
  (res_isTruncated result = true ∨ res_content result = whole (stream es)).
Proof.
  pose proof (run_holds sha256 maxBytes path initError openError es) as H. simpl.
  rewrite (content_shown _ _ _ H). split_and!; [done|apply H|]. unfold shown.
  destruct (Nat.leb_spec (length (stream es)) (headMaxBytes maxBytes)); [by right|left].
  by apply (holds_cut _ _ _ H).
Qed.

(** A truncated output is whole characters from both ends: when the stream is a sequence of UTF-8
    characters longer than the limit, what is shown is a first part of them, the marker and a last part,
    the marker counts exactly the bytes left out between the two, and each end gives up less than four bytes
    of its share to end at a character. *)
Theorem truncated_content_is_whole_characters (es : list DrainerEvent) (cs : list (list Z))
    (Hcs : Forall character cs) (Hs : stream es = concat cs) (Hlong : maxBytes < length (stream es)) :
  ∃ before middle after, cs = before ++ middle ++ after ∧
    res_content (getResult maxBytes (drained_by es))
      = elided (concat before) (length (concat middle)) (concat after) ∧
    length (concat before) ≤ headMaxBytes maxBytes < length (concat before) + 4 ∧
    length (concat after) ≤ tailMaxBytes maxBytes < length (concat after) + 4.
Proof.
  pose proof (bounds_sum maxBytes) as Hsum. simpl. rewrite (content_shown _ _ _ (run_holds sha256 maxBytes path initError openError es)).
  rewrite Hs in Hlong |- *.
  destruct (trim_cut cs (headMaxBytes maxBytes)) as (b1 & a1 & E1 & Ht & Hb1); [done|lia|].
  assert (∃ b2 a2, cs = b2 ++ a2 ∧ trimStartToValidUtf8 (lastn (tailMaxBytes maxBytes) (concat cs)) = concat a2 ∧
    length (concat b2) < length (concat cs) - tailMaxBytes maxBytes + 4 ∧
    length (concat cs) - tailMaxBytes maxBytes ≤ length (concat b2)) as (b2 & a2 & E2 & Ht2 & Hb2 & Hb2').
  { destruct (tailMaxBytes maxBytes) as [|t] eqn:Htl.
    - exists cs, []. rewrite app_nil_r /lastn Nat.sub_0_r drop_all. split_and!; auto; lia.
    - apply trimStart_cut; [done|lia]. }
  destruct (cuts_nested b1 a1 b2 a2) as (mid & -> & ->); [congruence|by rewrite -E1|lia|].
  exists b1, mid, a2. split; [done|].
  assert (length (concat cs) = length (concat b1) + length (concat mid) + length (concat a2)) as Hl.
  { rewrite E1 !concat_app !length_app. lia. }
  assert (length (concat (b1 ++ mid)) = length (concat b1) + length (concat mid)) as Hl'.
  { by rewrite concat_app length_app. }
  split; [|lia]. unfold shown.
  destruct (Nat.leb_spec (length (concat cs)) (headMaxBytes maxBytes)); [lia|].
  destruct (Nat.leb_spec (length (concat cs)) maxBytes); [lia|].
  rewrite Ht Ht2. f_equal. lia.
Qed.

(** C40. The bound on what is kept and shown: the buffers never hold more than the limit, and with a limit
    of at least 176 bytes the content, marker included, is within it, for a stream of less than 10^16 bytes
    (a smaller limit leaves no room for the marker, a longer stream makes it longer). *)
Theorem content_within_limit (es : list DrainerEvent)
    (Hmax : 176 ≤ maxBytes) (Hs : (N.of_nat (length (stream es)) < 10 ^ 16)%N) :
  length (concat (headChunks (retained (drained_by es)))) + length (tailRing (retained (drained_by es))) ≤ maxBytes ∧
  content_length (res_content (getResult maxBytes (drained_by es))) ≤ maxBytes.
Proof.
  pose proof (run_holds sha256 maxBytes path initError openError es) as H. split.
  - pose proof (bounds_sum maxBytes). destruct H as [-> _ _ [(_ & _ & ->)|Hr] _].
    + rewrite length_take /=. lia.
    + rewrite length_take (ring_length _ _ _ _ _ Hr). lia.
  - simpl. rewrite (content_shown _ _ _ H). by apply shown_length.
Qed.

(** The artifact is the output: when a drainer has finished and reports no spill error, its hash is
    that of the whole stream; and when it was given a path, the file had received the whole stream, its
    recorded facts are that hash and that size, and it stays on disk, as the reference of the result, if and
    only if the stream is longer than the head that is kept. *)
Theorem spilled_artifact_is_the_stream (es : list DrainerEvent)
    (Hinit : told initError) (Hopen : told openError) (Htold : Forall well_told es)
    (Hchunks : Forall (λ c, c ≠ []) (drained es))
    (Hfin : stage (drained_by es) = finished) (Hok : spill_failed (spilled (drained_by es)) = false) :
  let d := drained_by es in
  let result := getResult maxBytes d in
  let long := headMaxBytes maxBytes <? length (stream es) in
  res_outputHash result = Some (sha256 (stream es)) ∧
  res_outputRef result = (if long && truthy_opt path then path else None) ∧
  (truthy_opt path = true →
    file (spilled d) = stream es ∧ file_presence (spilled d) = (if long then on_disk else unlinked) ∧
    recordedFacts d = Some (sha256 (stream es), length (stream es))).
Proof.
  cbn zeta.
  pose proof (run_ok sha256 maxBytes path es (setupStreamDrainer maxBytes path initError openError) [] Htold
    (open_spill_ok path _ _ Hinit Hopen)) as H.
  unfold drainer_ok in H. rewrite Hfin in H. simpl in H. destruct H as (Hp & _ & H).
  destruct (H Hok) as [Hh Hfile].
  pose proof (holds_seen _ _ _ (run_holds sha256 maxBytes path initError openError es)) as Hseen.
  assert (isTruncated (retained (drained_by es)) = (headMaxBytes maxBytes <? length (stream es))) as Ht.
  { rewrite run_retained //. apply (foldl_truncated maxBytes (drained es) _ []); [apply no_bytes_holds|done|done]. }
  simpl. rewrite Hok Hp -Ht -Hseen andb_true_r. auto.
Qed.

(** Backpressure bounds the writer and never stalls: while a paused stream delivers nothing, the bytes
    waiting for the file never exceed one megabyte and one chunk; and a live stream is paused only while more
    than half a megabyte is waiting, so a write is in flight whose answer can resume it. *)
Theorem writer_backpressure (limit : nat) (es : list DrainerEvent)
    (Hinit : told initError) (Hopen : told openError) (Htold : Forall well_told es)
    (Hpaced : paced sha256 maxBytes limit (setupStreamDrainer maxBytes path initError openError) es) :
  let d := drained_by es in
  (pendingWriteBytes (spilled d) ≤ 1048576 + N.of_nat limit)%N ∧
  (stage d = draining → streamPausedForWriter (spilled d) = true →
    (524288 < pendingWriteBytes (spilled d))%N ∧ queue (spilled d) ≠ []).
Proof.
  cbn zeta. split.
  - apply (run_pressure sha256 maxBytes limit es); [done|]. unfold pressure_ok. simpl. unfold open_spill.
    repeat case_match; simpl; split; intros; lia.
  - intros Hd Hp.
    pose proof (run_ok sha256 maxBytes path es (setupStreamDrainer maxBytes path initError openError) [] Htold
      (open_spill_ok path _ _ Hinit Hopen)) as H.
    unfold drainer_ok in H. rewrite Hd in H. destruct H as [_ _ Hpend Hpause _ _].
    specialize (Hpause Hp). change (MAX_PENDING_WRITE_BYTES / 2)%N with 524288%N in Hpause.
    split; [done|]. intros Hq. rewrite Hq /= in Hpend. lia.
Qed.
End Properties.

(** ** Concrete runs *)

(** Two hundred bytes are the limit; the stream ends in a cut four-byte character. *)
Definition sample_stream : list DrainerEvent :=
  [Data (replicate 120 65%Z); WriteCallback (Ok 100); Data (replicate 150 66%Z); WriteCallback (Ok 20);
   Data [240%Z; 159%Z; 146%Z; 169%Z]; WriteCallback (Ok 150); WriteCallback (Ok 4); StreamEnd;
   Data [10%Z]; Settle (mkFinalizeAnswers None None None None None)].
Definition sample_hash (bytes : list Z) : string := pretty (length bytes).
Notation sample_run :=
  (run_drainer sample_hash 200 (setupStreamDrainer 200 (Some "/d/op-stdout.log") None None) sample_stream).

Example sample_content :
  content_length (res_content (getResult 200 sample_run)) = 181 ∧
  res_outputHash (getResult 200 sample_run) = Some "274" ∧
  file_presence (spilled sample_run) = on_disk.
Proof. by vm_compute. Qed.

(** A limit of 80 bytes leaves 20 for the marker, which is longer. *)
Example small_limit_exceeded :
  content_length (content 80 (retain 80 (no_bytes 80) (replicate 300 65%Z))) = 91.
Proof. by vm_compute. Qed.

Definition sample_characters : list (list Z) :=
  replicate 120 [65%Z] ++ replicate 150 [66%Z] ++ [[240%Z; 159%Z; 146%Z; 169%Z]].
Lemma sample_characters_ok : Forall character sample_characters.
Proof.
  unfold sample_characters. rewrite !Forall_app. split_and!.
  - apply Forall_replicate. simpl. by split; [left|constructor].
  - apply Forall_replicate. simpl. by split; [left|constructor].
  - apply Forall_singleton. split; [right; split; [reflexivity|]|by repeat constructor].
    by apply Nat.leb_le.
Qed.

Lemma truncated_content_is_whole_characters_witness :
  ∃ before middle after, sample_characters = before ++ middle ++ after ∧
    res_content (getResult 200 sample_run)
      = elided (concat before) (length (concat middle)) (concat after) ∧
    length (concat before) ≤ headMaxBytes 200 < length (concat before) + 4 ∧
    length (concat after) ≤ tailMaxBytes 200 < length (concat after) + 4.
Proof.
  apply (truncated_content_is_whole_characters sample_hash 200 (Some "/d/op-stdout.log") None None
    sample_stream sample_characters); [apply sample_characters_ok|reflexivity|].
  apply Nat.ltb_lt. reflexivity.
Defined.

Lemma content_within_limit_witness :
  length (concat (headChunks (retained sample_run))) + length (tailRing (retained sample_run)) ≤ 200 ∧
  content_length (res_content (getResult 200 sample_run)) ≤ 200.
Proof. apply content_within_limit; [lia|reflexivity]. Defined.

Lemma spilled_artifact_is_the_stream_witness :
  res_outputHash (getResult 200 sample_run) = Some (sample_hash (stream sample_stream)) ∧
  res_outputRef (getResult 200 sample_run)
    = (if (headMaxBytes 200 <? length (stream sample_stream)) && truthy_opt (Some "/d/op-stdout.log")
       then Some "/d/op-stdout.log" else None) ∧
  (truthy_opt (Some "/d/op-stdout.log") = true →
    file (spilled sample_run) = stream sample_stream ∧
    file_presence (spilled sample_run)
      = (if headMaxBytes 200 <? length (stream sample_stream) then on_disk else unlinked) ∧
    recordedFacts sample_run = Some (sample_hash (stream sample_stream), length (stream sample_stream))).
Proof.
  apply (spilled_artifact_is_the_stream sample_hash 200 (Some "/d/op-stdout.log") None None sample_stream);
    [done|done|by repeat constructor|by repeat constructor|reflexivity|reflexivity].
Defined.

Lemma writer_backpressure_witness :
  (pendingWriteBytes (spilled sample_run) ≤ 1048576 + N.of_nat 150)%N ∧
  (stage sample_run = draining → streamPausedForWriter (spilled sample_run) = true →
    (524288 < pendingWriteBytes (spilled sample_run))%N ∧ queue (spilled sample_run) ≠ []).
Proof.
  apply (writer_backpressure sample_hash 200 (Some "/d/op-stdout.log") None None 150 sample_stream);
    [done|done|by repeat constructor|].
  assert (∀ n, n <=? 150 = true → n ≤ 150) as Hle by (intros n; apply Nat.leb_le).
  repeat split; try (by apply Hle); done.
Defined.
