(* ===== verification/Supervisor.v ===== *)
(** * Supervisor: admission, replay and the single writer of results

    (src/src/supervisor/: admission.ts, finalize.ts, fingerprint.ts, replay.ts,
    types.ts, and the entry of supervisor.ts.) The platform driver is what the
    supervisor asks of its name and capabilities; the hash of the standard input,
    the collation of [localeCompare] and the confinement drivers are arguments. *)

From stdpp Require Import sorting.
From S2P Require Import Prelude Types Events Encode Config Store Paths Capability Domain Authority Rollback Recovery.

(** ** Options and drivers *)

Record StructuredCommand := mkStructuredCommand {
  sc_execPath : string;
  sc_args : list string;
  sc_cwd : string;
  sc_stdin : option string;
  sc_envWhiteList : option (list (string * string));
  sc_inheritEnv : option bool;
  sc_secretEnv : option (list (string * string));
  sc_hardLimits : option (option Z * option Z); (* memoryMaxBytes, pidsMax *)
}.

Record ConfinementDriver := mkConfinementDriver {
  cd_name : string;
  cd_wrap : StructuredCommand → list string → StructuredCommand;
}.
(** [confinement?: boolean | string] *)
Inductive ConfinementRequest := conf_bool (b : bool) | conf_name (name : string).

Record ExecuteProcessOptions := mkExecuteProcessOptions {
  eo_runId : string;
  eo_opId : string;
  eo_name : string;
  eo_command : StructuredCommand;
  eo_requiredResources : option (list string);
  eo_mutationRoots : option (list string);
  eo_capabilityId : option string;
  eo_capabilityWorkspace : option string;
  eo_capabilitySecretRefs : option (list string);
  eo_capabilityPolicyVersion : option string;
  eo_confinement : option ConfinementRequest;
  eo_confinementDriver : option ConfinementDriver;
  eo_timeoutMs : option Z;
  eo_inputFingerprint : option string;
  eo_maxOutputBytes : option Z;
  eo_drainTimeoutMs : option Z;
  eo_resourceBudget : option ResourceBudget;
  eo_waitTimeoutMs : option Z;
  eo_trackReads : option (list string * option string); (* roots, statCaches *)
  eo_abortSignal : option bool; (* already aborted? *)
}.

Definition set_scope (resources secretRefs : option (list string)) (o : ExecuteProcessOptions)
  : ExecuteProcessOptions :=
  mkExecuteProcessOptions (eo_runId o) (eo_opId o) (eo_name o) (eo_command o) resources
    (eo_mutationRoots o) (eo_capabilityId o) (eo_capabilityWorkspace o) secretRefs
    (eo_capabilityPolicyVersion o) (eo_confinement o) (eo_confinementDriver o) (eo_timeoutMs o)
    (eo_inputFingerprint o) (eo_maxOutputBytes o) (eo_drainTimeoutMs o) (eo_resourceBudget o)
    (eo_waitTimeoutMs o) (eo_trackReads o) (eo_abortSignal o).

(** What the supervisor reads of a [PlatformDriver] without calling it. *)
Record PlatformDriver := mkPlatformDriver {
  pd_facts : DriverFacts;
  pd_recoveryFacts : DriverCapabilityFacts;
  pd_secretResolution : bool;
  pd_memoryHardLimit : bool;
  pd_pidsLimit : bool;
  pd_cpuLimit : bool;
  pd_sampleMetrics : bool; (* the method is there *)
  pd_readLimitEvents : bool;
}.
Definition pd_name (d : PlatformDriver) : string := df_name (pd_facts d).

(** ** The state of an operation in flight (types.ts) *)

Inductive Phase :=
| ph_waiting_resources | ph_intent_registered | ph_spawning | ph_active | ph_stopping | ph_done.
#[export] Instance Phase_eq_dec : EqDecision Phase.
Proof. solve_decision. Defined.
Definition phase_name (p : Phase) : string :=
  match p with
  | ph_waiting_resources => "waiting_resources" | ph_intent_registered => "intent_registered"
  | ph_spawning => "spawning" | ph_active => "active" | ph_stopping => "stopping" | ph_done => "done"
  end.

(** [stopPromise]: absent, promised by a cancellation that came before the process
    was active, waiting for the driver, or settled. *)
Inductive StopPromise :=
| stop_none
| stop_promised
| stop_pending
| stop_settled (o : outcome error StopProcessResult).
Definition has_stop (s : StopPromise) : bool := match s with stop_none => false | _ => true end.

Record Flight := mkFlight {
  fl_opId : string;
  fl_runId : string;
  fl_phase : Phase;
  fl_startTime : Z;
  fl_inputFingerprint : string;
  fl_handle : option ProcessIdentity;
  fl_cancelRequested : bool;
  fl_cancelGraceMs : option Z;
  fl_timedOut : bool;
  fl_terminationReason : option TerminationReason;
  fl_resourceSamplingError : option string;
  fl_stop : StopPromise;
}.

(** ** finalize.ts *)

Definition RESIDUAL_PID_GUIDANCE : string :=
  "Residual PID detected. Inspect system processes manually before releasing resources.".

Definition indeterminateResult (now startTime : Z) (reason : string) (capabilityId recoveryGuidance : option string)
    (terminationReason : option TerminationReason) (resourceSamplingError : option string) : OperationResult :=
  mkOperationResult (mkBaseResult (now - startTime) (Iso now) false None capabilityId)
    (RIndeterminate (mkIndeterminateResult terminationReason (or_undef resourceSamplingError) reason
      (nullish recoveryGuidance RESIDUAL_PID_GUIDANCE) None)).

Definition set_base (f : BaseResult → BaseResult) (r : OperationResult) : OperationResult :=
  mkOperationResult (f (res_base r)) (res_body r).

(** [result.runId = existing.runId], and the capability of the operation unless
    the result names one. *)
Definition adopt_ids (existing : Operation) (r : OperationResult) : OperationResult :=
  set_base (λ b, mkBaseResult (res_durationMs b) (res_completedAt b) (res_replayed b)
    (Some (op_runId existing))
    (match or_undef (op_capabilityId existing), or_undef (res_capabilityId b) with
     | Some c, None => Some c
     | _, _ => res_capabilityId b
     end)) r.

Definition result_terminationReason (r : OperationResult) : option TerminationReason :=
  match res_body r with
  | RIndeterminate i => ir_terminationReason i
  | RProcess p => pr_terminationReason p
  | _ => None
  end.

Definition finalizeOperation (now : Z) (cancelled : nat → bool) (opId : string) (result : OperationResult)
    (requiredResources : option (list string)) (releaseResourceLock : bool) : DM OperationResult :=
  existing ← on_store (getOperation opId);
  when (match existing with Some op => op_done op | None => false end)
    (throw (Err "Cannot finalize operation: operation is already finalized"));;
  let result := match existing with Some op => adopt_ids op result | None => result end in
  if is_indeterminate result then
    on_store (recordOperationResult now opId result false);;
    op ← on_store (getOperation opId);
    match op with
    | Some op => on_store (updateRunStatus now (op_runId op) run_indeterminate (result_terminationReason result) None)
    | None => mret tt
    end;;
    mret result
  else
    on_store (recordOperationResult now opId result true);;
    when releaseResourceLock (internalReleaseResources now cancelled opId requiredResources);;
    mret result.

(** ** replay.ts *)

Definition replayed_result (runId : option string) (r : OperationResult) : OperationResult :=
  set_base (λ b, mkBaseResult (res_durationMs b) (res_completedAt b) true
    (match runId with Some id => Some id | None => res_runId b end) (res_capabilityId b)) r.

(** Up to the wait for the flight; what it returns is what the flight returned,
    as [replayed_result None]. *)
Definition joinInFlight (now : Z) (inFlight : Flight) (o : ExecuteProcessOptions) (inputFingerprint : string)
  : DM unit :=
  throw_if (negb (bool_decide (fl_inputFingerprint inFlight = inputFingerprint)))
    (OperationIdConflictError (eo_opId o) (fl_inputFingerprint inFlight) inputFingerprint (fl_runId inFlight));;
  d ← get_state;
  on_store (recordReplay now (dom_id d) (eo_opId o) mode_joined (eo_runId o));;
  throw_if (bool_decide (eo_abortSignal o = Some true)) (Err "Operation wait aborted").

Definition replayRecorded (now : Z) (o : ExecuteProcessOptions) (inputFingerprint : string)
  : DM (option OperationResult) :=
  existingRecorded ← on_store (getOperation (eo_opId o));
  match existingRecorded with
  | None => mret None
  | Some existing =>
      throw_if (negb (bool_decide (op_inputFingerprint existing = inputFingerprint)))
        (OperationIdConflictError (eo_opId o) (op_inputFingerprint existing) inputFingerprint (op_runId existing));;
      throw_if (negb (op_done existing))
        (RecoveryRequiredError (eo_opId o) (op_status existing) (op_runId existing));;
      match op_result existing with
      | Some result =>
          match res_body result with
          | RProcess _ | RIndeterminate _ =>
              d ← get_state;
              on_store (recordReplay now (dom_id d) (eo_opId o)
                (if is_indeterminate result then mode_indeterminate else mode_recorded) (eo_runId o));;
              mret (Some (replayed_result (Some (op_runId existing)) result))
          | _ => throw (Err "Cannot replay process operation: stored process result has an incompatible kind")
          end
      | None => throw (Err "Cannot replay process operation: stored process result is missing")
      end
  end.

(** ** fingerprint.ts *)

Section Fingerprint.
Context `{Crypto} `{FileSystem}.
Variable sha256 : string → string.
Variable localeCompare_sort : list (string * string) → list (string * string).

Definition normalizeResourceName (res : string) : string :=
  if startsWith res "workspace:write:" then
    let raw := slice_from 16 res in
    "workspace:write:" +:+ nullish (fs_realpathSync raw) (render (resolve_path raw))
  else res.

Definition env_le (a b : string * string) : Prop := String.leb a.1 b.1 = true.
#[export] Instance env_le_dec a b : Decision (env_le a b).
Proof. unfold env_le. apply _. Defined.

Definition js_pairs (l : list (string * string)) : jsval :=
  JArr (map (λ kv, JArr [JStr kv.1; JStr kv.2]) l).
(** [x ?? null] *)
Definition or_null {A} (f : A → jsval) (o : option A) : jsval :=
  match o with Some a => f a | None => JNull end.

Definition canonical_budget (b : ResourceBudget) : jsval := JObj
  [("enforcement", JStr (enforcement_name (enforcement b))); ("maxCpuTimeMs", or_null JZ (maxCpuTimeMs b));
   ("maxMemoryBytes", or_null JZ (maxMemoryBytes b)); ("maxOutputBytes", or_null JZ (maxOutputBytes b));
   ("maxPids", or_null JZ (maxPids b))].

Definition canonical_options (o : ExecuteProcessOptions) : jsval :=
  let cmd := eo_command o in
  JObj [("args", js_strings (sc_args cmd)); ("cwd", JStr (sc_cwd cmd));
    ("envWhiteList", or_null (js_pairs ∘ merge_sort env_le) (sc_envWhiteList cmd));
    ("secretEnv", or_null (js_pairs ∘ localeCompare_sort) (sc_secretEnv cmd));
    ("execPath", JStr (sc_execPath cmd)); ("inheritEnv", or_null JBool (sc_inheritEnv cmd));
    ("requiredResources", js_strings (sort_strings (nullish (eo_requiredResources o) [])));
    ("resourceBudget", or_null canonical_budget (eo_resourceBudget o));
    ("stdinHash", or_null (JStr ∘ sha256) (sc_stdin cmd)); ("timeoutMs", or_null JZ (eo_timeoutMs o));
    ("capabilityId", or_null JStr (eo_capabilityId o));
    ("capabilityWorkspace", or_null JStr (eo_capabilityWorkspace o));
    ("capabilitySecretRefs", js_strings (sort_strings (nullish (eo_capabilitySecretRefs o) [])));
    ("capabilityPolicyVersion", or_null JStr (eo_capabilityPolicyVersion o))].

Definition computeInputFingerprint (o : ExecuteProcessOptions) : string := sha256_json (canonical_options o).
End Fingerprint.

(** ** admission.ts *)

Definition assertSecretResolverSupported (driver : PlatformDriver) (c : StructuredCommand) : outcome error unit :=
  match sc_secretEnv c with
  | Some (_ :: _) =>
      if pd_secretResolution driver then Ok tt
      else Throw (UnsupportedCapabilityError "secretResolver" (pd_name driver) "secretEnv")
  | _ => Ok tt
  end.

Definition nonzero (o : option Z) : bool := negb (is_undef (or_undef_Z o)).

Definition assertBudgetSupported (driver : PlatformDriver) (budget : option ResourceBudget) : outcome error unit :=
  match budget with
  | None => Ok tt
  | Some b =>
      if bool_decide (enforcement b = soft)
          && (nonzero (maxMemoryBytes b) || nonzero (maxCpuTimeMs b) || nonzero (maxPids b))
          && negb (pd_sampleMetrics driver)
      then Throw (UnsupportedCapabilityError "resourceMetrics" (pd_name driver) "soft")
      else if negb (bool_decide (enforcement b = hard)) then Ok tt
      else if nonzero (maxMemoryBytes b) && negb (pd_memoryHardLimit driver)
      then Throw (UnsupportedCapabilityError "memoryHardLimit" (pd_name driver) "hard")
      else if nonzero (maxPids b) && negb (pd_pidsLimit driver)
      then Throw (UnsupportedCapabilityError "pidsLimit" (pd_name driver) "hard")
      else if nonzero (maxCpuTimeMs b) && negb (pd_cpuLimit driver)
      then Throw (UnsupportedCapabilityError "cpuLimit" (pd_name driver) "hard")
      else Ok tt
  end.

Definition withHardLimits (c : StructuredCommand) (budget : option ResourceBudget) : StructuredCommand :=
  match budget with
  | Some b =>
      if bool_decide (enforcement b = hard) && (nonzero (maxMemoryBytes b) || nonzero (maxPids b)) then
        mkStructuredCommand (sc_execPath c) (sc_args c) (sc_cwd c) (sc_stdin c) (sc_envWhiteList c)
          (sc_inheritEnv c) (sc_secretEnv c)
          (Some (or_undef_Z (maxMemoryBytes b), or_undef_Z (maxPids b)))
      else c
  | None => c
  end.

Section Admit.
Context `{Crypto} `{FileSystem}.
Variable createConfinementDriver : option string → option ConfinementDriver.

Definition resolveConfinementDriver (o : ExecuteProcessOptions) (supervisorDefault : option ConfinementDriver)
  : outcome error (option ConfinementDriver) :=
  match eo_confinementDriver o with
  | Some d => Ok (Some d)
  | None =>
      match eo_confinement o with
      | Some (conf_name name) =>
          match createConfinementDriver (Some name) with
          | Some d => Ok (Some d)
          | None => Throw (Err "Confinement driver is not available on this platform")
          end
      | Some (conf_bool true) =>
          match supervisorDefault with
          | Some d => Ok (Some d)
          | None =>
              match createConfinementDriver None with
              | Some d => Ok (Some d)
              | None => Throw (Err "Confinement was requested but no confinement driver is available on this platform")
              end
          end
      | _ => Ok supervisorDefault
      end
  end.

Definition assertRunAcceptsOperations (runId : string) : DM unit :=
  callingRun ← on_store (getRun runId);
  match callingRun with
  | None => throw (Err "Run is not registered in domain")
  | Some run => throw_if (run_is_terminal (run_status run))
      (Err "Cannot register operation because the Run is already finalized")
  end.

Definition requested_limits (budget : option ResourceBudget) : PartialLimits :=
  mkPartialLimits (budget ≫= maxCpuTimeMs) (budget ≫= maxMemoryBytes) (budget ≫= maxOutputBytes)
    (Some 1%Z) (budget ≫= maxPids).

Definition workspace_roots (resources : list string) : list string :=
  map (slice_from 16) (List.filter (λ r, startsWith r "workspace:write:") resources).

(** The options it has rewritten, the mutation roots and the admission; [None]:
    the walk up the parents has not ended within the fuel. *)
Definition admitProcessScope (fuel : nat) (now : Z) (o : ExecuteProcessOptions)
  : DM (option (ExecuteProcessOptions * option (list string) * option CapabilityAdmissionResult)) :=
  let commandSecretRefs := map snd (nullish (sc_secretEnv (eo_command o)) []) in
  match or_undef (eo_capabilityId o) with
  | Some capabilityId =>
      let secretRefs := match commandSecretRefs with
        | [] => eo_capabilitySecretRefs o
        | _ => Some (js_set (nullish (eo_capabilitySecretRefs o) [] ++ commandSecretRefs))
        end in
      let declared := nullish (eo_mutationRoots o) [] in
      let candidateRoots := match declared with
        | [] => if truthy_str (sc_cwd (eo_command o)) then [sc_cwd (eo_command o)] else []
        | _ => declared
        end in
      r ← dom_checkCapabilityAdmission fuel now capabilityId (eo_requiredResources o)
        (match candidateRoots with [] => None | _ => Some candidateRoots end)
        (Some "proc.spawn") (eo_capabilityWorkspace o) secretRefs
        (Some (requested_limits (eo_resourceBudget o))) (eo_capabilityPolicyVersion o)
        (Some (eo_runId o)) (Some (eo_opId o));
      mret ((λ a, (set_scope (Some (ar_effectiveResources a)) secretRefs o,
        Some (ar_effectiveMutationRoots a), Some a)) <$> r)
  | None =>
      let resources := map normalizeResourceName (nullish (eo_requiredResources o) []) in
      mret (Some (set_scope (Some resources) (eo_capabilitySecretRefs o) o,
        Some (match eo_mutationRoots o with
              | Some ((_ :: _) as roots) => roots
              | _ => workspace_roots resources
              end), None))
  end.
End Admit.
