(* ===== verification/ProcessRun.v ===== *)
(** * ProcessRun: the supervision of one process

    (src/src/supervisor/: process-run.ts, process-monitor.ts, process-output.ts, the
    stop pipeline of supervisor.ts, and driver/tree-settlement.ts.) A run is where
    its [async] function waits, next to the state of its operation in flight and the
    domain it shares. It moves on the answers it waits for, and on what happens
    beside it: a cancellation, the answer of the driver to the stop pipeline, a
    sample of its resources, its output, the calls others make on the domain.
    Between two awaits the code runs without interleaving, as an event does here.
    [told] is a history variable: the events the run has taken, newest last. *)

From stdpp Require Import pretty.
From S2P Require Import Prelude Types Events Encode Config Store Paths Capability Domain Authority Rollback Recovery Drainer Supervisor.

(** ** The plan and the facts of a run *)

Record ProcessRunPlan := mkProcessRunPlan {
  plan_options : ExecuteProcessOptions;
  plan_op : Operation;
  plan_driver : PlatformDriver;
  plan_confined : bool;
  plan_confinementDriverName : option string;
  plan_capAdmission : option CapabilityAdmissionResult;
}.

Record ExitFacts := mkExitFacts { exitCode : option Z; exitSignal : option string }.
Record Metrics := mkMetrics { rssBytes : Z; pidsCount : Z; cpuTimeMs : Z }.

Inductive RootOutcome :=
| root_exit (e : ExitFacts)
| root_timeout
| root_stop (s : StopProcessResult).

(** What [drainOrReap] has established. *)
Record Drained := mkDrained {
  dr_exit : ExitFacts;
  dr_natural : bool;
  dr_residualProcessesReaped : bool;
  dr_treeSettlement : option TreeSettlement;
  dr_unreapedPids : option (list Z);
}.

Record Sampler := mkSampler {
  peakMemoryBytes : Z;
  peakCpuTimeMs : Z;
  sampler_observed : bool;
  samplingError : option string;
  sampler_stopped : bool;
}.

(** What is left of the streams: the results of the two drainers, the error of the
    artifacts directory, the first error of a stream subscriber and the evidence of
    the reads, whose collection may throw. *)
Record OutputCapture := mkOutputCapture {
  cap_stdout : StreamDrainerResult;
  cap_stderr : StreamDrainerResult;
  artifactsDirError : option string;
  callbackError : option string;
  readEvidence : outcome error (option ReadEvidence);
}.

(** Where the run waits. *)
Inductive RunPc :=
| at_allocate
| at_spawn
| at_abort_stop (err : error)
| at_abort_exit (err : error) (s : StopProcessResult)
| at_race (early : bool) (* was there a stop promise when the race began? *)
| at_sampler (o : RootOutcome)
| at_exit_after_stop
| at_timeout_stop
| at_timeout_exit (s : StopProcessResult)
| at_drain (e : ExitFacts) (natural : bool)
| at_reap (e : ExitFacts)
| at_drain_again (e : ExitFacts) (unreaped : option (list Z))
| at_settle (e : ExitFacts)
| at_settle_stop (e : ExitFacts)
| at_escaped (e : ExitFacts)
| at_hits (d : Drained)
| at_verify (d : Drained)
| at_stop_result (r : OperationResult) (read : outcome error (option ReadEvidence))
| ended (o : outcome error OperationResult).

Inductive RunEvent :=
| Allocated (o : outcome error unit) (beginReads : option error)
| Spawned (o : outcome error ProcessIdentity) (releaseGate : option error)
| AbortStopped (o : outcome error StopProcessResult)
| AbortExitWaited
| RootExited (e : ExitFacts)
| TimeoutFired
| StopSeen
| SamplerSettled (pendingError : option string) (final : outcome string Metrics)
| ExitWaited (e : option ExitFacts)
| DrainWaited (drained : bool)
| Terminated (o : outcome error StopProcessResult)
| TreeAnswered (o : outcome error TreeAnswer)
| HitsRead (o : outcome error (option (Z * Z))) (* memoryOomKills, pidsMaxHits *)
| IdentityVerified (o : outcome error IdentityVerificationResult) (capture : OutputCapture)
| Cancel (graceMs : Z)
| PipelineStopped (o : outcome error StopProcessResult)
| Sampled (o : outcome string Metrics) (hits : outcome string (option (Z * Z)))
| OutputSeen (bytes : Z)
| Elsewhere (d : ExecutionDomain).

(** ** Methods on the domain and the flight *)

Definition World : Type := ExecutionDomain * Flight.
Notation PM := (ST error World).
Definition on_domain {A} (m : DM A) : PM A := focus fst (λ d w, (d, w.2)) m.
Definition flight : PM Flight := gets snd.
Definition set_flight (f : Flight → Flight) : PM unit := modify (λ w, (w.1, f w.2)).

Definition set_phase (p : Phase) (f : Flight) : Flight :=
  mkFlight (fl_opId f) (fl_runId f) p (fl_startTime f) (fl_inputFingerprint f) (fl_handle f)
    (fl_cancelRequested f) (fl_cancelGraceMs f) (fl_timedOut f) (fl_terminationReason f)
    (fl_resourceSamplingError f) (fl_stop f).
Definition set_handle (i : ProcessIdentity) (f : Flight) : Flight :=
  mkFlight (fl_opId f) (fl_runId f) (fl_phase f) (fl_startTime f) (fl_inputFingerprint f) (Some i)
    (fl_cancelRequested f) (fl_cancelGraceMs f) (fl_timedOut f) (fl_terminationReason f)
    (fl_resourceSamplingError f) (fl_stop f).
Definition set_cancel (graceMs : option Z) (f : Flight) : Flight :=
  mkFlight (fl_opId f) (fl_runId f) (fl_phase f) (fl_startTime f) (fl_inputFingerprint f) (fl_handle f)
    true graceMs (fl_timedOut f) (fl_terminationReason f) (fl_resourceSamplingError f) (fl_stop f).
Definition set_timedOut (f : Flight) : Flight :=
  mkFlight (fl_opId f) (fl_runId f) (fl_phase f) (fl_startTime f) (fl_inputFingerprint f) (fl_handle f)
    (fl_cancelRequested f) (fl_cancelGraceMs f) true (fl_terminationReason f)
    (fl_resourceSamplingError f) (fl_stop f).
Definition set_reason (r : option TerminationReason) (f : Flight) : Flight :=
  mkFlight (fl_opId f) (fl_runId f) (fl_phase f) (fl_startTime f) (fl_inputFingerprint f) (fl_handle f)
    (fl_cancelRequested f) (fl_cancelGraceMs f) (fl_timedOut f) r (fl_resourceSamplingError f) (fl_stop f).
Definition set_samplingError (e : option string) (f : Flight) : Flight :=
  mkFlight (fl_opId f) (fl_runId f) (fl_phase f) (fl_startTime f) (fl_inputFingerprint f) (fl_handle f)
    (fl_cancelRequested f) (fl_cancelGraceMs f) (fl_timedOut f) (fl_terminationReason f) e (fl_stop f).
Definition set_stop (s : StopPromise) (f : Flight) : Flight :=
  mkFlight (fl_opId f) (fl_runId f) (fl_phase f) (fl_startTime f) (fl_inputFingerprint f) (fl_handle f)
    (fl_cancelRequested f) (fl_cancelGraceMs f) (fl_timedOut f) (fl_terminationReason f)
    (fl_resourceSamplingError f) s.
(** [opState.stopResolve?.(res); opState.stopResolve = undefined] *)
Definition resolve_stop (s : StopProcessResult) (f : Flight) : Flight :=
  match fl_stop f with stop_promised => set_stop (stop_settled (Ok s)) f | _ => f end.
Definition stopped_child : StopProcessResult :=
  mkStopProcessResult confirmed_stopped scope_direct_child None None None.

Definition confirmed (s : StopProcessResult) : bool := bool_decide (stopped s = confirmed_stopped).
Definition details (s : StopProcessResult) : string := nullish (stop_errorDetails s) "undefined".
Definition residual_details (s : StopProcessResult) : string :=
  nullish (or_undef (stop_errorDetails s)) "residual processes still alive".
Definition pid_of (f : Flight) : string :=
  match fl_handle f with Some i => pretty (pid i) | None => "undefined" end.

(** ** The stop pipeline (supervisor.ts) *)

Definition ensureActiveOperation : PM unit :=
  w ← get_state;
  throw_if (negb (dom_lockHeld w.1)) (OperationNotActiveError (fl_opId w.2) "domain_closed");;
  throw_if (bool_decide (fl_phase w.2 = ph_done)) (OperationNotActiveError (fl_opId w.2) "already_completed").

Definition handleStopPipeline (now : Z) (reason : TerminationReason) : PM unit :=
  ensureActiveOperation;;
  f ← flight;
  if bool_decide (fl_phase f = ph_stopping) && has_stop (fl_stop f) then mret tt
  else
    set_flight (set_phase ph_stopping);;
    when (bool_decide (reason = user_cancelled)) (set_flight (λ f, set_cancel (fl_cancelGraceMs f) f));;
    set_flight (set_reason (Some reason));;
    match fl_handle f with
    | None => set_flight (set_stop (stop_settled (Ok stopped_child)))
    | Some _ =>
        try_catch
          (on_domain (on_store (updateOperationStatus now (fl_opId f) st_stopping None None));;
           set_flight (set_stop stop_pending))
          (λ err, set_flight (set_stop (stop_settled (Throw err))))
    end.

(** The pipeline when the driver has answered. *)
Definition pipeline_stopped (now : Z) (cancelled : nat → bool) (o : outcome error StopProcessResult) : PM unit :=
  f ← flight;
  try_catch
    (stopResult ← lift o;
     when (negb (confirmed stopResult))
       (op ← on_domain (on_store (getOperation (fl_opId f)));
        match op with
        | Some op => when (negb (op_done op))
            (on_domain (finalizeOperation now cancelled (fl_opId f)
              (indeterminateResult now (fl_startTime f)
                ("Process " +:+ pid_of f +:+ " could not be confirmed stopped: " +:+ details stopResult)
                None None (fl_terminationReason f) (fl_resourceSamplingError f)) None false);;
             mret tt)
        | None => mret tt
        end);;
     set_flight (set_stop (stop_settled (Ok stopResult))))
    (λ err, set_flight (set_stop (stop_settled (Throw err)))).

Definition cancelOperation (now graceMs : Z) : PM unit :=
  ensureActiveOperation;;
  set_flight (λ f, set_cancel (nullish_opt (fl_cancelGraceMs f) (Some graceMs)) f);;
  set_flight (set_reason (Some user_cancelled));;
  f ← flight;
  on_domain (cancelWait (fl_opId f));;
  if bool_decide (fl_phase f = ph_active) || bool_decide (fl_phase f = ph_stopping)
  then handleStopPipeline now user_cancelled
  else when (negb (has_stop (fl_stop f))) (set_flight (set_stop stop_promised)).

Section Run.
Variable decode : Content → string. (* Buffer.toString('utf8') and the marker *)
Variable plan : ProcessRunPlan.
Notation options := (plan_options plan).
Notation opId := (eo_opId (plan_options plan)).

(** ** Results *)

(** The result of a process that was never observed. *)
Definition unobserved_process (now startTime : Z) (status : ProcStatus) (code : option Z) (stderr : string)
    (reason : option TerminationReason) (spawnFailure capabilityId confinementDriver : option string)
    (confined : option bool) (evidence : option ExitEvidence) : OperationResult :=
  mkOperationResult (mkBaseResult (now - startTime) (Iso now) false None capabilityId)
    (RProcess {| pr_status := status; pr_exitCode := code; pr_signal := None; pr_stdout := "";
      pr_stderr := stderr; pr_confinementDriver := confinementDriver; pr_confined := confined;
      pr_isTruncated := false; pr_stdoutTruncated := None; pr_stderrTruncated := None;
      pr_stdoutRef := None; pr_stderrRef := None; pr_stdoutBytes := None; pr_stderrBytes := None;
      pr_stdoutHash := None; pr_stderrHash := None; pr_outputRef := None; pr_outputHash := None;
      pr_terminationReason := reason; pr_spawnFailure := spawnFailure; pr_peakMemoryBytes := None;
      pr_cpuTimeMs := None; pr_resourceSamplingError := None; pr_residualProcessesReaped := None;
      pr_treeSettlement := None; pr_streamCallbackError := None; pr_spillError := None;
      pr_stdoutSpillError := None; pr_stderrSpillError := None; pr_residualPids := None;
      pr_unreapedPids := None; pr_identityVerification := not_original_process;
      pr_evidence := evidence; pr_readEvidence := None |}).

Definition stops_as_failure (r : TerminationReason) : bool :=
  match r with
  | memory_exceeded | cpu_exceeded | pids_exceeded | output_exceeded | observation_failed => true
  | _ => false
  end.

Definition final_status (f : Flight) (e : ExitFacts) : ProcStatus :=
  if fl_timedOut f || match fl_terminationReason f with Some r => stops_as_failure r | None => false end
  then proc_failed
  else if fl_cancelRequested f then proc_cancelled
  else if bool_decide (exitCode e = Some 0%Z) then proc_succeeded else proc_failed.

(** [a || b] on optional strings *)
Definition or_string (a b : option string) : option string :=
  match or_undef a with Some s => Some s | None => b end.
Definition is_succeeded (s : ProcStatus) : bool := match s with proc_succeeded => true | _ => false end.

Definition buildProcessResult (now : Z) (f : Flight) (sa : Sampler) (capture : OutputCapture) (d : Drained)
    (identity : IdentityVerificationResult) : OperationResult :=
  let out := cap_stdout capture in
  let err := cap_stderr capture in
  let spillError := or_undef (or_string (res_spillError out)
    (or_string (res_spillError err) (artifactsDirError capture))) in
  let unless {A} (e : option string) (a : option A) : option A := if truthy_opt e then None else a in
  let status := final_status f (dr_exit d) in
  let peak z := if sampler_observed sa && negb (truthy_opt (samplingError sa)) then Some z else None in
  mkOperationResult (mkBaseResult (now - fl_startTime f) (Iso now) false None (eo_capabilityId options))
    (RProcess {| pr_status := status; pr_exitCode := exitCode (dr_exit d); pr_signal := exitSignal (dr_exit d);
      pr_stdout := decode (res_content out); pr_stderr := decode (res_content err);
      pr_confinementDriver := plan_confinementDriverName plan; pr_confined := Some (plan_confined plan);
      pr_isTruncated := res_isTruncated out || res_isTruncated err;
      pr_stdoutTruncated := Some (res_isTruncated out); pr_stderrTruncated := Some (res_isTruncated err);
      pr_stdoutRef := unless (res_spillError out) (res_outputRef out);
      pr_stderrRef := unless (res_spillError err) (res_outputRef err);
      pr_stdoutBytes := Some (Z.of_nat (res_bytesSeen out)); pr_stderrBytes := Some (Z.of_nat (res_bytesSeen err));
      pr_stdoutHash := unless (res_spillError out) (res_outputHash out);
      pr_stderrHash := unless (res_spillError err) (res_outputHash err);
      pr_outputRef := unless spillError (or_undef (or_string (res_outputRef out) (res_outputRef err)));
      pr_outputHash := unless spillError (or_undef (or_string (res_outputHash out) (res_outputHash err)));
      pr_terminationReason := nullish_opt (fl_terminationReason f)
        (if is_succeeded status then Some completed else None);
      pr_spawnFailure := None; pr_peakMemoryBytes := peak (peakMemoryBytes sa);
      pr_cpuTimeMs := peak (peakCpuTimeMs sa);
      pr_resourceSamplingError := or_undef (samplingError sa);
      pr_residualProcessesReaped := if dr_residualProcessesReaped d then Some true else None;
      pr_treeSettlement := dr_treeSettlement d;
      pr_streamCallbackError := or_undef (callbackError capture); pr_spillError := spillError;
      pr_stdoutSpillError := or_undef (res_spillError out); pr_stderrSpillError := or_undef (res_spillError err);
      pr_residualPids := None; pr_unreapedPids := some_pids (dr_unreapedPids d);
      pr_identityVerification := identity; pr_evidence := None; pr_readEvidence := None |}).

Definition map_process (g : ProcessOperationResult → ProcessOperationResult) (r : OperationResult) : OperationResult :=
  mkOperationResult (res_base r) (match res_body r with RProcess p => RProcess (g p) | b => b end).
Definition set_readEvidence (e : option ReadEvidence) (p : ProcessOperationResult) : ProcessOperationResult :=
  {| pr_status := pr_status p; pr_exitCode := pr_exitCode p; pr_signal := pr_signal p;
     pr_stdout := pr_stdout p; pr_stderr := pr_stderr p; pr_confinementDriver := pr_confinementDriver p;
     pr_confined := pr_confined p; pr_isTruncated := pr_isTruncated p;
     pr_stdoutTruncated := pr_stdoutTruncated p; pr_stderrTruncated := pr_stderrTruncated p;
     pr_stdoutRef := pr_stdoutRef p; pr_stderrRef := pr_stderrRef p; pr_stdoutBytes := pr_stdoutBytes p;
     pr_stderrBytes := pr_stderrBytes p; pr_stdoutHash := pr_stdoutHash p; pr_stderrHash := pr_stderrHash p;
     pr_outputRef := pr_outputRef p; pr_outputHash := pr_outputHash p;
     pr_terminationReason := pr_terminationReason p; pr_spawnFailure := pr_spawnFailure p;
     pr_peakMemoryBytes := pr_peakMemoryBytes p; pr_cpuTimeMs := pr_cpuTimeMs p;
     pr_resourceSamplingError := pr_resourceSamplingError p;
     pr_residualProcessesReaped := pr_residualProcessesReaped p; pr_treeSettlement := pr_treeSettlement p;
     pr_streamCallbackError := pr_streamCallbackError p; pr_spillError := pr_spillError p;
     pr_stdoutSpillError := pr_stdoutSpillError p; pr_stderrSpillError := pr_stderrSpillError p;
     pr_residualPids := pr_residualPids p; pr_unreapedPids := pr_unreapedPids p;
     pr_identityVerification := pr_identityVerification p; pr_evidence := pr_evidence p;
     pr_readEvidence := e |}.
(** [[...new Set([...(result.unreapedPids ?? []), ...stopRes.unreapedPids])]] *)
Definition add_unreaped (pids : option (list Z)) (p : ProcessOperationResult) : ProcessOperationResult :=
  match some_pids pids with
  | None => p
  | Some pids =>
      {| pr_status := pr_status p; pr_exitCode := pr_exitCode p; pr_signal := pr_signal p;
         pr_stdout := pr_stdout p; pr_stderr := pr_stderr p; pr_confinementDriver := pr_confinementDriver p;
         pr_confined := pr_confined p; pr_isTruncated := pr_isTruncated p;
         pr_stdoutTruncated := pr_stdoutTruncated p; pr_stderrTruncated := pr_stderrTruncated p;
         pr_stdoutRef := pr_stdoutRef p; pr_stderrRef := pr_stderrRef p; pr_stdoutBytes := pr_stdoutBytes p;
         pr_stderrBytes := pr_stderrBytes p; pr_stdoutHash := pr_stdoutHash p; pr_stderrHash := pr_stderrHash p;
         pr_outputRef := pr_outputRef p; pr_outputHash := pr_outputHash p;
         pr_terminationReason := pr_terminationReason p; pr_spawnFailure := pr_spawnFailure p;
         pr_peakMemoryBytes := pr_peakMemoryBytes p; pr_cpuTimeMs := pr_cpuTimeMs p;
         pr_resourceSamplingError := pr_resourceSamplingError p;
         pr_residualProcessesReaped := pr_residualProcessesReaped p; pr_treeSettlement := pr_treeSettlement p;
         pr_streamCallbackError := pr_streamCallbackError p; pr_spillError := pr_spillError p;
         pr_stdoutSpillError := pr_stdoutSpillError p; pr_stderrSpillError := pr_stderrSpillError p;
         pr_residualPids := pr_residualPids p;
         pr_unreapedPids := Some (foldl js_push [] (nullish (pr_unreapedPids p) [] ++ pids));
         pr_identityVerification := pr_identityVerification p; pr_evidence := pr_evidence p;
         pr_readEvidence := pr_readEvidence p |}
  end.

(** ** process-run.ts *)

Section Handlers.
Context `{Crypto}.
Variable now : Z.
Variable cancelled : nat → bool.

(** [return finalizeOperation(...)] *)
Definition finalize (result : OperationResult) (releaseResourceLock : bool) : PM RunPc :=
  r ← on_domain (finalizeOperation now cancelled opId result (eo_requiredResources options) releaseResourceLock);
  mret (ended (Ok r)).
Definition holdLeases (reason : string) (capabilityId guidance : option string)
    (terminationReason : option TerminationReason) (samplingError : option string) : PM RunPc :=
  f ← flight;
  finalize (indeterminateResult now (fl_startTime f) reason capabilityId guidance terminationReason samplingError) false.

Definition cancelBeforeSpawn : PM RunPc :=
  set_flight (set_phase ph_done);;
  set_flight (resolve_stop stopped_child);;
  f ← flight;
  let cancelResult := unobserved_process now (fl_startTime f) proc_cancelled None "" (Some user_cancelled)
    None (eo_capabilityId options) None None (Some unobserved) in
  stored ← on_domain (on_store (getOperation opId));
  match stored with
  | None =>
      d ← gets fst;
      let o := plan_op plan in
      on_domain (on_store (recordPreIntentCancelledOperation now
        (mkOperation opId (eo_runId options) "" op_process (eo_name options) (op_inputFingerprint o)
          (nullish (eo_requiredResources options) []) None None None None None None (op_configSnapshot o)
          None st_done None None) (dom_id d) cancelResult));;
      on_domain (internalReleaseResources now cancelled opId (eo_requiredResources options));;
      mret (ended (Ok cancelResult))
  | Some _ => finalize cancelResult true
  end.

Definition failSpawn (err : error) : PM RunPc :=
  set_flight (set_phase ph_done);;
  set_flight (resolve_stop (mkStopProcessResult confirmed_stopped scope_direct_child None None
    (Some (error_message err))));;
  f ← flight;
  let message := error_message err in
  finalize (unobserved_process now (fl_startTime f) proc_failed (Some 127%Z) message None (Some message)
    (eo_capabilityId options) (plan_confinementDriverName plan) (Some (plan_confined plan)) None) true.

(** The intent, once the resources are granted. *)
Definition launch (beginReads : option error) : PM RunPc :=
  f ← flight;
  if fl_cancelRequested f then cancelBeforeSpawn
  else
    d ← gets fst;
    try_catch
      (on_domain (on_store (registerOperationIntent now (plan_op plan) (dom_id d)));;
       set_flight (set_phase ph_intent_registered))
      (λ err, on_domain (internalReleaseResources now cancelled opId (eo_requiredResources options));; throw err);;
    set_flight (set_phase ph_spawning);;
    match beginReads with
    | Some err => failSpawn err
    | None => mret at_spawn
    end.

(** The [try] of [activateOrAbort]: the error, if it throws. *)
Definition activate (identity : ProcessIdentity) (releaseGate : option error) : PM (option error) :=
  try_catch
    (on_domain (on_store (updateOperationStatus now opId st_active (Some identity) None));;
     set_flight (set_phase ph_active);;
     match releaseGate with Some err => throw err | None => mret tt end;;
     match or_undef (eo_capabilityId options), plan_capAdmission plan with
     | Some capabilityId, Some admission =>
         on_domain (recordCapabilityUsed now (eo_runId options) opId capabilityId (Some "proc.spawn")
           (eo_capabilityWorkspace options) (eo_capabilitySecretRefs options) admission)
     | _, _ => mret tt
     end;;
     mret None)
    (λ err, mret (Some err)).

(** The beginning of [superviseActive]: a cancellation that came during the spawn
    stops the process now. *)
Definition superviseActive : PM RunPc :=
  f ← flight;
  when (fl_cancelRequested f) (try_ignore (handleStopPipeline now user_cancelled));;
  f ← flight;
  mret (at_race (has_stop (fl_stop f))).

Definition spawned (identity : ProcessIdentity) (releaseGate : option error) : PM RunPc :=
  set_flight (set_handle identity);;
  failure ← activate identity releaseGate;
  match failure with
  | None => superviseActive
  | Some err => set_flight (set_phase ph_stopping);; mret (at_abort_stop err)
  end.

(** The end of [activateOrAbort], when the process had been spawned in vain. *)
Definition abort (err : error) (stopRes : StopProcessResult) : PM RunPc :=
  set_flight (set_phase ph_done);;
  set_flight (resolve_stop stopRes);;
  f ← flight;
  let statusMessage := error_message err in
  (if confirmed stopRes then
     finalize (unobserved_process now (fl_startTime f) proc_failed None
       ("Failed to register active status: " +:+ statusMessage) None (Some statusMessage) None None None None) true
   else
     holdLeases ("Failed to register active status: " +:+ statusMessage +:+ ", and process " +:+ pid_of f
       +:+ " could not be confirmed stopped: " +:+ residual_details stopRes) None None None None);;
  throw err.

(** ** process-monitor.ts *)

Definition recordUnconfirmedStop (stopRes : StopProcessResult) (withCapability : bool) : PM RunPc :=
  stored ← on_domain (on_store (getOperation opId));
  if match stored with Some op => op_done op | None => false end then
    match stored ≫= op_result with
    | Some result =>
        match res_body result with
        | RProcess _ | RIndeterminate _ => mret (ended (Ok result))
        | _ => throw (Err "Cannot settle process operation: stored process result has an incompatible kind")
        end
    | None => throw (Err "Cannot settle process operation: stored process result is missing")
    end
  else
    f ← flight;
    holdLeases ("Process " +:+ pid_of f +:+ " was cancelled or stopped but could not be confirmed: "
        +:+ residual_details stopRes)
      (if withCapability then eo_capabilityId options else None) None (fl_terminationReason f)
      (fl_resourceSamplingError f).

(** [settleRootOutcome], up to its first wait. *)
Definition settleRootOutcome (outcome : RootOutcome) : PM RunPc :=
  match outcome with
  | root_exit e => mret (at_drain e true)
  | root_stop s => if confirmed s then mret at_exit_after_stop else recordUnconfirmedStop s false
  | root_timeout =>
      set_flight set_timedOut;;
      set_flight (set_reason (Some timed_out));;
      handleStopPipeline now timed_out;;
      mret at_timeout_stop
  end.

Definition hold_timeout (stopRes : StopProcessResult) : PM RunPc :=
  f ← flight;
  holdLeases ("Process " +:+ pid_of f +:+ " timed out and root process could not be confirmed exited within 1000ms bound: "
    +:+ nullish (or_undef (stop_errorDetails stopRes)) "root process still alive") None None None None.

(** The end of the timeout path. *)
Definition timeout_settled (stopRes : StopProcessResult) (rootExit : option ExitFacts) : PM RunPc :=
  match confirmed stopRes, rootExit with
  | true, Some e => mret (at_drain e false)
  | _, _ =>
      stored ← on_domain (on_store (getOperation opId));
      match (if match stored with Some op => op_done op | None => false end
             then stored ≫= op_result else None) with
      | Some result =>
          if is_indeterminate result then mret (ended (Ok result)) else hold_timeout stopRes
      | None => hold_timeout stopRes
      end
  end.

Definition tree_evidence_status (t : option TreeSettlement) : TreeStatus :=
  match t with
  | Some settled_empty => tree_empty
  | Some settled_reaped => tree_residual
  | _ => tree_unknown
  end.

(** From the drained streams to the wait for the hard limits. *)
Definition record_drained (d : Drained) : PM RunPc :=
  let source := if dr_natural d then src_natural_exit else src_stop in
  on_domain (on_store (updateRecoveryEvidence opId (mkEvidencePatch None
    (Some (mkTreeEvidence (tree_evidence_status (dr_treeSettlement d)) None None source (Iso now)))
    (Some (mkPipeEvidence pipe_unknown pipe_drained pipe_drained source (Iso now))) None)));;
  mret (at_hits d).

(** [drainOrReap]: the answers of its waits. *)
Definition drain_waited (e : ExitFacts) (natural drained : bool) : PM RunPc :=
  f ← flight;
  if drained then
    if negb natural || has_stop (fl_stop f) then record_drained (mkDrained e natural false None None)
    else mret (at_settle e)
  else mret (if natural then at_reap e else at_escaped e).

Definition reaped (e : ExitFacts) (reapResult : StopProcessResult) : PM RunPc :=
  f ← flight;
  if confirmed reapResult then mret (at_drain_again e (stop_unreapedPids reapResult))
  else holdLeases ("Process " +:+ pid_of f +:+ " exited but residual descendants could not be confirmed stopped: "
    +:+ details reapResult) None None None None.

Definition drained_again (e : ExitFacts) (unreaped : option (list Z)) (drained : bool) : PM RunPc :=
  f ← flight;
  if drained then
    record_drained (mkDrained e true true
      (if has_stop (fl_stop f) then None else Some settled_reaped) (some_pids unreaped))
  else mret (at_escaped e).

Definition escaped (e : ExitFacts) : PM RunPc :=
  f ← flight;
  holdLeases ("Process " +:+ pid_of f +:+ " exited (exitCode=" +:+
      match exitCode e with Some c => pretty c | None => "null" end +:+ ", signal=" +:+
      nullish (exitSignal e) "null" +:+ ") and its process group was confirmed stopped, but stdout/stderr pipes are still held by an unobserved escaped process")
    (eo_capabilityId options)
    (Some "An escaped process outside the observed process tree still holds the output pipes. Inspect system processes manually before adjudicating and releasing resources.")
    None None.

(** [settleProcessTree] (driver/tree-settlement.ts): a driver without [settleTree]
    answers [unknown]. *)
Definition tree_answered (e : ExitFacts) (answer : TreeAnswer) : PM RunPc :=
  match answer with
  | answer_empty => record_drained (mkDrained e true false (Some settled_empty) None)
  | answer_unknown => record_drained (mkDrained e true false (Some settled_unverified) None)
  | answer_residual => mret (at_settle_stop e)
  end.
Definition tree_stopped (e : ExitFacts) (stop : StopProcessResult) : PM RunPc :=
  if confirmed stop
  then record_drained (mkDrained e true true (Some settled_reaped) (some_pids (stop_unreapedPids stop)))
  else
    f ← flight;
    holdLeases ("Process " +:+ pid_of f +:+ " exited but descendants that left its output pipes could not be confirmed stopped: "
      +:+ nullish (stop_errorDetails stop) "residual processes still alive")
      (eo_capabilityId options) None None None.

(** [recordHardLimitHits] *)
Definition record_hits (hits : outcome error (option (Z * Z))) : PM unit :=
  f ← flight;
  if negb (bool_decide (enforcement <$> eo_resourceBudget options = Some hard))
      || negb (is_undef (fl_terminationReason f)) || negb (pd_readLimitEvents (plan_driver plan))
  then mret tt
  else
    hits ← lift hits;
    match hits with
    | Some (memoryOomKills, pidsMaxHits) =>
        if bool_decide (0 < memoryOomKills)%Z then set_flight (set_reason (Some memory_exceeded))
        else when (bool_decide (0 < pidsMaxHits)%Z) (set_flight (set_reason (Some pids_exceeded)))
    | None => mret tt
    end.

(** The last step: the evidence of the reads, and the record. *)
Definition finish (result : OperationResult) (read : outcome error (option ReadEvidence)) : PM RunPc :=
  match eo_trackReads options with
  | Some _ => read ← lift read; finalize (map_process (set_readEvidence read) result) true
  | None => finalize result true
  end.

Definition verified (sa : Sampler) (d : Drained) (identity : IdentityVerificationResult) (capture : OutputCapture)
  : PM RunPc :=
  f ← flight;
  let result := buildProcessResult now f sa capture d identity in
  if has_stop (fl_stop f) then mret (at_stop_result result (readEvidence capture))
  else finish result (readEvidence capture).

Definition stop_answered (result : OperationResult) (read : outcome error (option ReadEvidence))
    (stopRes : StopProcessResult) : PM RunPc :=
  if confirmed stopRes then finish (map_process (add_unreaped (stop_unreapedPids stopRes)) result) read
  else recordUnconfirmedStop stopRes true.

(** *** Samples and output *)

Definition add_sample (m : Metrics) (sa : Sampler) : Sampler :=
  mkSampler (Z.max (peakMemoryBytes sa) (rssBytes m)) (Z.max (peakCpuTimeMs sa) (cpuTimeMs m)) true
    (samplingError sa) (sampler_stopped sa).
Definition fail_sample (e : string) (sa : Sampler) : Sampler :=
  mkSampler (peakMemoryBytes sa) (peakCpuTimeMs sa) (sampler_observed sa)
    (match samplingError sa with Some e0 => Some e0 | None => Some e end) (sampler_stopped sa).
Definition stop_sampler (sa : Sampler) : Sampler :=
  mkSampler (peakMemoryBytes sa) (peakCpuTimeMs sa) (sampler_observed sa) (samplingError sa) true.

(** [budget.max && x > budget.max] *)
Definition exceeds (limit : option Z) (x : Z) : bool :=
  match or_undef_Z limit with Some l => bool_decide (l < x)%Z | None => false end.
Definition has_soft_limit (b : ResourceBudget) : bool :=
  nonzero (maxMemoryBytes b) || nonzero (maxCpuTimeMs b) || nonzero (maxPids b).

(** What a sample decides: an error, or a reason to stop the process. *)
Inductive SampleVerdict :=
| sample_fine
| sample_oom
| sample_stop (r : TerminationReason)
| sample_failed (e : string).
Definition judge_sample (b : ResourceBudget) (m : Metrics) (hits : outcome string (option (Z * Z)))
  : SampleVerdict :=
  match enforcement b with
  | hard =>
      if pd_readLimitEvents (plan_driver plan) then
        match hits with
        | Throw e => sample_failed e
        | Ok (Some (memoryOomKills, pidsMaxHits)) =>
            if bool_decide (0 < memoryOomKills)%Z then sample_oom
            else if bool_decide (0 < pidsMaxHits)%Z then sample_stop pids_exceeded else sample_fine
        | Ok None => sample_fine
        end
      else sample_fine
  | soft =>
      if exceeds (maxMemoryBytes b) (rssBytes m) then sample_stop memory_exceeded
      else if exceeds (maxCpuTimeMs b) (cpuTimeMs m) then sample_stop cpu_exceeded
      else if exceeds (maxPids b) (pidsCount m) then sample_stop pids_exceeded else sample_fine
  | observe => sample_fine
  end.

(** [stopFor(reason)]; a rejection is the pending error the sampler settles with. *)
Definition stopFor (reason : TerminationReason) : PM unit :=
  set_flight (set_reason (Some reason));; try_ignore (handleStopPipeline now reason).

Definition sampled (b : ResourceBudget) (o : outcome string Metrics) (hits : outcome string (option (Z * Z)))
    (sa : Sampler) : PM Sampler :=
  let '(sa, verdict) := match o with
    | Ok m => (add_sample m sa, judge_sample b m hits)
    | Throw e => (sa, sample_failed e)
    end in
  match verdict with
  | sample_fine => mret sa
  | sample_oom =>
      set_flight (λ f, set_reason (nullish_opt (fl_terminationReason f) (Some memory_exceeded)) f);; mret sa
  | sample_stop reason => stopFor reason;; mret (stop_sampler sa)
  | sample_failed e =>
      let sa := fail_sample e sa in
      set_flight (set_samplingError (samplingError sa));;
      f ← flight;
      if bool_decide (enforcement b = soft) && has_soft_limit b && is_undef (fl_terminationReason f)
      then stopFor observation_failed;; mret (stop_sampler sa)
      else mret sa
  end.

(** [sampler.settle()]; [pendingError] is the sampling error the pending sample
    leaves when the stop it asked for failed. *)
Definition settle_sampler (pendingError : option string) (final : outcome string Metrics) (sa : Sampler) : PM Sampler :=
  let sa := match pendingError with
    | Some e => mkSampler (peakMemoryBytes sa) (peakCpuTimeMs sa) (sampler_observed sa) (Some e) (sampler_stopped sa)
    | None => sa end in
  when (negb (is_undef pendingError)) (set_flight (set_samplingError (samplingError sa)));;
  if negb (truthy_opt (samplingError sa)) && pd_sampleMetrics (plan_driver plan)
      && negb (is_undef (eo_resourceBudget options)) then
    match final with
    | Ok m => mret (if bool_decide (0 < rssBytes m)%Z || bool_decide (0 < cpuTimeMs m)%Z then add_sample m sa else sa)
    | Throw e =>
        if sampler_observed sa then mret sa
        else
          let sa := fail_sample e sa in
          set_flight (set_samplingError (samplingError sa));; mret sa
    end
  else mret sa.

(** The output budget, in [openOutputCapture]. *)
Definition output_seen (total : Z) : PM unit :=
  f ← flight;
  match eo_resourceBudget options with
  | Some b =>
      when (bool_decide (enforcement b = soft) && exceeds (maxOutputBytes b) total
            && is_undef (fl_terminationReason f))
        (set_flight (set_reason (Some output_exceeded));;
         try_ignore (handleStopPipeline now output_exceeded))
  | None => mret tt
  end.
End Handlers.

(** ** The machine *)

Record Supervised := mkSupervised {
  sv_domain : ExecutionDomain;
  sv_flight : Flight;
  sv_pc : RunPc;
  sv_sampler : Sampler;
  sv_output : Z; (* totalOutputBytes *)
  told : list RunEvent;
}.

Definition is_ended (p : RunPc) : bool := match p with ended _ => true | _ => false end.

(** The [finally] of [runProcess]. *)
Definition settle_flight (p : RunPc) (f : Flight) : Flight :=
  if is_ended p then
    resolve_stop (mkStopProcessResult confirmed_stopped scope_direct_child None None
      (if bool_decide (fl_phase f = ph_done) then None
       else Some "Operation terminated before process activation")) f
  else f.

(** A handler of the run, from the answer it was given. *)
Definition advance (s : Supervised) (e : RunEvent) (sa : Sampler) (h : PM RunPc) : Supervised :=
  let '(o, w) := h (sv_domain s, sv_flight s) in
  let p := match o with Ok p => p | Throw err => ended (Throw err) end in
  mkSupervised w.1 (settle_flight p w.2) p sa (sv_output s) (told s ++ [e]).
(** What happens beside the run; its errors go to its own caller. *)
Definition beside (s : Supervised) (e : RunEvent) (sa : Sampler) (output : Z) (m : PM unit) : Supervised :=
  let '(_, w) := m (sv_domain s, sv_flight s) in
  mkSupervised w.1 w.2 (sv_pc s) sa output (told s ++ [e]).

Definition drains (p : RunPc) : bool :=
  match p with
  | at_race _ | at_sampler _ | at_exit_after_stop | at_timeout_stop | at_timeout_exit _
  | at_drain _ _ | at_reap _ | at_drain_again _ _ => true
  | _ => false
  end.
(** The answer of the stop pipeline. *)
Definition stop_answer (s : Supervised) : option (outcome error StopProcessResult) :=
  match fl_stop (sv_flight s) with stop_settled o => Some o | _ => None end.

Section Machine.
Context `{Crypto}.
Variable cancelled : nat → bool.

(** An event that is an answer to what the run waits for. *)
Definition answer (now : Z) (s : Supervised) (e : RunEvent) : option Supervised :=
  let go := advance s e (sv_sampler s) in
  match sv_pc s, e with
  | at_allocate, Allocated o begin => Some (go (lift o;; launch now cancelled begin))
  | at_spawn, Spawned (Ok i) gate => Some (go (spawned now i gate))
  | at_spawn, Spawned (Throw err) _ => Some (go (failSpawn now cancelled err))
  | at_abort_stop err, AbortStopped o => Some (go (r ← lift o; mret (at_abort_exit err r)))
  | at_abort_exit err r, AbortExitWaited => Some (go (abort now cancelled err r))
  | at_race _, RootExited x => Some (go (mret (at_sampler (root_exit x))))
  | at_race _, TimeoutFired =>
      if match eo_timeoutMs options with Some t => bool_decide (0 < t)%Z | None => false end
      then Some (go (mret (at_sampler root_timeout))) else None
  | at_race early, StopSeen =>
      match stop_answer s with
      | Some (Ok r) => Some (go (mret (at_sampler (root_stop r))))
      | Some (Throw err) => if early then Some (go (throw err)) else None
      | None => None
      end
  | at_sampler o, SamplerSettled pending final =>
      let '(r, w) := settle_sampler pending final (stop_sampler (sv_sampler s)) (sv_domain s, sv_flight s) in
      let sa := match r with Ok sa => sa | Throw _ => sv_sampler s end in
      Some (advance (mkSupervised w.1 w.2 (sv_pc s) sa (sv_output s) (told s)) e sa
        (settleRootOutcome now cancelled o))
  | at_exit_after_stop, ExitWaited x =>
      Some (go (mret (at_drain (nullish x (mkExitFacts None (Some "SIGKILL"))) false)))
  | at_timeout_stop, StopSeen =>
      (λ o, go (r ← lift o; mret (at_timeout_exit r))) <$> stop_answer s
  | at_timeout_exit r, ExitWaited x => Some (go (timeout_settled now cancelled r x))
  | at_drain x natural, DrainWaited b => Some (go (drain_waited now x natural b))
  | at_reap x, Terminated o => Some (go (r ← lift o; reaped now cancelled x r))
  | at_drain_again x unreaped, DrainWaited b => Some (go (drained_again now x unreaped b))
  | at_settle x, TreeAnswered o => Some (go (t ← lift o; tree_answered now x t))
  | at_settle_stop x, Terminated o => Some (go (r ← lift o; tree_stopped now cancelled x r))
  | at_escaped x, DrainWaited _ => Some (go (escaped now cancelled x))
  | at_hits d, HitsRead o => Some (go (record_hits o;; mret (at_verify d)))
  | at_verify d, IdentityVerified o capture =>
      Some (go (i ← lift o; verified now cancelled (sv_sampler s) d i capture))
  | at_stop_result r read, StopSeen =>
      (λ o, go (stop ← lift o; stop_answered now cancelled r read stop)) <$> stop_answer s
  | _, _ => None
  end.

(** An event beside the run. *)
Definition aside (now : Z) (s : Supervised) (e : RunEvent) : option Supervised :=
  match e with
  | Cancel graceMs =>
      if is_ended (sv_pc s) then None
      else Some (beside s e (sv_sampler s) (sv_output s) (cancelOperation now graceMs))
  | PipelineStopped o =>
      match fl_stop (sv_flight s) with
      | stop_pending => Some (beside s e (sv_sampler s) (sv_output s) (pipeline_stopped now cancelled o))
      | _ => None
      end
  | Sampled o hits =>
      match sv_pc s, eo_resourceBudget options with
      | at_race _, Some b =>
          if pd_sampleMetrics (plan_driver plan) && negb (sampler_stopped (sv_sampler s)) then
            let '(r, w) := sampled now b o hits (sv_sampler s) (sv_domain s, sv_flight s) in
            let sa := match r with Ok sa => sa | Throw _ => sv_sampler s end in
            Some (mkSupervised w.1 w.2 (sv_pc s) sa (sv_output s) (told s ++ [e]))
          else None
      | _, _ => None
      end
  | OutputSeen bytes =>
      if drains (sv_pc s) then
        Some (beside s e (sv_sampler s) (sv_output s + bytes) (output_seen now (sv_output s + bytes)))
      else None
  | Elsewhere d => Some (mkSupervised d (sv_flight s) (sv_pc s) (sv_sampler s) (sv_output s) (told s ++ [e]))
  | _ => None
  end.

(** An event that is neither has no effect. *)
Definition step (now : Z) (s : Supervised) (e : RunEvent) : Supervised :=
  match answer now s e with
  | Some s' => s'
  | None => default s (aside now s e)
  end.
Definition run_process (s : Supervised) (es : list (Z * RunEvent)) : Supervised :=
  foldl (λ s e, step e.1 s e.2) s es.

(** ** The beginning of a run *)

Definition no_samples : Sampler := mkSampler 0 0 false None false.

Definition runProcess (now : Z) (f : Flight) (d : ExecutionDomain) : Supervised :=
  let '(o, d') := allocateResourcesWithWait now (fl_cancelRequested f) opId
    (nullish (eo_requiredResources options) []) (nullish (eo_waitTimeoutMs options) 0%Z)
    (eo_resourceBudget options) d in
  let p := match o with Ok _ => at_allocate | Throw err => ended (Throw err) end in
  mkSupervised d' (settle_flight p f) p no_samples 0 [].
End Machine.
End Run.

(** ** [executeProcess] (supervisor.ts) *)

Inductive Execution :=
| exec_joined (opId : string)
| exec_replayed (r : OperationResult)
| exec_started (plan : ProcessRunPlan) (f : Flight).

Section Execute.
Context `{Crypto} `{FileSystem}.
Variable sha256 : string → string.
Variable localeCompare_sort : list (string * string) → list (string * string).
Variable createConfinementDriver : option string → option ConfinementDriver.

Definition js_keys (l : option (list (string * string))) : jsval :=
  js_strings (sort_strings (map fst (nullish l []))).

Definition request_config (o : ExecuteProcessOptions) : list (string * jsval) :=
  let cmd := eo_command o in
  [("command", JObj [("execPath", JStr (sc_execPath cmd)); ("cwd", JStr (sc_cwd cmd));
     ("inheritEnv", JBool (nullish (sc_inheritEnv cmd) false)); ("envKeys", js_keys (sc_envWhiteList cmd));
     ("secretEnvKeys", js_keys (sc_secretEnv cmd))]);
   ("timeoutMs", jopt JZ (eo_timeoutMs o)); ("maxOutputBytes", jopt JZ (eo_maxOutputBytes o));
   ("drainTimeoutMs", jopt JZ (eo_drainTimeoutMs o)); ("waitTimeoutMs", jopt JZ (eo_waitTimeoutMs o));
   ("resourceBudget", jopt js_budget (eo_resourceBudget o));
   ("confinement", match eo_confinement o with
      | Some (conf_name name) => JStr name | Some (conf_bool true) => JStr "default" | _ => JUndef end);
   ("trackReads", match eo_trackReads o with
      | Some (roots, statCaches) => JObj [("roots", js_strings (sort_strings roots)); ("statCaches", jopt JStr statCaches)]
      | None => JUndef end)].

Definition request_snapshot (now : Z) (driver : PlatformDriver) (o : ExecuteProcessOptions) : RequestConfigSnapshot :=
  createRequestConfigSnapshot now {|
    rci_driverName := pd_name driver; rci_driverCapabilities := df_capabilities (pd_facts driver);
    rci_capabilityId := eo_capabilityId o; rci_capabilityPolicyVersion := eo_capabilityPolicyVersion o;
    rci_driverVersion := None; rci_config := request_config o;
    rci_retentionVersion := None; rci_redactionVersion := None |}.

Definition process_operation (now : Z) (driver : PlatformDriver) (o : ExecuteProcessOptions) (inputFingerprint : string)
    (mutationRoots : option (list string)) (config : RequestConfigSnapshot) : Operation :=
  {| op_id := eo_opId o; op_runId := eo_runId o; op_domainId := ""; op_kind := op_process;
     op_name := eo_name o; op_inputFingerprint := inputFingerprint;
     op_requiredResources := nullish (eo_requiredResources o) []; op_mutationRoots := mutationRoots;
     op_capabilityId := eo_capabilityId o; op_timeoutMs := eo_timeoutMs o;
     op_resourceBudget := eo_resourceBudget o;
     op_spawnGated := Some (bool_decide (gatedSpawn (pd_recoveryFacts driver) = Some true));
     op_recoveryEvidence := Some (createRecoveryEvidence now (pd_name driver) (pd_recoveryFacts driver));
     op_configSnapshot := Some config; op_outputRef := None; op_status := st_pending; op_result := None;
     op_processIdentity := None |}.

(** [trackOperation] *)
Definition new_flight (now : Z) (o : ExecuteProcessOptions) (inputFingerprint : string) : Flight :=
  mkFlight (eo_opId o) (eo_runId o) ph_waiting_resources now inputFingerprint None
    (bool_decide (eo_abortSignal o = Some true)) None false None None stop_none.

(** Up to [runProcess]. [None]: the capability walk has not ended within the fuel. *)
Definition executeProcess (fuel : nat) (now : Z) (driver : PlatformDriver)
    (confinementDefault : option ConfinementDriver) (activeOperations : list (string * Flight))
    (o : ExecuteProcessOptions) : DM (option Execution) :=
  lift (assertSecretResolverSupported driver (eo_command o));;
  admitted ← admitProcessScope fuel now o;
  match admitted with
  | None => mret None
  | Some (o, mutationRoots, capAdmission) =>
      confinementDriver ← lift (resolveConfinementDriver createConfinementDriver o confinementDefault);
      lift (assertBudgetSupported driver (eo_resourceBudget o));;
      let inputFingerprint := nullish (or_undef (eo_inputFingerprint o))
        (computeInputFingerprint sha256 localeCompare_sort o) in
      assertRunAcceptsOperations (eo_runId o);;
      let config := request_snapshot now driver o in
      on_store (bindRunConfigSnapshot (eo_runId o) config);;
      match jm_get activeOperations (eo_opId o) with
      | Some inFlight =>
          joinInFlight now inFlight o inputFingerprint;; mret (Some (exec_joined (eo_opId o)))
      | None =>
          replayed ← replayRecorded now o inputFingerprint;
          match replayed with
          | Some r => mret (Some (exec_replayed r))
          | None =>
              assertOperationIdAvailable (eo_opId o);;
              mret (Some (exec_started
                (mkProcessRunPlan o (process_operation now driver o inputFingerprint mutationRoots config) driver
                  (negb (is_undef confinementDriver)) (cd_name <$> confinementDriver) capAdmission)
                (new_flight now o inputFingerprint)))
          end
      end
  end.

(** The command handed to the driver. *)
Definition wrapped_command (confinementDriver : option ConfinementDriver) (mutationRoots : option (list string))
    (o : ExecuteProcessOptions) : StructuredCommand :=
  withHardLimits (match confinementDriver with
    | Some d => cd_wrap d (eo_command o) (nullish mutationRoots [])
    | None => eo_command o end) (eo_resourceBudget o).
End Execute.
