(* ===== verification/ProcessFlow.v ===== *)
(** * ProcessFlow: the order of the waits of a run

    An abstract automaton on the places where a run waits, which the run follows
    whatever its domain holds; and that a run therefore ends. *)

From stdpp Require Import pretty.
From S2P Require Import Prelude Types Events Encode Config Store Paths Capability Domain Authority Rollback Recovery Drainer Supervisor ProcessRun.

(** ** What a method returns *)

Definition yields {A} (m : PM A) (w : World) (Q : A → Prop) : Prop :=
  ∀ a w', m w = (Ok a, w') → Q a.

Lemma yields_ret {A} (a : A) w (Q : A → Prop) : Q a → yields (mret a) w Q.
Proof. by intros HQ a' w' [= <- _]. Qed.
Lemma yields_throw {A} e w (Q : A → Prop) : yields (throw e) w Q.
Proof. by intros a w'. Qed.
Lemma yields_bind {A B} (m : PM A) (k : A → PM B) w Q :
  (∀ a w1, m w = (Ok a, w1) → yields (k a) w1 Q) → yields (m ≫= k) w Q.
Proof. intros Hk b w' (a & w1 & Hm & Hb)%bind_Ok_inv. by eapply Hk. Qed.
Lemma yields_lift {A B} (o : outcome error A) (k : A → PM B) w Q :
  (∀ a, o = Ok a → yields (k a) w Q) → yields (lift o ≫= k) w Q.
Proof. intros Hk. apply yields_bind. intros a w1 [= Ho <-]. by apply Hk. Qed.
Lemma yields_flight {B} (k : Flight → PM B) w Q : yields (k w.2) w Q → yields (flight ≫= k) w Q.
Proof. intros Hk. apply yields_bind. by intros f w1 [= <- <-]. Qed.

Ltac yields_step :=
  lazymatch goal with
  | |- yields (mret _) _ _ => apply yields_ret
  | |- yields (throw _) _ _ => apply yields_throw
  | |- yields (flight ≫= _) _ _ => apply yields_flight
  | |- yields (lift _ ≫= _) _ _ => apply yields_lift; intros ? ?
  | |- yields (_ ≫= _) _ _ => apply yields_bind; intros ? ? _
  | |- yields (if ?b then _ else _) _ _ => destruct b eqn:?
  | |- yields (match ?x with _ => _ end) _ _ => destruct x eqn:?
  end.

(** ** The automaton *)

Inductive goes (f : Flight) : RunPc → RunEvent → RunPc → Prop :=
| goes_end p e o : is_ended p = false → goes f p e (ended o)
| goes_launch o b : goes f at_allocate (Allocated o b) at_spawn
| goes_abort i g err : goes f at_spawn (Spawned (Ok i) g) (at_abort_stop err)
| goes_abort_exit err r : goes f (at_abort_stop err) (AbortStopped (Ok r)) (at_abort_exit err r)
| goes_race i g early : goes f at_spawn (Spawned (Ok i) g) (at_race early)
| goes_exit early x : goes f (at_race early) (RootExited x) (at_sampler (root_exit x))
| goes_timeout early : goes f (at_race early) TimeoutFired (at_sampler root_timeout)
| goes_stop early r : fl_stop f = stop_settled (Ok r) → goes f (at_race early) StopSeen (at_sampler (root_stop r))
| goes_root_exit x e m : goes f (at_sampler (root_exit x)) (SamplerSettled e m) (at_drain x true)
| goes_root_timeout e m : goes f (at_sampler root_timeout) (SamplerSettled e m) at_timeout_stop
| goes_root_stop r e m : confirmed r = true → goes f (at_sampler (root_stop r)) (SamplerSettled e m) at_exit_after_stop
| goes_stopped x x' : goes f at_exit_after_stop (ExitWaited x) (at_drain x' false)
| goes_timeout_exit r : fl_stop f = stop_settled (Ok r) → goes f at_timeout_stop StopSeen (at_timeout_exit r)
| goes_timed_out r x : confirmed r = true → goes f (at_timeout_exit r) (ExitWaited (Some x)) (at_drain x false)
| goes_drained x natural d : natural = false ∨ has_stop (fl_stop f) = true →
    goes f (at_drain x natural) (DrainWaited true) (at_hits d)
| goes_settle x : goes f (at_drain x true) (DrainWaited true) (at_settle x)
| goes_reap x : goes f (at_drain x true) (DrainWaited false) (at_reap x)
| goes_escaped x : goes f (at_drain x false) (DrainWaited false) (at_escaped x)
| goes_again x u r : confirmed r = true → goes f (at_reap x) (Terminated (Ok r)) (at_drain_again x u)
| goes_drained_again x u d : goes f (at_drain_again x u) (DrainWaited true) (at_hits d)
| goes_escaped_again x u : goes f (at_drain_again x u) (DrainWaited false) (at_escaped x)
| goes_tree x t d : t ≠ answer_residual → goes f (at_settle x) (TreeAnswered (Ok t)) (at_hits d)
| goes_residual x : goes f (at_settle x) (TreeAnswered (Ok answer_residual)) (at_settle_stop x)
| goes_tree_stopped x r d : confirmed r = true → goes f (at_settle_stop x) (Terminated (Ok r)) (at_hits d)
| goes_hits d o : goes f (at_hits d) (HitsRead o) (at_verify d)
| goes_verify d o c r : has_stop (fl_stop f) = true →
    goes f (at_verify d) (IdentityVerified o c) (at_stop_result r (readEvidence c)).

(** How many answers a place is from the end, at most. *)
Definition waits_left (p : RunPc) : nat :=
  match p with
  | at_allocate => 14 | at_spawn => 13 | at_race _ => 12 | at_sampler _ => 11
  | at_timeout_stop => 10 | at_timeout_exit _ => 9 | at_exit_after_stop => 9
  | at_drain _ _ => 8 | at_reap _ => 7 | at_drain_again _ _ => 6
  | at_settle _ => 5 | at_settle_stop _ => 4 | at_escaped _ => 1
  | at_hits _ => 3 | at_verify _ => 2 | at_stop_result _ _ => 1
  | at_abort_stop _ => 2 | at_abort_exit _ _ => 1 | ended _ => 0
  end.
Lemma goes_closer f p e q : goes f p e q → waits_left q < waits_left p.
Proof. destruct 1 as [[] | | | | | | | | | | | | | | | | | | | | | | | | |]; simpl in *; try done; lia. Qed.

Section Flow.
Context `{Crypto} (decode : Content → string) (plan : ProcessRunPlan) (cancelled : nat → bool) (now : Z).

(** ** The handlers follow it *)

Notation ending m w := (yields m w (λ p, is_ended p = true)).
Lemma finalize_ends r b w : ending (finalize plan now cancelled r b) w.
Proof. unfold finalize. by repeat yields_step. Qed.
Lemma hold_ends a b c d e w : ending (holdLeases plan now cancelled a b c d e) w.
Proof. unfold holdLeases. apply yields_flight, finalize_ends. Qed.
Ltac ends := repeat
  lazymatch goal with
  | |- yields (finalize _ _ _ _ _) _ _ => apply finalize_ends
  | |- yields (holdLeases _ _ _ _ _ _ _ _) _ _ => apply hold_ends
  | |- is_ended _ = true => reflexivity
  | |- _ => yields_step
  end.
Lemma finish_ends r read w : ending (finish plan now cancelled r read) w.
Proof. unfold finish. ends. Qed.
Lemma unconfirmed_ends s c w : ending (recordUnconfirmedStop plan now cancelled s c) w.
Proof. unfold recordUnconfirmedStop. ends. Qed.
Lemma before_spawn_ends w : ending (cancelBeforeSpawn plan now cancelled) w.
Proof. unfold cancelBeforeSpawn. ends. Qed.
Lemma fail_spawn_ends err w : ending (failSpawn plan now cancelled err) w.
Proof. unfold failSpawn. ends. Qed.
Lemma hold_timeout_ends s w : ending (hold_timeout plan now cancelled s) w.
Proof. unfold hold_timeout. ends. Qed.
Lemma escaped_ends x w : ending (escaped plan now cancelled x) w.
Proof. unfold escaped. ends. Qed.

Lemma goes_ends f p e (m : PM RunPc) w :
  is_ended p = false → yields m w (λ p, is_ended p = true) → yields m w (goes f p e).
Proof. intros Hp Hm q w' Hq. specialize (Hm q w' Hq). destruct q; try done. by constructor. Qed.

Ltac goes_end := apply goes_ends; [reflexivity|].
Ltac flow := repeat
  lazymatch goal with
  | |- goes _ _ _ _ => by constructor
  | |- yields (finalize _ _ _ _ _) _ _ => goes_end; apply finalize_ends
  | |- yields (holdLeases _ _ _ _ _ _ _ _) _ _ => goes_end; apply hold_ends
  | |- yields (finish _ _ _ _ _) _ _ => goes_end; apply finish_ends
  | |- yields (recordUnconfirmedStop _ _ _ _ _) _ _ => goes_end; apply unconfirmed_ends
  | |- yields (cancelBeforeSpawn _ _ _) _ _ => goes_end; apply before_spawn_ends
  | |- yields (failSpawn _ _ _ _) _ _ => goes_end; apply fail_spawn_ends
  | |- yields (hold_timeout _ _ _ _) _ _ => goes_end; apply hold_timeout_ends
  | |- yields (escaped _ _ _ _) _ _ => goes_end; apply escaped_ends
  | |- _ => yields_step
  end.

Lemma launch_goes f o b w : yields (launch plan now cancelled b) w (goes f at_allocate (Allocated o b)).
Proof. unfold launch. flow. Qed.
Lemma spawned_goes f i g w : yields (spawned plan now i g) w (goes f at_spawn (Spawned (Ok i) g)).
Proof. unfold spawned, superviseActive. flow. Qed.
Lemma abort_goes f err r w : yields (abort plan now cancelled err r) w (goes f (at_abort_exit err r) AbortExitWaited).
Proof. unfold abort. flow. Qed.
Lemma root_goes f o e m w :
  yields (settleRootOutcome plan now cancelled o) w (goes f (at_sampler o) (SamplerSettled e m)).
Proof. unfold settleRootOutcome. flow. Qed.
Lemma timeout_goes f r x w :
  yields (timeout_settled plan now cancelled r x) w (goes f (at_timeout_exit r) (ExitWaited x)).
Proof.
  unfold timeout_settled. destruct (confirmed r) eqn:Hr, x as [x|]; flow.
Qed.
Lemma record_goes f p e d w :
  goes f p e (at_hits d) → yields (record_drained plan now d) w (goes f p e).
Proof. intros Hg. unfold record_drained. by repeat yields_step. Qed.
Lemma drain_goes x natural b w :
  yields (drain_waited plan now x natural b) w (goes w.2 (at_drain x natural) (DrainWaited b)).
Proof.
  unfold drain_waited. apply yields_flight. destruct b; [|destruct natural; flow].
  destruct (negb natural || has_stop (fl_stop w.2)) eqn:Hn.
  - apply record_goes, goes_drained. destruct natural; auto.
  - destruct natural; [|done]. flow.
Qed.
Lemma reaped_goes f x r w :
  yields (reaped plan now cancelled x r) w (goes f (at_reap x) (Terminated (Ok r))).
Proof. unfold reaped. flow. Qed.
Lemma drained_again_goes f x u b w :
  yields (drained_again plan now x u b) w (goes f (at_drain_again x u) (DrainWaited b)).
Proof. unfold drained_again. apply yields_flight. destruct b; [apply record_goes; constructor|flow]. Qed.
Lemma tree_goes f x t w :
  yields (tree_answered plan now x t) w (goes f (at_settle x) (TreeAnswered (Ok t))).
Proof. unfold tree_answered. destruct t; [apply record_goes; by constructor|flow|apply record_goes; by constructor]. Qed.
Lemma tree_stopped_goes f x r w :
  yields (tree_stopped plan now cancelled x r) w (goes f (at_settle_stop x) (Terminated (Ok r))).
Proof.
  unfold tree_stopped. destruct (confirmed r) eqn:Hr; [apply record_goes; by constructor|flow].
Qed.
Lemma verified_goes sa d o i c w :
  yields (verified decode plan now cancelled sa d i c) w (goes w.2 (at_verify d) (IdentityVerified o c)).
Proof. unfold verified. flow. Qed.
Lemma stop_answered_goes f r read stop w :
  yields (stop_answered plan now cancelled r read stop) w (goes f (at_stop_result r read) StopSeen).
Proof. unfold stop_answered. flow. Qed.

(** ** The run follows it *)

Lemma advance_told s e sa h : told (advance s e sa h) = told s ++ [e].
Proof. unfold advance. by destruct (h _) as [[]]. Qed.
Lemma advance_goes f p e (s : Supervised) sa h :
  is_ended p = false → yields h (sv_domain s, sv_flight s) (goes f p e) →
  goes f p e (sv_pc (advance s e sa h)).
Proof.
  intros Hp Hy. unfold advance. destruct (h _) as [[q|err] w] eqn:Hh; simpl.
  - by eapply Hy.
  - by constructor.
Qed.

Lemma stop_answer_settled s o : stop_answer s = Some o → fl_stop (sv_flight s) = stop_settled o.
Proof. unfold stop_answer. destruct (fl_stop _); try done. by intros [= ->]. Qed.
(** The wait for the stop, whose answer is a rejection or a result. *)
Lemma stop_seen_goes s (k : StopProcessResult → PM RunPc) s' :
  is_ended (sv_pc s) = false →
  (∀ r, fl_stop (sv_flight s) = stop_settled (Ok r) →
    yields (k r) (sv_domain s, sv_flight s) (goes (sv_flight s) (sv_pc s) StopSeen)) →
  (λ o, advance s StopSeen (sv_sampler s) (lift o ≫= k)) <$> stop_answer s = Some s' →
  goes (sv_flight s) (sv_pc s) StopSeen (sv_pc s') ∧ told s' = told s ++ [StopSeen].
Proof.
  intros Hp Hk. destruct (stop_answer s) as [o|] eqn:Ho; [|done]. intros [= <-].
  apply stop_answer_settled in Ho. split; [|apply advance_told].
  apply advance_goes; [done|]. apply yields_lift. intros r ->. by apply Hk.
Qed.

Ltac by_handler :=
  lazymatch goal with
  | |- yields (mret _) _ _ => apply yields_ret; by constructor
  | |- yields (throw _) _ _ => apply yields_throw
  | |- yields (launch _ _ _ _) _ _ => apply launch_goes
  | |- yields (spawned _ _ _ _) _ _ => apply spawned_goes
  | |- yields (failSpawn _ _ _ _) _ _ => goes_end; apply fail_spawn_ends
  | |- yields (abort _ _ _ _ _) _ _ => apply abort_goes
  | |- yields (settleRootOutcome _ _ _ _) _ _ => apply root_goes
  | |- yields (timeout_settled _ _ _ _ _) _ _ => apply timeout_goes
  | |- yields (drain_waited _ _ _ _ _) _ _ => apply drain_goes
  | |- yields (reaped _ _ _ _ _) _ _ => apply reaped_goes
  | |- yields (drained_again _ _ _ _ _) _ _ => apply drained_again_goes
  | |- yields (escaped _ _ _ _) _ _ => goes_end; apply escaped_ends
  | |- yields (tree_answered _ _ _ _) _ _ => apply tree_goes
  | |- yields (tree_stopped _ _ _ _ _) _ _ => apply tree_stopped_goes
  | |- yields (verified _ _ _ _ _ _ _ _) _ _ => apply verified_goes
  | |- yields (stop_answered _ _ _ _ _ _) _ _ => apply stop_answered_goes
  end.

Lemma answer_goes s e s' :
  answer decode plan cancelled now s e = Some s' →
  goes (sv_flight s) (sv_pc s) e (sv_pc s') ∧ told s' = told s ++ [e].
Proof.
  unfold answer. destruct (sv_pc s) eqn:Hpc, e as
    [al b|[i|er] g|st| |x'| | |pe fin|x'|dr|st|ta|hi|ve cap|gr|ps|sa hs|by'|d']; try done.
  all: try (intros [= <-]; split; [apply advance_goes; [done|]|apply advance_told]).
  all: try (apply yields_lift; intros ? ->).
  all: try by_handler.
  - destruct (eo_timeoutMs _) as [t|]; [destruct (bool_decide _)|]; try done. intros [= <-].
    split; [apply advance_goes; [done|by_handler]|apply advance_told].
  - destruct (stop_answer s) as [[r|err]|] eqn:Ho; [|destruct early; [|done]|done].
    all: intros [= <-]; split; [apply advance_goes; [done|]|apply advance_told].
    + apply yields_ret, goes_stop. by apply stop_answer_settled.
    + by_handler.
  - destruct (settle_sampler _ _ _ _ _) as [r w]. intros [= <-].
    split; [apply advance_goes; [done|by_handler]|by rewrite advance_told].
  - rewrite -Hpc. apply stop_seen_goes; rewrite Hpc; [done|]. intros. by_handler.
  - apply yields_bind. intros [] w _. by_handler.
  - rewrite -Hpc. apply stop_seen_goes; rewrite Hpc; [done|]. intros. by_handler.
Qed.

(** *** How many answers a run takes *)

Definition is_answer (e : RunEvent) : bool :=
  match e with
  | Cancel _ | PipelineStopped _ | Sampled _ _ | OutputSeen _ | Elsewhere _ => false
  | _ => true
  end.
Definition answers_taken (l : list RunEvent) : nat := length (List.filter is_answer l).
Lemma answers_snoc l e : answers_taken (l ++ [e]) = answers_taken l + (if is_answer e then 1 else 0).
Proof. unfold answers_taken. rewrite List.filter_app length_app. simpl. by destruct (is_answer e). Qed.

Lemma aside_keeps s e s' :
  aside plan cancelled now s e = Some s' →
  sv_pc s' = sv_pc s ∧ told s' = told s ++ [e] ∧ is_answer e = false.
Proof.
  unfold aside, beside. destruct e; try done.
  - destruct (is_ended _); [done|]. destruct (cancelOperation _ _ _). by intros [= <-].
  - destruct (fl_stop _); try done. destruct (pipeline_stopped _ _ _ _). by intros [= <-].
  - destruct (sv_pc s) eqn:Hpc; try done. destruct (eo_resourceBudget (plan_options plan)); [|done]. destruct (_ && _); [|done].
    destruct (sampled _ _ _ _ _ _ _). by intros [= <-].
  - destruct (drains _); [|done]. destruct (output_seen _ _ _ _). by intros [= <-].
  - by intros [= <-].
Qed.
Lemma step_waits s e (s' := step decode plan cancelled now s e) :
  answers_taken (told s') + waits_left (sv_pc s') ≤ answers_taken (told s) + waits_left (sv_pc s).
Proof.
  unfold s', step. destruct (answer _ _ _ _ _ _) as [s1|] eqn:Ha.
  - apply answer_goes in Ha as [Hg ->]. apply goes_closer in Hg. rewrite answers_snoc.
    destruct (is_answer e); lia.
  - destruct (aside _ _ _ _ _) as [s1|] eqn:Hs; simpl; [|done].
    apply aside_keeps in Hs as (-> & -> & He). rewrite answers_snoc He. lia.
Qed.
End Flow.

(** A run ends: whatever comes, in whatever order, it takes at most fourteen
    answers, counting down the waits it has left, and when it has none left it
    has ended. *)
Theorem run_answers_bounded `{Crypto} decode plan cancelled now f d es
    (s := run_process decode plan cancelled (runProcess plan now f d) es) :
  answers_taken (told s) + waits_left (sv_pc s) ≤ 14 ∧
  (waits_left (sv_pc s) = 0 ↔ is_ended (sv_pc s) = true).
Proof.
  split; [|by destruct (sv_pc s)]. subst s. unfold run_process.
  assert (∀ s0, answers_taken (told s0) + waits_left (sv_pc s0) ≤ 14 →
    ∀ s, s = foldl (λ s e, step decode plan cancelled e.1 s e.2) s0 es →
    answers_taken (told s) + waits_left (sv_pc s) ≤ 14) as Hrun.
  { induction es as [|[t e] es IH]; intros s0 H0 s ->; [done|]. eapply IH; [|reflexivity].
    pose proof (step_waits decode plan cancelled t s0 e). simpl in *. lia. }
  eapply Hrun; [|reflexivity]. unfold runProcess.
  destruct (allocateResourcesWithWait _ _ _ _ _ _ _) as [[]]; cbn; lia.
Qed.
