(* ===== verification/ProcessInv.v ===== *)
(** * ProcessInv: what the calls of a run do to its operation

    The relation "no determinate result of the operation has appeared and its leases
    are still there", and the calls that keep it; what the methods of a run do to
    its flight. *)

From stdpp Require Import pretty.
From S2P Require Import Prelude Types Events Encode Config Store StoreCalls Paths Capability StoreSpec Domain Authority Rollback Recovery DomainInv RecoverySpec Drainer Supervisor ProcessRun.

(** ** The guard of an operation *)

(** Done, without an indeterminate result. *)
Definition op_clean (op : Operation) : Prop :=
  op_done op = true ∧ ∀ r, op_result op = Some r → is_indeterminate r = false.

Record guarded (id : string) (d d' : Db) : Prop := {
  gu_clean : ∀ op', find_operation id d' = Some op' → op_clean op' →
    ∃ op, find_operation id d = Some op ∧ op_clean op;
  gu_leases : ∀ l, l ∈ db_resource_leases d → lease_operationId l = id → l ∈ db_resource_leases d';
}.
#[export] Instance guarded_preorder id : PreOrder (guarded id).
Proof.
  split.
  - intros d. split; [|done]. intros op Ho Hc. by exists op.
  - intros d1 d2 d3 [Hc1 Hl1] [Hc2 Hl2]. split; [|auto].
    intros op Ho Hc. destruct (Hc2 _ Ho Hc) as (op2 & Ho2 & Hc2'). eauto.
Qed.

Section Guard.
Context (id : string).
Notation R := (guarded id).

Lemma guarded_same d d' :
  db_operations d' = db_operations d → db_resource_leases d' = db_resource_leases d → R d d'.
Proof.
  intros Ho Hl. split; [|by rewrite Hl]. unfold find_operation. rewrite Ho. intros op Hf Hc. by exists op.
Qed.
Lemma guarded_event row d : R d (with_journal row d).
Proof. by apply guarded_same. Qed.
Lemma respects_event_guarded now ev : respects (on_db R) (recordEventAndTransitionState now ev).
Proof. apply respects_any_event; [apply _|apply guarded_event]. Qed.

(** An update of a row that does not make it clean. *)
Lemma guarded_update id' f d :
  (∀ o, op_id (f o) = op_id o) → (∀ o, op_clean (f o) → op_clean o) →
  R d (with_operations (update_where (λ o, bool_decide (op_id o = id')) f) d).
Proof.
  intros Hid Hf. split; [|done]. intros op' Ho Hc. unfold find_operation in *. simpl in Ho.
  rewrite find_update_where in Ho; [|by intros o _; rewrite Hid].
  destruct (List.find _ (db_operations d)) as [o|]; [|done]. exists o. split; [done|].
  simpl in Ho. case_bool_decide; simplify_eq; auto.
Qed.

#[local] Hint Resolve respects_event_guarded : guard.
Ltac guard_tac :=
  repeat first
    [ progress (eauto 3 with guard xio typeclass_instances)
    | apply respects_transaction; [typeclasses eauto|]
    | respects_step ].

Lemma respects_status_guarded now id' st i ref :
  st ≠ st_done → respects (on_db R) (updateOperationStatus now id' st i ref).
Proof.
  intros Hst. unfold updateOperationStatus, getOperation. guard_tac.
  all: apply respects_exec; intros d; apply guarded_update; [done|].
  all: intros o [Hd _]; unfold op_done in Hd; simpl in Hd; apply bool_decide_eq_true in Hd; done.
Qed.
Lemma respects_record_guarded now id' r release :
  is_indeterminate r = true → respects (on_db R) (recordOperationResult now id' r release).
Proof.
  intros Hr. unfold recordOperationResult, getOperation. rewrite Hr andb_false_r. guard_tac.
  apply respects_exec; intros d; apply guarded_update; [done|].
  intros o' [_ Hc]. simpl in Hc. specialize (Hc _ eq_refl). congruence.
Qed.
Lemma respects_run_guarded now run st t e : respects (on_db R) (updateRunStatus now run st t e).
Proof.
  unfold updateRunStatus, getRun. guard_tac.
  all: apply respects_exec; intros d; by apply guarded_same.
Qed.
Lemma respects_evidence_guarded id' patch : respects (on_db R) (updateRecoveryEvidence id' patch).
Proof.
  unfold updateRecoveryEvidence, getOperation. guard_tac.
  apply respects_exec; intros d; by apply guarded_update.
Qed.
Lemma guarded_append row d :
  op_done row = false → R d (with_operations (λ l, l ++ [row]) d).
Proof.
  intros Hrow. split; [|done]. intros op Ho Hc. unfold find_operation in *. simpl in Ho.
  rewrite find_app in Ho. destruct (List.find _ (db_operations d)) as [o|]; [by exists op|].
  simpl in Ho. case_bool_decide; simplify_eq. destruct Hc as [Hd _]. congruence.
Qed.
Lemma respects_lease_guarded lease : respects (on_db R) (insert_lease lease).
Proof.
  unfold insert_lease. guard_tac. apply respects_exec. intros d. split; [intros op Ho Hc; by exists op|].
  intros l Hl _. simpl. apply elem_of_app. by left.
Qed.
#[local] Hint Resolve respects_lease_guarded : guard.
Lemma respects_intent_guarded `{Crypto} now op dom : respects (on_db R) (registerOperationIntent now op dom).
Proof.
  unfold registerOperationIntent, assert_config, assert_run_accepts, insert_operation, getRun, getOperation. guard_tac.
  all: apply respects_exec; intros d; by apply guarded_append.
Qed.

(** *** Methods of the domain *)

Notation D := (dom_db R).
Lemma respects_finalize_guarded now cancelled id' r res :
  is_indeterminate r = true → respects D (finalizeOperation now cancelled id' r res false).
Proof.
  intros Hr. unfold finalizeOperation, getOperation.
  apply respects_bind; [apply _|apply (respects_on_query R)|intros existing].
  apply respects_bind; [apply _|guard_tac|intros _].
  assert (is_indeterminate (match existing with Some op => adopt_ids op r | None => r end) = true) as Hr'
    by by destruct existing.
  rewrite Hr'. pose proof (λ A f, @respects_on_query R _ A f).
  pose proof (λ r Hr, respects_on_store R _ (respects_record_guarded now id' r false Hr)).
  pose proof (λ run st t e, respects_on_store R _ (respects_run_guarded now run st t e)). guard_tac.
Qed.
Lemma respects_cancelWait_guarded id' : respects D (cancelWait id').
Proof.
  pose proof (λ i o, respects_settle R i o). unfold cancelWait. guard_tac.
  by apply (respects_memory R).
Qed.
Lemma respects_capability_guarded now a b c d e f g :
  respects D (recordCapabilityUsed now a b c d e f g).
Proof.
  pose proof (λ ev, respects_on_store R _ (respects_event_guarded now ev)).
  unfold recordCapabilityUsed, recordJournalEvent. guard_tac.
Qed.
End Guard.

(** ** Methods on the world of a run *)

Definition world_db (R : relation Db) : relation World := λ w w', dom_db R w.1 w'.1.
Definition on_flight (F : relation Flight) : relation World := λ w w', F w.2 w'.2.
#[export] Instance world_db_preorder R `{!PreOrder R} : PreOrder (world_db R).
Proof.
  split; unfold world_db, dom_db; [intros w; reflexivity|]. intros w1 w2 w3 H1 H2. by etransitivity.
Qed.
#[export] Instance on_flight_preorder F `{!PreOrder F} : PreOrder (on_flight F).
Proof. split; unfold on_flight; [intros w; reflexivity|]. intros w1 w2 w3 H1 H2. by etransitivity. Qed.

Lemma on_domain_run {A} (m : DM A) w : on_domain m w = ((m w.1).1, ((m w.1).2, w.2)).
Proof. unfold on_domain, focus. by destruct (m w.1). Qed.
Lemma respects_on_domain R {A} (m : DM A) : respects (dom_db R) m → respects (world_db R) (on_domain m).
Proof. intros Hm w. rewrite on_domain_run. apply Hm. Qed.
Lemma respects_domain_flight F `{!PreOrder F} {A} (m : DM A) : respects (on_flight F) (on_domain m).
Proof. intros w. rewrite on_domain_run. unfold on_flight. simpl. reflexivity. Qed.
Lemma respects_set_world R `{!PreOrder R} f : respects (world_db R) (set_flight f).
Proof. intros w. unfold world_db, dom_db. simpl. reflexivity. Qed.
Lemma respects_set_flight (F : relation Flight) f : (∀ x, F x (f x)) → respects (on_flight F) (set_flight f).
Proof. intros Hf w. apply Hf. Qed.
