(* ===== verification/ProcessSpec.v ===== *)
(** * ProcessSpec: what the methods of a run keep

    Of the operation (no determinate result appears, the leases stay) and of the
    flight (its handle stays, a stop once promised stays, and a stop is only
    settled by the pipeline): the lemmas the invariant of a run is made of. *)

From stdpp Require Import pretty.
From S2P Require Import Prelude Types Events Encode Config Store StoreCalls Samples Paths Capability StoreSpec Domain Authority Rollback Recovery DomainInv RecoverySpec Drainer Supervisor ProcessRun ProcessInv.

(** ** What the methods of a run do to its flight *)

Record flight_step (f f' : Flight) : Prop := {
  fs_id : fl_opId f' = fl_opId f;
  fs_handle : fl_handle f' = fl_handle f;
  fs_has : has_stop (fl_stop f) = true → has_stop (fl_stop f') = true;
  fs_ok : ∀ s, fl_stop f' = stop_settled (Ok s) → fl_handle f = None ∨ fl_stop f = stop_settled (Ok s);
}.
#[export] Instance flight_step_preorder : PreOrder flight_step.
Proof.
  split.
  - intros f. split; auto.
  - intros f1 f2 f3 [I1 H1 S1 K1] [I2 H2 S2 K2]. split; [congruence|congruence|auto|].
    intros s Hs. destruct (K2 s Hs) as [Hn|Hs2]; [left; congruence|]. by apply K1.
Qed.

Section Methods.
Context (id : string) `{Crypto} (now : Z) (cancelled : nat → bool).
Notation G := (world_db (guarded id)).
Notation F := (on_flight flight_step).

Lemma flight_same f g : (∀ x, fl_opId (g x) = fl_opId x ∧ fl_handle (g x) = fl_handle x ∧ fl_stop (g x) = fl_stop x) →
  flight_step f (g f).
Proof. intros Hg. destruct (Hg f) as (Hi & Hh & Hs). split; rewrite ?Hi ?Hh ?Hs; auto. Qed.

Lemma respects_flight : respects G flight ∧ respects F flight.
Proof. split; apply respects_gets, _. Qed.

Lemma ensureActive_cases w :
  (∃ e, ensureActiveOperation w = (Throw e, w)) ∨
  (ensureActiveOperation w = (Ok tt, w) ∧ fl_phase w.2 ≠ ph_done).
Proof.
  unfold ensureActiveOperation, mbind, ST_bind, get_state, throw_if.
  destruct (negb (dom_lockHeld w.1)); cbn; [left; by eexists|].
  case_bool_decide; cbn; [left; by eexists|by right].
Qed.

Ltac world_tac :=
  repeat first
    [ progress (eauto 4 using respects_set_world, respects_gets with xio typeclass_instances)
    | apply respects_on_domain
    | respects_step ].

Lemma respects_stopping_guarded i r :
  respects (dom_db (guarded id)) (on_store (updateOperationStatus now i st_stopping None r)).
Proof. apply respects_on_store; [apply _|]. by apply respects_status_guarded. Qed.
Lemma respects_pipeline_guarded reason : respects G (handleStopPipeline now reason).
Proof.
  pose proof respects_stopping_guarded.
  unfold handleStopPipeline, ensureActiveOperation, flight. world_tac.
Qed.
Lemma pipeline_flight reason : respects F (handleStopPipeline now reason).
Proof.
  intros w. unfold handleStopPipeline.
  destruct (ensureActive_cases w) as [[e He]|[He _]].
  { rewrite (run_bind_Throw _ _ _ _ _ He). unfold on_flight. reflexivity. }
  rewrite (run_bind_Ok _ _ _ _ _ He). unfold flight. rewrite run_gets.
  destruct (bool_decide (fl_phase w.2 = ph_stopping) && _); [unfold on_flight; simpl; reflexivity|].
  unfold set_flight at 1. rewrite run_modify.
  set (g := set_phase ph_stopping w.2). assert (∀ b, flight_step w.2 (set_reason (Some reason)
    (if b : bool then set_cancel (fl_cancelGraceMs g) g else g))) as Hg by by intros []; split; auto.
  assert (∀ (k : unit → PM unit), (when (bool_decide (reason = user_cancelled))
      (set_flight (λ f, set_cancel (fl_cancelGraceMs f) f)) ≫= k) (w.1, g)
    = k tt (w.1, if bool_decide (reason = user_cancelled) then set_cancel (fl_cancelGraceMs g) g else g)) as Hw.
  { intros k. by destruct (bool_decide (reason = user_cancelled)). }
  rewrite Hw. specialize (Hg (bool_decide (reason = user_cancelled))).
  unfold set_flight at 1. rewrite run_modify. cbn [fst snd].
  set (g' := set_reason _ _) in *. destruct (fl_handle w.2) eqn:Hh.
  - unfold try_catch, set_flight, on_flight. unfold mbind, ST_bind. rewrite on_domain_run. simpl.
    destruct (on_store _ w.1) as [[[]|e] d]; simpl; (etransitivity; [exact Hg|split; done]).
  - unfold set_flight, on_flight. simpl. destruct Hg. split; auto.
Qed.

Lemma pipeline_has_stop reason w w' :
  handleStopPipeline now reason w = (Ok tt, w') → has_stop (fl_stop w'.2) = true.
Proof.
  unfold handleStopPipeline. intros ([] & w1 & _ & Hrun)%bind_Ok_inv.
  apply bind_Ok_inv in Hrun as (f & w2 & [= <- <-] & Hrun).
  destruct (bool_decide (fl_phase w1.2 = ph_stopping) && has_stop (fl_stop w1.2)) eqn:Hj.
  { injection Hrun as <-. by apply andb_true_iff in Hj as [_ ?]. }
  apply bind_Ok_inv in Hrun as ([] & w3 & _ & Hrun).
  apply bind_Ok_inv in Hrun as ([] & w4 & _ & Hrun).
  apply bind_Ok_inv in Hrun as ([] & w5 & _ & Hrun).
  destruct (fl_handle w1.2); [|by injection Hrun as <-].
  unfold try_catch, set_flight, mbind, ST_bind in Hrun. rewrite on_domain_run in Hrun. simpl in Hrun.
  destruct (on_store _ w5.1) as [[[]|e] d]; simpl in Hrun; by injection Hrun as <-.
Qed.

Lemma respects_stopped_guarded o : respects G (pipeline_stopped now cancelled o).
Proof.
  pose proof (λ i f r a b c d e, respects_finalize_guarded id now cancelled i (indeterminateResult now f r a b c d) e eq_refl).
  pose proof (λ A f, @respects_on_query (guarded id) _ A f).
  unfold pipeline_stopped, flight, getOperation. world_tac.
Qed.
Lemma respects_cancel_guarded grace : respects G (cancelOperation now grace).
Proof.
  pose proof (respects_pipeline_guarded). pose proof (respects_cancelWait_guarded id).
  unfold cancelOperation, ensureActiveOperation, flight. world_tac.
Qed.
Lemma cancel_flight grace : respects F (cancelOperation now grace).
Proof.
  intros w. unfold cancelOperation.
  destruct (ensureActive_cases w) as [[e He]|[He _]].
  { rewrite (run_bind_Throw _ _ _ _ _ He). unfold on_flight. reflexivity. }
  rewrite (run_bind_Ok _ _ _ _ _ He). unfold flight, set_flight at 1 2. rewrite !run_modify run_gets. cbn [fst snd].
  set (g := set_reason _ _). assert (flight_step w.2 g) as Hg by by split; auto.
  unfold on_flight. etransitivity; [exact Hg|].
  unfold mbind, ST_bind. rewrite on_domain_run. cbn [fst snd].
  destruct (cancelWait _ _) as [[b|e] d]; cbn [fst snd]; [|reflexivity].
  destruct (bool_decide _ || _); [apply (pipeline_flight user_cancelled (d, g))|].
  destruct (negb (has_stop (fl_stop g))) eqn:Hs; [|reflexivity]. simpl. split; done.
Qed.

(** *** Samples, output *)

Context (decode : Content → string) (plan : ProcessRunPlan).

Lemma flight_set g : (∀ x, fl_opId (g x) = fl_opId x ∧ fl_handle (g x) = fl_handle x ∧ fl_stop (g x) = fl_stop x) →
  respects F (set_flight g).
Proof. intros Hg. apply respects_set_flight. intros x. by apply flight_same. Qed.

Ltac flight_tac :=
  repeat first
    [ progress (eauto 4 using respects_gets, respects_domain_flight, pipeline_flight with xio typeclass_instances)
    | apply flight_set; intros ?; done
    | respects_step ].

Lemma respects_stopFor reason : respects G (stopFor now reason) ∧ respects F (stopFor now reason).
Proof.
  pose proof respects_pipeline_guarded. pose proof pipeline_flight. unfold stopFor.
  split; [world_tac|flight_tac].
Qed.
Lemma respects_sampled b o hits sa :
  respects G (sampled plan now b o hits sa) ∧ respects F (sampled plan now b o hits sa).
Proof.
  pose proof (λ r, proj1 (respects_stopFor r)). pose proof (λ r, proj2 (respects_stopFor r)).
  unfold sampled, flight. split; [world_tac|flight_tac].
Qed.
Lemma respects_settle_sampler p fin sa :
  respects G (settle_sampler plan p fin sa) ∧ respects F (settle_sampler plan p fin sa).
Proof. unfold settle_sampler. split; [world_tac|flight_tac]. Qed.
Lemma respects_output total : respects G (output_seen plan now total) ∧ respects F (output_seen plan now total).
Proof.
  pose proof respects_pipeline_guarded. pose proof pipeline_flight.
  unfold output_seen, flight. split; [world_tac|flight_tac].
Qed.

(** *** The handlers that record nothing determinate *)

Lemma respects_hold reason c g t se : respects G (holdLeases plan now cancelled reason c g t se).
Proof.
  unfold holdLeases, finalize, flight.
  pose proof (λ i f r a b c d e, respects_finalize_guarded id now cancelled i (indeterminateResult now f r a b c d) e eq_refl).
  world_tac.
Qed.
Lemma respects_unconfirmed s c : respects G (recordUnconfirmedStop plan now cancelled s c).
Proof.
  pose proof respects_hold. pose proof (λ A f, @respects_on_query (guarded id) _ A f).
  unfold recordUnconfirmedStop, getOperation, flight. world_tac.
Qed.
Lemma respects_hold_timeout s : respects G (hold_timeout plan now cancelled s).
Proof. pose proof respects_hold. unfold hold_timeout, flight. world_tac. Qed.
Lemma respects_root o : respects G (settleRootOutcome plan now cancelled o).
Proof.
  pose proof respects_unconfirmed. pose proof respects_pipeline_guarded.
  unfold settleRootOutcome. world_tac.
Qed.
Lemma respects_timeout_settled s x : respects G (timeout_settled plan now cancelled s x).
Proof.
  pose proof respects_hold_timeout. pose proof (λ A f, @respects_on_query (guarded id) _ A f).
  unfold timeout_settled, getOperation. world_tac.
Qed.
Lemma respects_record_drained d : respects G (record_drained plan now d).
Proof.
  pose proof (λ i p, respects_on_store _ _ (respects_evidence_guarded id i p)).
  unfold record_drained. world_tac.
Qed.
Lemma respects_drain_waited x n b : respects G (drain_waited plan now x n b).
Proof. pose proof respects_record_drained. unfold drain_waited, flight. world_tac. Qed.
Lemma respects_reaped x s : respects G (reaped plan now cancelled x s).
Proof. pose proof respects_hold. unfold reaped, flight. world_tac. Qed.
Lemma respects_drained_again x u b : respects G (drained_again plan now x u b).
Proof. pose proof respects_record_drained. unfold drained_again, flight. world_tac. Qed.
Lemma respects_escaped x : respects G (escaped plan now cancelled x).
Proof. pose proof respects_hold. unfold escaped, flight. world_tac. Qed.
Lemma respects_tree_answered x a : respects G (tree_answered plan now x a).
Proof. pose proof respects_record_drained. unfold tree_answered. world_tac. Qed.
Lemma respects_tree_stopped x s : respects G (tree_stopped plan now cancelled x s).
Proof.
  pose proof respects_record_drained. pose proof respects_hold. unfold tree_stopped, flight. world_tac.
Qed.
Lemma respects_hits hits : respects G (record_hits plan hits).
Proof. unfold record_hits, flight. world_tac. Qed.
Lemma respects_activate i g : respects G (activate plan now i g).
Proof.
  pose proof (respects_capability_guarded id).
  assert (∀ i', respects (dom_db (guarded id)) (on_store (updateOperationStatus now i' st_active (Some i) None))).
  { intros i'. apply respects_on_store; [apply _|]. by apply respects_status_guarded. }
  unfold activate. world_tac.
Qed.
Lemma respects_supervise : respects G (superviseActive now).
Proof. pose proof respects_pipeline_guarded. unfold superviseActive, flight. world_tac. Qed.
Lemma respects_spawned i g : respects G (spawned plan now i g).
Proof. pose proof respects_activate. pose proof respects_supervise. unfold spawned. world_tac. Qed.

(** *** The handlers keep the stop of the flight *)

Lemma hold_flight a b c d e : respects F (holdLeases plan now cancelled a b c d e).
Proof. unfold holdLeases, finalize, flight. flight_tac. Qed.
Lemma unconfirmed_flight s c : respects F (recordUnconfirmedStop plan now cancelled s c).
Proof. pose proof hold_flight. unfold recordUnconfirmedStop, flight. flight_tac. Qed.
Lemma root_flight o : respects F (settleRootOutcome plan now cancelled o).
Proof. pose proof unconfirmed_flight. unfold settleRootOutcome. flight_tac. Qed.
Lemma timeout_flight r x : respects F (timeout_settled plan now cancelled r x).
Proof. pose proof hold_flight. unfold timeout_settled, hold_timeout, flight. flight_tac. Qed.
Lemma record_flight d : respects F (record_drained plan now d).
Proof. unfold record_drained. flight_tac. Qed.
Lemma drain_flight x n b : respects F (drain_waited plan now x n b).
Proof. pose proof record_flight. unfold drain_waited, flight. flight_tac. Qed.
Lemma reaped_flight x r : respects F (reaped plan now cancelled x r).
Proof. pose proof hold_flight. unfold reaped, flight. flight_tac. Qed.
Lemma drained_again_flight x u b : respects F (drained_again plan now x u b).
Proof. pose proof record_flight. unfold drained_again, flight. flight_tac. Qed.
Lemma escaped_flight x : respects F (escaped plan now cancelled x).
Proof. pose proof hold_flight. unfold escaped, flight. flight_tac. Qed.
Lemma tree_flight x t : respects F (tree_answered plan now x t).
Proof. pose proof record_flight. unfold tree_answered. flight_tac. Qed.
Lemma tree_stopped_flight x r : respects F (tree_stopped plan now cancelled x r).
Proof. pose proof record_flight. pose proof hold_flight. unfold tree_stopped, flight. flight_tac. Qed.
Lemma hits_flight hits : respects F (record_hits plan hits).
Proof. unfold record_hits, flight. flight_tac. Qed.
Lemma finish_flight r read : respects F (finish plan now cancelled r read).
Proof. unfold finish, finalize. flight_tac. Qed.
Lemma verified_flight sa d i c : respects F (verified decode plan now cancelled sa d i c).
Proof. pose proof finish_flight. unfold verified, flight. flight_tac. Qed.
Lemma stop_answered_flight r read stop : respects F (stop_answered plan now cancelled r read stop).
Proof. pose proof finish_flight. pose proof unconfirmed_flight. unfold stop_answered. flight_tac. Qed.
Lemma activate_flight i g : respects F (activate plan now i g).
Proof. unfold activate. flight_tac. Qed.
Lemma supervise_flight : respects F (superviseActive now).
Proof. unfold superviseActive, flight. flight_tac. Qed.
End Methods.
