(* ===== verification/ProcessHold.v ===== *)
(** * ProcessHold: a run holds its operation until what ran is accounted for

    The invariant of a run relates where it waits to what it has been told. A
    process is accounted for when it was never spawned, when its stop was confirmed,
    or when its root has exited, its pipes were drained and its tree was asked for. *)

From stdpp Require Import pretty.
From S2P Require Import Prelude Types Events Encode Config Store StoreCalls Samples Paths Capability StoreSpec Domain Authority Rollback Recovery DomainInv DomainSpec RecoverySpec Drainer Supervisor ProcessRun ProcessFlow ProcessInv ProcessSpec.

(** ** What a run has been told *)

Section Told.
Implicit Types (l : list RunEvent).
Definition never_spawned l : Prop := ∀ i gate, Spawned (Ok i) gate ∉ l.
Definition abort_confirmed l : Prop := ∃ r, AbortStopped (Ok r) ∈ l ∧ confirmed r = true.
Definition stop_confirmed l : Prop := ∃ r, PipelineStopped (Ok r) ∈ l ∧ confirmed r = true.
Definition root_exited l : Prop := ∃ e, RootExited e ∈ l.
(** Empty, not observable with this driver, or stopped. *)
Definition tree_known l : Prop :=
  (∃ t, TreeAnswered (Ok t) ∈ l ∧ t ≠ answer_residual) ∨
  (∃ r, Terminated (Ok r) ∈ l ∧ confirmed r = true).
Definition pipes_drained l : Prop := DrainWaited true ∈ l.

Definition accounted l : Prop :=
  never_spawned l ∨ abort_confirmed l ∨
  (pipes_drained l ∧ (stop_confirmed l ∨ (root_exited l ∧ tree_known l))).

(** Where a run waits, for what it has been told. *)
Definition early (f : Flight) : Prop :=
  fl_phase f ≠ ph_active ∧ fl_phase f ≠ ph_stopping ∧ (fl_stop f = stop_none ∨ fl_stop f = stop_promised).
Definition before_spawn (p : RunPc) : bool := match p with at_allocate | at_spawn => true | _ => false end.
Definition stop_told l (f : Flight) : Prop := ∀ r, fl_stop f = stop_settled (Ok r) → PipelineStopped (Ok r) ∈ l.
Definition pc_told l (f : Flight) (p : RunPc) : Prop :=
  match p with
  | at_allocate | at_spawn => never_spawned l ∧ early f
  | at_abort_exit _ r => AbortStopped (Ok r) ∈ l
  | at_sampler (root_exit _) => root_exited l
  | at_sampler (root_stop r) | at_timeout_exit r => PipelineStopped (Ok r) ∈ l
  | at_exit_after_stop => stop_confirmed l
  | at_drain _ natural => if natural then root_exited l else stop_confirmed l
  | at_reap _ => root_exited l
  | at_drain_again _ _ => root_exited l ∧ tree_known l
  | at_settle _ | at_settle_stop _ => root_exited l ∧ pipes_drained l
  | at_hits _ | at_verify _ =>
      pipes_drained l ∧ (stop_confirmed l ∨ (root_exited l ∧ (tree_known l ∨ has_stop (fl_stop f) = true)))
  | at_stop_result _ _ => pipes_drained l ∧ (stop_confirmed l ∨ root_exited l)
  | _ => True
  end.
Record run_ok (s : Supervised) : Prop := {
  ro_pc : pc_told (told s) (sv_flight s) (sv_pc s);
  ro_spawned : before_spawn (sv_pc s) = false → is_ended (sv_pc s) = false →
    fl_handle (sv_flight s) ≠ None ∧ stop_told (told s) (sv_flight s);
}.

Lemma run_ended s : is_ended (sv_pc s) = true → run_ok s.
Proof. destruct s as [d f p sa out l]; simpl. by destruct p. Qed.

(** *** More events, another state of the flight *)

Lemma told_more l l' : l ⊆ l' →
  (abort_confirmed l → abort_confirmed l') ∧ (stop_confirmed l → stop_confirmed l') ∧
  (root_exited l → root_exited l') ∧ (tree_known l → tree_known l') ∧ (pipes_drained l → pipes_drained l').
Proof.
  intros Hl. unfold abort_confirmed, stop_confirmed, root_exited, tree_known, pipes_drained.
  split_and!; naive_solver.
Qed.
Lemma snoc_more l (e : RunEvent) : l ⊆ l ++ [e].
Proof. intros x Hx. apply elem_of_app. by left. Qed.
Lemma never_spawned_snoc l e : never_spawned l → (∀ i g, e ≠ Spawned (Ok i) g) → never_spawned (l ++ [e]).
Proof. intros Hl He i g [Hx|Hx%list_elem_of_singleton]%elem_of_app; [by eapply Hl|by eapply He]. Qed.
Lemma pc_told_more l l' f f' p : l ⊆ l' → before_spawn p = false →
  (has_stop (fl_stop f) = true → has_stop (fl_stop f') = true) → pc_told l f p → pc_told l' f' p.
Proof.
  intros Hl Hp Hhas. pose proof (told_more _ _ Hl) as (Ha & Hs & Hr & Ht & Hd).
  destruct p as [| | | | |[]| | | |? []| | | | | | | | |]; simpl in *; try done; naive_solver.
Qed.
End Told.

Section Hold.
Context (id : string) `{Crypto} (decode : Content → string) (plan : ProcessRunPlan) (cancelled : nat → bool).
Notation G := (world_db (guarded id)).
Notation GD := (dom_db (guarded id)).

(** ** The invariant is kept by what is told *)

Lemma goes_told l f p e q :
  goes f p e q → before_spawn p = false → stop_told l f → pc_told l f p → is_ended q = false →
  pc_told (l ++ [e]) f q.
Proof.
  intros Hg Hp Hstop Hl Hq. pose proof (told_more _ _ (snoc_more l e)) as (_ & Hs & Hr & Ht & Hd).
  assert (e ∈ l ++ [e]) as He by (apply elem_of_app; right; by apply list_elem_of_singleton).
  assert (∀ x, x ∈ l → x ∈ l ++ [e]) as Hin by exact (snoc_more l e).
  destruct Hg as [p e o| | | | |? x| |? r Hr0| | |r ? ? Hc| |r Hr0|r x Hc|x [] d Hn| | | |x u r Hc| |
    |x t d Ht0| |x r d Hc| | ]; simpl in *; try done.
  all: unfold stop_confirmed, root_exited, tree_known, pipes_drained in *.
  all: try solve [intuition eauto].
  destruct Hn; [done|]. intuition eauto.
Qed.

(** A step after the spawn. *)
Lemma run_ok_step s s' e :
  run_ok s → before_spawn (sv_pc s) = false → goes (sv_flight s) (sv_pc s) e (sv_pc s') →
  told s' = told s ++ [e] → (is_ended (sv_pc s') = false → flight_step (sv_flight s) (sv_flight s')) → run_ok s'.
Proof.
  intros [Hpc Hsp] Hb Hg Htold Hf. destruct (is_ended (sv_pc s')) eqn:He; [by apply run_ended|].
  specialize (Hf eq_refl). destruct (is_ended (sv_pc s)) eqn:Hp.
  { apply goes_closer in Hg. destruct (sv_pc s); simpl in *; try done. lia. }
  destruct (Hsp Hb eq_refl) as [Hh Hs].
  assert (before_spawn (sv_pc s') = false) as Hb'.
  { destruct Hg; done. }
  split.
  - rewrite Htold. eapply pc_told_more; [reflexivity|done|exact (fs_has _ _ Hf)|]. by eapply goes_told.
  - intros _ _. destruct Hf as [_ Hh' _ Hok]. split; [by rewrite Hh'|].
    intros r Hr. rewrite Htold. destruct (Hok r Hr) as [|Hr0]; [done|]. by apply snoc_more, Hs.
Qed.
(** An event beside the run, after the spawn. *)
Lemma run_ok_beside s d f sa out e :
  run_ok s → before_spawn (sv_pc s) = false → flight_step (sv_flight s) f →
  run_ok (mkSupervised d f (sv_pc s) sa out (told s ++ [e])).
Proof.
  intros [Hpc Hsp] Hb Hf. split; simpl.
  - eapply pc_told_more; [apply snoc_more|done|exact (fs_has _ _ Hf)|done].
  - intros _ He. destruct (Hsp Hb He) as [Hh Hs]. destruct Hf as [_ Hh' _ Hok]. split; [by rewrite Hh'|].
    intros r Hr. destruct (Hok r Hr) as [|Hr0]; [done|]. by apply snoc_more, Hs.
Qed.

Lemma advance_flight (s : Supervised) e sa h :
  respects (on_flight flight_step) h → is_ended (sv_pc (advance s e sa h)) = false →
  flight_step (sv_flight s) (sv_flight (advance s e sa h)).
Proof.
  intros Hh. specialize (Hh (sv_domain s, sv_flight s)). unfold advance, on_flight in *.
  destruct (h _) as [[q|err] w]; simpl in *; [|done]. unfold settle_flight. by intros ->.
Qed.
Lemma advance_domain (s : Supervised) e sa h :
  respects G h → GD (sv_domain s) (sv_domain (advance s e sa h)).
Proof.
  intros Hh. specialize (Hh (sv_domain s, sv_flight s)). unfold advance. by destruct (h _) as [[]].
Qed.

(** ** Answers *)

(** A handler that keeps the flight, and one that keeps the operation. *)
Ltac by_flight :=
  lazymatch goal with
  | |- respects _ (lift _ ≫= _) => apply respects_bind; [apply _|apply respects_lift, _|intros ?; by_flight]
  | |- respects _ (mret _) => apply respects_ret, _
  | |- respects _ (throw _) => apply respects_throw, _
  | |- respects _ (settleRootOutcome _ _ _ _) => apply root_flight
  | |- respects _ (timeout_settled _ _ _ _ _) => apply timeout_flight
  | |- respects _ (drain_waited _ _ _ _ _) => apply drain_flight
  | |- respects _ (reaped _ _ _ _ _) => apply reaped_flight
  | |- respects _ (drained_again _ _ _ _ _) => apply drained_again_flight
  | |- respects _ (escaped _ _ _ _) => apply escaped_flight
  | |- respects _ (tree_answered _ _ _ _) => apply tree_flight
  | |- respects _ (tree_stopped _ _ _ _ _) => apply tree_stopped_flight
  | |- respects _ (verified _ _ _ _ _ _ _ _) => apply verified_flight
  | |- respects _ (stop_answered _ _ _ _ _ _) => apply stop_answered_flight
  | |- respects _ (record_hits _ _ ≫= _) => apply respects_bind; [apply _|apply hits_flight|intros ?; by_flight]
  end.
Ltac by_guard :=
  lazymatch goal with
  | |- respects _ (lift _ ≫= _) => apply respects_bind; [apply _|apply respects_lift, _|intros ?; by_guard]
  | |- respects _ (mret _) => apply respects_ret, _
  | |- respects _ (throw _) => apply respects_throw, _
  | |- respects _ (settleRootOutcome _ _ _ _) => apply respects_root
  | |- respects _ (timeout_settled _ _ _ _ _) => apply respects_timeout_settled
  | |- respects _ (drain_waited _ _ _ _ _) => apply respects_drain_waited
  | |- respects _ (reaped _ _ _ _ _) => apply respects_reaped
  | |- respects _ (drained_again _ _ _ _ _) => apply respects_drained_again
  | |- respects _ (escaped _ _ _ _) => apply respects_escaped
  | |- respects _ (tree_answered _ _ _ _) => apply respects_tree_answered
  | |- respects _ (tree_stopped _ _ _ _ _) => apply respects_tree_stopped
  | |- respects _ (record_hits _ _ ≫= _) => apply respects_bind; [apply _|apply respects_hits|intros ?; by_guard]
  end.

(** Where a run may record what the process did. *)
Definition records (p : RunPc) : bool :=
  match p with at_abort_exit _ _ | at_verify _ | at_stop_result _ _ => true | _ => false end.

(** An answer after the spawn is a handler run from where the sampler left. *)
Record handled (s : Supervised) (e : RunEvent) (s' : Supervised) : Prop := mkHandled {
  hd_flight : is_ended (sv_pc s') = false → flight_step (sv_flight s) (sv_flight s');
  hd_guard : records (sv_pc s) = false → GD (sv_domain s) (sv_domain s');
}.
Lemma advance_handled (s : Supervised) e sa h :
  respects (on_flight flight_step) h → (records (sv_pc s) = false → respects G h) →
  handled s e (advance s e sa h).
Proof. intros Hf Hg. split; [by apply advance_flight|]. intros Hr. by apply advance_domain, Hg. Qed.
Lemma stop_seen_handled s (k : StopProcessResult → PM RunPc) s' :
  (∀ r, respects (on_flight flight_step) (k r)) → (records (sv_pc s) = false → ∀ r, respects G (k r)) →
  (λ o, advance s StopSeen (sv_sampler s) (lift o ≫= k)) <$> stop_answer s = Some s' → handled s StopSeen s'.
Proof.
  intros Hf Hg. destruct (stop_answer s) as [o|]; [|done]. intros [= <-].
  apply advance_handled; [|intros Hr]; (apply respects_bind; [apply _|apply respects_lift, _|auto]).
Qed.

Lemma answer_handled now s e s' :
  answer decode plan cancelled now s e = Some s' → before_spawn (sv_pc s) = false → handled s e s'.
Proof.
  intros Ha Hb. pose proof (answer_goes _ _ _ _ _ _ _ Ha) as [Hg _]. revert Ha Hg Hb.
  unfold answer. destruct (sv_pc s) eqn:Hpc, e as
    [al b|[i|er] g|st| |x'| | |pe fin|x'|dr|st|ta|hi|ve cap|gr|ps|sa hs|by'|d']; try done.
  all: try (intros [= <-] _ _; apply advance_handled; [by_flight|rewrite Hpc; (done || (intros _; by_guard))]).
  - intros [= <-] Hg _. split; [|by rewrite Hpc]. by inversion Hg.
  - destruct (eo_timeoutMs _) as [t|]; [destruct (bool_decide _)|]; try done.
    intros [= <-] _ _. apply advance_handled; [by_flight|intros _; by_guard].
  - destruct (stop_answer s) as [[r|err]|] eqn:Ho; [|destruct early0; [|done]|done].
    all: intros [= <-] _ _; apply advance_handled; [by_flight|intros _; by_guard].
  - destruct (respects_settle_sampler id plan pe fin (stop_sampler (sv_sampler s))) as [HsG HsF].
    specialize (HsG (sv_domain s, sv_flight s)). specialize (HsF (sv_domain s, sv_flight s)).
    destruct (settle_sampler _ _ _ _ _) as [r w]. intros [= <-] _ _.
    set (s1 := mkSupervised _ _ _ _ _ _).
    pose proof (advance_handled s1 (SamplerSettled pe fin) (sv_sampler s1) (settleRootOutcome plan now cancelled o)
      ltac:(by_flight) ltac:(intros _; by_guard)) as [Hf Hg].
    split; [intros He; etransitivity; [exact HsF|by apply Hf]|intros _; etransitivity; [exact HsG|by apply Hg]].
  - intros Ha _ _. revert Ha. apply stop_seen_handled; [intros ?; by_flight|intros _ ?; by_guard].
  - intros Ha _ _. revert Ha. apply stop_seen_handled; [intros ?; by_flight|by rewrite Hpc].
Qed.

(** ** Before the spawn *)

Lemma cancel_early now grace w :
  early w.2 → early ((cancelOperation now grace w).2).2.
Proof.
  intros (Ha & Hs & Hst). unfold cancelOperation.
  destruct (ensureActive_cases w) as [[e He]|[He _]].
  { by rewrite (run_bind_Throw _ _ _ _ _ He). }
  rewrite (run_bind_Ok _ _ _ _ _ He). unfold flight, set_flight at 1 2. rewrite !run_modify run_gets. cbn [fst snd].
  set (g := set_reason _ _). assert (early g) as Hg by done. assert (fl_phase g = fl_phase w.2) as Hph by done.
  unfold mbind, ST_bind. rewrite on_domain_run. cbn [fst snd].
  destruct (cancelWait _ _) as [[b|e] d]; cbn [fst snd]; [|done].
  rewrite Hph !bool_decide_false //. cbn [orb].
  destruct (negb (has_stop (fl_stop g))) eqn:Hb; [|done]. simpl. split_and!; [done|done|by right].
Qed.

(** A launch ends with nothing spawned, or goes on to the spawn. *)
Lemma launch_early now b w p w' :
  early w.2 → launch plan now cancelled b w = (Ok p, w') → is_ended p = false → early w'.2 ∧ G w w'.
Proof.
  intros He. unfold launch, flight. rewrite run_gets.
  destruct (fl_cancelRequested w.2); [intros Hr Hp; pose proof (before_spawn_ends plan cancelled now w p w' Hr); congruence|].
  rewrite run_gets. intros ([] & w1 & H1 & Hrun)%bind_Ok_inv Hp.
  assert (early w1.2 ∧ G w w1) as [He1 HG].
  { unfold try_catch, mbind, ST_bind in H1. rewrite on_domain_run in H1. simpl in H1.
    pose proof (respects_on_store _ _ (respects_intent_guarded id now (plan_op plan) (dom_id w.1)) w.1) as HG.
    destruct (on_store _ w.1) as [[[]|e] d]; simpl in H1; [injection H1 as <-; split; [by destruct He as (?&?&?)|exact HG]|].
    unfold mbind, ST_bind in H1. destruct (on_domain _ _) as [[[]|e'] w2]; done. }
  apply bind_Ok_inv in Hrun as ([] & w2 & [= <-] & Hrun). destruct b as [err|].
  - pose proof (fail_spawn_ends plan cancelled now err _ p w' Hrun). congruence.
  - injection Hrun as <- <-. destruct He1 as (?&?&?). split; [|done]. split_and!; done.
Qed.
(** The spawn: a handle, no settled stop. *)
Lemma spawned_step now i g w p w' :
  early w.2 → spawned plan now i g w = (Ok p, w') →
  fl_handle w'.2 ≠ None ∧ ∀ r, fl_stop w'.2 ≠ stop_settled (Ok r).
Proof.
  intros (_ & _ & Hst). unfold spawned, set_flight at 1. rewrite run_modify.
  set (f1 := set_handle i w.2). intros Hrun.
  assert (flight_step f1 w'.2) as [_ Hh _ Hok].
  { change (on_flight flight_step (w.1, f1) w'). replace w' with ((Ok p : outcome error RunPc, w').2) by done.
    rewrite -Hrun. apply respects_bind; [apply _|apply activate_flight|intros [err|]].
    - apply respects_bind; [apply _|apply respects_set_flight; intros x; by apply flight_same|intros _; apply respects_ret, _].
    - apply supervise_flight. }
  split; [by rewrite Hh|]. intros r Hr. destruct (Hok r Hr) as [|Hf]; [done|].
  change (fl_stop f1) with (fl_stop w.2) in Hf. rewrite Hf in Hst. by destruct Hst.
Qed.

(** The stop pipeline ends with what the driver answered. *)
Lemma pipeline_stopped_flight now o w (f' := ((pipeline_stopped now cancelled o w).2).2) :
  fl_handle f' = fl_handle w.2 ∧ has_stop (fl_stop f') = true ∧ ∀ r, fl_stop f' = stop_settled (Ok r) → o = Ok r.
Proof.
  subst f'. unfold pipeline_stopped, flight. rewrite run_gets. unfold try_catch.
  destruct o as [r|err]; [|by rewrite run_lift].
  rewrite run_lift. set (m1 := when _ _). assert (on_flight (=) w (m1 w).2) as Hm.
  { apply (λ (Hr : respects (on_flight (=)) m1), Hr w). unfold m1.
    pose proof (λ A m, @respects_domain_flight eq _ A m) as Hd.
    repeat first [apply respects_ret, _ | apply Hd | respects_step]. }
  unfold on_flight in Hm. destruct (m1 w) as [[[]|e] w1] eqn:Hr.
  - rewrite (run_bind_Ok _ _ _ _ _ Hr). simpl in *. rewrite Hm. split_and!; [done|done|]. by intros r' [= <-].
  - rewrite (run_bind_Throw _ _ _ _ _ Hr). simpl in *. by rewrite Hm.
Qed.

(** ** The invariant of a run *)

Notation step now := (step decode plan cancelled now).

Lemma advance_spawn_ok (s : Supervised) e sa h :
  (∀ p w', h (sv_domain s, sv_flight s) = (Ok p, w') → is_ended p = false →
    run_ok (mkSupervised w'.1 w'.2 p sa (sv_output s) (told s ++ [e]))) →
  run_ok (advance s e sa h).
Proof.
  intros Hh. unfold advance. destruct (h _) as [[p|err] w] eqn:Hr; [|by apply run_ended].
  destruct (is_ended p) eqn:Hp; [by apply run_ended|]. unfold settle_flight. rewrite Hp. by apply Hh.
Qed.
Lemma answer_ok now s e s' :
  run_ok s → answer decode plan cancelled now s e = Some s' → run_ok s'.
Proof.
  intros Hs Ha. destruct (answer_goes _ _ _ _ _ _ _ Ha) as [Hg Ht].
  destruct (before_spawn (sv_pc s)) eqn:Hb.
  2: { eapply run_ok_step; eauto. by apply (answer_handled _ _ _ _ Ha Hb). }
  destruct Hs as [Hpc _]. unfold answer in Ha. destruct (sv_pc s) eqn:Hp; try done; destruct Hpc as [Hn He].
  - destruct e; try done. injection Ha as <-. apply advance_spawn_ok. intros p w' Hr Hq.
    rewrite run_lift in Hr. destruct o; [|done].
    pose proof (launch_goes plan cancelled now (sv_flight s) (Ok a) beginReads _ p w' Hr) as Hl.
    apply launch_early in Hr as [He' _]; [|done..].
    inversion Hl; subst; [done|]. split; [|done]. simpl. split; [|done]. by apply never_spawned_snoc.
  - destruct e as [|[i|err] g| | | | | | | | | | | | | | | | |]; try done.
    + injection Ha as <-. apply advance_spawn_ok. intros p w' Hr Hq.
      pose proof (spawned_goes plan now (sv_flight s) i g _ p w' Hr) as Hl.
      apply spawned_step in Hr as [Hh Hst]; [|done].
      inversion Hl; subst; try done; (split; [done|intros _ _; split; [done|by intros r Hr%Hst]]).
    + injection Ha as <-. apply advance_spawn_ok. intros p w' Hr Hq.
      pose proof (fail_spawn_ends plan cancelled now err _ p w' Hr). congruence.
Qed.
Lemma aside_ok now s e s' :
  run_ok s → aside plan cancelled now s e = Some s' → run_ok s'.
Proof.
  intros Hs. destruct (is_ended (sv_pc s)) eqn:He.
  { intros (Hpc & _ & _)%aside_keeps. apply run_ended. by rewrite Hpc. }
  unfold aside, beside. destruct e; try done; rewrite ?He.
  - pose proof (cancel_flight now graceMs (sv_domain s, sv_flight s)) as Hf.
    pose proof (cancel_early now graceMs (sv_domain s, sv_flight s)) as Hearly.
    destruct (cancelOperation _ _ _) as [o w]. intros [= <-].
    destruct (before_spawn (sv_pc s)) eqn:Hb; [|by apply run_ok_beside].
    destruct Hs as [Hpc _]. split; [|simpl; congruence]. simpl.
    destruct (sv_pc s); try done; destruct Hpc as [Hn Hf0]; (split; [by apply never_spawned_snoc|by apply Hearly]).
  - destruct (fl_stop (sv_flight s)) eqn:Hst; try done.
    pose proof (pipeline_stopped_flight now o (sv_domain s, sv_flight s)) as (Hh & Hhas & Hr).
    destruct (pipeline_stopped _ _ _ _) as [o' w]. simpl in *. intros [= <-].
    destruct Hs as [Hpc Hsp]. destruct (before_spawn (sv_pc s)) eqn:Hb.
    { destruct (sv_pc s); try done; destruct Hpc as [_ (_&_&[]) ]; congruence. }
    split; simpl; [by eapply pc_told_more; [apply snoc_more| | |]|].
    intros _ _. destruct (Hsp eq_refl He) as [Hh0 _]. split; [by rewrite Hh|].
    intros r ->%Hr. apply elem_of_app. right. by apply list_elem_of_singleton.
  - destruct (sv_pc s) eqn:Hp; try done. destruct (eo_resourceBudget (plan_options plan)) as [b|]; [|done].
    destruct (_ && _); [|done].
    destruct (respects_sampled id now plan b o hits (sv_sampler s)) as [_ Hf].
    specialize (Hf (sv_domain s, sv_flight s)). destruct (sampled _ _ _ _ _ _ _) as [r w]. intros [= <-].
    rewrite -Hp. apply run_ok_beside; rewrite ?Hp; done.
  - destruct (drains (sv_pc s)) eqn:Hd; [|done].
    destruct (respects_output id now plan (sv_output s + bytes)) as [_ Hf].
    specialize (Hf (sv_domain s, sv_flight s)). destruct (output_seen _ _ _ _) as [r w]. intros [= <-].
    apply run_ok_beside; [done|by destruct (sv_pc s)|done].
  - intros [= <-]. destruct (before_spawn (sv_pc s)) eqn:Hb; [|by apply run_ok_beside].
    destruct Hs as [Hpc _]. split; [|simpl; congruence]. simpl.
    destruct (sv_pc s); try done; destruct Hpc; (split; [by apply never_spawned_snoc|done]).
Qed.
Lemma run_step_ok now s e : run_ok s → run_ok (step now s e).
Proof.
  intros Hs. unfold ProcessRun.step. destruct (answer _ _ _ _ _ _) as [s'|] eqn:Ha; [by eapply answer_ok|].
  destruct (aside _ _ _ _ _) as [s'|] eqn:Hb; [by eapply aside_ok|done].
Qed.

(** ** What a step may do to the operation *)

Definition settled (s : Supervised) : Prop := is_ended (sv_pc s) = true ∧ accounted (told s).

Lemma accounted_snoc l e : accounted l → is_answer e = false → accounted (l ++ [e]).
Proof.
  intros Hl He. destruct (told_more _ _ (snoc_more l e)) as (Ha & Hs & Hr & Ht & Hd). destruct Hl as [Hn|Hl].
  - left. apply never_spawned_snoc; [done|]. by intros i g ->.
  - right. tauto.
Qed.
Lemma answer_ended now s e : is_ended (sv_pc s) = true → answer decode plan cancelled now s e = None.
Proof. unfold answer. by destruct (sv_pc s). Qed.
Lemma step_settled now s e : settled s → settled (step now s e).
Proof.
  intros [He Ha]. unfold ProcessRun.step. rewrite answer_ended //.
  destruct (aside _ _ _ _ _) as [s'|] eqn:Hs; [|done]. apply aside_keeps in Hs as (Hp & Ht & Hn).
  split; simpl; [by rewrite Hp|]. rewrite Ht. by apply accounted_snoc.
Qed.

Lemma respects_abort_unconfirmed now err r :
  confirmed r = false → respects G (abort plan now cancelled err r).
Proof.
  intros Hr. unfold abort, flight. rewrite Hr.
  pose proof (λ f, respects_set_world (guarded id) f). pose proof (respects_hold id now cancelled plan).
  repeat first [by eauto using respects_gets, respects_throw with typeclass_instances | respects_step].
Qed.

Lemma spawn_answer_guard now s e s' :
  run_ok s → before_spawn (sv_pc s) = true → answer decode plan cancelled now s e = Some s' →
  GD (sv_domain s) (sv_domain s') ∨ settled s'.
Proof.
  intros [Hpc _] Hb Ha. destruct (answer_goes _ _ _ _ _ _ _ Ha) as [_ Ht]. unfold answer in Ha.
  destruct (is_ended (sv_pc s')) eqn:He'.
  - destruct (sv_pc s); try done; destruct Hpc as [Hn He], e as [al b|[i|er] g| | | | | | | | | | | | | | | | |]; try done.
    + right. split; [done|]. rewrite Ht. left. by apply never_spawned_snoc.
    + left. injection Ha as <-. apply advance_domain, respects_spawned.
    + right. split; [done|]. rewrite Ht. left. by apply never_spawned_snoc.
  - left. destruct (sv_pc s); try done; destruct Hpc as [Hn He], e as [al b|[i|er] g| | | | | | | | | | | | | | | | |]; try done.
    + injection Ha as <-. unfold advance in *. destruct ((lift al ≫= _) _) as [[p|err] w] eqn:Hr; simpl in *; [|done].
      rewrite run_lift in Hr. destruct al; [|done]. by apply launch_early in Hr as [_ HG].
    + injection Ha as <-. apply advance_domain, respects_spawned.
    + injection Ha as <-. unfold advance in *. destruct (failSpawn _ _ _ _ _) as [[p|err] w] eqn:Hr; simpl in *; [|done].
      pose proof (fail_spawn_ends plan cancelled now er _ p w Hr). congruence.
Qed.
Lemma answer_guard now s e s' :
  run_ok s → answer decode plan cancelled now s e = Some s' →
  GD (sv_domain s) (sv_domain s') ∨ settled s'.
Proof.
  intros Hs Ha. destruct (before_spawn (sv_pc s)) eqn:Hb; [by eapply spawn_answer_guard|].
  destruct (records (sv_pc s)) eqn:Hrec; [|left; by apply (answer_handled _ _ _ _ Ha Hb)].
  destruct (answer_goes _ _ _ _ _ _ _ Ha) as [Hg Ht]. pose proof (told_more _ _ (snoc_more (told s) e)) as Hmore.
  destruct Hs as [Hpc Hsp]. unfold answer in Ha. destruct (sv_pc s) eqn:Hp; try done; destruct e; try done; simpl in Hpc.
  - destruct (confirmed s0) eqn:Hc.
    + right. split; [by inversion Hg|]. rewrite Ht. right. left. apply Hmore. by exists s0.
    + left. injection Ha as <-. by apply advance_domain, respects_abort_unconfirmed.
  - destruct (has_stop (fl_stop (sv_flight s))) eqn:Hh.
    + left. injection Ha as <-. unfold advance. rewrite run_lift. destruct o; [|done].
      unfold verified, flight. rewrite run_gets. simpl. by rewrite Hh.
    + right. split; [inversion Hg; [done|congruence]|]. rewrite Ht. right. right.
      destruct Hpc as [Hd Hpc]. split; [by apply Hmore|].
      destruct Hpc as [Hst|[Hx [Hk|]]]; [left|right|done]; [by apply Hmore|by split; apply Hmore].
  - assert (is_ended (sv_pc s') = true) as Hend by by inversion Hg.
    destruct (stop_answer s) as [[r'|err]|] eqn:Hst; [| |done]; injection Ha as <-.
    + destruct (confirmed r') eqn:Hc.
      * right. split; [done|]. rewrite Ht. right. right. destruct Hpc as [Hd _]. split; [by apply Hmore|].
        left. apply Hmore. exists r'. split; [|done]. by apply (Hsp eq_refl eq_refl), stop_answer_settled.
      * left. apply advance_domain. intros w. rewrite run_lift. unfold stop_answered. rewrite Hc.
        apply respects_unconfirmed.
    + left. apply advance_domain. unfold mbind, ST_bind, lift. intros w. simpl. reflexivity.
Qed.

Lemma aside_guard now s e s' :
  match e with Elsewhere d => GD (sv_domain s) d | _ => True end →
  aside plan cancelled now s e = Some s' → GD (sv_domain s) (sv_domain s').
Proof.
  intros Hq. unfold aside, beside. destruct e; try done.
  - pose proof (respects_cancel_guarded id now graceMs (sv_domain s, sv_flight s)) as HG.
    destruct (is_ended _); [done|]. destruct (cancelOperation _ _ _). by intros [= <-].
  - pose proof (respects_stopped_guarded id now cancelled o (sv_domain s, sv_flight s)) as HG.
    destruct (fl_stop _); try done. destruct (pipeline_stopped _ _ _ _). by intros [= <-].
  - destruct (sv_pc s); try done. destruct (eo_resourceBudget (plan_options plan)) as [b|]; [|done].
    destruct (_ && _); [|done].
    destruct (respects_sampled id now plan b o hits (sv_sampler s)) as [HG _].
    specialize (HG (sv_domain s, sv_flight s)). destruct (sampled _ _ _ _ _ _ _). by intros [= <-].
  - destruct (respects_output id now plan (sv_output s + bytes)) as [HG _].
    specialize (HG (sv_domain s, sv_flight s)).
    destruct (drains _); [|done]. destruct (output_seen _ _ _ _). by intros [= <-].
  - by intros [= <-].
Qed.

(** ** Runs *)

(** What others do on the domain keeps the operation of the run. *)
Fixpoint undisturbed (s : Supervised) (es : list (Z * RunEvent)) : Prop :=
  match es with
  | [] => True
  | (now, e) :: es =>
      match e with Elsewhere d => GD (sv_domain s) d | _ => True end ∧ undisturbed (step now s e) es
  end.

Lemma run_ok_run es : ∀ s, run_ok s → run_ok (run_process decode plan cancelled s es).
Proof.
  unfold run_process. induction es as [|[now e] es IH]; intros s Hs; [done|]. by apply IH, run_step_ok.
Qed.
Lemma run_settled es : ∀ s, settled s → settled (run_process decode plan cancelled s es).
Proof.
  unfold run_process. induction es as [|[now e] es IH]; intros s Hs; [done|]. by apply IH, step_settled.
Qed.
Lemma run_guard es : ∀ s, run_ok s → undisturbed s es →
  GD (sv_domain s) (sv_domain (run_process decode plan cancelled s es)) ∨
  settled (run_process decode plan cancelled s es).
Proof.
  induction es as [|[now e] es IH]; intros s Hs Hq; [left; unfold dom_db; simpl; reflexivity|].
  destruct Hq as [Hq Hqs]. pose proof (run_step_ok now s e Hs) as Hs1.
  change (run_process decode plan cancelled s ((now, e) :: es)) with
    (run_process decode plan cancelled (step now s e) es).
  assert (GD (sv_domain s) (sv_domain (step now s e)) ∨ settled (step now s e)) as [HG|Hd].
  { unfold ProcessRun.step. destruct (answer _ _ _ _ _ _) as [s'|] eqn:Ha; [by eapply answer_guard|].
    left. destruct (aside _ _ _ _ _) as [s'|] eqn:Hb; simpl; [by eapply aside_guard|].
    unfold dom_db. reflexivity. }
  - destruct (IH _ Hs1 Hqs) as [HG'|Hd]; [left|by right].
    unfold dom_db in *. by etransitivity.
  - right. by apply run_settled.
Qed.
Lemma run_ok_begin now f d : early f → run_ok (runProcess plan now f d).
Proof.
  intros He. unfold runProcess. destruct (allocateResourcesWithWait _ _ _ _ _ _ _) as [[a|err] d'].
  - split; [|done]. simpl. split; [|done]. intros i g Hn. by apply not_elem_of_nil in Hn.
  - by apply run_ended.
Qed.
End Hold.

(** C1. The leases of a process are not given up before what it ran is accounted
    for. From any point of a run to any later one, whatever is answered, cancelled
    or sampled in whatever order: either no determinate result of its operation
    has appeared and its leases are still there, or the process was never
    spawned, or its stop after a failed activation was confirmed, or its pipes
    have drained and its stop was confirmed or its root has exited and its tree is
    known to be empty, stopped or beyond what its driver can see. *)
Theorem process_holds_until_accounted `{Crypto} decode plan cancelled now f d es1 es2
    (s1 := run_process decode plan cancelled (runProcess plan now f d) es1)
    (s2 := run_process decode plan cancelled s1 es2) :
  early f → undisturbed (eo_opId (plan_options plan)) decode plan cancelled s1 es2 →
  guarded (eo_opId (plan_options plan)) (db (dom_store (sv_domain s1))) (db (dom_store (sv_domain s2))) ∨
  accounted (told s2).
Proof.
  intros He Hq.
  assert (run_ok s1) as Hs by exact (run_ok_run (eo_opId (plan_options plan)) decode plan cancelled es1 _ (run_ok_begin plan now f d He)).
  destruct (run_guard (eo_opId (plan_options plan)) decode plan cancelled es2 s1 Hs Hq) as [HG|[_ Ha]]; [by left|by right].
Qed.

(** ** Witnesses: a process of "run-1", stopped by its user *)

Definition run_options : ExecuteProcessOptions :=
  mkExecuteProcessOptions "run-1" "op-9" "make" (mkStructuredCommand "/usr/bin/make" ["all"] "/w" None None None None None)
    (Some ["r9"]) None None None None None None None (Some 1000%Z) None None None None None None None.
Definition run_driver : PlatformDriver :=
  mkPlatformDriver (mkDriverFacts "node" None [("processGroupKill", JBool true)])
    (mkDriverCapabilityFacts true true (Some procfs) enum_full (Some true)) true false false false false false.
Definition run_plan : ProcessRunPlan :=
  mkProcessRunPlan run_options
    (process_operation 45 run_driver run_options "fp-9" None
      (request_snapshot (H:=sample_crypto) 45 run_driver run_options))
    run_driver false None None.
Definition run_flight : Flight := new_flight 45 run_options "fp-9".
Definition run_identity : ProcessIdentity := mkProcessIdentity 90 (Some 90%Z) None (Iso 46) None None None None.
Definition run_decode (c : Content) : string := "".
Definition run_begun : Supervised := runProcess run_plan 45 run_flight sample_domain.
Notation play_run := (run_process (H:=sample_crypto) run_decode run_plan nobody).
Definition run_racing : Supervised := play_run run_begun
  [(46%Z, Allocated (Ok tt) None); (47%Z, Spawned (Ok run_identity) None)].
Definition stop_said (s : StopProcessStatus) : StopProcessResult :=
  mkStopProcessResult s scope_process_group None None None.
Definition run_capture : OutputCapture :=
  mkOutputCapture (mkStreamDrainerResult (whole []) false None None 0 None)
    (mkStreamDrainerResult (whole []) false None None 0 None) None None (Ok None).
(** The user cancels, and the stop is confirmed; or the process exits. *)
Definition cancelled_events : list (Z * RunEvent) :=
  [(50%Z, Cancel 2000); (51%Z, PipelineStopped (Ok (stop_said confirmed_stopped))); (52%Z, StopSeen);
   (53%Z, SamplerSettled None (Throw "")); (54%Z, ExitWaited None); (55%Z, DrainWaited true);
   (56%Z, HitsRead (Ok None)); (57%Z, IdentityVerified (Ok not_original_process) run_capture); (58%Z, StopSeen)].
Definition lost_events : list (Z * RunEvent) :=
  [(50%Z, Cancel 2000); (51%Z, PipelineStopped (Ok (stop_said not_stopped))); (52%Z, StopSeen);
   (53%Z, SamplerSettled None (Throw ""))].
Definition exit_events : list (Z * RunEvent) :=
  [(50%Z, RootExited (mkExitFacts (Some 0%Z) None)); (51%Z, SamplerSettled None (Throw "")); (52%Z, DrainWaited true);
   (53%Z, TreeAnswered (Ok answer_empty)); (54%Z, HitsRead (Ok None));
   (55%Z, IdentityVerified (Ok not_original_process) run_capture)].

Definition leases_of (id : string) (s : Supervised) : list string :=
  map lease_resourceId (List.filter (λ l, bool_decide (lease_operationId l = id))
    (db_resource_leases (db (dom_store (sv_domain s))))).
Definition recorded (id : string) (s : Supervised) : option (OperationStatus * option OperationResult) :=
  (λ op, (op_status op, op_result op)) <$> find_operation id (db (dom_store (sv_domain s))).

(** Its user cancels a process whose stop cannot be confirmed. *)
Lemma process_holds_until_accounted_witness :
  let lost := play_run run_racing lost_events in
  (guarded "op-9" (db (dom_store (sv_domain run_racing))) (db (dom_store (sv_domain lost))) ∨ accounted (told lost)) ∧
  leases_of "op-9" run_racing = ["r9"] ∧ leases_of "op-9" lost = ["r9"] ∧
  fst <$> recorded "op-9" lost = Some st_done.
Proof.
  intros lost. split; [|vm_compute; by split_and!].
  apply (process_holds_until_accounted (H:=sample_crypto) run_decode run_plan nobody 45 run_flight sample_domain
    [(46%Z, Allocated (Ok tt) None); (47%Z, Spawned (Ok run_identity) None)] lost_events).
  - split_and!; [done|done|by left].
  - by repeat split.
Defined.
(** The same cancellation with a confirmed stop gives the lease back; so does an exit. *)
Example cancelled_run_releases :
  let s := play_run run_racing cancelled_events in
  leases_of "op-9" s = [] ∧ answers_taken (told s) = 9.
Proof. by vm_compute. Qed.
Example exited_run_releases :
  let s := play_run run_racing exit_events in
  leases_of "op-9" s = [] ∧ fst <$> recorded "op-9" s = Some st_done.
Proof. by vm_compute. Qed.
