(* ===== verification/ProcessRecord.v ===== *)
(** * ProcessRecord: what a run returns is what is on record

    Every way a run returns a result leaves that result recorded under its
    operation, so a later request with the same id and the same input is answered
    with it. *)

From stdpp Require Import pretty.
From S2P Require Import Prelude Types Events Encode Config Store StoreCalls Samples Paths Capability JournalInv StoreSpec Domain Authority Rollback Recovery DomainInv DomainSpec RecoverySpec RecoveryLive Drainer Supervisor ProcessRun ProcessFlow ProcessInv ProcessSpec ProcessHold.

(** ** The record *)

Definition process_result (r : OperationResult) : bool :=
  match res_body r with RProcess _ | RIndeterminate _ => true | _ => false end.
Definition on_record (id : string) (r : OperationResult) (d : Db) : Prop :=
  process_result r = true ∧
  ∃ op, find_operation id d = Some op ∧ op_done op = true ∧ op_result op = Some r.

(** Calls that leave the operations alone. *)
Definition same_ops (d d' : Db) : Prop := db_operations d' = db_operations d.
#[export] Instance same_ops_preorder : PreOrder same_ops.
Proof. unfold same_ops. split; [by intros d|]. intros d1 d2 d3. congruence. Qed.
Lemma on_record_same id r d d' : same_ops d d' → on_record id r d → on_record id r d'.
Proof. unfold same_ops, on_record, find_operation. by intros ->. Qed.

Lemma respects_event_ops now ev : respects (on_db same_ops) (recordEventAndTransitionState now ev).
Proof. apply respects_any_event; [apply _|done]. Qed.
Lemma respects_run_ops now run st t e : respects (on_db same_ops) (updateRunStatus now run st t e).
Proof.
  unfold updateRunStatus, getRun. apply respects_transaction; [apply _|].
  repeat first [ by eauto 3 using respects_event_ops with xio typeclass_instances
               | apply respects_exec; intros ?; done | respects_step ].
Qed.
Lemma respects_release_ops now cancelled id res :
  respects (dom_db same_ops) (internalReleaseResources now cancelled id res).
Proof.
  apply respects_internalRelease; [apply _| |].
  - intros r. unfold releaseResourceLease. by destruct (or_undef r); apply respects_exec.
  - intros. apply respects_event_ops.
Qed.

Lemma result_on_record now id r release s s' :
  recordOperationResult now id r release s = (Ok tt, s') → process_result r = true → on_record id r (db s').
Proof.
  intros (op & row & Ho & _ & _ & -> & _)%record_result_inv Hr. split; [done|].
  exists (finish_op r op). split_and!; [|done|done].
  change (find_operation id (with_journal row (result_recorded id r release (db s))))
    with (find_operation id (result_recorded id r release (db s))). by apply result_recorded_find.
Qed.

Lemma finalize_on_record now cancelled id r res release d r' d' :
  finalizeOperation now cancelled id r res release d = (Ok r', d') →
  process_result r = true → on_record id r' (db (dom_store d')).
Proof.
  unfold finalizeOperation. intros (existing & d1 & [-> ->]%on_query_Ok & Hrun)%bind_Ok_inv Hr.
  apply bind_Ok_inv in Hrun as ([] & d2 & [[_ Hw]|[_ ->]]%when_Ok & Hrun); [done|].
  set (r1 := match find_operation id _ with Some op => _ | None => r end) in Hrun.
  assert (process_result r1 = true) as Hr1 by by (unfold r1; destruct (find_operation _ _)).
  destruct (is_indeterminate r1);
    apply bind_Ok_inv in Hrun as ([] & d3 & (_ & s3 & Hrec & ->)%on_store_Ok & Hrun);
    eapply result_on_record in Hrec; try exact Hr1.
  - match type of Hrun with ?m _ = _ => assert (respects (dom_db same_ops) m) as Hm end.
    { apply respects_bind; [apply _|apply (respects_on_query same_ops)|intros [op|]].
      - apply respects_bind; [apply _|apply respects_on_store, respects_run_ops; apply _|intros _; apply respects_ret, _].
      - apply respects_bind; [apply _|apply respects_ret, _|intros _; apply respects_ret, _]. }
    assert (r' = r1) as ->.
    { apply bind_Ok_inv in Hrun as (op & d4 & _ & Hrun).
      apply bind_Ok_inv in Hrun as (? & d5 & _ & Hrun). by injection Hrun as <- _. }
    specialize (Hm (set_store s3 d)). rewrite Hrun in Hm. by eapply on_record_same.
  - apply bind_Ok_inv in Hrun as ([] & d4 & Hw & [= <- <-]).
    assert (same_ops (db s3) (db (dom_store d4))) as Hs; [|by eapply on_record_same].
    pose proof (respects_when (dom_db same_ops) release _ (respects_release_ops now cancelled id res) (set_store s3 d)) as Hk.
    by rewrite Hw in Hk.
Qed.

Lemma preintent_on_record `{Crypto} now op dom r s s' :
  recordPreIntentCancelledOperation now op dom r s = (Ok tt, s') → process_result r = true →
  on_record (op_id op) r (db s').
Proof.
  unfold recordPreIntentCancelledOperation. intros ([] & s1 & _ & Hrun)%bind_Ok_inv Hr.
  apply bind_Ok_inv in Hrun as (run & s2 & _ & Hrun). apply bind_Ok_inv in Hrun as ([] & s3 & _ & Hrun).
  apply transaction_Ok in Hrun as (s4 & Hrun & -> & _).
  apply bind_Ok_inv in Hrun as ([] & s5 & _ & Hrun). apply bind_Ok_inv in Hrun as (ex & s6 & [= <- <-] & Hrun).
  apply bind_Ok_inv in Hrun as ([] & s7 & Hnone & Hrun).
  apply bind_Ok_inv in Hrun as ([] & s8 & Hins & Hrun).
  apply bind_Ok_inv in Hrun as (seq & s9 & Hev & [= <-]).
  revert Hnone. destruct (find_operation (op_id op) (db s5)) as [o|] eqn:Hfind; [done|]. intros [= <-].
  apply (on_record_same _ _ (db s8)).
  { pose proof (respects_event_ops now (simple_event dom (Some (op_runId op)) (Some (op_id op))
      "OPERATION_RESULT_RECORDED" (JObj [("result", js_result r); ("releaseResources", JBool false);
        ("preIntentCancelled", JBool true)]) (res_completedAt (res_base r))) s8) as Hk. by rewrite Hev in Hk. }
  unfold insert_operation, getOperation, getRun in Hins. autorewrite with xio_run in Hins.
  destruct (_ || _); [done|]. injection Hins as <-. split; [done|].
  exists (operation_row op dom st_done (Some r) None None). split_and!; [|done|done].
  unfold find_operation in *. simpl. rewrite find_app Hfind. simpl. by rewrite bool_decide_true.
Qed.

Section Record.
Context `{Crypto} (decode : Content → string) (plan : ProcessRunPlan) (cancelled : nat → bool) (now : Z).
Notation opId := (eo_opId (plan_options plan)).

(** A handler that ends with a result leaves it on record. *)
Definition records_end (m : PM RunPc) : Prop :=
  ∀ w r w', m w = (Ok (ended (Ok r)), w') → on_record opId r (db (dom_store w'.1)).

Lemma records_bind {A} (m : PM A) k : (∀ a, records_end (k a)) → records_end (m ≫= k).
Proof. intros Hk w r w' (a & w1 & _ & Hr)%bind_Ok_inv. by eapply Hk. Qed.
Lemma records_ret p : is_ended p = false → records_end (mret p).
Proof. intros Hp w r w' [= -> _]. done. Qed.
Lemma records_throw e : records_end (throw e).
Proof. by intros w r w'. Qed.
Lemma records_finalize r b : process_result r = true → records_end (finalize plan now cancelled r b).
Proof.
  intros Hr w r' w' (r1 & w1 & Hf & [= -> <-])%bind_Ok_inv.
  rewrite on_domain_run in Hf. destruct (finalizeOperation _ _ _ _ _ _ _) as [o d1] eqn:Hfin.
  injection Hf as -> <-. simpl. by eapply finalize_on_record.
Qed.
Lemma records_hold a b c d e : records_end (holdLeases plan now cancelled a b c d e).
Proof. unfold holdLeases. apply records_bind. intros f. by apply records_finalize. Qed.
(** A result found on record, and returned. *)
Lemma records_stored (k : option Operation → PM RunPc) :
  (∀ st w r w', k st w = (Ok (ended (Ok r)), w') →
    on_record opId r (db (dom_store w'.1)) ∨
    (w' = w ∧ process_result r = true ∧ ∃ op, st = Some op ∧ op_done op = true ∧ op_result op = Some r)) →
  records_end (on_domain (on_store (getOperation opId)) ≫= k).
Proof.
  intros Hk w r w' (st & w1 & Hq & Hr)%bind_Ok_inv. rewrite on_domain_run in Hq.
  destruct (on_store (getOperation opId) w.1) as [o d1] eqn:Hs. injection Hq as -> <-.
  apply on_query_Ok in Hs as [-> ->]. destruct (Hk _ _ _ _ Hr) as [|(-> & Hp & op & Hop & Hd & Hres)]; [done|].
  split; [done|]. by exists op.
Qed.

Lemma records_before_spawn : records_end (cancelBeforeSpawn plan now cancelled).
Proof.
  unfold cancelBeforeSpawn. do 3 (apply records_bind; intros ?).
  apply records_bind. intros [op|]; [by apply records_finalize|].
  intros w r w' (d & w1 & [= <- <-] & Hrun)%bind_Ok_inv.
  apply bind_Ok_inv in Hrun as ([] & w2 & Hrec & Hrun). rewrite on_domain_run in Hrec.
  destruct (on_store _ w.1) as [o d1] eqn:Hs. injection Hrec as -> <-.
  apply on_store_Ok in Hs as (_ & s' & Hrec & ->). eapply preintent_on_record in Hrec; [|done].
  apply bind_Ok_inv in Hrun as ([] & w3 & Hrel & [= <- <-]). rewrite on_domain_run in Hrel.
  destruct (internalReleaseResources _ _ _ _ _) as [o d3] eqn:Hi. injection Hrel as -> <-. simpl.
  eapply on_record_same; [|exact Hrec].
  pose proof (respects_release_ops now cancelled opId (eo_requiredResources (plan_options plan)) (set_store s' w.1)) as Hk.
  by rewrite Hi in Hk.
Qed.
Lemma records_fail_spawn err : records_end (failSpawn plan now cancelled err).
Proof. unfold failSpawn. do 3 (apply records_bind; intros ?). by apply records_finalize. Qed.
Lemma records_unconfirmed s c : records_end (recordUnconfirmedStop plan now cancelled s c).
Proof.
  unfold recordUnconfirmedStop. apply records_stored. intros st w r w'.
  destruct st as [op|]; simpl; [|intros Hrun; left; eapply (records_bind flight); [|exact Hrun]; intros f; apply records_hold].
  destruct (op_done op) eqn:Hd; [|intros Hrun; left; eapply (records_bind flight); [|exact Hrun]; intros f; apply records_hold].
  destruct (op_result op) as [r0|] eqn:Hr0; [|done].
  destruct (res_body r0) eqn:Hb; try done; intros [= <- <-]; right.
  all: split_and!; [done|unfold process_result; by rewrite Hb|by exists op].
Qed.
Lemma records_timeout st x : records_end (timeout_settled plan now cancelled st x).
Proof.
  assert (records_end (hold_timeout plan now cancelled st)) as Hhold.
  { unfold hold_timeout. apply records_bind. intros f. apply records_hold. }
  unfold timeout_settled. destruct (confirmed st), x as [x|]; [by apply records_ret| | |].
  all: apply records_stored; intros op w r w' Hrun.
  all: destruct op as [op|]; simpl in Hrun; [|left; by eapply Hhold].
  all: destruct (op_done op) eqn:Hd; [|left; by eapply Hhold].
  all: destruct (op_result op) as [r0|] eqn:Hr0; simpl in Hrun; [|left; by eapply Hhold].
  all: destruct (is_indeterminate r0) eqn:Hi; [|left; by eapply Hhold].
  all: injection Hrun as <- <-; right; split_and!; [done| |by exists op].
  all: unfold process_result, is_indeterminate in *; by destruct (res_body r0).
Qed.

Ltac recording := repeat
  lazymatch goal with
  | |- records_end (mret (if ?b then _ else _)) => destruct b
  | |- records_end (mret _) => by apply records_ret
  | |- records_end (throw _) => apply records_throw
  | |- records_end (finalize _ _ _ _ _) => by apply records_finalize
  | |- records_end (holdLeases _ _ _ _ _ _ _ _) => apply records_hold
  | |- records_end (recordUnconfirmedStop _ _ _ _ _) => apply records_unconfirmed
  | |- records_end (cancelBeforeSpawn _ _ _) => apply records_before_spawn
  | |- records_end (failSpawn _ _ _ _) => apply records_fail_spawn
  | |- records_end (timeout_settled _ _ _ _ _) => apply records_timeout
  | |- records_end (record_drained _ _ _) => unfold record_drained
  | |- records_end (_ ≫= _) => apply records_bind; intros ?
  | |- records_end (if ?b then _ else _) => destruct b
  | |- records_end (match ?x with _ => _ end) => destruct x
  end.

Lemma records_launch b : records_end (launch plan now cancelled b).
Proof. unfold launch. recording. Qed.
Lemma records_spawned i g : records_end (spawned plan now i g).
Proof. unfold spawned, superviseActive. recording. Qed.
Lemma records_abort err r : records_end (abort plan now cancelled err r).
Proof.
  unfold abort. do 2 (apply records_bind; intros ?). apply records_bind. intros f.
  intros w r' w' (p & w1 & _ & [=])%bind_Ok_inv.
Qed.
Lemma records_root o : records_end (settleRootOutcome plan now cancelled o).
Proof. unfold settleRootOutcome. recording. Qed.
Lemma records_finish r read : process_result r = true → records_end (finish plan now cancelled r read).
Proof.
  intros Hr. unfold finish. destruct (eo_trackReads _); [|by apply records_finalize].
  apply records_bind. intros e. apply records_finalize. unfold process_result in *. simpl. by destruct (res_body r).
Qed.
Lemma records_verified sa d i c : records_end (verified decode plan now cancelled sa d i c).
Proof.
  unfold verified. apply records_bind. intros f. destruct (has_stop _); [by apply records_ret|by apply records_finish].
Qed.
Lemma records_stop_answered r read stop :
  process_result r = true → records_end (stop_answered plan now cancelled r read stop).
Proof.
  intros Hr. unfold stop_answered. destruct (confirmed stop); [|apply records_unconfirmed].
  apply records_finish. unfold process_result in *. simpl. by destruct (res_body r).
Qed.

Lemma advance_records s e sa h r :
  records_end h → sv_pc (advance s e sa h) = ended (Ok r) →
  on_record opId r (db (dom_store (sv_domain (advance s e sa h)))).
Proof.
  intros Hh. unfold advance. destruct (h _) as [[p|err] w] eqn:Hr; [|done]. simpl. intros ->. by eapply Hh.
Qed.
Lemma stop_seen_records s (k : StopProcessResult → PM RunPc) s' r :
  (∀ x, records_end (k x)) →
  (λ o, advance s StopSeen (sv_sampler s) (lift o ≫= k)) <$> stop_answer s = Some s' →
  sv_pc s' = ended (Ok r) → on_record opId r (db (dom_store (sv_domain s'))).
Proof.
  intros Hk. destruct (stop_answer s) as [o|]; [|done]. intros [= <-]. apply advance_records. by apply records_bind.
Qed.

(** A result that waits for the stop is a result of a process. *)
Definition pending_ok (p : RunPc) : Prop :=
  match p with at_stop_result r _ => process_result r = true | _ => True end.

Ltac recorded :=
  lazymatch goal with
  | |- records_end (lift _ ≫= _) => apply records_bind; intros ?; recorded
  | |- records_end (record_hits _ _ ≫= _) => apply records_bind; intros ?; recorded
  | |- records_end (mret _) => by apply records_ret
  | |- records_end (throw _) => apply records_throw
  | |- records_end (launch _ _ _ _) => apply records_launch
  | |- records_end (spawned _ _ _ _) => apply records_spawned
  | |- records_end (failSpawn _ _ _ _) => apply records_fail_spawn
  | |- records_end (abort _ _ _ _ _) => apply records_abort
  | |- records_end (settleRootOutcome _ _ _ _) => apply records_root
  | |- records_end (timeout_settled _ _ _ _ _) => apply records_timeout
  | |- records_end (drain_waited _ _ _ _ _) => unfold drain_waited; recording
  | |- records_end (reaped _ _ _ _ _) => unfold reaped; recording
  | |- records_end (drained_again _ _ _ _ _) => unfold drained_again; recording
  | |- records_end (escaped _ _ _ _) => unfold escaped; recording
  | |- records_end (tree_answered _ _ _ _) => unfold tree_answered; recording
  | |- records_end (tree_stopped _ _ _ _ _) => unfold tree_stopped; recording
  | |- records_end (verified _ _ _ _ _ _ _ _) => apply records_verified
  | |- records_end (stop_answered _ _ _ _ _ _) => by apply records_stop_answered
  end.
Lemma answer_recorded s e s' r :
  pending_ok (sv_pc s) → answer decode plan cancelled now s e = Some s' → sv_pc s' = ended (Ok r) →
  on_record opId r (db (dom_store (sv_domain s'))).
Proof.
  intros Hpend. unfold answer. destruct (sv_pc s) eqn:Hpc, e as
    [al b|[i|er] g|st| |x'| | |pe fin|x'|dr|st|ta|hi|ve cap|gr|ps|sa hs|by'|d']; try done; simpl in Hpend.
  all: try (intros [= <-]; apply advance_records; recorded).
  - destruct (eo_timeoutMs _) as [t|]; [destruct (bool_decide _)|]; try done. by intros [= <-].
  - destruct (stop_answer s) as [[x|err]|]; [|destruct early; [|done]|done].
    all: intros [= <-]; apply advance_records; recorded.
  - destruct (settle_sampler _ _ _ _ _) as [x w]. intros [= <-]. apply advance_records. recorded.
  - apply stop_seen_records. intros x. recorded.
  - apply stop_seen_records. intros x. recorded.
Qed.

Lemma step_recorded s e r :
  pending_ok (sv_pc s) → is_ended (sv_pc s) = false →
  sv_pc (step decode plan cancelled now s e) = ended (Ok r) →
  on_record opId r (db (dom_store (sv_domain (step decode plan cancelled now s e)))).
Proof.
  intros Hp Hn. unfold step. destruct (answer _ _ _ _ _ _) as [s'|] eqn:Ha; [by eapply answer_recorded|].
  destruct (aside _ _ _ _ _) as [s'|] eqn:Hs; simpl.
  - apply aside_keeps in Hs as (-> & _). intros He. by rewrite He in Hn.
  - intros He. by rewrite He in Hn.
Qed.
(** Only a process waits for its stop with a result. *)
Lemma verified_pending sa d i c w : yields (verified decode plan now cancelled sa d i c) w pending_ok.
Proof.
  intros p w' Hr. destruct (is_ended p) eqn:Hp; [by destruct p|].
  unfold verified in Hr. apply bind_Ok_inv in Hr as (f & w1 & _ & Hr). destruct (has_stop _).
  - by injection Hr as <- _.
  - pose proof (finish_ends plan cancelled now _ _ _ _ _ Hr). congruence.
Qed.
Lemma step_pending s e : pending_ok (sv_pc s) → pending_ok (sv_pc (step decode plan cancelled now s e)).
Proof.
  intros Hp. unfold step. destruct (answer _ _ _ _ _ _) as [s'|] eqn:Ha.
  - pose proof (answer_goes _ _ _ _ _ _ _ Ha) as [Hg _]. unfold answer in Ha.
    destruct (sv_pc s') eqn:Hq; try done. inversion Hg as [| | | | | | | | | | | | | | | | | | | | | | | | |d o c r' Hh Hpc He].
    rewrite -Hpc -He in Ha. injection Ha as <-. revert Hq. unfold advance. rewrite run_lift.
    destruct o as [i|]; [|done]. destruct (verified _ _ _ _ _ _ _ _ _) as [[p|err] w] eqn:Hv; [|done].
    simpl. intros ->. by apply (verified_pending _ _ _ _ _ _ _ Hv).
  - destruct (aside _ _ _ _ _) as [s'|] eqn:Hs; simpl; [|done]. by apply aside_keeps in Hs as (-> & _).
Qed.
End Record.

Lemma run_pending `{Crypto} decode plan cancelled es : ∀ s,
  pending_ok (sv_pc s) → pending_ok (sv_pc (run_process decode plan cancelled s es)).
Proof.
  unfold run_process. induction es as [|[t e] es IH]; intros s Hs; [done|]. by apply IH, step_pending.
Qed.

(** *** Asking again *)

Lemma stored_operation o d op :
  dom_lockHeld d = true → find_operation (eo_opId o) (db (dom_store d)) = Some op →
  on_store (query (find_operation (eo_opId o))) d = (Ok (Some op), d).
Proof. intros Hd Hop. unfold on_store, focus. rewrite Hd /= Hop. by destruct d. Qed.
Lemma replay_conflict now o d op :
  dom_lockHeld d = true → find_operation (eo_opId o) (db (dom_store d)) = Some op →
  ∀ fp, op_inputFingerprint op ≠ fp → replayRecorded now o fp d =
    (Throw (OperationIdConflictError (eo_opId o) (op_inputFingerprint op) fp (op_runId op)), d).
Proof.
  intros Hd Hop fp Hfp. unfold replayRecorded, getOperation.
  rewrite (run_bind_Ok _ _ _ _ _ (stored_operation _ _ _ Hd Hop)) bool_decide_false //.
Qed.
Lemma replay_returns now o D d op r :
  truthy_str D = true → usable D d → find_operation (eo_opId o) (db (dom_store d)) = Some op →
  op_done op = true → op_result op = Some r → process_result r = true →
  ∃ d', replayRecorded now o (op_inputFingerprint op) d = (Ok (Some (replayed_result (Some (op_runId op)) r)), d').
Proof.
  intros HD Hd Hop Hdone Hr Hp. unfold replayRecorded, getOperation.
  rewrite (run_bind_Ok _ _ _ _ _ (stored_operation _ _ _ (us_open _ _ Hd) Hop)) bool_decide_true // run_throw_if Hdone run_throw_if Hr.
  set (mode := if is_indeterminate r then mode_indeterminate else mode_recorded).
  assert (∃ d1, on_store (recordReplay now (dom_id d) (eo_opId o) mode (eo_runId o)) d = (Ok tt, d1)) as (d1 & Hrec).
  { unfold on_store, focus. rewrite (us_open _ _ Hd) (us_id _ _ Hd).
    unfold recordReplay, getOperation. rewrite run_verify (us_fence _ _ Hd).
    unfold query. rewrite run_gets Hop. simpl jopt.
    edestruct (simple_event_recorded now D (Some (eo_runId o)) (Some (eo_opId o)) "OPERATION_REPLAYED"
      (JObj [("mode", JStr (replay_mode_name mode)); ("opId", JStr (eo_opId o)); ("callingRunId", JStr (eo_runId o));
        ("originalRunId", JStr (op_runId op)); ("originalStatus", JStr (op_status_name (op_status op)))])
      (Iso now) (dom_store d)) as (row & Hrow & _); [apply Hd|done|done|done|done| |].
    { unfold admissible_event. simpl. destruct (truthy_str (eo_opId o)); done. }
    rewrite (run_bind_Ok _ _ _ _ _ Hrow). by eexists. }
  exists d1. unfold process_result in Hp.
  assert (∀ k : unit → DM (option OperationResult), (get_state ≫= λ d0,
    on_store (recordReplay now (dom_id d0) (eo_opId o) mode (eo_runId o)) ≫= k) d = k tt d1) as Hk.
  { intros k. change ((on_store (recordReplay now (dom_id d) (eo_opId o) mode (eo_runId o)) ≫= k) d = k tt d1).
    by rewrite (run_bind_Ok _ _ _ _ _ Hrec). }
  simpl negb. cbv iota. destruct (res_body r); try done; by rewrite Hk.
Qed.

(** C18. What a run returns is on record, and a later request with its id is answered
    with it: when an answer ends a run with a result, the operation is done with
    that very result; on a usable domain, a request of any run with the fingerprint on
    record for its input then gets it back as a replay, and one with another
    fingerprint is refused without a change. *)
Theorem run_result_recorded `{Crypto} decode plan cancelled now f d es t e r
    (s := run_process decode plan cancelled (runProcess plan now f d) es)
    (s' := step decode plan cancelled t s e) :
  is_ended (sv_pc s) = false → sv_pc s' = ended (Ok r) →
  ∃ op, find_operation (eo_opId (plan_options plan)) (db (dom_store (sv_domain s'))) = Some op ∧
    op_done op = true ∧ op_result op = Some r ∧
    ∀ o t', eo_opId o = eo_opId (plan_options plan) →
    ∀ D, truthy_str D = true → usable D (sv_domain s') →
      (∃ d', replayRecorded t' o (op_inputFingerprint op) (sv_domain s') =
        (Ok (Some (replayed_result (Some (op_runId op)) r)), d')) ∧
      (∀ fp, op_inputFingerprint op ≠ fp → replayRecorded t' o fp (sv_domain s') =
        (Throw (OperationIdConflictError (eo_opId o) (op_inputFingerprint op) fp (op_runId op)), sv_domain s')).
Proof.
  intros Hn He. assert (pending_ok (sv_pc s)) as Hp.
  { apply run_pending. unfold runProcess. by destruct (allocateResourcesWithWait _ _ _ _ _ _ _) as [[]]. }
  destruct (step_recorded decode plan cancelled t s e r Hp Hn He) as [Hr (op & Hop & Hd & Hres)].
  exists op. split_and!; [done..|]. intros o t' Ho D HD Hus. rewrite -Ho in Hop.
  split; [by eapply replay_returns|]. by apply replay_conflict; [apply Hus|].
Qed.

(** The run of ProcessHold that exits, asked for again. *)
Definition before_exit : Supervised :=
  play_run run_begun ((46%Z, Allocated (Ok tt) None) :: (47%Z, Spawned (Ok run_identity) None) :: removelast exit_events).
Definition after_exit : Supervised :=
  step (H:=sample_crypto) run_decode run_plan nobody 55 before_exit (IdentityVerified (Ok not_original_process) run_capture).
Definition exit_result : OperationResult :=
  match sv_pc after_exit with ended (Ok r) => r | _ => sample_result end.

Lemma run_result_recorded_witness :
  ∃ op d', replayRecorded 70 run_options (op_inputFingerprint op) (sv_domain after_exit) =
    (Ok (Some (replayed_result (Some (op_runId op)) exit_result)), d') ∧
  (λ op, (op_inputFingerprint op, op_runId op)) <$> find_operation "op-9" (db (dom_store (sv_domain after_exit)))
    = Some ("fp-9", "run-1").
Proof.
  destruct (run_result_recorded (H:=sample_crypto) run_decode run_plan nobody 45 run_flight sample_domain
    ((46%Z, Allocated (Ok tt) None) :: (47%Z, Spawned (Ok run_identity) None) :: removelast exit_events) 55
    (IdentityVerified (Ok not_original_process) run_capture) exit_result)
    as (op & _ & _ & _ & Hask); [by vm_compute|by vm_compute|].
  destruct (Hask run_options 70%Z eq_refl "dom" eq_refl) as [[d' Hd'] _]; [by split; vm_compute|].
  exists op, d'. split; [exact Hd'|by vm_compute].
Defined.
