(* ===== verification/Isa.v ===== *)
(** * Isa: the instruction set (src/src/isa/: types.ts, opcodes.generated.ts, registry.generated.ts)

    What a program is before it is checked - a JSON value - and what the checks
    rest on: the opcodes, the registry that gives each its atomicity, its
    resources and its drivers, the capability record an admission is made
    against, and the shapes of identifiers and references. An object is the list
    of its own enumerable properties in [Object.keys] order; a property that is
    absent reads as [VUndef]. A finite number is a rational. *)

From stdpp Require Import pretty.
From Stdlib Require Import QArith.
From S2P Require Import Prelude Types Events.

(** ** Values *)

Inductive number :=
| NFin (q : Q)
| NNaN
| NInf (negative : bool).

Inductive value :=
| VUndef
| VNull
| VBool (b : bool)
| VNum (n : number)
| VStr (s : string)
| VArr (l : list value)
| VObj (fields : list (string * value)).

Section value_ind.
Variable P : value → Prop.
Hypothesis Hundef : P VUndef.
Hypothesis Hnull : P VNull.
Hypothesis Hbool : ∀ b, P (VBool b).
Hypothesis Hnum : ∀ n, P (VNum n).
Hypothesis Hstr : ∀ s, P (VStr s).
Hypothesis Harr : ∀ l, Forall P l → P (VArr l).
Hypothesis Hobj : ∀ fs, Forall (λ kv, P kv.2) fs → P (VObj fs).

Fixpoint value_nested_ind (v : value) : P v :=
  match v with
  | VUndef => Hundef
  | VNull => Hnull
  | VBool b => Hbool b
  | VNum n => Hnum n
  | VStr s => Hstr s
  | VArr l => Harr l
      ((fix go l := match l return Forall P l with
        | [] => Forall_nil_2 _
        | x :: l' => Forall_cons_2 _ _ _ (value_nested_ind x) (go l')
        end) l)
  | VObj fs => Hobj fs
      ((fix go fs := match fs return Forall (λ kv, P kv.2) fs with
        | [] => Forall_nil_2 _
        | kv :: fs' => Forall_cons_2 _ _ _ (value_nested_ind kv.2) (go fs')
        end) fs)
  end.
End value_ind.

Definition VZ (z : Z) : value := VNum (NFin (inject_Z z)).

(** [value === undefined] *)
Definition absent (v : value) : bool := match v with VUndef => true | _ => false end.
(** [Object.hasOwn(o, k)] and [o[k]] on an object's own properties. *)
Definition has_own (fs : list (string * value)) (k : string) : bool := jm_has fs k.
Definition prop (fs : list (string * value)) (k : string) : value := default VUndef (jm_get fs k).
(** [v[k]] on any value: [null] and [undefined] have no properties to read. *)
Definition read_prop (v : value) (k : string) : outcome error value :=
  match v with
  | VUndef | VNull => Throw (TypeErr "cannot read properties of null or undefined")
  | VObj fs => Ok (prop fs k)
  | _ => Ok VUndef
  end.

(** [Number.MAX_SAFE_INTEGER], [Number.isSafeInteger] with the integer it found. *)
Definition MAX_SAFE_INTEGER : Z := 9007199254740991.
Definition integer_of (n : number) : option Z :=
  match n with
  | NFin q => if bool_decide (Qnum q `mod` Z.pos (Qden q) = 0)%Z
              then Some (Qnum q `div` Z.pos (Qden q))%Z else None
  | _ => None
  end.
Definition safe_integer (v : value) : option Z :=
  match v with
  | VNum n => z ← integer_of n; if bool_decide (Z.abs z ≤ MAX_SAFE_INTEGER)%Z then Some z else None
  | _ => None
  end.
(** [n > z] *)
Definition exceeds (n : number) (z : Z) : bool :=
  match n with
  | NFin q => negb (Qle_bool q (inject_Z z))
  | NInf negative => negb negative
  | NNaN => false
  end.

(** What is the engine's: how a number with a fraction or beyond [10^21] prints, how
    many arguments one call takes - [f(...items)] passes one for each item - and how
    deep the [join] of an array within arrays may recur. *)
Class Engine := mkEngine {
  fraction_text : Q → string;
  spread_arguments : Z;
  join_frames : nat;
}.
Definition stack_exceeded : error := Err "RangeError: maximum call stack size exceeded".
(** The arguments [...l] of a call. *)
Definition spread `{Engine} {A} (l : list A) : outcome error (list A) :=
  if (Z.of_nat (length l) <=? spread_arguments)%Z then Ok l else Throw stack_exceeded.

(** The decimal digits of an integer are its own. *)
Definition Number_toString `{Engine} (n : number) : string :=
  match n with
  | NFin q => match integer_of n with
              | Some z => if bool_decide (Z.abs z < 10 ^ 21)%Z then pretty z else fraction_text q
              | None => fraction_text q
              end
  | NNaN => "NaN"
  | NInf negative => if negative then "-Infinity" else "Infinity"
  end.

Fixpoint join (sep : string) (l : list string) : string :=
  match l with
  | [] => ""
  | [x] => x
  | x :: l' => x +:+ sep +:+ join sep l'
  end.

(** [String(v)]: an array joins what its items print as, an array of arrays in turn. An
    object with a [toString] property of its own - never a function in JSON - has no
    primitive to convert to. *)
Fixpoint String_at `{Engine} (frames : nat) (v : value) {struct v} : outcome error string :=
  match v with
  | VUndef => Ok "undefined"
  | VNull => Ok "null"
  | VBool b => Ok (if b then "true" else "false")
  | VNum n => Ok (Number_toString n)
  | VStr s => Ok s
  | VArr l =>
      match frames with
      | O => Throw stack_exceeded
      | S frames' =>
          items ← map_outcome (λ x, match x with VUndef | VNull => Ok "" | _ => String_at frames' x end) l;
          Ok (join "," items)
      end
  | VObj fs =>
      if has_own fs "toString" then Throw (TypeErr "cannot convert object to primitive value")
      else Ok "[object Object]"
  end.
Definition String_of `{Engine} (v : value) : outcome error string := String_at join_frames v.

(** ** Opcodes *)

Inductive Opcode :=
| fs_read | fs_write | fs_patch | fs_move
| fs_delete | fs_stat | workspace_snapshot | workspace_diff
| workspace_commit | workspace_rollback | proc_spawn | proc_wait
| proc_signal | proc_inspect | observe_files | observe_resources
| control_status | control_health | control_cancel | control_resolve
| control_resume | artifact_put | artifact_get | artifact_stream.

#[export] Instance Opcode_eq_dec : EqDecision Opcode.
Proof. solve_decision. Defined.

Definition ISA_V1_OPCODES : list Opcode :=
  [fs_read; fs_write; fs_patch; fs_move; fs_delete; fs_stat; workspace_snapshot; workspace_diff;
   workspace_commit; workspace_rollback; proc_spawn; proc_wait; proc_signal; proc_inspect;
   observe_files; observe_resources; control_status; control_health; control_cancel;
   control_resolve; control_resume; artifact_put; artifact_get; artifact_stream].

Definition opcode_name (op : Opcode) : string :=
  match op with
  | fs_read => "fs.read"
  | fs_write => "fs.write"
  | fs_patch => "fs.patch"
  | fs_move => "fs.move"
  | fs_delete => "fs.delete"
  | fs_stat => "fs.stat"
  | workspace_snapshot => "workspace.snapshot"
  | workspace_diff => "workspace.diff"
  | workspace_commit => "workspace.commit"
  | workspace_rollback => "workspace.rollback"
  | proc_spawn => "proc.spawn"
  | proc_wait => "proc.wait"
  | proc_signal => "proc.signal"
  | proc_inspect => "proc.inspect"
  | observe_files => "observe.files"
  | observe_resources => "observe.resources"
  | control_status => "control.status"
  | control_health => "control.health"
  | control_cancel => "control.cancel"
  | control_resolve => "control.resolve"
  | control_resume => "control.resume"
  | artifact_put => "artifact.put"
  | artifact_get => "artifact.get"
  | artifact_stream => "artifact.stream"
  end.

Lemma opcode_listed op : op ∈ ISA_V1_OPCODES.
Proof. by apply (bool_decide_unpack _); destruct op; vm_compute. Qed.

#[export] Instance opcode_name_inj : Inj (=) (=) opcode_name.
Proof. intros [] []; done. Qed.

(** ** The registry *)

Inductive Atomicity :=
| at_pure | at_local_atomic | at_compensatable | at_external | at_sampled.
Inductive Idempotency := idem_safe | idem_op_id_required | idem_op_id_required_no_replay.
Inductive RollbackClass := rb_none | rb_compensatable | rb_impossible.

#[export] Instance Atomicity_eq_dec : EqDecision Atomicity.
Proof. solve_decision. Defined.
#[export] Instance Idempotency_eq_dec : EqDecision Idempotency.
Proof. solve_decision. Defined.

Record OpcodeMetadata := mkOpcodeMetadata {
  md_version : string;
  md_inputSchema : string;
  md_outputSchema : string;
  md_requiredCapabilities : list string;
  md_atomicity : Atomicity;
  md_observation : string;
  md_idempotency : Idempotency;
  md_rollback : RollbackClass;
  md_resourceCost : list string;
  md_drivers : list string;
}.

Definition fs_read_metadata : OpcodeMetadata := {|
  md_version := "1.0";
  md_inputSchema := "./instruction.schema.json#/$defs/FsReadArgs";
  md_outputSchema := "./result.schema.json#/$defs/InstructionValue";
  md_requiredCapabilities := ["filesystem.read"; "artifact.put"];
  md_atomicity := at_pure;
  md_observation := "filesystem.content_and_hash";
  md_idempotency := idem_safe;
  md_rollback := rb_none;
  md_resourceCost := ["io.read"; "artifact.write"];
  md_drivers := ["node.filesystem"; "artifact.store"] |}.
Definition fs_write_metadata : OpcodeMetadata := {|
  md_version := "1.0";
  md_inputSchema := "./instruction.schema.json#/$defs/FsWriteArgs";
  md_outputSchema := "./result.schema.json#/$defs/InstructionValue";
  md_requiredCapabilities := ["filesystem.write"; "artifact.get"];
  md_atomicity := at_local_atomic;
  md_observation := "filesystem.hash_after_write";
  md_idempotency := idem_op_id_required;
  md_rollback := rb_compensatable;
  md_resourceCost := ["io.write"; "artifact.read"];
  md_drivers := ["node.filesystem"; "artifact.store"] |}.
Definition fs_patch_metadata : OpcodeMetadata := {|
  md_version := "1.0";
  md_inputSchema := "./instruction.schema.json#/$defs/FsPatchArgs";
  md_outputSchema := "./result.schema.json#/$defs/InstructionValue";
  md_requiredCapabilities := ["filesystem.write"; "artifact.get"];
  md_atomicity := at_local_atomic;
  md_observation := "filesystem.diff_and_hash";
  md_idempotency := idem_op_id_required;
  md_rollback := rb_compensatable;
  md_resourceCost := ["io.read"; "io.write"; "artifact.read"];
  md_drivers := ["node.filesystem"; "artifact.store"] |}.
Definition fs_move_metadata : OpcodeMetadata := {|
  md_version := "1.0";
  md_inputSchema := "./instruction.schema.json#/$defs/FsMoveArgs";
  md_outputSchema := "./result.schema.json#/$defs/InstructionValue";
  md_requiredCapabilities := ["filesystem.write"];
  md_atomicity := at_local_atomic;
  md_observation := "filesystem.path_transition";
  md_idempotency := idem_op_id_required;
  md_rollback := rb_compensatable;
  md_resourceCost := ["io.metadata"];
  md_drivers := ["node.filesystem"] |}.
Definition fs_delete_metadata : OpcodeMetadata := {|
  md_version := "1.0";
  md_inputSchema := "./instruction.schema.json#/$defs/FsDeleteArgs";
  md_outputSchema := "./result.schema.json#/$defs/InstructionValue";
  md_requiredCapabilities := ["filesystem.delete"];
  md_atomicity := at_compensatable;
  md_observation := "filesystem.delete_manifest";
  md_idempotency := idem_op_id_required;
  md_rollback := rb_compensatable;
  md_resourceCost := ["io.write"; "artifact.write"];
  md_drivers := ["node.filesystem"; "artifact.store"] |}.
Definition fs_stat_metadata : OpcodeMetadata := {|
  md_version := "1.0";
  md_inputSchema := "./instruction.schema.json#/$defs/FsStatArgs";
  md_outputSchema := "./result.schema.json#/$defs/InstructionValue";
  md_requiredCapabilities := ["filesystem.read"];
  md_atomicity := at_pure;
  md_observation := "filesystem.stat_fingerprint";
  md_idempotency := idem_safe;
  md_rollback := rb_none;
  md_resourceCost := ["io.metadata"];
  md_drivers := ["node.filesystem"] |}.
Definition workspace_snapshot_metadata : OpcodeMetadata := {|
  md_version := "1.0";
  md_inputSchema := "./instruction.schema.json#/$defs/WorkspaceSnapshotArgs";
  md_outputSchema := "./result.schema.json#/$defs/InstructionValue";
  md_requiredCapabilities := ["workspace.snapshot"; "filesystem.read"; "artifact.put"];
  md_atomicity := at_local_atomic;
  md_observation := "workspace.tree_fingerprint";
  md_idempotency := idem_op_id_required;
  md_rollback := rb_none;
  md_resourceCost := ["io.scan"; "artifact.write"];
  md_drivers := ["workspace.git-shadow"; "artifact.store"] |}.
Definition workspace_diff_metadata : OpcodeMetadata := {|
  md_version := "1.0";
  md_inputSchema := "./instruction.schema.json#/$defs/WorkspaceDiffArgs";
  md_outputSchema := "./result.schema.json#/$defs/InstructionValue";
  md_requiredCapabilities := ["workspace.read"; "filesystem.read"];
  md_atomicity := at_pure;
  md_observation := "workspace.diff_facts";
  md_idempotency := idem_safe;
  md_rollback := rb_none;
  md_resourceCost := ["io.scan"];
  md_drivers := ["workspace.git-shadow"] |}.
Definition workspace_commit_metadata : OpcodeMetadata := {|
  md_version := "1.0";
  md_inputSchema := "./instruction.schema.json#/$defs/WorkspaceCommitArgs";
  md_outputSchema := "./result.schema.json#/$defs/InstructionValue";
  md_requiredCapabilities := ["workspace.commit"; "filesystem.write"];
  md_atomicity := at_compensatable;
  md_observation := "workspace.conflict_check_and_apply";
  md_idempotency := idem_op_id_required;
  md_rollback := rb_compensatable;
  md_resourceCost := ["io.scan"; "io.write"; "artifact.write"];
  md_drivers := ["workspace.git-shadow"; "node.filesystem"; "artifact.store"] |}.
Definition workspace_rollback_metadata : OpcodeMetadata := {|
  md_version := "1.0";
  md_inputSchema := "./instruction.schema.json#/$defs/WorkspaceRollbackArgs";
  md_outputSchema := "./result.schema.json#/$defs/InstructionValue";
  md_requiredCapabilities := ["workspace.rollback"; "filesystem.write"];
  md_atomicity := at_compensatable;
  md_observation := "workspace.rollback_coverage_and_fingerprint";
  md_idempotency := idem_op_id_required;
  md_rollback := rb_compensatable;
  md_resourceCost := ["io.scan"; "io.write"];
  md_drivers := ["workspace.git-shadow"; "node.filesystem"] |}.
Definition proc_spawn_metadata : OpcodeMetadata := {|
  md_version := "1.0";
  md_inputSchema := "./instruction.schema.json#/$defs/ProcSpawnArgs";
  md_outputSchema := "./result.schema.json#/$defs/InstructionValue";
  md_requiredCapabilities := ["process.spawn"];
  md_atomicity := at_external;
  md_observation := "driver.identity_and_spawn_gate";
  md_idempotency := idem_op_id_required_no_replay;
  md_rollback := rb_impossible;
  md_resourceCost := ["cpu"; "memory"; "pids"; "output"];
  md_drivers := ["node.process"; "reaper.process"; "cgroup.process"] |}.
Definition proc_wait_metadata : OpcodeMetadata := {|
  md_version := "1.0";
  md_inputSchema := "./instruction.schema.json#/$defs/ProcWaitArgs";
  md_outputSchema := "./result.schema.json#/$defs/InstructionValue";
  md_requiredCapabilities := ["process.inspect"];
  md_atomicity := at_external;
  md_observation := "driver.tree_settlement_and_exit";
  md_idempotency := idem_safe;
  md_rollback := rb_none;
  md_resourceCost := ["cpu"; "memory"; "pids"; "output"];
  md_drivers := ["node.process"; "reaper.process"; "cgroup.process"] |}.
Definition proc_signal_metadata : OpcodeMetadata := {|
  md_version := "1.0";
  md_inputSchema := "./instruction.schema.json#/$defs/ProcSignalArgs";
  md_outputSchema := "./result.schema.json#/$defs/InstructionValue";
  md_requiredCapabilities := ["process.signal"];
  md_atomicity := at_external;
  md_observation := "driver.stop_confirmation";
  md_idempotency := idem_op_id_required_no_replay;
  md_rollback := rb_impossible;
  md_resourceCost := ["pids"];
  md_drivers := ["node.process"; "reaper.process"; "cgroup.process"] |}.
Definition proc_inspect_metadata : OpcodeMetadata := {|
  md_version := "1.0";
  md_inputSchema := "./instruction.schema.json#/$defs/ProcInspectArgs";
  md_outputSchema := "./result.schema.json#/$defs/InstructionValue";
  md_requiredCapabilities := ["process.inspect"];
  md_atomicity := at_pure;
  md_observation := "driver.process_facts";
  md_idempotency := idem_safe;
  md_rollback := rb_none;
  md_resourceCost := ["cpu"; "memory"; "pids"];
  md_drivers := ["node.process"; "reaper.process"; "cgroup.process"] |}.
Definition observe_files_metadata : OpcodeMetadata := {|
  md_version := "1.0";
  md_inputSchema := "./instruction.schema.json#/$defs/ObserveFilesArgs";
  md_outputSchema := "./result.schema.json#/$defs/InstructionValue";
  md_requiredCapabilities := ["filesystem.observe"];
  md_atomicity := at_sampled;
  md_observation := "filesystem.sample";
  md_idempotency := idem_safe;
  md_rollback := rb_none;
  md_resourceCost := ["io.scan"];
  md_drivers := ["node.filesystem"] |}.
Definition observe_resources_metadata : OpcodeMetadata := {|
  md_version := "1.0";
  md_inputSchema := "./instruction.schema.json#/$defs/ObserveResourcesArgs";
  md_outputSchema := "./result.schema.json#/$defs/InstructionValue";
  md_requiredCapabilities := ["process.observe_resources"];
  md_atomicity := at_sampled;
  md_observation := "driver.resource_sample";
  md_idempotency := idem_safe;
  md_rollback := rb_none;
  md_resourceCost := ["cpu"; "memory"; "pids"; "output"];
  md_drivers := ["node.process"; "reaper.process"; "cgroup.process"] |}.
Definition control_status_metadata : OpcodeMetadata := {|
  md_version := "1.0";
  md_inputSchema := "./instruction.schema.json#/$defs/ControlStatusArgs";
  md_outputSchema := "./result.schema.json#/$defs/InstructionValue";
  md_requiredCapabilities := ["control.read"];
  md_atomicity := at_pure;
  md_observation := "journal.status_projection";
  md_idempotency := idem_safe;
  md_rollback := rb_none;
  md_resourceCost := ["journal.read"];
  md_drivers := ["journal.store"] |}.
Definition control_health_metadata : OpcodeMetadata := {|
  md_version := "1.0";
  md_inputSchema := "./instruction.schema.json#/$defs/ControlHealthArgs";
  md_outputSchema := "./result.schema.json#/$defs/InstructionValue";
  md_requiredCapabilities := ["control.read"];
  md_atomicity := at_pure;
  md_observation := "journal.driver_health";
  md_idempotency := idem_safe;
  md_rollback := rb_none;
  md_resourceCost := ["journal.read"];
  md_drivers := ["journal.store"] |}.
Definition control_cancel_metadata : OpcodeMetadata := {|
  md_version := "1.0";
  md_inputSchema := "./instruction.schema.json#/$defs/ControlCancelArgs";
  md_outputSchema := "./result.schema.json#/$defs/InstructionValue";
  md_requiredCapabilities := ["control.cancel"; "process.signal"];
  md_atomicity := at_external;
  md_observation := "driver.stop_confirmation";
  md_idempotency := idem_op_id_required_no_replay;
  md_rollback := rb_impossible;
  md_resourceCost := ["pids"; "journal.write"];
  md_drivers := ["journal.store"; "node.process"; "reaper.process"; "cgroup.process"] |}.
Definition control_resolve_metadata : OpcodeMetadata := {|
  md_version := "1.0";
  md_inputSchema := "./instruction.schema.json#/$defs/ControlResolveArgs";
  md_outputSchema := "./result.schema.json#/$defs/InstructionValue";
  md_requiredCapabilities := ["control.resolve"];
  md_atomicity := at_local_atomic;
  md_observation := "journal.resolution_record";
  md_idempotency := idem_op_id_required;
  md_rollback := rb_impossible;
  md_resourceCost := ["journal.write"];
  md_drivers := ["journal.store"] |}.
Definition control_resume_metadata : OpcodeMetadata := {|
  md_version := "1.0";
  md_inputSchema := "./instruction.schema.json#/$defs/ControlResumeArgs";
  md_outputSchema := "./result.schema.json#/$defs/InstructionValue";
  md_requiredCapabilities := ["control.resume"];
  md_atomicity := at_external;
  md_observation := "journal.resume_and_driver_evidence";
  md_idempotency := idem_op_id_required_no_replay;
  md_rollback := rb_impossible;
  md_resourceCost := ["journal.write"; "cpu"; "memory"; "pids"];
  md_drivers := ["journal.store"; "node.process"; "reaper.process"; "cgroup.process"] |}.
Definition artifact_put_metadata : OpcodeMetadata := {|
  md_version := "1.0";
  md_inputSchema := "./instruction.schema.json#/$defs/ArtifactPutArgs";
  md_outputSchema := "./result.schema.json#/$defs/InstructionValue";
  md_requiredCapabilities := ["artifact.put"];
  md_atomicity := at_local_atomic;
  md_observation := "artifact.hash_after_write";
  md_idempotency := idem_op_id_required;
  md_rollback := rb_compensatable;
  md_resourceCost := ["io.write"; "artifact.write"];
  md_drivers := ["artifact.store"] |}.
Definition artifact_get_metadata : OpcodeMetadata := {|
  md_version := "1.0";
  md_inputSchema := "./instruction.schema.json#/$defs/ArtifactGetArgs";
  md_outputSchema := "./result.schema.json#/$defs/InstructionValue";
  md_requiredCapabilities := ["artifact.get"];
  md_atomicity := at_pure;
  md_observation := "artifact.hash_and_range";
  md_idempotency := idem_safe;
  md_rollback := rb_none;
  md_resourceCost := ["io.read"; "artifact.read"];
  md_drivers := ["artifact.store"] |}.
Definition artifact_stream_metadata : OpcodeMetadata := {|
  md_version := "1.0";
  md_inputSchema := "./instruction.schema.json#/$defs/ArtifactStreamArgs";
  md_outputSchema := "./result.schema.json#/$defs/InstructionValue";
  md_requiredCapabilities := ["artifact.get"];
  md_atomicity := at_pure;
  md_observation := "artifact.hash_and_cursor";
  md_idempotency := idem_safe;
  md_rollback := rb_none;
  md_resourceCost := ["io.read"; "artifact.read"];
  md_drivers := ["artifact.store"] |}.

Definition ISA_V1_REGISTRY (op : Opcode) : OpcodeMetadata :=
  match op with
  | fs_read => fs_read_metadata
  | fs_write => fs_write_metadata
  | fs_patch => fs_patch_metadata
  | fs_move => fs_move_metadata
  | fs_delete => fs_delete_metadata
  | fs_stat => fs_stat_metadata
  | workspace_snapshot => workspace_snapshot_metadata
  | workspace_diff => workspace_diff_metadata
  | workspace_commit => workspace_commit_metadata
  | workspace_rollback => workspace_rollback_metadata
  | proc_spawn => proc_spawn_metadata
  | proc_wait => proc_wait_metadata
  | proc_signal => proc_signal_metadata
  | proc_inspect => proc_inspect_metadata
  | observe_files => observe_files_metadata
  | observe_resources => observe_resources_metadata
  | control_status => control_status_metadata
  | control_health => control_health_metadata
  | control_cancel => control_cancel_metadata
  | control_resolve => control_resolve_metadata
  | control_resume => control_resume_metadata
  | artifact_put => artifact_put_metadata
  | artifact_get => artifact_get_metadata
  | artifact_stream => artifact_stream_metadata
  end.

(** An operation that may not be repeated freely carries an operation id. *)
Definition requires_op_id (op : Opcode) : bool :=
  negb (bool_decide (md_idempotency (ISA_V1_REGISTRY op) = idem_safe)).

(** ** The capability an admission is made against *)

Record IsaScope := mkIsaScope {
  isc_opcodes : list Opcode;
  isc_workspaces : list string;
  isc_paths : list string;
  isc_secrets : list string;
}.
Record IsaLimits := mkIsaLimits {
  lim_cpuMs : Z;
  lim_memoryBytes : Z;
  lim_outputBytes : Z;
  lim_concurrentOps : Z;
  lim_processes : Z;
}.
Record IsaCapability := mkIsaCapability {
  ic_id : string;
  ic_issuer : string;
  ic_policyVersion : string;
  ic_reason : string;
  ic_scope : IsaScope;
  ic_limits : IsaLimits;
  ic_expiresAt : DateStr;
  ic_parentId : option string;
  ic_epoch : number;
}.

(** ** Identifiers and references *)

Definition is_alnum (a : ascii) : bool := is_alpha a || is_digit a.
Definition id_char (a : ascii) : bool := is_alnum a || one_of ["."; "_"; ":"; "-"]%char a.
Definition ID_PATTERN : string → bool := name_regex id_char 127.

(** [/^[A-Za-z0-9][A-Za-z0-9._:-]{0,239}$/u] *)
Definition ref_tail (s : string) : bool :=
  match s with
  | EmptyString => false
  | String a t => is_alnum a && all_chars id_char t && (String.length t <=? 239)%nat
  end.
Definition ref_regex (prefix s : string) : bool :=
  startsWith s prefix && ref_tail (slice_from (String.length prefix) s).
Definition OP_ID_PATTERN : string → bool := ref_regex "op:".
Definition EVENT_CURSOR_PATTERN : string → bool := ref_regex "event:".

Inductive RefKind :=
| ref_capability | ref_workspace | ref_artifact | ref_process | ref_snapshot
| ref_transaction | ref_lease | ref_resume | ref_secret | ref_cursor.
Definition REF_PATTERNS (k : RefKind) : string → bool :=
  match k with
  | ref_capability => ref_regex "cap:"
  | ref_workspace => ref_regex "workspace:"
  | ref_artifact => ref_regex "artifact:"
  | ref_process => ref_regex "process:"
  | ref_snapshot => ref_regex "snapshot:"
  | ref_transaction => ref_regex "transaction:"
  | ref_lease => ref_regex "lease:"
  | ref_resume => ref_regex "resume:"
  | ref_secret => ref_regex "secret:"
  | ref_cursor => ref_regex "cursor:"
  end.
