(* ===== verification/Codec.v ===== *)
(** * Codec: the JSON encoding of ISA values (src/src/isa/codec.ts)

    [encodeJson] refuses what JSON cannot hold and prints the rest as
    [JSON.stringify] does; the canonical form sorts the keys of every object. *)

From stdpp Require Import pretty.
From S2P Require Import Prelude Types Events Isa.

(** [assertJsonValue] on a tree: no [undefined], no [NaN], no infinity. *)
Fixpoint is_json (v : value) : bool :=
  match v with
  | VUndef => false
  | VNull | VBool _ | VStr _ => true
  | VNum (NFin _) => true
  | VNum _ => false
  | VArr l => forallb is_json l
  | VObj fs => forallb (λ kv, is_json kv.2) fs
  end.

(** [o[k] = v] as a property of its own. [Object.keys] lists the array indices first,
    in ascending order, then the other keys as they were added. *)
Definition array_index (key : string) : option Z :=
  match key with
  | EmptyString => None
  | String "0" EmptyString => Some 0%Z
  | String "0" _ => None
  | _ => n ← digits_value 0 key; if (n <? 4294967295)%Z then Some n else None
  end.
Definition listed_before (a b : string) : bool :=
  match array_index a, array_index b with
  | Some i, Some j => (i <? j)%Z
  | Some _, None => true
  | None, _ => false
  end.
Section Define.
Context {A : Type}.
Fixpoint obj_insert (fs : list (string * A)) (k : string) (v : A) : list (string * A) :=
  match fs with
  | [] => [(k, v)]
  | kv :: fs' => if listed_before k kv.1 then (k, v) :: fs else kv :: obj_insert fs' k v
  end.
Definition obj_define (fs : list (string * A)) (k : string) (v : A) : list (string * A) :=
  if jm_has fs k then jm_set fs k v else obj_insert fs k v.
Definition key_le (a b : string * A) : Prop := string_le a.1 b.1.
#[export] Instance key_le_dec a b : Decision (key_le a b).
Proof. unfold key_le. apply _. Defined.
(** A new object whose properties are defined in the order of their sorted keys. *)
Definition sorted_object (fs : list (string * A)) : list (string * A) :=
  foldl (λ o kv, obj_define o kv.1 kv.2) [] (merge_sort key_le fs).
End Define.

(** [output[key] = ...]: assigning to the key [__proto__] sets the prototype of
    [output], it creates no property. *)
Definition assignable (key : string) : bool := negb (bool_decide (key = "__proto__")).

Fixpoint canonicalize (v : value) : value :=
  match v with
  | VArr l => VArr (map canonicalize l)
  | VObj fs =>
      VObj (sorted_object
        (List.filter (λ kv, assignable kv.1) (map (λ kv, (kv.1, canonicalize kv.2)) fs)))
  | _ => v
  end.

(** ** [JSON.stringify] *)

Definition quote : string := String "034"%char EmptyString.
Definition hex_digit (n : nat) : ascii :=
  ascii_of_nat (if (n <? 10)%nat then 48 + n else 87 + n).
Definition escape (a : ascii) : string :=
  let n := nat_of_ascii a in
  if bool_decide (n = 34) then "\" +:+ quote
  else if bool_decide (n = 92) then "\\"
  else if bool_decide (n = 8) then "\b"
  else if bool_decide (n = 9) then "\t"
  else if bool_decide (n = 10) then "\n"
  else if bool_decide (n = 12) then "\f"
  else if bool_decide (n = 13) then "\r"
  else if (n <? 32)%nat then
    "\u00" +:+ String (hex_digit (n / 16)) (String (hex_digit (n `mod` 16)) EmptyString)
  else String a EmptyString.
Fixpoint escape_all (s : string) : string :=
  match s with EmptyString => EmptyString | String a t => escape a +:+ escape_all t end.
Definition json_string (s : string) : string := quote +:+ escape_all s +:+ quote.

Section Stringify.
Context `{Engine}.

(** On a value [is_json] accepts. *)
Fixpoint JSON_stringify (v : value) : string :=
  match v with
  | VUndef | VNull => "null"
  | VBool b => if b then "true" else "false"
  | VNum n => Number_toString n
  | VStr s => json_string s
  | VArr l => "[" +:+ join "," (map JSON_stringify l) +:+ "]"
  | VObj fs =>
      "{" +:+ join "," (map (λ kv, json_string kv.1 +:+ ":" +:+ JSON_stringify kv.2) fs) +:+ "}"
  end.

Definition encodeJson (canonical : bool) (v : value) : outcome error string :=
  if is_json v then Ok (JSON_stringify (if canonical then canonicalize v else v))
  else Throw (TypeErr "value is not JSON").
End Stringify.
