(* ===== verification/Cbor.v ===== *)
(** * Cbor: the binary encoding of ISA values (src/src/isa/codec.ts)

    [CborWriter] appends the bytes of a value, [CborReader] walks a buffer with an
    offset. A text is its UTF-8 bytes; a lone surrogate, which has none, is not a
    text of this model. A number that is not a safe integer travels as the eight
    bytes of a double, and a finite double is the rational it stands for. The
    nesting limit of the reader is what its recursion is structural on. *)

From Stdlib Require Import QArith.
From S2P Require Import Prelude Types Events Isa Codec.

Local Open Scope Z_scope.

Definition MAX_CBOR_COLLECTION_LENGTH : Z := 1000000.
Definition MAX_CBOR_DEPTH : Z := 128.

(** ** Texts *)

Definition byte_of (a : ascii) : Z := Z.of_nat (nat_of_ascii a).
Definition ascii_of (b : Z) : ascii := ascii_of_nat (Z.to_nat b).
(** [Buffer.from(s, 'utf8')] and its inverse on the bytes of a text. *)
Definition utf8_bytes (s : string) : list Z := map byte_of (String.list_ascii_of_string s).
Definition text_of_bytes (bs : list Z) : string := String.string_of_list_ascii (map ascii_of bs).

(** The bytes that may follow the first byte of a character. *)
Definition continuation : Z * Z := (0x80, 0xbf).
Definition utf8_first (b : Z) : option (list (Z * Z)) :=
  if b <? 0x80 then Some []
  else if b <? 0xc2 then None
  else if b <? 0xe0 then Some [continuation]
  else if b =? 0xe0 then Some [(0xa0, 0xbf); continuation]
  else if b =? 0xed then Some [(0x80, 0x9f); continuation]
  else if b <? 0xf0 then Some [continuation; continuation]
  else if b =? 0xf0 then Some [(0x90, 0xbf); continuation; continuation]
  else if b <? 0xf4 then Some [continuation; continuation; continuation]
  else if b =? 0xf4 then Some [(0x80, 0x8f); continuation; continuation]
  else None.
Fixpoint utf8_from (pending : list (Z * Z)) (bs : list Z) : bool :=
  match bs, pending with
  | [], [] => true
  | [], _ => false
  | b :: bs', [] => match utf8_first b with Some p => utf8_from p bs' | None => false end
  | b :: bs', (lo, hi) :: p => (lo <=? b) && (b <=? hi) && utf8_from p bs'
  end.
Definition utf8_valid : list Z → bool := utf8_from [].

(** [new TextDecoder('utf-8', { fatal: true }).decode(bs)]: a byte order mark at the
    start is not part of the text. *)
Definition strip_bom (bs : list Z) : list Z :=
  match bs with
  | 0xef :: 0xbb :: 0xbf :: bs' => bs'
  | _ => bs
  end.
Definition TextDecoder_decode (bs : list Z) : outcome error string :=
  let bs := strip_bom bs in
  if utf8_valid bs then Ok (text_of_bytes bs) else Throw (TypeErr "invalid encoded data").

(** ** Numbers *)

(** The low [n] bytes of [z], the most significant first. *)
Fixpoint big_endian (n : nat) (z : Z) : list Z :=
  match n with
  | O => []
  | S n' => Z.land (Z.shiftr z (8 * Z.of_nat n')) 0xff :: big_endian n' z
  end.
Definition of_big_endian : list Z → Z := foldl (λ acc b, Z.lor (Z.shiftl acc 8) b) 0.

(** [m * 2 ** e] *)
Definition scale (m e : Z) : Q :=
  Qred (if 0 <=? e then inject_Z (m * 2 ^ e) else Qmake m (Z.to_pos (2 ^ (- e)))).
(** The value of an IEEE 754 number of [ebits] exponent and [mbits] fraction bits. *)
Definition ieee (ebits mbits bits : Z) : number :=
  let negative := Z.testbit bits (ebits + mbits) in
  let sign := if negative then -1 else 1 in
  let exponent := Z.land (Z.shiftr bits mbits) (Z.ones ebits) in
  let fraction := Z.land bits (Z.ones mbits) in
  let bias := Z.ones (ebits - 1) in
  if exponent =? 0 then NFin (scale (sign * fraction) (1 - bias - mbits))
  else if exponent =? Z.ones ebits then (if fraction =? 0 then NInf negative else NNaN)
  else NFin (scale (sign * (2 ^ mbits + fraction)) (exponent - bias - mbits)).

(** [DataView.getFloat64] and [getFloat32], big endian. *)
Definition getFloat64 (bs : list Z) : number := ieee 11 52 (of_big_endian bs).
Definition getFloat32 (bs : list Z) : number := ieee 8 23 (of_big_endian bs).

(** [DataView.setFloat64] of a rational that is a double. *)
Definition float64_bits (q : Q) : Z :=
  let q := Qred q in
  let m := Z.abs (Qnum q) in
  let k := Z.log2 (Z.pos (Qden q)) in
  let sign := if Qnum q <? 0 then 1 else 0 in
  let exponent := Z.log2 m - k in
  if m =? 0 then 0
  else if exponent <? -1022 then Z.lor (Z.shiftl sign 63) (Z.shiftl m (1074 - k))
  else Z.lor (Z.lor (Z.shiftl sign 63) (Z.shiftl (exponent + 1023) 52))
         (Z.land (Z.shiftl m (52 - Z.log2 m)) (Z.ones 52)).
Definition setFloat64 (q : Q) : list Z := big_endian 8 (float64_bits q).

(** ** The writer *)

Section Writer.
(** How many arguments the engine takes in one call: [push(...bytes)] passes one
    for each byte. *)
Context (max_arguments : Z).

Definition push_spread (bs : list Z) : outcome error (list Z) :=
  if Z.of_nat (length bs) <=? max_arguments then Ok bs
  else Throw (Err "RangeError: maximum call stack size exceeded").

Definition writeHead (major value : Z) : outcome error (list Z) :=
  if (MAX_SAFE_INTEGER <? value) || (value <? 0) then
    Throw (Err "RangeError: CBOR length/value must be a nonnegative safe integer")
  else if value <? 24 then Ok [Z.lor (Z.shiftl major 5) value]
  else if value <=? 0xff then Ok (Z.lor (Z.shiftl major 5) 24 :: big_endian 1 value)
  else if value <=? 0xffff then Ok (Z.lor (Z.shiftl major 5) 25 :: big_endian 2 value)
  else if value <=? 0xffffffff then Ok (Z.lor (Z.shiftl major 5) 26 :: big_endian 4 value)
  else Ok (Z.lor (Z.shiftl major 5) 27 :: big_endian 8 value).

(** [Number.isSafeInteger] on a number the writer was given. *)
Definition write_number (n : number) : outcome error (list Z) :=
  match n with
  | NFin q =>
      match safe_integer (VNum n) with
      | Some z => if 0 <=? z then writeHead 0 z else writeHead 1 (-1 - z)
      | None => Ok (0xfb :: setFloat64 q)
      end
  | _ => Throw (TypeErr "CBOR cannot encode a non-finite number")
  end.
Definition write_text (s : string) : outcome error (list Z) :=
  let bytes := utf8_bytes s in
  head ← writeHead 3 (Z.of_nat (length bytes));
  body ← push_spread bytes;
  Ok (head ++ body).

(** The bytes [write] appends. *)
Fixpoint write (v : value) : outcome error (list Z) :=
  match v with
  | VUndef => Throw (TypeErr "cannot convert undefined to object")
  | VNull => Ok [0xf6]
  | VBool b => Ok [if b then 0xf5 else 0xf4]
  | VStr s => write_text s
  | VNum n => write_number n
  | VArr l =>
      head ← writeHead 4 (Z.of_nat (length l));
      items ← map_outcome write l;
      Ok (head ++ concat items)
  | VObj fs =>
      head ← writeHead 5 (Z.of_nat (length fs));
      items ← map_outcome (λ kv : string * outcome error (list Z),
                k ← write_text kv.1; x ← kv.2; Ok (k ++ x))
              (merge_sort key_le (map (λ kv, (kv.1, write kv.2)) fs));
      Ok (head ++ concat items)
  end.

Definition encodeCbor (v : value) : outcome error (list Z) :=
  if is_json v then write v else Throw (TypeErr "value is not JSON").
End Writer.

(** ** The reader *)

Section Reader.
Context (bytes : list Z).
(** The state is [this.offset]. *)
Definition CR (A : Type) : Type := ST error Z A.

Definition ensureAvailable (length : Z) : CR unit :=
  offset ← get_state;
  throw_if ((length <? 0) || (Z.of_nat (List.length bytes) <? offset + length))
    (TypeErr "truncated CBOR input").
Definition readByte : CR Z :=
  ensureAvailable 1 ;;
  offset ← get_state;
  modify (λ o, o + 1) ;;
  mret (nth (Z.to_nat offset) bytes 0).
(** [this.bytes.subarray(offset, offset + length)], and past it. *)
Definition readBytes (length : Z) : CR (list Z) :=
  ensureAvailable length ;;
  offset ← get_state;
  modify (λ o, o + length) ;;
  mret (take (Z.to_nat length) (drop (Z.to_nat offset) bytes)).

Fixpoint read_big_endian (width : nat) (value : Z) : CR Z :=
  match width with
  | O => mret value
  | S width' => b ← readByte; read_big_endian width' (Z.lor (Z.shiftl value 8) b)
  end.
Definition readAdditional (additional : Z) : CR Z :=
  if additional <? 24 then mret additional
  else if additional =? 31 then throw (TypeErr "indefinite-length CBOR items are not supported")
  else
    let width := if additional =? 24 then 1%nat else if additional =? 25 then 2%nat
                 else if additional =? 26 then 4%nat else if additional =? 27 then 8%nat else 0%nat in
    throw_if (bool_decide (width = 0%nat)) (TypeErr "unsupported CBOR additional information") ;;
    value ← read_big_endian width 0;
    throw_if (MAX_SAFE_INTEGER <? value)
      (Err "RangeError: CBOR integer exceeds JavaScript safe integer range") ;;
    mret value.

Definition readText (length : Z) : CR string :=
  ensureAvailable length ;;
  offset ← get_state;
  value ← lift (TextDecoder_decode (take (Z.to_nat length) (drop (Z.to_nat offset) bytes)));
  modify (λ o, o + length) ;;
  mret value.

Definition finite (n : number) : CR value :=
  match n with
  | NFin _ => mret (VNum n)
  | _ => throw (TypeErr "CBOR non-finite numbers are not JSON values")
  end.
Definition readFloat16 : CR value :=
  high ← readByte;
  low ← readByte;
  let bits := Z.lor (Z.shiftl high 8) low in
  let sign := if Z.land bits 0x8000 =? 0 then 1 else -1 in
  let exponent := Z.land (Z.shiftr bits 10) 0x1f in
  let fraction := Z.land bits 0x3ff in
  if exponent =? 0 then mret (VNum (NFin (scale (sign * fraction) (-14 - 10))))
  else
    throw_if (exponent =? 0x1f) (TypeErr "CBOR non-finite numbers are not JSON values") ;;
    mret (VNum (NFin (scale (sign * (1024 + fraction)) (exponent - 15 - 10)))).
Definition readFloat32 : CR value := bs ← readBytes 4; finite (getFloat32 bs).
Definition readFloat64 : CR value := bs ← readBytes 8; finite (getFloat64 bs).

Definition readSimple (additional : Z) : CR value :=
  if additional =? 20 then mret (VBool false)
  else if additional =? 21 then mret (VBool true)
  else if additional =? 22 then mret VNull
  else if additional =? 25 then readFloat16
  else if additional =? 26 then readFloat32
  else if additional =? 27 then readFloat64
  else throw (TypeErr "unsupported CBOR simple value").

Definition checkCollectionLength (length : Z) : CR unit :=
  throw_if (MAX_CBOR_COLLECTION_LENGTH <? length)
    (Err "RangeError: CBOR collection exceeds the codec limit").

(** The loops of [readArray] and [readMap] over what reads a value. *)
Fixpoint read_items (read : CR value) (n : nat) (value : list value) : CR (list Isa.value) :=
  match n with
  | O => mret value
  | S n' => v ← read; read_items read n' (value ++ [v])
  end.
Fixpoint read_entries (read : CR value) (n : nat) (value : list (string * Isa.value)) :
    CR (list (string * Isa.value)) :=
  match n with
  | O => mret value
  | S n' =>
      key ← read;
      key ← match key with
            | VStr key => mret key
            | _ => throw (TypeErr "CBOR map keys must be strings")
            end;
      throw_if (has_own value key) (TypeErr "CBOR contains duplicate map key") ;;
      entry ← read;
      read_entries read n' (obj_define value key entry)
  end.
Definition readArray (read : CR value) (length : Z) : CR value :=
  checkCollectionLength length ;;
  items ← read_items read (Z.to_nat length) [];
  mret (VArr items).
Definition readMap (read : CR value) (length : Z) : CR value :=
  checkCollectionLength length ;;
  entries ← read_entries read (Z.to_nat length) [];
  mret (VObj entries).

(** The [switch] on the major type, [read] being [readValue(depth + 1)]. *)
Definition read_major (read : CR value) (major length : Z) : CR value :=
  if major =? 0 then mret (VZ length)
  else if major =? 1 then mret (VZ (-1 - length))
  else if major =? 2 then throw (TypeErr "CBOR byte strings are outside the JSON value subset")
  else if major =? 3 then s ← readText length; mret (VStr s)
  else if major =? 4 then readArray read length
  else if major =? 5 then readMap read length
  else if major =? 6 then throw (TypeErr "CBOR tags are outside the ISA JSON value subset")
  else throw (TypeErr "unsupported CBOR major type").
(** [readValue(depth)] with [room = MAX_CBOR_DEPTH + 1 - depth]. *)
Fixpoint readValue (room : nat) : CR value :=
  match room with
  | O => throw (Err "RangeError: CBOR nesting depth exceeds the codec limit")
  | S room' =>
      initial ← readByte;
      let major := Z.shiftr initial 5 in
      let additional := Z.land initial 0x1f in
      if major =? 7 then readSimple additional
      else length ← readAdditional additional; read_major (readValue room') major length
  end.
Definition document_room : nat := Z.to_nat (MAX_CBOR_DEPTH + 1).
Definition readDocument : CR value :=
  value ← readValue document_room;
  offset ← get_state;
  throw_if (negb (offset =? Z.of_nat (length bytes))) (TypeErr "CBOR has trailing bytes") ;;
  mret value.
End Reader.

Definition decodeCbor (encoded : list Z) : outcome error value := (readDocument encoded 0).1.

(** ** Programs and results *)

Definition encodeObject (v : value) : outcome error value :=
  if negb (is_json v) then Throw (TypeErr "contains a non-JSON value")
  else match v with VObj _ => Ok v | _ => Throw (TypeErr "must be a JSON object") end.
Definition encodeProgramCbor (max_arguments : Z) (program : value) : outcome error (list Z) :=
  v ← encodeObject program; encodeCbor max_arguments v.
Definition decodeProgramCbor (encoded : list Z) : outcome error value :=
  v ← decodeCbor encoded; encodeObject v.
Definition encodeExecutionResultCbor (max_arguments : Z) (result : value) : outcome error (list Z) :=
  v ← encodeObject result; encodeCbor max_arguments v.
Definition decodeExecutionResultCbor (encoded : list Z) : outcome error value :=
  v ← decodeCbor encoded; encodeObject v.
