(* ===== verification/CborSpec.v ===== *)
(** * CborSpec: the reader inverts the writer (src/src/isa/codec.ts)

    Big-endian bytes read back, and the eight bytes of a double are the double. [reads]:
    at an offset where some bytes lie, a method of the reader consumes them and returns
    a value. Each part of the format is read where it was written; the theorem on values
    composes them. *)

From Stdlib Require Import QArith Znumtheory.
From S2P Require Import Prelude Types Events Isa Codec Cbor.

(** * Bytes and doubles *)

Local Open Scope Z_scope.

(** ** Bytes *)

Lemma lor_shiftl a b n : 0 ≤ n → 0 ≤ b < 2 ^ n → Z.lor (Z.shiftl a n) b = a * 2 ^ n + b.
Proof.
  intros Hn Hb. rewrite -Z.shiftl_mul_pow2 //. pose proof (Z.add_lor_land (Z.shiftl a n) b) as Hadd.
  assert (Z.land (Z.shiftl a n) b = 0) as Hzero; [|lia].
  apply Z.bits_inj'. intros i Hi. rewrite Z.land_spec Z.bits_0.
  destruct (decide (i < n)) as [Hlt|Hge].
  - by rewrite Z.shiftl_spec_low.
  - apply andb_false_intro2. rewrite -(Z.mod_small b (2 ^ n)) //. apply Z.mod_pow2_bits_high. lia.
Qed.

Lemma byte_at z n : 0 ≤ n → Z.land (Z.shiftr z (8 * n)) 0xff = (z / 2 ^ (8 * n)) `mod` 256.
Proof. intros. change 0xff with (Z.ones 8). rewrite Z.land_ones; [|lia]. rewrite Z.shiftr_div_pow2; [done|lia]. Qed.
Lemma split_bytes z n :
  0 ≤ n → z `mod` 2 ^ (8 * (n + 1)) = ((z / 2 ^ (8 * n)) `mod` 256) * 2 ^ (8 * n) + z `mod` 2 ^ (8 * n).
Proof.
  intros Hn. replace (8 * (n + 1)) with (8 * n + 8) by lia.
  rewrite Z.pow_add_r; [|lia|lia]. change (2 ^ 8) with 256.
  rewrite Z.rem_mul_r; [lia|apply Z.pow_nonzero; lia|lia].
Qed.
Lemma big_endian_range n z : Forall (λ b, 0 ≤ b < 256) (big_endian n z).
Proof.
  induction n as [|n IH]; constructor; [|done]. rewrite byte_at; [|lia].
  apply Z.mod_pos_bound. lia.
Qed.
Lemma big_endian_length n z : length (big_endian n z) = n.
Proof. induction n; simpl; auto. Qed.

Definition push_byte (acc b : Z) : Z := Z.lor (Z.shiftl acc 8) b.
Lemma push_bytes n z : ∀ acc,
  foldl push_byte acc (big_endian n z) = acc * 2 ^ (8 * Z.of_nat n) + z `mod` 2 ^ (8 * Z.of_nat n).
Proof.
  induction n as [|n IH]; intros acc; [simpl; rewrite Z.mod_1_r; lia|].
  cbn [big_endian foldl]. rewrite IH /push_byte byte_at; [|lia].
  rewrite lor_shiftl; [|lia|apply Z.mod_pos_bound; lia].
  rewrite Nat2Z.inj_succ -Z.add_1_r split_bytes; [|lia].
  replace (8 * (Z.of_nat n + 1)) with (8 * Z.of_nat n + 8) by lia.
  rewrite (Z.pow_add_r 2 _ 8); [|lia|lia]. change (2 ^ 8) with 256. ring.
Qed.
Lemma of_big_endian_of n z :
  0 ≤ z < 2 ^ (8 * Z.of_nat n) → of_big_endian (big_endian n z) = z.
Proof.
  intros Hz. unfold of_big_endian. change (λ acc b : Z, Z.lor (Z.shiftl acc 8) b) with push_byte.
  rewrite push_bytes Z.mod_small //.
Qed.

(** ** Powers of two *)

Lemma divides_pow2 k : 0 ≤ k → ∀ d, 0 < d → (d | 2 ^ k) → ∃ j, 0 ≤ j ≤ k ∧ d = 2 ^ j.
Proof.
  intros Hk. pattern k. apply natlike_ind; [| |done].
  - intros d Hd Hdiv. exists 0. split; [lia|]. apply Z.divide_1_r_nonneg in Hdiv; lia.
  - intros j Hj IH d Hd Hdiv. rewrite (Z.pow_succ_r 2 j Hj) in Hdiv.
    destruct (Zeven_odd_dec d) as [Hev|Hodd].
    + apply Zeven_ex in Hev as [d' ->].
      apply Z.mul_divide_cancel_l in Hdiv; [|lia].
      destruct (IH d') as (i & Hi & ->); [lia|done|]. exists (Z.succ i).
      rewrite Z.pow_succ_r; lia.
    + destruct (IH d) as (i & Hi & ->); [done| |exists i; split; [lia|done]].
      apply Gauss with 2; [done|]. apply rel_prime_sym, prime_rel_prime; [apply prime_2|].
      intros [c Hc]. apply Zodd_ex in Hodd as [e He]. lia.
Qed.

Lemma scale_eq B m e n k :
  0 ≤ B → 0 ≤ e + B → 0 ≤ k ≤ B → m * 2 ^ (e + B) = n * 2 ^ (B - k) →
  scale m e = Qred (Qmake n (Z.to_pos (2 ^ k))).
Proof.
  intros HB HeB Hk Heq. unfold scale. apply Qred_complete.
  assert (∀ j, 0 ≤ j → 0 < 2 ^ j) as Hpow by (intros; apply Z.pow_pos_nonneg; lia).
  destruct (Z.leb_spec 0 e) as [He|He]; unfold Qeq; simpl Qnum; simpl Qden.
  - rewrite Z2Pos.id; [|apply Hpow; lia]. apply (Z.mul_reg_r _ _ (2 ^ (B - k))).
    { specialize (Hpow (B - k)). lia. }
    rewrite Z.mul_1_r -Heq -!Z.mul_assoc -!Z.pow_add_r; try lia. do 2 f_equal. lia.
  - rewrite Z2Pos.id; [|apply Hpow; lia]. rewrite Z2Pos.id; [|apply Hpow; lia]. apply (Z.mul_reg_r _ _ (2 ^ B)).
    { specialize (Hpow B). lia. }
    assert (2 ^ B = 2 ^ (e + B) * 2 ^ (- e)) as HB1.
    { rewrite -Z.pow_add_r; [|lia|lia]. f_equal. lia. }
    assert (2 ^ B = 2 ^ (B - k) * 2 ^ k) as HB2.
    { rewrite -Z.pow_add_r; [|lia|lia]. f_equal. lia. }
    rewrite {1}HB1 {1}HB2.
    transitivity (m * 2 ^ (e + B) * (2 ^ k * 2 ^ (- e))); [ring|]. rewrite Heq. ring.
Qed.

(** ** Doubles *)

(** [q], in lowest terms, is a finite double: 53 bits and an exponent of eleven. *)
Definition double (q : Q) : Prop :=
  ∃ m e, Z.abs m < 2 ^ 53 ∧ -1074 ≤ e ≤ 971 ∧ q = scale m e.

Lemma Qred_int z : Qred (inject_Z z) = inject_Z z.
Proof.
  unfold Qred, inject_Z. pose proof (Z.ggcd_gcd z 1) as Hg.
  pose proof (Z.ggcd_correct_divisors z 1) as Hd.
  destruct (Z.ggcd z 1) as [g [a b]]. simpl in *. rewrite Z.gcd_1_r in Hg. subst g.
  destruct Hd as [-> Hb]. assert (b = 1) as -> by lia. f_equal. lia.
Qed.

(** In lowest terms: a numerator of 53 bits over a power of two, or an integer. *)
Lemma double_shape q : double q →
  ∃ n k, q = Qmake n (Z.to_pos (2 ^ k)) ∧ Qred q = q ∧ 0 ≤ k ≤ 1074 ∧ (n = 0 → k = 0) ∧
    ((Z.abs n < 2 ^ 53) ∨ (k = 0 ∧ ∃ m e, Z.abs m < 2 ^ 53 ∧ 0 ≤ e ≤ 971 ∧ n = m * 2 ^ e)).
Proof.
  intros (m & e & Hm & He & ->).
  assert (Qred (scale m e) = scale m e) as Hred by (apply Qred_complete, Qred_correct).
  unfold scale in *. destruct (Z.leb_spec 0 e) as [He0|He0].
  - exists (m * 2 ^ e), 0. rewrite Hred.
    rewrite Qred_int.
    split; [done|]. split; [done|]. split; [lia|]. split; [done|]. right. split; [done|].
    exists m, e. split_and!; try done; lia.
  - assert (0 < 2 ^ (- e)) as Hpos by (apply Z.pow_pos_nonneg; lia).
    unfold Qred in *. rewrite Z2Pos.id // in Hred |- *.
    pose proof (Z.ggcd_gcd m (2 ^ (- e))) as Hg.
    pose proof (Z.ggcd_correct_divisors m (2 ^ (- e))) as Hd.
    destruct (Z.ggcd m (2 ^ (- e))) as [g [a b]]. simpl in *. destruct Hd as [Ha Hb].
    assert (0 < g) as Hgpos.
    { pose proof (Z.gcd_nonneg m (2 ^ (- e))) as Hnn.
      assert (Z.gcd m (2 ^ (- e)) ≠ 0) by (intros [_ H0]%Z.gcd_eq_0; lia). lia. }
    assert (0 < b) as Hbpos by nia.
    destruct (divides_pow2 (- e) ltac:(lia) b Hbpos) as (k & Hk & ->); [exists g; lia|].
    exists a, k. rewrite Hred. split; [done|]. split; [done|]. split; [lia|]. split.
    + intros ->. rewrite Z.mul_0_r in Ha. subst m. rewrite Z.gcd_0_l in Hg.
      assert (2 ^ k = 1) as Hk1 by nia. destruct (decide (k = 0)); [done|].
      pose proof (Z.pow_gt_1 2 k ltac:(lia)) as [Hgt _]. lia.
    + left. subst m. rewrite Z.abs_mul in Hm. nia.
Qed.

Lemma ieee_fields s x f :
  s = 0 ∨ s = 1 → 0 ≤ x < 2047 → 0 ≤ f < 2 ^ 52 →
  ieee 11 52 (s * 2 ^ 63 + (x * 2 ^ 52 + f)) =
    NFin (if x =? 0 then scale ((1 - 2 * s) * f) (-1074)
          else scale ((1 - 2 * s) * (2 ^ 52 + f)) (x - 1075)).
Proof.
  intros Hs Hx Hf. unfold ieee. set (bits := s * 2 ^ 63 + (x * 2 ^ 52 + f)).
  assert (Z.testbit bits (11 + 52) = bool_decide (s = 1)) as ->.
  { apply Z.b2z_inj. rewrite Z.testbit_spec'; [|lia]. change (11 + 52) with 63.
    assert (bits / 2 ^ 63 = s) as ->.
    { symmetry. apply Z.div_unique with (x * 2 ^ 52 + f); [|unfold bits; ring]. left. lia. }
    destruct Hs as [-> | ->]; done. }
  assert (Z.land (Z.shiftr bits 52) (Z.ones 11) = x) as ->.
  { rewrite Z.land_ones; [|lia]. rewrite Z.shiftr_div_pow2; [|lia].
    assert (bits / 2 ^ 52 = s * 2 ^ 11 + x) as ->.
    { symmetry. apply Z.div_unique with f; [left; lia|unfold bits; ring]. }
    symmetry. apply Z.mod_unique with s; [left; lia|ring]. }
  assert (Z.land bits (Z.ones 52) = f) as ->.
  { rewrite Z.land_ones; [|lia]. symmetry.
    apply Z.mod_unique with (s * 2 ^ 11 + x); [left; lia|unfold bits; ring]. }
  change (Z.ones 11) with 2047. change (Z.ones (11 - 1)) with 1023.
  assert ((if bool_decide (s = 1) then -1 else 1) = 1 - 2 * s) as ->.
  { destruct Hs as [-> | ->]; done. }
  destruct (Z.eqb_spec x 0) as [->|Hx0]; [done|].
  destruct (Z.eqb_spec x 2047) as [->|Hx1]; [lia|]. do 2 f_equal. lia.
Qed.

Lemma log2_bounds n : n ≠ 0 → 2 ^ Z.log2 (Z.abs n) ≤ Z.abs n < 2 ^ (Z.log2 (Z.abs n) + 1) ∧ 0 ≤ Z.log2 (Z.abs n).
Proof.
  intros Hn. pose proof (Z.log2_spec (Z.abs n) ltac:(lia)). rewrite -Z.add_1_r in H.
  pose proof (Z.log2_nonneg (Z.abs n)). lia.
Qed.

(** The fields of the bits of a double: its sign, and its exponent and fraction. *)
Definition sign_bit (n : Z) : Z := if n <? 0 then 1 else 0.
Lemma sign_bit_cases n : sign_bit n = 0 ∨ sign_bit n = 1.
Proof. unfold sign_bit. case_match; auto. Qed.
Lemma sign_abs n : (1 - 2 * sign_bit n) * Z.abs n = n.
Proof. unfold sign_bit. destruct (Z.ltb_spec n 0); lia. Qed.

Lemma float64_subnormal n k :
  n ≠ 0 → 0 ≤ k ≤ 1074 → Z.log2 (Z.abs n) - k < -1022 →
  let f := Z.abs n * 2 ^ (1074 - k) in
  0 ≤ f < 2 ^ 52 ∧ scale ((1 - 2 * sign_bit n) * f) (-1074) = Qred (Qmake n (Z.to_pos (2 ^ k))).
Proof.
  intros Hn Hk HE f. destruct (log2_bounds n Hn) as [[_ Hup] HL].
  assert (0 < 2 ^ (1074 - k)) by (apply Z.pow_pos_nonneg; lia). split.
  - split; [unfold f; lia|]. unfold f.
    apply Z.lt_le_trans with (2 ^ (Z.log2 (Z.abs n) + 1) * 2 ^ (1074 - k)).
    + by apply Z.mul_lt_mono_pos_r.
    + rewrite -Z.pow_add_r; [|lia|lia]. apply Z.pow_le_mono_r; lia.
  - apply (scale_eq 1074); [lia|lia|lia|]. unfold f.
    change (-1074 + 1074) with 0. rewrite Z.pow_0_r Z.mul_1_r Z.mul_assoc sign_abs. done.
Qed.

(** The 53 bits of the numerator, moved to where the fraction is. *)
Lemma significand n k :
  n ≠ 0 → 0 ≤ k →
  ((Z.abs n < 2 ^ 53) ∨ (k = 0 ∧ ∃ m e, Z.abs m < 2 ^ 53 ∧ 0 ≤ e ≤ 971 ∧ n = m * 2 ^ e)) →
  let L := Z.log2 (Z.abs n) in
  let T := Z.shiftl (Z.abs n) (52 - L) in
  2 ^ 52 ≤ T < 2 ^ 53 ∧ T * 2 ^ L = Z.abs n * 2 ^ 52 ∧ L ≤ 1023.
Proof.
  intros Hn Hk Hcase L T. destruct (log2_bounds n Hn) as [[Hlo Hup] HL]. fold L in Hlo, Hup, HL.
  assert (L ≤ 1023) as HL'.
  { enough (Z.abs n < 2 ^ 1024) by (assert (L < 1024); [apply (Z.pow_lt_mono_r_iff 2); lia|lia]).
    destruct Hcase as [?|[_ (m & e & Hm & He & ->)]].
    - apply Z.lt_le_trans with (2 ^ 53); [done|]. apply Z.pow_le_mono_r; lia.
    - rewrite Z.abs_mul (Z.abs_eq (2 ^ e)); [|apply Z.pow_nonneg; lia].
      apply Z.lt_le_trans with (2 ^ 53 * 2 ^ e).
      + apply Z.mul_lt_mono_pos_r; [apply Z.pow_pos_nonneg; lia|done].
      + rewrite -Z.pow_add_r; [|lia|lia]. apply Z.pow_le_mono_r; lia. }
  assert (T * 2 ^ L = Z.abs n * 2 ^ 52) as HT.
  { destruct (Z.leb_spec L 52) as [HL52|HL52].
    - unfold T. rewrite Z.shiftl_mul_pow2; [|lia].
      rewrite -Z.mul_assoc -Z.pow_add_r; [|lia|lia]. do 2 f_equal. lia.
    - destruct Hcase as [Hsmall|[-> (m & e & Hm & He & Heq)]].
      { assert (2 ^ 53 ≤ 2 ^ L) by (apply Z.pow_le_mono_r; lia). lia. }
      assert (Z.abs n = Z.abs m * 2 ^ e) as Habs.
      { rewrite Heq Z.abs_mul (Z.abs_eq (2 ^ e)) //. apply Z.pow_nonneg; lia. }
      assert (L - 52 ≤ e) as HLe.
      { assert (2 ^ L < 2 ^ (53 + e)) as Hlt; [|apply Z.pow_lt_mono_r_iff in Hlt; lia].
        rewrite Z.pow_add_r; [|lia|lia]. apply Z.le_lt_trans with (Z.abs n); [done|].
        rewrite Habs. apply Z.mul_lt_mono_pos_r; [apply Z.pow_pos_nonneg; lia|done]. }
      assert (Z.abs n = Z.abs m * 2 ^ (e - (L - 52)) * 2 ^ (L - 52)) as Hsplit.
      { rewrite Habs -Z.mul_assoc -Z.pow_add_r; [|lia|lia]. do 2 f_equal. lia. }
      unfold T. replace (52 - L) with (- (L - 52)) by lia.
      rewrite Z.shiftl_opp_r Z.shiftr_div_pow2; [|lia].
      rewrite {1}Hsplit Z.div_mul; [|apply Z.pow_nonzero; lia].
      rewrite Hsplit -(Z.mul_assoc _ (2 ^ (L - 52))) -Z.pow_add_r; [|lia|lia].
      do 2 f_equal. lia. }
  split_and!; [| |done|done].
  - apply (Z.mul_le_mono_pos_r _ _ (2 ^ L)); [apply Z.pow_pos_nonneg; lia|]. rewrite HT.
    rewrite Z.mul_comm. apply Z.mul_le_mono_nonneg_r; [lia|done].
  - apply (Z.mul_lt_mono_pos_r (2 ^ L)); [apply Z.pow_pos_nonneg; lia|]. rewrite HT.
    replace (2 ^ 53 * 2 ^ L) with (2 ^ (L + 1) * 2 ^ 52); [apply Z.mul_lt_mono_pos_r; lia|].
    rewrite -!Z.pow_add_r; try lia. f_equal. lia.
Qed.

(** The bits of a double read back as the double. *)
Lemma float64_bits_spec q : double q →
  0 ≤ float64_bits q < 2 ^ 64 ∧ ieee 11 52 (float64_bits q) = NFin q.
Proof.
  intros (n & k & -> & Hred & Hk & Hn0 & Hcase)%double_shape. unfold float64_bits.
  rewrite Hred. cbn [Qnum Qden]. rewrite Z2Pos.id; [|apply Z.pow_pos_nonneg; lia].
  rewrite Z.log2_pow2; [|lia]. destruct (Z.eqb_spec (Z.abs n) 0) as [Hn|Hn].
  { assert (n = 0) as -> by lia. rewrite Hn0 //. }
  assert (n ≠ 0) as Hnz by lia. fold (sign_bit n).
  assert (∀ x f, 0 ≤ x < 2047 → 0 ≤ f < 2 ^ 52 → 
    Z.lor (Z.lor (Z.shiftl (sign_bit n) 63) (Z.shiftl x 52)) f = sign_bit n * 2 ^ 63 + (x * 2 ^ 52 + f)) as Hbits.
  { intros x f Hx Hf. rewrite -Z.lor_assoc (lor_shiftl x f 52) // lor_shiftl //. lia. }
  destruct (Z.ltb_spec (Z.log2 (Z.abs n) - k) (-1022)) as [HE|HE].
  - destruct (float64_subnormal n k Hnz Hk HE) as [Hf Hscale].
    rewrite (Z.shiftl_mul_pow2 (Z.abs n)); [|lia].
    pose proof (Hbits 0 (Z.abs n * 2 ^ (1074 - k)) ltac:(lia) Hf) as Hb.
    rewrite Z.shiftl_0_l Z.lor_0_r in Hb. rewrite Hb.
    pose proof (sign_bit_cases n). split; [lia|].
    rewrite (ieee_fields _ 0) //. by rewrite Hscale Hred.
  - destruct (significand n k Hnz ltac:(lia) Hcase) as (HT & HTL & HL).
    set (L := Z.log2 (Z.abs n)) in *. set (T := Z.shiftl (Z.abs n) (52 - L)) in *.
    assert (Z.land T (Z.ones 52) = T - 2 ^ 52) as ->.
    { rewrite Z.land_ones; [|lia]. symmetry. apply Z.mod_unique with 1; [left; lia|lia]. }
    rewrite Hbits; [|lia|lia]. pose proof (sign_bit_cases n). split; [lia|].
    rewrite ieee_fields //; [|lia|lia]. destruct (Z.eqb_spec (L - k + 1023) 0) as [?|_]; [lia|].
    f_equal. rewrite -Hred. replace (2 ^ 52 + (T - 2 ^ 52)) with T by lia.
    destruct (log2_bounds n Hnz) as [_ HL0]. fold L in HL0.
    apply (scale_eq (52 + 1074)); [lia|lia|lia|].
    replace (L - k + 1023 - 1075 + (52 + 1074)) with (L + (1074 - k)) by lia.
    replace (52 + 1074 - k) with (52 + (1074 - k)) by lia.
    rewrite (Z.pow_add_r 2 L) ?(Z.pow_add_r 2 52); try lia. rewrite -{2}(sign_abs n).
    transitivity ((1 - 2 * sign_bit n) * (T * 2 ^ L) * 2 ^ (1074 - k)); [ring|]. rewrite HTL. ring.
Qed.

Lemma getFloat64_setFloat64 q : double q → getFloat64 (setFloat64 q) = NFin q.
Proof.
  intros [Hrange Hget]%float64_bits_spec. unfold getFloat64, setFloat64. by rewrite of_big_endian_of.
Qed.

(** * The reader *)

Local Open Scope Z_scope.

(** ** Objects *)

Lemma string_le_total a b : string_le a b ∨ string_le b a.
Proof. apply String.leb_total. Qed.
Lemma string_le_antisym a b : string_le a b → string_le b a → a = b.
Proof. apply String.leb_antisym. Qed.
Lemma string_le_trans : Transitive string_le.
Proof.
  unfold string_le, String.leb. intros a. induction a as [|x a IH]; intros [|y b] [|z c]; try done.
  cbn [String.compare]. unfold Ascii.compare.
  destruct (N.compare_spec (N_of_ascii x) (N_of_ascii y)) as [Hxy|Hxy|Hxy];
    destruct (N.compare_spec (N_of_ascii y) (N_of_ascii z)) as [Hyz|Hyz|Hyz]; try done;
    destruct (N.compare_spec (N_of_ascii x) (N_of_ascii z)) as [Hxz|Hxz|Hxz];
    try done; try (rewrite -> ?Hxy, ?Hyz in *; lia). apply IH.
Qed.

(** Sorting does not look at the values: an order of the keys under which distinct
    keys are comparable one way only has one sorted list for each object. *)
Section Keys.
Context {A : Type}.
Implicit Types fs gs : list (string * A).

#[export] Instance key_le_total : Total (@key_le A).
Proof. intros a b. unfold key_le. apply string_le_total. Qed.
#[export] Instance key_le_trans : Transitive (@key_le A).
Proof. intros a b c. unfold key_le. apply string_le_trans. Qed.

Lemma sorted_keys_unique fs : ∀ gs,
  StronglySorted key_le fs → StronglySorted key_le gs → NoDup fs.*1 → fs ≡ₚ gs → fs = gs.
Proof.
  induction fs as [|x fs IH]; intros gs Hf Hg Hnd Hp; [by apply Permutation_nil_l in Hp as <-|].
  destruct gs as [|y gs]; [by apply Permutation_nil_r in Hp|].
  apply StronglySorted_inv in Hf as [Hf Hxf]. apply StronglySorted_inv in Hg as [Hg Hyg].
  rewrite fmap_cons in Hnd. apply NoDup_cons in Hnd as [Hx Hnd].
  assert (x = y) as <-.
  { assert (y ∈ x :: fs) as Hy by (rewrite Hp; apply list_elem_of_here).
    assert (x ∈ y :: gs) as Hx' by (rewrite -Hp; apply list_elem_of_here).
    apply elem_of_cons in Hy as [->|Hy]; [done|]. apply elem_of_cons in Hx' as [->|Hx']; [done|].
    rewrite Forall_forall in Hxf. rewrite Forall_forall in Hyg.
    pose proof (string_le_antisym _ _ (Hxf y Hy) (Hyg x Hx')) as Heq.
    destruct Hx. rewrite Heq. by apply list_elem_of_fmap_2. }
  f_equal. apply IH; [done..|]. by apply Permutation_cons_inv in Hp.
Qed.
End Keys.

Definition map_snd {A B} (f : A → B) (kv : string * A) : string * B := (kv.1, f kv.2).
Lemma keys_map_snd {A B} (f : A → B) fs : (map (map_snd f) fs).*1 = fs.*1.
Proof. induction fs; simpl; [done|]. by f_equal. Qed.
Lemma sort_map_snd {A B} (f : A → B) fs :
  NoDup fs.*1 → merge_sort key_le (map (map_snd f) fs) = map (map_snd f) (merge_sort key_le fs).
Proof.
  intros Hnd. apply sorted_keys_unique.
  - apply (StronglySorted_merge_sort _).
  - pose proof (StronglySorted_merge_sort key_le fs) as Hs.
    induction Hs as [|kv l Hs IH Hall]; constructor; [done|].
    apply Forall_map. eapply Forall_impl; [exact Hall|done].
  - rewrite (merge_sort_Permutation key_le (map (map_snd f) fs)). by rewrite keys_map_snd.
  - rewrite (merge_sort_Permutation key_le (map (map_snd f) fs)).
    apply Permutation_map. symmetry. apply merge_sort_Permutation.
Qed.

Lemma obj_insert_perm {A} (fs : list (string * A)) k v : obj_insert fs k v ≡ₚ (k, v) :: fs.
Proof.
  induction fs as [|kv fs IH]; simpl; [done|]. case_match; [done|]. rewrite IH. apply Permutation_swap.
Qed.
Lemma obj_define_fresh {A} (fs : list (string * A)) k v :
  k ∉ fs.*1 → obj_define fs k v ≡ₚ (k, v) :: fs.
Proof.
  intros Hk. unfold obj_define. destruct (jm_has fs k) eqn:Hh; [by apply jm_has_in in Hh|].
  apply obj_insert_perm.
Qed.
Lemma define_all_perm {A} (l : list (string * A)) : ∀ acc,
  NoDup (acc.*1 ++ l.*1) → foldl (λ o kv, obj_define o kv.1 kv.2) acc l ≡ₚ acc ++ l.
Proof.
  induction l as [|[k v] l IH]; intros acc Hnd; simpl; [by rewrite app_nil_r|].
  rewrite fmap_cons in Hnd. simpl in Hnd.
  assert (k ∉ acc.*1) as Hk.
  { apply NoDup_app in Hnd as (_ & Hd & _). intros Hin. apply (Hd k Hin), list_elem_of_here. }
  rewrite -(Permutation_middle acc.*1) in Hnd.
  rewrite IH; [|by rewrite (obj_define_fresh acc k v Hk)].
  rewrite (obj_define_fresh acc k v Hk). apply Permutation_middle.
Qed.
(** The object has the properties it was given. *)
Lemma sorted_object_perm {A} (fs : list (string * A)) : NoDup fs.*1 → sorted_object fs ≡ₚ fs.
Proof.
  intros Hnd. unfold sorted_object. rewrite (define_all_perm _ []) /=; [apply merge_sort_Permutation|].
  by rewrite (merge_sort_Permutation key_le fs).
Qed.

(** ** A cursor over the bytes *)

Section Cursor.
Context (bytes : list Z).

(** [l] lies at the offset [o]. *)
Definition lies (o : Z) (l : list Z) : Prop :=
  0 ≤ o ≤ Z.of_nat (length bytes) ∧ ∃ post, drop (Z.to_nat o) bytes = l ++ post.

Lemma lies_bound o l : lies o l → o + Z.of_nat (length l) ≤ Z.of_nat (length bytes).
Proof using Type.
  intros [Ho [post Hd]]. apply (f_equal length) in Hd. rewrite length_drop length_app in Hd. lia.
Qed.
Lemma lies_app o l1 l2 : lies o (l1 ++ l2) → lies o l1 ∧ lies (o + Z.of_nat (length l1)) l2.
Proof using Type.
  intros Hl. pose proof (lies_bound _ _ Hl) as Hb. destruct Hl as [Ho [post Hd]].
  rewrite length_app in Hb. rewrite -app_assoc in Hd.
  split; [by split; [|exists (l2 ++ post)]|]. split; [lia|]. exists post.
  rewrite Z2Nat.inj_add; [|lia|lia]. rewrite Nat2Z.id -drop_drop Hd. by rewrite drop_app_length.
Qed.
Lemma lies_take o l : lies o l → take (length l) (drop (Z.to_nat o) bytes) = l.
Proof using Type. intros [_ [post ->]]. apply take_app_length. Qed.

(** [m] consumes [l] where it lies and returns [a]. *)
Definition reads {A} (m : CR A) (l : list Z) (a : A) : Prop :=
  ∀ o, lies o l → m o = (Ok a, o + Z.of_nat (length l)).

Lemma reads_ret {A} (a : A) : reads (mret a) [] a.
Proof using Type. intros o _. unfold mret, ST_ret. do 2 f_equal. simpl. lia. Qed.
Lemma reads_bind {A B} (m : CR A) (f : A → CR B) l1 l2 a b :
  reads m l1 a → reads (f a) l2 b → reads (m ≫= f) (l1 ++ l2) b.
Proof using Type.
  intros Hm Hf o [H1 H2]%lies_app. rewrite (run_bind_Ok _ _ _ _ _ (Hm o H1)) (Hf _ H2).
  f_equal. rewrite length_app. lia.
Qed.
Lemma reads_bind_nil {A B} (m : CR A) (f : A → CR B) l a b :
  reads m l a → reads (f a) [] b → reads (m ≫= f) l b.
Proof using Type. intros Hm Hf. rewrite -(app_nil_r l). by eapply reads_bind. Qed.
Lemma reads_throw_if {A} c e (k : CR A) l a :
  c = false → reads k l a → reads (throw_if c e ;; k) l a.
Proof using Type. intros -> Hk o Ho. rewrite run_throw_if. by apply Hk. Qed.

Lemma reads_ensure {A} o l n (k : unit → CR A) :
  lies o l → n = Z.of_nat (length l) → (ensureAvailable bytes n ≫= k) o = k tt o.
Proof using Type.
  intros Hb%lies_bound ->. unfold ensureAvailable. rewrite run_assoc.
  unfold mbind at 1, ST_bind, get_state. rewrite run_throw_if.
  destruct (Z.ltb_spec (Z.of_nat (length l)) 0); [lia|]. simpl.
  destruct (Z.ltb_spec (Z.of_nat (length bytes)) (o + Z.of_nat (length l))); [lia|done].
Qed.
Lemma reads_byte b : reads (readByte bytes) [b] b.
Proof using Type.
  intros o Hl. unfold readByte. rewrite (reads_ensure o [b]) //.
  unfold mbind, ST_bind, get_state, modify, mret, ST_ret. do 2 f_equal.
  destruct Hl as [_ [post Hd]]. rewrite nth_lookup -(Nat.add_0_r (Z.to_nat o)) -lookup_drop Hd //.
Qed.
Lemma reads_block l : reads (readBytes bytes (Z.of_nat (length l))) l l.
Proof using Type.
  intros o Hl. unfold readBytes. rewrite (reads_ensure o l) //.
  unfold mbind, ST_bind, get_state, modify, mret, ST_ret. rewrite Nat2Z.id lies_take //.
Qed.

Lemma reads_big_endian l : ∀ acc,
  reads (read_big_endian bytes (length l) acc) l (foldl push_byte acc l).
Proof using Type.
  induction l as [|b l IH]; intros acc; [apply reads_ret|].
  cbn [read_big_endian length foldl]. apply (reads_bind _ _ [b]) with b; [apply reads_byte|apply IH].
Qed.

(** ** Heads *)

Lemma reads_additional_wide a w n :
  (a, w) ∈ [(24, 1%nat); (25, 2%nat); (26, 4%nat); (27, 8%nat)] →
  0 ≤ n < 2 ^ (8 * Z.of_nat w) → n ≤ MAX_SAFE_INTEGER →
  reads (readAdditional bytes a) (big_endian w n) n.
Proof using Type.
  intros Hin Hn Hsafe.
  assert (reads (value ← read_big_endian bytes w 0;
    throw_if (MAX_SAFE_INTEGER <? value)
      (Err "RangeError: CBOR integer exceeds JavaScript safe integer range") ;; mret value)
    (big_endian w n) n) as Hread.
  { apply reads_bind_nil with n.
    - pose proof (reads_big_endian (big_endian w n) 0) as Hr.
      rewrite big_endian_length push_bytes Z.mod_small // in Hr.
    - apply reads_throw_if; [apply Z.ltb_ge; lia|apply reads_ret]. }
  rewrite !elem_of_cons in Hin.
  destruct Hin as [[= -> ->]|[[= -> ->]|[[= -> ->]|[[= -> ->]|[]%not_elem_of_nil]]]]; exact Hread.
Qed.

Lemma writeHead_reads m n hd :
  writeHead m n = Ok hd →
  ∃ a tl, hd = Z.lor (Z.shiftl m 5) a :: tl ∧ 0 ≤ a < 32 ∧ 0 ≤ n ≤ MAX_SAFE_INTEGER ∧
    reads (readAdditional bytes a) tl n.
Proof using Type.
  unfold writeHead. destruct (Z.ltb_spec MAX_SAFE_INTEGER n); [done|].
  destruct (Z.ltb_spec n 0); [done|]. simpl.
  destruct (Z.ltb_spec n 24).
  { intros [= <-]. exists n, []. split_and!; try done; try lia.
    unfold readAdditional. destruct (Z.ltb_spec n 24); [apply reads_ret|lia]. }
  assert (∀ a w, 0 ≤ a < 32 → (a, w) ∈ [(24, 1%nat); (25, 2%nat); (26, 4%nat); (27, 8%nat)] →
    n < 2 ^ (8 * Z.of_nat w) → Ok (Z.lor (Z.shiftl m 5) a :: big_endian w n) = Ok (E:=error) hd →
    ∃ a tl, hd = Z.lor (Z.shiftl m 5) a :: tl ∧ 0 ≤ a < 32 ∧ 0 ≤ n ≤ MAX_SAFE_INTEGER ∧
      reads (readAdditional bytes a) tl n) as Hwide.
  { intros a w Ha Hin Hn [= <-]. exists a, (big_endian w n). split_and!; try done; try lia.
    eapply reads_additional_wide; [done|lia|lia]. }
  destruct (Z.leb_spec n 0xff); [apply (Hwide _ 1%nat); [lia|set_solver|lia]|].
  destruct (Z.leb_spec n 0xffff); [apply (Hwide _ 2%nat); [lia|set_solver|lia]|].
  destruct (Z.leb_spec n 0xffffffff); [apply (Hwide _ 4%nat); [lia|set_solver|lia]|].
  apply (Hwide _ 8%nat); [lia|set_solver|]. unfold MAX_SAFE_INTEGER in *. lia.
Qed.

Lemma initial_byte m a : 0 ≤ a < 32 →
  Z.shiftr (Z.lor (Z.shiftl m 5) a) 5 = m ∧ Z.land (Z.lor (Z.shiftl m 5) a) 0x1f = a.
Proof using Type.
  intros Ha. rewrite lor_shiftl; [|lia|lia]. change 0x1f with (Z.ones 5).
  rewrite Z.land_ones; [|lia]. rewrite Z.shiftr_div_pow2; [|lia].
  change (2 ^ 5) with 32. split.
  - rewrite Z.div_add_l; [|lia]. rewrite Z.div_small; lia.
  - rewrite Z.add_comm Z.mod_add; [|lia]. by apply Z.mod_small.
Qed.

(** What follows a head is read by the branch of its major type. *)
Lemma reads_headed room m n hd body v :
  writeHead m n = Ok hd → m ≠ 7 →
  reads (read_major bytes (readValue bytes room) m n) body v →
  reads (readValue bytes (S room)) (hd ++ body) v.
Proof using Type.
  intros (a & tl & -> & Ha & _ & Htl)%writeHead_reads Hm Hbody. cbn [readValue app].
  eapply (reads_bind _ _ [_]); [apply reads_byte|]. cbv beta zeta.
  destruct (initial_byte m a Ha) as [-> ->]. destruct (Z.eqb_spec m 7); [done|].
  by eapply reads_bind.
Qed.

(** ** Texts and numbers *)

(** A text the decoder of texts gives back: well-formed, and without the byte order
    mark it takes off. *)
Definition plain_text (s : string) : Prop :=
  utf8_valid (utf8_bytes s) = true ∧ strip_bom (utf8_bytes s) = utf8_bytes s.

Lemma text_of_utf8_bytes s : text_of_bytes (utf8_bytes s) = s.
Proof using Type.
  unfold text_of_bytes, utf8_bytes. rewrite map_map.
  rewrite -{2}(String.string_of_list_ascii_of_string s). f_equal.
  rewrite -{2}(map_id (String.list_ascii_of_string s)). apply map_ext. intros a.
  unfold ascii_of, byte_of. rewrite Nat2Z.id. apply ascii_nat_embedding.
Qed.

Lemma write_text_reads_stripped mx s bs room :
  utf8_valid (strip_bom (utf8_bytes s)) = true → write_text mx s = Ok bs →
  reads (readValue bytes (S room)) bs (VStr (text_of_bytes (strip_bom (utf8_bytes s)))).
Proof using Type.
  intros Hvalid (hd & Hhd & (body & Hbody & [= <-])%bind_Ok)%bind_Ok.
  unfold push_spread in Hbody. case_match; [|done]. injection Hbody as <-.
  eapply reads_headed; [exact Hhd|done|]. cbn [read_major Z.eqb Pos.eqb].
  eapply reads_bind_nil; [|apply reads_ret]. intros o Hl. unfold readText.
  rewrite (reads_ensure o (utf8_bytes s)) //. unfold mbind at 1, ST_bind at 1, get_state.
  rewrite Nat2Z.id lies_take // run_lift. unfold TextDecoder_decode. by rewrite Hvalid.
Qed.
Lemma write_text_reads mx s bs room :
  plain_text s → write_text mx s = Ok bs → reads (readValue bytes (S room)) bs (VStr s).
Proof using Type.
  intros [Hvalid Hbom] Hw. pose proof (write_text_reads_stripped mx s bs room) as Hr.
  rewrite Hbom text_of_utf8_bytes in Hr. by apply Hr.
Qed.

Lemma safe_integer_value q z : Qred q = q → safe_integer (VNum (NFin q)) = Some z → q = inject_Z z.
Proof using Type.
  simpl. intros Hred Hz. apply bind_Some in Hz as (z' & Hint & Hz). case_decide; [|done].
  injection Hz as ->. unfold integer_of in Hint. case_decide as Hmod; [|done]. injection Hint as <-.
  rewrite -{1}Hred. transitivity (Qred (inject_Z (Qnum q `div` Z.pos (Qden q)))).
  - apply Qred_complete. unfold Qeq. cbn [Qnum Qden inject_Z].
    pose proof (Z.div_exact (Qnum q) (Z.pos (Qden q)) ltac:(lia)) as [_ Hd]. specialize (Hd Hmod).
    rewrite Z.mul_1_r {1}Hd. ring.
  - apply Qred_int.
Qed.
Lemma write_number_reads q bs room :
  double q → write_number (NFin q) = Ok bs → reads (readValue bytes (S room)) bs (VNum (NFin q)).
Proof using Type.
  intros Hq. unfold write_number. destruct (safe_integer (VNum (NFin q))) as [z|] eqn:Hz.
  - rewrite (safe_integer_value q z) //.
    2:{ by destruct (double_shape q Hq) as (n & k & -> & Hred & _). }
    destruct (Z.leb_spec 0 z) as [Hpos|Hneg]; intros Hhd; rewrite -(app_nil_r bs);
      (eapply reads_headed; [exact Hhd|done|]); cbn [read_major Z.eqb Pos.eqb];
      [apply reads_ret|]. replace (-1 - (-1 - z)) with z by lia. apply reads_ret.
  - intros [= <-]. cbn [readValue].
    eapply (reads_bind _ _ [_]); [apply reads_byte|]. cbv beta zeta.
    change (readSimple bytes 27) with (readFloat64 bytes). unfold readFloat64.
    apply reads_bind_nil with (setFloat64 q).
    + pose proof (reads_block (setFloat64 q)) as Hb.
      assert (length (setFloat64 q) = 8%nat) as Hlen by apply big_endian_length. by rewrite Hlen in Hb.
    + rewrite getFloat64_setFloat64 //. apply reads_ret.
Qed.

(** ** Collections *)

Lemma reads_items (read : CR value) items vs : ∀ acc,
  Forall2 (reads read) items vs →
  reads (read_items read (length vs) acc) (concat items) (acc ++ vs).
Proof using Type.
  intros acc Hall. revert acc. induction Hall as [|bs v items vs Hv Hall IH]; intros acc.
  - rewrite app_nil_r. apply reads_ret.
  - cbn [read_items length concat]. eapply reads_bind; [exact Hv|].
    rewrite (cons_middle v acc vs) app_assoc. apply IH.
Qed.

Definition reads_entry (read : CR value) (bs : list Z) (kv : string * value) : Prop :=
  ∃ kb vb, bs = kb ++ vb ∧ reads read kb (VStr kv.1) ∧ reads read vb kv.2.
Lemma reads_entries (read : CR value) items kvs : ∀ acc,
  Forall2 (reads_entry read) items kvs → NoDup (acc.*1 ++ kvs.*1) →
  reads (read_entries read (length kvs) acc) (concat items)
    (foldl (λ o kv, obj_define o kv.1 kv.2) acc kvs).
Proof using Type.
  intros acc Hall. revert acc. induction Hall as [|bs [k v] items kvs Hv Hall IH]; intros acc Hnd.
  - apply reads_ret.
  - destruct Hv as (kb & vb & -> & Hk & Hv). cbn [read_entries length concat foldl fst snd].
    rewrite fmap_cons in Hnd. simpl in Hnd.
    assert (k ∉ acc.*1) as Hfresh.
    { apply NoDup_app in Hnd as (_ & Hd & _). intros Hin. apply (Hd k Hin), list_elem_of_here. }
    rewrite -app_assoc. eapply reads_bind; [exact Hk|]. cbv beta iota.
    eapply (reads_bind _ _ []); [apply reads_ret|]. apply reads_throw_if.
    { destruct (has_own acc k) eqn:Hh; [by apply jm_has_in in Hh|done]. }
    eapply reads_bind; [exact Hv|]. apply IH.
    rewrite -(Permutation_middle acc.*1) in Hnd. by rewrite (obj_define_fresh acc k v Hfresh).
Qed.
End Cursor.

(** ** Values *)

(** A value a document can hold: finite doubles, plain texts, objects whose keys
    are distinct, collections within the limit of the reader. *)
Inductive portable : value → Prop :=
| portable_null : portable VNull
| portable_bool b : portable (VBool b)
| portable_num q : double q → portable (VNum (NFin q))
| portable_str s : plain_text s → portable (VStr s)
| portable_arr l :
    Z.of_nat (length l) ≤ MAX_CBOR_COLLECTION_LENGTH → Forall portable l → portable (VArr l)
| portable_obj fs :
    Z.of_nat (length fs) ≤ MAX_CBOR_COLLECTION_LENGTH → NoDup fs.*1 →
    Forall (λ kv, plain_text kv.1 ∧ portable kv.2) fs → portable (VObj fs).

Fixpoint depth (v : value) : nat :=
  match v with
  | VArr l => foldr (λ x m, Nat.max (S (depth x)) m) O l
  | VObj fs => foldr (λ kv m, Nat.max (S (depth kv.2)) m) O fs
  | _ => O
  end.
(** The value with the properties of its objects in the order the reader defines
    them: the same properties. *)
Fixpoint key_sorted (v : value) : value :=
  match v with
  | VArr l => VArr (map key_sorted l)
  | VObj fs => VObj (sorted_object (map (λ kv, (kv.1, key_sorted kv.2)) fs))
  | _ => v
  end.

Lemma map_outcome_Forall2 {A B} (f : A → outcome error B) l : ∀ ys,
  map_outcome f l = Ok ys → Forall2 (λ x y, f x = Ok y) l ys.
Proof.
  induction l as [|x l IH]; intros ys Hys; [injection Hys as <-; constructor|].
  apply bind_Ok in Hys as (y & Hy & (ys' & Hys' & [= <-])%bind_Ok). constructor; auto.
Qed.
Lemma depth_item l v n : (depth (VArr l) < S n)%nat → v ∈ l → (depth v < n)%nat.
Proof.
  simpl. induction l as [|x l IH]; intros Hd Hv; [by apply not_elem_of_nil in Hv|].
  cbn [foldr] in Hd. apply elem_of_cons in Hv as [->|Hv]; [lia|]. apply IH; [lia|done].
Qed.
Lemma depth_entry fs kv n : (depth (VObj fs) < S n)%nat → kv ∈ fs → (depth kv.2 < n)%nat.
Proof.
  simpl. induction fs as [|x fs IH]; intros Hd Hv; [by apply not_elem_of_nil in Hv|].
  cbn [foldr] in Hd. apply elem_of_cons in Hv as [->|Hv]; [lia|]. apply IH; [lia|done].
Qed.

Section Values.
Context (max_arguments : Z) (bytes : list Z).

Definition value_reads (v : value) : Prop := ∀ room bs,
  (depth v < room)%nat → write max_arguments v = Ok bs →
  reads bytes (readValue bytes room) bs (key_sorted v).

Lemma array_reads l :
  Z.of_nat (length l) ≤ MAX_CBOR_COLLECTION_LENGTH → (∀ v, v ∈ l → value_reads v) →
  value_reads (VArr l).
Proof using Type.
  intros Hlen Hall [|room] bs Hdepth; [lia|]. cbn [write].
  intros (hd & Hhd & (items & Hitems & [= <-])%bind_Ok)%bind_Ok.
  eapply reads_headed; [exact Hhd|done|]. cbn [read_major Z.eqb Pos.eqb key_sorted].
  unfold readArray, checkCollectionLength. apply reads_throw_if; [by apply Z.ltb_ge|].
  apply reads_bind_nil with (map key_sorted l); [|apply reads_ret].
  rewrite Nat2Z.id -(length_map key_sorted l). apply (reads_items _ _ _ _ []).
  apply map_outcome_Forall2 in Hitems.
  assert (∀ v, v ∈ l → (depth v < room)%nat) as Hd by eauto using depth_item.
  clear Hlen Hdepth Hhd. induction Hitems as [|v b l items Hv Hitems IH]; constructor.
  - apply Hall; [apply list_elem_of_here|apply Hd, list_elem_of_here|done].
  - apply IH; intros; [apply Hall|apply Hd]; by apply list_elem_of_further.
Qed.

Lemma entry_reads room kv b :
  plain_text kv.1 → value_reads kv.2 → (depth kv.2 < room)%nat →
  (k ← write_text max_arguments kv.1; x ← write max_arguments kv.2; Ok (k ++ x)) = Ok b →
  reads_entry bytes (readValue bytes room) b (map_snd key_sorted kv).
Proof using Type.
  intros Htext Hv Hd (kb & Hkb & (vb & Hvb & [= <-])%bind_Ok)%bind_Ok.
  exists kb, vb. split; [done|]. split; [|by apply Hv].
  destruct room; [lia|]. by eapply write_text_reads.
Qed.

Lemma object_reads fs :
  Z.of_nat (length fs) ≤ MAX_CBOR_COLLECTION_LENGTH → NoDup fs.*1 →
  (∀ kv, kv ∈ fs → plain_text kv.1 ∧ value_reads kv.2) → value_reads (VObj fs).
Proof using Type.
  intros Hlen Hnd Hall [|room] bs Hdepth; [lia|]. cbn [write].
  intros (hd & Hhd & (items & Hitems & [= <-])%bind_Ok)%bind_Ok.
  eapply reads_headed; [exact Hhd|done|]. cbn [read_major Z.eqb Pos.eqb key_sorted].
  unfold readMap, checkCollectionLength. apply reads_throw_if; [by apply Z.ltb_ge|].
  change (map (λ kv, (kv.1, write max_arguments kv.2)) fs) with
    (map (map_snd (write max_arguments)) fs) in Hitems.
  change (map (λ kv, (kv.1, key_sorted kv.2)) fs) with (map (map_snd key_sorted) fs).
  unfold sorted_object. rewrite sort_map_snd // in Hitems. rewrite sort_map_snd //.
  set (gs := merge_sort key_le fs) in *.
  assert (gs ≡ₚ fs) as Hperm by apply merge_sort_Permutation.
  eapply reads_bind_nil; [|apply reads_ret].
  rewrite Nat2Z.id -Hperm -(length_map (map_snd key_sorted) gs).
  apply (reads_entries _ _ _ _ []); [|simpl; by rewrite keys_map_snd Hperm].
  apply map_outcome_Forall2 in Hitems.
  assert (∀ kv, kv ∈ gs → plain_text kv.1 ∧ value_reads kv.2 ∧ (depth kv.2 < room)%nat) as Hgs.
  { intros kv Hkv. rewrite Hperm in Hkv. destruct (Hall kv Hkv) as [? ?].
    split_and!; [done|done|by eapply depth_entry]. }
  clearbody gs. clear - Hitems Hgs. apply Forall2_fmap_l in Hitems.
  apply Forall2_fmap_r. induction Hitems as [|kv b gs items Hkv Hitems IH]; constructor.
  - destruct (Hgs kv (list_elem_of_here _ _)) as (? & ? & ?). by apply entry_reads.
  - apply IH. intros kv' Hin. by apply Hgs, list_elem_of_further.
Qed.

Lemma literal_reads room b v :
  (v = VNull ∧ b = 0xf6) ∨ (v = VBool true ∧ b = 0xf5) ∨ (v = VBool false ∧ b = 0xf4) →
  reads bytes (readValue bytes (S room)) [b] v.
Proof using Type.
  intros Hcases. apply (reads_bind _ _ _ [b] [] b); [apply reads_byte|].
  destruct Hcases as [[-> ->]|[[-> ->]|[-> ->]]]; apply reads_ret.
Qed.

Lemma portable_reads v : portable v → value_reads v.
Proof using Type.
  induction v as [| |b|n|s|l IH|fs IH] using value_nested_ind; inversion 1 as [| |q Hq|s' Hs|l' Hlen Hl|fs' Hlen Hnd Hfs]; subst.
  - intros [|room] bs Hd; [lia|]. intros [= <-]. apply literal_reads; auto.
  - intros [|room] bs Hd; [lia|]. intros [= <-]. apply literal_reads. destruct b; auto.
  - intros [|room] bs Hd Hw; [lia|]. by apply write_number_reads.
  - intros [|room] bs Hd Hw; [lia|]. by eapply write_text_reads.
  - apply array_reads; [done|]. rewrite Forall_forall in IH. rewrite Forall_forall in Hl. auto.
  - apply object_reads; [done|done|]. rewrite Forall_forall in IH. rewrite Forall_forall in Hfs.
    intros kv Hkv. destruct (Hfs kv Hkv). auto.
Qed.
End Values.

(** Writing again: the order of the properties does not matter to the writer. *)
Lemma map_outcome_map {A B C} (f : B → outcome error C) (g : A → B) l :
  map_outcome f (map g l) = map_outcome (λ x, f (g x)) l.
Proof. induction l as [|x l IH]; simpl; [done|]. by rewrite IH. Qed.
Lemma map_outcome_ext {A B} (f g : A → outcome error B) l :
  (∀ x, x ∈ l → f x = g x) → map_outcome f l = map_outcome g l.
Proof.
  induction l as [|x l IH]; intros Hfg; [done|]. simpl. rewrite Hfg; [|apply list_elem_of_here].
  destruct (g x); [|done]. rewrite IH; [done|]. intros y Hy. by apply Hfg, list_elem_of_further.
Qed.
Lemma write_key_sorted mx v : portable v → write mx (key_sorted v) = write mx v.
Proof.
  induction v as [| |b|n|s|l IH|fs IH] using value_nested_ind; try done; intros Hp.
  - inversion Hp as [| | | |l' _ Hl|]; subst. cbn [key_sorted write]. rewrite length_map.
    rewrite map_outcome_map (map_outcome_ext _ (write mx)) //. intros v Hv.
    rewrite Forall_forall in IH. rewrite Forall_forall in Hl. auto.
  - inversion Hp as [| | | | |fs' _ Hnd Hfs]; subst. cbn [key_sorted write].
    change (map (λ kv, (kv.1, key_sorted kv.2)) fs) with (map (map_snd key_sorted) fs).
    pose proof (sorted_object_perm (map (map_snd key_sorted) fs)) as Hperm.
    rewrite keys_map_snd in Hperm. specialize (Hperm Hnd).
    rewrite (Permutation_length Hperm) length_map.
    assert (merge_sort key_le
        (map (λ kv, (kv.1, write mx kv.2)) (sorted_object (map (map_snd key_sorted) fs))) =
      merge_sort key_le (map (λ kv, (kv.1, write mx kv.2)) fs)) as ->; [|done].
    apply sorted_keys_unique; [apply (StronglySorted_merge_sort _)..| |].
    + rewrite (merge_sort_Permutation key_le (map _ (sorted_object _))).
      change (NoDup (map (map_snd (write mx)) (sorted_object (map (map_snd key_sorted) fs))).*1).
      by rewrite keys_map_snd Hperm keys_map_snd.
    + rewrite !merge_sort_Permutation Hperm map_map. rewrite (map_ext_in _ (λ kv, (kv.1, write mx kv.2))) //.
      intros kv Hkv%list_elem_of_In. simpl. f_equal.
      rewrite Forall_forall in IH. rewrite Forall_forall in Hfs. destruct (Hfs kv Hkv). auto.
Qed.
Lemma is_json_portable v : portable v → is_json v = true.
Proof.
  induction v as [| |b|n|s|l IH|fs IH] using value_nested_ind;
    inversion 1 as [| |q Hq|s' Hs|l' Hlen Hl|fs' Hlen Hnd Hfs]; subst; try done; cbn [is_json];
    apply forallb_forall; intros x Hx%list_elem_of_In; rewrite Forall_forall in IH.
  - rewrite Forall_forall in Hl. auto.
  - rewrite Forall_forall in Hfs. destruct (Hfs x Hx). auto.
Qed.
Lemma is_json_key_sorted v : portable v → is_json (key_sorted v) = true.
Proof.
  induction v as [| |b|n|s|l IH|fs IH] using value_nested_ind;
    inversion 1 as [| |q Hq|s' Hs|l' Hlen Hl|fs' Hlen Hnd Hfs]; subst; try done; cbn [key_sorted is_json];
    apply forallb_forall; intros x Hx%list_elem_of_In; rewrite Forall_forall in IH.
  - rewrite Forall_forall in Hl. apply list_elem_of_fmap in Hx as (y & -> & Hy). auto.
  - rewrite Forall_forall in Hfs. rewrite sorted_object_perm in Hx.
    + apply list_elem_of_fmap in Hx as (kv & -> & Hkv). destruct (Hfs kv Hkv). simpl. auto.
    + change (NoDup (map (map_snd key_sorted) fs).*1). by rewrite keys_map_snd.
Qed.

(** A document is its one value. *)
Lemma document_reads bs v : reads bs (readValue bs document_room) bs v → decodeCbor bs = Ok v.
Proof.
  intros Hr. unfold decodeCbor, readDocument. specialize (Hr 0).
  assert (lies bs 0 bs) as Hlies by (split; [lia|exists []; by rewrite app_nil_r]).
  rewrite (run_bind_Ok _ _ _ _ _ (Hr Hlies)). unfold mbind, ST_bind, get_state.
  by rewrite Z.add_0_l Z.eqb_refl.
Qed.

(** *** Writing succeeds *)

Section Writes.
Context (max_arguments : Z).
(** A text whose bytes fit in the arguments of one call. *)
Definition text_fits (s : string) : bool :=
  Z.of_nat (length (utf8_bytes s)) <=? Z.min max_arguments MAX_SAFE_INTEGER.
Fixpoint texts_fit (v : value) : bool :=
  match v with
  | VStr s => text_fits s
  | VArr l => forallb texts_fit l
  | VObj fs => forallb (λ kv, text_fits kv.1 && texts_fit kv.2) fs
  | _ => true
  end.
Lemma writeHead_ok m n : 0 ≤ n ≤ MAX_SAFE_INTEGER → is_ok (writeHead m n) = true.
Proof using Type.
  intros [H0 H1]. unfold writeHead. rewrite (proj2 (Z.ltb_ge _ _) H1) (proj2 (Z.ltb_ge _ _) H0) /=.
  by repeat case_match.
Qed.
Lemma write_text_ok s : text_fits s = true → is_ok (write_text max_arguments s) = true.
Proof using Type.
  unfold text_fits. intros Hf%Z.leb_le. unfold write_text, push_spread. rewrite (proj2 (Z.leb_le _ max_arguments)); [|lia].
  pose proof (writeHead_ok 3 (Z.of_nat (length (utf8_bytes s))) ltac:(lia)). by destruct (writeHead _ _).
Qed.
Lemma write_number_ok q : is_ok (write_number (NFin q)) = true.
Proof using Type.
  unfold write_number. destruct (safe_integer (VNum (NFin q))) as [z|] eqn:Hz; [|done].
  assert (Z.abs z ≤ MAX_SAFE_INTEGER) as Hb.
  { unfold safe_integer in Hz. apply bind_Some in Hz as (z' & _ & Hz). case_bool_decide; [|done]. by injection Hz as <-. }
  destruct (Z.leb_spec 0 z); apply writeHead_ok; lia.
Qed.
Lemma collection_ok n : Z.of_nat n ≤ MAX_CBOR_COLLECTION_LENGTH → 0 ≤ Z.of_nat n ≤ MAX_SAFE_INTEGER.
Proof using Type. unfold MAX_CBOR_COLLECTION_LENGTH, MAX_SAFE_INTEGER. lia. Qed.
Lemma write_ok v : portable v → texts_fit v = true → is_ok (write max_arguments v) = true.
Proof using Type.
  induction v as [| |b|n|s|l IH|fs IH] using value_nested_ind;
    inversion 1 as [| |q Hq|s' Hs|l' Hlen Hl|fs' Hlen Hnd Hfs]; subst; try done; cbn [write texts_fit].
  - intros _. apply write_number_ok.
  - apply write_text_ok.
  - rewrite forallb_forall. intros Hfit. pose proof (writeHead_ok 4 _ (collection_ok _ Hlen)) as Hh.
    destruct (writeHead _ _); [|done]. simpl.
    assert (is_ok (map_outcome (write max_arguments) l) = true) as Hm; [|by destruct (map_outcome _ l)].
    apply map_outcome_ok. intros x Hx. rewrite Forall_forall in IH. rewrite Forall_forall in Hl.
    apply IH; [done|by apply Hl|by apply Hfit, list_elem_of_In].
  - rewrite forallb_forall. intros Hfit. pose proof (writeHead_ok 5 _ (collection_ok _ Hlen)) as Hh.
    destruct (writeHead _ _); [|done]. simpl.
    match goal with |- is_ok (map_outcome ?f ?l ≫= _) = true => assert (is_ok (map_outcome f l) = true) as Hm;
      [|by destruct (map_outcome f l)] end.
    apply map_outcome_ok. intros [k x] Hx. rewrite merge_sort_Permutation in Hx.
    apply list_elem_of_In, in_map_iff in Hx as (kv & [= <- <-] & Hkv). specialize (Hfit kv Hkv).
    apply list_elem_of_In in Hkv. apply andb_true_iff in Hfit as [Hk Hv]. cbn [fst snd].
    rewrite Forall_forall in IH. rewrite Forall_forall in Hfs.
    pose proof (write_text_ok _ Hk). pose proof (IH kv Hkv (proj2 (Hfs kv Hkv)) Hv).
    destruct (write_text _ _); [|done]. simpl. by destruct (write _ _).
Qed.
End Writes.

(** C36. A document makes the round trip: a value of finite doubles, valid texts that do
    not start with a byte order mark, collections within the reader's limit and objects
    without duplicate keys, nested at most as deep as the reader allows and with texts
    whose bytes the engine can pass in one call, is encoded; decoding the bytes gives
    the value back with the properties of its objects in the order of their sorted
    keys, and encoding what was decoded gives the same bytes. *)
Theorem cbor_reads_back max_arguments v
    (Hportable : portable v) (Hdepth : Z.of_nat (depth v) ≤ MAX_CBOR_DEPTH)
    (Hfit : texts_fit max_arguments v = true) :
  ∃ bs, encodeCbor max_arguments v = Ok bs ∧
    decodeCbor bs = Ok (key_sorted v) ∧ encodeCbor max_arguments (key_sorted v) = Ok bs.
Proof.
  pose proof (write_ok max_arguments v Hportable Hfit) as Hok.
  destruct (write max_arguments v) as [bs|e] eqn:Hencoded; [|done]. exists bs.
  unfold encodeCbor in *. rewrite is_json_portable //.
  rewrite is_json_key_sorted // write_key_sorted //. split; [done|]. split; [|done].
  unfold MAX_CBOR_DEPTH in Hdepth.
  assert (depth v < document_room)%nat as Hroom.
  { unfold document_room, MAX_CBOR_DEPTH. lia. }
  by apply document_reads, (portable_reads max_arguments bs v).
Qed.

Definition sample_document : value :=
  VObj [("text", VStr "abc"); ("integer", VZ (-12)); ("decimal", VNum (NFin (5 # 4)));
        ("values", VArr [VBool true; VNull; VZ 70000; VZ 5000000000]); ("10", VZ 3); ("9", VZ 4)].

Lemma portable_int z : Z.abs z < 2 ^ 53 → portable (VZ z).
Proof.
  intros Hz. constructor. exists z, 0. split; [done|]. split; [lia|].
  unfold scale. simpl Z.leb. by rewrite Z.pow_0_r Z.mul_1_r Qred_int.
Qed.
Lemma portable_sample : portable sample_document.
Proof.
  assert (portable (VNum (NFin (5 # 4)))) as Hdec.
  { constructor. exists 5, (-2). split_and!; [lia|lia|lia|by vm_compute]. }
  apply portable_obj; [by vm_compute|by apply (bool_decide_unpack _); vm_compute|].
  repeat (apply Forall_cons; split; [split; [by vm_compute|]|]); [..|apply Forall_nil_2];
    simpl; try (by apply portable_int); try done; [by constructor; vm_compute|].
  constructor; [by vm_compute|].
  repeat (apply Forall_cons; split); [constructor|constructor|by apply portable_int..|by apply Forall_nil_2].
Qed.
Lemma cbor_reads_back_witness :
  ∃ bs, encodeCbor 65536 sample_document = Ok bs ∧ decodeCbor bs = Ok (key_sorted sample_document) ∧
    encodeCbor 65536 (key_sorted sample_document) = Ok bs.
Proof.
  apply (cbor_reads_back 65536 sample_document); [apply portable_sample|vm_compute; done|vm_compute; reflexivity].
Defined.

(** ** Where the reader does not invert the writer *)

(** A text that starts with a byte order mark loses it. *)
Theorem byte_order_mark_is_lost max_arguments s bs
    (Hbom : take 3 (utf8_bytes s) = [0xef; 0xbb; 0xbf]) (Hvalid : utf8_valid (utf8_bytes s) = true)
    (Hencoded : encodeCbor max_arguments (VStr s) = Ok bs) :
  ∃ s', decodeCbor bs = Ok (VStr s') ∧ s' ≠ s.
Proof.
  destruct (utf8_bytes s) as [|b1 [|b2 [|b3 rest]]] eqn:Hs; try done. injection Hbom as -> -> ->.
  assert (strip_bom (utf8_bytes s) = rest) as Hstrip by (by rewrite Hs).
  exists (text_of_bytes rest). split.
  - apply document_reads. rewrite -Hstrip.
    apply (write_text_reads_stripped bs max_arguments s bs 128); [|done].
    rewrite Hstrip. exact Hvalid.
  - intros Heq. apply (f_equal String.length) in Heq. revert Heq.
    assert (String.length s = length (utf8_bytes s)) as ->.
    { unfold utf8_bytes. rewrite length_map. clear. induction s; simpl; auto. }
    assert (∀ l, String.length (String.string_of_list_ascii l) = length l) as Hl.
    { clear. induction l; simpl; auto. }
    rewrite Hs. unfold text_of_bytes. rewrite Hl length_map. simpl length.
    lia.
Qed.

(** The writer nests deeper than the reader follows. *)
Theorem deep_value_is_unreadable :
  ∃ v bs, is_json v = true ∧ encodeCbor 0 v = Ok bs ∧
    decodeCbor bs = Throw (Err "RangeError: CBOR nesting depth exceeds the codec limit").
Proof.
  exists (Nat.iter 129 (λ v, VArr [v]) VNull). eexists.
  split; [by vm_compute|]. split; [vm_compute; reflexivity|]. by vm_compute.
Qed.

(** ** What the reader returns *)

(** JSON whose objects have distinct keys. *)
Inductive keyed : value → Prop :=
| keyed_null : keyed VNull
| keyed_bool b : keyed (VBool b)
| keyed_num q : keyed (VNum (NFin q))
| keyed_str s : keyed (VStr s)
| keyed_arr l : Forall keyed l → keyed (VArr l)
| keyed_obj fs : NoDup fs.*1 → Forall (λ kv, keyed kv.2) fs → keyed (VObj fs).

Section Returned.
Context (bytes : list Z).

(** What [m] returns, when it returns, satisfies [P]. *)
Definition returns {A} (m : CR A) (P : A → Prop) : Prop := ∀ o a o', m o = (Ok a, o') → P a.
Lemma gives_ret {A} (a : A) (P : A → Prop) : P a → returns (mret a) P.
Proof using Type. by intros HP o a' o' [= <- _]. Qed.
Lemma returns_throw {A} e (P : A → Prop) : returns (throw e) P.
Proof using Type. by intros o a o' [=]. Qed.
Lemma gives_bind {A B} (m : CR A) (f : A → CR B) (Q : A → Prop) (P : B → Prop) :
  returns m Q → (∀ a, Q a → returns (f a) P) → returns (m ≫= f) P.
Proof using Type. intros Hm Hf o b o' (a & o1 & Ha & Hb)%bind_Ok_inv. eapply Hf; [by eapply Hm|done]. Qed.
Lemma returns_any {A} (m : CR A) : returns m (λ _, True).
Proof using Type. done. Qed.
Lemma returns_after {A B} (m : CR A) (f : A → CR B) (P : B → Prop) :
  (∀ a, returns (f a) P) → returns (m ≫= f) P.
Proof using Type. intros Hf. apply (gives_bind _ _ (λ _, True)); [done|auto]. Qed.

Definition shallow (n : nat) (v : value) : Prop := keyed v ∧ (depth v < n)%nat.

Lemma returns_items read n k : ∀ acc,
  returns read (shallow n) → Forall (shallow n) acc → returns (read_items read k acc) (Forall (shallow n)).
Proof using Type.
  induction k as [|k IH]; intros acc Hr Hacc; [by apply gives_ret|].
  apply (gives_bind _ _ (shallow n)); [done|]. intros v Hv. apply IH; [done|].
  apply Forall_app_2; [done|by constructor].
Qed.
Lemma returns_entries read n k : ∀ acc,
  returns read (shallow n) → NoDup acc.*1 ∧ Forall (λ kv, shallow n kv.2) acc →
  returns (read_entries read k acc) (λ fs, NoDup fs.*1 ∧ Forall (λ kv, shallow n kv.2) fs).
Proof using Type.
  induction k as [|k IH]; intros acc Hr [Hnd Hacc]; [by apply gives_ret|].
  cbn [read_entries]. apply returns_after. intros key. apply returns_after. intros key'.
  unfold throw_if. destruct (has_own acc key') eqn:Hown; [by intros ?|].
  apply returns_after. intros _. apply (gives_bind _ _ (shallow n)); [done|]. intros v Hv.
  assert (key' ∉ acc.*1) as Hfresh.
  { intros Hin%jm_has_in. unfold has_own in Hown. congruence. }
  apply IH; [done|]. rewrite (obj_define_fresh acc key' v Hfresh).
  split; [by apply NoDup_cons|by constructor].
Qed.

Lemma depth_arr_lt l n : Forall (shallow n) l → (depth (VArr l) < S n)%nat.
Proof using Type. induction 1 as [|v l [_ Hv] Hl IH]; simpl in *; lia. Qed.
Lemma depth_obj_lt fs n : Forall (λ kv, shallow n kv.2) fs → (depth (VObj fs) < S n)%nat.
Proof using Type. induction 1 as [|kv fs [_ Hv] Hl IH]; simpl in *; lia. Qed.
Lemma returns_finite n k : returns (finite k) (shallow (S n)).
Proof using Type.
  destruct k; [|apply returns_throw..]. apply gives_ret. split; [constructor|simpl; lia].
Qed.
Lemma returns_simple a n : returns (readSimple bytes a) (shallow (S n)).
Proof using Type.
  unfold readSimple, readFloat16, readFloat32, readFloat64.
  repeat (case_match; [first [by apply gives_ret; split; [constructor|simpl; lia]
    | apply returns_after; intros; apply returns_finite | idtac]|]); [|apply returns_throw].
  repeat (apply returns_after; intros). case_match; [by apply gives_ret; split; [constructor|simpl; lia]|].
  apply returns_after; intros. by apply gives_ret; split; [constructor|simpl; lia].
Qed.
Lemma returns_value room : returns (readValue bytes room) (shallow room).
Proof using Type.
  induction room as [|room IH]; [apply returns_throw|]. cbn [readValue].
  apply returns_after. intros initial. case_match; [apply returns_simple|].
  apply returns_after. intros len. unfold read_major.
  case_match; [apply gives_ret; split; [constructor|simpl; lia]|].
  case_match; [apply gives_ret; split; [constructor|simpl; lia]|].
  case_match; [apply returns_throw|].
  case_match; [apply returns_after; intros s; apply gives_ret; split; [constructor|simpl; lia]|].
  case_match.
  { apply returns_after. intros _. eapply gives_bind; [by apply returns_items|].
    intros l Hl. apply gives_ret. split; [|by apply depth_arr_lt].
    constructor. eapply Forall_impl; [exact Hl|]. by intros v []. }
  case_match; [|case_match; apply returns_throw].
  apply returns_after. intros _. eapply gives_bind; [by apply returns_entries; [|split; constructor]|].
  intros fs [Hnd Hfs]. apply gives_ret. split; [|by apply depth_obj_lt].
  constructor; [done|]. eapply Forall_impl; [exact Hfs|]. by intros kv [].
Qed.
End Returned.

Lemma keyed_is_json v : keyed v → is_json v = true.
Proof.
  induction v as [| |b|n|s|l IH|fs IH] using value_nested_ind;
    inversion 1 as [| | | |l' Hl|fs' Hnd Hfs]; subst; try done; cbn [is_json];
    apply forallb_forall; intros x Hx%list_elem_of_In; rewrite Forall_forall in IH.
  - rewrite Forall_forall in Hl. auto.
  - rewrite Forall_forall in Hfs. auto.
Qed.

(** What the decoder returns is JSON, so the check [decodeProgramCbor] makes of it
    refuses only what is not an object; its objects have distinct keys and it is
    nested at most as deep as the limit. *)
Theorem decoded_is_json bs v (Hdecoded : decodeCbor bs = Ok v) :
  is_json v = true ∧ keyed v ∧ Z.of_nat (depth v) ≤ MAX_CBOR_DEPTH.
Proof.
  unfold decodeCbor in Hdecoded. destruct (readDocument bs 0) as [o off] eqn:Hrun.
  simpl in Hdecoded. subst o. apply bind_Ok_inv in Hrun as (w & o1 & Hw & Hrest).
  assert (w = v) as ->.
  { clear Hw. unfold mbind, ST_bind, get_state, throw_if in Hrest.
    destruct (negb _); [discriminate Hrest|]. by injection Hrest as ->. }
  apply returns_value in Hw as [Hk Hd]. split_and!; [by apply keyed_is_json|done|].
  unfold document_room, MAX_CBOR_DEPTH in *. lia.
Qed.
