(* ===== verification/Validator.v ===== *)
(** * Validator: admission of a program (src/src/isa/validator.ts)

    [validateProgram] walks an untrusted value once and collects every issue it
    finds; a program is admitted when there is none. The issues are the state of
    the methods below, in the order the code pushes them, each with its code and
    its path (the English message is not modelled); a [TypeError] the engine
    raises on the way - reading a property of [undefined], converting an object
    without a primitive value to a string - leaves the method, as in the code.
    [frames] is how deep [visit] may still recurse before the engine's stack
    overflows. *)

From stdpp Require Import pretty.
From S2P Require Import Prelude Types Events Isa Codec.

Definition MAX_JSON_BYTES : Z := 10 * 1024 * 1024.
Definition MAX_INSTRUCTIONS : nat := 256.
Definition MAX_DEPENDENCIES : nat := 64.
Definition MAX_PRECONDITIONS : nat := 64.

Inductive ValidationIssueCode :=
| invalid_type | missing_field | unknown_field | invalid_value | invalid_json
| unsupported_isa_minor | unsupported_opcode | duplicate_id | duplicate_output
| duplicate_op_id | unknown_reference | dependency_cycle | capability_missing
| capability_denied | capability_expired | resource_exceeded | payload_too_large.

Record ValidationIssue := mkIssue { iss_code : ValidationIssueCode; iss_path : string }.

Notation V := (ST error (list ValidationIssue)).

Definition addIssue (code : ValidationIssueCode) (path : string) : V unit :=
  modify (λ issues, issues ++ [mkIssue code path]).
(** [if (b) addIssue(...)] *)
Definition issue_if (b : bool) (code : ValidationIssueCode) (path : string) : V unit :=
  when b (addIssue code path).

(** ** Fields *)

Definition fields := list (string * value).

(** [`${path}.${key}`] and [`${path}[${index}]`] *)
Definition dot (path key : string) : string := path +:+ "." +:+ key.
Definition at_index (path : string) (index : nat) : string := path +:+ "[" +:+ pretty index +:+ "]".

Definition checkKeys (v : fields) (allowed : list string) (path : string) : V unit :=
  for_each v.*1 (λ key, issue_if (negb (js_has allowed key)) unknown_field (dot path key)).

Definition required (v : fields) (keys : list string) (path : string) : V unit :=
  for_each keys (λ key, issue_if (negb (has_own v key)) missing_field (dot path key)).

(** The type guards return what they narrow the value to. *)
Definition stringField (v : value) (path : string) (pattern : option (string → bool))
  : V (option string) :=
  match v with
  | VStr s =>
      issue_if (match pattern with Some p => negb (p s) | None => false end) invalid_value path ;;
      mret (Some s)
  | _ => addIssue invalid_type path ;; mret None
  end.

Definition integerField (v : value) (path : string) (minimum maximum : Z) : V unit :=
  match safe_integer v with
  | None => addIssue invalid_type path
  | Some z => issue_if (bool_decide (z < minimum)%Z || bool_decide (maximum < z)%Z) invalid_value path
  end.

Definition refField (v : value) (path : string) (kind : RefKind) : V (option string) :=
  stringField v path (Some (REF_PATTERNS kind)).

Definition stringArray (v : value) (path : string) (maxItems : nat)
    (pattern : option (string → bool)) : V unit :=
  match v with
  | VArr l =>
      issue_if (maxItems <? length l)%nat invalid_value path ;;
      for_each (imap pair l) (λ '(index, item), stringField item (at_index path index) pattern ;; mret tt)
  | _ => addIssue invalid_type path
  end.

Definition validateRange (v : value) (path : string) : V unit :=
  match v with
  | VObj fs =>
      checkKeys fs ["start"; "end"] path ;;
      required fs ["start"; "end"] path ;;
      integerField (prop fs "start") (dot path "start") 0 MAX_SAFE_INTEGER ;;
      integerField (prop fs "end") (dot path "end") 0 MAX_SAFE_INTEGER
  | _ => addIssue invalid_type path
  end.

(** [/^[A-Z_][A-Z0-9_]{0,127}$/u], [/^SIG[A-Z0-9]+$/u], [/^[A-Fa-f0-9]{64}$/u] *)
Definition is_upper (a : ascii) : bool :=
  let n := nat_of_ascii a in (65 <=? n)%nat && (n <=? 90)%nat.
Definition env_char (a : ascii) : bool := is_upper a || one_of ["_"%char] a.
Definition env_name_regex (s : string) : bool :=
  match s with
  | EmptyString => false
  | String a t =>
      env_char a && all_chars (λ a, env_char a || is_digit a) t && (String.length t <=? 127)%nat
  end.
Definition signal_regex (s : string) : bool :=
  let rest := slice_from 3 s in
  startsWith s "SIG" && all_chars (λ a, is_upper a || is_digit a) rest && truthy_str rest.
Definition hex_char (a : ascii) : bool :=
  is_digit a || (let n := nat_of_ascii (lower_ascii a) in (97 <=? n)%nat && (n <=? 102)%nat).
Definition sha256_regex (s : string) : bool :=
  all_chars hex_char s && (String.length s =? 64)%nat.

Definition validateStringMap (v : value) (path : string) (maxProperties : nat) : V unit :=
  match v with
  | VObj fs =>
      issue_if (maxProperties <? length fs)%nat invalid_value path ;;
      for_each fs.*1 (λ key,
        issue_if (negb (env_name_regex key)) invalid_value (dot path key) ;;
        stringField (prop fs key) (dot path key) None ;; mret tt)
  | _ => addIssue invalid_type path
  end.

Definition validateRefMap (v : value) (path : string) (kind : RefKind) (maxProperties : nat) : V unit :=
  match v with
  | VObj fs =>
      issue_if (maxProperties <? length fs)%nat invalid_value path ;;
      for_each fs.*1 (λ key,
        issue_if (negb (env_name_regex key)) invalid_value (dot path key) ;;
        refField (prop fs key) (dot path key) kind ;; mret tt)
  | _ => addIssue invalid_type path
  end.

(** ** Arguments *)

(** Required and allowed fields. *)
Definition ARG_RULES (op : Opcode) : list string * list string :=
  match op with
  | fs_read => (["path"], ["workspace"; "path"; "range"])
  | fs_write => (["path"; "content"], ["workspace"; "path"; "content"; "expectedHash"])
  | fs_patch => (["path"; "patch"], ["workspace"; "path"; "patch"; "expectedHash"])
  | fs_move => (["from"; "to"], ["workspace"; "from"; "to"])
  | fs_delete => (["path"], ["workspace"; "path"; "recursive"])
  | fs_stat => (["path"], ["workspace"; "path"])
  | workspace_snapshot => (["label"], ["workspace"; "label"; "roots"])
  | workspace_diff => (["from"], ["workspace"; "from"; "to"])
  | workspace_commit => (["transaction"], ["workspace"; "transaction"])
  | workspace_rollback => (["snapshot"], ["workspace"; "snapshot"; "roots"])
  | proc_spawn =>
      (["argv"; "cwd"; "stdio"], ["argv"; "cwd"; "env"; "secretEnv"; "stdio"; "timeoutMs"])
  | proc_wait => (["process"], ["process"; "timeoutMs"])
  | proc_signal => (["process"; "signals"], ["process"; "signals"; "graceMs"])
  | proc_inspect => (["process"], ["process"])
  | observe_files => (["paths"], ["workspace"; "paths"; "depth"])
  | observe_resources => (["process"], ["process"; "intervalMs"])
  | control_status => ([], ["program"; "instruction"; "lease"])
  | control_health => ([], [])
  | control_cancel => ([], ["program"; "instruction"; "lease"; "graceMs"])
  | control_resolve =>
      (["lease"; "decision"; "reason"], ["lease"; "decision"; "reason"; "evidence"])
  | control_resume => (["resumeToken"], ["resumeToken"])
  | artifact_put => (["content"], ["content"; "mediaType"; "sensitivity"; "ttlMs"])
  | artifact_get => (["artifact"], ["artifact"; "range"])
  | artifact_stream => (["artifact"], ["artifact"; "cursor"; "maxBytes"])
  end.

Section Validate.
Context `{Engine}.

(** [!allowed.includes(String(v))] *)
Definition enumField (v : value) (allowed : list string) (path : string) : V unit :=
  s ← lift (String_of v);
  issue_if (negb (js_has allowed s)) invalid_value path.

(** [for (const key of keys) if (value[key] !== undefined) check(value[key], `${path}.${key}`)] *)
Definition present (v : fields) (path : string) (keys : list string) (check : value → string → V unit)
  : V unit :=
  for_each keys (λ key, when (negb (absent (prop v key))) (check (prop v key) (dot path key))).
Definition present_string (v : fields) (path : string) (keys : list string)
    (pattern : option (string → bool)) : V unit :=
  present v path keys (λ x p, stringField x p pattern ;; mret tt).
Definition present_ref (v : fields) (path : string) (keys : list string) (kind : RefKind) : V unit :=
  present_string v path keys (Some (REF_PATTERNS kind)).

Definition validateArgs (op : Opcode) (v : value) (path : string) : V unit :=
  match v with
  | VObj args =>
      checkKeys args (ARG_RULES op).2 path ;;
      required args (ARG_RULES op).1 path ;;
      present_ref args path ["workspace"] ref_workspace ;;
      present_string args path ["path"; "from"; "to"] None ;;
      when (negb (bool_decide (op = artifact_put))) (present_ref args path ["content"] ref_artifact) ;;
      present_ref args path ["patch"; "artifact"] ref_artifact ;;
      present_ref args path ["process"] ref_process ;;
      present_ref args path ["snapshot"] ref_snapshot ;;
      present_ref args path ["transaction"] ref_transaction ;;
      present_ref args path ["lease"] ref_lease ;;
      present_ref args path ["resumeToken"] ref_resume ;;
      present_ref args path ["cursor"] ref_cursor ;;
      present args path ["range"] validateRange ;;
      present args path ["roots"] (λ x p, stringArray x p 64 None) ;;
      present args path ["paths"] (λ x p, stringArray x p 64 None) ;;
      present args path ["depth"] (λ x p, integerField x p 0 128) ;;
      present args path ["intervalMs"] (λ x p, integerField x p 1 3600000) ;;
      present args path ["timeoutMs"; "graceMs"; "ttlMs"; "maxBytes"]
        (λ x p, integerField x p 0 315360000000) ;;
      present args path ["maxBytes"] (λ x p, integerField x p 1 (10 * 1024 * 1024)) ;;
      present args path ["stdio"] (λ x p, enumField x ["capture"; "inherit"; "ignore"; "stream"] p) ;;
      present args path ["argv"] (λ x p, stringArray x p 256 None) ;;
      present args path ["signals"] (λ x p, stringArray x p 8 (Some signal_regex)) ;;
      present args path ["env"] (λ x p, validateStringMap x p 256) ;;
      present args path ["secretEnv"] (λ x p, validateRefMap x p ref_secret 64) ;;
      present args path ["recursive"]
        (λ x p, match x with VBool _ => mret tt | _ => addIssue invalid_type p end) ;;
      present_string args path ["expectedHash"] (Some sha256_regex) ;;
      present_string args path ["label"; "from"; "to"; "revision"] None ;;
      when (bool_decide (op = artifact_put)) (present_string args path ["content"] None) ;;
      present_string args path ["mediaType"] None ;;
      present args path ["sensitivity"] (λ x p, enumField x ["public"; "internal"; "secret"] p) ;;
      present args path ["decision"]
        (λ x p, enumField x ["succeeded"; "failed"; "rolled_back"; "partial"] p) ;;
      present_string args path ["program"; "instruction"] None ;;
      issue_if ((bool_decide (op = control_status) || bool_decide (op = control_cancel)) &&
                absent (prop args "program") && absent (prop args "instruction") &&
                absent (prop args "lease")) missing_field path
  | _ => addIssue invalid_type path
  end.

(** ** Preconditions *)

Definition validatePrecondition (v : value) (path : string) (instructionIds : list string) : V unit :=
  match v with
  | VObj fs =>
      let keyed keys := checkKeys fs keys path ;; required fs keys path in
      match prop fs "kind" with
      | VStr kind =>
          if bool_decide (kind = "file_hash") then
            keyed ["kind"; "path"; "sha256"] ;;
            stringField (prop fs "path") (dot path "path") None ;;
            stringField (prop fs "sha256") (dot path "sha256") (Some sha256_regex) ;; mret tt
          else if bool_decide (kind = "artifact_hash") then
            keyed ["kind"; "artifact"; "sha256"] ;;
            refField (prop fs "artifact") (dot path "artifact") ref_artifact ;;
            stringField (prop fs "sha256") (dot path "sha256") (Some sha256_regex) ;; mret tt
          else if bool_decide (kind = "instruction_status") then
            keyed ["kind"; "instruction"; "status"] ;;
            instruction ← stringField (prop fs "instruction") (dot path "instruction") (Some ID_PATTERN);
            issue_if (match instruction with Some i => negb (js_has instructionIds i) | None => false end)
              unknown_reference (dot path "instruction") ;;
            enumField (prop fs "status")
              ["admitted"; "succeeded"; "failed"; "indeterminate"; "cancelled"; "rolled_back"; "partial"]
              (dot path "status")
          else if bool_decide (kind = "workspace_revision") then
            keyed ["kind"; "workspace"; "revision"] ;;
            refField (prop fs "workspace") (dot path "workspace") ref_workspace ;;
            stringField (prop fs "revision") (dot path "revision") None ;; mret tt
          else addIssue invalid_value (dot path "kind")
      | _ => addIssue missing_field (dot path "kind")
      end
  | _ => addIssue invalid_type path
  end.

(** ** Version negotiation *)

Record ValidateProgramOptions := mkValidateOptions {
  vo_supportedIsa : option (list string);
  vo_capability : option IsaCapability;
  vo_availableCapabilities : option (list string);
  vo_now : Z;
  vo_requireCapability : option bool;
}.

(** The digits before the first other character, and the rest. *)
Fixpoint take_digits (s : string) : string * string :=
  match s with
  | EmptyString => (EmptyString, EmptyString)
  | String a t => if is_digit a then let '(ds, rest) := take_digits t in (String a ds, rest)
                  else (EmptyString, s)
  end.
(** [ISA_PATTERN.exec(s)]: the major digits and the minor digits, where present. *)
Definition isa_exec (s : string) : option (string * option string) :=
  if startsWith s "xio/" then
    let '(major, rest) := take_digits (slice_from 4 s) in
    if truthy_str major then
      match rest with
      | EmptyString => Some (major, None)
      | String "."%char t =>
          let '(minor, rest') := take_digits t in
          if truthy_str minor && bool_decide (rest' = "") then Some (major, Some minor) else None
      | String _ _ => None
      end
    else None
  else None.
Definition ISA_PATTERN (s : string) : bool := bool_decide (is_Some (isa_exec s)).
Definition minor_number (digits : string) : Z := default 0%Z (digits_value 0 digits).

Definition supported_minor (entry : string) : option Z :=
  match isa_exec entry with
  | Some (major, minor) =>
      if bool_decide (major = "1")
      then Some (match minor with None => 0%Z | Some m => minor_number m end) else None
  | None => None
  end.

Definition negotiateIsa (v : value) (options : ValidateProgramOptions) : V (option string) :=
  s ← stringField v "isa" (Some ISA_PATTERN);
  match s with
  | None => mret None
  | Some s =>
      match isa_exec s with
      | Some (major, minor) =>
          if bool_decide (major = "1") then
            let supportedMinors := omap supported_minor (nullish (vo_supportedIsa options) ["xio/1.0"]) in
            selectedMinor ← match minor with
              | None => candidates ← lift (spread (supportedMinors ++ [-1]%Z)); mret (foldr Z.max (-1)%Z candidates)
              | Some m => mret (if bool_decide (minor_number m ∈ supportedMinors)
                                then minor_number m else (-1)%Z)
              end;
            if bool_decide (selectedMinor < 0)%Z then
              addIssue unsupported_isa_minor "isa" ;; mret None
            else mret (Some ("xio/1." +:+ pretty selectedMinor))
          else addIssue unsupported_isa_minor "isa" ;; mret None
      | None => addIssue unsupported_isa_minor "isa" ;; mret None
      end
  end.

(** ** Instructions that passed far enough to be parsed *)

Record ParsedInstruction := mkParsed {
  pi_value : fields;
  pi_op : Opcode;
  pi_id : string;
}.
Definition pi_args (p : ParsedInstruction) : value := prop (pi_value p) "args".

Definition strings_of (l : list value) : list string :=
  omap (λ v, match v with VStr s => Some s | _ => None end) l.
(** [Array.isArray(v) ? v.filter(item => typeof item === 'string') : []] *)
Definition string_items (v : value) : list string :=
  match v with VArr l => strings_of l | _ => [] end.
Definition pi_dependsOn (p : ParsedInstruction) : list string := string_items (prop (pi_value p) "dependsOn").

(** ** Resources *)

Record ResourceEstimate := mkEstimate {
  re_instructionCount : Z;
  re_costCounts : list (string * Z);
  re_resourceCost : list string;
  re_requiredCapabilities : list string;
  re_externalInstructionIds : list string;
  re_requiresOpId : list string;
}.

Definition count_cost (costCounts : list (string * Z)) (cost : string) : list (string * Z) :=
  jm_set costCounts cost (nullish (jm_get costCounts cost) 0 + 1)%Z.

Definition buildResources (instructions : list ParsedInstruction) : ResourceEstimate :=
  let metadata p := ISA_V1_REGISTRY (pi_op p) in
  let costCounts := foldl (λ counts p, foldl count_cost counts (md_resourceCost (metadata p)))
    [] instructions in
  {| re_instructionCount := Z.of_nat (length instructions);
     re_costCounts := costCounts;
     re_resourceCost := sort_strings costCounts.*1;
     re_requiredCapabilities :=
       sort_strings (js_set (instructions ≫= λ p, md_requiredCapabilities (metadata p)));
     re_externalInstructionIds :=
       map pi_id (List.filter (λ p, bool_decide (md_atomicity (metadata p) = at_external)) instructions);
     re_requiresOpId := map pi_id (List.filter (λ p, requires_op_id (pi_op p)) instructions) |}.

(** ** The capability precheck *)

Inductive CapabilityPrecheck := pre_complete | pre_partial | pre_not_requested.

Definition matchesPath (pattern v : string) : bool :=
  bool_decide (pattern = v) ||
  (if endsWith pattern "**" then startsWith v (drop_last 2 pattern)
   else if endsWith pattern "*" then startsWith v (drop_last 1 pattern)
   else false).

Definition collectInstructionPaths (args : value) : outcome error (list string) :=
  named ← map_outcome (read_prop args) ["path"; "from"; "to"];
  listed ← map_outcome (λ key, v ← read_prop args key; spread (string_items v)) ["paths"; "roots"];
  Ok (strings_of named ++ concat listed).

Definition checkInstructionCapability (capability : IsaCapability) (p : ParsedInstruction) : V unit :=
  let scope := ic_scope capability in
  let base := "instructions." +:+ pi_id p in
  issue_if (negb (bool_decide (pi_op p ∈ isc_opcodes scope))) capability_denied (dot base "op") ;;
  paths ← lift (collectInstructionPaths (pi_args p));
  for_each paths (λ path,
    issue_if (bool_decide (isc_paths scope = []) || negb (existsb (λ pattern, matchesPath pattern path) (isc_paths scope)))
      capability_denied (dot base "args")) ;;
  for_each ["workspace"; "cwd"] (λ key,
    w ← lift (read_prop (pi_args p) key);
    issue_if (match w with
              | VStr w => bool_decide (isc_workspaces scope = []) || negb (js_has (isc_workspaces scope) w)
              | _ => false
              end) capability_denied (dot base (dot "args" key))) ;;
  secretEnv ← lift (read_prop (pi_args p) "secretEnv");
  match secretEnv with
  | VObj entries =>
      for_each entries (λ '(name, secret),
        issue_if (match secret with VStr s => negb (js_has (isc_secrets scope) s) | _ => true end)
          capability_denied (dot base (dot "args.secretEnv" name)))
  | _ => mret tt
  end.

Definition checkCapability (program : fields) (instructions : list ParsedInstruction)
    (resources : ResourceEstimate) (options : ValidateProgramOptions) : V CapabilityPrecheck :=
  match vo_capability options with
  | None =>
      issue_if (nullish (vo_requireCapability options) true) capability_missing "capability" ;;
      mret pre_not_requested
  | Some capability =>
      let limits := ic_limits capability in
      issue_if (match prop program "capability" with
                | VUndef => false
                | VStr s => negb (bool_decide (s = ic_id capability))
                | _ => true
                end) capability_denied "capability" ;;
      issue_if (match getTime (ic_expiresAt capability) with
                | Some t => bool_decide (t ≤ vo_now options)%Z
                | None => true
                end) capability_expired "capability.expiresAt" ;;
      issue_if (match safe_integer (VNum (ic_epoch capability)) with
                | Some z => bool_decide (z < 0)%Z
                | None => true
                end) capability_denied "capability.epoch" ;;
      issue_if (negb (truthy_str (ic_policyVersion capability))) capability_denied
        "capability.policyVersion" ;;
      issue_if (negb (truthy_str (ic_reason capability))) capability_denied "capability.reason" ;;
      for_each instructions (checkInstructionCapability capability) ;;
      issue_if (bool_decide (lim_concurrentOps limits < re_instructionCount resources)%Z)
        resource_exceeded "instructions" ;;
      issue_if (bool_decide (lim_processes limits <
          Z.of_nat (length (List.filter (λ p, bool_decide (pi_op p = proc_spawn)) instructions)))%Z)
        resource_exceeded "instructions" ;;
      issue_if (match prop program "options" with
                | VObj fs => match prop fs "maxOutputBytes" with
                             | VNum n => exceeds n (lim_outputBytes limits)
                             | _ => false
                             end
                | _ => false
                end) resource_exceeded "options.maxOutputBytes" ;;
      match vo_availableCapabilities options with
      | None => mret pre_partial
      | Some available =>
          for_each (re_requiredCapabilities resources) (λ name,
            issue_if (negb (js_has available name)) capability_denied "capability") ;;
          mret pre_complete
      end
  end.

(** ** Cycles *)

Inductive Mark := visiting | visited.

(** [stack] is the way [visit] came, which only the message shows. *)
Fixpoint visit (frames : nat) (graph : list (string * list string)) (id : string)
    (stack : list string) (state : gmap string Mark) : V (gmap string Mark) :=
  match frames with
  | O => throw (Err "RangeError: maximum call stack size exceeded")
  | S frames' =>
      match state !! id with
      | Some visiting => addIssue dependency_cycle ("instructions." +:+ id +:+ ".dependsOn") ;; mret state
      | Some visited => mret state
      | None =>
          state' ← fold_each (λ state dependency,
            if jm_has graph dependency
            then visit frames' graph dependency (stack ++ [id]) state else mret state)
            (nullish (jm_get graph id) []) (<[id := visiting]> state);
          mret (<[id := visited]> state')
      end
  end.

Definition dependencyGraph (parsed : list ParsedInstruction) : list (string * list string) :=
  foldl (λ graph p, jm_set graph (pi_id p) (pi_dependsOn p)) [] parsed.

Definition detectCycles (frames : nat) (parsed : list ParsedInstruction) : V unit :=
  let graph := dependencyGraph parsed in
  fold_each (λ state id, visit frames graph id [] state) graph.*1 ∅ ;; mret tt.

(** ** The encoding check *)

Definition checkEncoding (input : value) : V unit :=
  match encodeJson false input with
  | Ok encoded => issue_if (MAX_JSON_BYTES <? Z.of_nat (String.length encoded))%Z payload_too_large "program"
  | Throw _ => addIssue invalid_json "program"
  end.

(** ** One instruction *)

Definition PROGRAM_KEYS : list string :=
  ["isa"; "requestId"; "programId"; "mode"; "capability"; "workspace"; "instructions"; "options"].
Definition INSTRUCTION_KEYS : list string :=
  ["id"; "op"; "args"; "dependsOn"; "precondition"; "output"; "opId"].
Definition OPTIONS_KEYS : list string := ["wait"; "maxOutputBytes"; "eventCursor"].

Definition lookupOpcode (v : value) : option Opcode :=
  match v with
  | VStr s => List.find (λ op, bool_decide (opcode_name op = s)) ISA_V1_OPCODES
  | _ => None
  end.

(** The local sets of [validateProgram]. *)
Record Scan := mkScan {
  scan_ids : list string;
  scan_outputs : list string;
  scan_opIds : list string;
  scan_parsed : list ParsedInstruction;
}.

Definition checkDependencies (v : value) (path : string) : V unit :=
  match v with
  | VArr l =>
      issue_if (MAX_DEPENDENCIES <? length l)%nat invalid_value path ;;
      fold_each (λ seenDeps '(index, dependency),
        match dependency with
        | VStr s =>
            if negb (ID_PATTERN s) then addIssue invalid_value (at_index path index)
            else issue_if (js_has seenDeps s) invalid_value (at_index path index)
        | _ => addIssue invalid_value (at_index path index)
        end ;;
        s ← lift (String_of dependency);
        mret (js_add seenDeps s)) (imap pair l) [] ;;
      mret tt
  | _ => addIssue invalid_type path
  end.

Definition checkPreconditions (v : value) (path : string) (declaredIds : list string) : V unit :=
  match v with
  | VArr l =>
      issue_if (MAX_PRECONDITIONS <? length l)%nat invalid_value path ;;
      for_each (imap pair l) (λ '(index, precondition),
        validatePrecondition precondition (at_index path index) declaredIds)
  | _ => addIssue invalid_type path
  end.

Definition checkOutput (v : value) (path : string) (outputs : list string) : V (list string) :=
  match v with
  | VStr output =>
      stringField v path (Some ID_PATTERN) ;;
      issue_if (js_has outputs output) duplicate_output path ;;
      mret (js_add outputs output)
  | _ => mret outputs
  end.

Definition checkOpId (v : value) (op : Opcode) (path : string) (opIds : list string) : V (list string) :=
  if absent v then issue_if (requires_op_id op) invalid_value path ;; mret opIds
  else
    opId ← stringField v path (Some OP_ID_PATTERN);
    match opId with
    | Some opId => issue_if (js_has opIds opId) duplicate_op_id path ;; mret (js_add opIds opId)
    | None => mret opIds
    end.

(** The id an instruction goes by. *)
Definition instruction_id (index : nat) (v : fields) : string :=
  match prop v "id" with
  | VStr s => if ID_PATTERN s then s else "#" +:+ pretty index
  | _ => "#" +:+ pretty index
  end.

Definition checkInstruction (declaredIds : list string) (scan : Scan) (entry : nat * value) : V Scan :=
  let '(index, raw) := entry in
  let path := at_index "instructions" index in
  match raw with
  | VObj v =>
      checkKeys v INSTRUCTION_KEYS path ;;
      required v (take 6 INSTRUCTION_KEYS) path ;;
      let id := instruction_id index v in
      match prop v "id" with
      | VStr _ => stringField (prop v "id") (dot path "id") (Some ID_PATTERN) ;; mret tt
      | _ => mret tt
      end ;;
      issue_if (js_has (scan_ids scan) id) duplicate_id (dot path "id") ;;
      let ids := js_add (scan_ids scan) id in
      match lookupOpcode (prop v "op") with
      | None =>
          lift (String_of (prop v "op")) ;;
          addIssue unsupported_opcode (dot path "op") ;;
          mret (mkScan ids (scan_outputs scan) (scan_opIds scan) (scan_parsed scan))
      | Some op =>
          validateArgs op (prop v "args") (dot path "args") ;;
          checkDependencies (prop v "dependsOn") (dot path "dependsOn") ;;
          checkPreconditions (prop v "precondition") (dot path "precondition") declaredIds ;;
          outputs ← checkOutput (prop v "output") (dot path "output") (scan_outputs scan);
          opIds ← checkOpId (prop v "opId") op (dot path "opId") (scan_opIds scan);
          mret (mkScan ids outputs opIds (scan_parsed scan ++ [mkParsed v op id]))
      end
  | _ => addIssue invalid_type path ;; mret scan
  end.

(** ** References between instructions *)

Definition checkReferences (program : fields) (ids : list string) (entry : nat * ParsedInstruction)
  : V unit :=
  let '(index, p) := entry in
  let path := at_index "instructions" index in
  for_each (pi_dependsOn p) (λ dependency,
    issue_if (negb (js_has ids dependency)) unknown_reference (dot path "dependsOn")) ;;
  match pi_args p with
  | VObj args =>
      issue_if (match prop args "instruction" with VStr i => negb (js_has ids i) | _ => false end)
        unknown_reference (dot path "args.instruction") ;;
      issue_if (match prop args "program" with
                | VStr name => match prop program "programId" with
                               | VStr programId => negb (bool_decide (name = programId))
                               | _ => true
                               end
                | _ => false
                end) unknown_reference (dot path "args.program")
  | _ => mret tt
  end.

(** ** The program *)

Definition validateOptions (v : value) : V unit :=
  match v with
  | VObj fs =>
      checkKeys fs OPTIONS_KEYS "options" ;;
      present fs "options" ["wait"] (λ x p, enumField x ["until_terminal"; "until_admitted"; "return_cursor"] p) ;;
      present fs "options" ["maxOutputBytes"] (λ x p, integerField x p 0 (100 * 1024 * 1024)) ;;
      present fs "options" ["eventCursor"] (λ x p,
        match x with VNull => mret tt | _ => stringField x p (Some EVENT_CURSOR_PATTERN) ;; mret tt end)
  | _ => addIssue invalid_type "options"
  end.

Record PlannedInstruction := mkPlanned {
  pl_id : string;
  pl_op : Opcode;
  pl_atomicity : Atomicity;
  pl_observation : string;
  pl_drivers : list string;
}.

Record ValidationPlan := mkPlan {
  plan_negotiatedIsa : string;
  plan_instructions : list PlannedInstruction;
  plan_dependencies : list (string * list string);
  plan_resources : ResourceEstimate;
  plan_capabilityPrecheck : CapabilityPrecheck;
}.

Inductive ProgramValidationResult :=
| ValidationSuccess (program : fields) (plan : ValidationPlan)
| ValidationFailure (issues : list ValidationIssue).

(** The ids the preconditions may name. *)
Definition declared_ids (rawInstructions : list value) : list string :=
  js_set (omap (λ v, match v with
    | VObj fs => match prop fs "id" with VStr s => if ID_PATTERN s then Some s else None | _ => None end
    | _ => None
    end) rawInstructions).

Definition planned (p : ParsedInstruction) : PlannedInstruction :=
  let metadata := ISA_V1_REGISTRY (pi_op p) in
  mkPlanned (pi_id p) (pi_op p) (md_atomicity metadata) (md_observation metadata) (md_drivers metadata).

Definition array_items (v : value) : list value := match v with VArr l => l | _ => [] end.

(** The checks, over the program's own properties: what they leave for the plan. *)
Definition checkProgram (frames : nat) (options : ValidateProgramOptions) (input : fields)
  : V (option string * Scan * ResourceEstimate * CapabilityPrecheck) :=
  checkEncoding (VObj input) ;;
  checkKeys input PROGRAM_KEYS "program" ;;
  required input ["isa"; "requestId"; "programId"; "mode"; "instructions"] "program" ;;
  negotiatedIsa ← negotiateIsa (prop input "isa") options;
  stringField (prop input "requestId") "requestId" (Some ID_PATTERN) ;;
  stringField (prop input "programId") "programId" (Some ID_PATTERN) ;;
  enumField (prop input "mode") ["plan"; "transaction"; "pipeline"] "mode" ;;
  when (negb (absent (prop input "capability")))
    (refField (prop input "capability") "capability" ref_capability ;; mret tt) ;;
  when (negb (absent (prop input "workspace")))
    (refField (prop input "workspace") "workspace" ref_workspace ;; mret tt) ;;
  when (negb (absent (prop input "options"))) (validateOptions (prop input "options")) ;;
  match prop input "instructions" with
  | VArr _ => mret tt
  | _ => addIssue invalid_type "instructions"
  end ;;
  let rawInstructions := array_items (prop input "instructions") in
  issue_if (length rawInstructions =? 0)%nat invalid_value "instructions" ;;
  issue_if (MAX_INSTRUCTIONS <? length rawInstructions)%nat invalid_value "instructions" ;;
  scan ← fold_each (checkInstruction (declared_ids rawInstructions)) (imap pair rawInstructions)
    (mkScan [] [] [] []);
  for_each (imap pair (scan_parsed scan)) (checkReferences input (scan_ids scan)) ;;
  detectCycles frames (scan_parsed scan) ;;
  let resources := buildResources (scan_parsed scan) in
  capabilityPrecheck ← checkCapability input (scan_parsed scan) resources options;
  mret (negotiatedIsa, scan, resources, capabilityPrecheck).

Definition validateProgram (frames : nat) (options : ValidateProgramOptions) (input : value)
  : outcome error ProgramValidationResult :=
  match input with
  | VObj fs =>
      match checkProgram frames options fs [] with
      | (Throw e, _) => Throw e
      | (Ok (Some negotiatedIsa, scan, resources, capabilityPrecheck), []) =>
          Ok (ValidationSuccess fs
            {| plan_negotiatedIsa := negotiatedIsa;
               plan_instructions := map planned (scan_parsed scan);
               plan_dependencies := dependencyGraph (scan_parsed scan);
               plan_resources := resources;
               plan_capabilityPrecheck := capabilityPrecheck |})
      | (Ok _, issues) => Ok (ValidationFailure issues)
      end
  | _ => Ok (ValidationFailure [mkIssue invalid_type "program"])
  end.
End Validate.
