(* ===== verification/DependencySpec.v ===== *)
(** * DependencySpec: [detectCycles] decides acyclicity

    The depth-first search of the validator against the dependency relation: it
    returns with one frame more than there are instructions, and it reports
    nothing exactly when no instruction depends on itself through others. *)

From S2P Require Import Prelude Types Isa Validator.

Notation Graph := (list (string * list string)).

(** [a] lists [b] among its dependencies, and [b] is an instruction. *)
Definition edge (g : Graph) (a b : string) : Prop :=
  ∃ ds, jm_get g a = Some ds ∧ b ∈ ds ∧ jm_has g b = true.
Definition acyclic (g : Graph) : Prop := ∀ a, ¬ tc (edge g) a a.
Definition nodes (g : Graph) : gset string := list_to_set g.*1.

Lemma jm_has_nodes g a : jm_has g a = true ↔ a ∈ nodes g.
Proof. by rewrite jm_has_in elem_of_list_to_set. Qed.

(** ** One call of [visit] *)

Section Visit.
Context (g : Graph).
Implicit Types (st : gmap string Mark) (issues : list ValidationIssue).

Definition unmarked st : nat := size (nodes g ∖ dom st).
(** What a call keeps of the marks it finds: none is lost, none becomes [visiting]. *)
Record continues st st' : Prop := {
  kept_marks : dom st ⊆ dom st';
  kept_visited x : st !! x = Some visited → st' !! x = Some visited;
  same_visiting x : st' !! x = Some visiting ↔ st !! x = Some visiting;
}.
#[export] Instance continues_preorder : PreOrder continues.
Proof.
  split; [by intros st; split|].
  intros st1 st2 st3 [D1 K1 S1] [D2 K2 S2]. split; [set_solver|eauto|].
  intros x. by rewrite S2 S1.
Qed.
Lemma continues_unmarked st st' : continues st st' → unmarked st' ≤ unmarked st.
Proof. intros [Hd _ _]. unfold unmarked. apply subseteq_size. set_solver. Qed.
Lemma unmarked_visit st id :
  st !! id = None → jm_has g id = true → unmarked (<[id:=visiting]> st) < unmarked st.
Proof.
  intros Hn Hg%jm_has_nodes. unfold unmarked. apply subset_size. rewrite dom_insert_L.
  apply not_elem_of_dom in Hn. set_solver.
Qed.

(** Every finished node is well founded: nothing it reaches comes back to it. *)
Definition finished st : Prop :=
  ∀ x, st !! x = Some visited → Acc (flip (edge g)) x ∧ ∀ y, edge g x y → st !! y = Some visited.
(** The nodes being visited lead to the one the call is for. *)
Definition on_path st id : Prop := ∀ x, st !! x = Some visiting → tc (edge g) x id.

(** What a call returns, apart from the marks: a report only on a cycle, and
    none only with the node finished. *)
Record visit_spec (id : string) st issues (r : outcome error (gmap string Mark) * list ValidationIssue)
  : Prop := {
  vs_run : ∃ st' l, r = (Ok st', issues ++ l) ∧ continues st st' ∧
    (acyclic g → on_path st id → l = []) ∧
    (l = [] → finished st → st' !! id = Some visited ∧ finished st')
}.

Lemma on_path_step st id d :
  on_path st id → edge g id d → on_path (<[id:=visiting]> st) d.
Proof.
  intros Hp He x. destruct (decide (x = id)) as [->|Hx].
  - intros _. by apply tc_once.
  - rewrite lookup_insert_ne //. intros Hv. eapply tc_r; [by apply Hp|done].
Qed.

(** The loop over the dependencies, given what each call does. *)
Lemma visit_all_spec id (f : gmap string Mark → string → V (gmap string Mark)) ds st0 :
  (∀ d, d ∈ ds → ∀ st issues, continues (<[id:=visiting]> st0) st →
    if jm_has g d then visit_spec d st issues (f st d issues) else f st d = mret st) →
  (∀ d, d ∈ ds → jm_has g d = true → edge g id d) →
  ∀ st issues, continues (<[id:=visiting]> st0) st →
  ∃ st' l, fold_each f ds st issues = (Ok st', issues ++ l) ∧ continues st st' ∧
    (acyclic g → on_path st0 id → l = []) ∧
    (l = [] → finished st →
      finished st' ∧ ∀ d, d ∈ ds → jm_has g d = true → st' !! d = Some visited).
Proof.
  induction ds as [|d ds IH]; intros Hf He st issues Hc; simpl.
  - exists st, []. rewrite app_nil_r. split_and!; [done|reflexivity|done|].
    intros _ ?. split; [done|set_solver].
  - assert (∃ st1 l1, f st d issues = (Ok st1, issues ++ l1) ∧ continues st st1 ∧
      (acyclic g → on_path st0 id → l1 = []) ∧
      (l1 = [] → finished st →
        (jm_has g d = true → st1 !! d = Some visited) ∧ finished st1))
      as (st1 & l1 & Hrun & Hc1 & Hno1 & Hfin1).
    { specialize (Hf d ltac:(set_solver) st issues Hc).
      destruct (jm_has g d) eqn:Hd.
      - destruct Hf as [(st1 & l1 & -> & Hc1 & Hno & Hfin)]. exists st1, l1.
        split_and!; [done|done| |naive_solver].
        intros Ha Hp. apply Hno; [done|]. intros x Hx.
        apply (same_visiting _ _ Hc) in Hx. eapply on_path_step; [done| |done].
        apply He; set_solver.
      - rewrite Hf. exists st, []. rewrite app_nil_r. by split_and!. }
    rewrite (run_bind_Ok _ _ _ _ _ Hrun).
    destruct (IH ltac:(intros; apply Hf; set_solver) ltac:(intros; apply He; set_solver)
      st1 (issues ++ l1)) as (st2 & l2 & -> & Hc2 & Hno2 & Hfin2); [by etransitivity|].
    exists st2, (l1 ++ l2). rewrite assoc. split_and!; [done|by etransitivity| |].
    + intros Ha Hp. by rewrite (Hno1 Ha Hp) (Hno2 Ha Hp).
    + intros [-> ->]%app_nil Hst. destruct (Hfin1 eq_refl Hst) as [Hd1 Hst1].
      destruct (Hfin2 eq_refl Hst1) as [Hst2 Hall]. split; [done|].
      intros x [->|Hx]%elem_of_cons Hgx; [|by apply Hall].
      by apply (kept_visited _ _ Hc2), Hd1.
Qed.

(** Marking [id] finished when its dependencies are. *)
Lemma finished_insert st id :
  finished st → (∀ d, edge g id d → st !! d = Some visited) → finished (<[id:=visited]> st).
Proof.
  intros Hst Hd. assert (∀ x, st !! x = Some visited → <[id:=visited]> st !! x = Some visited) as Hmon.
  { intros x Hx. destruct (decide (x = id)) as [->|]; [apply lookup_insert_eq|].
    by rewrite lookup_insert_ne. }
  intros x. destruct (decide (x = id)) as [->|Hx].
  - intros _. split; [|eauto]. constructor. intros y Hy. exact (proj1 (Hst y (Hd y Hy))).
  - rewrite lookup_insert_ne; [|done]. intros [Hacc Hout]%Hst. split; [exact Hacc|eauto].
Qed.
Lemma finished_visiting st id : st !! id = None → finished st → finished (<[id:=visiting]> st).
Proof.
  intros Hn Hst x. destruct (decide (x = id)) as [->|Hx].
  { by rewrite lookup_insert_eq. }
  rewrite lookup_insert_ne; [|done]. intros [Hacc Hout]%Hst. split; [exact Hacc|].
  intros y Hy%Hout. rewrite lookup_insert_ne; [done|congruence].
Qed.
Lemma continues_visit st st' id :
  st !! id = None → continues (<[id:=visiting]> st) st' → continues st (<[id:=visited]> st').
Proof.
  intros Hn [Hd Hk Hs]. rewrite dom_insert_L in Hd. split.
  - rewrite dom_insert_L. set_solver.
  - intros x Hx. destruct (decide (x = id)) as [->|]; [by rewrite lookup_insert_eq|].
    rewrite lookup_insert_ne //. apply Hk. by rewrite lookup_insert_ne.
  - intros x. destruct (decide (x = id)) as [->|].
    + rewrite lookup_insert_eq Hn. naive_solver.
    + rewrite lookup_insert_ne // Hs lookup_insert_ne //.
Qed.

Lemma visit_correct frames : ∀ id stack st issues,
  jm_has g id = true → unmarked st < frames →
  visit_spec id st issues (visit frames g id stack st issues).
Proof.
  induction frames as [|frames IH]; intros id stack st issues Hg Hf; [lia|].
  cbn [visit]. destruct (st !! id) as [[]|] eqn:Hid; split.
  - exists st, [mkIssue dependency_cycle ("instructions." +:+ id +:+ ".dependsOn")].
    split_and!; [done|reflexivity| |done].
    intros Ha Hp. exfalso. apply (Ha id), Hp, Hid.
  - exists st, []. rewrite app_nil_r. by split_and!; [|reflexivity|..].
  - pose proof (unmarked_visit _ _ Hid Hg) as Hlt.
    assert (∀ d, d ∈ nullish (jm_get g id) [] → jm_has g d = true → edge g id d) as Hedge.
    { intros d Hd Hgd. unfold edge. destruct (jm_get g id); simpl in Hd; [|set_solver]. eauto. }
    destruct (visit_all_spec id (λ state dependency,
      if jm_has g dependency then visit frames g dependency (stack ++ [id]) state else mret state)
      (nullish (jm_get g id) []) st) with (st := <[id:=visiting]> st) (issues := issues)
      as (st' & l & Hrun & Hc & Hno & Hfin); [|done|reflexivity|].
    { intros d Hd st1 iss1 Hc%continues_unmarked. destruct (jm_has g d) eqn:Hgd; [|done].
      apply IH; [done|lia]. }
    rewrite (run_bind_Ok _ _ _ _ _ Hrun). exists (<[id:=visited]> st'), l.
    split_and!; [done|by apply continues_visit|done|].
    intros -> Hst. split; [apply lookup_insert_eq|].
    destruct (Hfin eq_refl) as [Hst' Hall]; [by apply finished_visiting|].
    apply finished_insert; [done|]. intros d Hd. pose proof Hd as (ds & Hds & Hin & Hgd).
    apply Hall; [|done]. by rewrite Hds.
Qed.
End Visit.

(** ** The whole search *)

Lemma Acc_acyclic {A} (R : relation A) a : Acc (flip R) a → ¬ tc R a a.
Proof.
  induction 1 as [a _ IH]. intros Hc.
  inversion Hc as [? ? Hab|? b ? Hab Hba]; subst; [by apply (IH a)|].
  apply (IH b Hab). by eapply tc_r.
Qed.

Section Detect.
Context (g : Graph) (frames : nat).
Implicit Types (st : gmap string Mark) (issues : list ValidationIssue).

Definition settled st : Prop := ∀ x, st !! x ≠ Some visiting.

Lemma visit_roots ids : (∀ id, id ∈ ids → jm_has g id = true) → ∀ st issues,
  settled st → unmarked g st < frames →
  ∃ st' l, fold_each (λ state id, visit frames g id [] state) ids st issues = (Ok st', issues ++ l) ∧
    (acyclic g → l = []) ∧
    (l = [] → finished g st → finished g st' ∧ continues st st' ∧ ∀ id, id ∈ ids → st' !! id = Some visited).
Proof.
  induction ids as [|id ids IH]; intros Hg st issues Hset Hlt; simpl.
  - exists st, []. rewrite app_nil_r. split_and!; [done..|].
    intros _ ?. split_and!; [done|reflexivity|set_solver].
  - destruct (visit_correct g frames id [] st issues) as [(st1 & l1 & Hrun & Hc1 & Hno1 & Hfin1)];
      [apply Hg; set_solver|done|].
    rewrite (run_bind_Ok _ _ _ _ _ Hrun).
    destruct (IH ltac:(set_solver) st1 (issues ++ l1)) as (st2 & l2 & -> & Hno2 & Hfin2).
    { intros x Hx%(same_visiting _ _ Hc1). by apply (Hset x). }
    { by eapply Nat.le_lt_trans; [apply continues_unmarked|]. }
    exists st2, (l1 ++ l2). rewrite assoc. split_and!; [done| |].
    + intros Ha. rewrite Hno2 // Hno1 //. intros x Hx. by destruct (Hset x).
    + intros [-> ->]%app_nil Hst. destruct (Hfin1 eq_refl Hst) as [Hid Hst1].
      destruct (Hfin2 eq_refl Hst1) as (Hst2 & Hc2 & Hall).
      split_and!; [done|by etransitivity|].
      intros x [->|Hx]%elem_of_cons; [|by apply Hall]. by apply (kept_visited _ _ Hc2).
Qed.
End Detect.

Lemma size_list_to_set_le (l : list string) : size (list_to_set l : gset string) ≤ length l.
Proof.
  induction l as [|x l IH]; [done|].
  change (size ({[x]} ∪ list_to_set l : gset string) ≤ S (length l)).
  rewrite size_union_alt size_singleton.
  assert (size (list_to_set l ∖ {[x]} : gset string) ≤ size (list_to_set l : gset string));
    [apply subseteq_size; set_solver|lia].
Qed.
Lemma unmarked_empty g : unmarked g ∅ ≤ length g.
Proof.
  unfold unmarked, nodes. rewrite dom_empty_L difference_empty_L -(length_fmap fst g).
  apply size_list_to_set_le.
Qed.

(** The search over any graph: it returns, and is silent exactly when acyclic. *)
Lemma search_exact g frames :
  length g < frames →
  ∃ st l, fold_each (λ state id, visit frames g id [] state) g.*1 ∅ [] = (Ok st, l) ∧
    (l = [] ↔ acyclic g).
Proof.
  intros Hlt.
  destruct (visit_roots g frames g.*1) with (st := (∅ : gmap string Mark)) (issues := @nil ValidationIssue)
    as (st & l & Hrun & Hno & Hfin).
  { intros id. by rewrite jm_has_in. }
  { intros x. by rewrite lookup_empty. }
  { pose proof (unmarked_empty g). lia. }
  exists st, l. split; [done|]. split; [|done].
  intros Hl. destruct (Hfin Hl) as (Hst & _ & Hall).
  { intros x. by rewrite lookup_empty. }
  intros a Ha. assert (st !! a = Some visited) as Hv.
  { apply Hall, jm_has_in. inversion Ha as [? ? He|? ? ? He]; subst;
      destruct He as (ds & Hds & _); unfold jm_has; rewrite Hds; done. }
  revert Ha. apply Acc_acyclic. exact (proj1 (Hst a Hv)).
Qed.

(** An acyclic graph is well founded: the search has visited all of it. *)
Lemma acyclic_Acc g a : acyclic g → Acc (flip (edge g)) a.
Proof.
  intros Hac. destruct (visit_roots g (S (length g)) g.*1) with (st := (∅ : gmap string Mark))
    (issues := @nil ValidationIssue) as (st & l & _ & Hno & Hfin).
  { intros id. by rewrite jm_has_in. }
  { intros x. by rewrite lookup_empty. }
  { pose proof (unmarked_empty g). lia. }
  destruct (Hfin (Hno Hac)) as (Hst & _ & Hall).
  { intros x. by rewrite lookup_empty. }
  constructor. intros b (ds & _ & _ & Hb). apply Hst, Hall. by apply jm_has_in.
Qed.

(** ** The graph of the parsed instructions *)

Lemma graph_keys parsed :
  (dependencyGraph parsed).*1 = foldl js_add [] (map pi_id parsed).
Proof.
  unfold dependencyGraph. change (@nil string) with (@nil (string * list string)).*1.
  generalize (@nil (string * list string)).
  induction parsed as [|p parsed IH]; intros g; simpl; [done|]. by rewrite IH jm_set_keys.
Qed.

Lemma length_foldl_js_add l : ∀ s, length (foldl js_add s l) ≤ length s + length l.
Proof.
  induction l as [|x l IH]; intros s; simpl; [lia|].
  etransitivity; [apply IH|]. pose proof (js_add_length s x). lia.
Qed.
Lemma graph_length parsed : length (dependencyGraph parsed) ≤ length parsed.
Proof.
  rewrite -(length_fmap fst) graph_keys. etransitivity; [apply length_foldl_js_add|].
  by rewrite length_map.
Qed.

Lemma detectCycles_correct frames parsed :
  length parsed < frames →
  ∃ l, detectCycles frames parsed [] = (Ok tt, l) ∧ (l = [] ↔ acyclic (dependencyGraph parsed)).
Proof.
  intros Hlt. pose proof (graph_length parsed).
  destruct (search_exact (dependencyGraph parsed) frames) as (st & l & Hrun & Hiff); [lia|].
  exists l. unfold detectCycles. by rewrite (run_bind_Ok _ _ _ _ _ Hrun).
Qed.

(** C28. The dependency check answers exactly: on the instructions of a program of any
    shape - in any order, with duplicate and dangling names - and a stack of more
    frames than instructions, [detectCycles] returns, and it reports no issue if
    and only if no instruction depends on itself, directly or through others. *)
Theorem detectCycles_exact frames parsed :
  length parsed < frames →
  ∃ l, detectCycles frames parsed [] = (Ok tt, l) ∧
    (l = [] ↔ ∀ id, ¬ tc (edge (dependencyGraph parsed)) id id).
Proof. exact (detectCycles_correct frames parsed). Qed.

(** Three instructions, two of which wait for each other. *)
Definition sample_cycle : list ParsedInstruction :=
  map (λ '(id, deps), mkParsed [("dependsOn", VArr (map VStr deps))] proc_spawn id)
    [("a", ["b"; "missing"]); ("b", ["c"]); ("c", ["b"])].

Example detectCycles_exact_witness :
  length sample_cycle < 4 ∧ ¬ ∀ id, ¬ tc (edge (dependencyGraph sample_cycle)) id id.
Proof.
  split; [simpl; lia|]. intros Hac.
  destruct (detectCycles_exact 4 sample_cycle) as (l & Hrun & Hiff); [simpl; lia|].
  apply Hiff in Hac as ->. vm_compute in Hrun. discriminate.
Defined.
