(* ===== verification/ValidatorSpec.v ===== *)
(** * ValidatorSpec: what an admitted program satisfies

    Issues only accumulate, so a check that leaves none had none to report at
    any point: [clean] inverts a method one statement at a time. *)

From stdpp Require Import pretty.
From S2P Require Import Prelude Types Events Isa Validator DependencySpec.

(** ** Methods only add issues *)

Notation grows m := (respects prefix m).

Lemma grows_addIssue code path : grows (addIssue code path).
Proof. apply respects_modify. intros issues. apply prefix_app_r, reflexivity. Qed.
#[export] Hint Resolve grows_addIssue : xio.
Lemma grows_issue_if b code path : grows (issue_if b code path).
Proof. apply respects_when; auto with xio typeclass_instances. Qed.
#[export] Hint Resolve grows_issue_if : xio.
Lemma grows_checkKeys v allowed path : grows (checkKeys v allowed path).
Proof. unfold checkKeys. respects_tac. Qed.
Lemma grows_required v keys path : grows (required v keys path).
Proof. unfold required. respects_tac. Qed.
Lemma grows_stringField v path pattern : grows (stringField v path pattern).
Proof. unfold stringField. respects_tac. Qed.
Lemma grows_integerField v path lo hi : grows (integerField v path lo hi).
Proof. unfold integerField. respects_tac. Qed.
#[export] Hint Resolve grows_checkKeys grows_required grows_stringField grows_integerField : xio.
Lemma grows_refField v path kind : grows (refField v path kind).
Proof. apply grows_stringField. Qed.
#[export] Hint Resolve grows_refField : xio.
Lemma grows_stringArray v path n pattern : grows (stringArray v path n pattern).
Proof. unfold stringArray. respects_tac. Qed.
Lemma grows_validateRange v path : grows (validateRange v path).
Proof. unfold validateRange. respects_tac. Qed.
Lemma grows_validateStringMap v path n : grows (validateStringMap v path n).
Proof. unfold validateStringMap. respects_tac. Qed.
Lemma grows_validateRefMap v path kind n : grows (validateRefMap v path kind n).
Proof. unfold validateRefMap. respects_tac. Qed.
#[export] Hint Resolve grows_stringArray grows_validateRange grows_validateStringMap
  grows_validateRefMap : xio.

Section Grows.
Context `{Engine}.

Lemma grows_enumField v allowed path : grows (enumField v allowed path).
Proof. unfold enumField. respects_tac. Qed.
Lemma grows_present v path keys check :
  (∀ x p, grows (check x p)) → grows (present v path keys check).
Proof. intros Hc. unfold present. respects_tac. Qed.
Lemma grows_present_string v path keys pattern : grows (present_string v path keys pattern).
Proof. apply grows_present. intros. respects_tac. Qed.
Lemma grows_present_ref v path keys kind : grows (present_ref v path keys kind).
Proof. apply grows_present_string. Qed.
End Grows.
#[export] Hint Resolve grows_enumField grows_present_string grows_present_ref : xio.
#[export] Hint Extern 1 (respects _ (present _ _ _ _)) =>
  apply grows_present; intros; respects_tac : xio.

Section Grows2.
Context `{Engine}.

Lemma grows_validateArgs op v path : grows (validateArgs op v path).
Proof.
  unfold validateArgs. destruct v; auto with xio. respects_tac.
Qed.
Lemma grows_validatePrecondition v path ids : grows (validatePrecondition v path ids).
Proof. unfold validatePrecondition. destruct v; auto with xio. respects_tac. Qed.
Lemma grows_negotiateIsa v options : grows (negotiateIsa v options).
Proof. unfold negotiateIsa. respects_tac. Qed.
Lemma grows_checkInstructionCapability c p : grows (checkInstructionCapability c p).
Proof. unfold checkInstructionCapability. respects_tac. Qed.
End Grows2.
#[export] Hint Resolve grows_validateArgs grows_validatePrecondition grows_negotiateIsa
  grows_checkInstructionCapability : xio.

Section Grows3.
Context `{Engine}.

Lemma grows_checkCapability program ps resources options :
  grows (checkCapability program ps resources options).
Proof. unfold checkCapability. respects_tac. Qed.
Lemma grows_visit frames g : ∀ id stack st, grows (visit frames g id stack st).
Proof. induction frames as [|frames IH]; intros; simpl; respects_tac. Qed.
Lemma grows_detectCycles frames ps : grows (detectCycles frames ps).
Proof.
  unfold detectCycles. apply respects_bind; [typeclasses eauto| |intros; auto with xio typeclass_instances].
  apply respects_fold_each; [typeclasses eauto|intros; apply grows_visit].
Qed.
Lemma grows_checkEncoding v : grows (checkEncoding v).
Proof. unfold checkEncoding. respects_tac. Qed.
Lemma grows_checkDependencies v path : grows (checkDependencies v path).
Proof. unfold checkDependencies. respects_tac. Qed.
Lemma grows_checkPreconditions v path ids : grows (checkPreconditions v path ids).
Proof. unfold checkPreconditions. respects_tac. Qed.
Lemma grows_checkOutput v path outputs : grows (checkOutput v path outputs).
Proof. unfold checkOutput. respects_tac. Qed.
Lemma grows_checkOpId v op path opIds : grows (checkOpId v op path opIds).
Proof. unfold checkOpId. respects_tac. Qed.
End Grows3.
#[export] Hint Resolve grows_checkCapability grows_detectCycles grows_checkEncoding
  grows_checkDependencies grows_checkPreconditions grows_checkOutput grows_checkOpId : xio.

Section Grows4.
Context `{Engine}.

Lemma grows_checkInstruction ids scan entry : grows (checkInstruction ids scan entry).
Proof. unfold checkInstruction. destruct entry as [? []]; respects_tac. Qed.
Lemma grows_checkReferences program ids entry : grows (checkReferences program ids entry).
Proof. unfold checkReferences. destruct entry as [? p]. respects_tac. Qed.
Lemma grows_validateOptions v : grows (validateOptions v).
Proof.
  unfold validateOptions. destruct v; auto with xio. respects_tac.
Qed.
End Grows4.
#[export] Hint Resolve grows_checkInstruction grows_checkReferences grows_validateOptions : xio.

(** ** Checks that leave no issue *)

Definition clean {A} (m : V A) (a : A) : Prop := m [] = (Ok a, []).

Lemma clean_bind {A B} (m : V A) (f : A → V B) b :
  (∀ a, grows (f a)) → clean (m ≫= f) b → ∃ a, clean m a ∧ clean (f a) b.
Proof.
  unfold clean. intros Hf Hb. apply bind_Ok_inv in Hb as (a & s & Hm & Hb).
  pose proof (Hf a s) as Hs. rewrite Hb in Hs. apply prefix_nil_inv in Hs as ->. eauto.
Qed.
Lemma clean_lift {A} (o : outcome error A) a : clean (lift o) a → o = Ok a.
Proof. by intros [= ->]. Qed.
Lemma clean_ret {A} (a b : A) : clean (mret a) b → a = b.
Proof. by intros [= ->]. Qed.
Lemma clean_issue_if b code path u : clean (issue_if b code path) u → b = false.
Proof. by destruct b. Qed.
Lemma clean_when b m u : clean (when b m) u → b = true → clean m tt.
Proof. intros Hm ->. by destruct u. Qed.
Lemma clean_addIssue code path u : ¬ clean (addIssue code path) u.
Proof. done. Qed.
Lemma clean_for_each {A} (f : A → V unit) l u :
  (∀ x, grows (f x)) → clean (for_each l f) u → ∀ x, x ∈ l → clean (f x) tt.
Proof.
  intros Hf. induction l as [|y l IH]; simpl; [set_solver|].
  intros ([] & Hy & Hl)%clean_bind x; [|intros; respects_tac].
  intros [->|Hx]%elem_of_cons; [done|by apply IH].
Qed.
(** A loop with a local variable: an invariant of the elements done so far. *)
Lemma clean_fold_each {A B} (P : list A → B → Prop) (f : B → A → V B) :
  (∀ b x, grows (f b x)) →
  (∀ l b x b', P l b → clean (f b x) b' → P (l ++ [x]) b') →
  ∀ l b b', P [] b → clean (fold_each f l b) b' → P l b'.
Proof.
  intros Hf Hstep l b b' Hb Hl. change l with ([] ++ l).
  revert Hb Hl. generalize (@nil A) as pre. revert b. induction l as [|x l IH]; intros b pre Hb Hl; simpl in *.
  - apply clean_ret in Hl as <-. by rewrite app_nil_r.
  - apply clean_bind in Hl as (b1 & Hx & Hl); [|intros; by apply respects_fold_each; [typeclasses eauto|]].
    rewrite (assoc (++) pre [x] l). by eapply IH; [eapply Hstep|].
Qed.

(** [inv_clean H]: the statements of a method one by one, the last in [H]. *)
Ltac inv_clean_step H :=
  lazymatch type of H with
  | clean (_ ≫= _) _ =>
      let Hm := fresh "Hm" in
      apply clean_bind in H as (? & Hm & H); [|intros; solve [respects_tac]]
  end.
Ltac inv_clean H := repeat inv_clean_step H.

(** A long sequence at once: [Q] is what its statements, one by one, leave clean. *)
Definition clean_steps (m : V unit) (Q : Prop) : Prop := grows m ∧ (clean m tt → Q).
Lemma clean_steps_seq (m r : V unit) Q :
  grows m → clean_steps r Q → clean_steps (m;; r) (clean m tt ∧ Q).
Proof.
  intros Hm [Hr HQ]. split; [by apply respects_bind; [typeclasses eauto| |intros]|].
  intros ([] & H1 & H2)%clean_bind; [auto|done].
Qed.
Lemma clean_steps_end m : grows m → clean_steps m (clean m tt).
Proof. by split. Qed.
Ltac each_step :=
  repeat (apply clean_steps_seq; [solve [respects_tac]|]); apply clean_steps_end; solve [respects_tac].

Lemma clean_stringField v path pattern r :
  clean (stringField v path pattern) r →
  ∃ s, v = VStr s ∧ r = Some s ∧ match pattern with Some p => p s = true | None => True end.
Proof.
  unfold stringField. destruct v; intros Hc; inv_clean Hc;
    try by exfalso; eapply clean_addIssue.
  apply clean_ret in Hc as <-. exists s. apply clean_issue_if in Hm.
  destruct pattern; [|done]. by apply negb_false_iff in Hm.
Qed.
Lemma clean_checkKeys v allowed path u :
  clean (checkKeys v allowed path) u → v.*1 ⊆ allowed.
Proof.
  intros Hc k Hk. eapply clean_for_each in Hc; [|intros; respects_tac|exact Hk].
  by apply clean_issue_if, negb_false_iff, js_has_spec in Hc.
Qed.
Lemma clean_required v keys path u :
  clean (required v keys path) u → ∀ k, k ∈ keys → has_own v k = true.
Proof.
  intros Hc k Hk. eapply clean_for_each in Hc; [|intros; respects_tac|exact Hk].
  by apply clean_issue_if, negb_false_iff in Hc.
Qed.

(** ** Dependencies *)

Lemma strings_of_map l : strings_of (map VStr l) = l.
Proof. unfold strings_of. induction l as [|s l IH]; [done|]. simpl. f_equal. exact IH. Qed.
Lemma imap_pair_snd {A} (l : list A) : map snd (imap pair l) = l.
Proof.
  apply list_eq. intros i. change (map snd (imap pair l)) with (snd <$> imap pair l).
  rewrite list_lookup_fmap list_lookup_imap. by destruct (l !! i).
Qed.

Section Clean.
Context `{Engine}.

Lemma clean_checkDependencies v path u :
  clean (checkDependencies v path) u →
  ∃ ds, v = VArr (map VStr ds) ∧ NoDup ds ∧ length ds ≤ MAX_DEPENDENCIES ∧
    Forall (λ d, ID_PATTERN d = true) ds.
Proof.
  unfold checkDependencies. destruct v as [| | | | |l|]; intros Hc;
    try by exfalso; eapply clean_addIssue.
  inv_clean Hc. apply clean_issue_if, Nat.ltb_ge in Hm.
  eapply (clean_fold_each (λ done seen, ∃ ds, map snd done = map VStr ds ∧ seen = ds ∧ NoDup ds ∧
    Forall (λ d, ID_PATTERN d = true) ds)) in Hm0 as (ds & Hl & _ & Hnd & Hid).
  - rewrite imap_pair_snd in Hl. subst l. exists ds. rewrite length_map in Hm. by split_and!.
  - intros. respects_tac.
  - intros pre seen [i d] seen' (ds & Hpre & -> & Hnd & Hid) Hd. inv_clean Hd.
    destruct d as [| | | |s| |]; try by exfalso; eapply clean_addIssue.
    destruct (ID_PATTERN s) eqn:Hs; simpl in *; [|by exfalso; eapply clean_addIssue].
    apply clean_issue_if in Hm1. apply clean_ret in Hd as <-.
    apply clean_lift in Hm2 as [= <-]. exists (ds ++ [s]).
    rewrite !map_app Hpre. split_and!; [done| | |].
    + unfold js_add. by rewrite Hm1.
    + apply NoDup_app. split_and!; [done| |apply NoDup_singleton].
      intros y Hy ->%list_elem_of_singleton. apply (js_has_spec ds s) in Hy. congruence.
    + apply Forall_app. by repeat constructor.
  - exists []. split_and!; [done|done|constructor|constructor].
Qed.
End Clean.

(** ** Values of the types arguments have *)

Definition text_value (pattern : option (string → bool)) (v : value) : Prop :=
  ∃ s, v = VStr s ∧ match pattern with Some p => p s = true | None => True end.
Definition ref_value (kind : RefKind) : value → Prop := text_value (Some (REF_PATTERNS kind)).
Definition integer_value (lo hi : Z) (v : value) : Prop := ∃ z, safe_integer v = Some z ∧ (lo ≤ z ≤ hi)%Z.
Definition texts_value (n : nat) (pattern : option (string → bool)) (v : value) : Prop :=
  ∃ l, v = VArr l ∧ length l ≤ n ∧ ∀ x, x ∈ l → text_value pattern x.
(** A value that prints as one of [allowed]: the word itself, or an array around it. *)
Definition word_value `{Engine} (allowed : list string) (v : value) : Prop :=
  ∃ s, String_of v = Ok s ∧ s ∈ allowed.
Definition record_value (check : fields → Prop) (v : value) : Prop := ∃ fs, v = VObj fs ∧ check fs.
Definition entries_value (n : nat) (entry : value → Prop) : value → Prop :=
  record_value (λ fs, length fs ≤ n ∧ ∀ k, k ∈ fs.*1 → env_name_regex k = true ∧ entry (prop fs k)).
Definition fields_exactly (keys : list string) (fs : fields) : Prop :=
  fs.*1 ⊆ keys ∧ ∀ k, k ∈ keys → has_own fs k = true.
Definition range_value : value → Prop := record_value (λ fs, fields_exactly ["start"; "end"] fs ∧
  integer_value 0 MAX_SAFE_INTEGER (prop fs "start") ∧ integer_value 0 MAX_SAFE_INTEGER (prop fs "end")).
Definition bool_value (v : value) : Prop := ∃ b, v = VBool b.

(** What each argument is, where it is present. *)
Definition ARG_TYPES `{Engine} (op : Opcode) : list (string * (value → Prop)) :=
  [("workspace", ref_value ref_workspace); ("path", text_value None); ("from", text_value None); ("to", text_value None);
   ("content", if decide (op = artifact_put) then text_value None else ref_value ref_artifact);
   ("patch", ref_value ref_artifact); ("artifact", ref_value ref_artifact); ("process", ref_value ref_process);
   ("snapshot", ref_value ref_snapshot); ("transaction", ref_value ref_transaction); ("lease", ref_value ref_lease);
   ("resumeToken", ref_value ref_resume); ("cursor", ref_value ref_cursor); ("range", range_value);
   ("roots", texts_value 64 None); ("paths", texts_value 64 None); ("depth", integer_value 0 128);
   ("intervalMs", integer_value 1 3600000); ("timeoutMs", integer_value 0 315360000000);
   ("graceMs", integer_value 0 315360000000); ("ttlMs", integer_value 0 315360000000);
   ("maxBytes", integer_value 1 (10 * 1024 * 1024));
   ("stdio", word_value ["capture"; "inherit"; "ignore"; "stream"]); ("argv", texts_value 256 None);
   ("signals", texts_value 8 (Some signal_regex)); ("env", entries_value 256 (text_value None));
   ("secretEnv", entries_value 64 (ref_value ref_secret)); ("recursive", bool_value);
   ("expectedHash", text_value (Some sha256_regex)); ("label", text_value None); ("mediaType", text_value None);
   ("sensitivity", word_value ["public"; "internal"; "secret"]);
   ("decision", word_value ["succeeded"; "failed"; "rolled_back"; "partial"]);
   ("program", text_value None); ("instruction", text_value None)].
(** The arguments of [op]: the fields it asks for and no other, of their types; a call
    that looks for a target names one. *)
Record args_ok `{Engine} (op : Opcode) (args : fields) : Prop := {
  ao_keys : args.*1 ⊆ (ARG_RULES op).2;
  ao_required k : k ∈ (ARG_RULES op).1 → has_own args k = true;
  ao_typed k T : (k, T) ∈ ARG_TYPES op → prop args k ≠ VUndef → T (prop args k);
  ao_target : op = control_status ∨ op = control_cancel →
    ∃ k, k ∈ ["program"; "instruction"; "lease"] ∧ prop args k ≠ VUndef;
}.

Section CleanTypes.
Context `{Engine}.
Lemma typed_string v path pattern r : clean (stringField v path pattern) r → text_value pattern v.
Proof. intros (s & -> & _ & Hp)%clean_stringField. by exists s. Qed.
Lemma typed_integer v path lo hi u : clean (integerField v path lo hi) u → integer_value lo hi v.
Proof.
  unfold integerField. destruct (safe_integer v) as [z|] eqn:Hz; intros Hc; [|by exfalso; eapply clean_addIssue].
  apply clean_issue_if, orb_false_iff in Hc as [?%bool_decide_eq_false ?%bool_decide_eq_false]. exists z.
  split; [done|lia].
Qed.
Lemma in_imap_items {A} (l : list A) x : x ∈ l → ∃ i, (i, x) ∈ imap pair l.
Proof.
  intros (i & Hi)%list_elem_of_lookup. exists i. apply list_elem_of_lookup. exists i. by rewrite list_lookup_imap Hi.
Qed.
Lemma typed_strings v path n pattern u : clean (stringArray v path n pattern) u → texts_value n pattern v.
Proof.
  unfold stringArray. destruct v as [| | | | |l|]; intros Hc; try by exfalso; eapply clean_addIssue.
  inv_clean Hc. apply clean_issue_if, Nat.ltb_ge in Hm. exists l. split_and!; [done|done|].
  intros y (i & Hx)%in_imap_items. eapply clean_for_each in Hc; [|intros []; respects_tac|exact Hx].
  cbv beta iota in Hc. inv_clean Hc. by eapply typed_string.
Qed.
Lemma typed_word v allowed path u : clean (enumField v allowed path) u → word_value allowed v.
Proof.
  unfold enumField. intros Hc. inv_clean Hc. apply clean_lift in Hm. exists x. split; [done|].
  by apply clean_issue_if, negb_false_iff, js_has_spec in Hc.
Qed.
Lemma typed_string_map v path n u : clean (validateStringMap v path n) u → entries_value n (text_value None) v.
Proof.
  unfold validateStringMap. destruct v as [| | | | | |fs]; intros Hc; try by exfalso; eapply clean_addIssue.
  inv_clean Hc. apply clean_issue_if, Nat.ltb_ge in Hm. exists fs. split_and!; [done..|].
  intros k Hk. eapply clean_for_each in Hc; [|intros; respects_tac|exact Hk]. inv_clean Hc.
  apply clean_issue_if, negb_false_iff in Hm0. split; [done|by eapply typed_string].
Qed.
Lemma typed_ref_map v path kind n u : clean (validateRefMap v path kind n) u → entries_value n (ref_value kind) v.
Proof.
  unfold validateRefMap. destruct v as [| | | | | |fs]; intros Hc; try by exfalso; eapply clean_addIssue.
  inv_clean Hc. apply clean_issue_if, Nat.ltb_ge in Hm. exists fs. split_and!; [done..|].
  intros k Hk. eapply clean_for_each in Hc; [|intros; respects_tac|exact Hk]. inv_clean Hc.
  apply clean_issue_if, negb_false_iff in Hm0. split; [done|by eapply typed_string].
Qed.
Lemma typed_range v path u : clean (validateRange v path) u → range_value v.
Proof.
  unfold validateRange. destruct v as [| | | | | |fs]; intros Hc; try by exfalso; eapply clean_addIssue.
  inv_clean Hc. exists fs. split_and!; [done|split; [by eapply clean_checkKeys|by eapply clean_required]| |];
    by eapply typed_integer.
Qed.
Lemma typed_bool v path u :
  clean (match v with VBool _ => mret tt | _ => addIssue invalid_type path end) u → bool_value v.
Proof. destruct v as [|b| | | | |]; intros Hc; try by exfalso; eapply clean_addIssue. by exists b. Qed.
Lemma clean_present args path keys check u : (∀ x p, grows (check x p)) →
  clean (present args path keys check) u → ∀ k, k ∈ keys → prop args k ≠ VUndef →
  clean (check (prop args k) (dot path k)) tt.
Proof.
  unfold present. intros Hg Hc k Hk Hp. eapply clean_for_each in Hc; [|intros; respects_tac|exact Hk].
  eapply clean_when; [exact Hc|]. by destruct (prop args k).
Qed.
Lemma clean_present_string args path keys pattern u :
  clean (present_string args path keys pattern) u → ∀ k, k ∈ keys → prop args k ≠ VUndef →
  text_value pattern (prop args k).
Proof.
  intros Hc k Hk Hp. eapply clean_present in Hc; [|intros; respects_tac|exact Hk|done]. inv_clean Hc.
  by eapply typed_string.
Qed.
End CleanTypes.

(** A precondition, on an instruction among [ids] if on one. *)
Inductive precondition_ok `{Engine} (ids : list string) (fs : fields) : Prop :=
| pre_file_hash : prop fs "kind" = VStr "file_hash" → fields_exactly ["kind"; "path"; "sha256"] fs →
    text_value None (prop fs "path") → text_value (Some sha256_regex) (prop fs "sha256") → precondition_ok ids fs
| pre_artifact_hash : prop fs "kind" = VStr "artifact_hash" → fields_exactly ["kind"; "artifact"; "sha256"] fs →
    ref_value ref_artifact (prop fs "artifact") → text_value (Some sha256_regex) (prop fs "sha256") →
    precondition_ok ids fs
| pre_instruction_status i : prop fs "kind" = VStr "instruction_status" →
    fields_exactly ["kind"; "instruction"; "status"] fs → prop fs "instruction" = VStr i → i ∈ ids →
    word_value ["admitted"; "succeeded"; "failed"; "indeterminate"; "cancelled"; "rolled_back"; "partial"]
      (prop fs "status") → precondition_ok ids fs
| pre_workspace_revision : prop fs "kind" = VStr "workspace_revision" →
    fields_exactly ["kind"; "workspace"; "revision"] fs → ref_value ref_workspace (prop fs "workspace") →
    text_value None (prop fs "revision") → precondition_ok ids fs.
Definition preconditions_value `{Engine} (ids : list string) (v : value) : Prop :=
  ∃ l, v = VArr l ∧ length l ≤ MAX_PRECONDITIONS ∧ ∀ c, c ∈ l → record_value (precondition_ok ids) c.

(** ** Instructions *)

Definition op_id_of (p : ParsedInstruction) : option string :=
  match prop (pi_value p) "opId" with VStr o => Some o | _ => None end.

Definition output_of (p : ParsedInstruction) : option string :=
  match prop (pi_value p) "output" with VStr o => Some o | _ => None end.

(** An instruction on its own; [ids] are those its preconditions may name. *)
Record instruction_ok `{Engine} (ids : list string) (p : ParsedInstruction) : Prop := {
  io_keys : (pi_value p).*1 ⊆ INSTRUCTION_KEYS;
  io_required k : k ∈ take 6 INSTRUCTION_KEYS → has_own (pi_value p) k = true;
  io_id s : prop (pi_value p) "id" = VStr s → ID_PATTERN s = true;
  io_op : prop (pi_value p) "op" = VStr (opcode_name (pi_op p));
  io_args : ∃ args, pi_args p = VObj args ∧ args_ok (pi_op p) args;
  io_preconditions : preconditions_value ids (prop (pi_value p) "precondition");
  io_output s : prop (pi_value p) "output" = VStr s → ID_PATTERN s = true;
  io_deps : prop (pi_value p) "dependsOn" = VArr (map VStr (pi_dependsOn p)) ∧
    NoDup (pi_dependsOn p) ∧ length (pi_dependsOn p) ≤ MAX_DEPENDENCIES ∧
    Forall (λ d, ID_PATTERN d = true) (pi_dependsOn p);
  io_opId : match prop (pi_value p) "opId" with
            | VUndef => requires_op_id (pi_op p) = false
            | VStr o => OP_ID_PATTERN o = true
            | _ => False
            end;
}.

(** What the walk over the instructions has established after [done]. *)
Record scan_ok `{Engine} (ids : list string) (done : list (nat * value)) (scan : Scan) : Prop := {
  so_parsed : map snd done = map (λ p, VObj (pi_value p)) (scan_parsed scan);
  so_each : Forall (instruction_ok ids) (scan_parsed scan);
  so_named : Forall2 (λ e p, pi_id p = instruction_id e.1 (pi_value p)) done (scan_parsed scan);
  so_ids : scan_ids scan = map pi_id (scan_parsed scan);
  so_distinct : NoDup (map pi_id (scan_parsed scan));
  so_opIds : scan_opIds scan = omap op_id_of (scan_parsed scan);
  so_opIds_distinct : NoDup (omap op_id_of (scan_parsed scan));
  so_outputs : scan_outputs scan = omap output_of (scan_parsed scan);
  so_outputs_distinct : NoDup (omap output_of (scan_parsed scan));
}.

Lemma lookupOpcode_Some v op : lookupOpcode v = Some op → v = VStr (opcode_name op).
Proof.
  destruct v; try done. intros [_ Hn]%find_some. by apply bool_decide_eq_true in Hn as ->.
Qed.

Section CleanInstruction.
Context `{Engine}.

(** The check that found nothing about the argument at hand. *)
Ltac in_keys := by repeat (apply elem_of_cons; (left; reflexivity) || right).
Ltac typed_arg :=
  lazymatch goal with |- ?T (prop _ ?k) =>
    match goal with
    | H : clean (present_string _ _ ?keys ?p) _ |- _ =>
        lazymatch keys with context [k] => refine (clean_present_string _ _ _ _ _ H k _ _); [in_keys|assumption] end
    | H : clean (present _ _ ?keys ?check) _ |- _ =>
        lazymatch keys with context [k] =>
          let Hk := fresh in
          pose proof (λ Hg, clean_present _ _ keys check _ Hg H k) as Hk; cbv beta in Hk;
          (first [eapply typed_integer, Hk | eapply typed_strings, Hk | eapply typed_word, Hk | eapply typed_range, Hk
                 | eapply typed_string_map, Hk | eapply typed_ref_map, Hk]);
          [intros; respects_tac|in_keys|assumption]
        end
    end
  end.
Lemma clean_validateArgs op v path u :
  clean (validateArgs op v path) u → ∃ args, v = VObj args ∧ args_ok op args.
Proof.
  unfold validateArgs. destruct v as [| | | | | |args]; intros Hc;
    try by exfalso; eapply clean_addIssue.
  exists args. split; [done|]. destruct u. unfold present_ref in Hc.
  match type of Hc with clean ?m _ => eassert (clean_steps m _) as [_ Hall] by each_step end.
  specialize (Hall Hc). clear Hc. split.
  - destruct Hall as (Hk & _). by eapply clean_checkKeys.
  - destruct Hall as (_ & Hr & _). by eapply clean_required.
  - intros k T Hk Hp.
    repeat match type of Hall with _ ∧ _ => let Hm := fresh "Hm" in destruct Hall as [Hm Hall] end.
    repeat (apply elem_of_cons in Hk as [[= -> ->]|Hk]; [shelve|]). by apply elem_of_nil in Hk.
    Unshelve. all: unfold ref_value; try typed_arg.
    + destruct (decide (op = artifact_put)) as [Ho|Ho].
      * rewrite (bool_decide_true (op = artifact_put)) //= in Hm26. typed_arg.
      * rewrite (bool_decide_false (op = artifact_put)) //= in Hm3. typed_arg.
    + pose proof (λ Hg, clean_present _ _ _ _ _ Hg Hm23 "recursive") as Hb. cbv beta in Hb.
      eapply typed_bool, Hb; [intros; respects_tac|in_keys|done].
  - intros Ho. repeat match type of Hall with _ ∧ _ => destruct Hall as [_ Hall] end.
    apply clean_issue_if in Hall. assert (bool_decide (op = control_status) || bool_decide (op = control_cancel) = true) as Hb
      by (by rewrite orb_true_iff !bool_decide_eq_true). rewrite Hb /= in Hall.
    assert (∀ k, absent (prop args k) = false → prop args k ≠ VUndef) as Hp by (intros k; by destruct (prop args k)).
    apply andb_false_iff in Hall as [[Hc|Hc]%andb_false_iff|Hc]; apply Hp in Hc; eexists; (split; [|exact Hc]); in_keys.
Qed.

(** *** Preconditions *)

Lemma clean_keyed fs keys path u : clean (checkKeys fs keys path;; required fs keys path) u → fields_exactly keys fs.
Proof. intros Hc. inv_clean Hc. split; [by eapply clean_checkKeys|by eapply clean_required]. Qed.
Lemma clean_validatePrecondition v path ids u :
  clean (validatePrecondition v path ids) u → record_value (precondition_ok ids) v.
Proof.
  unfold validatePrecondition. destruct v as [| | | | | |fs]; intros Hc; try by exfalso; eapply clean_addIssue.
  exists fs. split; [done|]. destruct (prop fs "kind") as [| | | |kind| |] eqn:Hk; try by exfalso; eapply clean_addIssue.
  case_bool_decide as H1; [|case_bool_decide as H2; [|case_bool_decide as H3; [|case_bool_decide as H4;
    [|by exfalso; eapply clean_addIssue]]]]; subst kind; inv_clean_step Hc; apply clean_keyed in Hm.
  - inv_clean Hc. by apply pre_file_hash; [..|eapply typed_string|eapply typed_string].
  - inv_clean Hc. by apply pre_artifact_hash; [..|eapply typed_string|eapply typed_string].
  - inv_clean Hc. apply clean_stringField in Hm0 as (i & Hi & -> & Hid).
    apply clean_issue_if, negb_false_iff, js_has_spec in Hm1.
    by eapply (pre_instruction_status _ _ i); [..|eapply typed_word].
  - inv_clean Hc. by apply pre_workspace_revision; [..|eapply typed_string|eapply typed_string].
Qed.
Lemma clean_checkPreconditions v path ids u :
  clean (checkPreconditions v path ids) u → preconditions_value ids v.
Proof.
  unfold checkPreconditions. destruct v as [| | | | |l|]; intros Hc; try by exfalso; eapply clean_addIssue.
  inv_clean Hc. apply clean_issue_if, Nat.ltb_ge in Hm. exists l. split_and!; [done..|].
  intros c (i & Hi)%in_imap_items. eapply clean_for_each in Hc; [|intros []; respects_tac|exact Hi].
  cbv beta iota in Hc. by eapply clean_validatePrecondition.
Qed.
Lemma clean_checkOutput v path outputs outputs' : clean (checkOutput v path outputs) outputs' →
  (∃ o, v = VStr o ∧ ID_PATTERN o = true ∧ o ∉ outputs ∧ outputs' = outputs ++ [o]) ∨
  ((∀ o, v ≠ VStr o) ∧ outputs' = outputs).
Proof.
  unfold checkOutput. destruct v as [| | | |o| |]; intros Hc; try (right; by apply clean_ret in Hc as <-).
  left. inv_clean Hc. apply clean_ret in Hc as <-. apply clean_stringField in Hm as (? & [= <-] & _ & ?).
  apply clean_issue_if, js_has_false in Hm0. exists o. rewrite js_add_fresh //. by apply js_has_false.
Qed.

Lemma clean_checkOpId v op path opIds opIds' :
  clean (checkOpId v op path opIds) opIds' →
  (v = VUndef ∧ requires_op_id op = false ∧ opIds' = opIds) ∨
  (∃ o, v = VStr o ∧ OP_ID_PATTERN o = true ∧ o ∉ opIds ∧ opIds' = opIds ++ [o]).
Proof.
  unfold checkOpId. destruct (absent v) eqn:Ha; intros Hc; inv_clean_step Hc.
  - left. apply clean_issue_if in Hm. apply clean_ret in Hc as <-. by destruct v.
  - right. apply clean_stringField in Hm as (o & -> & -> & Ho). inv_clean_step Hc.
    apply clean_issue_if in Hm. apply clean_ret in Hc as <-. exists o.
    rewrite js_add_fresh //. by apply js_has_false in Hm.
Qed.

Lemma scan_step ids done scan entry scan' :
  scan_ok ids done scan → clean (checkInstruction ids scan entry) scan' →
  scan_ok ids (done ++ [entry]) scan'.
Proof.
  intros Hok. destruct entry as [index raw]. unfold checkInstruction.
  destruct raw as [| | | | | |v]; intros Hc; inv_clean Hc; try by exfalso; eapply clean_addIssue.
  destruct (lookupOpcode (prop v "op")) as [op|] eqn:Hop;
    [|inv_clean Hc; by exfalso; eapply clean_addIssue].
  inv_clean Hc. apply clean_ret in Hc as <-.
  apply clean_checkKeys in Hm. pose proof (clean_required _ _ _ _ Hm0) as Hreq.
  apply clean_issue_if, js_has_false in Hm2. apply clean_validateArgs in Hm3.
  apply clean_checkDependencies in Hm4 as (ds & Hds & Hnd & Hlen & Hids).
  set (p := mkParsed v op (instruction_id index v)).
  assert (pi_dependsOn p = ds) as Edeps.
  { unfold pi_dependsOn. simpl. by rewrite Hds /= strings_of_map. }
  destruct Hok. rewrite so_ids0 in Hm2.
  apply clean_checkPreconditions in Hm5. apply clean_checkOutput in Hm6.
  assert (instruction_ok ids p) as Hp.
  { split; rewrite ?Edeps; try done; [|by apply lookupOpcode_Some| |]; simpl.
    { intros s Hs. rewrite Hs in Hm1.
      apply clean_bind in Hm1 as (? & Hs1 & _); [|intros; respects_tac].
      by apply clean_stringField in Hs1 as (? & [= <-] & _ & ?). }
    { intros s Hs. destruct Hm6 as [(o & Ho & ? & _)|(Hno & _)]; [by rewrite Hs in Ho; injection Ho as ->|].
      by destruct (Hno s). }
    apply clean_checkOpId in Hm7 as [(-> & ? & _)|(o & -> & ? & _)]; done. }
  assert (omap op_id_of (scan_parsed scan ++ [p]) = x7 ∧ NoDup x7) as [Eop Hndop].
  { rewrite omap_app -so_opIds0.
    apply clean_checkOpId in Hm7 as [(Hv & _ & ->)|(o & Hv & _ & Ho & ->)].
    - replace (omap op_id_of [p]) with (@nil string) by (simpl; unfold op_id_of; by rewrite /= Hv).
      by rewrite app_nil_r so_opIds0.
    - replace (omap op_id_of [p]) with [o] by (simpl; unfold op_id_of; by rewrite /= Hv).
      split; [done|]. apply NoDup_snoc; [by rewrite so_opIds0|done]. }
  assert (omap output_of (scan_parsed scan ++ [p]) = x6 ∧ NoDup x6) as [Eout Hndout].
  { rewrite omap_app -so_outputs0. destruct Hm6 as [(o & Hv & _ & Ho & ->)|(Hno & ->)].
    - replace (omap output_of [p]) with [o] by (simpl; unfold output_of; by rewrite /= Hv).
      split; [done|]. apply NoDup_snoc; [by rewrite so_outputs0|done].
    - replace (omap output_of [p]) with (@nil string); [by rewrite app_nil_r so_outputs0|].
      simpl. unfold output_of. simpl. destruct (prop v "output") as [| | | |o| |]; try done. by destruct (Hno o). }
  split; simpl.
  - rewrite !map_app so_parsed0. done.
  - apply Forall_app. by split; [|constructor].
  - apply Forall2_app; [done|]. by repeat constructor.
  - rewrite map_app -so_ids0 js_add_fresh //. by rewrite js_has_false so_ids0.
  - rewrite map_app. by apply NoDup_snoc.
  - done.
  - by rewrite Eop.
  - done.
  - by rewrite Eout.
Qed.

Lemma clean_scan ids raws scan :
  clean (fold_each (checkInstruction ids) (imap pair raws) (mkScan [] [] [] [])) scan →
  scan_ok ids (imap pair raws) scan.
Proof.
  apply (clean_fold_each (scan_ok ids)); [auto with xio|intros; by eapply scan_step|].
  by split; simpl; try constructor.
Qed.
End CleanInstruction.

(** ** Programs *)

(** Instruction [a] lists [b] as a dependency. *)
Definition depends (parsed : list ParsedInstruction) (a b : string) : Prop :=
  ∃ p, p ∈ parsed ∧ pi_id p = a ∧ b ∈ pi_dependsOn p.

(** [options], where a program has them. *)
Definition options_value `{Engine} : value → Prop := record_value (λ fs, fs.*1 ⊆ OPTIONS_KEYS ∧
  (prop fs "wait" ≠ VUndef → word_value ["until_terminal"; "until_admitted"; "return_cursor"] (prop fs "wait")) ∧
  (prop fs "maxOutputBytes" ≠ VUndef → integer_value 0 (100 * 1024 * 1024) (prop fs "maxOutputBytes")) ∧
  (prop fs "eventCursor" ≠ VUndef → prop fs "eventCursor" = VNull ∨
     text_value (Some EVENT_CURSOR_PATTERN) (prop fs "eventCursor"))).

Record well_formed `{Engine} (program : fields) (parsed : list ParsedInstruction) : Prop := {
  wf_instructions : prop program "instructions" = VArr (map (λ p, VObj (pi_value p)) parsed);
  wf_count : 1 ≤ length parsed ≤ MAX_INSTRUCTIONS;
  wf_named : Forall2 (λ e p, pi_id p = instruction_id e.1 (pi_value p))
    (imap pair (array_items (prop program "instructions"))) parsed;
  wf_ids : NoDup (map pi_id parsed);
  wf_opIds : NoDup (omap op_id_of parsed);
  wf_outputs : NoDup (omap output_of parsed);
  wf_each : Forall (instruction_ok (map pi_id parsed)) parsed;
  wf_declared a b : depends parsed a b → b ∈ map pi_id parsed;
  wf_target p args i : p ∈ parsed → pi_args p = VObj args → prop args "instruction" = VStr i → i ∈ map pi_id parsed;
  wf_program p args name : p ∈ parsed → pi_args p = VObj args → prop args "program" = VStr name →
    prop program "programId" = VStr name;
  wf_acyclic a : ¬ tc (depends parsed) a a;
  wf_grounded a : Acc (flip (depends parsed)) a;
  wf_requestId : ∃ s, prop program "requestId" = VStr s ∧ ID_PATTERN s = true;
  wf_programId : ∃ s, prop program "programId" = VStr s ∧ ID_PATTERN s = true;
  wf_keys : program.*1 ⊆ PROGRAM_KEYS;
  wf_isa : text_value (Some ISA_PATTERN) (prop program "isa");
  wf_mode : word_value ["plan"; "transaction"; "pipeline"] (prop program "mode");
  wf_capability : prop program "capability" ≠ VUndef → ref_value ref_capability (prop program "capability");
  wf_workspace : prop program "workspace" ≠ VUndef → ref_value ref_workspace (prop program "workspace");
  wf_options : prop program "options" ≠ VUndef → options_value (prop program "options");
}.

Lemma graph_ids parsed : (map (λ p, (pi_id p, pi_dependsOn p)) parsed).*1 = map pi_id parsed.
Proof. induction parsed as [|p parsed IH]; [done|exact (f_equal (cons (pi_id p)) IH)]. Qed.
Lemma graph_of_distinct parsed :
  NoDup (map pi_id parsed) →
  dependencyGraph parsed = map (λ p, (pi_id p, pi_dependsOn p)) parsed.
Proof.
  induction parsed as [|p parsed IH] using rev_ind; [done|].
  rewrite map_app => /NoDup_app [Hnd [Hdis _]]. unfold dependencyGraph in *.
  rewrite foldl_snoc IH // map_app. apply jm_set_fresh.
  rewrite graph_ids. set_solver.
Qed.

Lemma edge_depends parsed a b :
  NoDup (map pi_id parsed) →
  edge (dependencyGraph parsed) a b ↔ depends parsed a b ∧ b ∈ map pi_id parsed.
Proof.
  intros Hnd. rewrite graph_of_distinct //. unfold edge. setoid_rewrite jm_has_in.
  rewrite graph_ids. split.
  - intros (ds & Hds%jm_get_in & Hb & Hg). split; [|done].
    apply list_elem_of_In, in_map_iff in Hds as (p & [= <- <-] & Hp%list_elem_of_In). by exists p.
  - intros [(p & Hp & <- & Hb) Hg]. exists (pi_dependsOn p). split_and!; [|done|done].
    apply jm_in_get.
    + unfold jm_ok. by rewrite graph_ids.
    + apply list_elem_of_In, in_map_iff. exists p. by split; [|apply list_elem_of_In].
Qed.

Section CleanProgram.
Context `{Engine}.
Lemma clean_validateOptions v u : clean (validateOptions v) u → options_value v.
Proof.
  unfold validateOptions. destruct v as [| | | | | |fs]; intros Hc; try by exfalso; eapply clean_addIssue.
  inv_clean Hc. exists fs. split; [done|]. split_and!.
  - by eapply clean_checkKeys.
  - intros Hp. eapply clean_present in Hm0; [|intros; respects_tac|by apply list_elem_of_singleton|exact Hp].
    by eapply typed_word.
  - intros Hp. eapply clean_present in Hm1; [|intros; respects_tac|by apply list_elem_of_singleton|exact Hp].
    by eapply typed_integer.
  - intros Hp. eapply clean_present in Hc; [|intros [] ?; respects_tac|by apply list_elem_of_singleton|exact Hp].
    cbv beta in Hc. destruct (prop fs "eventCursor"); try (by left); right; inv_clean Hc; by eapply typed_string.
Qed.
Lemma clean_ref_when v path kind u : clean (when (negb (absent v)) (refField v path kind;; mret tt)) u →
  v ≠ VUndef → ref_value kind v.
Proof.
  intros Hc Hv. apply clean_when in Hc; [|by destruct v]. inv_clean Hc. by eapply typed_string.
Qed.
Lemma clean_negotiateIsa v options isa : clean (negotiateIsa v options) isa → text_value (Some ISA_PATTERN) v.
Proof. unfold negotiateIsa. intros Hc. inv_clean_step Hc. by eapply typed_string. Qed.

(** What the references of one instruction are checked against. *)
Lemma clean_checkReferences program ids i p u : clean (checkReferences program ids (i, p)) u →
  (∀ d, d ∈ pi_dependsOn p → d ∈ ids) ∧
  ∀ args, pi_args p = VObj args →
    (∀ i, prop args "instruction" = VStr i → i ∈ ids) ∧
    (∀ name, prop args "program" = VStr name → prop program "programId" = VStr name).
Proof.
  unfold checkReferences. intros Hc. inv_clean_step Hc. split.
  - intros d Hd. eapply clean_for_each in Hm; [|intros; respects_tac|exact Hd].
    by apply clean_issue_if, negb_false_iff, js_has_spec in Hm.
  - intros args Hargs. rewrite Hargs in Hc. inv_clean Hc. apply clean_issue_if in Hm0, Hc. split.
    + intros j Hj. rewrite Hj in Hm0. by apply negb_false_iff, js_has_spec in Hm0.
    + intros name Hn. rewrite Hn in Hc. destruct (prop program "programId"); try done.
      by apply negb_false_iff, bool_decide_eq_true in Hc as ->.
Qed.
End CleanProgram.

(** The checks of a program, passed one by one. *)
Section Admission.
Context `{Engine} (frames : nat) (options : ValidateProgramOptions).

Record passed (program : fields) (isa : option string) (scan : Scan) (resources : ResourceEstimate)
    (precheck : CapabilityPrecheck) : Prop := {
  ps_encoding : clean (checkEncoding (VObj program)) tt;
  ps_keys : program.*1 ⊆ PROGRAM_KEYS;
  ps_isa : clean (negotiateIsa (prop program "isa") options) isa;
  ps_requestId : ∃ s, prop program "requestId" = VStr s ∧ ID_PATTERN s = true;
  ps_programId : ∃ s, prop program "programId" = VStr s ∧ ID_PATTERN s = true;
  ps_mode : clean (enumField (prop program "mode") ["plan"; "transaction"; "pipeline"] "mode") tt;
  ps_array : prop program "instructions" = VArr (array_items (prop program "instructions"));
  ps_count : 1 ≤ length (array_items (prop program "instructions")) ≤ MAX_INSTRUCTIONS;
  ps_scan : scan_ok (declared_ids (array_items (prop program "instructions")))
    (imap pair (array_items (prop program "instructions"))) scan;
  ps_capabilityRef : prop program "capability" ≠ VUndef → ref_value ref_capability (prop program "capability");
  ps_workspace : prop program "workspace" ≠ VUndef → ref_value ref_workspace (prop program "workspace");
  ps_options : prop program "options" ≠ VUndef → options_value (prop program "options");
  ps_references : ∀ e, e ∈ imap pair (scan_parsed scan) →
    clean (checkReferences program (scan_ids scan) e) tt;
  ps_acyclic : clean (detectCycles frames (scan_parsed scan)) tt;
  ps_resources : resources = buildResources (scan_parsed scan);
  ps_capability : clean (checkCapability program (scan_parsed scan) resources options) precheck;
}.

Lemma checkProgram_passed program isa scan resources precheck :
  clean (checkProgram frames options program) (isa, scan, resources, precheck) →
  passed program isa scan resources precheck.
Proof.
  unfold checkProgram. intros Hc. inv_clean Hc.
  apply clean_ret in Hc as [= -> -> <- ->].
  repeat match goal with u : unit |- _ => destruct u end.
  apply clean_issue_if, Nat.eqb_neq in Hm10. apply clean_issue_if, Nat.ltb_ge in Hm11.
  split; try done.
  - by eapply clean_checkKeys.
  - apply clean_stringField in Hm3 as (s & ? & _ & ?); eauto.
  - apply clean_stringField in Hm4 as (s & ? & _ & ?); eauto.
  - destruct (prop program "instructions"); try by exfalso; eapply clean_addIssue. done.
  - lia.
  - by eapply clean_scan.
  - by eapply clean_ref_when.
  - by eapply clean_ref_when.
  - intros Hp. apply clean_when in Hm8; [by eapply clean_validateOptions|]. by destruct (prop program "options").
  - intros e He. eapply clean_for_each in Hm13; [exact Hm13|auto with xio|done].
Qed.

Lemma validateProgram_passed input program plan :
  validateProgram frames options input = Ok (ValidationSuccess program plan) →
  input = VObj program ∧ ∃ isa scan resources precheck,
    passed program (Some isa) scan resources precheck ∧
    plan = {| plan_negotiatedIsa := isa; plan_instructions := map planned (scan_parsed scan);
              plan_dependencies := dependencyGraph (scan_parsed scan);
              plan_resources := resources; plan_capabilityPrecheck := precheck |}.
Proof.
  unfold validateProgram. destruct input as [| | | | | |fs]; try done.
  destruct (checkProgram frames options fs []) as [[[[[[isa|] scan] resources] precheck]|e] [|]] eqn:Hrun;
    try done.
  intros [= <- <-]. split; [done|]. exists isa, scan, resources, precheck.
  by split; [apply checkProgram_passed|].
Qed.

Lemma passed_references program isa scan resources precheck p :
  passed program isa scan resources precheck → p ∈ scan_parsed scan →
  ∃ i, clean (checkReferences program (map pi_id (scan_parsed scan)) (i, p)) tt.
Proof.
  intros Hp (i & Hi)%in_imap_items. exists i. rewrite -(so_ids _ _ _ (ps_scan _ _ _ _ _ Hp)).
  by apply (ps_references _ _ _ _ _ Hp).
Qed.
Lemma declared_dependencies program isa scan resources precheck a b :
  passed program isa scan resources precheck →
  depends (scan_parsed scan) a b → b ∈ map pi_id (scan_parsed scan).
Proof.
  intros Hp (p & Hin & _ & Hb). destruct (passed_references _ _ _ _ _ _ Hp Hin) as (i & Hc).
  apply clean_checkReferences in Hc as [Hd _]. by apply Hd.
Qed.

Lemma grounded_dependencies program isa scan resources precheck a :
  passed program isa scan resources precheck → length (scan_parsed scan) < frames →
  Acc (flip (depends (scan_parsed scan))) a.
Proof.
  intros Hp Hlt. pose proof (ps_acyclic _ _ _ _ _ Hp) as Hc.
  destruct (detectCycles_correct frames (scan_parsed scan) Hlt) as (l & Hrun & Hac).
  unfold clean in Hc. rewrite Hc in Hrun. injection Hrun as <-.
  pose proof (acyclic_Acc _ a (proj1 Hac eq_refl)) as Ha.
  induction Ha as [x _ IH]. constructor. intros y Hy. apply IH. apply edge_depends.
  - apply (ps_scan _ _ _ _ _ Hp).
  - split; [done|by eapply declared_dependencies].
Qed.
End Admission.

(** ** The admitted program *)

Section Theorems.
Context `{Engine}.

Lemma parsed_length program isa scan resources precheck frames options :
  passed frames options program isa scan resources precheck →
  length (scan_parsed scan) = length (array_items (prop program "instructions")).
Proof.
  intros Hp. pose proof (f_equal length (so_parsed _ _ _ (ps_scan _ _ _ _ _ _ _ Hp))) as Hl.
  by rewrite !length_map length_imap in Hl.
Qed.

(** The ids that preconditions may name are ids of instructions. *)
Lemma declared_are_ids program isa scan resources precheck frames options id :
  passed frames options program isa scan resources precheck →
  id ∈ declared_ids (array_items (prop program "instructions")) → id ∈ map pi_id (scan_parsed scan).
Proof.
  intros Hp Hid. pose proof (ps_scan _ _ _ _ _ _ _ Hp) as [Hraw _ Hnamed _ _ _ _ _ _]. rewrite imap_pair_snd in Hraw.
  unfold declared_ids, js_set in Hid. apply elem_of_foldl_js_add in Hid as [Hid|Hid]; [by apply elem_of_nil in Hid|].
  apply list_elem_of_omap in Hid as (v & Hv & Hid). apply list_elem_of_lookup in Hv as [i Hi].
  assert (∃ p, scan_parsed scan !! i = Some p ∧ v = VObj (pi_value p)) as (p & Hpi & ->).
  { rewrite Hraw list_lookup_fmap in Hi. destruct (scan_parsed scan !! i) as [p|]; [|done]. injection Hi as <-. by exists p. }
  assert (pi_id p = instruction_id i (pi_value p)) as Hname.
  { destruct (Forall2_lookup_r _ _ _ _ _ Hnamed Hpi) as ([j e] & He & ->).
    rewrite list_lookup_imap in He. destruct (array_items _ !! i); [|done]. by injection He as <- _. }
  destruct (prop (pi_value p) "id") as [| | | |s| |] eqn:Hs; try done. destruct (ID_PATTERN s) eqn:Hpat; [|done].
  injection Hid as <-. unfold instruction_id in Hname. rewrite Hs Hpat in Hname. rewrite -Hname.
  apply list_elem_of_In, in_map, list_elem_of_In. by eapply list_elem_of_lookup_2.
Qed.
Lemma instruction_ok_more ids ids' p : ids ⊆ ids' → instruction_ok ids p → instruction_ok ids' p.
Proof.
  intros Hs [H1 H2 H3 H4 H5 (l & Hl & Hn & Hall) H7 H8 H9]. split; try done. exists l. split_and!; [done..|].
  intros c Hc. destruct (Hall c Hc) as (fs & -> & Hfs). exists fs. split; [done|].
  destruct Hfs; [by apply pre_file_hash|by apply pre_artifact_hash|eapply pre_instruction_status; eauto|by apply pre_workspace_revision].
Qed.

Lemma passed_well_formed program isa scan resources precheck frames options :
  passed frames options program isa scan resources precheck → MAX_INSTRUCTIONS < frames →
  well_formed program (scan_parsed scan).
Proof.
  intros Hp Hlt. pose proof (parsed_length _ _ _ _ _ _ _ Hp) as Hlen.
  pose proof Hp as []. pose proof ps_scan0 as []. rewrite imap_pair_snd in so_parsed0.
  split; try assumption.
  - by rewrite ps_array0 so_parsed0.
  - by rewrite Hlen.
  - eapply Forall_impl; [exact so_each0|]. intros p. apply instruction_ok_more.
    intros id. by eapply declared_are_ids.
  - intros a b. by eapply declared_dependencies.
  - intros p args i Hin Hargs Hi. destruct (passed_references _ _ _ _ _ _ _ _ Hp Hin) as (k & Hc).
    apply clean_checkReferences in Hc as [_ Hc]. by apply (Hc args Hargs).
  - intros p args name Hin Hargs Hn. destruct (passed_references _ _ _ _ _ _ _ _ Hp Hin) as (k & Hc).
    apply clean_checkReferences in Hc as [_ Hc]. by apply (Hc args Hargs).
  - intros a. eapply Acc_acyclic, grounded_dependencies; [done|lia].
  - intros a. eapply grounded_dependencies; [done|lia].
  - by eapply clean_negotiateIsa.
  - by eapply typed_word.
Qed.


End Theorems.

(** ** A sample program: a snapshot, then a process, then its end *)

#[export] Instance sample_engine : Engine := mkEngine (λ _, "0.5") 65535 100.

Definition sample_instruction (id op : string) (args : fields) (deps : list string) (output : string)
    (opId : value) : value :=
  VObj [("id", VStr id); ("op", VStr op); ("args", VObj args);
        ("dependsOn", VArr (map VStr deps)); ("precondition", VArr []); ("output", VStr output);
        ("opId", opId)].
Definition sample_program : fields :=
  [("isa", VStr "xio/1"); ("requestId", VStr "request"); ("programId", VStr "program");
   ("mode", VStr "pipeline"); ("capability", VStr "cap:one");
   ("instructions", VArr
     [sample_instruction "wait" "proc.wait" [("process", VStr "process:p")] ["spawn"] "result"
        (VStr "op:wait");
      sample_instruction "spawn" "proc.spawn"
        [("argv", VArr [VStr "make"]); ("cwd", VStr "workspace:w"); ("stdio", VStr "capture")]
        ["snapshot"] "process" (VStr "op:spawn");
      sample_instruction "snapshot" "workspace.snapshot"
        [("label", VStr "before"); ("roots", VArr [VStr "src/a"])] [] "snap" (VStr "op:snapshot")])].
Definition sample_capability : IsaCapability := {|
  ic_id := "cap:one"; ic_issuer := "host"; ic_policyVersion := "1"; ic_reason := "build";
  ic_scope := mkIsaScope [workspace_snapshot; proc_spawn; proc_wait] ["workspace:w"] ["src/*"] [];
  ic_limits := mkIsaLimits 1000 1000 1000 4 1; ic_expiresAt := Iso 100; ic_parentId := None;
  ic_epoch := NFin (QArith_base.inject_Z 0) |}.
Definition sample_options : ValidateProgramOptions :=
  mkValidateOptions None (Some sample_capability) None 50 None.
Definition sample_plan : ValidationPlan :=
  match validateProgram 257 sample_options (VObj sample_program) with
  | Ok (ValidationSuccess _ plan) => plan
  | _ => mkPlan "" [] [] (buildResources []) pre_partial
  end.

Lemma sample_valid :
  validateProgram 257 sample_options (VObj sample_program)
  = Ok (ValidationSuccess sample_program sample_plan).
Proof. vm_compute. reflexivity. Qed.

