(* ===== verification/AdmissionSpec.v ===== *)
(** * AdmissionSpec: an admitted program stays within its capability, and admission returns

    What the precheck guarantees of every admitted instruction, when the
    validator answers at all, and the inputs on which it does not. *)

From S2P Require Import Prelude Types Events Isa Validator DependencySpec ValidatorSpec.

(** ** Within the capability *)

(** A string the instruction's arguments hold under one of [names], or in a list
    under one of [lists]. *)
Definition names_path (args : value) (path : string) : Prop :=
  (∃ k fs, k ∈ ["path"; "from"; "to"] ∧ args = VObj fs ∧ prop fs k = VStr path) ∨
  (∃ k fs l, k ∈ ["paths"; "roots"] ∧ args = VObj fs ∧ prop fs k = VArr l ∧ VStr path ∈ l).

(** What one instruction may do under the capability's scope. *)
Record in_scope (scope : IsaScope) (p : ParsedInstruction) : Prop := {
  in_opcode : pi_op p ∈ isc_opcodes scope;
  in_paths path : names_path (pi_args p) path →
    ∃ pattern, pattern ∈ isc_paths scope ∧ matchesPath pattern path = true;
  in_workspaces fs k w : pi_args p = VObj fs → k ∈ ["workspace"; "cwd"] → prop fs k = VStr w →
    w ∈ isc_workspaces scope;
  in_secrets fs entries name secret : pi_args p = VObj fs → prop fs "secretEnv" = VObj entries →
    (name, secret) ∈ entries → ∃ s, secret = VStr s ∧ s ∈ isc_secrets scope;
}.

Record within_capability (options : ValidateProgramOptions) (c : IsaCapability) (program : fields)
    (parsed : list ParsedInstruction) : Prop := {
  wc_named : prop program "capability" = VUndef ∨ prop program "capability" = VStr (ic_id c);
  wc_unexpired : ∃ t, getTime (ic_expiresAt c) = Some t ∧ (vo_now options < t)%Z;
  wc_epoch : ∃ z, safe_integer (VNum (ic_epoch c)) = Some z ∧ (0 ≤ z)%Z;
  wc_policyVersion : ic_policyVersion c ≠ "";
  wc_reason : ic_reason c ≠ "";
  wc_scope p : p ∈ parsed → in_scope (ic_scope c) p;
  wc_operations : (Z.of_nat (length parsed) ≤ lim_concurrentOps (ic_limits c))%Z;
  wc_processes :
    (Z.of_nat (length (List.filter (λ p, bool_decide (pi_op p = proc_spawn)) parsed))
     ≤ lim_processes (ic_limits c))%Z;
  wc_output fs n : prop program "options" = VObj fs → prop fs "maxOutputBytes" = VNum n →
    exceeds n (lim_outputBytes (ic_limits c)) = false;
  wc_available available p name : vo_availableCapabilities options = Some available → p ∈ parsed →
    name ∈ md_requiredCapabilities (ISA_V1_REGISTRY (pi_op p)) → name ∈ available;
}.

Lemma strings_of_in l s : VStr s ∈ l → s ∈ strings_of l.
Proof. intros Hin. apply list_elem_of_omap. by exists (VStr s). Qed.

Lemma read_props fs ks : map_outcome (read_prop (VObj fs)) ks = Ok (map (prop fs) ks).
Proof. induction ks as [|k ks IH]; [done|]. cbn [map_outcome]. by rewrite /= IH. Qed.
Definition record_paths (fs : fields) : list string :=
  strings_of (map (prop fs) ["path"; "from"; "to"]) ++
  (map (prop fs) ["paths"; "roots"] ≫= string_items).
Lemma spread_Ok `{Engine} {A} (l l' : list A) : spread l = Ok l' → l' = l.
Proof. unfold spread. destruct (_ <=? _)%Z; [|done]. by intros [= ->]. Qed.
Lemma spread_props `{Engine} fs ks : ∀ listed,
  map_outcome (λ key, v ← read_prop (VObj fs) key; spread (string_items v)) ks = Ok listed →
  listed = map (λ k, string_items (prop fs k)) ks.
Proof.
  induction ks as [|k ks IH]; cbn [map_outcome]; [by intros ? [= <-]|].
  intros listed (l & (v & [= <-] & ->%spread_Ok)%bind_Ok & (ls & ->%IH & [= <-])%bind_Ok)%bind_Ok. done.
Qed.
Lemma collect_record `{Engine} fs paths : collectInstructionPaths (VObj fs) = Ok paths → paths = record_paths fs.
Proof.
  unfold collectInstructionPaths. rewrite read_props.
  intros (named & [= <-] & (listed & ->%spread_props & [= <-])%bind_Ok)%bind_Ok. done.
Qed.
Lemma collect_paths `{Engine} args path paths :
  collectInstructionPaths args = Ok paths → names_path args path → path ∈ paths.
Proof.
  intros Hc [(k & fs & Hk & -> & Hp)|(k & fs & l & Hk & -> & Hp & Hin)];
    apply collect_record in Hc as ->; apply elem_of_app.
  - left. apply strings_of_in. rewrite -Hp. by apply list_elem_of_fmap_2.
  - right. apply list_elem_of_bind. exists (VArr l). split; [by apply strings_of_in|].
    rewrite -Hp. by apply list_elem_of_fmap_2.
Qed.

Section Capability.
Context `{Engine}.

Lemma clean_in_scope c p u :
  clean (checkInstructionCapability c p) u → in_scope (ic_scope c) p.
Proof.
  unfold checkInstructionCapability. intros Hc. inv_clean Hc.
  apply clean_issue_if, negb_false_iff, bool_decide_eq_true in Hm.
  apply clean_lift in Hm0. apply clean_lift in Hm3. split; [done| | |].
  - intros path Hpath. eapply clean_for_each in Hm1; [|intros; respects_tac|by eapply collect_paths].
    apply clean_issue_if, orb_false_iff in Hm1 as [_ Hm1%negb_false_iff].
    by apply existsb_In in Hm1.
  - intros fs k w Hargs Hk Hw. eapply clean_for_each in Hm2; [|intros; respects_tac|exact Hk].
    inv_clean_step Hm2. apply clean_lift in Hm4. rewrite Hargs /= in Hm4.
    injection Hm4 as <-. rewrite Hw in Hm2.
    apply clean_issue_if, orb_false_iff in Hm2 as [_ Hm2%negb_false_iff]. by apply js_has_spec.
  - intros fs entries name secret Hargs He Hin. rewrite Hargs /= He in Hm3. injection Hm3 as <-.
    eapply clean_for_each in Hc; [|intros []; respects_tac|exact Hin].
    apply clean_issue_if in Hc. destruct secret; try done. exists s.
    split; [done|]. by apply js_has_spec, negb_false_iff.
Qed.

Lemma clean_checkCapability program parsed options c precheck :
  vo_capability options = Some c →
  clean (checkCapability program parsed (buildResources parsed) options) precheck →
  within_capability options c program parsed.
Proof.
  unfold checkCapability. intros ->. intros Hc. inv_clean_step Hc. rename Hm into Hname.
  inv_clean_step Hc. rename Hm into Hexp. inv_clean_step Hc. rename Hm into Hepoch.
  inv_clean_step Hc. rename Hm into Hpol. inv_clean_step Hc. rename Hm into Hreason. inv_clean_step Hc. rename Hm into Hscope.
  inv_clean_step Hc. rename Hm into Hops. inv_clean_step Hc. rename Hm into Hprocs.
  inv_clean_step Hc. rename Hm into Hout.
  apply clean_issue_if in Hname, Hexp, Hepoch, Hpol, Hreason, Hops, Hprocs, Hout.
  apply negb_false_iff, negb_true_iff, bool_decide_eq_false in Hpol, Hreason.
  apply bool_decide_eq_false in Hops, Hprocs. cbn [re_instructionCount buildResources] in Hops.
  split; [| | |done|done| |lia|lia| |].
  - destruct (prop program "capability"); try done; [by left|right].
    by apply negb_false_iff, bool_decide_eq_true in Hname as ->.
  - destruct (getTime (ic_expiresAt c)) as [t|]; [|done]. exists t. split; [done|].
    apply bool_decide_eq_false in Hexp. lia.
  - destruct (safe_integer (VNum (ic_epoch c))) as [z|]; [|done]. exists z. split; [done|].
    apply bool_decide_eq_false in Hepoch. lia.
  - intros p Hp. eapply clean_in_scope, clean_for_each; [|exact Hscope|exact Hp]. auto with xio.
  - intros fs n Ho Hn. by rewrite Ho Hn in Hout.
  - intros available p name Hav Hp Hname'. rewrite Hav in Hc. inv_clean_step Hc.
    eapply clean_for_each in Hm; [|intros; respects_tac|].
    { by apply clean_issue_if, negb_false_iff, js_has_spec in Hm. }
    cbn [re_requiredCapabilities buildResources]. unfold sort_strings. rewrite merge_sort_Permutation. apply elem_of_js_set, list_elem_of_bind.
    by exists p.
Qed.

(** C8. Admission never exceeds the capability it was checked against: under a
    supplied capability, an admitted program names that capability or none; the
    capability has not expired, its epoch is a non-negative safe integer, and it has a
    policy version and a reason; every instruction's opcode is in its scope, and so
    are the paths, the workspaces and the secrets among the instruction's arguments;
    the program has no more instructions, process spawns or requested output than
    its limits; and the host, where it says what it offers, offers every capability an
    opcode needs. The program's own [workspace], which is no argument, is not looked
    at ([default_workspace_unchecked]). *)
Theorem validated_program_within_capability frames options c input program plan :
  vo_capability options = Some c → MAX_INSTRUCTIONS < frames →
  validateProgram frames options input = Ok (ValidationSuccess program plan) →
  ∃ parsed, prop program "instructions" = VArr (map (λ p, VObj (pi_value p)) parsed) ∧
    plan_instructions plan = map planned parsed ∧ within_capability options c program parsed.
Proof.
  intros Hcap Hlt (-> & isa & scan & resources & precheck & Hp & ->)%validateProgram_passed.
  exists (scan_parsed scan). pose proof (passed_well_formed _ _ _ _ _ _ _ Hp Hlt) as Hwf.
  split_and!; [apply Hwf|done|]. pose proof Hp as []. subst resources.
  by eapply clean_checkCapability.
Qed.
End Capability.

Example validated_program_within_capability_witness :
  ∃ parsed, plan_instructions sample_plan = map planned parsed ∧
    within_capability sample_options sample_capability sample_program parsed.
Proof.
  destruct (validated_program_within_capability 257 sample_options sample_capability
    (VObj sample_program) sample_program sample_plan eq_refl
    ltac:(unfold MAX_INSTRUCTIONS; lia) sample_valid) as (parsed & _ & Hplan & Hw).
  exists parsed. split; [exact Hplan|exact Hw].
Defined.

(** ** When the validator answers *)

Definition answers {A} (m : V A) : Prop := ∀ issues, ∃ a issues', m issues = (Ok a, issues').

Lemma answers_ret {A} (a : A) : answers (mret a).
Proof. intros issues. by eexists _, _. Qed.
Lemma answers_modify f : answers (modify f).
Proof. intros issues. by eexists _, _. Qed.
Lemma answers_lift {A} (o : outcome error A) : is_ok o = true → answers (lift o).
Proof. destruct o as [a|]; [|done]. intros _ issues. by eexists _, _. Qed.
Lemma answers_bind {A B} (m : V A) (f : A → V B) :
  answers m → (∀ a, answers (f a)) → answers (m ≫= f).
Proof.
  intros Hm Hf issues. destruct (Hm issues) as (a & issues' & Hrun).
  rewrite (run_bind_Ok _ _ _ _ _ Hrun). apply Hf.
Qed.
Lemma answers_bind_run {A B} (m : V A) (f : A → V B) :
  answers m → (∀ a issues issues', m issues = (Ok a, issues') → answers (f a)) → answers (m ≫= f).
Proof.
  intros Hm Hf issues. destruct (Hm issues) as (a & issues' & Hrun).
  rewrite (run_bind_Ok _ _ _ _ _ Hrun). by eapply Hf.
Qed.
Lemma answers_when b m : answers m → answers (when b m).
Proof. intros Hm. destruct b; [done|apply answers_ret]. Qed.
Lemma answers_for_each {A} (f : A → V unit) l : (∀ x, x ∈ l → answers (f x)) → answers (for_each l f).
Proof.
  induction l as [|x l IH]; intros Hf; [apply answers_ret|].
  apply answers_bind; [apply Hf; set_solver|intros _; apply IH; set_solver].
Qed.
Lemma answers_fold_each {A B} (f : B → A → V B) l :
  (∀ b x, x ∈ l → answers (f b x)) → ∀ b, answers (fold_each f l b).
Proof.
  induction l as [|x l IH]; intros Hf b; [apply answers_ret|].
  apply answers_bind; [apply Hf; set_solver|intros b'; apply IH; set_solver].
Qed.
#[export] Hint Resolve answers_ret answers_modify answers_when : xio.

(** A walk over a method, like [respects_tac]. *)
Ltac answers_step :=
  lazymatch goal with
  | |- answers (_ ≫= _) => apply answers_bind; [|intros ?]
  | |- answers (when _ _) => apply answers_when
  | |- answers (for_each _ _) => apply answers_for_each; intros ? ?
  | |- answers (fold_each _ _ _) => apply answers_fold_each; intros ? ? ?
  | |- answers (let '(_, _) := ?x in _) => destruct x
  | |- answers (if ?b then _ else _) => destruct b
  | |- answers (match ?x with _ => _ end) => destruct x
  end.
Ltac answers_tac := repeat first [progress (auto with xio) | answers_step].

Lemma answers_addIssue code path : answers (addIssue code path).
Proof. apply answers_modify. Qed.
#[export] Hint Resolve answers_addIssue : xio.
Lemma answers_issue_if b code path : answers (issue_if b code path).
Proof. apply answers_when, answers_addIssue. Qed.
#[export] Hint Resolve answers_issue_if : xio.
Lemma answers_checkKeys v allowed path : answers (checkKeys v allowed path).
Proof. unfold checkKeys. answers_tac. Qed.
Lemma answers_required v keys path : answers (required v keys path).
Proof. unfold required. answers_tac. Qed.
Lemma answers_stringField v path pattern : answers (stringField v path pattern).
Proof. unfold stringField. answers_tac. Qed.
Lemma answers_integerField v path lo hi : answers (integerField v path lo hi).
Proof. unfold integerField. answers_tac. Qed.
#[export] Hint Resolve answers_checkKeys answers_required answers_stringField answers_integerField : xio.
Lemma answers_refField v path kind : answers (refField v path kind).
Proof. apply answers_stringField. Qed.
#[export] Hint Resolve answers_refField : xio.
Lemma answers_stringArray v path n pattern : answers (stringArray v path n pattern).
Proof. unfold stringArray. answers_tac. Qed.
Lemma answers_validateRange v path : answers (validateRange v path).
Proof. unfold validateRange. answers_tac. Qed.
Lemma answers_validateStringMap v path n : answers (validateStringMap v path n).
Proof. unfold validateStringMap. answers_tac. Qed.
Lemma answers_validateRefMap v path kind n : answers (validateRefMap v path kind n).
Proof. unfold validateRefMap. answers_tac. Qed.
#[export] Hint Resolve answers_stringArray answers_validateRange answers_validateStringMap
  answers_validateRefMap : xio.

(** No object in [v] has a [toString] of its own, and no more than [frames] arrays are
    nested in one another. *)
Fixpoint plain_at (frames : nat) (v : value) {struct v} : bool :=
  match v with
  | VArr l => match frames with O => false | S frames' => forallb (plain_at frames') l end
  | VObj fs => negb (has_own fs "toString") && forallb (λ kv, plain_at frames kv.2) fs
  | _ => true
  end.
Definition plain `{Engine} (v : value) : bool := plain_at join_frames v.

Lemma plain_at_more v : ∀ n, plain_at n v = true → plain_at (S n) v = true.
Proof.
  induction v as [| | | | |l IH|fs IH] using value_nested_ind; intros m; try done.
  - destruct m as [|m]; [done|]. cbn [plain_at]. rewrite !forallb_forall. intros Hall x Hx.
    rewrite Forall_forall in IH. apply (IH x); [by apply list_elem_of_In|by apply Hall].
  - cbn [plain_at]. rewrite !andb_true_iff !forallb_forall. intros [Hs Hall]. split; [done|]. intros x Hx.
    rewrite Forall_forall in IH. apply (IH x); [by apply list_elem_of_In|by apply Hall].
Qed.

Section Plain.
Context `{Engine}.
Lemma plain_prop fs k : plain (VObj fs) = true → plain (prop fs k) = true.
Proof.
  unfold plain. simpl. intros [_ Hall]%andb_true_iff. unfold prop.
  destruct (jm_get fs k) as [v|] eqn:Hk; [|done]. apply jm_get_in, list_elem_of_In in Hk.
  rewrite forallb_forall in Hall. apply (Hall _ Hk).
Qed.
Lemma plain_item l v : plain (VArr l) = true → v ∈ l → plain v = true.
Proof.
  unfold plain. simpl. destruct join_frames as [|n]; [done|]. rewrite forallb_forall. intros Hall Hv.
  apply plain_at_more. by apply Hall, list_elem_of_In.
Qed.
End Plain.
#[export] Hint Resolve plain_prop : xio.

Section Answers.
Context `{Engine}.

Lemma plain_String_at v : ∀ n, plain_at n v = true → is_ok (String_at n v) = true.
Proof.
  induction v as [| | | | |l IH|fs _] using value_nested_ind; intros m; try done.
  - destruct m as [|m]; [done|]. cbn [plain_at String_at]. rewrite forallb_forall. intros Hp.
    assert (is_ok (map_outcome (λ x, match x with VUndef | VNull => Ok "" | _ => String_at m x end) l) = true)
      as Hl.
    { apply map_outcome_ok. intros x Hx. rewrite Forall_forall in IH.
      pose proof (IH x Hx m (Hp x ltac:(by apply list_elem_of_In))). by destruct x. }
    by destruct (map_outcome _ l).
  - cbn [plain_at String_at]. by intros [->%negb_true_iff _]%andb_true_iff.
Qed.
Lemma plain_String_of v : plain v = true → is_ok (String_of v) = true.
Proof. apply plain_String_at. Qed.

Lemma answers_String_of v : plain v = true → answers (lift (String_of v)).
Proof. intros Hp. by apply answers_lift, plain_String_of. Qed.
Lemma answers_enumField v allowed path : plain v = true → answers (enumField v allowed path).
Proof. intros Hp. unfold enumField. apply answers_bind; [by apply answers_String_of|answers_tac]. Qed.
Lemma answers_present v path keys check :
  plain (VObj v) = true → (∀ x p, plain x = true → answers (check x p)) →
  answers (present v path keys check).
Proof. intros Hp Hc. unfold present. answers_tac. Qed.
Lemma answers_present_string v path keys pattern : answers (present_string v path keys pattern).
Proof. unfold present_string, present. answers_tac. Qed.
Lemma answers_present_ref v path keys kind : answers (present_ref v path keys kind).
Proof. apply answers_present_string. Qed.
End Answers.
#[export] Hint Resolve answers_String_of answers_enumField answers_present_string
  answers_present_ref : xio.
#[export] Hint Extern 1 (answers (present _ _ _ _)) =>
  apply answers_present; [assumption|intros; answers_tac] : xio.

Section Answers2.
Context `{Engine}.

Lemma answers_validateArgs op v path : plain v = true → answers (validateArgs op v path).
Proof. intros Hp. unfold validateArgs. destruct v; auto with xio. answers_tac. Qed.
Lemma answers_validatePrecondition v path ids :
  plain v = true → answers (validatePrecondition v path ids).
Proof.
  intros Hp. unfold validatePrecondition. destruct v as [| | | | | |fs]; auto with xio.
  pose proof (plain_prop fs "status" Hp). answers_tac.
Qed.
(** The supported versions fit in the arguments of one call. *)
Definition few_versions (options : ValidateProgramOptions) : Prop :=
  (Z.of_nat (length (nullish (vo_supportedIsa options) ["xio/1.0"])) < spread_arguments)%Z.
Lemma spread_ok {A} (l : list A) : (Z.of_nat (length l) ≤ spread_arguments)%Z → spread l = Ok l.
Proof. intros Hl. unfold spread. by rewrite (proj2 (Z.leb_le _ _) Hl). Qed.
Lemma length_omap_le {A B} (f : A → option B) l : length (omap f l) ≤ length l.
Proof. induction l as [|x l IH]; [done|]. csimpl. destruct (f x); csimpl; lia. Qed.
Lemma answers_negotiateIsa v options : few_versions options → answers (negotiateIsa v options).
Proof.
  unfold few_versions. intros Hfew. unfold negotiateIsa.
  assert (answers (lift (spread (omap supported_minor (nullish (vo_supportedIsa options) ["xio/1.0"]) ++ [-1]%Z)))).
  { apply answers_lift. rewrite spread_ok //. rewrite length_app. change (length [(-1)%Z]) with 1.
    pose proof (length_omap_le supported_minor (nullish (vo_supportedIsa options) ["xio/1.0"])). lia. }
  answers_tac.
Qed.
Lemma answers_checkEncoding v : answers (checkEncoding v).
Proof. unfold checkEncoding. answers_tac. Qed.
Lemma in_imap_pair {A} (l : list A) e : e ∈ imap pair l → e.2 ∈ l.
Proof. intros He. rewrite -(imap_pair_snd l). by apply (list_elem_of_fmap_2 snd). Qed.
Lemma answers_checkDependencies v path : plain v = true → answers (checkDependencies v path).
Proof.
  intros Hp. unfold checkDependencies. destruct v as [| | | | |l|]; auto with xio.
  apply answers_bind; [auto with xio|intros _]. apply answers_bind; [|auto with xio].
  apply answers_fold_each. intros seen [i d] Hd%in_imap_pair.
  pose proof (plain_item _ _ Hp Hd). answers_tac.
Qed.
Lemma answers_checkPreconditions v path ids : plain v = true → answers (checkPreconditions v path ids).
Proof.
  intros Hp. unfold checkPreconditions. destruct v as [| | | | |l|]; auto with xio.
  apply answers_bind; [auto with xio|intros _].
  apply answers_for_each. intros [i c] Hc%in_imap_pair.
  apply answers_validatePrecondition. by eapply plain_item.
Qed.
Lemma answers_checkOutput v path outputs : answers (checkOutput v path outputs).
Proof. unfold checkOutput. answers_tac. Qed.
Lemma answers_checkOpId v op path opIds : answers (checkOpId v op path opIds).
Proof. unfold checkOpId. answers_tac. Qed.
Lemma answers_checkReferences program ids entry : answers (checkReferences program ids entry).
Proof. unfold checkReferences. answers_tac. Qed.
Lemma answers_detectCycles frames parsed :
  length parsed < frames → ∀ issues, ∃ issues', detectCycles frames parsed issues = (Ok tt, issues').
Proof.
  intros Hlt issues. pose proof (graph_length parsed).
  destruct (visit_roots (dependencyGraph parsed) frames (dependencyGraph parsed).*1)
    with (st := (∅ : gmap string Mark)) (issues := issues) as (st & l & Hrun & _).
  { intros id. by rewrite jm_has_in. }
  { intros x. by rewrite lookup_empty. }
  { pose proof (unmarked_empty (dependencyGraph parsed)). lia. }
  exists (issues ++ l). unfold detectCycles. by rewrite (run_bind_Ok _ _ _ _ _ Hrun).
Qed.
End Answers2.
#[export] Hint Resolve answers_validateArgs answers_negotiateIsa answers_checkEncoding
  answers_checkDependencies answers_checkPreconditions answers_checkOutput answers_checkOpId
  answers_checkReferences : xio.

(** An object whose arguments are there to be read, with lists of paths that fit in the
    arguments of one call. *)
Definition args_readable `{Engine} (raw : value) : Prop :=
  match raw with
  | VObj v => match prop v "args" with
      | VUndef | VNull => False
      | VObj args => (Z.of_nat (length (string_items (prop args "paths"))) ≤ spread_arguments)%Z ∧
          (Z.of_nat (length (string_items (prop args "roots"))) ≤ spread_arguments)%Z
      | _ => (0 ≤ spread_arguments)%Z
      end
  | _ => True
  end.

Section Answers3.
Context `{Engine}.

Lemma answers_validateOptions v : plain v = true → answers (validateOptions v).
Proof. intros Hp. unfold validateOptions. destruct v; auto with xio. answers_tac. Qed.

Lemma answers_checkInstruction ids scan entry :
  plain entry.2 = true → answers (checkInstruction ids scan entry).
Proof.
  destruct entry as [index [| | | | | |v]]; intros Hp; unfold checkInstruction; auto with xio.
  1-6: answers_tac.
  simpl in Hp. change (plain (VObj v) = true) in Hp.
  pose proof (plain_prop v "op" Hp). pose proof (plain_prop v "args" Hp).
  pose proof (plain_prop v "dependsOn" Hp). pose proof (plain_prop v "precondition" Hp).
  answers_tac.
Qed.

(** The instructions parsed so far come from the raw ones, one at most from each. *)
Definition from_raw (done : list (nat * value)) (scan : Scan) : Prop :=
  length (scan_parsed scan) ≤ length done ∧
  ∀ p, p ∈ scan_parsed scan → VObj (pi_value p) ∈ map snd done.

Lemma from_raw_more done entry scan : from_raw done scan → from_raw (done ++ [entry]) scan.
Proof.
  intros [Hl Hin]. split; [rewrite length_app; lia|].
  intros p Hp. rewrite map_app. apply elem_of_app. left. by apply Hin.
Qed.
Lemma from_raw_step ids done scan entry issues scan' issues' :
  from_raw done scan → checkInstruction ids scan entry issues = (Ok scan', issues') →
  from_raw (done ++ [entry]) scan'.
Proof.
  intros Hok. destruct entry as [index raw]. unfold checkInstruction. intros Hrun.
  destruct raw as [| | | | | |v];
    repeat (apply bind_Ok_inv in Hrun as (? & ? & ? & Hrun));
    try by injection Hrun as <- _; apply from_raw_more.
  destruct (lookupOpcode (prop v "op")) as [op|];
    repeat (apply bind_Ok_inv in Hrun as (? & ? & ? & Hrun)); injection Hrun as <- _.
  - destruct Hok as [Hl Hin]. split; simpl.
    + rewrite !length_app /=. lia.
    + intros p [Hp| ->%list_elem_of_singleton]%elem_of_app; rewrite map_app; apply elem_of_app;
        [left; by apply Hin|right; apply list_elem_of_singleton; done].
  - by apply from_raw_more.
Qed.

Lemma fold_each_from_raw ids l : ∀ done scan issues scan' issues',
  from_raw done scan → fold_each (checkInstruction ids) l scan issues = (Ok scan', issues') →
  from_raw (done ++ l) scan'.
Proof.
  induction l as [|e l IH]; intros done scan issues scan' issues' Hok Hrun; simpl in Hrun.
  - injection Hrun as <- _. by rewrite app_nil_r.
  - apply bind_Ok_inv in Hrun as (scan1 & issues1 & Hx & Hrun).
    rewrite (assoc (++) done [e] l). eapply IH; [by eapply from_raw_step|exact Hrun].
Qed.

Lemma readable_ok p : args_readable (VObj (pi_value p)) →
  is_ok (collectInstructionPaths (pi_args p)) = true ∧ ∀ k, is_ok (read_prop (pi_args p) k) = true.
Proof.
  unfold args_readable. fold (pi_args p). unfold collectInstructionPaths.
  destruct (pi_args p) as [| | | | | |args]; try done; [intros Hl; (split; [|done]); by simpl; rewrite !spread_ok..|].
  intros [Hp Hr]. split; [|done]. rewrite !read_props. cbn [map_outcome]. simpl. by rewrite !spread_ok.
Qed.

Lemma answers_instruction_capability c p :
  args_readable (VObj (pi_value p)) → answers (checkInstructionCapability c p).
Proof.
  intros [Hcollect Hread]%readable_ok.
  unfold checkInstructionCapability. apply answers_bind; [auto with xio|intros _].
  apply answers_bind; [apply answers_lift|].
  { exact Hcollect. }
  intros paths. apply answers_bind; [answers_tac|intros _]. apply answers_bind.
  { apply answers_for_each. intros k _. apply answers_bind; [by apply answers_lift|intros w; answers_tac]. }
  intros _. apply answers_bind; [by apply answers_lift|intros secretEnv; answers_tac].
Qed.

Lemma answers_checkCapability program parsed resources options :
  (vo_capability options = None ∨ ∀ p, p ∈ parsed → args_readable (VObj (pi_value p))) →
  answers (checkCapability program parsed resources options).
Proof.
  intros Hargs. unfold checkCapability. destruct (vo_capability options) as [c|]; [|answers_tac].
  destruct Hargs as [?|Hargs]; [done|].
  do 5 (apply answers_bind; [auto with xio|intros _]). apply answers_bind.
  { apply answers_for_each. intros p Hp. by apply answers_instruction_capability, Hargs. }
  intros _. answers_tac.
Qed.
End Answers3.
#[export] Hint Resolve answers_validateOptions : xio.

(** C30. The validator answers: on a value in which no object has a [toString]
    property of its own and arrays are nested no deeper than the engine's [join] can
    recur, with an engine stack deeper than the program has instructions, fewer
    supported versions than a call takes arguments, and - when a capability is
    supplied - arguments of every instruction that are not missing or [null] and
    whose lists of paths fit in the arguments of one call, [validateProgram] returns a
    verdict and never throws. *)
Theorem validator_answers `{Engine} frames options input :
  plain input = true → few_versions options →
  (∀ fs, input = VObj fs → length (array_items (prop fs "instructions")) < frames ∧
    (vo_capability options = None ∨ Forall args_readable (array_items (prop fs "instructions")))) →
  ∃ r, validateProgram frames options input = Ok r.
Proof.
  intros Hp Hfew Hin. destruct input as [| | | | | |fs]; try by eexists.
  destruct (Hin fs eq_refl) as [Hlt Hargs].
  assert (∃ a issues, checkProgram frames options fs [] = (Ok a, issues)) as (a & issues & Hrun);
    [|unfold validateProgram; rewrite Hrun;
      destruct a as [[[[isa|] scan] resources] precheck], issues; by eexists].
  pose proof (plain_prop fs "mode" Hp). pose proof (plain_prop fs "options" Hp).
  pose proof (plain_prop fs "instructions" Hp) as Hraws.
  set (raws := array_items (prop fs "instructions")) in *.
  assert (∀ raw, raw ∈ raws → plain raw = true) as Hraw.
  { intros raw Hr. subst raws. destruct (prop fs "instructions"); try by apply not_elem_of_nil in Hr.
    by eapply plain_item. }
  unfold checkProgram. generalize (@nil ValidationIssue). fold raws.
  match goal with |- ∀ l, ∃ a issues, ?m l = _ => change (answers m) end.
  do 13 (apply answers_bind; [by answers_tac|intros ?]). apply answers_bind_run.
  { apply answers_fold_each. intros scan e He%in_imap_pair.
    by apply answers_checkInstruction, Hraw. }
  intros scan issues issues' Hscan%(fold_each_from_raw _ _ []); [|split; simpl; [lia|set_solver]].
  destruct Hscan as [Hlen Hfrom]. rewrite length_imap in Hlen. rewrite imap_pair_snd in Hfrom.
  apply answers_bind; [by answers_tac|intros ?]. apply answers_bind.
  { intros iss. destruct (answers_detectCycles frames (scan_parsed scan) ltac:(lia) iss); eauto. }
  intros ?. apply answers_bind; [|by auto with xio]. apply answers_checkCapability.
  destruct Hargs as [?|Hargs]; [by left|right]. intros p Hq%Hfrom.
  rewrite Forall_forall in Hargs. by apply Hargs.
Qed.

Example validator_answers_witness :
  ∃ r, validateProgram 257 sample_options (VObj sample_program) = Ok r.
Proof.
  apply (validator_answers 257 sample_options (VObj sample_program)).
  - vm_compute. reflexivity.
  - vm_compute. reflexivity.
  - intros fs Hfs. injection Hfs as <-. split; [vm_compute; lia|].
    right. vm_compute. repeat constructor; discriminate.
Defined.

(** ** The inputs the validator does not answer, and what it lets through *)

(** A JSON document is enough to make it throw: a [mode] with a [toString]. *)
Lemma mode_without_primitive_throws :
  validateProgram 257 sample_options
    (VObj (jm_set sample_program "mode" (VObj [("toString", VNull)])))
  = Throw (TypeErr "cannot convert object to primitive value").
Proof. vm_compute. reflexivity. Qed.

(** Under a capability, so is an instruction without [args]. *)
Lemma missing_args_throw :
  validateProgram 257 sample_options
    (VObj (jm_set sample_program "instructions"
      (VArr [VObj [("id", VStr "a"); ("op", VStr "fs.stat")]])))
  = Throw (TypeErr "cannot read properties of null or undefined").
Proof. vm_compute. reflexivity. Qed.

(** And a list of more paths than one call takes arguments: that the list is longer
    than the 64 items it may have is an issue, but the paths are collected all the same. *)
Lemma long_path_list_throws :
  @validateProgram (mkEngine (λ _, "0.5") 2 4096) 257 sample_options
    (VObj (jm_set sample_program "instructions"
      (VArr [sample_instruction "a" "observe.files" [("paths", VArr [VStr "x"; VStr "y"; VStr "z"])] [] "out" VUndef])))
  = Throw stack_exceeded.
Proof. vm_compute. reflexivity. Qed.

(** An instruction whose [id] and [output] are numbers is admitted, and goes by
    ["#0"] in the plan: the type of the two fields is checked only on strings. *)
Lemma numeric_id_admitted :
  ∃ plan, validateProgram 257 (mkValidateOptions None None None 0 (Some false))
    (VObj (jm_set sample_program "instructions"
      (VArr [VObj [("id", VZ 7); ("op", VStr "control.health"); ("args", VObj []);
                   ("dependsOn", VArr []); ("precondition", VArr []); ("output", VZ 7)]])))
    = Ok (ValidationSuccess (jm_set sample_program "instructions"
      (VArr [VObj [("id", VZ 7); ("op", VStr "control.health"); ("args", VObj []);
                   ("dependsOn", VArr []); ("precondition", VArr []); ("output", VZ 7)]])) plan) ∧
    map pl_id (plan_instructions plan) = ["#0"].
Proof. eexists. split; [vm_compute; reflexivity|reflexivity]. Qed.

(** [String(value)] takes an array of one string for that string. *)
Lemma array_mode_admitted :
  match validateProgram 257 sample_options
    (VObj (jm_set sample_program "mode" (VArr [VStr "pipeline"]))) with
  | Ok (ValidationSuccess _ _) => True
  | _ => False
  end.
Proof. vm_compute. exact I. Qed.

(** The program's own [workspace], which instructions fall back on, is not held
    against the capability's workspaces. *)
Lemma default_workspace_unchecked :
  match validateProgram 257 sample_options
    (VObj (jm_set sample_program "workspace" (VStr "workspace:elsewhere"))) with
  | Ok (ValidationSuccess _ _) => True
  | _ => False
  end ∧ "workspace:elsewhere" ∉ isc_workspaces (ic_scope sample_capability).
Proof. vm_compute. split; [exact I|set_solver]. Qed.
