(* ===== verification/Pipeline.v ===== *)
(** * Pipeline: concurrent execution of programs (src/src/isa/pipeline.ts)

    Several calls of [executePipeline] share one [PipelineDomainCoordinator]. The
    machine interleaves them: its state holds the coordinator's fields, one
    [Task] per promise that [start] creates, and one [Run] per call; an [Action]
    is a stretch of code between two awaits - an iteration of a run's loop, the
    continuation of a task - or an answer of the host: an outcome of the
    executor, a verdict on a precondition, an abort. [perform] is [None] where
    the action cannot happen. Consecutive iterations of a loop without an await
    between them are separate actions, so more interleavings are allowed than
    the event loop has.

    The SHA-256 digest of a canonical encoding is a parameter. *)

From S2P Require Import Prelude Types Events Isa Codec Validator.

(** ** Programs as the pipeline reads them *)

Inductive InstructionStatus :=
| is_admitted | is_running | is_succeeded | is_failed | is_rejected | is_cancelled
| is_indeterminate | is_partial | is_rolled_back.
#[export] Instance InstructionStatus_eq_dec : EqDecision InstructionStatus.
Proof. solve_decision. Defined.

Definition instruction_status_name (s : InstructionStatus) : string :=
  match s with
  | is_admitted => "admitted" | is_running => "running" | is_succeeded => "succeeded"
  | is_failed => "failed" | is_rejected => "rejected" | is_cancelled => "cancelled"
  | is_indeterminate => "indeterminate" | is_partial => "partial"
  | is_rolled_back => "rolled_back"
  end.

(** A precondition: the status of an instruction, or one the host checks. *)
Inductive Precondition :=
| InstructionStatusIs (instruction : string) (status : string)
| ExternalPrecondition (condition : value).

Record Instruction := mkInstruction {
  ins_id : string;
  ins_op : Opcode;
  ins_dependsOn : list string;
  ins_precondition : list Precondition;
  ins_opId : option string;
  ins_value : value;
}.

Record Program := mkProgram {
  pg_value : fields;
  pg_programId : string;
  pg_instructions : list Instruction;
}.

(** Reading a decoded program: the fields the code uses. *)
Definition precondition_of (v : value) : Precondition :=
  match v with
  | VObj fs =>
      match prop fs "kind", prop fs "instruction", prop fs "status" with
      | VStr kind, VStr i, VStr s =>
          if bool_decide (kind = "instruction_status") then InstructionStatusIs i s
          else ExternalPrecondition v
      | _, _, _ => ExternalPrecondition v
      end
  | _ => ExternalPrecondition v
  end.
Definition string_prop (fs : fields) (k : string) : option string :=
  match prop fs k with VStr s => Some s | _ => None end.
Definition instruction_of (v : value) : option Instruction :=
  match v with
  | VObj fs =>
      id ← string_prop fs "id";
      op ← lookupOpcode (prop fs "op");
      Some {| ins_id := id; ins_op := op; ins_dependsOn := string_items (prop fs "dependsOn");
              ins_precondition := map precondition_of (array_items (prop fs "precondition"));
              ins_opId := string_prop fs "opId"; ins_value := v |}
  | _ => None
  end.
Definition program_of (fs : fields) : option Program :=
  programId ← string_prop fs "programId";
  instructions ← mapM instruction_of (array_items (prop fs "instructions"));
  Some (mkProgram fs programId instructions).

(** ** Results *)

Inductive FailureCode :=
| fc_cancelled | fc_dependency_failed | fc_op_id_conflict | fc_precondition_failed
| fc_executor_error
| fc_executor (error : value). (* what the executor reported *)

Record PipelineInstructionOutcome := mkOutcome {
  out_status : InstructionStatus;
  out_error : option FailureCode;
  out_value : value;
}.
Record PipelineInstructionResult := mkResult {
  res_id : string;
  res_op : Opcode;
  res_resources : list string;
  res_status : InstructionStatus;
  res_error : option FailureCode;
  res_value : value;
  res_joined : bool;
}.

Definition resources_of (op : Opcode) : list string := md_resourceCost (ISA_V1_REGISTRY op).

Definition result_of (i : Instruction) (o : PipelineInstructionOutcome) : PipelineInstructionResult :=
  mkResult (ins_id i) (ins_op i) (resources_of (ins_op i)) (out_status o) (out_error o) (out_value o) false.
Definition abortOutcome (i : Instruction) : PipelineInstructionResult :=
  result_of i (mkOutcome is_cancelled (Some fc_cancelled) VUndef).
Definition skippedOutcome (i : Instruction) : PipelineInstructionResult :=
  result_of i (mkOutcome is_partial (Some fc_dependency_failed) VUndef).
Definition failedOutcome (i : Instruction) (code : FailureCode) : PipelineInstructionResult :=
  result_of i (mkOutcome is_failed (Some code) VUndef).
(** [{ ...result, id: instruction.id, joined: true }] *)
Definition joinedResult (i : Instruction) (r : PipelineInstructionResult) : PipelineInstructionResult :=
  mkResult (ins_id i) (res_op r) (res_resources r) (res_status r) (res_error r) (res_value r) true.

Definition dependencySucceeded (r : option PipelineInstructionResult) : bool :=
  match r with
  | Some r => bool_decide (res_status r = is_succeeded) ||
              (bool_decide (res_op r = workspace_rollback) && bool_decide (res_status r = is_rolled_back))
  | None => false
  end.

Inductive PipelineStatus := ps_succeeded | ps_failed | ps_partial | ps_rejected | ps_indeterminate.
#[export] Instance PipelineStatus_eq_dec : EqDecision PipelineStatus.
Proof. solve_decision. Defined.

Definition finalStatus (results : list PipelineInstructionResult) : PipelineStatus :=
  let some s := existsb (λ r, bool_decide (res_status r = s)) results in
  if some is_indeterminate then ps_indeterminate
  else if some is_failed then ps_failed
  else if some is_partial || some is_cancelled then ps_partial
  else ps_succeeded.

(** ** State *)

(** A call of [executePipeline] and an instruction of its program. *)
Notation Tid := (nat * string)%type.

Inductive Phase :=
| Waiting                                     (* in [acquire] *)
| Granted                                     (* [acquire] resolved *)
| Queued                                      (* in [withCommitQueue], behind others *)
| Checking (index : nat)                      (* the host judges this precondition *)
| Executing                                   (* [await executor(context)] *)
| Finished (result : PipelineInstructionResult)  (* [run] returned, resources still held *)
| Settled (result : PipelineInstructionResult).  (* the promise resolved *)

Record Task := mkTask {
  tk_instruction : Instruction;
  tk_key : string;
  tk_phase : Phase;
}.

Inductive RunPhase :=
| Looping                          (* at the head of the while loop *)
| Racing                           (* [await Promise.race(active.values())] *)
| Returned (status : PipelineStatus) (results : list PipelineInstructionResult)
| RejectedCycle.                   (* returned the [dependency_cycle] rejection *)

Record Run := mkRun {
  run_program : Program;
  run_maxConcurrency : nat;
  run_hasChecker : bool;           (* [options.checkPrecondition] is given *)
  run_aborted : bool;
  run_pending : list string;
  run_completed : list (string * PipelineInstructionResult);
  run_active : list (string * Tid);
  run_phase : RunPhase;
}.

Record Coordinator := mkCoordinator {
  heldResources : list string;
  waiters : list Tid;
  inFlight : list (string * (string * Tid));
  commitQueue : list Tid;
}.

Record State := mkState {
  st_domain : Coordinator;
  st_tasks : gmap Tid Task;
  st_runs : list Run;
  st_calls : list Tid;             (* the calls of [executor], for the theorems *)
}.

Definition with_phase (p : Phase) (t : Task) : Task := mkTask (tk_instruction t) (tk_key t) p.
Definition set_run_phase (p : RunPhase) (r : Run) : Run :=
  mkRun (run_program r) (run_maxConcurrency r) (run_hasChecker r) (run_aborted r) (run_pending r)
    (run_completed r) (run_active r) p.
Definition set_aborted (r : Run) : Run :=
  mkRun (run_program r) (run_maxConcurrency r) (run_hasChecker r) true (run_pending r)
    (run_completed r) (run_active r) (run_phase r).
Definition set_pending (l : list string) (r : Run) : Run :=
  mkRun (run_program r) (run_maxConcurrency r) (run_hasChecker r) (run_aborted r) l
    (run_completed r) (run_active r) (run_phase r).
Definition set_active (l : list (string * Tid)) (r : Run) : Run :=
  mkRun (run_program r) (run_maxConcurrency r) (run_hasChecker r) (run_aborted r) (run_pending r)
    (run_completed r) l (run_phase r).
Definition complete (id : string) (res : PipelineInstructionResult) (r : Run) : Run :=
  mkRun (run_program r) (run_maxConcurrency r) (run_hasChecker r) (run_aborted r) (run_pending r)
    (jm_set (run_completed r) id res) (run_active r) (run_phase r).

(** A call just made: [maxConcurrency] is [Math.max(1, Math.min(options ?? 8, 256))]. *)
Definition clampConcurrency (o : option Z) : nat := Z.to_nat (Z.max 1 (Z.min (nullish o 8%Z) 256)).
Definition new_run (p : Program) (maxConcurrency : option Z) (hasChecker : bool) : Run :=
  mkRun p (clampConcurrency maxConcurrency) hasChecker false
    (js_set (map ins_id (pg_instructions p))) [] [] Looping.
Definition new_domain : Coordinator := mkCoordinator [] [] [] [].
Definition initial (runs : list Run) : State := mkState new_domain ∅ runs [].

Definition set_run (r : nat) (run : Run) (s : State) : State :=
  mkState (st_domain s) (st_tasks s) (<[r := run]> (st_runs s)) (st_calls s).
Definition set_domain (d : Coordinator) (s : State) : State :=
  mkState d (st_tasks s) (st_runs s) (st_calls s).
Definition set_task (t : Tid) (task : Task) (s : State) : State :=
  mkState (st_domain s) (<[t := task]> (st_tasks s)) (st_runs s) (st_calls s).
Definition set_waiters (w : list Tid) (d : Coordinator) : Coordinator :=
  mkCoordinator (heldResources d) w (inFlight d) (commitQueue d).
Definition set_held (h : list string) (d : Coordinator) : Coordinator :=
  mkCoordinator h (waiters d) (inFlight d) (commitQueue d).
Definition set_inFlight (m : list (string * (string * Tid))) (d : Coordinator) : Coordinator :=
  mkCoordinator (heldResources d) (waiters d) m (commitQueue d).
Definition set_commitQueue (q : list Tid) (d : Coordinator) : Coordinator :=
  mkCoordinator (heldResources d) (waiters d) (inFlight d) q.

Definition instruction_by_id (p : Program) (id : string) : option Instruction :=
  List.find (λ i, bool_decide (ins_id i = id)) (rev (pg_instructions p)).

(** ** The coordinator *)

Definition task_resources (tasks : gmap Tid Task) (t : Tid) : list string :=
  match tasks !! t with Some task => resources_of (ins_op (tk_instruction task)) | None => [] end.

(** [drainWaiters]: grant every waiter, first come first, whose resources are
    free by then. The waiters that stay, the resources held, and the granted. *)
Fixpoint drainWaiters (resources : Tid → list string) (held : list string) (ws : list Tid)
  : list Tid * list string * list Tid :=
  match ws with
  | [] => ([], held, [])
  | w :: rest =>
      if existsb (js_has held) (resources w) then
        let '(ws', held', granted) := drainWaiters resources held rest in (w :: ws', held', granted)
      else
        let '(ws', held', granted) := drainWaiters resources (foldl js_add held (resources w)) rest in
        (ws', held', w :: granted)
  end.

Definition grant (tasks : gmap Tid Task) (granted : list Tid) : gmap Tid Task :=
  foldl (λ tasks t, alter (with_phase Granted) t tasks) tasks granted.

Definition drain (s : State) : State :=
  let '(ws, held, granted) :=
    drainWaiters (task_resources (st_tasks s)) (heldResources (st_domain s)) (waiters (st_domain s)) in
  mkState (set_waiters ws (set_held held (st_domain s))) (grant (st_tasks s) granted)
    (st_runs s) (st_calls s).

(** [acquire]: join the waiters, then drain. *)
Definition acquire (t : Tid) (s : State) : State :=
  drain (set_domain (set_waiters (waiters (st_domain s) ++ [t]) (st_domain s)) s).

(** The [release] function [acquire] resolved to. *)
Definition release (t : Tid) (s : State) : State :=
  drain (set_domain
    (set_held (foldl js_delete (heldResources (st_domain s)) (task_resources (st_tasks s) t)) (st_domain s)) s).

(** ** Starting an instruction *)

Section Machine.
Context (digest : value → string).

Definition or_null (v : value) : value := match v with VUndef => VNull | _ => v end.
Definition instructionFingerprint (p : Program) (i : Instruction) : string :=
  digest (canonicalize (VObj
    [("isa", prop (pg_value p) "isa"); ("programId", VStr (pg_programId p));
     ("capability", or_null (prop (pg_value p) "capability"));
     ("workspace", or_null (prop (pg_value p) "workspace"));
     ("options", or_null (prop (pg_value p) "options"));
     ("instruction", ins_value i)])).

Definition operation_key (p : Program) (i : Instruction) : string :=
  nullish (ins_opId i) (pg_programId p +:+ ":" +:+ ins_id i).

Definition registerInFlight (key fingerprint : string) (t : Tid) (s : State) : State :=
  set_domain (set_inFlight (jm_set (inFlight (st_domain s)) key (fingerprint, t)) (st_domain s)) s.

(** The promise of [start], up to its first await. *)
Definition launch (t : Tid) (i : Instruction) (key : string) (aborted : bool) (s : State) : State :=
  if aborted then set_task t (mkTask i key (Settled (abortOutcome i))) s
  else acquire t (set_task t (mkTask i key Waiting) s).

Definition start (r : nat) (run : Run) (i : Instruction) (s : State) : Run * State :=
  let id := ins_id i in
  let run := set_pending (js_delete (run_pending run) id) run in
  let key := operation_key (run_program run) i in
  let fingerprint := instructionFingerprint (run_program run) i in
  match jm_get (inFlight (st_domain s)) key with
  | Some (other, t) =>
      if bool_decide (other = fingerprint)
      then (set_active (jm_set (run_active run) id t) run, s)
      else (complete id (failedOutcome i fc_op_id_conflict) run, s)
  | None =>
      let t := (r, id) in
      (set_active (jm_set (run_active run) id t) run,
       registerInFlight key fingerprint t (launch t i key (run_aborted run) s))
  end.

(** ** The loop of a run *)

(** One pass over [[...pending]]; the flag is [progressed]. *)
Fixpoint schedule (r : nat) (ids : list string) (run : Run) (s : State) (progressed : bool)
  : Run * State * bool :=
  match ids with
  | [] => (run, s, progressed)
  | id :: rest =>
      if (run_maxConcurrency run <=? length (run_active run))%nat then (run, s, progressed)
      else
        match instruction_by_id (run_program run) id with
        | None => schedule r rest run s progressed
        | Some i =>
            if forallb (jm_has (run_completed run)) (ins_dependsOn i) then
              match List.find (λ d, negb (dependencySucceeded (jm_get (run_completed run) d)))
                  (ins_dependsOn i) with
              | Some _ =>
                  schedule r rest
                    (complete id (skippedOutcome i) (set_pending (js_delete (run_pending run) id) run))
                    s true
              | None => let '(run', s') := start r run i s in schedule r rest run' s' true
              end
            else schedule r rest run s progressed
        end
  end.

Definition cancel_pending (run : Run) : Run :=
  set_pending [] (foldl (λ run id,
    match instruction_by_id (run_program run) id with
    | Some i => complete id (abortOutcome i) run
    | None => run
    end) run (run_pending run)).

Definition run_results (run : Run) : list PipelineInstructionResult :=
  map (λ i, nullish (jm_get (run_completed run) (ins_id i)) (skippedOutcome i))
    (pg_instructions (run_program run)).

(** An iteration of the while loop, or the return after it. *)
Definition iterate (r : nat) (run : Run) (s : State) : State :=
  if bool_decide (run_pending run = []) && bool_decide (run_active run = []) then
    set_run r (set_run_phase (Returned (finalStatus (run_results run)) (run_results run)) run) s
  else
    let run := if run_aborted run then cancel_pending run else run in
    let '(run, s, progressed) := schedule r (run_pending run) run s false in
    set_run r
      (set_run_phase
        (if negb (bool_decide (run_active run = [])) then Racing
         else if negb (bool_decide (run_pending run = [])) && negb progressed then RejectedCycle
         else Looping) run) s.

(** After the race: the active promises whose instruction is completed leave. *)
Definition wake (run : Run) : option Run :=
  if existsb (λ p, jm_has (run_completed run) p.1) (run_active run) then
    Some (set_run_phase Looping
      (set_active (List.filter (λ p, negb (jm_has (run_completed run) p.1)) (run_active run)) run))
  else None.

(** ** The body of a task *)

(** [resourceCost.some(resource => resource === 'io.write' || resource === 'journal.write')] *)
Definition commits (op : Opcode) : bool :=
  existsb (λ r, bool_decide (r = "io.write") || bool_decide (r = "journal.write")) (resources_of op).

Definition set_phase (t : Tid) (p : Phase) (s : State) : State :=
  mkState (st_domain s) (alter (with_phase p) t (st_tasks s)) (st_runs s) (st_calls s).

(** [run] returned: [withCommitQueue] lets the next one in. *)
Definition finish (t : Tid) (res : PipelineInstructionResult) (s : State) : State :=
  set_phase t (Finished res)
    (set_domain (set_commitQueue (List.filter (λ u, negb (bool_decide (u = t)))
      (commitQueue (st_domain s))) (st_domain s)) s).

Inductive Verdict := v_valid | v_stale | v_unknown | v_throws.

(** What [run] does once the preconditions from [index] on are the rest to judge:
    those on an instruction's status at once, the others by asking the host. *)
Fixpoint advance (run : Run) (i : Instruction) (index : nat) (rest : list Precondition)
  : Phase + PipelineInstructionResult :=
  match rest with
  | [] => if run_aborted run then inr (abortOutcome i) else inl Executing
  | InstructionStatusIs j status :: rest' =>
      match jm_get (run_completed run) j with
      | Some res =>
          if bool_decide (instruction_status_name (res_status res) = status)
          then advance run i (S index) rest' else inr (failedOutcome i fc_precondition_failed)
      | None => inr (failedOutcome i fc_precondition_failed)
      end
  | ExternalPrecondition _ :: _ =>
      if run_hasChecker run then inl (Checking index)
      else inr (failedOutcome i fc_precondition_failed)
  end.

Definition enter (t : Tid) (step : Phase + PipelineInstructionResult) (s : State) : State :=
  match step with
  | inl Executing =>
      let s := set_phase t Executing s in
      mkState (st_domain s) (st_tasks s) (st_runs s) (st_calls s ++ [t])
  | inl p => set_phase t p s
  | inr res => finish t res s
  end.

(** [run()] from its first line. *)
Definition begin (t : Tid) (task : Task) (run : Run) (s : State) : State :=
  let i := tk_instruction task in
  enter t (if run_aborted run then inr (abortOutcome i) else advance run i 0 (ins_precondition i)) s.

(** ** Actions *)

Inductive Action :=
| Iterate (r : nat)
| Wake (r : nat)
| Abort (r : nat)
| Resume (t : Tid)                                  (* after [await domain.acquire] *)
| EnterCommit (t : Tid)                             (* after [await previous] *)
| Judge (t : Tid) (v : Verdict)
| Answer (t : Tid) (o : PipelineInstructionOutcome)
| ExecutorThrows (t : Tid)
| Release (t : Tid)
| Forget (key : string)                             (* the in-flight entry's continuation *)
| Complete (r : nat) (id : string).                 (* [completed.set], once the promise resolved *)

Definition perform (s : State) (a : Action) : option State :=
  match a with
  | Iterate r =>
      run ← st_runs s !! r;
      match run_phase run with Looping => Some (iterate r run s) | _ => None end
  | Wake r =>
      run ← st_runs s !! r;
      match run_phase run with
      | Racing => run' ← wake run; Some (set_run r run' s)
      | _ => None
      end
  | Abort r =>
      run ← st_runs s !! r;
      if run_aborted run then None else Some (set_run r (set_aborted run) s)
  | Resume t =>
      task ← st_tasks s !! t; run ← st_runs s !! t.1;
      match tk_phase task with
      | Granted =>
          if commits (ins_op (tk_instruction task)) then
            Some (set_phase t Queued
              (set_domain (set_commitQueue (commitQueue (st_domain s) ++ [t]) (st_domain s)) s))
          else Some (begin t task run s)
      | _ => None
      end
  | EnterCommit t =>
      task ← st_tasks s !! t; run ← st_runs s !! t.1;
      match tk_phase task, commitQueue (st_domain s) with
      | Queued, u :: _ => if bool_decide (u = t) then Some (begin t task run s) else None
      | _, _ => None
      end
  | Judge t v =>
      task ← st_tasks s !! t; run ← st_runs s !! t.1;
      match tk_phase task with
      | Checking index =>
          let i := tk_instruction task in
          Some (enter t (match v with
            | v_valid => advance run i (S index) (drop (S index) (ins_precondition i))
            | v_stale | v_unknown => inr (failedOutcome i fc_precondition_failed)
            | v_throws => inr (failedOutcome i fc_executor_error)
            end) s)
      | _ => None
      end
  | Answer t o =>
      task ← st_tasks s !! t;
      match tk_phase task with
      | Executing => Some (finish t (result_of (tk_instruction task) o) s)
      | _ => None
      end
  | ExecutorThrows t =>
      task ← st_tasks s !! t;
      match tk_phase task with
      | Executing => Some (finish t (failedOutcome (tk_instruction task) fc_executor_error) s)
      | _ => None
      end
  | Release t =>
      task ← st_tasks s !! t;
      match tk_phase task with
      | Finished res => Some (release t (set_phase t (Settled res) s))
      | _ => None
      end
  | Forget key =>
      '(_, t) ← jm_get (inFlight (st_domain s)) key;
      task ← st_tasks s !! t;
      match tk_phase task with
      | Settled _ =>
          Some (set_domain (set_inFlight (jm_delete (inFlight (st_domain s)) key) (st_domain s)) s)
      | _ => None
      end
  | Complete r id =>
      run ← st_runs s !! r;
      t ← jm_get (run_active run) id;
      task ← st_tasks s !! t;
      i ← instruction_by_id (run_program run) id;
      match tk_phase task with
      | Settled res =>
          if jm_has (run_completed run) id then None
          else Some (set_run r (complete id (if bool_decide (t = (r, id)) then res else joinedResult i res) run) s)
      | _ => None
      end
  end.

Fixpoint performs (s : State) (l : list Action) : option State :=
  match l with [] => Some s | a :: l' => s' ← perform s a; performs s' l' end.
End Machine.
