(* ===== verification/CoordinatorInv.v ===== *)
(** * CoordinatorInv: the coordinator's invariant

    Resources are held exclusively, a waiter waits for something that is held,
    and only the head of the commit queue runs. *)

From S2P Require Import Prelude Types Events Isa Codec Validator Pipeline.

(** ** Draining the waiters *)

Section Drain.
Context (resources : Tid → list string).

Lemma blocked_spec held w :
  existsb (js_has held) (resources w) = true ↔ ∃ x, x ∈ resources w ∧ x ∈ held.
Proof. rewrite existsb_In. by setoid_rewrite js_has_spec. Qed.
Lemma unblocked_spec held w :
  existsb (js_has held) (resources w) = false ↔ ∀ x, x ∈ resources w → x ∉ held.
Proof. rewrite -not_true_iff_false blocked_spec. naive_solver. Qed.

(** What [drainWaiters] splits its waiters into. *)
Record drained (held : list string) (ws ws' : list Tid) (held' : list string) (granted : list Tid)
  : Prop := {
  dr_split t : t ∈ ws ↔ t ∈ ws' ∨ t ∈ granted;
  dr_stay : NoDup ws → NoDup ws';
  dr_apart t : NoDup ws → t ∈ ws' → t ∉ granted;
  dr_held x : x ∈ held' ↔ x ∈ held ∨ ∃ t, t ∈ granted ∧ x ∈ resources t;
  dr_free t x : t ∈ granted → x ∈ resources t → x ∉ held;
  dr_disjoint t1 t2 x : t1 ∈ granted → t2 ∈ granted → x ∈ resources t1 → x ∈ resources t2 → t1 = t2;
  dr_blocked t : t ∈ ws' → ∃ x, x ∈ resources t ∧ x ∈ held';
}.

Lemma drainWaiters_spec ws : ∀ held,
  let '(ws', held', granted) := drainWaiters resources held ws in drained held ws ws' held' granted.
Proof.
  induction ws as [|w ws IH]; intros held; cbn [drainWaiters].
  { split; try set_solver. }
  destruct (existsb (js_has held) (resources w)) eqn:Hb.
  - specialize (IH held). destruct (drainWaiters resources held ws) as [[ws' held'] granted].
    apply blocked_spec in Hb as (x & Hx & Hh). destruct IH as [Hs Hn Ha Hd Hf Hj Hbl]. split.
    + intros t. specialize (Hs t). set_solver.
    + intros [Hw Hnd]%NoDup_cons. apply NoDup_cons. split; [|auto]. specialize (Hs w). set_solver.
    + intros t [Hw Hnd]%NoDup_cons. specialize (Ha t Hnd). specialize (Hs w). set_solver.
    + exact Hd.
    + exact Hf.
    + exact Hj.
    + intros t [->|Ht]%elem_of_cons; [|auto]. exists x. split; [done|]. apply Hd. by left.
  - rewrite unblocked_spec in Hb. specialize (IH (foldl js_add held (resources w))).
    destruct (drainWaiters resources _ ws) as [[ws' held'] granted].
    destruct IH as [Hs Hn Ha Hd Hf Hj Hbl].
    assert (∀ y, y ∈ foldl js_add held (resources w) ↔ y ∈ held ∨ y ∈ resources w) as Hadd
      by (intros; apply elem_of_foldl_js_add).
    split.
    + intros t. specialize (Hs t). set_solver.
    + intros [Hw Hnd]%NoDup_cons. auto.
    + intros t [Hw Hnd]%NoDup_cons Ht. specialize (Ha t Hnd Ht). specialize (Hs t). set_solver.
    + intros x. rewrite Hd Hadd. set_solver.
    + intros t x [->|Ht]%elem_of_cons Hx; [auto|]. specialize (Hf t x Ht Hx).
      rewrite Hadd in Hf. tauto.
    + intros t1 t2 x [->|H1]%elem_of_cons [->|H2]%elem_of_cons Hx1 Hx2; [done| | |by eapply Hj].
      * exfalso. apply (Hf t2 x H2 Hx2), Hadd. by right.
      * exfalso. apply (Hf t1 x H1 Hx1), Hadd. by right.
    + exact Hbl.
Qed.
End Drain.

(** ** Phases *)

Definition holding (p : Phase) : bool :=
  match p with Granted | Queued | Checking _ | Executing | Finished _ => true | _ => false end.
Definition running (p : Phase) : bool := match p with Checking _ | Executing => true | _ => false end.
Definition in_queue (p : Phase) : bool := match p with Queued => true | _ => running p end.
Definition unsettled (p : Phase) : bool := match p with Settled _ => false | _ => true end.

Definition task_op (k : Task) : Opcode := ins_op (tk_instruction k).
Definition uses (k : Task) (res : string) : Prop := res ∈ resources_of (task_op k).

(** The coordinator against the tasks, whether or not it has drained. *)
Record consistent (tasks : gmap Tid Task) (d : Coordinator) : Prop := {
  co_waiting t : t ∈ waiters d ↔ ∃ k, tasks !! t = Some k ∧ tk_phase k = Waiting;
  co_waiters : NoDup (waiters d);
  co_held res : res ∈ heldResources d ↔
    ∃ t k, tasks !! t = Some k ∧ holding (tk_phase k) = true ∧ uses k res;
  co_exclusive t1 t2 k1 k2 res : tasks !! t1 = Some k1 → tasks !! t2 = Some k2 →
    holding (tk_phase k1) = true → holding (tk_phase k2) = true → uses k1 res → uses k2 res → t1 = t2;
  co_queue t : t ∈ commitQueue d ↔
    ∃ k, tasks !! t = Some k ∧ commits (task_op k) = true ∧ in_queue (tk_phase k) = true;
  co_queue_nodup : NoDup (commitQueue d);
  co_queued t k : tasks !! t = Some k → tk_phase k = Queued → commits (task_op k) = true;
  co_head t k : tasks !! t = Some k → commits (task_op k) = true → running (tk_phase k) = true →
    head (commitQueue d) = Some t;
}.
(** Every waiter waits for a resource that is held. *)
Definition blocked (tasks : gmap Tid Task) (d : Coordinator) : Prop :=
  ∀ t k, t ∈ waiters d → tasks !! t = Some k → ∃ res, uses k res ∧ res ∈ heldResources d.

Definition coordinated (s : State) : Prop :=
  consistent (st_tasks s) (st_domain s) ∧ blocked (st_tasks s) (st_domain s).

Lemma grant_lookup tasks granted t :
  grant tasks granted !! t =
  (if decide (t ∈ granted) then with_phase Granted else id) <$> tasks !! t.
Proof.
  unfold grant. revert tasks. induction granted as [|g granted IH]; intros tasks; simpl.
  - by destruct (tasks !! t).
  - rewrite IH. destruct (decide (g = t)) as [->|Hg].
    + rewrite lookup_alter_eq. rewrite (decide_True (P := t ∈ t :: granted)); [|set_solver].
      destruct (tasks !! t) as [[]|]; simpl; [|done]. by case_decide.
    + rewrite lookup_alter_ne //. destruct (decide (t ∈ granted)).
      * rewrite decide_True //. set_solver.
      * rewrite decide_False //. set_solver.
Qed.

Lemma task_resources_task tasks t k :
  tasks !! t = Some k → task_resources tasks t = resources_of (task_op k).
Proof. unfold task_resources. by intros ->. Qed.

(** Draining restores the whole invariant. *)
Lemma drain_coordinated s :
  consistent (st_tasks s) (st_domain s) → coordinated (drain s).
Proof.
  intros Hco. unfold drain.
  pose proof (drainWaiters_spec (task_resources (st_tasks s)) (waiters (st_domain s)) (heldResources (st_domain s)))
    as Hdr.
  destruct (drainWaiters _ _ _) as [[ws held] granted]. destruct Hco, Hdr.
  assert (∀ t, t ∈ granted → ∃ k, st_tasks s !! t = Some k ∧ tk_phase k = Waiting) as Hgr.
  { intros t Ht. apply co_waiting0, dr_split0. by right. }
  assert (∀ t k, grant (st_tasks s) granted !! t = Some k → ∃ k0, st_tasks s !! t = Some k0 ∧
    task_op k = task_op k0 ∧ ((t ∈ granted ∧ tk_phase k = Granted ∧ tk_phase k0 = Waiting) ∨
      (t ∉ granted ∧ k = k0))) as Hinv.
  { intros t k. rewrite grant_lookup. destruct (st_tasks s !! t) as [k0|] eqn:Ht; [|done].
    intros [= <-]. exists k0. split; [done|]. case_decide as Hg; [|by split; [|right]].
    split; [done|left]. apply Hgr in Hg as Hw. destruct Hw as (k' & Hk' & Hw). naive_solver. }
  assert (∀ t k0, st_tasks s !! t = Some k0 → t ∉ granted → grant (st_tasks s) granted !! t = Some k0)
    as Hkeep.
  { intros t k0 Ht Hg. by rewrite grant_lookup Ht decide_False. }
  assert (∀ t k0, st_tasks s !! t = Some k0 → t ∈ granted →
    grant (st_tasks s) granted !! t = Some (with_phase Granted k0)) as Hmove.
  { intros t k0 Ht Hg. by rewrite grant_lookup Ht decide_True. }
  split; [split; simpl|].
  - intros t. split.
    + intros Ht. destruct (proj1 (co_waiting0 t)) as (k0 & Hk0 & Hw); [apply dr_split0; by left|].
      exists k0. split; [apply Hkeep; [done|by apply dr_apart0]|done].
    + intros (k & Hk & Hw). apply Hinv in Hk as (k0 & Hk0 & _ & [(_ & Hg & _)|[Hg ->]]); [congruence|].
      assert (t ∈ waiters (st_domain s)) as Ht by (apply co_waiting0; eauto).
      apply dr_split0 in Ht as [?|?]; done.
  - auto.
  - intros res. rewrite dr_held0 co_held0. split.
    + intros [(t & k & Hk & Hh & Hu)|(t & Hg & Hu)].
      * exists t, k. split_and!; [|done|done]. apply Hkeep; [done|].
        intros (k' & Hk' & Hw)%Hgr. simplify_eq. by rewrite Hw in Hh.
      * apply Hgr in Hg as Hw. destruct Hw as (k & Hk & Hw).
        rewrite (task_resources_task _ _ _ Hk) in Hu. eauto 6.
    + intros (t & k & Hk & Hh & Hu). apply Hinv in Hk as (k0 & Hk0 & Hop & [(Hg & _)|[Hg ->]]).
      * right. exists t. split; [done|]. rewrite (task_resources_task _ _ _ Hk0).
        unfold uses in Hu. by rewrite Hop in Hu.
      * left. eauto.
  - intros t1 t2 k1 k2 res H1 H2 Hh1 Hh2 Hu1 Hu2.
    apply Hinv in H1 as (k1' & H1 & Hop1 & C1). apply Hinv in H2 as (k2' & H2 & Hop2 & C2).
    unfold uses in *. rewrite Hop1 in Hu1. rewrite Hop2 in Hu2.
    rewrite -(task_resources_task _ _ _ H1) in Hu1. rewrite -(task_resources_task _ _ _ H2) in Hu2.
    destruct C1 as [(Hg1 & _)|[Hg1 ->]], C2 as [(Hg2 & _)|[Hg2 ->]].
    + by eapply dr_disjoint0.
    + exfalso. apply (dr_free0 t1 res Hg1 Hu1), co_held0. exists t2, k2'.
      rewrite (task_resources_task _ _ _ H2) in Hu2. done.
    + exfalso. apply (dr_free0 t2 res Hg2 Hu2), co_held0. exists t1, k1'.
      rewrite (task_resources_task _ _ _ H1) in Hu1. done.
    + rewrite (task_resources_task _ _ _ H1) in Hu1. rewrite (task_resources_task _ _ _ H2) in Hu2.
      by eapply co_exclusive0.
  - intros t. rewrite co_queue0. split.
    + intros (k & Hk & Hc & Hq). exists k. split_and!; [|done|done]. apply Hkeep; [done|].
      intros (k' & Hk' & Hw)%Hgr. simplify_eq. by rewrite Hw in Hq.
    + intros (k & Hk & Hc & Hq). apply Hinv in Hk as (k0 & Hk0 & _ & [(_ & Hg & _)|[_ ->]]); [|eauto].
      by rewrite Hg in Hq.
  - done.
  - intros t k Hk Hq. apply Hinv in Hk as (k0 & Hk0 & _ & [(_ & Hg & _)|[_ ->]]); [congruence|eauto].
  - intros t k Hk Hc Hr. apply Hinv in Hk as (k0 & Hk0 & _ & [(_ & Hg & _)|[_ ->]]); [|eauto].
    by rewrite Hg in Hr.
  - intros t k Ht Hk. simpl in *. apply dr_blocked0 in Ht as (x & Hx & Hh).
    apply Hinv in Hk as (k0 & Hk0 & Hop & _). exists x. split; [|done].
    unfold uses. by rewrite Hop -(task_resources_task _ _ _ Hk0).
Qed.

(** ** Changes of one task *)

Lemma alter_some {A} (f : A → A) (m : gmap Tid A) t k :
  m !! t = Some k → alter f t m = <[t := f k]> m.
Proof.
  intros Hk. apply map_eq. intros u. destruct (decide (t = u)) as [->|Hu].
  - by rewrite lookup_alter_eq lookup_insert_eq Hk.
  - by rewrite lookup_alter_ne // lookup_insert_ne.
Qed.

(** [map_cases H]: [H : <[t := k]> m !! u = Some k'] is about [t] or about [m]. *)
Ltac map_cases H :=
  apply lookup_insert_Some in H as [[? ?]|[? H]]; [subst|].

Lemma consistent_fresh tasks d t k :
  consistent tasks d → tasks !! t = None → holding (tk_phase k) = false →
  tk_phase k ≠ Waiting → consistent (<[t := k]> tasks) d.
Proof.
  intros [Cw Cn Ch Ce Cq Cqn Cqd Chd] Hn Hh Hw.
  assert (in_queue (tk_phase k) = false ∧ running (tk_phase k) = false) as [Hq Hr]
    by (by destruct (tk_phase k)).
  assert (∀ u k', tasks !! u = Some k' → <[t:=k]> tasks !! u = Some k') as Hkeep.
  { intros u k' Hu. rewrite lookup_insert_ne; [done|congruence]. }
  split; [| |intros res|intros t1 t2 k1 k2 res H1 H2 P1 P2 ??| | |intros u k' H1 R|intros u k' H1 ? R].
  - intros u. rewrite Cw. split; [naive_solver|]. intros (k' & Hk & Hp). map_cases Hk; [congruence|eauto].
  - done.
  - rewrite Ch. split; [naive_solver|]. intros (u & k' & Hk & Hp & ?). map_cases Hk; [congruence|eauto].
  - map_cases H1; map_cases H2; try congruence. by eapply Ce.
  - intros u. rewrite Cq. split; [naive_solver|].
    intros (k' & Hk & Hp & ?). map_cases Hk; [congruence|eauto].
  - done.
  - map_cases H1; [by rewrite R in Hh|eauto].
  - map_cases H1; [congruence|eauto].
Qed.

(** A new waiter at the end of the line. *)
Lemma consistent_waiter tasks d t k :
  consistent tasks d → tasks !! t = None → tk_phase k = Waiting →
  consistent (<[t := k]> tasks) (set_waiters (waiters d ++ [t]) d).
Proof.
  intros [Cw Cn Ch Ce Cq Cqn Cqd Chd] Hn Hw.
  assert (∀ u k', tasks !! u = Some k' → <[t:=k]> tasks !! u = Some k') as Hkeep.
  { intros u k' Hu. rewrite lookup_insert_ne; [done|congruence]. }
  split; simpl; [| |intros res|intros t1 t2 k1 k2 res H1 H2 P1 P2 ??| | |intros u k' H1 R|intros u k' H1 ? R].
  - intros u. rewrite elem_of_app list_elem_of_singleton Cw. split.
    + intros [(k' & Hk & Hp)| ->]; [eauto|]. exists k. by rewrite lookup_insert_eq.
    + intros (k' & Hk & Hp). map_cases Hk; [by right|left; eauto].
  - apply NoDup_app. split_and!; [done| |apply NoDup_singleton].
    intros u Hu%Cw ->%list_elem_of_singleton. naive_solver.
  - rewrite Ch. split; [naive_solver|].
    intros (u & k' & Hk & Hp & ?). map_cases Hk; [by rewrite Hw in Hp|eauto].
  - map_cases H1; map_cases H2; try done; [by rewrite Hw in P1|by rewrite Hw in P2|by eapply Ce].
  - intros u. rewrite Cq. split; [naive_solver|].
    intros (k' & Hk & ? & Hp). map_cases Hk; [by rewrite Hw in Hp|eauto].
  - done.
  - map_cases H1; [congruence|eauto].
  - map_cases H1; [by rewrite Hw in R|eauto].
Qed.

(** A holder moves on, and the commit queue with it. *)
Lemma consistent_phase tasks d t k p q :
  consistent tasks d → tasks !! t = Some k → holding (tk_phase k) = true → holding p = true →
  (∀ u, u ∈ q ↔ (u ≠ t ∧ u ∈ commitQueue d) ∨ (u = t ∧ commits (task_op k) = true ∧ in_queue p = true)) →
  NoDup q → (commits (task_op k) = true → running p = true → head q = Some t) →
  (∀ u, u ≠ t → head (commitQueue d) = Some u → head q = Some u) →
  (p = Queued → commits (task_op k) = true) →
  consistent (<[t := with_phase p k]> tasks) (set_commitQueue q d).
Proof.
  intros [Cw Cn Ch Ce Cq Cqn Cqd Chd] Hk Hh Hp Hq Hnd Ht Hu Hpq.
  assert (∀ u k', u ≠ t → <[t:=with_phase p k]> tasks !! u = Some k' ↔ tasks !! u = Some k') as Hne.
  { intros u k' Hu'. by rewrite lookup_insert_ne. }
  split; simpl; [| |intros res|intros t1 t2 k1 k2 res H1 H2 P1 P2 ??| | |intros u k' H1 R|intros u k' H1 ? R].
  - intros u. rewrite Cw. destruct (decide (u = t)) as [->|Hut].
    + rewrite lookup_insert_eq. split; intros (k' & Hk' & Hw); simplify_eq/=; by rewrite Hw in Hh.
    + by setoid_rewrite Hne.
  - done.
  - rewrite Ch. split; intros (u & k' & Hk' & Hp' & Hu').
    + destruct (decide (u = t)) as [->|Hut]; [|by exists u, k'; rewrite Hne].
      exists t, (with_phase p k). rewrite lookup_insert_eq. by simplify_eq.
    + map_cases Hk'; [|eauto]. by exists u, k.
  - map_cases H1; map_cases H2; try done.
    + by eapply (Ce _ _ k k2).
    + by eapply (Ce _ _ k1 k).
    + by eapply Ce.
  - intros u. rewrite Hq Cq. destruct (decide (u = t)) as [->|Hut].
    + rewrite lookup_insert_eq. split; [|naive_solver].
      intros [[? _]|(_ & ? & ?)]; [done|]. by exists (with_phase p k).
    + setoid_rewrite Hne; [|done]. naive_solver.
  - done.
  - map_cases H1; [by apply Hpq|eauto].
  - map_cases H1; [by apply Ht|]. apply Hu; [done|by eapply Chd].
Qed.

(** The last act of a task: its resources are free. *)
Lemma consistent_release tasks d t k res :
  consistent tasks d → tasks !! t = Some k → holding (tk_phase k) = true →
  in_queue (tk_phase k) = false →
  consistent (<[t := with_phase (Settled res) k]> tasks)
    (set_held (foldl js_delete (heldResources d) (resources_of (task_op k))) d).
Proof.
  intros [Cw Cn Ch Ce Cq Cqn Cqd Chd] Hk Hh Hnq.
  assert (∀ u k', u ≠ t → <[t:=with_phase (Settled res) k]> tasks !! u = Some k' ↔ tasks !! u = Some k')
    as Hne.
  { intros u k' Hu'. by rewrite lookup_insert_ne. }
  split; simpl; [| |intros x|intros t1 t2 k1 k2 x H1 H2 P1 P2 ??| | |intros u k' H1 R|intros u k' H1 ? R].
  - intros u. rewrite Cw. destruct (decide (u = t)) as [->|Hut]; [|by setoid_rewrite Hne].
    rewrite lookup_insert_eq. split; intros (k' & Hk' & Hw); simplify_eq/=. by rewrite Hw in Hh.
  - done.
  - rewrite elem_of_foldl_js_delete Ch. split.
    + intros [(u & k' & Hk' & Hp & Hx) Hno]. exists u, k'. destruct (decide (u = t)) as [->|Hut];
        [|by rewrite Hne]. simplify_eq. by destruct Hno.
    + intros (u & k' & Hk' & Hp & Hx). map_cases Hk'; [done|]. split; [eauto|].
      intros Hx'. assert (t = u) by (by eapply (Ce t u k k' x)). done.
  - map_cases H1; map_cases H2; try done. by eapply Ce.
  - intros u. rewrite Cq. destruct (decide (u = t)) as [->|Hut]; [|by setoid_rewrite Hne].
    rewrite lookup_insert_eq. split; intros (k' & Hk' & ? & Hq); simplify_eq/=. congruence.
  - done.
  - map_cases H1; [done|eauto].
  - map_cases H1; [done|eauto].
Qed.

Lemma consistent_inFlight tasks d m : consistent tasks d → consistent tasks (set_inFlight m d).
Proof. by intros []. Qed.
