(* ===== verification/PipelineInv.v ===== *)
(** * PipelineInv: the invariant of the pipeline machine

    What holds of the tasks, the runs and the coordinator in every interleaving:
    one lemma per kind of change (a run, a task, a new task, a release), then
    every action of the machine preserves it. *)

From S2P Require Import Prelude Types Events Isa Codec Validator Pipeline CoordinatorInv.

(** ** Programs *)

Definition program_ids (p : Program) : list string := map ins_id (pg_instructions p).
(** What the validator guarantees of a program, acyclicity aside. *)
Record program_ok (p : Program) : Prop := {
  po_ids : NoDup (program_ids p);
  po_declared i d : i ∈ pg_instructions p → d ∈ ins_dependsOn i → d ∈ program_ids p;
}.

Lemma instruction_by_id_Some p id i :
  instruction_by_id p id = Some i → i ∈ pg_instructions p ∧ ins_id i = id.
Proof.
  intros [Hin He]%find_some. split; [|by apply bool_decide_eq_true in He].
  by apply list_elem_of_In, in_rev.
Qed.
Lemma instruction_by_id_in p id : id ∈ program_ids p ↔ ∃ i, instruction_by_id p id = Some i.
Proof.
  split.
  - intros (i & -> & Hi)%list_elem_of_fmap. unfold instruction_by_id.
    destruct (List.find _ _) as [j|] eqn:Hf; [by exists j|].
    eapply find_none in Hf; [|apply (proj1 (in_rev _ _)), list_elem_of_In, Hi].
    by apply bool_decide_eq_false in Hf.
  - intros [i [Hi <-]%instruction_by_id_Some]. by apply (list_elem_of_fmap_2 ins_id).
Qed.
Lemma instruction_by_id_eq p i :
  NoDup (program_ids p) → i ∈ pg_instructions p → instruction_by_id p (ins_id i) = Some i.
Proof.
  intros Hnd Hi. destruct (proj1 (instruction_by_id_in p (ins_id i))) as [j Hj].
  { by apply (list_elem_of_fmap_2 ins_id). }
  rewrite Hj. f_equal. apply instruction_by_id_Some in Hj as [Hin He].
  apply list_elem_of_lookup in Hi as [a Ha]. apply list_elem_of_lookup in Hin as [b Hb].
  assert (a = b) as ->; [|congruence]. unfold program_ids in Hnd.
  eapply (NoDup_lookup _ a b (ins_id i)); [exact Hnd| |];
    change (map ins_id (pg_instructions p)) with (ins_id <$> pg_instructions p);
    rewrite list_lookup_fmap ?Ha ?Hb /= ?He //.
Qed.

(** ** The invariant *)

(** Every dependency of [i] has succeeded in [run]. *)
Definition ready (run : Run) (i : Instruction) : Prop :=
  ∀ d, d ∈ ins_dependsOn i → dependencySucceeded (jm_get (run_completed run) d) = true.

Record run_ok (tasks : gmap Tid Task) (r : nat) (run : Run) : Prop := {
  ro_program : program_ok (run_program run);
  ro_pending : NoDup (run_pending run);
  ro_known id : id ∈ run_pending run → id ∈ program_ids (run_program run);
  ro_fresh id : id ∈ run_pending run →
    jm_get (run_completed run) id = None ∧ id ∉ (run_active run).*1 ∧ tasks !! (r, id) = None;
  ro_actives : NoDup (run_active run).*1;
  ro_active id t : (id, t) ∈ run_active run → is_Some (tasks !! t) ∧
    ∃ i, instruction_by_id (run_program run) id = Some i ∧ ready run i;
  ro_cover id : id ∈ program_ids (run_program run) →
    id ∈ run_pending run ∨ id ∈ (run_active run).*1 ∨ jm_has (run_completed run) id = true;
  ro_completed id res : jm_get (run_completed run) id = Some res → res_id res = id ∧
    ∃ i, instruction_by_id (run_program run) id = Some i ∧
      (dependencySucceeded (Some res) = true → ready run i);
  ro_returned status results : run_phase run = Returned status results →
    run_pending run = [] ∧ run_active run = [] ∧ status = finalStatus results ∧
    results = run_results run;
}.

(** Once [executor] may have been called. *)
Definition late (p : Phase) : bool :=
  match p with Executing | Finished _ | Settled _ => true | _ => false end.
Definition phase_result (p : Phase) : option PipelineInstructionResult :=
  match p with Finished res | Settled res => Some res | _ => None end.

Section Pipeline.
Context (digest : value → string).
Implicit Types (s : State) (run : Run) (t : Tid) (k : Task).

(** The conditions on an instruction's status among [l] hold in [run]. *)
Definition judged run (l : list Precondition) : Prop :=
  ∀ j status, InstructionStatusIs j status ∈ l → ∃ res, jm_get (run_completed run) j = Some res ∧
    instruction_status_name (res_status res) = status.

Definition phase_ok (runs : list Run) t (i : Instruction) (p : Phase) : Prop :=
  (∀ res, phase_result p = Some res → res_id res = t.2) ∧
  (∀ n, p = Checking n → ∃ run c, runs !! t.1 = Some run ∧
    ins_precondition i !! n = Some (ExternalPrecondition c) ∧ judged run (take n (ins_precondition i))).

Definition task_ok (runs : list Run) t k : Prop :=
  (∃ run, runs !! t.1 = Some run ∧
    instruction_by_id (run_program run) t.2 = Some (tk_instruction k) ∧
    tk_key k = operation_key (run_program run) (tk_instruction k) ∧ ready run (tk_instruction k)) ∧
  phase_ok runs t (tk_instruction k) (tk_phase k).

Definition entry_ok (tasks : gmap Tid Task) (runs : list Run) (key : string) (e : string * Tid) : Prop :=
  ∃ k run, tasks !! e.2 = Some k ∧ tk_key k = key ∧ runs !! e.2.1 = Some run ∧
    e.1 = instructionFingerprint digest (run_program run) (tk_instruction k).

(** Before the coordinator drains; [valid] adds that it has. *)
Record sound (s : State) : Prop := {
  va_consistent : consistent (st_tasks s) (st_domain s);
  va_runs r run : st_runs s !! r = Some run → run_ok (st_tasks s) r run;
  va_tasks t k : st_tasks s !! t = Some k → task_ok (st_runs s) t k;
  va_entries key e : jm_get (inFlight (st_domain s)) key = Some e →
    entry_ok (st_tasks s) (st_runs s) key e;
  va_unsettled t k : st_tasks s !! t = Some k → unsettled (tk_phase k) = true →
    ∃ fp, jm_get (inFlight (st_domain s)) (tk_key k) = Some (fp, t);
  va_calls : NoDup (st_calls s);
  va_called t : t ∈ st_calls s → ∃ k, st_tasks s !! t = Some k ∧ late (tk_phase k) = true;
}.
Definition valid (s : State) : Prop := sound s ∧ blocked (st_tasks s) (st_domain s).

(** ** Changes of one run *)

Record extends (run run' : Run) : Prop := {
  ex_program : run_program run' = run_program run;
  ex_max : run_maxConcurrency run' = run_maxConcurrency run;
  ex_completed id res : jm_get (run_completed run) id = Some res → jm_get (run_completed run') id = Some res;
}.
#[export] Instance extends_preorder : PreOrder extends.
Proof. split; [by split|]. intros x y z [P1 M1 C1] [P2 M2 C2]. split; [congruence..|eauto]. Qed.

Lemma ready_extends run run' i : extends run run' → ready run i → ready run' i.
Proof.
  intros [_ _ Hc] Hr d Hd. specialize (Hr d Hd).
  destruct (jm_get (run_completed run) d) as [res|] eqn:Hg; [|done]. by rewrite (Hc _ _ Hg).
Qed.

(** The runs of [runs], each where it was or further on. *)
Definition forward (runs runs' : list Run) : Prop :=
  ∀ u run, runs !! u = Some run → ∃ run', runs' !! u = Some run' ∧ extends run run'.

Lemma forward_insert runs r run run' :
  runs !! r = Some run → extends run run' → forward runs (<[r := run']> runs).
Proof.
  intros Hrun Hext u run1 Hu. destruct (decide (u = r)) as [->|Hne].
  - simplify_eq. exists run'. split; [|done].
    apply list_lookup_insert_eq. by eapply lookup_lt_Some.
  - exists run1. split; [by rewrite list_lookup_insert_ne|reflexivity].
Qed.
Lemma insert_lookup_cases (runs : list Run) r run u run' :
  <[r := run]> runs !! u = Some run' → (u = r ∧ run' = run) ∨ (u ≠ r ∧ runs !! u = Some run').
Proof. intros [(-> & -> & _)|[Hne Hu]]%list_lookup_insert_Some; [by left|right]. naive_solver. Qed.

Lemma judged_extends run run' l : extends run run' → judged run l → judged run' l.
Proof.
  intros [_ _ Hc] Hj j status Hin. destruct (Hj j status Hin) as (res & Hr & ?). eauto.
Qed.
Lemma phase_ok_forward runs runs' t i p : forward runs runs' → phase_ok runs t i p → phase_ok runs' t i p.
Proof.
  intros Hf [Hres Hchk]. split; [done|]. intros n Hn. destruct (Hchk n Hn) as (run & c & Hr & Hc & Hj).
  destruct (Hf _ _ Hr) as (run' & Hr' & Hx). exists run', c. split_and!; [done..|by eapply judged_extends].
Qed.
Lemma task_ok_forward runs runs' t k : forward runs runs' → task_ok runs t k → task_ok runs' t k.
Proof.
  intros Hf [(run & Hr & Hi & Hkey & Hrd) Hres]. split; [|by eapply phase_ok_forward].
  destruct (Hf _ _ Hr) as (run' & Hr' & Hx). exists run'. rewrite (ex_program _ _ Hx).
  split_and!; [done..|by eapply ready_extends].
Qed.
Lemma entry_ok_forward tasks tasks' runs runs' key e :
  forward runs runs' → (∀ t k, tasks !! t = Some k → ∃ k', tasks' !! t = Some k' ∧
    tk_instruction k' = tk_instruction k ∧ tk_key k' = tk_key k) →
  entry_ok tasks runs key e → entry_ok tasks' runs' key e.
Proof.
  intros Hf Ht (k & run & Hk & Hkey & Hr & Hfp). destruct (Ht _ _ Hk) as (k' & Hk' & Ei & Ek).
  destruct (Hf _ _ Hr) as (run' & Hr' & Hx). exists k', run'.
  rewrite Ei Ek (ex_program _ _ Hx). done.
Qed.

Lemma sound_set_run r run run' s :
  sound s → st_runs s !! r = Some run → extends run run' → run_ok (st_tasks s) r run' →
  sound (set_run r run' s).
Proof.
  intros [Hco Hr Ht He Hu Hc Hd] Hrun Hext Hok. pose proof (forward_insert _ _ _ _ Hrun Hext) as Hf.
  split; simpl; try done.
  - intros u run1 [[-> ->]|[_ Hu1]]%insert_lookup_cases; [done|by apply Hr].
  - intros t k Hk. eapply task_ok_forward; eauto.
  - intros key e Hk. eapply entry_ok_forward; eauto.
Qed.
Lemma valid_set_run r run run' s :
  valid s → st_runs s !! r = Some run → extends run run' → run_ok (st_tasks s) r run' →
  valid (set_run r run' s).
Proof. intros [Hs Hb] ???. split; [by eapply sound_set_run|done]. Qed.

(** ** Changes of the tasks *)

Lemma run_ok_tasks tasks tasks' r run :
  run_ok tasks r run → (∀ t, is_Some (tasks !! t) → is_Some (tasks' !! t)) →
  (∀ id, id ∈ run_pending run → tasks' !! (r, id) = None) → run_ok tasks' r run.
Proof.
  intros [Hp Hn Hk Hf Ha Hac Hcv Hcm Hrt] Hsome Hnone. split; try done.
  - intros id Hid. destruct (Hf id Hid) as (? & ? & _). auto.
  - intros id t Hin. destruct (Hac id t Hin) as [Ht ?]. auto.
Qed.

(** The same tasks, each where it was or further on. *)
Record moved (runs : list Run) (tasks tasks' : gmap Tid Task) : Prop := {
  mv_dom t : is_Some (tasks !! t) ↔ is_Some (tasks' !! t);
  mv_task t k k' : tasks !! t = Some k → tasks' !! t = Some k' →
    tk_instruction k' = tk_instruction k ∧ tk_key k' = tk_key k ∧
    (unsettled (tk_phase k') = true → unsettled (tk_phase k) = true) ∧
    (late (tk_phase k) = true → late (tk_phase k') = true) ∧
    (tk_phase k' = tk_phase k ∨ phase_ok runs t (tk_instruction k) (tk_phase k'));
}.

Lemma sound_moved s d tasks calls :
  sound s → moved (st_runs s) (st_tasks s) tasks → consistent tasks d → inFlight d = inFlight (st_domain s) →
  NoDup calls → (∀ t, t ∈ calls → ∃ k, tasks !! t = Some k ∧ late (tk_phase k) = true) →
  sound (mkState d tasks (st_runs s) calls).
Proof.
  intros [Hco Hr Ht He Hu Hc Hd] [Hdom Hmv] Hcons Hinf Hnd Hcalls.
  assert (∀ t k', tasks !! t = Some k' → ∃ k, st_tasks s !! t = Some k) as Hback.
  { intros t k' Hk'. apply Hdom. eauto. }
  split; simpl; try done.
  - intros r run Hrun. eapply run_ok_tasks; [by apply Hr|by intros t ?%Hdom|].
    intros id Hid. destruct (tasks !! (r, id)) eqn:Hk; [|done].
    destruct (Hback _ _ Hk) as [k0 Hk0]. destruct (ro_fresh _ _ _ (Hr r run Hrun) id Hid) as (_ & _ & Hn).
    congruence.
  - intros t k' Hk'. destruct (Hback _ _ Hk') as [k Hk].
    destruct (Hmv t k k' Hk Hk') as (Ei & Ek & _ & _ & Hph). destruct (Ht t k Hk) as [Hrun Hold].
    split; [by rewrite Ei Ek|]. rewrite Ei. by destruct Hph as [->|?].
  - rewrite Hinf. intros key e Hk. destruct (He key e Hk) as (k & run & Hk1 & Hkey & Hrun & Hfp).
    destruct (proj1 (Hdom e.2)) as [k' Hk']; [eauto|].
    destruct (Hmv _ k k' Hk1 Hk') as (Ei & Ek & _). exists k', run. rewrite Ei Ek. done.
  - rewrite Hinf. intros t k' Hk' Hun. destruct (Hback _ _ Hk') as [k Hk].
    destruct (Hmv t k k' Hk Hk') as (_ & -> & Hs & _). eauto.
Qed.

(** Draining only grants. *)
Lemma moved_grant runs tasks granted :
  (∀ t, t ∈ granted → ∃ k, tasks !! t = Some k ∧ tk_phase k = Waiting) →
  moved runs tasks (grant tasks granted).
Proof.
  intros Hg. split.
  - intros t. rewrite grant_lookup. by destruct (tasks !! t).
  - intros t k k' Hk. rewrite grant_lookup Hk. intros [= <-]. case_decide as Hin; [|naive_solver].
    destruct (Hg t Hin) as (k0 & Hk0 & Hw). simplify_eq. rewrite /= Hw. split_and!; [done..|]. right. by split.
Qed.

Lemma drain_valid s : sound s → valid (drain s).
Proof.
  intros Hs. pose proof (va_consistent _ Hs) as Hco.
  pose proof (drain_coordinated s Hco) as [Hc Hb]. split; [|done]. unfold drain in *.
  pose proof (drainWaiters_spec (task_resources (st_tasks s)) (waiters (st_domain s)) (heldResources (st_domain s)))
    as Hdr.
  destruct (drainWaiters _ _ _) as [[ws held] granted].
  assert (moved (st_runs s) (st_tasks s) (grant (st_tasks s) granted)) as Hmv.
  { apply moved_grant. intros t Ht. apply (co_waiting _ _ Hco), (dr_split _ _ _ _ _ _ Hdr). by right. }
  apply sound_moved; [done|done|done|done|apply Hs|].
  intros t Hin. destruct (va_called _ Hs t Hin) as (k & Hk & Hl).
  destruct (proj1 (mv_dom _ _ _ Hmv t)) as [k' Hk']; [eauto|].
  exists k'. split; [done|]. by eapply (mv_task _ _ _ Hmv).
Qed.

(** ** Starting and completing instructions *)

Lemma NoDup_js_delete l x : NoDup l → NoDup (js_delete l x).
Proof.
  unfold js_delete. induction 1 as [|y l Hy Hl IH]; simpl; [constructor|].
  case_bool_decide; simpl; [done|]. constructor; [|done].
  intros Hin%elem_of_js_delete. tauto.
Qed.

(** The instruction leaves the pending ones. *)
Definition taken (id : string) (run : Run) : Run := set_pending (js_delete (run_pending run) id) run.

Lemma jm_get_complete run id res id' :
  jm_get (run_completed (complete id res run)) id'
  = if decide (id = id') then Some res else jm_get (run_completed run) id'.
Proof. apply jm_get_set. Qed.
Lemma complete_extends run id res : jm_get (run_completed run) id = None → extends run (complete id res run).
Proof.
  intros Hn. split; [done..|]. intros id' res' Hr. rewrite jm_get_complete.
  case_decide; [congruence|done].
Qed.
Lemma jm_has_get {A} (m : list (string * A)) key : jm_has m key = true ↔ ∃ v, jm_get m key = Some v.
Proof. unfold jm_has. by rewrite bool_decide_eq_true. Qed.
Lemma jm_has_complete run id res id' :
  jm_has (run_completed (complete id res run)) id' = true ↔
  id = id' ∨ jm_has (run_completed run) id' = true.
Proof. rewrite !jm_has_get jm_get_complete. case_decide; naive_solver. Qed.

Definition in_loop run : Prop := ∀ status results, run_phase run ≠ Returned status results.

(** A pending instruction completed without being started. *)
Lemma run_ok_skip tasks r run id i res :
  run_ok tasks r run → in_loop run → id ∈ run_pending run →
  instruction_by_id (run_program run) id = Some i → res_id res = id →
  dependencySucceeded (Some res) = false →
  run_ok tasks r (complete id res (taken id run)) ∧ extends run (complete id res (taken id run)).
Proof.
  intros [Hp Hn Hk Hf Ha Hac Hcv Hcm Hrt] Hl Hid Hi Hrid Hres.
  destruct (Hf id Hid) as (Hnone & Hna & Htn).
  assert (extends run (complete id res (taken id run))) as Hext.
  { split; [done..|exact (ex_completed _ _ (complete_extends (taken id run) id res Hnone))]. }
  split; [|done]. split; try done.
  - by apply NoDup_js_delete.
  - intros id' [Hin _]%elem_of_js_delete. auto.
  - intros id' [Hin Hne]%elem_of_js_delete. rewrite jm_get_complete decide_False //. auto.
  - intros id' t Hin. destruct (Hac id' t Hin) as (Ht & i' & Hi' & Hr). split; [done|].
    exists i'. split; [done|by eapply ready_extends].
  - intros id' Hin. rewrite jm_has_complete. destruct (decide (id = id')) as [->|Hne]; [by right; right; left|].
    destruct (Hcv id' Hin) as [?|[?|?]]; [left; by apply elem_of_js_delete|by right; left|by right; right; right].
  - intros id' res'. rewrite jm_get_complete. case_decide as Hc; [|intros Hr].
    + intros [= <-]. subst id'. split; [done|]. exists i. split; [done|congruence].
    + destruct (Hcm id' res' Hr) as (? & i' & Hi' & Hrd). split; [done|]. exists i'. split; [done|].
      intros Hs. eapply ready_extends; eauto.
  - intros status results Hph. by destruct (Hl status results).
Qed.

(** A pending instruction started: its promise, new or joined, becomes active. *)
Lemma run_ok_activate tasks tasks' r run id i t :
  run_ok tasks r run → in_loop run → id ∈ run_pending run →
  instruction_by_id (run_program run) id = Some i → ready run i → is_Some (tasks' !! t) →
  (∀ u, is_Some (tasks !! u) → is_Some (tasks' !! u)) →
  (∀ u, u ≠ (r, id) → tasks !! u = None → tasks' !! u = None) →
  run_ok tasks' r (set_active (jm_set (run_active run) id t) (taken id run)) ∧
  extends run (set_active (jm_set (run_active run) id t) (taken id run)).
Proof.
  intros [Hp Hn Hk Hf Ha Hac Hcv Hcm Hrt] Hl Hid Hi Hrd Ht Hsome Hnone.
  destruct (Hf id Hid) as (Hcn & Hna & Htn). split; [|by split].
  assert ((jm_set (run_active run) id t).*1 = (run_active run).*1 ++ [id]) as Ekeys.
  { rewrite jm_set_keys. apply js_add_fresh. by rewrite js_has_false. }
  split; try done.
  - by apply NoDup_js_delete.
  - intros id' [Hin _]%elem_of_js_delete. auto.
  - intros id' [Hin Hne]%elem_of_js_delete. destruct (Hf id' Hin) as (? & ? & ?).
    split_and!; [done| |apply Hnone; [congruence|done]].
    cbn [run_active set_active]. rewrite Ekeys. set_solver.
  - cbn [run_active set_active]. rewrite Ekeys. by apply NoDup_snoc.
  - cbn [run_active set_active]. rewrite jm_set_fresh //.
    intros id' t' [Hin|[= -> ->]%list_elem_of_singleton]%elem_of_app; [|by split; eauto].
    destruct (Hac id' t' Hin) as (Ht' & Hi'). by split; [apply Hsome|].
  - cbn [run_active set_active]. rewrite Ekeys. intros id' Hin.
    destruct (Hcv id' Hin) as [?|[?|?]]; [|set_solver|by right; right].
    destruct (decide (id' = id)) as [->|Hne]; [set_solver|left; by apply elem_of_js_delete].
  - intros status results Hph. by destruct (Hl status results).
Qed.

(** A new promise registered in flight, with the run that awaits it. *)
Lemma sound_new_task s d k r run i :
  sound s → st_runs s !! r = Some run → in_loop run → ins_id i ∈ run_pending run →
  instruction_by_id (run_program run) (ins_id i) = Some i → ready run i →
  jm_get (inFlight (st_domain s)) (operation_key (run_program run) i) = None →
  tk_instruction k = i → tk_key k = operation_key (run_program run) i →
  (tk_phase k = Waiting ∨ tk_phase k = Settled (abortOutcome i)) →
  consistent (<[(r, ins_id i) := k]> (st_tasks s)) d → inFlight d = inFlight (st_domain s) →
  let run' := set_active (jm_set (run_active run) (ins_id i) (r, ins_id i)) (taken (ins_id i) run) in
  sound (mkState (set_inFlight (jm_set (inFlight d) (tk_key k)
      (instructionFingerprint digest (run_program run) i, (r, ins_id i))) d)
    (<[(r, ins_id i) := k]> (st_tasks s)) (<[r := run']> (st_runs s)) (st_calls s)) ∧ extends run run'.
Proof.
  intros Hs Hrun Hl Hid Hi Hrd Hfree Eki Ekk Hkres Hco Einf run'.
  destruct (ro_fresh _ _ _ (va_runs _ Hs _ _ Hrun) _ Hid) as (_ & _ & Hnew).
  set (tasks' := <[(r, ins_id i) := k]> (st_tasks s)) in *.
  assert (∀ u ku, st_tasks s !! u = Some ku → tasks' !! u = Some ku) as Hkeep.
  { intros u ku Hu. unfold tasks'. rewrite lookup_insert_ne; [done|congruence]. }
  assert (∀ u, u ≠ (r, ins_id i) → st_tasks s !! u = None → tasks' !! u = None) as Hnone.
  { intros u Hne Hu. unfold tasks'. by rewrite lookup_insert_ne. }
  assert (run_ok tasks' r run' ∧ extends run run') as [Hok Hext].
  { apply (run_ok_activate (st_tasks s) _ r run (ins_id i) i); [by apply va_runs|done..| | |done].
    - unfold tasks'. by rewrite lookup_insert_eq.
    - intros u [ku Hu]. eauto. }
  split; [|done]. pose proof (forward_insert _ _ _ _ Hrun Hext) as Hf.
  destruct Hs as [_ Hr Ht He Hu Hc Hd]. split; simpl.
  - by apply consistent_inFlight.
  - intros u run1 [[-> ->]|[Hne Hu1]]%insert_lookup_cases; [done|].
    eapply run_ok_tasks; [by apply Hr|intros ? []; eauto|].
    intros id Hin. apply Hnone; [congruence|]. by apply (ro_fresh _ _ _ (Hr _ _ Hu1)).
  - intros u ku Hk. unfold tasks' in Hk.
    apply lookup_insert_Some in Hk as [[<- <-]|[_ Hk]]; [|by eapply task_ok_forward; eauto].
    split; [|by destruct Hkres as [->| ->]; (split; [by intros res [= <-]|])].
    exists run'. simpl. rewrite Eki Ekk.
    split_and!; [|done..|by eapply ready_extends].
    apply list_lookup_insert_eq. by eapply lookup_lt_Some.
  - rewrite Einf. intros key e. rewrite jm_get_set. case_decide as Hk.
    + intros [= <-]. subst key. exists k, run'. simpl. rewrite Eki. split_and!; [|done| |done].
      * apply lookup_insert_eq.
      * apply list_lookup_insert_eq. by eapply lookup_lt_Some.
    + intros Hg. eapply entry_ok_forward; [done| |by apply He]. eauto.
  - rewrite Einf. intros u ku Hk Hun. unfold tasks' in Hk. rewrite jm_get_set.
    apply lookup_insert_Some in Hk as [[<- <-]|[_ Hk]].
    + rewrite decide_True //. eauto.
    + destruct (Hu u ku Hk Hun) as [fp Hfp]. rewrite decide_False; [eauto|]. congruence.
  - done.
  - intros u Hin. destruct (Hd u Hin) as (ku & Hku & Hlate). eauto.
Qed.

Lemma valid_joined s r run id i fp t key :
  valid s → st_runs s !! r = Some run → in_loop run → id ∈ run_pending run →
  instruction_by_id (run_program run) id = Some i → ready run i →
  jm_get (inFlight (st_domain s)) key = Some (fp, t) →
  let run' := set_active (jm_set (run_active run) id t) (taken id run) in
  valid (set_run r run' s) ∧ extends run run'.
Proof.
  intros Hv Hrun Hl Hid Hi Hrd He run'.
  destruct (va_entries _ (proj1 Hv) _ _ He) as (k & _ & Hk & _).
  destruct (run_ok_activate (st_tasks s) (st_tasks s) r run id i t) as [Hok Hext]; [|done..|by eauto|done|done|].
  { by apply (va_runs _ (proj1 Hv)). }
  split; [|done]. by eapply valid_set_run.
Qed.

Lemma drain_frame r run' key fp t s :
  set_run r run' (registerInFlight key fp t (drain s)) = drain (set_run r run' (registerInFlight key fp t s)).
Proof. unfold registerInFlight, set_run, drain, set_domain. simpl. by destruct (drainWaiters _ _ _) as [[??]?]. Qed.

(** What a step of the loop over the pending instructions keeps. *)
Record scheduled (r : nat) (run : Run) s (run' : Run) s' : Prop := {
  sd_valid : valid (set_run r run' s');
  sd_extends : extends run run';
  sd_runs : st_runs s' = st_runs s;
  sd_phase : run_phase run' = run_phase run;
}.

Lemma start_scheduled r run i s run' s' :
  start digest r run i s = (run', s') → valid (set_run r run s) → r < length (st_runs s) →
  in_loop run → ins_id i ∈ run_pending run →
  instruction_by_id (run_program run) (ins_id i) = Some i → ready run i →
  scheduled r run s run' s' ∧ run_pending run' = js_delete (run_pending run) (ins_id i).
Proof.
  intros Hst Hv Hr Hl Hid Hi Hrd.
  assert (st_runs (set_run r run s) !! r = Some run) as Hrun by by apply list_lookup_insert_eq.
  assert (∀ x y, set_run r x (set_run r y s) = set_run r x s) as Hset.
  { intros x y. unfold set_run. simpl. by rewrite list_insert_insert_eq. }
  unfold start in Hst.
  destruct (jm_get (inFlight (st_domain s)) (operation_key _ _)) as [[fp t]|] eqn:He;
    [destruct (bool_decide _)|].
  - injection Hst as <- <-. split; [|done].
    destruct (valid_joined (set_run r run s) r run (ins_id i) i fp t (operation_key (run_program run) i))
      as [Hv' Hext]; [done..|]. rewrite Hset in Hv'. by split.
  - injection Hst as <- <-. split; [|done].
    destruct (run_ok_skip (st_tasks s) r run (ins_id i) i (failedOutcome i fc_op_id_conflict))
      as [Hok Hext]; [by apply (va_runs _ (proj1 Hv))|done..| |].
    { unfold dependencySucceeded. simpl. by rewrite andb_false_r. }
    split; [|done..]. rewrite -(Hset _ run). by eapply valid_set_run.
  - injection Hst as <- <-. split; [|done].
    set (key := operation_key (run_program run) i) in *.
    destruct (ro_fresh _ _ _ (va_runs _ (proj1 Hv) _ _ Hrun) _ Hid) as (_ & _ & Hnew). simpl in Hnew.
    unfold launch. destruct (run_aborted _).
    + destruct (sound_new_task (set_run r run s) (st_domain s) (mkTask i key (Settled (abortOutcome i)))
        r run i) as [Hs Hext]; [apply Hv|done..|by right| |done|].
      { by apply consistent_fresh; [apply (va_consistent _ (proj1 Hv))|..]. }
      split; [|done..]. simpl in Hs. rewrite list_insert_insert_eq in Hs. split; [exact Hs|].
      intros t k Ht Hk. simpl in *. destruct (proj2 Hv t k) as (res & ?); [done| |by exists res].
      map_cases Hk; [|done]. exfalso.
      apply (co_waiting _ _ (va_consistent _ (proj1 Hv))) in Ht as (k' & Hk' & _).
      simpl in Hk'. congruence.
    + destruct (sound_new_task (set_run r run s) (set_waiters (waiters (st_domain s) ++ [(r, ins_id i)]) (st_domain s))
        (mkTask i key Waiting) r run i) as [Hs Hext]; [apply Hv|done..|by left| |done|].
      { by apply consistent_waiter; [apply (va_consistent _ (proj1 Hv))|..]. }
      split; [|done| |done].
      * unfold acquire. rewrite drain_frame. apply drain_valid.
        simpl in Hs. rewrite list_insert_insert_eq in Hs. exact Hs.
      * unfold registerInFlight, acquire, drain. simpl.
        by destruct (drainWaiters _ _ _) as [[??]?].
Qed.

(** ** The loop of a run *)

Lemma scheduled_trans r run s run1 s1 run2 s2 :
  scheduled r run s run1 s1 → scheduled r run1 s1 run2 s2 → scheduled r run s run2 s2.
Proof. intros [V1 X1 L1 P1] [V2 X2 L2 P2]. split; [done|by etransitivity|congruence..]. Qed.

Lemma find_none_ready run i :
  List.find (λ d, negb (dependencySucceeded (jm_get (run_completed run) d))) (ins_dependsOn i) = None →
  ready run i.
Proof.
  intros Hf d Hd%list_elem_of_In. eapply find_none in Hf; [|exact Hd]. by apply negb_false_iff in Hf.
Qed.

Lemma skip_scheduled r run s i :
  valid (set_run r run s) → r < length (st_runs s) → in_loop run → ins_id i ∈ run_pending run →
  instruction_by_id (run_program run) (ins_id i) = Some i →
  scheduled r run s (complete (ins_id i) (skippedOutcome i) (taken (ins_id i) run)) s.
Proof.
  intros Hv Hr Hl Hid Hi.
  assert (st_runs (set_run r run s) !! r = Some run) as Hrun by by apply list_lookup_insert_eq.
  destruct (run_ok_skip (st_tasks s) r run (ins_id i) i (skippedOutcome i))
    as [Hok Hext]; [by apply (va_runs _ (proj1 Hv))|done..| |].
  { unfold dependencySucceeded. simpl. by rewrite andb_false_r. }
  split; [|done..].
  replace (set_run r (complete _ _ _) s) with
    (set_run r (complete (ins_id i) (skippedOutcome i) (taken (ins_id i) run)) (set_run r run s))
    by (unfold set_run; simpl; by rewrite list_insert_insert_eq).
  by eapply valid_set_run.
Qed.

Lemma schedule_scheduled r ids : ∀ run s progressed run' s' progressed',
  schedule digest r ids run s progressed = (run', s', progressed') →
  valid (set_run r run s) → r < length (st_runs s) → in_loop run →
  NoDup ids → (∀ id, id ∈ ids → id ∈ run_pending run) → scheduled r run s run' s'.
Proof.
  induction ids as [|id ids IH]; intros run s pg run' s' pg' Hsch Hv Hr Hl Hnd Hin.
  { injection Hsch as <- <- _. by split. }
  apply NoDup_cons in Hnd as [Hnid Hnd]. cbn [schedule] in Hsch.
  destruct (_ <=? _)%nat; [by injection Hsch as <- <- _; split|].
  destruct (instruction_by_id (run_program run) id) as [i|] eqn:Hi; [|eapply IH; eauto; set_solver].
  destruct (forallb _ _); [|eapply IH; eauto; set_solver].
  apply instruction_by_id_Some in Hi as Hi'. destruct Hi' as [_ <-].
  assert (ins_id i ∈ run_pending run) as Hid by set_solver.
  destruct (List.find _ _) eqn:Hf.
  - assert (scheduled r run s (complete (ins_id i) (skippedOutcome i) (taken (ins_id i) run)) s) as Hs
      by by apply skip_scheduled.
    eapply scheduled_trans; [exact Hs|]. eapply IH; [exact Hsch|apply Hs|done|done|done|].
    intros x Hx. apply elem_of_js_delete. split; [set_solver|]. by intros ->.
  - apply find_none_ready in Hf. destruct (start digest r run i s) as [run1 s1] eqn:Hst.
    destruct (start_scheduled _ _ _ _ _ _ Hst Hv Hr Hl Hid Hi Hf) as [Hs Ep].
    eapply scheduled_trans; [exact Hs|]. eapply IH; [exact Hsch|apply Hs| | |done|].
    + by rewrite (sd_runs _ _ _ _ _ Hs).
    + intros st rs. rewrite (sd_phase _ _ _ _ _ Hs). apply Hl.
    + intros x Hx. rewrite Ep. apply elem_of_js_delete. split; [set_solver|]. by intros ->.
Qed.

(** Cancelling what is pending. *)
Lemma cancelled_completed ids : ∀ run,
  (∀ id, id ∈ ids → ∃ i, instruction_by_id (run_program run) id = Some i) → NoDup ids →
  let run' := foldl (λ run id,
    match instruction_by_id (run_program run) id with
    | Some i => complete id (abortOutcome i) run
    | None => run
    end) run ids in
  run_program run' = run_program run ∧ run_active run' = run_active run ∧ run_phase run' = run_phase run ∧
  run_aborted run' = run_aborted run ∧ run_maxConcurrency run' = run_maxConcurrency run ∧
  (∀ id i, id ∈ ids → instruction_by_id (run_program run) id = Some i →
    jm_get (run_completed run') id = Some (abortOutcome i)) ∧
  (∀ id, id ∉ ids → jm_get (run_completed run') id = jm_get (run_completed run) id).
Proof.
  induction ids as [|id ids IH]; intros run Hids Hnd; simpl; [split_and!; set_solver|].
  apply NoDup_cons in Hnd as [Hnid Hnd]. destruct (Hids id) as [i Hi]; [set_solver|]. rewrite Hi.
  destruct (IH (complete id (abortOutcome i) run)) as (E1 & E2 & E3 & E4 & E5 & Hin & Hout);
    [set_solver|done|]. split_and!; [done..| |].
  - intros x j [->|Hx]%elem_of_cons Hj; [|by apply Hin].
    rewrite Hout // jm_get_complete decide_True //. congruence.
  - intros x Hx. rewrite Hout; [|set_solver]. rewrite jm_get_complete decide_False //. set_solver.
Qed.

Lemma run_ok_cancel tasks r run :
  run_ok tasks r run → in_loop run →
  run_ok tasks r (cancel_pending run) ∧ extends run (cancel_pending run).
Proof.
  intros [Hp Hn Hk Hf Ha Hac Hcv Hcm Hrt] Hl.
  assert (∀ id, id ∈ run_pending run → ∃ i, instruction_by_id (run_program run) id = Some i) as Hids
    by (intros id Hid; by apply instruction_by_id_in, Hk).
  destruct (cancelled_completed (run_pending run) run Hids Hn) as (E1 & E2 & E3 & _ & E5 & Hin & Hout).
  unfold cancel_pending. set (run' := foldl _ run _) in *. simpl in *.
  assert (∀ id res, jm_get (run_completed run) id = Some res → jm_get (run_completed run') id = Some res)
    as Hkeep.
  { intros id res Hr. rewrite Hout //. intros Hid. destruct (Hf id Hid) as (? & _). congruence. }
  assert (extends run (set_pending [] run')) as Hext by by split.
  split; [|done]. split; simpl; rewrite ?E1 ?E2; try done.
  - constructor.
  - intros ? []%not_elem_of_nil.
  - intros ? []%not_elem_of_nil.
  - intros id t Hia. destruct (Hac id t Hia) as (Ht & i & Hi & Hr). split; [done|].
    exists i. split; [done|by eapply ready_extends].
  - intros id Hid. destruct (Hcv id Hid) as [Hpd|[?|(res & Hr)%jm_has_get]].
    + right; right. apply jm_has_get. destruct (Hids id Hpd) as [i Hi]. eauto.
    + by right; left.
    + right; right. apply jm_has_get. eauto.
  - intros id res Hr. destruct (decide (id ∈ run_pending run)) as [Hid|Hid].
    + destruct (Hids id Hid) as [i Hi]. rewrite (Hin id i Hid Hi) in Hr. injection Hr as <-.
      split; [by apply instruction_by_id_Some in Hi as [_ <-]|]. exists i. split; [done|].
      unfold dependencySucceeded. simpl. by rewrite andb_false_r.
    + rewrite Hout // in Hr. destruct (Hcm id res Hr) as (? & i & Hi & Hs). split; [done|].
      exists i. split; [done|]. intros ?. eapply ready_extends; eauto.
  - intros status results. rewrite E3. by intros ?%Hl.
Qed.

Lemma run_ok_phase tasks r run p :
  run_ok tasks r run → (∀ status results, p = Returned status results →
    run_pending run = [] ∧ run_active run = [] ∧ status = finalStatus results ∧ results = run_results run) →
  run_ok tasks r (set_run_phase p run).
Proof. intros [] Hp. by split. Qed.

Lemma valid_phase r run p s :
  valid s → st_runs s !! r = Some run → (∀ status results, p = Returned status results →
    run_pending run = [] ∧ run_active run = [] ∧ status = finalStatus results ∧ results = run_results run) →
  valid (set_run r (set_run_phase p run) s).
Proof.
  intros Hv Hrun Hp. eapply valid_set_run; [done..|by split|].
  apply run_ok_phase; [by apply (va_runs _ (proj1 Hv))|done].
Qed.

Lemma set_run_twice r x y s : set_run r x (set_run r y s) = set_run r x s.
Proof. unfold set_run. simpl. by rewrite list_insert_insert_eq. Qed.
Lemma set_run_same r run s : st_runs s !! r = Some run → set_run r run s = s.
Proof. intros Hr. unfold set_run. rewrite list_insert_id //. by destruct s. Qed.

Lemma iterate_valid r run s :
  valid s → st_runs s !! r = Some run → run_phase run = Looping → valid (iterate digest r run s).
Proof.
  intros Hv Hrun Hph. unfold iterate. assert (in_loop run) as Hl by (intros st rs; by rewrite Hph).
  destruct (bool_decide (run_pending run = []) && _) eqn:Hend.
  { apply andb_true_iff in Hend as [Hp%bool_decide_eq_true Ha%bool_decide_eq_true].
    apply valid_phase; [done..|]. by intros st rs [= <- <-]. }
  pose proof (va_runs _ (proj1 Hv) _ _ Hrun) as Hok.
  set (run1 := if run_aborted run then cancel_pending run else run).
  assert (run_ok (st_tasks s) r run1 ∧ extends run run1 ∧ in_loop run1) as (Hok1 & Hx1 & Hl1).
  { unfold run1. destruct (run_aborted run); [|by split_and!; [|reflexivity|]].
    destruct (run_ok_cancel _ _ _ Hok Hl) as [? ?]. split_and!; [done..|].
    intros st rs. destruct (cancelled_completed (run_pending run) run) as (_ & _ & E3 & _).
    - intros id Hid. by apply instruction_by_id_in, (ro_known _ _ _ Hok).
    - apply Hok.
    - unfold cancel_pending. simpl in *. rewrite E3. apply Hl. }
  assert (valid (set_run r run1 s)) as Hv1 by by eapply valid_set_run.
  destruct (schedule digest r (run_pending run1) run1 s false) as [[run2 s2] pg] eqn:Hsch.
  assert (scheduled r run1 s run2 s2) as Hs.
  { eapply schedule_scheduled; [done|done| |done| |done]; [by eapply lookup_lt_Some|apply Hok1]. }
  destruct Hs as [Hv2 Hx2 Hlen Hp2].
  rewrite -(set_run_twice _ _ run2). apply valid_phase; [done| |].
  - simpl. apply list_lookup_insert_eq. rewrite Hlen. by eapply lookup_lt_Some.
  - intros st rs. by repeat case_match.
Qed.

Lemma wake_valid r run run' s :
  valid s → st_runs s !! r = Some run → run_phase run = Racing → wake run = Some run' →
  valid (set_run r run' s).
Proof.
  intros Hv Hrun Hph Hw. unfold wake in Hw. destruct (existsb _ _); [|done]. injection Hw as <-.
  eapply valid_set_run; [done..|by split|].
  destruct (va_runs _ (proj1 Hv) _ _ Hrun) as [Hp Hn Hk Hf Ha Hac Hcv Hcm Hrt].
  set (act := List.filter _ _).
  assert (∀ id t, (id, t) ∈ act ↔ (id, t) ∈ run_active run ∧ jm_has (run_completed run) id = false) as Hact.
  { intros id t. unfold act. rewrite !list_elem_of_In filter_In /= negb_true_iff. done. }
  assert (∀ id, id ∈ act.*1 → id ∈ (run_active run).*1) as Hsub.
  { intros id ([id' t] & -> & [Hin _]%Hact)%list_elem_of_fmap. by apply (list_elem_of_fmap_2 fst _ (id', t)). }
  split; try done.
  - intros id Hid. destruct (Hf id Hid) as (? & Hna & ?). split_and!; [done| |done].
    intros ?%Hsub. done.
  - simpl. unfold act. clear -Ha. induction (run_active run) as [|[id t] l IH]; simpl; [constructor|].
    apply NoDup_cons in Ha as [Hid Ha]. specialize (IH Ha). case_match; simpl; [|done].
    apply NoDup_cons. split; [|done]. intros ([id' t'] & -> & Hin)%list_elem_of_fmap. apply Hid.
    apply list_elem_of_In, filter_In in Hin as [Hin%list_elem_of_In _].
    by apply (list_elem_of_fmap_2 fst _ (id', t')).
  - intros id t [Hin _]%Hact. by apply Hac.
  - intros id Hid. destruct (Hcv id Hid) as [?|[Hin|?]]; [by left| |by right; right].
    destruct (jm_has (run_completed run) id) eqn:Hc; [by right; right|right; left].
    apply list_elem_of_fmap in Hin as ([id' t] & -> & Hin).
    apply (list_elem_of_fmap_2 fst _ (id', t)). by apply Hact.
Qed.

Lemma complete_valid r run s id t k i res :
  valid s → st_runs s !! r = Some run → jm_get (run_active run) id = Some t →
  st_tasks s !! t = Some k → instruction_by_id (run_program run) id = Some i →
  tk_phase k = Settled res → jm_has (run_completed run) id = false →
  valid (set_run r (complete id (if bool_decide (t = (r, id)) then res else joinedResult i res) run) s).
Proof.
  intros Hv Hrun Hact Hk Hi Hph Hc. apply jm_get_in in Hact.
  pose proof (va_runs _ (proj1 Hv) _ _ Hrun) as [Hp Hn Hkn Hf Ha Hac Hcv Hcm Hrt].
  destruct (Hac id t Hact) as (_ & i' & Hi' & Hrd). simplify_eq.
  assert (jm_get (run_completed run) id = None) as Hnone.
  { destruct (jm_get (run_completed run) id) eqn:E; [|done]. rewrite (proj2 (jm_has_get (run_completed run) id)) in Hc; [done|eauto]. }
  set (res' := if bool_decide (t = (r, id)) then res else joinedResult i res).
  assert (res_id res' = id) as Hid.
  { unfold res'. case_bool_decide; [|by apply instruction_by_id_Some in Hi as [_ <-]]. subst t.
    destruct (va_tasks _ (proj1 Hv) _ _ Hk) as [_ [Hr _]]. apply (Hr res). by rewrite Hph. }
  pose proof (complete_extends run id res' Hnone) as Hext.
  eapply valid_set_run; [done..|]. split; try done.
  - intros id' Hid'. destruct (Hf id' Hid') as (? & Hna & ?). split_and!; [|done..].
    rewrite jm_get_complete decide_False //. intros ->. apply Hna. by apply (list_elem_of_fmap_2 fst _ (id', t)).
  - intros id' t' Hin. destruct (Hac id' t' Hin) as (Ht' & j & Hj & Hrj). split; [done|].
    exists j. split; [done|by eapply ready_extends].
  - intros id' Hin. rewrite jm_has_complete. destruct (Hcv id' Hin) as [?|[?|?]]; tauto.
  - intros id' r' . rewrite jm_get_complete. case_decide as E.
    + intros [= <-]. subst id'. split; [done|]. exists i. split; [done|].
      intros _. by eapply ready_extends.
    + intros Hg. destruct (Hcm id' r' Hg) as (? & j & Hj & Hs). split; [done|]. exists j. split; [done|].
      intros ?. eapply ready_extends; eauto.
  - intros st rs Hret. destruct (Hrt st rs Hret) as (_ & Hnil & _).
    rewrite Hnil in Hact. by apply not_elem_of_nil in Hact.
Qed.

(** ** The body of a task *)

Lemma moved_phase runs tasks t k p :
  tasks !! t = Some k → unsettled (tk_phase k) = true → (late (tk_phase k) = true → late p = true) →
  phase_ok runs t (tk_instruction k) p → moved runs tasks (<[t := with_phase p k]> tasks).
Proof.
  intros Hk Hun Hl Hres. split.
  - intros u. destruct (decide (t = u)) as [<-|Hne]; [by rewrite lookup_insert_eq Hk|].
    by rewrite lookup_insert_ne.
  - intros u k1 k2 H1 H2. apply lookup_insert_Some in H2 as [[<- <-]|[_ H2]]; [|naive_solver].
    simplify_eq. split_and!; [done..|by intros _|done|by right].
Qed.

(** A holder moves on to [p], the commit queue to [q], the calls to [calls]. *)
Lemma valid_move s t k p q calls :
  valid s → st_tasks s !! t = Some k → holding (tk_phase k) = true → holding p = true →
  (late (tk_phase k) = true → late p = true) →
  phase_ok (st_runs s) t (tk_instruction k) p →
  (∀ u, u ∈ q ↔ (u ≠ t ∧ u ∈ commitQueue (st_domain s)) ∨
    (u = t ∧ commits (task_op k) = true ∧ in_queue p = true)) → NoDup q →
  (commits (task_op k) = true → running p = true → head q = Some t) →
  (∀ u, u ≠ t → head (commitQueue (st_domain s)) = Some u → head q = Some u) →
  (p = Queued → commits (task_op k) = true) →
  (calls = st_calls s ∨ (calls = st_calls s ++ [t] ∧ late (tk_phase k) = false ∧ late p = true)) →
  valid (mkState (set_commitQueue q (st_domain s)) (<[t := with_phase p k]> (st_tasks s))
    (st_runs s) calls).
Proof.
  intros [Hs Hb] Hk Hh Hp Hl Hres Hq Hnd Hhd Hhd' Hpq Hcalls.
  assert (moved (st_runs s) (st_tasks s) (<[t := with_phase p k]> (st_tasks s))) as Hmv.
  { apply moved_phase; [done| |done..]. by destruct (tk_phase k). }
  split.
  - apply sound_moved; [done..| |done| |].
    + by apply consistent_phase; [apply Hs|..].
    + destruct Hcalls as [->|(-> & Hnl & _)]; [apply Hs|]. apply NoDup_snoc; [apply Hs|].
      intros Hin. destruct (va_called _ Hs t Hin) as (k' & Hk' & Hlate). simplify_eq. congruence.
    + assert (∀ u, u ∈ st_calls s → ∃ k', <[t:=with_phase p k]> (st_tasks s) !! u = Some k' ∧
        late (tk_phase k') = true) as Hold.
      { intros u Hin. destruct (va_called _ Hs u Hin) as (k1 & Hk1 & Hlate).
        destruct (proj1 (mv_dom _ _ _ Hmv u)) as [k2 Hk2]; [eauto|].
        exists k2. split; [done|]. by eapply (mv_task _ _ _ Hmv). }
      destruct Hcalls as [->|(-> & _ & Hlp)]; [done|].
      intros u [Hin| ->%list_elem_of_singleton]%elem_of_app; [by apply Hold|].
      exists (with_phase p k). by rewrite lookup_insert_eq.
  - intros u k' Hu Hk'. simpl in *. apply lookup_insert_Some in Hk' as [[<- <-]|[_ Hk']]; [|by eapply Hb].
    apply (co_waiting _ _ (va_consistent _ Hs)) in Hu as (k1 & Hk1 & Hw). simplify_eq.
    by rewrite Hw in Hh.
Qed.

Lemma set_commitQueue_id d : set_commitQueue (commitQueue d) d = d.
Proof. by destruct d. Qed.

(** A committing task past [Queued] is at the head of the queue, the others are not in it. *)
Definition entitled s t k : Prop :=
  if commits (task_op k) then head (commitQueue (st_domain s)) = Some t
  else t ∉ commitQueue (st_domain s).

Lemma entitled_running s t k :
  valid s → st_tasks s !! t = Some k → running (tk_phase k) = true → entitled s t k.
Proof.
  intros [Hs _] Hk Hr. unfold entitled. destruct (commits _) eqn:Hc.
  - by apply (co_head _ _ (va_consistent _ Hs) t k).
  - intros (k' & Hk' & Hc' & _)%(co_queue _ _ (va_consistent _ Hs)). simplify_eq. congruence.
Qed.

(** The task is judged, or its executor called. *)
Lemma valid_run s t k p calls :
  valid s → st_tasks s !! t = Some k → holding (tk_phase k) = true → late (tk_phase k) = false →
  running p = true → phase_ok (st_runs s) t (tk_instruction k) p → entitled s t k →
  (calls = st_calls s ∨ calls = st_calls s ++ [t] ∧ late p = true) →
  valid (mkState (st_domain s) (<[t := with_phase p k]> (st_tasks s)) (st_runs s) calls).
Proof.
  intros Hv Hk Hh Hl Hr Hok He Hcalls. rewrite -{1}(set_commitQueue_id (st_domain s)).
  pose proof (va_consistent _ (proj1 Hv)) as Hco. unfold entitled in He.
  apply valid_move; [done..|by destruct p|congruence|done| |apply Hco| |done|by intros ->|naive_solver].
  - intros u. destruct (decide (u = t)) as [->|Hne]; [|naive_solver].
    destruct (commits (task_op k)) eqn:Hc; [|naive_solver].
    split; [intros _; right; by destruct p|]. intros _.
    destruct (commitQueue (st_domain s)) as [|? ?]; [done|]. injection He as ->. by left.
  - intros Hc _. by rewrite Hc in He.
Qed.

Lemma elem_of_filter_ne (l : list Tid) t u :
  u ∈ List.filter (λ u, negb (bool_decide (u = t))) l ↔ u ≠ t ∧ u ∈ l.
Proof. rewrite !list_elem_of_In filter_In. case_bool_decide; naive_solver. Qed.
Lemma NoDup_filter_ne (l : list Tid) t : NoDup l → NoDup (List.filter (λ u, negb (bool_decide (u = t))) l).
Proof.
  induction 1 as [|y l Hy Hl IH]; simpl; [constructor|]. case_bool_decide; simpl; [done|].
  constructor; [|done]. intros [_ Hin]%elem_of_filter_ne. done.
Qed.

(** The task's [run] returns. *)
Lemma finish_valid s t k res :
  valid s → st_tasks s !! t = Some k → holding (tk_phase k) = true → res_id res = t.2 →
  valid (finish t res s).
Proof.
  intros Hv Hk Hh Hid. unfold finish, set_phase. simpl. rewrite (alter_some _ _ _ _ Hk).
  pose proof (va_consistent _ (proj1 Hv)) as Hco.
  apply valid_move; [done..| | | | | |done|by left].
  - split; [by intros res' [= <-]|done].
  - intros u. rewrite elem_of_filter_ne. split; [by left|]. by intros [?|(_ & _ & ?)].
  - apply NoDup_filter_ne, Hco.
  - done.
  - intros u Hne Hhd. destruct (commitQueue (st_domain s)) as [|v l]; [done|]. injection Hhd as ->.
    simpl. by rewrite bool_decide_false.
Qed.

Lemma enter_valid s t k step :
  valid s → st_tasks s !! t = Some k → holding (tk_phase k) = true → late (tk_phase k) = false →
  entitled s t k →
  match step with
  | inl p => running p = true ∧ phase_ok (st_runs s) t (tk_instruction k) p
  | inr res => res_id res = t.2
  end →
  valid (enter t step s).
Proof.
  intros Hv Hk Hh Hl He Hstep. destruct step as [p|res]; [|by eapply finish_valid].
  destruct Hstep as [Hrn Hok].
  destruct p; try done; unfold enter, set_phase; simpl; rewrite (alter_some _ _ _ _ Hk);
    by apply valid_run; [done..|auto].
Qed.

Lemma judged_snoc run l c :
  judged run l → match c with
    | InstructionStatusIs j status => ∃ res, jm_get (run_completed run) j = Some res ∧
        instruction_status_name (res_status res) = status
    | ExternalPrecondition _ => True end → judged run (l ++ [c]).
Proof.
  intros Hl Hc j status [Hin|Hin]%elem_of_app; [by apply Hl|].
  apply list_elem_of_singleton in Hin. by subst c.
Qed.

(** The preconditions before [index] being judged, those the step passes are too. *)
Lemma advance_step runs run i t rest : ∀ index done,
  ins_id i = t.2 → runs !! t.1 = Some run → ins_precondition i = done ++ rest →
  length done = index → judged run done →
  match advance run i index rest with
  | inl p => running p = true ∧ phase_ok runs t i p ∧
      (p = Executing → run_aborted run = false ∧ judged run (ins_precondition i))
  | inr res => res_id res = t.2
  end.
Proof.
  induction rest as [|[j status|c] rest IH]; intros index done Hid Hrun Hpre Hlen Hj; simpl.
  - rewrite app_nil_r in Hpre. destruct (run_aborted run) eqn:Hab; [done|].
    split_and!; [done| |by rewrite Hpre]. by split.
  - destruct (jm_get _ _) as [res|] eqn:Hg; [|done]. case_bool_decide as Hs; [|done].
    apply (IH (S index) (done ++ [InstructionStatusIs j status])); [done|done| | |].
    + by rewrite -assoc.
    + rewrite length_app /=. lia.
    + apply judged_snoc; [done|]. eauto.
  - destruct (run_hasChecker run); [|done]. split_and!; [done| |done].
    split; [done|]. intros n [= <-]. exists run, c. rewrite Hpre take_app_length' //.
    split_and!; [done| |done]. by rewrite -Hlen list_lookup_middle.
Qed.

Lemma task_id s t k : valid s → st_tasks s !! t = Some k → ins_id (tk_instruction k) = t.2.
Proof.
  intros [Hs _] Hk. destruct (va_tasks _ Hs _ _ Hk) as [(run & _ & Hi & _) _].
  by apply instruction_by_id_Some in Hi as [_ ?].
Qed.

Lemma advance_from_start runs run i t :
  ins_id i = t.2 → runs !! t.1 = Some run →
  match advance run i 0 (ins_precondition i) with
  | inl p => running p = true ∧ phase_ok runs t i p ∧
      (p = Executing → run_aborted run = false ∧ judged run (ins_precondition i))
  | inr res => res_id res = t.2
  end.
Proof.
  intros Hid Hrun. eapply (advance_step runs run i t _ 0 []); [done..|].
  by intros j status ?%not_elem_of_nil.
Qed.

(** The host found the precondition [n] valid: what comes next. *)
Lemma advance_after_verdict s t k run n :
  valid s → st_tasks s !! t = Some k → st_runs s !! t.1 = Some run → tk_phase k = Checking n →
  let i := tk_instruction k in
  match advance run i (S n) (drop (S n) (ins_precondition i)) with
  | inl p => running p = true ∧ phase_ok (st_runs s) t i p ∧
      (p = Executing → run_aborted run = false ∧ judged run (ins_precondition i))
  | inr res => res_id res = t.2
  end.
Proof.
  intros Hv Hk Hrun Hph i. pose proof (task_id _ _ _ Hv Hk) as Hid.
  destruct (va_tasks _ (proj1 Hv) _ _ Hk) as [_ [_ Hchk]].
  destruct (Hchk n Hph) as (run' & c & Hrun' & Hc & Hj). simplify_eq.
  eapply (advance_step (st_runs s) run i t _ (S n) (take (S n) (ins_precondition i))); [done..| | |].
  - by rewrite take_drop.
  - rewrite length_take. apply lookup_lt_Some in Hc. fold i in Hc. lia.
  - rewrite (take_S_r _ _ _ Hc). by apply judged_snoc.
Qed.

Lemma begin_valid s t k run :
  valid s → st_tasks s !! t = Some k → st_runs s !! t.1 = Some run →
  holding (tk_phase k) = true → late (tk_phase k) = false →
  entitled s t k → valid (begin t k run s).
Proof.
  intros Hv Hk Hrun Hh Hl He. pose proof (task_id _ _ _ Hv Hk) as Hid. unfold begin.
  eapply enter_valid; [done..|]. destruct (run_aborted run); [done|].
  pose proof (advance_from_start _ _ _ _ Hid Hrun). case_match; naive_solver.
Qed.

(** The resources go back, the waiters are drained. *)
Lemma release_valid s t k res :
  valid s → st_tasks s !! t = Some k → tk_phase k = Finished res →
  valid (release t (set_phase t (Settled res) s)).
Proof.
  intros [Hs Hb] Hk Hph. unfold release, set_phase. simpl. rewrite (alter_some _ _ _ _ Hk).
  apply drain_valid. simpl.
  assert (moved (st_runs s) (st_tasks s) (<[t := with_phase (Settled res) k]> (st_tasks s))) as Hmv.
  { apply moved_phase; [done|by rewrite Hph|done|]. split; [|done].
    destruct (va_tasks _ Hs _ _ Hk) as [_ [Hr _]]. rewrite Hph in Hr. exact Hr. }
  apply (sound_moved s); [exact Hs|exact Hmv| |done|apply Hs|].
  - rewrite /task_resources lookup_insert_eq.
    apply consistent_release; [apply Hs|done|by rewrite Hph|by rewrite Hph].
  - intros u Hin. destruct (va_called _ Hs u Hin) as (k1 & Hk1 & Hlate).
    destruct (proj1 (mv_dom _ _ _ Hmv u)) as [k2 Hk2]; [eauto|].
    exists k2. split; [done|]. by eapply (mv_task _ _ _ Hmv).
Qed.

Lemma forget_valid s key e k res :
  valid s → jm_get (inFlight (st_domain s)) key = Some e → st_tasks s !! e.2 = Some k →
  tk_phase k = Settled res →
  valid (set_domain (set_inFlight (jm_delete (inFlight (st_domain s)) key) (st_domain s)) s).
Proof.
  intros [[Hco Hr Ht He Hu Hc Hd] Hb] Hk Htk Hph. split; [split; simpl; try done|done].
  - by apply consistent_inFlight.
  - intros key' e'. rewrite jm_get_delete. case_decide; [done|]. apply He.
  - intros t k' Hk' Hun. destruct (Hu t k' Hk' Hun) as [fp Hfp]. exists fp.
    rewrite jm_get_delete decide_False //. intros ->. simplify_eq. simpl in *. simplify_eq.
    by rewrite Hph in Hun.
Qed.

(** ** Every action *)

Lemma resume_valid s t k run :
  valid s → st_tasks s !! t = Some k → st_runs s !! t.1 = Some run → tk_phase k = Granted →
  valid (if commits (task_op k)
         then set_phase t Queued (set_domain (set_commitQueue (commitQueue (st_domain s) ++ [t]) (st_domain s)) s)
         else begin t k run s).
Proof.
  intros Hv Hk Hrun Hph. pose proof (va_consistent _ (proj1 Hv)) as Hco.
  assert (t ∉ commitQueue (st_domain s)) as Hnq.
  { intros (k' & Hk' & _ & Hq)%(co_queue _ _ Hco). simplify_eq. by rewrite Hph in Hq. }
  destruct (commits (task_op k)) eqn:Hc.
  - unfold set_phase. simpl. rewrite (alter_some _ _ _ _ Hk).
    apply valid_move; [done|done|by rewrite Hph|done|by rewrite Hph|by split| | |done| |done|by left].
    + intros u. rewrite elem_of_app list_elem_of_singleton. split; [|naive_solver].
      intros [Hu| ->]; [|by right]. left. split; [|done]. by intros ->.
    + apply NoDup_snoc; [apply Hco|done].
    + intros u _ Hhd. by destruct (commitQueue (st_domain s)).
  - eapply begin_valid; [done..|by rewrite Hph|by rewrite Hph|]. unfold entitled. by rewrite Hc.
Qed.

Lemma perform_valid s a s' : valid s → perform digest s a = Some s' → valid s'.
Proof.
  intros Hv Hp. destruct a as [r|r|r|t|t|t v|t o|t|t|key|r id]; simpl in Hp.
  - apply bind_Some in Hp as (run & Hrun & Hp). destruct (run_phase run) eqn:Hph; try done.
    injection Hp as <-. by apply iterate_valid.
  - apply bind_Some in Hp as (run & Hrun & Hp). destruct (run_phase run) eqn:Hph; try done.
    apply bind_Some in Hp as (run' & Hw & [= <-]). by eapply wake_valid.
  - apply bind_Some in Hp as (run & Hrun & Hp). destruct (run_aborted run); [done|].
    injection Hp as <-. eapply valid_set_run; [done..|by split|].
    destruct (va_runs _ (proj1 Hv) _ _ Hrun). by split.
  - apply bind_Some in Hp as (k & Hk & (run & Hrun & Hp)%bind_Some).
    destruct (tk_phase k) eqn:Hph; try done. pose proof (resume_valid s t k run Hv Hk Hrun Hph) as Hr.
    unfold task_op in Hr. by destruct (commits _); injection Hp as <-.
  - apply bind_Some in Hp as (k & Hk & (run & Hrun & Hp)%bind_Some).
    destruct (tk_phase k) eqn:Hph; try done. destruct (commitQueue (st_domain s)) as [|u q] eqn:Hq; [done|].
    case_bool_decide; [|done]. injection Hp as <-. subst u.
    eapply begin_valid; [done..|by rewrite Hph|by rewrite Hph|]. unfold entitled. rewrite Hq.
    assert (t ∈ commitQueue (st_domain s)) as Hin by (rewrite Hq; left).
    apply (co_queue _ _ (va_consistent _ (proj1 Hv))) in Hin as (k' & Hk' & Hc & _). simplify_eq.
    by rewrite Hc.
  - apply bind_Some in Hp as (k & Hk & (run & Hrun & Hp)%bind_Some).
    destruct (tk_phase k) eqn:Hph; try done. injection Hp as <-.
    pose proof (task_id _ _ _ Hv Hk) as Hid.
    eapply enter_valid; [done..|by rewrite Hph|by rewrite Hph| |].
    + apply entitled_running; [done..|by rewrite Hph].
    + destruct v; try done. pose proof (advance_after_verdict _ _ _ _ _ Hv Hk Hrun Hph) as Ha.
      cbn beta iota zeta in Ha |- *. destruct (advance _ _ _ _); naive_solver.
  - apply bind_Some in Hp as (k & Hk & Hp). destruct (tk_phase k) eqn:Hph; try done.
    injection Hp as <-. eapply finish_valid; [done..|by rewrite Hph|]. by eapply task_id.
  - apply bind_Some in Hp as (k & Hk & Hp). destruct (tk_phase k) eqn:Hph; try done.
    injection Hp as <-. eapply finish_valid; [done..|by rewrite Hph|]. by eapply task_id.
  - apply bind_Some in Hp as (k & Hk & Hp). destruct (tk_phase k) eqn:Hph; try done.
    injection Hp as <-. by eapply release_valid.
  - apply bind_Some in Hp as ([fp t] & He & (k & Hk & Hp)%bind_Some).
    destruct (tk_phase k) eqn:Hph; try done. injection Hp as <-. by eapply forget_valid.
  - apply bind_Some in Hp as (run & Hrun & (t & Ht & (k & Hk & (i & Hi & Hp)%bind_Some)%bind_Some)%bind_Some).
    destruct (tk_phase k) eqn:Hph; try done. destruct (jm_has _ _) eqn:Hc; [done|].
    injection Hp as <-. by eapply complete_valid.
Qed.

Lemma performs_valid l : ∀ s s', valid s → performs digest s l = Some s' → valid s'.
Proof.
  induction l as [|a l IH]; intros s s' Hv Hp; [by injection Hp as <-|].
  apply bind_Some in Hp as (s1 & Hs1 & Hp). eapply IH; [|exact Hp]. by eapply perform_valid.
Qed.

(** A domain before any of its runs has moved. *)
Definition fresh_run (run : Run) : Prop := ∃ p mc hc, program_ok p ∧ run = new_run p mc hc.

Lemma initial_valid runs : Forall fresh_run runs → valid (initial runs).
Proof.
  intros Hcalls. split; [split|]; simpl; try done.
  - split; simpl; try done.
    + intros t. split; [by intros ?%not_elem_of_nil|]. by intros (k & ? & _).
    + constructor.
    + intros res. split; [by intros ?%not_elem_of_nil|]. by intros (t & k & ? & _).
    + intros t. split; [by intros ?%not_elem_of_nil|]. by intros (k & ? & _).
    + constructor.
  - intros r run Hrun. rewrite Forall_lookup in Hcalls.
    destruct (Hcalls r run Hrun) as (p & mc & hc & Hp & ->). split; simpl; try done.
    + apply (NoDup_foldl_js_add _ []), NoDup_nil_2.
    + intros id. by rewrite elem_of_js_set.
    + intros id _. split_and!; [done|by intros ?%not_elem_of_nil|done].
    + constructor.
    + by intros id t ?%not_elem_of_nil.
    + intros id Hid. left. by rewrite elem_of_js_set.
  - constructor.
  - by intros t ?%not_elem_of_nil.
Qed.

End Pipeline.
