(* ===== verification/PipelineSpec.v ===== *)
(** * PipelineSpec: what the pipeline guarantees in every interleaving

    From untrusted inputs to results: the runs are those of programs the
    validator admitted. Resources and commits are exclusive, an executor call
    comes after its dependencies and its preconditions and once per instruction,
    one operation key is in flight once, and a run returns one result per
    instruction. *)

From S2P Require Import Prelude Types Events Isa Codec Validator DependencySpec ValidatorSpec.
From S2P Require Import Pipeline CoordinatorInv PipelineInv.

(** ** From an admitted value to a program *)

Definition program_depends (p : Program) (a b : string) : Prop :=
  ∃ i, i ∈ pg_instructions p ∧ ins_id i = a ∧ b ∈ ins_dependsOn i.

Lemma lookupOpcode_name op : lookupOpcode (VStr (opcode_name op)) = Some op.
Proof. by destruct op. Qed.

(** The typed instruction and the parsed one agree. *)
Definition reads_as (p : ParsedInstruction) (i : Instruction) : Prop :=
  ins_id i = pi_id p ∧ ins_op i = pi_op p ∧ ins_dependsOn i = pi_dependsOn p.

Lemma instruction_reads `{Engine} ids p index i :
  instruction_ok ids p → pi_id p = instruction_id index (pi_value p) →
  instruction_of (VObj (pi_value p)) = Some i → reads_as p i.
Proof.
  intros Hok Hname Hi. unfold instruction_of, string_prop in Hi.
  destruct (prop (pi_value p) "id") as [| | | |id| |] eqn:Hid; try done. simpl in Hi.
  rewrite (io_op _ _ Hok) lookupOpcode_name in Hi. injection Hi as <-.
  split_and!; simpl; [|done|done].
  rewrite Hname /instruction_id Hid. by rewrite (io_id _ _ Hok _ Hid).
Qed.

Lemma program_reads `{Engine} program parsed p :
  well_formed program parsed → program_of program = Some p → Forall2 reads_as parsed (pg_instructions p).
Proof.
  intros Hwf Hp. unfold program_of in Hp.
  destruct (string_prop program "programId"); [|done]. simpl in Hp.
  destruct (mapM instruction_of _) as [l|] eqn:Hl; [|done]. injection Hp as <-. simpl.
  rewrite (wf_instructions _ _ Hwf) /= in Hl. apply mapM_Some in Hl.
  apply Forall2_same_length_lookup. split.
  { apply Forall2_length in Hl. by rewrite length_map in Hl. }
  intros index q i Hq Hi. eapply Forall2_lookup_r in Hl as (v & Hv & Hvi); [|exact Hi].
  change (map _ parsed) with ((λ p, VObj (pi_value p)) <$> parsed) in Hv.
  rewrite list_lookup_fmap Hq in Hv. injection Hv as <-.
  pose proof (wf_each _ _ Hwf) as Heach. rewrite Forall_lookup in Heach.
  pose proof (wf_named _ _ Hwf) as Hn. eapply Forall2_lookup_r in Hn as (e & _ & He); [|exact Hq].
  by eapply instruction_reads; [eapply Heach|exact He|].
Qed.

Lemma reads_ids parsed l : Forall2 reads_as parsed l → map ins_id l = map pi_id parsed.
Proof. induction 1 as [|q i parsed l (E & _) _ IH]; [done|]. simpl. by rewrite E IH. Qed.
Lemma reads_depends parsed p a b :
  Forall2 reads_as parsed (pg_instructions p) → program_depends p a b → depends parsed a b.
Proof.
  intros Hr (i & Hi & <- & Hb). apply list_elem_of_lookup in Hi as [n Hn].
  eapply Forall2_lookup_r in Hr as (q & Hq & Eid & _ & Ed); [|exact Hn].
  exists q. split_and!; [by eapply list_elem_of_lookup_2|done|by rewrite -Ed].
Qed.

Lemma admitted_program `{Engine} program parsed p :
  well_formed program parsed → program_of program = Some p →
  program_ok p ∧ ∀ a, Acc (flip (program_depends p)) a.
Proof.
  intros Hwf Hp. pose proof (program_reads _ _ _ Hwf Hp) as Hr. split; [split|].
  - unfold program_ids. rewrite (reads_ids _ _ Hr). apply Hwf.
  - intros i d Hi Hd. unfold program_ids. rewrite (reads_ids _ _ Hr).
    apply (wf_declared _ _ Hwf (ins_id i)). eapply reads_depends; [done|]. by exists i.
  - intros a. induction (wf_grounded _ _ Hwf a) as [x _ IH]. constructor.
    intros y Hy. by apply IH, (reads_depends _ _ _ _ Hr).
Qed.

Section Guarantees.
Context `{Engine} (digest : value → string).
Implicit Types (s : State) (t : Tid).

(** A call of [executePipeline] on a value the validator admits. *)
Definition admitted_run (run : Run) : Prop :=
  ∃ frames options input program plan p mc hc,
    MAX_INSTRUCTIONS < frames ∧
    validateProgram frames options input = Ok (ValidationSuccess program plan) ∧
    prop program "mode" = VStr "pipeline" ∧ program_of program = Some p ∧ run = new_run p mc hc.

(** The states of a domain whose calls are admitted, in any order of events. *)
Definition reachable s : Prop :=
  ∃ runs l, Forall admitted_run runs ∧ performs digest (initial runs) l = Some s.

Lemma admitted_run_program run :
  admitted_run run → program_ok (run_program run) ∧ (∀ a, Acc (flip (program_depends (run_program run))) a) ∧
  fresh_run run.
Proof.
  intros (frames & options & input & program & plan & p & mc & hc & Hfr & Hv & _ & Hp & ->).
  apply validateProgram_passed in Hv as (_ & isa & scan & resources & pre & Hps & _).
  pose proof (passed_well_formed _ _ _ _ _ _ _ Hps Hfr) as Hwf.
  destruct (admitted_program _ _ _ Hwf Hp) as [Hok Hac]. split_and!; [done|done|].
  by exists p, mc, hc.
Qed.

Lemma reachable_valid s : reachable s → valid digest s.
Proof.
  intros (runs & l & Hc & Hp). eapply performs_valid; [|exact Hp]. apply initial_valid.
  eapply Forall_impl; [exact Hc|]. intros run Hr. by apply admitted_run_program.
Qed.

(** ** Mutual exclusion *)

(** C5. Resources are held exclusively: in every reachable state of a domain, no two
    tasks hold a resource in common, a resource is marked held exactly while a
    task holds it, and of the tasks whose opcode costs [io.write] or [journal.write]
    - those [commits] queues - at most one is between the start of its
    preconditions and the answer of its executor, whatever their resources. The
    queue goes by the costs of the registry: [fs.move] costs [io.metadata] only and
    does not queue. *)
Theorem pipeline_exclusive s :
  reachable s →
  (∀ t1 t2 k1 k2 res, st_tasks s !! t1 = Some k1 → st_tasks s !! t2 = Some k2 →
    holding (tk_phase k1) = true → holding (tk_phase k2) = true →
    uses k1 res → uses k2 res → t1 = t2) ∧
  (∀ res, res ∈ heldResources (st_domain s) ↔
    ∃ t k, st_tasks s !! t = Some k ∧ holding (tk_phase k) = true ∧ uses k res) ∧
  (∀ t1 t2 k1 k2, st_tasks s !! t1 = Some k1 → st_tasks s !! t2 = Some k2 →
    commits (task_op k1) = true → commits (task_op k2) = true →
    running (tk_phase k1) = true → running (tk_phase k2) = true → t1 = t2).
Proof.
  intros [[Hco _ _ _ _ _ _] _]%reachable_valid. split_and!; [apply Hco|apply Hco|].
  intros t1 t2 k1 k2 H1 H2 C1 C2 R1 R2. pose proof (co_head _ _ Hco t1 k1 H1 C1 R1).
  pose proof (co_head _ _ Hco t2 k2 H2 C2 R2). congruence.
Qed.

(** ** At most once *)

(** C14. An operation runs at most once at a time and an instruction at most once at
    all: no reachable history calls the executor twice for one instruction of
    one call, and two promises under one operation key - the operation id, or
    program and instruction - are never unsettled together, across all the
    calls that share the domain. *)
Theorem pipeline_at_most_once s :
  reachable s →
  NoDup (st_calls s) ∧
  (∀ t1 t2 k1 k2, st_tasks s !! t1 = Some k1 → st_tasks s !! t2 = Some k2 →
    unsettled (tk_phase k1) = true → unsettled (tk_phase k2) = true →
    tk_key k1 = tk_key k2 → t1 = t2).
Proof.
  intros [[_ _ _ _ Hun Hnd _] _]%reachable_valid. split; [done|].
  intros t1 t2 k1 k2 H1 H2 U1 U2 Ek. destruct (Hun _ _ H1 U1) as [f1 E1].
  destruct (Hun _ _ H2 U2) as [f2 E2]. rewrite Ek in E1. congruence.
Qed.

(** ** Order *)

Lemma drain_calls s : st_calls (drain s) = st_calls s.
Proof. unfold drain. by destruct (drainWaiters _ _ _) as [[??]?]. Qed.
Lemma start_calls r run i s run' s' : start digest r run i s = (run', s') → st_calls s' = st_calls s.
Proof.
  unfold start. repeat case_match; intros [= <- <-]; try done.
  unfold registerInFlight, launch. simpl. destruct (run_aborted run); [done|].
  unfold acquire. by rewrite drain_calls.
Qed.
Lemma schedule_calls r ids : ∀ run s pg run' s' pg',
  schedule digest r ids run s pg = (run', s', pg') → st_calls s' = st_calls s.
Proof.
  induction ids as [|id ids IH]; intros run s pg run' s' pg' Hs; cbn [schedule] in Hs.
  { by injection Hs as _ <- _. }
  destruct (_ <=? _)%nat; [by injection Hs as _ <- _|].
  destruct (instruction_by_id _ _) as [i|]; [|by eapply IH].
  destruct (forallb _ _); [|by eapply IH]. destruct (List.find _ _); [by eapply IH|].
  destruct (start digest r run i s) as [run1 s1] eqn:Hst.
  rewrite (IH _ _ _ _ _ _ Hs). by eapply start_calls.
Qed.
Lemma iterate_calls r run s : st_calls (iterate digest r run s) = st_calls s.
Proof.
  unfold iterate. destruct (_ && _); [done|].
  destruct (schedule _ _ _ _ _ _) as [[run2 s2] pg] eqn:Hs. simpl. by eapply schedule_calls.
Qed.

(** [enter] calls the executor only for the phase [Executing]. *)
Lemma enter_calls t step s u :
  u ∈ st_calls (enter t step s) → u ∈ st_calls s ∨ (u = t ∧ step = inl Executing).
Proof.
  destruct step as [[]|]; simpl; try by left.
  intros [?| ->%list_elem_of_singleton]%elem_of_app; [by left|by right].
Qed.

Lemma begin_calls s t k run u :
  valid digest s → st_tasks s !! t = Some k → st_runs s !! t.1 = Some run →
  u ∈ st_calls (begin t k run s) → u ∉ st_calls s →
  u = t ∧ run_aborted run = false ∧ judged run (ins_precondition (tk_instruction k)).
Proof.
  intros Hv Hk Hrun Hin Hnin. pose proof (task_id _ _ _ _ Hv Hk) as Hid.
  apply enter_calls in Hin as [?|[-> Hst]]; [done|]. destruct (run_aborted run) eqn:Hab; [done|].
  pose proof (advance_from_start _ _ _ _ Hid Hrun) as Ha. rewrite Hst in Ha. naive_solver.
Qed.

(** C13. The executor is called in order: when an event of a reachable domain calls the
    executor for an instruction, the call's program has not been aborted, every
    dependency of the instruction has completed with success, every precondition
    on another instruction's status holds, and no other task holds any of the
    instruction's resources. *)
Theorem executor_called_when_ready s a s' t :
  reachable s → perform digest s a = Some s' → t ∈ st_calls s' → t ∉ st_calls s →
  ∃ run k, st_runs s !! t.1 = Some run ∧ st_tasks s !! t = Some k ∧
    instruction_by_id (run_program run) t.2 = Some (tk_instruction k) ∧
    run_aborted run = false ∧ ready run (tk_instruction k) ∧
    judged run (ins_precondition (tk_instruction k)) ∧
    (∀ u ku res, st_tasks s !! u = Some ku → holding (tk_phase ku) = true → uses ku res →
      uses k res → u = t).
Proof.
  intros Hr Hp Hin Hnin. pose proof (reachable_valid _ Hr) as Hv.
  match goal with |- ?G => assert (∀ k run, st_tasks s !! t = Some k → st_runs s !! t.1 = Some run →
    holding (tk_phase k) = true → run_aborted run = false →
    judged run (ins_precondition (tk_instruction k)) → G) as Hfinish end.
  { intros k run Hk Hrun Hh Hab Hj. exists run, k.
    destruct (va_tasks _ _ (proj1 Hv) _ _ Hk) as [(run' & Hrun' & Hi & _ & Hrd) _]. simplify_eq.
    split_and!; [done..|]. intros u ku res Hu Hhu Hus Hks.
    by eapply (co_exclusive _ _ (va_consistent _ _ (proj1 Hv)) u t ku k). }
  destruct a as [r|r|r|t'|t'|t' v|t' o|t'|t'|key|r id]; simpl in Hp.
  - apply bind_Some in Hp as (run & Hrun & Hp). destruct (run_phase run); try done.
    injection Hp as <-. by rewrite iterate_calls in Hin.
  - apply bind_Some in Hp as (run & Hrun & Hp). destruct (run_phase run); try done.
    by apply bind_Some in Hp as (run' & Hw & [= <-]).
  - apply bind_Some in Hp as (run & Hrun & Hp). by destruct (run_aborted run); simplify_eq.
  - apply bind_Some in Hp as (k & Hk & (run & Hrun & Hp)%bind_Some).
    destruct (tk_phase k) eqn:Hph; try done. destruct (commits _); injection Hp as <-; [done|].
    eapply begin_calls in Hin as (-> & ? & ?); [|done..].
    eapply Hfinish; [done..|by rewrite Hph|done|done].
  - apply bind_Some in Hp as (k & Hk & (run & Hrun & Hp)%bind_Some).
    destruct (tk_phase k) eqn:Hph; try done. destruct (commitQueue (st_domain s)); [done|].
    destruct (bool_decide _); [|done]. injection Hp as <-.
    eapply begin_calls in Hin as (-> & ? & ?); [|done..].
    eapply Hfinish; [done..|by rewrite Hph|done|done].
  - apply bind_Some in Hp as (k & Hk & (run & Hrun & Hp)%bind_Some).
    destruct (tk_phase k) eqn:Hph; try done. injection Hp as <-.
    apply enter_calls in Hin as [?|[-> Hst]]; [done|]. destruct v; try done.
    pose proof (advance_after_verdict _ _ _ _ _ _ Hv Hk Hrun Hph) as Ha.
    cbn beta iota zeta in Ha. rewrite Hst in Ha. destruct Ha as (_ & _ & Ha).
    destruct (Ha eq_refl) as [? ?]. eapply Hfinish; [done..|by rewrite Hph|done|done].
  - apply bind_Some in Hp as (k & Hk & Hp). by destruct (tk_phase k); simplify_eq.
  - apply bind_Some in Hp as (k & Hk & Hp). by destruct (tk_phase k); simplify_eq.
  - apply bind_Some in Hp as (k & Hk & Hp). destruct (tk_phase k); try done. injection Hp as <-.
    unfold release in Hin. by rewrite drain_calls in Hin.
  - apply bind_Some in Hp as ([fp u] & He & (k & Hk & Hp)%bind_Some).
    by destruct (tk_phase k); simplify_eq.
  - apply bind_Some in Hp as (run & Hrun & (u & Ht & (k & Hk & (i & Hi & Hp)%bind_Some)%bind_Some)%bind_Some).
    destruct (tk_phase k); try done. by destruct (jm_has _ _); simplify_eq.
Qed.

(** ** Results *)

Lemma list_elem_of_map {A B} (f : A → B) l y : y ∈ map f l ↔ ∃ x, x ∈ l ∧ y = f x.
Proof. change (map f l) with (f <$> l). rewrite list_elem_of_fmap. naive_solver. Qed.

Lemma finished_result r run s i :
  valid digest s → st_runs s !! r = Some run → run_pending run = [] → run_active run = [] →
  i ∈ pg_instructions (run_program run) →
  ∃ res, jm_get (run_completed run) (ins_id i) = Some res ∧ res_id res = ins_id i ∧
    (dependencySucceeded (Some res) = true → ready run i).
Proof.
  intros Hv Hrun Hp Ha Hi. pose proof (va_runs _ _ (proj1 Hv) _ _ Hrun) as Hok.
  destruct (ro_cover _ _ _ Hok (ins_id i)) as [Hin|[Hin|(res & Hres)%jm_has_get]].
  - by apply (list_elem_of_fmap_2 ins_id).
  - rewrite Hp in Hin. by apply not_elem_of_nil in Hin.
  - rewrite Ha in Hin. by apply not_elem_of_nil in Hin.
  - exists res. destruct (ro_completed _ _ _ Hok _ _ Hres) as (Hid & j & Hj & Hs).
    split_and!; [done|done|]. rewrite (instruction_by_id_eq _ _ (po_ids _ (ro_program _ _ _ Hok)) Hi) in Hj.
    by simplify_eq.
Qed.

(** A run that returns accounts for every instruction: its results are one per
    instruction, in program order and under the instruction's own id, the status
    it returns is the one these results call for, and an instruction is reported
    succeeded only if every instruction it depends on is. *)
Theorem pipeline_results s r run status results :
  reachable s → st_runs s !! r = Some run → run_phase run = Returned status results →
  map res_id results = program_ids (run_program run) ∧
  status = finalStatus results ∧
  (∀ i res d, i ∈ pg_instructions (run_program run) → res ∈ results → res_id res = ins_id i →
    dependencySucceeded (Some res) = true → d ∈ ins_dependsOn i →
    ∃ res', res' ∈ results ∧ res_id res' = d ∧ dependencySucceeded (Some res') = true).
Proof.
  intros Hv%reachable_valid Hrun Hph. pose proof (va_runs _ _ (proj1 Hv) _ _ Hrun) as Hok.
  destruct (ro_returned _ _ _ Hok _ _ Hph) as (Hp & Ha & Hst & Hres).
  set (instructions := pg_instructions (run_program run)) in *.
  assert (∀ i, i ∈ instructions → ∃ res, jm_get (run_completed run) (ins_id i) = Some res ∧
    res_id res = ins_id i ∧ (dependencySucceeded (Some res) = true → ready run i) ∧ res ∈ results) as Hall.
  { intros i Hi. destruct (finished_result r run s i Hv Hrun Hp Ha Hi) as (res & Hg & Hid & Hs).
    exists res. split_and!; [done..|]. rewrite Hres /run_results list_elem_of_map.
    exists i. by rewrite Hg. }
  split_and!; [|done|].
  - rewrite Hres /run_results map_map. unfold program_ids. fold instructions. clear -Hall.
    induction instructions as [|i l IH]; [done|]. simpl. destruct (Hall i) as (res & E1 & E2 & _); [set_solver|].
    rewrite E1 /= E2. f_equal. apply IH. set_solver.
  - intros i res d Hi Hin Hid Hs Hd. rewrite Hres /run_results list_elem_of_map in Hin.
    destruct Hin as (j & Hj & ->). destruct (Hall j Hj) as (res & Hg & Hrid & Hsucc & _).
    rewrite Hg /= in Hid Hs. assert (j = i) as ->.
    { pose proof (po_ids _ (ro_program _ _ _ Hok)) as Hnd.
      pose proof (instruction_by_id_eq _ _ Hnd Hi). pose proof (instruction_by_id_eq _ _ Hnd Hj). congruence. }
    pose proof (Hsucc Hs d Hd) as Hdep.
    assert (d ∈ program_ids (run_program run)) as Hdecl by by eapply (po_declared _ (ro_program _ _ _ Hok) i).
    apply list_elem_of_map in Hdecl as (e & He & ->).
    destruct (Hall e He) as (res' & Hg' & ? & _ & ?). exists res'. rewrite Hg' in Hdep. done.
Qed.
End Guarantees.

(** ** Sample runs: two calls with the sample program share a domain *)

Definition sample_digest (v : value) : string := JSON_stringify v.
Definition sample_pipeline : Program :=
  match program_of sample_program with Some p => p | None => mkProgram [] "" [] end.
Definition sample_runs : list Run :=
  [new_run sample_pipeline (Some 2%Z) true; new_run sample_pipeline None true].
Definition sample_outcome : PipelineInstructionOutcome := mkOutcome is_succeeded None (VStr "done").
Definition sample_history : list Action :=
  [Iterate 0; Iterate 1; Resume (0, "snapshot"); Answer (0, "snapshot") sample_outcome;
   Release (0, "snapshot"); Complete 0 "snapshot"; Wake 0; Iterate 0].
Definition sample_rest : list Action :=
  [Resume (0, "spawn"); Answer (0, "spawn") sample_outcome; Release (0, "spawn"); Complete 0 "spawn";
   Wake 0; Iterate 0; Resume (0, "wait"); Answer (0, "wait") sample_outcome; Release (0, "wait");
   Complete 0 "wait"; Wake 0; Iterate 0].
Definition sample_state (l : list Action) : State :=
  match performs sample_digest (initial sample_runs) l with Some s => s | None => initial [] end.

Lemma sample_admitted : Forall admitted_run sample_runs.
Proof.
  repeat constructor; eexists 257, sample_options, (VObj sample_program), sample_program, sample_plan,
    sample_pipeline, _, _; (split_and!; [unfold MAX_INSTRUCTIONS; lia|exact sample_valid|vm_compute; reflexivity..|reflexivity]).
Qed.
Lemma sample_reachable l :
  is_Some (performs sample_digest (initial sample_runs) l) → reachable sample_digest (sample_state l).
Proof.
  intros [s Hs]. exists sample_runs, l. split; [exact sample_admitted|]. unfold sample_state. by rewrite Hs.
Qed.

Example pipeline_exclusive_witness :
  "io.scan" ∈ heldResources (st_domain (sample_state (take 3 sample_history))) ∧
  ∃ t k, st_tasks (sample_state (take 3 sample_history)) !! t = Some k ∧ holding (tk_phase k) = true ∧
    uses k "io.scan".
Proof.
  destruct (pipeline_exclusive sample_digest (sample_state (take 3 sample_history))) as (_ & Hheld & _).
  { apply sample_reachable. vm_compute. by eexists. }
  assert ("io.scan" ∈ heldResources (st_domain (sample_state (take 3 sample_history)))) as Hin
    by (apply (bool_decide_unpack _); vm_compute; exact I).
  split; [exact Hin|apply Hheld; exact Hin].
Defined.

Example pipeline_at_most_once_witness :
  st_calls (sample_state (sample_history ++ sample_rest)) = [(0, "snapshot"); (0, "spawn"); (0, "wait")] ∧
  NoDup (st_calls (sample_state (sample_history ++ sample_rest))).
Proof.
  split; [vm_compute; reflexivity|].
  apply (pipeline_at_most_once sample_digest). apply sample_reachable. vm_compute. by eexists.
Defined.

Example executor_called_when_ready_witness :
  ∃ run k, st_runs (sample_state sample_history) !! 0 = Some run ∧
    st_tasks (sample_state sample_history) !! (0, "spawn") = Some k ∧ ready run (tk_instruction k).
Proof.
  destruct (executor_called_when_ready sample_digest (sample_state sample_history) (Resume (0, "spawn"))
    (sample_state (sample_history ++ take 1 sample_rest)) (0, "spawn")) as (run & k & Hrun & Hk & _ & _ & Hr & _).
  - apply sample_reachable. vm_compute. by eexists.
  - vm_compute. reflexivity.
  - apply (bool_decide_unpack _). vm_compute. exact I.
  - intros Hin%(bool_decide_pack _). vm_compute in Hin. exact Hin.
  - exists run, k. split; [exact Hrun|]. split; [exact Hk|exact Hr].
Defined.

Example pipeline_results_witness :
  ∃ results, (run_phase <$> st_runs (sample_state (sample_history ++ sample_rest)) !! 0)
      = Some (Returned ps_succeeded results) ∧
    map res_id results = ["wait"; "spawn"; "snapshot"].
Proof.
  destruct (st_runs (sample_state (sample_history ++ sample_rest)) !! 0) as [run|] eqn:Hrun;
    [|vm_compute in Hrun; discriminate].
  destruct (run_phase run) as [| |status results|] eqn:Hph;
    try (exfalso; vm_compute in Hrun; injection Hrun as <-; discriminate).
  assert (status = ps_succeeded ∧ run_program run = sample_pipeline) as [-> Hpg]
    by (split; vm_compute in Hrun; injection Hrun as <-; simpl in Hph; [by injection Hph as <- _|reflexivity]).
  destruct (pipeline_results sample_digest (sample_state (sample_history ++ sample_rest)) 0 run ps_succeeded results)
    as (Hids & _); [apply sample_reachable; vm_compute; by eexists|exact Hrun|exact Hph|].
  exists results. split; [simpl; by rewrite Hph|]. rewrite Hids Hpg. vm_compute. reflexivity.
Defined.
