(* ===== verification/PipelineLive.v ===== *)
(** * PipelineLive: every call of the pipeline returns

    No state of a domain is stuck: while a call has not returned, some event
    other than an abort can happen - a continuation of the pipeline, or an answer
    of the host it waits for. Every event brings the domain strictly closer to
    its end. Together: once the host has answered, every admitted program has
    its results, and the rejection for unresolved dependencies never happens. *)

From S2P Require Import Prelude Types Events Isa Codec Validator DependencySpec ValidatorSpec.
From S2P Require Import Pipeline CoordinatorInv PipelineInv PipelineSpec.

Section Live.
Context `{Engine} (digest : value → string).
Implicit Types (s : State) (t : Tid) (k : Task) (run : Run).

(** ** Runs that make progress *)

(** What the loop relies on to go on. *)
Record lively run : Prop := {
  lv_grounded a : Acc (flip (program_depends (run_program run))) a;
  lv_max : 1 ≤ run_maxConcurrency run;
  lv_racing : run_phase run = Racing → run_active run ≠ [];
  lv_resolved : run_phase run ≠ RejectedCycle;
}.

(** A pass over the pending instructions without progress changed nothing, and
    found each waiting for an instruction that has not completed. *)
Lemma schedule_flag r ids : ∀ run s run' s' pg',
  schedule digest r ids run s true = (run', s', pg') → pg' = true.
Proof.
  induction ids as [|id ids IH]; intros run s run' s' pg' Hs; cbn [schedule] in Hs.
  { by injection Hs as _ _ <-. }
  destruct (_ <=? _)%nat; [by injection Hs as _ _ <-|].
  destruct (instruction_by_id _ _) as [i|]; [|by eapply IH].
  destruct (forallb _ _); [|by eapply IH]. destruct (List.find _ _); [by eapply IH|].
  destruct (start digest r run i s) as [run1 s1]. by eapply IH.
Qed.
Lemma schedule_stalled r ids : ∀ run s run' s',
  schedule digest r ids run s false = (run', s', false) → run' = run ∧ s' = s ∧
  (length (run_active run) < run_maxConcurrency run → ∀ id i, id ∈ ids →
    instruction_by_id (run_program run) id = Some i →
    forallb (jm_has (run_completed run)) (ins_dependsOn i) = false).
Proof.
  induction ids as [|id ids IH]; intros run s run' s' Hs; cbn [schedule] in Hs.
  { injection Hs as <- <-. split_and!; [done..|]. by intros _ id i ?%not_elem_of_nil. }
  destruct (_ <=? _)%nat eqn:Hm.
  { injection Hs as <- <-. apply Nat.leb_le in Hm. split_and!; [done..|]. lia. }
  destruct (instruction_by_id _ id) as [i|] eqn:Hi.
  - destruct (forallb _ _) eqn:Hd.
    + exfalso. destruct (List.find _ _); [by apply schedule_flag in Hs|].
      destruct (start digest r run i s) as [run1 s1]. by apply schedule_flag in Hs.
    + destruct (IH _ _ _ _ Hs) as (-> & -> & Hall). split_and!; [done..|].
      intros Hlt x j [->|Hx]%elem_of_cons Hj; [congruence|by eapply Hall].
  - destruct (IH _ _ _ _ Hs) as (-> & -> & Hall). split_and!; [done..|].
    intros Hlt x j [->|Hx]%elem_of_cons Hj; [congruence|by eapply Hall].
Qed.

(** A pending instruction whose dependencies are not all completed waits for
    another pending one, when nothing is active. *)
Lemma pending_grounded tasks r run :
  run_ok tasks r run → (∀ a, Acc (flip (program_depends (run_program run))) a) →
  run_active run = [] →
  (∀ id i, id ∈ run_pending run → instruction_by_id (run_program run) id = Some i →
    forallb (jm_has (run_completed run)) (ins_dependsOn i) = false) →
  run_pending run = [].
Proof.
  intros Hok Hacc Ha Hstall. destruct (run_pending run) as [|id l] eqn:Hp; [done|exfalso].
  assert (id ∈ run_pending run) as Hid by (rewrite Hp; left). rewrite -Hp in Hstall. clear Hp l.
  revert Hid. induction (Hacc id) as [id _ IH]. intros Hid.
  destruct (proj1 (instruction_by_id_in _ _) (ro_known _ _ _ Hok id Hid)) as [i Hi].
  pose proof (Hstall id i Hid Hi) as Hf. apply instruction_by_id_Some in Hi as [Hin Hname].
  assert (∃ d, d ∈ ins_dependsOn i ∧ jm_has (run_completed run) d = false) as (d & Hd & Hc).
  { clear -Hf. induction (ins_dependsOn i) as [|d ds IH]; [done|]. simpl in Hf.
    destruct (jm_has (run_completed run) d) eqn:E; [|exists d; set_solver].
    destruct (IH Hf) as (e & ? & ?). exists e. set_solver. }
  apply (IH d); [by exists i|].
  destruct (ro_cover _ _ _ Hok d) as [?|[Hact|?]]; [|done| |congruence].
  - by eapply (po_declared _ (ro_program _ _ _ Hok) i).
  - rewrite Ha in Hact. by apply not_elem_of_nil in Hact.
Qed.

(** ** Liveness is kept *)

Lemma drain_runs s : st_runs (drain s) = st_runs s.
Proof. unfold drain. by destruct (drainWaiters _ _ _) as [[??]?]. Qed.
Lemma enter_runs t step s : st_runs (enter t step s) = st_runs s.
Proof. by destruct step as [[]|]. Qed.

Lemma lively_extends run run' :
  lively run → extends run run' → (run_phase run' = Racing → run_active run' ≠ []) →
  run_phase run' ≠ RejectedCycle → lively run'.
Proof. intros [Ha Hm _ _] [Ep Em _] Hr Hc. split; [by rewrite Ep|by rewrite Em|done|done]. Qed.

Lemma extends_phase run run' p : extends run run' → extends run (set_run_phase p run').
Proof. by intros []. Qed.
Lemma cancelled run tasks r :
  run_ok tasks r run → in_loop run → let run1 := if run_aborted run then cancel_pending run else run in
  run_ok tasks r run1 ∧ extends run run1 ∧ in_loop run1 ∧ run_active run1 = run_active run ∧
  (run1 = run ∨ run_pending run1 = []).
Proof.
  intros Hok Hl. destruct (run_aborted run) eqn:Hab; simpl;
    [|split_and!; [done|reflexivity|done|done|by left]].
  destruct (run_ok_cancel _ _ _ Hok Hl) as [? ?].
  destruct (cancelled_completed (run_pending run) run) as (_ & E2 & E3 & _).
  { intros id Hid. by apply instruction_by_id_in, (ro_known _ _ _ Hok). }
  { apply Hok. }
  split_and!; [done|done| |done|by right].
  intros st rs. unfold cancel_pending. simpl in *. rewrite E3. apply Hl.
Qed.

Lemma iterate_lively r run s :
  valid digest s → st_runs s !! r = Some run → run_phase run = Looping → lively run →
  ∃ run', st_runs (iterate digest r run s) = <[r := run']> (st_runs s) ∧ lively run'.
Proof.
  intros Hv Hrun Hph Hlv. unfold iterate.
  assert (in_loop run) as Hl by (intros st rs; by rewrite Hph).
  destruct (_ && _).
  { eexists. split; [reflexivity|]. by apply (lively_extends run); [|split|..]. }
  destruct (cancelled run (st_tasks s) r) as (Hok1 & Hx1 & Hl1 & _ & _);
    [by apply (va_runs _ _ (proj1 Hv))|done|].
  set (run1 := if run_aborted run then cancel_pending run else run) in *.
  destruct (schedule digest r (run_pending run1) run1 s false) as [[run2 s2] pg] eqn:Hsch.
  assert (scheduled digest r run1 s run2 s2) as [Hv2 Hx2 Hruns Hp2].
  { eapply schedule_scheduled; [done| | |done| |done];
      [by eapply valid_set_run|by eapply lookup_lt_Some|apply Hok1]. }
  eexists. split; [by rewrite /= Hruns|].
  apply (lively_extends run); [done|apply extends_phase; by etransitivity| |]; simpl.
  - intros Hr. case_bool_decide; [|done]. simpl in Hr. by destruct (_ && _).
  - case_bool_decide as Ha; [|done]. simpl. destruct (negb _ && _) eqn:Hrej; [|done].
    exfalso. apply andb_true_iff in Hrej as [Hne%negb_true_iff%bool_decide_eq_false ->%negb_true_iff].
    apply schedule_stalled in Hsch as (-> & _ & Hstall). apply Hne.
    pose proof (lively_extends run run1 Hlv Hx1) as Hlv1.
    assert (1 ≤ run_maxConcurrency run1) by (rewrite (ex_max _ _ Hx1); apply Hlv).
    eapply (pending_grounded (st_tasks s) r run1); [done| |done|].
    + intros a. rewrite (ex_program _ _ Hx1). apply Hlv.
    + intros id i. apply Hstall. rewrite Ha /=. lia.
Qed.

Definition all_lively s : Prop := ∀ r run, st_runs s !! r = Some run → lively run.

Lemma all_lively_insert s s' r run' :
  all_lively s → lively run' → st_runs s' = <[r := run']> (st_runs s) → all_lively s'.
Proof. intros Ha Hl Es u run. rewrite Es. intros [[-> ->]|[_ Hu]]%insert_lookup_cases; [exact Hl|exact (Ha _ _ Hu)]. Qed.

Lemma perform_lively s a s' :
  valid digest s → all_lively s → perform digest s a = Some s' → all_lively s'.
Proof.
  intros Hv Hall Hp. destruct a as [r|r|r|t|t|t v|t o|t|t|key|r id]; simpl in Hp.
  - apply bind_Some in Hp as (run & Hrun & Hp). destruct (run_phase run) eqn:Hph; try discriminate.
    injection Hp as <-. destruct (iterate_lively r run s) as (run' & Hruns & Hl); [done|done|done|exact (Hall _ _ Hrun)|].
    eapply all_lively_insert; [exact Hall|exact Hl|exact Hruns].
  - apply bind_Some in Hp as (run & Hrun & Hp). destruct (run_phase run) eqn:Hph; try discriminate.
    apply bind_Some in Hp as (run' & Hw & [= <-]). eapply all_lively_insert; [exact Hall| |reflexivity].
    unfold wake in Hw. destruct (existsb _ _); [|discriminate]. injection Hw as <-.
    apply (lively_extends run); [exact (Hall _ _ Hrun)|by split|discriminate|discriminate].
  - apply bind_Some in Hp as (run & Hrun & Hp). destruct (run_aborted run); [discriminate|]. injection Hp as <-.
    eapply all_lively_insert; [exact Hall| |reflexivity]. pose proof (Hall _ _ Hrun) as Hl.
    apply (lively_extends run); [exact Hl|by split|apply Hl|apply Hl].
  - apply bind_Some in Hp as (k & Hk & (run & Hrun & Hp)%bind_Some).
    destruct (tk_phase k); try discriminate. destruct (commits _); injection Hp as <-; [exact Hall|].
    intros u run'. unfold begin. rewrite enter_runs. apply Hall.
  - apply bind_Some in Hp as (k & Hk & (run & Hrun & Hp)%bind_Some).
    destruct (tk_phase k); try discriminate. destruct (commitQueue (st_domain s)); [discriminate|].
    destruct (bool_decide _); [|discriminate]. injection Hp as <-.
    intros u run'. unfold begin. rewrite enter_runs. apply Hall.
  - apply bind_Some in Hp as (k & Hk & (run & Hrun & Hp)%bind_Some).
    destruct (tk_phase k); try discriminate. injection Hp as <-.
    intros u run'. rewrite enter_runs. apply Hall.
  - apply bind_Some in Hp as (k & Hk & Hp). destruct (tk_phase k); simplify_eq; exact Hall.
  - apply bind_Some in Hp as (k & Hk & Hp). destruct (tk_phase k); simplify_eq; exact Hall.
  - apply bind_Some in Hp as (k & Hk & Hp). destruct (tk_phase k); try discriminate. injection Hp as <-.
    intros u run'. unfold release. rewrite drain_runs. apply Hall.
  - apply bind_Some in Hp as ([fp u] & He & (k & Hk & Hp)%bind_Some).
    destruct (tk_phase k); simplify_eq; exact Hall.
  - apply bind_Some in Hp as (run & Hrun & (u & Ht & (k & Hk & (i & Hi & Hp)%bind_Some)%bind_Some)%bind_Some).
    destruct (tk_phase k); try discriminate. destruct (jm_has _ _) eqn:Hc; [discriminate|]. injection Hp as <-.
    eapply all_lively_insert; [exact Hall| |reflexivity]. destruct (Hall _ _ Hrun) as [? ? ? ?]. split; assumption.
Qed.

(** ** Some event can happen *)

Definition is_abort (a : Action) : bool := match a with Abort _ => true | _ => false end.
(** An event of the pipeline or an answer of the host, not an abort. *)
Definition can_move s : Prop := ∃ a, is_abort a = false ∧ is_Some (perform digest s a).

Lemma task_run s t k :
  valid digest s → st_tasks s !! t = Some k → ∃ run, st_runs s !! t.1 = Some run.
Proof. intros Hv Hk. destruct (va_tasks _ _ (proj1 Hv) _ _ Hk) as [(run & ? & _) _]. by exists run. Qed.

Lemma running_moves s t k :
  valid digest s → st_tasks s !! t = Some k → running (tk_phase k) = true → can_move s.
Proof.
  intros Hv Hk Hr. destruct (task_run s t k Hv Hk) as [run Hrun].
  destruct (tk_phase k) eqn:Hph; try discriminate.
  - exists (Judge t v_stale). split; [done|]. by rewrite /= Hk /= Hrun /= Hph.
  - exists (ExecutorThrows t). split; [done|]. by rewrite /= Hk /= Hph.
Qed.

Lemma holder_moves s t k :
  valid digest s → st_tasks s !! t = Some k → holding (tk_phase k) = true → can_move s.
Proof.
  intros Hv Hk Hh. pose proof (va_consistent _ _ (proj1 Hv)) as Hco.
  destruct (task_run s t k Hv Hk) as [run Hrun]. destruct (tk_phase k) eqn:Hph; try discriminate.
  - exists (Resume t). split; [done|]. rewrite /= Hk /= Hrun /= Hph. by destruct (commits _).
  - assert (t ∈ commitQueue (st_domain s)) as Hin.
    { apply (co_queue _ _ Hco). exists k. rewrite Hph. split_and!; [done| |done].
      by apply (co_queued _ _ Hco t). }
    destruct (commitQueue (st_domain s)) as [|u q] eqn:Hq; [by apply not_elem_of_nil in Hin|].
    assert (u ∈ commitQueue (st_domain s)) as Hu by (rewrite Hq; left).
    apply (co_queue _ _ Hco) in Hu as (ku & Hku & Hc & Hqu).
    destruct (running (tk_phase ku)) eqn:Hrun2; [exact (running_moves s u ku Hv Hku Hrun2)|].
    destruct (tk_phase ku) eqn:Hpu; try discriminate.
    destruct (task_run s u ku Hv Hku) as [run' Hrun']. exists (EnterCommit u). split; [reflexivity|].
    rewrite /= Hku /= Hrun' /= Hpu Hq bool_decide_true; [by eexists|reflexivity].
  - apply (running_moves s t k Hv Hk). by rewrite Hph.
  - apply (running_moves s t k Hv Hk). by rewrite Hph.
  - exists (Release t). split; [done|]. by rewrite /= Hk /= Hph.
Qed.

(** A promise that has not settled is not forgotten. *)
Lemma unsettled_moves s t k :
  valid digest s → st_tasks s !! t = Some k → unsettled (tk_phase k) = true → can_move s.
Proof.
  intros Hv Hk Hu. destruct (holding (tk_phase k)) eqn:Hh; [by eapply holder_moves|].
  assert (tk_phase k = Waiting) as Hw by (by destruct (tk_phase k)).
  assert (t ∈ waiters (st_domain s)) as Hin
    by (apply (co_waiting _ _ (va_consistent _ _ (proj1 Hv))); eauto).
  destruct (proj2 Hv t k Hin Hk) as (res & _ & Hheld).
  apply (co_held _ _ (va_consistent _ _ (proj1 Hv))) in Hheld as (u & ku & Hku & Hhold & _).
  by eapply holder_moves.
Qed.

Definition returned run : Prop := ∃ status results, run_phase run = Returned status results.

Lemma unfinished_moves s r run :
  valid digest s → lively run → st_runs s !! r = Some run → ¬ returned run → can_move s.
Proof.
  intros Hv Hl Hrun Hnr. destruct (run_phase run) as [| |status results|] eqn:Hph.
  - exists (Iterate r). split; [reflexivity|]. rewrite /= Hrun /= Hph. by eexists.
  - pose proof (va_runs _ _ (proj1 Hv) _ _ Hrun) as Hok.
    destruct (run_active run) as [|[id t] act] eqn:Hact; [by destruct (lv_racing _ Hl Hph)|].
    assert ((id, t) ∈ run_active run) as Hin by (rewrite Hact; left).
    destruct (ro_active _ _ _ Hok id t Hin) as ([k Hk] & i & Hi & _).
    destruct (jm_has (run_completed run) id) eqn:Hc.
    + exists (Wake r). split; [reflexivity|]. rewrite /= Hrun /= Hph /wake Hact /= Hc /=. by eexists.
    + destruct (unsettled (tk_phase k)) eqn:Hu; [by eapply unsettled_moves|].
      destruct (tk_phase k) as [| | | | | |res] eqn:Hpk; try discriminate.
      exists (Complete r id). split; [reflexivity|].
      rewrite /= Hrun /= (jm_in_get _ id t); [|apply Hok|exact Hin].
      rewrite /= Hk /= Hi /= Hpk Hc. by eexists.
  - destruct Hnr. by exists status, results.
  - by destruct (lv_resolved _ Hl).
Qed.
End Live.
