(* ===== verification/PipelineEnd.v ===== *)
(** * PipelineEnd: every call of the pipeline returns, in bounded steps

    Each event - a continuation of the pipeline, an answer of the host, an abort
    - strictly lowers a weight of the domain's state: what a promise has left to
    go through, what a call has left to start, complete and collect, the entries
    in flight. So no history of events is longer than the weight it starts from,
    and, no state being stuck, every one extends to a state in which every call
    has returned. *)

From S2P Require Import Prelude Types Events Isa Codec Validator DependencySpec ValidatorSpec.
From S2P Require Import Pipeline CoordinatorInv PipelineInv PipelineSpec PipelineLive.

(** ** Sums over the tasks and the runs *)

Section Sum.
Context {A : Type} (f : A → nat).

Definition map_sum (m : gmap Tid A) : nat := map_fold (λ _ x n, f x + n) 0 m.

Lemma map_sum_empty : map_sum ∅ = 0.
Proof. apply map_fold_empty. Qed.
Lemma map_sum_insert_new m t x : m !! t = None → map_sum (<[t := x]> m) = f x + map_sum m.
Proof. intros Ht. unfold map_sum. rewrite map_fold_insert_L; [done|lia|done]. Qed.
Lemma map_sum_delete m t x : m !! t = Some x → map_sum m = f x + map_sum (delete t m).
Proof. intros Ht. unfold map_sum. rewrite (map_fold_delete_L _ _ t x); [done|lia|done]. Qed.
Lemma map_sum_insert m t x y : m !! t = Some x → map_sum (<[t := y]> m) + f x = f y + map_sum m.
Proof.
  intros Ht. rewrite (map_sum_delete m t x Ht) -insert_delete_eq map_sum_insert_new;
    [lia|by rewrite lookup_delete_eq].
Qed.
Lemma map_sum_alter g m t x :
  m !! t = Some x → map_sum (alter g t m) + f x = f (g x) + map_sum m.
Proof.
  intros Ht. rewrite -(map_sum_insert m t x (g x) Ht). f_equal. f_equal.
  apply map_eq. intros u. destruct (decide (t = u)) as [<-|Hne];
    [by rewrite lookup_alter_eq lookup_insert_eq Ht|by rewrite lookup_alter_ne // lookup_insert_ne].
Qed.
Lemma list_sum_insert (l : list A) r x y :
  l !! r = Some x → sum_list_with f (<[r := y]> l) + f x = f y + sum_list_with f l.
Proof. revert r. induction l as [|z l IH]; intros [|r]; simpl; [done..|by intros [= ->]; lia|]. intros ?%IH. lia. Qed.
End Sum.

(** ** The weight *)

Definition phase_weight (conditions : nat) (p : Phase) : nat :=
  match p with
  | Waiting => 7 + conditions
  | Granted => 6 + conditions
  | Queued => 5 + conditions
  | Checking n => 4 + (conditions - n)
  | Executing => 3
  | Finished _ => 2
  | Settled _ => 0
  end.
Definition conditions (i : Instruction) : nat := length (ins_precondition i).
Definition task_weight (k : Task) : nat := phase_weight (conditions (tk_instruction k)) (tk_phase k).

Definition pending_weight (p : Program) (id : string) : nat :=
  12 + match instruction_by_id p id with Some i => conditions i | None => 0 end.
Definition active_weight (run : Run) (e : string * Tid) : nat :=
  if jm_has (run_completed run) e.1 then 2 else 3.
Definition run_weight (run : Run) : nat :=
  sum_list_with (pending_weight (run_program run)) (run_pending run) +
  sum_list_with (active_weight run) (run_active run) +
  (match run_phase run with Looping => 1 | _ => 0 end) + (if run_aborted run then 0 else 1).

Definition weight (s : State) : nat :=
  map_sum task_weight (st_tasks s) + sum_list_with run_weight (st_runs s) +
  length (inFlight (st_domain s)).

(** ** Tasks *)

Lemma set_phase_weight t k p s :
  st_tasks s !! t = Some k → phase_weight (conditions (tk_instruction k)) p < task_weight k →
  weight (set_phase t p s) < weight s.
Proof.
  intros Hk Hp. unfold weight, set_phase. simpl.
  pose proof (map_sum_alter task_weight (with_phase p) _ _ _ Hk) as E.
  change (task_weight (with_phase p k)) with (phase_weight (conditions (tk_instruction k)) p) in E. lia.
Qed.

Lemma grant_weight granted : ∀ tasks,
  (∀ t, t ∈ granted → ∃ k, tasks !! t = Some k ∧ 6 + conditions (tk_instruction k) ≤ task_weight k) →
  map_sum task_weight (grant tasks granted) ≤ map_sum task_weight tasks.
Proof.
  unfold grant. induction granted as [|t granted IH]; intros tasks Hg; simpl; [done|].
  destruct (Hg t) as (k & Hk & Hw); [set_solver|].
  pose proof (map_sum_alter task_weight (with_phase Granted) _ _ _ Hk) as E.
  change (task_weight (with_phase Granted k)) with (6 + conditions (tk_instruction k)) in E.
  etransitivity; [apply IH|lia].
  intros u Hu. destruct (Hg u) as (ku & Hku & Hwu); [set_solver|].
  destruct (decide (t = u)) as [->|Hne].
  - rewrite lookup_alter_eq Hku. eexists. split; [reflexivity|]. done.
  - rewrite lookup_alter_ne //. by exists ku.
Qed.

Lemma drain_weight s : consistent (st_tasks s) (st_domain s) → weight (drain s) ≤ weight s.
Proof.
  intros Hco. unfold drain.
  pose proof (drainWaiters_spec (task_resources (st_tasks s)) (waiters (st_domain s))
    (heldResources (st_domain s))) as Hdr.
  destruct (drainWaiters _ _ _) as [[ws held] granted]. unfold weight. simpl.
  assert (map_sum task_weight (grant (st_tasks s) granted) ≤ map_sum task_weight (st_tasks s)); [|lia].
  apply grant_weight. intros t Ht. assert (t ∈ waiters (st_domain s)) as Hw by (apply Hdr; by right).
  apply (co_waiting _ _ Hco) in Hw as (k & Hk & Hph). exists k. split; [done|].
  unfold task_weight. rewrite Hph. simpl. lia.
Qed.

(** ** The loop of a run *)

Lemma sum_js_delete (f : string → nat) l x :
  x ∈ l → f x + sum_list_with f (js_delete l x) ≤ sum_list_with f l.
Proof.
  unfold js_delete. induction l as [|y l IH]; [by intros ?%not_elem_of_nil|].
  intros Hin. simpl. case_bool_decide as E; simpl.
  - subst y. assert (sum_list_with f (List.filter (λ y, negb (bool_decide (y = x))) l) ≤ sum_list_with f l); [|lia].
    clear. induction l as [|z l IH]; simpl; [lia|]. case_bool_decide; simpl; lia.
  - apply elem_of_cons in Hin as [->|Hin]; [done|]. pose proof (IH Hin). lia.
Qed.

Lemma sum_le {A} (f g : A → nat) l : (∀ x, f x ≤ g x) → sum_list_with f l ≤ sum_list_with g l.
Proof. intros Hfg. induction l as [|x l IH]; simpl; [lia|]. pose proof (Hfg x). lia. Qed.

Lemma active_weight_complete run id res e : active_weight (complete id res run) e ≤ active_weight run e.
Proof.
  unfold active_weight. destruct (jm_has (run_completed run) e.1) eqn:Hh; [|by case_match; lia].
  by rewrite (proj2 (jm_has_complete run id res e.1)); [|right].
Qed.

Lemma complete_weight run id res : run_weight (complete id res run) ≤ run_weight run.
Proof.
  unfold run_weight. pose proof (sum_le _ _ (run_active run) (active_weight_complete run id res)).
  cbn [complete run_program run_pending run_active run_phase run_aborted] in *. lia.
Qed.
Lemma taken_weight run id :
  id ∈ run_pending run →
  run_weight (taken id run) + pending_weight (run_program run) id ≤ run_weight run.
Proof.
  intros Hid. unfold run_weight. simpl.
  pose proof (sum_js_delete (pending_weight (run_program run)) _ _ Hid).
  change (active_weight (taken id run)) with (active_weight run). lia.
Qed.
Lemma activate_weight run id t :
  id ∈ run_pending run → id ∉ (run_active run).*1 →
  run_weight (set_active (jm_set (run_active run) id t) (taken id run)) +
    pending_weight (run_program run) id ≤ 3 + run_weight run.
Proof.
  intros Hid Hna. etransitivity; [|apply Nat.add_le_mono_l, (taken_weight run id Hid)].
  unfold run_weight. simpl. rewrite jm_set_fresh // sum_list_with_app /=.
  change (active_weight (set_active _ _)) with (active_weight run).
  change (active_weight (taken _ _)) with (active_weight run).
  assert (active_weight run (id, t) ≤ 3) by (unfold active_weight; case_match; lia). lia.
Qed.

(** A run in a domain: what is left of the run, the promises and the entries. *)
Definition loop_weight (run : Run) (s : State) : nat :=
  run_weight run + map_sum task_weight (st_tasks s) + length (inFlight (st_domain s)).

Section Weight.
Context `{Engine} (digest : value → string).
Implicit Types (s : State) (t : Tid) (k : Task) (run : Run).

Lemma launch_weight t i key aborted s :
  consistent (st_tasks s) (st_domain s) → st_tasks s !! t = None →
  map_sum task_weight (st_tasks (launch t i key aborted s)) ≤ 7 + conditions i + map_sum task_weight (st_tasks s) ∧
  inFlight (st_domain (launch t i key aborted s)) = inFlight (st_domain s) ∧
  st_runs (launch t i key aborted s) = st_runs s.
Proof.
  intros Hco Hn. unfold launch. destruct aborted.
  - simpl. rewrite map_sum_insert_new //. split_and!; [|done..]. simpl. lia.
  - unfold acquire. set (s1 := set_domain _ _).
    assert (consistent (st_tasks s1) (st_domain s1)) as Hco1 by by apply consistent_waiter.
    pose proof (drain_weight s1 Hco1) as Hd. unfold weight in Hd. rewrite drain_runs in Hd.
    assert (inFlight (st_domain (drain s1)) = inFlight (st_domain s)) as Hinf.
    { unfold drain. by destruct (drainWaiters _ _ _) as [[??]?]. }
    split_and!; [|done|by rewrite drain_runs].
    rewrite Hinf in Hd. change (st_runs s1) with (st_runs s) in Hd.
    change (inFlight (st_domain s1)) with (inFlight (st_domain s)) in Hd.
    change (st_tasks s1) with (<[t := mkTask i key Waiting]> (st_tasks s)) in Hd.
    rewrite map_sum_insert_new // in Hd.
    change (task_weight (mkTask i key Waiting)) with (7 + conditions i) in Hd. lia.
Qed.

Lemma jm_set_length {A} (m : list (string * A)) key v : jm_get m key = None → length (jm_set m key v) = S (length m).
Proof.
  intros Hn. rewrite jm_set_fresh; [rewrite length_app /=; lia|].
  intros Hin%jm_has_in. apply jm_has_get in Hin as (x & Hx). congruence.
Qed.

Lemma start_weight r run i s run' s' :
  start digest r run i s = (run', s') → valid digest (set_run r run s) → r < length (st_runs s) →
  ins_id i ∈ run_pending run → instruction_by_id (run_program run) (ins_id i) = Some i →
  loop_weight run' s' < loop_weight run s.
Proof.
  intros Hst Hv Hr Hid Hi.
  assert (st_runs (set_run r run s) !! r = Some run) as Hrun by by apply list_lookup_insert_eq.
  pose proof (va_consistent _ _ (proj1 Hv)) as Hco. simpl in Hco.
  destruct (ro_fresh _ _ _ (va_runs _ _ (proj1 Hv) _ _ Hrun) _ Hid) as (_ & Hna & Hnew). simpl in Hnew.
  pose proof (taken_weight run (ins_id i) Hid) as Htk. unfold pending_weight in Htk. rewrite Hi in Htk.
  unfold start in Hst.
  change (set_pending (js_delete (run_pending run) (ins_id i)) run) with (taken (ins_id i) run) in Hst.
  change (run_program (taken (ins_id i) run)) with (run_program run) in Hst.
  destruct (jm_get (inFlight (st_domain s)) (operation_key _ _)) as [[fp t]|] eqn:He;
    [destruct (bool_decide _)|].
  - injection Hst as <- <-. unfold loop_weight.
    pose proof (activate_weight run (ins_id i) t Hid Hna) as Ha.
    unfold pending_weight in Ha. rewrite Hi in Ha. lia.
  - injection Hst as <- <-. unfold loop_weight.
    pose proof (complete_weight (taken (ins_id i) run) (ins_id i) (failedOutcome i fc_op_id_conflict)).
    lia.
  - injection Hst as <- <-. unfold loop_weight.
    pose proof (activate_weight run (ins_id i) (r, ins_id i) Hid Hna) as Ha.
    unfold pending_weight in Ha. rewrite Hi in Ha.
    destruct (launch_weight (r, ins_id i) i (operation_key (run_program run) i) (run_aborted run) s Hco Hnew)
      as (Hl & Hinf & _).
    cbn [registerInFlight set_domain set_inFlight inFlight st_domain st_tasks].
    change (run_aborted (taken (ins_id i) run)) with (run_aborted run).
    rewrite Hinf jm_set_length; [|exact He]. lia.
Qed.

Lemma schedule_weight r ids : ∀ run s progressed run' s' progressed',
  schedule digest r ids run s progressed = (run', s', progressed') →
  valid digest (set_run r run s) → r < length (st_runs s) → in_loop run →
  NoDup ids → (∀ id, id ∈ ids → id ∈ run_pending run) →
  loop_weight run' s' ≤ loop_weight run s ∧
  (progressed = false → progressed' = true → loop_weight run' s' < loop_weight run s).
Proof.
  induction ids as [|id ids IH]; intros run s pg run' s' pg' Hsch Hv Hr Hl Hnd Hin.
  { injection Hsch as <- <- <-. by split; [|congruence]. }
  apply NoDup_cons in Hnd as [Hnid Hnd]. cbn [schedule] in Hsch.
  destruct (_ <=? _)%nat; [injection Hsch as <- <- <-; by split; [|congruence]|].
  destruct (instruction_by_id (run_program run) id) as [i|] eqn:Hi; [|eapply IH; eauto; set_solver].
  destruct (forallb _ _); [|eapply IH; eauto; set_solver].
  apply instruction_by_id_Some in Hi as Hi'. destruct Hi' as [_ <-].
  assert (ins_id i ∈ run_pending run) as Hid by set_solver.
  destruct (List.find _ _) eqn:Hf.
  - assert (scheduled digest r run s (complete (ins_id i) (skippedOutcome i) (taken (ins_id i) run)) s) as Hs
      by by apply skip_scheduled.
    destruct (IH _ _ _ _ _ _ Hsch) as [Hle _]; [apply Hs|done|done|done| |].
    { intros x Hx. apply elem_of_js_delete. split; [set_solver|]. by intros ->. }
    assert (loop_weight (complete (ins_id i) (skippedOutcome i) (taken (ins_id i) run)) s < loop_weight run s).
    { unfold loop_weight. pose proof (complete_weight (taken (ins_id i) run) (ins_id i) (skippedOutcome i)).
      pose proof (taken_weight run (ins_id i) Hid) as Ht. unfold pending_weight in Ht. lia. }
    change (set_pending _ run) with (taken (ins_id i) run) in Hle. lia.
  - apply find_none_ready in Hf. destruct (start digest r run i s) as [run1 s1] eqn:Hst.
    destruct (start_scheduled _ _ _ _ _ _ _ Hst Hv Hr Hl Hid Hi Hf) as [Hs Ep].
    pose proof (start_weight _ _ _ _ _ _ Hst Hv Hr Hid Hi).
    destruct (IH _ _ _ _ _ _ Hsch) as [Hle _]; [apply Hs| | |done| |lia].
    + by rewrite (sd_runs _ _ _ _ _ _ Hs).
    + intros st rs. rewrite (sd_phase _ _ _ _ _ _ Hs). apply Hl.
    + intros x Hx. rewrite Ep. apply elem_of_js_delete. split; [set_solver|]. by intros ->.
Qed.

Lemma weight_set_run s s' r run run' :
  st_runs s !! r = Some run → st_runs s' = st_runs s → loop_weight run' s' < loop_weight run s →
  weight (set_run r run' s') < weight s.
Proof.
  intros Hrun Er Hlt. unfold weight, loop_weight in *. simpl. rewrite Er.
  pose proof (list_sum_insert run_weight _ _ _ run' Hrun). lia.
Qed.

Lemma cancel_weight tasks r run :
  run_ok tasks r run → run_weight (cancel_pending run) ≤ run_weight run ∧
  (run_pending run ≠ [] → run_weight (cancel_pending run) < run_weight run).
Proof.
  intros Hok. unfold cancel_pending.
  assert (∀ ids run, (∀ id, id ∈ ids → id ∈ program_ids (run_program run)) → NoDup ids →
    let run' := foldl (λ run id, match instruction_by_id (run_program run) id with
      | Some i => complete id (abortOutcome i) run | None => run end) run ids in
    run_weight run' ≤ run_weight run) as Hfold.
  { clear. induction ids as [|id ids IH]; intros run Hin Hnd; [done|]. apply NoDup_cons in Hnd as [_ Hnd].
    simpl. destruct (instruction_by_id _ id) as [i|]; [|apply IH; [set_solver|done]].
    etransitivity; [apply IH; [set_solver|done]|apply complete_weight]. }
  specialize (Hfold (run_pending run) run (ro_known _ _ _ Hok) (ro_pending _ _ _ Hok)). simpl in Hfold.
  destruct (cancelled_completed (run_pending run) run) as (E1 & _ & _ & _ & _ & _).
  { intros id Hid. by apply instruction_by_id_in, (ro_known _ _ _ Hok). }
  { apply Hok. }
  assert (run_pending (foldl (λ run id, match instruction_by_id (run_program run) id with
      | Some i => complete id (abortOutcome i) run | None => run end) run (run_pending run))
    = run_pending run) as Ep.
  { generalize (run_pending run) at 1. clear. intros ids. revert run.
    induction ids as [|id ids IH]; intros run; simpl; [done|]. rewrite IH. by case_match. }
  set (run' := foldl _ run _) in *.
  assert (run_weight (set_pending [] run') + sum_list_with (pending_weight (run_program run')) (run_pending run)
    = run_weight run') as Hsum.
  { unfold run_weight. simpl. rewrite Ep. change (active_weight (set_pending [] run')) with (active_weight run').
    lia. }
  split; [lia|]. destruct (run_pending run); [done|]. intros _. simpl in Hsum. unfold pending_weight at 1 in Hsum. lia.
Qed.

Lemma set_run_phase_weight p run :
  run_phase run = Looping → run_weight (set_run_phase p run) + 1 =
  run_weight run + match p with Looping => 1 | _ => 0 end.
Proof.
  intros Hph. unfold run_weight. simpl. rewrite Hph.
  change (active_weight (set_run_phase p run)) with (active_weight run). destruct p; lia.
Qed.

Lemma iterate_weight r run s :
  valid digest s → st_runs s !! r = Some run → run_phase run = Looping →
  weight (iterate digest r run s) < weight s.
Proof.
  intros Hv Hrun Hph. unfold iterate.
  assert (in_loop run) as Hl by (intros st rs; by rewrite Hph).
  destruct (_ && _) eqn:Hend.
  { apply (weight_set_run s s r run); [done..|]. unfold loop_weight.
    pose proof (set_run_phase_weight (Returned (finalStatus (run_results run)) (run_results run)) run Hph) as E.
    simpl in E. lia. }
  pose proof (va_runs _ _ (proj1 Hv) _ _ Hrun) as Hok.
  destruct (cancelled run (st_tasks s) r) as (Hok1 & Hx1 & Hl1 & Ha1 & _); [done|done|].
  assert (run_phase (if run_aborted run then cancel_pending run else run) = Looping ∧
    run_weight (if run_aborted run then cancel_pending run else run) ≤ run_weight run ∧
    (run_pending run ≠ [] → run_pending (if run_aborted run then cancel_pending run else run) = [] →
      run_weight (if run_aborted run then cancel_pending run else run) < run_weight run)) as (Hph1 & Hw1 & Hs1).
  { destruct (run_aborted run); [|split_and!; [done|lia|congruence]].
    destruct (cancel_weight _ _ _ Hok) as [Hle Hlt]. split_and!; [|done|by intros ? _; apply Hlt].
    destruct (cancelled_completed (run_pending run) run) as (_ & _ & E3 & _).
    { intros id Hid. by apply instruction_by_id_in, (ro_known _ _ _ Hok). }
    { apply Hok. }
    unfold cancel_pending. simpl in *. congruence. }
  set (run1 := if run_aborted run then cancel_pending run else run) in *.
  destruct (schedule digest r (run_pending run1) run1 s false) as [[run2 s2] pg] eqn:Hsch.
  assert (valid digest (set_run r run1 s)) as Hv1 by by eapply valid_set_run.
  assert (r < length (st_runs s)) as Hr by by eapply lookup_lt_Some.
  assert (scheduled digest r run1 s run2 s2) as [_ _ Hruns Hp2].
  { eapply schedule_scheduled; [done..|apply Hok1|done]. }
  destruct (schedule_weight _ _ _ _ _ _ _ _ Hsch Hv1 Hr Hl1 (ro_pending _ _ _ Hok1)) as [Hle Hlt]; [done|].
  apply (weight_set_run s s2 r run); [done..|]. rewrite Hph1 in Hp2.
  match goal with |- loop_weight (set_run_phase ?p _) _ < _ =>
    pose proof (set_run_phase_weight p run2 Hp2) as E; assert (p = Looping → loop_weight run2 s2 < loop_weight run s) as Hloop;
    [|destruct p; unfold loop_weight in *; [specialize (Hloop eq_refl); lia|lia..]] end.
  case_bool_decide as Hact; [|done]. simpl. destruct pg.
  { intros _. specialize (Hlt eq_refl eq_refl). unfold loop_weight in *. lia. }
  case_bool_decide as Hpend; [|done]. simpl. intros _.
  apply schedule_stalled in Hsch as (E2 & _ & _). rewrite E2 in Hact Hpend.
  unfold loop_weight in *. rewrite Ha1 in Hact. rewrite Hact andb_true_r in Hend.
  apply bool_decide_eq_false in Hend. specialize (Hs1 Hend Hpend). lia.
Qed.

Lemma wake_weight run run' :
  run_phase run = Racing → wake run = Some run' → run_weight run' < run_weight run.
Proof.
  intros Hph Hw. unfold wake in Hw. destruct (existsb _ _) eqn:Hex; [|done]. injection Hw as <-.
  unfold run_weight. simpl. rewrite Hph.
  change (active_weight (set_run_phase _ _)) with (active_weight run).
  assert (2 + sum_list_with (active_weight run) (List.filter (λ p, negb (jm_has (run_completed run) p.1)) (run_active run))
    ≤ sum_list_with (active_weight run) (run_active run)); [|lia].
  induction (run_active run) as [|e l IH]; [done|]. simpl in *.
  unfold active_weight in *. destruct (jm_has (run_completed run) e.1) eqn:He; simpl in *.
  - assert (∀ l, sum_list_with (λ e, if jm_has (run_completed run) e.1 then 2 else 3)
      (List.filter (λ p, negb (jm_has (run_completed run) p.1)) l)
      ≤ sum_list_with (λ e : string * Tid, if jm_has (run_completed run) e.1 then 2 else 3) l) as Hf.
    { clear. induction l as [|e l IH]; [done|]. simpl. destruct (jm_has _ _) eqn:He; simpl; rewrite ?He; lia. }
    specialize (Hf l). lia.
  - rewrite He. specialize (IH Hex). lia.
Qed.

Lemma complete_active_weight run id t res :
  (id, t) ∈ run_active run → jm_has (run_completed run) id = false →
  run_weight (complete id res run) < run_weight run.
Proof.
  intros Hin Hc. unfold run_weight.
  cbn [complete run_program run_pending run_active run_phase run_aborted].
  assert (sum_list_with (active_weight (complete id res run)) (run_active run)
    < sum_list_with (active_weight run) (run_active run)); [|lia].
  pose proof (active_weight_complete run id res) as Hle. revert Hin.
  induction (run_active run) as [|e l IH]; [by intros ?%not_elem_of_nil|]. intros Hin. simpl.
  apply elem_of_cons in Hin as [<-|Hin]; [|specialize (IH Hin); specialize (Hle e); lia].
  pose proof (sum_le _ _ l Hle).
  assert (active_weight (complete id res run) (id, t) < active_weight run (id, t)); [|lia].
  unfold active_weight. rewrite Hc (proj2 (jm_has_complete run id res id)); [lia|by left].
Qed.

(** ** Every event lowers the weight *)

Lemma advance_index run i rest : ∀ index m, advance run i index rest = inl (Checking m) → index ≤ m.
Proof.
  induction rest as [|[j status|c] rest IH]; intros index m; simpl.
  - by destruct (run_aborted run).
  - destruct (jm_get _ _); [|done]. case_bool_decide; [|done]. intros ?%IH. lia.
  - destruct (run_hasChecker run); [|done]. by intros [= ->].
Qed.

(** From a step of a body: the phase it enters is the next of the weights. *)
Lemma enter_weight s t k step :
  st_tasks s !! t = Some k → 3 ≤ task_weight k →
  (∀ p, step = inl p → phase_weight (conditions (tk_instruction k)) p < task_weight k) →
  weight (enter t step s) < weight s.
Proof.
  intros Hk H3 Hp. destruct step as [p|res].
  - pose proof (set_phase_weight t k p s Hk (Hp p eq_refl)). by destruct p.
  - unfold enter, finish.
    pose proof (set_phase_weight t k (Finished res) s Hk) as Hf. simpl in Hf. specialize (Hf ltac:(lia)). done.
Qed.

Lemma begin_weight s t k run :
  valid digest s → st_tasks s !! t = Some k → st_runs s !! t.1 = Some run →
  4 + conditions (tk_instruction k) < task_weight k → weight (begin t k run s) < weight s.
Proof.
  intros Hv Hk Hrun Hw. pose proof (task_id _ _ _ _ Hv Hk) as Hid.
  apply (enter_weight s t k); [done|lia|]. intros p Hp. destruct (run_aborted run); [done|].
  pose proof (advance_from_start _ _ _ _ Hid Hrun) as Ha. rewrite Hp in Ha. destruct Ha as (Hr & _).
  destruct p; try done; simpl; lia.
Qed.

Lemma judge_weight s t k run n :
  valid digest s → st_tasks s !! t = Some k → st_runs s !! t.1 = Some run → tk_phase k = Checking n →
  let i := tk_instruction k in
  ∀ p, advance run i (S n) (drop (S n) (ins_precondition i)) = inl p →
    phase_weight (conditions i) p < task_weight k.
Proof.
  intros Hv Hk Hrun Hph i p Hp.
  pose proof (advance_after_verdict _ _ _ _ _ _ Hv Hk Hrun Hph) as Ha. cbn zeta in Ha.
  fold i in Ha. rewrite Hp in Ha. destruct Ha as (Hr & [_ Hchk] & _).
  unfold task_weight. rewrite Hph. fold i. destruct p as [| | |m| | |]; try done; simpl; [|lia].
  apply advance_index in Hp. destruct (Hchk m eq_refl) as (_ & c & _ & Hc & _).
  apply lookup_lt_Some in Hc. unfold conditions. lia.
Qed.

Lemma jm_delete_length {A} (m : list (string * A)) key e :
  jm_get m key = Some e → length (jm_delete m key) < length m.
Proof.
  assert (∀ m : list (string * A), length (jm_delete m key) ≤ length m) as Hle.
  { clear. intros m. unfold jm_delete. induction m as [|[k v] m IH]; simpl; [lia|].
    repeat case_match; simpl; lia. }
  unfold jm_delete in *. induction m as [|[k v] m IH]; [done|]. simpl. specialize (Hle m).
  repeat case_decide; simpl; subst; try done; intros Hg; try (specialize (IH Hg)); lia.
Qed.

Lemma release_weight s t k res :
  valid digest s → st_tasks s !! t = Some k → tk_phase k = Finished res →
  weight (release t (set_phase t (Settled res) s)) < weight s.
Proof.
  intros Hv Hk Hph. pose proof (set_phase_weight t k (Settled res) s Hk) as Hlt.
  assert (task_weight k = 2) as Hw by (unfold task_weight; by rewrite Hph).
  eapply Nat.le_lt_trans; [|apply Hlt; rewrite Hw; simpl; lia].
  unfold release, set_phase. simpl. rewrite (alter_some _ _ _ _ Hk).
  etransitivity; [apply drain_weight|done]. simpl. rewrite /task_resources lookup_insert_eq.
  apply consistent_release; [apply (va_consistent _ _ (proj1 Hv))|done|by rewrite Hph|by rewrite Hph].
Qed.

Lemma perform_weight s a s' : valid digest s → perform digest s a = Some s' → weight s' < weight s.
Proof.
  intros Hv Hp. destruct a as [r|r|r|t|t|t v|t o|t|t|key|r id]; simpl in Hp.
  - apply bind_Some in Hp as (run & Hrun & Hp). destruct (run_phase run) eqn:Hph; try discriminate.
    injection Hp as <-. by apply iterate_weight.
  - apply bind_Some in Hp as (run & Hrun & Hp). destruct (run_phase run) eqn:Hph; try discriminate.
    apply bind_Some in Hp as (run' & Hw & [= <-]). apply (weight_set_run s s r run); [done..|].
    pose proof (wake_weight _ _ Hph Hw). unfold loop_weight. lia.
  - apply bind_Some in Hp as (run & Hrun & Hp). destruct (run_aborted run) eqn:Hab; [discriminate|].
    injection Hp as <-. apply (weight_set_run s s r run); [done..|]. unfold loop_weight, run_weight. simpl.
    rewrite Hab. change (active_weight (set_aborted run)) with (active_weight run). lia.
  - apply bind_Some in Hp as (k & Hk & (run & Hrun & Hp)%bind_Some).
    destruct (tk_phase k) eqn:Hph; try discriminate.
    assert (task_weight k = 6 + conditions (tk_instruction k)) as Hw by (unfold task_weight; by rewrite Hph).
    destruct (commits _); injection Hp as <-.
    + pose proof (set_phase_weight t k Queued s Hk) as Hq. apply Hq. rewrite Hw. simpl. lia.
    + apply begin_weight; [done..|lia].
  - apply bind_Some in Hp as (k & Hk & (run & Hrun & Hp)%bind_Some).
    destruct (tk_phase k) eqn:Hph; try discriminate. destruct (commitQueue (st_domain s)); [discriminate|].
    destruct (bool_decide _); [|discriminate]. injection Hp as <-.
    apply begin_weight; [done..|]. unfold task_weight. rewrite Hph. simpl. lia.
  - apply bind_Some in Hp as (k & Hk & (run & Hrun & Hp)%bind_Some).
    destruct (tk_phase k) eqn:Hph; try discriminate. injection Hp as <-.
    apply (enter_weight s t k); [done|unfold task_weight; rewrite Hph; simpl; lia|].
    intros p Hst. destruct v; try discriminate. by eapply judge_weight.
  - apply bind_Some in Hp as (k & Hk & Hp). destruct (tk_phase k) eqn:Hph; try discriminate. injection Hp as <-.
    apply (enter_weight s t k (inr _)); [done| |discriminate]. unfold task_weight. by rewrite Hph.
  - apply bind_Some in Hp as (k & Hk & Hp). destruct (tk_phase k) eqn:Hph; try discriminate. injection Hp as <-.
    apply (enter_weight s t k (inr _)); [done| |discriminate]. unfold task_weight. by rewrite Hph.
  - apply bind_Some in Hp as (k & Hk & Hp). destruct (tk_phase k) eqn:Hph; try discriminate. injection Hp as <-.
    by eapply release_weight.
  - apply bind_Some in Hp as ([fp u] & He & (k & Hk & Hp)%bind_Some).
    destruct (tk_phase k); try discriminate. injection Hp as <-.
    pose proof (jm_delete_length _ _ _ He). unfold weight. simpl. lia.
  - apply bind_Some in Hp as (run & Hrun & (u & Ht & (k & Hk & (i & Hi & Hp)%bind_Some)%bind_Some)%bind_Some).
    destruct (tk_phase k); try discriminate. destruct (jm_has _ _) eqn:Hc; [discriminate|]. injection Hp as <-.
    apply (weight_set_run s s r run); [done..|]. unfold loop_weight.
    pose proof (complete_active_weight run id u
      (if bool_decide (u = (r, id)) then result else joinedResult i result) (jm_get_in _ _ _ Ht) Hc). lia.
Qed.

(** ** Where a domain starts *)

Lemma foldl_js_add_NoDup l : ∀ acc, NoDup (acc ++ l) → foldl js_add acc l = acc ++ l.
Proof.
  induction l as [|x l IH]; intros acc Hnd; simpl; [by rewrite app_nil_r|].
  rewrite js_add_fresh; [|apply js_has_false; apply NoDup_app in Hnd as (_ & Hd & _); set_solver].
  rewrite IH -assoc //.
Qed.

(** The events a call can see: a start, an abort, twelve for each instruction and
    one for each of its preconditions. *)
Definition run_bound (p : Program) : nat :=
  2 + sum_list_with (λ i, 12 + length (ins_precondition i)) (pg_instructions p).

Lemma new_run_weight p mc hc : program_ok p → run_weight (new_run p mc hc) = run_bound p.
Proof.
  intros Hok. unfold run_weight, run_bound, new_run.
  cbn [run_program run_pending run_active run_phase run_aborted sum_list_with].
  unfold js_set. rewrite foldl_js_add_NoDup; [rewrite app_nil_l|apply Hok].
  assert (∀ l, (∀ i, i ∈ l → i ∈ pg_instructions p) →
    sum_list_with (pending_weight p) (map ins_id l) = sum_list_with (λ i, 12 + length (ins_precondition i)) l) as Hs.
  { induction l as [|i l IH]; intros Hin; [done|]. simpl. rewrite IH; [|set_solver]. unfold pending_weight.
    rewrite (instruction_by_id_eq p i (po_ids _ Hok)); [done|set_solver]. }
  rewrite Hs; [lia|done].
Qed.

Lemma initial_weight runs :
  Forall admitted_run runs → weight (initial runs) = sum_list_with (λ run, run_bound (run_program run)) runs.
Proof.
  intros Hr. unfold weight. simpl. rewrite map_sum_empty. 
  induction Hr as [|run runs Hrun Hr IH]; [done|]. simpl.
  apply admitted_run_program in Hrun as (Hok & _ & (p & mc & hc & _ & ->)).
  rewrite new_run_weight //. simpl. lia.
Qed.

Lemma initial_lively runs : Forall admitted_run runs → all_lively (initial runs).
Proof.
  intros Hr r run Hrun. simpl in Hrun. rewrite Forall_lookup in Hr.
  apply Hr, admitted_run_program in Hrun as (_ & Ha & (p & mc & hc & _ & ->)).
  split; [exact Ha| |discriminate|discriminate]. simpl. unfold clampConcurrency. lia.
Qed.

Lemma performs_lively l : ∀ s s',
  valid digest s → all_lively s → performs digest s l = Some s' → all_lively s'.
Proof.
  induction l as [|a l IH]; intros s s' Hv Ha Hp; [by injection Hp as <-|].
  apply bind_Some in Hp as (s1 & Hs1 & Hp). apply (IH s1 s'); [|exact (perform_lively digest s a s1 Hv Ha Hs1)|exact Hp].
  exact (perform_valid digest s a s1 Hv Hs1).
Qed.

Lemma reachable_lively s : reachable digest s → all_lively s.
Proof.
  intros (runs & l & Hc & Hp). apply (performs_lively l (initial runs) s); [|exact (initial_lively runs Hc)|exact Hp].
  apply initial_valid. eapply Forall_impl; [exact Hc|]. intros run Hr. by apply admitted_run_program.
Qed.

Lemma performs_weight l : ∀ s s',
  valid digest s → performs digest s l = Some s' → length l + weight s' ≤ weight s.
Proof.
  induction l as [|a l IH]; intros s s' Hv Hp; [by injection Hp as <-|].
  apply bind_Some in Hp as (s1 & Hs1 & Hp). pose proof (perform_weight _ _ _ Hv Hs1).
  pose proof (IH s1 s' (perform_valid _ _ _ _ Hv Hs1) Hp). simpl. lia.
Qed.

(** ** Bounded *)

(** C29. The pipeline does bounded work: from the moment the calls are made, no history
    of events - continuations, answers of the host, aborts, in any order - is
    longer than two events for each call, twelve for each instruction and one for
    each precondition. *)
Theorem pipeline_bounded runs l s :
  Forall admitted_run runs → performs digest (initial runs) l = Some s →
  length l ≤ sum_list_with (λ run, run_bound (run_program run)) runs.
Proof.
  intros Hr Hp. rewrite -initial_weight //.
  assert (valid digest (initial runs)) as Hv.
  { apply initial_valid. eapply Forall_impl; [exact Hr|]. intros run Ha. by apply admitted_run_program. }
  pose proof (performs_weight _ _ _ Hv Hp). lia.
Qed.

(** ** Live *)

Lemma all_returned_dec s : all_lively s →
  (∀ r run, st_runs s !! r = Some run → returned run) ∨
  (∃ r run, st_runs s !! r = Some run ∧ lively run ∧ ¬ returned run).
Proof.
  intros Ha. assert (∀ run, {returned run} + {¬ returned run}) as Hdec.
  { intros run. unfold returned. destruct (run_phase run); [right; naive_solver..|left; eauto|right; naive_solver]. }
  destruct (Forall_Exists_dec returned (λ run, ¬ returned run) Hdec (st_runs s)) as [Hf|He].
  - left. by apply Forall_lookup.
  - right. apply Exists_exists in He as (run & Hin & Hn). apply list_elem_of_lookup in Hin as [r Hr].
    exists r, run. split; [exact Hr|]. split; [exact (Ha _ _ Hr)|exact Hn].
Qed.

Lemma valid_returns n : ∀ s, weight s ≤ n → valid digest s → all_lively s →
  ∃ l s', Forall (λ a, is_abort a = false) l ∧ performs digest s l = Some s' ∧
    ∀ r run, st_runs s' !! r = Some run → returned run.
Proof.
  induction n as [|n IH]; intros s Hn Hv Ha;
    (destruct (all_returned_dec s Ha) as [Hall|(r & run & Hrun & Hl & Hnr)];
      [exists [], s; split; [constructor|]; split; [reflexivity|exact Hall]|]);
    destruct (unfinished_moves digest s r run Hv Hl Hrun Hnr) as (a & Hab & s1 & Hs1);
    pose proof (perform_weight s a s1 Hv Hs1); [lia|].
  destruct (IH s1) as (l & s' & Hf & Hp & Hret);
    [lia|exact (perform_valid digest s a s1 Hv Hs1)|exact (perform_lively digest s a s1 Hv Ha Hs1)|].
  exists (a :: l), s'. split; [by constructor|]. split; [|exact Hret]. simpl. by rewrite Hs1.
Qed.

(** C7. The pipeline is never stuck: in every reachable state in which a call has not
    returned some event other than an abort can happen - a continuation of the
    pipeline, or an answer of the host it waits for -, and some sequence of such
    events leads to a state in which every call has returned its results; no
    call of an admitted program returns the [dependency_cycle] rejection. *)
Theorem pipeline_returns s :
  reachable digest s →
  (∀ r run, st_runs s !! r = Some run → run_phase run ≠ RejectedCycle ∧
    (returned run ∨ ∃ a s', is_abort a = false ∧ perform digest s a = Some s')) ∧
  ∃ l s', Forall (λ a, is_abort a = false) l ∧ performs digest s l = Some s' ∧
    ∀ r run, st_runs s' !! r = Some run → returned run.
Proof.
  intros Hr. pose proof (reachable_valid _ _ Hr) as Hv. pose proof (reachable_lively _ Hr) as Ha.
  split; [|exact (valid_returns (weight s) s (le_n _) Hv Ha)].
  intros r run Hrun. pose proof (Ha _ _ Hrun) as Hl. split; [exact (lv_resolved _ Hl)|].
  destruct (run_phase run) as [| |status results|] eqn:Hph;
    [right| right|left; by exists status, results|by destruct (lv_resolved _ Hl)];
    (destruct (unfinished_moves digest s r run Hv Hl Hrun) as (a & Hab & s1 & Hs1);
      [intros (? & ? & ?); congruence|by exists a, s1]).
Qed.
End Weight.

(** ** The sample runs end *)

Example pipeline_bounded_witness :
  length (sample_history ++ sample_rest) = 20 ∧
  20 ≤ sum_list_with (λ run, run_bound (run_program run)) sample_runs.
Proof.
  split; [reflexivity|].
  apply (pipeline_bounded sample_digest sample_runs (sample_history ++ sample_rest)
    (sample_state (sample_history ++ sample_rest))); [exact sample_admitted|vm_compute; reflexivity].
Defined.

Example pipeline_returns_witness :
  ∃ l s', Forall (λ a, is_abort a = false) l ∧
    performs sample_digest (sample_state (take 3 sample_history)) l = Some s' ∧
    ∀ r run, st_runs s' !! r = Some run → returned run.
Proof.
  apply (pipeline_returns sample_digest). apply sample_reachable. vm_compute. by eexists.
Defined.
