(* ===== verification/WorkTree.v ===== *)
(** * WorkTree: applying a write set to a workspace (src/src/workspace/transactions.ts)

    A disk is the tree of its nodes by absolute path. [apply] copies the entries
    of a write set from the directory a transaction worked in to the main
    workspace, checking each path first; what Node answers about real paths is
    [fs_of], a function of the disk. A call that throws leaves what it has done. *)

From S2P Require Import Prelude Types Paths.

Inductive Node :=
| NDir
| NFile (data : string) (mode : Z)
| NLink (target : string).
Notation Path := (list string).
Notation Disk := (gmap Path Node).
Notation FM := (ST error Disk).

Inductive WriteStatus := ws_A | ws_D | ws_M | ws_T.
#[export] Instance WriteStatus_eq_dec : EqDecision WriteStatus.
Proof. solve_decision. Defined.

Record WriteEntry := mkWrite { we_status : WriteStatus; we_path : string }.
#[export] Instance WriteEntry_eq_dec : EqDecision WriteEntry.
Proof. solve_decision. Defined.

(** ** The calls of [node:fs], on paths without symbolic links above them *)

(** [path.resolve(base, p)] for an absolute [base]; [path.dirname]. *)
Definition path_resolve (base p : string) : Path :=
  if startsWith p "/" then normalize (split_slash p)
  else normalize (split_slash base ++ split_slash p).
Definition dirname (p : Path) : Path := take (pred (length p)) p.

Definition is_link (n : option Node) : bool := match n with Some (NLink _) => true | _ => false end.

Definition lstatSync (d : Disk) (p : Path) : outcome error Node :=
  match d !! p with Some n => Ok n | None => Throw (Err "ENOENT") end.

(** [fs.rmSync(p, { force: true })]: it does not remove directories. *)
Definition rmSync (p : Path) : FM unit :=
  d ← get_state;
  match d !! p with
  | None => mret tt
  | Some NDir => throw (Err "ERR_FS_EISDIR")
  | Some _ => modify (delete p)
  end.

(** [fs.mkdirSync(p, { recursive: true })] *)
Fixpoint mkdirs (above : Path) (rest : Path) : FM unit :=
  match rest with
  | [] => mret tt
  | seg :: rest' =>
      let p := above ++ [seg] in
      d ← get_state;
      match d !! p with
      | None => modify (<[p := NDir]>)
      | Some NDir => mret tt
      | Some _ => throw (Err "EEXIST")
      end ;;
      mkdirs p rest'
  end.
Definition mkdirSync (p : Path) : FM unit := mkdirs [] p.

(** [fs.symlinkSync] or [fs.copyFileSync] and [fs.chmodSync], where nothing is. *)
Definition copy_node (n : Node) (dst : Path) : FM unit :=
  match n with
  | NLink target => modify (<[dst := NLink target]>)
  | NFile data mode =>
      modify (<[dst := NFile data mode]>) ;;
      modify (<[dst := NFile data (Z.land mode 511)]>)
  | NDir => throw (Err "ERR_FS_EISDIR")
  end.

(** ** [apply] *)

Section Apply.
Context (fs_of : Disk → FileSystem).

Definition contained (d : Disk) (parent child : Path) : bool :=
  @isPathContained (fs_of d) (render parent) (render child).

(** The loop of [assertNoSymlinkedParent]; [rdir] is [dir] reversed. *)
Fixpoint no_symlinked_dir (d : Disk) (root : Path) (rdir : Path) : outcome error unit :=
  let dir := rev rdir in
  if bool_decide (dir = root) || negb (contained d root dir) then Ok tt
  else if @fs_existsSync (fs_of d) (render dir) && is_link (d !! dir)
  then Throw (Err "Refusing to apply: a parent is a symbolic link")
  else match rdir with [] => Ok tt | _ :: above => no_symlinked_dir d root above end.
Definition assertNoSymlinkedParent (d : Disk) (root target : Path) : outcome error unit :=
  no_symlinked_dir d root (rev (dirname target)).

(** The tests of an entry before anything is touched. *)
Definition check_entry (root source : string) (e : WriteEntry) (d : Disk) : outcome error unit :=
  let dst := path_resolve root (we_path e) in
  let src := path_resolve source (we_path e) in
  if negb (contained d (path_resolve root "") dst) || negb (contained d (path_resolve source "") src)
  then Throw (Err "Refusing to apply: it resolves outside the transaction root")
  else assertNoSymlinkedParent d (path_resolve root "") dst.

Definition apply_entry (root source : string) (e : WriteEntry) : FM unit :=
  let dst := path_resolve root (we_path e) in
  let src := path_resolve source (we_path e) in
  d ← get_state;
  lift (check_entry root source e d) ;;
  if bool_decide (we_status e = ws_D) then rmSync dst
  else
    mkdirSync (dirname dst) ;;
    d ← get_state;
    st ← lift (lstatSync d src);
    rmSync dst ;;
    copy_node st dst.

Definition apply (root source : string) (writeSet : list WriteEntry) : FM unit :=
  for_each writeSet (apply_entry root source).

(** ** Interruption *)

(** The disks a process that dies while it applies can leave: between two calls
    of [node:fs], or with a file copied in part. *)
Inductive torn (root source : string) : list WriteEntry → Disk → Disk → Prop :=
| torn_before es d : torn root source es d d
| torn_after e es d d1 d2 :
    apply_entry root source e d = (Ok tt, d1) → torn root source es d1 d2 →
    torn root source (e :: es) d d2
| torn_mkdir e es d n :
    check_entry root source e d = Ok tt → we_status e ≠ ws_D →
    torn root source (e :: es) d (mkdirSync (take n (dirname (path_resolve root (we_path e)))) d).2
| torn_rm e es d d1 :
    check_entry root source e d = Ok tt → we_status e ≠ ws_D →
    mkdirSync (dirname (path_resolve root (we_path e))) d = (Ok tt, d1) →
    torn root source (e :: es) d (rmSync (path_resolve root (we_path e)) d1).2
| torn_copy e es d d1 data mode :
    check_entry root source e d = Ok tt → we_status e ≠ ws_D →
    mkdirSync (dirname (path_resolve root (we_path e))) d = (Ok tt, d1) →
    torn root source (e :: es) d (<[path_resolve root (we_path e) := NFile data mode]> d1).
End Apply.
