(* ===== verification/WorkTreeSpec.v ===== *)
(** * WorkTreeSpec: applying a write set installs it, also after a crash

    On a write set git can list, [apply] leaves each path as it is in the source
    and touches nothing else; a process that dies in the middle leaves a disk on
    which applying the same write set again gives the same result. *)

From S2P Require Import Prelude Types Paths PathsSpec WorkTree.

(** ** Prefixes *)

Lemma dirname_snoc p seg : dirname (p ++ [seg]) = p.
Proof. unfold dirname. rewrite length_app /=. replace (pred (length p + 1)) with (length p) by lia. by rewrite take_app_length. Qed.
Lemma dirname_prefix p : dirname p `prefix_of` p.
Proof. exists (drop (pred (length p)) p). by rewrite take_drop. Qed.
Lemma dirname_app p rel : rel ≠ [] → dirname (p ++ rel) = p ++ dirname rel.
Proof.
  intros Hr. destruct rel as [|x rel _] using rev_ind; [done|]. by rewrite assoc !dirname_snoc.
Qed.

(** [q] is a directory on the way to [p]. *)
Definition above (q p : Path) : Prop := q `prefix_of` p ∧ q ≠ p.
#[export] Instance above_dec q p : Decision (above q p).
Proof. unfold above. apply _. Defined.

Lemma above_dirname q p : p ≠ [] → above q p ↔ q `prefix_of` dirname p.
Proof.
  intros Hp. destruct p as [|x p _] using rev_ind; [done|]. rewrite dirname_snoc. split.
  - intros [[k Hk] Hne]. destruct k as [|y k _] using rev_ind; [by rewrite app_nil_r in Hk|].
    rewrite assoc in Hk. apply app_inj_tail in Hk as [-> _]. by exists k.
  - intros [k ->]. split; [by exists (k ++ [x]); rewrite assoc|].
    intros E. apply (f_equal length) in E. rewrite !length_app /= in E. lia.
Qed.

(** ** Making directories *)

(** A directory chain that can be made: nothing but directories in the way. *)
Definition clear (d : Disk) (q : Path) : Prop := q ≠ [] → d !! q = None ∨ d !! q = Some NDir.

Lemma mkdirs_spec rest : ∀ base d,
  (∀ q, above base q → q `prefix_of` base ++ rest → d !! q = None ∨ d !! q = Some NDir) →
  ∃ d', mkdirs base rest d = (Ok tt, d') ∧
    ∀ p, d' !! p = if decide (above base p ∧ p `prefix_of` base ++ rest) then Some NDir else d !! p.
Proof.
  induction rest as [|seg rest IH]; intros base d Hc; simpl.
  { exists d. split; [done|]. intros p. rewrite app_nil_r. case_decide as H; [|done].
    destruct H as [[H1 H2] H3]. by destruct H2; apply (anti_symm prefix). }
  assert (above base (base ++ [seg])) as Hab.
  { split; [by eexists|]. intros E. apply (f_equal length) in E. rewrite length_app /= in E. lia. }
  assert ((base ++ [seg]) `prefix_of` base ++ seg :: rest) as Hpre by (exists rest; by rewrite -assoc).
  assert (∀ p, above base p ∧ p `prefix_of` base ++ seg :: rest ↔
    p = base ++ [seg] ∨ (above (base ++ [seg]) p ∧ p `prefix_of` (base ++ [seg]) ++ rest)) as Hiff.
  { intros p. rewrite -assoc. split.
    - intros [[[k ->] Hne] Hp]. destruct k as [|y k]; [by rewrite app_nil_r in Hne|].
      apply prefix_app_inv in Hp as Hp'. apply prefix_cons_inv_1 in Hp' as ->.
      destruct k as [|z k]; [by left|right]. split; [|done]. split; [exists (z :: k); by rewrite -assoc|].
      intros E. apply (f_equal length) in E. rewrite !length_app /= in E. lia.
    - intros [->|[[[k ->] _] Hp]]; [by split|]. split; [|done].
      split; [exists (seg :: k); by rewrite -assoc|]. intros E. apply (f_equal length) in E.
      rewrite !length_app /= in E. lia. }
  set (d1 := match d !! (base ++ [seg]) with None => <[base ++ [seg] := NDir]> d | _ => d end).
  assert (∀ p, d1 !! p = if decide (p = base ++ [seg]) then Some NDir else d !! p) as Hd1.
  { intros p. unfold d1. destruct (Hc (base ++ [seg]) Hab Hpre) as [E|E]; rewrite E; case_decide; subst;
      [by rewrite lookup_insert_eq|by rewrite lookup_insert_ne|done|done]. }
  destruct (IH (base ++ [seg]) d1) as (d' & Hrun & Hd').
  { intros q Hq Hqp. rewrite Hd1. case_decide as E; [by right|].
    apply Hc; [|rewrite -assoc in Hqp; exact Hqp]. apply (proj2 (Hiff q)). by right. }
  exists d'. split.
  - unfold get_state, modify, mbind, ST_bind. unfold d1 in Hrun.
    destruct (Hc (base ++ [seg]) Hab Hpre) as [E|E]; rewrite E in Hrun |- *; exact Hrun.
  - intros p. rewrite Hd' Hd1. destruct (decide (p = base ++ [seg])) as [->|Hne].
    + rewrite (decide_True (P := above base (base ++ [seg]) ∧ _)); [|by split]. by case_decide.
    + destruct (decide (above (base ++ [seg]) p ∧ p `prefix_of` (base ++ [seg]) ++ rest)) as [H|H].
      * rewrite decide_True //. apply Hiff. by right.
      * rewrite decide_False //. rewrite Hiff. tauto.
Qed.

Lemma mkdirSync_spec p d :
  (∀ q, q `prefix_of` p → clear d q) →
  ∃ d', mkdirSync p d = (Ok tt, d') ∧
    ∀ q, d' !! q = if decide (q ≠ [] ∧ q `prefix_of` p) then Some NDir else d !! q.
Proof.
  intros Hc. destruct (mkdirs_spec p [] d) as (d' & Hrun & Hd').
  { intros q [_ Hne] Hq. by apply Hc. }
  exists d'. split; [done|]. intros q. rewrite Hd'. simpl.
  destruct (decide (q ≠ [] ∧ q `prefix_of` p)) as [[Hne Hq]|H].
  - rewrite decide_True //. split; [|done]. split; [apply prefix_nil|done].
  - rewrite decide_False //. intros [[_ Hne] Hq]. by apply H.
Qed.

(** ** Write sets a Git tree can list *)

Section Spec.
Context (fs_of : Disk → FileSystem) (root source : Path).
Implicit Types (d : Disk) (es : list WriteEntry) (e : WriteEntry) (p q : Path).

Notation dst e := (path_resolve (render root) (we_path e)).
Notation src e := (path_resolve (render source) (we_path e)).

Definition unlinked d p : Prop := ∀ q, q `prefix_of` p → is_link (d !! q) = false.

(** What Node documents of real paths: a path without symbolic links on it is its
    own, so containment is that of the segments. *)
Definition real_path_law : Prop := ∀ d p rel,
  wf_path (p ++ rel) → unlinked d (p ++ rel) → contained fs_of d p (p ++ rel) = true.

(** A relative path as Git lists it: segments, none of them special. *)
Definition listed e : Prop := wf_path (split_slash (we_path e)).
Definition removes e : Prop := we_status e = ws_D.

(** What [dst] is to become. *)
Definition installed_node d e : option Node :=
  if bool_decide (we_status e = ws_D) then None
  else match d !! (src e) with
  | Some (NFile data mode) => Some (NFile data (Z.land mode 511))
  | n => n
  end.

(** A write set that can be installed: its paths are listed once, none goes
    through another, nothing in the way is a link or a file, what is replaced is
    not a directory, and the sources are regular files beside the target. *)
Record regular es d : Prop := {
  rg_root : wf_path root;
  rg_source : wf_path source;
  rg_apart : ¬ root `prefix_of` source ∧ ¬ source `prefix_of` root;
  rg_listed e : e ∈ es → listed e;
  rg_once : NoDup (map (λ e, dst e) es);
  rg_above e e' : e ∈ es → e' ∈ es → ¬ above (dst e) (dst e');
  rg_clear e q : e ∈ es → above q (dst e) → clear d q;
  rg_target e : e ∈ es → d !! (dst e) = None ∨ ∃ data mode, d !! (dst e) = Some (NFile data mode);
  rg_unlinked e : e ∈ es → unlinked d (src e);
  rg_file e : e ∈ es → ¬ removes e → ∃ data mode, d !! (src e) = Some (NFile data mode);
}.

Lemma resolve_root (base : Path) e : wf_path base → listed e →
  path_resolve (render base) (we_path e) = base ++ split_slash (we_path e).
Proof.
  intros Hb Hl. unfold path_resolve. unfold listed in Hl.
  assert (startsWith (we_path e) "/" = false) as ->.
  { apply not_true_iff_false. unfold startsWith. intros (t & Ht)%prefix_string_spec.
    rewrite Ht in Hl. change (split_slash ("/" +:+ t)) with ("" :: split_slash t) in Hl.
    inversion Hl as [|? ? (_ & Hne & _)]. done. }
  apply normalize_join. by apply Forall_app.
Qed.
Lemma split_slash_not_nil s : split_slash s ≠ [].
Proof. by destruct (split_slash_nonempty s) as (x & l & ->). Qed.
Lemma resolve_empty (base : Path) : wf_path base → path_resolve (render base) "" = base.
Proof.
  intros Hb. unfold path_resolve. change (startsWith "" "/") with false. simpl.
  unfold normalize. rewrite foldl_app. simpl. unfold normalize_step at 1. simpl.
  by apply normalize_split_render.
Qed.

(** ** A disk on the way from one to the other *)

Definition makes e q : Prop := ¬ removes e ∧ q ≠ [] ∧ above q (dst e).

(** What is between the disk before and the disk after: targets are files or
    absent, directories may have been made on the way to them, and that is all. *)
Record installing es d0 d : Prop := {
  in_target e : e ∈ es → d !! (dst e) = None ∨ ∃ data mode, d !! (dst e) = Some (NFile data mode);
  in_made e q : e ∈ es → makes e q → d !! q = d0 !! q ∨ d !! q = Some NDir;
  in_other p : (∀ e, e ∈ es → p ≠ dst e ∧ ¬ makes e p) → d !! p = d0 !! p;
}.

#[export] Instance makes_dec e q : Decision (makes e q).
Proof. unfold makes, removes. apply _. Defined.

Lemma installing_refl es d : regular es d → installing es d d.
Proof. intros Hr. split; [apply Hr|by left|done]. Qed.

Section Step.
Context (Hlaw : real_path_law) (es : list WriteEntry) (d0 : Disk) (Hreg : regular es d0).

Lemma dst_eq e : e ∈ es → dst e = root ++ split_slash (we_path e).
Proof using Hreg. intros He. apply resolve_root; [apply Hreg|by apply (rg_listed _ _ Hreg)]. Qed.
Lemma src_eq e : e ∈ es → src e = source ++ split_slash (we_path e).
Proof using Hreg. intros He. apply resolve_root; [apply Hreg|by apply (rg_listed _ _ Hreg)]. Qed.

Lemma comparable p1 p2 q : p1 `prefix_of` q → p2 `prefix_of` q → p1 `prefix_of` p2 ∨ p2 `prefix_of` p1.
Proof. intros H1 H2. by apply (prefix_weak_total p1 p2 q). Qed.

(** No source is a target, or on the way to one. *)
Lemma src_apart e e' : e ∈ es → e' ∈ es → ¬ dst e' `prefix_of` src e ∧ ¬ src e `prefix_of` dst e'.
Proof using Hreg.
  intros He He'. rewrite (dst_eq e' He') (src_eq e He). destruct (rg_apart _ _ Hreg) as [H1 H2].
  split; intros Hp.
  - destruct (comparable root source (source ++ split_slash (we_path e))); [|by eexists|done|done].
    etransitivity; [|exact Hp]. by eexists.
  - destruct (comparable root source (root ++ split_slash (we_path e'))); [by eexists| |done|done].
    etransitivity; [|exact Hp]. by eexists.
Qed.

Lemma not_target e q : e ∈ es → above q (dst e) → ∀ e', e' ∈ es → q ≠ dst e'.
Proof using Hreg. intros He Hq e' He' ->. by eapply (rg_above _ _ Hreg e' e). Qed.

Lemma made_or_kept q :
  (∃ e, e ∈ es ∧ makes e q) ∨ (∀ e, e ∈ es → ¬ makes e q).
Proof using.
  destruct (decide (Exists (λ e, makes e q) es)) as [H|H].
  - left. apply Exists_exists in H as (e & He & Hm). by exists e.
  - right. intros e He Hm. apply H, Exists_exists. by exists e.
Qed.

Lemma installing_clear d e q : installing es d0 d → e ∈ es → above q (dst e) → clear d q.
Proof using Hreg.
  intros Hin He Hq Hne. pose proof (rg_clear _ _ Hreg e q He Hq Hne) as Hc.
  destruct (made_or_kept q) as [(e' & He' & Hm)|Hk].
  - destruct (in_made _ _ _ Hin e' q He' Hm) as [E|E]; rewrite E; auto.
  - rewrite (in_other _ _ _ Hin q); [done|]. intros e' He'. split; [by apply (not_target e q He Hq)|auto].
Qed.

Lemma installing_src d e q : installing es d0 d → e ∈ es → q `prefix_of` src e →
  is_link (d !! q) = false.
Proof using Hreg.
  intros Hin He Hq. pose proof (rg_unlinked _ _ Hreg e He q Hq) as Hl.
  destruct (made_or_kept q) as [(e' & He' & Hm)|Hk].
  - destruct (in_made _ _ _ Hin e' q He' Hm) as [E|E]; by rewrite E.
  - rewrite (in_other _ _ _ Hin q); [done|]. intros e' He'. split; [|auto].
    intros ->. by destruct (src_apart e e' He He').
Qed.
Lemma installing_file d e : installing es d0 d → e ∈ es → d !! (src e) = d0 !! (src e).
Proof using Hreg.
  intros Hin He. apply (in_other _ _ _ Hin). intros e' He'. split.
  - intros E. destruct (src_apart e e' He He') as [_ H]. apply H. by rewrite E.
  - intros (_ & _ & Hp & _). by destruct (src_apart e e' He He').
Qed.

Lemma installing_unlinked d e : installing es d0 d → e ∈ es → unlinked d (dst e).
Proof using Hreg.
  intros Hin He q Hq. destruct (decide (q = dst e)) as [->|Hne].
  - by destruct (in_target _ _ _ Hin e He) as [->|(data & mode & ->)].
  - destruct (decide (q = [])) as [->|Hn].
    + apply (installing_src d e []); [done|done|apply prefix_nil].
    + by destruct (installing_clear d e q Hin He (conj Hq Hne) Hn) as [->| ->].
Qed.

Lemma no_symlinked_ok d rdir : unlinked d (rev rdir) → no_symlinked_dir fs_of d root rdir = Ok tt.
Proof using.
  induction rdir as [|x rdir IH]; intros Hu; simpl;
    (destruct (_ || _); [done|]); rewrite (Hu _ ltac:(reflexivity)) andb_false_r; [done|].
  apply IH. intros q Hq. apply Hu. simpl. etransitivity; [exact Hq|by eexists].
Qed.

Lemma check_passes d e : installing es d0 d → e ∈ es → check_entry fs_of (render root) (render source) e d = Ok tt.
Proof using Hlaw Hreg.
  intros Hin He. unfold check_entry.
  pose proof (installing_unlinked d e Hin He) as Hud.
  rewrite !resolve_empty; [|apply Hreg..].
  assert (contained fs_of d root (dst e) = true) as ->.
  { rewrite dst_eq // in Hud |- *. apply Hlaw; [|done]. apply Forall_app. split; [apply Hreg|by apply (rg_listed _ _ Hreg)]. }
  assert (contained fs_of d source (src e) = true) as ->.
  { rewrite src_eq //. apply Hlaw.
    - apply Forall_app. split; [apply Hreg|by apply (rg_listed _ _ Hreg)].
    - intros q Hq. apply (installing_src d e q Hin He). by rewrite src_eq. }
  simpl. unfold assertNoSymlinkedParent. apply no_symlinked_ok. rewrite rev_involutive.
  intros q Hq. apply Hud. etransitivity; [exact Hq|apply dirname_prefix].
Qed.

Lemma dst_not_nil e : e ∈ es → dst e ≠ [].
Proof using Hreg.
  intros He E. rewrite dst_eq // in E. apply app_eq_nil in E as [_ E]. by apply split_slash_not_nil in E.
Qed.

(** The directories on the way. *)
Lemma makes_directories d e : installing es d0 d → e ∈ es → ¬ removes e → ∃ d1,
  mkdirSync (dirname (dst e)) d = (Ok tt, d1) ∧
  ∀ q, d1 !! q = if decide (makes e q) then Some NDir else d !! q.
Proof using Hreg.
  intros Hin He Hr. destruct (mkdirSync_spec (dirname (dst e)) d) as (d1 & Hrun & Hd1).
  { intros q Hq. apply (installing_clear d e q Hin He). apply above_dirname; [by apply dst_not_nil|done]. }
  exists d1. split; [done|]. intros q. rewrite Hd1. apply decide_ext. unfold makes.
  rewrite above_dirname; [tauto|by apply dst_not_nil].
Qed.

Lemma not_makes_dst e e' : e ∈ es → e' ∈ es → ¬ makes e' (dst e).
Proof using Hreg. intros He He' (_ & _ & Ha). by eapply (rg_above _ _ Hreg e e'). Qed.

(** An entry on any such disk. *)
Lemma apply_entry_spec d e : installing es d0 d → e ∈ es → ∃ d1,
  apply_entry fs_of (render root) (render source) e d = (Ok tt, d1) ∧
  ∀ p, d1 !! p = if decide (p = dst e) then installed_node d0 e
    else if decide (makes e p) then Some NDir else d !! p.
Proof using Hlaw Hreg.
  intros Hin He. unfold apply_entry, get_state, lift, mbind, ST_bind. rewrite (check_passes d e Hin He).
  unfold installed_node. case_bool_decide as Hs.
  - assert (rmSync (dst e) d = (Ok tt, delete (dst e) d)) as ->.
    { unfold rmSync, get_state, modify, mbind, ST_bind.
      destruct (in_target _ _ _ Hin e He) as [E|(data & mode & E)]; rewrite E; [|done].
      by rewrite delete_id. }
    eexists. split; [reflexivity|]. intros p. case_decide as Hp.
    + subst p. by rewrite lookup_delete_eq.
    + rewrite lookup_delete_ne; [|done]. case_decide as Hm; [|done]. by destruct Hm as [Hm _].
  - destruct (makes_directories d e Hin He Hs) as (d1 & Hrun & Hd1). rewrite Hrun.
    destruct (rg_file _ _ Hreg e He Hs) as (data & mode & Hfile). rewrite Hfile.
    assert (d1 !! (src e) = Some (NFile data mode)) as Hsrc.
    { rewrite Hd1 decide_False; [by rewrite (installing_file d e Hin He)|].
      intros (_ & _ & Hp & _). by destruct (src_apart e e He He). }
    unfold lstatSync. rewrite Hsrc.
    assert (rmSync (dst e) d1 = (Ok tt, delete (dst e) d1)) as ->.
    { assert (d1 !! (dst e) = d !! (dst e)) as E by (rewrite Hd1 decide_False //; by apply not_makes_dst).
      unfold rmSync, get_state, modify, mbind, ST_bind.
      destruct (in_target _ _ _ Hin e He) as [E'|(data' & mode' & E')]; rewrite E E'; [|done].
      by rewrite delete_id // E. }
    eexists. split; [reflexivity|]. intros p. case_decide as Hp.
    + subst p. by rewrite lookup_insert_eq.
    + by rewrite !lookup_insert_ne // lookup_delete_ne // Hd1.
Qed.

Lemma installed_file e : e ∈ es →
  installed_node d0 e = None ∨ ∃ data mode, installed_node d0 e = Some (NFile data mode).
Proof using Hreg.
  intros He. unfold installed_node. case_bool_decide as Hs; [by left|right].
  destruct (rg_file _ _ Hreg e He Hs) as (data & mode & ->). by eexists _, _.
Qed.

Lemma apply_entry_installing d e d1 : installing es d0 d → e ∈ es →
  (∀ p, d1 !! p = if decide (p = dst e) then installed_node d0 e
    else if decide (makes e p) then Some NDir else d !! p) → installing es d0 d1.
Proof using Hreg.
  intros Hin He Hd1. split.
  - intros e' He'. rewrite Hd1. case_decide; [by apply installed_file|].
    rewrite decide_False; [by apply (in_target _ _ _ Hin)|]. by apply not_makes_dst.
  - intros e' q He' Hm. rewrite Hd1. rewrite decide_False; [|by apply (not_target e' q He' (proj2 (proj2 Hm)))].
    case_decide; [by right|]. by apply (in_made _ _ _ Hin e').
  - intros p Hp. rewrite Hd1. destruct (Hp e He) as [H1 H2]. rewrite !decide_False //.
    by apply (in_other _ _ _ Hin).
Qed.

(** What the entries of [es'] are to leave. *)
Definition installs (es' : list WriteEntry) d d1 : Prop :=
  (∀ e, e ∈ es' → d1 !! (dst e) = installed_node d0 e) ∧
  (∀ e q, e ∈ es' → makes e q → d1 !! q = Some NDir) ∧
  (∀ p, (∀ e, e ∈ es' → p ≠ dst e ∧ ¬ makes e p) → d1 !! p = d !! p).

Lemma apply_installs_from es' : ∀ d, installing es d0 d → (∀ e, e ∈ es' → e ∈ es) → NoDup (map (λ e, dst e) es') →
  ∃ d1, apply fs_of (render root) (render source) es' d = (Ok tt, d1) ∧ installing es d0 d1 ∧ installs es' d d1.
Proof using Hlaw Hreg.
  induction es' as [|e es' IH]; intros d Hin Hsub Hnd.
  { exists d. split; [done|]. split; [done|]. split_and!; [set_solver|set_solver|done]. }
  assert (e ∈ es) as He by (apply Hsub; left).
  destruct (apply_entry_spec d e Hin He) as (d1 & Hrun & Hd1).
  pose proof (apply_entry_installing d e d1 Hin He Hd1) as Hin1.
  apply NoDup_cons in Hnd as [Hfresh Hnd].
  destruct (IH d1 Hin1) as (d2 & Hrun2 & Hin2 & Ht & Hm & Ho); [set_solver|done|].
  exists d2. split; [|split; [done|]].
  { unfold apply. simpl. unfold mbind, ST_bind. by rewrite Hrun. }
  assert (∀ e', e' ∈ es' → dst e ≠ dst e') as Hne.
  { intros e' He' E. apply Hfresh. change (dst e ∈ (λ e, dst e) <$> es'). apply list_elem_of_fmap. by exists e'. }
  split_and!.
  - intros e' [->|He']%elem_of_cons; [|by apply Ht]. rewrite Ho; [by rewrite Hd1 decide_True|].
    intros e' He'. split; [by apply Hne|]. apply not_makes_dst; [done|set_solver].
  - intros e' q [->|He']%elem_of_cons Hq; [|by apply (Hm e')].
    destruct (decide (Exists (λ e', makes e' q) es')) as [(e' & He' & Hq')%Exists_exists|Hn]; [by apply (Hm e')|].
    rewrite Ho.
    + rewrite Hd1 decide_False; [by rewrite decide_True|]. apply (not_target e q He (proj2 (proj2 Hq))); done.
    + intros e' He'. split; [apply (not_target e q He (proj2 (proj2 Hq))); set_solver|].
      intros Hq'. apply Hn, Exists_exists. by exists e'.
  - intros p Hp. rewrite Ho; [|intros e' He'; apply Hp; set_solver].
    destruct (Hp e ltac:(left)) as [H1 H2]. by rewrite Hd1 !decide_False.
Qed.

Lemma installs_only es' d d1 p : installs es' d d1 → d1 !! p ≠ d !! p →
  ∃ e, e ∈ es' ∧ (p = dst e ∨ (above p (dst e) ∧ d1 !! p = Some NDir)).
Proof using.
  intros (Ht & Hm & Ho) Hp.
  destruct (decide (Exists (λ e, p = dst e) es')) as [(e & He & ->)%Exists_exists|Hnt];
    [exists e; split; [done|by left]|].
  destruct (decide (Exists (λ e, makes e p) es')) as [(e & He & Hq)%Exists_exists|Hnm].
  { exists e. split; [done|right]. split; [apply Hq|by apply (Hm e)]. }
  destruct Hp. apply Ho. intros e He.
  split; [intros E; apply Hnt|intros E; apply Hnm]; apply Exists_exists; by exists e.
Qed.

(** There is one such disk. *)
Lemma installs_unique d d' d1 d1' :
  installing es d0 d → installing es d0 d' → installs es d d1 → installs es d' d1' → d1 = d1'.
Proof using.
  intros Hin Hin' (Ht & Hm & Ho) (Ht' & Hm' & Ho'). apply map_eq. intros p.
  destruct (decide (Exists (λ e, p = dst e) es)) as [(e & He & ->)%Exists_exists|Hnt].
  { by rewrite Ht // Ht'. }
  destruct (decide (Exists (λ e, makes e p) es)) as [(e & He & Hq)%Exists_exists|Hnm].
  { by rewrite (Hm e) // (Hm' e). }
  assert (∀ e, e ∈ es → p ≠ dst e ∧ ¬ makes e p) as Hp.
  { intros e He. split; [intros E; apply Hnt|intros E; apply Hnm]; apply Exists_exists; by exists e. }
  rewrite Ho // Ho' // (in_other _ _ _ Hin p Hp) (in_other _ _ _ Hin' p Hp). done.
Qed.

(** ** Torn disks *)

Lemma partial_dirs d e n d1 : installing es d0 d → e ∈ es → ¬ removes e →
  d1 = (mkdirSync (take n (dirname (dst e))) d).2 → installing es d0 d1.
Proof using Hreg.
  intros Hin He Hr ->. destruct (mkdirSync_spec (take n (dirname (dst e))) d) as (d1 & -> & Hd1).
  { intros q Hq. apply (installing_clear d e q Hin He). apply above_dirname; [by apply dst_not_nil|].
    etransitivity; [exact Hq|]. exists (drop n (dirname (dst e))). by rewrite take_drop. }
  simpl. assert (∀ q, q ≠ [] ∧ q `prefix_of` take n (dirname (dst e)) → makes e q) as Hmk.
  { intros q [Hne Hq]. split_and!; [done..|]. apply above_dirname; [by apply dst_not_nil|].
    etransitivity; [exact Hq|]. exists (drop n (dirname (dst e))). by rewrite take_drop. }
  split.
  - intros e' He'. rewrite Hd1 decide_False; [by apply (in_target _ _ _ Hin)|].
    intros Hq%Hmk. by apply (not_makes_dst e' e).
  - intros e' q He' Hm. rewrite Hd1. case_decide; [by right|by apply (in_made _ _ _ Hin e')].
  - intros p Hp. rewrite Hd1 decide_False; [by apply (in_other _ _ _ Hin)|].
    intros Hq%Hmk. by destruct (Hp e He).
Qed.

Lemma installing_target d e n : installing es d0 d → e ∈ es →
  (n = None ∨ ∃ data mode, n = Some (NFile data mode)) → ∀ d1,
  (∀ p, d1 !! p = if decide (p = dst e) then n else d !! p) → installing es d0 d1.
Proof using Hreg.
  intros Hin He Hn d1 Hd1. split.
  - intros e' He'. rewrite Hd1. case_decide; [done|by apply (in_target _ _ _ Hin)].
  - intros e' q He' Hm. rewrite Hd1 decide_False; [by apply (in_made _ _ _ Hin e')|].
    by apply (not_target e' q He' (proj2 (proj2 Hm))).
  - intros p Hp. rewrite Hd1 decide_False; [by apply (in_other _ _ _ Hin)|by apply Hp].
Qed.

Lemma torn_installing es' d d' :
  torn fs_of (render root) (render source) es' d d' → (∀ e, e ∈ es' → e ∈ es) →
  installing es d0 d → installing es d0 d'.
Proof using Hlaw Hreg.
  induction 1 as [es' d|e es' d d1 d2 Hrun _ IH|e es' d n _ Hs|e es' d d1 _ Hs Hrun|e es' d d1 data mode _ Hs Hrun];
    intros Hsub Hin; [done| | | |].
  - assert (e ∈ es) as He by (apply Hsub; left).
    destruct (apply_entry_spec d e Hin He) as (d1' & Hrun' & Hd1). rewrite Hrun in Hrun'. injection Hrun' as <-.
    apply IH; [set_solver|]. by apply (apply_entry_installing d e).
  - by eapply partial_dirs; [exact Hin|apply Hsub; left|exact Hs|].
  - assert (e ∈ es) as He by (apply Hsub; left).
    assert (installing es d0 d1) as Hin1.
    { apply (partial_dirs d e (length (dirname (dst e))) d1 Hin He Hs). by rewrite firstn_all Hrun. }
    unfold rmSync, get_state, modify, mbind, ST_bind.
    destruct (in_target _ _ _ Hin1 e He) as [E|(data & mode & E)]; rewrite E; [done|].
    apply (installing_target d1 e None Hin1 He); [by left|]. intros p. simpl.
    case_decide; [subst; by rewrite lookup_delete_eq|by rewrite lookup_delete_ne].
  - assert (e ∈ es) as He by (apply Hsub; left).
    assert (installing es d0 d1) as Hin1.
    { apply (partial_dirs d e (length (dirname (dst e))) d1 Hin He Hs). by rewrite firstn_all Hrun. }
    apply (installing_target d1 e (Some (NFile data mode)) Hin1 He); [right; by eexists _, _|]. intros p.
    case_decide; [subst; by rewrite lookup_insert_eq|by rewrite lookup_insert_ne].
Qed.
End Step.

(** C9. Applying is a redo, on a [regular] write set: distinct relative paths none of
    which goes through another, no link or file on the way to any, nothing but a
    regular file or nothing where each goes, sources that are regular files, and a
    source tree beside the target. (Git lists other write sets too, with links or with
    a file where a directory was: [file_over_directory_refused] and
    [directory_over_file_not_redone] are what happens to them.) On it [apply] succeeds and leaves
    each path as it is in the source, made directories on the way, and nothing
    else changed; and a process that dies at any point of it, with a file copied
    in part even, leaves a disk on which applying the same write set again gives
    the very disk an undisturbed run gives. *)
Theorem apply_is_a_redo es d :
  real_path_law → regular es d → ∃ d1,
    apply fs_of (render root) (render source) es d = (Ok tt, d1) ∧
    (∀ e, e ∈ es → d1 !! (dst e) = installed_node d e) ∧
    (∀ p, d1 !! p ≠ d !! p → ∃ e, e ∈ es ∧ (p = dst e ∨ (above p (dst e) ∧ d1 !! p = Some NDir))) ∧
    ∀ d', torn fs_of (render root) (render source) es d d' →
      apply fs_of (render root) (render source) es d' = (Ok tt, d1).
Proof.
  intros Hlaw Hreg. pose proof (installing_refl es d Hreg) as Hin.
  destruct (apply_installs_from Hlaw es d Hreg es d Hin) as (d1 & Hrun & Hin1 & Hinst); [done|apply Hreg|].
  exists d1. split_and!; [done|apply Hinst| |].
  - intros p Hp. by eapply installs_only.
  - intros d' Htorn. pose proof (torn_installing Hlaw es d Hreg es d d' Htorn ltac:(done) Hin) as Hin'.
    destruct (apply_installs_from Hlaw es d Hreg es d' Hin') as (d1' & Hrun' & Hin1' & Hinst'); [done|apply Hreg|].
    rewrite Hrun'. do 2 f_equal. by eapply (installs_unique es d d' d).
Qed.
End Spec.

(** ** A disk with a workspace "/w" and a fork "/f" *)

Definition plain_fs (d : Disk) : FileSystem :=
  {| cwd := "/"; fs_realpathSync s := Some s; fs_existsSync _ := true |}.

Lemma plain_real_path d p : wf_path p → @resolveRealPath (plain_fs d) (render p) = render p.
Proof. intros Hp. unfold resolveRealPath. by rewrite resolve_path_render. Qed.
Lemma plain_law : real_path_law plain_fs.
Proof.
  intros d p rel Hwf _. apply Forall_app in Hwf as Hp. destruct Hp as [Hp _]. unfold contained.
  assert (@isPathContained (plain_fs d) (render p) (render (p ++ rel))
    = contained_strings (render p) (render (p ++ rel))) as ->.
  { unfold isPathContained. by rewrite !plain_real_path. }
  rewrite contained_prefix //. apply bool_decide_true. by exists rel.
Qed.

Lemma above_take (q p : Path) : above q p → ∃ n, (n < length p)%nat ∧ q = take n p.
Proof.
  intros [[k ->] Hne]. exists (length q). rewrite take_app_length length_app. split; [|done].
  destruct k; [by rewrite app_nil_r in Hne|simpl; lia].
Qed.
Lemma prefix_take (q p : Path) : q `prefix_of` p → ∃ n, n ≤ length p ∧ q = take n p.
Proof. intros [k ->]. exists (length q). rewrite take_app_length length_app. split; [lia|done]. Qed.

Definition sample_disk : Disk := list_to_map
  [(["w"], NDir); (["w"; "a"], NFile "old" 420); (["w"; "gone"], NFile "x" 420);
   (["f"], NDir); (["f"; "a"], NFile "new" 420); (["f"; "d"], NDir); (["f"; "d"; "b"], NFile "y" 493)].
Definition sample_writes : list WriteEntry :=
  [mkWrite ws_M "a"; mkWrite ws_A "d/b"; mkWrite ws_D "gone"].

(** [regular] of a write set of at most three segments, on a concrete disk. *)
Ltac each_entry He := repeat (apply elem_of_cons in He as [->|He]); [..|by apply not_elem_of_nil in He].
Ltac regular_tac :=
  split;
  [ repeat constructor; done
  | repeat constructor; done
  | split; intros H; by apply prefix_cons_inv_1 in H
  | intros e He; each_entry He; repeat constructor; done
  | apply (bool_decide_unpack _); vm_compute; exact I
  | intros e e' He He'; each_entry He; each_entry He';
      intros H%(bool_decide_pack _); vm_compute in H; exact H
  | intros e q He Hq%above_take; destruct Hq as (n & Hn & ->); each_entry He;
      vm_compute in Hn; destruct n as [|[|[|n]]]; try lia; intros Hne; vm_compute; auto
  | intros e He; each_entry He; vm_compute; eauto
  | intros e He q Hq%prefix_take; destruct Hq as (n & Hn & ->); each_entry He;
      vm_compute in Hn; destruct n as [|[|[|[|n]]]]; try lia; reflexivity
  | intros e He Hr; each_entry He; [vm_compute; eauto..|by destruct Hr] ].
Lemma sample_regular : regular ["w"] ["f"] sample_writes sample_disk.
Proof. regular_tac. Qed.

(** A crash while the first file is copied. *)
Definition torn_disk : Disk :=
  <[path_resolve (render ["w"]) (we_path (mkWrite ws_M "a")) := NFile "n" 384]> sample_disk.
Lemma sample_torn : torn plain_fs (render ["w"]) (render ["f"]) sample_writes sample_disk torn_disk.
Proof.
  pose proof (torn_copy plain_fs (render ["w"]) (render ["f"]) (mkWrite ws_M "a") (tail sample_writes)
    sample_disk sample_disk "n" 384) as Htorn.
  unfold torn_disk. unfold sample_writes in *. cbn [tail] in Htorn. apply Htorn;
    [vm_compute; reflexivity|discriminate|].
  assert (dirname (path_resolve (render ["w"]) (we_path (mkWrite ws_M "a"))) = ["w"]) as -> by (vm_compute; reflexivity).
  assert (sample_disk !! ["w"] = Some NDir) as E by (vm_compute; reflexivity).
  unfold mkdirSync. cbn [mkdirs app]. unfold get_state, mbind, ST_bind. by rewrite E.
Qed.

Example apply_is_a_redo_witness : ∃ d1,
  apply plain_fs "/w" "/f" sample_writes sample_disk = (Ok tt, d1) ∧
  d1 !! ["w"; "a"] = Some (NFile "new" 420) ∧ d1 !! ["w"; "gone"] = None ∧
  apply plain_fs "/w" "/f" sample_writes torn_disk = (Ok tt, d1).
Proof.
  destruct (apply_is_a_redo plain_fs ["w"] ["f"] sample_writes sample_disk plain_law sample_regular)
    as (d1 & Hrun & Hinst & _ & Hredo).
  exists d1. split; [exact Hrun|]. split; [|split].
  - exact (Hinst (mkWrite ws_M "a") ltac:(left)).
  - exact (Hinst (mkWrite ws_D "gone") ltac:(right; right; left)).
  - apply Hredo. exact sample_torn.
Defined.

(** Without the hypothesis on the paths: a directory a transaction replaces by a
    file cannot be applied, as Git lists the file first, and a file it replaces by
    a directory can be applied but not again after a crash. *)
Example file_over_directory_refused :
  let d : Disk := list_to_map [(["w"], NDir); (["w"; "a"], NDir); (["w"; "a"; "b"], NFile "x" 420);
                               (["f"], NDir); (["f"; "a"], NFile "y" 420)] in
  (apply plain_fs "/w" "/f" [mkWrite ws_A "a"; mkWrite ws_D "a/b"] d).1 = Throw (Err "ERR_FS_EISDIR").
Proof. vm_compute. reflexivity. Qed.
Example directory_over_file_not_redone :
  let d : Disk := list_to_map [(["w"], NDir); (["w"; "a"], NFile "x" 420);
                               (["f"], NDir); (["f"; "a"], NDir); (["f"; "a"; "b"], NFile "y" 420)] in
  let writes := [mkWrite ws_D "a"; mkWrite ws_A "a/b"] in
  (apply plain_fs "/w" "/f" writes d).1 = Ok tt ∧
  (apply plain_fs "/w" "/f" writes (apply plain_fs "/w" "/f" writes d).2).1 = Throw (Err "ERR_FS_EISDIR").
Proof. vm_compute. split; reflexivity. Qed.
