(* ===== verification/Rows.v ===== *)
(** * Rows: the row an event of the workspace appends

    The transactions and the causal graph journal objects without an operation:
    either the call throws and changes nothing, or one row is appended with the
    next number and the redacted payload. *)

From S2P Require Import Prelude Types Events Store StoreCalls.

Lemma simple_row now dom run type fs ts s o s' :
  recordJournalEvent now (simple_event dom run None type (JObj fs) ts) s = (o, s') →
  match o with
  | Throw _ => s' = s
  | Ok seq => ∃ row fs', s' = mkStore (with_journal row (db s)) (currentEpoch s) (inTransaction s)
      ∧ seq = je_seq row ∧ je_seq row = (db_journal_seq (db s) + 1)%Z
      ∧ je_domain_id row = dom ∧ je_type row = type ∧ je_run_id row = or_undef run ∧ je_operation_id row = None
      ∧ je_payload row = JObj fs' ∧ map_fields jsonValue fs = Ok fs'
  end.
Proof.
  unfold recordJournalEvent, recordEventAndTransitionState, verifyEpochFencing, query, gets, throw_if, exec, lift, modify.
  unfold mbind, ST_bind, mret, ST_ret, throw.
  destruct (fencing_error _ s); [by intros [= <- <-]|].
  destruct (truthy_opt _ && requiresIntent _ && _ && _ && _); [by intros [= <- <-]|].
  destruct (bool_decide _ && truthy_opt _ && _ && _); [by intros [= <- <-]|].
  destruct (createEventEnvelope now _) as [env|e] eqn:Henv; [|by intros [= <- <-]].
  intros [= <- <-]. exists (event_row (db_journal_seq (db s) + 1) (simple_event dom run None type (JObj fs) ts) env).
  unfold createEventEnvelope in Henv. simpl in Henv.
  repeat (case_match; try discriminate).
  apply bind_Ok in Henv as (p & Hp & [= <-]). unfold redactEventPayload in Hp. simpl in Hp.
  apply bind_Ok in Hp as (w & (fs' & Hfs & [= <-])%bind_Ok & [= <-]).
  exists fs'. split_and!; done.
Qed.
