(* ===== verification/Causal.v ===== *)
(** * Causal: the causal graph of a domain (src/src/workspace/causal-graph.ts)

    A node is the result of one tool call with the earlier results it used; nodes
    live in the journal and are numbered by it. From them: the evidence behind a
    result, a branch of the execution, what a changed result invalidates, and why. *)

From S2P Require Import Prelude Types Events Store WorkTree.

(** ** The data *)

(** [ObservationEntry] of workspace/transactions.ts. *)
Record ObservationEntry := mkObservation {
  ob_kind : string;
  ob_tool : string;
  ob_args : list (string * jsval);
  ob_resultHash : option string;
  ob_cutoffHash : option string;
}.

Record CausalStep := mkCausalStep {
  cs_txId : string;
  cs_actorId : string;
  cs_observation : ObservationEntry;
  cs_dependsOn : list Z;
  cs_writes : option (list WriteEntry);
}.

Record CausalNode := mkCausalNode {
  cn_step : CausalStep;
  cn_seq : Z;
  cn_runId : string;
  cn_baseSnapshotId : string;
}.
Definition cn_dependsOn (n : CausalNode) : list Z := cs_dependsOn (cn_step n).

Record RecomputationPlan := mkPlan { rp_invalidated : list CausalNode; rp_unaffected : list CausalNode }.
Record CausalInvalidationCause := mkCause { ca_changedSeq : Z; ca_path : list Z }.
Record Explanation := mkExplanation { ex_nodeSeq : Z; ex_causes : list CausalInvalidationCause }.
Record ExplainedRecomputationPlan := mkExplained { ep_plan : RecomputationPlan; ep_explanations : list Explanation }.
Record CausalView := mkView { cv_heads : list Z; cv_nodes : list CausalNode }.

(** ** JavaScript *)

Definition MAX_SAFE_INTEGER : Z := 9007199254740991.
Definition isSafeInteger (z : Z) : bool := bool_decide (Z.abs z ≤ MAX_SAFE_INTEGER)%Z.
(** [[...new Set(l)]] *)
Definition unique (l : list Z) : list Z :=
  foldl (λ s x, if bool_decide (x ∈ s) then s else s ++ [x]) [] l.
Definition is_space (a : ascii) : bool :=
  let n := nat_of_ascii a in bool_decide (n = 32) || ((9 <=? n)%nat && (n <=? 13)%nat).
(** [s.trim() === ''], for a string of ASCII characters *)
Fixpoint blank (s : string) : bool :=
  match s with EmptyString => true | String a s' => is_space a && blank s' end.
(** ** The JSON form of a node *)

Definition status_name (s : WriteStatus) : string :=
  match s with ws_A => "A" | ws_D => "D" | ws_M => "M" | ws_T => "T" end.
Definition js_write (w : WriteEntry) : jsval :=
  JObj [("status", JStr (status_name (we_status w))); ("path", JStr (we_path w))].
Definition js_observation (o : ObservationEntry) : jsval :=
  JObj [("kind", JStr (ob_kind o));
        ("call", JObj [("tool", JStr (ob_tool o)); ("args", JObj (ob_args o))]);
        ("resultHash", jopt JStr (ob_resultHash o)); ("cutoffHash", jopt JStr (ob_cutoffHash o))].
Definition js_node (s : CausalStep) (runId baseSnapshotId : string) : jsval :=
  JObj [("txId", JStr (cs_txId s)); ("actorId", JStr (cs_actorId s));
        ("observation", js_observation (cs_observation s));
        ("dependsOn", JArr (map JZ (cs_dependsOn s)));
        ("writes", jopt (λ ws, JArr (map js_write ws)) (cs_writes s));
        ("runId", JStr runId); ("baseSnapshotId", JStr baseSnapshotId)].

(** Reading it back; [None] for a value this code does not write. *)
Definition as_string (v : jsval) : option string := match v with JStr s => Some s | _ => None end.
Definition as_int (v : jsval) : option Z := match v with JNum (NumFin z) => Some z | _ => None end.
Definition as_array (v : jsval) : option (list jsval) := match v with JArr l => Some l | _ => None end.
Definition as_record (v : jsval) : option (list (string * jsval)) := match v with JObj fs => Some fs | _ => None end.
Definition optional {A} (f : jsval → option A) (o : option jsval) : option (option A) :=
  match o with None => Some None | Some v => Some <$> f v end.
Definition status_of (s : string) : option WriteStatus :=
  List.find (λ w, bool_decide (status_name w = s)) [ws_A; ws_D; ws_M; ws_T].
Definition write_of (v : jsval) : option WriteEntry :=
  st ← (jfield v "status" ≫= as_string) ≫= status_of;
  p ← jfield v "path" ≫= as_string;
  Some (mkWrite st p).
Definition observation_of (v : jsval) : option ObservationEntry :=
  kind ← jfield v "kind" ≫= as_string;
  call ← jfield v "call";
  tool ← jfield call "tool" ≫= as_string;
  args ← jfield call "args" ≫= as_record;
  resultHash ← optional as_string (jfield v "resultHash");
  cutoffHash ← optional as_string (jfield v "cutoffHash");
  Some (mkObservation kind tool args resultHash cutoffHash).
Definition node_of (v : jsval) (seq : Z) : option CausalNode :=
  txId ← jfield v "txId" ≫= as_string;
  actorId ← jfield v "actorId" ≫= as_string;
  observation ← jfield v "observation" ≫= observation_of;
  deps ← jfield v "dependsOn" ≫= as_array;
  dependsOn ← mapM as_int deps;
  writes ← optional (λ v, l ← as_array v; mapM write_of l) (jfield v "writes");
  runId ← jfield v "runId" ≫= as_string;
  base ← jfield v "baseSnapshotId" ≫= as_string;
  Some (mkCausalNode (mkCausalStep txId actorId observation dependsOn writes) seq runId base).

(** ** Reading the journal *)

(** [getJournalEvents(domainId, 0, toSeq, types)] *)
Definition journal_of_types (domainId : string) (toSeq : Z) (types : list string) (d : Db) : list JournalRow :=
  List.filter (λ r, bool_decide (je_seq r ≤ toSeq)%Z && js_has types (je_type r)) (select_journal domainId 0 d).

Definition read_node (e : JournalRow) : outcome error CausalNode :=
  if negb (bool_decide (jfield (je_payload e) "version" ≫= as_int = Some 1%Z))
  then Throw (Err "Unsupported causal journal version")
  else match jfield (je_payload e) "node" ≫= λ v, node_of v (je_seq e) with
       | Some n => Ok n | None => Throw (TypeErr "not a causal node") end.

Definition TX_TYPES : list string :=
  ["TX_BEGUN"; "TX_COMMITTING"; "TX_COMMITTED"; "TX_CONFLICTED"; "TX_ABORTED"].

Section Graph.
Context (domainId : string).

Definition nodes (atSeq : Z) : SM (list CausalNode) :=
  throw_if (negb (isSafeInteger atSeq) || bool_decide (atSeq < 0)%Z) (Err "Invalid causal history sequence");;
  rows ← query (journal_of_types domainId atSeq ["CAUSAL_STEP"]);
  lift (map_outcome read_node rows).

Definition record (now : Z) (step : CausalStep) : SM CausalNode :=
  let o := cs_observation step in
  throw_if (blank (cs_actorId step) || default true (blank <$> ob_resultHash o))
    (Err "Causal steps require an actor and a nonempty result hash");;
  throw_if (negb (js_has ["observe"; "mutate"] (ob_kind o))) (Err "Invalid causal observation kind");;
  throw_if (bool_decide (ob_kind o = "observe") && bool_decide (0 < length (default [] (cs_writes step)))%nat)
    (Err "An observation cannot declare writes");;
  events ← query (journal_of_types domainId MAX_SAFE_INTEGER TX_TYPES);
  let history := List.filter (λ e, bool_decide (jfield (je_payload e) "txId" ≫= as_string = Some (cs_txId step))) events in
  let begun := List.find (λ e, bool_decide (je_type e = "TX_BEGUN")) history in
  let isGatewaySession := startsWith (cs_txId step) "gateway:" && bool_decide (history = []) in
  throw_if (negb isGatewaySession
      && (is_undef begun || existsb (λ e, js_has (tail TX_TYPES) (je_type e)) history))
    (Err "Causal steps require an open workspace transaction");;
  known ← nodes MAX_SAFE_INTEGER;
  throw_if (existsb (λ seq, negb (isSafeInteger seq) || negb (bool_decide (seq ∈ map cn_seq known)))
      (cs_dependsOn step))
    (Err "Causal dependencies must reference existing nodes in this domain");;
  let runId := nullish (begun ≫= je_run_id)
    (if isGatewaySession then slice_from 8 (cs_txId step) else cs_txId step) in
  let baseSnapshotId :=
    nullish (begun ≫= λ e, jfield (je_payload e) "baseSnapshotId" ≫= as_string) "gateway" in
  let node := mkCausalStep (cs_txId step) (cs_actorId step) o (unique (cs_dependsOn step)) (cs_writes step) in
  seq ← recordJournalEvent now (simple_event domainId (Some runId) None "CAUSAL_STEP"
    (JObj [("version", JZ 1); ("node", js_node node runId baseSnapshotId)]) (Iso now));
  mret (mkCausalNode node seq runId baseSnapshotId).

(** ** Selections *)

(** The loop over the nodes from the last to the first. *)
Definition add_dependencies (needed : gset Z) (n : CausalNode) : gset Z :=
  if bool_decide (cn_seq n ∈ needed) then needed ∪ list_to_set (cn_dependsOn n) else needed.
Definition closure (ns : list CausalNode) (needed : gset Z) : gset Z := foldl add_dependencies needed (rev ns).
Definition select (s : gset Z) (ns : list CausalNode) : list CausalNode :=
  List.filter (λ n, bool_decide (cn_seq n ∈ s)) ns.

Definition ancestors (seq : Z) : SM (list CausalNode) :=
  ns ← nodes seq;
  match List.find (λ n, bool_decide (cn_seq n = seq)) ns with
  | None => throw (Err "Unknown causal node")
  | Some target => mret (select (closure ns (list_to_set (cn_dependsOn target))) ns)
  end.

Definition view (heads : list Z) (atSeq : Z) : SM CausalView :=
  throw_if (negb (isSafeInteger atSeq) || bool_decide (atSeq < 0)%Z) (Err "Invalid causal history sequence");;
  throw_if (existsb (λ seq, negb (isSafeInteger seq) || bool_decide (seq < 1)%Z || bool_decide (atSeq < seq)%Z) heads)
    (Err "Causal view heads are absent from this causal history");;
  ns ← nodes (foldl Z.max 0%Z heads);
  throw_if (existsb (λ seq, negb (isSafeInteger seq) || negb (bool_decide (seq ∈ map cn_seq ns))) heads)
    (Err "Causal view heads are absent from this causal history");;
  mret (mkView (unique heads) (select (closure ns (list_to_set heads)) ns)).

(** ** Invalidation *)

Definition plan_step (changed_ : gset Z * RecomputationPlan) (n : CausalNode) : gset Z * RecomputationPlan :=
  let '(invalid, p) := changed_ in
  let invalid := if existsb (λ seq, bool_decide (seq ∈ invalid)) (cn_dependsOn n)
                 then {[cn_seq n]} ∪ invalid else invalid in
  (invalid, if bool_decide (cn_seq n ∈ invalid)
            then mkPlan (rp_invalidated p ++ [n]) (rp_unaffected p)
            else mkPlan (rp_invalidated p) (rp_unaffected p ++ [n])).

Definition planRecomputation (changed : list Z) (atSeq : Z) (heads : option (list Z)) : SM RecomputationPlan :=
  ns ← match heads with None => nodes atSeq | Some hs => v ← view hs atSeq; mret (cv_nodes v) end;
  throw_if (existsb (λ seq, negb (bool_decide (seq ∈ map cn_seq ns))) changed)
    (Err "Changed evidence is absent from this causal history");;
  mret (foldl plan_step (list_to_set changed, mkPlan [] []) ns).2.

(** ** Explanations *)

Definition add_child (child : Z) (m : gmap Z (list Z)) (dependency : Z) : gmap Z (list Z) :=
  <[dependency := default [] (m !! dependency) ++ [child]]> m.
Definition children_of (ns : list CausalNode) : gmap Z (list Z) :=
  foldl (λ m n, foldl (add_child (cn_seq n)) m (cn_dependsOn n)) ∅ ns.

(** [while (cursor !== null)]; [None] when it does not end in [fuel] rounds. *)
Fixpoint climb (fuel : nat) (parents : gmap Z (option Z)) (cursor : option Z) (path : list Z) : option (list Z) :=
  match cursor, fuel with
  | None, _ => Some path
  | Some c, O => None
  | Some c, S fuel' => up ← parents !! c; climb fuel' parents up (path ++ [c])
  end.

(** The children of [seq] not met before are queued. *)
Definition meet (seq : Z) (s : gmap Z (option Z) * list Z) (child : Z) : gmap Z (option Z) * list Z :=
  let '(parents, queue) := s in
  if bool_decide (is_Some (parents !! child)) then s
  else (<[child := Some seq]> parents, queue ++ [child]).

(** [bySeq.get(seq)!.causes.push(cause)] *)
Fixpoint push_cause (seq : Z) (c : CausalInvalidationCause) (l : list Explanation) : option (list Explanation) :=
  match l with
  | [] => None
  | e :: l' =>
      if bool_decide (ex_nodeSeq e = seq) then Some (mkExplanation seq (ex_causes e ++ [c]) :: l')
      else cons e <$> push_cause seq c l'
  end.

(** [for (let index = 0; index < queue.length; index++)]: [queue] is what is left
    of the queue; [None] when the loop does not end in [fuel] rounds. *)
Fixpoint search (fuel : nat) (children : gmap Z (list Z)) (changedSeq : Z)
    (parents : gmap Z (option Z)) (queue : list Z) (ex : list Explanation) : option (list Explanation) :=
  match queue, fuel with
  | [], _ => Some ex
  | _ :: _, O => None
  | seq :: queue', S fuel' =>
      path ← climb (S (size parents)) parents (Some seq) [];
      ex' ← push_cause seq (mkCause changedSeq (rev path)) ex;
      let '(parents', queue'') := foldl (meet seq) (parents, queue') (default [] (children !! seq)) in
      search fuel' children changedSeq parents' queue'' ex'
  end.

(** [[...new Set(changed)].sort((a, b) => a - b)] *)
Definition seeds (changed : list Z) : list Z := merge_sort Z.le (unique changed).

Definition explain (plan : RecomputationPlan) (changed : list Z) : option (list Explanation) :=
  let children := children_of (rp_invalidated plan) in
  foldl (λ ex seed, ex ← ex;
      search (S (length (rp_invalidated plan))) children seed {[seed := None]} [seed] ex)
    (Some (map (λ n, mkExplanation (cn_seq n) []) (rp_invalidated plan))) (seeds changed).

Definition explainRecomputation (changed : list Z) (atSeq : Z) (heads : option (list Z))
  : SM (option ExplainedRecomputationPlan) :=
  plan ← planRecomputation changed atSeq heads;
  mret (mkExplained plan <$> explain plan changed).

(** ** The adapter to observation replay *)

Definition observationLog (txId : string) (atSeq : Z) : SM (list ObservationEntry) :=
  ns ← nodes atSeq;
  mret (map (λ n, cs_observation (cn_step n)) (List.filter (λ n, bool_decide (cs_txId (cn_step n) = txId)) ns)).
End Graph.
