(* ===== verification/CausalSpec.v ===== *)
(** * CausalSpec: what is selected, invalidated and explained

    The loops of the causal graph against reachability along the declared
    dependencies: one pass from the last node to the first is the transitive
    closure downwards, one pass from the first to the last the closure upwards,
    and the queue finds shortest paths: every node met has a parent among the nodes
    visited and a depth one more than its parent's, depths grow along the queue, and the
    depth of a visited node is the length of a shortest path. All of it rests on the
    order of the journal: a node comes after the nodes it depends on. *)

From S2P Require Import Prelude Types Events Store WorkTree Causal.

(** ** The graph *)

Definition edge (ns : list CausalNode) (a b : Z) : Prop := ∃ n, n ∈ ns ∧ cn_seq n = b ∧ a ∈ cn_dependsOn n.
Notation reaches ns := (rtc (edge ns)).
Notation seqs ns := (map cn_seq ns).

Record topological (ns : list CausalNode) : Prop := {
  top_sorted : StronglySorted Z.lt (seqs ns);
  top_deps n a : n ∈ ns → a ∈ cn_dependsOn n → a ∈ seqs ns ∧ (a < cn_seq n)%Z;
}.
(** A part of a graph that has the dependencies of its nodes. *)
Record part_of (ns' ns : list CausalNode) : Prop := {
  part_sub : ns' `sublist_of` ns;
  part_closed n a : n ∈ ns' → a ∈ cn_dependsOn n → a ∈ seqs ns';
}.

Lemma elem_of_unique l x : x ∈ unique l ↔ x ∈ l.
Proof.
  unfold unique. assert (∀ s, x ∈ foldl (λ s x, if bool_decide (x ∈ s) then s else s ++ [x]) s l ↔ x ∈ s ∨ x ∈ l) as H.
  { induction l as [|y l IH]; intros s; simpl; [set_solver|]. rewrite IH. case_bool_decide; set_solver. }
  rewrite H. set_solver.
Qed.
Lemma NoDup_unique l : NoDup (unique l).
Proof.
  unfold unique. assert (∀ s, NoDup s → NoDup (foldl (λ s x, if bool_decide (x ∈ s) then s else s ++ [x]) s l)) as H.
  { induction l as [|y l IH]; intros s Hs; simpl; [done|]. apply IH. case_bool_decide; [done|by apply NoDup_snoc]. }
  apply H. constructor.
Qed.

Lemma elem_of_map {A B} (f : A → B) (l : list A) y : y ∈ map f l ↔ ∃ x, y = f x ∧ x ∈ l.
Proof. change (map f l) with (f <$> l). apply list_elem_of_fmap. Qed.
Lemma elem_of_seqs ns s : s ∈ seqs ns ↔ ∃ n, n ∈ ns ∧ cn_seq n = s.
Proof. rewrite elem_of_map. split; intros (n & H1 & H2); exists n; by split. Qed.
Lemma elem_of_filter {A} (f : A → bool) l x : x ∈ List.filter f l ↔ x ∈ l ∧ f x = true.
Proof. by rewrite !list_elem_of_In filter_In. Qed.

Lemma sorted_sub {A} (R : relation A) l l' : sublist l' l → StronglySorted R l → StronglySorted R l'.
Proof.
  induction 1 as [|x l1 l2 Hs IH|x l1 l2 _ IH]; intros Hl; [done| |];
    apply StronglySorted_inv in Hl as [Hl Hx]; [|by apply IH].
  constructor; [by apply IH|]. rewrite !Forall_forall in Hx |- *. intros y Hy.
  apply Hx. by eapply sublist_subseteq.
Qed.
Lemma sorted_lt_NoDup (l : list Z) : StronglySorted Z.lt l → NoDup l.
Proof.
  induction 1 as [|x l _ IH Hx]; constructor; [|done]. intros Hin.
  rewrite Forall_forall in Hx. specialize (Hx x Hin). lia.
Qed.
Lemma filter_sublist {A} (f : A → bool) l : List.filter f l `sublist_of` l.
Proof. induction l as [|x l IH]; simpl; [constructor|]. destruct (f x); by constructor. Qed.
Lemma map_sublist {A B} (f : A → B) l l' : l' `sublist_of` l → map f l' `sublist_of` map f l.
Proof. induction 1; simpl; by constructor. Qed.

Section Graph.
Context (ns : list CausalNode) (Htop : topological ns).
Implicit Types (a b c : Z) (n : CausalNode).

Lemma seq_injective n n' : n ∈ ns → n' ∈ ns → cn_seq n = cn_seq n' → n = n'.
Proof using Htop.
  intros Hn Hn' E. destruct Htop as [Hs _]. clear Htop. induction ns as [|m l IH]; [set_solver|].
  simpl in Hs. apply StronglySorted_inv in Hs as [Hs Hm]. rewrite Forall_forall in Hm.
  assert (∀ k, k ∈ l → (cn_seq m < cn_seq k)%Z) as Hlt.
  { intros k Hk. apply Hm, elem_of_seqs. eauto. }
  apply elem_of_cons in Hn as [->|Hn], Hn' as [->|Hn']; [done| | |by apply IH];
    [apply Hlt in Hn'|apply Hlt in Hn]; lia.
Qed.
Lemma edge_lt a b : edge ns a b → (a < b)%Z ∧ a ∈ seqs ns ∧ b ∈ seqs ns.
Proof using Htop.
  intros (n & Hn & <- & Ha). destruct (top_deps ns Htop n a Hn Ha) as [H1 H2].
  split_and!; [done..|]. apply elem_of_seqs. eauto.
Qed.
Lemma reaches_le a b : reaches ns a b → (a ≤ b)%Z.
Proof using Htop. induction 1 as [|x y z H _ IH]; [lia|]. apply edge_lt in H. lia. Qed.
Lemma reaches_known a b : reaches ns a b → b ∈ seqs ns → a ∈ seqs ns.
Proof using Htop. intros H. inversion H as [|? y ? H1 _]; subst; [done|]. intros _. by destruct (edge_lt _ _ H1) as (_ & ? & _). Qed.

(** *** Parts *)

Lemma part_topological ns' : part_of ns' ns → topological ns'.
Proof using Htop.
  intros [Hsub Hcl]. split.
  - eapply sorted_sub; [by apply map_sublist|apply Htop].
  - intros n a Hn Ha. split; [by eapply Hcl|]. apply (top_deps ns Htop n a); [|done].
    by eapply sublist_subseteq.
Qed.
Lemma part_reaches ns' a b : part_of ns' ns → b ∈ seqs ns' → reaches ns' a b ↔ reaches ns a b.
Proof using Htop.
  intros [Hsub Hcl] Hb. split.
  - clear Hb. induction 1 as [|x y z (n & Hn & E & Hx) _ IH]; [done|]. eapply rtc_l; [|exact IH].
    exists n. split; [by eapply sublist_subseteq|done].
  - intros Hr. revert Hb. revert b Hr. refine (rtc_ind_r _ a _ _); [done|].
    intros y b _ (n & Hn & <- & Hy) IH Hb.
    apply elem_of_seqs in Hb as (m & Hm & E).
    assert (m = n) as -> by (apply seq_injective; [by eapply sublist_subseteq|done..]).
    eapply rtc_r; [apply IH; by eapply Hcl|]. exists n. by split_and!.
Qed.
Lemma prefix_part c : part_of (List.filter (λ n, bool_decide (cn_seq n ≤ c)%Z) ns) ns.
Proof using Htop.
  split; [apply filter_sublist|]. intros n a [Hn Hc]%elem_of_filter Ha. apply bool_decide_eq_true in Hc.
  destruct (top_deps ns Htop n a Hn Ha) as [(m & Hm & <-)%elem_of_seqs Hlt].
  apply elem_of_seqs. exists m. split; [|done]. apply elem_of_filter. split; [done|]. apply bool_decide_eq_true. lia.
Qed.
End Graph.

(** ** One pass downwards *)

Lemma closure_cons n ns s : closure (n :: ns) s = add_dependencies (closure ns s) n.
Proof. unfold closure. simpl. by rewrite foldl_app. Qed.

Lemma elem_of_closure ns s a :
  StronglySorted Z.lt (seqs ns) → (∀ n d, n ∈ ns → d ∈ cn_dependsOn n → (d < cn_seq n)%Z) →
  a ∈ closure ns s ↔ ∃ h, h ∈ s ∧ reaches ns a h.
Proof.
  revert a. induction ns as [|n ns IH]; intros a Hs Hd.
  { unfold closure. simpl. split.
    - intros Ha. by exists a.
    - intros (h & Hh & Hr). inversion Hr as [|? ? ? (m & Hm & _)]; subst; [done|set_solver]. }
  simpl in Hs. apply StronglySorted_inv in Hs as [Hs Hn]. rewrite Forall_forall in Hn.
  assert (∀ b, b ∈ closure ns s ↔ ∃ h, h ∈ s ∧ reaches ns b h) as IH'.
  { intros b. apply IH; [done|set_solver]. } clear IH.
  assert (∀ x y, edge ns x y → edge (n :: ns) x y) as Hmono.
  { intros x y (m & Hm & H). exists m. split; [by right|done]. }
  assert (∀ b h, reaches (n :: ns) b h →
    reaches ns b h ∨ (b ∈ cn_dependsOn n ∧ reaches ns (cn_seq n) h)) as Hsplit.
  { intros b h. induction 1 as [h|b y h (m & Hm & <- & Hb) Hr IH]; [by left|].
    apply elem_of_cons in Hm as [->|Hm].
    - right. split; [done|]. destruct IH as [IH|[Hself _]]; [done|].
      exfalso. specialize (Hd n (cn_seq n) ltac:(left) Hself). lia.
    - left. destruct IH as [IH|[Hin _]]; [eapply rtc_l; [|exact IH]; by exists m|].
      exfalso. specialize (Hd n (cn_seq m) ltac:(left) Hin).
      specialize (Hn (cn_seq m) ltac:(apply elem_of_seqs; eauto)). lia. }
  rewrite closure_cons. unfold add_dependencies. case_bool_decide as Hin.
  - rewrite elem_of_union elem_of_list_to_set IH'. split.
    + intros [(h & Hh & Hr)|Ha].
      * exists h. split; [done|]. by eapply rtc_subrel.
      * apply IH' in Hin as (h & Hh & Hr). exists h. split; [done|].
        eapply rtc_l; [exists n; split_and!; [left|done..]|by eapply rtc_subrel].
    + intros (h & Hh & [Hr|[Ha _]]%Hsplit); [left; eauto|by right].
  - rewrite IH'. split.
    + intros (h & Hh & Hr). exists h. split; [done|]. by eapply rtc_subrel.
    + intros (h & Hh & [Hr|[_ Hr]]%Hsplit); [eauto|]. exfalso. apply Hin, IH'. eauto.
Qed.

Lemma select_spec ns s n : n ∈ select s ns ↔ n ∈ ns ∧ cn_seq n ∈ s.
Proof. unfold select. by rewrite elem_of_filter bool_decide_eq_true. Qed.

Lemma elem_of_topological_closure ns s a : topological ns →
  a ∈ closure ns s ↔ ∃ h, h ∈ s ∧ reaches ns a h.
Proof. intros Htop. apply elem_of_closure; [apply Htop|]. intros n d Hn Hd. by apply (top_deps ns Htop). Qed.

Lemma select_part ns s : topological ns → part_of (select (closure ns s) ns) ns.
Proof.
  intros Htop. split; [apply filter_sublist|]. intros n a [Hn Hin]%select_spec Ha.
  destruct (top_deps ns Htop n a Hn Ha) as [(m & Hm & <-)%elem_of_seqs _].
  apply elem_of_seqs. exists m. split; [|done]. apply select_spec. split; [done|].
  rewrite !elem_of_topological_closure // in Hin |- *. destruct Hin as (h & Hh & Hr).
  exists h. split; [done|]. eapply rtc_l; [|exact Hr]. by exists n.
Qed.

(** ** One pass upwards *)

Definition plan_of (f : CausalNode → bool) (ns : list CausalNode) : RecomputationPlan :=
  mkPlan (List.filter f ns) (List.filter (λ n, negb (f n)) ns).

Section Plan.
Context (ns : list CausalNode) (Htop : topological ns) (changed : list Z).

Definition affected (s : Z) : Prop := ∃ c, c ∈ changed ∧ reaches ns c s.
Definition pass (done_ : list CausalNode) : gset Z * RecomputationPlan :=
  foldl plan_step (list_to_set changed, mkPlan [] []) done_.

Lemma pass_snoc l n : pass (l ++ [n]) = plan_step (pass l) n.
Proof. unfold pass. by rewrite foldl_app. Qed.

Lemma pass_spec l rest : ns = l ++ rest →
  (∀ s, s ∈ (pass l).1 ↔ s ∈ changed ∨ (s ∈ seqs l ∧ affected s)) ∧
  (pass l).2 = plan_of (λ n, bool_decide (cn_seq n ∈ (pass ns).1)) l ∧
  (∀ s, s ∈ (pass l).1 → s ∈ (pass ns).1).
Proof using Htop.
  intros Hns. assert (∀ l rest, ns = l ++ rest →
    ∀ s, s ∈ (pass l).1 ↔ s ∈ changed ∨ (s ∈ seqs l ∧ affected s)) as Hset.
  { clear l rest Hns. intros l. induction l as [|n l IH] using rev_ind; intros rest Hns s.
    { unfold pass. simpl. rewrite elem_of_list_to_set. set_solver. }
    rewrite -assoc in Hns. specialize (IH _ Hns). rewrite pass_snoc.
    destruct (pass l) as [inv p]. cbn [plan_step fst] in IH |- *.
    assert (n ∈ ns) as Hn by (rewrite Hns; set_solver).
    assert (∀ d, d ∈ cn_dependsOn n → d ∈ seqs l) as Hdeps.
    { intros d Hd. destruct (top_deps ns Htop n d Hn Hd) as [Hd1 Hd2]. rewrite Hns !map_app in Hd1.
      apply elem_of_app in Hd1 as [?|Hd1]; [done|exfalso].
      pose proof (top_sorted ns Htop) as Hs. rewrite Hns map_app in Hs.
      assert (StronglySorted Z.lt (seqs (n :: rest))) as Hs'.
      { eapply sorted_sub; [|exact Hs]. apply sublist_inserts_l. done. }
      simpl in Hs'. apply StronglySorted_inv in Hs' as [_ Hs']. rewrite Forall_forall in Hs'.
      simpl in Hd1. apply elem_of_cons in Hd1 as [->|Hd1]; [lia|]. specialize (Hs' d Hd1). lia. }
    assert (affected (cn_seq n) ↔ cn_seq n ∈ changed ∨ Exists (λ d, d ∈ inv) (cn_dependsOn n)) as Haff.
    { rewrite Exists_exists. split.
      - intros (c & Hc & Hr). apply rtc_inv_r in Hr as [->|(y & Hr & (m & Hm & E & Hy))]; [by left|right].
        assert (m = n) as -> by (by apply (seq_injective ns Htop)).
        exists y. split; [done|]. apply IH. right. split; [by apply Hdeps|]. by exists c.
      - intros [Hc|(d & Hd & Hin)]; [by exists (cn_seq n)|].
        assert (affected d) as (c & Hc & Hr).
        { apply IH in Hin as [Hc|[_ Ha]]; [by exists d|done]. }
        exists c. split; [done|]. eapply rtc_r; [exact Hr|]. by exists n. }
    rewrite map_app. simpl.
    destruct (existsb _ _) eqn:He.
    - assert (affected (cn_seq n)) as Ha.
      { apply Haff. right. apply existsb_In in He as (d & Hd & Hin%bool_decide_eq_true).
        apply Exists_exists. eauto. }
      rewrite elem_of_union elem_of_singleton IH. set_solver.
    - rewrite IH. split; [set_solver|]. intros [?|[Hin Ha]]; [by left|].
      apply elem_of_app in Hin as [?|Hin]; [by right|]. apply list_elem_of_singleton in Hin as ->.
      apply Haff in Ha as [?|Hex]; [by left|]. exfalso. apply not_true_iff_false in He. apply He, existsb_In.
      apply Exists_exists in Hex as (d & Hd & Hin). exists d. split; [done|]. by apply bool_decide_eq_true. }
  assert (∀ l rest, ns = l ++ rest → ∀ s, s ∈ (pass l).1 → s ∈ (pass ns).1) as Hmono.
  { intros l' rest' H s. rewrite (Hset l' rest' H) (Hset ns [] ltac:(by rewrite app_nil_r)).
    intros [?|[Hs ?]]; [by left|right]. split; [|done]. rewrite H map_app. apply elem_of_app. by left. }
  split_and!; [by eapply Hset| |by eapply Hmono].
  revert rest Hns. induction l as [|n l IH] using rev_ind; intros rest Hns; [done|].
  pose proof (Hset _ _ Hns) as Hl'. pose proof (Hmono _ _ Hns) as Hm'.
  rewrite -assoc in Hns. specialize (IH _ Hns). rewrite pass_snoc in Hl' Hm' |- *.
  set (F := λ n, bool_decide (cn_seq n ∈ (pass ns).1)) in IH |- *.
  destruct (pass l) as [inv p]. cbn [plan_step fst snd] in IH, Hl', Hm' |- *. subst p.
  unfold plan_of. rewrite !List.filter_app. simpl.
  set (inv' := if existsb _ _ then _ else _) in Hl', Hm' |- *.
  assert (bool_decide (cn_seq n ∈ inv') = F n) as ->.
  { apply bool_decide_ext. split; [apply Hm'|]. intros Hin. apply Hl'.
    apply (Hset ns [] ltac:(by rewrite app_nil_r)) in Hin as [?|[_ ?]]; [by left|right].
    split; [|done]. rewrite map_app. apply elem_of_app. right. by left. }
  destruct (F n); simpl; by rewrite app_nil_r.
Qed.

Lemma plan_exact : (∀ c, c ∈ changed → c ∈ seqs ns) → ∃ f,
  (pass ns).2 = plan_of f ns ∧ ∀ n, n ∈ ns → f n = true ↔ affected (cn_seq n).
Proof using Htop.
  intros Hc. destruct (pass_spec ns [] ltac:(by rewrite app_nil_r)) as (Hset & Hp & _).
  eexists. split; [exact Hp|]. intros n Hn. rewrite bool_decide_eq_true Hset. split.
  - intros [Hin|[_ Ha]]; [by exists (cn_seq n)|done].
  - intros Ha. right. split; [|done]. apply elem_of_seqs. eauto.
Qed.
End Plan.

(** * The queue of [explainRecomputation] finds shortest paths *)

(** A part of a graph whose nodes may depend on nodes outside of it. *)
Record ascending (ns : list CausalNode) : Prop := {
  asc_sorted : StronglySorted Z.lt (seqs ns);
  asc_deps n a : n ∈ ns → a ∈ cn_dependsOn n → (a < cn_seq n)%Z;
}.
Lemma ascending_edge ns a b : ascending ns → edge ns a b → (a < b)%Z ∧ b ∈ seqs ns.
Proof.
  intros [_ Hd] (n & Hn & <- & Ha). split; [by eapply Hd|]. apply elem_of_seqs. eauto.
Qed.
Lemma filter_ascending f ns : topological ns → ascending (List.filter f ns).
Proof.
  intros [Hs Hd]. split.
  - eapply sorted_sub; [apply map_sublist, filter_sublist|done].
  - intros n a [Hn _]%elem_of_filter Ha. by apply Hd.
Qed.

(** ** Paths *)

(** [path] goes from [a] to [b] along declared dependencies, both included. *)
Inductive path_to (ns : list CausalNode) (a : Z) : Z → list Z → Prop :=
| path_here : path_to ns a a [a]
| path_step b c p : path_to ns a b p → edge ns b c → path_to ns a c (p ++ [c]).

Definition shortest (ns : list CausalNode) (a b : Z) (p : list Z) : Prop :=
  path_to ns a b p ∧ ∀ q, path_to ns a b q → length p ≤ length q.

Lemma path_reaches ns a b p : path_to ns a b p → reaches ns a b.
Proof. induction 1 as [|b c p _ IH He]; [done|]. by eapply rtc_r. Qed.
Lemma reaches_path ns a b : reaches ns a b → ∃ p, path_to ns a b p.
Proof.
  revert b. refine (rtc_ind_r _ a _ _); [exists [a]; constructor|].
  intros y b _ He (p & Hp). exists (p ++ [b]). by econstructor.
Qed.

(** ** The children *)

Lemma add_children_spec child deps : ∀ m d c,
  c ∈ default [] (foldl (add_child child) m deps !! d) ↔ c ∈ default [] (m !! d) ∨ (c = child ∧ d ∈ deps).
Proof.
  induction deps as [|e deps IH]; intros m d c; simpl; [set_solver|].
  rewrite IH. unfold add_child. destruct (decide (e = d)) as [->|Hne].
  - rewrite lookup_insert_eq /=. rewrite elem_of_app. set_solver.
  - rewrite lookup_insert_ne //. set_solver.
Qed.
Lemma children_spec ns d c : c ∈ default [] (children_of ns !! d) ↔ edge ns d c.
Proof.
  assert (∀ m, c ∈ default [] (foldl (λ m n, foldl (add_child (cn_seq n)) m (cn_dependsOn n)) m ns !! d)
    ↔ c ∈ default [] (m !! d) ∨ edge ns d c) as H.
  { induction ns as [|n ns IH]; intros m; simpl.
    - split; [by left|]. intros [?|(n & Hn & _)]; [done|set_solver].
    - rewrite IH add_children_spec. split.
      + intros [[?|[-> ?]]|(m' & ? & ?)]; [by left|right; exists n; split_and!; [left|done..]|].
        right. exists m'. split; [by right|done].
      + intros [?|(m' & [->|Hm]%elem_of_cons & <- & ?)]; [by do 2 left|by left; right|].
        right. by exists m'. }
  unfold children_of. rewrite H lookup_empty /=. set_solver.
Qed.

(** ** Meeting the children of a node *)

Lemma meet_all seq cs : ∀ (P : gmap Z (option Z)) Q P' Q', foldl (meet seq) (P, Q) cs = (P', Q') →
  ∃ news, Q' = Q ++ news ∧ NoDup news ∧
    (∀ c, c ∈ news → c ∈ cs ∧ P !! c = None) ∧
    (∀ c, c ∈ cs → is_Some (P' !! c)) ∧
    (∀ c, P' !! c = if decide (c ∈ news) then Some (Some seq) else P !! c).
Proof.
  induction cs as [|c cs IH]; intros P Q P' Q' H; simpl in H.
  { injection H as <- <-. exists []. split_and!; [by rewrite app_nil_r|constructor|set_solver|set_solver|].
    intros c. case_decide; [set_solver|done]. }
  case_bool_decide as Hc.
  - destruct (IH _ _ _ _ H) as (news & -> & Hnd & Hnew & Hall & HP). exists news. split_and!; [done..| | |done].
    + intros x Hx. destruct (Hnew x Hx). split; [by right|done].
    + intros x [->|Hx]%elem_of_cons; [|by apply Hall]. rewrite HP. by case_decide.
  - destruct (IH _ _ _ _ H) as (news & -> & Hnd & Hnew & Hall & HP).
    assert (c ∉ news) as Hfresh.
    { intros Hin. apply Hnew in Hin as [_ Hn]. by rewrite lookup_insert_eq in Hn. }
    exists (c :: news). split_and!.
    + by rewrite -assoc.
    + by constructor.
    + intros x [->|Hx]%elem_of_cons; [split; [left|by apply eq_None_not_Some]|].
      destruct (Hnew x Hx) as [H1 H2]. split; [by right|].
      destruct (decide (c = x)) as [->|]; [done|]. by rewrite lookup_insert_ne in H2.
    + intros x [->|Hx]%elem_of_cons; [|by apply Hall]. rewrite HP.
      case_decide; [done|]. rewrite lookup_insert_eq. by eexists.
    + intros x. rewrite HP. destruct (decide (x = c)) as [->|Hne].
      * rewrite decide_False // decide_True; [|left]. by rewrite lookup_insert_eq.
      * rewrite lookup_insert_ne; [|done]. destruct (decide (x ∈ news)) as [Hx|Hx].
        -- rewrite decide_True //. by right.
        -- rewrite decide_False //. by intros [?|?]%elem_of_cons.
Qed.

(** ** Pushing a cause *)

Lemma push_cause_spec x c l : x ∈ map ex_nodeSeq l → NoDup (map ex_nodeSeq l) →
  ∃ l', push_cause x c l = Some l' ∧ map ex_nodeSeq l' = map ex_nodeSeq l ∧
    Forall2 (λ e e', ex_causes e' = if decide (ex_nodeSeq e = x) then ex_causes e ++ [c] else ex_causes e) l l'.
Proof.
  induction l as [|e l IH]; [set_solver|]. intros Hx [Hne Hnd]%NoDup_cons. cbn [push_cause].
  case_bool_decide as E.
  - eexists. split_and!; [done|by rewrite /= E|]. constructor; [by rewrite decide_True|].
    apply Forall_Forall2_diag, Forall_forall. intros e' He'. rewrite decide_False //. intros E'.
    apply Hne. rewrite E -E'. apply elem_of_map. by exists e'.
  - destruct IH as (l' & -> & Hm & HF); [set_solver|done|]. eexists. split_and!; [done|by rewrite /= Hm|].
    constructor; [by rewrite decide_False|done].
Qed.

(** ** The invariant *)

Lemma sorted_app_le (R : relation Z) l1 l2 a b :
  StronglySorted R (l1 ++ l2) → a ∈ l1 → b ∈ l2 → R a b.
Proof.
  induction l1 as [|x l1 IH]; [set_solver|]. simpl. intros [Hs Hx]%StronglySorted_inv Ha Hb.
  rewrite Forall_forall in Hx. apply elem_of_cons in Ha as [->|Ha]; [apply Hx|by apply IH].
  set_solver.
Qed.

Lemma elem_of_snoc_mid (vis : list Z) (v : Z) Q x : x ∈ (vis ++ [v]) ++ Q ↔ x ∈ vis ++ v :: Q.
Proof. by rewrite -assoc. Qed.

Section Search.
Context (ns : list CausalNode) (Htop : ascending ns) (seed : Z) (Hseed : seed ∈ seqs ns).
Implicit Types (vis Q : list Z) (P : gmap Z (option Z)) (δ : Z → nat).

Record searching vis Q P δ : Prop := {
  se_dom x : is_Some (P !! x) ↔ x ∈ vis ++ Q;
  se_seed : seed ∈ vis ++ Q;
  se_nodup : NoDup (vis ++ Q);
  se_tree x : x ∈ vis ++ Q → (x = seed ∧ P !! x = Some None ∧ δ x = 0) ∨
    x ≠ seed ∧ ∃ y, P !! x = Some (Some y) ∧ y ∈ vis ∧ edge ns y x ∧ δ x = S (δ y);
  se_sorted : StronglySorted (λ a b, δ a ≤ δ b) (vis ++ Q);
  se_seen v c : v ∈ vis → edge ns v c → c ∈ vis ++ Q ∧ δ c ≤ S (δ v);
  se_best v p : v ∈ vis → path_to ns seed v p → S (δ v) ≤ length p;
}.

Lemma searching_start : searching [] [seed] {[seed := None]} (λ _, 0).
Proof using.
  clear Htop Hseed. split; simpl; [|set_solver| | | |set_solver|set_solver].
  - intros x. rewrite list_elem_of_singleton. destruct (decide (x = seed)) as [->|Hne].
    + rewrite lookup_singleton_eq. split; [done|by eexists].
    + by rewrite lookup_singleton_ne.
  - apply NoDup_singleton.
  - intros x ->%list_elem_of_singleton. left. by rewrite lookup_singleton_eq.
  - repeat constructor.
Qed.

Section Visit.
Context vis v Q P δ (Hin : searching vis (v :: Q) P δ).

(** Depths in the queue are at most one more than at its head. *)
Lemma window x : x ∈ Q → δ x ≤ S (δ v).
Proof using Type*.
  intros Hx. destruct (se_tree _ _ _ _ Hin x ltac:(set_solver)) as [(_ & _ & ->)|(_ & y & _ & Hy & _ & ->)]; [lia|].
  pose proof (sorted_app_le _ _ _ y v (se_sorted _ _ _ _ Hin) Hy ltac:(left)). simpl in *. lia.
Qed.
Lemma head_least x : x ∈ v :: Q → δ v ≤ δ x.
Proof using Type*.
  intros Hx. pose proof (se_sorted _ _ _ _ Hin) as Hs.
  assert (StronglySorted (λ a b, δ a ≤ δ b) (v :: Q)) as Hs' by (eapply sorted_sub; [|exact Hs]; by apply sublist_inserts_l).
  apply StronglySorted_inv in Hs' as [_ Hs']. rewrite Forall_forall in Hs'.
  apply elem_of_cons in Hx as [->|Hx]; [done|by apply Hs'].
Qed.

(** The first node of a path that is not visited is in the queue. *)
Lemma frontier b p : path_to ns seed b p → b ∉ vis → δ v < length p.
Proof using Type*.
  induction 1 as [|b c p Hp IH He]; intros Hnv.
  - pose proof (se_seed _ _ _ _ Hin) as Hs. pose proof (head_least seed ltac:(set_solver)).
    destruct (se_tree _ _ _ _ Hin seed Hs) as [(_ & _ & E)|[? _]]; [simpl; lia|done].
  - rewrite length_app /=. destruct (decide (b ∈ vis)) as [Hb|Hb]; [|specialize (IH Hb); lia].
    destruct (se_seen _ _ _ _ Hin b c Hb He) as [Hc Hd].
    pose proof (se_best _ _ _ _ Hin b p Hb Hp). pose proof (head_least c ltac:(set_solver)). lia.
Qed.

Lemma visit_spec P' Q' :
  foldl (meet v) (P, Q) (default [] (children_of ns !! v)) = (P', Q') →
  ∃ δ', searching (vis ++ [v]) Q' P' δ'.
Proof using Type*.
  intros (news & -> & Hnd & Hnew & Hall & HP)%meet_all.
  assert (∀ x, x ∈ news → edge ns v x ∧ x ∉ vis ++ v :: Q) as Hn.
  { intros x Hx. destruct (Hnew x Hx) as [Hc%children_spec HPx]. split; [done|].
    rewrite -(se_dom _ _ _ _ Hin) HPx. by intros [? ?]. }
  set (δ' := λ x, if decide (x ∈ news) then S (δ v) else δ x). exists δ'.
  assert (∀ x, x ∈ vis ++ v :: Q → δ' x = δ x ∧ P' !! x = P !! x) as Hold.
  { intros x Hx. unfold δ'. rewrite HP. by case_decide as Hx'; [destruct (Hn x Hx')|]. }
  assert (∀ x, x ∈ (vis ++ [v]) ++ Q ++ news ↔ x ∈ vis ++ v :: Q ∨ x ∈ news) as Hall'.
  { intros x. set_solver. }
  split.
  - intros x. rewrite Hall' -(se_dom _ _ _ _ Hin) HP. case_decide; [split; [by right|by eexists]|]. tauto.
  - apply Hall'. left. exact (se_seed _ _ _ _ Hin).
  - rewrite assoc -(assoc _ vis). apply NoDup_app. split_and!; [apply Hin| |done].
    intros x Hx Hx'. by destruct (Hn x Hx').
  - intros x [Hx|Hx]%Hall'.
    + destruct (Hold x Hx) as [-> ->]. destruct (se_tree _ _ _ _ Hin x Hx) as [?|(Hne & y & HPy & Hy & He & E)]; [by left|].
      right. split; [done|]. exists y. destruct (Hold y ltac:(set_solver)) as [-> _]. set_solver.
    + right. split; [intros ->; destruct (Hn seed Hx) as [_ []]; apply (se_seed _ _ _ _ Hin)|].
      exists v. destruct (Hold v ltac:(set_solver)) as [-> _].
      rewrite HP /δ' !decide_True //. split_and!; [done|set_solver|by apply Hn|done].
  - rewrite assoc -(assoc _ vis). simpl.
    assert (∀ l, (∀ x, x ∈ l → x ∈ vis ++ v :: Q) → StronglySorted (λ a b, δ a ≤ δ b) l → StronglySorted (λ a b, δ' a ≤ δ' b) l) as Hsub.
    { intros l Hl. induction 1 as [|x l Hs IH Hx]; constructor; [apply IH; set_solver|].
      rewrite !Forall_forall in Hx |- *. intros y Hy.
      destruct (Hold x ltac:(set_solver)) as [-> _], (Hold y ltac:(set_solver)) as [-> _]. by apply Hx. }
    specialize (Hsub _ (λ _ H, H) (se_sorted _ _ _ _ Hin)).
    assert (∀ l, StronglySorted (λ a b, δ' a ≤ δ' b) l → (∀ x, x ∈ l → x ∈ vis ++ v :: Q) →
      ∀ l', (∀ x, x ∈ l' → x ∈ news) → StronglySorted (λ a b, δ' a ≤ δ' b) (l ++ l')) as Happ.
    { intros l Hl Hlm l'. induction l' as [|x l' IH] using rev_ind; intros Hl'; [by rewrite app_nil_r|].
      rewrite assoc. apply StronglySorted_snoc; [apply IH; set_solver|]. apply Forall_forall. intros y Hy.
      assert (δ' x = S (δ v)) as -> by (unfold δ'; rewrite decide_True //; set_solver).
      apply elem_of_app in Hy as [Hy|Hy]; [|by unfold δ'; rewrite decide_True //; set_solver].
      destruct (Hold y ltac:(set_solver)) as [-> _]. specialize (Hlm y Hy).
      apply elem_of_app in Hlm as [Hv|[->|Hq]%elem_of_cons]; [|lia|by apply window].
      pose proof (sorted_app_le _ _ _ y v (se_sorted _ _ _ _ Hin) Hv ltac:(left)). simpl in *. lia. }
    apply Happ; [done|done|done].
  - intros w c Hw He. assert (c ∈ vis ++ v :: Q ∨ c ∈ news) as Hc.
    { apply elem_of_app in Hw as [Hw| ->%list_elem_of_singleton].
      - left. by destruct (se_seen _ _ _ _ Hin w c Hw He).
      - destruct (Hall c) as [? HPc]; [by apply children_spec|]. rewrite HP in HPc.
        case_decide; [by right|left]. apply (se_dom _ _ _ _ Hin). by eexists. }
    split; [by apply Hall'|].
    destruct (Hold w ltac:(set_solver)) as [-> _].
    destruct (decide (c ∈ news)) as [Hcn|Hcn].
    + unfold δ'. rewrite decide_True //. apply elem_of_app in Hw as [Hw| ->%list_elem_of_singleton]; [|done].
      destruct (se_seen _ _ _ _ Hin w c Hw He) as [Hc' _]. by destruct (Hn c Hcn).
    + destruct Hc as [Hc|?]; [|done]. destruct (Hold c Hc) as [-> _].
      apply elem_of_app in Hw as [Hw| ->%list_elem_of_singleton]; [by apply (se_seen _ _ _ _ Hin)|].
      apply elem_of_app in Hc as [Hv|[->|Hq]%elem_of_cons]; [|lia|by apply window].
      pose proof (sorted_app_le _ _ _ c v (se_sorted _ _ _ _ Hin) Hv ltac:(left)). simpl in *. lia.
  - intros w p Hw Hp. destruct (Hold w ltac:(set_solver)) as [-> _].
    apply elem_of_app in Hw as [Hw| ->%list_elem_of_singleton]; [by apply (se_best _ _ _ _ Hin)|].
    apply (frontier v p Hp). pose proof (se_nodup _ _ _ _ Hin) as Hnd'.
    apply NoDup_app in Hnd' as (_ & Hd & _). intros Hv. apply (Hd v Hv). left.
Qed.
End Visit.

(** ** The path of a node met *)

Lemma climbs vis Q P δ (Hin : searching vis Q P δ) x : x ∈ vis ++ Q →
  ∃ p, path_to ns seed x p ∧ length p = S (δ x) ∧ (∀ y, y ∈ p → is_Some (P !! y)) ∧
    ∀ fuel path, length p ≤ fuel → climb fuel P (Some x) path = Some (path ++ rev p).
Proof using Type*.
  remember (δ x) as n eqn:En. revert x En. induction (lt_wf n) as [n _ IH]. intros x -> Hx.
  destruct (se_tree _ _ _ _ Hin x Hx) as [(-> & HP & ->)|(_ & y & HP & Hy & He & E)].
  - exists [seed]. split_and!; [constructor|done| |].
    + intros y ->%list_elem_of_singleton. by eexists.
    + intros [|fuel] path Hf; simpl in Hf; [lia|]. simpl. rewrite HP. simpl. by destruct fuel.
  - destruct (IH (δ y) ltac:(lia) y eq_refl ltac:(set_solver)) as (p & Hp & Hlen & Hdom & Hcl).
    exists (p ++ [x]). rewrite length_app Hlen E. split_and!; [by econstructor|simpl; lia| |].
    + intros z [Hz|Hz%list_elem_of_singleton]%elem_of_app; [by apply Hdom|subst z; by eexists].
    + intros [|fuel] path Hf; simpl in Hf; [lia|]. simpl. rewrite HP. simpl.
      rewrite Hcl; [|lia]. by rewrite rev_app_distr -assoc.
Qed.

Lemma path_sorted x p : path_to ns seed x p → StronglySorted Z.lt p ∧ ∀ y, y ∈ p → (y ≤ x)%Z.
Proof using Htop.
  induction 1 as [|b c p _ [IHs IHle] He].
  - split; [repeat constructor|]. intros y ->%list_elem_of_singleton. done.
  - apply (ascending_edge ns _ _ Htop) in He as [Hlt _]. split.
    + apply StronglySorted_snoc; [done|]. apply Forall_forall. intros y Hy. specialize (IHle y Hy). lia.
    + intros y [Hy|Hy%list_elem_of_singleton]%elem_of_app; [specialize (IHle y Hy)|]; lia.
Qed.
Lemma path_fits P x p : path_to ns seed x p → (∀ y, y ∈ p → is_Some (P !! y)) → length p ≤ size P.
Proof using Htop.
  intros Hp Hdom. apply path_sorted in Hp as [Hs _]. apply sorted_lt_NoDup in Hs.
  rewrite -(size_list_to_set (C := gset Z) p Hs) -(size_dom (D := gset Z) P).
  apply subseteq_size. intros y Hy%elem_of_list_to_set. by apply elem_of_dom, Hdom.
Qed.

(** ** The loop *)

(** What one seed adds to the explanations, when it visits [vis]. *)
Definition adds (vis : list Z) (e e' : Explanation) : Prop :=
  ex_nodeSeq e' = ex_nodeSeq e ∧
  if decide (ex_nodeSeq e ∈ vis)
  then ∃ p, ex_causes e' = ex_causes e ++ [mkCause seed p] ∧ shortest ns seed (ex_nodeSeq e) p
  else ex_causes e' = ex_causes e.

Lemma visited_known vis Q P δ x : searching vis Q P δ → x ∈ vis ++ Q → x ∈ seqs ns.
Proof using Hseed Htop.
  intros Hin Hx. destruct (se_tree _ _ _ _ Hin x Hx) as [(-> & _)|(_ & y & _ & _ & He & _)]; [done|].
  by destruct (ascending_edge ns _ _ Htop He) as [_ ?].
Qed.

Lemma search_spec fuel : ∀ vis Q P δ ex, searching vis Q P δ →
  map ex_nodeSeq ex = seqs ns → length ns < fuel + length vis →
  ∃ ex' new P' δ', search fuel (children_of ns) seed P Q ex = Some ex' ∧
    searching (vis ++ new) [] P' δ' ∧ Forall2 (adds new) ex ex'.
Proof using Hseed Htop.
  induction fuel as [|fuel IH]; intros vis Q P δ ex Hin Hex Hf.
  { exfalso. assert (length vis ≤ length (seqs ns)); [|rewrite length_map in H; simpl in Hf; lia].
    apply submseteq_length, NoDup_submseteq.
    - pose proof (se_nodup _ _ _ _ Hin) as Hnd. by apply NoDup_app in Hnd as [? _].
    - intros x Hx. eapply visited_known; [exact Hin|set_solver]. }
  destruct Q as [|v Q].
  { exists ex, [], P, δ. split; [done|]. split; [by rewrite app_nil_r|].
    apply Forall_Forall2_diag, Forall_forall. intros e _. split; [done|]. case_decide; [set_solver|done]. }
  destruct (climbs _ _ _ _ Hin v ltac:(set_solver)) as (p & Hp & Hlen & Hdom & Hcl).
  assert (shortest ns seed v p) as Hshort.
  { split; [done|]. intros q Hq. rewrite Hlen. apply (frontier vis v Q P δ Hin v q Hq).
    pose proof (se_nodup _ _ _ _ Hin) as Hnd. apply NoDup_app in Hnd as (_ & Hd & _). intros Hv. apply (Hd v Hv). left. }
  assert (StronglySorted Z.lt (map ex_nodeSeq ex)) as Hs by (rewrite Hex; apply Htop).
  destruct (push_cause_spec v (mkCause seed p) ex) as (ex1 & Hpush & Hex1 & HF1).
  { rewrite Hex. eapply visited_known; [exact Hin|set_solver]. }
  { by apply sorted_lt_NoDup. }
  destruct (foldl (meet v) (P, Q) (default [] (children_of ns !! v))) as [P1 Q1] eqn:Hmeet.
  destruct (visit_spec vis v Q P δ Hin P1 Q1 Hmeet) as (δ1 & Hin1).
  destruct (IH _ _ _ _ ex1 Hin1) as (ex' & new & P' & δ' & Hrun & Hin' & HF).
  { by rewrite Hex1. }
  { rewrite length_app /=. lia. }
  exists ex', (v :: new), P', δ'. split_and!.
  - cbn [search]. rewrite Hcl; [|pose proof (path_fits P v p Hp Hdom); lia]. cbn [mbind option_bind app].
    rewrite rev_involutive Hpush. cbn [mbind option_bind]. by rewrite Hmeet.
  - by rewrite -assoc in Hin'.
  - clear -HF1 HF Hshort Hin' Hex1. revert ex' HF. 
    assert (v ∉ new) as Hv.
    { pose proof (se_nodup _ _ _ _ Hin') as Hnd. rewrite app_nil_r in Hnd. apply NoDup_app in Hnd as (_ & Hd & _).
      apply Hd. set_solver. }
    clear Hin'. revert Hex1. induction HF1 as [|e e1 l l1 He HF1 IH]; intros Hex1 ex' HF;
      inversion HF as [|? e' ? l' Ha HF']; subst; constructor.
    + injection Hex1 as En _. destruct Ha as [En' Ha]. split; [congruence|]. rewrite En in Ha.
      destruct (decide (ex_nodeSeq e = v)) as [E|Hne].
      * rewrite decide_True; [|rewrite E; by left]. rewrite decide_False in Ha; [|by rewrite E]. exists p.
        rewrite Ha He E. by split.
      * destruct (decide (ex_nodeSeq e ∈ new)) as [Hn|Hn].
        -- rewrite decide_True; [|by right]. by rewrite He in Ha.
        -- rewrite decide_False; [by rewrite Ha He|]. by intros [?|?]%elem_of_cons.
    + apply IH; [by injection Hex1|done].
Qed.

(** The nodes visited are the nodes reached. *)
Lemma visited_reached vis P δ x : searching vis [] P δ → x ∈ vis ↔ reaches ns seed x.
Proof using Htop Hseed.
  intros Hin. split.
  - intros Hx. destruct (climbs _ _ _ _ Hin x ltac:(set_solver)) as (p & Hp & _). by eapply path_reaches.
  - revert x. refine (rtc_ind_r _ seed _ _).
    + pose proof (se_seed _ _ _ _ Hin) as Hs. by rewrite app_nil_r in Hs.
    + intros y z _ He Hy. destruct (se_seen _ _ _ _ Hin y z Hy He) as [Hz _]. by rewrite app_nil_r in Hz.
Qed.

Definition explains_seed (e e' : Explanation) : Prop :=
  ex_nodeSeq e' = ex_nodeSeq e ∧
  ((reaches ns seed (ex_nodeSeq e) ∧ ∃ p, ex_causes e' = ex_causes e ++ [mkCause seed p] ∧
      shortest ns seed (ex_nodeSeq e) p) ∨
   (¬ reaches ns seed (ex_nodeSeq e) ∧ ex_causes e' = ex_causes e)).

Lemma search_seed ex : map ex_nodeSeq ex = seqs ns →
  ∃ ex', search (S (length ns)) (children_of ns) seed {[seed := None]} [seed] ex = Some ex' ∧
    Forall2 explains_seed ex ex'.
Proof using Hseed Htop.
  intros Hex. destruct (search_spec (S (length ns)) [] [seed] {[seed := None]} (λ _, 0) ex searching_start Hex)
    as (ex' & new & P' & δ' & Hrun & Hin & HF); [simpl; lia|].
  exists ex'. split; [done|]. simpl in Hin.
  eapply Forall2_impl; [exact HF|]. intros e e' [En Ha]. split; [done|].
  case_decide as Hd; rewrite (visited_reached _ _ _ _ Hin) in Hd; [left|right]; by split.
Qed.
End Search.

(** ** All the seeds *)

Lemma sorted_seeds changed : StronglySorted Z.lt (seeds changed).
Proof.
  unfold seeds. assert (NoDup (merge_sort Z.le (unique changed))) as Hnd.
  { rewrite (merge_sort_Permutation Z.le (unique changed)). apply NoDup_unique. }
  pose proof (StronglySorted_merge_sort Z.le (unique changed)) as Hs. revert Hs Hnd.
  induction 1 as [|x l _ IH Hx]; intros Hnd; constructor; apply NoDup_cons in Hnd as [Hn Hnd]; [by apply IH|].
  rewrite !Forall_forall in Hx |- *. intros y Hy. specialize (Hx y Hy).
  assert (x ≠ y) by (by intros ->). lia.
Qed.

(** What the seeds of [l] leave in an explanation. *)
Record explained (ns : list CausalNode) (l : list Z) (e : Explanation) : Prop := {
  xp_order : map ca_changedSeq (ex_causes e) `sublist_of` l;
  xp_causes s : s ∈ map ca_changedSeq (ex_causes e) ↔ s ∈ l ∧ reaches ns s (ex_nodeSeq e);
  xp_paths c : c ∈ ex_causes e → shortest ns (ca_changedSeq c) (ex_nodeSeq e) (ca_path c);
}.

Lemma explained_snoc ns l seed e e' :
  explained ns l e → explains_seed ns seed e e' → explained ns (l ++ [seed]) e'.
Proof.
  intros [Ho Hc Hp] [En [(Hr & p & Ec & Hs)|(Hr & Ec)]].
  - split; rewrite ?En ?Ec ?map_app.
    + by apply sublist_app.
    + intros s. rewrite !elem_of_app Hc. simpl. rewrite !list_elem_of_singleton. naive_solver.
    + intros c [Hin| ->%list_elem_of_singleton]%elem_of_app; [by apply Hp|done].
  - split; rewrite ?En ?Ec.
    + by apply sublist_inserts_r.
    + intros s. rewrite elem_of_app Hc list_elem_of_singleton. naive_solver.
    + done.
Qed.

Lemma explain_fold ns : ascending ns → ∀ rest l ex,
  (∀ s, s ∈ rest → s ∈ seqs ns) → map ex_nodeSeq ex = seqs ns → Forall (explained ns l) ex →
  ∃ ex', foldl (λ ex seed, ex ← ex; search (S (length ns)) (children_of ns) seed {[seed := None]} [seed] ex)
      (Some ex) rest = Some ex' ∧ map ex_nodeSeq ex' = seqs ns ∧ Forall (explained ns (l ++ rest)) ex'.
Proof.
  intros Hasc. induction rest as [|s rest IH]; intros l ex Hk Hm Hex; cbn [foldl].
  { exists ex. by rewrite app_nil_r. }
  destruct (search_seed ns Hasc s (Hk s ltac:(left)) ex Hm) as (ex1 & Hrun & HF). cbn [mbind option_bind]. rewrite Hrun.
  destruct (IH (l ++ [s]) ex1) as (ex' & Hrun' & Hm' & Hex').
  - intros x Hx. apply Hk. by right.
  - rewrite -Hm. clear -HF. induction HF as [|e e' l l' [E _] _ IH]; [done|]. simpl. by rewrite E IH.
  - clear -HF Hex. induction HF as [|e e' l0 l' He _ IH]; [constructor|]. apply Forall_cons in Hex as [H1 H2].
    constructor; [by eapply explained_snoc|by apply IH].
  - exists ex'. by rewrite -assoc in Hex'.
Qed.

Lemma explain_returns plan changed : ascending (rp_invalidated plan) →
  (∀ s, s ∈ changed → s ∈ seqs (rp_invalidated plan)) →
  ∃ ex, explain plan changed = Some ex ∧ map ex_nodeSeq ex = seqs (rp_invalidated plan) ∧
    Forall (explained (rp_invalidated plan) (seeds changed)) ex.
Proof.
  intros Hasc Hk. unfold explain. set (ns := rp_invalidated plan) in *.
  destruct (explain_fold ns Hasc (seeds changed) [] (map (λ n, mkExplanation (cn_seq n) []) ns)) as (ex & Hrun & Hm & Hex).
  - intros s Hs. apply Hk. unfold seeds in Hs. rewrite (merge_sort_Permutation Z.le (unique changed)) in Hs.
    by rewrite elem_of_unique in Hs.
  - rewrite map_map. done.
  - apply Forall_forall. intros e (n & -> & Hn)%elem_of_map. split; simpl; [constructor|set_solver..].
  - by exists ex.
Qed.
