(* ===== verification/CausalRecord.v ===== *)
(** * CausalRecord: the graph a domain records

    The journal of a domain in which only [record] writes causal steps holds a
    graph in topological order, and what [record] returns is what [nodes] reads,
    less what the journal redacts. Then the theorems on the graph, at the level of
    the methods. *)

From S2P Require Import Prelude Types Events Config Store StoreCalls Samples JournalInv WorkTree Rows Causal CausalSpec.

(** ** The JSON form reads back *)

Definition with_args (args : list (string * jsval)) (s : CausalStep) : CausalStep :=
  let o := cs_observation s in
  mkCausalStep (cs_txId s) (cs_actorId s)
    (mkObservation (ob_kind o) (ob_tool o) args (ob_resultHash o) (ob_cutoffHash o))
    (cs_dependsOn s) (cs_writes s).
Definition as_journaled (args : list (string * jsval)) (n : CausalNode) : CausalNode :=
  mkCausalNode (with_args args (cn_step n)) (cn_seq n) (cn_runId n) (cn_baseSnapshotId n).

Lemma keep_field (f : jsval → outcome error jsval) k v fs :
  SECRET_KEY k = false → is_undefined v = false →
  map_fields f ((k, v) :: fs) = (v' ← f v; fs' ← map_fields f fs; Ok ((k, v') :: fs')).
Proof. intros Hk Hv. simpl. by rewrite Hk Hv. Qed.
(** A property that is [undefined] is left out. *)
Definition opt_field (k : string) (o : option jsval) : list (string * jsval) :=
  match o with Some v => [(k, v)] | None => [] end.
Lemma keep_opt_field k o fs :
  SECRET_KEY k = false → (∀ v, o = Some v → is_undefined v = false ∧ jsonValue v = Ok v) →
  map_fields jsonValue ((k, jopt id o) :: fs)
  = (fs' ← map_fields jsonValue fs; Ok (opt_field k o ++ fs')).
Proof.
  intros Hk Hv. destruct o as [v|]; simpl; rewrite Hk.
  - destruct (Hv v eq_refl) as [-> ->]. by destruct (map_fields _ fs).
  - by destruct (map_fields _ fs).
Qed.
Lemma jopt_id {A} (f : A → jsval) o : jopt f o = jopt id (f <$> o).
Proof. by destruct o. Qed.
Lemma opt_str o v : JStr <$> o = Some v → is_undefined v = false ∧ jsonValue v = Ok v.
Proof. by destruct o; intros [= <-]. Qed.
Ltac keep := rewrite keep_field; [|vm_compute; reflexivity|reflexivity].

Lemma json_ints l : map_outcome jsonValue (map JZ l) = Ok (map JZ l).
Proof. induction l as [|z l IH]; [done|]. simpl in *. by rewrite IH. Qed.
Lemma json_write w : jsonValue (js_write w) = Ok (js_write w).
Proof. by destruct w as [[] p]. Qed.
Lemma json_writes l : map_outcome jsonValue (map js_write l) = Ok (map js_write l).
Proof. induction l as [|w l IH]; [done|]. cbn [map map_outcome]. rewrite json_write. simpl in *. by rewrite IH. Qed.

Lemma ints_back l : mapM as_int (map JZ l) = Some l.
Proof. induction l as [|z l IH]; [done|]. simpl. by rewrite IH. Qed.
Lemma writes_back l : mapM write_of (map js_write l) = Some l.
Proof. induction l as [|[[] p] l IH]; [done|..]; simpl; by rewrite IH. Qed.


Definition js_observation_kept (o : ObservationEntry) (args' : list (string * jsval)) : jsval :=
  JObj ([("kind", JStr (ob_kind o)); ("call", JObj [("tool", JStr (ob_tool o)); ("args", JObj args')])]
    ++ opt_field "resultHash" (JStr <$> ob_resultHash o) ++ opt_field "cutoffHash" (JStr <$> ob_cutoffHash o)).
Lemma json_observation o : jsonValue (js_observation o)
  = (args' ← map_fields jsonValue (ob_args o); Ok (js_observation_kept o args')).
Proof.
  change (jsonValue (js_observation o)) with (fs' ← map_fields jsonValue
    [("kind", JStr (ob_kind o)); ("call", JObj [("tool", JStr (ob_tool o)); ("args", JObj (ob_args o))]);
     ("resultHash", jopt JStr (ob_resultHash o)); ("cutoffHash", jopt JStr (ob_cutoffHash o))]; Ok (JObj fs')).
  rewrite !(jopt_id JStr). do 2 keep. simpl (jsonValue (JStr _)).
  assert (jsonValue (JObj [("tool", JStr (ob_tool o)); ("args", JObj (ob_args o))])
    = (args' ← map_fields jsonValue (ob_args o); Ok (JObj [("tool", JStr (ob_tool o)); ("args", JObj args')]))) as ->.
  { change (jsonValue (JObj [("tool", JStr (ob_tool o)); ("args", JObj (ob_args o))])) with
      (fs' ← map_fields jsonValue [("tool", JStr (ob_tool o)); ("args", JObj (ob_args o))]; Ok (JObj fs')).
    do 2 keep. change (jsonValue (JObj (ob_args o))) with (fs' ← map_fields jsonValue (ob_args o); Ok (JObj fs')).
    by destruct (map_fields jsonValue (ob_args o)). }
  rewrite !keep_opt_field; [|vm_compute; reflexivity|apply opt_str|vm_compute; reflexivity|apply opt_str].
  destruct (map_fields jsonValue (ob_args o)); [|done]. simpl. by rewrite app_nil_r.
Qed.

Definition js_node_kept (s : CausalStep) (runId base : string) (args' : list (string * jsval)) : jsval :=
  JObj ([("txId", JStr (cs_txId s)); ("actorId", JStr (cs_actorId s));
         ("observation", js_observation_kept (cs_observation s) args');
         ("dependsOn", JArr (map JZ (cs_dependsOn s)))]
    ++ opt_field "writes" ((λ ws, JArr (map js_write ws)) <$> cs_writes s)
    ++ [("runId", JStr runId); ("baseSnapshotId", JStr base)]).
Lemma json_node s runId base : jsonValue (js_node s runId base)
  = (args' ← map_fields jsonValue (ob_args (cs_observation s)); Ok (js_node_kept s runId base args')).
Proof.
  unfold js_node. set (fs := [_; _; _; _; _; _; _]).
  change (jsonValue (JObj fs)) with (fs' ← map_fields jsonValue fs; Ok (JObj fs')). unfold fs.
  rewrite (jopt_id (λ ws, JArr (map js_write ws))). do 4 keep. rewrite json_observation.
  change (jsonValue (JArr (map JZ (cs_dependsOn s)))) with
    (l ← map_outcome jsonValue (map JZ (cs_dependsOn s)); Ok (JArr l)). rewrite json_ints.
  rewrite keep_opt_field; [|vm_compute; reflexivity|].
  2:{ intros v. destruct (cs_writes s) as [ws|]; intros [= <-]. split; [done|].
      change (jsonValue (JArr (map js_write ws))) with (l ← map_outcome jsonValue (map js_write ws); Ok (JArr l)).
      by rewrite json_writes. }
  do 2 keep. by destruct (map_fields jsonValue (ob_args (cs_observation s))).
Qed.

Lemma observation_back o args' : observation_of (js_observation_kept o args')
  = Some (mkObservation (ob_kind o) (ob_tool o) args' (ob_resultHash o) (ob_cutoffHash o)).
Proof. by destruct o as [kind tool args [rh|] [ch|]]. Qed.
Lemma node_back s runId base args' seq :
  node_of (js_node_kept s runId base args') seq = Some (mkCausalNode (with_args args' s) seq runId base).
Proof.
  destruct s as [tx actor o deps writes]. unfold js_node_kept. cbn [cs_txId cs_actorId cs_observation cs_dependsOn cs_writes].
  destruct writes as [ws|]; unfold node_of; simpl; rewrite observation_back /= ints_back /= ?writes_back; done.
Qed.

Lemma node_reads_back step runId base fs' seq :
  map_fields jsonValue [("version", JZ 1); ("node", js_node step runId base)] = Ok fs' →
  ∃ args', map_fields jsonValue (ob_args (cs_observation step)) = Ok args' ∧
    jfield (JObj fs') "version" ≫= as_int = Some 1%Z ∧
    (jfield (JObj fs') "node" ≫= λ v, node_of v seq)
      = Some (mkCausalNode (with_args args' step) seq runId base).
Proof.
  do 2 keep. rewrite json_node. destruct (map_fields jsonValue (ob_args _)) as [args'|e]; [|done].
  intros [= <-]. exists args'. split_and!; [done..|]. apply node_back.
Qed.

(** ** The history of a domain *)

Definition causal_rows (dom : string) (d : Db) : list JournalRow :=
  journal_of_types dom MAX_SAFE_INTEGER ["CAUSAL_STEP"] d.
Definition up_to (c : Z) (ns : list CausalNode) : list CausalNode :=
  List.filter (λ n, bool_decide (cn_seq n ≤ c)%Z) ns.

Record history (dom : string) (d : Db) (ns : list CausalNode) : Prop := {
  hi_read : map_outcome read_node (causal_rows dom d) = Ok ns;
  hi_top : topological ns;
  hi_bounds n : n ∈ ns → (1 ≤ cn_seq n ≤ MAX_SAFE_INTEGER)%Z;
}.

Lemma read_node_seq r n : read_node r = Ok n → cn_seq n = je_seq r.
Proof.
  unfold read_node. destruct (negb _); [done|].
  destruct (jfield (je_payload r) "node") as [v|]; simpl; [|done].
  destruct (node_of v (je_seq r)) as [n'|] eqn:E; [|done]. intros [= <-]. revert E. unfold node_of.
  repeat (lazymatch goal with |- (?o ≫= _) = _ → _ => destruct o as [?|]; [cbn [mbind option_bind]|done] end).
  by intros [= <-].
Qed.

Lemma read_filtered c rows ns : map_outcome read_node rows = Ok ns →
  map_outcome read_node (List.filter (λ r, bool_decide (je_seq r ≤ c)%Z) rows) = Ok (up_to c ns).
Proof.
  revert ns. induction rows as [|r rows IH]; intros ns; simpl; [by intros [= <-]|].
  intros (n & Hn & (ns' & Hns & [= <-])%bind_Ok)%bind_Ok. simpl. rewrite (read_node_seq r n Hn).
  case_bool_decide; simpl; [rewrite Hn|]; by rewrite (IH _ Hns).
Qed.

Lemma journal_up_to dom c types d : (c ≤ MAX_SAFE_INTEGER)%Z →
  journal_of_types dom c types d
  = List.filter (λ r, bool_decide (je_seq r ≤ c)%Z) (journal_of_types dom MAX_SAFE_INTEGER types d).
Proof.
  intros Hc. unfold journal_of_types. induction (select_journal dom 0 d) as [|r l IH]; [done|]. simpl.
  destruct (js_has types (je_type r)).
  - rewrite !andb_true_r. destruct (decide (je_seq r ≤ c)%Z).
    + rewrite !bool_decide_true; [|lia..]. simpl. rewrite bool_decide_true; [|done]. by rewrite IH.
    + rewrite (bool_decide_false (je_seq r ≤ c)%Z) //. destruct (bool_decide _); simpl; [|done].
      by rewrite (bool_decide_false (je_seq r ≤ c)%Z).
  - by rewrite !andb_false_r.
Qed.

Lemma nodes_run dom d ns c e t : history dom d ns → (0 ≤ c ≤ MAX_SAFE_INTEGER)%Z →
  nodes dom c (mkStore d e t) = (Ok (up_to c ns), mkStore d e t).
Proof.
  intros H Hc. unfold nodes, isSafeInteger. autorewrite with xio_run.
  rewrite bool_decide_true; [|lia]. rewrite bool_decide_false; [|lia]. cbn [negb orb].
  unfold query. autorewrite with xio_run. unfold lift. f_equal. simpl.
  rewrite journal_up_to; [|lia]. apply read_filtered, H.
Qed.
Lemma up_to_all dom d ns : history dom d ns → up_to MAX_SAFE_INTEGER ns = ns.
Proof.
  intros H. pose proof (hi_bounds _ _ _ H) as Hb. clear H. unfold up_to.
  induction ns as [|n ns IH]; [done|]. simpl. rewrite bool_decide_true; [|apply Hb; left].
  rewrite IH //. intros m Hm. apply Hb. by right.
Qed.

(** ** Recording *)

Definition dedup (s : CausalStep) : CausalStep :=
  mkCausalStep (cs_txId s) (cs_actorId s) (cs_observation s) (unique (cs_dependsOn s)) (cs_writes s).

(** What a call of [record] does to the store: nothing, or one row. *)
Lemma record_run dom now step s o s' : record dom now step s = (o, s') →
  match o with
  | Throw _ => s' = s
  | Ok n => ∃ known row fs' ev, recordEventAndTransitionState now ev s = (Ok (je_seq row), s') ∧ nodes dom MAX_SAFE_INTEGER s = (Ok known, s) ∧
      (∀ a, a ∈ cs_dependsOn step → a ∈ map cn_seq known) ∧
      s' = mkStore (with_journal row (db s)) (currentEpoch s) (inTransaction s) ∧
      n = mkCausalNode (dedup step) (je_seq row) (cn_runId n) (cn_baseSnapshotId n) ∧
      je_seq row = (db_journal_seq (db s) + 1)%Z ∧ je_domain_id row = dom ∧ je_type row = "CAUSAL_STEP" ∧
      je_payload row = JObj fs' ∧
      map_fields jsonValue [("version", JZ 1); ("node", js_node (dedup step) (cn_runId n) (cn_baseSnapshotId n))] = Ok fs'
  end.
Proof.
  unfold record. autorewrite with xio_run. destruct (_ || _); [by intros [= <- <-]|].
  autorewrite with xio_run. destruct (negb (js_has _ _)); [by intros [= <- <-]|].
  autorewrite with xio_run. destruct (_ && _); [by intros [= <- <-]|].
  set (events := journal_of_types _ _ TX_TYPES _).
  set (history_ := List.filter _ events). set (begun := List.find _ history_).
  set (gw := startsWith _ _ && _).
  autorewrite with xio_run. destruct (negb gw && _); [by intros [= <- <-]|].
  assert (∀ B (k : list CausalNode → SM B), (nodes dom MAX_SAFE_INTEGER ≫= k) s
    = match (nodes dom MAX_SAFE_INTEGER s).1 with Ok l => k l s | Throw e => (Throw e, s) end) as Hnodes.
  { intros B k. unfold nodes, query. autorewrite with xio_run. by destruct (negb _ || _); [|destruct (map_outcome _ _)]. }
  rewrite Hnodes. assert (nodes dom MAX_SAFE_INTEGER s = ((nodes dom MAX_SAFE_INTEGER s).1, s)) as Hst.
  { unfold nodes, query. autorewrite with xio_run. by destruct (negb _ || _). }
  destruct (nodes dom MAX_SAFE_INTEGER s).1 as [known|e]; [|by intros [= <- <-]].
  autorewrite with xio_run. destruct (existsb _ _) eqn:Hdeps; [by intros [= <- <-]|].
  set (runId := nullish _ _). set (base := nullish _ _).
  set (node := mkCausalStep (cs_txId step) _ _ _ _). set (ev := simple_event _ _ _ _ _ _).
  unfold mbind, ST_bind. destruct (recordJournalEvent now ev s) as [[seq|e] s1] eqn:Hrec.
  2:{ apply simple_row in Hrec as ->. by intros [= <- <-]. }
  pose proof Hrec as Hrec'. apply simple_row in Hrec as (row & fs' & -> & -> & Hseq & Hdom & Ht & _ & _ & Hp & Hfs).
  intros [= <- <-]. exists known, row, fs', ev. split_and!; try done. intros a Ha.
  apply not_true_iff_false in Hdeps. destruct (decide (a ∈ map cn_seq known)) as [?|Hn]; [done|exfalso].
  apply Hdeps, existsb_In. exists a. split; [done|]. rewrite (bool_decide_false (a ∈ _)) //. apply orb_true_r.
Qed.

(** ** The journals in which only [record] writes causal steps *)

Section Reachable.
Context `{Crypto} (dom : string).

Inductive graph_step (d d' : Db) : Prop :=
| graph_record now epoch step : db (record dom now step (mkStore d epoch false)).2 = d' → graph_step d d'
| graph_other : db_step d d' → causal_rows dom d' = causal_rows dom d → graph_step d d'.
Inductive graph_reachable : Db → Prop :=
| graph_empty : graph_reachable empty_db
| graph_next d d' : graph_reachable d → graph_step d d' → graph_reachable d'.

Lemma causal_rows_snoc row d : je_domain_id row = dom → je_type row = "CAUSAL_STEP" → (0 ≤ je_seq row)%Z →
  causal_rows dom (with_journal row d)
  = causal_rows dom d ++ if bool_decide (je_seq row ≤ MAX_SAFE_INTEGER)%Z then [row] else [].
Proof.
  intros Hd Ht Hs. unfold causal_rows, journal_of_types, select_journal. simpl.
  rewrite !List.filter_app. simpl. rewrite (bool_decide_true (je_domain_id row = dom)) //.
  rewrite (bool_decide_true (0 ≤ je_seq row)%Z) //. simpl. rewrite Ht andb_true_r. by destruct (bool_decide _).
Qed.

Lemma read_rows_member rows ns n : map_outcome read_node rows = Ok ns → n ∈ ns → ∃ r, r ∈ rows ∧ cn_seq n = je_seq r.
Proof.
  revert ns. induction rows as [|r rows IH]; intros ns; simpl; [intros [= <-]; set_solver|].
  intros (m & Hm & (ns' & Hns & [= <-])%bind_Ok)%bind_Ok [->|Hn]%elem_of_cons.
  - exists r. split; [by left|by apply read_node_seq].
  - destruct (IH _ Hns Hn) as (r' & Hr & E). exists r'. split; [by right|done].
Qed.
Lemma causal_rows_bounded d r : journal_ok d → r ∈ causal_rows dom d → (0 ≤ je_seq r ≤ db_journal_seq d)%Z ∧ (je_seq r ≤ MAX_SAFE_INTEGER)%Z.
Proof.
  intros Hok [[Hr [Hd H0%bool_decide_eq_true]%andb_true_iff]%elem_of_filter [Hm%bool_decide_eq_true _]%andb_true_iff]%elem_of_filter.
  pose proof (jok_bound _ Hok) as Hb. rewrite Forall_forall in Hb. specialize (Hb _ Hr). lia.
Qed.

Lemma read_snoc rows ns r : map_outcome read_node rows = Ok ns →
  map_outcome read_node (rows ++ [r]) = (n ← read_node r; Ok (ns ++ [n])).
Proof.
  revert ns. induction rows as [|r' rows IH]; intros ns; simpl; [intros [= <-]; by destruct (read_node r)|].
  intros (m & Hm & (ns' & Hns & [= <-])%bind_Ok)%bind_Ok. rewrite Hm (IH _ Hns). simpl. by destruct (read_node r).
Qed.

Lemma history_record now epoch step d ns n s' :
  journal_ok d → (0 ≤ db_journal_seq d)%Z → history dom d ns →
  record dom now step (mkStore d epoch false) = (Ok n, s') →
  (cn_seq n = db_journal_seq d + 1)%Z ∧ n = mkCausalNode (dedup step) (cn_seq n) (cn_runId n) (cn_baseSnapshotId n) ∧
  ∃ args', map_fields jsonValue (ob_args (cs_observation step)) = Ok args' ∧
    history dom (db s') (if bool_decide (cn_seq n ≤ MAX_SAFE_INTEGER)%Z then ns ++ [as_journaled args' n] else ns).
Proof.
  intros Hok H0 Hh Hrun.
  apply record_run in Hrun as (known & row & fs' & ev & _ & Hk & Hdeps & -> & En & Hseq & Hd & Ht & Hp & Hfs).
  destruct n as [nstep nseq runId base]. cbn [cn_seq cn_runId cn_baseSnapshotId] in *. injection En as -> ->.
  rewrite (nodes_run _ _ _ _ _ _ Hh) in Hk; [|unfold MAX_SAFE_INTEGER; lia].
  rewrite (up_to_all _ _ _ Hh) in Hk. injection Hk as <-. simpl in Hseq.
  destruct (node_reads_back _ _ _ _ (je_seq row) Hfs) as (args' & Ha & Hv & Hn).
  split; [lia|]. split; [done|]. exists args'. split; [done|].
  destruct Hh as [Hr Htop Hb].
  assert (∀ m, m ∈ ns → (cn_seq m ≤ db_journal_seq d)%Z) as Hle.
  { intros m (r & Hrin & ->)%(read_rows_member _ _ _ Hr). apply (causal_rows_bounded d r Hok) in Hrin. lia. }
  pose proof (causal_rows_snoc row d Hd Ht ltac:(lia)) as Hrows.
  case_bool_decide as Hmax.
  2:{ rewrite app_nil_r in Hrows. split; [|done..]. simpl. by rewrite Hrows. }
  assert (read_node row = Ok (as_journaled args' (mkCausalNode (dedup step) (je_seq row) runId base))) as Hread.
  { unfold read_node. rewrite Hp Hv. change (bool_decide (Some 1%Z = Some 1%Z)) with true. cbn [negb].
    rewrite Hn. reflexivity. }
  split.
  - simpl. rewrite Hrows (read_snoc _ _ _ Hr) Hread. done.
  - split.
    + rewrite map_app. apply StronglySorted_snoc; [apply Htop|]. apply Forall_forall.
      intros x (m & -> & Hm)%elem_of_map. specialize (Hle m Hm). simpl. lia.
    + intros m a [Hm| ->%list_elem_of_singleton]%elem_of_app Hin.
      * destruct (top_deps ns Htop m a Hm Hin) as [H1 H2]. split; [|done]. rewrite map_app. apply elem_of_app. by left.
      * assert (a ∈ seqs ns) as Hin'.
        { apply Hdeps. apply (elem_of_unique (cs_dependsOn step)). exact Hin. }
        split; [rewrite map_app; apply elem_of_app; by left|]. apply elem_of_map in Hin' as (m & -> & Hm).
        specialize (Hle m Hm). simpl. lia.
  - intros m [Hm| ->%list_elem_of_singleton]%elem_of_app; [by apply Hb|]. simpl. lia.
Qed.

Lemma graph_step_db d d' : graph_step d d' → db_steps d d'.
Proof.
  intros [now epoch step E|Hdb _]; [|econstructor; [exact Hdb|constructor]].
  destruct (record dom now step (mkStore d epoch false)) as [o s'] eqn:Hrun. apply record_run in Hrun.
  simpl in E. subst d'. destruct o as [n|e]; [|rewrite Hrun; constructor].
  destruct Hrun as (known & row & fs' & ev & Hev & _).
  econstructor; [|constructor]. apply (db_step_call _ _ now epoch (CRecordEvent ev)).
  simpl. unfold ignore_result, mbind, ST_bind. by rewrite Hev.
Qed.
Lemma graph_reachable_db d : graph_reachable d → db_reachable d.
Proof.
  induction 1 as [|d d' _ IH Hs]; [constructor|]. unfold db_reachable in *. apply graph_step_db in Hs.
  induction IH as [|d1 d2 d3 H1 _ IH]; [done|]. econstructor; [exact H1|by apply IH].
Qed.
Lemma seq_positive d : db_reachable d → (0 ≤ db_journal_seq d)%Z.
Proof.
  intros Hd. apply (journal_relation_steps (preserves (λ d, (0 ≤ db_journal_seq d)%Z))) in Hd; [by apply Hd|..].
  - intros d1 d2 [_ E]. unfold preserves. by rewrite E.
  - intros d1 row [Hs _ _ _]. unfold preserves. simpl. lia.
Qed.

Lemma graph_history d : graph_reachable d → ∃ ns, history dom d ns.
Proof.
  induction 1 as [|d d' Hr (ns & IH) Hs].
  { exists []. split; [done| |set_solver]. split; [constructor|set_solver]. }
  apply graph_reachable_db in Hr. destruct Hs as [now epoch step E|_ Hrows].
  - destruct (record dom now step (mkStore d epoch false)) as [o s'] eqn:Hrun. simpl in E. subst d'.
    destruct o as [n|e].
    + apply (history_record now epoch step d ns n s') in Hrun as (_ & _ & args' & _ & Hh);
        [|by apply journal_ok_reachable|by apply seq_positive|done].
      by eexists.
    + apply record_run in Hrun. subst s'. by exists ns.
  - exists ns. destruct IH as [H1 H2 H3]. split; [by rewrite Hrows|done..].
Qed.
End Reachable.
