(* ===== verification/CausalMethods.v ===== *)
(** * CausalMethods: the theorems on the causal graph of a domain

    On every journal in which only [record] writes causal steps: what is recorded
    reads back, a view is the ancestry of its heads, a plan invalidates what a
    changed result reaches and nothing else, and each invalidation is explained by
    shortest paths. *)

From S2P Require Import Prelude Types Events Config Store StoreCalls Samples JournalInv WorkTree Rows Causal CausalSpec CausalRecord.

Lemma part_trans ns1 ns2 ns3 : part_of ns1 ns2 → part_of ns2 ns3 → part_of ns1 ns3.
Proof. intros [H1 H2] [H3 _]. split; [by etransitivity|done]. Qed.
Lemma elem_of_up_to c ns n : n ∈ up_to c ns ↔ n ∈ ns ∧ (cn_seq n ≤ c)%Z.
Proof. unfold up_to. by rewrite elem_of_filter bool_decide_eq_true. Qed.
Lemma fold_max_spec l : ∀ m, (m ≤ foldl Z.max m l)%Z ∧ (∀ x, x ∈ l → (x ≤ foldl Z.max m l)%Z) ∧
  (foldl Z.max m l = m ∨ foldl Z.max m l ∈ l).
Proof.
  induction l as [|y l IH]; intros m; simpl; [split_and!; [lia|set_solver|by left]|].
  destruct (IH (Z.max m y)) as (H1 & H2 & H3). split_and!; [lia| |].
  - intros x [->|Hx]%elem_of_cons; [lia|by apply H2].
  - destruct H3 as [->|?]; [|right; by right]. destruct (Z.max_spec m y) as [[_ ->]|[_ ->]]; [right; left|by left].
Qed.
Lemma existsb_none {A} (f : A → bool) l : (∀ x, x ∈ l → f x = false) → existsb f l = false.
Proof. intros H. apply not_true_iff_false. intros (x & Hx & Hf)%existsb_In. by rewrite H in Hf. Qed.

Lemma tc_last {A} (R : relation A) x z : tc R x z → ∃ y, rtc R x y ∧ R y z.
Proof.
  induction 1 as [x z Hxz|x y z Hxy _ (w & Hyw & Hwz)]; [by exists x|].
  exists w. split; [by eapply rtc_l|done].
Qed.

Section Methods.
Context `{Crypto} (dom : string) (d : Db) (epoch : option Z) (tx : bool) (Hreach : graph_reachable dom d).
Notation st := (mkStore d epoch tx).

(** The nodes a call works on: those up to [c], or the ancestry of the heads. *)
Definition selected (ns : list CausalNode) (c : Z) (heads : option (list Z)) (sel : list CausalNode) : Prop :=
  part_of sel ns ∧ ∀ n, n ∈ sel ↔ n ∈ ns ∧ (cn_seq n ≤ c)%Z ∧
    match heads with None => True | Some hs => ∃ h, h ∈ hs ∧ reaches ns (cn_seq n) h end.
(** A sequence of the journal, and heads recorded by then. *)
Definition valid_cut (ns : list CausalNode) (c : Z) (heads : option (list Z)) : Prop :=
  (0 ≤ c ≤ MAX_SAFE_INTEGER)%Z ∧ ∀ h, h ∈ default [] heads → h ∈ seqs ns ∧ (h ≤ c)%Z.

Lemma up_to_selected ns c : topological ns → selected ns c None (up_to c ns).
Proof using Type. intros Htop. split; [by apply prefix_part|]. intros n. rewrite elem_of_up_to. tauto. Qed.

Lemma view_run ns hs c : history dom d ns → valid_cut ns c (Some hs) →
  ∃ sel, view dom hs c st = (Ok (mkView (unique hs) sel), st) ∧ selected ns c (Some hs) sel.
Proof using Type.
  intros Hh [Hc Hhs]. simpl in Hhs. pose proof (hi_top _ _ _ Hh) as Htop.
  set (cut := foldl Z.max 0%Z hs). destruct (fold_max_spec hs 0%Z) as (H0 & Hmax & Hcase).
  assert (0 ≤ cut ≤ MAX_SAFE_INTEGER)%Z as Hcut.
  { split; [exact H0|]. unfold cut in *. destruct Hcase as [E|Hin]; [rewrite E; lia|]. apply Hhs in Hin. lia. }
  assert (∀ h, h ∈ hs → h ∈ seqs (up_to cut ns)) as Hknown.
  { intros h Hin. destruct (Hhs h Hin) as [(n & Hn & <-)%elem_of_seqs _]. apply elem_of_seqs. exists n.
    split; [|done]. apply elem_of_up_to. split; [done|]. by apply Hmax. }
  pose proof (prefix_part ns Htop cut) as Hpart. fold (up_to cut ns) in Hpart.
  pose proof (part_topological ns Htop _ Hpart) as Htop'.
  exists (select (closure (up_to cut ns) (list_to_set hs)) (up_to cut ns)). split.
  - unfold view, isSafeInteger. autorewrite with xio_run.
    rewrite bool_decide_true; [|lia]. rewrite bool_decide_false; [|lia]. cbn [negb orb].
    rewrite existsb_none.
    2:{ intros h Hin. destruct (Hhs h Hin) as [(n & Hn & <-)%elem_of_seqs Hle].
        pose proof (hi_bounds _ _ _ Hh n Hn). rewrite bool_decide_true; [|lia].
        rewrite !bool_decide_false; [done|lia..]. }
    autorewrite with xio_run. fold cut. rewrite (run_bind_Ok _ _ (up_to cut ns) _ st); [|by apply nodes_run].
    autorewrite with xio_run. rewrite existsb_none; [done|].
    intros h Hin. rewrite (bool_decide_true (h ∈ _)); [|by apply Hknown].
    destruct (Hhs h Hin) as [(n & Hn & <-)%elem_of_seqs Hle].
    pose proof (hi_bounds _ _ _ Hh n Hn). rewrite bool_decide_true; [done|lia].
  - split; [eapply part_trans; [by apply select_part|done]|].
    intros n. rewrite select_spec elem_of_topological_closure // elem_of_up_to. split.
    + intros [[Hn Hle] (h & Hin%elem_of_list_to_set & Hr)]. split; [done|].
      apply (part_reaches ns Htop _ _ _ Hpart) in Hr; [|by apply Hknown].
      split; [|by exists h]. apply (reaches_le ns Htop) in Hr. apply Hhs in Hin. lia.
    + intros (Hn & Hle & h & Hin & Hr). split.
      * split; [done|]. apply (reaches_le ns Htop) in Hr. specialize (Hmax h Hin). unfold cut. lia.
      * exists h. split; [by apply elem_of_list_to_set|].
        apply (part_reaches ns Htop _ _ _ Hpart); [by apply Hknown|done].
Qed.

Definition working_nodes (c : Z) (heads : option (list Z)) : SM (list CausalNode) :=
  match heads with None => nodes dom c | Some hs => v ← view dom hs c; mret (cv_nodes v) end.
Lemma working_run ns heads c : history dom d ns → valid_cut ns c heads →
  ∃ sel, working_nodes c heads st = (Ok sel, st) ∧ selected ns c heads sel.
Proof using Type.
  intros Hh Hv. destruct heads as [hs|].
  - destruct (view_run ns hs c Hh Hv) as (sel & Hrun & Hsel). exists sel. split; [|done].
    unfold working_nodes. by rewrite (run_bind_Ok _ _ _ _ _ Hrun).
  - exists (up_to c ns). split; [|by apply up_to_selected, (hi_top _ _ _ Hh)]. destruct Hv as [Hc _]. by apply nodes_run.
Qed.

Definition known_in (sel : list CausalNode) (changed : list Z) : bool :=
  negb (existsb (λ seq, negb (bool_decide (seq ∈ seqs sel))) changed).
Lemma known_in_spec sel changed : known_in sel changed = true → ∀ x, x ∈ changed → x ∈ seqs sel.
Proof using Type.
  intros Hk%negb_true_iff x Hx. destruct (decide (x ∈ seqs sel)) as [?|Hn]; [done|exfalso].
  apply not_true_iff_false in Hk. apply Hk, existsb_In. exists x. split; [done|]. by rewrite bool_decide_false.
Qed.

Lemma plan_run ns changed c heads : history dom d ns → valid_cut ns c heads →
  ∃ sel f, selected ns c heads sel ∧
    planRecomputation dom changed c heads st
    = (if known_in sel changed then Ok (plan_of f sel)
       else Throw (Err "Changed evidence is absent from this causal history"), st) ∧
    (known_in sel changed = true → ∀ n, n ∈ sel → f n = true ↔ affected ns changed (cn_seq n)).
Proof using Type.
  intros Hh Hv. destruct (working_run ns heads c Hh Hv) as (sel & Hrun & Hsel).
  pose proof (hi_top _ _ _ Hh) as Htop. destruct Hsel as [Hpart Hsel].
  pose proof (part_topological ns Htop _ Hpart) as Htop'.
  assert (∃ f, (known_in sel changed = true → (pass changed sel).2 = plan_of f sel) ∧
    (known_in sel changed = true → ∀ n, n ∈ sel → f n = true ↔ affected ns changed (cn_seq n))) as (f & Hp & Hf).
  { destruct (known_in sel changed) eqn:Hk; [|by exists (λ _, true)].
    destruct (plan_exact sel Htop' changed) as (f & Hp & Hf); [by apply known_in_spec|].
    exists f. split; [done|]. intros _ n Hn. rewrite Hf //. unfold affected.
    split; intros (c0 & Hc0 & Hr); exists c0; (split; [done|]);
      apply (part_reaches ns Htop sel _ _ Hpart) in Hr || (apply (part_reaches ns Htop sel _ _ Hpart)); try done;
      apply elem_of_seqs; eauto. }
  exists sel, f. split_and!; [by split| |done].
  unfold planRecomputation. fold (working_nodes c heads). rewrite (run_bind_Ok _ _ _ _ _ Hrun).
  autorewrite with xio_run. unfold known_in in Hp |- *. destruct (existsb _ changed); [done|].
  simpl. unfold pass in Hp. by rewrite Hp.
Qed.

Lemma ancestors_run ns seq : history dom d ns → seq ∈ seqs ns →
  ∃ sel, ancestors dom seq st = (Ok sel, st) ∧ part_of sel ns ∧
    ∀ n, n ∈ sel ↔ n ∈ ns ∧ tc (edge ns) (cn_seq n) seq.
Proof using Type.
  intros Hh Hseq. pose proof (hi_top _ _ _ Hh) as Htop.
  apply elem_of_seqs in Hseq as (target & Htarget & <-). pose proof (hi_bounds _ _ _ Hh _ Htarget) as Hb.
  pose proof (prefix_part ns Htop (cn_seq target)) as Hpart. fold (up_to (cn_seq target) ns) in Hpart.
  set (ns' := up_to (cn_seq target) ns) in *. pose proof (part_topological ns Htop _ Hpart) as Htop'.
  assert (target ∈ ns') as Ht by (apply elem_of_up_to; split; [done|lia]).
  exists (select (closure ns' (list_to_set (cn_dependsOn target))) ns'). split_and!.
  - unfold ancestors. rewrite (run_bind_Ok _ _ ns' _ st); [|apply nodes_run; [done|lia]].
    destruct (List.find _ ns') as [m|] eqn:Hf.
    + apply find_some in Hf as [Hm%list_elem_of_In E%bool_decide_eq_true].
      by rewrite (seq_injective ns' Htop' m target Hm Ht E).
    + exfalso. apply list_elem_of_In, (find_none _ _ Hf) in Ht. by apply bool_decide_eq_false in Ht.
  - eapply part_trans; [by apply select_part|done].
  - intros n. rewrite select_spec elem_of_topological_closure // elem_of_up_to. split.
    + intros [[Hn _] (h & Hin%elem_of_list_to_set & Hr)]. split; [done|].
      apply tc_rtc_l with h; [|constructor; by exists target].
      apply (part_reaches ns Htop _ _ _ Hpart); [by apply (part_closed _ _ Hpart target)|done].
    + intros [Hn Hr]. apply tc_last in Hr as (h & Hr1 & (m & Hm & E & Hh')).
      rewrite (seq_injective ns Htop m target Hm Htarget E) in Hh'.
      assert (h ∈ seqs ns') as Hin by by apply (part_closed _ _ Hpart target).
      split.
      * split; [done|]. apply (reaches_le ns Htop) in Hr1. pose proof (top_deps ns Htop _ _ Htarget Hh'). lia.
      * exists h. split; [by apply elem_of_list_to_set|]. by apply (part_reaches ns Htop _ _ _ Hpart).
Qed.

(** ** The paths of the invalidated part *)

Lemma affected_paths ns sel f changed s b p : topological ns → part_of sel ns →
  (∀ n, n ∈ sel → f n = true ↔ affected ns changed (cn_seq n)) → s ∈ changed →
  b ∈ seqs (List.filter f sel) → path_to (List.filter f sel) s b p ↔ path_to ns s b p.
Proof using Type.
  intros Htop Hpart Hf Hs Hb. split.
  - clear Hb. induction 1 as [|b c p _ IH (n & [Hn _]%elem_of_filter & E)]; econstructor; [exact IH|].
    exists n. split; [|exact E]. eapply sublist_subseteq; [by apply part_sub|done].
  - intros Hp. revert Hb. induction Hp as [|b c p Hp IH (n & Hn & <- & Hd)]; intros Hc; [constructor|].
    apply elem_of_seqs in Hc as (m & [Hm Hfm]%elem_of_filter & E).
    assert (m = n) as ->.
    { apply (seq_injective ns Htop); [|done..]. eapply sublist_subseteq; [by apply part_sub|done]. }
    econstructor; [apply IH|exists n; split_and!; [by apply elem_of_filter|done..]].
    pose proof (part_closed _ _ Hpart n b Hm Hd) as (k & Hk & <-)%elem_of_seqs.
    apply elem_of_seqs. exists k. split; [|done]. apply elem_of_filter. split; [done|]. apply Hf; [done|].
    exists s. split; [done|]. by eapply path_reaches.
Qed.
End Methods.

(** ** The theorems *)

Section Theorems.
Context `{Crypto} (dom : string) (d : Db) (epoch : option Z).
Notation st := (mkStore d epoch false).

(** C32. What is recorded reads back: when [record] returns a node, the later reads
    give the nodes read before followed by that node - its dependencies without
    repetition, its number the next of the journal - except that the properties
    of its arguments named like a secret are gone, at any depth; and the nodes
    stay in topological order: numbers grow and every dependency is an earlier
    node. When it throws nothing changes. *)
Theorem record_reads_back now step o s' :
  graph_reachable dom d → record dom now step st = (o, s') →
  match o with
  | Throw _ => s' = st
  | Ok n => cn_step n = dedup step ∧ cn_seq n = (db_journal_seq d + 1)%Z ∧
      ((cn_seq n ≤ MAX_SAFE_INTEGER)%Z → ∃ ns args',
        map_fields jsonValue (ob_args (cs_observation step)) = Ok args' ∧
        nodes dom MAX_SAFE_INTEGER st = (Ok ns, st) ∧
        (nodes dom MAX_SAFE_INTEGER s').1 = Ok (ns ++ [as_journaled args' n]) ∧
        topological (ns ++ [as_journaled args' n]))
  end.
Proof.
  intros Hr Hrun. destruct o as [n|e]; [|by apply record_run in Hrun].
  destruct (graph_history dom d Hr) as (ns & Hh). apply graph_reachable_db in Hr.
  destruct (history_record dom now epoch step d ns n s') as (Hseq & En & args' & Ha & Hh');
    [by apply journal_ok_reachable|by apply seq_positive|done..|].
  split_and!; [by rewrite En|done|]. intros Hle. rewrite bool_decide_true // in Hh'. exists ns, args'.
  assert (0 ≤ MAX_SAFE_INTEGER ≤ MAX_SAFE_INTEGER)%Z as Hmax by (unfold MAX_SAFE_INTEGER; lia).
  split_and!; [done| | |apply Hh'].
  - by rewrite (nodes_run _ _ _ _ _ _ Hh Hmax) (up_to_all _ _ _ Hh).
  - destruct s' as [d' e' t']. by rewrite (nodes_run _ _ _ _ _ _ Hh' Hmax) (up_to_all _ _ _ Hh').
Qed.

(** A view is the ancestry of its heads: for heads recorded by the cut, the
    nodes of the view are, in journal order, exactly those from which a chain of
    declared dependencies leads to a head, so that the view contains the
    dependencies of its nodes; and the ancestors of a node are those with such a
    chain of at least one step to it. *)
Theorem view_is_ancestry : graph_reachable dom d → ∃ ns,
  nodes dom MAX_SAFE_INTEGER st = (Ok ns, st) ∧
  (∀ heads c, valid_cut ns c (Some heads) → ∃ sel,
    view dom heads c st = (Ok (mkView (unique heads) sel), st) ∧ part_of sel ns ∧
    ∀ n, n ∈ sel ↔ n ∈ ns ∧ ∃ h, h ∈ heads ∧ reaches ns (cn_seq n) h) ∧
  (∀ seq, seq ∈ seqs ns → ∃ sel,
    ancestors dom seq st = (Ok sel, st) ∧ part_of sel ns ∧
    ∀ n, n ∈ sel ↔ n ∈ ns ∧ tc (edge ns) (cn_seq n) seq).
Proof.
  intros Hr. destruct (graph_history dom d Hr) as (ns & Hh). exists ns.
  assert (0 ≤ MAX_SAFE_INTEGER ≤ MAX_SAFE_INTEGER)%Z as Hmax by (unfold MAX_SAFE_INTEGER; lia).
  split_and!.
  - by rewrite (nodes_run _ _ _ _ _ _ Hh Hmax) (up_to_all _ _ _ Hh).
  - intros heads c Hv. destruct (view_run dom d epoch false ns heads c Hh Hv) as (sel & Hrun & Hpart & Hsel).
    exists sel. split_and!; [done..|]. intros n. rewrite Hsel. split; [tauto|].
    intros (Hn & h & Hin & Hreach). split_and!; [done| |by exists h].
    apply (reaches_le ns (hi_top _ _ _ Hh)) in Hreach. destruct Hv as [_ Hv]. specialize (Hv h Hin). lia.
  - intros seq Hseq. by apply (ancestors_run dom d epoch false).
Qed.

(** C22. Recomputation is reachability: on the nodes up to a cut, or on the view of
    some heads, [planRecomputation] refuses evidence that is not among them, and
    otherwise splits them, in journal order, into those a changed node reaches by
    declared dependencies - in the whole graph - and the others. *)
Theorem planRecomputation_exact : graph_reachable dom d → ∃ ns,
  nodes dom MAX_SAFE_INTEGER st = (Ok ns, st) ∧
  ∀ changed c heads, valid_cut ns c heads → ∃ sel f, selected ns c heads sel ∧
    planRecomputation dom changed c heads st
    = (if known_in sel changed then Ok (plan_of f sel)
       else Throw (Err "Changed evidence is absent from this causal history"), st) ∧
    (known_in sel changed = true →
      ∀ n, n ∈ sel → f n = true ↔ ∃ x, x ∈ changed ∧ reaches ns x (cn_seq n)).
Proof.
  intros Hr. destruct (graph_history dom d Hr) as (ns & Hh). exists ns. split.
  - rewrite (nodes_run _ _ _ _ _ _ Hh); [|unfold MAX_SAFE_INTEGER; lia]. by rewrite (up_to_all _ _ _ Hh).
  - intros changed c heads Hv. by apply (plan_run dom d epoch false).
Qed.

(** C24. Explanations are shortest paths: whenever [planRecomputation] returns,
    [explainRecomputation] returns the same plan with one explanation for each
    invalidated node, in order, whose causes are the changed nodes that reach it,
    each once and in ascending order, each with a chain of declared dependencies
    from that changed node to the invalidated one, both included, than which none
    is shorter. *)
Theorem explanations_are_shortest_paths : graph_reachable dom d → ∃ ns,
  nodes dom MAX_SAFE_INTEGER st = (Ok ns, st) ∧
  ∀ changed c heads plan, valid_cut ns c heads →
    planRecomputation dom changed c heads st = (Ok plan, st) → ∃ ex,
    explainRecomputation dom changed c heads st = (Ok (Some (mkExplained plan ex)), st) ∧
    map ex_nodeSeq ex = seqs (rp_invalidated plan) ∧
    ∀ e, e ∈ ex → StronglySorted Z.lt (map ca_changedSeq (ex_causes e)) ∧
      (∀ x, x ∈ map ca_changedSeq (ex_causes e) ↔ x ∈ changed ∧ reaches ns x (ex_nodeSeq e)) ∧
      ∀ cause, cause ∈ ex_causes e → shortest ns (ca_changedSeq cause) (ex_nodeSeq e) (ca_path cause).
Proof.
  intros Hr. destruct (graph_history dom d Hr) as (ns & Hh). pose proof (hi_top _ _ _ Hh) as Htop. exists ns. split.
  { rewrite (nodes_run _ _ _ _ _ _ Hh); [|unfold MAX_SAFE_INTEGER; lia]. by rewrite (up_to_all _ _ _ Hh). }
  intros changed c heads plan Hv Hplan.
  destruct (plan_run dom d epoch false ns changed c heads Hh Hv) as (sel & f & [Hpart Hsel] & Hrun & Hf).
  rewrite Hplan in Hrun. destruct (known_in sel changed) eqn:Hk; [|done]. injection Hrun as ->.
  specialize (Hf eq_refl). pose proof (known_in_spec sel changed Hk) as Hknown.
  pose proof (part_topological ns Htop sel Hpart) as Htop'. set (inv := List.filter f sel).
  assert (∀ s, s ∈ changed → s ∈ seqs inv) as Hinv.
  { intros s Hs. apply Hknown in Hs as Hs'. apply elem_of_seqs in Hs' as (n & Hn & <-). apply elem_of_seqs.
    exists n. split; [|done]. apply elem_of_filter. split; [done|]. apply Hf; [done|]. by exists (cn_seq n). }
  destruct (explain_returns (plan_of f sel) changed) as (ex & Hex & Hm & Hall);
    [by apply filter_ascending|exact Hinv|]. exists ex.
  split_and!; [by rewrite /explainRecomputation (run_bind_Ok _ _ _ _ _ Hplan) Hex|done|].
  intros e He. rewrite Forall_forall in Hall. destruct (Hall e He) as [Ho Hc Hp]. simpl in Hc, Hp.
  assert (ex_nodeSeq e ∈ seqs inv) as Hein by (rewrite -Hm; apply elem_of_map; by exists e).
  assert (∀ s p, s ∈ changed → path_to inv s (ex_nodeSeq e) p ↔ path_to ns s (ex_nodeSeq e) p) as Hpaths.
  { intros s p Hs. by apply (affected_paths ns sel f changed). }
  assert (∀ x, x ∈ seeds changed ↔ x ∈ changed) as Hseeds.
  { intros x. unfold seeds. by rewrite (merge_sort_Permutation Z.le (unique changed)) elem_of_unique. }
  assert (∀ x, x ∈ map ca_changedSeq (ex_causes e) → x ∈ changed) as Hch.
  { intros x Hx. apply Hc in Hx as [Hx _]. by apply Hseeds. }
  split_and!.
  - eapply sorted_sub; [exact Ho|]. apply sorted_seeds.
  - intros x. rewrite Hc Hseeds. split; intros [Hx Hr']; split; try done;
      apply reaches_path in Hr' as (p & Hp'); apply (path_reaches _ _ _ p); by apply Hpaths.
  - intros cause Hcause. assert (ca_changedSeq cause ∈ changed) as Hin.
    { apply Hch, elem_of_map. by exists cause. }
    destruct (Hp cause Hcause) as [H1 H2]. split; [by apply Hpaths|]. intros q Hq. apply H2. by apply Hpaths.
Qed.
End Theorems.

(** ** A diamond *)

Definition sample_step (deps : list Z) (hash : string) : CausalStep :=
  mkCausalStep "gateway:run-1" "agent" (mkObservation "observe" "read"
    [("path", JStr "a.ts"); ("apiKey", JStr "sk-1")] (Some hash) None) deps None.
Definition add_step (d : Db) (s : CausalStep) : Db := db (record "dom" 5 s (mkStore d None false)).2.
Definition sample_steps : list CausalStep :=
  [sample_step [] "h1"; sample_step [1%Z; 1%Z] "h2"; sample_step [1%Z] "h3"; sample_step [2%Z; 3%Z] "h4"].
Definition sample_graph : Db := Eval vm_compute in foldl add_step empty_db sample_steps.
Notation sample_store := (mkStore sample_graph None false).

Lemma add_step_reachable d s : graph_reachable (H := sample_crypto) "dom" d →
  graph_reachable (H := sample_crypto) "dom" (add_step d s).
Proof. intros Hd. eapply graph_next; [exact Hd|]. by eapply (graph_record _ _ _ 5 None s). Qed.
Lemma add_steps_reachable l d : graph_reachable (H := sample_crypto) "dom" d →
  graph_reachable (H := sample_crypto) "dom" (foldl add_step d l).
Proof. revert d. induction l as [|s l IH]; intros d Hd; [exact Hd|]. apply IH. by apply add_step_reachable. Qed.
Lemma sample_graph_reachable : graph_reachable (H := sample_crypto) "dom" sample_graph.
Proof.
  assert (foldl add_step empty_db sample_steps = sample_graph) as <- by (vm_compute; reflexivity).
  apply add_steps_reachable. constructor.
Qed.

Definition sample_nodes : list CausalNode := Eval vm_compute in
  match (nodes "dom" MAX_SAFE_INTEGER sample_store).1 with Ok l => l | Throw _ => [] end.
Lemma sample_read ns : nodes "dom" MAX_SAFE_INTEGER sample_store = (Ok ns, sample_store) → seqs ns = [1; 2; 3; 4]%Z.
Proof.
  assert (nodes "dom" MAX_SAFE_INTEGER sample_store = (Ok sample_nodes, sample_store)) as -> by (vm_compute; reflexivity).
  intros E. apply (f_equal fst) in E. cbn [fst] in E. injection E as <-. reflexivity.
Qed.
Lemma sample_cut ns heads : seqs ns = [1; 2; 3; 4]%Z → (∀ h, h ∈ default [] heads → h ∈ [1; 2; 3; 4]%Z) →
  valid_cut ns 4 heads.
Proof.
  intros E Hh. split; [unfold MAX_SAFE_INTEGER; lia|]. intros h Hin. rewrite E. specialize (Hh h Hin).
  split; [done|]. set_unfold in Hh. lia.
Qed.

Example record_reads_back_witness : ∃ n s', record "dom" 6 (sample_step [4%Z; 2%Z; 4%Z] "h5") sample_store = (Ok n, s') ∧
  cn_seq n = 5%Z ∧ cn_dependsOn n = [4; 2]%Z ∧
  ∃ ns args', (nodes "dom" MAX_SAFE_INTEGER s').1 = Ok (ns ++ [as_journaled args' n]) ∧ args' = [("path", JStr "a.ts")].
Proof.
  destruct (record "dom" 6 (sample_step [4%Z; 2%Z; 4%Z] "h5") sample_store) as [o s'] eqn:E.
  pose proof (record_reads_back (H := sample_crypto) "dom" sample_graph None 6 _ o s' sample_graph_reachable E) as Ht.
  destruct o as [n|e].
  - destruct Ht as (Hstep & Hseq & Hback). exists n, s'. split; [reflexivity|].
    assert (db_journal_seq sample_graph = 4%Z) as Hs4 by (vm_compute; reflexivity). rewrite Hs4 in Hseq.
    split; [exact Hseq|]. split; [unfold cn_dependsOn; rewrite Hstep; vm_compute; reflexivity|].
    destruct Hback as (ns & args' & Ha & _ & Hn & _); [rewrite Hseq; unfold MAX_SAFE_INTEGER; lia|].
    exists ns, args'. split; [exact Hn|]. vm_compute in Ha. injection Ha as <-. reflexivity.
  - exfalso. apply (f_equal fst) in E. vm_compute in E. discriminate E.
Defined.

Example view_is_ancestry_witness : ∃ ns sel,
  view "dom" [3%Z] 4 sample_store = (Ok (mkView [3%Z] sel), sample_store) ∧
  ∀ n, n ∈ sel ↔ n ∈ ns ∧ ∃ h, h ∈ [3%Z] ∧ reaches ns (cn_seq n) h.
Proof.
  destruct (view_is_ancestry (H := sample_crypto) "dom" sample_graph None sample_graph_reachable) as (ns & Hn & Hv & _).
  destruct (Hv [3%Z] 4%Z) as (sel & Hrun & _ & Hsel).
  - apply sample_cut; [by apply sample_read|set_solver].
  - exists ns, sel. split; [exact Hrun|exact Hsel].
Defined.

Example planRecomputation_exact_witness : ∃ ns sel f,
  seqs ns = [1; 2; 3; 4]%Z ∧ selected ns 4 None sel ∧
  planRecomputation "dom" [2%Z] 4 None sample_store
  = (if known_in sel [2%Z] then Ok (plan_of f sel)
     else Throw (Err "Changed evidence is absent from this causal history"), sample_store) ∧
  (planRecomputation "dom" [2%Z] 4 None sample_store).1
  = Ok (mkPlan (select {[2; 4]}%Z sample_nodes) (select {[1; 3]}%Z sample_nodes)).
Proof.
  destruct (planRecomputation_exact (H := sample_crypto) "dom" sample_graph None sample_graph_reachable) as (ns & Hn & Hp).
  apply sample_read in Hn. destruct (Hp [2%Z] 4%Z None) as (sel & f & Hsel & Hrun & _); [apply sample_cut; [exact Hn|set_solver]|].
  exists ns, sel, f. split; [exact Hn|]. split; [exact Hsel|]. split; [exact Hrun|vm_compute; reflexivity].
Defined.

Definition sample_explanations : list Explanation := Eval vm_compute in
  default [] (explain (mkPlan sample_nodes []) [2%Z; 1%Z]).
Example explanations_are_shortest_paths_witness : ∃ plan ex,
  explainRecomputation "dom" [2%Z; 1%Z] 4 None sample_store = (Ok (Some (mkExplained plan ex)), sample_store) ∧
  map ex_nodeSeq ex = [1; 2; 3; 4]%Z ∧
  List.last ex (mkExplanation 0 []) = mkExplanation 4 [mkCause 1 [1; 2; 4]; mkCause 2 [2; 4]]%Z.
Proof.
  destruct (explanations_are_shortest_paths (H := sample_crypto) "dom" sample_graph None sample_graph_reachable) as (ns & Hn & Hp).
  apply sample_read in Hn.
  destruct (Hp [2%Z; 1%Z] 4%Z None (mkPlan sample_nodes [])) as (ex & Hrun & Hm & _);
    [apply sample_cut; [exact Hn|set_solver]|vm_compute; reflexivity|].
  exists (mkPlan sample_nodes []), ex. split; [exact Hrun|].
  assert ((explainRecomputation "dom" [2%Z; 1%Z] 4 None sample_store).1
    = Ok (Some (mkExplained (mkPlan sample_nodes []) sample_explanations))) as E by (vm_compute; reflexivity).
  rewrite Hrun in E. injection E as ->. split; vm_compute; reflexivity.
Defined.
