(* ===== verification/Index.v ===== *)
(** * Index: the evidence a transaction keeps (src/src/workspace/incremental-index.ts)

    What a transaction has read, written and listed, with the coverage these
    observations have and a digest. An index is journaled as JSON and read back
    from there; a damaged one is not trusted. *)

From S2P Require Import Prelude Types Encode Config WorkTree Causal.

Definition WORKSPACE_INDEX_SCHEMA_VERSION : string := "xio/workspace-index/1".

Inductive WorkspaceIndexCoverage := ix_complete | ix_non_ignored | ix_declared_roots | ix_unknown.
#[export] Instance WorkspaceIndexCoverage_eq_dec : EqDecision WorkspaceIndexCoverage.
Proof. solve_decision. Defined.
Definition index_coverage_name (c : WorkspaceIndexCoverage) : string :=
  match c with
  | ix_complete => "complete" | ix_non_ignored => "non_ignored"
  | ix_declared_roots => "declared_roots" | ix_unknown => "unknown"
  end.

(** A set that is [null] was not observed. *)
Record WorkspaceIncrementalIndex := mkIndex {
  ix_root : string;
  ix_readSet : option (list string);
  ix_writeSet : list WriteEntry;
  ix_discoverySet : option (list string);
  ix_symbolSlice : option (list (string * string));
  ix_ignoredManifest : option string;
  ix_pathDependencies : option (list string);
  ix_coverage : WorkspaceIndexCoverage;
  ix_coverageBasis : list string;
  ix_digest : string;
}.
Record WorkspaceIncrementalIndexInput := mkIndexInput {
  ii_root : string;
  ii_readSet : option (list string);
  ii_writeSet : list WriteEntry;
  ii_discoverySet : option (list string);
  ii_symbolSlice : option (list (string * string));
  ii_ignoredManifest : option string;
  ii_pathDependencies : option (list string);
  ii_coverageNotes : list string;
}.

Definition uniqueSorted (values : option (list string)) : option (list string) :=
  (λ l, sort_strings (js_set l)) <$> values.

Definition entry_le (a b : string * string) : Prop := string_le a.1 b.1.
#[export] Instance entry_le_dec a b : Decision (entry_le a b).
Proof. unfold entry_le. apply _. Defined.
Definition stableSymbolSlice (value : option (list (string * string))) : option (list (string * string)) :=
  merge_sort entry_le <$> value.

Definition write_le (a b : WriteEntry) : Prop :=
  if bool_decide (we_path a = we_path b) then string_le (status_name (we_status a)) (status_name (we_status b))
  else string_le (we_path a) (we_path b).
#[export] Instance write_le_dec a b : Decision (write_le a b).
Proof. unfold write_le. destruct (bool_decide _); apply _. Defined.
Definition normalizeWriteSet (values : list WriteEntry) : list WriteEntry := merge_sort write_le values.

(** ** JSON *)

Definition jnull {A} (f : A → jsval) (o : option A) : jsval := match o with Some a => f a | None => JNull end.
Definition index_body (i : WorkspaceIncrementalIndex) : list (string * jsval) :=
  [("schemaVersion", JStr WORKSPACE_INDEX_SCHEMA_VERSION); ("root", JStr (ix_root i));
   ("readSet", jnull js_strings (ix_readSet i));
   ("writeSet", JArr (map js_write (ix_writeSet i)));
   ("discoverySet", jnull js_strings (ix_discoverySet i));
   ("symbolSlice", jnull (λ l, JObj (map (λ kv, (kv.1, JStr kv.2)) l)) (ix_symbolSlice i));
   ("ignoredManifest", jnull JStr (ix_ignoredManifest i));
   ("pathDependencies", jnull js_strings (ix_pathDependencies i));
   ("coverage", JStr (index_coverage_name (ix_coverage i)));
   ("coverageBasis", js_strings (ix_coverageBasis i))].
Definition js_index (i : WorkspaceIncrementalIndex) : jsval :=
  JObj (index_body i ++ [("digest", JStr (ix_digest i))]).

(** Reading a value the digest has vouched for. *)
Definition nullable {A} (f : jsval → option A) (o : option jsval) : option (option A) :=
  match o with Some JNull => Some None | Some v => Some <$> f v | None => None end.
Definition strings_back (v : jsval) : option (list string) := l ← as_array v; mapM as_string l.
Definition slice_back (v : jsval) : option (list (string * string)) :=
  fs ← as_record v; mapM (λ kv, s ← as_string kv.2; Some (kv.1, s)) fs.
Definition index_coverage_of (s : string) : option WorkspaceIndexCoverage :=
  List.find (λ c, bool_decide (index_coverage_name c = s)) [ix_complete; ix_non_ignored; ix_declared_roots; ix_unknown].
Definition index_of (v : jsval) : option WorkspaceIncrementalIndex :=
  root ← jfield v "root" ≫= as_string;
  readSet ← nullable strings_back (jfield v "readSet");
  writes ← jfield v "writeSet" ≫= as_array;
  writeSet ← mapM write_of writes;
  discoverySet ← nullable strings_back (jfield v "discoverySet");
  symbolSlice ← nullable slice_back (jfield v "symbolSlice");
  ignoredManifest ← nullable as_string (jfield v "ignoredManifest");
  pathDependencies ← nullable strings_back (jfield v "pathDependencies");
  coverage ← (jfield v "coverage" ≫= as_string) ≫= index_coverage_of;
  coverageBasis ← jfield v "coverageBasis" ≫= strings_back;
  digest ← jfield v "digest" ≫= as_string;
  Some (mkIndex root readSet writeSet discoverySet symbolSlice ignoredManifest pathDependencies
    coverage coverageBasis digest).

Section Index.
Context `{Crypto}.

Definition workspaceIndexDigest (body : list (string * jsval)) : string := sha256_json (JObj body).

Definition buildWorkspaceIncrementalIndex (input : WorkspaceIncrementalIndexInput) : WorkspaceIncrementalIndex :=
  let readSet := uniqueSorted (ii_readSet input) in
  let discoverySet := uniqueSorted (ii_discoverySet input) in
  let pathDependencies := uniqueSorted (ii_pathDependencies input) in
  let symbolSlice := stableSymbolSlice (ii_symbolSlice input) in
  let missing :=
    (if is_undef readSet then ["read_set_unobserved"] else [])
    ++ (if is_undef discoverySet then ["discovery_set_unobserved"] else [])
    ++ (if is_undef pathDependencies then ["path_dependencies_unobserved"] else []) in
  let captured := truthy_opt (ii_ignoredManifest input) in
  let coverage :=
    match missing with _ :: _ => ix_unknown | [] => if captured then ix_complete else ix_non_ignored end in
  let coverageBasis :=
    (match missing with _ :: _ => missing
     | [] => ["read_set_observed"; "discovery_set_scanned"; "path_dependencies_scanned"] end)
    ++ (if captured then ["ignored_manifest_captured"] else ["ignored_manifest_not_captured"])
    ++ (match symbolSlice with Some _ => ["symbol_slice_declared"] | None => ["symbol_slice_not_declared"] end)
    ++ ii_coverageNotes input in
  let body := mkIndex (ii_root input) readSet (normalizeWriteSet (ii_writeSet input)) discoverySet symbolSlice
    (ii_ignoredManifest input) pathDependencies coverage coverageBasis "" in
  mkIndex (ix_root body) (ix_readSet body) (ix_writeSet body) (ix_discoverySet body) (ix_symbolSlice body)
    (ix_ignoredManifest body) (ix_pathDependencies body) (ix_coverage body) (ix_coverageBasis body)
    (workspaceIndexDigest (index_body body)).

Definition mergeNullableSets (previous current : option (list string)) : option (list string) :=
  match previous, current with
  | Some previous, Some current => uniqueSorted (Some (previous ++ current))
  | _, _ => None
  end.

Definition mergeWorkspaceIncrementalIndex (previous : option WorkspaceIncrementalIndex)
    (current : WorkspaceIncrementalIndex) : WorkspaceIncrementalIndex :=
  match previous with
  | None => current
  | Some previous => buildWorkspaceIncrementalIndex {|
      ii_root := ix_root current;
      ii_readSet := mergeNullableSets (ix_readSet previous) (ix_readSet current);
      ii_writeSet := ix_writeSet current;
      ii_discoverySet := mergeNullableSets (ix_discoverySet previous) (ix_discoverySet current);
      ii_symbolSlice := nullish_opt (ix_symbolSlice previous) (ix_symbolSlice current);
      ii_ignoredManifest := nullish_opt (ix_ignoredManifest previous) (ix_ignoredManifest current);
      ii_pathDependencies := mergeNullableSets (ix_pathDependencies previous) (ix_pathDependencies current);
      ii_coverageNotes := [] |}
  end.

(** [parseWorkspaceIncrementalIndex(value)]; the digest is that of the other
    properties, in their order. *)
Definition parseWorkspaceIncrementalIndex (value : option jsval) : option WorkspaceIncrementalIndex :=
  match value with
  | Some (JObj fs as candidate) =>
      match jfield candidate "schemaVersion" ≫= as_string, jfield candidate "digest" ≫= as_string,
            jfield candidate "root" ≫= as_string, jfield candidate "writeSet" ≫= as_array with
      | Some version, Some digest, Some _, Some _ =>
          if bool_decide (version = WORKSPACE_INDEX_SCHEMA_VERSION)
             && bool_decide (workspaceIndexDigest (jm_delete fs "digest") = digest)
          then index_of candidate else None
      | _, _, _, _ => None
      end
  | _ => None
  end.
End Index.
