(* ===== verification/IndexSpec.v ===== *)
(** * IndexSpec: an index through the journal, and merging

    The journal redacts what it stores. An index whose symbols are not named like a
    secret comes back as it was; otherwise its digest no longer fits. *)

From S2P Require Import Prelude Types Events Encode Config Store StoreCalls Samples WorkTree Causal CausalSpec CausalRecord Index.

(** ** The journaled form *)

Definition kept (l : list (string * string)) : list (string * string) :=
  List.filter (λ kv, negb (SECRET_KEY kv.1)) l.
Definition with_slice (s : option (list (string * string))) (i : WorkspaceIncrementalIndex) : WorkspaceIncrementalIndex :=
  mkIndex (ix_root i) (ix_readSet i) (ix_writeSet i) (ix_discoverySet i) s (ix_ignoredManifest i)
    (ix_pathDependencies i) (ix_coverage i) (ix_coverageBasis i) (ix_digest i).
Definition journaled (i : WorkspaceIncrementalIndex) : WorkspaceIncrementalIndex :=
  with_slice (kept <$> ix_symbolSlice i) i.

Lemma kept_all l : (∀ k h, (k, h) ∈ l → SECRET_KEY k = false) → kept l = l.
Proof.
  induction l as [|[k v] l IH]; intros Hk; [done|]. unfold kept in *. simpl. rewrite (Hk k v ltac:(left)) /=.
  rewrite IH //. intros k' v' Hin. apply (Hk k' v'). by right.
Qed.

Lemma json_strings l : jsonValue (js_strings l) = Ok (js_strings l).
Proof.
  change (jsonValue (js_strings l)) with (l' ← map_outcome jsonValue (map JStr l); Ok (JArr l')).
  assert (map_outcome jsonValue (map JStr l) = Ok (map JStr l)) as ->; [|done].
  induction l as [|s l IH]; [done|]. simpl in *. by rewrite IH.
Qed.
Lemma json_nullable {A} (f : A → jsval) o : (∀ a, jsonValue (f a) = Ok (f a)) → jsonValue (jnull f o) = Ok (jnull f o).
Proof. intros Hf. destruct o; [apply Hf|done]. Qed.
Lemma json_slice l : jsonValue (JObj (map (λ kv, (kv.1, JStr kv.2)) l))
  = Ok (JObj (map (λ kv, (kv.1, JStr kv.2)) (kept l))).
Proof.
  change (jsonValue (JObj (map (λ kv, (kv.1, JStr kv.2)) l))) with
    (fs ← map_fields jsonValue (map (λ kv, (kv.1, JStr kv.2)) l); Ok (JObj fs)).
  assert (map_fields jsonValue (map (λ kv, (kv.1, JStr kv.2)) l) = Ok (map (λ kv, (kv.1, JStr kv.2)) (kept l))) as ->; [|done].
  induction l as [|[k v] l IH]; [done|]. simpl in *. destruct (SECRET_KEY k); simpl; by rewrite IH.
Qed.

Lemma js_index_journaled i : jsonValue (js_index i) = Ok (js_index (journaled i)).
Proof.
  destruct i as [root reads writes disc slice man deps cov basis digest]. unfold js_index, index_body.
  cbn [ix_root ix_readSet ix_writeSet ix_discoverySet ix_symbolSlice ix_ignoredManifest ix_pathDependencies
    ix_coverage ix_coverageBasis ix_digest app journaled with_slice].
  set (fs := [_; _; _; _; _; _; _; _; _; _; _]).
  change (jsonValue (JObj fs)) with (fs' ← map_fields jsonValue fs; Ok (JObj fs')). unfold fs.
  keep. keep. rewrite keep_field; [|vm_compute; reflexivity|by destruct reads].
  rewrite (json_nullable js_strings reads); [|apply json_strings].
  keep. change (jsonValue (JArr (map js_write writes))) with (l ← map_outcome jsonValue (map js_write writes); Ok (JArr l)).
  rewrite json_writes. rewrite keep_field; [|vm_compute; reflexivity|by destruct disc].
  rewrite (json_nullable js_strings disc); [|apply json_strings].
  rewrite keep_field; [|vm_compute; reflexivity|by destruct slice].
  assert (jsonValue (jnull (λ l, JObj (map (λ kv, (kv.1, JStr kv.2)) l)) slice)
    = Ok (jnull (λ l, JObj (map (λ kv, (kv.1, JStr kv.2)) l)) (kept <$> slice))) as ->.
  { destruct slice; [apply json_slice|done]. }
  rewrite keep_field; [|vm_compute; reflexivity|by destruct man].
  rewrite (json_nullable JStr man); [|done].
  rewrite keep_field; [|vm_compute; reflexivity|by destruct deps].
  rewrite (json_nullable js_strings deps); [|apply json_strings].
  do 3 keep. rewrite json_strings. done.
Qed.

Lemma strings_read l : strings_back (js_strings l) = Some l.
Proof.
  unfold strings_back, js_strings. simpl. induction l as [|s l IH]; [done|]. simpl in *. by rewrite IH.
Qed.
Lemma nullable_read {A} (f : A → jsval) (g : jsval → option A) o :
  (∀ a, g (f a) = Some a ∧ f a ≠ JNull) → nullable g (Some (jnull f o)) = Some o.
Proof.
  intros Hg. destruct o as [a|]; [|done]. simpl. destruct (Hg a) as [E Hn].
  destruct (f a); simpl; by [rewrite E|].
Qed.
Lemma slice_read l : slice_back (JObj (map (λ kv, (kv.1, JStr kv.2)) l)) = Some l.
Proof.
  unfold slice_back. simpl. induction l as [|[k v] l IH]; [done|]. simpl in *. by rewrite IH.
Qed.

Lemma index_reads_back i : index_of (js_index i) = Some i.
Proof.
  destruct i as [root reads writes disc slice man deps cov basis digest]. unfold index_of, js_index, index_body.
  cbn [ix_root ix_readSet ix_writeSet ix_discoverySet ix_symbolSlice ix_ignoredManifest ix_pathDependencies
    ix_coverage ix_coverageBasis ix_digest app].
  assert (∀ l, strings_back (js_strings l) = Some l ∧ js_strings l ≠ JNull) as Hs by (intros l; split; [apply strings_read|done]).
  set (v := JObj _).
  assert (jfield v "root" = Some (JStr root)) as -> by reflexivity.
  assert (jfield v "readSet" = Some (jnull js_strings reads)) as -> by reflexivity.
  assert (jfield v "writeSet" = Some (JArr (map js_write writes))) as -> by reflexivity.
  assert (jfield v "discoverySet" = Some (jnull js_strings disc)) as -> by reflexivity.
  assert (jfield v "symbolSlice" = Some (jnull (λ l, JObj (map (λ kv, (kv.1, JStr kv.2)) l)) slice)) as -> by reflexivity.
  assert (jfield v "ignoredManifest" = Some (jnull JStr man)) as -> by reflexivity.
  assert (jfield v "pathDependencies" = Some (jnull js_strings deps)) as -> by reflexivity.
  assert (jfield v "coverage" = Some (JStr (index_coverage_name cov))) as -> by reflexivity.
  assert (jfield v "coverageBasis" = Some (js_strings basis)) as -> by reflexivity.
  assert (jfield v "digest" = Some (JStr digest)) as -> by reflexivity.
  cbn [mbind option_bind as_string as_array]. rewrite !(nullable_read js_strings) //. cbn [mbind option_bind].
  rewrite writes_back. cbn [mbind option_bind].
  rewrite (nullable_read _ slice_back); [|intros l; split; [apply slice_read|done]]. cbn [mbind option_bind].
  rewrite (nullable_read JStr as_string) //. cbn [mbind option_bind]. rewrite strings_read. by destruct cov.
Qed.

(** ** The theorem *)

Section Index.
Context `{Crypto}.

(** A sound index: its digest is that of its other properties. *)
Definition sealed (i : WorkspaceIncrementalIndex) : Prop := ix_digest i = workspaceIndexDigest (index_body i).

Lemma build_sealed input : sealed (buildWorkspaceIncrementalIndex input).
Proof using Type. done. Qed.

Lemma parse_journaled i : parseWorkspaceIncrementalIndex (Some (js_index i)) =
  if bool_decide (workspaceIndexDigest (index_body i) = ix_digest i) then Some i else None.
Proof using Type.
  unfold parseWorkspaceIncrementalIndex, js_index.
  assert (jm_delete (index_body i ++ [("digest", JStr (ix_digest i))]) "digest" = index_body i) as -> by reflexivity.
  set (v := JObj _).
  assert (jfield v "schemaVersion" ≫= as_string = Some WORKSPACE_INDEX_SCHEMA_VERSION) as -> by reflexivity.
  assert (jfield v "root" ≫= as_string = Some (ix_root i)) as -> by reflexivity.
  assert (jfield v "writeSet" ≫= as_array = Some (map js_write (ix_writeSet i))) as -> by reflexivity.
  assert (jfield v "digest" ≫= as_string = Some (ix_digest i)) as -> by reflexivity.
  rewrite (bool_decide_true (WORKSPACE_INDEX_SCHEMA_VERSION = WORKSPACE_INDEX_SCHEMA_VERSION)) //.
  case_bool_decide; [|done]. apply index_reads_back.
Qed.

(** An index through the journal: the journal stores the index less the symbols
    named like a secret, and reading it gives exactly that when the stored digest is
    the digest of what is stored - so the very index when no symbol is dropped - and
    nothing otherwise. *)
Theorem index_through_the_journal input : let i := buildWorkspaceIncrementalIndex input in
  ∃ v, jsonValue (js_index i) = Ok v ∧
    parseWorkspaceIncrementalIndex (Some v)
    = (if bool_decide (workspaceIndexDigest (index_body (journaled i)) = ix_digest i) then Some (journaled i) else None) ∧
    ((∀ k h, (k, h) ∈ default [] (ix_symbolSlice i) → SECRET_KEY k = false) →
      parseWorkspaceIncrementalIndex (Some v) = Some i).
Proof using Type.
  intros i. exists (js_index (journaled i)). split; [apply js_index_journaled|].
  assert (parseWorkspaceIncrementalIndex (Some (js_index (journaled i)))
    = (if bool_decide (workspaceIndexDigest (index_body (journaled i)) = ix_digest i) then Some (journaled i) else None)) as Hp
    by exact (parse_journaled (journaled i)).
  split; [exact Hp|]. intros Hk. rewrite Hp.
  assert (journaled i = i) as E.
  2:{ rewrite !E bool_decide_true; [done|]. symmetry. apply (build_sealed input). }
  clear Hp. unfold journaled. destruct i as [root reads writes disc [l|] man deps cov basis digest]; [|done].
  simpl in Hk. unfold with_slice. simpl. by rewrite (kept_all l Hk).
Qed.

(** ** Merging *)

Definition observed (o : option (list string)) (x : string) : Prop := ∃ l, o = Some l ∧ x ∈ l.

Lemma uniqueSorted_spec o : match uniqueSorted o with
  | Some l => Sorted string_le l ∧ NoDup l ∧ ∀ x, x ∈ l ↔ observed o x
  | None => o = None end.
Proof using Type.
  destruct o as [l|]; [|done]. simpl. unfold sort_strings. split_and!.
  - apply Sorted_merge_sort. intros a b. unfold string_le. by apply String.leb_total.
  - rewrite merge_sort_Permutation. apply NoDup_foldl_js_add. constructor.
  - intros x. rewrite merge_sort_Permutation elem_of_js_set. unfold observed. naive_solver.
Qed.

Lemma merge_sets_spec a b : match mergeNullableSets a b with
  | Some l => Sorted string_le l ∧ NoDup l ∧ is_Some a ∧ is_Some b ∧ ∀ x, x ∈ l ↔ observed a x ∨ observed b x
  | None => a = None ∨ b = None end.
Proof using Type.
  destruct a as [a|], b as [b|]; simpl; [|by right|by left..].
  destruct (uniqueSorted_spec (Some (a ++ b))) as (H1 & H2 & H3). split_and!; [done|done|done|done|].
  intros x. rewrite H3. unfold observed. split.
  - intros (l & [= <-] & [?|?]%elem_of_app); [left|right]; eauto.
  - intros [(l & [= <-] & ?)|(l & [= <-] & ?)]; eexists; (split; [done|]); apply elem_of_app; [by left|by right].
Qed.

Lemma uniqueSorted_undef o : is_undef (uniqueSorted o) = is_undef o.
Proof using Type. by destruct o. Qed.
Lemma uniqueSorted_members o x : observed (uniqueSorted o) x ↔ observed o x.
Proof using Type.
  pose proof (uniqueSorted_spec o) as Hs. destruct (uniqueSorted o) as [l|] eqn:E.
  - destruct Hs as (_ & _ & Hs). rewrite -Hs. unfold observed. naive_solver.
  - subst o. unfold observed. naive_solver.
Qed.
Lemma build_coverage input : ix_coverage (buildWorkspaceIncrementalIndex input) =
  if is_undef (ii_readSet input) || is_undef (ii_discoverySet input) || is_undef (ii_pathDependencies input)
  then ix_unknown else if truthy_opt (ii_ignoredManifest input) then ix_complete else ix_non_ignored.
Proof using Type.
  unfold buildWorkspaceIncrementalIndex. cbn [ix_coverage]. rewrite !uniqueSorted_undef.
  by destruct (is_undef (ii_readSet input)), (is_undef (ii_discoverySet input)), (is_undef (ii_pathDependencies input)).
Qed.
Lemma merge_undef a b : is_undef (mergeNullableSets a b) = is_undef a || is_undef b.
Proof using Type. by destruct a, b. Qed.

(** Merging accumulates: the merged index is sealed; a path is in one of its
    three observed sets exactly when both indexes observed that set and one of them
    has the path; its writes are those of the current index; and its coverage is
    unknown as soon as a set was not observed in either index. *)
Theorem merge_accumulates p c : let m := mergeWorkspaceIncrementalIndex (Some p) c in
  sealed m ∧
  (∀ get, get ∈ [ix_readSet; ix_discoverySet; ix_pathDependencies] →
    (is_Some (get m) ↔ is_Some (get p) ∧ is_Some (get c)) ∧
    (is_Some (get m) → ∀ x, observed (get m) x ↔ observed (get p) x ∨ observed (get c) x)) ∧
  (∀ w, w ∈ ix_writeSet m ↔ w ∈ ix_writeSet c) ∧
  (ix_coverage m = ix_unknown ↔
    ∃ get, get ∈ [ix_readSet; ix_discoverySet; ix_pathDependencies] ∧ (get p = None ∨ get c = None)).
Proof using Type.
  intros m. split; [done|]. split_and!.
  - intros get Hget. assert (get m = uniqueSorted (mergeNullableSets (get p) (get c))) as E.
    { repeat (apply elem_of_cons in Hget as [->|Hget]; [done|]). by apply not_elem_of_nil in Hget. }
    rewrite E. pose proof (merge_sets_spec (get p) (get c)) as Hm. split.
    + destruct (get p), (get c); simpl; (split; [intros [? ?]; done|]); try (by intros [[? ?] [? ?]]); by eexists.
    + intros Hs x. rewrite uniqueSorted_members. destruct (mergeNullableSets (get p) (get c)) as [l|].
      * destruct Hm as (_ & _ & _ & _ & Hm). rewrite -Hm. unfold observed. naive_solver.
      * by destruct Hs.
  - intros w. unfold m. simpl. unfold normalizeWriteSet. by rewrite merge_sort_Permutation.
  - unfold m. simpl mergeWorkspaceIncrementalIndex. rewrite build_coverage. cbn [ii_readSet ii_discoverySet ii_pathDependencies].
    rewrite !merge_undef.
    assert (∀ (x y : option (list string)), is_undef x || is_undef y = true ↔ x = None ∨ y = None) as Hu
      by (intros [?|] [?|]; simpl; naive_solver).
    destruct (is_undef (ix_readSet p) || is_undef (ix_readSet c)) eqn:E1;
      [|destruct (is_undef (ix_discoverySet p) || is_undef (ix_discoverySet c)) eqn:E2;
        [|destruct (is_undef (ix_pathDependencies p) || is_undef (ix_pathDependencies c)) eqn:E3]]; simpl;
      repeat match goal with E : _ = true |- _ => apply Hu in E end.
    + split; [intros _|done]. exists ix_readSet. split; [left|done].
    + split; [intros _|done]. exists ix_discoverySet. split; [right; left|done].
    + split; [intros _|done]. exists ix_pathDependencies. split; [right; right; left|done].
    + split; [by case_match|]. intros (get & Hget & Hn%Hu). exfalso.
      repeat (apply elem_of_cons in Hget as [->|Hget]; [congruence|]). by apply not_elem_of_nil in Hget.
Qed.
End Index.

(** A manifest the host declares unprovable ([null]) comes back from the earlier
    index, and a failed scan is no longer noted. *)
Example merge_revives_the_manifest :
  let built man notes := buildWorkspaceIncrementalIndex (H := sample_crypto)
    (mkIndexInput "/w" (Some []) [] (Some []) None man (Some []) notes) in
  let m := mergeWorkspaceIncrementalIndex (H := sample_crypto) (Some (built (Some "digest") []))
    (built None ["workspace_scan_failed"]) in
  ix_coverage m = ix_complete ∧ "workspace_scan_failed" ∉ ix_coverageBasis m.
Proof. vm_compute. split; [reflexivity|]. intros H. set_solver. Qed.
