(* ===== verification/Observations.v ===== *)
(** * Observations: revalidating a recorded log (src/src/workspace/observation-replay.ts)

    A log of observations and changes is run again on a fork: a result that differs
    stops the replay, unless what the later steps depend on is shown to be the
    same. The host replays a step on the state [S]; it may throw. *)

From S2P Require Import Prelude Types Events Causal.

(** ** The replay *)

Inductive RawOutcome :=
| raw_hash (resultHash : string)
| raw_void
| raw_outcome (resultHash cutoffHash : option string) (cutoff : option bool).

Record StepOutcome := mkStepOutcome { so_resultHash : option string; so_cutoffHash : option string; so_cutoff : bool }.
Definition normalizeStepOutcome (raw : RawOutcome) : StepOutcome :=
  match raw with
  | raw_hash h => mkStepOutcome (Some h) None false
  | raw_void => mkStepOutcome None None false
  | raw_outcome h c b => mkStepOutcome h c (bool_decide (b = Some true))
  end.

Inductive DivergenceReason := observation_changed | mutation_not_applicable.
#[export] Instance DivergenceReason_eq_dec : EqDecision DivergenceReason.
Proof. solve_decision. Defined.

(** [cutoffSteps] is the length of [cutoffIndices]; both are left out when it is 0. *)
Inductive ObservationReplayResult :=
| replay_matched (matchedSteps : nat) (cutoffIndices : list nat)
| replay_diverged (divergedAt : nat) (reason : DivergenceReason) (threw : bool) (cutoffIndices : list nat).

Record ObservationValidation (S : Type) := mkValidation {
  ov_log : list ObservationEntry;
  ov_replay : ObservationEntry → string → ST error S RawOutcome;
  ov_canCutoff : option (ObservationEntry → StepOutcome → nat → string → ST error S bool);
}.
Arguments mkValidation {S}.
Arguments ov_log {S}.
Arguments ov_replay {S}.
Arguments ov_canCutoff {S}.

Section Replay.
Context {S : Type} (o : ObservationValidation S) (root : string).

(** The body of the [try]: is the step as recorded, cut off, or changed? *)
Inductive StepVerdict := step_same | step_cutoff | step_changed.

Definition replay_step (i : nat) (entry : ObservationEntry) : ST error S StepVerdict :=
  raw ← ov_replay o entry root;
  let seen := normalizeStepOutcome raw in
  if (bool_decide (ob_kind entry = "observe") || negb (is_undef (ob_resultHash entry)))
     && negb (bool_decide (so_resultHash seen = ob_resultHash entry))
  then
    let hashCutoff := negb (is_undef (ob_cutoffHash entry)) && negb (is_undef (so_cutoffHash seen))
      && bool_decide (so_cutoffHash seen = ob_cutoffHash entry) in
    callbackCutoff ← match ov_canCutoff o with
      | Some canCutoff =>
          if negb (so_cutoff seen) && negb hashCutoff then canCutoff entry seen i root else mret false
      | None => mret false
      end;
    mret (if so_cutoff seen || hashCutoff || callbackCutoff then step_cutoff else step_changed)
  else mret step_same.

Fixpoint replay_from (i : nat) (cutoffIndices : list nat) (log : list ObservationEntry) (s : S)
  : ObservationReplayResult * S :=
  match log with
  | [] => (replay_matched i cutoffIndices, s)
  | entry :: log' =>
      match replay_step i entry s with
      | (Ok step_same, s') => replay_from (1 + i) cutoffIndices log' s'
      | (Ok step_cutoff, s') => replay_from (1 + i) (cutoffIndices ++ [i]) log' s'
      | (Ok step_changed, s') => (replay_diverged i observation_changed false cutoffIndices, s')
      | (Throw _, s') => (replay_diverged i
          (if bool_decide (ob_kind entry = "mutate") then mutation_not_applicable else observation_changed)
          true cutoffIndices, s')
      end
  end.
Definition replayObservationLog : S → ObservationReplayResult * S := replay_from 0 [] (ov_log o).
End Replay.

(** ** Projections of text *)

Definition newline : ascii := "010"%char.
Fixpoint split_on (c : ascii) (s : string) : list string :=
  match s with
  | EmptyString => [""]
  | String a t =>
      if bool_decide (a = c) then "" :: split_on c t
      else match split_on c t with seg :: rest => String a seg :: rest | [] => [String a ""] end
  end.
Fixpoint join_lines (l : list string) : string :=
  match l with
  | [] => ""
  | [s] => s
  | s :: l' => s +:+ String newline (join_lines l')
  end.
Fixpoint trim_left (s : string) : string :=
  match s with String a t => if is_space a then trim_left t else s | EmptyString => "" end.
Fixpoint trim_right (s : string) : string :=
  match s with
  | EmptyString => ""
  | String a t => if is_space a && blank t then "" else String a (trim_right t)
  end.
Definition trim (s : string) : string := trim_right (trim_left s).

(** [line.replace(/^\s*\d+\|/, '')] *)
Fixpoint after_number (seen : bool) (s : string) : option string :=
  match s with
  | String a t =>
      if is_digit a then after_number true t
      else if seen && bool_decide (a = "|"%char) then Some t else None
  | EmptyString => None
  end.
Definition strip_number (line : string) : string := nullish (after_number false (trim_left line)) line.

(** The copy of a literal up to its closing quote, and the rest of the source. *)
Fixpoint copy_literal (quote : ascii) (escaped : bool) (s : string) : string * string :=
  match s with
  | EmptyString => ("", "")
  | String c t =>
      if negb escaped && bool_decide (c = quote) then (String c "", t)
      else let '(lit, rest) := copy_literal quote (negb escaped && bool_decide (c = "\"%char)) t in
           (String c lit, rest)
  end.
Fixpoint skip_line (s : string) : string :=
  match s with
  | EmptyString => ""
  | String c t => if bool_decide (c = newline) then s else skip_line t
  end.
Fixpoint skip_block (s : string) : string :=
  match s with
  | EmptyString => ""
  | String c t =>
      match t with
      | String d u => if bool_decide (c = "*"%char) && bool_decide (d = "/"%char) then u else skip_block t
      | EmptyString => ""
      end
  end.
Definition is_quote (a : ascii) : bool := one_of ["'"%char; "034"%char; "`"%char] a.

(** Each round takes at least one character: the length is fuel enough. *)
Fixpoint strip_comments (fuel : nat) (s : string) : string :=
  match fuel, s with
  | O, _ | _, EmptyString => ""
  | S fuel', String ch t =>
      if is_quote ch then
        let '(lit, rest) := copy_literal ch false t in String ch (lit +:+ strip_comments fuel' rest)
      else match t with
      | String next u =>
          if bool_decide (ch = "/"%char) && bool_decide (next = "/"%char) then strip_comments fuel' (skip_line u)
          else if bool_decide (ch = "/"%char) && bool_decide (next = "*"%char) then strip_comments fuel' (skip_block u)
          else String ch (strip_comments fuel' t)
      | EmptyString => String ch ""
      end
  end.
Definition stripCommentsPreservingStrings (source : string) : string :=
  strip_comments (String.length source) source.

Definition nonempty_lines (text : string) : list string :=
  List.filter (λ l, negb (bool_decide (l = ""))) (map trim (split_on newline text)).

(** [\b] between two characters, the outside being no word character. *)
Definition is_word (o : option ascii) : bool :=
  match o with Some a => is_alpha a || is_digit a || bool_decide (a = "_"%char) | None => false end.
Definition boundary (before after : option ascii) : bool := xorb (is_word before) (is_word after).
Definition first_char (s : string) : option ascii := match s with String a _ => Some a | EmptyString => None end.
Definition last_char (before : option ascii) (s : string) : option ascii :=
  match s with EmptyString => before | _ => String.get (String.length s - 1) s end.
(** [new RegExp(`\\b${escapeRegExp(sym)}\\b`).test(line)] *)
Fixpoint matches_symbol (sym : string) (before : option ascii) (s : string) : bool :=
  (startsWith s sym && boundary before (first_char s)
    && let rest := slice_from (String.length sym) s in boundary (last_char before sym) (first_char rest))
  || match s with String a t => matches_symbol sym (Some a) t | EmptyString => false end.

Fixpoint count_char (c : ascii) (s : string) : nat :=
  match s with EmptyString => 0 | String a t => (if bool_decide (a = c) then 1 else 0) + count_char c t end.
(** [line.replace(/\s+/g, ' ')] *)
Fixpoint collapse (in_space : bool) (s : string) : string :=
  match s with
  | EmptyString => ""
  | String a t => if is_space a then if in_space then collapse true t else String " "%char (collapse true t)
                  else String a (collapse false t)
  end.

Record Slice := mkSlice { sl_relevant : list string; sl_depth : Z; sl_capturing : bool; sl_start : Z }.
Definition slice_line (symbols : list string) (st : Slice) (line : string) : Slice :=
  let matchesSymbol := existsb (λ sym, matches_symbol sym None line) symbols in
  let begins := matchesSymbol && negb (sl_capturing st) in
  let capturing := sl_capturing st || begins in
  let start := if begins then sl_depth st else sl_start st in
  let relevant := if capturing || matchesSymbol then sl_relevant st ++ [collapse false line] else sl_relevant st in
  let depth := (sl_depth st + Z.of_nat (count_char "{"%char line) - Z.of_nat (count_char "}"%char line))%Z in
  mkSlice relevant depth (capturing && negb (bool_decide (depth ≤ start)%Z)) start.

(** The text that is hashed; the hash itself is a parameter. *)
Definition symbol_slice (source : string) (symbols : list string) : string :=
  let unnumbered := join_lines (map strip_number (split_on newline source)) in
  let lines := nonempty_lines (stripCommentsPreservingStrings unnumbered) in
  match symbols with
  | [] => join_lines lines
  | _ => join_lines (sl_relevant (foldl (slice_line symbols) (mkSlice [] 0 false 0) lines))
  end.
Class TextHash := sha256_text : string → string.
Definition computeSymbolSliceCutoffHash `{TextHash} (source : string) (symbols : list string) : string :=
  String.substring 0 16 (sha256_text (symbol_slice source symbols)).

Record DiscoveryCutoff := mkDiscoveryCutoff {
  dc_isSuperset : bool; dc_unchanged : list string; dc_added : list string; dc_removed : list string;
}.
Definition computeDiscoverySetCutoff (recordedOutput currentOutput : string) : DiscoveryCutoff :=
  let recordedSet := js_set (nonempty_lines recordedOutput) in
  let currentSet := js_set (nonempty_lines currentOutput) in
  let unchanged := sort_strings (List.filter (js_has currentSet) recordedSet) in
  let removed := sort_strings (List.filter (λ x, negb (js_has currentSet x)) recordedSet) in
  let added := sort_strings (List.filter (λ x, negb (js_has recordedSet x)) currentSet) in
  mkDiscoveryCutoff
    (bool_decide (length removed = 0) && bool_decide (length unchanged = length recordedSet))
    unchanged added removed.
