(* ===== verification/ObservationsSpec.v ===== *)
(** * ObservationsSpec: what a replay proves

    The loop refines a relation on the log: a prefix is revalidated when every step of
    it showed the recorded result or was cut off for a stated reason. *)

From S2P Require Import Prelude Types Events Causal Index IndexSpec Observations.

Section Replay.
Context {S : Type} (o : ObservationValidation S) (root : string).
Implicit Types (s : S) (e : ObservationEntry).

(** Must the result of the step be the recorded one? *)
Definition checked e : Prop := ob_kind e = "observe" ∨ ob_resultHash e ≠ None.

(** The step shows what the log says. *)
Definition as_recorded s e s' : Prop := ∃ raw,
  ov_replay o e root s = (Ok raw, s') ∧
  (checked e → so_resultHash (normalizeStepOutcome raw) = ob_resultHash e).
(** It does not, but the host, or the hash of what is depended on, says it is no matter. *)
Definition cut_off i s e s' : Prop := ∃ raw s1, let seen := normalizeStepOutcome raw in
  ov_replay o e root s = (Ok raw, s1) ∧ checked e ∧ so_resultHash seen ≠ ob_resultHash e ∧
  ((s' = s1 ∧ (so_cutoff seen = true ∨ ∃ h, ob_cutoffHash e = Some h ∧ so_cutoffHash seen = Some h)) ∨
   (∃ canCutoff, ov_canCutoff o = Some canCutoff ∧ canCutoff e seen i root s1 = (Ok true, s'))).

Inductive revalidated : nat → list ObservationEntry → S → list nat → S → Prop :=
| rv_nil i s : revalidated i [] s [] s
| rv_same i e log s s1 cuts s' :
    as_recorded s e s1 → revalidated (1 + i) log s1 cuts s' → revalidated i (e :: log) s cuts s'
| rv_cut i e log s s1 cuts s' :
    cut_off i s e s1 → revalidated (1 + i) log s1 cuts s' → revalidated i (e :: log) s (i :: cuts) s'.

Lemma checked_bool e :
  bool_decide (ob_kind e = "observe") || negb (is_undef (ob_resultHash e)) = true ↔ checked e.
Proof using Type.
  unfold checked. rewrite orb_true_iff bool_decide_eq_true. destruct (ob_resultHash e); simpl; naive_solver.
Qed.

Lemma replay_step_spec i e s :
  match replay_step o root i e s with
  | (Ok step_same, s') => as_recorded s e s'
  | (Ok step_cutoff, s') => cut_off i s e s'
  | (Ok step_changed, s') => ∀ s1, ¬ as_recorded s e s1 ∧ ¬ cut_off i s e s1
  | (Throw _, s') => ∀ s1, ¬ as_recorded s e s1 ∧ ¬ cut_off i s e s1
  end.
Proof using Type.
  unfold replay_step, mbind, ST_bind. destruct (ov_replay o e root s) as [[raw|err] s1] eqn:Hrun.
  2:{ intros s2. unfold as_recorded, cut_off. rewrite Hrun. split; intros (? & ?); naive_solver. }
  set (seen := normalizeStepOutcome raw).
  destruct (_ && negb (bool_decide (so_resultHash seen = ob_resultHash e))) eqn:Hb; cbn zeta.
  2:{ exists raw. split; [done|]. intros Hc%checked_bool. rewrite Hc /= in Hb. by case_bool_decide. }
  apply andb_true_iff in Hb as [Hc%checked_bool Hne%negb_true_iff%bool_decide_eq_false].
  assert (∀ s2, ¬ as_recorded s e s2) as Hnot.
  { intros s2 (raw' & E & Hs). rewrite Hrun in E. injection E as <- <-. by apply Hne, Hs. }
  set (hash := negb (is_undef (ob_cutoffHash e)) && _ && _).
  assert (hash = true ↔ ∃ h, ob_cutoffHash e = Some h ∧ so_cutoffHash seen = Some h) as Hhash.
  { unfold hash. destruct (ob_cutoffHash e) as [h|], (so_cutoffHash seen) as [h'|]; simpl;
      rewrite ?bool_decide_eq_true; naive_solver. }
  assert (∀ s2, cut_off i s e s2 ↔
    (s2 = s1 ∧ (so_cutoff seen = true ∨ hash = true)) ∨
    ∃ f, ov_canCutoff o = Some f ∧ f e seen i root s1 = (Ok true, s2)) as Hcut.
  { intros s2. rewrite Hhash. unfold cut_off. split.
    - intros (raw' & s1' & E & _ & _ & Hor). rewrite Hrun in E. injection E as <- <-. exact Hor.
    - intros Hor. exists raw, s1. split_and!; done. }
  clearbody hash. clear Hhash.
  destruct (so_cutoff seen) eqn:Hcs; [|destruct hash eqn:Hh].
  - destruct (ov_canCutoff o); simpl; apply Hcut; left; auto.
  - destruct (ov_canCutoff o); simpl; apply Hcut; left; auto.
  - destruct (ov_canCutoff o) as [f|] eqn:Hf; simpl.
    + destruct (f e seen i root s1) as [[[]|err] s2] eqn:Hfr; simpl.
      * apply Hcut. right. by exists f.
      * intros s3. split; [apply Hnot|]. rewrite Hcut. intros [[_ [?|?]]|(f' & [= <-] & E)]; congruence.
      * intros s3. split; [apply Hnot|]. rewrite Hcut. intros [[_ [?|?]]|(f' & [= <-] & E)]; congruence.
    + intros s3. split; [apply Hnot|]. rewrite Hcut. intros [[_ [?|?]]|(f' & ? & E)]; congruence.
Qed.

(** Step [j] is the first that is neither as recorded nor cut off. *)
Definition stops_at j e s s' r cuts : Prop :=
  (∀ s2, ¬ as_recorded s e s2 ∧ ¬ cut_off j s e s2) ∧
  ((∃ raw s1, ov_replay o e root s = (Ok raw, s1) ∧ r = replay_diverged j observation_changed false cuts) ∨
   r = replay_diverged j (if bool_decide (ob_kind e = "mutate") then mutation_not_applicable else observation_changed)
     true cuts).

Lemma replay_from_spec log : ∀ i cuts0 s r s', replay_from o root i cuts0 log s = (r, s') →
  (∃ cuts, r = replay_matched (i + length log) (cuts0 ++ cuts) ∧ revalidated i log s cuts s') ∨
  (∃ before e after cuts s1, log = before ++ e :: after ∧ revalidated i before s cuts s1 ∧
    stops_at (i + length before) e s1 s' r (cuts0 ++ cuts)).
Proof using Type.
  induction log as [|e log IH]; intros i cuts0 s r s'; cbn [replay_from].
  { intros [= <- <-]. left. exists []. rewrite app_nil_r Nat.add_0_r. split; [done|constructor]. }
  pose proof (replay_step_spec i e s) as Hstep.
  (** a step that is accepted, with the indices it adds *)
  assert (∀ cs s1, (cs = [] ∧ as_recorded s e s1) ∨ (cs = [i] ∧ cut_off i s e s1) →
    replay_from o root (1 + i) (cuts0 ++ cs) log s1 = (r, s') →
    (∃ cuts, r = replay_matched (i + length (e :: log)) (cuts0 ++ cuts) ∧ revalidated i (e :: log) s cuts s') ∨
    (∃ before e' after cuts s1, e :: log = before ++ e' :: after ∧ revalidated i before s cuts s1 ∧
      stops_at (i + length before) e' s1 s' r (cuts0 ++ cuts))) as Hacc.
  { intros cs s1 Hcs Hrun.
    assert (∀ l cuts s2, revalidated (1 + i) l s1 cuts s2 → revalidated i (e :: l) s (cs ++ cuts) s2) as Hcons.
    { intros l cuts s2 Hr. destruct Hcs as [[-> Hs]|[-> Hs]]; simpl; [by eapply rv_same|by eapply rv_cut]. }
    destruct (IH _ _ _ _ _ Hrun) as [(cuts & -> & Hr)|(before & e' & after & cuts & s2 & -> & Hr & Hstop)].
    - left. exists (cs ++ cuts). rewrite -app_assoc. split; [|by apply Hcons]. f_equal. simpl. lia.
    - right. exists (e :: before), e', after, (cs ++ cuts), s2. split; [done|]. split; [by apply Hcons|].
      rewrite -app_assoc in Hstop. by replace (i + length (e :: before))%nat with (1 + i + length before)%nat by (simpl; lia). }
  assert (∀ s1, (∀ s2, ¬ as_recorded s e s2 ∧ ¬ cut_off i s e s2) → (r = replay_diverged i observation_changed false cuts0 ∧
      ∃ raw s1, ov_replay o e root s = (Ok raw, s1)) ∨
      r = replay_diverged i (if bool_decide (ob_kind e = "mutate") then mutation_not_applicable else observation_changed)
        true cuts0 → s' = s1 →
    ∃ before e' after cuts s1, e :: log = before ++ e' :: after ∧ revalidated i before s cuts s1 ∧
      stops_at (i + length before) e' s1 s' r (cuts0 ++ cuts)) as Hrej.
  { intros s1 Hnot Hr _. exists [], e, log, [], s. split; [done|]. split; [constructor|].
    simpl. rewrite Nat.add_0_r app_nil_r. split; [done|]. naive_solver. }
  destruct (replay_step o root i e s) as [[[]|err] s1] eqn:Hrun.
  - intros Hr. apply (Hacc [] s1); [by left|by rewrite app_nil_r].
  - intros Hr. apply (Hacc [i] s1); [by right|done].
  - intros [= <- <-]. right. apply (Hrej s1); [done| |done]. left. split; [done|].
    revert Hrun. unfold replay_step, mbind, ST_bind. destruct (ov_replay o e root s) as [[raw|err] s2]; [by eexists _, _|done].
  - intros [= <- <-]. right. apply (Hrej s1); [done|by right|done].
Qed.

(** C23. A replay proves what it says. When it reports a match, it ran every step of the
    log in order, each on the state the one before left, and every step that has a
    result to check showed the recorded one, except those whose indices it reports: at
    these the host, or the recorded hash of what is depended on, or the callback,
    answered that the change does not matter. When it reports a divergence at a step,
    all before it is revalidated so, and that step is not: it threw, or its result
    changed and nothing cut it off. *)
Theorem replay_proves_what_it_says s r s' :
  replayObservationLog o root s = (r, s') →
  match r with
  | replay_matched n cuts => n = length (ov_log o) ∧ revalidated 0 (ov_log o) s cuts s'
  | replay_diverged j _ _ cuts => ∃ before e after s1, ov_log o = before ++ e :: after ∧ length before = j ∧
      revalidated 0 before s cuts s1 ∧ ∀ s2, ¬ as_recorded s1 e s2 ∧ ¬ cut_off j s1 e s2
  end.
Proof using Type.
  unfold replayObservationLog. intros Hr%replay_from_spec.
  destruct Hr as [(cuts & -> & Hr)|(before & e & after & cuts & s1 & E & Hr & Hnot & [(raw & s2 & _ & ->)| ->])]; [done|..];
    by exists before, e, after, s1.
Qed.
End Replay.

(** ** Discovery *)

(** The three lists are the recorded and current lines, partitioned, and the cutoff
    holds exactly when no recorded line is gone. *)
Theorem discovery_cutoff_is_exact recorded current : let c := computeDiscoverySetCutoff recorded current in
  let R := nonempty_lines recorded in let C := nonempty_lines current in
  (dc_isSuperset c = true ↔ ∀ x, x ∈ R → x ∈ C) ∧
  (∀ x, x ∈ dc_unchanged c ↔ x ∈ R ∧ x ∈ C) ∧ (∀ x, x ∈ dc_added c ↔ x ∈ C ∧ x ∉ R) ∧
  (∀ x, x ∈ dc_removed c ↔ x ∈ R ∧ x ∉ C).
Proof.
  cbn zeta. set (R := nonempty_lines recorded). set (C := nonempty_lines current).
  assert (∀ (p : string → bool) l x, x ∈ sort_strings (List.filter p (js_set l)) ↔ x ∈ l ∧ p x = true) as Hsort.
  { intros p l x. unfold sort_strings. rewrite merge_sort_Permutation list_elem_of_In filter_In -list_elem_of_In elem_of_js_set. done. }
  assert (∀ x, x ∈ dc_removed (computeDiscoverySetCutoff recorded current) ↔ x ∈ R ∧ x ∉ C) as Hrem.
  { intros x. cbn [dc_removed computeDiscoverySetCutoff]. rewrite Hsort negb_true_iff js_has_false elem_of_js_set. done. }
  split_and!; [|intros x; cbn [dc_unchanged dc_added computeDiscoverySetCutoff]; rewrite Hsort js_has_spec elem_of_js_set; done
    |intros x; cbn [dc_unchanged dc_added computeDiscoverySetCutoff]; rewrite Hsort negb_true_iff js_has_false elem_of_js_set; done|exact Hrem].
  simpl. fold R C. split.
  - intros [H0%bool_decide_eq_true _]%andb_true_iff x Hx. destruct (decide (x ∈ C)) as [?|Hn]; [done|].
    pose proof (proj2 (Hrem x) (conj Hx Hn)) as Hin. simpl in Hin. fold R C in Hin.
    apply length_zero_iff_nil in H0. rewrite H0 in Hin. by apply elem_of_nil in Hin.
  - intros Hsub. assert (∀ x, x ∈ js_set R → js_has (js_set C) x = true) as Hall.
    { intros x Hx. apply js_has_spec, elem_of_js_set, Hsub. by rewrite elem_of_js_set in Hx. }
    assert (∀ l, (∀ x, x ∈ l → js_has (js_set C) x = true) →
      List.filter (js_has (js_set C)) l = l ∧ List.filter (λ x, negb (js_has (js_set C) x)) l = []) as Hfilter.
    { induction l as [|y l IH]; intros Hl; [done|]. simpl. rewrite (Hl y (list_elem_of_here y l)) /=.
      destruct (IH (λ x Hx, Hl x (list_elem_of_further x y l Hx))) as [-> ->]. done. }
    destruct (Hfilter (js_set R) Hall) as [E1 E2]. rewrite E2.
    apply andb_true_iff. split; apply bool_decide_eq_true; [done|]. unfold sort_strings.
    by rewrite (Permutation_length (merge_sort_Permutation _ _)) E1.
Qed.

(** ** What the text projection loses *)

(** The scanner takes the second slash of [/a\//] for the start of a comment: what
    follows a regular expression on its line is not hashed. *)
Example regex_literal_hides_code :
  symbol_slice "const re = /a\//; evil()" [] = symbol_slice "const re = /a\//; good()" [].
Proof. vm_compute. reflexivity. Qed.
(** A block comment between two tokens joins them. *)
Example comment_joins_tokens : symbol_slice "return/**/x" [] = symbol_slice "returnx" [].
Proof. vm_compute. reflexivity. Qed.

(** ** A log of three steps *)

Definition sample_log : list ObservationEntry :=
  [mkObservation "observe" "read" [] (Some "h1") None; mkObservation "observe" "list" [] (Some "h2") (Some "c2");
   mkObservation "mutate" "edit" [] None None].
(** The state counts the steps; the listing has changed, its projection has not. *)
Definition sample_validation : ObservationValidation nat := mkValidation sample_log
  (λ e _ n, (Ok (match n with 0 => raw_hash "h1" | 1 => raw_outcome (Some "h9") (Some "c2") None | _ => raw_void end), (1 + n)%nat))
  None.
Example replay_proves_what_it_says_witness : revalidated sample_validation "/f-replay" 0 sample_log 0 [1] 3.
Proof.
  destruct (replay_proves_what_it_says sample_validation "/f-replay" 0 (replay_matched 3 [1]) 3) as [_ H];
    [vm_compute; reflexivity|exact H].
Defined.
