(* ===== verification/Transactions.v ===== *)
(** * Transactions: optimistic concurrency on a workspace
    (src/src/workspace/transactions.ts)

    A transaction works in a fork of the workspace; its commit checks what it read
    and wrote against what was committed since, or written around it, and applies
    its write set. The file system is a state [W] of which [disk] is the tree; what
    Git, the snapshot driver and the access times answer is the class
    [TransactionHost]. The methods are a computation on the domain, the file
    system and the open transactions. *)

From stdpp Require Import pretty.
From S2P Require Import Prelude Types Events Encode Config Store Paths Domain WorkTree Causal Index Observations.

(** ** The data *)

Inductive ConflictKind := write_write | read_write | external_write.
#[export] Instance ConflictKind_eq_dec : EqDecision ConflictKind.
Proof. solve_decision. Defined.
Definition conflict_name (k : ConflictKind) : string :=
  match k with write_write => "write_write" | read_write => "read_write" | external_write => "external_write" end.
Record TransactionConflict := mkConflict {
  tc_path : string; tc_kind : ConflictKind; tc_otherTxId : option string;
}.

(** [ReadTracking] of workspace/read-tracking.ts *)
Inductive Tracking := atime | unobserved_reads.
#[export] Instance Tracking_eq_dec : EqDecision Tracking.
Proof. solve_decision. Defined.
Definition tracking_name (t : Tracking) : string :=
  match t with atime => "atime" | unobserved_reads => "unobserved" end.
(** [p.readTracking as ReadTracking]; the code only compares it with ["atime"]. *)
Definition tracking_of (s : string) : Tracking := if bool_decide (s = "atime") then atime else unobserved_reads.

Inductive TxStatus := tx_open | tx_committing | tx_committed | tx_conflicted | tx_aborted.
#[export] Instance TxStatus_eq_dec : EqDecision TxStatus.
Proof. solve_decision. Defined.

Record OpenTransaction := mkTransaction {
  tx_txId : string;
  tx_runId : string;
  tx_root : string;
  tx_forkRoot : string;
  tx_forkPath : string;
  tx_repoRoot : string;
  tx_baseSnapshotId : string;
  tx_beginSeq : Z;
  tx_readTracking : Tracking;
  tx_pathDependencies : option (list string);
  tx_status : TxStatus;
}.
Definition set_tx_status (st : TxStatus) (t : OpenTransaction) : OpenTransaction :=
  mkTransaction (tx_txId t) (tx_runId t) (tx_root t) (tx_forkRoot t) (tx_forkPath t) (tx_repoRoot t)
    (tx_baseSnapshotId t) (tx_beginSeq t) (tx_readTracking t) (tx_pathDependencies t) st.

Record TransactionEffects := mkEffects {
  te_readTracking : Tracking;
  te_readSet : option (list string);
  te_pathDependencies : option (list string);
  te_writeSet : list WriteEntry;
  te_workspaceIndex : WorkspaceIncrementalIndex;
}.
Definition set_te_writeSet (ws : list WriteEntry) (e : TransactionEffects) : TransactionEffects :=
  mkEffects (te_readTracking e) (te_readSet e) (te_pathDependencies e) ws (te_workspaceIndex e).

(** [None] is [undefined], [Some None] is [null]. *)
Record WorkspaceIndexHints := mkHints {
  hi_discoverySet : option (option (list string));
  hi_symbolSlice : option (option (list (string * string)));
  hi_ignoredManifest : option (option string);
}.

Inductive CommitValidation := by_observations | by_files | by_writes_only.
#[export] Instance CommitValidation_eq_dec : EqDecision CommitValidation.
Proof. solve_decision. Defined.
Definition validation_name (v : CommitValidation) : string :=
  match v with by_observations => "observations" | by_files => "files" | by_writes_only => "write_only" end.

Inductive ObservationOutcome :=
| diverged_at (divergedAt : nat) (reason : DivergenceReason)
| not_attempted (reason : string)
| workspace_changed.

Record CommitPlan := mkCommitPlan {
  cp_effects : TransactionEffects;
  cp_sourceRoot : string;
  cp_validation : CommitValidation;
  cp_replay : option (string * string); (* the fork and its snapshot *)
}.

Inductive CommitResult :=
| res_committed (validation : CommitValidation) (effects : TransactionEffects)
| res_conflict (conflicts : list TransactionConflict) (observation : option ObservationOutcome)
    (effects : TransactionEffects).

(** ** [intersect]: the conflicts with the writes of others *)

Fixpoint join_slash (segs : list string) : string :=
  match segs with [] => "" | [seg] => seg | seg :: rest => seg +:+ "/" +:+ join_slash rest end.
(** [path.posix.dirname(p)], for a path without empty segments. *)
Definition posix_dirname (p : string) : string :=
  match rev (split_slash p) with _ :: (_ :: _) as above => join_slash (rev above) | _ => "." end.

Section Intersect.
Context (mine : TransactionEffects) (writeKind readKind : ConflictKind) (otherTxId : option string).

Definition intersect_one (other : WriteEntry) : option TransactionConflict :=
  let p := we_path other in
  if bool_decide (p ∈ map we_path (te_writeSet mine)) then Some (mkConflict p writeKind otherTxId)
  else if bool_decide (p ∈ default [] (te_readSet mine)) || is_undef (te_pathDependencies mine)
          || bool_decide (p ∈ default [] (te_pathDependencies mine))
  then Some (mkConflict p readKind otherTxId)
  else if bool_decide (we_status other = ws_A) || bool_decide (we_status other = ws_D) then
    let dirKey := posix_dirname p +:+ "/" in
    if bool_decide (dirKey ∈ default [] (te_readSet mine)) then Some (mkConflict dirKey readKind otherTxId) else None
  else None.
Definition intersect (others : list WriteEntry) : list TransactionConflict := omap intersect_one others.
End Intersect.

(** ** JSON *)

Definition js_conflict (c : TransactionConflict) : jsval :=
  JObj [("path", JStr (tc_path c)); ("kind", JStr (conflict_name (tc_kind c)));
        ("otherTxId", jopt JStr (tc_otherTxId c))].
Definition js_writes (ws : list WriteEntry) : jsval := JArr (map js_write ws).
Definition js_effects (e : TransactionEffects) : jsval :=
  JObj [("readTracking", JStr (tracking_name (te_readTracking e)));
        ("readSet", jnull js_strings (te_readSet e));
        ("pathDependencies", jnull js_strings (te_pathDependencies e));
        ("writeSet", js_writes (te_writeSet e));
        ("workspaceIndex", js_index (te_workspaceIndex e))].
Definition reason_name (r : DivergenceReason) : string :=
  match r with observation_changed => "observation_changed" | mutation_not_applicable => "mutation_not_applicable" end.
Definition js_outcome (o : ObservationOutcome) : jsval :=
  match o with
  | diverged_at i r => JObj [("attempted", JBool true); ("divergedAt", JZ (Z.of_nat i)); ("reason", JStr (reason_name r))]
  | not_attempted r => JObj [("attempted", JBool false); ("reason", JStr r)]
  | workspace_changed => JObj [("attempted", JBool true); ("reason", JStr "workspace_changed")]
  end.
Definition js_replay (r : string * string) : jsval := JObj [("forkPath", JStr r.1); ("snapshotId", JStr r.2)].

(** What a later call reads of these; [None] for a payload this code does not
    write. *)
Definition writes_of (v : jsval) : option (list WriteEntry) := l ← as_array v; mapM write_of l.
Definition replay_of (v : jsval) : option (string * string) :=
  f ← jfield v "forkPath" ≫= as_string; s ← jfield v "snapshotId" ≫= as_string; Some (f, s).
Definition validation_of (s : string) : option CommitValidation :=
  List.find (λ v, bool_decide (validation_name v = s)) [by_observations; by_files; by_writes_only].
(** [p.x ?? null] where [x] is an array of strings. *)
Definition strings_or_null (o : option jsval) : option (list string) :=
  match o with Some v => strings_back v | None => None end.

(** ** The host *)

Record WorkspaceObservationIndex := mkObserved {
  wo_readSet : list string; wo_discoverySet : list string; wo_pathDependencies : list string;
}.

Class TransactionHost (W : Type) := {
  disk : W → Disk;
  set_disk : Disk → W → W;
  fs_of : Disk → FileSystem;
  driverName : string;
  (** [repoRoot] of [assertGitRepo] *)
  assertGitRepo : W → string → outcome error string;
  (** [fingerprint([root], { against })] *)
  fingerprint : string → SnapshotRef → ST error W string;
  (** [diffTrees(repo, from, to, [path])] *)
  diffTrees : W → string → string → string → string → outcome error (list WriteEntry);
  probeReadTracking : string → ST error W Tracking;
  normalizeAccessTimes : string → ST error W (list string);
  collectWorkspaceObservationIndex : string → W → outcome error WorkspaceObservationIndex;
  captureSnapshot : string → string → string → ST error (ExecutionDomain * W) SnapshotRef;
  materialize : string → string → ST error (ExecutionDomain * W) unit;
  dematerialize : string → option string → ST error (ExecutionDomain * W) unit;
  pruneSnapshot : string → string → ST error (ExecutionDomain * W) unit;
}.

(** [path.relative(from, to)] of absolute paths. *)
Fixpoint drop_common (from to : Path) : Path * Path :=
  match from, to with
  | a :: from', b :: to' => if bool_decide (a = b) then drop_common from' to' else (from, to)
  | _, _ => (from, to)
  end.
Definition relative_segments (from to : Path) : Path :=
  let '(up, down) := drop_common from to in repeat ".." (length up) ++ down.

Section Manager.
Context {W : Type} `{!TransactionHost W, !Crypto} (now : Z) (cancelled : nat → bool).

Record WorkspaceTransactions := mkManager {
  wt_domain : ExecutionDomain;
  wt_files : W;
  wt_open : list (string * OpenTransaction);
}.
Notation TM := (ST error WorkspaceTransactions).

Definition set_domain (d : ExecutionDomain) (m : WorkspaceTransactions) : WorkspaceTransactions :=
  mkManager d (wt_files m) (wt_open m).
Definition set_files (w : W) (m : WorkspaceTransactions) : WorkspaceTransactions :=
  mkManager (wt_domain m) w (wt_open m).
Definition set_open (f : list (string * OpenTransaction) → list (string * OpenTransaction))
    (m : WorkspaceTransactions) : WorkspaceTransactions := mkManager (wt_domain m) (wt_files m) (f (wt_open m)).
Definition on_domain {A} : DM A → TM A := focus wt_domain set_domain.
Definition on_files {A} : ST error W A → TM A := focus wt_files set_files.
Definition on_host {A} : ST error (ExecutionDomain * W) A → TM A :=
  focus (λ m, (wt_domain m, wt_files m)) (λ p m, set_files p.2 (set_domain p.1 m)).
Definition reading {A} (f : W → outcome error A) : TM A := m ← get_state; lift (f (wt_files m)).
Definition in_fs {A} (f : FileSystem → A) : TM A := gets (λ m, f (fs_of (disk (wt_files m)))).

Definition realpathSync (p : string) : TM string :=
  r ← in_fs (λ fs, @fs_realpathSync fs p);
  match r with Some real => mret real | None => throw (Err "ENOENT") end.
Definition existsSync (p : string) : TM bool := in_fs (λ fs, @fs_existsSync fs p).
Definition resolve (p : string) : TM string := in_fs (λ fs, render (@resolve_path fs p)).
Definition relative (from to : string) : TM string :=
  in_fs (λ fs, join_slash (relative_segments (@resolve_path fs from) (@resolve_path fs to))).
Definition path_join (base rel : string) : string := render (path_resolve base rel).

(** ** The journal *)

Definition record (runId type : string) (payload : list (string * jsval)) : TM Z :=
  on_domain (d ← get_state;
    on_store (recordJournalEvent now (simple_event (dom_id d) (Some runId) None type (JObj payload) (Iso now)))).
Definition events_from (fromSeq : Z) : TM (list JournalRow) :=
  on_domain (d ← get_state; on_store (getJournalEvents (dom_id d) fromSeq)).
Definition txId_of (e : JournalRow) : option string := jfield (je_payload e) "txId" ≫= as_string.
Definition is_event (type : string) (e : JournalRow) : bool := bool_decide (je_type e = type).
Definition journal (txId : string) : TM (list JournalRow) :=
  events ← events_from 0;
  mret (List.filter (λ e, startsWith (je_type e) "TX_" && bool_decide (txId_of e = Some txId)) events).
Definition getSnapshot_ (id : string) : TM (option SnapshotRef) := on_domain (on_store (getSnapshot id)).

(** ** [begin] *)

Definition tx_id_regex (s : string) : bool :=
  let alnum a := is_alpha a || is_digit a in
  match s with
  | String a t => alnum a && all_chars (λ a, alnum a || one_of ["."%char; "_"%char; "-"%char] a) t
  | EmptyString => false
  end.

Record BeginOptions := mkBegin {
  bo_txId : string; bo_runId : string; bo_root : string; bo_forkPath : string; bo_baseSnapshotId : option string;
}.

Definition base_snapshot (o : BeginOptions) (root : string) : TM SnapshotRef :=
  match bo_baseSnapshotId o with
  | Some id =>
      saved ← getSnapshot_ id;
      run ← on_domain (on_store (getRun (bo_runId o)));
      domainId ← gets (λ m, dom_id (wt_domain m));
      throw_if (negb (match run with
          | Some r => bool_decide (run_domainId r = domainId)
              && existsb (λ s, bool_decide (run_status r = s)) [run_queued; run_starting; run_running]
          | None => false end))
        (Err "A workspace transaction requires an active Run in its domain");;
      match saved with
      | None => throw (Err "Transaction base snapshot must cover the same root in this domain")
      | Some saved =>
          throw_if (negb (bool_decide (snap_domainId saved = domainId)) || negb (bool_decide (snap_driver saved = driverName))
              || negb (bool_decide (length (snap_roots saved) = 1)))
            (Err "Transaction base snapshot must cover the same root in this domain");;
          real ← realpathSync (List.hd "" (snap_roots saved));
          throw_if (negb (bool_decide (real = root)))
            (Err "Transaction base snapshot must cover the same root in this domain");;
          mret saved
      end
  | None => on_host (captureSnapshot (bo_runId o) (bo_txId o +:+ "-base") root)
  end.

Definition begin (o : BeginOptions) : TM OpenTransaction :=
  throw_if (negb (tx_id_regex (bo_txId o))) (Err "Invalid workspace transaction id");;
  opened ← gets (λ m, jm_has (wt_open m) (bo_txId o));
  events ← (if opened : bool then mret [] else journal (bo_txId o));
  throw_if (opened || bool_decide (0 < length events)) (Err "Workspace transaction already exists");;
  root ← realpathSync (bo_root o);
  repoRoot ← reading (λ w, assertGitRepo w root);
  base ← base_snapshot o root;
  forkPath ← resolve (bo_forkPath o);
  on_host (materialize (snap_id base) forkPath);;
  realFork ← realpathSync forkPath;
  rel ← relative repoRoot root;
  let forkRoot := path_join realFork rel in
  readTracking ← on_files (probeReadTracking (render (dirname (path_resolve forkPath ""))));
  pathDependencies ← (if bool_decide (readTracking = atime) then on_files (normalizeAccessTimes forkRoot)
    else index ← reading (collectWorkspaceObservationIndex forkRoot); mret (wo_pathDependencies index));
  beginSeq ← record (bo_runId o) "TX_BEGUN"
    [("txId", JStr (bo_txId o)); ("root", JStr root); ("forkPath", JStr forkPath); ("forkRoot", JStr forkRoot);
     ("baseSnapshotId", JStr (snap_id base)); ("readTracking", JStr (tracking_name readTracking));
     ("pathDependencies", js_strings pathDependencies)];
  let tx := mkTransaction (bo_txId o) (bo_runId o) root forkRoot forkPath repoRoot (snap_id base) beginSeq
    readTracking (Some pathDependencies) tx_open in
  modify (set_open (λ open, jm_set open (tx_txId tx) tx));;
  mret tx.

(** ** [require] *)

Definition field_string (p : jsval) (k : string) : string := default "" (jfield p k ≫= as_string).

Definition require (txId : string) : TM OpenTransaction :=
  cached ← gets (λ m, jm_get (wt_open m) txId);
  match cached with
  | Some tx => mret tx
  | None =>
      events ← journal txId;
      match List.find (is_event "TX_BEGUN") events with
      | None => throw (Err "Workspace transaction does not exist")
      | Some begun =>
          throw_if (existsb (λ e, is_event "TX_COMMITTED" e || is_event "TX_ABORTED" e) events)
            (Err "Workspace transaction is already closed");;
          let p := je_payload begun in
          present ← existsSync (field_string p "forkRoot");
          throw_if (negb present) (Err "Workspace transaction cannot resume: its fork is gone");;
          let status := if existsb (is_event "TX_COMMITTING") events then tx_committing
            else if existsb (is_event "TX_CONFLICTED") events then tx_conflicted else tx_open in
          repoRoot ← reading (λ w, assertGitRepo w (field_string p "root"));
          let tx := mkTransaction txId (default "" (je_run_id begun)) (field_string p "root")
            (field_string p "forkRoot") (field_string p "forkPath") repoRoot (field_string p "baseSnapshotId")
            (je_seq begun) (tracking_of (field_string p "readTracking"))
            (strings_or_null (jfield p "pathDependencies")) status in
          modify (set_open (λ open, jm_set open txId tx));;
          mret tx
      end
  end.
(** [tx.status = st] on the object the table holds. *)
Definition set_status (txId : string) (st : TxStatus) : TM unit :=
  modify (set_open (λ open, match jm_get open txId with
    | Some tx => jm_set open txId (set_tx_status st tx) | None => open end)).

(** ** [effects] *)

Definition write_resource (root : string) : string := "workspace:write:" +:+ root.

(** The difference of a tree to a snapshot, relative to [root]. *)
Definition changes_since (repo root : string) (base : SnapshotRef) : TM (list WriteEntry) :=
  prefix ← relative repo root;
  current ← on_files (fingerprint root base);
  changes ← reading (λ w, diffTrees w repo (snap_treeFingerprint base) current (if truthy_str prefix then prefix else "."));
  in_fs (λ fs, map (λ c, mkWrite (we_status c)
    (if truthy_str prefix
     then join_slash (relative_segments (@resolve_path fs prefix) (@resolve_path fs (we_path c)))
     else we_path c)) changes).
Definition fork_changes (root : string) (base : SnapshotRef) : TM (list WriteEntry) :=
  repo ← reading (λ w, assertGitRepo w root);
  changes_since repo root base.

Definition effects (tx : OpenTransaction) (hints : option WorkspaceIndexHints) : TM TransactionEffects :=
  m ← get_state;
  let scan := collectWorkspaceObservationIndex (tx_forkRoot tx) (wt_files m) in
  let scanFailed := negb (is_ok scan) in
  let currentReads := match scan with Ok i => i | Throw _ => mkObserved [] [] [] end in
  events ← journal (tx_txId tx);
  let earlier := List.filter (is_event "TX_READS") events in
  let previousIndex := List.hd_error (omap (λ e, parseWorkspaceIncrementalIndex (jfield (je_payload e) "workspaceIndex")) (rev earlier)) in
  let earlier_sets k := concat (map (λ e, default [] (strings_or_null (jfield (je_payload e) k))) earlier) in
  let readSet := if bool_decide (tx_readTracking tx = atime) && negb scanFailed
    then uniqueSorted (Some (earlier_sets "readSet" ++ wo_readSet currentReads)) else None in
  let pathDependencies := if scanFailed then None
    else l ← tx_pathDependencies tx;
         uniqueSorted (Some (l ++ earlier_sets "pathDependencies" ++ wo_pathDependencies currentReads)) in
  base ← getSnapshot_ (tx_baseSnapshotId tx);
  match base with
  | None => throw (Err "Base snapshot of the transaction is missing")
  | Some base =>
      let hintedDiscovery := match hints ≫= hi_discoverySet with
        | Some None => None
        | Some (Some l) => Some (wo_discoverySet currentReads ++ l)
        | None => Some (wo_discoverySet currentReads) end in
      let ignoredManifest := match hints ≫= hi_ignoredManifest with
        | Some hinted => hinted
        | None => nullish_opt (snap_ignoredManifestDigest base) (previousIndex ≫= ix_ignoredManifest) end in
      let symbolSlice := match hints ≫= hi_symbolSlice with
        | Some hinted => hinted | None => previousIndex ≫= ix_symbolSlice end in
      let index writeSet := buildWorkspaceIncrementalIndex {|
        ii_root := tx_root tx; ii_readSet := readSet; ii_writeSet := writeSet;
        ii_discoverySet := if scanFailed then None else hintedDiscovery;
        ii_symbolSlice := symbolSlice; ii_ignoredManifest := ignoredManifest;
        ii_pathDependencies := pathDependencies;
        ii_coverageNotes := if scanFailed then ["workspace_scan_failed"] else [] |} in
      record (tx_runId tx) "TX_READS"
        [("txId", JStr (tx_txId tx)); ("readSet", jnull js_strings readSet);
         ("pathDependencies", jnull js_strings pathDependencies); ("workspaceIndex", js_index (index []))];;
      writeSet ← fork_changes (tx_forkRoot tx) base;
      (if bool_decide (tx_readTracking tx = atime)
       then on_files (normalizeAccessTimes (tx_forkRoot tx));; mret tt else mret tt);;
      mret (mkEffects (tx_readTracking tx) readSet pathDependencies writeSet
        (mergeWorkspaceIncrementalIndex previousIndex (index writeSet)))
  end.

(** ** [validate] *)

Definition committed_after (tx : OpenTransaction) (events : list JournalRow) : list JournalRow :=
  List.filter (λ e, is_event "TX_COMMITTED" e
    && bool_decide (jfield (je_payload e) "root" ≫= as_string = Some (tx_root tx))
    && negb (bool_decide (txId_of e = Some (tx_txId tx)))) events.
Definition writes_in (e : JournalRow) : list WriteEntry :=
  default [] (jfield (je_payload e) "writeSet" ≫= writes_of).

(** The conflicts, from the later commits and the changes of the workspace. *)
Definition conflicts_of (mine : TransactionEffects) (others : list JournalRow) (changes : list WriteEntry)
  : list TransactionConflict :=
  let explained := map we_path (concat (map writes_in others)) in
  concat (map (λ e, intersect mine write_write read_write (txId_of e) (writes_in e)) others)
  ++ intersect mine external_write external_write None
       (List.filter (λ w, negb (bool_decide (we_path w ∈ explained))) changes).

Definition mainChangesSinceBase (tx : OpenTransaction) : TM (list WriteEntry) :=
  base ← getSnapshot_ (tx_baseSnapshotId tx);
  match base with
  | None => throw (TypeErr "snapshot is null")
  | Some base => changes_since (tx_repoRoot tx) (tx_root tx) base
  end.

Definition validate (tx : OpenTransaction) (mine : TransactionEffects) : TM (list TransactionConflict) :=
  events ← events_from (tx_beginSeq tx);
  changes ← mainChangesSinceBase tx;
  mret (conflicts_of mine (committed_after tx events) changes).

(** ** The second opinion: replaying the observations *)

Definition replayForkPath (tx : OpenTransaction) : string := tx_forkPath tx +:+ "-replay".

Definition unchangedSince (tx : OpenTransaction) (snapshotId : string) : TM bool :=
  snapshot ← getSnapshot_ snapshotId;
  match snapshot with
  | None => throw (TypeErr "snapshot is null")
  | Some snapshot =>
      current ← on_files (fingerprint (tx_root tx) snapshot);
      mret (bool_decide (current = snap_treeFingerprint snapshot))
  end.

(** The first process or service since the transaction began that writes in its
    fork; [seen] are the operations looked at. *)
Fixpoint process_in (db : Db) (inFork : string → bool) (seen : list string) (events : list JournalRow) : option string :=
  match events with
  | [] => None
  | e :: events' =>
      match je_operation_id e with
      | None => process_in db inFork seen events'
      | Some id =>
          if js_has seen id then process_in db inFork seen events'
          else match find_operation id db with
          | Some op =>
              let roots := default [] (op_mutationRoots op)
                ++ map (slice_from 16) (List.filter (λ r, startsWith r "workspace:write:") (op_requiredResources op)) in
              if (bool_decide (op_kind op = op_process) || bool_decide (op_kind op = op_service)) && existsb inFork roots
              then Some (op_id op) else process_in db inFork (id :: seen) events'
          | None => process_in db inFork (id :: seen) events'
          end
      end
  end.
Definition processInFork (tx : OpenTransaction) : TM (option string) :=
  real ← realpathSync (tx_forkPath tx);
  events ← events_from (tx_beginSeq tx);
  m ← get_state;
  let inFork p := existsb (λ fork, @isPathContained (fs_of (disk (wt_files m))) fork p) [tx_forkPath tx; real] in
  mret (process_in (db (dom_store (wt_domain m))) inFork [] events).

Definition discardReplayFork (tx : OpenTransaction) : TM unit :=
  present ← existsSync (replayForkPath tx);
  when present (on_host (dematerialize (replayForkPath tx) None));;
  events ← journal (tx_txId tx);
  for_each (List.filter (is_event "TX_REPLAY_STARTED") events) (λ e,
    let snapshotId := field_string (je_payload e) "snapshotId" in
    s ← getSnapshot_ snapshotId;
    when (negb (is_undef s)) (on_host (pruneSnapshot snapshotId (tx_runId tx)))).

(** Up to the fork that was replayed; [None]: the observations decided against. *)
Definition replay_on_fork (tx : OpenTransaction) (observations : ObservationValidation WorkspaceTransactions)
  : TM (ObservationOutcome + string * SnapshotRef) :=
  discardReplayFork tx;;
  let replayPath := replayForkPath tx in
  events ← journal (tx_txId tx);
  let attempt := length (List.filter (is_event "TX_REPLAY_STARTED") events) + 1 in
  let snapshotId := tx_txId tx +:+ "-replay-" +:+ pretty (Z.of_nat attempt) in
  record (tx_runId tx) "TX_REPLAY_STARTED"
    [("txId", JStr (tx_txId tx)); ("replayPath", JStr replayPath); ("snapshotId", JStr snapshotId)];;
  snapshot ← on_host (captureSnapshot (tx_runId tx) snapshotId (tx_root tx));
  on_host (materialize (snap_id snapshot) replayPath);;
  real ← realpathSync replayPath;
  rel ← relative (tx_repoRoot tx) (tx_root tx);
  let replayRoot := path_join real rel in
  replayed ← (λ m, let '(r, m') := replayObservationLog observations replayRoot m in (Ok r, m'));
  match replayed with
  | replay_diverged divergedAt reason _ _ =>
      on_host (dematerialize replayPath None);;
      on_host (pruneSnapshot (snap_id snapshot) (tx_runId tx));;
      mret (inl (diverged_at divergedAt reason))
  | replay_matched _ _ => mret (inr (replayRoot, snapshot))
  end.

(** ** [inspect] and [abort] *)

Definition release_owner (owner : string) : TM unit :=
  on_domain (internalReleaseResources now cancelled owner None).
(** [try { body } finally { release }] *)
Definition finally_release {A} (owner : string) (body : TM A) : TM A := λ m,
  match body m with
  | (o, m') => match release_owner owner m' with
    | (Ok _, m2) => (o, m2)
    | (Throw e, m2) => (Throw e, m2)
    end
  end.
(** The fork is leased while the transaction is looked at or given up. *)
Definition with_fork_lease {A} (tx : OpenTransaction) (owner : string) (body : TM A) : TM A :=
  on_domain (assertOperationIdAvailable owner);;
  on_domain (allocateResources owner [write_resource (tx_forkRoot tx)] 0 None);;
  finally_release owner body.

Definition inspect (txId : string) (hints : option WorkspaceIndexHints) : TM TransactionEffects :=
  tx ← require txId;
  with_fork_lease tx (txId +:+ ":inspect") (effects tx hints).

Definition abortSerialized (txId reason : string) : TM unit :=
  tx ← require txId;
  throw_if (bool_decide (tx_status tx = tx_committing)) (Err "Workspace transaction is committing");;
  let owner := txId +:+ ":abort" in
  with_fork_lease tx owner (
    on_host (dematerialize (tx_forkPath tx) (Some owner));;
    discardReplayFork tx;;
    record (tx_runId tx) "TX_ABORTED" [("txId", JStr txId); ("reason", JStr reason)];;
    modify (set_open (λ open, jm_delete open txId))).

(** ** [commit] *)

(** The manager and the variables of a running commit that its [finally] reads. *)
Record Commit := mkCommit { co_manager : WorkspaceTransactions; co_held : bool; co_durable : bool; co_committed : bool }.
Notation CM := (ST error Commit).
Definition on_tx {A} : TM A → CM A :=
  focus co_manager (λ m c, mkCommit m (co_held c) (co_durable c) (co_committed c)).
Definition set_held (b : bool) : CM unit := modify (λ c, mkCommit (co_manager c) b (co_durable c) (co_committed c)).
Definition set_durable : CM unit := modify (λ c, mkCommit (co_manager c) (co_held c) true (co_committed c)).
Definition set_committed : CM unit := modify (λ c, mkCommit (co_manager c) (co_held c) (co_durable c) true).

Section Commit.
Context (txId : string) (tx : OpenTransaction) (committing : option JournalRow).
Definition leaseOwner : string := txId +:+ ":apply".

Definition acquire (roots : list string) : CM unit :=
  held ← gets co_held;
  (if held : bool then mret tt
   else match committing with
   | Some _ =>
       op ← on_tx (on_domain (on_store (getOperation leaseOwner)));
       throw_if (negb (is_undef op)) (Err "Workspace commit owner belongs to a registered operation")
   | None => on_tx (on_domain (assertOperationIdAvailable leaseOwner))
   end);;
  on_tx (on_domain (allocateResources leaseOwner (map write_resource (js_set roots)) 0 None));;
  set_held true.
Definition release : CM unit := on_tx (release_owner leaseOwner);; set_held false.

Definition conflicted (conflicts : list TransactionConflict) (e : TransactionEffects)
    (observation : option ObservationOutcome) : TM CommitResult :=
  set_status txId tx_conflicted;;
  record (tx_runId tx) "TX_CONFLICTED"
    [("txId", JStr (tx_txId tx)); ("conflicts", JArr (map js_conflict conflicts));
     ("readSet", jnull js_strings (te_readSet e)); ("writeSet", js_writes (te_writeSet e));
     ("pathDependencies", jnull js_strings (te_pathDependencies e)); ("workspaceIndex", js_index (te_workspaceIndex e));
     ("observation", jopt js_outcome observation)];;
  mret (res_conflict conflicts observation e).

(** [plan] from the payload of TX_COMMITTING. *)
Definition recovered_plan (p : jsval) : outcome error CommitPlan :=
  match jfield p "effects" with
  | Some e =>
      match jfield e "writeSet" ≫= writes_of with
      | Some writeSet =>
          let readSet := strings_or_null (jfield e "readSet") in
          let pathDependencies := strings_or_null (jfield e "pathDependencies") in
          let index := nullish (parseWorkspaceIncrementalIndex (jfield e "workspaceIndex"))
            (buildWorkspaceIncrementalIndex
              (mkIndexInput (tx_root tx) readSet writeSet None None None pathDependencies [])) in
          Ok (mkCommitPlan
            (mkEffects (tracking_of (field_string e "readTracking")) readSet pathDependencies writeSet index)
            (nullish (jfield p "sourceRoot" ≫= as_string) (tx_forkRoot tx))
            (nullish ((jfield p "validation" ≫= as_string) ≫= validation_of)
               (if is_undef readSet then by_writes_only else by_files))
            (jfield p "replay" ≫= replay_of))
      | None => Throw (TypeErr "writeSet is not iterable")
      end
  | None => Throw (TypeErr "effects is undefined")
  end.

Definition resume (e : JournalRow) : CM CommitPlan :=
  let p := je_payload e in
  plan ← lift (recovered_plan p);
  acquire [tx_root tx; cp_sourceRoot plan];;
  throw_if (negb (bool_decide (jfield p "isolationVersion" ≫= as_int = Some 1%Z)))
    (Err "Workspace transaction lacks continuous commit isolation evidence");;
  present ← on_tx (existsSync (cp_sourceRoot plan));
  throw_if (negb present) (Err "Workspace transaction cannot finish committing: its source is gone");;
  mret plan.

Definition write_conflict (e : TransactionEffects) (conflicts : list TransactionConflict) : bool :=
  existsb (λ c, bool_decide (tc_kind c = write_write) || bool_decide (tc_path c ∈ map we_path (te_writeSet e))) conflicts.

Definition validateByObservations (e : TransactionEffects) (conflicts : list TransactionConflict)
    (observations : ObservationValidation WorkspaceTransactions) : CM (ObservationOutcome + CommitPlan) :=
  if write_conflict e conflicts then mret (inl (not_attempted "write_conflict"))
  else
    escaped ← on_tx (processInFork tx);
    match escaped with
    | Some operationId =>
        on_tx (record (tx_runId tx) "TX_VALIDATION_DOWNGRADED"
          [("txId", JStr (tx_txId tx)); ("reason", JStr "not_closed_world"); ("operationId", JStr operationId)]);;
        mret (inl (not_attempted "not_closed_world"))
    | None =>
        replayed ← on_tx (replay_on_fork tx observations);
        match replayed with
        | inl o => mret (inl o)
        | inr (replayRoot, snapshot) =>
            acquire [replayRoot];;
            writeSet ← on_tx (fork_changes replayRoot snapshot);
            mret (inr (mkCommitPlan (set_te_writeSet writeSet e) replayRoot by_observations
              (Some (replayForkPath tx, snap_id snapshot))))
        end
    end.

(** The evidence, and what to do with it: a result, or a plan with the file
    conflicts it overrides. *)
Definition prepare (hints : option WorkspaceIndexHints) (observations : option (ObservationValidation WorkspaceTransactions))
  : CM (CommitResult + CommitPlan * list TransactionConflict) :=
  acquire [tx_root tx; tx_forkRoot tx];;
  e ← on_tx (effects tx hints);
  conflicts ← on_tx (validate tx e);
  match conflicts with
  | [] => mret (inr (mkCommitPlan e (tx_forkRoot tx) (if is_undef (te_readSet e) then by_writes_only else by_files) None, []))
  | _ =>
      release;;
      match observations with
      | None => r ← on_tx (conflicted conflicts e None); mret (inl r)
      | Some observations =>
          answer ← validateByObservations e conflicts observations;
          match answer with
          | inl outcome => r ← on_tx (conflicted conflicts e (Some outcome)); mret (inl r)
          | inr plan => acquire [tx_root tx];; mret (inr (plan, conflicts))
          end
      end
  end.

(** A replayed plan is void when the workspace has changed since its snapshot. *)
Definition still_valid (plan : CommitPlan) (fileConflicts : list TransactionConflict) : CM (option CommitResult) :=
  match committing, cp_replay plan with
  | None, Some (_, snapshotId) =>
      unchanged ← on_tx (unchangedSince tx snapshotId);
      if unchanged : bool then mret None
      else
        release;;
        on_tx (discardReplayFork tx);;
        seen ← on_tx (inspect txId None);
        r ← on_tx (conflicted fileConflicts (set_te_writeSet (te_writeSet seen) (cp_effects plan)) (Some workspace_changed));
        mret (Some r)
  | _, _ => mret None
  end.

(** The evidence a restart finishes the commit from. *)
Definition committing_payload (plan : CommitPlan) : list (string * jsval) :=
  [("txId", JStr txId); ("root", JStr (tx_root tx)); ("effects", js_effects (cp_effects plan));
   ("sourceRoot", JStr (cp_sourceRoot plan)); ("validation", JStr (validation_name (cp_validation plan)));
   ("replay", jopt js_replay (cp_replay plan)); ("isolationVersion", JZ 1)].
Definition apply_plan (plan : CommitPlan) : CM unit :=
  let e := cp_effects plan in
  (match committing with
   | Some _ => mret tt
   | None =>
       on_tx (record (tx_runId tx) "TX_COMMITTING" (committing_payload plan));;
       set_durable;;
       on_tx (set_status txId tx_committing)
   end);;
  on_tx (on_files (focus disk set_disk (apply fs_of (tx_root tx) (cp_sourceRoot plan) (te_writeSet e))));;
  on_tx (record (tx_runId tx) "TX_COMMITTED"
    [("txId", JStr txId); ("root", JStr (tx_root tx)); ("writeSet", js_writes (te_writeSet e));
     ("readSet", jnull js_strings (te_readSet e)); ("pathDependencies", jnull js_strings (te_pathDependencies e));
     ("workspaceIndex", js_index (te_workspaceIndex e)); ("validation", JStr (validation_name (cp_validation plan)))]);;
  set_committed;;
  on_tx (modify (set_open (λ open, jm_delete open txId))).

(** The [try] block. *)
Definition commit_body (hints : option WorkspaceIndexHints)
    (observations : option (ObservationValidation WorkspaceTransactions)) : CM (CommitResult + CommitPlan) :=
  prepared ← match committing with
    | Some e => plan ← resume e; mret (inr (plan, []))
    | None => prepare hints observations
    end;
  match prepared with
  | inl r => mret (inl r)
  | inr (plan, fileConflicts) =>
      void ← still_valid plan fileConflicts;
      match void with
      | Some r => mret (inl r)
      | None => apply_plan plan;; mret (inr plan)
      end
  end.

(** The [finally] block: the leases are kept once the commit is durable and not
    finished. *)
Definition settle_leases {A} (body : CM A) : CM A := λ c,
  let '(o, c') := body c in
  if co_held c' && (negb (co_durable c') || co_committed c') then
    match release c' with
    | (Ok _, c2) => (o, c2)
    | (Throw e, c2) => (Throw (match o with Ok _ => e | Throw _ => Err "AggregateError" end), c2)
    end
  else (o, c').
End Commit.

Definition commitSerialized (txId : string) (hints : option WorkspaceIndexHints)
    (observations : option (ObservationValidation WorkspaceTransactions)) : TM CommitResult :=
  tx ← require txId;
  throw_if (bool_decide (tx_status tx = tx_conflicted)) (Err "Workspace transaction has conflicts");;
  events ← journal txId;
  let committing := List.find (is_event "TX_COMMITTING") events in
  decided ← (λ m, let '(o, c) := settle_leases txId (commit_body txId tx committing hints observations)
                    (mkCommit m false (negb (is_undef committing)) false) in (o, co_manager c));
  match decided with
  | inl r => mret r
  | inr plan =>
      on_host (dematerialize (tx_forkPath tx) None);;
      (match cp_replay plan with
       | Some (forkPath, snapshotId) =>
           on_host (dematerialize forkPath None);; on_host (pruneSnapshot snapshotId (tx_runId tx))
       | None => mret tt
       end);;
      mret (res_committed (cp_validation plan) (cp_effects plan))
  end.
End Manager.
