(* ===== verification/TransactionsSpec.v ===== *)
(** * TransactionsSpec: what a commit by files guarantees

    A tree maps a relative path to the file it names. When the validation finds no
    conflict, the workspace agrees with the base of the transaction on all it looked
    at, and applying its write set is running it on the workspace as it is now. *)

From S2P Require Import Prelude Types Events Encode Config Store Samples Paths PathsSpec Domain WorkTree WorkTreeSpec Causal Index Observations Transactions.

(** ** Trees and their differences *)

Notation Tree := (string → option Node).

#[local] Instance Node_eq_dec : EqDecision Node.
Proof. solve_decision. Defined.

(** What Git keeps of a node: no directories, and the permission bits. *)
Definition tracked (n : option Node) : option Node :=
  match n with
  | Some NDir => None
  | Some (NFile data mode) => Some (NFile data (Z.land mode 511))
  | n => n
  end.
Definition tree (d : Disk) (root : Path) : Tree := λ p, tracked (d !! (root ++ split_slash p)).

Lemma tracked_idem n : tracked (tracked n) = tracked n.
Proof. destruct n as [[| |]|]; try done. simpl. by rewrite -Z.land_assoc. Qed.

Definition status_fits (s : WriteStatus) (from to : option Node) : Prop :=
  match s with
  | ws_A => from = None ∧ to ≠ None
  | ws_D => from ≠ None ∧ to = None
  | ws_M | ws_T => from ≠ None ∧ to ≠ None
  end.

(** [ws] is the difference of two trees as [git diff] lists it. *)
Record diff_of (from to : Tree) (ws : list WriteEntry) : Prop := {
  df_sound w : w ∈ ws → status_fits (we_status w) (from (we_path w)) (to (we_path w));
  df_complete p : wf_path (split_slash p) → from p ≠ to p → ∃ w, w ∈ ws ∧ we_path w = p;
}.

(** ** What a validation without conflicts says *)

(** [X] shows the transaction what its base showed it. *)
Record agrees (mine : TransactionEffects) (base X : Tree) : Prop := {
  ag_files p : wf_path (split_slash p) →
    p ∈ default [] (te_readSet mine) ∨ te_pathDependencies mine = None ∨
    p ∈ default [] (te_pathDependencies mine) ∨ p ∈ map we_path (te_writeSet mine) → X p = base p;
  ag_entries p : wf_path (split_slash p) → posix_dirname p +:+ "/" ∈ default [] (te_readSet mine) →
    (X p = None ↔ base p = None);
}.

Lemma intersect_one_None mine wk rk t w : intersect_one mine wk rk t w = None →
  we_path w ∉ map we_path (te_writeSet mine) ∧ we_path w ∉ default [] (te_readSet mine) ∧
  te_pathDependencies mine ≠ None ∧ we_path w ∉ default [] (te_pathDependencies mine) ∧
  (we_status w = ws_A ∨ we_status w = ws_D → posix_dirname (we_path w) +:+ "/" ∉ default [] (te_readSet mine)).
Proof.
  unfold intersect_one. case_bool_decide as Hw; [done|].
  destruct (_ || _ || _) eqn:Hr; [done|].
  apply orb_false_iff in Hr as [[Hr Hd]%orb_false_iff Hp].
  apply bool_decide_eq_false in Hr, Hp. intros Hn. split_and!; try done.
  - by destruct (te_pathDependencies mine).
  - intros Hs. assert (bool_decide (we_status w = ws_A) || bool_decide (we_status w = ws_D) = true) as Hb.
    { destruct Hs as [->| ->]; done. }
    rewrite Hb in Hn. by case_bool_decide.
Qed.
Lemma intersect_nil mine wk rk t l w : intersect mine wk rk t l = [] → w ∈ l → intersect_one mine wk rk t w = None.
Proof.
  unfold intersect. induction l as [|x l IH]; [by intros _ ?%elem_of_nil|]. simpl.
  destruct (intersect_one mine wk rk t x) eqn:Hx; [done|]. intros Hl [->|Hin]%elem_of_cons; [done|by apply IH].
Qed.

(** Every change of the workspace is seen by the check, as it is or as a later
    commit reported it. *)
Lemma conflicts_nil mine others changes w :
  conflicts_of mine others changes = [] → w ∈ changes →
  ∃ w' wk rk t, we_path w' = we_path w ∧ intersect_one mine wk rk t w' = None ∧
    (w' = w ∨ ∃ e, e ∈ others ∧ w' ∈ writes_in e).
Proof.
  unfold conflicts_of. intros [Ho Hx]%app_nil Hw.
  set (explained := map we_path (concat (map writes_in others))) in Hx.
  destruct (decide (we_path w ∈ explained)) as [Hin|Hn].
  - apply list_elem_of_fmap in Hin as (w' & Hp & Hin).
    apply list_elem_of_In, in_concat in Hin as (l & (e & <- & He)%in_map_iff & Hin).
    apply list_elem_of_In in He, Hin.
    exists w', write_write, read_write, (txId_of e). split_and!; [done| |by right; exists e].
    apply intersect_nil with (l := writes_in e); [|done].
    revert Ho. apply list_elem_of_In in He. clear -He. induction others as [|x l IH]; [done|]. simpl.
    intros [H1 H2]%app_nil. destruct He as [->|He]; [done|by apply IH].
  - exists w, external_write, external_write, None. split_and!; [done| |by left].
    eapply intersect_nil; [exact Hx|]. apply list_elem_of_In, filter_In.
    split; [by apply list_elem_of_In|]. by rewrite bool_decide_false.
Qed.

(** A later commit that reports a path reports its coming and going too. *)
Definition reported (others : list JournalRow) (changes : list WriteEntry) : Prop :=
  ∀ w e w', w ∈ changes → e ∈ others → w' ∈ writes_in e → we_path w' = we_path w →
    we_status w = ws_A ∨ we_status w = ws_D → we_status w' = ws_A ∨ we_status w' = ws_D.

Lemma no_conflict_agrees mine others changes base X :
  diff_of base X changes → reported others changes → conflicts_of mine others changes = [] → agrees mine base X.
Proof.
  intros Hd Hrep Hc. split.
  - intros p Hp Hin. destruct (decide (base p = X p)) as [->|Hne]; [done|].
    destruct (df_complete _ _ _ Hd p Hp Hne) as (w & Hw & <-).
    destruct (conflicts_nil _ _ _ w Hc Hw) as (w' & wk & rk & t & Hpath & Hnone & _).
    apply intersect_one_None in Hnone. rewrite Hpath in Hnone. tauto.
  - intros p Hp Hdir. destruct (decide (base p = X p)) as [->|Hne]; [done|].
    destruct (df_complete _ _ _ Hd p Hp Hne) as (w & Hw & <-).
    destruct (conflicts_nil _ _ _ w Hc Hw) as (w' & wk & rk & t & Hpath & Hnone & Hfrom).
    apply intersect_one_None in Hnone as (_ & _ & _ & _ & Hent). rewrite Hpath in Hent.
    pose proof (df_sound _ _ _ Hd w Hw) as Hfit.
    assert (¬ (we_status w = ws_A ∨ we_status w = ws_D)) as Hs.
    { intros Hs. apply Hent; [|done]. destruct Hfrom as [->|(e & He & Hw')]; [done|].
      by apply (Hrep w e w'). }
    destruct (we_status w); simpl in Hfit; naive_solver.
Qed.

(** ** The workspace after the commit *)

Section Serial.
Context (fs_of : Disk → FileSystem) (root fork : Path).

(** What the transaction computes from a tree: where it looks the same, it writes
    what it wrote, and leaves the other files alone. *)
Definition runs_as (mine : TransactionEffects) (base : Tree) (T : Tree → Tree) : Prop :=
  ∀ X, agrees mine base X → ∀ p, wf_path (split_slash p) →
    T X p = if bool_decide (p ∈ map we_path (te_writeSet mine)) then T base p else X p.

Lemma split_slash_inj s : ∀ t, split_slash s = split_slash t → s = t.
Proof using Type.
  induction s as [|a s IH]; intros [|b t]; simpl.
  - done.
  - case_bool_decide; [|by destruct (split_slash_nonempty t) as (x & l & ->)].
    by destruct (split_slash_nonempty t) as (x & l & ->).
  - case_bool_decide; [|by destruct (split_slash_nonempty s) as (x & l & ->)].
    by destruct (split_slash_nonempty s) as (x & l & ->).
  - destruct (split_slash_nonempty s) as (x & l & Es), (split_slash_nonempty t) as (y & k & Et).
    pose proof (IH t) as IHt. rewrite Es Et in IHt |- *. repeat case_bool_decide; intros [=]; subst; f_equal; auto.
    all: apply IHt; congruence.
Qed.

Lemma applied_tree es d d' base p :
  regular root fork es d → diff_of base (tree d fork) es →
  (∀ e, e ∈ es → d' !! (path_resolve (render root) (we_path e)) = installed_node fork d e) →
  (∀ q, d' !! q ≠ d !! q → ∃ e, e ∈ es ∧ (q = path_resolve (render root) (we_path e) ∨
    (above q (path_resolve (render root) (we_path e)) ∧ d' !! q = Some NDir))) →
  wf_path (split_slash p) →
  tree d' root p = if bool_decide (p ∈ map we_path es) then tree d fork p else tree d root p.
Proof using Type.
  intros Hreg Hdiff Hinst Hrest Hp. case_bool_decide as Hin.
  - apply list_elem_of_fmap in Hin as (e & -> & He). unfold tree at 1.
    rewrite -(dst_eq root fork es d Hreg e He) Hinst // /installed_node.
    pose proof (df_sound _ _ _ Hdiff e He) as Hfit. case_bool_decide as Hs.
    + rewrite Hs in Hfit. by destruct Hfit as [_ ->].
    + unfold tree. rewrite -(src_eq root fork es d Hreg e He).
      destruct (d !! _) as [[| data mode|]|]; try done. simpl. by rewrite -Z.land_assoc.
  - destruct (decide (d' !! (root ++ split_slash p) = d !! (root ++ split_slash p))) as [E|Hne].
    { unfold tree. by rewrite E. }
    destruct (Hrest _ Hne) as (e & He & [E|[Hab E]]).
    + rewrite (dst_eq root fork es d Hreg e He) in E. apply app_inv_head, split_slash_inj in E as ->.
      destruct Hin. apply list_elem_of_fmap. by exists e.
    + unfold tree. rewrite E /=. assert (root ++ split_slash p ≠ []) as Hnil.
      { intros [_ Hn]%app_nil. by destruct (split_slash_nonempty p) as (x & l & Ex); rewrite Ex in Hn. }
      by destruct (rg_clear _ _ _ _ Hreg e _ He Hab Hnil) as [-> | ->].
Qed.

(** C10. A commit by files is a serial execution, under these conditions: the write set
    is [regular] (as in C9) and lists what the fork changed; Git lists what the
    workspace changed since the base; the later commits that touched an added or
    removed path report it as added or removed ([reported]; otherwise
    [masked_removal_is_not_seen]); and what the transaction writes depends on the base
    only through the files it is recorded to have read, to depend on or to have written
    and through the direct entries of the directories it listed ([runs_as], [agrees]; a directory added
    deeper is not noticed: [new_directory_is_not_seen]). If then the validation finds no
    conflict, applying the write set succeeds, and leaves in the
    workspace, file by file, what the transaction would have left had it run there,
    on the workspace as it is now, instead of on its base. *)
Theorem commit_is_serial mine others changes base T d :
  real_path_law fs_of → regular root fork (te_writeSet mine) d →
  diff_of base (tree d root) changes → reported others changes →
  diff_of base (tree d fork) (te_writeSet mine) →
  runs_as mine base T → (∀ p, wf_path (split_slash p) → T base p = tree d fork p) →
  conflicts_of mine others changes = [] →
  ∃ d', apply fs_of (render root) (render fork) (te_writeSet mine) d = (Ok tt, d') ∧
    ∀ p, wf_path (split_slash p) → tree d' root p = T (tree d root) p.
Proof using Type.
  intros Hlaw Hreg Hmain Hrep Hfork Hruns Hbase Hc.
  pose proof (installing_refl root fork (te_writeSet mine) d Hreg) as Hin.
  destruct (apply_installs_from fs_of root fork Hlaw (te_writeSet mine) d Hreg (te_writeSet mine) d Hin) as (d1 & Hrun & _ & Hinst); [done|apply Hreg|].
  exists d1. split; [done|]. intros p Hp.
  rewrite (applied_tree (te_writeSet mine) d d1 base p) //.
  - rewrite (Hruns (tree d root)) //; [|by eapply no_conflict_agrees]. case_bool_decide; [by rewrite Hbase|done].
  - apply Hinst.
  - intros q Hq. eapply installs_only; [exact Hinst|done].
Qed.
End Serial.

(** ** A commit beside a change of another file *)

Definition serial_base : Disk := list_to_map
  [(["w"], NDir); (["w"; "a"], NFile "old" 420); (["w"; "gone"], NFile "x" 420); (["w"; "z"], NFile "1" 420)].
Definition serial_disk : Disk := list_to_map
  [(["w"], NDir); (["w"; "a"], NFile "old" 420); (["w"; "gone"], NFile "x" 420); (["w"; "z"], NFile "2" 420);
   (["f"], NDir); (["f"; "a"], NFile "new" 420); (["f"; "d"], NDir); (["f"; "d"; "b"], NFile "y" 493);
   (["f"; "z"], NFile "1" 420)].
Definition serial_effects : TransactionEffects :=
  mkEffects atime (Some ["a"; "./"]) (Some ["a"; "gone"]) sample_writes
    (mkIndex "/w" None [] None None None None ix_declared_roots [] "").
(** It reads [a], rewrites it, adds [d/b] and removes [gone]. *)
Definition serial_run (X : Tree) : Tree := λ p,
  if bool_decide (p = "a") then match X "a" with Some (NFile "old" m) => Some (NFile "new" m) | n => n end
  else if bool_decide (p = "d/b") then Some (NFile "y" 493)
  else if bool_decide (p = "gone") then None else X p.
Lemma tree_cases (d : Disk) root p : tree d root p = None ∨ ∃ n, (root ++ split_slash p, n) ∈ map_to_list d.
Proof.
  unfold tree. destruct (d !! _) as [n|] eqn:E; [|by left]. right. exists n. by apply elem_of_map_to_list.
Qed.

Definition serial_paths : list string := ["a"; "gone"; "z"; "d"; "d/b"].
Lemma serial_elsewhere p : p ∉ serial_paths →
  tree serial_base ["w"] p = None ∧ tree serial_disk ["w"] p = None ∧ tree serial_disk ["f"] p = None.
Proof.
  intros Hp. assert (∀ d r,
    bool_decide (Forall (λ kn, kn.1 ∈ [r] :: map (λ q, r :: split_slash q) serial_paths ∨ take 1 kn.1 ≠ [r])
      (map_to_list d)) = true → tree d [r] p = None) as Hnone.
  { intros d r Hd%bool_decide_eq_true. destruct (tree_cases d [r] p) as [?|(n & Hn)]; [done|].
    rewrite Forall_forall in Hd. destruct (Hd _ Hn) as [[E|Hin]%elem_of_cons|Hne]; [..|done].
    - by destruct (split_slash_nonempty p) as (x & l & Ex); rewrite Ex in E.
    - apply list_elem_of_fmap in Hin as (q & [= E%split_slash_inj] & Hq). by subst. }
  split_and!; apply Hnone; vm_compute; reflexivity.
Qed.
Lemma serial_cases (P : string → Prop) :
  P "a" → P "gone" → P "z" → P "d" → P "d/b" → (∀ p, p ∉ serial_paths → P p) → ∀ p, P p.
Proof.
  intros H1 H2 H3 H4 H5 Hn p. destruct (decide (p ∈ serial_paths)) as [Hp|Hp]; [|by apply Hn].
  repeat (apply elem_of_cons in Hp as [->|Hp]; [done|]). by apply elem_of_nil in Hp.
Qed.

Lemma serial_main : diff_of (tree serial_base ["w"]) (tree serial_disk ["w"]) [mkWrite ws_M "z"].
Proof.
  split.
  - intros w Hw. apply elem_of_cons in Hw as [->|Hw]; [by split|]. by apply elem_of_nil in Hw.
  - intros p _. pattern p; apply serial_cases; clear p; try (intros Hn; destruct Hn; vm_compute; reflexivity).
    + intros _. exists (mkWrite ws_M "z"). split; [left|done].
    + intros p Hp Hn. destruct Hn. by destruct (serial_elsewhere p Hp) as (-> & -> & _).
Qed.
Lemma serial_fork : diff_of (tree serial_base ["w"]) (tree serial_disk ["f"]) sample_writes.
Proof.
  split.
  - intros w Hw. repeat (apply elem_of_cons in Hw as [->|Hw]; [by split|]). by apply elem_of_nil in Hw.
  - intros p _. pattern p; apply serial_cases; clear p; try (intros Hn; destruct Hn; vm_compute; reflexivity).
    + intros _. exists (mkWrite ws_M "a"). split; [left|done].
    + intros _. exists (mkWrite ws_D "gone"). split; [right; right; left|done].
    + intros _. exists (mkWrite ws_A "d/b"). split; [right; left|done].
    + intros p Hp Hn. destruct Hn. by destruct (serial_elsewhere p Hp) as (-> & _ & ->).
Qed.
Lemma serial_runs : runs_as serial_effects (tree serial_base ["w"]) serial_run.
Proof.
  intros X Hag p Hp. unfold serial_run.
  assert (X "a" = tree serial_base ["w"] "a") as ->.
  { apply (ag_files _ _ _ Hag); [repeat constructor; done|left; left]. }
  case_bool_decide as H1; [subst; by rewrite bool_decide_true; [|left]|].
  case_bool_decide as H2; [subst; by rewrite bool_decide_true; [|right; left]|].
  case_bool_decide as H3; [subst; by rewrite bool_decide_true; [|right; right; left]|].
  rewrite bool_decide_false; [done|]. intros Hin.
  repeat (apply elem_of_cons in Hin as [?|Hin]; [done|]). by apply elem_of_nil in Hin.
Qed.
Lemma serial_regular : regular ["w"] ["f"] sample_writes serial_disk.
Proof. regular_tac. Qed.

Example commit_is_serial_witness : ∃ d',
  apply plain_fs "/w" "/f" sample_writes serial_disk = (Ok tt, d') ∧
  tree d' ["w"] "a" = Some (NFile "new" 420) ∧ tree d' ["w"] "z" = Some (NFile "2" 420).
Proof.
  destruct (commit_is_serial plain_fs ["w"] ["f"] serial_effects [] [mkWrite ws_M "z"]
    (tree serial_base ["w"]) serial_run serial_disk plain_law serial_regular serial_main) as (d' & Hrun & Ht).
  - intros w e w' _ He. by apply elem_of_nil in He.
  - exact serial_fork.
  - exact serial_runs.
  - intros p _. pattern p; apply serial_cases; clear p; try (vm_compute; reflexivity).
    intros p Hp. unfold serial_run. destruct (serial_elsewhere p Hp) as (E & _ & ->).
    rewrite !bool_decide_false; [done|intros ->; apply Hp..]; vm_compute; set_solver.
  - vm_compute. reflexivity.
  - exists d'. split; [exact Hrun|]. split; (rewrite Ht; [vm_compute; reflexivity|repeat constructor; done]).
Defined.

(** ** What the check does not see *)

(** A file in a new directory is no entry of the directory that was listed. *)
Example new_directory_is_not_seen :
  conflicts_of (mkEffects atime (Some ["a/"]) (Some []) [] (te_workspaceIndex serial_effects)) []
    [mkWrite ws_A "a/b/c"] = [].
Proof. vm_compute. reflexivity. Qed.
(** A removal around the transactions is taken for the modification another reported:
    the [reported] of [commit_is_serial] is needed. *)
Example masked_removal_is_not_seen :
  let row := mkJournalRow 9 "dom" None None "TX_COMMITTED"
    (JObj [("txId", JStr "tx-2"); ("root", JStr "/w"); ("writeSet", js_writes [mkWrite ws_M "a/x"])])
    (Iso 0) "" None None None None "TX_COMMITTED" sens_internal (Iso 0) in
  conflicts_of (mkEffects atime (Some ["a/"]) (Some []) [] (te_workspaceIndex serial_effects)) [row]
    [mkWrite ws_D "a/x"] = [].
Proof. vm_compute. reflexivity. Qed.
