(* ===== verification/CommitIsolation.v ===== *)
(** * CommitIsolation: an unfinished commit keeps its workspace locked

    The journal of a domain says which commits have begun to write and have not
    finished; [isolated] says that the roots of each are locked by it, as the rebuild
    of a restart locks them. No method of the transactions breaks it, whatever
    fails in between. *)

From S2P Require Import Prelude Types Events Encode Config Store StoreCalls Samples Paths Domain Rows.
From S2P Require Import DomainInv DomainSpec ReleaseSpec WorkTree WorkTreeSpec Causal Index Observations Transactions.

(** ** The scan of the journal *)

Definition tx_scan (d : ExecutionDomain) : outcome error TxScan :=
  scan_txs (mkTxScan [] []) (select_journal (dom_id d) 0 (db (dom_store d))).

Record isolated (d : ExecutionDomain) : Prop := {
  isol_seq : (0 ≤ db_journal_seq (db (dom_store d)))%Z;
  isol_locks : jm_ok (inMemoryLockedResources d);
  isol_scan : ∃ scan, tx_scan d = Ok scan ∧
    ∀ t roots root, (t, roots) ∈ tx_pending scan → root ∈ roots →
      getResourceOwner d (write_resource root) = Some (t +:+ ":apply");
}.
(** [t] has no commit that is begun and not finished. *)
Definition settled (t : string) (d : ExecutionDomain) : Prop :=
  ∀ scan, tx_scan d = Ok scan → t ∉ (tx_pending scan).*1.

Lemma scan_txs_app s l l' : scan_txs s (l ++ l') = scan_txs s l ≫= λ s', scan_txs s' l'.
Proof.
  revert s. induction l as [|e l IH]; intros s; [done|]. simpl. destruct (scan_tx s e); simpl; [apply IH|done].
Qed.
Lemma scan_plain s e : startsWith (je_type e) "TX_" = false → scan_tx s e = Ok s.
Proof. unfold scan_tx. by intros ->. Qed.

Lemma select_with_row dom row d :
  select_journal dom 0 (with_journal row d) =
  select_journal dom 0 d ++ (if bool_decide (je_domain_id row = dom) && bool_decide (0 ≤ je_seq row)%Z then [row] else []).
Proof. unfold select_journal. simpl. rewrite List.filter_app. simpl. by case_match. Qed.

(** A row that is not of a transaction leaves every scan as it is. *)
Definition same_scan : relation Db := λ d d',
  (db_journal_seq d ≤ db_journal_seq d')%Z ∧
  ∀ dom, scan_txs (mkTxScan [] []) (select_journal dom 0 d') = scan_txs (mkTxScan [] []) (select_journal dom 0 d).
#[export] Instance same_scan_preorder : PreOrder same_scan.
Proof.
  split; [by split|]. intros d1 d2 d3 [H1 E1] [H2 E2]. split; [lia|]. intros dom. by rewrite E2.
Qed.

Lemma same_scan_row row d : (je_seq row = db_journal_seq d + 1)%Z → startsWith (je_type row) "TX_" = false →
  same_scan d (with_journal row d).
Proof.
  intros Hseq Ht. split; [simpl; lia|]. intros dom. rewrite select_with_row.
  destruct (_ && _); [|by rewrite app_nil_r]. rewrite scan_txs_app.
  destruct (scan_txs _ _) as [s|]; [|done]. simpl. by rewrite scan_plain.
Qed.
Lemma respects_plain_event now ev : startsWith (nullish (ev_event ev) (ev_type ev)) "TX_" = false →
  respects (on_db same_scan) (recordEventAndTransitionState now ev).
Proof.
  intros Ht s. destruct (recordEvent_cases now ev s) as [[e ->]|(row & -> & Hadm & Hty & _)];
    unfold on_db; simpl; [reflexivity|]. apply same_scan_row; [apply Hadm|by rewrite Hty].
Qed.

(** ** Locks *)

(** What [op] does on its own account: the locks of others stay. *)
Record calm (op : string) (d d' : ExecutionDomain) : Prop := {
  calm_id : dom_id d' = dom_id d;
  calm_scan : same_scan (db (dom_store d)) (db (dom_store d'));
  calm_ok : jm_ok (inMemoryLockedResources d) → jm_ok (inMemoryLockedResources d');
  calm_locks r o : jm_ok (inMemoryLockedResources d) → getResourceOwner d r = Some o → o ≠ op → truthy_str o = true →
    getResourceOwner d' r = Some o;
}.
#[export] Instance calm_preorder op : PreOrder (calm op).
Proof.
  split; [by split|]. intros d1 d2 d3 [I1 S1 O1 L1] [I2 S2 O2 L2].
  split; [congruence|by etransitivity|by eauto|]. intros r o Hok Hr Hne Ho. apply L2; auto.
Qed.

Lemma calm_same_locks op d d' : dom_id d' = dom_id d → same_scan (db (dom_store d)) (db (dom_store d')) →
  inMemoryLockedResources d' = inMemoryLockedResources d → calm op d d'.
Proof. intros Hid Hs Hl. split; [done|done|by rewrite Hl|]. intros r o _. unfold getResourceOwner. by rewrite Hl. Qed.

Lemma calm_on_store op {A} (m : SM A) : respects (on_db same_scan) m → respects (calm op) (on_store m).
Proof.
  intros Hm d. unfold on_store, focus. destruct (dom_lockHeld d); [|reflexivity].
  specialize (Hm (dom_store d)). destruct (m (dom_store d)) as [o s']. by apply calm_same_locks.
Qed.
Lemma calm_query op {A} (f : Db → A) : respects (calm op) (on_store (query f)).
Proof. apply calm_on_store, respects_query, _. Qed.
Lemma calm_memory op (f : ExecutionDomain → ExecutionDomain) :
  (∀ d, dom_id (f d) = dom_id d ∧ dom_store (f d) = dom_store d ∧ inMemoryLockedResources (f d) = inMemoryLockedResources d) →
  respects (calm op) (modify (E:=error) f).
Proof.
  intros Hf. apply respects_modify. intros d. destruct (Hf d) as (H1 & H2 & H3). apply calm_same_locks; [done| |done].
  rewrite H2. reflexivity.
Qed.
Lemma calm_assertNotFenced op : respects (calm op) assertNotFenced.
Proof. unfold assertNotFenced, getOwner. pose proof (@calm_query op). respects_tac. Qed.

(** Allocation takes no lock away, whoever asks. *)
Lemma calm_allocate op op' res w b : respects (calm op') (allocateResources op res w b).
Proof.
  unfold allocateResources. apply respects_bind; [apply _|apply calm_assertNotFenced|intros _].
  intros d. rewrite run_gets. destruct (first_held _ _ _) as [[r o]|] eqn:Hh; [reflexivity|].
  unfold check_cap, getActiveOperationIds. autorewrite with xio_run.
  assert (calm op' d (grant op res b d)) as Hg.
  { split; [done|reflexivity| |].
    - simpl. generalize (inMemoryLockedResources d). clear. induction res as [|r res IH]; [done|]. intros l Hl.
      simpl. apply IH. unfold jm_ok in *. rewrite jm_set_keys. by apply NoDup_js_add.
    - intros r o _ Hr _ Ho. rewrite grant_owner. case_bool_decide as Hin; [|done].
      rewrite first_held_None in Hh. destruct (decide (o = op)) as [->|Hne]; [done|]. by destruct (Hh r o Hin Hr). }
  destruct (concurrency_cap d) as [cap|]; [|exact Hg]. autorewrite with xio_run.
  unfold getUnfinishedOperations, on_store, focus, mbind, ST_bind.
  destruct (dom_lockHeld d); [|reflexivity]. simpl. rewrite set_store_same. by destruct (_ && _).
Qed.
Lemma calm_process_items op now cancelled items : ∀ reserved blocked,
  respects (calm op) (process_items now cancelled items reserved blocked).
Proof.
  pose proof calm_allocate. assert (∀ id o, respects (calm op) (settle id o)) by (intros; by apply calm_memory).
  induction items as [|item items IH]; intros reserved blocked; simpl; respects_tac.
Qed.
Lemma calm_processWaitQueue op now cancelled : respects (calm op) (processWaitQueue now cancelled).
Proof.
  pose proof calm_process_items. unfold processWaitQueue. respects_tac. intros d. by apply calm_memory.
Qed.

Lemma jm_ok_delete {A} (m : list (string * A)) k : jm_ok m → jm_ok (jm_delete m k).
Proof.
  unfold jm_ok, jm_delete. induction m as [|[k' v] m IH]; [done|]. simpl. intros [Hk Hm]%NoDup_cons.
  case_bool_decide; simpl; [by apply IH|]. apply NoDup_cons. split; [|by apply IH].
  intros Hin. apply Hk. apply list_elem_of_fmap in Hin as ([k'' v''] & E & Hin).
  apply list_elem_of_In, filter_In in Hin as [Hin _]. apply list_elem_of_fmap. exists (k'', v'').
  split; [done|by apply list_elem_of_In].
Qed.
Lemma calm_unlock_all op d : calm op d (foldl (λ d res, lock_unlock res d) d (held_by op d)).
Proof.
  destruct (unlock_all_frame (held_by op d) d) as (Hid & _ & _ & _ & _ & Hs & _ & Hr). split.
  - done.
  - rewrite Hs. reflexivity.
  - clear. generalize (held_by op d). intros l. revert d. induction l as [|r l IH]; intros d Hd; [done|].
    simpl. apply IH. simpl. by apply jm_ok_delete.
  - intros r o Hok Ho Hne _. rewrite Hr. case_bool_decide as Hin; [|done].
    apply held_by_spec in Hin; [congruence|done].
Qed.

Lemma calm_release op now cancelled : respects (calm op) (internalReleaseResources now cancelled op None).
Proof.
  unfold internalReleaseResources. apply respects_bind; [apply _|apply calm_assertNotFenced|intros _].
  intros d. rewrite run_get_state. unfold mbind at 1, ST_bind at 1.
  assert (∃ o, on_store (verifyEpochFencing (dom_id d)) d = (o, d)) as (o & ->).
  { unfold on_store, focus. destruct (dom_lockHeld d); [|by eexists].
    unfold verifyEpochFencing, query, gets, lift, mbind, ST_bind.
    destruct (fencing_error _ _); simpl; rewrite set_store_same; by eexists. }
  destruct o as [[]|]; [|reflexivity]. cbn zeta. autorewrite with xio_run.
  apply respects_after; [apply _|apply calm_unlock_all|].
  pose proof (calm_processWaitQueue op now cancelled).
  assert (respects (calm op) (on_store (releaseResourceLease op None))).
  { apply calm_on_store. unfold releaseResourceLease. apply respects_exec. by intros. }
  assert (∀ p, respects (calm op) (on_store (recordEventAndTransitionState now
    (simple_event (dom_id d) None (Some op) "RESOURCES_RELEASED" p (Iso now))))).
  { intros p. by apply calm_on_store, respects_plain_event. }
  assert (respects (calm op) (modify (E:=error) (forget_op op))) by by apply calm_memory.
  respects_tac.
Qed.

(** Its other leases are not named like that of a commit. *)
Fixpoint last_char (s : string) : option ascii :=
  match s with EmptyString => None | String a EmptyString => Some a | String _ t => last_char t end.
Lemma last_char_append s a t : last_char (s +:+ String a t) = last_char (String a t).
Proof. induction s as [|b s IH]; [done|]. simpl in *. rewrite -IH. by destruct s. Qed.
Lemma not_apply_owner u t a s : last_char (String a s) ≠ Some "y"%char → u +:+ ":apply" ≠ t +:+ String a s.
Proof. intros Hne E. apply (f_equal last_char) in E. rewrite !last_char_append in E. by destruct Hne. Qed.

(** What touches no lock. *)
Definition same_locks : relation ExecutionDomain := λ d d', inMemoryLockedResources d' = inMemoryLockedResources d.
#[export] Instance same_locks_preorder : PreOrder same_locks.
Proof. split; [done|]. intros d1 d2 d3. unfold same_locks. congruence. Qed.
Lemma same_locks_on_store {A} (m : SM A) : respects same_locks (on_store m).
Proof.
  intros d. unfold on_store, focus. destruct (dom_lockHeld d); [|reflexivity].
  by destruct (m (dom_store d)).
Qed.
Lemma same_locks_assertNotFenced : respects same_locks assertNotFenced.
Proof. pose proof @same_locks_on_store. unfold assertNotFenced. respects_tac. Qed.
Lemma same_locks_assertAvailable op : respects same_locks (assertOperationIdAvailable op).
Proof.
  pose proof @same_locks_on_store. pose proof same_locks_assertNotFenced. unfold assertOperationIdAvailable. respects_tac.
Qed.
Lemma allocate_locks op res w b d d' r : allocateResources op res w b d = (Ok tt, d') →
  getResourceOwner d' r = if bool_decide (r ∈ res) then Some op else getResourceOwner d r.
Proof.
  unfold allocateResources. intros ([] & d1 & H1 & H2)%bind_Ok_inv.
  pose proof (same_locks_assertNotFenced d) as Hl. rewrite H1 /= in Hl. rewrite run_gets in H2.
  destruct (first_held _ _ _) as [[]|]; [done|]. apply bind_Ok_inv in H2 as (capped & d2 & Hc & H2).
  assert (same_locks d1 d2) as Hl2.
  { replace d2 with (check_cap op w d1).2 by by rewrite Hc. unfold check_cap, getActiveOperationIds.
    pose proof @same_locks_on_store. revert d1 H1 Hl Hc. assert (respects same_locks (check_cap op w)) as Hr.
    { unfold check_cap, getActiveOperationIds. respects_tac. } intros d1 _ _ _. apply Hr. }
  destruct capped; [done|]. injection H2 as <-. rewrite grant_owner. unfold getResourceOwner. by rewrite Hl2 Hl.
Qed.

(** ** What every method keeps *)

(** The isolation of the domain, and that [t] has no unfinished commit. *)
Definition stays (t : string) : relation ExecutionDomain := λ d d',
  dom_id d' = dom_id d ∧ (isolated d → isolated d' ∧ (settled t d → settled t d')).
#[export] Instance stays_preorder t : PreOrder (stays t).
Proof.
  split; [by split|]. intros d1 d2 d3 [I1 H1] [I2 H2]. split; [congruence|]. intros Hd.
  destruct (H1 Hd) as [Hd2 Hs]. destruct (H2 Hd2). tauto.
Qed.
(** The same, for the commit of [t] before it is durable. *)
Definition quiet (t : string) : relation ExecutionDomain := λ d d',
  dom_id d' = dom_id d ∧ (isolated d ∧ settled t d → isolated d' ∧ settled t d').
#[export] Instance quiet_preorder t : PreOrder (quiet t).
Proof. split; [by split|]. intros d1 d2 d3 [I1 H1] [I2 H2]. split; [congruence|tauto]. Qed.
Lemma stays_quiet t d d' : stays t d d' → quiet t d d'.
Proof. intros [Hid H]. split; [done|tauto]. Qed.

Lemma length_append s t : String.length (s +:+ t) = (String.length s + String.length t)%nat.
Proof. induction s as [|a s IH]; [done|]. simpl. by rewrite IH. Qed.
Lemma append_inj_l s t u : s +:+ u = t +:+ u → s = t.
Proof.
  revert t. induction s as [|a s IH]; intros [|b t]; [done|..].
  - intros E%(f_equal String.length). rewrite !length_append in E. simpl in E. lia.
  - intros E%(f_equal String.length). rewrite !length_append in E. simpl in E. lia.
  - simpl. intros [= -> ->%IH]. done.
Qed.

Section Calm.
Context (op : string) (d d' : ExecutionDomain) (Hcalm : calm op d d').

Lemma calm_tx_scan : tx_scan d' = tx_scan d.
Proof using Hcalm. unfold tx_scan. rewrite (calm_id _ _ _ Hcalm). apply (calm_scan _ _ _ Hcalm). Qed.
Lemma calm_isolated : isolated d → (∀ scan t, tx_scan d = Ok scan → t ∈ (tx_pending scan).*1 → t +:+ ":apply" ≠ op) →
  isolated d'.
Proof using Hcalm.
  intros [Hseq Hok (scan & Hscan & Hlocks)] Hne. split.
  - destruct (calm_scan _ _ _ Hcalm) as [? _]. lia.
  - by apply (calm_ok _ _ _ Hcalm).
  - exists scan. rewrite calm_tx_scan. split; [done|]. intros t roots root Ht Hroot.
    apply (calm_locks _ _ _ Hcalm); [done|by eapply Hlocks| |apply apply_truthy].
    apply (Hne scan t Hscan). apply list_elem_of_fmap. by exists (t, roots).
Qed.
Lemma calm_stays t : (∀ u, u +:+ ":apply" ≠ op) → stays t d d'.
Proof using Hcalm.
  intros Hop. split; [apply Hcalm|]. intros Hd. split; [apply calm_isolated; [done|by intros]|].
  unfold settled. by rewrite calm_tx_scan.
Qed.
End Calm.
Lemma calm_quiet t d d' : calm (t +:+ ":apply") d d' → quiet t d d'.
Proof.
  intros Hcalm. split; [apply Hcalm|]. intros [Hd Hs]. split.
  - apply (calm_isolated _ _ _ Hcalm); [done|]. intros scan u Hscan Hu E%append_inj_l. subst. by apply (Hs scan).
  - unfold settled. by rewrite (calm_tx_scan _ _ _ Hcalm).
Qed.

(** ** The rows of a transaction *)

Definition with_row (row : JournalRow) (d : ExecutionDomain) : ExecutionDomain :=
  set_store (mkStore (with_journal row (db (dom_store d))) (currentEpoch (dom_store d)) (inTransaction (dom_store d))) d.

Definition next_row (d : ExecutionDomain) (type txId : string) (row : JournalRow) : Prop :=
  je_seq row = (db_journal_seq (db (dom_store d)) + 1)%Z ∧ je_domain_id row = dom_id d ∧ je_type row = type ∧
  jfield (je_payload row) "txId" = Some (JStr txId).

Section Row.
Context (d : ExecutionDomain) (type txId : string) (row : JournalRow) (Hrow : next_row d type txId row).
Context (Htx : startsWith type "TX_" = true).

Lemma tx_scan_row : isolated d → tx_scan (with_row row d) = tx_scan d ≫= λ s, scan_tx s row.
Proof using Hrow.
  pose proof Hrow as (Hs & Hd & _). intros [Hseq _ _]. unfold tx_scan. simpl. rewrite select_with_row.
  rewrite bool_decide_true // bool_decide_true; [|lia]. simpl. rewrite scan_txs_app.
  destruct (scan_txs _ _) as [s|]; [|done]. simpl. by destruct (scan_tx s row).
Qed.

(** A row that ends commits or leaves them as they are. *)
Lemma row_isolated s' : isolated d →
  (∀ s, tx_scan d = Ok s → scan_tx s row = Ok (s' s)) →
  (∀ s t roots root, tx_scan d = Ok s → (t, roots) ∈ tx_pending (s' s) → root ∈ roots →
    getResourceOwner d (write_resource root) = Some (t +:+ ":apply")) →
  isolated (with_row row d).
Proof using Hrow.
  intros Hd Hs Hp. destruct (isol_scan _ Hd) as (s & Hscan & _). split.
  - simpl. pose proof Hrow as (Hq & _). pose proof (isol_seq _ Hd). lia.
  - apply Hd.
  - exists (s' s). rewrite tx_scan_row // Hscan /= Hs //. split; [done|]. intros t roots root. by apply Hp.
Qed.

Lemma row_stays t : type ≠ "TX_COMMITTING" → stays t d (with_row row d).
Proof using Hrow Htx.
  intros Hne. split; [done|]. intros Hd. destruct (isol_scan _ Hd) as (s & Hscan & Hlocks).
  assert (∃ s1, scan_tx s row = Ok s1 ∧ ∀ p, p ∈ tx_pending s1 → p ∈ tx_pending s) as (s' & Hs' & Hsub).
  { pose proof Hrow as (_ & _ & Hty & Hid). unfold scan_tx. rewrite Hty Htx Hid /=.
    case_bool_decide; [by eexists|]. rewrite bool_decide_false //.
    destruct (_ || _); eexists; (split; [done|]); simpl; [|done].
    intros p. unfold jm_delete. by rewrite !list_elem_of_In filter_In => -[]. }
  split.
  - apply (row_isolated (λ _, s')); [done|congruence|]. intros s0 t' roots root _ Hp. apply Hlocks. by apply Hsub.
  - intros Hset s0. rewrite tx_scan_row // Hscan /= Hs'. intros [= <-] Hin. apply (Hset s Hscan).
    apply list_elem_of_fmap in Hin as (p & -> & Hp). apply list_elem_of_fmap. exists p. split; [done|by apply Hsub].
Qed.

(** The commit is over. *)
Lemma row_settles : type = "TX_COMMITTED" → isolated d → settled txId (with_row row d).
Proof using Hrow Htx.
  intros Hc Hd s0. destruct (isol_scan _ Hd) as (s & Hscan & _). rewrite tx_scan_row // Hscan /=.
  pose proof Hrow as (_ & _ & Hty & Hid). unfold scan_tx. rewrite Hty Htx Hid Hc /=. intros [= <-] Hin. simpl in Hin.
  apply list_elem_of_fmap in Hin as ([t roots] & E & Hp). simpl in E. subst t. unfold jm_delete in Hp.
  apply list_elem_of_In, filter_In in Hp as [_ Hp]. simpl in Hp. by rewrite bool_decide_true in Hp.
Qed.

(** The commit begins to write: it has the locks of both its roots. *)
Lemma row_committing target source : type = "TX_COMMITTING" →
  jfield (je_payload row) "root" = Some (JStr target) → jfield (je_payload row) "sourceRoot" = Some (JStr source) →
  getResourceOwner d (write_resource target) = Some (txId +:+ ":apply") →
  getResourceOwner d (write_resource source) = Some (txId +:+ ":apply") →
  isolated d → isolated (with_row row d).
Proof using Hrow Htx.
  intros Hc Ht Hs Hlt Hls Hd. destruct (isol_scan _ Hd) as (s & Hscan & Hlocks).
  apply (row_isolated (λ s, mkTxScan (tx_roots s) (jm_set (tx_pending s) txId (js_set [target; source])))); [done|..].
  - intros s0 _. pose proof Hrow as (_ & _ & Hty & Hid). unfold scan_tx. rewrite Hty Htx Hid Hc /= Ht Hs. done.
  - intros s0 t roots root Hs0 Hp Hroot. assert (s0 = s) as -> by congruence. simpl in Hp.
    assert ((t, roots) = (txId, js_set [target; source]) ∨ (t, roots) ∈ tx_pending s) as [[= -> ->]|Hold].
    { revert Hp. clear. generalize (tx_pending s). intros l. induction l as [|[k v] l IH]; simpl.
      - intros Hp. apply elem_of_cons in Hp as [->|Hp]; [by left|]. by apply elem_of_nil in Hp.
      - case_decide; intros Hp; apply elem_of_cons in Hp as [Hp|Hp].
        + by left.
        + right. by right.
        + right. rewrite Hp. left.
        + destruct (IH Hp); [by left|right; by right]. }
    + rewrite elem_of_js_set in Hroot. apply elem_of_cons in Hroot as [->|Hroot]; [done|].
      apply elem_of_cons in Hroot as [->|Hroot]; [done|]. by apply elem_of_nil in Hroot.
    + by apply (Hlocks t roots root).
Qed.
End Row.

(** ** The methods *)

Section Isolation.
Context {W : Type} `{!TransactionHost W, !Crypto} (now : Z) (cancelled : nat → bool).
Notation Manager := (@WorkspaceTransactions W).

Definition mgr (R : relation ExecutionDomain) : relation Manager := λ m m', R (wt_domain m) (wt_domain m').
#[local] Instance mgr_preorder R `{!PreOrder R} : PreOrder (mgr R).
Proof using Type.
  split; unfold mgr; [intros m; reflexivity|]. intros m1 m2 m3 H1 H2. by etransitivity.
Qed.

(** What the host keeps: no call of it ends the isolation of a commit. *)
Record host_stays : Prop := {
  hs_capture t runId id root : respects (λ s s', stays t s.1 s'.1) (captureSnapshot (W:=W) runId id root);
  hs_materialize t id p : respects (λ s s', stays t s.1 s'.1) (materialize (W:=W) id p);
  hs_dematerialize t p owner : respects (λ s s', stays t s.1 s'.1) (dematerialize (W:=W) p owner);
  hs_prune t id runId : respects (λ s s', stays t s.1 s'.1) (pruneSnapshot (W:=W) id runId);
}.
Record observations_stay (o : ObservationValidation Manager) : Prop := {
  os_replay t e root : respects (mgr (stays t)) (ov_replay o e root);
  os_cutoff t f e seen i root : ov_canCutoff o = Some f → respects (mgr (stays t)) (f e seen i root);
}.

Section Lift.
Context (R : relation ExecutionDomain) `{!PreOrder R}.

Lemma mgr_on_domain {A} (m : DM A) : respects R m → respects (mgr R) (on_domain (W:=W) m).
Proof using Type.
  intros Hm s. unfold on_domain, focus. specialize (Hm (wt_domain s)). by destruct (m (wt_domain s)).
Qed.
Lemma mgr_on_host {A} (m : ST error (ExecutionDomain * W) A) :
  respects (λ s s', R s.1 s'.1) m → respects (mgr R) (on_host m).
Proof using Type.
  intros Hm s. unfold on_host, focus. specialize (Hm (wt_domain s, wt_files s)).
  by destruct (m _) as [o [d w]].
Qed.
Lemma mgr_same {A} (m : ST error Manager A) : (∀ s, wt_domain (m s).2 = wt_domain s) → respects (mgr R) m.
Proof using Type*. intros Hm s. unfold mgr. rewrite Hm. reflexivity. Qed.
Lemma mgr_on_files {A} (m : ST error W A) : respects (mgr R) (on_files m).
Proof using Type*. apply mgr_same. intros s. unfold on_files, focus. by destruct (m _). Qed.
Lemma mgr_reading {A} (f : W → outcome error A) : respects (mgr R) (reading f).
Proof using Type*. by apply mgr_same. Qed.
Lemma mgr_in_fs {A} (f : FileSystem → A) : respects (mgr R) (in_fs f).
Proof using Type*. by apply mgr_same. Qed.
Lemma mgr_set_open f : respects (mgr R) (modify (E:=error) (set_open (W:=W) f)).
Proof using Type*. by apply mgr_same. Qed.
End Lift.

Lemma record_cases runId type id fs (m : Manager) o m' :
  record now runId type (("txId", JStr id) :: fs) m = (o, m') →
  match o with
  | Throw _ => m' = m
  | Ok _ => ∃ row fs', m' = set_domain (with_row row (wt_domain m)) m ∧ next_row (wt_domain m) type id row ∧
      je_payload row = JObj fs' ∧ map_fields jsonValue (("txId", JStr id) :: fs) = Ok fs'
  end.
Proof using Type.
  unfold record, on_domain, focus. rewrite run_get_state. unfold on_store, focus.
  destruct m as [d w open]. cbn [wt_domain].
  destruct (dom_lockHeld d); [|by intros [= <- <-]].
  destruct (recordJournalEvent now _ (dom_store d)) as [o1 s1] eqn:Hrec.
  intros [= <- <-]. apply simple_row in Hrec. destruct o1 as [seq|e].
  - destruct Hrec as (row & fs' & -> & _ & Hseq & Hdom & Hty & _ & _ & Hp & Hfs).
    exists row, fs'. split; [done|]. split; [|done]. split; [done|]. split; [done|]. split; [done|].
    rewrite Hp /=. eapply map_fields_get; [| | |exact Hfs|]; done.
  - subst s1. unfold set_domain. by rewrite set_store_same.
Qed.
Lemma stays_record runId type id fs t : startsWith type "TX_" = true → type ≠ "TX_COMMITTING" →
  respects (mgr (stays t)) (record (W:=W) now runId type (("txId", JStr id) :: fs)).
Proof using Type.
  intros Htx Hne m. destruct (record now runId type _ m) as [o m'] eqn:Hrec. apply record_cases in Hrec.
  destruct o as [seq|e]; [|subst; simpl; reflexivity]. destruct Hrec as (row & fs' & -> & Hrow & _).
  unfold mgr. simpl. by apply (row_stays _ type id).
Qed.
Lemma stays_allocate op res w b t : respects (mgr (stays t)) (on_domain (W:=W) (allocateResources op res w b)).
Proof using Type.
  apply mgr_on_domain. intros d. apply (calm_stays ""); [apply calm_allocate|]. intros u. by destruct u.
Qed.
Lemma stays_release_owner op t : (∀ u, u +:+ ":apply" ≠ op) → respects (mgr (stays t)) (release_owner (W:=W) now cancelled op).
Proof using Type.
  intros Hop. apply mgr_on_domain. intros d. apply (calm_stays op); [apply calm_release|done].
Qed.
Lemma stays_assertAvailable op t : respects (mgr (stays t)) (on_domain (W:=W) (assertOperationIdAvailable op)).
Proof using Type.
  apply mgr_on_domain. assert (respects (calm "") (assertOperationIdAvailable op)) as Hc.
  { pose proof (@calm_query ""). pose proof (calm_assertNotFenced ""). unfold assertOperationIdAvailable, getOperation. respects_tac. }
  intros d. apply (calm_stays ""); [apply Hc|]. intros u. by destruct u.
Qed.
Lemma stays_query {A} (f : Db → A) t : respects (mgr (stays t)) (on_domain (W:=W) (on_store (query f))).
Proof using Type.
  apply mgr_on_domain. intros d. apply (calm_stays ""); [apply calm_query|]. intros u. by destruct u.
Qed.

Ltac stays_tac :=
  repeat first
    [ progress (eauto 4 with xio typeclass_instances)
    | apply stays_query | apply stays_allocate | apply stays_assertAvailable
    | apply stays_record; [reflexivity|discriminate]
    | apply mgr_on_files, _ | apply mgr_reading, _ | apply mgr_in_fs, _ | apply mgr_set_open, _
    | respects_step ].

Section Methods.
Context (t : string) (Hhost : host_stays).
Notation stays_m := (respects (mgr (stays t))).

Lemma stays_events seq : stays_m (events_from (W:=W) seq).
Proof using Type.
  unfold events_from, getJournalEvents. intros m. unfold on_domain, focus. rewrite run_get_state.
  apply (stays_query (select_journal _ seq) t m).
Qed.
Lemma stays_journal id : stays_m (journal (W:=W) id).
Proof using Type. pose proof stays_events. unfold journal. stays_tac. Qed.
Lemma stays_snapshot id : stays_m (getSnapshot_ (W:=W) id).
Proof using Type. unfold getSnapshot_, getSnapshot. stays_tac. Qed.
Lemma stays_changes repo root base : stays_m (changes_since (W:=W) repo root base).
Proof using Type. unfold changes_since, relative. stays_tac. Qed.
Lemma stays_effects tx hints : stays_m (effects now tx hints).
Proof using Type.
  pose proof stays_journal. pose proof stays_snapshot. pose proof stays_changes.
  unfold effects, fork_changes. cbn zeta. stays_tac.
Qed.
Lemma stays_validate tx mine : stays_m (validate (W:=W) tx mine).
Proof using Type.
  pose proof stays_events. pose proof stays_snapshot. pose proof stays_changes.
  unfold validate, mainChangesSinceBase. stays_tac.
Qed.
Lemma stays_processInFork tx : stays_m (processInFork (W:=W) tx).
Proof using Type. pose proof stays_events. unfold processInFork, realpathSync. stays_tac. Qed.
Lemma stays_discard tx : stays_m (discardReplayFork (W:=W) tx).
Proof using Hhost.
  pose proof stays_journal. pose proof stays_snapshot.
  assert (∀ p owner, stays_m (on_host (dematerialize (W:=W) p owner))) by (intros; apply mgr_on_host, Hhost).
  assert (∀ p r, stays_m (on_host (pruneSnapshot (W:=W) p r))) by (intros; apply mgr_on_host, Hhost).
  unfold discardReplayFork, existsSync. stays_tac.
Qed.
Lemma stays_replay (o : ObservationValidation Manager) root : observations_stay o →
  ∀ log i cut m, mgr (stays t) m (replay_from o root i cut log m).2.
Proof using Type.
  intros Ho. assert (∀ i e, stays_m (replay_step o root i e)) as Hstep.
  { intros i e. pose proof (os_replay o Ho t e root). unfold replay_step.
    destruct (ov_canCutoff o) as [f|] eqn:Hf; [|stays_tac].
    pose proof (λ seen, os_cutoff o Ho t f e seen i root Hf). stays_tac. }
  induction log as [|e log IH]; intros i cut m; simpl; [reflexivity|].
  specialize (Hstep i e m). destruct (replay_step o root i e m) as [[v|err] m1]; [|exact Hstep].
  destruct v; [etransitivity; [exact Hstep|apply IH]..|exact Hstep].
Qed.
Lemma stays_replay_on_fork tx (o : ObservationValidation Manager) : observations_stay o →
  stays_m (replay_on_fork (W:=W) now tx o).
Proof using Hhost.
  intros Ho. pose proof stays_journal. pose proof stays_discard.
  assert (∀ p owner, stays_m (on_host (dematerialize (W:=W) p owner))) by (intros; apply mgr_on_host, Hhost).
  assert (∀ p r, stays_m (on_host (pruneSnapshot (W:=W) p r))) by (intros; apply mgr_on_host, Hhost).
  assert (∀ p r, stays_m (on_host (materialize (W:=W) p r))) by (intros; apply mgr_on_host, Hhost).
  assert (∀ p q r, stays_m (on_host (captureSnapshot (W:=W) p q r))) by (intros; apply mgr_on_host, Hhost).
  assert (∀ root, stays_m (λ m, let '(r, m') := replayObservationLog o root m in (Ok (E:=error) r, m'))).
  { intros root m. pose proof (stays_replay o root Ho (ov_log o) 0 [] m). unfold replayObservationLog.
    by destruct (replay_from _ _ _ _ _ _). }
  unfold replay_on_fork, realpathSync, relative. cbn zeta. stays_tac.
Qed.

Lemma stays_finally {A} owner (body : ST error Manager A) : (∀ u, u +:+ ":apply" ≠ owner) →
  stays_m body → stays_m (finally_release now cancelled owner body).
Proof using Type.
  intros Hown Hb m. unfold finally_release. specialize (Hb m). destruct (body m) as [o m1].
  pose proof (stays_release_owner owner t Hown m1) as Hr.
  destruct (release_owner now cancelled owner m1) as [[[]|e] m2]; (etransitivity; [exact Hb|exact Hr]).
Qed.
Lemma stays_require id : stays_m (require (W:=W) id).
Proof using Type. pose proof stays_journal. unfold require, existsSync. cbn zeta. stays_tac. Qed.
Lemma stays_set_status id st : stays_m (set_status (W:=W) id st).
Proof using TransactionHost0 W t. apply mgr_set_open, _. Qed.
Lemma stays_conflicted id tx cs e obs : stays_m (conflicted (W:=W) now id tx cs e obs).
Proof using TransactionHost0 W now t. pose proof stays_set_status. unfold conflicted. stays_tac. Qed.

Lemma stays_inspect id hints : stays_m (inspect (W:=W) now cancelled id hints).
Proof using Type.
  pose proof stays_require. unfold inspect, with_fork_lease. stays_tac.
  apply stays_finally; [intros u; by apply not_apply_owner|apply stays_effects].
Qed.
Lemma stays_abort id reason : stays_m (abortSerialized (W:=W) now cancelled id reason).
Proof using Hhost.
  pose proof stays_require. pose proof stays_discard.
  assert (∀ p owner, stays_m (on_host (dematerialize (W:=W) p owner))) by (intros; apply mgr_on_host, Hhost).
  unfold abortSerialized, with_fork_lease. cbn zeta. stays_tac.
  apply stays_finally; [intros u; by apply not_apply_owner|]. stays_tac.
Qed.
Lemma stays_begin o : stays_m (begin (W:=W) now o).
Proof using Hhost.
  pose proof stays_journal. pose proof stays_snapshot.
  assert (∀ p r, stays_m (on_host (materialize (W:=W) p r))) by (intros; apply mgr_on_host, Hhost).
  assert (∀ p q r, stays_m (on_host (captureSnapshot (W:=W) p q r))) by (intros; apply mgr_on_host, Hhost).
  unfold begin, base_snapshot, realpathSync, resolve, relative, getRun. cbn zeta. stays_tac.
Qed.

(** ** The commit *)

Notation CommitState := (@Commit W).
Definition co_domain (c : CommitState) : ExecutionDomain := wt_domain (co_manager c).

(** Before the commit is durable. *)
Definition early : relation CommitState := λ c c',
  co_durable c' = co_durable c ∧ co_committed c' = co_committed c ∧ quiet t (co_domain c) (co_domain c').
#[local] Instance early_preorder : PreOrder early.
Proof using Type.
  split; [intros c; unfold early, quiet; by split_and!|]. intros c1 c2 c3 (Ed1 & Ec1 & Hq1) (Ed2 & Ec2 & Hq2). split_and!; [congruence..|by etransitivity].
Qed.
Lemma early_on_tx {A} (m : ST error Manager A) : stays_m m → respects early (on_tx m).
Proof using Type.
  intros Hm c. unfold on_tx, focus. specialize (Hm (co_manager c)). destruct (m _) as [o m'].
  unfold early. split_and!; [done..|]. by apply stays_quiet.
Qed.
Lemma early_set_held b : respects early (set_held (W:=W) b).
Proof using Type. intros c. unfold early, quiet. by split_and!. Qed.
Lemma early_release : respects early (release (W:=W) now cancelled t).
Proof using Type.
  unfold release. apply respects_bind; [apply _| |intros _; apply early_set_held].
  intros c. unfold on_tx, release_owner, on_domain, focus.
  pose proof (calm_release (t +:+ ":apply") now cancelled (wt_domain (co_manager c))) as Hc.
  unfold leaseOwner. destruct (internalReleaseResources _ _ _ _ _) as [o d'].
  unfold early. split_and!; [done..|]. by apply calm_quiet.
Qed.
(** At any time. *)
Definition during : relation CommitState := λ c c',
  co_durable c' = co_durable c ∧ co_committed c' = co_committed c ∧ stays t (co_domain c) (co_domain c').
#[local] Instance during_preorder : PreOrder during.
Proof using Type.
  split; [intros c; unfold during; split_and!; [done..|reflexivity]|].
  intros c1 c2 c3 (Ed1 & Ec1 & Hq1) (Ed2 & Ec2 & Hq2). split_and!; [congruence..|by etransitivity].
Qed.
Lemma during_on_tx {A} (m : ST error Manager A) : stays_m m → respects during (on_tx m).
Proof using Type.
  intros Hm c. unfold on_tx, focus. specialize (Hm (co_manager c)). destruct (m _) as [o m'].
  unfold during. split_and!; done.
Qed.
Lemma during_acquire committing roots : respects during (acquire (W:=W) t committing roots).
Proof using Type.
  unfold acquire, getOperation.
  assert (∀ b, respects during (set_held (W:=W) b)).
  { intros b c. unfold during. split_and!; [done..|simpl; reflexivity]. }
  assert (∀ op res w b, respects during (on_tx (W:=W) (on_domain (allocateResources op res w b)))).
  { intros. apply during_on_tx, stays_allocate. }
  assert (∀ op, respects during (on_tx (W:=W) (on_domain (assertOperationIdAvailable op)))).
  { intros. apply during_on_tx, stays_assertAvailable. }
  assert (∀ A (f : Db → A), respects during (on_tx (W:=W) (on_domain (on_store (query f))))).
  { intros. apply during_on_tx, stays_query. }
  respects_tac.
Qed.
Lemma during_resume tx committing e : respects during (resume (W:=W) t tx committing e).
Proof using Type.
  pose proof during_acquire. pose proof (λ p, during_on_tx (existsSync (W:=W) p) ltac:(unfold existsSync; stays_tac)).
  unfold resume. cbn zeta. respects_tac.
Qed.
Lemma early_acquire committing roots : respects early (acquire (W:=W) t committing roots).
Proof using Type.
  intros c. destruct (during_acquire committing roots c) as (Hd & Hc & Hs). split_and!; [done..|by apply stays_quiet].
Qed.

Lemma early_prepare tx committing hints obs : (∀ o, obs = Some o → observations_stay o) →
  respects early (prepare (W:=W) now cancelled t tx committing hints obs).
Proof using Hhost.
  intros Hobs. pose proof early_acquire. pose proof early_release.
  pose proof (λ tx hints, early_on_tx _ (stays_effects tx hints)).
  pose proof (λ tx mine, early_on_tx _ (stays_validate tx mine)).
  pose proof (λ id tx cs e obs, early_on_tx _ (stays_conflicted id tx cs e obs)).
  pose proof (λ tx, early_on_tx _ (stays_processInFork tx)).
  pose proof (λ root base, early_on_tx (fork_changes (W:=W) root base) ltac:(unfold fork_changes; pose proof stays_changes; stays_tac)).
  assert (∀ id type fs, startsWith type "TX_" = true → type ≠ "TX_COMMITTING" →
    respects early (on_tx (record (W:=W) now id type (("txId", JStr (tx_txId tx)) :: fs)))).
  { intros. apply early_on_tx. by apply stays_record. }
  assert (∀ o, obs = Some o → respects early (on_tx (replay_on_fork (W:=W) now tx o))).
  { intros o Ho. apply early_on_tx, stays_replay_on_fork. by apply Hobs. }
  unfold prepare, validateByObservations. respects_tac.
Qed.

(** *** The locks of its roots *)

Definition holds (root : string) (c : CommitState) : Prop :=
  getResourceOwner (co_domain c) (write_resource root) = Some (t +:+ ":apply").
Definition still : relation CommitState := λ c c', same_locks (co_domain c) (co_domain c').
#[local] Instance still_preorder : PreOrder still.
Proof using Type.
  split; [intros c; unfold still; reflexivity|]. intros c1 c2 c3 Hs1 Hs2. unfold still in *. by etransitivity.
Qed.
Lemma still_holds c c' root : still c c' → holds root c → holds root c'.
Proof using Type. unfold still, same_locks, holds, getResourceOwner. by intros ->. Qed.
Lemma still_on_tx {A} (m : ST error Manager A) : respects (mgr same_locks) m → respects still (on_tx m).
Proof using Type. intros Hm c. unfold on_tx, focus. specialize (Hm (co_manager c)). by destruct (m _). Qed.

Lemma acquire_holds committing roots (c c' : CommitState) : acquire t committing roots c = (Ok tt, c') →
  (∀ root, root ∈ roots → holds root c') ∧ ∀ root, holds root c → holds root c'.
Proof using Type.
  unfold acquire. rewrite run_gets. intros (u & c1 & Hpre & H1)%bind_Ok_inv.
  assert (still c c1) as Hs.
  { replace c1 with ((if co_held c : bool then mret tt
     else match committing with
     | Some _ =>
         op ← on_tx (on_domain (on_store (getOperation (leaseOwner t))));
         throw_if (negb (is_undef op)) (Err "Workspace commit owner belongs to a registered operation")
     | None => on_tx (on_domain (assertOperationIdAvailable (leaseOwner t)))
     end : ST error CommitState unit) c).2 by by rewrite Hpre.
    match goal with |- still c (?m c).2 => assert (respects still m) as Hr; [|apply Hr] end.
    assert (∀ A (f : SM A), respects still (on_tx (W:=W) (on_domain (on_store f)))).
    { intros. apply still_on_tx, mgr_on_domain, same_locks_on_store. }
    assert (∀ op, respects still (on_tx (W:=W) (on_domain (assertOperationIdAvailable op)))).
    { intros. apply still_on_tx, mgr_on_domain, same_locks_assertAvailable. }
    respects_tac. }
  apply bind_Ok_inv in H1 as ([] & c2 & Hall & [= <-]).
  unfold on_tx, on_domain, focus in Hall. destruct (allocateResources _ _ _ _ _) as [o d'] eqn:Ha.
  injection Hall as -> <-.
  assert (∀ root, holds root (set_held true (mkCommit (set_domain d' (co_manager c1)) (co_held c1) (co_durable c1) (co_committed c1))).2
    ↔ root ∈ roots ∨ holds root c1) as Hiff.
  { intros root. unfold holds. simpl. unfold co_domain. simpl. rewrite (allocate_locks _ _ _ _ _ _ _ Ha).
    case_bool_decide as Hin.
    - split; [|done]. intros _. left. apply list_elem_of_fmap in Hin as (x & E & Hx).
      apply (inj (String.append "workspace:write:")) in E as ->. by rewrite elem_of_js_set in Hx.
    - unfold holds, co_domain. split; [by right|]. intros [Hr|Hr]; [|done]. destruct Hin.
      apply list_elem_of_fmap. exists root. by rewrite elem_of_js_set. }
  split; intros root Hr; apply Hiff; [by left|right; by eapply still_holds].
Qed.
Lemma still_store {A} (m : SM A) : respects (mgr same_locks) (on_domain (W:=W) (on_store m)).
Proof using Type. apply mgr_on_domain, same_locks_on_store. Qed.
Ltac still_tac :=
  repeat first
    [ progress (eauto 4 with xio typeclass_instances)
    | apply still_store
    | apply mgr_on_files, _ | apply mgr_reading, _ | apply mgr_in_fs, _ | apply mgr_set_open, _
    | respects_step ].
Lemma still_events seq : respects (mgr same_locks) (events_from (W:=W) seq).
Proof using Type.
  unfold events_from. intros m. unfold on_domain, focus. rewrite run_get_state.
  apply (still_store (getJournalEvents _ seq) m).
Qed.
Lemma still_record id type fs : respects (mgr same_locks) (record (W:=W) now id type fs).
Proof using Type.
  unfold record. intros m. unfold on_domain, focus. rewrite run_get_state. apply (still_store _ m).
Qed.
Lemma still_fork_changes root base : respects (mgr same_locks) (fork_changes (W:=W) root base).
Proof using Type. unfold fork_changes, changes_since, relative. still_tac. Qed.
Lemma still_effects tx hints : respects (mgr same_locks) (effects now tx hints).
Proof using Type.
  pose proof still_events. pose proof still_record. pose proof still_fork_changes.
  unfold effects, journal, getSnapshot_. cbn zeta. still_tac.
Qed.
Lemma still_validate tx mine : respects (mgr same_locks) (validate (W:=W) tx mine).
Proof using Type.
  pose proof still_events. unfold validate, mainChangesSinceBase, changes_since, relative, getSnapshot_. still_tac.
Qed.

(** A plan comes with the locks of its two roots. *)
Lemma observed_plan_holds tx e cs (o : ObservationValidation Manager) (c c' : CommitState) plan :
  validateByObservations now t tx None e cs o c = (Ok (inr plan), c') → holds (cp_sourceRoot plan) c'.
Proof using Type.
  unfold validateByObservations. destruct (write_conflict e cs); [done|].
  intros (escaped & c1 & _ & H1)%bind_Ok_inv. destruct escaped.
  { by apply bind_Ok_inv in H1 as (? & ? & _ & ?). }
  apply bind_Ok_inv in H1 as (replayed & c2 & _ & H1). destruct replayed as [|[replayRoot snapshot]]; [done|].
  apply bind_Ok_inv in H1 as ([] & c3 & Hacq & H1). apply bind_Ok_inv in H1 as (ws & c4 & Hch & H1).
  injection H1 as <- <-. simpl. apply acquire_holds in Hacq as [Hacq _].
  apply (still_holds c3); [|by apply Hacq; left].
  pose proof (still_on_tx _ (still_fork_changes replayRoot snapshot) c3) as Hs. by rewrite Hch in Hs.
Qed.
Lemma prepared_holds tx hints obs (c c' : CommitState) plan cs :
  prepare now cancelled t tx None hints obs c = (Ok (inr (plan, cs)), c') →
  holds (tx_root tx) c' ∧ holds (cp_sourceRoot plan) c'.
Proof using Type.
  unfold prepare. intros ([] & c1 & Hacq & H1)%bind_Ok_inv. apply acquire_holds in Hacq as [Hacq _].
  apply bind_Ok_inv in H1 as (e & c2 & He & H1). apply bind_Ok_inv in H1 as (conflicts & c3 & Hv & H1).
  pose proof (still_on_tx _ (still_effects tx hints) c1) as Hs1. rewrite He /= in Hs1.
  pose proof (still_on_tx _ (still_validate tx e) c2) as Hs2. rewrite Hv /= in Hs2.
  destruct conflicts as [|x cs'].
  - injection H1 as <- <- <-. simpl.
    split; (eapply still_holds; [exact Hs2|eapply still_holds; [exact Hs1|apply Hacq]]); [left|right; left].
  - apply bind_Ok_inv in H1 as ([] & c4 & _ & H1). destruct obs as [o|].
    2:{ by apply bind_Ok_inv in H1 as (? & ? & _ & ?). }
    apply bind_Ok_inv in H1 as (answer & c5 & Hans & H1). destruct answer as [outcome|plan'].
    { by apply bind_Ok_inv in H1 as (? & ? & _ & ?). }
    apply bind_Ok_inv in H1 as ([] & c6 & Hacq' & [= <- <- <-]).
    apply acquire_holds in Hacq' as [Hroot Hkeep]. split; [apply Hroot; left|].
    by eapply Hkeep, observed_plan_holds.
Qed.

(** *** The body, and the leases after it *)

Lemma early_still_valid tx plan cs : respects early (still_valid (W:=W) now cancelled t tx None plan cs).
Proof using Hhost.
  pose proof early_release.
  pose proof (λ tx, early_on_tx _ (stays_discard tx)).
  pose proof (λ id hints, early_on_tx _ (stays_inspect id hints)).
  pose proof (λ id tx cs e obs, early_on_tx _ (stays_conflicted id tx cs e obs)).
  assert (∀ id, respects early (on_tx (unchangedSince (W:=W) tx id))).
  { intros id. apply early_on_tx. unfold unchangedSince, getSnapshot_, getSnapshot. stays_tac. }
  unfold still_valid. respects_tac.
Qed.
Lemma still_valid_still tx plan cs (c c' : CommitState) :
  still_valid now cancelled t tx None plan cs c = (Ok None, c') → still c c'.
Proof using Type.
  unfold still_valid. destruct (cp_replay plan) as [[f id]|]; [|by intros [= <-]].
  intros (b & c1 & Hu & H1)%bind_Ok_inv.
  assert (respects still (on_tx (unchangedSince (W:=W) tx id))) as Hr.
  { apply still_on_tx. unfold unchangedSince, getSnapshot_. still_tac. }
  specialize (Hr c). rewrite Hu in Hr. destruct b; [by injection H1 as <-|].
  do 4 (apply bind_Ok_inv in H1 as (? & ? & _ & H1)). done.
Qed.

Definition fine (c : CommitState) : Prop :=
  isolated (co_domain c) ∧ (co_durable c = false ∨ co_committed c = true → settled t (co_domain c)).

Lemma early_fine (c c' : CommitState) : co_durable c = false → early c c' → fine c → fine c'.
Proof using Type.
  intros Hd (Ed & Ec & Hq) [Hi Hs]. destruct Hq as [_ Hq]. destruct (Hq (conj Hi (Hs (or_introl Hd)))). by split.
Qed.

(** From the write set on: the commit is durable, or this is its second life. *)
Lemma finish_fine (f : ST error W unit) run fs g (c c' : CommitState) o :
  isolated (co_domain c) → co_durable c = true → co_committed c = false →
  (on_tx (on_files f);; on_tx (record now run "TX_COMMITTED" (("txId", JStr t) :: fs));; set_committed;;
   on_tx (modify (set_open g))) c = (o, c') → fine c'.
Proof using Type.
  intros Hi Hd Hc. assert (∀ m : Manager, wt_domain m = co_domain c →
    fine (mkCommit m (co_held c) (co_durable c) (co_committed c))) as Hsame.
  { intros m E. split; unfold co_domain; simpl; rewrite E; [done|]. rewrite Hd Hc. by intros []. }
  unfold mbind at 1, ST_bind at 1. destruct (on_tx (on_files f) c) as [o1 c1] eqn:H1.
  assert (∃ m1, c1 = mkCommit m1 (co_held c) (co_durable c) (co_committed c) ∧ wt_domain m1 = co_domain c) as (m1 & -> & Hm1).
  { revert H1. unfold on_tx, on_files, focus. destruct (f _) as [o' w']. intros [= <- <-]. by eexists. }
  destruct o1 as [[]|err]; [|intros [= <- <-]; by apply Hsame].
  unfold mbind at 1, ST_bind at 1. unfold on_tx at 1, focus at 1. cbn [co_manager co_held co_durable co_committed].
  destruct (record now run _ _ m1) as [o2 m2] eqn:Hrec. apply record_cases in Hrec.
  destruct o2 as [seq|err]; [|intros [= <- <-]; subst; by apply Hsame].
  destruct Hrec as (row & fs' & -> & Hrow & _). intros [= <- <-]. rewrite Hm1 in Hrow.
  unfold fine, co_domain. simpl. rewrite Hm1. split.
  - by apply (row_stays _ _ _ _ Hrow eq_refl t).
  - intros _. by apply (row_settles _ _ _ _ Hrow).
Qed.

Lemma apply_plan_fine tx plan committing (c c' : CommitState) o :
  isolated (co_domain c) → co_committed c = false →
  match committing with
  | Some _ => co_durable c = true
  | None => co_durable c = false ∧ settled t (co_domain c) ∧ holds (tx_root tx) c ∧ holds (cp_sourceRoot plan) c
  end →
  apply_plan now t tx committing plan c = (o, c') → fine c'.
Proof using Type.
  intros Hi Hc Hcase. unfold apply_plan. cbn zeta. destruct committing as [e|].
  { rewrite run_ret. by apply finish_fine. }
  destruct Hcase as (Hd & Hset & Hroot & Hsource). rewrite run_assoc. unfold mbind at 1, ST_bind at 1.
  unfold on_tx at 1, focus at 1. destruct (record now _ _ _ (co_manager c)) as [o1 m1] eqn:Hrec.
  apply record_cases in Hrec. destruct o1 as [seq|err].
  - destruct Hrec as (row & fs' & -> & Hrow & Hp & Hfs). unfold set_durable, set_status. rewrite !run_assoc !run_modify.
    unfold on_tx at 1, focus at 1. unfold mbind at 1, ST_bind at 1. cbn [modify].
    apply finish_fine; [|done|done]. unfold co_domain. simpl.
    apply (row_committing _ _ _ _ Hrow eq_refl (tx_root tx) (cp_sourceRoot plan)); try done.
    + rewrite Hp. eapply map_fields_get; [| | |exact Hfs|]; done.
    + rewrite Hp. eapply map_fields_get; [| | |exact Hfs|]; done.
  - subst m1. intros [= <- <-]. by split.
Qed.

Lemma commit_body_fine tx committing hints obs (m : Manager) (c' : CommitState) o :
  (∀ ob, obs = Some ob → observations_stay ob) →
  isolated (wt_domain m) → (committing = None → settled t (wt_domain m)) →
  commit_body now cancelled t tx committing hints obs (mkCommit m false (negb (is_undef committing)) false) = (o, c') →
  fine c'.
Proof using Hhost.
  intros Hobs Hi Hset. set (c0 := mkCommit m false (negb (is_undef committing)) false).
  unfold commit_body. unfold mbind at 1, ST_bind at 1. destruct committing as [e|].
  - unfold mbind at 1, ST_bind at 1. pose proof (during_resume tx (Some e) e c0) as Hd.
    destruct (resume t tx (Some e) e c0) as [[plan|err] c1]; destruct Hd as (Hd1 & Hc1 & _ & Hs1).
    2:{ intros [= <- <-]. split; [by apply Hs1|]. rewrite Hd1 Hc1. by intros []. }
    cbn [mret ST_ret]. unfold still_valid. rewrite run_ret. unfold mbind at 1, ST_bind at 1.
    destruct (apply_plan now t tx (Some e) plan c1) as [o3 c3] eqn:Hap.
    assert (fine c3) as Hf3 by (eapply apply_plan_fine; [by apply Hs1|exact Hc1| |exact Hap]; exact Hd1).
    destruct o3 as [[]|err]; by intros [= <- <-].
  - assert (fine c0) as Hf0 by (split; [done|by intros _; apply Hset]).
    destruct (prepare now cancelled t tx None hints obs c0) as [o1 c1] eqn:Hprep.
    pose proof (early_prepare tx None hints obs Hobs c0) as Hearly. rewrite Hprep /= in Hearly.
    pose proof (early_fine c0 c1 ltac:(reflexivity) Hearly Hf0) as Hf1.
    destruct Hearly as (Hd1 & Hc1 & _). simpl in Hd1, Hc1.
    destruct o1 as [[r|[plan cs]]|err]; [by intros [= <- <-]| |by intros [= <- <-]].
    apply prepared_holds in Hprep as [Hroot Hsource].
    unfold mbind at 1, ST_bind at 1. destruct (still_valid now cancelled t tx None plan cs c1) as [o2 c2] eqn:Hv.
    pose proof (early_still_valid tx plan cs c1) as Hearly2. rewrite Hv /= in Hearly2.
    pose proof (early_fine _ _ Hd1 Hearly2 Hf1) as Hf2.
    destruct Hearly2 as (Hd2 & Hc2 & _).
    destruct o2 as [[r|]|err]; [by intros [= <- <-]| |by intros [= <- <-]].
    apply still_valid_still in Hv. unfold mbind at 1, ST_bind at 1.
    destruct (apply_plan now t tx None plan c2) as [o3 c3] eqn:Hap.
    assert (fine c3) as Hf3.
    { eapply apply_plan_fine; [apply Hf2|congruence| |exact Hap]. split; [congruence|].
      split; [apply Hf2; left; congruence|]. split; by eapply still_holds. }
    destruct o3 as [[]|err]; by intros [= <- <-].
Qed.

Lemma settle_isolated {A} (body : ST error CommitState A) (c : CommitState) :
  fine (body c).2 → isolated (co_domain (settle_leases now cancelled t body c).2).
Proof using Type.
  unfold settle_leases. destruct (body c) as [o c1]. simpl. intros [Hi Hset].
  destruct (co_held c1 && _) eqn:Hb; [|done].
  assert (settled t (co_domain c1)) as Hs.
  { apply Hset. apply andb_true_iff in Hb as [_ Hb]. destruct (co_durable c1); [right|by left]. done. }
  pose proof (early_release c1) as (_ & _ & Hq). destruct (release now cancelled t c1) as [[[]|err] c2];
    destruct Hq as [_ Hq]; apply (Hq (conj Hi Hs)).
Qed.

Lemma pending_begun l u : ∀ s s', scan_txs s l = Ok s' → u ∈ (tx_pending s').*1 →
  u ∈ (tx_pending s).*1 ∨ ∃ e, e ∈ l ∧ je_type e = "TX_COMMITTING" ∧ txId_of e = Some u.
Proof using Type.
  induction l as [|e l IH]; intros s s'; simpl; [intros [= <-]; by left|].
  intros (s1 & Hs1 & Hs')%bind_Ok Hu. destruct (IH _ _ Hs' Hu) as [Hin|(e' & He' & Hr)]; [|right; exists e'; split; [by right|done]].
  unfold scan_tx in Hs1. destruct (startsWith (je_type e) "TX_"); [|injection Hs1 as <-; by left].
  destruct (jstring (jfield (je_payload e) "txId")) as [id|] eqn:Hid; [|injection Hs1 as <-; by left].
  case_bool_decide; [injection Hs1 as <-; by left|]. case_bool_decide as Hc.
  - destruct (jstring (jnullish _ (_ ≫= fst))) as [target|]; [|done].
    destruct (jstring (jnullish _ (_ ≫= snd))) as [source|]; [|done]. injection Hs1 as <-. simpl in Hin. rewrite jm_set_keys elem_of_js_add in Hin. destruct Hin as [Hin| ->]; [by left|].
    right. exists e. split; [left|]. split; [done|]. unfold txId_of.
    destruct (jfield (je_payload e) "txId") as [[]|]; simpl in *; congruence.
  - destruct (_ || _); injection Hs1 as <-; [|by left]. left. simpl in Hin.
    apply list_elem_of_fmap in Hin as (p & -> & Hp). apply list_elem_of_fmap. exists p. split; [done|].
    unfold jm_delete in Hp. by apply list_elem_of_In, filter_In in Hp as [?%list_elem_of_In _].
Qed.

Lemma journal_settled (m m' : Manager) events : journal t m = (Ok events, m') →
  m' = m ∧ (List.find (is_event "TX_COMMITTING") events = None → settled t (wt_domain m)).
Proof using Type.
  unfold journal. intros (rows & m1 & Hrows & [= <- <-])%bind_Ok_inv.
  unfold events_from, on_domain, focus in Hrows. rewrite run_get_state in Hrows.
  destruct (on_store _ _) as [o d'] eqn:Hq. injection Hrows as -> <-. apply on_query_Ok in Hq as [-> ->].
  split; [by destruct m|]. intros Hnone scan Hscan Hin.
  apply (pending_begun _ t _ _ Hscan) in Hin as [Hin|(e & He & Hty & Hid)]; [by apply elem_of_nil in Hin|].
  assert (is_event "TX_COMMITTING" e = true) as Hev by by apply bool_decide_eq_true.
  rewrite (List.find_none _ _ Hnone e) in Hev; [done|]. apply filter_In. split; [by apply list_elem_of_In|].
  rewrite Hty Hid. by rewrite bool_decide_true.
Qed.

Lemma commit_isolated hints obs (m : Manager) : (∀ ob, obs = Some ob → observations_stay ob) →
  isolated (wt_domain m) → isolated (wt_domain (commitSerialized now cancelled t hints obs m).2).
Proof using Hhost.
  intros Hobs Hi. unfold commitSerialized. unfold mbind at 1, ST_bind at 1.
  pose proof (stays_require t m) as [_ Hreq]. destruct (require t m) as [[tx|err] m1]; [|by apply Hreq].
  destruct (Hreq Hi) as [Hi1 _]. rewrite run_throw_if. destruct (bool_decide _); [done|].
  unfold mbind at 1, ST_bind at 1. pose proof (stays_journal t m1) as [_ Hj].
  destruct (journal t m1) as [[events|err] m2] eqn:Hjournal; [|by apply Hj].
  apply journal_settled in Hjournal as [-> Hset]. cbn zeta. unfold mbind at 1, ST_bind at 1.
  set (committing := List.find _ events) in *.
  pose proof (settle_isolated (commit_body now cancelled t tx committing hints obs)
    (mkCommit m1 false (negb (is_undef committing)) false)) as Hsettle.
  destruct (commit_body now cancelled t tx committing hints obs _) as [o c1] eqn:Hbody in Hsettle.
  pose proof (commit_body_fine tx committing hints obs m1 c1 o Hobs Hi1 Hset Hbody) as Hfine.
  specialize (Hsettle Hfine). destruct (settle_leases _ _ _ _ _) as [o2 c2]. simpl in Hsettle.
  destruct o2 as [[r|plan]|err]; [exact Hsettle| |exact Hsettle].
  assert (∀ p owner, stays_m (on_host (dematerialize (W:=W) p owner))) by (intros; apply mgr_on_host, Hhost).
  assert (∀ p r, stays_m (on_host (pruneSnapshot (W:=W) p r))) by (intros; apply mgr_on_host, Hhost).
  match goal with |- isolated (wt_domain (?k (co_manager c2)).2) =>
    assert (stays_m k) as Hk by stays_tac; apply (proj2 (Hk (co_manager c2)) Hsettle) end.
Qed.
End Methods.

(** What isolation is for: nobody else gets the root of an unfinished commit. *)
Lemma isolated_refuses d scan t roots root op w b : isolated d →
  tx_scan d = Ok scan → (t, roots) ∈ tx_pending scan → root ∈ roots → op ≠ t +:+ ":apply" →
  ∃ e, (allocateResources op [write_resource root] w b d).1 = Throw e.
Proof using Type.
  intros Hd Hscan Ht Hroot Hop. destruct (isol_scan _ Hd) as (scan' & E & Hlocks).
  assert (scan' = scan) as -> by congruence. specialize (Hlocks t roots root Ht Hroot).
  destruct (allocateResources op [write_resource root] w b d) as [[[]|e] d'] eqn:Ha; [|by eexists].
  exfalso. unfold allocateResources in Ha. apply bind_Ok_inv in Ha as ([] & d1 & H1 & H2).
  pose proof (same_locks_assertNotFenced d) as Hl. rewrite H1 /= in Hl. rewrite run_gets Hl in H2.
  destruct (first_held _ _ _) as [[]|] eqn:Hh; [done|]. rewrite first_held_None in Hh.
  apply (Hh (write_resource root) (t +:+ ":apply")); [left|done|]. split; [apply apply_truthy|done].
Qed.

(** C4. An unfinished commit keeps its workspace. Whatever a method of the transactions
    does - beginning, inspecting, aborting or committing any transaction, returning or
    throwing at any point, with the file system, Git and the replayed observations
    answering as they like - it leaves a domain in which the scan of the journal succeeds
    and the two roots of every commit that has begun to write and has not finished are
    locked by that commit; so no other operation is granted either root. The host keeps
    this too where it is called. *)
Theorem unfinished_commits_keep_their_workspace (m : Manager) :
  host_stays → isolated (wt_domain m) →
  (∀ o, isolated (wt_domain (begin now o m).2)) ∧
  (∀ t hints, isolated (wt_domain (inspect now cancelled t hints m).2)) ∧
  (∀ t reason, isolated (wt_domain (abortSerialized now cancelled t reason m).2)) ∧
  ∀ t hints obs, (∀ ob, obs = Some ob → observations_stay ob) →
    let d := wt_domain (commitSerialized now cancelled t hints obs m).2 in
    isolated d ∧
    ∀ scan u roots root op w b, tx_scan d = Ok scan → (u, roots) ∈ tx_pending scan → root ∈ roots →
      op ≠ u +:+ ":apply" → ∃ e, (allocateResources op [write_resource root] w b d).1 = Throw e.
Proof using Type.
  intros Hhost Hi. split_and!.
  - intros o. by apply (stays_begin "" Hhost o m).
  - intros t hints. by apply (stays_inspect "" t hints m).
  - intros t reason. by apply (stays_abort "" Hhost t reason m).
  - intros t hints obs Hobs. cbn zeta. pose proof (commit_isolated t Hhost hints obs m Hobs Hi) as Hd.
    split; [exact Hd|]. intros scan u roots root op w b. by apply isolated_refuses.
Qed.
End Isolation.

(** ** A commit that fails while it writes *)

(** The workspace "/w" and its fork "/f" of [sample_disk]; the third file of the
    write set is not in the fork. *)
Definition torn_writes : list WriteEntry := [mkWrite ws_M "a"; mkWrite ws_A "d/b"; mkWrite ws_A "lost"].
Definition record_capture (id root : string) : ST error (ExecutionDomain * Disk) SnapshotRef := λ s,
  let snapshot := mkSnapshotRef id "dom" "op-s" "git" [root] worktree_non_ignored ("tree:" +:+ root) None None (Iso 0) None None in
  match on_store (recordSnapshot snapshot) s.1 with
  | (Ok _, d) => (Ok snapshot, (d, s.2))
  | (Throw e, d) => (Throw e, (d, s.2))
  end.
#[export] Instance sample_host : TransactionHost Disk := {|
  disk := id; set_disk := λ d _, d; fs_of := plain_fs; driverName := "git";
  assertGitRepo _ root := Ok root;
  fingerprint root _ := mret ("tree:" +:+ root);
  diffTrees _ _ _ to _ := Ok (if bool_decide (to = "tree:/f") then torn_writes else []);
  probeReadTracking _ := mret unobserved_reads;
  normalizeAccessTimes _ := mret [];
  collectWorkspaceObservationIndex _ _ := Ok (mkObserved [] [] []);
  captureSnapshot _ id root := record_capture id root;
  materialize _ _ := mret tt; dematerialize _ _ := mret tt; pruneSnapshot _ _ := mret tt;
|}.
Definition torn_manager : WorkspaceTransactions (W:=Disk) :=
  (begin 50 (mkBegin "tx-1" "run-1" "/w" "/f" None) (mkManager sample_domain sample_disk [])).2.
Definition torn_commit := commitSerialized (H:=sample_crypto) 51 nobody "tx-1" None None torn_manager.

Lemma sample_host_stays : host_stays (W:=Disk).
Proof.
  assert (∀ t id root, respects (λ s s', stays t s.1 s'.1) (record_capture id root)) as Hcap.
  { intros t id root [d w]. unfold record_capture. cbn [fst snd].
    set (snapshot := mkSnapshotRef _ _ _ _ _ _ _ _ _ _ _ _).
    assert (respects (calm "") (on_store (recordSnapshot snapshot))) as Hc.
    { apply calm_on_store. unfold recordSnapshot. apply respects_bind; [apply _| |intros _].
      - apply respects_verifyEpochFencing, _.
      - apply respects_exec. by intros. }
    specialize (Hc d). destruct (on_store _ d) as [[[]|e] d']; simpl in *;
      (apply (calm_stays ""); [done|]; intros u; by destruct u). }
  split; intros; simpl; [apply Hcap|..]; intros s; simpl; reflexivity.
Qed.
Lemma torn_isolated : isolated (wt_domain torn_manager).
Proof.
  split.
  - vm_compute. discriminate.
  - apply (bool_decide_unpack _). vm_compute. exact I.
  - eexists. split; [vm_compute; reflexivity|]. intros t roots root Ht. by apply elem_of_nil in Ht.
Qed.

(** It has replaced one file and added another when it fails; nobody else gets "/w". *)
Example unfinished_commits_keep_their_workspace_witness :
  torn_commit.1 = Throw (Err "ENOENT") ∧ wt_files torn_commit.2 !! ["w"; "a"] = Some (NFile "new" 420) ∧
  ∃ e, (allocateResources "op-9" [write_resource "/w"] 0 None (wt_domain torn_commit.2)).1 = Throw e.
Proof.
  split; [vm_compute; reflexivity|]. split; [vm_compute; reflexivity|].
  destruct (unfinished_commits_keep_their_workspace (H:=sample_crypto) 51 nobody torn_manager sample_host_stays torn_isolated)
    as (_ & _ & _ & Hcommit).
  destruct (Hcommit "tx-1" None None ltac:(discriminate)) as [_ Hrefuse].
  eapply (Hrefuse _ "tx-1" ["/w"; "/f"] "/w" "op-9" 0%Z None); [vm_compute; reflexivity|left|left|discriminate].
Defined.
