(* ===== verification/CommitRecord.v ===== *)
(** * CommitRecord: a commit in the journal, and back

    The row a commit writes before it touches the workspace is all a later process has
    of it. It reads back as the plan that was being applied. *)

From S2P Require Import Prelude Types Events Encode Config Store StoreCalls Samples Domain Rows.
From S2P Require Import WorkTree Causal CausalSpec CausalRecord Index IndexSpec Observations Transactions CommitIsolation.

Section Record.
Context {W : Type} `{!TransactionHost W, !Crypto} (now : Z).
Notation Manager := (@WorkspaceTransactions W).

Definition journaled_effects (e : TransactionEffects) : TransactionEffects :=
  mkEffects (te_readTracking e) (te_readSet e) (te_pathDependencies e) (te_writeSet e) (journaled (te_workspaceIndex e)).

Lemma json_js_writes ws : jsonValue (js_writes ws) = Ok (js_writes ws).
Proof using Type.
  change (jsonValue (js_writes ws)) with (l ← map_outcome jsonValue (map js_write ws); Ok (JArr l)). by rewrite json_writes.
Qed.
Lemma js_effects_journaled e : jsonValue (js_effects e) = Ok (js_effects (journaled_effects e)).
Proof using Type.
  unfold js_effects. set (fs := [_; _; _; _; _]).
  change (jsonValue (JObj fs)) with (fs' ← map_fields jsonValue fs; Ok (JObj fs')). unfold fs.
  keep. rewrite keep_field; [|vm_compute; reflexivity|by destruct (te_readSet e)].
  rewrite (json_nullable js_strings (te_readSet e)); [|apply json_strings].
  rewrite keep_field; [|vm_compute; reflexivity|by destruct (te_pathDependencies e)].
  rewrite (json_nullable js_strings (te_pathDependencies e)); [|apply json_strings].
  keep. rewrite json_js_writes. keep. rewrite js_index_journaled. done.
Qed.

Lemma journaled_same i : (∀ k h, (k, h) ∈ default [] (ix_symbolSlice i) → SECRET_KEY k = false) → journaled i = i.
Proof using Type.
  destruct i as [root reads writes disc [l|] man deps cov basis digest]; [|done]. simpl. intros Hk.
  unfold journaled, with_slice. simpl. by rewrite (kept_all l Hk).
Qed.
Lemma strings_or_null_back o : strings_or_null (Some (jnull js_strings o)) = o.
Proof using Type. destruct o as [l|]; [apply strings_read|done]. Qed.
Lemma writes_of_back ws : writes_of (js_writes ws) = Some ws.
Proof using Type. unfold writes_of, js_writes. simpl. apply writes_back. Qed.

Lemma dropped_field fs fs' k : (∀ v, (k, v) ∈ fs → v = JUndef) → map_fields jsonValue fs = Ok fs' → jm_get fs' k = None.
Proof using Type.
  revert fs'. induction fs as [|[k' v] fs IH]; intros fs' Hk; simpl; [by intros [= <-]|].
  assert (∀ v', (k, v') ∈ fs → v' = JUndef) as Hk' by (intros v' Hv'; apply Hk; by right).
  destruct (SECRET_KEY k'); [by apply IH|]. destruct (is_undefined v) eqn:Hu; [by apply IH|].
  intros (v1 & _ & (r & Hr & [= <-])%bind_Ok)%bind_Ok. simpl. case_decide as E; [|by apply IH].
  subst k'. rewrite (Hk v ltac:(left)) in Hu. done.
Qed.

(** The row reads back: the read and write sets, the dependencies, the root to copy
    from, how it was validated and the fork that was replayed. *)
Lemma committing_row_back (m m' : Manager) txId tx plan seq :
  let i := te_workspaceIndex (cp_effects plan) in
  sealed i → (∀ k h, (k, h) ∈ default [] (ix_symbolSlice i) → SECRET_KEY k = false) →
  record now (tx_runId tx) "TX_COMMITTING" (committing_payload txId tx plan) m = (Ok seq, m') →
  ∃ row, db_journal_events (db (dom_store (wt_domain m'))) = db_journal_events (db (dom_store (wt_domain m))) ++ [row] ∧
    jfield (je_payload row) "isolationVersion" ≫= as_int = Some 1%Z ∧
    recovered_plan tx (je_payload row) = Ok plan.
Proof using Type.
  intros i Hseal Hk Hrec. apply record_cases in Hrec as (row & fs' & -> & _ & Hp & Hfs).
  exists row. split; [reflexivity|]. rewrite Hp. change (map_fields jsonValue (committing_payload txId tx plan) = Ok fs') in Hfs.
  assert (∀ k v, SECRET_KEY k = false → v ≠ JUndef → jsonValue v = Ok v →
    jm_get (committing_payload txId tx plan) k = Some v → jfield (JObj fs') k = Some v) as Hget.
  { intros k v H1 H2 H3 H4. exact (map_fields_get _ _ _ _ H1 H2 H3 Hfs H4). }
  split; [by rewrite (Hget "isolationVersion" (JZ 1) eq_refl ltac:(discriminate) eq_refl eq_refl)|].
  assert (jfield (JObj fs') "replay" ≫= replay_of = cp_replay plan) as Hreplay.
  { destruct (cp_replay plan) as [[f s]|] eqn:Er.
    - rewrite (Hget "replay" (js_replay (f, s)) eq_refl ltac:(discriminate) eq_refl); [reflexivity|].
      unfold committing_payload. rewrite Er. reflexivity.
    - change (jm_get fs' "replay" ≫= replay_of = None). rewrite (dropped_field _ _ "replay" _ Hfs); [done|].
      unfold committing_payload. rewrite Er. intros v Hv.
      clear -Hv. repeat (apply elem_of_cons in Hv as [Hv|Hv]; [first [discriminate Hv | injection Hv as ->; reflexivity]|]).
      by apply elem_of_nil in Hv. }
  assert (jfield (JObj fs') "effects" = Some (js_effects (cp_effects plan))) as Heffects.
  { apply Hget; [reflexivity|discriminate| |reflexivity]. rewrite js_effects_journaled.
    unfold journaled_effects. rewrite (journaled_same _ Hk). by destruct (cp_effects plan). }
  pose proof (Hget "sourceRoot" (JStr (cp_sourceRoot plan)) eq_refl ltac:(discriminate) eq_refl eq_refl) as Hsource.
  pose proof (Hget "validation" (JStr (validation_name (cp_validation plan))) eq_refl ltac:(discriminate) eq_refl eq_refl) as Hvalidation.
  pose proof (parse_journaled i) as Hparse. rewrite bool_decide_true in Hparse; [|symmetry; exact Hseal].
  clear Hget Hfs Hseal Hk Hp. subst i. destruct plan as [[t r d w i] src v rep].
  cbn [cp_effects cp_sourceRoot cp_validation cp_replay te_workspaceIndex] in *.
  unfold recovered_plan. rewrite Heffects Hsource Hvalidation Hreplay. set (e := js_effects _).
  assert (jfield e "writeSet" ≫= writes_of = Some w) as -> by apply writes_of_back.
  assert (jfield e "readSet" = Some (jnull js_strings r)) as -> by reflexivity.
  assert (jfield e "pathDependencies" = Some (jnull js_strings d)) as -> by reflexivity.
  assert (jfield e "workspaceIndex" = Some (js_index i)) as -> by reflexivity.
  assert (tracking_of (field_string e "readTracking") = t) as -> by (destruct t; reflexivity).
  cbn zeta. rewrite !strings_or_null_back Hparse. by destruct v.
Qed.

(** *** What follows the row *)

Notation Commit := (@Commit W).
Definition journal_of (c : Commit) : list JournalRow := db_journal_events (db (dom_store (wt_domain (co_manager c)))).
Definition appends (c c' : Commit) : Prop := ∃ rows, journal_of c' = journal_of c ++ rows.
#[local] Instance appends_preorder : PreOrder appends.
Proof using Type.
  split; [intros c; exists []; by rewrite app_nil_r|]. intros c1 c2 c3 (l1 & H1) (l2 & H2). exists (l1 ++ l2).
  by rewrite H2 H1 assoc_L.
Qed.
Lemma appends_same c c' : wt_domain (co_manager c') = wt_domain (co_manager c) → appends c c'.
Proof using Type. intros E. exists []. unfold journal_of. by rewrite E app_nil_r. Qed.
Lemma appends_record runId type id fs : respects appends (on_tx (record now runId type (("txId", JStr id) :: fs))).
Proof using Type.
  intros c. unfold on_tx, focus. destruct (record _ _ _ _ _) as [o m'] eqn:Hr. apply record_cases in Hr.
  destruct o as [seq|e]; [|subst; by apply appends_same].
  destruct Hr as (row & fs' & -> & _). by exists [row].
Qed.
Lemma appends_files {A} (m : ST error W A) : respects appends (on_tx (on_files m)).
Proof using Type.
  intros c. unfold on_tx, on_files, focus. destruct (m _). by apply appends_same.
Qed.
Lemma appends_open f : respects appends (on_tx (modify (set_open f))).
Proof using Type. intros c. by apply appends_same. Qed.

(** C21. What a restart finds of a commit: applying a plan either fails at once and
    changes nothing, or the first row it appends, TX_COMMITTING, reads back as the plan -
    the read and write sets, the dependencies, the root to copy from, how it was
    validated and the fork that was replayed - however far the rest of it got; provided
    the index is as it was built and no symbol of it is named like a secret, which the
    journal would drop ([index_through_the_journal]). *)
Theorem commit_plan_reads_back (c c' : Commit) txId tx plan o :
  let i := te_workspaceIndex (cp_effects plan) in
  sealed i → (∀ k h, (k, h) ∈ default [] (ix_symbolSlice i) → SECRET_KEY k = false) →
  apply_plan now txId tx None plan c = (o, c') →
  (c' = c ∧ ∃ e, o = Throw e) ∨
  ∃ row rows, journal_of c' = journal_of c ++ row :: rows ∧ je_type row = "TX_COMMITTING" ∧
    jfield (je_payload row) "isolationVersion" ≫= as_int = Some 1%Z ∧
    recovered_plan tx (je_payload row) = Ok plan.
Proof using Type.
  intros i Hseal Hk. unfold apply_plan. cbn zeta iota. rewrite run_assoc.
  match goal with |- (on_tx (record _ _ _ ?fs) ≫= ?after) c = _ → _ =>
    assert (∀ n, respects appends (after n)) as Hafter;
    [|unfold mbind at 1, ST_bind at 1; unfold on_tx at 1, focus at 1] end.
  { intros n. unfold set_durable, set_status, set_committed.
    assert (∀ f, (∀ c, wt_domain (co_manager (f c)) = wt_domain (co_manager c)) → respects appends (modify (E:=error) f)) as Hm.
    { intros f Hf. apply respects_modify. intros c0. by apply appends_same. }
    pose proof @appends_files. pose proof appends_record. pose proof appends_open. respects_tac; by apply Hm. }
  destruct (record _ _ _ _ (co_manager c)) as [[seq|e] m'] eqn:Hrec.
  2:{ intros [= <- <-]. left. apply record_cases in Hrec as ->. split; [by destruct c|by exists e]. }
  intros Hrun. right. pose proof Hrec as (row & fs' & -> & (_ & _ & Hty & _) & _)%record_cases.
  destruct (committing_row_back _ _ _ _ _ _ Hseal Hk Hrec) as (row' & Hrow' & Hiso & Hback).
  specialize (Hafter seq (mkCommit (set_domain (with_row row (wt_domain (co_manager c))) (co_manager c)) (co_held c) (co_durable c) (co_committed c))).
  rewrite Hrun in Hafter. destruct Hafter as (rows & Hj). exists row', rows.
  assert (row' = row) as -> by (simpl in Hrow'; apply app_inv_head in Hrow' as [= ->]; done).
  split_and!; [|done..]. simpl in Hj. rewrite Hj. unfold journal_of. simpl. by rewrite -assoc_L.
Qed.
End Record.

(** ** The plan of a commit in the domain of CommitIsolation *)

Definition sample_tx : OpenTransaction :=
  mkTransaction "tx-1" "run-1" "/w" "/f" "/f" "/w" "tx-1-base" 3 unobserved_reads (Some []) tx_open.
Definition sample_plan : CommitPlan :=
  mkCommitPlan (mkEffects atime (Some ["a"]) None torn_writes
    (buildWorkspaceIncrementalIndex (H:=sample_crypto) (mkIndexInput "/w" (Some ["a"]) torn_writes (Some [])
      (Some [("f", "0123")]) None None [])))
    "/f-replay/w" by_observations (Some ("/f-replay", "tx-1-replay-1")).
Definition sample_commit : Commit := mkCommit torn_manager true false false.
(** It fails in the first file, which is not where it is to be copied from; the row is there. *)
Definition sample_applied := apply_plan (W:=Disk) 51 "tx-1" sample_tx None sample_plan sample_commit.

Example commit_plan_reads_back_witness :
  sample_applied.1 = Throw (Err "ENOENT") ∧ ∃ row rows, journal_of sample_applied.2 = journal_of sample_commit ++ row :: rows ∧
    recovered_plan (H:=sample_crypto) sample_tx (je_payload row) = Ok sample_plan.
Proof.
  destruct (commit_plan_reads_back (H:=sample_crypto) 51 sample_commit sample_applied.2 "tx-1" sample_tx sample_plan
    sample_applied.1) as [[Hsame _]|(row & rows & Hj & _ & _ & Hback)].
  - vm_compute. reflexivity.
  - intros k h Hin. vm_compute in Hin. apply elem_of_cons in Hin as [Hin|Hin]; [|by apply elem_of_nil in Hin].
    injection Hin as -> _. vm_compute. reflexivity.
  - unfold sample_applied. by destruct (apply_plan _ _ _ _ _ _).
  - exfalso. apply (f_equal (λ c, length (journal_of c))) in Hsame. vm_compute in Hsame. discriminate Hsame.
  - split; [vm_compute; reflexivity|]. exists row, rows. split; [exact Hj|exact Hback].
Defined.
