(* ===== verification/ReadTracking.v ===== *)
(** * ReadTracking: which files were read (src/src/workspace/read-tracking.ts)

    A fork is a tree of entries with their access and modification times, in
    nanoseconds. What the file system does to the times when something is read, and
    how it stores a time that is given to it, are parameters. *)

From S2P Require Import Prelude Types Index Transactions.

Record Stat := mkStat { st_atimeNs : Z; st_mtimeNs : Z }.
Inductive Entry :=
| EFile (st : Stat)
| ELink (st : Stat)
| EDir (st : Stat) (children : list (string * Entry)).

Section EntryInd.
Context (P : Entry → Prop) (Hfile : ∀ st, P (EFile st)) (Hlink : ∀ st, P (ELink st)).
Context (Hdir : ∀ st children, Forall (λ c, P c.2) children → P (EDir st children)).
Fixpoint Entry_nested_ind (e : Entry) : P e :=
  match e with
  | EFile st => Hfile st
  | ELink st => Hlink st
  | EDir st children => Hdir st children
      ((fix go l := match l return Forall (λ c, P c.2) l with
        | [] => Forall_nil_2 _
        | c :: l' => Forall_cons_2 _ c l' (Entry_nested_ind c.2) (go l')
        end) children)
  end.
End EntryInd.

Definition DEFAULT_SKIP : list string := [".git"; ".xioflow-kernel"; ".xioflow"].
Definition ATIME_MARGIN_NS : Z := 2000000000.
Definition wasAccessed (st : Stat) : bool := bool_decide (st_mtimeNs st ≤ st_atimeNs st)%Z.

Section Tracking.
(** What is stored for a time, and what reading does to the times of an entry. *)
Context (stored : Z → Z) (accessed : Stat → Stat).

Definition resetAccessTime (st : Stat) : Stat :=
  mkStat (stored (st_mtimeNs st - ATIME_MARGIN_NS)) (stored (st_mtimeNs st)).

Definition child_rel (rel name : string) : string :=
  if bool_decide (rel = "") then name else rel +:+ "/" +:+ name.
Definition skipped (skip : list string) (rel name : string) : bool :=
  bool_decide (rel = "") && js_has skip name.
Definition entry_key (rel : string) (e : Entry) : string :=
  match e with EDir _ _ => (if bool_decide (rel = "") then "." else rel) +:+ "/" | _ => rel end.

(** What [walk] visits, in order: the path of an entry and the entry; listing a
    directory happens after its times were taken. *)
Fixpoint walk (skip : list string) (rel : string) (e : Entry) : list (string * Entry) :=
  (rel, e) :: match e with
  | EDir _ children =>
      concat (map (λ c, if skipped skip rel c.1 then [] else walk skip (child_rel rel c.1) c.2) children)
  | _ => []
  end.

(** The tree after [normalizeAccessTimes]: a link is left alone, a directory is reset
    once it has been listed. *)
Fixpoint normalized (skip : list string) (rel : string) (e : Entry) : Entry :=
  match e with
  | EFile st => EFile (resetAccessTime st)
  | ELink st => ELink st
  | EDir st children =>
      EDir (resetAccessTime st)
        (map (λ c, (c.1, if skipped skip rel c.1 then c.2 else normalized skip (child_rel rel c.1) c.2)) children)
  end.
Definition is_link_entry (e : Entry) : bool := match e with ELink _ => true | _ => false end.
Definition entry_stat (e : Entry) : Stat := match e with EFile st | ELink st | EDir st _ => st end.
Definition walk_root (skip : list string) (root : Entry) : outcome error (list (string * Entry)) :=
  match root with
  | EDir _ _ => Ok (walk skip "" root)
  | _ => Throw (Err "Read tracking root is not a real directory")
  end.
Definition link_paths (visited : list (string * Entry)) : list string :=
  map fst (List.filter (λ v, is_link_entry v.2) visited).
Definition normalizeAccessTimes_ (skip : list string) (root : Entry) : outcome error (list string * Entry) :=
  visited ← walk_root skip root; Ok (sort_strings (link_paths visited), normalized skip "" root).

Definition observation_index (skip : list string) (root : Entry) : outcome error WorkspaceObservationIndex :=
  visited ← walk_root skip root;
  Ok {| wo_readSet := sort_strings (map (λ v, entry_key v.1 v.2)
          (List.filter (λ v, negb (is_link_entry v.2) && wasAccessed (entry_stat v.2)) visited));
        wo_discoverySet := sort_strings (map (λ v, entry_key v.1 v.2) visited);
        wo_pathDependencies := sort_strings (link_paths visited) |}.

(** What reads between the two scans do: the entries [read] names are accessed; a
    link is followed. *)
Fixpoint reading_of (read : string → bool) (rel : string) (e : Entry) : Entry :=
  match e with
  | EFile st => EFile (if read (entry_key rel e) then accessed st else st)
  | ELink st => ELink st
  | EDir st children =>
      EDir (if read (entry_key rel e) then accessed st else st)
        (map (λ c, (c.1, reading_of read (child_rel rel c.1) c.2)) children)
  end.

(** The probe: a file is reset and read. *)
Definition probe (st : Stat) : Tracking :=
  let before := resetAccessTime st in
  if bool_decide (st_atimeNs before < st_atimeNs (accessed before))%Z then atime else unobserved_reads.
End Tracking.
