(* ===== verification/ReadTrackingSpec.v ===== *)
(** * ReadTrackingSpec: the read set is what was read

    After a normalisation the scan finds exactly the entries read since, on a file
    system that moves the access time of what is read. *)

From S2P Require Import Prelude Types Index Transactions ReadTracking.

Section Spec.
Context (stored : Z → Z) (accessed : Stat → Stat).

(** A time is stored to the second at least; reading moves an access time that lies
    before the modification time up to it ([relatime]). *)
Record time_law : Prop := {
  tl_stored x : (Z.abs (stored x - x) < 1000000000)%Z;
  tl_accessed st : wasAccessed st = false → wasAccessed (accessed st) = true;
}.

Lemma reset_unread st : time_law → wasAccessed (resetAccessTime stored st) = false.
Proof using Type.
  intros Hlaw. apply bool_decide_eq_false. simpl. unfold ATIME_MARGIN_NS.
  pose proof (tl_stored Hlaw (st_mtimeNs st - 2000000000)). pose proof (tl_stored Hlaw (st_mtimeNs st)). lia.
Qed.

(** An entry after the normalisation and the reads. *)
Definition later (skip : list string) (read : string → bool) (rel : string) (e : Entry) : Entry :=
  reading_of accessed read rel (normalized stored skip rel e).

Lemma skipped_top skip rel name : rel ≠ "" → skipped skip rel name = false.
Proof using Type. intros Hr. unfold skipped. by rewrite bool_decide_false. Qed.

Lemma walk_later skip read e : ∀ rel,
  walk skip rel (later skip read rel e) = map (λ v, (v.1, later skip read v.1 v.2)) (walk skip rel e).
Proof using Type.
  induction e as [st|st|st children IH] using Entry_nested_ind; intros rel; [done..|].
  unfold later. cbn [normalized reading_of walk]. cbn [map fst snd]. f_equal.
  rewrite concat_map !map_map. f_equal. induction IH as [|[name e] children He _ IHc]; [done|].
  cbn [map fst snd] in *. f_equal; [|exact IHc].
  destruct (skipped skip rel name) eqn:Hs; [done|]. exact (He (child_rel rel name)).
Qed.

Lemma later_key skip read rel e : entry_key rel (later skip read rel e) = entry_key rel e.
Proof using Type. by destruct e. Qed.
Lemma later_link skip read rel e : is_link_entry (later skip read rel e) = is_link_entry e.
Proof using Type. by destruct e. Qed.
Lemma later_accessed skip read rel e : time_law → is_link_entry e = false →
  wasAccessed (entry_stat (later skip read rel e)) = read (entry_key rel e).
Proof using Type.
  intros Hlaw. destruct e as [st|st|st children]; [intros _|done|intros _]; simpl;
    (destruct (read _); [by apply (tl_accessed Hlaw), reset_unread|by apply reset_unread]).
Qed.

(** C33. The read set is exact: a directory tree that was normalised and then read from
    reports as read just the entries that were read - files, and directories that
    were listed, but for those skipped at its top - while its links are reported apart,
    as paths that may have been followed, the same at both scans. *)
Theorem reads_are_observed skip read root links root1 :
  time_law → normalizeAccessTimes_ stored skip root = Ok (links, root1) →
  ∃ i, observation_index skip (reading_of accessed read "" root1) = Ok i ∧
    (∀ key, key ∈ wo_readSet i ↔
      ∃ rel e, (rel, e) ∈ walk skip "" root ∧ key = entry_key rel e ∧ is_link_entry e = false ∧ read key = true) ∧
    (∀ key, key ∈ wo_discoverySet i ↔ ∃ rel e, (rel, e) ∈ walk skip "" root ∧ key = entry_key rel e) ∧
    wo_pathDependencies i = links.
Proof using Type.
  intros Hlaw Hnorm.
  assert (walk_root skip root = Ok (walk skip "" root) ∧ links = sort_strings (link_paths (walk skip "" root)) ∧
    root1 = normalized stored skip "" root) as (_ & -> & ->).
  { unfold normalizeAccessTimes_ in Hnorm. destruct root; [done..|]. by injection Hnorm as <- <-. }
  assert (walk_root skip (later skip read "" root) = Ok (walk skip "" (later skip read "" root))) as Hroot.
  { unfold normalizeAccessTimes_ in Hnorm. destruct root; done. }
  unfold observation_index. fold (later skip read "" root). rewrite Hroot walk_later. eexists. split; [reflexivity|].
  cbn [wo_readSet wo_discoverySet wo_pathDependencies]. unfold sort_strings.
  assert (∀ v, v ∈ walk skip "" root → (v.1, later skip read v.1 v.2) ∈
    map (λ v, (v.1, later skip read v.1 v.2)) (walk skip "" root)) as Hin.
  { intros v Hv. apply list_elem_of_fmap. by exists v. }
  split_and!.
  - intros key. rewrite merge_sort_Permutation list_elem_of_fmap. split.
    + intros (v & -> & Hv). apply list_elem_of_In, filter_In in Hv as [Hv [Hl Hw]%andb_true_iff].
      apply in_map_iff in Hv as ([rel e] & <- & Hv%list_elem_of_In). cbn [fst snd] in *.
      rewrite later_link in Hl. apply negb_true_iff in Hl. rewrite later_accessed // in Hw.
      exists rel, e. by rewrite later_key.
    + intros (rel & e & Hv & -> & Hl & Hr). exists (rel, later skip read rel e). cbn [fst snd]. rewrite later_key.
      split; [done|]. apply list_elem_of_In, filter_In. split; [by apply list_elem_of_In, (Hin (rel, e))|].
      cbn [fst snd]. by rewrite later_link Hl later_accessed.
  - intros key. rewrite merge_sort_Permutation list_elem_of_fmap. split.
    + intros (v & -> & Hv). apply list_elem_of_fmap in Hv as ([rel e] & -> & Hv). exists rel, e. by rewrite later_key.
    + intros (rel & e & Hv & ->). exists (rel, later skip read rel e). rewrite later_key. split; [done|by apply (Hin (rel, e))].
  - f_equal. unfold link_paths. clear -stored. induction (walk skip "" root) as [|[rel e] l IH]; [done|].
    cbn [map List.filter fst snd]. rewrite later_link. destruct (is_link_entry e); cbn [map fst]; by rewrite ?IH.
Qed.
End Spec.

(** ** A fork with a link and a skipped directory *)

Definition sample_fork : Entry := EDir (mkStat 9 9)
  [(".git", EDir (mkStat 5 5) [("HEAD", EFile (mkStat 5 5))]); ("a", EFile (mkStat 3 7)); ("b", EFile (mkStat 8 7));
   ("d", EDir (mkStat 4 4) [("c", EFile (mkStat 1 2))]); ("l", ELink (mkStat 1 1))].
Definition relatime (st : Stat) : Stat :=
  if bool_decide (st_atimeNs st ≤ st_mtimeNs st)%Z then mkStat (st_mtimeNs st) (st_mtimeNs st) else st.
Definition sample_read (key : string) : bool := js_has ["a"; "d/"] key.
Example reads_are_observed_witness :
  ∃ i, observation_index DEFAULT_SKIP (reading_of relatime sample_read "" (normalized (λ x, x) DEFAULT_SKIP "" sample_fork)) = Ok i ∧
    "a" ∈ wo_readSet i ∧ wo_pathDependencies i = ["l"].
Proof.
  destruct (reads_are_observed (λ x, x) relatime DEFAULT_SKIP sample_read sample_fork ["l"]
    (normalized (λ x, x) DEFAULT_SKIP "" sample_fork)) as (i & Hi & Hr & _ & Hl).
  - split; [intros x; rewrite Z.sub_diag; done|]. intros st Hst. unfold wasAccessed, relatime in *. apply bool_decide_eq_false in Hst.
    assert (bool_decide (st_atimeNs st ≤ st_mtimeNs st)%Z = true) as -> by (apply bool_decide_eq_true; lia).
    apply bool_decide_eq_true. simpl. lia.
  - vm_compute. reflexivity.
  - exists i. split; [exact Hi|]. split; [|exact Hl]. apply Hr. exists "a", (EFile (mkStat 3 7)).
    split; [|done]. apply list_elem_of_In. vm_compute. auto.
Defined.
