(* ===== verification/Agents.v ===== *)
(** * Agents: the states of agents and their journal (src/src/agents/: journal.ts, run-budget.ts, runtime.ts)

    What an [AgentRuntime] knows is a projection of its journal: [sync] folds the
    rows it has not read yet into the states of the agents, the tree of their
    parents and the usage of their runs. The rows of the domain are numbered from
    one; a row that is not of an agent is [RowOther]. [pendingCommands], which no
    row carries, is kept by the runtime (AgentRuntime). *)

From S2P Require Import Prelude Types Events.

(** ** Agents *)

Inductive AgentStatus :=
| ag_ready | ag_checking | ag_running | ag_recovering | ag_waiting
| ag_paused | ag_completed | ag_failed | ag_interrupted.
#[export] Instance AgentStatus_eq_dec : EqDecision AgentStatus.
Proof. solve_decision. Defined.

Record AgentWorkspace := mkAgentWorkspace { aw_txId : string; aw_forkRoot : string }.

(** [Omit<AgentState, 'input' | 'checkpoint'>] *)
Record AgentMeta := mkAgentMeta {
  am_id : string;
  am_runId : string;
  am_parentId : option string;
  am_workspace : option AgentWorkspace;
  am_status : AgentStatus;
  am_maxSteps : Z;
  am_stepsUsed : Z;
  am_pauseRequested : bool;
  am_reason : option string;
  am_error : option string;
  am_validatedWorkspaceVersion : option (option string);
}.
Record AgentState := mkAgent {
  as_meta : AgentMeta;
  as_input : jsval;
  as_checkpoint : jsval;
}.

(** [{ ...state, status, pauseRequested, reason }] *)
Definition move (status : AgentStatus) (pauseRequested : bool) (reason : option string) (a : AgentState)
  : AgentState :=
  let m := as_meta a in
  mkAgent (mkAgentMeta (am_id m) (am_runId m) (am_parentId m) (am_workspace m) status (am_maxSteps m)
      (am_stepsUsed m) pauseRequested reason (am_error m) (am_validatedWorkspaceVersion m))
    (as_input a) (as_checkpoint a).
(** [{ ...state, status }] *)
Definition move_to (status : AgentStatus) (a : AgentState) : AgentState :=
  move status (am_pauseRequested (as_meta a)) (am_reason (as_meta a)) a.
Definition with_error (error : option string) (a : AgentState) : AgentState :=
  let m := as_meta a in
  mkAgent (mkAgentMeta (am_id m) (am_runId m) (am_parentId m) (am_workspace m) (am_status m)
      (am_maxSteps m) (am_stepsUsed m) (am_pauseRequested m) (am_reason m) error
      (am_validatedWorkspaceVersion m)) (as_input a) (as_checkpoint a).
Definition with_checkpoint (checkpoint : jsval) (a : AgentState) : AgentState :=
  mkAgent (as_meta a) (as_input a) checkpoint.
Definition with_workspace (w : option AgentWorkspace) (a : AgentState) : AgentState :=
  let m := as_meta a in
  mkAgent (mkAgentMeta (am_id m) (am_runId m) (am_parentId m) w (am_status m) (am_maxSteps m)
      (am_stepsUsed m) (am_pauseRequested m) (am_reason m) (am_error m)
      (am_validatedWorkspaceVersion m)) (as_input a) (as_checkpoint a).
(** [stepsUsed: state.stepsUsed + 1, validatedWorkspaceVersion: version] *)
Definition charged (version : option string) (a : AgentState) : AgentState :=
  let m := as_meta a in
  mkAgent (mkAgentMeta (am_id m) (am_runId m) (am_parentId m) (am_workspace m) (am_status m)
      (am_maxSteps m) (am_stepsUsed m + 1)%Z (am_pauseRequested m) (am_reason m) (am_error m)
      (Some version)) (as_input a) (as_checkpoint a).

Definition as_id (a : AgentState) : string := am_id (as_meta a).
Definition as_status (a : AgentState) : AgentStatus := am_status (as_meta a).
Definition as_stepsUsed (a : AgentState) : Z := am_stepsUsed (as_meta a).
Definition as_runId (a : AgentState) : string := am_runId (as_meta a).
Definition as_parentId (a : AgentState) : option string := am_parentId (as_meta a).

(** ** Budgets *)

Record AgentRunBudget := mkBudget {
  rb_maxSteps : Z;
  rb_maxAgents : Z;
  rb_maxPendingCommands : Z;
}.
Record AgentRunUsage := mkUsage {
  us_budget : AgentRunBudget;
  us_stepsUsed : Z;
  us_agentsCreated : Z;
}.
Definition DEFAULT_AGENT_RUN_BUDGET : AgentRunBudget := mkBudget 10000 1024 64.
Definition MAX_SAFE_INTEGER : Z := 9007199254740991.
Definition positive_safe (z : Z) : bool := (1 <=? z)%Z && (z <=? MAX_SAFE_INTEGER)%Z.
Definition validateRunBudget (b : AgentRunBudget) : outcome error AgentRunBudget :=
  if positive_safe (rb_maxSteps b) && positive_safe (rb_maxAgents b)
     && positive_safe (rb_maxPendingCommands b)
  then Ok b else Throw (Err "Run budget must be a positive safe integer").

(** ** Rows *)

Inductive Transition :=
| tr_created | tr_recovered | tr_pause_requested | tr_resumed | tr_recovery_started
| tr_recovery_interrupted | tr_recovery_abandoned | tr_recovery_failed | tr_restored
| tr_shutdown_requested | tr_budget_exhausted | tr_failed | tr_checking | tr_interrupted
| tr_interrupt_requested | tr_paused | tr_step_started | tr_step_completed | tr_scope_completed.
#[export] Instance Transition_eq_dec : EqDecision Transition.
Proof. solve_decision. Defined.

(** The payload of an [AGENT_STATE] event: version 1 stored the whole state. *)
Inductive AgentPayload :=
| PayloadV1 (transition : Transition) (state : AgentState)
| PayloadV2 (transition : Transition) (state : AgentMeta) (input checkpoint : option jsval)
    (checkpointRef : option Z)
| PayloadOther (state : AgentMeta).
Inductive AgentRow :=
| RowState (payload : AgentPayload)
| RowBudget (version : Z) (runId : option string) (budget : AgentRunBudget)
| RowOperation (operationId agentId : option string)
| RowOther.

Definition payload_meta (p : AgentPayload) : AgentMeta :=
  match p with PayloadV1 _ a => as_meta a | PayloadV2 _ m _ _ _ => m | PayloadOther m => m end.
Definition payload_transition (p : AgentPayload) : option Transition :=
  match p with PayloadV1 t _ => Some t | PayloadV2 t _ _ _ _ => Some t | PayloadOther _ => None end.
Definition isAgentCheckpoint (t : option Transition) : bool :=
  match t with Some (tr_created | tr_step_completed | tr_restored) => true | _ => false end.

(** [getJournalEvent(domainId, seq)] *)
Definition getJournalEvent (journal : list AgentRow) (seq : Z) : option AgentRow :=
  if (1 <=? seq)%Z then journal !! Z.to_nat (seq - 1) else None.

(** A checkpoint reference points back. *)
Definition valid_ref (ref : option Z) (seq : Z) : bool :=
  match ref with
  | Some r => (r <=? MAX_SAFE_INTEGER)%Z && (1 <=? r)%Z && (r <? seq)%Z
  | None => false
  end.

(** Every round goes to a smaller [seq]. *)
Fixpoint read_checkpoint (fuel : nat) (journal : list AgentRow) (seq : Z) (agentId : string)
  : outcome error jsval :=
  match fuel with
  | O => Throw (Err "unreachable")
  | S fuel' =>
      match getJournalEvent journal seq with
      | Some (RowState p) =>
          if negb (bool_decide (am_id (payload_meta p) = agentId)) then
            Throw (Err "Agent checkpoint is missing or belongs to another agent")
          else
            match p with
            | PayloadV1 _ a => Ok (as_checkpoint a)
            | PayloadOther _ => Throw (Err "Unsupported agent journal version")
            | PayloadV2 _ _ _ (Some c) _ => Ok c
            | PayloadV2 _ _ _ None ref =>
                if valid_ref ref seq then read_checkpoint fuel' journal (default 0%Z ref) agentId
                else Throw (Err "Invalid agent checkpoint reference")
            end
      | _ => Throw (Err "Agent checkpoint is missing or belongs to another agent")
      end
  end.
Definition readAgentCheckpoint (journal : list AgentRow) (seq : Z) (agentId : string) : outcome error jsval :=
  read_checkpoint (S (Z.to_nat seq)) journal seq agentId.

Definition projectAgentEvent (journal : list AgentRow) (seq : Z) (p : AgentPayload)
    (previous : option AgentState) : outcome error AgentState :=
  match p with
  | PayloadV1 _ a => Ok a
  | PayloadOther _ => Throw (Err "Unsupported agent journal version")
  | PayloadV2 t state input checkpoint ref =>
      if bool_decide (t = tr_created) && negb (bool_decide (is_Some input) && bool_decide (is_Some checkpoint))
      then Throw (Err "Agent creation data is missing")
      else if bool_decide (t = tr_step_completed) && negb (bool_decide (is_Some checkpoint))
      then Throw (Err "Agent checkpoint data is missing")
      else if negb (bool_decide (is_Some input)) && negb (bool_decide (is_Some previous))
      then Throw (Err "Agent control event has no prior state")
      else
        c ← (if bool_decide (t = tr_restored) then
               if valid_ref ref seq then readAgentCheckpoint journal (default 0%Z ref) (am_id state)
               else Throw (Err "Invalid agent checkpoint reference")
             else match checkpoint, previous with
                  | Some c, _ => Ok c
                  | None, Some a => Ok (as_checkpoint a)
                  | None, None => Throw (Err "Agent checkpoint data is missing")
                  end);
        Ok (mkAgent state
              (match input, previous with
               | Some i, _ => i
               | None, Some a => as_input a
               | None, None => JUndef
               end) c)
  end.

(** ** The projection *)

Record Projection := mkProjection {
  pj_states : list (string * (Z * AgentState));
  pj_children : list (string * list string);
  pj_runs : list (string * AgentRunUsage);
  pj_budgeted : list string;
  pj_operationOwners : list (string * string);
  pj_cursor : nat; (* the rows read: [this.cursor - 1] *)
}.
Definition empty_projection : Projection := mkProjection [] [] [] [] [] 0.

Definition pj_agent (pj : Projection) (id : string) : option AgentState := snd <$> jm_get (pj_states pj) id.

Definition pj_set_runs (runs : list (string * AgentRunUsage)) (pj : Projection) : Projection :=
  mkProjection (pj_states pj) (pj_children pj) runs (pj_budgeted pj) (pj_operationOwners pj) (pj_cursor pj).
Definition pj_set_states (states : list (string * (Z * AgentState))) (pj : Projection) : Projection :=
  mkProjection states (pj_children pj) (pj_runs pj) (pj_budgeted pj) (pj_operationOwners pj) (pj_cursor pj).
Definition pj_set_children (c : list (string * list string)) (pj : Projection) : Projection :=
  mkProjection (pj_states pj) c (pj_runs pj) (pj_budgeted pj) (pj_operationOwners pj) (pj_cursor pj).
Definition pj_set_owners (o : list (string * string)) (pj : Projection) : Projection :=
  mkProjection (pj_states pj) (pj_children pj) (pj_runs pj) (pj_budgeted pj) o (pj_cursor pj).
Definition pj_add_budgeted (run : string) (pj : Projection) : Projection :=
  mkProjection (pj_states pj) (pj_children pj) (pj_runs pj) (js_add (pj_budgeted pj) run)
    (pj_operationOwners pj) (pj_cursor pj).
Definition pj_advance (pj : Projection) : Projection :=
  mkProjection (pj_states pj) (pj_children pj) (pj_runs pj) (pj_budgeted pj) (pj_operationOwners pj)
    (S (pj_cursor pj)).

Notation PjM := (ST error Projection).

(** [while (root.parentId) root = this.states.get(root.parentId)!.state]: parents are
    older than their children, so as many rounds as there are agents are enough. *)
Fixpoint root_from (fuel : nat) (pj : Projection) (a : AgentState) : outcome error string :=
  match fuel with
  | O => Throw (Err "unreachable")
  | S fuel' =>
      match as_parentId a with
      | None => Ok (as_id a)
      | Some p =>
          match pj_agent pj p with
          | Some b => root_from fuel' pj b
          | None => Throw (TypeErr "cannot read properties of undefined")
          end
      end
  end.
Definition root_of (pj : Projection) (a : AgentState) : outcome error string :=
  root_from (S (length (pj_states pj))) pj a.

Definition project_budget (version : Z) (runId : option string) (budget : AgentRunBudget) : PjM unit :=
  budgeted ← gets pj_budgeted;
  match runId with
  | Some run =>
      throw_if (negb (version =? 1)%Z || negb (truthy_str run) || js_has budgeted run)
        (Err "Invalid or duplicate agent Run budget event") ;;
      budget ← lift (validateRunBudget budget);
      modify (λ pj, pj_set_runs (jm_set (pj_runs pj) run
        match jm_get (pj_runs pj) run with
        | Some u => mkUsage budget (us_stepsUsed u) (us_agentsCreated u)
        | None => mkUsage budget 0 0
        end) pj) ;;
      modify (pj_add_budgeted run)
  | None => throw (Err "Invalid or duplicate agent Run budget event")
  end.

Definition project_operation (operationId agentId : option string) : PjM unit :=
  owners ← gets pj_operationOwners;
  match operationId, agentId with
  | Some op, Some agent =>
      throw_if (negb (truthy_str op)) (Err "Invalid agent operation ownership event") ;;
      throw_if (match jm_get owners op with
                | Some owner => truthy_str owner && negb (bool_decide (owner = agent))
                | None => false
                end) (Err "Conflicting agent operation ownership") ;;
      modify (λ pj, pj_set_owners (jm_set (pj_operationOwners pj) op agent) pj)
  | _, _ => throw (Err "Invalid agent operation ownership event")
  end.

(** The state a row carries, its charge to the run, its place in the tree; the root
    of its scope. *)
Definition project_state (defaultBudget : AgentRunBudget) (journal : list AgentRow) (seq : Z)
    (p : AgentPayload) : PjM string :=
  pj ← get_state;
  let previous := pj_agent pj (am_id (payload_meta p)) in
  state ← lift (projectAgentEvent journal seq p previous);
  let usage := default (mkUsage defaultBudget 0 0) (jm_get (pj_runs pj) (as_runId state)) in
  modify (λ pj, pj_set_runs (jm_set (pj_runs pj) (as_runId state)
    (mkUsage (us_budget usage)
       (us_stepsUsed usage + (as_stepsUsed state - match previous with Some a => as_stepsUsed a | None => 0 end))
       (us_agentsCreated usage + match previous with Some _ => 0 | None => 1 end))%Z) pj) ;;
  modify (λ pj, pj_set_states (jm_set (pj_states pj) (as_id state) (seq, state)) pj) ;;
  match previous, as_parentId state with
  | None, Some parent =>
      modify (λ pj, pj_set_children (jm_set (pj_children pj) parent
        (js_add (default [] (jm_get (pj_children pj) parent)) (as_id state))) pj)
  | _, _ => mret tt
  end ;;
  pj ← get_state;
  lift (root_of pj state).

(** One row: the root it makes dirty. *)
Definition sync_row (defaultBudget : AgentRunBudget) (journal : list AgentRow) (row : AgentRow)
  : PjM (option string) :=
  pj ← get_state;
  let seq := Z.of_nat (S (pj_cursor pj)) in
  dirty ← match row with
    | RowBudget version runId budget => project_budget version runId budget ;; mret None
    | RowOperation op agent => project_operation op agent ;; mret None
    | RowState p => root ← project_state defaultBudget journal seq p; mret (Some root)
    | RowOther => mret None
    end;
  modify pj_advance ;;
  mret dirty.

(** ** The tree *)

Definition children (pj : Projection) (id : string) : list AgentState :=
  omap (pj_agent pj) (default [] (jm_get (pj_children pj) id)).

(** [scope.push(...this.children(scope[i].id))]: breadth first. *)
Fixpoint scope_from (fuel : nat) (pj : Projection) (queue : list AgentState) : list AgentState :=
  match fuel, queue with
  | S fuel', a :: rest => a :: scope_from fuel' pj (rest ++ children pj (as_id a))
  | _, _ => []
  end.
Definition scope (pj : Projection) (id : string) : outcome error (list AgentState) :=
  match pj_agent pj id with
  | Some a => Ok (scope_from (length (pj_states pj)) pj [a])
  | None => Throw (TypeErr "cannot read properties of undefined")
  end.
