(* ===== verification/AgentsSpec.v ===== *)
(** * AgentsSpec: what the journal of agents can say, and what it makes known

    [lifecycle] is the table of the moves of an agent, [admissible] when a row may
    follow a journal; [history] are the journals made of admissible rows, with the
    projection each row leads to. [sync] computes that projection row by row
    ([sync_row_admissible]) and the projections of histories are well formed
    ([history_well_formed]). The parents of a well-formed projection are a forest:
    [scope] is the subtree of an agent, every member once, and its fuel is enough
    ([scope_spec]). *)

From S2P Require Import Prelude Types Events Agents.
From stdpp Require Import relations.

(** ** The reference: rows and what they do *)

Definition lifecycle (t : Transition) (old new : AgentStatus) : bool :=
  match t, old, new with
  | tr_recovered, (ag_running | ag_recovering | ag_checking), ag_interrupted => true
  | tr_recovered, (ag_checking | ag_ready), ag_paused => true
  | tr_pause_requested, (ag_ready | ag_paused), ag_paused => true
  | (tr_pause_requested | tr_interrupt_requested), ag_running, ag_running => true
  | (tr_pause_requested | tr_interrupt_requested), ag_checking, ag_checking => true
  | (tr_pause_requested | tr_interrupt_requested), ag_recovering, ag_recovering => true
  | tr_resumed, ag_paused, ag_ready => true
  | tr_recovery_started, (ag_paused | ag_interrupted), ag_recovering => true
  | tr_recovery_interrupted, ag_recovering, ag_interrupted => true
  | (tr_recovery_abandoned | tr_recovery_failed), ag_recovering, (ag_paused | ag_interrupted) => true
  | tr_restored, (ag_paused | ag_interrupted | ag_recovering), ag_paused => true
  | (tr_shutdown_requested | tr_budget_exhausted), (ag_ready | ag_checking), ag_paused => true
  | tr_failed, (ag_ready | ag_checking), ag_failed => true
  | tr_checking, ag_ready, ag_checking => true
  | tr_interrupted, (ag_ready | ag_checking | ag_running | ag_recovering | ag_waiting | ag_paused),
      ag_interrupted => true
  | tr_paused, ag_checking, ag_paused => true
  | tr_step_started, ag_checking, ag_running => true
  | tr_step_completed, ag_running, (ag_ready | ag_paused | ag_waiting | ag_completed) => true
  | tr_scope_completed, ag_waiting, ag_completed => true
  | _, _, _ => false
  end.

(** The identity of an agent. *)
Definition same_agent (a b : AgentMeta) : Prop :=
  am_id a = am_id b ∧ am_runId a = am_runId b ∧ am_parentId a = am_parentId b ∧ am_maxSteps a = am_maxSteps b.
Definition charge (t : Transition) : Z := (if bool_decide (t = tr_step_started) then 1 else 0)%Z.
Definition all_completed (pj : Projection) (id : string) : Prop :=
  Forall (λ c, as_status c = ag_completed) (children pj id).

(** The tree: [below pj x y] is that [x] is [y] or one of its descendants. A scope is
    open when nothing above (or at) the agent has ended or is being cancelled. *)
Definition parent_of (pj : Projection) (c p : string) : Prop :=
  ∃ a, pj_agent pj c = Some a ∧ as_parentId a = Some p.
Definition below (pj : Projection) : string → string → Prop := rtc (parent_of pj).
Definition open_agent (a : AgentState) : Prop :=
  as_status a ∉ [ag_completed; ag_failed; ag_interrupted] ∧ am_reason (as_meta a) ≠ Some "interrupt_requested".
Definition scope_open (pj : Projection) (id : string) : Prop :=
  ∀ x a, below pj id x → pj_agent pj x = Some a → open_agent a.

Inductive admissible (j : list AgentRow) (pj : Projection) : AgentRow → Prop :=
| adm_other : admissible j pj RowOther
| adm_budget run b :
    truthy_str run = true → run ∉ pj_budgeted pj → validateRunBudget b = Ok b →
    admissible j pj (RowBudget 1 (Some run) b)
| adm_operation op id :
    truthy_str op = true →
    (∀ o, jm_get (pj_operationOwners pj) op = Some o → truthy_str o = true → o = id) →
    admissible j pj (RowOperation (Some op) (Some id))
| adm_created m u input checkpoint :
    pj_agent pj (am_id m) = None →
    am_status m = ag_ready → am_stepsUsed m = 0%Z → (1 ≤ am_maxSteps m)%Z →
    (∀ p, am_parentId m = Some p → ∃ b, pj_agent pj p = Some b ∧ as_runId b = am_runId m
       ∧ as_status b ≠ ag_waiting ∧ scope_open pj p) →
    am_runId m ∈ pj_budgeted pj →
    jm_get (pj_runs pj) (am_runId m) = Some u → (us_agentsCreated u < rb_maxAgents (us_budget u))%Z →
    admissible j pj (RowState (PayloadV2 tr_created m (Some input) (Some checkpoint) None))
| adm_moved t m a checkpoint ref :
    pj_agent pj (am_id m) = Some a → same_agent m (as_meta a) →
    lifecycle t (as_status a) (am_status m) = true →
    am_stepsUsed m = (as_stepsUsed a + charge t)%Z →
    (t = tr_step_started → (as_stepsUsed a < am_maxSteps (as_meta a))%Z ∧
       ∃ u, jm_get (pj_runs pj) (as_runId a) = Some u ∧ (us_stepsUsed u < rb_maxSteps (us_budget u))%Z) →
    (t ∈ [tr_checking; tr_step_started; tr_resumed] → scope_open pj (am_id m)) →
    (t = tr_recovery_started → ∀ p, as_parentId a = Some p → scope_open pj p) →
    (is_Some checkpoint ↔ t = tr_step_completed) →
    (if bool_decide (t = tr_restored)
     then valid_ref ref (Z.of_nat (S (pj_cursor pj))) = true
          ∧ is_ok (readAgentCheckpoint j (default 0%Z ref) (am_id m)) = true
     else ref = None) →
    (am_status m = ag_completed → all_completed pj (am_id m)) →
    admissible j pj (RowState (PayloadV2 t m None checkpoint ref)).

Definition ok_or {A} (d : A) (o : outcome error A) : A := match o with Ok a => a | Throw _ => d end.
(** The state after the row. *)
Definition row_agent (j : list AgentRow) (pj : Projection) (t : Transition) (m : AgentMeta)
    (input checkpoint : option jsval) (ref : option Z) : AgentState :=
  let last f := match pj_agent pj (am_id m) with Some a => f a | None => JUndef end in
  mkAgent m (default (last as_input) input)
    (if bool_decide (t = tr_restored) then ok_or JUndef (readAgentCheckpoint j (default 0%Z ref) (am_id m))
     else default (last as_checkpoint) checkpoint).
Definition put_agent (a : AgentState) (pj : Projection) : Projection :=
  let known := bool_decide (is_Some (pj_agent pj (as_id a))) in
  let before := match pj_agent pj (as_id a) with Some b => as_stepsUsed b | None => 0%Z end in
  mkProjection (jm_set (pj_states pj) (as_id a) (Z.of_nat (S (pj_cursor pj)), a))
    (match as_parentId a with
     | Some p => if known then pj_children pj
                 else jm_set (pj_children pj) p (js_add (default [] (jm_get (pj_children pj) p)) (as_id a))
     | None => pj_children pj
     end)
    (match jm_get (pj_runs pj) (as_runId a) with
     | Some u => jm_set (pj_runs pj) (as_runId a)
         (mkUsage (us_budget u) (us_stepsUsed u + (as_stepsUsed a - before))
            (us_agentsCreated u + (if known then 0 else 1)))%Z
     | None => pj_runs pj
     end)
    (pj_budgeted pj) (pj_operationOwners pj) (S (pj_cursor pj)).
Definition apply_row (j : list AgentRow) (row : AgentRow) (pj : Projection) : Projection :=
  match row with
  | RowState (PayloadV2 t m i c r) => put_agent (row_agent j pj t m i c r) pj
  | RowBudget _ (Some run) b =>
      pj_advance (pj_add_budgeted run (pj_set_runs (jm_set (pj_runs pj) run (mkUsage b 0 0)) pj))
  | RowOperation (Some op) (Some id) =>
      pj_advance (pj_set_owners (jm_set (pj_operationOwners pj) op id) pj)
  | _ => pj_advance pj
  end.

Inductive history : list AgentRow → Projection → Prop :=
| history_nil : history [] empty_projection
| history_row j pj row : history j pj → admissible j pj row → history (j ++ [row]) (apply_row j row pj).

(** ** What a projection says *)

Definition tally (f : AgentState → Z) (l : list (string * (Z * AgentState))) : Z :=
  foldr (λ e z, (f e.2.2 + z)%Z) 0%Z l.
Definition of_run (f : AgentState → Z) (run : string) (a : AgentState) : Z :=
  if bool_decide (as_runId a = run) then f a else 0%Z.
Definition run_steps (pj : Projection) (run : string) : Z := tally (of_run as_stepsUsed run) (pj_states pj).
Definition run_agents (pj : Projection) (run : string) : Z := tally (of_run (λ _, 1%Z) run) (pj_states pj).

(** The names of the agents with those of their parents, eldest first. *)
Definition lineage (l : list (string * (Z * AgentState))) : list (string * option string) :=
  map (λ e, (e.1, as_parentId e.2.2)) l.
Record family (l : list (string * (Z * AgentState))) : Prop := mkFamily {
  fam_keys : jm_ok l;
  fam_id : Forall (λ e, as_id e.2.2 = e.1) l;
  fam_parents : ∀ l1 id p l2, lineage l = l1 ++ (id, Some p) :: l2 → p ∈ l1.*1;
}.
Definition within_budget (u : AgentRunUsage) : Prop :=
  (us_stepsUsed u ≤ rb_maxSteps (us_budget u))%Z ∧ (us_agentsCreated u ≤ rb_maxAgents (us_budget u))%Z.
Definition agent_ok (a : AgentState) : Prop :=
  (0 ≤ as_stepsUsed a)%Z ∧ (as_stepsUsed a ≤ am_maxSteps (as_meta a))%Z.

Record well_formed (pj : Projection) : Prop := mkWellFormed {
  wf_family : family (pj_states pj);
  wf_children : ∀ p, default [] (jm_get (pj_children pj) p)
    = map fst (List.filter (λ e, bool_decide (e.2 = Some p)) (lineage (pj_states pj)));
  wf_budgeted : ∀ run, run ∈ pj_budgeted pj ↔ is_Some (jm_get (pj_runs pj) run);
  wf_usage : ∀ run u, jm_get (pj_runs pj) run = Some u →
    within_budget u ∧ us_stepsUsed u = run_steps pj run ∧ us_agentsCreated u = run_agents pj run;
  wf_agents : ∀ id a, pj_agent pj id = Some a → agent_ok a ∧ as_runId a ∈ pj_budgeted pj;
  wf_parent : ∀ id a p, pj_agent pj id = Some a → as_parentId a = Some p →
    ∃ b, pj_agent pj p = Some b ∧ as_runId b = as_runId a;
  wf_completed : ∀ id a, pj_agent pj id = Some a → as_status a = ag_completed → all_completed pj id;
}.

(** ** Lists of agents *)

Section States.
Implicit Types l : list (string * (Z * AgentState)).

Lemma tally_app f l1 l2 : tally f (l1 ++ l2) = (tally f l1 + tally f l2)%Z.
Proof. unfold tally. induction l1 as [|e l1 IH]; simpl; [done|]. rewrite IH. lia. Qed.
Lemma tally_set f l id q0 b q a :
  jm_get l id = Some (q0, b) → tally f (jm_set l id (q, a)) = (tally f l + (f a - f b))%Z.
Proof.
  unfold tally. induction l as [|[k [q' c]] l IH]; simpl; [done|]. case_decide; simpl.
  - intros [= -> ->]. lia.
  - intros Hget. rewrite IH //. lia.
Qed.
Lemma jm_get_None_keys {A} (m : list (string * A)) k : jm_get m k = None ↔ k ∉ m.*1.
Proof.
  rewrite -(jm_has_in m k) /jm_has bool_decide_eq_true -not_eq_None_Some.
  destruct (jm_get m k); naive_solver.
Qed.
Lemma tally_fresh f l id q a : jm_get l id = None → tally f (jm_set l id (q, a)) = (tally f l + f a)%Z.
Proof. intros H%jm_get_None_keys. rewrite jm_set_fresh // tally_app. unfold tally. simpl. lia. Qed.
Lemma tally_nonneg f l : (∀ a, (0 ≤ f a)%Z) → (0 ≤ tally f l)%Z.
Proof. intros Hf. unfold tally. induction l as [|e l IH]; simpl; [lia|]. specialize (Hf e.2.2). lia. Qed.

Lemma tally_zero f run l : Forall (λ e, as_runId e.2.2 ≠ run) l → tally (of_run f run) l = 0%Z.
Proof.
  unfold tally. induction 1 as [|e l He Hl IH]; simpl; [done|]. rewrite IH. unfold of_run.
  by rewrite bool_decide_false.
Qed.

Lemma lineage_keys l : (lineage l).*1 = l.*1.
Proof. unfold lineage. induction l; simpl; [done|]. by f_equal. Qed.
Lemma lineage_set l id q0 b q a :
  jm_get l id = Some (q0, b) → as_parentId a = as_parentId b →
  lineage (jm_set l id (q, a)) = lineage l.
Proof.
  unfold lineage. induction l as [|[k [q' c]] l IH]; simpl; [done|]. case_decide as Hk; simpl; intros Hg Hp.
  - simplify_eq. by rewrite Hp.
  - by rewrite IH.
Qed.
Lemma lineage_fresh l id q a :
  jm_get l id = None → lineage (jm_set l id (q, a)) = lineage l ++ [(id, as_parentId a)].
Proof. intros H%jm_get_None_keys. by rewrite jm_set_fresh // /lineage map_app. Qed.
Lemma elem_of_lineage l id p : jm_ok l →
  (id, p) ∈ lineage l ↔ ∃ q a, jm_get l id = Some (q, a) ∧ as_parentId a = p.
Proof.
  intros Hok. unfold lineage. rewrite list_elem_of_In in_map_iff. split.
  - intros ([k [q a]] & [= <- <-] & Hin%list_elem_of_In). exists q, a. split; [|done]. by apply jm_in_get.
  - intros (q & a & Hg%jm_get_in & <-). exists (id, (q, a)). by split; [|apply list_elem_of_In].
Qed.

Lemma jm_ok_set {A} (m : list (string * A)) k v : jm_ok m → jm_ok (jm_set m k v).
Proof. unfold jm_ok. rewrite jm_set_keys. apply NoDup_js_add. Qed.
Lemma Forall_set (P : string * (Z * AgentState) → Prop) l id v :
  P (id, v) → Forall P l → Forall P (jm_set l id v).
Proof.
  intros HP. induction 1 as [|[k w] l H Hl IH]; simpl; [by constructor|].
  case_decide; by constructor; subst.
Qed.
Lemma family_set l id q0 b q a :
  family l → jm_get l id = Some (q0, b) → as_id a = id → as_parentId a = as_parentId b →
  family (jm_set l id (q, a)).
Proof.
  intros [Hok Hid Hpar] Hg Ha Hp. constructor.
  - by apply jm_ok_set.
  - by apply Forall_set.
  - rewrite (lineage_set _ _ q0 b) //.
Qed.
Lemma family_fresh l id q a :
  family l → jm_get l id = None → as_id a = id →
  (∀ p, as_parentId a = Some p → p ∈ l.*1) → family (jm_set l id (q, a)).
Proof.
  intros [Hok Hid Hpar] Hg Ha Hp. constructor.
  - by apply jm_ok_set.
  - by apply Forall_set.
  - intros l1 k p l2. rewrite lineage_fresh //.
    intros [(-> & [= -> Hq] & _)|(l2' & -> & Hl)]%snoc_split.
    + rewrite lineage_keys. by apply Hp.
    + by eapply Hpar.
Qed.
End States.

(** ** Reading and writing projections *)

Lemma pj_agent_put a pj id :
  pj_agent (put_agent a pj) id = if decide (as_id a = id) then Some a else pj_agent pj id.
Proof. unfold pj_agent. simpl. rewrite jm_get_set. by case_decide. Qed.
Lemma pj_agent_get pj id a : pj_agent pj id = Some a ↔ ∃ q, jm_get (pj_states pj) id = Some (q, a).
Proof.
  unfold pj_agent. rewrite fmap_Some. split; [intros ([q b] & ? & ->); eauto|intros [q ?]; by exists (q, a)].
Qed.
Lemma pj_agent_None pj id : pj_agent pj id = None ↔ jm_get (pj_states pj) id = None.
Proof. unfold pj_agent. by rewrite fmap_None. Qed.

(** Open scopes depend on the agents only. *)
Lemma below_agents pj pj' x y :
  (∀ k, pj_agent pj' k = pj_agent pj k) → below pj' x y → below pj x y.
Proof.
  intros Hag Hx. induction Hx as [x|x y z (c & Hc & Hp) _ IH]; [apply rtc_refl|].
  eapply rtc_l; [|exact IH]. exists c. by rewrite -Hag.
Qed.
Lemma scope_open_agents pj pj' id :
  (∀ k, pj_agent pj' k = pj_agent pj k) → scope_open pj id → scope_open pj' id.
Proof.
  intros Hag Ho x a Hx%(below_agents pj pj') Ha; [|done]. rewrite Hag in Ha. by apply (Ho x a).
Qed.

Section Family.
Context (pj : Projection) (Hfam : family (pj_states pj)).

Lemma agent_id id a : pj_agent pj id = Some a → as_id a = id.
Proof using Hfam.
  intros [q Hg%jm_get_in]%pj_agent_get. destruct Hfam as [_ Hid _].
  by apply (proj1 (Forall_forall _ _) Hid _ Hg).
Qed.
Lemma agent_key id : is_Some (pj_agent pj id) ↔ id ∈ (pj_states pj).*1.
Proof using Type.
  rewrite -not_eq_None_Some pj_agent_None. rewrite jm_get_None_keys.
  destruct (decide (id ∈ (pj_states pj).*1)); naive_solver.
Qed.

Lemma root_from_ok fuel : ∀ a l1 l2,
  lineage (pj_states pj) = l1 ++ (as_id a, as_parentId a) :: l2 → length l1 < fuel →
  ∃ r, root_from fuel pj a = Ok r.
Proof using Hfam.
  induction fuel as [|fuel IH]; intros a l1 l2 Hl Hlen; [lia|]. simpl.
  destruct (as_parentId a) as [p|] eqn:Hp; [|by eexists].
  pose proof (fam_parents _ Hfam _ _ _ _ Hl) as Hin.
  apply list_elem_of_fmap in Hin as ([k pp] & -> & Hin). simpl in *.
  apply list_elem_of_split in Hin as (l1a & l1b & ->).
  assert ((k, pp) ∈ lineage (pj_states pj)) as Hm by (rewrite Hl; set_solver).
  apply elem_of_lineage in Hm as (q & b & Hg & Hpp); [|apply Hfam].
  assert (pj_agent pj k = Some b) as Hb by (apply pj_agent_get; eauto). rewrite Hb.
  apply (IH b l1a (l1b ++ (as_id a, Some k) :: l2)).
  - rewrite Hl -assoc. simpl. by rewrite (agent_id _ _ Hb) Hpp.
  - rewrite length_app /= in Hlen. lia.
Qed.
Lemma root_of_ok id a : pj_agent pj id = Some a → ∃ r, root_of pj a = Ok r.
Proof using Hfam.
  intros Ha. pose proof (agent_id _ _ Ha) as Hid. apply pj_agent_get in Ha as [q Hg].
  assert ((as_id a, as_parentId a) ∈ lineage (pj_states pj)) as Hin.
  { apply elem_of_lineage; [apply Hfam|]. rewrite Hid. by exists q, a. }
  apply list_elem_of_split in Hin as (l1 & l2 & Hl).
  apply (root_from_ok _ a l1 l2 Hl).
  apply (f_equal length) in Hl. unfold lineage in Hl. rewrite length_map length_app /= in Hl. lia.
Qed.
End Family.

(** The children of an agent are the agents it is the parent of. *)
Lemma elem_of_children pj p c : well_formed pj →
  c ∈ children pj p ↔ pj_agent pj (as_id c) = Some c ∧ as_parentId c = Some p.
Proof.
  intros [Hfam Hch _ _ _ _ _]. unfold children. rewrite Hch list_elem_of_omap.
  assert (Hkey : ∀ k, k ∈ map fst (List.filter (λ e, bool_decide (e.2 = Some p)) (lineage (pj_states pj)))
    ↔ ∃ b, pj_agent pj k = Some b ∧ as_parentId b = Some p).
  { intros k. rewrite list_elem_of_In in_map_iff. setoid_rewrite filter_In.
    setoid_rewrite <- list_elem_of_In. split.
    - intros ([k' pp] & <- & Hin & Hp%bool_decide_eq_true). simpl in *. subst.
      apply elem_of_lineage in Hin as (q & b & Hg & ?); [|apply Hfam].
      exists b. split; [|done]. apply pj_agent_get. by exists q.
    - intros (b & [q Hg]%pj_agent_get & Hp). exists (k, Some p). simpl. split_and!; [done| |by apply bool_decide_eq_true].
      apply elem_of_lineage; [apply Hfam|]. by exists q, b. }
  setoid_rewrite Hkey. split.
  - intros (k & (b & Hb & Hp) & Hc). simplify_eq. by rewrite (agent_id _ Hfam _ _ Hb).
  - intros [Hc Hp]. exists (as_id c). split; [|done]. by exists c.
Qed.
Lemma all_completed_spec pj id : well_formed pj →
  all_completed pj id ↔
  ∀ c, pj_agent pj (as_id c) = Some c → as_parentId c = Some id → as_status c = ag_completed.
Proof.
  intros Hwf. unfold all_completed. rewrite Forall_forall.
  setoid_rewrite (elem_of_children pj id _ Hwf). naive_solver.
Qed.
Lemma completed_child pj id b c : well_formed pj →
  pj_agent pj id = Some b → as_status b = ag_completed →
  pj_agent pj (as_id c) = Some c → as_parentId c = Some id → as_status c = ag_completed.
Proof.
  intros Hwf Hb Hst. apply all_completed_spec; [done|]. by eapply wf_completed.
Qed.

(** ** Reading checkpoints *)

Lemma getJournalEvent_app j l seq :
  (seq ≤ Z.of_nat (length j))%Z → getJournalEvent (j ++ l) seq = getJournalEvent j seq.
Proof.
  intros H. unfold getJournalEvent. destruct (1 <=? seq)%Z eqn:E; [|done].
  rewrite lookup_app_l //. lia.
Qed.
Lemma valid_ref_lt ref seq : valid_ref ref seq = true → ∃ r, ref = Some r ∧ (1 ≤ r < seq)%Z.
Proof. unfold valid_ref. destruct ref as [r|]; [|done]. intros. exists r. split; [done|]. lia. Qed.
Lemma read_checkpoint_app j l fuel : ∀ seq id,
  (seq ≤ Z.of_nat (length j))%Z → read_checkpoint fuel (j ++ l) seq id = read_checkpoint fuel j seq id.
Proof.
  induction fuel as [|fuel IH]; intros seq id Hseq; simpl; [done|].
  rewrite getJournalEvent_app //. repeat case_match; try done.
  apply IH. match goal with H : valid_ref _ _ = true |- _ => apply valid_ref_lt in H as (r & -> & ?) end.
  simpl. lia.
Qed.
Lemma read_checkpoint_fuel j fuel : ∀ seq id, Z.to_nat seq < fuel →
  read_checkpoint fuel j seq id = readAgentCheckpoint j seq id.
Proof.
  unfold readAgentCheckpoint. induction fuel as [fuel IH] using lt_wf_ind. intros seq id Hlt.
  destruct fuel as [|fuel]; [lia|]. simpl. repeat case_match; try done.
  match goal with H : valid_ref _ _ = true |- _ => apply valid_ref_lt in H as (r & -> & ?) end. simpl.
  rewrite IH; [|lia..]. destruct (decide (Z.to_nat seq < S fuel)); [|lia].
  symmetry. destruct (decide (Z.to_nat seq = fuel)) as [->|]; apply IH; lia.
Qed.
Lemma readAgentCheckpoint_app j l seq id :
  (seq ≤ Z.of_nat (length j))%Z → readAgentCheckpoint (j ++ l) seq id = readAgentCheckpoint j seq id.
Proof. apply read_checkpoint_app. Qed.

(** ** [sync] computes what the reference says *)

Definition row_root (j : list AgentRow) (pj : Projection) (row : AgentRow) : option string :=
  match row with
  | RowState (PayloadV2 t m i c r) =>
      let a := row_agent j pj t m i c r in
      Some (ok_or "" (root_of (put_agent a pj) a))
  | _ => None
  end.

Lemma put_agent_family pj a : well_formed pj →
  (∀ b, pj_agent pj (as_id a) = Some b → as_parentId a = as_parentId b) →
  (∀ p, pj_agent pj (as_id a) = None → as_parentId a = Some p → is_Some (pj_agent pj p)) →
  family (pj_states (put_agent a pj)).
Proof.
  intros Hwf Hold Hnew. simpl. destruct (pj_agent pj (as_id a)) as [b|] eqn:E.
  - pose proof E as [q Hg]%pj_agent_get. eapply family_set; [apply Hwf|done..|by apply Hold].
  - apply family_fresh; [apply Hwf|by apply pj_agent_None|done|].
    intros p Hp. by apply agent_key, Hnew.
Qed.

Ltac invert_row Hadm :=
  inversion Hadm as
    [|brun bb Hrun Hnew Hb|oop oid Hop Hown|m' u input' checkpoint' Hnone Hst Hsteps Hmax Hparent Hbud Hu Hcap
     |t' m' a checkpoint' ref' Ha Hsame Hlife Hsteps Hstart Hopen Habove Hc Href Hdone]; subst.

(** The parent of a row's agent, and what is known of its run. *)
Lemma row_facts j pj t m i c r : well_formed pj →
  admissible j pj (RowState (PayloadV2 t m i c r)) →
  (∀ b, pj_agent pj (am_id m) = Some b → am_parentId m = as_parentId b ∧ am_runId m = as_runId b)
  ∧ (∀ p, pj_agent pj (am_id m) = None → am_parentId m = Some p → is_Some (pj_agent pj p))
  ∧ am_runId m ∈ pj_budgeted pj.
Proof.
  intros Hwf Hadm. invert_row Hadm.
  - split_and!; [naive_solver| |done]. intros p _ Hp. edestruct Hparent as (b & Hb & _); [done|]. by exists b.
  - destruct Hsame as (Hid & Hrun & Hpar & Hmax). split_and!.
    + intros b Hb. by simplify_eq.
    + congruence.
    + rewrite Hrun. by eapply wf_agents.
Qed.

Lemma project_event_admissible j row l pj t m i c r :
  row = RowState (PayloadV2 t m i c r) → pj_cursor pj = length j → admissible j pj row →
  projectAgentEvent (j ++ row :: l) (Z.of_nat (S (pj_cursor pj))) (PayloadV2 t m i c r)
    (pj_agent pj (am_id m)) = Ok (row_agent j pj t m i c r).
Proof.
  intros -> Hcur Hadm. unfold projectAgentEvent, row_agent. invert_row Hadm.
  - by rewrite Hnone.
  - rewrite Ha /=. rewrite (bool_decide_false (t = tr_created)); [|by destruct t, (as_status a)]. simpl.
    destruct (decide (t = tr_step_completed)) as [->|Ht].
    + rewrite bool_decide_true //. destruct c as [c|]; [done|]. by destruct (proj2 Hc eq_refl).
    + rewrite (bool_decide_false (t = tr_step_completed)) //.
      destruct c as [c|]; [by exfalso; apply Ht, (proj1 Hc); eexists|]. simpl.
      case_bool_decide as Htr; [|done]. destruct Href as [Hv Hok]. rewrite Hv.
      apply valid_ref_lt in Hv as (q & -> & Hq). simpl in *.
      rewrite readAgentCheckpoint_app; [|lia]. by destruct (readAgentCheckpoint j q (am_id m)).
Qed.

Lemma root_of_states pj pj' a : pj_states pj = pj_states pj' → root_of pj a = root_of pj' a.
Proof.
  intros Heq. unfold root_of. rewrite Heq. generalize (S (length (pj_states pj'))). intros n. revert a.
  induction n as [|n IH]; intros a; simpl; [done|]. unfold pj_agent. rewrite Heq.
  destruct (as_parentId a) as [p|]; [|done]. by destruct (snd <$> jm_get (pj_states pj') p).
Qed.

#[local] Arguments projectAgentEvent : simpl never.
#[local] Arguments root_of : simpl never.
Lemma project_state_admissible b j row l pj t m i c r :
  row = RowState (PayloadV2 t m i c r) → well_formed pj → pj_cursor pj = length j → admissible j pj row →
  let a := row_agent j pj t m i c r in
  ∃ pj', project_state b (j ++ row :: l) (Z.of_nat (S (pj_cursor pj))) (PayloadV2 t m i c r) pj
         = (Ok (ok_or "" (root_of (put_agent a pj) a)), pj') ∧ pj_advance pj' = put_agent a pj.
Proof.
  intros -> Hwf Hcur Hadm a.
  pose proof (row_facts _ _ _ _ _ _ _ Hwf Hadm) as (Hold & Hnew & Hbud).
  apply (wf_budgeted _ Hwf) in Hbud as [u Hu].
  assert (family (pj_states (put_agent a pj))) as Hfam.
  { apply put_agent_family; [done| |done]. intros b' Hb'. by apply Hold. }
  destruct (root_of_ok _ Hfam (as_id a) a) as [rt Hrt]; [by rewrite pj_agent_put decide_True|].
  unfold project_state. rewrite run_gets run_lift /=.
  rewrite (project_event_admissible _ _ _ _ _ _ _ _ _ eq_refl Hcur Hadm). fold a.
  change (am_id m) with (as_id a). change (as_runId (row_agent j pj t m i c r)) with (as_runId a).
  change (am_runId m) with (as_runId a) in Hu. rewrite Hu /=.
  rewrite run_modify run_modify Hrt. unfold put_agent. rewrite Hu.
  destruct (pj_agent pj (as_id a)) as [b0|] eqn:E; [|destruct (as_parentId a) as [p|] eqn:Ep];
    rewrite ?run_ret ?run_modify run_gets /lift (root_of_states _ (put_agent a pj)) // Hrt;
    (eexists; split; [reflexivity|]).
  - by destruct (as_parentId a).
  - done.
  - done.
Qed.

Lemma run_bind_eq {A B} (m : PjM A) (k : A → PjM B) s o s' :
  m s = (o, s') → (m ≫= k) s = match o with Ok a => k a s' | Throw e => (Throw e, s') end.
Proof. unfold mbind, ST_bind. by intros ->. Qed.

Lemma sync_row_admissible b j row l pj :
  well_formed pj → pj_cursor pj = length j → admissible j pj row →
  sync_row b (j ++ row :: l) row pj = (Ok (row_root j pj row), apply_row j row pj).
Proof.
  intros Hwf Hcur Hadm. unfold sync_row. rewrite run_gets /=.
  destruct row as [[t m|t m i c r|m]|v run bd|op id|]; try solve [inversion Hadm].
  - destruct (project_state_admissible b j _ l pj t m i c r eq_refl Hwf Hcur Hadm) as (pj' & Hrun & Hadv).
    rewrite run_assoc (run_bind_eq _ _ _ _ _ Hrun) /= run_ret run_modify Hadv. done.
  - invert_row Hadm. assert (jm_get (pj_runs pj) brun = None) as Hnone.
    { apply eq_None_not_Some. by rewrite -(wf_budgeted _ Hwf). }
    unfold project_budget. autorewrite with xio_run. rewrite Hrun (proj2 (js_has_false _ _) Hnew) /=.
    rewrite Hb. autorewrite with xio_run. rewrite /modify Hnone. done.
  - invert_row Hadm. unfold project_operation. autorewrite with xio_run. rewrite Hop /=.
    autorewrite with xio_run. destruct (jm_get (pj_operationOwners pj) oop) as [o|] eqn:Ho; [|done].
    destruct (truthy_str o) eqn:Et; [|done]. by rewrite (Hown _ eq_refl Et) bool_decide_true.
  - done.
Qed.

Lemma apply_row_cursor j row pj : pj_cursor (apply_row j row pj) = S (pj_cursor pj).
Proof. by destruct row as [[]|? []|[] []|]. Qed.

(** ** Histories lead to well-formed projections *)

Lemma children_put pj a p : well_formed pj → family (pj_states (put_agent a pj)) →
  (∀ b, pj_agent pj (as_id a) = Some b → as_parentId a = as_parentId b) →
  default [] (jm_get (pj_children (put_agent a pj)) p)
  = map fst (List.filter (λ e, bool_decide (e.2 = Some p)) (lineage (pj_states (put_agent a pj)))).
Proof.
  intros Hwf Hfam Hold. simpl. destruct (pj_agent pj (as_id a)) as [b|] eqn:E.
  - pose proof E as [q Hg]%pj_agent_get. rewrite (lineage_set _ _ q b) //; [|by apply Hold].
    rewrite bool_decide_true //. destruct (as_parentId a); apply Hwf.
  - pose proof E as Hg%pj_agent_None. rewrite lineage_fresh // List.filter_app map_app -(wf_children _ Hwf p) /=.
    destruct (as_parentId a) as [p'|] eqn:Ep; simpl; [|by rewrite app_nil_r].
    rewrite jm_get_set. destruct (decide (p' = p)) as [->|Hne].
    + rewrite bool_decide_true //= js_add_fresh //. apply js_has_false.
      rewrite (wf_children _ Hwf p) list_elem_of_In in_map_iff.
      intros ([k pp] & Hk & [Hin%list_elem_of_In _]%filter_In). simpl in Hk. subst k.
      apply elem_of_lineage in Hin as (q & b & Hb & _); [|apply Hwf]. congruence.
    + rewrite bool_decide_false; [|congruence]. by rewrite app_nil_r.
Qed.

Section Put.
Context (pj : Projection) (a : AgentState).
Context (Hwf : well_formed pj) (Hfam : family (pj_states (put_agent a pj))).
(** What is asked of a state to be put. *)
Record putting : Prop := mkPutting {
  put_old : ∀ b, pj_agent pj (as_id a) = Some b → as_parentId a = as_parentId b ∧ as_runId a = as_runId b
    ∧ (as_status b = ag_completed → as_status a = ag_completed);
  put_parent : ∀ p, as_parentId a = Some p → ∃ b, pj_agent pj p = Some b ∧ as_runId b = as_runId a;
  put_closed : ∀ p b, pj_agent pj (as_id a) = None → as_parentId a = Some p → pj_agent pj p = Some b →
    as_status b ≠ ag_completed;
  put_run : as_runId a ∈ pj_budgeted pj;
  put_agent_ok : agent_ok a;
  put_budget : ∀ u, jm_get (pj_runs pj) (as_runId a) = Some u →
    within_budget (mkUsage (us_budget u)
      (us_stepsUsed u + (as_stepsUsed a - match pj_agent pj (as_id a) with Some b => as_stepsUsed b | None => 0 end))
      (us_agentsCreated u + if bool_decide (is_Some (pj_agent pj (as_id a))) then 0 else 1)%Z);
  put_completed : as_status a = ag_completed →
    ∀ c, pj_agent pj (as_id c) = Some c → as_parentId c = Some (as_id a) → as_status c = ag_completed;
}.
Context (Hput : putting).

Lemma put_tally f run :
  tally (of_run f run) (pj_states (put_agent a pj))
  = (tally (of_run f run) (pj_states pj) + if bool_decide (as_runId a = run)
     then f a - match pj_agent pj (as_id a) with Some b => f b | None => 0 end else 0)%Z.
Proof using Hput.
  simpl. destruct (pj_agent pj (as_id a)) as [b|] eqn:E.
  - pose proof E as [q Hg]%pj_agent_get. rewrite (tally_set _ _ _ q b) //.
    destruct (put_old Hput _ E) as (_ & Hrun & _). unfold of_run. rewrite -Hrun. case_bool_decide; lia.
  - rewrite tally_fresh; [|by apply pj_agent_None]. unfold of_run. case_bool_decide; lia.
Qed.

Lemma put_usage run u : jm_get (pj_runs (put_agent a pj)) run = Some u →
  within_budget u ∧ us_stepsUsed u = run_steps (put_agent a pj) run
  ∧ us_agentsCreated u = run_agents (put_agent a pj) run.
Proof using Hput Hwf.
  unfold run_steps, run_agents. rewrite !put_tally. simpl.
  pose proof (put_run Hput) as [v Hv]%(wf_budgeted _ Hwf). rewrite Hv jm_get_set.
  destruct (decide (as_runId a = run)) as [<-|Hne].
  - intros [= <-]. rewrite !(bool_decide_true (as_runId a = as_runId a)) //. destruct (wf_usage _ Hwf _ _ Hv) as (_ & Hs & Hn).
    split; [by apply (put_budget Hput)|]. simpl. unfold run_steps, run_agents in Hs, Hn. rewrite Hs Hn.
    split; [done|]. destruct (pj_agent pj (as_id a)); [rewrite bool_decide_true //|rewrite bool_decide_false //; by intros [? ?]].
  - intros Hu. rewrite bool_decide_false // !Z.add_0_r. by apply (wf_usage _ Hwf).
Qed.

Lemma put_well_formed : well_formed (put_agent a pj).
Proof using Hput Hwf Hfam.
  assert (∀ p, default [] (jm_get (pj_children (put_agent a pj)) p)
    = map fst (List.filter (λ e, bool_decide (e.2 = Some p)) (lineage (pj_states (put_agent a pj))))) as Hch.
  { intros p. apply children_put; [done..|]. intros b Hb. by apply (put_old Hput). }
  constructor; [done|done| |exact put_usage|..].
  - intros run. simpl. pose proof (put_run Hput) as [v Hv]%(wf_budgeted _ Hwf). rewrite Hv jm_get_set.
    rewrite (wf_budgeted _ Hwf). case_decide; [|done]. subst. rewrite Hv. naive_solver.
  - intros id b. rewrite pj_agent_put. case_decide; [|apply (wf_agents _ Hwf)].
    intros [= <-]. split; [apply Hput|]. apply Hput.
  - intros id b p. rewrite !pj_agent_put. case_decide as Hid.
    + intros [= <-] Hp. destruct (put_parent Hput _ Hp) as (c & Hc & Hrun).
      case_decide; [|by eauto]. subst. exists a. done.
    + intros Hb Hp. destruct (wf_parent _ Hwf _ _ _ Hb Hp) as (c & Hc & Hrun). case_decide; [|by eauto].
      subst. exists a. split; [done|]. destruct (put_old Hput _ Hc) as (_ & -> & _). done.
  - assert (∀ id b, pj_agent (put_agent a pj) id = Some b → as_status b = ag_completed →
      ∀ c, pj_agent (put_agent a pj) (as_id c) = Some c → as_parentId c = Some id → as_status c = ag_completed) as H.
    { intros id b. rewrite pj_agent_put. case_decide as Hid.
      - intros [= <-] Hst c. rewrite pj_agent_put. case_decide as Hc; [by intros [= <-]|]. rewrite -Hid.
        by apply (put_completed Hput).
      - intros Hb Hst c. rewrite pj_agent_put. case_decide as Hc.
        + intros [= <-] Hp. destruct (pj_agent pj (as_id a)) as [a0|] eqn:E.
          * destruct (put_old Hput _ E) as (Hpar & _ & Hcomp). apply Hcomp.
            apply (completed_child pj id b a0); [done..| |congruence].
            by rewrite (agent_id _ (wf_family _ Hwf) _ _ E).
          * by destruct (put_closed Hput _ _ E Hp Hb).
        + intros Hcc Hp. by apply (completed_child pj id b c). }
    intros id b Hb Hst. unfold all_completed. apply Forall_forall. intros c Hc.
    unfold children in Hc. rewrite Hch in Hc. apply list_elem_of_omap in Hc as (k & Hk & Hc).
    apply list_elem_of_In, in_map_iff in Hk as ([k' pp] & <- & [Hin%list_elem_of_In Hpp%bool_decide_eq_true]%filter_In).
    simpl in *. subst. apply elem_of_lineage in Hin as (q & c' & Hg & Hp); [|apply Hfam].
    assert (pj_agent (put_agent a pj) k' = Some c') as Hc' by (apply pj_agent_get; eauto). simplify_eq.
    apply (H id b Hb Hst); [|done]. by rewrite (agent_id (put_agent a pj) Hfam _ _ Hc).
Qed.
End Put.

(** ** Admissible rows keep a projection well formed *)

Lemma charge_nonneg t : (0 ≤ charge t ≤ 1)%Z.
Proof. unfold charge. case_bool_decide; lia. Qed.
Lemma charge_other t : t ≠ tr_step_started → charge t = 0%Z.
Proof. intros. unfold charge. by rewrite bool_decide_false. Qed.
Lemma lifecycle_final t old new : lifecycle t old new = true → old ≠ ag_completed ∧ old ≠ ag_failed.
Proof. by destruct t, old. Qed.

Lemma moved_putting pj t m a0 a :
  well_formed pj → as_meta a = m → pj_agent pj (am_id m) = Some a0 → same_agent m (as_meta a0) →
  lifecycle t (as_status a0) (am_status m) = true → am_stepsUsed m = (as_stepsUsed a0 + charge t)%Z →
  (t = tr_step_started → (as_stepsUsed a0 < am_maxSteps (as_meta a0))%Z ∧
     ∃ u, jm_get (pj_runs pj) (as_runId a0) = Some u ∧ (us_stepsUsed u < rb_maxSteps (us_budget u))%Z) →
  (am_status m = ag_completed → all_completed pj (am_id m)) →
  putting pj a.
Proof.
  intros Hwf <- Ha (Hid & Hrun & Hpar & Hmax) Hlife Hsteps Hstart Hdone.
  change (am_id (as_meta a)) with (as_id a) in *. change (am_runId (as_meta a)) with (as_runId a) in *.
  change (am_parentId (as_meta a)) with (as_parentId a) in *.
  change (am_stepsUsed (as_meta a)) with (as_stepsUsed a) in *.
  destruct (wf_agents _ Hwf _ _ Ha) as [[Hlo Hhi] Hbud]. pose proof (charge_nonneg t) as Hch.
  assert (charge t = 0%Z ∨ t = tr_step_started) as Ht.
  { destruct (decide (t = tr_step_started)); [by right|left; by apply charge_other]. }
  constructor.
  - intros b Hb. simplify_eq. split_and!; [done..|]. intros Hst. by destruct (lifecycle_final _ _ _ Hlife).
  - intros p Hp. rewrite Hrun. apply (wf_parent _ Hwf _ _ _ Ha). unfold as_parentId in *. congruence.
  - congruence.
  - by rewrite Hrun.
  - split; [lia|]. rewrite Hmax. destruct Ht as [?|Ht]; [lia|]. destruct (Hstart Ht). lia.
  - intros u Hu. rewrite Ha bool_decide_true; [|by eexists].
    rewrite Hrun in Hu. destruct (wf_usage _ Hwf _ _ Hu) as [[Hs Hn] _]. split; simpl; [|lia].
    destruct Ht as [?|Ht]; [lia|]. destruct (Hstart Ht) as (_ & v & Hv & Hlt). change (am_runId (as_meta a0)) with (as_runId a0) in Hu. simplify_eq. lia.
  - intros Hst. by apply all_completed_spec, Hdone.
Qed.

Lemma created_putting pj m u input checkpoint :
  well_formed pj → pj_agent pj (am_id m) = None → am_status m = ag_ready → am_stepsUsed m = 0%Z →
  (1 ≤ am_maxSteps m)%Z →
  (∀ p, am_parentId m = Some p → ∃ b, pj_agent pj p = Some b ∧ as_runId b = am_runId m
     ∧ as_status b ≠ ag_waiting ∧ scope_open pj p) →
  am_runId m ∈ pj_budgeted pj → jm_get (pj_runs pj) (am_runId m) = Some u →
  (us_agentsCreated u < rb_maxAgents (us_budget u))%Z →
  putting pj (mkAgent m input checkpoint).
Proof.
  intros Hwf Hnone Hst Hsteps Hmax Hparent Hbud Hu Hcap.
  constructor; unfold as_id, as_runId, as_parentId, as_stepsUsed, as_status, agent_ok in *; simpl.
  - congruence.
  - intros p Hp. destruct (Hparent _ Hp) as (b & ? & ? & _). by exists b.
  - intros p b _ Hp Hb Hc. destruct (Hparent _ Hp) as (b' & Hb' & _ & Hno). simplify_eq.
    destruct Hno as [_ Hopen]. destruct (Hopen p b) as [Hst' _]; [apply rtc_refl|done|].
    apply Hst'. unfold as_status. rewrite Hc. set_solver.
  - done.
  - unfold as_stepsUsed. simpl. lia.
  - intros v Hv. simplify_eq. rewrite Hnone bool_decide_false; [|by intros [? ?]].
    destruct (wf_usage _ Hwf _ _ Hu) as [[Hs Hn] _]. split; simpl; lia.
  - congruence.
Qed.

Lemma put_family_of_row j pj t m i c r : well_formed pj →
  admissible j pj (RowState (PayloadV2 t m i c r)) →
  family (pj_states (put_agent (row_agent j pj t m i c r) pj)).
Proof.
  intros Hwf Hadm. pose proof (row_facts _ _ _ _ _ _ _ Hwf Hadm) as (Hold & Hnew & _).
  apply put_agent_family; [done| |done]. intros b Hb. by apply (Hold b).
Qed.

Lemma well_formed_runs pj pj' : well_formed pj →
  pj_states pj' = pj_states pj → pj_children pj' = pj_children pj →
  (∀ run, run ∈ pj_budgeted pj' ↔ is_Some (jm_get (pj_runs pj') run)) →
  (∀ run u, jm_get (pj_runs pj') run = Some u →
     jm_get (pj_runs pj) run = Some u ∨
     jm_get (pj_runs pj) run = None ∧ within_budget u ∧ us_stepsUsed u = 0%Z ∧ us_agentsCreated u = 0%Z) →
  (∀ run, run ∈ pj_budgeted pj → run ∈ pj_budgeted pj') →
  well_formed pj'.
Proof.
  intros Hwf Hst Hch Hbud Hruns Hmono.
  assert (Hag : ∀ id, pj_agent pj' id = pj_agent pj id) by (intros; unfold pj_agent; by rewrite Hst).
  constructor; rewrite ?Hst ?Hch; try apply Hwf; [done|..].
  - intros run u Hu. unfold run_steps, run_agents. rewrite Hst.
    destruct (Hruns _ _ Hu) as [Hold|(Hno & Hin & -> & ->)]; [by apply (wf_usage _ Hwf)|].
    assert (Hzero : ∀ f, tally (of_run f run) (pj_states pj) = 0%Z).
    { intros f. assert (Forall (λ e, as_runId e.2.2 ≠ run) (pj_states pj)) as Hall.
      { apply Forall_forall. intros [id [q a]] Hin' Hr. simpl in Hr.
        assert (pj_agent pj id = Some a) as Ha.
        { apply pj_agent_get. exists q. apply jm_in_get; [apply Hwf|done]. }
        apply (wf_agents _ Hwf) in Ha as [_ Hb]. rewrite Hr in Hb. apply (wf_budgeted _ Hwf) in Hb as [? ?]. congruence. }
      by apply tally_zero. }
    by rewrite !Hzero.
  - intros id a. rewrite Hag. intros Ha. destruct (wf_agents _ Hwf _ _ Ha). split; [done|by apply Hmono].
  - intros id a p. rewrite Hag. setoid_rewrite Hag. apply (wf_parent _ Hwf).
  - intros id a. rewrite Hag. intros Ha Hc. pose proof (wf_completed _ Hwf _ _ Ha Hc) as H.
    unfold all_completed, children, pj_agent in *. by rewrite Hch Hst.
Qed.

Lemma apply_row_well_formed j pj row :
  well_formed pj → admissible j pj row → well_formed (apply_row j row pj).
Proof.
  intros Hwf Hadm. destruct row as [[t m|t m i c r|m]|v run bd|op id|]; try solve [inversion Hadm].
  - simpl. pose proof (put_family_of_row _ _ _ _ _ _ _ Hwf Hadm) as Hfam.
    apply put_well_formed; [done..|]. invert_row Hadm.
    + by eapply created_putting.
    + by eapply moved_putting.
  - invert_row Hadm. simpl. apply (well_formed_runs pj); simpl; [done..| | |].
    + intros run. rewrite elem_of_js_add jm_get_set (wf_budgeted _ Hwf). case_decide; naive_solver.
    + intros run u. rewrite jm_get_set. case_decide as Hr; [|by left]. intros [= <-]. right. subst.
      split; [apply eq_None_not_Some; by rewrite -(wf_budgeted _ Hwf)|]. split; [|done].
      unfold validateRunBudget, positive_safe in Hb. split; simpl; case_match; simplify_eq; lia.
    + intros run. rewrite elem_of_js_add. by left.
  - invert_row Hadm. simpl. apply (well_formed_runs pj); simpl; [done..|apply Hwf|by left|done].
  - simpl. apply (well_formed_runs pj); simpl; [done..|apply Hwf|by left|done].
Qed.

Lemma empty_well_formed : well_formed empty_projection.
Proof.
  constructor; simpl; try done; [|set_solver].
  constructor; [constructor|constructor|]. by intros [].
Qed.
Lemma history_well_formed j pj : history j pj → well_formed pj ∧ pj_cursor pj = length j.
Proof.
  induction 1 as [|j pj row Hh [Hwf Hcur] Hadm]; [split; [apply empty_well_formed|done]|].
  split; [by apply apply_row_well_formed|]. rewrite apply_row_cursor length_app Hcur /=. lia.
Qed.

(** Rows that follow a history one after the other. *)
Inductive chain (j : list AgentRow) (pj : Projection) : list AgentRow → Projection → Prop :=
| chain_nil : chain j pj [] pj
| chain_row row rows pj' :
    admissible j pj row → chain (j ++ [row]) (apply_row j row pj) rows pj' → chain j pj (row :: rows) pj'.
Lemma history_chain j pj rows pj' : history j pj → chain j pj rows pj' → history (j ++ rows) pj'.
Proof.
  intros Hh Hc. induction Hc as [j pj|j pj row rows pj' Hadm _ IH]; [by rewrite app_nil_r|].
  rewrite cons_middle assoc. apply IH. by constructor.
Qed.
Lemma chain_app j pj rows1 pj1 rows2 pj2 :
  chain j pj rows1 pj1 → chain (j ++ rows1) pj1 rows2 pj2 → chain j pj (rows1 ++ rows2) pj2.
Proof.
  intros Hc. revert rows2 pj2. induction Hc as [j pj|j pj row rows pj' Hadm _ IH]; intros rows2 pj2 H2; simpl.
  - by rewrite app_nil_r in H2.
  - constructor; [done|]. apply IH. by rewrite -assoc.
Qed.
Lemma history_is_chain j pj : history j pj → chain [] empty_projection j pj.
Proof.
  induction 1 as [|j pj row _ IH Hadm]; [constructor|].
  eapply chain_app; [exact IH|]. simpl. constructor; [done|constructor].
Qed.

(** Every checkpoint of a history can be read. *)
Lemma getJournalEvent_snoc j row seq e : getJournalEvent (j ++ [row]) seq = Some e →
  getJournalEvent j seq = Some e ∨ seq = Z.of_nat (S (length j)) ∧ e = row.
Proof.
  unfold getJournalEvent. case_match eqn:E; [|done]. intros [H|[Hl H]]%lookup_app_Some; [by left|].
  right. apply list_lookup_singleton_Some in H as [H <-]. split; [lia|done].
Qed.
Lemma getJournalEvent_last j row : getJournalEvent (j ++ [row]) (Z.of_nat (S (length j))) = Some row.
Proof.
  unfold getJournalEvent. rewrite (proj2 (Z.leb_le _ _)); [|lia]. apply lookup_app_Some. right.
  split; [lia|]. apply list_lookup_singleton_Some. split; [lia|done].
Qed.
Lemma getJournalEvent_bound j seq e : getJournalEvent j seq = Some e → (1 ≤ seq ≤ Z.of_nat (length j))%Z.
Proof. unfold getJournalEvent. case_match; [|done]. intros ?%lookup_lt_Some. lia. Qed.

Lemma read_ref fuel j seq t m r :
  getJournalEvent j seq = Some (RowState (PayloadV2 t m None None (Some r))) →
  valid_ref (Some r) seq = true → Z.to_nat seq < fuel →
  read_checkpoint fuel j seq (am_id m) = readAgentCheckpoint j r (am_id m).
Proof.
  intros Hg Hv Hf. destruct fuel as [|fuel]; [lia|]. simpl. rewrite Hg Hv bool_decide_true //=.
  apply read_checkpoint_fuel. apply valid_ref_lt in Hv as (? & [= <-] & ?). lia.
Qed.
Lemma history_readable j pj : history j pj → ∀ seq p,
  getJournalEvent j seq = Some (RowState p) → isAgentCheckpoint (payload_transition p) = true →
  is_ok (readAgentCheckpoint j seq (am_id (payload_meta p))) = true.
Proof.
  induction 1 as [|j pj row Hh IH Hadm]; intros seq p Hg Hcp.
  { apply getJournalEvent_bound in Hg. simpl in Hg. lia. }
  pose proof Hg as Hbd%getJournalEvent_bound. rewrite length_app /= in Hbd.
  pose proof Hg as [Hold|[-> <-]]%getJournalEvent_snoc.
  { rewrite readAgentCheckpoint_app; [by apply IH|]. apply getJournalEvent_bound in Hold. lia. }
  destruct (history_well_formed _ _ Hh) as [Hwf Hcur]. invert_row Hadm.
  - unfold readAgentCheckpoint. simpl. by rewrite Hg /= bool_decide_true.
  - simpl in Hcp. destruct checkpoint' as [c|].
    + unfold readAgentCheckpoint. simpl. by rewrite Hg /= bool_decide_true.
    + destruct (decide (t' = tr_restored)) as [->|Ht].
      * rewrite bool_decide_true // in Href. destruct Href as [Hv Hok].
        pose proof Hv as (r & -> & Hr)%valid_ref_lt. simpl in *.
        unfold readAgentCheckpoint. rewrite (read_ref _ _ _ _ _ r Hg); [|by rewrite -Hcur|lia].
        rewrite readAgentCheckpoint_app //. lia.
      * destruct t'; try done.
        by destruct (proj2 Hc eq_refl).
Qed.

(** * The tree of agents *)

(** The position of an element. *)
Fixpoint position (l : list string) (k : string) : nat :=
  match l with [] => 0 | h :: t => if decide (h = k) then 0 else S (position t k) end.
Lemma position_lt l1 l2 k p : NoDup (l1 ++ k :: l2) → p ∈ l1 →
  position (l1 ++ k :: l2) p < position (l1 ++ k :: l2) k.
Proof.
  induction l1 as [|h l1 IH]; intros Hnd Hp; [set_solver|]. inversion Hnd as [|? ? Hh Hnd']; subst. simpl.
  rewrite (decide_False (P := h = k)); [|set_solver].
  case_decide; [lia|]. apply elem_of_cons in Hp as [->|Hp]; [done|]. specialize (IH Hnd' Hp). lia.
Qed.

Section Tree.
Context (pj : Projection) (Hwf : well_formed pj).
Implicit Types (a b : AgentState).

Local Notation parent_of := (AgentsSpec.parent_of pj).
Local Notation below := (AgentsSpec.below pj).
Definition known (a : AgentState) : Prop := pj_agent pj (as_id a) = Some a.

Lemma parent_position c p : parent_of c p → position (pj_states pj).*1 p < position (pj_states pj).*1 c.
Proof using Hwf.
  intros (a & [q Hg]%pj_agent_get & Hp). pose proof (wf_family _ Hwf) as Hfam.
  assert ((c, Some p) ∈ lineage (pj_states pj)) as Hin.
  { apply elem_of_lineage; [apply Hfam|]. by exists q, a. }
  apply list_elem_of_split in Hin as (l1 & l2 & Hl).
  pose proof (fam_parents _ Hfam _ _ _ _ Hl) as Hpar. apply (f_equal (fmap fst)) in Hl.
  change (fst <$> lineage (pj_states pj)) with ((lineage (pj_states pj)).*1) in Hl.
  rewrite lineage_keys fmap_app /= in Hl. rewrite Hl. apply position_lt; [|done].
  rewrite -Hl. apply Hfam.
Qed.
Lemma below_position x y : below x y → x = y ∨ position (pj_states pj).*1 y < position (pj_states pj).*1 x.
Proof using Hwf.
  induction 1 as [x|x y z Hxy _ [->|IH]]; [by left|right; by apply parent_position|right].
  apply parent_position in Hxy. lia.
Qed.
Lemma below_antisym x y : below x y → below y x → x = y.
Proof using Hwf. intros [->|H]%below_position [Hq|H']%below_position; [done..|lia]. Qed.
(** Two ancestors are one above the other. *)
Lemma below_linear x y z : below x y → below x z → below y z ∨ below z y.
Proof using Type.
  intros Hxy. revert z. induction Hxy as [x|x x' y Hx Hxy IH]; intros z Hz; [by left|].
  inversion Hz as [|? x2 ? Hx2 Hz2]; subst.
  - right. eapply rtc_l; [exact Hx|done].
  - assert (x2 = x') as -> by (destruct Hx as (? & ? & ?), Hx2 as (? & ? & ?); simplify_eq; congruence).
    by apply IH.
Qed.
Lemma below_inv_r x y : below x y → x = y ∨ ∃ c, below x c ∧ parent_of c y.
Proof using Type. intros [->|(c & ? & ?)]%rtc_inv_r; [by left|right; by exists c]. Qed.
Lemma child_parent c p : c ∈ children pj p ↔ known c ∧ as_parentId c = Some p.
Proof using Hwf. by apply elem_of_children. Qed.
Lemma child_below c p : c ∈ children pj p → parent_of (as_id c) p.
Proof using Hwf. intros [Hc Hp]%child_parent. by exists c. Qed.
Lemma children_NoDup p : NoDup (map as_id (children pj p)).
Proof using Hwf.
  unfold children. rewrite (wf_children _ Hwf p).
  assert (Hnd : NoDup (map fst (List.filter (λ e, bool_decide (e.2 = Some p)) (lineage (pj_states pj))))).
  { assert (NoDup (lineage (pj_states pj)).*1) as H by (rewrite lineage_keys; apply (wf_family _ Hwf)).
    induction (lineage (pj_states pj)) as [|[k pp] l IH]; simpl; [constructor|].
    inversion H as [|? ? Hk Hl]; subst. case_bool_decide; simpl; [|by apply IH]. constructor; [|by apply IH].
    rewrite list_elem_of_In in_map_iff. intros ([k' pp'] & Hk' & [Hin%list_elem_of_In _]%filter_In).
    apply Hk. simpl in Hk'. subst. apply list_elem_of_fmap. by exists (k, pp'). }
  induction Hnd as [|k l Hk Hnd IH]; simpl; [constructor|].
  destruct (pj_agent pj k) as [a|] eqn:Ha; [|done]. simpl. constructor; [|done].
  rewrite (agent_id _ (wf_family _ Hwf) _ _ Ha). rewrite list_elem_of_In in_map_iff.
  intros (b & Hb & (k' & Hk' & Hb')%list_elem_of_In%list_elem_of_omap).
  apply (agent_id _ (wf_family _ Hwf)) in Hb'. congruence.
Qed.

(** ** Breadth first *)

Definition antichain (queue : list AgentState) : Prop :=
  NoDup (map as_id queue) ∧ Forall known queue ∧
  ∀ a b, a ∈ queue → b ∈ queue → below (as_id a) (as_id b) → as_id a = as_id b.

Lemma known_eq a b : known a → known b → as_id a = as_id b → a = b.
Proof using Type. unfold known. intros Ha Hb Hid. rewrite Hid in Ha. congruence. Qed.
Lemma elem_of_ids x (l : list AgentState) : x ∈ map as_id l ↔ ∃ a, a ∈ l ∧ as_id a = x.
Proof using Type. rewrite list_elem_of_In in_map_iff. setoid_rewrite list_elem_of_In. naive_solver. Qed.

Lemma antichain_pop a queue : antichain (a :: queue) → antichain (queue ++ children pj (as_id a)).
Proof using Hwf.
  intros (Hnd & Hk & Hanti). simpl in Hnd. inversion Hnd as [|? ? Ha Hnd']; subst.
  inversion Hk as [|? ? Hka Hkq]; subst.
  assert (Hup : ∀ c, c ∈ children pj (as_id a) → below (as_id c) (as_id a)).
  { intros c Hc. by apply rtc_once, child_below. }
  (* a child of [a] is neither above nor below what is in the queue *)
  assert (Hapart : ∀ b c, b ∈ queue → c ∈ children pj (as_id a) →
    ¬ below (as_id b) (as_id c) ∧ ¬ below (as_id c) (as_id b)).
  { intros b c Hb Hc. split; intros Hbc.
    - apply Ha, elem_of_ids. exists b. split; [done|]. apply Hanti; [set_solver..|].
      etransitivity; [exact Hbc|by apply Hup].
    - destruct (rtc_inv _ _ Hbc) as [Hq|(z & Hz & Hzb)].
      + assert (as_id b = as_id a) as Hba.
        { apply Hanti; [set_solver..|]. rewrite -Hq. by apply Hup. }
        apply Ha, elem_of_ids. by exists b.
      + apply child_below in Hc. assert (z = as_id a) as ->.
        { destruct Hz as (? & ? & ?), Hc as (? & ? & ?). simplify_eq. congruence. }
        apply Ha, elem_of_ids. exists b. split; [done|]. symmetry. apply Hanti; [set_solver..|done]. }
  split_and!.
  - rewrite map_app. apply NoDup_app. split_and!; [done| |apply children_NoDup].
    intros x (b & Hb & <-)%elem_of_ids (c & Hc & Hcb)%elem_of_ids.
    destruct (Hapart b c Hb Hc) as [Hno _]. apply Hno. rewrite Hcb. apply rtc_refl.
  - apply Forall_app. split; [done|]. apply Forall_forall. by intros c [? _]%child_parent.
  - intros b c Hb Hc Hbc. apply elem_of_app in Hb as [Hb|Hb], Hc as [Hc|Hc].
    + apply Hanti; set_solver.
    + by destruct (Hapart b c Hb Hc).
    + by destruct (Hapart c b Hc Hb).
    + apply child_below in Hb, Hc. destruct (rtc_inv _ _ Hbc) as [Hq|(z & Hz & Hzc)]; [done|].
      assert (z = as_id a) as ->.
      { destruct Hz as (? & ? & ?), Hb as (? & ? & ?). simplify_eq. congruence. }
      exfalso. apply parent_position in Hc. apply below_position in Hzc as [Hz'|Hz']; [|lia]. rewrite -Hz' in Hc. lia.
Qed.

Lemma scope_from_spec fuel : ∀ queue, antichain queue →
  let members := scope_from fuel pj queue in
  (∀ a, a ∈ members → known a ∧ ∃ b, b ∈ queue ∧ below (as_id a) (as_id b))
  ∧ NoDup (map as_id members)
  ∧ (length members = fuel ∨ ∀ a b, known a → b ∈ queue → below (as_id a) (as_id b) → a ∈ members).
Proof using Hwf.
  induction fuel as [|fuel IH]; intros queue Hanti; simpl.
  { split_and!; [set_solver|constructor|by left]. }
  destruct queue as [|a queue]; [split_and!; [set_solver|constructor|right; set_solver]|].
  destruct (IH _ (antichain_pop _ _ Hanti)) as (Hin & Hnd & Hall).
  destruct Hanti as (Hq & Hk & Hanti). inversion Hk as [|? ? Hka Hkq]; subst.
  split_and!.
  - intros b [->|Hb]%elem_of_cons; [split; [done|]; exists a; split; [set_solver|apply rtc_refl]|].
    destruct (Hin b Hb) as (Hkb & c & Hc & Hbc). split; [done|].
    apply elem_of_app in Hc as [Hc|Hc]; [exists c; set_solver|]. exists a. split; [set_solver|].
    etransitivity; [exact Hbc|]. by apply rtc_once, child_below.
  - simpl. constructor; [|done]. intros (b & Hb & Hid)%elem_of_ids.
    destruct (Hin b Hb) as (_ & c & Hc & Hbc). rewrite Hid in Hbc. apply elem_of_app in Hc as [Hc|Hc].
    + simpl in Hq. inversion Hq as [|? ? Hno _]; subst. apply Hno, elem_of_ids. exists c. split; [done|].
      symmetry. apply Hanti; [set_solver..|done].
    + apply child_below, parent_position in Hc. apply below_position in Hbc as [Hq'|]; [rewrite -Hq' in Hc|]; lia.
  - destruct Hall as [Hlen|Hall]; [left; simpl; by rewrite Hlen|right].
    intros x b Hx [->|Hb]%elem_of_cons Hxb; [|apply elem_of_cons; right; apply (Hall x b); set_solver].
    apply below_inv_r in Hxb as [Hid|(c & Hxc & c' & Hc & Hp)]; [apply elem_of_cons; left; by apply known_eq|].
    apply elem_of_cons. right. pose proof (agent_id _ (wf_family _ Hwf) _ _ Hc) as Hid.
    apply (Hall x c'); [done| |by rewrite Hid]. apply elem_of_app. right.
    apply child_parent. split; [|done]. unfold known. by rewrite Hid.
Qed.

Lemma scope_spec id members : scope pj id = Ok members →
  NoDup (map as_id members) ∧ ∀ a, a ∈ members ↔ known a ∧ below (as_id a) id.
Proof using Hwf.
  unfold scope. destruct (pj_agent pj id) as [r|] eqn:Hr; [|done]. intros [= <-].
  pose proof (agent_id _ (wf_family _ Hwf) _ _ Hr) as Hid. subst id.
  assert (antichain [r]) as Hanti.
  { split_and!; [apply NoDup_singleton|by constructor|set_solver]. }
  destruct (scope_from_spec (length (pj_states pj)) _ Hanti) as (Hin & Hnd & Hall). split; [done|].
  intros a. split.
  - intros Ha. destruct (Hin a Ha) as (Hk & b & ->%list_elem_of_singleton & Hb). done.
  - intros [Hk Hb]. destruct Hall as [Hlen|Hall]; [|apply (Hall a r); set_solver].
    set (members := scope_from (length (pj_states pj)) pj [r]) in *.
    assert (map as_id members ≡ₚ (pj_states pj).*1) as Hperm.
    { apply submseteq_length_Permutation.
      - apply NoDup_submseteq; [done|]. intros x (b & Hbm & <-)%elem_of_ids. apply agent_key. destruct (Hin b Hbm) as [? _]. by exists b.
      - by rewrite length_map Hlen length_fmap. }
    assert (as_id a ∈ map as_id members) as Hm by (rewrite Hperm; apply agent_key; by exists a).
    apply elem_of_ids in Hm as (b & Hb' & Hab). destruct (Hin b Hb') as [Hkb _].
    by rewrite (known_eq a b).
Qed.
End Tree.
