(* ===== verification/AgentRuntime.v ===== *)
(** * AgentRuntime: the scheduler of agents (src/src/agents/runtime.ts, execution.ts)

    A runtime is a machine: the calls of its host, the continuations of its promises
    and the answers it waits for are events, and nothing interleaves within one. A
    promise it owns has a ticket; a quantum is the promise of [advance], with the
    group of the commands of its step. What the rest of the domain says at a call -
    whether the journal can be written, which runs accept agents, which transactions
    are open - is the [World] of the event. Handlers are computations of [AM]; an
    error leaves what was done before it. *)

From S2P Require Import Prelude Types Events Agents.

Record World := mkWorld {
  w_fenced : bool;                            (* the journal refuses to be written *)
  w_run : string → bool;                      (* the run is of the domain and not over *)
  w_tx : AgentWorkspace → string → bool;      (* an open transaction of the run *)
  w_operation : string → bool;                (* the store has the operation *)
}.

Record AgentRuntimeOptions := mkOptions {
  o_maxConcurrentAgents : nat;
  o_runBudget : AgentRunBudget;
  o_validate : bool;          (* [validate] is given *)
  o_workspaceVersion : bool;  (* [workspaceVersion] is given *)
}.

Inductive Verdict := valid | stale | unknown.
#[export] Instance Verdict_eq_dec : EqDecision Verdict.
Proof. solve_decision. Defined.
Inductive StepStatus := step_ready | step_completed.
#[export] Instance StepStatus_eq_dec : EqDecision StepStatus.
Proof. solve_decision. Defined.

(** ** Promises *)

(** A command: behind its microtask, or under the supervisor. *)
Inductive CommandPhase := cmd_submitted | cmd_executing.
Record Command := mkCommand { cmd_id : nat; cmd_opId : string; cmd_phase : CommandPhase }.

Inductive QuantumPhase :=
| QNew                                                  (* [advance] has not begun *)
| QValidating (state : AgentState) (version : option string) (* [await this.options.validate(...)] *)
| QStepping (state : AgentState)                        (* [await this.options.step(...)] *)
| QFinishing (state : AgentState) (returned : option (StepStatus * jsval)) (* [await commands.finish()] *)
| QDone.                                                (* [advance] has returned, [finally] has not run *)
Record Quantum := mkQuantum {
  q_ticket : nat;
  q_agent : string;
  q_aborted : bool;
  q_phase : QuantumPhase;
  q_pending : list Command;
  q_failures : list string;
}.

Record AgentCheckpoint := mkCheckpoint { cp_seq : Z; cp_checkpoint : jsval; cp_stepsUsed : Z }.
(** What [prepare] answers: a checkpoint, a workspace, whether there is a [discard]. *)
Record Prepared := mkPrepared { pp_seq : Z; pp_workspace : option AgentWorkspace; pp_discard : bool }.

Inductive RecoveryPhase :=
| RNew                          (* [prepare] has not been called *)
| RPreparing                    (* [await prepare(checkpoints)] *)
| RDiscarding                   (* cancelled: [await discard?.()] *)
| RCleaning (failure : string)  (* in [catch]: [await prepared.discard()] *)
| RDone.
Record Recovery := mkRecovery {
  r_ticket : nat;
  r_previous : AgentState;
  r_checkpoints : list AgentCheckpoint;
  r_phase : RecoveryPhase;
}.

Record Barrier := mkBarrier { b_ticket : nat; b_pending : list nat; b_failed : bool }.

Inductive DrainPhase :=
| DLooping                        (* at the head of the loop *)
| DRacing (raced : list nat)      (* [await Promise.race(active)] *)
| DRaced (resolved : bool)        (* the first of them has settled *)
| DJoining (recoveries : list nat) (* [await Promise.allSettled(cancelled)] *)
| DSettling.                      (* in [finally], after an error *)
Record Drain := mkDrain { d_ticket : nat; d_phase : DrainPhase }.

Inductive ShutdownPhase := SNew (pending : list nat) | SWaiting (pending : list nat) | SDone.
Record Shutdown := mkShutdown { s_phase : ShutdownPhase; s_failed : bool }.

Record Selection := mkSelection { l_ticket : nat; l_remaining : list AgentCheckpoint }.

(** [runtime.active] is the local [active] of the drain: there is at most one.
    [rejected] are the tickets of the promises that have rejected; [stepped] are the
    calls of [step], for the theorems. *)
Record Runtime := mkRuntime {
  journal : list AgentRow;
  projection : Projection;
  pendingCommands : list (string * Z);
  dirtyScopes : list string;
  closed : bool;
  stopping : bool;
  quanta : list (string * nat);
  active : list Quantum;
  recoveries : list (string * Recovery);
  selections : list Selection;
  interruptions : list (string * Barrier);
  draining : option Drain;
  shutdownPromise : option Shutdown;
  next_ticket : nat;
  rejected : list nat;
  stepped : list AgentState;
}.

Notation AM := (ST error Runtime).

Section Updates.
Implicit Types s : Runtime.
Definition set_journal j s := mkRuntime j (projection s) (pendingCommands s) (dirtyScopes s) (closed s)
  (stopping s) (quanta s) (active s) (recoveries s) (selections s) (interruptions s) (draining s)
  (shutdownPromise s) (next_ticket s) (rejected s) (stepped s).
Definition set_projection p s := mkRuntime (journal s) p (pendingCommands s) (dirtyScopes s) (closed s)
  (stopping s) (quanta s) (active s) (recoveries s) (selections s) (interruptions s) (draining s)
  (shutdownPromise s) (next_ticket s) (rejected s) (stepped s).
Definition set_pendingCommands c s := mkRuntime (journal s) (projection s) c (dirtyScopes s) (closed s)
  (stopping s) (quanta s) (active s) (recoveries s) (selections s) (interruptions s) (draining s)
  (shutdownPromise s) (next_ticket s) (rejected s) (stepped s).
Definition set_dirtyScopes d s := mkRuntime (journal s) (projection s) (pendingCommands s) d (closed s)
  (stopping s) (quanta s) (active s) (recoveries s) (selections s) (interruptions s) (draining s)
  (shutdownPromise s) (next_ticket s) (rejected s) (stepped s).
Definition set_closed b s := mkRuntime (journal s) (projection s) (pendingCommands s) (dirtyScopes s) b
  (stopping s) (quanta s) (active s) (recoveries s) (selections s) (interruptions s) (draining s)
  (shutdownPromise s) (next_ticket s) (rejected s) (stepped s).
Definition set_stopping b s := mkRuntime (journal s) (projection s) (pendingCommands s) (dirtyScopes s)
  (closed s) b (quanta s) (active s) (recoveries s) (selections s) (interruptions s) (draining s)
  (shutdownPromise s) (next_ticket s) (rejected s) (stepped s).
Definition set_quanta q s := mkRuntime (journal s) (projection s) (pendingCommands s) (dirtyScopes s)
  (closed s) (stopping s) q (active s) (recoveries s) (selections s) (interruptions s) (draining s)
  (shutdownPromise s) (next_ticket s) (rejected s) (stepped s).
Definition set_active a s := mkRuntime (journal s) (projection s) (pendingCommands s) (dirtyScopes s)
  (closed s) (stopping s) (quanta s) a (recoveries s) (selections s) (interruptions s) (draining s)
  (shutdownPromise s) (next_ticket s) (rejected s) (stepped s).
Definition set_recoveries r s := mkRuntime (journal s) (projection s) (pendingCommands s) (dirtyScopes s)
  (closed s) (stopping s) (quanta s) (active s) r (selections s) (interruptions s) (draining s)
  (shutdownPromise s) (next_ticket s) (rejected s) (stepped s).
Definition set_selections l s := mkRuntime (journal s) (projection s) (pendingCommands s) (dirtyScopes s)
  (closed s) (stopping s) (quanta s) (active s) (recoveries s) l (interruptions s) (draining s)
  (shutdownPromise s) (next_ticket s) (rejected s) (stepped s).
Definition set_interruptions i s := mkRuntime (journal s) (projection s) (pendingCommands s) (dirtyScopes s)
  (closed s) (stopping s) (quanta s) (active s) (recoveries s) (selections s) i (draining s)
  (shutdownPromise s) (next_ticket s) (rejected s) (stepped s).
Definition set_draining d s := mkRuntime (journal s) (projection s) (pendingCommands s) (dirtyScopes s)
  (closed s) (stopping s) (quanta s) (active s) (recoveries s) (selections s) (interruptions s) d
  (shutdownPromise s) (next_ticket s) (rejected s) (stepped s).
Definition set_shutdown d s := mkRuntime (journal s) (projection s) (pendingCommands s) (dirtyScopes s)
  (closed s) (stopping s) (quanta s) (active s) (recoveries s) (selections s) (interruptions s)
  (draining s) d (next_ticket s) (rejected s) (stepped s).
Definition set_next_ticket n s := mkRuntime (journal s) (projection s) (pendingCommands s) (dirtyScopes s)
  (closed s) (stopping s) (quanta s) (active s) (recoveries s) (selections s) (interruptions s)
  (draining s) (shutdownPromise s) n (rejected s) (stepped s).
Definition add_rejected t s := mkRuntime (journal s) (projection s) (pendingCommands s) (dirtyScopes s)
  (closed s) (stopping s) (quanta s) (active s) (recoveries s) (selections s) (interruptions s)
  (draining s) (shutdownPromise s) (next_ticket s) (rejected s ++ [t]) (stepped s).
Definition add_stepped a s := mkRuntime (journal s) (projection s) (pendingCommands s) (dirtyScopes s)
  (closed s) (stopping s) (quanta s) (active s) (recoveries s) (selections s) (interruptions s)
  (draining s) (shutdownPromise s) (next_ticket s) (rejected s) (stepped s ++ [a]).
End Updates.

Definition fresh_ticket : AM nat :=
  t ← gets next_ticket; modify (set_next_ticket (S t)) ;; mret t.

(** The tickets of the promises that are not settled. *)
Definition unsettled (s : Runtime) : list nat :=
  map q_ticket (active s) ++ map (λ r, r_ticket r.2) (recoveries s) ++ map l_ticket (selections s)
    ++ map (λ b, b_ticket b.2) (interruptions s)
    ++ match draining s with Some d => [d_ticket d] | None => [] end.
Definition all_settled (s : Runtime) (ts : list nat) : bool :=
  forallb (λ t, negb (bool_decide (t ∈ unsettled s))) ts.

Definition quantum (s : Runtime) (t : nat) : option Quantum :=
  List.find (λ q, bool_decide (q_ticket q = t)) (active s).
Definition update_quantum (t : nat) (f : Quantum → Quantum) (s : Runtime) : Runtime :=
  set_active (map (λ q, if bool_decide (q_ticket q = t) then f q else q) (active s)) s.
Definition with_phase (p : QuantumPhase) (q : Quantum) : Quantum :=
  mkQuantum (q_ticket q) (q_agent q) (q_aborted q) p (q_pending q) (q_failures q).
Definition aborted (q : Quantum) : Quantum :=
  mkQuantum (q_ticket q) (q_agent q) true (q_phase q) (q_pending q) (q_failures q).
Definition with_commands (l : list Command) (q : Quantum) : Quantum :=
  mkQuantum (q_ticket q) (q_agent q) (q_aborted q) (q_phase q) l (q_failures q).
Definition failing (e : string) (q : Quantum) : Quantum :=
  mkQuantum (q_ticket q) (q_agent q) (q_aborted q) (q_phase q) (q_pending q) (q_failures q ++ [e]).
Definition with_recovery_phase (p : RecoveryPhase) (r : Recovery) : Recovery :=
  mkRecovery (r_ticket r) (r_previous r) (r_checkpoints r) p.

Definition INTERRUPT_REQUESTED : string := "interrupt_requested".
Definition cancelling (a : AgentState) : bool :=
  bool_decide (am_reason (as_meta a) = Some INTERRUPT_REQUESTED).
Definition status_in (a : AgentState) (l : list AgentStatus) : bool := bool_decide (as_status a ∈ l).

Section Runtime.
Context (options : AgentRuntimeOptions) (w : World).

(** ** Reading the journal *)

Definition sync_step : AM unit :=
  s ← get_state;
  match journal s !! pj_cursor (projection s) with
  | Some row =>
      dirty ← focus projection set_projection (sync_row (o_runBudget options) (journal s) row);
      match dirty with
      | Some root => modify (λ s, set_dirtyScopes (js_add (dirtyScopes s) root) s)
      | None => mret tt
      end
  | None => mret tt
  end.
(** [for (const event of getJournalEvents(domainId, this.cursor))] *)
Definition sync : AM unit :=
  s ← get_state;
  for_each (drop (pj_cursor (projection s)) (journal s)) (λ _, sync_step).

Definition assertOpen : AM unit :=
  c ← gets closed; throw_if c (Err "AgentRuntime is closed").
Definition assertAccepting : AM unit :=
  assertOpen ;;
  c ← gets stopping; throw_if c (Err "AgentRuntime is shutting down").

Definition get (id : string) : AM (option AgentState) :=
  assertOpen ;;
  sync ;;
  gets (λ s, pj_agent (projection s) id).
Definition require (id : string) : AM AgentState :=
  a ← get id;
  match a with Some a => mret a | None => throw (Err "Agent not found") end.

(** ** Writing it *)

(** [JSON.parse(JSON.stringify(value, check))] keeps what is JSON. *)
Fixpoint is_data (v : jsval) : bool :=
  match v with
  | JUndef | JOpaque => false
  | JNull | JBool _ | JStr _ | JDate _ => true
  | JNum (NumFin _) => true
  | JNum _ => false
  | JArr l => forallb is_data l
  | JObj fs => forallb (λ kv, is_data kv.2) fs
  end.
Definition data (v : jsval) : outcome error jsval :=
  if is_data v then Ok v
  else Throw (Err "Agent input/checkpoint must be JSON data without non-finite numbers").

(** [recordJournalEvent]: the envelope redacts what it stores. *)
Definition journal_row (row : AgentRow) : AM unit :=
  throw_if (w_fenced w) (Err "the journal is fenced") ;;
  modify (λ s, set_journal (journal s ++ [row]) s).

Definition redacted_opt (v : option jsval) : outcome error (option jsval) :=
  match v with Some v => v' ← jsonValue v; Ok (Some v') | None => Ok None end.
Definition append (a : AgentState) (t : Transition) (checkpointRef : option Z) : AM unit :=
  input ← lift (redacted_opt (if bool_decide (t = tr_created) then Some (as_input a) else None));
  checkpoint ← lift (redacted_opt (if bool_decide (t = tr_created) || bool_decide (t = tr_step_completed)
                                   then Some (as_checkpoint a) else None));
  journal_row (RowState (PayloadV2 t (as_meta a) input checkpoint
    (if bool_decide (t = tr_restored) then checkpointRef else None))).
Definition record_ref (a : AgentState) (t : Transition) (checkpointRef : option Z) : AM AgentState :=
  assertOpen ;;
  append a t checkpointRef ;;
  sync ;;
  mret a.
Definition record (a : AgentState) (t : Transition) : AM AgentState := record_ref a t None.

(** [this.runs.get(runId)!] *)
Definition run_usage (run : string) : AM AgentRunUsage :=
  usage ← gets (λ s, jm_get (pj_runs (projection s)) run);
  match usage with Some u => mret u | None => throw (TypeErr "cannot read properties of undefined") end.
Definition ensureRunBudget (run : string) : AM AgentRunUsage :=
  sync ;;
  budgeted ← gets (λ s, pj_budgeted (projection s));
  when (negb (js_has budgeted run))
    (journal_row (RowBudget 1 (Some run) (o_runBudget options)) ;; sync) ;;
  run_usage run.

(** ** Checks *)

Definition assertRun (run : string) : AM unit :=
  throw_if (negb (w_run w run)) (Err "Run cannot accept agent execution").
Definition bound_elsewhere (s : Runtime) (ws : AgentWorkspace) (agentId : string) : bool :=
  existsb (λ e : string * (Z * AgentState), let a := e.2.2 in
    negb (bool_decide (as_id a = agentId)) &&
    match am_workspace (as_meta a) with
    | Some ws' => bool_decide (aw_txId ws' = aw_txId ws)
    | None => false
    end && negb (status_in a [ag_completed; ag_failed])) (pj_states (projection s)).
Definition assertWorkspace (ws : AgentWorkspace) (run agentId : string) : AM unit :=
  throw_if (negb (w_tx w ws run)) (Err "Agent workspace must be an open transaction of its Run") ;;
  bound ← gets (λ s, bound_elsewhere s ws agentId);
  throw_if bound (Err "Workspace transaction is already bound to another active agent").

(** The walk of [assertScopeOpen] up the parents of [state]. *)
Fixpoint scope_open_from (fuel : nat) (restoring : bool) (id : string) (current : AgentState) : AM unit :=
  match fuel with
  | O => throw (Err "unreachable")
  | S fuel' =>
      interrupted ← gets (λ s, jm_has (interruptions s) (as_id current));
      throw_if (interrupted ||
        (negb (restoring && bool_decide (as_id current = id)) &&
         (status_in current [ag_completed; ag_failed; ag_interrupted] || cancelling current)))
        (Err "Agent scope is closed") ;;
      match as_parentId current with
      | None => mret tt
      | Some p => parent ← require p; scope_open_from fuel' restoring id parent
      end
  end.
Definition ancestry_fuel (s : Runtime) : nat := S (length (pj_states (projection s)) + length (journal s)).
Definition assertScopeOpen (state : AgentState) (restoring : bool) : AM unit :=
  fuel ← gets ancestry_fuel;
  scope_open_from fuel restoring (as_id state) state ;;
  when restoring (
    s ← get_state;
    members ← lift (scope (projection s) (as_id state));
    throw_if (existsb (λ a, jm_has (quanta s) (as_id a) || jm_has (recoveries s) (as_id a)) members)
      (Err "Agent scope has unsettled work")).

(** ** Cancelling a scope *)

(** What needs no fence, what still runs, and the entry of one member in the
    transaction that fences the scope. *)
Definition settled_member (a : AgentState) : bool :=
  status_in a [ag_completed; ag_failed; ag_interrupted] || cancelling a.
Definition live_member (s : Runtime) (a : AgentState) : bool :=
  (status_in a [ag_checking; ag_running] && jm_has (quanta s) (as_id a))
  || (bool_decide (as_status a = ag_recovering) && jm_has (recoveries s) (as_id a)).
Definition cancelled_member (s : Runtime) (a : AgentState) : AgentState :=
  move (if live_member s a then as_status a else ag_interrupted) false (Some INTERRUPT_REQUESTED) a.
Definition cancel_member (a : AgentState) : AM unit :=
  if settled_member a then mret tt
  else
    s ← get_state;
    append (cancelled_member s a) (if live_member s a then tr_interrupt_requested else tr_interrupted) None.
Definition abort_member (pending : list nat) (a : AgentState) : AM (list nat) :=
  s ← get_state;
  let quantum := jm_get (quanta s) (as_id a) in
  match quantum with
  | Some t => modify (update_quantum t aborted)
  | None => mret tt
  end ;;
  mret (pending ++ match quantum with Some t => [t] | None => [] end
        ++ match jm_get (recoveries s) (as_id a) with Some r => [r_ticket r] | None => [] end).
(** Within [transaction]: an append that throws leaves no row of it. *)
Definition in_transaction {A} (m : AM A) : AM A := λ s,
  match m s with
  | (Ok a, s') => (Ok a, s')
  | (Throw e, s') => (Throw e, set_journal (journal s) s')
  end.
Definition cancelScope (id : string) : AM (list nat) :=
  sync ;;
  s ← get_state;
  members ← lift (scope (projection s) id);
  in_transaction (for_each members cancel_member) ;;
  sync ;;
  fold_each abort_member members [].

Definition settle_waiting (a : AgentState) : AM unit :=
  pj ← gets projection;
  when (bool_decide (as_status a = ag_waiting) &&
        forallb (λ c, bool_decide (as_status c = ag_completed)) (children pj (as_id a)))
    (record (move ag_completed (am_pauseRequested (as_meta a)) None a) tr_scope_completed ;; mret tt).
Definition reconcile_scope (id : string) : AM unit :=
  s ← get_state;
  members ← lift (scope (projection s) id);
  if existsb (λ a, status_in a [ag_interrupted; ag_failed] || cancelling a) members
  then cancelScope id ;; mret tt
  else for_each (rev members) settle_waiting.
(** [while (this.dirtyScopes.size > 0)]: an error puts the scope back. *)
Fixpoint reconcile_from (fuel : nat) : AM unit :=
  match fuel with
  | O => throw (Err "unreachable")
  | S fuel' =>
      dirty ← gets dirtyScopes;
      match dirty with
      | [] => mret tt
      | id :: _ =>
          modify (λ s, set_dirtyScopes (js_delete (dirtyScopes s) id) s) ;;
          try_catch (reconcile_scope id)
            (λ e, modify (λ s, set_dirtyScopes (js_add (dirtyScopes s) id) s) ;; throw e) ;;
          reconcile_from fuel'
      end
  end.
(** A scope becomes dirty again only by rows that its members can have once. *)
Definition reconcile_fuel (s : Runtime) : nat :=
  S (length (dirtyScopes s) + length (journal s) * 4).
Definition reconcileScopes : AM unit :=
  sync ;;
  fuel ← gets reconcile_fuel;
  reconcile_from fuel.

(** ** The calls of the host *)

Record CreateInput := mkCreate {
  ci_id : string;
  ci_runId : string;
  ci_parentId : option string;
  ci_input : jsval;
  ci_checkpoint : jsval;
  ci_workspace : option AgentWorkspace;
  ci_maxSteps : Z;
}.

Definition check_parent (input : CreateInput) : AM unit :=
  match ci_parentId input with
  | None => mret tt
  | Some p =>
      parent ← require p;
      throw_if (negb (bool_decide (as_runId parent = ci_runId input)))
        (Err "Parent agent belongs to another Run") ;;
      assertScopeOpen parent false ;;
      throw_if (bool_decide (as_status parent = ag_waiting))
        (Err "Parent agent is already joining its children")
  end.
Definition create (input : CreateInput) : AM AgentState :=
  assertAccepting ;;
  throw_if (negb (truthy_str (ci_id input))) (Err "Agent id is empty or already exists") ;;
  existing ← get (ci_id input);
  throw_if (bool_decide (is_Some existing)) (Err "Agent id is empty or already exists") ;;
  throw_if (negb (positive_safe (ci_maxSteps input))) (Err "maxSteps must be a positive safe integer") ;;
  assertRun (ci_runId input) ;;
  match ci_workspace input with
  | Some ws => assertWorkspace ws (ci_runId input) (ci_id input)
  | None => mret tt
  end ;;
  check_parent input ;;
  usage ← ensureRunBudget (ci_runId input);
  throw_if (rb_maxAgents (us_budget usage) <=? us_agentsCreated usage)%Z
    (Err "Run agent budget exhausted") ;;
  agent_input ← lift (data (ci_input input));
  checkpoint ← lift (data (ci_checkpoint input));
  record (mkAgent (mkAgentMeta (ci_id input) (ci_runId input) (ci_parentId input) (ci_workspace input)
      ag_ready (ci_maxSteps input) 0 false None None None) agent_input checkpoint) tr_created.

Definition pause (id : string) : AM AgentState :=
  assertAccepting ;;
  state ← require id;
  s ← get_state;
  let quantum_aborted := match jm_get (quanta s) id with
    | Some t => match quantum s t with Some q => q_aborted q | None => false end
    | None => false
    end in
  throw_if (cancelling state || quantum_aborted) (Err "Cannot pause agent with pending interruption") ;;
  throw_if (negb (status_in state [ag_ready; ag_running; ag_checking; ag_recovering; ag_paused]))
    (Err "Cannot pause agent") ;;
  let busy := status_in state [ag_running; ag_checking; ag_recovering] in
  record (move (if busy then as_status state else ag_paused) busy (Some "requested") state)
    tr_pause_requested.

(** [while (root.parentId) root = this.require(root.parentId)] *)
Fixpoint interrupt_root (fuel : nat) (a : AgentState) : AM AgentState :=
  match fuel with
  | O => throw (Err "unreachable")
  | S fuel' =>
      match as_parentId a with
      | None => mret a
      | Some p => b ← require p; interrupt_root fuel' b
      end
  end.
(** The barrier: registered before any listener runs, then given what it waits for.
    What throws while it is set up fails it later. *)
Definition interruptScope (id : string) : AM nat :=
  state ← require id;
  throw_if (status_in state [ag_completed; ag_failed]) (Err "Cannot interrupt agent") ;;
  fuel ← gets ancestry_fuel;
  root ← interrupt_root fuel state;
  s ← get_state;
  match jm_get (interruptions s) (as_id root) with
  | Some b => mret (b_ticket b)
  | None =>
      t ← fresh_ticket;
      modify (λ s, set_interruptions
        (jm_set (interruptions s) (as_id root) (mkBarrier t [] false)) s) ;;
      b ← try_catch (pending ← cancelScope (as_id root); mret (mkBarrier t pending false))
            (λ _, mret (mkBarrier t [] true));
      modify (λ s, set_interruptions (jm_set (interruptions s) (as_id root) b) s) ;;
      mret t
  end.

Definition resume (id : string) : AM AgentState :=
  assertAccepting ;;
  state ← require id;
  throw_if (negb (bool_decide (as_status state = ag_paused))) (Err "Cannot resume agent") ;;
  throw_if (am_maxSteps (as_meta state) <=? as_stepsUsed state)%Z (Err "Agent step budget exhausted") ;;
  assertScopeOpen state false ;;
  usage ← ensureRunBudget (as_runId state);
  throw_if (rb_maxSteps (us_budget usage) <=? us_stepsUsed usage)%Z (Err "Run step budget exhausted") ;;
  assertRun (as_runId state) ;;
  record (with_error None (move ag_ready false None state)) tr_resumed.

(** The rows of [id], each over the state the rows before it gave. *)
Fixpoint checkpoints_from (j : list AgentRow) (id : string) (seq : Z) (rows : list AgentRow)
    (state : option AgentState) : outcome error (list AgentCheckpoint) :=
  match rows with
  | [] => Ok []
  | RowState p :: rows' =>
      if bool_decide (am_id (payload_meta p) = id) then
        a ← projectAgentEvent j seq p state;
        rest ← checkpoints_from j id (seq + 1)%Z rows' (Some a);
        Ok (if isAgentCheckpoint (payload_transition p)
            then mkCheckpoint seq (as_checkpoint a) (as_stepsUsed a) :: rest else rest)
      else checkpoints_from j id (seq + 1)%Z rows' state
  | _ :: rows' => checkpoints_from j id (seq + 1)%Z rows' state
  end.
Definition checkpoints (id : string) : AM (list AgentCheckpoint) :=
  require id ;;
  j ← gets journal;
  lift (checkpoints_from j id 1 j None).

Definition findValidCheckpoint (id : string) : AM nat :=
  assertAccepting ;;
  throw_if (negb (o_validate options)) (Err "Checkpoint selection requires an evidence validator") ;;
  state ← require id;
  throw_if (negb (status_in state [ag_paused; ag_interrupted]))
    (Err "Checkpoint selection requires a stopped agent") ;;
  saved ← checkpoints id;
  t ← fresh_ticket;
  modify (λ s, set_selections (selections s ++ [mkSelection t (rev saved)]) s) ;;
  mret t.

Definition commitRestore (state : AgentState) (seq : Z) (workspace : option AgentWorkspace) : AM AgentState :=
  saved ← checkpoints (as_id state);
  match List.find (λ c, (cp_seq c =? seq)%Z) saved with
  | None => throw (Err "No checkpoint for agent")
  | Some c =>
      assertRun (as_runId state) ;;
      match workspace with
      | Some ws => assertWorkspace ws (as_runId state) (as_id state)
      | None => mret tt
      end ;;
      record_ref (with_error None (move ag_paused false (Some "restored")
        (with_workspace (match workspace with Some ws => Some ws | None => am_workspace (as_meta state) end)
          (with_checkpoint (cp_checkpoint c) state)))) tr_restored (Some seq)
  end.

Definition restoreCheckpoint (id : string) (seq : Z) (workspace : option AgentWorkspace) : AM AgentState :=
  assertAccepting ;;
  state ← require id;
  assertScopeOpen state true ;;
  throw_if (negb (status_in state [ag_paused; ag_interrupted]))
    (Err "Restore requires a paused or interrupted agent") ;;
  commitRestore state seq workspace.

Definition recoverCheckpoint (id : string) : AM nat :=
  assertAccepting ;;
  previous ← require id;
  throw_if (negb (status_in previous [ag_paused; ag_interrupted])) (Err "Cannot recover agent") ;;
  assertScopeOpen previous true ;;
  assertRun (as_runId previous) ;;
  saved ← checkpoints id;
  record (move ag_recovering false (Some "reconstruction") previous) tr_recovery_started ;;
  t ← fresh_ticket;
  modify (λ s, set_recoveries (jm_set (recoveries s) id (mkRecovery t previous saved RNew)) s) ;;
  mret t.

Definition drain : AM nat :=
  assertAccepting ;;
  d ← gets draining;
  match d with
  | Some d => mret (d_ticket d)
  | None =>
      t ← fresh_ticket;
      modify (set_draining (Some (mkDrain t DLooping))) ;;
      mret t
  end.

Definition is_nil {A} (l : list A) : bool := match l with [] => true | _ => false end.
Definition close : AM unit :=
  s ← get_state;
  if closed s then mret tt
  else
    throw_if (stopping s) (Err "Await shutdown() before closing AgentRuntime") ;;
    throw_if (match draining s with Some _ => true | None => false end)
      (Err "Await drain() before closing AgentRuntime") ;;
    throw_if (negb (is_nil (recoveries s))) (Err "Await active recovery before closing AgentRuntime") ;;
    throw_if (negb (is_nil (selections s))) (Err "Await checkpoint selection before closing AgentRuntime") ;;
    throw_if (negb (is_nil (interruptions s))) (Err "Await scope interruption before closing AgentRuntime") ;;
    modify (set_closed true).

Definition shutdown : AM unit :=
  s ← get_state;
  match shutdownPromise s with
  | Some _ => mret tt
  | None =>
      if closed s then mret tt
      else
        modify (set_stopping true) ;;
        modify (set_shutdown (Some (mkShutdown (SNew (map snd (quanta s)
          ++ map (λ r, r_ticket r.2) (recoveries s) ++ map l_ticket (selections s)
          ++ map (λ b, b_ticket b.2) (interruptions s)
          ++ match draining s with Some d => [d_ticket d] | None => [] end)) false)))
  end.

(** ** The drain *)

Definition launch (id : string) : AM unit :=
  t ← fresh_ticket;
  modify (λ s, set_active (active s ++ [mkQuantum t id false QNew [] []])
    (set_quanta (jm_set (quanta s) id t) s)).
Definition older (a b : string * (Z * AgentState)) : Prop := (a.2.1 ≤ b.2.1)%Z.
#[export] Instance older_dec a b : Decision (older a b).
Proof. unfold older. apply _. Defined.
Definition ready_agents (s : Runtime) : list (string * (Z * AgentState)) :=
  merge_sort older
    (List.filter (λ e : string * (Z * AgentState), bool_decide (as_status e.2.2 = ag_ready))
      (pj_states (projection s))).
Definition set_drain_phase (p : DrainPhase) : AM unit :=
  modify (λ s, set_draining (option_map (λ d, mkDrain (d_ticket d) p) (draining s)) s).

(** One round of [for (;;)]. *)
Definition drain_round : AM unit :=
  sync ;;
  reconcileScopes ;;
  s ← get_state;
  let ready := if stopping s then [] else ready_agents s in
  for_each (take (o_maxConcurrentAgents options - length (active s)) ready)
    (λ e, launch (as_id e.2.2)) ;;
  s ← get_state;
  if is_nil (active s) then
    cancelled ← fold_each (λ ts e, a ← require e.1;
                  mret (if cancelling a then ts ++ [r_ticket e.2] else ts)) (recoveries s) [];
    if is_nil cancelled then modify (set_draining None)
    else set_drain_phase (DJoining cancelled)
  else set_drain_phase (DRacing (map q_ticket (active s))).
(** Whether what the next round waits for has settled; then whether it rejected. *)
Definition drain_awake (s : Runtime) (p : DrainPhase) : bool :=
  match p with
  | DLooping => true
  | DRacing _ => false
  | DRaced _ => true
  | DJoining ts => all_settled s ts
  | DSettling => false
  end.
Definition drain_failed (s : Runtime) (p : DrainPhase) : bool :=
  match p with
  | DRaced resolved => negb resolved
  | DJoining ts => existsb (λ t, bool_decide (t ∈ rejected s)) ts
  | _ => false
  end.
Definition drain_step : AM unit :=
  s ← get_state;
  match draining s with
  | Some d =>
      if drain_awake s (d_phase d) then
        if drain_failed s (d_phase d)
        then set_drain_phase DSettling
        else try_catch drain_round (λ _, set_drain_phase DSettling)
      else mret tt
  | None => mret tt
  end.
(** [finally { await Promise.allSettled(active) }], then the drain rejects. *)
Definition drain_reject : AM unit :=
  s ← get_state;
  match draining s with
  | Some d =>
      match d_phase d with
      | DSettling => when (is_nil (active s)) (modify (λ s, add_rejected (d_ticket d) (set_draining None s)))
      | _ => mret tt
      end
  | None => mret tt
  end.

(** ** A quantum *)

Definition quantum_failed (t : nat) : AM unit :=
  modify (update_quantum t (with_phase QDone)) ;; modify (add_rejected t).
Definition quantum_done (t : nat) : AM unit := modify (update_quantum t (with_phase QDone)).

(** The usage [advance] holds is the one [sync] keeps up to date. *)
Definition step_charge (state : AgentState) (t : nat) (version : option string) : AM unit :=
  usage ← run_usage (as_runId state);
  if (rb_maxSteps (us_budget usage) <=? us_stepsUsed usage)%Z then
    record (move ag_paused (am_pauseRequested (as_meta state)) (Some "run_budget_exhausted") state)
      tr_budget_exhausted ;; quantum_done t
  else
    state ← record (move_to ag_running (charged version state)) tr_step_started;
    modify (add_stepped state) ;;
    modify (update_quantum t (with_phase (QStepping state))).

Definition verdict_name (v : Verdict) : string :=
  match v with valid => "valid" | stale => "stale" | unknown => "unknown" end.
(** What follows the evidence: the verdict, or what the [catch] records. *)
Definition dispatch (id : string) (t : nat) (version : option string) (verdict : outcome error Verdict)
  : AM unit :=
  q ← gets (λ s, quantum s t);
  let is_aborted := match q with Some q => q_aborted q | None => false end in
  match verdict with
  | Throw _ =>
      state ← require id;
      record (with_error (Some "validation failed")
          (move (if is_aborted then ag_interrupted else ag_failed) false
            (Some (if is_aborted then INTERRUPT_REQUESTED else "validation_failed")) state))
        (if is_aborted then tr_interrupted else tr_failed) ;;
      reconcileScopes ;;
      quantum_done t
  | Ok verdict =>
      state ← require id;
      stopping ← gets stopping;
      if negb (bool_decide (verdict = valid)) || am_pauseRequested (as_meta state) || stopping then
        record (move ag_paused false
            (Some (if negb (bool_decide (verdict = valid)) then "evidence_" +:+ verdict_name verdict
                   else if stopping then "shutdown" else "requested")) state)
          (if stopping then tr_shutdown_requested else tr_paused) ;;
        quantum_done t
      else step_charge state t version
  end.

(** [readWorkspaceVersion]: [answer] is what the host's function says. *)
Definition readWorkspaceVersion (answer : outcome error string) : outcome error (option string) :=
  if o_workspaceVersion options then
    v ← answer;
    if truthy_str v then Ok (Some v) else Throw (Err "workspaceVersion must return a nonempty string")
  else Ok None.

(** The checks after [validate] answered [answer]. [before] is the version read
    before it, [after] what the host's function says now. *)
Definition evidence (id : string) (state : AgentState) (t : nat) (before : option string)
    (answer : outcome error Verdict) (after : outcome error string) : AM Verdict :=
  q ← gets (λ s, quantum s t);
  let is_aborted := match q with Some q => q_aborted q | None => false end in
  verdict ← lift answer;
  throw_if is_aborted (Err "Agent interruption requested") ;;
  assertRun (as_runId state) ;;
  match am_workspace (as_meta state) with
  | Some ws => assertWorkspace ws (as_runId state) id
  | None => mret tt
  end ;;
  now ← lift (readWorkspaceVersion after);
  let verdict := if bool_decide (before = now) then verdict else stale in
  current ← require id;
  assertScopeOpen current false ;;
  mret verdict.
(** [try { ... } catch] around the evidence: the error is the value. *)
Definition attempt {A} (m : AM A) : AM (outcome error A) := λ s,
  let '(o, s') := m s in (Ok o, s').

Definition advance_ready (state : AgentState) (t : nat) (before after : outcome error string) : AM unit :=
  let id := as_id state in
  opened ← attempt (assertRun (as_runId state) ;; assertScopeOpen state false);
  match opened with
  | Throw _ =>
      record (with_error (Some "run unavailable")
          (move ag_failed (am_pauseRequested (as_meta state)) (Some "run_unavailable") state)) tr_failed ;;
      reconcileScopes ;;
      quantum_done t
  | Ok _ =>
      record (move_to ag_checking state) tr_checking ;;
      match readWorkspaceVersion before with
      | Throw e => dispatch id t None (Throw e)
      | Ok version =>
          if o_validate options
          then require id ;; modify (update_quantum t (with_phase (QValidating state version)))
          else
            verdict ← attempt (evidence id state t version (Ok valid) after);
            dispatch id t version verdict
      end
  end.
(** The microtask that begins [advance]. *)
Definition advance (t : nat) (before after : outcome error string) : AM unit :=
  s ← get_state;
  match quantum s t with
  | Some q =>
      match q_phase q with
      | QNew =>
          if stopping s then quantum_done t
          else
            try_catch (
              state ← require (q_agent q);
              if negb (bool_decide (as_status state = ag_ready)) then quantum_done t
              else
                usage ← ensureRunBudget (as_runId state);
                let own := (am_maxSteps (as_meta state) <=? as_stepsUsed state)%Z in
                if own || (rb_maxSteps (us_budget usage) <=? us_stepsUsed usage)%Z then
                  record (move ag_paused (am_pauseRequested (as_meta state))
                      (Some (if own then "budget_exhausted" else "run_budget_exhausted")) state)
                    tr_budget_exhausted ;;
                  quantum_done t
                else advance_ready state t before after)
              (λ _, quantum_failed t)
      | _ => mret tt
      end
  | None => mret tt
  end.
(** [validate] has answered. *)
Definition validated (t : nat) (answer : outcome error Verdict) (after : outcome error string) : AM unit :=
  s ← get_state;
  match quantum s t with
  | Some q =>
      match q_phase q with
      | QValidating state version =>
          try_catch (
            verdict ← attempt (evidence (q_agent q) state t version answer after);
            dispatch (q_agent q) t version verdict)
            (λ _, quantum_failed t)
      | _ => mret tt
      end
  | None => mret tt
  end.

(** ** Commands *)

Definition count (run : string) (delta : Z) (s : Runtime) : Runtime :=
  set_pendingCommands (jm_set (pendingCommands s) run
    (default 0 (jm_get (pendingCommands s) run) + delta)%Z) s.
Definition reserveCommand (agent : AgentState) : AM unit :=
  assertAccepting ;;
  current ← require (as_id agent);
  assertScopeOpen current false ;;
  usage ← ensureRunBudget (as_runId agent);
  s ← get_state;
  throw_if (rb_maxPendingCommands (us_budget usage) <=?
            default 0 (jm_get (pendingCommands s) (as_runId agent)))%Z
    (Err "Run pending command limit exceeded") ;;
  modify (count (as_runId agent) 1).

(** [execution.executeProcess(options)]: the group is open while the step runs. *)
Definition submit_command (t : nat) (opId : string) : AM unit :=
  s ← get_state;
  match quantum s t with
  | Some q =>
      match q_phase q with
      | QStepping state =>
          throw_if (negb (is_nil (q_failures q))) (Err "an earlier command failed") ;;
          reserved ← attempt (throw_if (q_aborted q) (Err "Agent interruption requested") ;;
                              reserveCommand state);
          match reserved with
          | Throw _ =>
              modify (update_quantum t (failing "not admitted")) ;;
              throw (Err "command not admitted")
          | Ok _ =>
              c ← fresh_ticket;
              modify (update_quantum t (λ q, with_commands
                (q_pending q ++ [mkCommand c opId cmd_submitted]) q))
          end
      | _ => throw (Err "Agent command context is closed")
      end
  | None => throw (Err "Agent command context is closed")
  end.

Definition owned_state (q : Quantum) : option AgentState :=
  match q_phase q with QStepping a | QFinishing a _ => Some a | _ => None end.
Definition executeOwnedProcess (agent : AgentState) (opId : string) : AM unit :=
  assertAccepting ;;
  throw_if (negb (truthy_str opId)) (Err "Agent command opId must be a nonempty string") ;;
  sync ;;
  s ← get_state;
  match pj_agent (projection s) (as_id agent) with
  | Some current =>
      throw_if (negb (bool_decide (as_status current = ag_running)) ||
                negb (as_stepsUsed current =? as_stepsUsed agent)%Z)
        (Err "Agent command does not belong to the active quantum") ;;
      assertScopeOpen current false ;;
      let owner := jm_get (pj_operationOwners (projection s)) opId in
      throw_if (match owner with
                | Some o => truthy_str o && negb (bool_decide (o = as_id agent))
                | None => false
                end) (Err "Operation belongs to another agent") ;;
      throw_if (negb (match owner with Some o => truthy_str o | None => false end) && w_operation w opId)
        (Err "Existing operation has no agent ownership") ;;
      journal_row (RowOperation (Some opId) (Some (as_id agent))) ;;
      sync
  | None => throw (Err "Agent command does not belong to the active quantum")
  end.

(** A command has settled: its reservation is released. *)
Definition settle_command (t c : nat) (run : string) (failure : option string) : AM unit :=
  modify (count run (-1)) ;;
  modify (update_quantum t (λ q,
    let q := with_commands (List.filter (λ k, negb (cmd_id k =? c)%nat) (q_pending q)) q in
    match failure with Some e => failing e q | None => q end)).
Definition set_executing (c : nat) (l : list Command) : list Command :=
  map (λ k, if (cmd_id k =? c)%nat then mkCommand c (cmd_opId k) cmd_executing else k) l.
Definition find_command (q : Quantum) (c : nat) : option Command :=
  List.find (λ k, (cmd_id k =? c)%nat) (q_pending q).
(** The microtask that submits it, then the answer of the supervisor: [Throw] is a
    rejection, or a result whose outcome is indeterminate. *)
Definition start_command (t c : nat) : AM unit :=
  s ← get_state;
  match q ← quantum s t; k ← find_command q c; a ← owned_state q; Some (q, k, a) with
  | Some (q, k, a) =>
      match cmd_phase k with
      | cmd_submitted =>
          started ← attempt (throw_if (q_aborted q) (Err "Agent interruption requested") ;;
                             executeOwnedProcess a (cmd_opId k));
          match started with
          | Ok _ => modify (update_quantum t (λ q, with_commands (set_executing c (q_pending q)) q))
          | Throw _ => settle_command t c (as_runId a) (Some "rejected")
          end
      | cmd_executing => mret tt
      end
  | None => mret tt
  end.
Definition command_answered (t c : nat) (answer : outcome string unit) : AM unit :=
  s ← get_state;
  match q ← quantum s t; k ← find_command q c; a ← owned_state q; Some (k, a) with
  | Some (k, a) =>
      match cmd_phase k with
      | cmd_executing =>
          settle_command t c (as_runId a) (match answer with Ok _ => None | Throw e => Some e end)
      | cmd_submitted => mret tt
      end
  | None => mret tt
  end.

(** ** The end of a step *)

(** [step] has answered: the group closes. *)
Definition step_answered (t : nat) (answer : outcome string (option StepStatus * jsval)) : AM unit :=
  s ← get_state;
  match quantum s t with
  | Some q =>
      match q_phase q with
      | QStepping state =>
          modify (update_quantum t (λ q,
            match answer with
            | Ok (Some status, checkpoint) => with_phase (QFinishing state (Some (status, checkpoint))) q
            | Ok (None, _) => failing "Invalid agent step status" (with_phase (QFinishing state None) q)
            | Throw e => failing e (with_phase (QFinishing state None) q)
            end))
      | _ => mret tt
      end
  | None => mret tt
  end.

Definition after_step (state : AgentState) (status : StepStatus) (checkpoint : jsval) : AM AgentState :=
  pj ← gets projection;
  let m := as_meta state in
  let paused := negb (bool_decide (status = step_completed)) &&
    (am_pauseRequested m || (am_maxSteps m <=? am_stepsUsed m)%Z) in
  record (move
      (if paused then ag_paused
       else match status with
            | step_completed => if is_nil (children pj (am_id m)) then ag_completed else ag_waiting
            | step_ready => ag_ready
            end) false
      (if paused then Some (if am_pauseRequested m then "requested" else "budget_exhausted") else None)
      (with_checkpoint checkpoint state)) tr_step_completed.
(** All its commands have settled. *)
Definition finish_step (t : nat) : AM unit :=
  s ← get_state;
  match quantum s t with
  | Some q =>
      match q_phase q with
      | QFinishing _ returned =>
          if negb (is_nil (q_pending q)) then mret tt
          else
            try_catch (
              match (if negb (is_nil (q_failures q)) || q_aborted q then None
                     else match returned with
                          | Some (status, c) => match data c with Ok c => Some (status, c) | Throw _ => None end
                          | None => None
                          end) with
              | None =>
                  state ← require (q_agent q);
                  record (with_error (Some "step failed")
                      (move ag_interrupted false
                        (Some (if q_aborted q then INTERRUPT_REQUESTED else "step_failed")) state))
                    tr_interrupted ;;
                  reconcileScopes ;;
                  quantum_done t
              | Some (status, checkpoint) =>
                  state ← require (q_agent q);
                  after_step state status checkpoint ;;
                  quantum_done t
              end)
              (λ _, quantum_failed t)
      | _ => mret tt
      end
  | None => mret tt
  end.
(** The race of the drain goes to the first quantum of it that settles. *)
Definition settle_race (t : nat) (s : Runtime) : Runtime :=
  match draining s with
  | Some d =>
      match d_phase d with
      | DRacing raced =>
          if bool_decide (t ∈ raced)
          then set_draining (Some (mkDrain (d_ticket d) (DRaced (negb (bool_decide (t ∈ rejected s)))))) s
          else s
      | _ => s
      end
  | None => s
  end.
(** [finally { active.delete(pending); this.quanta.delete(state.id); }]: by the
    agent, whatever quantum is registered for it. *)
Definition quantum_finally (t : nat) : AM unit :=
  s ← get_state;
  match quantum s t with
  | Some q =>
      match q_phase q with
      | QDone =>
          modify (λ s, set_active (List.filter (λ q, negb (q_ticket q =? t)%nat) (active s)) s) ;;
          modify (λ s, set_quanta (jm_delete (quanta s) (q_agent q)) s) ;;
          modify (settle_race t)
      | _ => mret tt
      end
  | None => mret tt
  end.

(** ** A recovery *)

Definition set_recovery_phase (id : string) (p : RecoveryPhase) : AM unit :=
  modify (λ s, match jm_get (recoveries s) id with
               | Some r => set_recoveries (jm_set (recoveries s) id (with_recovery_phase p r)) s
               | None => s
               end).
Definition recovery_failed (id : string) (r : Recovery) : AM unit :=
  set_recovery_phase id RDone ;; modify (add_rejected (r_ticket r)).
(** The end of [catch]: the agent goes back to where it was. *)
Definition recovery_catch (id : string) (r : Recovery) (failure : string) : AM unit :=
  try_catch (
    state ← require id;
    record (if cancelling state
            then with_error (Some failure) (move ag_interrupted false (Some INTERRUPT_REQUESTED) (r_previous r))
            else r_previous r) tr_recovery_failed ;; mret tt)
    (λ _, mret tt) ;;
  recovery_failed id r.

Definition prepare_called (id : string) : AM unit :=
  s ← get_state;
  match jm_get (recoveries s) id with
  | Some r => match r_phase r with RNew => set_recovery_phase id RPreparing | _ => mret tt end
  | None => mret tt
  end.
Definition recovery_cancelled (id : string) (r : Recovery) : AM unit :=
  record (move ag_interrupted false (Some INTERRUPT_REQUESTED) (r_previous r)) tr_recovery_interrupted ;;
  set_recovery_phase id RDone.
(** Binding what was prepared, unless the agent has been cancelled meanwhile. *)
Definition bind_prepared (id : string) (r : Recovery) (p : option Prepared) : AM unit :=
  state ← require id;
  if cancelling state then set_recovery_phase id RDiscarding
  else
    match p with
    | None => record (r_previous r) tr_recovery_abandoned ;; set_recovery_phase id RDone
    | Some p => commitRestore state (pp_seq p) (pp_workspace p) ;; set_recovery_phase id RDone
    end.
Definition prepared (id : string) (answer : outcome string (option Prepared)) : AM unit :=
  s ← get_state;
  match jm_get (recoveries s) id with
  | Some r =>
      match r_phase r with
      | RPreparing =>
          match answer with
          | Throw e => recovery_catch id r e
          | Ok p =>
              bound ← attempt (bind_prepared id r p);
              match bound with
              | Ok _ => mret tt
              | Throw _ =>
                  if match p with Some p => pp_discard p | None => false end
                  then set_recovery_phase id (RCleaning "binding failed")
                  else recovery_catch id r "binding failed"
              end
          end
      | _ => mret tt
      end
  | None => mret tt
  end.
(** [discard] has answered. *)
Definition discarded (id : string) (answer : outcome string unit) : AM unit :=
  s ← get_state;
  match jm_get (recoveries s) id with
  | Some r =>
      match r_phase r, answer with
      | RDiscarding, Ok _ =>
          try_catch (recovery_cancelled id r) (λ _, recovery_catch id r "binding failed")
      | RDiscarding, Throw e => recovery_catch id r e
      | RCleaning e, _ => recovery_catch id r e
      | _, _ => mret tt
      end
  | None => mret tt
  end.
Definition recovery_finally (id : string) : AM unit :=
  s ← get_state;
  match jm_get (recoveries s) id with
  | Some r =>
      match r_phase r with
      | RDone => modify (λ s, set_recoveries (jm_delete (recoveries s) id) s)
      | _ => mret tt
      end
  | None => mret tt
  end.

(** ** Barriers, selections, the end *)

(** [allSettled(pending)], then [finally]. *)
Definition barrier_finally (root : string) : AM unit :=
  s ← get_state;
  match jm_get (interruptions s) root with
  | Some b =>
      when (all_settled s (b_pending b)) (
        let failed := b_failed b || existsb (λ t, bool_decide (t ∈ rejected s)) (b_pending b) in
        missing ← attempt (require root);
        when (failed || negb (is_ok missing)) (modify (add_rejected (b_ticket b))) ;;
        modify (λ s, set_interruptions (jm_delete (interruptions s) root) s))
  | None => mret tt
  end.

(** One candidate of [findValidCheckpoint]. *)
Definition selection_answered (t : nat) (answer : outcome string Verdict) : AM unit :=
  s ← get_state;
  match List.find (λ l, bool_decide (l_ticket l = t)) (selections s) with
  | Some l =>
      let rest := match l_remaining l with _ :: l' => l' | [] => [] end in
      let over := match answer with
        | Ok v => bool_decide (v = valid) || is_nil rest || stopping s
        | Throw _ => true
        end in
      when (negb (is_ok answer)) (modify (add_rejected t)) ;;
      modify (λ s, set_selections
        (if over then List.filter (λ l, negb (l_ticket l =? t)%nat) (selections s)
         else map (λ l, if bool_decide (l_ticket l = t) then mkSelection t rest else l) (selections s)) s)
  | None => mret tt
  end.

Definition settle_agent (id : string) : AM (list nat) :=
  state ← require id;
  if bool_decide (as_status state = ag_ready) then
    recorded ← attempt (record (move ag_paused false (Some "shutdown") state) tr_shutdown_requested);
    when (negb (is_ok recorded))
      (modify (λ s, set_shutdown (option_map (λ d, mkShutdown (s_phase d) true) (shutdownPromise s)) s)) ;;
    mret []
  else if status_in state [ag_checking; ag_running; ag_waiting] then
    t ← attempt (interruptScope id);
    match t with
    | Ok t => mret [t]
    | Throw _ =>
        modify (λ s, set_shutdown (option_map (λ d, mkShutdown (s_phase d) true) (shutdownPromise s)) s) ;;
        mret []
    end
  else mret [].
(** [settleShutdown]: up to its await. *)
Definition settle_shutdown : AM unit :=
  s ← get_state;
  match shutdownPromise s with
  | Some d =>
      match s_phase d with
      | SNew pending =>
          settled ← attempt (
            assertOpen ;; sync ;;
            s ← get_state;
            fold_each (λ ts id, ts' ← settle_agent id; mret (ts ++ ts')) (pj_states (projection s)).*1 pending);
          modify (λ s, set_shutdown (option_map (λ d, mkShutdown
            (SWaiting (match settled with Ok ts => ts | Throw _ => pending end))
            (s_failed d || negb (is_ok settled))) (shutdownPromise s)) s)
      | _ => mret tt
      end
  | None => mret tt
  end.
Definition shutdown_finish : AM unit :=
  s ← get_state;
  match shutdownPromise s with
  | Some d =>
      match s_phase d with
      | SWaiting pending =>
          when (all_settled s pending) (
            modify (set_closed true) ;;
            modify (set_shutdown (Some (mkShutdown SDone
              (s_failed d || existsb (λ t, bool_decide (t ∈ rejected s)) pending)))))
      | _ => mret tt
      end
  | None => mret tt
  end.

(** ** Opening a runtime on a journal *)

Definition fresh_runtime (j : list AgentRow) : Runtime :=
  mkRuntime j empty_projection [] [] false false [] [] [] [] [] None None 0 [] [].
Definition recover_agent (id : string) : AM unit :=
  s ← get_state;
  match pj_agent (projection s) id with
  | Some a =>
      if status_in a [ag_running; ag_recovering] || (bool_decide (as_status a = ag_checking) && cancelling a)
      then record (move ag_interrupted (am_pauseRequested (as_meta a)) (Some "host_restarted") a)
             tr_recovered ;; mret tt
      else if status_in a [ag_checking; ag_ready]
      then record (move ag_paused (am_pauseRequested (as_meta a)) (Some "host_restarted") a)
             tr_recovered ;; mret tt
      else mret tt
  | None => mret tt
  end.
Definition open_runtime : AM unit :=
  throw_if (o_maxConcurrentAgents options =? 0)%nat
    (Err "maxConcurrentAgents must be a positive safe integer") ;;
  lift (validateRunBudget (o_runBudget options)) ;;
  throw_if (o_workspaceVersion options && negb (o_validate options))
    (Err "workspaceVersion requires an evidence validator") ;;
  sync ;;
  s ← get_state;
  for_each (pj_states (projection s)).*1 recover_agent ;;
  reconcileScopes.
End Runtime.

(** ** The machine *)

Inductive Event :=
| ECreate (input : CreateInput) | EPause (id : string) | EInterrupt (id : string) | EResume (id : string)
| EFindValid (id : string) | ERestore (id : string) (seq : Z) (workspace : option AgentWorkspace)
| ERecover (id : string) | EDrain | EClose | EShutdown
| EDrainStep | EDrainReject
| EAdvance (t : nat) (before after : outcome error string)
| EValidated (t : nat) (answer : outcome error Verdict) (after : outcome error string)
| ECommand (t : nat) (opId : string) | EStartCommand (t c : nat)
| ECommandAnswered (t c : nat) (answer : outcome string unit)
| EStepAnswered (t : nat) (answer : outcome string (option StepStatus * jsval)) | EFinishStep (t : nat)
| EQuantumFinally (t : nat)
| EPrepareCalled (id : string) | EPrepared (id : string) (answer : outcome string (option Prepared))
| EDiscarded (id : string) (answer : outcome string unit) | ERecoveryFinally (id : string)
| EBarrier (root : string) | ESelection (t : nat) (answer : outcome string Verdict)
| ESettleShutdown | EShutdownFinish
| EOther                                   (* another component writes to the journal *)
| ERestart (new_options : AgentRuntimeOptions).  (* the host dies; a new one opens the journal *)

Definition ignore {A} (m : AM A) : AM unit := λ s, (Ok tt, (m s).2).
Definition handle (options : AgentRuntimeOptions) (w : World) (e : Event) : AM unit :=
  match e with
  | ECreate input => ignore (create options w input)
  | EPause id => ignore (pause options w id)
  | EInterrupt id => ignore (interruptScope options w id)
  | EResume id => ignore (resume options w id)
  | EFindValid id => ignore (findValidCheckpoint options id)
  | ERestore id seq ws => ignore (restoreCheckpoint options w id seq ws)
  | ERecover id => ignore (recoverCheckpoint options w id)
  | EDrain => ignore drain
  | EClose => ignore close
  | EShutdown => ignore shutdown
  | EDrainStep => ignore (drain_step options w)
  | EDrainReject => ignore drain_reject
  | EAdvance t before after => ignore (advance options w t before after)
  | EValidated t answer after => ignore (validated options w t answer after)
  | ECommand t opId => ignore (submit_command options w t opId)
  | EStartCommand t c => ignore (start_command options w t c)
  | ECommandAnswered t c answer => ignore (command_answered t c answer)
  | EStepAnswered t answer => ignore (step_answered t answer)
  | EFinishStep t => ignore (finish_step options w t)
  | EQuantumFinally t => ignore (quantum_finally t)
  | EPrepareCalled id => ignore (prepare_called id)
  | EPrepared id answer => ignore (prepared options w id answer)
  | EDiscarded id answer => ignore (discarded options w id answer)
  | ERecoveryFinally id => ignore (recovery_finally id)
  | EBarrier root => ignore (barrier_finally options root)
  | ESelection t answer => ignore (selection_answered t answer)
  | ESettleShutdown => ignore (settle_shutdown options w)
  | EShutdownFinish => ignore shutdown_finish
  | EOther => modify (λ s, set_journal (journal s ++ [RowOther]) s)
  | ERestart _ => mret tt
  end.

(** A runtime with the options it was opened with. An opening that throws leaves
    none; the journal keeps the rows it wrote. *)
Record Host := mkHost { h_options : AgentRuntimeOptions; h_runtime : Runtime }.
Definition step (w : World) (e : Event) (h : Host) : Host :=
  match e with
  | ERestart options =>
      match open_runtime options w (fresh_runtime (journal (h_runtime h))) with
      | (Ok _, s) => mkHost options s
      | (Throw _, s) => mkHost (h_options h) (set_closed true (fresh_runtime (journal s)))
      end
  | _ => mkHost (h_options h) (handle (h_options h) w e (h_runtime h)).2
  end.
Definition steps (h : Host) (l : list (World * Event)) : Host := foldl (λ h we, step we.1 we.2 h) h l.
