(* ===== verification/AgentRuntimeInv.v ===== *)
(** * AgentRuntimeInv: what holds of a runtime between two events

    [Inv]: the journal is a history (AgentsSpec) the projection has read up to rows
    of other components, every quantum is registered for its agent, and the status of
    an agent agrees with the phase of its quantum or of its recovery. A handler may
    break the last part for its own quantum or recovery until it ends: the parameter
    of [Inv] is what is exempt. [ok] is the rule for one computation: it throws only
    into [Inv]. *)

From S2P Require Import Prelude Types Events Agents AgentsSpec AgentRuntime.

(** ** The invariant *)

Definition phase_ok (pj : Projection) (q : Quantum) : Prop :=
  match q_phase q with
  | QNew | QDone => True
  | QValidating state _ => ∃ a, pj_agent pj (q_agent q) = Some a ∧ as_status a = ag_checking
      ∧ (as_stepsUsed a < am_maxSteps (as_meta a))%Z ∧ same_agent (as_meta state) (as_meta a)
  | QStepping state | QFinishing state _ => ∃ a, pj_agent pj (q_agent q) = Some a
      ∧ as_status a = ag_running ∧ same_agent (as_meta state) (as_meta a)
  end.
Definition recovery_ok (pj : Projection) (id : string) (r : Recovery) : Prop :=
  match r_phase r with
  | RDone => True
  | _ => ∃ a, pj_agent pj id = Some a ∧ as_status a = ag_recovering
      ∧ same_agent (as_meta (r_previous r)) (as_meta a) ∧ as_stepsUsed (r_previous r) = as_stepsUsed a
      ∧ as_status (r_previous r) ∈ [ag_paused; ag_interrupted]
  end.

(** What a handler is in the middle of. *)
Inductive own := OQuantum (t : nat) | ORecovery (id : string).
Definition others (x : option own) (q : Quantum) : Prop := x ≠ Some (OQuantum (q_ticket q)).

Definition log_ok (s : Runtime) : Prop :=
  ∃ j rows, journal s = j ++ rows ∧ history j (projection s) ∧ Forall (eq RowOther) rows.
Definition synced (s : Runtime) : Prop := history (journal s) (projection s).

Record Inv (x : option own) (s : Runtime) : Prop := mkInv {
  inv_log : log_ok s;
  inv_tickets : NoDup (map q_ticket (active s));
  inv_fresh : ∀ q, q ∈ active s → q_ticket q < next_ticket s;
  inv_registered : ∀ q, q ∈ active s → jm_get (quanta s) (q_agent q) = Some (q_ticket q);
  inv_phases : ∀ q, q ∈ active s → others x q → phase_ok (projection s) q;
  inv_recoveries : ∀ id r, jm_get (recoveries s) id = Some r → x ≠ Some (ORecovery id) →
    recovery_ok (projection s) id r;
}.

Definition ok {A} (x : option own) (m : AM A) (s : Runtime) (Q : A → Runtime → Prop) : Prop :=
  match m s with (Ok a, s') => Q a s' | (Throw _, s') => Inv x s' end.

Section Rules.
Context (x : option own).
Implicit Types s : Runtime.

Lemma ok_bind {A B} (m : AM A) (f : A → AM B) s Q :
  ok x m s (λ a s', ok x (f a) s' Q) → ok x (m ≫= f) s Q.
Proof using Type. unfold ok, mbind, ST_bind. by destruct (m s) as [[a|e] s']. Qed.
Lemma ok_ret {A} (a : A) s (Q : A → Runtime → Prop) : Q a s → ok x (mret a) s Q.
Proof using Type. done. Qed.
Lemma ok_throw {A} e s (Q : A → Runtime → Prop) : Inv x s → ok x (throw e) s Q.
Proof using Type. done. Qed.
Lemma ok_get s (Q : Runtime → Runtime → Prop) : Q s s → ok x get_state s Q.
Proof using Type. done. Qed.
Lemma ok_gets {A} (f : Runtime → A) s (Q : A → Runtime → Prop) : Q (f s) s → ok x (gets f) s Q.
Proof using Type. done. Qed.
Lemma ok_modify f s (Q : unit → Runtime → Prop) : Q tt (f s) → ok x (modify f) s Q.
Proof using Type. done. Qed.
Lemma ok_throw_if b e s (Q : unit → Runtime → Prop) :
  Inv x s → (b = false → Q tt s) → ok x (throw_if b e) s Q.
Proof using Type. intros HI HQ. destruct b; [done|]. by apply HQ. Qed.
Lemma ok_lift {A} (o : outcome error A) s (Q : A → Runtime → Prop) :
  Inv x s → (∀ a, o = Ok a → Q a s) → ok x (lift o) s Q.
Proof using Type. intros HI HQ. unfold ok, lift. destruct o; [by apply HQ|done]. Qed.
Lemma ok_when b m s (Q : unit → Runtime → Prop) :
  (b = true → ok x m s Q) → (b = false → Q tt s) → ok x (when b m) s Q.
Proof using Type. intros H1 H2. destruct b; [by apply H1|by apply H2]. Qed.
Lemma ok_mono {A} (m : AM A) s (P Q : A → Runtime → Prop) :
  ok x m s P → (∀ a s', P a s' → Q a s') → ok x m s Q.
Proof using Type. unfold ok. destruct (m s) as [[a|e] s']; naive_solver. Qed.
Lemma ok_try_catch {A} (m : AM A) h s y (Q : A → Runtime → Prop) :
  ok y m s Q → (∀ e s', Inv y s' → ok x (h e) s' Q) → ok x (try_catch m h) s Q.
Proof using Type. unfold ok, try_catch. destruct (m s) as [[a|e] s']; naive_solver. Qed.
Lemma ok_attempt {A} (m : AM A) s y (Q : outcome error A → Runtime → Prop) :
  ok y m s (λ a s', Q (Ok a) s') → (∀ e s', Inv y s' → Q (Throw e) s') → ok x (attempt m) s Q.
Proof using Type. unfold ok, attempt. destruct (m s) as [[a|e] s']; naive_solver. Qed.
Lemma ok_for_each {A} (P : Runtime → Prop) (l : list A) f s (Q : unit → Runtime → Prop) :
  (∀ a s, a ∈ l → P s → ok x (f a) s (λ _ s', P s')) → P s → (∀ s', P s' → Q tt s') →
  ok x (for_each l f) s Q.
Proof using Type.
  intros Hf HP HQ. revert s HP Hf. induction l as [|a l IH]; intros s HP Hf; simpl; [by apply HQ|].
  apply ok_bind. eapply ok_mono; [apply Hf; [set_solver|done]|]. intros [] s' HP'. apply IH; [done|].
  intros b s0 Hb. apply Hf. set_solver.
Qed.
Lemma ok_fold_each {A B} (P : B → Runtime → Prop) (l : list A) f b s (Q : B → Runtime → Prop) :
  (∀ b a s, P b s → ok x (f b a) s P) → P b s → (∀ b s', P b s' → Q b s') →
  ok x (fold_each f l b) s Q.
Proof using Type.
  intros Hf HP HQ. revert s b HP. induction l as [|a l IH]; intros s b HP; simpl; [by apply HQ|].
  apply ok_bind. eapply ok_mono; [by apply Hf|]. intros b' s' HP'. by apply IH.
Qed.
(** A computation whose errors are ignored. *)
Lemma ok_ignore {A} (m : AM A) s : ok x m s (λ _ s', Inv x s') → Inv x (ignore m s).2.
Proof using Type. unfold ok, ignore. simpl. by destruct (m s) as [[a|e] s']. Qed.
End Rules.

(** ** What keeps the invariant *)

Lemma log_ok_synced s : log_ok s → synced s ∨ ∃ rows, rows ≠ [] ∧ drop (pj_cursor (projection s)) (journal s) = rows.
Proof.
  intros (j & rows & Hj & Hh & Hr). destruct (history_well_formed _ _ Hh) as [_ Hcur].
  destruct rows as [|r rows]; [left|right].
  - unfold synced. by rewrite Hj app_nil_r.
  - exists (r :: rows). by rewrite Hj Hcur drop_app_length.
Qed.

Lemma inv_weaken x s : Inv None s → Inv x s.
Proof. intros [H1 H2 H3 H4 H5 H6]. constructor; [done..| |]; intros; [by apply H5|by apply H6]. Qed.

(** Only the fields that [Inv] speaks of matter. *)
Lemma inv_frame x s s' :
  journal s' = journal s → projection s' = projection s → active s' = active s → quanta s' = quanta s →
  recoveries s' = recoveries s → next_ticket s ≤ next_ticket s' → Inv x s → Inv x s'.
Proof.
  intros Hj Hp Ha Hq Hr Hn [(j & rows & H) H2 H3 H4 H5 H6].
  constructor; rewrite ?Ha ?Hq ?Hr ?Hp; try done.
  - exists j, rows. by rewrite Hj Hp.
  - intros q Hin. specialize (H3 q Hin). lia.
Qed.

(** A projection in which the busy agents are as they were. *)
Lemma inv_rewrote x s j p d :
  Inv x s → history j p →
  (∀ q, q ∈ active s → others x q → phase_ok (projection s) q → phase_ok p q) →
  (∀ id r, jm_get (recoveries s) id = Some r → x ≠ Some (ORecovery id) →
     recovery_ok (projection s) id r → recovery_ok p id r) →
  Inv x (set_dirtyScopes d (set_projection p (set_journal j s))).
Proof.
  intros [H1 H2 H3 H4 H5 H6] Hh Hq Hr. constructor; simpl; [|done..| |]; [|by auto..].
  exists j, []. by rewrite app_nil_r.
Qed.

(** Changing one quantum. *)
Lemma elem_of_update_quantum t f s q :
  q ∈ active (update_quantum t f s) ↔ ∃ q0, q0 ∈ active s ∧ q = if bool_decide (q_ticket q0 = t) then f q0 else q0.
Proof.
  unfold update_quantum. simpl. rewrite list_elem_of_In in_map_iff. setoid_rewrite <- list_elem_of_In.
  naive_solver.
Qed.
Lemma inv_update_quantum x y t f s :
  (∀ q, q_ticket (f q) = q_ticket q ∧ q_agent (f q) = q_agent q) →
  (∀ q, q ∈ active s → q_ticket q ≠ t → others y q → others x q) →
  (∀ q, q ∈ active s → q_ticket q = t → others y q → phase_ok (projection s) (f q)) →
  (∀ id, y ≠ Some (ORecovery id) → x ≠ Some (ORecovery id)) →
  Inv x s → Inv y (update_quantum t f s).
Proof.
  intros Hf Hxy Hph Hrec [H1 H2 H3 H4 H5 H6].
  assert (Hid : ∀ q, q_ticket (if bool_decide (q_ticket q = t) then f q else q) = q_ticket q
    ∧ q_agent (if bool_decide (q_ticket q = t) then f q else q) = q_agent q).
  { intros q. case_bool_decide; [apply Hf|done]. }
  constructor.
  - done.
  - unfold update_quantum. simpl. rewrite map_map. erewrite map_ext; [exact H2|]. intros q. apply Hid.
  - intros q (q0 & Hin & ->)%elem_of_update_quantum. rewrite (proj1 (Hid q0)). by apply H3.
  - intros q (q0 & Hin & ->)%elem_of_update_quantum. rewrite (proj1 (Hid q0)) (proj2 (Hid q0)). by apply H4.
  - intros q (q0 & Hin & ->)%elem_of_update_quantum. unfold others. rewrite (proj1 (Hid q0)). intros Ho.
    case_bool_decide as Ht; [by apply Hph|]. apply H5; [done|]. by apply Hxy.
  - intros id r Hr Hx. apply H6; [done|]. by apply Hrec.
Qed.

(** Changing one recovery. *)
Lemma inv_set_recovery x y id r s :
  (∀ q, others y q → others x q) → (∀ id', id' ≠ id → y ≠ Some (ORecovery id') → x ≠ Some (ORecovery id')) →
  (y ≠ Some (ORecovery id) → recovery_ok (projection s) id r) →
  Inv x s → Inv y (set_recoveries (jm_set (recoveries s) id r) s).
Proof.
  intros Ho Hx Hr [H1 H2 H3 H4 H5 H6]. constructor; simpl; [done..|by auto|].
  intros id' r'. rewrite jm_get_set. case_decide as Hid; [intros [= <-]; subst; auto|]. intros. apply H6; auto.
Qed.
Lemma inv_delete_recovery x id s : Inv x s → Inv x (set_recoveries (jm_delete (recoveries s) id) s).
Proof.
  intros [H1 H2 H3 H4 H5 H6]. constructor; simpl; [done..|].
  intros id' r'. rewrite jm_get_delete. case_decide; [done|]. apply H6.
Qed.

(** ** Reading *)

Definition later (n : nat) (pj : Projection) : Projection :=
  mkProjection (pj_states pj) (pj_children pj) (pj_runs pj) (pj_budgeted pj) (pj_operationOwners pj) n.
Definition caught_up (s : Runtime) : Runtime := set_projection (later (length (journal s)) (projection s)) s.
Lemma caught_up_synced s : synced s → caught_up s = s.
Proof.
  intros [_ Hcur]%history_well_formed. unfold caught_up. rewrite -Hcur. by destruct s, projection.
Qed.
Lemma later_phase_ok n pj q : phase_ok pj q → phase_ok (later n pj) q.
Proof. done. Qed.

Section Sync.
Context (options : AgentRuntimeOptions).

(** A round of [sync] over an admissible row. *)
Lemma sync_step_row s j row rows :
  journal s = j ++ row :: rows → history j (projection s) → admissible j (projection s) row →
  ∃ d, sync_step options s
    = (Ok tt, set_dirtyScopes d (set_projection (apply_row j row (projection s)) s))
  ∧ (row_root j (projection s) row = None → d = dirtyScopes s) ∧ length d ≤ S (length (dirtyScopes s)).
Proof using Type.
  intros Hj Hh Hadm. destruct (history_well_formed _ _ Hh) as [Hwf Hcur].
  unfold sync_step. rewrite run_gets /=.
  rewrite {1}Hj lookup_app_r; [|lia]. rewrite Hcur Nat.sub_diag /=.
  unfold focus, mbind, ST_bind. rewrite Hj (sync_row_admissible _ _ _ _ _ Hwf Hcur Hadm).
  destruct (row_root j (projection s) row) as [r|]; simpl.
  - eexists. split_and!; [unfold modify; by destruct s|done|apply js_add_length].
  - exists (dirtyScopes s). split_and!; [by destruct s|done|lia].
Qed.
Lemma sync_chain tail rows : ∀ s j pj,
  journal s = j ++ rows ++ tail → history j (projection s) → chain j (projection s) rows pj →
  ∃ d, for_each rows (λ _, sync_step options) s = (Ok tt, set_dirtyScopes d (set_projection pj s))
  ∧ (Forall (eq RowOther) rows → d = dirtyScopes s) ∧ length d ≤ length (dirtyScopes s) + length rows.
Proof using Type.
  induction rows as [|row rows IH]; intros s j pj Hj Hh Hc; inversion Hc; subst; simpl.
  - exists (dirtyScopes s). split_and!; [by destruct s|done|simpl; lia].
  - destruct (sync_step_row s j row (rows ++ tail)) as (d & Hrun & Hd & Hlen); [done..|].
    rewrite /mbind /ST_bind Hrun.
    destruct (IH (set_dirtyScopes d (set_projection (apply_row j row (projection s)) s)) (j ++ [row]) pj)
      as (d' & Hrun' & Hd' & Hlen'); simpl.
    + by rewrite -assoc.
    + by constructor.
    + done.
    + exists d'. rewrite Hrun'. split_and!; [by destruct s| |simpl in *; lia]. intros Hq. inversion Hq; subst.
      rewrite Hd' //. by apply Hd.
Qed.
Lemma quiet_chain rows : ∀ j pj, Forall (eq RowOther) rows →
  chain j pj rows (later (pj_cursor pj + length rows) pj).
Proof using Type.
  induction rows as [|row rows IH]; intros j pj Hq.
  - rewrite Nat.add_0_r. destruct pj. constructor.
  - inversion Hq; subst. constructor; [constructor|].
    replace (pj_cursor pj + length (RowOther :: rows)) with (pj_cursor (pj_advance pj) + length rows)
      by (simpl; lia). by apply (IH (j ++ [RowOther]) (pj_advance pj)).
Qed.
Lemma sync_run s : log_ok s → sync options s = (Ok tt, caught_up s) ∧ synced (caught_up s).
Proof using Type.
  intros (j & rows & Hj & Hh & Hr). destruct (history_well_formed _ _ Hh) as [_ Hcur].
  pose proof (quiet_chain rows j (projection s) Hr) as Hc.
  destruct (sync_chain [] rows s j (later (pj_cursor (projection s) + length rows) (projection s)))
    as (d & Hrun & Hd & _); [by rewrite app_nil_r|done..|].
  assert (pj_cursor (projection s) + length rows = length (journal s)) as Hlen.
  { rewrite Hj length_app. lia. }
  rewrite Hlen in Hc Hrun. split.
  - unfold sync. rewrite run_gets {1}Hj Hcur drop_app_length Hrun (Hd Hr). unfold caught_up. by destruct s.
  - unfold synced, caught_up. simpl. rewrite {1}Hj. by eapply history_chain.
Qed.
End Sync.

(** A method that at most reads the journal. *)
Definition reads (s s' : Runtime) : Prop := log_ok s → s' = s ∨ s' = caught_up s.
Lemma caught_up_log s : log_ok s → synced (caught_up s).
Proof. by intros [_ H]%(sync_run (mkOptions 0 DEFAULT_AGENT_RUN_BUDGET false false)). Qed.
Lemma log_ok_caught_up s : log_ok s → log_ok (caught_up s).
Proof. intros H%caught_up_log. exists (journal s), []. by rewrite app_nil_r. Qed.
#[export] Instance reads_preorder : PreOrder reads.
Proof.
  split.
  - intros s _. by left.
  - intros s1 s2 s3 H12 H23 Hl. destruct (H12 Hl) as [->| ->]; [by apply H23|].
    destruct (H23 (log_ok_caught_up _ Hl)) as [->| ->]; right; [done|].
    rewrite caught_up_synced //. by apply caught_up_log.
Qed.

Lemma inv_caught_up x s : Inv x s → Inv x (caught_up s).
Proof.
  intros [H1 H2 H3 H4 H5 H6]. constructor; [by apply log_ok_caught_up|done..].
Qed.
Lemma inv_reads x s s' : Inv x s → s' = s ∨ s' = caught_up s → Inv x s'.
Proof. intros HI [->| ->]; [done|by apply inv_caught_up]. Qed.

Section Readers.
Context (options : AgentRuntimeOptions) (w : World).

Lemma reads_sync : respects reads (sync options).
Proof using Type. intros s Hl. rewrite (proj1 (sync_run options s Hl)). by right. Qed.
#[local] Hint Resolve reads_sync : xio.
Lemma reads_assertOpen : respects reads assertOpen.
Proof using Type. unfold assertOpen. respects_tac. Qed.
#[local] Hint Resolve reads_assertOpen : xio.
Lemma reads_assertAccepting : respects reads assertAccepting.
Proof using Type. unfold assertAccepting. respects_tac. Qed.
Lemma reads_get id : respects reads (get options id).
Proof using Type. unfold get. respects_tac. Qed.
#[local] Hint Resolve reads_get reads_assertAccepting : xio.
Lemma reads_require id : respects reads (require options id).
Proof using Type. unfold require. respects_tac. Qed.
#[local] Hint Resolve reads_require : xio.
Lemma reads_assertRun run : respects reads (assertRun w run).
Proof using Type. unfold assertRun. respects_tac. Qed.
Lemma reads_assertWorkspace ws run id : respects reads (assertWorkspace w ws run id).
Proof using Type. unfold assertWorkspace. respects_tac. Qed.
Lemma reads_scope_open fuel restoring id : ∀ a, respects reads (scope_open_from options fuel restoring id a).
Proof using Type. induction fuel as [|fuel IH]; intros a; simpl; respects_tac. Qed.
#[local] Hint Resolve reads_assertRun reads_assertWorkspace reads_scope_open : xio.
Lemma reads_assertScopeOpen a restoring : respects reads (assertScopeOpen options a restoring).
Proof using Type. unfold assertScopeOpen. respects_tac. Qed.
#[local] Hint Resolve reads_assertScopeOpen : xio.
Lemma reads_check_parent input : respects reads (check_parent options input).
Proof using Type. unfold check_parent. respects_tac. Qed.
Lemma reads_interrupt_root fuel : ∀ a, respects reads (interrupt_root options fuel a).
Proof using Type. induction fuel as [|fuel IH]; intros a; simpl; respects_tac. Qed.
Lemma reads_checkpoints id : respects reads (checkpoints options id).
Proof using Type. unfold checkpoints. respects_tac. Qed.
Lemma reads_attempt {A} (m : AM A) : respects reads m → respects reads (attempt m).
Proof using Type. intros Hm s. unfold attempt. specialize (Hm s). by destruct (m s). Qed.
Lemma reads_evidence id a t before answer after :
  respects reads (evidence options w id a t before answer after).
Proof using Type. unfold evidence. respects_tac. Qed.
End Readers.

#[export] Hint Resolve reads_sync reads_assertOpen reads_assertAccepting reads_get reads_require
  reads_assertRun reads_assertWorkspace reads_assertScopeOpen reads_check_parent reads_interrupt_root
  reads_checkpoints reads_attempt reads_evidence reads_scope_open : xio.

Section Reading.
Context (x : option own) {A : Type} (m : AM A) (s : Runtime).

Lemma ok_reader (Q : A → Runtime → Prop) : Inv x s → respects reads m →
  (∀ a s', s' = s ∨ s' = caught_up s → Inv x s' → m s = (Ok a, s') → Q a s') → ok x m s Q.
Proof using Type.
  intros HI Hm HQ. unfold ok. specialize (Hm s (inv_log _ _ HI)). destruct (m s) as [[a|e] s']; simpl in *.
  - apply HQ; [done|by eapply inv_reads|done].
  - by eapply inv_reads.
Qed.
(** When the journal has been read, nothing changes. *)
Lemma ok_reader_synced (Q : A → Runtime → Prop) : Inv x s → synced s → respects reads m →
  (∀ a, m s = (Ok a, s) → Q a s) → ok x m s Q.
Proof using Type.
  intros HI Hs Hm HQ. apply ok_reader; [done..|]. intros a s' Hs' _ Hrun.
  assert (s' = s) as -> by (rewrite (caught_up_synced _ Hs) in Hs'; naive_solver). by apply HQ.
Qed.
End Reading.

Lemma require_run options id s a s' : log_ok s → require options id s = (Ok a, s') →
  s' = caught_up s ∧ pj_agent (projection s') id = Some a.
Proof.
  intros Hl. unfold require, get, assertOpen. autorewrite with xio_run. destruct (closed s); [done|].
  rewrite (run_bind_Ok _ _ _ _ _ (proj1 (sync_run options s Hl))). autorewrite with xio_run.
  destruct (pj_agent _ id) eqn:E; [|done]. by intros [= <- <-].
Qed.
Lemma ok_require options x id s (Q : AgentState → Runtime → Prop) : Inv x s →
  (∀ a, let s' := caught_up s in Inv x s' → synced s' → pj_agent (projection s') id = Some a → Q a s') →
  ok x (require options id) s Q.
Proof.
  intros HI HQ. apply ok_reader; [done|auto with xio|]. intros a s' _ HI' Hrun.
  destruct (require_run _ _ _ _ _ (inv_log _ _ HI) Hrun) as [-> Ha].
  apply HQ; [done|apply (sync_run options), HI|done].
Qed.
Lemma ok_require_synced options x id s (Q : AgentState → Runtime → Prop) : Inv x s → synced s →
  (∀ a, pj_agent (projection s) id = Some a → Q a s) → ok x (require options id) s Q.
Proof.
  intros HI Hs HQ. apply ok_require; [done|]. cbv zeta. rewrite caught_up_synced //. auto.
Qed.

(** ** Writing *)

Definition idle (x : option own) (s : Runtime) (id : string) : Prop :=
  (∀ q, q ∈ active s → others x q → q_agent q = id → q_phase q = QNew ∨ q_phase q = QDone)
  ∧ (∀ r, jm_get (recoveries s) id = Some r → x ≠ Some (ORecovery id) → r_phase r = RDone).
Definition busy_status (st : AgentStatus) : bool :=
  match st with ag_checking | ag_running | ag_recovering => true | _ => false end.

Section Idle.
Context (x : option own) (s : Runtime) (HI : Inv x s).

Lemma phase_status q a : q ∈ active s → others x q → pj_agent (projection s) (q_agent q) = Some a →
  q_phase q = QNew ∨ q_phase q = QDone ∨ as_status a = ag_checking ∨ as_status a = ag_running.
Proof using HI.
  intros Hin Ho Ha. pose proof (inv_phases _ _ HI q Hin Ho) as Hph. unfold phase_ok in Hph.
  destruct (q_phase q); naive_solver.
Qed.
Lemma recovery_status id r a : jm_get (recoveries s) id = Some r → x ≠ Some (ORecovery id) →
  pj_agent (projection s) id = Some a → r_phase r = RDone ∨ as_status a = ag_recovering.
Proof using HI.
  intros Hr Hx Ha. pose proof (inv_recoveries _ _ HI id r Hr Hx) as Hph. unfold recovery_ok in Hph.
  destruct (r_phase r); naive_solver.
Qed.

Lemma idle_status id a : pj_agent (projection s) id = Some a → busy_status (as_status a) = false → idle x s id.
Proof using HI.
  intros Ha Hb. split.
  - intros q Hin Ho <-. destruct (phase_status q a Hin Ho Ha) as [|[|[H|H]]]; [tauto..| |];
      by rewrite H in Hb.
  - intros r Hr Hx. destruct (recovery_status id r a Hr Hx Ha) as [|H]; [done|]. by rewrite H in Hb.
Qed.
Lemma idle_unregistered id a : pj_agent (projection s) id = Some a →
  as_status a = ag_checking ∨ as_status a = ag_running → jm_get (quanta s) id = None → idle x s id.
Proof using HI.
  intros Ha Hst Hq. split.
  - intros q Hin _ <-. rewrite (inv_registered _ _ HI q Hin) in Hq. done.
  - intros r Hr Hx. destruct (recovery_status id r a Hr Hx Ha) as [|H]; [done|]. destruct Hst; congruence.
Qed.
Lemma idle_unrecovered id a : pj_agent (projection s) id = Some a →
  as_status a = ag_recovering → jm_get (recoveries s) id = None → idle x s id.
Proof using HI.
  intros Ha Hst Hr. split; [|congruence].
  intros q Hin Ho <-. destruct (phase_status q a Hin Ho Ha) as [|[|[H|H]]]; [tauto..|congruence|congruence].
Qed.
(** The agent of one's own quantum. *)
Lemma same_quantum q q' : q ∈ active s → q' ∈ active s → q_agent q = q_agent q' → q_ticket q = q_ticket q'.
Proof using HI.
  intros Hin Hin' Hag. pose proof (inv_registered _ _ HI q Hin). pose proof (inv_registered _ _ HI q' Hin').
  congruence.
Qed.
Lemma idle_own q a : q ∈ active s → x = Some (OQuantum (q_ticket q)) →
  pj_agent (projection s) (q_agent q) = Some a → as_status a ≠ ag_recovering → idle x s (q_agent q).
Proof using HI.
  intros Hin Hx Ha Hst. split.
  - intros q' Hin' Ho Hag. destruct Ho. rewrite Hx. do 2 f_equal. by apply same_quantum.
  - intros r Hr Hx'. destruct (recovery_status _ r a Hr Hx' Ha) as [|H]; [done|congruence].
Qed.
Lemma idle_own_recovery id a : x = Some (ORecovery id) →
  pj_agent (projection s) id = Some a → as_status a = ag_recovering → idle x s id.
Proof using HI.
  intros Hx Ha Hst. split; [|congruence].
  intros q Hin Ho <-. destruct (phase_status q a Hin Ho Ha) as [|[|[H|H]]]; [tauto..|congruence|congruence].
Qed.
Lemma idle_fresh id : pj_agent (projection s) id = None → idle x s id.
Proof using HI.
  intros Ha. split.
  - intros q Hin Ho <-. pose proof (inv_phases _ _ HI q Hin Ho) as Hph. unfold phase_ok in Hph.
    destruct (q_phase q); naive_solver.
  - intros r Hr Hx. pose proof (inv_recoveries _ _ HI id r Hr Hx) as Hph. unfold recovery_ok in Hph.
    destruct (r_phase r); naive_solver.
Qed.
End Idle.

(** A row written over a read journal. *)
Definition state_row (t : Transition) (a : AgentState) (row : AgentRow) : Prop :=
  ∃ i c r, row = RowState (PayloadV2 t (as_meta a) i c r).
Definition wrote (s : Runtime) (row : AgentRow) (d : list string) : Runtime :=
  set_dirtyScopes d (set_projection (apply_row (journal s) row (projection s))
    (set_journal (journal s ++ [row]) s)).

Section Writing.
Context (options : AgentRuntimeOptions) (w : World).

Lemma for_each_app {A} (f : A → AM unit) l1 l2 s :
  for_each (l1 ++ l2) f s = (for_each l1 f ;; for_each l2 f) s.
Proof using Type.
  revert s. induction l1 as [|a l1 IH]; intros s; simpl; [done|]. rewrite run_assoc.
  unfold mbind, ST_bind. destruct (f a s) as [[[]|e] s1]; [apply IH|done].
Qed.
(** A row appended, and read with what came before it. *)
Lemma sync_wrote s row : log_ok s → admissible (journal s) (projection (caught_up s)) row →
  ∃ d, sync options (set_journal (journal s ++ [row]) s) = (Ok tt, wrote (caught_up s) row d)
  ∧ (row_root (journal s) (projection (caught_up s)) row = None → d = dirtyScopes s)
  ∧ length d ≤ S (length (dirtyScopes s)).
Proof using Type.
  intros Hl Hadm. pose proof (caught_up_log _ Hl) as Hs. destruct Hl as (j & rows & Hj & Hh & Hr).
  destruct (history_well_formed _ _ Hh) as [_ Hcur]. set (s1 := set_journal (journal s ++ [row]) s).
  destruct (sync_chain options [row] rows s1 j (later (pj_cursor (projection s) + length rows) (projection s)))
    as (d0 & Hrun0 & Hd0 & _); [by rewrite /s1 /= Hj -assoc|done|by apply quiet_chain|].
  rewrite (Hd0 Hr) in Hrun0.
  assert (pj_cursor (projection s) + length rows = length (journal s)) as Hlen by (rewrite Hj length_app; lia).
  destruct (sync_step_row options (set_projection (projection (caught_up s)) s1) (journal s) row [])
    as (d & Hrun & Hd & Hdl); [done..|].
  exists d. split_and!; [|done|done]. unfold sync. rewrite run_gets /= Hj -assoc Hcur drop_app_length for_each_app.
  unfold mbind at 1, ST_bind at 1. rewrite Hrun0 Hlen. cbv beta iota.
  assert (set_dirtyScopes (dirtyScopes s1) (set_projection (later (length (journal s)) (projection s)) s1)
    = set_projection (projection (caught_up s)) s1) as -> by by destruct s.
  simpl for_each. unfold mbind, ST_bind. rewrite Hrun. done.
Qed.
Lemma synced_wrote s row d : synced s → admissible (journal s) (projection s) row → synced (wrote s row d).
Proof using Type. intros. by constructor. Qed.

(** Rows that are not of agents leave the busy ones as they were. *)
Lemma inv_wrote x s row d : Inv x s → synced s → admissible (journal s) (projection s) row →
  (∀ t m i c r a, row = RowState (PayloadV2 t m i c r) →
     as_meta a = m → pj_agent (apply_row (journal s) row (projection s)) (am_id m) = Some a →
     idle x s (am_id m) ∨ ∃ b, pj_agent (projection s) (am_id m) = Some b ∧ as_status a = as_status b
       ∧ as_stepsUsed a = as_stepsUsed b ∧ same_agent m (as_meta b)) →
  Inv x (wrote s row d).
Proof using Type.
  intros HI Hs Hadm Hst. apply inv_rewrote; [done|by constructor|..].
  - intros q Hin Ho Hph. destruct row as [[|t m i c r|]|? []|[] []|]; try solve [done|inversion Hadm].
    set (a := row_agent (journal s) (projection s) t m i c r) in *.
    assert (Hag : ∀ id, pj_agent (apply_row (journal s) (RowState (PayloadV2 t m i c r)) (projection s)) id
      = if decide (am_id m = id) then Some a else pj_agent (projection s) id) by apply pj_agent_put.
    destruct (decide (am_id m = q_agent q)) as [Hid|Hne]; [|by unfold phase_ok; rewrite Hag decide_False].
    edestruct (Hst t m i c r a) as [[Hidle _]|(b & Hb & Hs' & Hn & Hsame)];
      [done|done|by rewrite Hag decide_True|by destruct (Hidle q Hin Ho) as [H|H]; [done|unfold phase_ok; rewrite H..]|].
    rewrite Hid in Hb. unfold phase_ok in *. rewrite Hag decide_True //.
    destruct Hsame as (H1 & H2 & H3 & H4).
    destruct (q_phase q); try done; destruct Hph as (b' & Hb' & Hph); simplify_eq; exists a;
      unfold same_agent in *; simpl; rewrite ?Hs' ?Hn ?H1 ?H2 ?H3 ?H4; tauto.
  - intros id r Hr Hx Hph. destruct row as [[|t m i c rr|]|? []|[] []|]; try solve [done|inversion Hadm].
    set (a := row_agent (journal s) (projection s) t m i c rr) in *.
    assert (Hag : ∀ id, pj_agent (apply_row (journal s) (RowState (PayloadV2 t m i c rr)) (projection s)) id
      = if decide (am_id m = id) then Some a else pj_agent (projection s) id) by apply pj_agent_put.
    destruct (decide (am_id m = id)) as [Hid|Hne]; [|by unfold recovery_ok; rewrite Hag decide_False].
    edestruct (Hst t m i c rr a) as [[_ Hidle]|(b & Hb & Hs' & Hn & Hsame)];
      [done|done|by rewrite Hag decide_True|subst; by unfold recovery_ok; rewrite (Hidle r Hr Hx)|].
    rewrite Hid in Hb. unfold recovery_ok in *. rewrite Hag decide_True //.
    destruct Hsame as (H1 & H2 & H3 & H4).
    destruct (r_phase r); try done; destruct Hph as (b' & Hb' & Hph); simplify_eq; exists a;
      unfold same_agent in *; simpl; rewrite ?Hs' ?Hn ?H1 ?H2 ?H3 ?H4; tauto.
Qed.
End Writing.

(** What a move of the agent [b] to the state [a] must satisfy. *)
Record moves (s : Runtime) (t : Transition) (ref : option Z) (a b : AgentState) : Prop := mkMoves {
  mv_same : same_agent (as_meta a) (as_meta b);
  mv_life : lifecycle t (as_status b) (as_status a) = true;
  mv_steps : as_stepsUsed a = (as_stepsUsed b + charge t)%Z;
  mv_start : t = tr_step_started → (as_stepsUsed b < am_maxSteps (as_meta b))%Z ∧
    ∃ u, jm_get (pj_runs (projection s)) (as_runId b) = Some u ∧ (us_stepsUsed u < rb_maxSteps (us_budget u))%Z;
  mv_open : t ∈ [tr_checking; tr_step_started; tr_resumed] → scope_open (projection s) (as_id a);
  mv_above : t = tr_recovery_started → ∀ p, as_parentId b = Some p → scope_open (projection s) p;
  mv_ref : t = tr_restored →
    valid_ref ref (Z.of_nat (S (length (journal s)))) = true
    ∧ is_ok (readAgentCheckpoint (journal s) (default 0%Z ref) (as_id a)) = true;
  mv_done : as_status a = ag_completed → all_completed (projection s) (as_id a);
}.

Definition plain_transition (t : Transition) : bool :=
  match t with
  | tr_step_started | tr_restored | tr_checking | tr_resumed | tr_recovery_started => false
  | _ => true
  end.
Lemma plain_moves s t ref a b :
  same_agent (as_meta a) (as_meta b) → lifecycle t (as_status b) (as_status a) = true →
  as_stepsUsed a = as_stepsUsed b →
  plain_transition t = true →
  (as_status a = ag_completed → all_completed (projection s) (as_id a)) → moves s t ref a b.
Proof.
  intros ? ? ? Ht ?. constructor; try done; try by intros ->.
  - rewrite charge_other; [lia|]. by intros ->.
  - rewrite !elem_of_cons elem_of_nil. by intros [->|[->|[->|[]]]].
Qed.

Section Recording.
Context (options : AgentRuntimeOptions) (w : World).

Definition appended (t : Transition) (a : AgentState) (ref : option Z) (i c : option jsval) : AgentRow :=
  RowState (PayloadV2 t (as_meta a) i c (if bool_decide (t = tr_restored) then ref else None)).
Definition contents (t : Transition) (i c : option jsval) : Prop :=
  (is_Some i ↔ t = tr_created) ∧ (is_Some c ↔ t = tr_created ∨ t = tr_step_completed).
Lemma append_cases a t ref s :
  (∃ e, append w a t ref s = (Throw e, s)) ∨
  ∃ i c, contents t i c ∧ append w a t ref s = (Ok tt, set_journal (journal s ++ [appended t a ref i c]) s).
Proof using Type.
  unfold append, contents. rewrite run_lift.
  destruct (redacted_opt _) as [i|e] eqn:Hi; [|left; by eexists]. rewrite run_lift.
  destruct (redacted_opt (if bool_decide (t = tr_created) || _ then _ else _)) as [c|e] eqn:Hc; [|left; by eexists].
  unfold journal_row. rewrite run_throw_if. destruct (w_fenced w); [left; by eexists|right].
  exists i, c. split; [split|done].
  - case_bool_decide; simpl in Hi; [|simplify_eq; split; [by intros []|done]].
    apply bind_Ok in Hi as (v & _ & [= <-]). by split; [|eexists].
  - rewrite -bool_decide_or in Hc. case_bool_decide; simpl in Hc; [|simplify_eq; split; [by intros []|done]].
    apply bind_Ok in Hc as (v & _ & [= <-]). by split; [|eexists].
Qed.

Lemma moves_admissible s t ref a b i c : synced s → pj_agent (projection s) (as_id a) = Some b →
  moves s t ref a b → contents t i c →
  i = None ∧ admissible (journal s) (projection s) (appended t a ref i c).
Proof using Type.
  intros Hs Hb [Hsame Hlife Hsteps Hstart Hopen Habove Href Hdone] [Hi Hc]. unfold appended.
  destruct (history_well_formed _ _ Hs) as [_ Hcur].
  assert (t ≠ tr_created) as Ht by (intros ->; by destruct (as_status b)).
  assert (i = None) as -> by (destruct i; [by destruct Ht, (proj1 Hi); eexists|done]). split; [done|].
  eapply adm_moved; try done.
  - rewrite Hc. tauto.
  - case_bool_decide as Hr; [|done]. rewrite Hcur. by apply Href.
Qed.

Lemma ok_record_row x a t ref s (Q : AgentState → Runtime → Prop) : Inv x s →
  (∀ i c, contents t i c → let row := appended t a ref i c in
    admissible (journal s) (projection (caught_up s)) row ∧
    ∀ d, length d ≤ S (length (dirtyScopes s)) → Q a (wrote (caught_up s) row d)) →
  ok x (record_ref options w a t ref) s Q.
Proof using Type.
  intros HI H. unfold record_ref, assertOpen. apply ok_bind, ok_bind, ok_gets, ok_throw_if; [done|]. intros _.
  apply ok_bind. destruct (append_cases a t ref s) as [[e Hrun]|(i & c & Hc & Hrun)]; unfold ok at 1; rewrite Hrun; [done|].
  destruct (H i c Hc) as [Hadm HQ]. apply ok_bind. clear Hrun. destruct (sync_wrote options s _ (inv_log _ _ HI) Hadm) as (d & Hrun & _ & Hd). unfold ok at 1. rewrite Hrun.
  by apply ok_ret, HQ.
Qed.

(** After the row [record] writes. *)
Definition recorded (s : Runtime) (t : Transition) (a : AgentState) (s' : Runtime) : Prop :=
  ∃ row d a' q, state_row t a row ∧ s' = wrote s row d ∧ length d ≤ S (length (dirtyScopes s))
  ∧ as_meta a' = as_meta a ∧ pj_states (projection s') = jm_set (pj_states (projection s)) (as_id a) (q, a').
Lemma recorded_agent s t a s' : recorded s t a s' → ∃ a', as_meta a' = as_meta a ∧
  ∀ id, pj_agent (projection s') id = if decide (as_id a = id) then Some a' else pj_agent (projection s) id.
Proof using Type.
  intros (row & d & a' & q & _ & _ & _ & Hm & Hst). exists a'. split; [done|]. intros id. unfold pj_agent.
  rewrite Hst jm_get_set. by case_decide.
Qed.

(** An error leaves what was there, which [y] speaks of. *)
Lemma ok_record_lagging y x a t ref s (Q : AgentState → Runtime → Prop) b : Inv y s → Inv x s →
  let s0 := caught_up s in
  pj_agent (projection s0) (as_id a) = Some b → moves s0 t ref a b →
  idle x s0 (as_id a) ∨ as_status a = as_status b →
  (∀ s', Inv x s' → synced s' → recorded s0 t a s' → Q a s') →
  ok y (record_ref options w a t ref) s Q.
Proof using Type.
  intros HIy HI s0 Hb Hmv Hidle HQ. pose proof (caught_up_log _ (inv_log _ _ HI)) as Hs.
  apply ok_record_row; [done|]. intros i c Hc row.
  destruct (moves_admissible s0 t ref a b i c Hs Hb Hmv Hc) as [-> Hadm]. split; [done|]. intros d Hd.
  assert (Inv x (wrote s0 row d)) as HI'.
  { apply inv_wrote; [by apply inv_caught_up|done..|]. intros t' m i' c' r' a' [= <- <- <- <- <-] Ha' Hget.
    destruct Hidle as [Hidle|Hst]; [by left|right]. exists b. split; [done|].
    destruct Hmv as [Hsame Hlife Hsteps _ _ _ _ _].
    unfold as_status, as_stepsUsed in *. rewrite Ha'. split_and!; [done| |done].
    rewrite Hsteps charge_other; [lia|]. intros ->. rewrite Hst in Hlife. by destruct (am_status (as_meta b)). }
  apply HQ; [done|by constructor|].
  set (a' := row_agent (journal s0) (projection s0) t (as_meta a) None c
    (if bool_decide (t = tr_restored) then ref else None)).
  exists row, d, a', (Z.of_nat (S (pj_cursor (projection s0)))).
  split_and!; [by do 3 eexists|done..].
Qed.
Lemma ok_record y x a t ref s (Q : AgentState → Runtime → Prop) b : Inv y s → Inv x s → synced s →
  pj_agent (projection s) (as_id a) = Some b → moves s t ref a b →
  idle x s (as_id a) ∨ as_status a = as_status b →
  (∀ s', Inv x s' → synced s' → recorded s t a s' → Q a s') →
  ok y (record_ref options w a t ref) s Q.
Proof using Type.
  intros HIy HI Hs. pose proof (ok_record_lagging y x a t ref s Q b HIy HI) as H. cbv zeta in H.
  rewrite (caught_up_synced _ Hs) in H. exact H.
Qed.

(** The budget of a run. *)
Context (Hoptions : validateRunBudget (o_runBudget options) = Ok (o_runBudget options)).

Lemma ok_ensureRunBudget x run s (Q : AgentRunUsage → Runtime → Prop) : Inv x s → synced s →
  run ∈ pj_budgeted (projection s) ∨ truthy_str run = true →
  (∀ u s', Inv x s' → synced s' →
     s' = s ∨ (∃ row, s' = wrote s row (dirtyScopes s) ∧ row_root (journal s) (projection s) row = None) →
     (∀ id, pj_agent (projection s') id = pj_agent (projection s) id) →
     run ∈ pj_budgeted (projection s') →
     jm_get (pj_runs (projection s')) run = Some u → Q u s') →
  ok x (ensureRunBudget options w run) s Q.
Proof using Hoptions.
  intros HI Hs Hrun HQ. unfold ensureRunBudget. apply ok_bind, ok_reader_synced; [done..|auto with xio|].
  intros [] _. apply ok_bind, ok_gets, ok_bind.
  assert (Husage : ∀ s', Inv x s' → synced s' →
     s' = s ∨ (∃ row, s' = wrote s row (dirtyScopes s) ∧ row_root (journal s) (projection s) row = None) →
     (∀ id, pj_agent (projection s') id = pj_agent (projection s) id) →
     run ∈ pj_budgeted (projection s') → ok x (run_usage run) s' Q).
  { intros s' HI' Hs' Hfr Hag Hin. destruct (history_well_formed _ _ Hs') as [Hwf _].
    pose proof Hin as [u Hu]%(wf_budgeted _ Hwf). unfold run_usage. apply ok_bind, ok_gets.
    rewrite Hu. apply ok_ret. by apply HQ. }
  apply ok_when; intros Hb.
  - rewrite negb_true_iff js_has_false in Hb. destruct Hrun as [|Hrun]; [done|].
    set (row := RowBudget 1 (Some run) (o_runBudget options)).
    assert (admissible (journal s) (projection s) row) as Hadm by by constructor.
    apply ok_bind. unfold journal_row. apply ok_bind, ok_throw_if; [done|]. intros _. apply ok_modify.
    destruct (sync_wrote options s row (inv_log _ _ HI)) as (d & Hsync & Hd & _); [by rewrite caught_up_synced|].
    rewrite caught_up_synced // in Hsync Hd. unfold ok at 1. rewrite Hsync. rewrite Hd //. apply Husage; [by apply inv_wrote|by constructor|right; by exists row|done|].
    simpl. apply elem_of_js_add. by right.
  - rewrite negb_false_iff js_has_spec in Hb. apply Husage; auto.
Qed.
End Recording.
