(* ===== verification/AgentRuntimeScope.v ===== *)
(** * AgentRuntimeScope: cancelling and reconciling scopes

    [cancelScope] fences every member of a scope in one transaction: a member that is
    still at work keeps its status and is asked to stop, the others are interrupted
    ([cancelScope_spec]). [reconcileScopes] keeps the invariant, and its loop ends
    before its fuel. *)

From S2P Require Import Prelude Types Events Agents AgentsSpec AgentRuntime AgentRuntimeInv.

(** The quanta with their phases, and the rest of what is at work. *)
Definition quantum_sig (q : Quantum) : nat * string * QuantumPhase := (q_ticket q, q_agent q, q_phase q).
Definition same_work (s s' : Runtime) : Prop :=
  map quantum_sig (active s') = map quantum_sig (active s) ∧ quanta s' = quanta s
  ∧ recoveries s' = recoveries s ∧ next_ticket s' = next_ticket s ∧ closed s' = closed s
  ∧ stopping s' = stopping s ∧ draining s' = draining s.
#[export] Instance same_work_preorder : PreOrder same_work.
Proof. split; unfold same_work; [done|]. intros ??? (->&->&->&->&->&->&->) (->&->&->&->&->&->&->). done. Qed.

(** No agent is set to work. *)
Definition calmer (pj pj' : Projection) : Prop := ∀ id a', pj_agent pj' id = Some a' →
  ∃ a, pj_agent pj id = Some a ∧ (as_status a' = as_status a ∨ as_status a' = ag_interrupted ∨ as_status a' = ag_completed).
#[export] Instance calmer_preorder : PreOrder calmer.
Proof.
  split; [intros pj id a Ha; eauto|]. intros p1 p2 p3 H12 H23 id a3 H3.
  destruct (H23 _ _ H3) as (a2 & H2 & Hst). destruct (H12 _ _ H2) as (a1 & H1 & Hst'). exists a1. split; [done|].
  destruct Hst as [->|Hst]; [done|by right].
Qed.
Definition calmly (s s' : Runtime) : Prop := same_work s s' ∧ calmer (projection s) (projection s').
#[export] Instance calmly_preorder : PreOrder calmly.
Proof. split; [split; reflexivity|]. intros ??? [H1 H2] [H3 H4]. split; by etransitivity. Qed.

Section Scope.
Context (options : AgentRuntimeOptions) (w : World).

(** ** The transaction *)

Lemma settled_spec a : settled_member a = false →
  as_status a ∉ [ag_completed; ag_failed; ag_interrupted] ∧ cancelling a = false.
Proof using Type.
  unfold settled_member, status_in. intros [H ?]%orb_false_iff. split; [by apply bool_decide_eq_false in H|done].
Qed.
Lemma live_status s a : live_member s a = true →
  as_status a = ag_checking ∨ as_status a = ag_running ∨ as_status a = ag_recovering.
Proof using Type.
  unfold live_member, status_in. intros [[H _]%andb_true_iff|[H _]%andb_true_iff]%orb_true_iff;
    apply bool_decide_eq_true in H; set_solver.
Qed.
Definition cancel_transition (s : Runtime) (a : AgentState) : Transition :=
  if live_member s a then tr_interrupt_requested else tr_interrupted.
Lemma cancel_moves s0 s a : settled_member a = false →
  moves s (cancel_transition s0 a) None (cancelled_member s0 a) a.
Proof using Type.
  intros [Hst _]%settled_spec. unfold cancel_transition, cancelled_member.
  destruct (live_member s0 a) eqn:Hlive; apply plain_moves; try done.
  - apply live_status in Hlive. unfold as_status in *. simpl. by destruct Hlive as [->|[->| ->]].
  - intros Hc. exfalso. apply Hst. unfold as_status in *. simpl in Hc. rewrite Hc. set_solver.
  - unfold as_status in *. simpl. destruct (am_status (as_meta a)); try done; set_solver.
Qed.

(** How many agents are still to be fenced. *)
Definition open_agents (pj : Projection) : Z :=
  tally (λ a, if settled_member a then 0 else 1)%Z (pj_states pj).
Lemma open_set pj id q0 b q a pj' : jm_get (pj_states pj) id = Some (q0, b) →
  pj_states pj' = jm_set (pj_states pj) id (q, a) → settled_member b = false → settled_member a = true →
  (open_agents pj' = open_agents pj - 1)%Z.
Proof using Type. intros Hg Hst Hb Ha. unfold open_agents. rewrite Hst (tally_set _ _ _ q0 b) // Hb Ha. lia. Qed.
Lemma cancelled_settled s a a' : as_meta a' = as_meta (cancelled_member s a) → settled_member a' = true.
Proof using Type.
  intros Hm. unfold settled_member, cancelling. rewrite Hm /cancelled_member /=. by rewrite orb_true_r.
Qed.

(** The log while the transaction is open: [rows] follow a journal that was read. *)
Definition writing (s0 : Runtime) (rows : list AgentRow) : Runtime := set_journal (journal s0 ++ rows) s0.
Lemma cancel_member_run s0 rows pj a :
  synced s0 → chain (journal s0) (projection s0) rows pj → pj_agent pj (as_id a) = Some a →
  (∃ e, cancel_member w a (writing s0 rows) = (Throw e, writing s0 rows)) ∨
  ∃ rows' pj', cancel_member w a (writing s0 rows) = (Ok tt, writing s0 rows')
  ∧ chain (journal s0) (projection s0) rows' pj' ∧
  (settled_member a = true ∧ pj' = pj ∧ rows' = rows ∨ settled_member a = false ∧
   length rows' = S (length rows) ∧ (open_agents pj' = open_agents pj - 1)%Z ∧
   ∃ a', as_meta a' = as_meta (cancelled_member s0 a) ∧
     ∀ id, pj_agent pj' id = if decide (as_id a = id) then Some a' else pj_agent pj id).
Proof using Type.
  intros Hs Hc Ha. unfold cancel_member. destruct (settled_member a) eqn:Hset.
  { right. exists rows, pj. split_and!; [done..|]. by left. }
  rewrite run_gets /=. change (live_member (writing s0 rows) a) with (live_member s0 a).
  change (cancelled_member (writing s0 rows) a) with (cancelled_member s0 a).
  change (if live_member s0 a then tr_interrupt_requested else tr_interrupted) with (cancel_transition s0 a).
  destruct (append_cases w (cancelled_member s0 a) (cancel_transition s0 a) None (writing s0 rows))
    as [[e Hrun]|(i & c & Hcon & Hrun)]; [left; by exists e|right].
  set (s1 := set_projection pj (writing s0 rows)).
  assert (synced s1) as Hs1 by (by eapply history_chain).
  destruct (moves_admissible s1 _ None (cancelled_member s0 a) a i c Hs1 Ha (cancel_moves s0 s1 a Hset) Hcon)
    as [-> Hadm].
  set (row := appended (cancel_transition s0 a) (cancelled_member s0 a) None None c) in *.
  exists (rows ++ [row]), (apply_row (journal s0 ++ rows) row pj). split; [|split].
  - rewrite Hrun. unfold writing. simpl. by rewrite assoc.
  - eapply chain_app; [done|]. constructor; [exact Hadm|constructor].
  - right. split; [done|].
    set (a' := row_agent (journal s0 ++ rows) pj (cancel_transition s0 a) (as_meta (cancelled_member s0 a)) None c
      (if bool_decide (cancel_transition s0 a = tr_restored) then None else None)).
    split_and!; [rewrite length_app /=; lia| |exists a'; split; [done|]; intros id; exact (pj_agent_put a' pj id)].
    pose proof Ha as [q0 Hg]%pj_agent_get.
    eapply (open_set pj (as_id a) q0 a _ a'); [done|reflexivity|done|by eapply cancelled_settled].
Qed.

(** What the members become. *)
Definition becomes (s0 : Runtime) (a a' : AgentState) : Prop :=
  if settled_member a then a' = a else as_meta a' = as_meta (cancelled_member s0 a).
Lemma cancel_members_run s0 members : ∀ rows pj,
  synced s0 → chain (journal s0) (projection s0) rows pj → NoDup (map as_id members) →
  Forall (λ a, pj_agent pj (as_id a) = Some a) members →
  (∃ e j, for_each members (cancel_member w) (writing s0 rows) = (Throw e, set_journal j s0)) ∨
  ∃ rows' pj', for_each members (cancel_member w) (writing s0 rows) = (Ok tt, writing s0 rows')
  ∧ chain (journal s0) (projection s0) rows' pj'
  ∧ (∀ id, id ∉ map as_id members → pj_agent pj' id = pj_agent pj id)
  ∧ Forall (λ a, ∃ a', pj_agent pj' (as_id a) = Some a' ∧ becomes s0 a a') members
  ∧ (open_agents pj' + Z.of_nat (length rows') = open_agents pj + Z.of_nat (length rows))%Z.
Proof using Type.
  induction members as [|a members IH]; intros rows pj Hs Hc Hnd Hag; simpl.
  { right. exists rows, pj. by split_and!. }
  inversion Hnd as [|? ? Ha Hnd']; subst. inversion Hag as [|? ? Hka Hag']; subst.
  destruct (cancel_member_run s0 rows pj a Hs Hc Hka) as [[e Hrun]|(rows1 & pj1 & Hrun & Hc1 & Hbec)].
  { left. exists e. eexists. unfold mbind, ST_bind. rewrite Hrun. done. }
  rewrite (run_bind_Ok _ _ _ _ _ Hrun).
  assert (Hkeep : ∀ id, id ≠ as_id a → pj_agent pj1 id = pj_agent pj id).
  { intros id Hid. destruct Hbec as [(_ & -> & _)|(_ & _ & _ & a' & _ & Hall)]; [done|]. by rewrite Hall decide_False. }
  assert (Hone : ∃ a', pj_agent pj1 (as_id a) = Some a' ∧ becomes s0 a a').
  { unfold becomes. destruct Hbec as [(-> & -> & _)|(-> & _ & _ & a' & Hm & Hall)]; [by exists a|].
    exists a'. split; [|done]. by rewrite Hall decide_True. }
  destruct (IH rows1 pj1 Hs Hc1 Hnd') as [H|(rows' & pj' & Hrun' & Hc' & Hout & Hin & Hcount)].
  { apply Forall_forall. intros b Hb. rewrite Hkeep; [by apply (proj1 (Forall_forall _ _) Hag')|].
    intros Heq. apply Ha. rewrite -Heq. apply elem_of_ids. by exists b. }
  - by left.
  - right. exists rows', pj'. split_and!; [done..| | |].
    + intros id Hid. rewrite Hout; [|set_solver]. apply Hkeep. set_solver.
    + constructor; [|done]. rewrite Hout //.
    + destruct Hbec as [(_ & -> & ->)|(_ & Hl & Ho & _)]; [done|]. lia.
Qed.

(** ** The scope is fenced *)

Lemma live_registered s a t : as_status a = ag_checking ∨ as_status a = ag_running →
  jm_get (quanta s) (as_id a) = Some t → live_member s a = true.
Proof using Type.
  intros Hst Hq. unfold live_member, status_in, jm_has. rewrite Hq. by destruct Hst as [-> | ->].
Qed.
Lemma live_recovering s a r : as_status a = ag_recovering → jm_get (recoveries s) (as_id a) = Some r →
  live_member s a = true.
Proof using Type.
  intros Hst Hr. unfold live_member, jm_has. rewrite Hr Hst. by rewrite orb_true_r.
Qed.
Lemma becomes_live s a a' : becomes s a a' → live_member s a = true →
  as_status a' = as_status a ∧ as_stepsUsed a' = as_stepsUsed a ∧ same_agent (as_meta a') (as_meta a).
Proof using Type.
  unfold becomes. intros Hb Hl. destruct (settled_member a); [by subst|].
  unfold as_status, as_stepsUsed, same_agent. rewrite Hb /cancelled_member Hl. done.
Qed.
Lemma same_agent_trans a b c : same_agent a b → same_agent b c → same_agent a c.
Proof using Type. unfold same_agent. intuition congruence. Qed.
Lemma same_agent_sym a b : same_agent a b → same_agent b a.
Proof using Type. unfold same_agent. intuition congruence. Qed.

Lemma inv_cancelled x s pj d rows :
  Inv x s → synced s → chain (journal s) (projection s) rows pj →
  (∀ id, pj_agent pj id = pj_agent (projection s) id ∨
     ∃ a a', pj_agent (projection s) id = Some a ∧ as_id a = id ∧ pj_agent pj id = Some a' ∧ becomes s a a') →
  Inv x (set_dirtyScopes d (set_projection pj (writing s rows))).
Proof using Type.
  intros HI Hs Hc Hbec. apply (inv_rewrote x s (journal s ++ rows) pj d HI).
  - by eapply history_chain.
  - intros q Hin Ho Hph. unfold phase_ok in *.
    destruct (Hbec (q_agent q)) as [->|(a & a' & Ha & Hid & -> & Hb)]; [done|].
    pose proof (inv_registered _ _ HI q Hin) as Hreg. rewrite -Hid in Hreg.
    destruct (q_phase q); try done; destruct Hph as (b & Hb' & Hst & Hph); simplify_eq;
      destruct (becomes_live _ _ _ Hb) as (Hs1 & Hs2 & Hs3); try (eapply live_registered; [|exact Hreg]; tauto);
      exists a'; rewrite Hs1 ?Hs2 ?(proj2 (proj2 (proj2 Hs3))); apply same_agent_sym in Hs3;
      intuition eauto using same_agent_trans.
  - intros id r Hr Hx Hph. unfold recovery_ok in *.
    destruct (Hbec id) as [->|(a & a' & Ha & Hid & -> & Hb)]; [done|].
    rewrite -Hid in Hr.
    destruct (r_phase r); try done; destruct Hph as (b & Hb' & Hst & Hph); simplify_eq;
      destruct (becomes_live _ _ _ Hb) as (Hs1 & Hs2 & Hs3); try (eapply live_recovering; [done|exact Hr]);
      exists a'; rewrite Hs1 ?Hs2; apply same_agent_sym in Hs3;
      intuition eauto using same_agent_trans.
Qed.

Lemma inv_same_phase x t f s : (∀ q, quantum_sig (f q) = quantum_sig q) → Inv x s → Inv x (update_quantum t f s).
Proof using Type.
  intros Hf HI. assert (Hf' : ∀ q, q_ticket (f q) = q_ticket q ∧ q_agent (f q) = q_agent q ∧ q_phase (f q) = q_phase q).
  { intros q. specialize (Hf q). unfold quantum_sig in Hf. by simplify_eq. }
  apply (inv_update_quantum x x); [|done| |done|done].
  - intros q. by destruct (Hf' q) as (? & ? & ?).
  - intros q Hin _ Ho. pose proof (inv_phases _ _ HI q Hin Ho) as Hph. destruct (Hf' q) as (_ & Ha & Hp).
    unfold phase_ok in *. by rewrite Ha Hp.
Qed.
Lemma same_work_update t f s : (∀ q, quantum_sig (f q) = quantum_sig q) → same_work s (update_quantum t f s).
Proof using Type.
  intros Hf. unfold same_work, update_quantum. simpl. split_and!; [|done..].
  rewrite map_map. apply map_ext. intros q. by case_bool_decide.
Qed.

Lemma becomes_calmer s a a' : becomes s a a' → as_status a' = as_status a ∨ as_status a' = ag_interrupted.
Proof using Type.
  unfold becomes. destruct (settled_member a); [intros ->; by left|]. unfold as_status. intros ->.
  unfold cancelled_member. destruct (live_member s a); [by left|by right].
Qed.

(** What [cancelScope] leaves: the members as they are to be, the others as they were. *)
Definition fenced (s s' : Runtime) (id : string) : Prop :=
  ∃ members, scope (projection s) id = Ok members
  ∧ (∀ a, a ∈ members → ∃ a', pj_agent (projection s') (as_id a) = Some a' ∧ becomes s a a')
  ∧ (∀ i, i ∉ map as_id members → pj_agent (projection s') i = pj_agent (projection s) i).
Lemma fenced_calmer s s' id : well_formed (projection s) → fenced s s' id → calmer (projection s) (projection s').
Proof using Type.
  intros Hwf (members & Hm & Hin & Hout) i a' Ha'. destruct (decide (i ∈ map as_id members)) as [Hi|Hi].
  - apply elem_of_ids in Hi as (a & Ha & <-). destruct (Hin a Ha) as (b & Hb & Hbec). simplify_eq.
    exists a. split; [by apply (scope_spec _ Hwf _ _ Hm)|]. apply becomes_calmer in Hbec. tauto.
  - rewrite Hout // in Ha'. eauto.
Qed.
Definition burden (s : Runtime) : Z := (Z.of_nat (length (dirtyScopes s)) + open_agents (projection s))%Z.

Lemma ok_cancelScope x id s (Q : list nat → Runtime → Prop) : Inv x s → synced s →
  (∀ pending s', Inv x s' → synced s' → calmly s s' → fenced s s' id → (burden s' ≤ burden s)%Z → Q pending s') →
  ok x (cancelScope options w id) s Q.
Proof using Type.
  intros HI Hs HQ. destruct (history_well_formed _ _ Hs) as [Hwf Hcur]. unfold cancelScope.
  apply ok_bind, ok_reader_synced; [done..|auto with xio|]. intros [] _. apply ok_bind, ok_get.
  apply ok_bind, ok_lift; [done|]. intros members Hm.
  destruct (scope_spec _ Hwf _ _ Hm) as [Hnd Hmem].
  assert (writing s [] = s) as Hw by (unfold writing; rewrite app_nil_r; by destruct s).
  apply ok_bind. unfold ok at 1, in_transaction.
  destruct (cancel_members_run s members [] (projection s) Hs) as [(e & j & Hrun)|(rows & pj & Hrun & Hc & Hout & Hin & Hcount)].
  { constructor. }
  { done. }
  { apply Forall_forall. intros a Ha. by apply Hmem. }
  { rewrite Hw in Hrun. rewrite Hrun /=. assert (set_journal (journal s) (set_journal j s) = s) as -> by by destruct s.
    done. }
  rewrite Hw in Hrun. rewrite Hrun. clear Hrun.
  apply ok_bind. destruct (sync_chain options [] rows (writing s rows) (journal s) pj) as (d & Hsync & _ & Hd);
    [by rewrite app_nil_r|done..|].
  unfold ok at 1, sync. rewrite run_gets /= Hcur drop_app_length Hsync. clear Hsync.
  set (s1 := set_dirtyScopes d (set_projection pj (writing s rows))).
  rewrite Forall_forall in Hin.
  assert (Inv x s1) as HI1.
  { apply inv_cancelled; [done..|]. intros i. destruct (decide (i ∈ map as_id members)) as [Hi|Hi].
    - apply elem_of_ids in Hi as (a & Ha & <-). right. destruct (Hin a Ha) as (a' & Ha' & Hb).
      exists a, a'. split_and!; [by apply Hmem|done..].
    - left. by apply Hout. }
  assert (synced s1) as Hs1 by (by eapply history_chain).
  apply (ok_fold_each x (λ _ s', Inv x s' ∧ same_work s s' ∧ journal s' = journal s1 ∧ projection s' = projection s1
    ∧ dirtyScopes s' = dirtyScopes s1)).
  - intros pending a s2 (HI2 & Hw2 & Hj & Hp & Hdi). unfold abort_member. apply ok_bind, ok_get, ok_bind.
    destruct (jm_get (quanta s2) (as_id a)) as [t|].
    + apply ok_modify. apply ok_ret. split_and!; [by apply inv_same_phase| |done..].
      etransitivity; [exact Hw2|by apply same_work_update].
    + by do 2 apply ok_ret.
  - by split_and!.
  - intros pending s2 (HI2 & Hw2 & Hj & Hp & Hdi).
    assert (fenced s s2 id) as Hf by (exists members; rewrite Hp; by split_and!).
    apply HQ; [done|unfold synced; by rewrite Hj Hp| |done|].
    + split; [done|]. by eapply fenced_calmer.
    + unfold burden. rewrite Hp Hdi. simpl in Hcount |- *. simpl in Hd. lia.
Qed.

(** ** Scopes that have ended *)

Lemma ok_record_work x a t ref s (Q : AgentState → Runtime → Prop) b : Inv x s → synced s →
  pj_agent (projection s) (as_id a) = Some b → moves s t ref a b →
  idle x s (as_id a) ∨ as_status a = as_status b →
  (∀ s', Inv x s' → synced s' → recorded s t a s' → same_work s s' → Q a s') →
  ok x (record_ref options w a t ref) s Q.
Proof using Type.
  intros HI Hs Hb Hmv Hidle HQ. eapply (ok_record _ _ _ x); [done..|]. intros s' HI' Hs' Hrec. apply HQ; [done..|].
  destruct Hrec as (row & d & a' & q & _ & -> & _). done.
Qed.

Lemma waiting_moves s a : as_status a = ag_waiting →
  forallb (λ c, bool_decide (as_status c = ag_completed)) (children (projection s) (as_id a)) = true →
  moves s tr_scope_completed None (move ag_completed (am_pauseRequested (as_meta a)) None a) a.
Proof using Type.
  intros Hst Hall. apply plain_moves; try done; [by rewrite Hst|]. intros _. apply Forall_forall. intros c Hc.
  rewrite forallb_forall in Hall. specialize (Hall c). rewrite -list_elem_of_In in Hall.
  by apply Hall, bool_decide_eq_true in Hc.
Qed.
Lemma ok_settle_waiting x a s (Q : unit → Runtime → Prop) : Inv x s → synced s →
  pj_agent (projection s) (as_id a) = Some a → cancelling a = false →
  (∀ s', Inv x s' → synced s' → calmly s s' → (burden s' ≤ burden s)%Z →
     (∀ id, id ≠ as_id a → pj_agent (projection s') id = pj_agent (projection s) id) → Q tt s') →
  ok x (settle_waiting options w a) s Q.
Proof using Type.
  intros HI Hs Ha Hcan HQ. unfold settle_waiting. apply ok_bind, ok_gets, ok_when; intros Hb; [|by apply HQ].
  apply andb_true_iff in Hb as [Hst%bool_decide_eq_true Hall]. apply ok_bind. unfold record.
  eapply ok_record_work; [done|done|exact Ha| |left; by eapply idle_status; [done|done|rewrite Hst]|].
  - by apply waiting_moves.
  - intros s' HI' Hs' Hrec Hw. apply ok_ret. pose proof (recorded_agent _ _ _ _ Hrec) as (a1 & Hm1 & Hag).
    apply HQ; [done..| | |intros id Hid; by rewrite Hag decide_False].
    { split; [done|]. intros id a2. rewrite Hag. case_decide as Hid; [|by eauto]. intros [= <-].
      exists a. rewrite -Hid. split; [done|]. right. right. unfold as_status. by rewrite Hm1. }
    destruct Hrec as (row & d & a' & q & _ & -> & Hd & Hm & Hstates). pose proof Ha as [q0 Hg]%pj_agent_get.
    assert (open_agents (projection (wrote s row d)) = open_agents (projection s) - 1)%Z as Ho.
    { eapply (open_set (projection s) (as_id a) q0 a q a'); [done|exact Hstates| |].
      - unfold settled_member, status_in. by rewrite Hst Hcan.
      - unfold settled_member, status_in, as_status. by rewrite Hm. }
    unfold burden. rewrite Ho. simpl. lia.
Qed.
Lemma ok_settle_all x members : ∀ s (Q : unit → Runtime → Prop), Inv x s → synced s → NoDup (map as_id members) →
  Forall (λ a, pj_agent (projection s) (as_id a) = Some a ∧ cancelling a = false) members →
  (∀ s', Inv x s' → synced s' → calmly s s' → (burden s' ≤ burden s)%Z → Q tt s') →
  ok x (for_each members (settle_waiting options w)) s Q.
Proof using Type.
  induction members as [|a members IH]; intros s Q HI Hs Hnd Hall HQ; simpl; [by apply HQ|].
  inversion Hnd as [|? ? Ha Hnd']; subst. inversion Hall as [|? ? [Hka Hca] Hall']; subst.
  apply ok_bind, ok_settle_waiting; [done..|]. intros s1 HI1 Hs1 Hw1 Hb1 Hag.
  apply IH; [done..| |].
  - apply Forall_forall. intros b Hb. destruct (proj1 (Forall_forall _ _) Hall' b Hb). split; [|done].
    rewrite Hag //. intros Heq. apply Ha. rewrite -Heq. apply elem_of_ids. by exists b.
  - intros s2 HI2 Hs2 Hw2 Hb2. apply HQ; [done..| |lia]. by etransitivity.
Qed.
Lemma NoDup_ids_rev (l : list AgentState) : NoDup (map as_id l) → NoDup (map as_id (rev l)).
Proof using Type. intros H. by rewrite map_rev -(Permutation_rev (map as_id l)). Qed.

Lemma ok_reconcile_scope x id s (Q : unit → Runtime → Prop) : Inv x s → synced s →
  (∀ s', Inv x s' → synced s' → calmly s s' → (burden s' ≤ burden s)%Z → Q tt s') →
  ok x (reconcile_scope options w id) s Q.
Proof using Type.
  intros HI Hs HQ. destruct (history_well_formed _ _ Hs) as [Hwf _]. unfold reconcile_scope.
  apply ok_bind, ok_get, ok_bind, ok_lift; [done|]. intros members Hm.
  destruct (scope_spec _ Hwf _ _ Hm) as [Hnd Hmem]. destruct (existsb _ members) eqn:E.
  - apply ok_bind, ok_cancelScope; [done..|]. intros pending s' ? ? ? _ ?. by apply ok_ret, HQ.
  - apply ok_settle_all; [done..|by apply NoDup_ids_rev| |done]. apply Forall_forall. intros a Ha.
    rewrite -> list_elem_of_In, <- in_rev, <- list_elem_of_In in Ha. split; [by apply Hmem|].
    apply not_true_is_false. intros Hc. apply (not_true_iff_false (existsb _ _)) in E. apply E, existsb_In.
    exists a. by rewrite Hc orb_true_r.
Qed.

(** ** [reconcileScopes] *)

Lemma burden_nonneg s : (Z.of_nat (length (dirtyScopes s)) ≤ burden s)%Z.
Proof using Type. unfold burden, open_agents. pose proof (tally_nonneg (λ a, if settled_member a then 0 else 1)%Z (pj_states (projection s))) as H. lapply H; [lia|]. intros a. case_match; lia. Qed.
Lemma ok_set_dirty x s d (Q : unit → Runtime → Prop) : Inv x s →
  (Inv x (set_dirtyScopes d s) → Q tt (set_dirtyScopes d s)) → ok x (modify (set_dirtyScopes d)) s Q.
Proof using Type. intros HI HQ. apply ok_modify, HQ. by eapply inv_frame; [..|exact HI]. Qed.

Lemma ok_reconcile_from x fuel : ∀ s (Q : unit → Runtime → Prop), Inv x s → synced s →
  (∀ s', Inv x s' → synced s' → calmly s s' → dirtyScopes s' = [] → Q tt s') →
  ok x (reconcile_from options w fuel) s Q.
Proof using Type.
  induction fuel as [|fuel IH]; intros s Q HI Hs HQ; simpl; [done|].
  apply ok_bind, ok_gets. destruct (dirtyScopes s) as [|id dirty] eqn:E; [by apply HQ|].
  apply ok_bind, ok_modify.
  set (s1 := set_dirtyScopes _ s). assert (Inv x s1) as HI1 by by eapply inv_frame; [..|exact HI].
  apply ok_bind, (ok_try_catch x _ _ _ x).
  - apply ok_reconcile_scope; [done..|]. intros s2 HI2 Hs2 Hw2 _. apply IH; [done..|].
    intros s3 HI3 Hs3 Hw3 Hd. apply HQ; [done..| |done]. etransitivity; [|exact Hw3]. by etransitivity; [|exact Hw2].
  - intros e s2 HI2. apply ok_bind, ok_modify, ok_throw. by eapply inv_frame; [..|exact HI2].
Qed.
Lemma ok_reconcileScopes x s (Q : unit → Runtime → Prop) : Inv x s →
  (∀ s', Inv x s' → synced s' → calmly s s' → dirtyScopes s' = [] → Q tt s') →
  ok x (reconcileScopes options w) s Q.
Proof using Type.
  intros HI HQ. unfold reconcileScopes. apply ok_bind. unfold ok at 1.
  rewrite (proj1 (sync_run options s (inv_log _ _ HI))). apply ok_bind, ok_gets.
  apply ok_reconcile_from; [by apply inv_caught_up|by apply caught_up_log, (inv_log _ _ HI)|].
  intros s' ? ? ? ?. by apply HQ.
Qed.
End Scope.
