(* ===== verification/AgentRuntimeSteps.v ===== *)
(** * AgentRuntimeSteps: every handler keeps the invariant of AgentRuntimeInv

    The calls of the host; the continuations of a quantum, from [advance] to its
    [finally]: while a handler moves the agent of its quantum, the quantum is exempt,
    and when it returns the phase and the status agree again; the recoveries, the
    drain, the barriers and the shutdown. A drain may only launch when no quantum has an
    agent that is back to ready or not yet checked ([orderly]; AgentLife has the run
    that shows why). *)

From S2P Require Import Prelude Types Events Agents AgentsSpec AgentRuntime AgentRuntimeInv AgentRuntimeScope.

(** * The calls of the host *)

(** One step of a computation whose method only reads a journal already read. *)
Ltac quiet := apply ok_bind, ok_reader_synced; [assumption|assumption|solve [respects_tac]|].
Ltac check := apply ok_bind, ok_throw_if; [assumption|].

(** The first read of the journal: from here on it has been read. *)
Ltac first_require a Ha :=
  apply ok_bind, ok_require; [assumption|]; cbv zeta;
  match goal with |- context [caught_up ?r] => generalize (caught_up r); clear dependent r end;
  intros s a HI Hs Ha.
(** [assertAccepting] and other first reads that do not look at the journal. *)
Ltac opening :=
  apply ok_bind, ok_reader; [assumption|solve [respects_tac]|];
  let r := fresh "r" in let HI' := fresh "HI" in intros [] r _ HI' _;
  match goal with HI : Inv _ ?s |- _ => lazymatch s with r => fail | _ => clear dependent s end end;
  rename r into s, HI' into HI.

(** The goals about the status of [a], by the cases [Hst] leaves. *)
Ltac by_status a Hst :=
  unfold status_in, as_status in *; simpl in *; rewrite ?elem_of_cons ?elem_of_nil in Hst;
  destruct (am_status (as_meta a)); simpl; first [done|naive_solver].
Ltac moving a Hst := apply plain_moves; [done|by_status a Hst|done|done|try (intros ?; exfalso; by_status a Hst)].

Section Calls.
Context (options : AgentRuntimeOptions) (w : World).
Lemma status_in_spec a l : status_in a l = true ↔ as_status a ∈ l.
Proof using Type. apply bool_decide_eq_true. Qed.
Lemma reads_log {A} (m : AM A) s o s' : respects reads m → log_ok s → m s = (o, s') → log_ok s'.
Proof using Type.
  intros Hm Hl Hrun. specialize (Hm s Hl). rewrite Hrun in Hm. simpl in Hm.
  destruct Hm as [->| ->]; [done|by apply log_ok_caught_up].
Qed.
Lemma throw_if_run (b : bool) e s s' : (throw_if b e : AM unit) s = (Ok tt, s') → b = false ∧ s' = s.
Proof using Type. unfold throw_if. destruct b; [done|]. by intros [= <-]. Qed.
Lemma check_open (b : bool) a s s' :
  (throw_if (b || (true && (status_in a [ag_completed; ag_failed; ag_interrupted] || cancelling a)))
    (Err "Agent scope is closed") : AM unit) s = (Ok tt, s') → open_agent a.
Proof using Type.
  unfold throw_if, status_in, cancelling, open_agent. destruct b; [done|]. simpl.
  case_bool_decide; [done|]. simpl. case_bool_decide; [done|]. done.
Qed.
(** A scope that passes [assertScopeOpen]. *)
Lemma scope_open_from_run fuel restoring id : ∀ a s s', log_ok s → synced s →
  pj_agent (projection s) (as_id a) = Some a →
  scope_open_from options fuel restoring id a s = (Ok tt, s') →
  ∀ x b, below (projection s) (as_id a) x → pj_agent (projection s) x = Some b →
    (restoring = true → x ≠ id) → open_agent b.
Proof using Type.
  induction fuel as [|fuel IH]; intros a s s' Hl Hs Ha Hrun x b Hx Hb Hne; [done|]. simpl in Hrun.
  rewrite run_gets in Hrun. apply bind_Ok_inv in Hrun as ([] & s1 & Hchk & Hrun).
  pose proof (throw_if_run _ _ _ _ Hchk) as [_ ->].
  destruct (rtc_inv _ _ Hx) as [<-|(p & (a' & Ha' & Hp) & Hpx)].
  - assert (b = a) as -> by congruence. destruct restoring; [|by eapply check_open].
    rewrite (bool_decide_false (as_id a = id)) in Hchk; [|by apply Hne]. by eapply check_open.
  - assert (a' = a) as -> by congruence. rewrite Hp in Hrun.
    apply bind_Ok_inv in Hrun as (b' & s2 & Hreq & Hrun).
    destruct (require_run _ _ _ _ _ Hl Hreq) as [-> Hb']. rewrite caught_up_synced // in Hrun, Hb'.
    destruct (history_well_formed _ _ Hs) as [Hwf _]. pose proof (agent_id _ (wf_family _ Hwf) _ _ Hb') as Hid.
    eapply (IH b' s s'); [done|done|by rewrite Hid|done|by rewrite Hid|done|done].
Qed.
Lemma scope_open_run a s s' : log_ok s → synced s → pj_agent (projection s) (as_id a) = Some a →
  assertScopeOpen options a false s = (Ok tt, s') → scope_open (projection s) (as_id a).
Proof using Type.
  intros Hl Hs Ha. unfold assertScopeOpen. rewrite run_gets. intros ([] & s1 & H & _)%bind_Ok_inv x b Hx Hb.
  by eapply scope_open_from_run.
Qed.
Lemma scope_above_run a s s' p : log_ok s → synced s → pj_agent (projection s) (as_id a) = Some a →
  assertScopeOpen options a true s = (Ok tt, s') → as_parentId a = Some p → scope_open (projection s) p.
Proof using Type.
  intros Hl Hs Ha. unfold assertScopeOpen. rewrite run_gets. intros ([] & s1 & H & _)%bind_Ok_inv Hp x b Hx Hb.
  destruct (history_well_formed _ _ Hs) as [Hwf _]. assert (parent_of (projection s) (as_id a) p) as Hpar by by exists a.
  eapply (scope_open_from_run _ true (as_id a)); [done..|by eapply rtc_l|done|].
  intros _ ->. apply (parent_position _ Hwf) in Hpar. apply (below_position _ Hwf) in Hx as [->|Hx]; lia.
Qed.

Lemma check_parent_facts input s : log_ok s → synced s → check_parent options input s = (Ok tt, s) →
  ∀ p, ci_parentId input = Some p → ∃ b, pj_agent (projection s) p = Some b ∧ as_runId b = ci_runId input
    ∧ as_status b ≠ ag_waiting ∧ scope_open (projection s) p.
Proof using Type.
  intros Hl Hs Hrun p Hp. unfold check_parent in Hrun. rewrite Hp in Hrun.
  apply bind_Ok_inv in Hrun as (b & s1 & Hb & Hrun).
  destruct (require_run _ _ _ _ _ Hl Hb) as [-> Hag]. rewrite caught_up_synced // in Hrun, Hag.
  rewrite run_throw_if in Hrun. case_bool_decide as Hr; [|done]. simpl in Hrun.
  apply bind_Ok_inv in Hrun as ([] & s2 & Hop & Hw).
  destruct (history_well_formed _ _ Hs) as [Hwf _]. pose proof (agent_id _ (wf_family _ Hwf) _ _ Hag) as Hid.
  apply scope_open_run in Hop; [|done|done|by rewrite Hid]. rewrite Hid in Hop.
  exists b. split_and!; [done..| |done]. unfold throw_if in Hw. by case_bool_decide.
Qed.

Context (Hoptions : validateRunBudget (o_runBudget options) = Ok (o_runBudget options)).
Context (Hrun0 : w_run w "" = false).

Lemma run_truthy run : w_run w run = true → truthy_str run = true.
Proof using Hrun0. unfold truthy_str. intros H. case_bool_decide; [congruence|done]. Qed.
Lemma assertRun_truthy run s s' : assertRun w run s = (Ok tt, s') → truthy_str run = true.
Proof using Hrun0.
  unfold assertRun, throw_if. intros H. apply run_truthy. by destruct (w_run w run).
Qed.

Lemma create_inv input s : Inv None s → ok None (create options w input) s (λ _, Inv None).
Proof using Hoptions Hrun0.
  intros HI. unfold create.
  apply ok_bind, ok_reader; [done|auto with xio|]. intros [] s1 _ HI1 _. clear s HI.
  check. intros Hid. apply ok_bind.
  apply ok_bind, ok_reader; [done|auto with xio|]. intros [] s _ HI _. clear s1 HI1.
  apply ok_bind. unfold ok at 1. rewrite (proj1 (sync_run options s (inv_log _ _ HI))).
  pose proof (inv_caught_up _ _ HI) as HI'. pose proof (caught_up_log _ (inv_log _ _ HI)) as Hs.
  revert HI' Hs. generalize (caught_up s). clear s HI. intros s HI Hs.
  apply ok_gets. check. intros Hnew. rewrite bool_decide_eq_false -eq_None_not_Some in Hnew.
  check. intros Hmax%negb_false_iff. quiet. intros [] Hrun%assertRun_truthy.
  quiet. intros [] _. quiet. intros [] Hpar.
  pose proof (check_parent_facts _ _ (inv_log _ _ HI) Hs Hpar) as Hparent. clear Hpar.
  apply ok_bind, ok_ensureRunBudget; [assumption|assumption|assumption|by right|]. intros u s' HI' Hs' _ Hag Hbud Hu.
  check. intros Hcap. apply ok_bind, ok_lift; [done|]. intros i _. apply ok_bind, ok_lift; [done|]. intros c _.
  unfold record. apply ok_record_row; [assumption|]. rewrite caught_up_synced //. intros i' c' [Hi Hc] row.
  destruct i' as [i'|]; [|by destruct (proj2 Hi eq_refl)].
  destruct c' as [c'|]; [|by destruct (proj2 Hc (or_introl eq_refl))].
  assert (admissible (journal s') (projection s') row) as Hadm.
  { eapply adm_created; simpl; [by rewrite Hag|done|done| | |done|done|lia].
    - unfold positive_safe in Hmax. lia.
    - intros p Hp. destruct (Hparent p Hp) as (b & Hb & Hr & Hw & Hop). exists b. rewrite Hag.
      split_and!; [done..|]. by eapply scope_open_agents. }
  split; [done|]. intros d _. apply inv_wrote; [done..|].
  intros t m i0 c0 r a [= <- <- <- <- <-] _ _. left. apply idle_fresh; [done|]. simpl. by rewrite Hag.
Qed.

Lemma agent_known id a s : synced s → pj_agent (projection s) id = Some a →
  as_id a = id ∧ pj_agent (projection s) (as_id a) = Some a.
Proof using Type.
  intros Hs Ha. pose proof (agent_id _ (wf_family _ (proj1 (history_well_formed _ _ Hs))) _ _ Ha) as Hid.
  by rewrite Hid.
Qed.
Lemma status_cases a l : negb (status_in a l) = false → as_status a ∈ l.
Proof using Type. intros H%negb_false_iff. by apply status_in_spec. Qed.
Lemma idle_status_in x s id a l : Inv x s → pj_agent (projection s) id = Some a → as_status a ∈ l →
  Forall (λ st, busy_status st = false) l → idle x s id.
Proof using Type.
  intros HI Ha Hin Hl. eapply idle_status; [done..|]. by apply (proj1 (Forall_forall _ _) Hl).
Qed.

Lemma pause_inv id s : Inv None s → ok None (pause options w id) s (λ _, Inv None).
Proof using Type.
  intros HI. unfold pause. opening. first_require a Ha. apply ok_bind, ok_get.
  destruct (agent_known _ _ _ Hs Ha) as [Hid Hk].
  check. intros _. check. intros Hst%status_cases. unfold record.
  apply (ok_record _ _ _ None _ _ _ _ _ a); [assumption|eassumption|assumption|exact Hk| | |done].
  - moving a Hst.
  - destruct (busy_status (as_status a)) eqn:E; [right|left; by eapply idle_status].
    by_status a Hst.
Qed.

Lemma interruptScope_inv x id s : Inv x s → ok x (interruptScope options w id) s (λ _, Inv x).
Proof using Type.
  intros HI. unfold interruptScope. first_require a Ha. check. intros _. apply ok_bind, ok_gets.
  quiet. intros root _. apply ok_bind, ok_get. destruct (jm_get (interruptions s) (as_id root)); [by apply ok_ret|].
  apply ok_bind. unfold fresh_ticket. apply ok_bind, ok_gets, ok_bind, ok_modify, ok_ret.
  apply ok_bind, ok_modify.
  match goal with |- ok _ _ ?s1 _ => assert (Inv x s1) as HI1 by (eapply inv_frame; [..|exact HI]; simpl; lia || done) end.
  apply ok_bind, (ok_try_catch x _ _ _ x).
  - apply ok_bind, ok_cancelScope; [done|exact Hs|]. intros pending s2 HI2 _ _ _ _. apply ok_ret.
    apply ok_bind, ok_modify, ok_ret. by eapply inv_frame; [..|exact HI2].
  - intros e s2 HI2. apply ok_ret. apply ok_bind, ok_modify, ok_ret. by eapply inv_frame; [..|exact HI2].
Qed.

Lemma resume_inv id s : Inv None s → ok None (resume options w id) s (λ _, Inv None).
Proof using Hoptions Hrun0.
  intros HI. unfold resume. opening. first_require a Ha.
  destruct (agent_known _ _ _ Hs Ha) as [Hid Hk]. check. intros Hst%negb_false_iff%bool_decide_eq_true.
  check. intros _. quiet. intros [] Hop%scope_open_run; [|apply HI|done|done].
  apply ok_bind, ok_ensureRunBudget; [assumption|assumption|assumption| |].
  { left. by eapply wf_agents, Ha; apply history_well_formed in Hs as [? _]. }
  intros u s' HI' Hs' _ Hag _ _. check. intros _.
  apply ok_bind, ok_reader_synced; [assumption|assumption|solve [respects_tac]|]. intros [] _. unfold record.
  apply (ok_record _ _ _ None _ _ _ _ _ a); [assumption|eassumption|assumption|by rewrite Hag| | |done].
  - constructor; try done; [by rewrite Hst|by rewrite charge_other // Z.add_0_r|].
    intros _. by eapply scope_open_agents.
  - left. eapply idle_status; [done|by rewrite Hag; exact Hk|by rewrite Hst].
Qed.

Lemma findValidCheckpoint_inv id s : Inv None s → ok None (findValidCheckpoint options id) s (λ _, Inv None).
Proof using Type.
  intros HI. unfold findValidCheckpoint. opening. check. intros _. first_require a Ha. check. intros _.
  quiet. intros saved _. unfold fresh_ticket. apply ok_bind, ok_bind, ok_gets, ok_bind, ok_modify, ok_ret.
  apply ok_bind, ok_modify, ok_ret. eapply inv_frame; [..|exact HI]; simpl; lia || done.
Qed.
End Calls.

(** ** Restoring *)

Section Restoring.
Context (options : AgentRuntimeOptions) (w : World).

Lemma checkpoints_from_in j id c saved : ∀ rows pre state,
  j = pre ++ rows → checkpoints_from j id (Z.of_nat (S (length pre))) rows state = Ok saved → c ∈ saved →
  ∃ p, getJournalEvent j (cp_seq c) = Some (RowState p) ∧ am_id (payload_meta p) = id
    ∧ isAgentCheckpoint (payload_transition p) = true.
Proof using Type.
  intros rows. revert saved. induction rows as [|row rows IH]; intros saved pre state Hj Hrun Hin.
  { simpl in Hrun. simplify_eq. set_solver. }
  assert (Hnext : (Z.of_nat (S (length pre)) + 1)%Z = Z.of_nat (S (length (pre ++ [row])))).
  { rewrite length_app /=. lia. }
  assert (Hj' : j = (pre ++ [row]) ++ rows) by by rewrite -assoc.
  simpl in Hrun. destruct row as [p|? ? ?|? ?|]; try (rewrite Hnext in Hrun; by eapply (IH saved); [exact Hj'|..]).
  case_bool_decide as Hid; [|by rewrite Hnext in Hrun; eapply (IH saved); [exact Hj'|..]].
  apply bind_Ok in Hrun as (a & _ & (rest & Hrest & Hrun)%bind_Ok). rewrite Hnext in Hrest.
  injection Hrun as <-. destruct (isAgentCheckpoint (payload_transition p)) eqn:Ht;
    [apply elem_of_cons in Hin as [->|Hin]|]; try (by eapply (IH rest); [exact Hj'|..]).
  exists p. split_and!; [|done..]. unfold cp_seq, getJournalEvent.
  destruct (1 <=? Z.of_nat (S (length pre)))%Z eqn:E; [|apply Z.leb_gt in E; lia]. rewrite Hj. apply list_lookup_middle. lia.
Qed.
Lemma find_checkpoint_ref s id saved seq c : synced s → (Z.of_nat (length (journal s)) ≤ MAX_SAFE_INTEGER)%Z →
  checkpoints_from (journal s) id 1 (journal s) None = Ok saved →
  List.find (λ c, (cp_seq c =? seq)%Z) saved = Some c →
  valid_ref (Some seq) (Z.of_nat (S (length (journal s)))) = true
  ∧ is_ok (readAgentCheckpoint (journal s) seq id) = true.
Proof using Type.
  intros Hs Hmax Hsaved [Hin%list_elem_of_In Hseq]%find_some. apply Z.eqb_eq in Hseq. subst seq.
  destruct (checkpoints_from_in (journal s) id c saved (journal s) [] None eq_refl Hsaved Hin) as (p & Hg & <- & Ht).
  split; [|by apply (history_readable _ _ Hs)]. apply getJournalEvent_bound in Hg. unfold valid_ref. rewrite !andb_true_iff Z.ltb_lt !Z.leb_le. lia.
Qed.
Lemma checkpoints_run id s saved : synced s → log_ok s → checkpoints options id s = (Ok saved, s) →
  checkpoints_from (journal s) id 1 (journal s) None = Ok saved.
Proof using Type.
  intros Hs Hl. unfold checkpoints. intros (a & s1 & Hreq & Hrun)%bind_Ok_inv.
  apply require_run in Hreq as [-> _]; [|done]. rewrite caught_up_synced // run_gets /lift in Hrun.
  by injection Hrun.
Qed.

Lemma ok_commitRestore y x a seq ws s (Q : AgentState → Runtime → Prop) : Inv y s → Inv x s → synced s →
  (Z.of_nat (length (journal s)) ≤ MAX_SAFE_INTEGER)%Z →
  pj_agent (projection s) (as_id a) = Some a → as_status a ∈ [ag_paused; ag_interrupted; ag_recovering] →
  idle x s (as_id a) →
  (∀ a' s', Inv x s' → synced s' → recorded s tr_restored a' s' → recoveries s' = recoveries s → Q a' s') →
  ok y (commitRestore options w a seq ws) s Q.
Proof using Type.
  intros HI HIx Hs Hmax Ha Hst Hidle HQ. unfold commitRestore. quiet. intros saved Hsaved.
  pose proof (checkpoints_run _ _ _ Hs (inv_log _ _ HI) Hsaved) as Hfrom.
  destruct (List.find _ saved) as [c|] eqn:Hc; [|by apply ok_throw].
  destruct (find_checkpoint_ref _ _ _ _ _ Hs Hmax Hfrom Hc) as [Hv Hr].
  quiet. intros [] _. quiet. intros [] _.
  apply (ok_record _ _ _ x _ _ _ _ _ a); [assumption|exact HIx|assumption|exact Ha| |by left|].
  - constructor; [done|by_status a Hst| |done| |done|done|done]; [by rewrite charge_other // Z.add_0_r|].
    rewrite !elem_of_cons elem_of_nil. by intros [?|[?|[?|[]]]].
  - intros s' HI' Hs' Hrec. apply HQ; [done..|]. by destruct Hrec as (? & ? & ? & ? & _ & -> & _).
Qed.

Lemma restoreCheckpoint_inv id seq ws s : (Z.of_nat (length (journal s)) ≤ MAX_SAFE_INTEGER)%Z →
  Inv None s → ok None (restoreCheckpoint options w id seq ws) s (λ _, Inv None).
Proof using Type.
  intros Hmax HI. unfold restoreCheckpoint. apply ok_bind, ok_reader; [done|solve [respects_tac]|].
  intros [] s1 Hs1 HI1 _. assert (Z.of_nat (length (journal s1)) ≤ MAX_SAFE_INTEGER)%Z as Hmax1 by by destruct Hs1 as [->| ->].
  clear dependent s. apply ok_bind, ok_require; [done|]. cbv zeta. intros a HI Hs Ha.
  change (journal s1) with (journal (caught_up s1)) in Hmax1. revert HI Hs Ha Hmax1. generalize (caught_up s1).
  clear dependent s1. intros s HI Hs Ha Hmax. destruct (agent_known _ _ _ Hs Ha) as [Hid Hk].
  quiet. intros [] _. check. intros Hst%status_cases.
  apply (ok_commitRestore _ None); [done|done|done|done|exact Hk| | |done].
  - set_solver.
  - eapply idle_status_in; [done|exact Hk|exact Hst|by repeat constructor].
Qed.

Lemma recoverCheckpoint_inv id s : Inv None s → ok None (recoverCheckpoint options w id) s (λ _, Inv None).
Proof using Type.
  intros HI. unfold recoverCheckpoint. opening. first_require a Ha.
  destruct (agent_known _ _ _ Hs Ha) as [Hid Hk]. check. intros Hst%status_cases.
  quiet. intros [] Hop. quiet. intros [] _. quiet. intros saved _. unfold record.
  apply ok_bind, (ok_record _ _ _ None _ _ _ _ _ a); [assumption|eassumption|assumption|exact Hk| | |].
  - constructor; [done|by_status a Hst| |done| | |done|done]; [by rewrite charge_other // Z.add_0_r|..].
    + rewrite !elem_of_cons elem_of_nil. by intros [?|[?|[?|[]]]].
    + intros _ p Hp. by eapply (scope_above_run options a); [apply HI|..].
  - left. eapply idle_status_in; [done|exact Hk|exact Hst|by repeat constructor].
  - intros s' HI' Hs' Hrec. pose proof (recorded_agent _ _ _ _ Hrec) as (a' & Hm & Hag).
    unfold fresh_ticket. apply ok_bind, ok_bind, ok_gets, ok_bind, ok_modify, ok_ret.
    apply ok_bind, ok_modify, ok_ret.
    assert (Inv None (set_next_ticket (S (next_ticket s')) s')) as HI2 by (eapply inv_frame; [..|exact HI']; simpl; lia || done).
    revert HI2. apply inv_set_recovery; [done..|]. intros _. unfold recovery_ok. simpl. exists a'.
    rewrite Hag decide_True; [|by rewrite -Hid]. unfold as_status, as_stepsUsed. rewrite Hm. by split_and!.
Qed.
End Restoring.

(** * The continuations of a quantum *)

Lemma quantum_found s t q : quantum s t = Some q → q ∈ active s ∧ q_ticket q = t.
Proof. intros [Hin%list_elem_of_In Ht%bool_decide_eq_true]%find_some. done. Qed.

Lemma same_ticket x s : Inv x s → ∀ q q', q ∈ active s → q' ∈ active s → q_ticket q = q_ticket q' → q = q'.
Proof.
  intros HI. pose proof (inv_tickets _ _ HI) as Hnd. induction (active s) as [|q0 l IH]; [set_solver|].
  simpl in Hnd. inversion Hnd as [|? ? Hno Hnd']; subst.
  assert (Hnot : ∀ q, q ∈ l → q_ticket q ≠ q_ticket q0).
  { intros q Hin Heq. apply Hno. rewrite -Heq. apply list_elem_of_fmap. by exists q. }
  intros q q' [->|Hq]%elem_of_cons [->|Hq']%elem_of_cons Ht; [done| | |by apply IH].
  - by destruct (Hnot q' Hq').
  - by destruct (Hnot q Hq).
Qed.

(** The next statement of a run that returns, if it only reads. *)
Ltac next_read Hrun :=
  let Hm := fresh "Hm" in apply bind_Ok_inv in Hrun as (? & ? & Hm & Hrun);
  eapply reads_log in Hm; [|solve [respects_tac]|eassumption].

Section Quanta.
Context (options : AgentRuntimeOptions) (w : World).
Context (Hoptions : validateRunBudget (o_runBudget options) = Ok (o_runBudget options)).

(** ** The end of a quantum *)

Lemma inv_phase t p s :
  (∀ q, q ∈ active s → q_ticket q = t → phase_ok (projection s) (with_phase p q)) →
  Inv (Some (OQuantum t)) s → Inv None (update_quantum t (with_phase p) s).
Proof using Type.
  intros Hp. apply inv_update_quantum; [done| | |done].
  - intros q _ Ht _. unfold others. intros [= ->]. done.
  - intros q Hin Ht _. by apply Hp.
Qed.
Lemma ok_quantum_done x t s : Inv (Some (OQuantum t)) s → ok x (quantum_done t) s (λ _, Inv None).
Proof using Type. intros HI. apply ok_modify. by apply inv_phase. Qed.
Lemma ok_quantum_failed x t s : Inv (Some (OQuantum t)) s → ok x (quantum_failed t) s (λ _, Inv None).
Proof using Type.
  intros HI. unfold quantum_failed. apply ok_bind, ok_modify, ok_modify.
  eapply inv_frame; [..|by apply (inv_phase t QDone s)]; done.
Qed.

(** The agent of the quantum at hand. *)
Record mine (q : Quantum) (s : Runtime) (a : AgentState) (st : AgentStatus) : Prop := mkMine {
  my_quantum : q ∈ active s;
  my_agent : pj_agent (projection s) (q_agent q) = Some a;
  my_status : as_status a = st;
}.
Lemma mine_caught_up q s a st : mine q s a st → mine q (caught_up s) a st.
Proof using Type. by intros []. Qed.

(** A move of that agent. *)
Lemma ok_move q t' b st a s (Q : AgentState → Runtime → Prop) :
  let x := Some (OQuantum (q_ticket q)) in
  Inv x s → synced s → mine q s b st → st ≠ ag_recovering → moves s t' None a b →
  (∀ s', Inv x s' → synced s' → recorded s t' a s' → same_work s s' →
     (∃ a', as_meta a' = as_meta a ∧ mine q s' a' (as_status a)) → Q a s') →
  ok x (record options w a t') s Q.
Proof using Type.
  intros x HI Hs [Hq Hb Hst] Hnr Hmv HQ. unfold record.
  assert (as_id a = q_agent q) as Hid.
  { destruct (mv_same _ _ _ _ _ Hmv) as [Hid _]. change (as_id a = as_id b) in Hid. rewrite Hid.
    by apply (agent_known _ _ _ Hs) in Hb as [? _]. }
  eapply ok_record_work; [done|done|by rewrite Hid|done| |].
  - left. rewrite Hid. eapply idle_own; [done..|by rewrite Hst].
  - intros s' HI' Hs' Hrec Hw. apply HQ; [done..|].
    pose proof (recorded_agent _ _ _ _ Hrec) as (a' & Hm & Hag). exists a'. split; [done|].
    destruct Hrec as (row & d & a1 & q1 & _ & -> & _). constructor; [done| |unfold as_status; by rewrite Hm].
    by rewrite Hag decide_True.
Qed.

(** Recording the end of the quantum: the scope is reconciled, or not. *)
Lemma ok_end q t' b st a s (reconciling : bool) :
  let x := Some (OQuantum (q_ticket q)) in
  Inv x s → synced s → mine q s b st → st ≠ ag_recovering → moves s t' None a b →
  ok x (record options w a t' ;; (if reconciling then reconcileScopes options w else mret tt) ;;
        quantum_done (q_ticket q)) s (λ _, Inv None).
Proof using Type.
  intros x HI Hs Hm Hnr Hmv. apply ok_bind. eapply ok_move; [done..|]. intros s' HI' Hs' _ _ _.
  apply ok_bind. destruct reconciling.
  - apply ok_reconcileScopes; [done|]. intros s2 HI2 _ _ _. by apply ok_quantum_done.
  - apply ok_ret. by apply ok_quantum_done.
Qed.

(** ** After the evidence *)

Lemma ok_step_charge q a version s : let x := Some (OQuantum (q_ticket q)) in
  Inv x s → synced s → mine q s a ag_checking → (as_stepsUsed a < am_maxSteps (as_meta a))%Z →
  scope_open (projection s) (q_agent q) →
  ok x (step_charge options w a (q_ticket q) version) s (λ _, Inv None).
Proof using Type.
  intros x HI Hs Hm Hlt Hop. pose proof Hm as [Hq Ha Hst].
  destruct (history_well_formed _ _ Hs) as [Hwf _].
  pose proof (proj2 (wf_agents _ Hwf _ _ Ha)) as [u Hu]%(wf_budgeted _ Hwf).
  unfold step_charge, run_usage. apply ok_bind, ok_bind, ok_gets. rewrite Hu. apply ok_ret.
  destruct (rb_maxSteps (us_budget u) <=? us_stepsUsed u)%Z eqn:Eb.
  - apply (ok_end q tr_budget_exhausted a ag_checking _ s false); [done..|].
    apply plain_moves; try done. by rewrite Hst.
  - apply ok_bind. eapply ok_move; [done|done|exact Hm|done| |].
    + constructor; try done; [by rewrite Hst| |].
      * intros _. split; [done|]. exists u. split; [done|lia].
      * intros _. destruct (agent_known _ _ _ Hs Ha) as [Hid _]. change (as_id _) with (as_id a). by rewrite Hid.
    + intros s' HI' Hs' _ _ (a' & Hm' & Hmine). apply ok_bind, ok_modify, ok_modify.
      apply inv_phase; [|by eapply inv_frame; [..|exact HI']]. intros q' Hin Ht. simpl in Hin.
      destruct Hmine as [Hin' Ha' Hst'].
      assert (q_agent q' = q_agent q) as Hag.
      { f_equal. by apply (same_ticket _ _ HI'). }
      unfold phase_ok. simpl. exists a'. rewrite Hag. split_and!; [done|done|]. by rewrite Hm'.
Qed.

Lemma ok_dispatch q a version verdict s : let x := Some (OQuantum (q_ticket q)) in
  Inv x s → mine q s a ag_checking → (as_stepsUsed a < am_maxSteps (as_meta a))%Z →
  (is_ok verdict = true → scope_open (projection s) (q_agent q)) →
  ok x (dispatch options w (q_agent q) (q_ticket q) version verdict) s (λ _, Inv None).
Proof using Type.
  intros x HI Hm Hlt Hop. unfold dispatch. apply ok_bind, ok_gets.
  set (is_aborted := match quantum s (q_ticket q) with Some q => q_aborted q | None => false end).
  destruct verdict as [verdict|e].
  all: apply ok_bind, ok_require; [done|]; cbv zeta; intros b HI' Hs Hb; apply mine_caught_up in Hm;
    assert (b = a) as -> by (destruct Hm as [_ Ha _]; congruence); clear Hb; pose proof (my_status _ _ _ _ Hm) as Hst.
  - apply ok_bind, ok_gets.
    destruct (negb (bool_decide (verdict = valid)) || am_pauseRequested (as_meta a) || stopping (caught_up s)).
    + eapply (ok_end q _ a ag_checking _ _ false); [done..|].
      destruct (stopping (caught_up s)); apply plain_moves; try done; by rewrite Hst.
    + apply ok_step_charge; [done..|]. by eapply scope_open_agents, Hop.
  - eapply (ok_end q _ a ag_checking _ _ true); [done..|].
    destruct is_aborted; apply plain_moves; try done; by rewrite Hst.
Qed.

(** Evidence that is given found the scope open. *)
Lemma evidence_open id state t before answer after s v s' : log_ok s →
  evidence options w id state t before answer after s = (Ok v, s') → scope_open (projection s') id.
Proof using Type.
  intros Hl Hrun. unfold evidence in Hrun. rewrite run_gets in Hrun.
  do 5 next_read Hrun.
  apply bind_Ok_inv in Hrun as (a & s6 & Hreq & Hrun).
  match goal with H : log_ok ?r, E : require _ _ ?r = _ |- _ => pose proof (caught_up_log _ H) as Hs;
    apply require_run in E as [-> Ha]; [|exact H]; pose proof (log_ok_caught_up _ H) as Hl6; revert Hs Ha Hl6 Hrun;
    generalize (caught_up r) end.
  intros r Hs Ha Hl6 ([] & s7 & Hop & Hend)%bind_Ok_inv. destruct (agent_known _ _ _ Hs Ha) as [Hid Hk].
  pose proof (reads_assertScopeOpen options a false r Hl6) as Hr. rewrite Hop caught_up_synced // in Hr. simpl in Hr.
  assert (s' = r) as -> by (injection Hend; naive_solver).
  rewrite -Hid. by eapply (scope_open_run options a).
Qed.
(** The evidence only reads; its error is a verdict too. *)
Lemma ok_judge q a id state version before answer after s : let x := Some (OQuantum (q_ticket q)) in
  id = q_agent q → Inv x s → mine q s a ag_checking → (as_stepsUsed a < am_maxSteps (as_meta a))%Z →
  ok x (verdict ← attempt (evidence options w id state (q_ticket q) before answer after);
        dispatch options w (q_agent q) (q_ticket q) version verdict) s (λ _, Inv None).
Proof using Type.
  intros x -> HI Hm Hlt. apply ok_bind, ok_reader; [done|by apply reads_attempt, reads_evidence|].
  intros verdict s' Hs' HI' Hrun. eapply ok_dispatch; [done| |done|].
  - destruct Hs' as [->| ->]; [done|by apply mine_caught_up].
  - intros Hv. unfold attempt in Hrun. destruct (evidence _ _ _ _ _ _ _ _ s) as [o s2] eqn:Hev.
    injection Hrun as -> ->. destruct verdict as [v|e]; [|done]. eapply evidence_open; [|exact Hev]. apply HI.
Qed.

(** ** [advance] *)

Lemma ok_advance_ready q a before after s : let x := Some (OQuantum (q_ticket q)) in
  Inv x s → synced s → mine q s a ag_ready → (as_stepsUsed a < am_maxSteps (as_meta a))%Z →
  ok x (advance_ready options w a (q_ticket q) before after) s (λ _, Inv None).
Proof using Type.
  intros x HI Hs Hm Hlt. pose proof Hm as [Hq Ha Hst]. destruct (agent_known _ _ _ Hs Ha) as [Hid Hk].
  unfold advance_ready. rewrite Hid. apply ok_bind, ok_reader_synced; [done|done|apply reads_attempt; respects_tac|].
  intros opened Hopened. destruct opened as [[]|e].
  - apply ok_bind. eapply ok_move; [done|done|exact Hm|done| |].
    { constructor; try done; [by rewrite Hst|by rewrite charge_other // Z.add_0_r|]. intros _.
      unfold attempt in Hopened. destruct (mbind (M := AM) _ _ s) as [o s2] eqn:Hrun. injection Hopened as -> ->.
      apply bind_Ok_inv in Hrun as ([] & s3 & Hm3 & Hop).
      pose proof (reads_assertRun w (as_runId a) s (inv_log _ _ HI)) as Hr. rewrite Hm3 caught_up_synced // in Hr. simpl in Hr.
      assert (s3 = s) as -> by naive_solver. by eapply (scope_open_run options a); [apply HI|..]. }
    intros s' HI' Hs' _ _ (a' & Hm' & Hmine).
    assert (as_stepsUsed a' < am_maxSteps (as_meta a'))%Z as Hlt' by (unfold as_stepsUsed; rewrite Hm'; exact Hlt).
    destruct (readWorkspaceVersion options before) as [version|e]; [|by eapply ok_dispatch].
    destruct (o_validate options).
    + apply ok_bind, ok_reader_synced; [done|done|auto with xio|]. intros _ _. apply ok_modify.
      apply inv_phase; [|done]. intros q' Hin Ht. unfold phase_ok. simpl. exists a'.
      destruct Hmine as [Hin' Ha' Hst']. rewrite (same_ticket _ _ HI' q' q) //. split_and!; [done..|].
      by rewrite Hm'.
    + by eapply ok_judge.
  - eapply (ok_end q _ a ag_ready _ _ true); [done..|]. apply plain_moves; try done. by rewrite Hst.
Qed.

Lemma mine_same_agents q s s' a st : mine q s a st → active s' = active s →
  (∀ id, pj_agent (projection s') id = pj_agent (projection s) id) → mine q s' a st.
Proof using Type. intros [Hq Ha Hst] Hact Hag. constructor; [by rewrite Hact|by rewrite Hag|done]. Qed.

Lemma advance_inv t before after s : Inv None s → ok None (advance options w t before after) s (λ _, Inv None).
Proof using Hoptions.
  intros HI. unfold advance. apply ok_bind, ok_get.
  destruct (quantum s t) as [q|] eqn:Hq; [|by apply ok_ret]. apply quantum_found in Hq as [Hin <-].
  destruct (q_phase q) eqn:Hph; try by apply ok_ret.
  apply (inv_weaken (Some (OQuantum (q_ticket q)))) in HI.
  destruct (stopping s); [by apply ok_quantum_done|].
  apply (ok_try_catch None _ _ _ (Some (OQuantum (q_ticket q)))); [|by intros; apply ok_quantum_failed].
  apply ok_bind, ok_require; [done|]. cbv zeta. change (active s) with (active (caught_up s)) in Hin.
  revert Hin. generalize (caught_up s). clear s HI. intros s Hin a HI Hs Ha.
  case_bool_decide as Hst; simpl; [|by apply ok_quantum_done].
  assert (mine q s a ag_ready) as Hm by by constructor.
  apply ok_bind, ok_ensureRunBudget; [done|done|done| |].
  { left. eapply wf_agents, Ha. by apply history_well_formed in Hs as [? _]. }
  intros u s' HI' Hs' Hfr Hag _ _.
  assert (mine q s' a ag_ready) as Hm'.
  { eapply mine_same_agents; [done| |done]. by destruct Hfr as [->|(row & -> & _)]. }
  destruct (_ || _) eqn:Eb.
  - eapply (ok_end q _ a ag_ready _ _ false); [done..|]. apply plain_moves; try done. by rewrite Hst.
  - apply orb_false_iff in Eb as [Hown _]. apply ok_advance_ready; [done..|lia].
Qed.

Lemma validated_inv t answer after s : Inv None s → ok None (validated options w t answer after) s (λ _, Inv None).
Proof using Type.
  intros HI. unfold validated. apply ok_bind, ok_get.
  destruct (quantum s t) as [q|] eqn:Hq; [|by apply ok_ret]. apply quantum_found in Hq as [Hin <-].
  destruct (q_phase q) as [|state version| | |] eqn:Hph; try by apply ok_ret.
  pose proof (inv_phases _ _ HI q Hin) as Hok. unfold phase_ok in Hok. rewrite Hph in Hok.
  destruct Hok as (a & Ha & Hst & Hlt & _); [done|].
  apply (inv_weaken (Some (OQuantum (q_ticket q)))) in HI.
  apply (ok_try_catch None _ _ _ (Some (OQuantum (q_ticket q)))); [|by intros; apply ok_quantum_failed].
  eapply ok_judge; [done|done|by constructor|done].
Qed.

(** ** Commands *)

Lemma owned_run s q a : Inv None s → q ∈ active s → owned_state q = Some a →
  as_runId a ∈ pj_budgeted (projection s).
Proof using Type.
  intros HI Hin Ho. pose proof (inv_phases _ _ HI q Hin) as Hok. unfold phase_ok in Hok.
  assert (∃ b, pj_agent (projection s) (q_agent q) = Some b ∧ as_runId a = as_runId b) as (b & Hb & ->).
  { unfold owned_state in Ho. destruct (q_phase q); simplify_eq;
      (destruct Hok as (b & Hb & _ & _ & Hr & _); [done|by exists b]). }
  destruct (inv_log _ _ HI) as (j & rows & _ & [Hwf _]%history_well_formed & _). by eapply wf_agents.
Qed.
Lemma ok_reserveCommand x a s : Inv x s → as_runId a ∈ pj_budgeted (projection s) →
  ok x (reserveCommand options w a) s (λ _, Inv x).
Proof using Hoptions.
  intros HI Hrun. unfold reserveCommand.
  apply ok_bind, ok_reader; [done|auto with xio|]. intros [] s1 Hs1 HI1 _.
  assert (as_runId a ∈ pj_budgeted (projection s1)) as Hrun1 by by destruct Hs1 as [->| ->].
  clear dependent s. apply ok_bind, ok_require; [done|]. cbv zeta. intros b HI Hs _.
  change (pj_budgeted (projection s1)) with (pj_budgeted (projection (caught_up s1))) in Hrun1.
  revert HI Hs Hrun1. generalize (caught_up s1). intros s HI Hs Hrun.
  quiet. intros [] _. apply ok_bind, ok_ensureRunBudget; [done|done|done|by left|].
  intros u s' HI' Hs' _ _ _ _. apply ok_bind, ok_get. check. intros _. apply ok_modify.
  by eapply inv_frame; [..|exact HI'].
Qed.

Lemma submit_command_inv t opId s : Inv None s → ok None (submit_command options w t opId) s (λ _, Inv None).
Proof using Hoptions.
  intros HI. unfold submit_command. apply ok_bind, ok_get.
  destruct (quantum s t) as [q|] eqn:Hq; [|by apply ok_throw]. apply quantum_found in Hq as [Hin <-].
  destruct (q_phase q) as [| |a|a ?|] eqn:Hph; try by apply ok_throw.
  check. intros _. apply ok_bind, (ok_attempt None _ _ None).
  - apply ok_bind, ok_throw_if; [done|]. intros _. eapply ok_mono.
    + apply ok_reserveCommand; [done|]. eapply owned_run; [done..|]. unfold owned_state. by rewrite Hph.
    + intros [] s' HI'. unfold fresh_ticket. apply ok_bind, ok_bind, ok_gets, ok_bind, ok_modify, ok_ret, ok_modify.
      apply inv_same_phase; [done|]. eapply inv_frame; [..|exact HI']; simpl; lia || done.
  - intros e s' HI'. apply ok_bind, ok_modify, ok_throw. by apply inv_same_phase.
Qed.

Lemma ok_settle_command t c run failure s : Inv None s → ok None (settle_command t c run failure) s (λ _, Inv None).
Proof using Type.
  intros HI. unfold settle_command. apply ok_bind, ok_modify, ok_modify. apply inv_same_phase.
  - intros q. by destruct failure.
  - by eapply inv_frame; [..|exact HI].
Qed.
Lemma ok_executeOwnedProcess a opId s : Inv None s → ok None (executeOwnedProcess options w a opId) s (λ _, Inv None).
Proof using Type.
  intros HI. unfold executeOwnedProcess. apply ok_bind, ok_reader; [done|auto with xio|]. intros [] s1 _ HI1 _.
  clear dependent s. check. intros Hop%negb_false_iff. apply ok_bind. unfold ok at 1.
  rewrite (proj1 (sync_run options s1 (inv_log _ _ HI1))).
  pose proof (inv_caught_up _ _ HI1) as HI. pose proof (caught_up_log _ (inv_log _ _ HI1)) as Hs.
  revert HI Hs. generalize (caught_up s1). clear dependent s1. intros s HI Hs. apply ok_bind, ok_get.
  destruct (pj_agent _ (as_id a)) as [b|] eqn:Hb; [|by apply ok_throw].
  check. intros _. quiet. intros [] _. check. intros Hown. check. intros _.
  set (row := RowOperation (Some opId) (Some (as_id a))).
  assert (admissible (journal s) (projection s) row) as Hadm.
  { constructor; [done|]. intros o Ho Ht. rewrite Ho Ht /= in Hown.
    by apply negb_false_iff, bool_decide_eq_true in Hown. }
  unfold journal_row. apply ok_bind, ok_bind, ok_throw_if; [done|]. intros _. apply ok_modify.
  destruct (sync_wrote options s row (inv_log _ _ HI)) as (d & Hrun & _); [by rewrite caught_up_synced|].
  rewrite caught_up_synced // in Hrun. unfold ok. rewrite Hrun. by apply inv_wrote.
Qed.
Lemma start_command_inv t c s : Inv None s → ok None (start_command options w t c) s (λ _, Inv None).
Proof using Type.
  intros HI. unfold start_command. apply ok_bind, ok_get. destruct (_ ≫= _) as [[[q k] a]|]; [|by apply ok_ret].
  destruct (cmd_phase k); [|by apply ok_ret]. apply ok_bind, (ok_attempt None _ _ None).
  - apply ok_bind, ok_throw_if; [done|]. intros _. eapply ok_mono; [by apply ok_executeOwnedProcess|].
    intros [] s' HI'. apply ok_modify. by apply inv_same_phase.
  - intros e s' HI'. by apply ok_settle_command.
Qed.
Lemma command_answered_inv t c answer s : Inv None s → ok None (command_answered t c answer) s (λ _, Inv None).
Proof using Type.
  intros HI. unfold command_answered. apply ok_bind, ok_get. destruct (_ ≫= _) as [[k a]|]; [|by apply ok_ret].
  destruct (cmd_phase k); [by apply ok_ret|]. by apply ok_settle_command.
Qed.

(** ** The end of a step *)

Lemma step_answered_inv t answer s : Inv None s → ok None (step_answered t answer) s (λ _, Inv None).
Proof using Type.
  intros HI. unfold step_answered. apply ok_bind, ok_get.
  destruct (quantum s t) as [q|] eqn:Hq; [|by apply ok_ret]. apply quantum_found in Hq as [Hin Ht].
  destruct (q_phase q) as [| |a| |] eqn:Hph; try by apply ok_ret. apply ok_modify.
  pose proof (inv_phases _ _ HI q Hin) as Hok. unfold phase_ok in Hok. rewrite Hph in Hok.
  apply (inv_update_quantum None None); [|done| |done|done].
  - intros q'. by destruct answer as [[[] ?]|].
  - intros q' Hin' Ht' _. assert (q' = q) as -> by (apply (same_ticket _ _ HI); congruence).
    unfold phase_ok. destruct answer as [[[] ?]|]; simpl; by apply Hok.
Qed.

Lemma ok_after_step q a status checkpoint s : let x := Some (OQuantum (q_ticket q)) in
  Inv x s → synced s → mine q s a ag_running →
  ok x (after_step options w a status checkpoint) s (λ _, Inv x).
Proof using Type.
  intros x HI Hs Hm. pose proof (my_status _ _ _ _ Hm) as Hst. unfold after_step. apply ok_bind, ok_gets.
  destruct (negb (bool_decide (status = step_completed)) && _).
  - eapply ok_move; [done|done|exact Hm|done| |by intros]. apply plain_moves; try done. by rewrite Hst.
  - eapply ok_move; [done|done|exact Hm|done| |by intros].
    assert (∀ st, as_status (move st false None (with_checkpoint checkpoint a)) = st) as Hmv by done.
    apply plain_moves; try done; rewrite Hmv ?Hst.
    + destruct status; [done|]. by destruct (is_nil _).
    + destruct status; [done|]. intros Hc. destruct (children (projection s) (am_id (as_meta a))) as [|? ?] eqn:E; [|done].
      unfold all_completed. change (as_id _) with (am_id (as_meta a)). rewrite E. constructor.
Qed.
Lemma finish_step_inv t s : Inv None s → ok None (finish_step options w t) s (λ _, Inv None).
Proof using Type.
  intros HI. unfold finish_step. apply ok_bind, ok_get.
  destruct (quantum s t) as [q|] eqn:Hq; [|by apply ok_ret]. apply quantum_found in Hq as [Hin <-].
  destruct (q_phase q) as [| | |state returned|] eqn:Hph; try by apply ok_ret.
  destruct (negb (is_nil (q_pending q))); [by apply ok_ret|].
  pose proof (inv_phases _ _ HI q Hin) as Hok. unfold phase_ok in Hok. rewrite Hph in Hok.
  destruct Hok as (a & Ha & Hst & _); [done|]. assert (mine q s a ag_running) as Hm by by constructor.
  apply (inv_weaken (Some (OQuantum (q_ticket q)))) in HI.
  apply (ok_try_catch None _ _ _ (Some (OQuantum (q_ticket q)))); [|by intros; apply ok_quantum_failed].
  destruct (if negb (is_nil (q_failures q)) || q_aborted q then None else _) as [[status checkpoint]|].
  all: apply ok_bind, ok_require; [done|]; cbv zeta; intros b HI' Hs Hb; apply mine_caught_up in Hm;
    assert (b = a) as -> by (destruct Hm as [_ Ha' _]; congruence); clear Hb.
  - apply ok_bind. eapply ok_mono; [by apply ok_after_step|]. intros ? s' HI2. by apply ok_quantum_done.
  - eapply (ok_end q _ a ag_running _ _ true); [done..|]. apply plain_moves; try done. by rewrite Hst.
Qed.

Lemma settle_race_inv t s : Inv None s → Inv None (settle_race t s).
Proof using Type.
  intros HI. unfold settle_race. destruct (draining s) as [d|]; [|done]. destruct (d_phase d); try done.
  case_bool_decide; [|done]. by eapply inv_frame; [..|exact HI].
Qed.
Lemma quantum_finally_inv t s : Inv None s → ok None (quantum_finally t) s (λ _, Inv None).
Proof using Type.
  intros HI. unfold quantum_finally. apply ok_bind, ok_get.
  destruct (quantum s t) as [q|] eqn:Hq; [|by apply ok_ret]. apply quantum_found in Hq as [Hin <-].
  destruct (q_phase q) eqn:Hph; try by apply ok_ret. apply ok_bind, ok_modify, ok_bind, ok_modify, ok_modify, settle_race_inv.
  assert (Hkeep : ∀ q', q' ∈ List.filter (λ q', negb (q_ticket q' =? q_ticket q)%nat) (active s) ↔
    q' ∈ active s ∧ q_ticket q' ≠ q_ticket q).
  { intros q'. rewrite !list_elem_of_In filter_In negb_true_iff Nat.eqb_neq. done. }
  destruct HI as [H1 H2 H3 H4 H5 H6] eqn:E. constructor; simpl.
  - done.
  - clear -H2. induction (active s) as [|q0 l IH]; simpl; [done|]. inversion H2 as [|? ? Hno Hnd]; subst.
    destruct (negb _); [|by apply IH]. simpl. constructor; [|by apply IH]. intros Hin. apply Hno.
    apply list_elem_of_In, in_map_iff in Hin as (q1 & <- & [Hin _]%filter_In). apply list_elem_of_In. by apply in_map.
  - intros q' [Hin' _]%Hkeep. by apply H3.
  - intros q' [Hin' Hne]%Hkeep. rewrite jm_get_delete decide_False; [by apply H4|].
    intros Hag. apply Hne. symmetry. by eapply (same_quantum _ _ HI).
  - intros q' [Hin' _]%Hkeep. by apply H5.
  - done.
Qed.
End Quanta.

(** * Recoveries, the drain and the end *)

Section Steps.
Context (options : AgentRuntimeOptions) (w : World).

(** ** A recovery *)

Lemma ok_recovery_phase x y id p s : Inv x s →
  (∀ q, others y q → others x q) → (∀ id', id' ≠ id → y ≠ Some (ORecovery id') → x ≠ Some (ORecovery id')) →
  (∀ r, jm_get (recoveries s) id = Some r → y ≠ Some (ORecovery id) →
     recovery_ok (projection s) id (with_recovery_phase p r)) →
  ok y (set_recovery_phase id p) s (λ _, Inv y).
Proof using Type.
  intros HI Ho Hx Hp. apply ok_modify. destruct (jm_get (recoveries s) id) as [r|] eqn:Hr.
  - eapply inv_set_recovery; [exact Ho|exact Hx|by apply Hp|done].
  - destruct HI as [H1 H2 H3 H4 H5 H6]. constructor; [done..|by auto|]. intros id' r Hr' Hy.
    destruct (decide (id' = id)) as [->|Hne]; [congruence|]. by apply H6, Hx.
Qed.
Lemma ok_recovery_done y id s : Inv (Some (ORecovery id)) s → ok y (set_recovery_phase id RDone) s (λ _, Inv None).
Proof using Type.
  intros HI. eapply (ok_mono _ _ _ (λ _, Inv None)); [|done].
  pose proof (ok_recovery_phase (Some (ORecovery id)) None id RDone s HI) as H.
  unfold ok in *. apply H; [done| |done]. intros id' Hne _ [= ->]. done.
Qed.
Lemma ok_recovery_failed y id r s : Inv (Some (ORecovery id)) s → ok y (recovery_failed id r) s (λ _, Inv None).
Proof using Type.
  intros HI. unfold recovery_failed. apply ok_bind. eapply ok_mono; [by apply ok_recovery_done|].
  intros [] s' HI'. apply ok_modify. by eapply inv_frame; [..|exact HI'].
Qed.

(** The agent of a live recovery and the state it came from. *)
Record recovering (s : Runtime) (id : string) (previous a : AgentState) : Prop := mkRecovering {
  rc_agent : pj_agent (projection s) id = Some a;
  rc_status : as_status a = ag_recovering;
  rc_same : same_agent (as_meta previous) (as_meta a);
  rc_steps : as_stepsUsed previous = as_stepsUsed a;
  rc_previous : as_status previous ∈ [ag_paused; ag_interrupted];
}.
Lemma live_recovery s id r : Inv None s → jm_get (recoveries s) id = Some r → r_phase r ≠ RDone →
  ∃ a, recovering s id (r_previous r) a.
Proof using Type.
  intros HI Hr Hph. pose proof (inv_recoveries _ _ HI id r Hr) as Hok. unfold recovery_ok in Hok.
  destruct (r_phase r); try done; (destruct Hok as (a & ? & ? & ? & ? & ?); [done|by exists a]).
Qed.

(** The end of a recovery: its agent goes to a stopped status. *)
Lemma ok_recovery_record id t previous a b s (Q : AgentState → Runtime → Prop) :
  Inv None s → recovering s id previous b →
  same_agent (as_meta a) (as_meta previous) → as_stepsUsed a = as_stepsUsed previous →
  lifecycle t ag_recovering (as_status a) = true → plain_transition t = true →
  (∀ s', Inv (Some (ORecovery id)) s' → Q a s') →
  ok None (record options w a t) s Q.
Proof using Type.
  intros HI [Hb Hst Hsame Hsteps Hprev] Ha Hn Hlife Ht HQ. unfold record.
  pose proof (caught_up_log _ (inv_log _ _ HI)) as Hs. pose proof (inv_caught_up _ _ HI) as HI'.
  change (pj_agent (projection (caught_up s)) id = Some b) in Hb.
  destruct (agent_known _ _ _ Hs Hb) as [Hid Hk].
  assert (same_agent (as_meta a) (as_meta b)) as Hsame' by by eapply same_agent_trans.
  assert (as_id a = id) as Hida by (destruct Hsame' as [H _]; change (as_id a = as_id b) in H; congruence).
  eapply (ok_record_lagging _ _ None (Some (ORecovery id)) _ _ _ _ _ b); [done|by apply inv_weaken|by rewrite Hida| | |by auto].
  - apply plain_moves; [done|by rewrite Hst|congruence|done|].
    intros Hc. rewrite Hc in Hlife. by destruct t.
  - left. rewrite Hida. eapply idle_own_recovery; [by apply inv_weaken|done..].
Qed.

Lemma ok_recovery_catch id r failure s : Inv None s → jm_get (recoveries s) id = Some r → r_phase r ≠ RDone →
  ok None (recovery_catch options w id r failure) s (λ _, Inv None).
Proof using Type.
  intros HI Hr Hph. destruct (live_recovery _ _ _ HI Hr Hph) as (a & Hrec).
  unfold recovery_catch. apply ok_bind, (ok_try_catch None _ _ _ None).
  - apply ok_bind, ok_require; [done|]. cbv zeta. intros b HI' Hs Hb. apply ok_bind.
    assert (recovering (caught_up s) id (r_previous r) a) as Hrec' by by destruct Hrec.
    pose proof (rc_previous _ _ _ _ Hrec) as Hprev.
    eapply ok_recovery_record; [done|exact Hrec'|by destruct (cancelling b)|by destruct (cancelling b)| |done|].
    + destruct (cancelling b); [done|]. rewrite !elem_of_cons elem_of_nil in Hprev. by destruct Hprev as [->|[->|]].
    + intros s' HI2. apply ok_ret. by apply ok_recovery_failed.
  - intros e s' HI'. apply ok_ret. apply ok_recovery_failed. by apply inv_weaken.
Qed.

(** Another live phase of the same recovery. *)
Lemma ok_recovery_live y id p r s : Inv y s → y ≠ Some (ORecovery id) → jm_get (recoveries s) id = Some r →
  r_phase r ≠ RDone → p ≠ RDone → ok y (set_recovery_phase id p) s (λ _, Inv y).
Proof using Type.
  intros HI Hy Hr Hph Hp. apply (ok_recovery_phase y y); [done..|]. intros r' Hr' _. simplify_eq.
  pose proof (inv_recoveries _ _ HI id r Hr Hy) as Hok. unfold recovery_ok in *. simpl.
  destruct (r_phase r), p; try done; exact Hok.
Qed.
Lemma prepare_called_inv id s : Inv None s → ok None (prepare_called id) s (λ _, Inv None).
Proof using Type.
  intros HI. unfold prepare_called. apply ok_bind, ok_get.
  destruct (jm_get (recoveries s) id) as [r|] eqn:Hr; [|by apply ok_ret].
  destruct (r_phase r) eqn:Hph; try by apply ok_ret. eapply ok_recovery_live; [done|done|exact Hr|by rewrite Hph|done].
Qed.

(** A method that does not touch the recoveries, and one that does not if it throws. *)
Definition keeps_recoveries (s s' : Runtime) : Prop := recoveries s' = recoveries s.
#[local] Instance keeps_recoveries_preorder : PreOrder keeps_recoveries.
Proof using Type. split; unfold keeps_recoveries; congruence. Qed.
Lemma keeps_reads {A} (m : AM A) : respects reads m → ∀ s, log_ok s → recoveries (m s).2 = recoveries s.
Proof using Type. intros Hm s Hl. by destruct (Hm s Hl) as [->| ->]. Qed.
Lemma keeps_sync : respects keeps_recoveries (sync options).
Proof using Type.
  unfold sync. respects_tac. unfold sync_step. respects_tac; try by intros ?.
  intros s. unfold focus. by destruct (sync_row _ _ _ _).
Qed.
#[local] Hint Resolve keeps_sync : xio.
Lemma keeps_record a t ref : respects keeps_recoveries (record_ref options w a t ref).
Proof using Type.
  unfold record_ref, append, journal_row, assertOpen. respects_tac; by intros ?.
Qed.
#[local] Hint Resolve keeps_record : xio.
Lemma keeps_require id : respects keeps_recoveries (require options id).
Proof using Type. unfold require, get, assertOpen. respects_tac. Qed.
#[local] Hint Resolve keeps_require : xio.
Lemma keeps_commitRestore a seq ws : respects keeps_recoveries (commitRestore options w a seq ws).
Proof using Type. unfold commitRestore, checkpoints, assertRun, assertWorkspace. respects_tac. Qed.
Lemma bind_throws id r p s e s' : bind_prepared options w id r p s = (Throw e, s') → recoveries s' = recoveries s.
Proof using Type.
  unfold bind_prepared. pose proof (keeps_require id s) as H1. unfold mbind at 1, ST_bind at 1.
  destruct (require options id s) as [[a|e'] s1]; [|by intros [= <- <-]]. simpl in H1.
  destruct (cancelling a); [done|]. destruct p as [p|].
  - pose proof (keeps_commitRestore a (pp_seq p) (pp_workspace p) s1) as H2. unfold mbind, ST_bind.
    destruct (commitRestore _ _ _ _ _ s1) as [[?|?] s2]; [done|]. intros [= <- <-]. by rewrite -H1.
  - unfold record. pose proof (keeps_record (r_previous r) tr_recovery_abandoned None s1) as H2. unfold mbind, ST_bind.
    destruct (record_ref _ _ _ _ _ s1) as [[?|?] s2]; [done|]. intros [= <- <-]. by rewrite -H1.
Qed.

Lemma ok_bind_prepared id r p s : (Z.of_nat (length (journal s)) ≤ MAX_SAFE_INTEGER)%Z →
  Inv None s → jm_get (recoveries s) id = Some r → r_phase r ≠ RDone →
  ok None (bind_prepared options w id r p) s (λ _, Inv None).
Proof using Type.
  intros Hmax HI Hr Hlive. destruct (live_recovery _ _ _ HI Hr Hlive) as (a & Hrec). unfold bind_prepared.
  apply ok_bind, ok_require; [done|]. cbv zeta. intros b HI' Hs Hb.
  assert (recovering (caught_up s) id (r_previous r) a) as Hrec' by by destruct Hrec.
  assert (b = a) as -> by (destruct Hrec' as [Ha _ _ _ _]; congruence).
  destruct (cancelling a); [by eapply ok_recovery_live; [done|done|exact Hr|done|done]|].
  destruct p as [p|]; apply ok_bind.
  - destruct (agent_known _ _ _ Hs Hb) as [Hid Hk].
    eapply (ok_commitRestore _ _ None (Some (ORecovery id))); [done|by apply inv_weaken|done|done|exact Hk| | |].
    + rewrite (rc_status _ _ _ _ Hrec). set_solver.
    + rewrite Hid. eapply idle_own_recovery; [by apply inv_weaken|done|done|by apply Hrec].
    + intros a' s' HI2 _ _ _. by apply ok_recovery_done.
  - eapply ok_recovery_record; [done|exact Hrec'|done|done| |done|].
    + pose proof (rc_previous _ _ _ _ Hrec) as Hprev. rewrite !elem_of_cons elem_of_nil in Hprev.
      by destruct Hprev as [->|[->|]].
    + intros s' HI2. by apply ok_recovery_done.
Qed.
Lemma prepared_inv id answer s : (Z.of_nat (length (journal s)) ≤ MAX_SAFE_INTEGER)%Z →
  Inv None s → ok None (prepared options w id answer) s (λ _, Inv None).
Proof using Type.
  intros Hmax HI. unfold prepared. apply ok_bind, ok_get.
  destruct (jm_get (recoveries s) id) as [r|] eqn:Hr; [|by apply ok_ret].
  destruct (r_phase r) eqn:Hph; try by apply ok_ret. assert (r_phase r ≠ RDone) as Hlive by by rewrite Hph.
  destruct answer as [p|e]; [|by apply ok_recovery_catch].
  pose proof (ok_bind_prepared id r p s Hmax HI Hr Hlive) as Hok. apply ok_bind. unfold ok, attempt in *.
  destruct (bind_prepared options w id r p s) as [[[]|e] s'] eqn:Hrun; [done|].
  pose proof (bind_throws _ _ _ _ _ _ Hrun) as Hrecs. rewrite -Hrecs in Hr.
  destruct (match p with Some p => pp_discard p | None => false end).
  - by apply (ok_recovery_live None id (RCleaning "binding failed") r).
  - by apply ok_recovery_catch.
Qed.
Lemma recovery_cancelled_throws id r s e s' :
  recovery_cancelled options w id r s = (Throw e, s') → recoveries s' = recoveries s.
Proof using Type.
  unfold recovery_cancelled, record.
  set (a := with_error None _) || set (a := move _ _ _ _). pose proof (keeps_record a tr_recovery_interrupted None s) as H.
  unfold mbind, ST_bind. destruct (record_ref _ _ _ _ _ s) as [[?|?] s2]; [done|]. by intros [= <- <-].
Qed.
Lemma discarded_inv id answer s : Inv None s → ok None (discarded options w id answer) s (λ _, Inv None).
Proof using Type.
  intros HI. unfold discarded. apply ok_bind, ok_get.
  destruct (jm_get (recoveries s) id) as [r|] eqn:Hr; [|by apply ok_ret].
  assert (Hcatch : ∀ e, r_phase r ≠ RDone → ok None (recovery_catch options w id r e) s (λ _, Inv None)).
  { intros e Hlive. by apply ok_recovery_catch. }
  destruct (r_phase r) eqn:Hph; try by apply ok_ret.
  2: by apply Hcatch.
  destruct answer as [[]|e]; [|by apply Hcatch].
  assert (r_phase r ≠ RDone) as Hlive by by rewrite Hph. clear Hcatch.
  destruct (live_recovery _ _ _ HI Hr Hlive) as (a & Hrec).
  pose proof (recovery_cancelled_throws id r s) as Hthrows.
  assert (ok None (recovery_cancelled options w id r) s (λ _, Inv None)) as Hok.
  { unfold recovery_cancelled. apply ok_bind. eapply ok_recovery_record; [done|exact Hrec|done|done|done|done|].
    intros s' HI'. by apply ok_recovery_done. }
  unfold ok, try_catch in *. destruct (recovery_cancelled options w id r s) as [[[]|e] s'] eqn:Hrun; [done|].
  apply (ok_recovery_catch id r); [done| |done]. by rewrite (Hthrows _ _ eq_refl).
Qed.
Lemma recovery_finally_inv id s : Inv None s → ok None (recovery_finally id) s (λ _, Inv None).
Proof using Type.
  intros HI. unfold recovery_finally. apply ok_bind, ok_get.
  destruct (jm_get (recoveries s) id) as [r|] eqn:Hr; [|by apply ok_ret].
  destruct (r_phase r); try by apply ok_ret. apply ok_modify. by apply inv_delete_recovery.
Qed.

(** ** Barriers, selections, the end *)

Ltac framed HI := eapply inv_frame; [..|exact HI]; simpl; lia || done.

Lemma barrier_finally_inv root s : Inv None s → ok None (barrier_finally options root) s (λ _, Inv None).
Proof using Type.
  intros HI. unfold barrier_finally. apply ok_bind, ok_get.
  destruct (jm_get (interruptions s) root) as [b|]; [|by apply ok_ret].
  apply ok_when; intros _; [|done].
  apply ok_bind, ok_reader; [done|apply reads_attempt; auto with xio|]. intros o s' _ HI' _. apply ok_bind.
  apply ok_when; intros _; [apply ok_modify|]; apply ok_modify; framed HI'.
Qed.
Lemma selection_answered_inv t answer s : Inv None s → ok None (selection_answered t answer) s (λ _, Inv None).
Proof using Type.
  intros HI. unfold selection_answered. apply ok_bind, ok_get. destruct (List.find _ (selections s)); [|by apply ok_ret].
  apply ok_bind, ok_when; intros _; [apply ok_modify|]; apply ok_modify; framed HI.
Qed.
Lemma ok_settle_agent id s : Inv None s → ok None (settle_agent options w id) s (λ _, Inv None).
Proof using Type.
  intros HI. unfold settle_agent. first_require a Ha. destruct (agent_known _ _ _ Hs Ha) as [Hid Hk].
  case_bool_decide as Hst; [|destruct (status_in a _)].
  - apply ok_bind, (ok_attempt None _ _ None).
    + unfold record. apply (ok_record _ _ _ None _ _ _ _ _ a); [done|done|done|exact Hk| | |].
      * apply plain_moves; try done. by rewrite Hst.
      * left. eapply idle_status; [done|exact Hk|by rewrite Hst].
      * intros s' HI' _ _. by apply ok_bind, ok_when; intros ?; [|apply ok_ret].
    + intros e s' HI'. apply ok_bind, ok_when; intros _; [apply ok_modify|]; apply ok_ret; framed HI'.
  - apply ok_bind, (ok_attempt None _ _ None).
    + eapply ok_mono; [by apply interruptScope_inv|]. intros t s' HI'. by apply ok_ret.
    + intros e s' HI'. apply ok_bind, ok_modify, ok_ret. framed HI'.
  - by apply ok_ret.
Qed.
Lemma settle_shutdown_inv s : Inv None s → ok None (settle_shutdown options w) s (λ _, Inv None).
Proof using Type.
  intros HI. unfold settle_shutdown. apply ok_bind, ok_get.
  destruct (shutdownPromise s) as [d|]; [|by apply ok_ret]. destruct (s_phase d) as [pending|pending|]; [|by apply ok_ret..].
  apply ok_bind, (ok_attempt None _ _ None).
  - apply ok_bind, ok_reader; [done|auto with xio|]. intros [] s1 _ HI1 _.
    apply ok_bind, ok_reader; [done|auto with xio|]. intros [] s2 _ HI2 _. apply ok_bind, ok_get.
    apply (ok_fold_each None (λ _, Inv None)); [|done|].
    + intros ts id s3 HI3. apply ok_bind. eapply ok_mono; [by apply ok_settle_agent|]. intros ts' s4 HI4. by apply ok_ret.
    + intros ts s3 HI3. apply ok_modify. framed HI3.
  - intros e s' HI'. apply ok_modify. framed HI'.
Qed.
Lemma shutdown_finish_inv s : Inv None s → ok None shutdown_finish s (λ _, Inv None).
Proof using Type.
  intros HI. unfold shutdown_finish. apply ok_bind, ok_get.
  destruct (shutdownPromise s) as [d|]; [|by apply ok_ret]. destruct (s_phase d) as [pending|pending|]; [by apply ok_ret| |by apply ok_ret].
  apply ok_when; intros _; [|done]. apply ok_bind, ok_modify, ok_modify. framed HI.
Qed.
Lemma drain_inv s : Inv None s → ok None drain s (λ _, Inv None).
Proof using Type.
  intros HI. unfold drain. opening. apply ok_bind, ok_gets. destruct (draining s); [by apply ok_ret|].
  unfold fresh_ticket. apply ok_bind, ok_bind, ok_gets, ok_bind, ok_modify, ok_ret, ok_bind, ok_modify, ok_ret. framed HI.
Qed.
Lemma close_inv s : Inv None s → ok None close s (λ _, Inv None).
Proof using Type.
  intros HI. unfold close. apply ok_bind, ok_get. destruct (closed s); [by apply ok_ret|].
  do 5 (check; intros _). apply ok_modify. framed HI.
Qed.
Lemma shutdown_inv s : Inv None s → ok None shutdown s (λ _, Inv None).
Proof using Type.
  intros HI. unfold shutdown. apply ok_bind, ok_get. destruct (shutdownPromise s); [by apply ok_ret|].
  destruct (closed s); [by apply ok_ret|]. apply ok_bind, ok_modify, ok_modify. framed HI.
Qed.

(** ** The drain *)

(** No quantum is before its first check or after its last row. *)
Definition quiet_quanta (s : Runtime) : bool :=
  forallb (λ q, match q_phase q with QNew | QDone => false | _ => true end) (active s).
Definition quiet_sig (g : nat * string * QuantumPhase) : bool :=
  match g.2 with QNew | QDone => false | _ => true end.
Lemma quiet_quanta_map s : quiet_quanta s = forallb quiet_sig (map quantum_sig (active s)).
Proof using Type. unfold quiet_quanta. induction (active s) as [|q l IH]; simpl; [done|]. by rewrite IH. Qed.

Lemma inv_launch id s : Inv None s → (∀ q, q ∈ active s → q_agent q ≠ id) →
  ok None (launch id) s (λ _ s', Inv None s' ∧ ∀ q, q ∈ active s' → q ∈ active s ∨ q_agent q = id).
Proof using Type.
  intros [H1 H2 H3 H4 H5 H6] Hno. unfold launch, fresh_ticket.
  apply ok_bind, ok_bind, ok_gets, ok_bind, ok_modify, ok_ret, ok_modify. split.
  - constructor; simpl; try done.
    + rewrite map_app. apply NoDup_snoc; [done|]. intros (q & Ht & Hin)%list_elem_of_In%in_map_iff.
      simpl in Ht. apply list_elem_of_In, H3 in Hin. lia.
    + intros q [Hin| ->%list_elem_of_singleton]%elem_of_app; [specialize (H3 q Hin); lia|simpl; lia].
    + intros q [Hin| ->%list_elem_of_singleton]%elem_of_app; rewrite jm_get_set; simpl.
      * rewrite decide_False; [by apply H4|]. intros Heq. by apply (Hno q Hin).
      * by rewrite decide_True.
    + intros q [Hin| ->%list_elem_of_singleton]%elem_of_app Ho; [by apply H5|done].
  - intros q. simpl. intros [Hin| ->%list_elem_of_singleton]%elem_of_app; [by left|by right].
Qed.
Lemma ok_launch_all (l : list (string * (Z * AgentState))) : ∀ s (Q : unit → Runtime → Prop), Inv None s →
  NoDup (map (λ e, as_id e.2.2) l) → (∀ e q, e ∈ l → q ∈ active s → q_agent q ≠ as_id e.2.2) →
  (∀ s', Inv None s' → Q tt s') → ok None (for_each l (λ e, launch (as_id e.2.2))) s Q.
Proof using Type.
  induction l as [|e l IH]; intros s Q HI Hnd Hno HQ; simpl; [by apply HQ|].
  simpl in Hnd. inversion Hnd as [|? ? He Hnd']; subst. apply ok_bind.
  eapply ok_mono; [apply inv_launch; [done|intros q Hq; apply (Hno e q); set_solver]|].
  intros [] s1 (HI1 & Hin1). apply IH; [done|done| |done].
  intros e' q He' Hq. destruct (Hin1 q Hq) as [Hold|Hag]; [apply Hno; [set_solver|done]|].
  rewrite Hag. intros Heq. apply He. rewrite Heq. apply list_elem_of_In, in_map_iff. exists e'. split; [done|].
  by apply list_elem_of_In.
Qed.

Lemma elem_of_ready s e : e ∈ ready_agents s → e ∈ pj_states (projection s) ∧ as_status e.2.2 = ag_ready.
Proof using Type.
  unfold ready_agents. rewrite (merge_sort_Permutation older) list_elem_of_In filter_In -list_elem_of_In.
  by rewrite bool_decide_eq_true.
Qed.
Lemma ready_NoDup s n : synced s → NoDup (map (λ e, as_id e.2.2) (take n (ready_agents s))).
Proof using Type.
  intros Hs. destruct (history_well_formed _ _ Hs) as [Hwf _]. destruct (wf_family _ Hwf) as [Hok Hid _].
  assert (NoDup (map (λ e, as_id e.2.2) (ready_agents s))) as Hnd.
  { unfold ready_agents. rewrite (merge_sort_Permutation older). unfold jm_ok in Hok.
    induction Hid as [|e l He Hl IH]; simpl; [constructor|]. inversion Hok as [|? ? Hno Hok']; subst.
    destruct (bool_decide _); [|by apply IH]. simpl. constructor; [|by apply IH].
    rewrite He. intros (e' & He' & [Hin _]%filter_In)%list_elem_of_In%in_map_iff. apply Hno.
    apply list_elem_of_In in Hin. rewrite -He' (proj1 (Forall_forall _ _) Hl e' Hin). apply list_elem_of_fmap. by exists e'. }
  rewrite -firstn_map. eapply sublist_NoDup; [exact Hnd|]. apply sublist_take.
Qed.

Lemma ok_set_drain_phase p s : Inv None s → ok None (set_drain_phase p) s (λ _, Inv None).
Proof using Type. intros HI. apply ok_modify. framed HI. Qed.
Lemma ok_drain_round s : Inv None s → quiet_quanta s = true → ok None (drain_round options w) s (λ _, Inv None).
Proof using Type.
  intros HI Hq. unfold drain_round. apply ok_bind. unfold ok at 1. rewrite (proj1 (sync_run options s (inv_log _ _ HI))).
  apply ok_bind, ok_reconcileScopes; [by apply inv_caught_up|]. intros s1 HI1 Hs1 [(Hsig & _) _] _.
  rewrite quiet_quanta_map in Hq. change (active s) with (active (caught_up s)) in Hq.
  rewrite -Hsig -quiet_quanta_map in Hq. clear Hsig. apply ok_bind, ok_get.
  assert (∀ n, NoDup (map (λ e : string * (Z * AgentState), as_id e.2.2) (take n (if stopping s1 then [] else ready_agents s1)))) as Hnd.
  { intros n. destruct (stopping s1); [rewrite take_nil; constructor|by apply ready_NoDup]. }
  apply ok_bind, ok_launch_all; [done|done| |].
  - intros e q He Hin Hag. destruct (stopping s1); [by rewrite take_nil in He; set_solver|].
    apply elem_of_take in He as (i & He%list_elem_of_lookup_2 & _). apply elem_of_ready in He as [He Hst].
    destruct (history_well_formed _ _ Hs1) as [Hwf _]. destruct e as [k [n a]]. simpl in *.
    assert (pj_agent (projection s1) k = Some a) as Ha by (apply pj_agent_get; exists n; apply jm_in_get; [apply Hwf|done]).
    pose proof (agent_id _ (wf_family _ Hwf) _ _ Ha) as Hid. rewrite Hid in Hag. subst k.
    unfold quiet_quanta in Hq. rewrite forallb_forall in Hq. specialize (Hq q (proj1 (list_elem_of_In _ _) Hin)).
    rewrite -Hag in Ha. destruct (phase_status _ _ HI1 q a Hin) as [H|[H|[H|H]]]; [done|done|by rewrite H in Hq..|congruence|congruence].
  - intros s2 HI2. apply ok_bind, ok_get. destruct (is_nil (active s2)); [|by apply ok_set_drain_phase].
    apply ok_bind, (ok_fold_each None (λ _, Inv None)); [|done|].
    + intros ts e s3 HI3. apply ok_bind, ok_reader; [done|auto with xio|]. intros a s4 _ HI4 _. by apply ok_ret.
    + intros cancelled s3 HI3. destruct (is_nil cancelled); [apply ok_modify; framed HI3|by apply ok_set_drain_phase].
Qed.
Lemma drain_step_inv s : Inv None s → quiet_quanta s = true → ok None (drain_step options w) s (λ _, Inv None).
Proof using Type.
  intros HI Hq. unfold drain_step. apply ok_bind, ok_get. destruct (draining s) as [d|]; [|by apply ok_ret].
  destruct (drain_awake s (d_phase d)); [|by apply ok_ret].
  destruct (drain_failed s (d_phase d)); [by apply ok_set_drain_phase|].
  apply (ok_try_catch None _ _ _ None); [by apply ok_drain_round|]. intros e s' HI'. by apply ok_set_drain_phase.
Qed.
Lemma drain_reject_inv s : Inv None s → ok None drain_reject s (λ _, Inv None).
Proof using Type.
  intros HI. unfold drain_reject. apply ok_bind, ok_get. destruct (draining s) as [d|]; [|by apply ok_ret].
  destruct (d_phase d); try by apply ok_ret. apply ok_when; intros _; [|done]. apply ok_modify. framed HI.
Qed.
End Steps.
