(* ===== verification/AgentRuntimeJournal.v ===== *)
(** * AgentRuntimeJournal: the runtime only appends, and dispatches what it has recorded

    [grows]: the journal of a later state extends that of an earlier one, and the calls
    of [step] in between are among the [step_started] rows it added, in their order.
    In a history those rows are all different ([dispatches_NoDup]). *)

From S2P Require Import Prelude Types Events Agents AgentsSpec AgentRuntime AgentRuntimeInv.

Definition dispatch_of (row : AgentRow) : option AgentMeta :=
  match row with RowState (PayloadV2 tr_step_started m _ _ _) => Some m | _ => None end.
Definition dispatches (rows : list AgentRow) : list AgentMeta := omap dispatch_of rows.

(** Agents stay known, and the scopes to reconcile are those of known agents. *)
Definition knows (pj pj' : Projection) : Prop := ∀ id, is_Some (pj_agent pj id) → is_Some (pj_agent pj' id).
Definition keyed (pj : Projection) : Prop := ∀ id a, pj_agent pj id = Some a → as_id a = id.
Definition dirty_known (s : Runtime) : Prop :=
  keyed (projection s) ∧ Forall (λ id, is_Some (pj_agent (projection s) id)) (dirtyScopes s).
#[export] Instance knows_preorder : PreOrder knows.
Proof. split; unfold knows; eauto. Qed.
Lemma dirty_known_sub d s : dirty_known s → Forall (λ id, is_Some (pj_agent (projection s) id)) d →
  dirty_known (set_dirtyScopes d s).
Proof. by intros [Hk _] Hd. Qed.

Definition tracks (s s' : Runtime) : Prop :=
  knows (projection s) (projection s') ∧ (dirty_known s → dirty_known s').
#[export] Instance tracks_preorder : PreOrder tracks.
Proof.
  split; [by split|]. intros s1 s2 s3 [Hk1 Hd1] [Hk2 Hd2]. split; [by etransitivity|auto].
Qed.
Lemma tracks_same s s' : projection s' = projection s → dirtyScopes s' = dirtyScopes s → tracks s s'.
Proof. unfold tracks, dirty_known, knows. by intros -> ->. Qed.

(** What one row makes known. *)
Lemma root_from_known pj fuel : ∀ a r, keyed pj → pj_agent pj (as_id a) = Some a →
  root_from fuel pj a = Ok r → is_Some (pj_agent pj r).
Proof.
  induction fuel as [|fuel IH]; intros a r Hk Ha; simpl; [done|].
  destruct (as_parentId a) as [p|]; [|by intros [= <-]; eexists].
  destruct (pj_agent pj p) as [b|] eqn:Hp; [|done]. apply IH; [done|]. by rewrite (Hk p b Hp).
Qed.
Lemma pj_agent_set pj seq a id :
  pj_agent (pj_set_states (jm_set (pj_states pj) (as_id a) (seq, a)) pj) id
  = if decide (as_id a = id) then Some a else pj_agent pj id.
Proof. unfold pj_agent. simpl. rewrite jm_get_set. by case_decide. Qed.
Lemma project_state_knows b j seq p pj o pj' : project_state b j seq p pj = (o, pj') →
  knows pj pj' ∧ (keyed pj → keyed pj') ∧ ∀ r, o = Ok r → keyed pj → is_Some (pj_agent pj' r).
Proof.
  unfold project_state. rewrite run_gets run_lift. destruct (projectAgentEvent _ _ _ _) as [a|e]; [|by intros [= <- <-]].
  rewrite !run_modify. set (pj1 := pj_set_states _ _). intros Hrun.
  assert (Hag : ∀ id, pj_agent pj1 id = if decide (as_id a = id) then Some a else pj_agent pj id) 
    by (intros id; exact (pj_agent_set (pj_set_runs _ pj) seq a id)).
  assert (∀ pj2, pj_states pj2 = pj_states pj1 → knows pj pj2 ∧ (keyed pj → keyed pj2)
    ∧ ∀ r, root_of pj2 a = Ok r → keyed pj → is_Some (pj_agent pj2 r)) as H.
  { intros pj2 Hst. assert (Hag2 : ∀ id, pj_agent pj2 id = if decide (as_id a = id) then Some a else pj_agent pj id).
    { intros id. rewrite -Hag. unfold pj_agent. by rewrite Hst. }
    assert (keyed pj → keyed pj2) as Hkey.
    { intros Hk id c. rewrite Hag2. case_decide as Hid; [by intros [= <-]|]. by apply Hk. }
    split_and!; [|done|].
    - intros id Hid. rewrite Hag2. by case_decide.
    - intros r Hr Hk. eapply root_from_known; [by apply Hkey| |exact Hr]. by rewrite Hag2 decide_True. }
  destruct (pj_agent pj (am_id (payload_meta p))), (as_parentId a); rewrite ?run_modify ?run_ret run_gets in Hrun;
    injection Hrun as <- <-; by apply H.
Qed.
Definition same_states (pj pj' : Projection) : Prop := pj_states pj' = pj_states pj.
#[export] Instance same_states_preorder : PreOrder same_states.
Proof. split; [done|]. unfold same_states. congruence. Qed.
Lemma same_states_knows pj pj' : same_states pj pj' → knows pj pj' ∧ (keyed pj → keyed pj').
Proof. unfold same_states, knows, keyed, pj_agent. by intros ->. Qed.
Lemma sync_row_knows b j row pj o pj' : sync_row b j row pj = (o, pj') →
  knows pj pj' ∧ (keyed pj → keyed pj') ∧ ∀ r, o = Ok (Some r) → keyed pj → is_Some (pj_agent pj' r).
Proof.
  assert (Hb : ∀ v run bd, respects same_states (project_budget v run bd)).
  { intros. unfold project_budget. respects_tac; by apply respects_modify. }
  assert (Ho : ∀ op id, respects same_states (project_operation op id)).
  { intros. unfold project_operation. respects_tac; by apply respects_modify. }
  unfold sync_row. rewrite run_gets. destruct row as [p|v run bd|op id|]; intros Hrun.
  - unfold mbind, ST_bind in Hrun. destruct (project_state _ _ _ _ pj) as [[r|e] pj1] eqn:E.
    + injection Hrun as <- <-. destruct (project_state_knows _ _ _ _ _ _ _ E) as (H1 & H2 & H3).
      split_and!; [exact H1|exact H2|]. intros r' [= <-] Hk. by apply (H3 r).
    + injection Hrun as <- <-. by destruct (project_state_knows _ _ _ _ _ _ _ E) as (H1 & H2 & H3).
  - specialize (Hb v run bd pj). unfold mbind, ST_bind in Hrun.
    destruct (project_budget _ _ _ pj) as [[[]|e] pj1]; injection Hrun as <- <-; apply same_states_knows in Hb as [H1 H2];
      split_and!; [exact H1|exact H2|done..].
  - specialize (Ho op id pj). unfold mbind, ST_bind in Hrun.
    destruct (project_operation _ _ pj) as [[[]|e] pj1]; injection Hrun as <- <-; apply same_states_knows in Ho as [H1 H2];
      split_and!; [exact H1|exact H2|done..].
  - injection Hrun as <- <-. split_and!; [intros id H; exact H|by intros H|done].
Qed.

Definition grows (s s' : Runtime) : Prop :=
  tracks s s' ∧
  ∃ rows new, journal s' = journal s ++ rows ∧ map as_meta (stepped s') = map as_meta (stepped s) ++ new
    ∧ new `sublist_of` dispatches rows.
#[export] Instance grows_preorder : PreOrder grows.
Proof.
  split.
  - intros s. split; [done|]. exists [], []. by rewrite !app_nil_r.
  - intros s1 s2 s3 [Ht1 (r1 & n1 & Hj1 & Hs1 & Hn1)] [Ht2 (r2 & n2 & Hj2 & Hs2 & Hn2)].
    split; [by etransitivity|].
    exists (r1 ++ r2), (n1 ++ n2). rewrite Hj2 Hj1 Hs2 Hs1 -!assoc. split_and!; [done..|].
    unfold dispatches. rewrite omap_app. by apply sublist_app.
Qed.
(** Neither the journal nor the calls. *)
Lemma grows_tracks s s' : tracks s s' → journal s' = journal s → stepped s' = stepped s → grows s s'.
Proof. intros Ht Hj Hs. split; [done|]. exists [], []. by rewrite !app_nil_r Hj Hs. Qed.
Lemma grows_same s s' : journal s' = journal s → stepped s' = stepped s →
  projection s' = projection s → dirtyScopes s' = dirtyScopes s → grows s s'.
Proof. intros. apply grows_tracks; [by apply tracks_same|done..]. Qed.
Ltac growing := respects_tac; try (apply respects_modify; intros ?; by apply grows_same).

Section Growing.
Context (options : AgentRuntimeOptions) (w : World).

Lemma grows_ticket : respects grows fresh_ticket.
Proof using Type. unfold fresh_ticket. growing. Qed.
Lemma grows_sync_step : respects grows (sync_step options).
Proof using Type.
  intros s. unfold sync_step. rewrite run_gets. destruct (journal s !! _) as [row|]; [|by apply grows_same].
  unfold mbind, ST_bind, focus. destruct (sync_row _ _ _ (projection s)) as [o pj] eqn:E.
  destruct (sync_row_knows _ _ _ _ _ _ E) as (H1 & H2 & H3).
  assert (Hmv : dirty_known s → Forall (λ id, is_Some (pj_agent pj id)) (dirtyScopes s)).
  { intros [_ Hd]. eapply Forall_impl; [exact Hd|]. intros id. apply H1. }
  destruct o as [[r|]|e]; apply grows_tracks; try done; split; try exact H1; intros Hd; pose proof (proj1 Hd) as Hk;
    split; try exact (H2 Hk); simpl; auto.
  apply Forall_forall. intros id [Hin| ->]%elem_of_js_add; [|by apply H3].
  by apply (proj1 (Forall_forall _ _) (Hmv Hd)).
Qed.
Lemma grows_sync : respects grows (sync options).
Proof using Type. pose proof grows_sync_step. unfold sync. growing. Qed.
#[local] Hint Resolve grows_ticket grows_sync : xio.
Lemma grows_assertOpen : respects grows assertOpen.
Proof using Type. unfold assertOpen. growing. Qed.
#[local] Hint Resolve grows_assertOpen : xio.
Lemma grows_assertAccepting : respects grows assertAccepting.
Proof using Type. unfold assertAccepting. growing. Qed.
Lemma grows_require id : respects grows (require options id).
Proof using Type. unfold require, get. growing. Qed.
#[local] Hint Resolve grows_require grows_assertAccepting : xio.
Lemma grows_journal_row row : respects grows (journal_row w row).
Proof using Type.
  unfold journal_row. growing. apply respects_modify. intros s. split; [by apply tracks_same|]. exists [row], []. rewrite app_nil_r.
  split_and!; [done..|]. apply sublist_nil_l.
Qed.
#[local] Hint Resolve grows_journal_row : xio.
Lemma grows_append a t ref : respects grows (append w a t ref).
Proof using Type. unfold append. growing. Qed.
#[local] Hint Resolve grows_append : xio.
Lemma grows_record a t ref : respects grows (record_ref options w a t ref).
Proof using Type. unfold record_ref. growing. Qed.
#[local] Hint Resolve grows_record : xio.
Lemma grows_ensureRunBudget run : respects grows (ensureRunBudget options w run).
Proof using Type. unfold ensureRunBudget, run_usage. growing. Qed.
Lemma grows_assertRun run : respects grows (assertRun w run).
Proof using Type. unfold assertRun. growing. Qed.
Lemma grows_assertWorkspace ws run id : respects grows (assertWorkspace w ws run id).
Proof using Type. unfold assertWorkspace. growing. Qed.
Lemma grows_scope_open fuel restoring id : ∀ a, respects grows (scope_open_from options fuel restoring id a).
Proof using Type. induction fuel as [|fuel IH]; intros a; simpl; growing. Qed.
#[local] Hint Resolve grows_ensureRunBudget grows_assertRun grows_assertWorkspace grows_scope_open : xio.
Lemma grows_assertScopeOpen a restoring : respects grows (assertScopeOpen options a restoring).
Proof using Type. unfold assertScopeOpen. growing. Qed.
#[local] Hint Resolve grows_assertScopeOpen : xio.
Lemma grows_checkpoints id : respects grows (checkpoints options id).
Proof using Type. unfold checkpoints. growing. Qed.
#[local] Hint Resolve grows_checkpoints : xio.
Lemma grows_attempt {A} (m : AM A) : respects grows m → respects grows (attempt m).
Proof using Type. intros Hm s. unfold attempt. specialize (Hm s). by destruct (m s). Qed.
Lemma grows_ignore {A} (m : AM A) : respects grows m → respects grows (ignore m).
Proof using Type. intros Hm s. apply Hm. Qed.

(** A transaction that is rolled back leaves the journal as it was. *)
Lemma grows_transaction members : respects grows (in_transaction (for_each members (cancel_member w))).
Proof using Type.
  set (R s s' := (stepped s' = stepped s ∧ projection s' = projection s ∧ dirtyScopes s' = dirtyScopes s) ∧ grows s s').
  assert (respects R (for_each members (cancel_member w))) as H.
  { assert (PreOrder R) as HP.
    { split; [intros s; by split|]. intros s1 s2 s3 [(H1&H2&H3) H4] [(H5&H6&H7) H8].
      split; [by rewrite H5 H6 H7|by etransitivity]. }
    assert (∀ row, respects R (journal_row w row)) as Hrow.
    { intros row s. split; [|apply grows_journal_row]. unfold journal_row. rewrite run_throw_if. by destruct (w_fenced w). }
    unfold cancel_member, append. respects_tac; apply Hrow. }
  intros s. unfold in_transaction. specialize (H s). destruct (for_each _ _ s) as [[[]|e] s']; [apply H|].
  destruct H as [(? & ? & ?) _]. by apply grows_same.
Qed.
#[local] Hint Resolve grows_transaction : xio.
Lemma grows_cancelScope id : respects grows (cancelScope options w id).
Proof using Type. unfold cancelScope, abort_member. growing. Qed.
#[local] Hint Resolve grows_cancelScope : xio.
Lemma grows_reconcile_scope id : respects grows (reconcile_scope options w id).
Proof using Type. unfold reconcile_scope, settle_waiting, record. growing. Qed.
#[local] Hint Resolve grows_reconcile_scope : xio.
Lemma grows_reconcile_from fuel : respects grows (reconcile_from options w fuel).
Proof using Type.
  induction fuel as [|fuel IH]; simpl; [growing|]. intros s. rewrite run_gets.
  destruct (dirtyScopes s) as [|id dirty] eqn:E; [by apply grows_same|]. rewrite run_modify E.
  set (s1 := set_dirtyScopes _ s).
  assert (grows s s1) as H1.
  { apply grows_tracks; [|done..]. split; [done|]. intros Hd. apply dirty_known_sub; [done|].
    apply Forall_forall. intros i Hi%elem_of_js_delete. destruct Hd as [_ Hd]. rewrite Forall_forall E in Hd. apply Hd, Hi. }
  pose proof (grows_reconcile_scope id s1) as H2. unfold mbind, ST_bind, try_catch.
  destruct (reconcile_scope _ _ _ s1) as [[[]|e] s2]; simpl in H2 |- *.
  - etransitivity; [exact H1|]. etransitivity; [exact H2|apply IH].
  - assert (grows s s2) as H3 by by etransitivity.
    split; [|by destruct H3 as [_ H3]]. pose proof H3 as [[Hk Hd] _]. split; [done|].
    intros Hs. apply dirty_known_sub; [by apply Hd|]. apply Forall_forall. intros i [Hi| ->]%elem_of_js_add.
    + destruct (Hd Hs) as [_ Hf]. by apply (proj1 (Forall_forall _ _) Hf).
    + apply Hk. destruct Hs as [_ Hs]. rewrite Forall_forall E in Hs. apply Hs. set_solver.
Qed.
#[local] Hint Resolve grows_reconcile_from : xio.
Lemma grows_reconcileScopes : respects grows (reconcileScopes options w).
Proof using Type. unfold reconcileScopes. growing. Qed.
#[local] Hint Resolve grows_reconcileScopes : xio.
Lemma grows_interrupt_root fuel : ∀ a, respects grows (interrupt_root options fuel a).
Proof using Type. induction fuel as [|fuel IH]; intros a; simpl; growing. Qed.
#[local] Hint Resolve grows_interrupt_root : xio.
Lemma grows_interruptScope id : respects grows (interruptScope options w id).
Proof using Type. unfold interruptScope. growing. Qed.
Lemma grows_commitRestore a seq ws : respects grows (commitRestore options w a seq ws).
Proof using Type. unfold commitRestore. growing. Qed.
#[local] Hint Resolve grows_interruptScope grows_commitRestore : xio.

(** ** A step is recorded before it is called *)

Lemma record_writes a t s a' s' : record options w a t s = (Ok a', s') →
  a' = a ∧ stepped s' = stepped s ∧ ∃ i c, journal s' = journal s ++ [appended t a None i c].
Proof using Type.
  unfold record, record_ref, assertOpen. rewrite !run_assoc run_gets run_throw_if. destruct (closed s); [done|].
  destruct (append_cases w a t None s) as [[e Hrun]|(i & c & _ & Hrun)]; [by rewrite (run_bind_Throw _ _ _ _ _ Hrun)|].
  rewrite (run_bind_Ok _ _ _ _ _ Hrun). set (s1 := set_journal _ s).
  assert (respects (λ s s', stepped s' = stepped s ∧ journal s' = journal s) (sync options)) as Hsync.
  { assert (PreOrder (λ s s' : Runtime, stepped s' = stepped s ∧ journal s' = journal s)) as HP.
    { split; [done|]. intros s2 s3 s4 [H1 H2] [H3 H4]. split; congruence. }
    unfold sync, sync_step. respects_tac; try by apply respects_modify.
    intros s2. unfold focus. by destruct (sync_row _ _ _ _). }
  specialize (Hsync s1). intros ([] & s2 & Hs2 & [= <- <-])%bind_Ok_inv. rewrite Hs2 in Hsync. destruct Hsync as [H1 H2].
  split_and!; [done|done|]. by exists i, c.
Qed.
Lemma grows_step_charge a t version : respects grows (step_charge options w a t version).
Proof using Type.
  unfold step_charge, quantum_done, run_usage, record. apply respects_bind; [apply _|growing|]. intros u. destruct (_ <=? _)%Z; [growing|].
  intros s. pose proof (grows_record (move_to ag_running (charged version a)) tr_step_started None s) as Hg.
  pose proof (record_writes (move_to ag_running (charged version a)) tr_step_started s) as Hr. unfold record in Hr.
  unfold mbind, ST_bind. destruct (record_ref _ _ _ _ _ s) as [[a'|e] s1]; [|exact Hg].
  destruct (Hr a' s1 eq_refl) as (-> & Hst & i & c & Hj). simpl. split; [apply Hg|]. eexists _, [_]. simpl. rewrite map_app Hst.
  split_and!; [exact Hj|done|]. simpl. apply sublist_skip, sublist_nil_l.
Qed.
#[local] Hint Resolve grows_step_charge grows_attempt grows_ignore : xio.

(** ** Every handler *)

Lemma grows_quantum_end t : respects grows (quantum_done t) ∧ respects grows (quantum_failed t).
Proof using Type. unfold quantum_failed, quantum_done. split; growing. Qed.
Lemma grows_dispatch id t version verdict : respects grows (dispatch options w id t version verdict).
Proof using Type. unfold dispatch, record. pose proof (grows_quantum_end t) as [? ?]. growing. Qed.
Lemma grows_evidence id a t before answer after : respects grows (evidence options w id a t before answer after).
Proof using Type. unfold evidence. growing. Qed.
#[local] Hint Resolve grows_dispatch grows_evidence : xio.
Lemma grows_advance t before after : respects grows (advance options w t before after).
Proof using Type.
  unfold advance, advance_ready, record. pose proof (grows_quantum_end t) as [? ?]. growing; apply grows_attempt; growing.
Qed.
Lemma grows_validated t answer after : respects grows (validated options w t answer after).
Proof using Type.
  unfold validated. pose proof (grows_quantum_end t) as [? ?]. growing; apply grows_attempt; growing.
Qed.
Lemma grows_reserveCommand a : respects grows (reserveCommand options w a).
Proof using Type. unfold reserveCommand. growing. Qed.
Lemma grows_executeOwnedProcess a opId : respects grows (executeOwnedProcess options w a opId).
Proof using Type. unfold executeOwnedProcess. growing. Qed.
#[local] Hint Resolve grows_reserveCommand grows_executeOwnedProcess : xio.
Lemma grows_settle_command t c run failure : respects grows (settle_command t c run failure).
Proof using Type. unfold settle_command. growing. Qed.
#[local] Hint Resolve grows_settle_command : xio.
Lemma grows_submit_command t opId : respects grows (submit_command options w t opId).
Proof using Type. unfold submit_command. growing; apply grows_attempt; growing. Qed.
Lemma grows_start_command t c : respects grows (start_command options w t c).
Proof using Type. unfold start_command. growing; apply grows_attempt; growing. Qed.
Lemma grows_finish_step t : respects grows (finish_step options w t).
Proof using Type. unfold finish_step, after_step, record. pose proof (grows_quantum_end t) as [? ?]. growing. Qed.
Lemma grows_recovery_phase id p : respects grows (set_recovery_phase id p).
Proof using Type. intros s. unfold set_recovery_phase, modify. simpl. case_match; by apply grows_same. Qed.
#[local] Hint Resolve grows_recovery_phase : xio.
Lemma grows_recovery_catch id r failure : respects grows (recovery_catch options w id r failure).
Proof using Type. unfold recovery_catch, recovery_failed, record. growing. Qed.
Lemma grows_bind_prepared id r p : respects grows (bind_prepared options w id r p).
Proof using Type. unfold bind_prepared, record. growing. Qed.
#[local] Hint Resolve grows_recovery_catch grows_bind_prepared : xio.
Lemma grows_settle_agent id : respects grows (settle_agent options w id).
Proof using Type. unfold settle_agent, record. growing; apply grows_attempt; growing. Qed.
#[local] Hint Resolve grows_settle_agent : xio.
Lemma grows_drain_round : respects grows (drain_round options w).
Proof using Type. unfold drain_round, launch, set_drain_phase. growing. Qed.
#[local] Hint Resolve grows_drain_round : xio.

Lemma grows_handle e : respects grows (handle options w e).
Proof using Type.
  destruct e; simpl; try apply grows_ignore.
  - unfold create, get, check_parent, record. growing.
  - unfold pause, record. growing.
  - apply grows_interruptScope.
  - unfold resume, record. growing.
  - unfold findValidCheckpoint. growing.
  - unfold restoreCheckpoint. growing.
  - unfold recoverCheckpoint, record. growing.
  - unfold drain. growing.
  - unfold close. growing.
  - unfold shutdown. growing.
  - unfold drain_step, set_drain_phase. growing.
  - unfold drain_reject. growing.
  - apply grows_advance.
  - apply grows_validated.
  - apply grows_submit_command.
  - apply grows_start_command.
  - unfold command_answered. growing.
  - unfold step_answered. growing.
  - apply grows_finish_step.
  - unfold quantum_finally. growing. apply respects_modify. intros s. unfold settle_race. repeat case_match; by apply grows_same.
  - unfold prepare_called. growing.
  - unfold prepared. growing.
  - unfold discarded, recovery_cancelled, record. growing.
  - unfold recovery_finally. growing.
  - unfold barrier_finally. growing.
  - unfold selection_answered. growing.
  - unfold settle_shutdown. growing; apply grows_attempt; growing.
  - unfold shutdown_finish. growing.
  - intros s. split; [by apply tracks_same|]. exists [RowOther], []. rewrite app_nil_r. split_and!; [done..|]. apply sublist_nil_l.
  - growing.
Qed.
Lemma grows_open : respects grows (open_runtime options w).
Proof using Type. unfold open_runtime, recover_agent, record. growing. Qed.
End Growing.

(** ** No step is dispatched twice *)

Definition step_key (m : AgentMeta) : string * Z := (am_id m, am_stepsUsed m).
Definition of_run_steps (run : string) (l : list AgentMeta) : Z :=
  Z.of_nat (length (List.filter (λ m, bool_decide (am_runId m = run)) l)).
Lemma dispatches_app l1 l2 : dispatches (l1 ++ l2) = dispatches l1 ++ dispatches l2.
Proof. apply omap_app. Qed.
Lemma of_run_steps_app run l1 l2 : of_run_steps run (l1 ++ l2) = (of_run_steps run l1 + of_run_steps run l2)%Z.
Proof. unfold of_run_steps. rewrite List.filter_app length_app. lia. Qed.

(** A row that is dispatched: what it says of its agent before and after. *)
Lemma dispatch_row j pj row m : admissible j pj row → dispatch_of row = Some m →
  ∃ a, pj_agent pj (am_id m) = Some a ∧ am_stepsUsed m = (as_stepsUsed a + 1)%Z ∧ am_runId m = as_runId a.
Proof.
  intros Hadm Hd. destruct Hadm; try done. destruct t; try done. injection Hd as <-.
  exists a. split_and!; [done..|]. by destruct H0 as (_ & ? & _).
Qed.
(** The steps of an agent never decrease. *)
Lemma steps_grow j pj row id b : well_formed pj → admissible j pj row → pj_agent pj id = Some b →
  ∃ a', pj_agent (apply_row j row pj) id = Some a' ∧ (as_stepsUsed b ≤ as_stepsUsed a')%Z ∧ as_runId a' = as_runId b.
Proof.
  intros Hwf Hadm Hold. invert_row Hadm; try (exists b; split; [exact Hold|by split]); unfold apply_row; rewrite pj_agent_put.
  - destruct (decide (am_id m' = id)) as [Hid|Hid].
    + subst id. by rewrite Hnone in Hold.
    + rewrite decide_False //. exists b. split_and!; [exact Hold|lia|done].
  - destruct (decide (am_id m' = id)) as [Hid|Hid].
    2: { rewrite decide_False //. exists b. split_and!; [exact Hold|lia|done]. }
    subst id. rewrite decide_True //. rewrite Ha in Hold. injection Hold as <-. eexists; split; [done|]. destruct Hsame as (_ & Hrun & _).
    change (as_stepsUsed a ≤ am_stepsUsed m' ∧ am_runId m' = am_runId (as_meta a))%Z. pose proof (charge_nonneg t'). split; [lia|done].
Qed.
Lemma dispatch_after j pj row m : admissible j pj row → dispatch_of row = Some m →
  pj_agent (apply_row j row pj) (am_id m) = Some (row_agent j pj tr_step_started m None None None).
Proof.
  intros Hadm Hd. invert_row Hadm; try done. destruct t'; try done. injection Hd as <-.
  unfold apply_row. rewrite pj_agent_put decide_True //.
  simpl in Href. subst ref'. destruct checkpoint' as [c|]; [|done]. by specialize (proj1 Hc (ex_intro _ c eq_refl)).
Qed.

Lemma history_dispatches j pj : history j pj →
  NoDup (map step_key (dispatches j)) ∧
  ∀ m, m ∈ dispatches j → ∃ a, pj_agent pj (am_id m) = Some a ∧ (am_stepsUsed m ≤ as_stepsUsed a)%Z
    ∧ am_runId m = as_runId a.
Proof.
  induction 1 as [|j pj row Hh [Hnd IH] Hadm]; [split; [constructor|set_solver]|].
  pose proof (history_well_formed _ _ Hh) as [Hwf _].
  assert (Hold : ∀ m, m ∈ dispatches j → ∃ a, pj_agent (apply_row j row pj) (am_id m) = Some a
    ∧ (am_stepsUsed m ≤ as_stepsUsed a)%Z ∧ am_runId m = as_runId a).
  { intros m (a & Ha & Hle & Hrun)%IH. destruct (steps_grow _ _ _ _ _ Hwf Hadm Ha) as (a' & Ha' & Hle' & Hrun').
    exists a'. split_and!; [done|lia|congruence]. }
  rewrite dispatches_app. unfold dispatches at 2 4. simpl. destruct (dispatch_of row) as [m|] eqn:Hd.
  - pose proof (dispatch_row _ _ _ _ Hadm Hd) as (a & Ha & Hsteps & Hrun). split.
    + rewrite map_app. apply NoDup_app. split_and!; [done| |apply NoDup_singleton].
      intros k Hk Hin. apply list_elem_of_singleton in Hin as ->.
      apply list_elem_of_In, in_map_iff in Hk as (m' & [= Hid Hs] & Hm'%list_elem_of_In).
      apply IH in Hm' as (a' & Ha' & Hle & _). rewrite Hid Ha in Ha'. injection Ha' as <-. lia.
    + intros m' [Hm'|Hm']%elem_of_app; [by apply Hold|]. apply list_elem_of_singleton in Hm' as ->.
      eexists. split; [by apply dispatch_after|]. unfold as_stepsUsed, as_runId; simpl. split; [lia|done].
  - rewrite !app_nil_r. done.
Qed.

(** What a run has used is what has been dispatched for it. *)
Definition used (pj : Projection) (run : string) : Z :=
  match jm_get (pj_runs pj) run with Some u => us_stepsUsed u | None => 0%Z end.
Lemma used_put a pj run : as_runId a ∈ pj_budgeted pj → well_formed pj →
  used (put_agent a pj) run = (used pj run + (if bool_decide (as_runId a = run)
    then as_stepsUsed a - match pj_agent pj (as_id a) with Some b => as_stepsUsed b | None => 0 end else 0))%Z.
Proof.
  intros Hb Hwf. apply (wf_budgeted _ Hwf) in Hb as [u Hu]. unfold used. simpl. rewrite Hu jm_get_set.
  case_decide as Hr; [subst; rewrite Hu|]; simpl; case_bool_decide; try done; destruct (jm_get _ run); lia.
Qed.
Lemma history_used j pj run : history j pj → used pj run = of_run_steps run (dispatches j).
Proof.
  induction 1 as [|j pj row Hh IH Hadm]; [done|]. pose proof (history_well_formed _ _ Hh) as [Hwf _].
  rewrite dispatches_app of_run_steps_app -IH. unfold of_run_steps, dispatches. simpl.
  assert (Hkeep : ∀ pj', jm_get (pj_runs pj') run = jm_get (pj_runs pj) run → used pj' run = (used pj run + 0)%Z).
  { intros pj' Heq. unfold used. rewrite Heq. lia. }
  invert_row Hadm; try by apply Hkeep.
  - unfold used. simpl. rewrite jm_get_set. case_decide as Hr; [subst|lia].
    destruct (jm_get (pj_runs pj) run) eqn:Hu; [|done]. destruct Hnew. apply (wf_budgeted _ Hwf). by eexists.
  - simpl. rewrite used_put //. unfold as_id, as_stepsUsed. simpl. rewrite Hnone Hsteps. by case_bool_decide.
  - destruct Hsame as (Hid & Hrun & _). simpl. rewrite used_put //.
    2: { change (am_runId m' ∈ pj_budgeted pj). rewrite Hrun. by apply (wf_agents _ Hwf (am_id m') a). }
    unfold as_id, as_stepsUsed, as_runId. simpl. rewrite Ha Hsteps. unfold as_stepsUsed, charge.
    destruct t'; simpl; repeat case_bool_decide; simplify_eq; try done; simpl; lia.
Qed.
(** What an agent has used is what has been dispatched for it. *)
Definition of_agent_steps (id : string) (l : list AgentMeta) : Z :=
  Z.of_nat (length (List.filter (λ m, bool_decide (am_id m = id)) l)).
Definition used_by (pj : Projection) (id : string) : Z :=
  match pj_agent pj id with Some a => as_stepsUsed a | None => 0%Z end.
Lemma history_used_by j pj id : history j pj → used_by pj id = of_agent_steps id (dispatches j).
Proof.
  induction 1 as [|j pj row Hh IH Hadm]; [done|].
  rewrite dispatches_app. unfold of_agent_steps. rewrite List.filter_app length_app Nat2Z.inj_add.
  fold (of_agent_steps id (dispatches j)). rewrite -IH. unfold dispatches. simpl.
  assert (Hkeep : ∀ pj', pj_agent pj' id = pj_agent pj id → used_by pj' id = (used_by pj id + 0)%Z).
  { intros pj' Heq. unfold used_by. rewrite Heq. lia. }
  invert_row Hadm; try by apply Hkeep.
  - simpl. unfold used_by. rewrite pj_agent_put. simpl. destruct (decide (am_id m' = id)) as [<-|Hne].
    + rewrite decide_True // Hnone. unfold as_stepsUsed. simpl. lia.
    + rewrite decide_False //. lia.
  - unfold apply_row, used_by. rewrite pj_agent_put. simpl. destruct (decide (am_id m' = id)) as [<-|Hne].
    + rewrite decide_True // Ha. unfold as_stepsUsed at 1. simpl. rewrite Hsteps. unfold charge.
      destruct t'; simpl; repeat case_bool_decide; simplify_eq; try done; simpl; lia.
    + rewrite decide_False //. destruct t'; simpl; repeat case_bool_decide; simplify_eq; try done; simpl; lia.
Qed.
