(* ===== verification/AgentLife.v ===== *)
(** * AgentLife: the agents of a domain, over every sequence of events and restarts

    Opening a runtime and every event keep what AgentRuntimeInv says ([host_step_ok]).
    Reconciling ends: each round takes a scope off the list, and a row of a round that
    puts it back is the last one of its agent, so that [burden] decreases; the fuel of
    the model is above it. Then the properties of the runtime: what it writes is a
    history of AgentsSpec; the host's [step] is called once for each step a run and an
    agent have paid for; opening a journal leaves nothing at work; interrupting fences a
    scope; reconciling returns. All of it is for orderly runs ([orderly]): the runtime
    does not prevent the others, and [overlapping_quanta], [step_repeated] and
    [empty_run_poisons_the_journal] show what goes wrong in them. *)

From S2P Require Import Prelude Types Events Agents AgentsSpec AgentRuntime AgentRuntimeInv AgentRuntimeScope AgentRuntimeSteps AgentRuntimeJournal.
From stdpp Require Import relations.

(** * Every event *)

(** ** Opening a runtime *)

Definition stopped (a : AgentState) : Prop :=
  as_status a ∉ [ag_ready; ag_checking; ag_running; ag_recovering].
(** Nothing is at work. *)
Record resting (s : Runtime) : Prop := mkResting {
  rs_inv : Inv None s;
  rs_synced : synced s;
  rs_active : active s = [];
  rs_quanta : quanta s = [];
  rs_recoveries : recoveries s = [];
}.
Lemma resting_inv j pj d : history j pj →
  resting (set_dirtyScopes d (set_projection pj (fresh_runtime j))).
Proof.
  intros Hh. constructor; [|done..]. constructor; simpl; try done; try constructor; try set_solver.
  exists j, []. by rewrite app_nil_r.
Qed.

Section Opening.
Context (options : AgentRuntimeOptions) (w : World).

Lemma resting_idle s id : resting s → idle None s id.
Proof using Type. intros [HI Hs Ha Hq Hr]. split; [rewrite Ha; set_solver|by rewrite Hr]. Qed.
Lemma same_work_resting s s' : resting s → Inv None s' → synced s' → same_work s s' → resting s'.
Proof using Type.
  intros [_ _ Ha Hq Hr] HI' Hs' (Hsig & Hq' & Hr' & _). constructor; [done..| |congruence|congruence].
  rewrite Ha in Hsig. by destruct (active s').
Qed.

Lemma ok_recover_agent id s (Q : unit → Runtime → Prop) : resting s →
  (∀ s', resting s' → (∀ a, pj_agent (projection s') id = Some a → stopped a) →
     (∀ k, k ≠ id → pj_agent (projection s') k = pj_agent (projection s) k) → Q tt s') →
  ok None (recover_agent options w id) s Q.
Proof using Type.
  intros Hrest HQ. pose proof (rs_inv _ Hrest) as HI. pose proof (rs_synced _ Hrest) as Hs.
  unfold recover_agent. apply ok_bind, ok_get.
  destruct (pj_agent (projection s) id) as [a|] eqn:Ha; [|apply ok_ret, HQ; [done|by rewrite Ha|done]].
  destruct (agent_known _ _ _ Hs Ha) as [Hid Hk].
  assert (Hone : ∀ st, st = ag_interrupted ∨ st = ag_paused →
    lifecycle tr_recovered (as_status a) st = true →
    ok None (record options w (move st (am_pauseRequested (as_meta a)) (Some "host_restarted") a) tr_recovered ;; mret tt) s Q).
  { intros st Hst Hlife. apply ok_bind. unfold record.
    apply (ok_record_work options w None _ _ _ _ _ a); [done|done|exact Hk| |left; by apply resting_idle|].
    - apply plain_moves; try done. intros Hc. change (st = ag_completed) in Hc. naive_solver.
    - intros s' HI' Hs' Hrec Hw. apply ok_ret. pose proof (recorded_agent _ _ _ _ Hrec) as (a' & Hm & Hag).
      apply HQ; [by eapply same_work_resting| |].
      + intros b. rewrite Hag decide_True // => - [= <-]. unfold stopped, as_status. rewrite Hm.
        change (st ∉ [ag_ready; ag_checking; ag_running; ag_recovering]). destruct Hst as [->| ->]; set_solver.
      + intros k Hne. rewrite Hag decide_False //. intros Heq. apply Hne. rewrite -Heq. exact Hid. }
  destruct (status_in a [ag_running; ag_recovering] || (bool_decide (as_status a = ag_checking) && cancelling a)) eqn:E1.
  - apply Hone; [by left|]. apply orb_true_iff in E1 as [E1|[E1 _]%andb_true_iff]; apply bool_decide_eq_true in E1.
    + by_status a E1.
    + by rewrite E1.
  - destruct (status_in a [ag_checking; ag_ready]) eqn:E2.
    + apply Hone; [by right|]. apply bool_decide_eq_true in E2. by_status a E2.
    + apply ok_ret, HQ; [done| |done]. intros b Hb. simplify_eq. unfold stopped.
      apply orb_false_iff in E1 as [E1 _]. apply bool_decide_eq_false in E1, E2. set_solver.
Qed.
Definition all_stopped (pj : Projection) : Prop := ∀ id a, pj_agent pj id = Some a → stopped a.
Lemma ok_recover_agents ids : ∀ s (Q : unit → Runtime → Prop), resting s →
  (∀ id a, id ∉ ids → pj_agent (projection s) id = Some a → stopped a) →
  (∀ s', resting s' → all_stopped (projection s') → Q tt s') →
  ok None (for_each ids (recover_agent options w)) s Q.
Proof using Type.
  induction ids as [|id ids IH]; intros s Q Hrest Hout HQ; simpl.
  { apply HQ; [done|]. intros id a. apply Hout. set_solver. }
  apply ok_bind, ok_recover_agent; [done|]. intros s1 Hrest1 Hone Hrestk. apply IH; [done| |done].
  intros k a Hk Ha. destruct (decide (k = id)) as [->|Hne]; [by apply Hone|].
  rewrite Hrestk // in Ha. apply (Hout k a); [set_solver|done].
Qed.

Lemma ok_open j pj d : history j pj →
  ok None (s ← get_state; for_each (pj_states (projection s)).*1 (recover_agent options w) ;; reconcileScopes options w)
    (set_dirtyScopes d (set_projection pj (fresh_runtime j)))
    (λ _ s, resting s ∧ all_stopped (projection s) ∧ dirtyScopes s = []).
Proof using Type.
  intros Hh. apply ok_bind, ok_get, ok_bind, ok_recover_agents; [by apply resting_inv| |].
  - intros id a Hno Ha. exfalso. apply Hno. apply agent_key. simpl in Ha. by exists a.
  - intros s1 Hrest Hstop. apply ok_reconcileScopes; [apply Hrest|].
    intros s2 HI2 Hs2 [Hw Hcalm] Hd. split_and!; [by eapply same_work_resting| |done].
    intros id a Ha. destruct (Hcalm id a Ha) as (b & Hb & Hst). specialize (Hstop id b Hb). unfold stopped in *.
    destruct Hst as [->|[->| ->]]; set_solver.
Qed.
Lemma log_history s : log_ok s → ∃ pj, history (journal s) pj.
Proof using Type. intros Hl. eexists. by apply (caught_up_log s). Qed.
Lemma validated_budget b b' : validateRunBudget b = Ok b' → b' = b.
Proof using Type. unfold validateRunBudget. by destruct (_ && _); intros [= <-]. Qed.
Lemma open_runtime_ok j pj : history j pj →
  match open_runtime options w (fresh_runtime j) with
  | (Ok _, s) => resting s ∧ all_stopped (projection s) ∧ dirtyScopes s = []
      ∧ validateRunBudget (o_runBudget options) = Ok (o_runBudget options)
  | (Throw _, s) => ∃ pj', history (journal s) pj'
  end.
Proof using Type.
  intros Hh. unfold open_runtime. rewrite run_throw_if. destruct (_ =? _)%nat; [by exists pj|].
  rewrite run_lift. destruct (validateRunBudget _) as [b|e] eqn:Hb; [|by exists pj].
  pose proof (validated_budget _ _ Hb) as ->. rewrite run_throw_if. destruct (_ && _); [by exists pj|].
  destruct (sync_chain options [] j (fresh_runtime j) [] pj) as (d & Hsync & _);
    [by rewrite app_nil_r|constructor|by apply history_is_chain|].
  assert (sync options (fresh_runtime j) = (Ok tt, set_dirtyScopes d (set_projection pj (fresh_runtime j)))) as Hrun.
  { unfold sync. by rewrite run_gets. }
  rewrite (run_bind_Ok _ _ _ _ _ Hrun). pose proof (ok_open j pj d Hh) as H. unfold ok in H.
  destruct (mbind (M := AM) _ _ _) as [[[]|e] s]; [by destruct H as (? & ? & ?)|]. apply log_history, H.
Qed.
End Opening.

(** ** Every event *)

(** A stand-in for the runtime whose opening threw. *)
Definition no_runtime (j : list AgentRow) : Runtime := set_closed true (fresh_runtime j).
Lemma no_runtime_stays options w e j : match e with ERestart _ | EOther => False | _ => True end →
  (handle options w e (no_runtime j)).2 = no_runtime j.
Proof. by destruct e. Qed.

(** What the properties assume of a run, and runtime.ts does not enforce: the drain is
    at the head of its loop only when every quantum it has started has begun and none
    has settled without its [finally]; no run with an empty id accepts agents; the
    journal is not longer than a safe integer. *)
Definition orderly (w : World) (e : Event) (s : Runtime) : bool :=
  negb (w_run w "") && (Z.of_nat (length (journal s)) <=? MAX_SAFE_INTEGER)%Z
  && match e with EDrainStep => quiet_quanta s | _ => true end.
Fixpoint orderly_steps (h : Host) (l : list (World * Event)) : bool :=
  match l with
  | [] => true
  | (w, e) :: l' => orderly w e (h_runtime h) && orderly_steps (step w e h) l'
  end.

Lemma handle_inv options w e s : validateRunBudget (o_runBudget options) = Ok (o_runBudget options) →
  orderly w e s = true → Inv None s → Inv None (handle options w e s).2.
Proof.
  intros Hopt Hord HI. apply andb_true_iff in Hord as [[Hrun%negb_true_iff Hmax%Z.leb_le]%andb_true_iff Hq].
  destruct e; try apply ok_ignore; simpl.
  - by apply create_inv.
  - by apply pause_inv.
  - by apply interruptScope_inv.
  - by apply resume_inv.
  - by apply findValidCheckpoint_inv.
  - by apply restoreCheckpoint_inv.
  - by apply recoverCheckpoint_inv.
  - by apply drain_inv.
  - by apply close_inv.
  - by apply shutdown_inv.
  - by apply drain_step_inv.
  - by apply drain_reject_inv.
  - by apply advance_inv.
  - by apply validated_inv.
  - by apply submit_command_inv.
  - by apply start_command_inv.
  - by apply command_answered_inv.
  - by apply step_answered_inv.
  - by apply finish_step_inv.
  - by apply quantum_finally_inv.
  - by apply prepare_called_inv.
  - by apply prepared_inv.
  - by apply discarded_inv.
  - by apply recovery_finally_inv.
  - by apply barrier_finally_inv.
  - by apply selection_answered_inv.
  - by apply settle_shutdown_inv.
  - by apply shutdown_finish_inv.
  - destruct HI as [(j & rows & Hj & Hh & Hr) H2 H3 H4 H5 H6]. constructor; simpl; try done.
    exists j, (rows ++ [RowOther]). split_and!; [simpl; by rewrite Hj assoc|done|].
    apply Forall_app. split; [done|]. by repeat constructor.
  - done.
Qed.

(** What holds of a host. *)
Definition host_ok (h : Host) : Prop :=
  validateRunBudget (o_runBudget (h_options h)) = Ok (o_runBudget (h_options h))
  ∧ (Inv None (h_runtime h) ∨ ∃ j pj, history j pj ∧ h_runtime h = no_runtime j).
Lemma host_history h : host_ok h → ∃ pj, history (journal (h_runtime h)) pj.
Proof. intros [_ [HI|(j & pj & Hh & ->)]]; [by apply log_history, HI|by exists pj]. Qed.
Lemma host_step_ok w e h : orderly w e (h_runtime h) = true → host_ok h → host_ok (step w e h).
Proof.
  intros Hord Hok. pose proof (host_history _ Hok) as (pj & Hh).
  assert (Hre : (∃ o, e = ERestart o) ∨ step w e h = mkHost (h_options h) (handle (h_options h) w e (h_runtime h)).2).
  { destruct e; try (by right). left. by eexists. }
  destruct Hre as [[o ->]| ->].
  - simpl. pose proof (open_runtime_ok o w _ _ Hh) as Hopen.
    destruct (open_runtime o w _) as [[[]|er] s]; simpl.
    + destruct Hopen as (Hrest & _ & _ & Hb). split; [done|]. left. apply Hrest.
    + destruct Hopen as (pj' & Hh'). split; [apply Hok|]. right. by exists (journal s), pj'.
  - destruct Hok as [Hopt [HI|(j & pj' & Hj & Hs)]]; split; try done; simpl.
    + left. by apply handle_inv.
    + right. rewrite Hs. destruct (match e with ERestart _ | EOther => true | _ => false end) eqn:E.
      * destruct e; try done.
        -- exists (j ++ [RowOther]), (apply_row j RowOther pj'). split; [by repeat constructor|done].
        -- by exists j, pj'.
      * exists j, pj'. split; [done|]. apply no_runtime_stays. by destruct e.
Qed.
Lemma host_steps_ok l : ∀ h, orderly_steps h l = true → host_ok h → host_ok (steps h l).
Proof.
  induction l as [|[w e] l IH]; intros h Hord Hok; [done|]. simpl in Hord. apply andb_true_iff in Hord as [H1 H2].
  apply IH; [done|]. by apply host_step_ok.
Qed.
(** Before anything happened: no runtime, an empty journal. *)
Definition new_domain : Host :=
  mkHost (mkOptions 1 DEFAULT_AGENT_RUN_BUDGET false false) (no_runtime []).
Lemma new_domain_ok : host_ok new_domain.
Proof. split; [done|]. right. exists [], empty_projection. split; [constructor|done]. Qed.

(** * Reconciling ends *)

Definition total {A} (m : AM A) (s : Runtime) : Prop := ∃ a s', m s = (Ok a, s').
Lemma ok_total {A} x (m : AM A) s Q : ok x m s Q → total m s → ∃ a s', m s = (Ok a, s') ∧ Q a s'.
Proof. intros Hok (a & s' & Hrun). exists a, s'. split; [done|]. unfold ok in Hok. by rewrite Hrun in Hok. Qed.
Lemma total_bind {A B} (m : AM A) (f : A → AM B) s a s' : m s = (Ok a, s') → total (f a) s' → total (m ≫= f) s.
Proof. intros Hrun Hf. unfold total. by rewrite (run_bind_Ok _ _ _ _ _ Hrun). Qed.
Lemma total_for_each {A} (f : A → AM unit) l : (∀ a s, total (f a) s) → ∀ s, total (for_each l f) s.
Proof.
  intros Hf. induction l as [|a l IH]; intros s; [by exists tt, s|]. destruct (Hf a s) as ([] & s1 & Hrun).
  by apply (total_bind _ _ _ tt s1).
Qed.
Lemma total_fold_each {A B} (f : B → A → AM B) l : (∀ b a s, total (f b a) s) → ∀ b s, total (fold_each f l b) s.
Proof.
  intros Hf. induction l as [|a l IH]; intros b s; [by exists b, s|]. destruct (Hf b a s) as (b1 & s1 & Hrun).
  by apply (total_bind _ _ _ b1 s1).
Qed.

Lemma jm_set_at_most {A} (m : list (string * A)) k v : length (jm_set m k v) ≤ S (length m).
Proof. induction m as [|[k' v'] m IH]; simpl; [lia|]. case_decide; simpl; lia. Qed.
(** There are no more agents than rows. *)
Lemma states_le_rows j pj : history j pj → length (pj_states pj) ≤ length j.
Proof.
  induction 1 as [|j pj row Hh IH Hadm]; [done|]. rewrite length_app /=.
  assert (length (pj_states (apply_row j row pj)) ≤ S (length (pj_states pj))) as H; [|lia].
  destruct row as [[|t m i c r|]|v [run|] b|[op|] [id|]|]; simpl; try lia. apply jm_set_at_most.
Qed.
Lemma tally_le f l : (∀ a, (f a ≤ 1)%Z) → (tally f l ≤ Z.of_nat (length l))%Z.
Proof. intros Hf. unfold tally. induction l as [|e l IH]; simpl; [lia|]. specialize (Hf e.2.2). lia. Qed.
Lemma burden_fuel s : synced s → (burden s < Z.of_nat (reconcile_fuel s))%Z.
Proof.
  intros Hs. pose proof (states_le_rows _ _ Hs) as Hl.
  pose proof (tally_le (λ a, if settled_member a then 0 else 1)%Z (pj_states (projection s))) as Ht.
  lapply Ht; [|intros a; case_match; lia]. unfold burden, open_agents, reconcile_fuel. lia.
Qed.

Section Total.
Context (options : AgentRuntimeOptions) (w : World) (Hw : w_fenced w = false).

Lemma append_total a t s : plain_transition t = true → t ≠ tr_created → t ≠ tr_step_completed →
  total (append w a t None) s.
Proof using Hw.
  intros Ht H1 H2. unfold append. rewrite (bool_decide_false _ H1) (bool_decide_false _ H2).
  unfold total, journal_row. rewrite run_lift; cbn [redacted_opt orb]. rewrite run_lift run_throw_if Hw. by do 2 eexists.
Qed.
Lemma cancel_member_total a s : total (cancel_member w a) s.
Proof using Hw.
  unfold cancel_member. destruct (settled_member a); [by do 2 eexists|]. unfold total. rewrite run_gets.
  by apply append_total; destruct (live_member s a).
Qed.
Lemma record_total a t s b : synced s → closed s = false → pj_agent (projection s) (as_id a) = Some b →
  moves s t None a b → plain_transition t = true → t ≠ tr_created → t ≠ tr_step_completed →
  total (record options w a t) s.
Proof using Hw.
  intros Hs Hcl Hb Hmv Ht H1 H2. assert (Hl : log_ok s) by (exists (journal s), []; by rewrite app_nil_r).
  unfold record, record_ref, assertOpen. unfold total. rewrite run_assoc run_gets run_throw_if Hcl.
  destruct (append_cases w a t None s) as [[e Hrun]|(i & c & Hc & Hrun)].
  { destruct (append_total a t s Ht H1 H2) as (? & ? & ?). congruence. }
  destruct (moves_admissible s t None a b i c Hs Hb Hmv Hc) as [-> Hadm].
  rewrite (run_bind_Ok _ _ _ _ _ Hrun). rewrite -(caught_up_synced s Hs) in Hadm.
  destruct (sync_wrote options s _ Hl Hadm) as (d & Hsync & _).
  rewrite caught_up_synced // in Hsync. rewrite (run_bind_Ok _ _ _ _ _ Hsync). by do 2 eexists.
Qed.

Lemma cancelScope_total id s : synced s → is_Some (pj_agent (projection s) id) →
  total (cancelScope options w id) s.
Proof using Hw.
  intros Hs [r Hr]. destruct (history_well_formed _ _ Hs) as [Hwf Hcur].
  assert (Hl : log_ok s) by (exists (journal s), []; by rewrite app_nil_r).
  unfold cancelScope. pose proof (proj1 (sync_run options s Hl)) as Hrun. rewrite caught_up_synced // in Hrun.
  apply (total_bind _ _ _ _ _ Hrun). unfold total. rewrite run_gets run_lift. clear Hrun.
  destruct (scope (projection s) id) as [members|e] eqn:Hm; [|by rewrite /scope Hr in Hm].
  destruct (scope_spec _ Hwf _ _ Hm) as [Hnd Hmem].
  assert (writing s [] = s) as Hwr by (unfold writing; rewrite app_nil_r; by destruct s).
  destruct (cancel_members_run w s members [] (projection s) Hs) as [(e & j & Hrun)|(rows & pj & Hrun & Hc & _)].
  { constructor. }
  { done. }
  { apply Forall_forall. intros a Ha. by apply Hmem. }
  { destruct (total_for_each _ members cancel_member_total (writing s [])) as (? & ? & ?). congruence. }
  rewrite Hwr in Hrun. apply (total_bind _ _ _ tt (writing s rows)); [by rewrite /in_transaction Hrun|].
  destruct (sync_chain options [] rows (writing s rows) (journal s) pj) as (d & Hsync & _); [by rewrite app_nil_r|done..|].
  eapply total_bind; [rewrite /sync run_gets /= Hcur drop_app_length; exact Hsync|].
  apply total_fold_each. intros b a s2. unfold abort_member, total. rewrite run_gets.
  destruct (jm_get (quanta s2) (as_id a)); by do 2 eexists.
Qed.

Lemma settle_waiting_total a s : synced s → closed s = false → pj_agent (projection s) (as_id a) = Some a →
  total (settle_waiting options w a) s.
Proof using Hw.
  intros Hs Hcl Ha. unfold settle_waiting, total. rewrite run_gets. unfold when.
  destruct (bool_decide _ && _) eqn:E; [|by do 2 eexists]. apply andb_true_iff in E as [Hst%bool_decide_eq_true Hall].
  destruct (record_total (move ag_completed (am_pauseRequested (as_meta a)) None a) tr_scope_completed s a)
    as (? & ? & Hrun); [done|done|exact Ha|by apply waiting_moves|done|done|done|].
  apply (total_bind _ _ _ _ _ Hrun). by do 2 eexists.
Qed.
Lemma settle_all_total x members : ∀ s, Inv x s → synced s → closed s = false → NoDup (map as_id members) →
  Forall (λ a, pj_agent (projection s) (as_id a) = Some a ∧ cancelling a = false) members →
  total (for_each members (settle_waiting options w)) s.
Proof using Hw.
  induction members as [|a members IH]; intros s HI Hs Hcl Hnd Hall; [by do 2 eexists|].
  inversion Hnd as [|? ? Ha Hnd']; subst. inversion Hall as [|? ? [Hka Hca] Hall']; subst.
  destruct (ok_total x (settle_waiting options w a) s (λ _ s', Inv x s' ∧ synced s' ∧ closed s' = false
    ∧ ∀ id, id ≠ as_id a → pj_agent (projection s') id = pj_agent (projection s) id))
    as (u & s1 & Hrun & HI1 & Hs1 & Hcl1 & Hag); [|by apply settle_waiting_total|].
  { apply ok_settle_waiting; [done..|]. intros s' HI' Hs' [Hsame _] _ Hag. split_and!; try done.
    by destruct Hsame as (_ & _ & _ & _ & -> & _). }
  apply (total_bind _ _ _ _ _ Hrun), IH; [done..|]. apply Forall_forall. intros b Hb.
  destruct (proj1 (Forall_forall _ _) Hall' b Hb). split; [|done]. rewrite Hag //. intros Heq. apply Ha.
  rewrite -Heq. apply elem_of_ids. by exists b.
Qed.
Lemma reconcile_scope_total x id s : Inv x s → synced s → closed s = false →
  is_Some (pj_agent (projection s) id) → total (reconcile_scope options w id) s.
Proof using Hw.
  intros HI Hs Hcl [r Hr]. destruct (history_well_formed _ _ Hs) as [Hwf _]. unfold reconcile_scope, total.
  rewrite run_gets run_lift. destruct (scope (projection s) id) as [members|e] eqn:Hm; [|by rewrite /scope Hr in Hm].
  destruct (scope_spec _ Hwf _ _ Hm) as [Hnd Hmem]. destruct (existsb _ members) eqn:E.
  - destruct (cancelScope_total id s Hs) as (p & s1 & Hrun); [by eexists|]. apply (total_bind _ _ _ _ _ Hrun). by do 2 eexists.
  - apply (settle_all_total x); [done..|by apply NoDup_ids_rev|]. apply Forall_forall. intros a Ha.
    rewrite -> list_elem_of_In, <- in_rev, <- list_elem_of_In in Ha. split; [by apply Hmem|].
    apply not_true_is_false. intros Hc. apply (not_true_iff_false (existsb _ _)) in E. apply E, existsb_In.
    exists a. by rewrite Hc orb_true_r.
Qed.

(** Every round takes from the burden. *)
Lemma reconcile_from_total x fuel : ∀ s, Inv x s → synced s → closed s = false → dirty_known s →
  (burden s < Z.of_nat fuel)%Z → total (reconcile_from options w fuel) s.
Proof using Hw.
  induction fuel as [|fuel IH]; intros s HI Hs Hcl Hd Hb.
  { pose proof (burden_nonneg s). lia. }
  simpl. unfold total. rewrite run_gets. destruct (dirtyScopes s) as [|id dirty] eqn:E; [by do 2 eexists|].
  rewrite run_modify E. set (s1 := set_dirtyScopes _ s).
  assert (Inv x s1) as HI1 by by eapply inv_frame; [..|exact HI].
  assert (length (js_delete (id :: dirty) id) ≤ length dirty) as Hlen.
  { unfold js_delete. simpl. rewrite bool_decide_true //=. apply filter_length_le. }
  assert (dirty_known s1) as Hd1.
  { apply dirty_known_sub; [done|]. apply Forall_forall. intros i Hi%elem_of_js_delete.
    destruct Hd as [_ Hd]. rewrite Forall_forall E in Hd. apply Hd, Hi. }
  destruct (ok_total x (reconcile_scope options w id) s1 (λ _ s', Inv x s' ∧ synced s' ∧ closed s' = false
    ∧ (burden s' ≤ burden s1)%Z)) as (u & s2 & Hrun & HI2 & Hs2 & Hcl2 & Hb2).
  { apply ok_reconcile_scope; [done..|]. intros s' ? ? [Hsame _] ?. split_and!; try done.
    by destruct Hsame as (_ & _ & _ & _ & -> & _). }
  { apply (reconcile_scope_total x); [done..|]. destruct Hd as [_ Hd]. rewrite Forall_forall E in Hd. apply Hd. set_solver. }
  pose proof (grows_reconcile_scope options w id s1) as [[_ Hk] _]. rewrite Hrun in Hk.
  apply (total_bind _ _ _ u s2); [by rewrite /try_catch Hrun|]. apply IH; [done..|by apply Hk|].
  unfold burden in *. rewrite E in Hb. simpl in *. lia.
Qed.
Lemma reconcileScopes_total x s : Inv x s → closed s = false → dirty_known s →
  total (reconcileScopes options w) s.
Proof using Hw.
  intros HI Hcl Hd. unfold reconcileScopes. pose proof (sync_run options s (inv_log _ _ HI)) as [Hrun Hs].
  apply (total_bind _ _ _ _ _ Hrun). unfold total. rewrite run_gets.
  apply (reconcile_from_total x); [by apply inv_caught_up|done..|by apply burden_fuel].
Qed.
End Total.

(** * The properties of the runtime *)

(** ** The calls of [step] *)

(** What the event adds to [stepped]: a new runtime begins with none. *)
Definition calls_of (w : World) (e : Event) (h : Host) : list AgentMeta :=
  let before := match e with ERestart _ => [] | _ => stepped (h_runtime h) end in
  drop (length before) (map as_meta (stepped (h_runtime (step w e h)))).
Fixpoint step_calls (h : Host) (l : list (World * Event)) : list AgentMeta :=
  match l with
  | [] => []
  | (w, e) :: l' => calls_of w e h ++ step_calls (step w e h) l'
  end.

Lemma fresh_known j : dirty_known (fresh_runtime j).
Proof. split; [done|constructor]. Qed.
Lemma step_grows w e h : ∃ rows, journal (h_runtime (step w e h)) = journal (h_runtime h) ++ rows
  ∧ calls_of w e h `sublist_of` dispatches rows
  ∧ (dirty_known (h_runtime h) → dirty_known (h_runtime (step w e h))).
Proof.
  assert ((∃ o, e = ERestart o) ∨ step w e h = mkHost (h_options h) (handle (h_options h) w e (h_runtime h)).2
    ∧ (match e with ERestart _ => [] | _ => stepped (h_runtime h) end) = stepped (h_runtime h)) as [[o ->]|[Hst Hb]].
  { destruct e; try (by right). left. by eexists. }
  - unfold calls_of. simpl. set (j := journal (h_runtime h)).
    pose proof (grows_open o w (fresh_runtime j)) as [[_ Hd] (rows & new & Hj & Hs & Hn)].
    destruct (open_runtime o w (fresh_runtime j)) as [[[]|er] s]; simpl in *; exists rows; split_and!; try done.
    + by rewrite drop_0 Hs.
    + intros _. apply Hd, fresh_known.
    + apply sublist_nil_l.
  - unfold calls_of. rewrite Hb Hst. simpl.
    pose proof (grows_handle (h_options h) w e (h_runtime h)) as [[_ Hd] (rows & new & Hj & Hs & Hn)].
    exists rows. split_and!; [done| |done]. by rewrite Hs -(length_map as_meta) drop_app_length.
Qed.
Lemma steps_grow_only l : ∀ h, ∃ rows, journal (h_runtime (steps h l)) = journal (h_runtime h) ++ rows
  ∧ step_calls h l `sublist_of` dispatches rows
  ∧ (dirty_known (h_runtime h) → dirty_known (h_runtime (steps h l))).
Proof.
  induction l as [|[w e] l IH]; intros h; simpl; [exists []; by rewrite app_nil_r|].
  destruct (step_grows w e h) as (r1 & Hj1 & Hc1 & Hd1). destruct (IH (step w e h)) as (r2 & Hj2 & Hc2 & Hd2).
  exists (r1 ++ r2). rewrite dispatches_app. split_and!; [|by apply sublist_app|auto]. unfold steps in *. simpl.
  by rewrite Hj2 Hj1 -assoc.
Qed.

Lemma sublist_count {A} (f : A → bool) (l k : list A) : l `sublist_of` k →
  length (List.filter f l) ≤ length (List.filter f k).
Proof. induction 1; simpl; [done| |]; destruct (f x); simpl; lia. Qed.

(** A host that is up. *)
Definition up (l : list (World * Event)) : Prop :=
  orderly_steps new_domain l = true ∧ closed (h_runtime (steps new_domain l)) = false.
Lemma up_inv l : up l → Inv None (h_runtime (steps new_domain l)) ∧ dirty_known (h_runtime (steps new_domain l)).
Proof.
  intros [Hord Hcl]. split.
  - destruct (host_steps_ok l new_domain Hord new_domain_ok) as [_ [HI|(j & pj & _ & Hno)]]; [done|]. by rewrite Hno in Hcl.
  - destruct (steps_grow_only l new_domain) as (_ & _ & _ & Hd). apply Hd. split; [done|constructor].
Qed.

(** ** Fencing *)

Definition is_aborted (t : nat) (s : Runtime) : Prop := ∀ q, q ∈ active s → q_ticket q = t → q_aborted q = true.
Definition waits_for (members : list AgentState) (s : Runtime) (ts : list nat) : Prop :=
  ∀ a, a ∈ members → (∀ t, jm_get (quanta s) (as_id a) = Some t → t ∈ ts ∧ is_aborted t s)
    ∧ (∀ r, jm_get (recoveries s) (as_id a) = Some r → r_ticket r ∈ ts).
Lemma is_aborted_abort t t' s : t = t' ∨ is_aborted t s → is_aborted t (update_quantum t' aborted s).
Proof.
  intros H q (q0 & Hin & ->)%elem_of_update_quantum. case_bool_decide as Ht; [done|]. intros Hq.
  destruct H as [->|H]; [done|]. by apply H.
Qed.
Lemma abort_member_run pending a s : ∃ ts s', abort_member pending a s = (Ok (pending ++ ts), s')
  ∧ projection s' = projection s ∧ quanta s' = quanta s ∧ recoveries s' = recoveries s
  ∧ waits_for [a] s' ts ∧ ∀ t, is_aborted t s → is_aborted t s'.
Proof.
  unfold abort_member. rewrite run_gets. destruct (jm_get (quanta s) (as_id a)) as [t|] eqn:Hq.
  - rewrite run_modify. do 2 eexists. split_and!; [reflexivity|done..| |].
    + intros b ->%list_elem_of_singleton. simpl. rewrite Hq. split.
      * intros t' [= <-]. split; [set_solver|]. apply is_aborted_abort. by left.
      * intros r ->. set_solver.
    + intros t' Ht'. apply is_aborted_abort. by right.
  - rewrite run_ret. do 2 eexists. split_and!; [reflexivity|done..| |done].
    intros b ->%list_elem_of_singleton. rewrite Hq. split; [done|]. intros r ->. set_solver.
Qed.
Lemma abort_members_run members : ∀ pending s, ∃ ts s', fold_each abort_member members pending s = (Ok (pending ++ ts), s')
  ∧ projection s' = projection s ∧ quanta s' = quanta s ∧ recoveries s' = recoveries s
  ∧ waits_for members s' ts ∧ ∀ t, is_aborted t s → is_aborted t s'.
Proof.
  induction members as [|a members IH]; intros pending s; simpl.
  { exists [], s. rewrite app_nil_r. split_and!; try done. intros a Ha. set_solver. }
  destruct (abort_member_run pending a s) as (ts1 & s1 & Hrun1 & Hp1 & Hq1 & Hr1 & Hw1 & Ha1).
  destruct (IH (pending ++ ts1) s1) as (ts2 & s2 & Hrun2 & Hp2 & Hq2 & Hr2 & Hw2 & Ha2).
  exists (ts1 ++ ts2), s2. rewrite (run_bind_Ok _ _ _ _ _ Hrun1) Hrun2 -assoc.
  split_and!; [done|congruence|congruence|congruence| |auto].
  intros b [->|Hb]%elem_of_cons.
  - destruct (Hw1 a) as [H1 H2]; [set_solver|]. rewrite Hq2 Hr2. split.
    + intros t Ht. destruct (H1 t Ht) as [? ?]. split; [set_solver|auto].
    + intros r Hr. set_solver.
  - destruct (Hw2 b Hb) as [H1 H2]. split.
    + intros t Ht. destruct (H1 t Ht). split; [set_solver|done].
    + intros r Hr. set_solver.
Qed.

Lemma scope_later n pj id : scope (later n pj) id = scope pj id.
Proof.
  unfold scope. change (pj_agent (later n pj) id) with (pj_agent pj id). destruct (pj_agent pj id) as [a|]; [|done].
  f_equal. simpl. generalize (length (pj_states pj)) as fuel. intros fuel. generalize [a] as queue.
  induction fuel as [|fuel IH]; intros queue; [done|]. destruct queue as [|b queue]; simpl; [done|]. by rewrite IH.
Qed.
Section Cancelling.
Context (options : AgentRuntimeOptions) (w : World).

Lemma cancelScope_waits id s pending s' : log_ok s → cancelScope options w id s = (Ok pending, s') →
  ∃ members, scope (projection s) id = Ok members ∧ waits_for members s' pending.
Proof using Type.
  intros Hl. unfold cancelScope. rewrite (run_bind_Ok _ _ _ _ _ (proj1 (sync_run options s Hl))) run_gets run_lift.
  unfold caught_up. simpl. rewrite scope_later.
  destruct (scope (projection s) id) as [members|]; [|done].
  intros ([] & s1 & _ & ([] & s2 & _ & Hrun)%bind_Ok_inv)%bind_Ok_inv. exists members. split; [done|].
  destruct (abort_members_run members [] s2) as (ts & s3 & Hrun' & _ & _ & _ & Hw & _).
  rewrite Hrun' in Hrun. by injection Hrun as <- <-.
Qed.
Lemma cancelScope_fences x id s pending s' : Inv x s → cancelScope options w id s = (Ok pending, s') →
  fenced (caught_up s) s' id ∧ quanta s' = quanta s ∧ recoveries s' = recoveries s.
Proof using Type.
  intros HI Hrun. pose proof (proj1 (sync_run options s (inv_log _ _ HI))) as Hsync.
  assert (cancelScope options w id (caught_up s) = (Ok pending, s')) as Hrun'.
  { pose proof (caught_up_log _ (inv_log _ _ HI)) as Hs.
    pose proof (proj1 (sync_run options _ (log_ok_caught_up _ (inv_log _ _ HI)))) as Hsync'.
    rewrite (caught_up_synced _ Hs) in Hsync'. revert Hrun. unfold cancelScope.
    by rewrite (run_bind_Ok _ _ _ _ _ Hsync) (run_bind_Ok _ _ _ _ _ Hsync'). }
  pose proof (ok_cancelScope options w x id (caught_up s) (λ _ s', fenced (caught_up s) s' id ∧
    quanta s' = quanta s ∧ recoveries s' = recoveries s)) as H. unfold ok in H. rewrite Hrun' in H.
  apply H; [by apply inv_caught_up|by apply caught_up_log, HI|].
  intros ts s2 _ _ [(_ & Hq & Hr & _) _] Hf _. done.
Qed.
End Cancelling.

(** ** Histories and their prefixes *)

Lemma history_det j pj : history j pj → ∀ pj', history j pj' → pj' = pj.
Proof.
  induction 1 as [|j pj row Hh IH Hadm]; intros pj' Hh'; inversion Hh' as [|j2 pj2 row2 Hh2 _ Heq]; subst; try done.
  - by destruct j2.
  - by destruct j.
  - apply app_inj_tail in Heq as [-> ->]. by rewrite (IH _ Hh2).
Qed.
Lemma history_snoc_inv j row pj : history (j ++ [row]) pj →
  ∃ pj0, history j pj0 ∧ admissible j pj0 row ∧ pj = apply_row j row pj0.
Proof.
  intros Hh. inversion Hh as [Heq|j2 pj2 row2 Hh2 Hadm Heq]; [by destruct j|].
  apply app_inj_tail in Heq as [-> ->]. by exists pj2.
Qed.
(** Agents are not lost, nor the steps they have used. *)
Lemma history_keeps rows : ∀ j pj pj' id a, history j pj → history (j ++ rows) pj' → pj_agent pj id = Some a →
  ∃ a', pj_agent pj' id = Some a' ∧ (as_stepsUsed a ≤ as_stepsUsed a')%Z ∧ as_runId a' = as_runId a.
Proof.
  induction rows as [|row rows IH] using rev_ind; intros j pj pj' id a Hh Hh' Ha.
  { rewrite app_nil_r in Hh'. rewrite (history_det _ _ Hh _ Hh'). exists a. split_and!; [done|lia|done]. }
  rewrite assoc in Hh'. apply history_snoc_inv in Hh' as (pj0 & Hh0 & Hadm & ->).
  destruct (IH _ _ _ _ _ Hh Hh0 Ha) as (a0 & Ha0 & Hle & Hrun).
  destruct (steps_grow _ _ _ _ _ (proj1 (history_well_formed _ _ Hh0)) Hadm Ha0) as (a' & Ha' & Hle' & Hrun').
  exists a'. split_and!; [done|lia|congruence].
Qed.

(** ** Opening calls no step *)

Definition calls_nothing (s s' : Runtime) : Prop := stepped s' = stepped s.
#[export] Instance calls_nothing_preorder : PreOrder calls_nothing.
Proof. split; [done|]. unfold calls_nothing. congruence. Qed.
Section Opening.
Context (options : AgentRuntimeOptions) (w : World).

Lemma calls_nothing_sync : respects calls_nothing (sync options).
Proof using Type.
  unfold sync, sync_step. respects_tac; try by apply respects_modify.
  intros s. unfold focus. by destruct (sync_row _ _ _ _).
Qed.
#[local] Hint Resolve calls_nothing_sync : xio.
Lemma calls_nothing_append a t ref : respects calls_nothing (append w a t ref).
Proof using Type. unfold append, journal_row. respects_tac; by apply respects_modify. Qed.
#[local] Hint Resolve calls_nothing_append : xio.
Lemma calls_nothing_record a t : respects calls_nothing (record options w a t).
Proof using Type. unfold record, record_ref, assertOpen. respects_tac. Qed.
#[local] Hint Resolve calls_nothing_record : xio.
Lemma calls_nothing_reconcile_scope id : respects calls_nothing (reconcile_scope options w id).
Proof using Type.
  assert (∀ members, respects calls_nothing (in_transaction (for_each members (cancel_member w)))).
  { intros members s. assert (respects calls_nothing (for_each members (cancel_member w))) as H.
    { unfold cancel_member. respects_tac. }
    specialize (H s). unfold in_transaction. by destruct (for_each _ _ s) as [[[]|e] s']. }
  unfold reconcile_scope, cancelScope, abort_member, settle_waiting. respects_tac; try by apply respects_modify.
Qed.
Lemma calls_nothing_open : respects calls_nothing (open_runtime options w).
Proof using Type.
  assert (∀ fuel, respects calls_nothing (reconcile_from options w fuel)).
  { intros fuel. induction fuel as [|fuel IH]; simpl; respects_tac; try (by apply respects_modify).
    apply calls_nothing_reconcile_scope. }
  unfold open_runtime, recover_agent, reconcileScopes. respects_tac.
Qed.
End Opening.

(** ** The properties *)

(** C11. What a runtime writes into the journal, through any orderly sequence of calls,
    answers and restarts, is a history of the reference. Orderly is a restriction
    ([orderly]): no round of the drain while a quantum it has started has not begun or
    has settled and awaits its [finally], no run whose id is the empty string, and a
    journal within the safe integers; without it the statement fails
    ([overlapping_quanta], [empty_run_poisons_the_journal]). In a history every row that starts, moves, charges,
    restores or ends an agent is one its lifecycle, its scope, its run's budget and its
    checkpoints admit. What the runtime knows is what that history leads to, less rows
    of other components it has not read, unless opening the journal threw. *)
Theorem agents_journal_is_a_history l :
  orderly_steps new_domain l = true →
  let s := h_runtime (steps new_domain l) in
  (∃ pj, history (journal s) pj)
  ∧ ((∃ read unread, journal s = read ++ unread ∧ history read (projection s) ∧ Forall (eq RowOther) unread)
     ∨ closed s = true ∧ projection s = empty_projection).
Proof.
  intros Hord s. pose proof (host_steps_ok l new_domain Hord new_domain_ok) as Hok.
  split; [by apply host_history|]. destruct Hok as [_ [HI|(j & pj & _ & Hno)]].
  - left. exact (inv_log _ _ HI).
  - right. unfold s. by rewrite Hno.
Qed.

(** C12. In an orderly run (as in C11: no round of the drain between the settling of a
    quantum and its [finally], no run with an empty id) the host's [step] is called for
    recorded steps only, in their order and at most once each, whatever is aborted,
    fails or restarts - out of order it can be called twice for one step of one agent
    ([step_repeated]); so a run never has more calls
    than its step budget, an agent never more than its [maxSteps], and no run has more
    agents than it may. *)
Theorem agents_step_once_within_budget l :
  orderly_steps new_domain l = true →
  let j := journal (h_runtime (steps new_domain l)) in
  let calls := step_calls new_domain l in
  calls `sublist_of` dispatches j ∧ NoDup (map step_key calls)
  ∧ ∀ pj, history j pj →
    (∀ run, (of_run_steps run calls ≤ match jm_get (pj_runs pj) run with
       | Some u => rb_maxSteps (us_budget u) | None => 0 end)%Z)
    ∧ (∀ id, (of_agent_steps id calls ≤ match pj_agent pj id with
       | Some a => am_maxSteps (as_meta a) | None => 0 end)%Z)
    ∧ (∀ run u, jm_get (pj_runs pj) run = Some u → (run_agents pj run ≤ rb_maxAgents (us_budget u))%Z).
Proof.
  intros Hord j calls. destruct (steps_grow_only l new_domain) as (rows & Hj & Hc & _). simpl in Hj.
  assert (calls `sublist_of` dispatches j) as Hsub by (unfold j; by rewrite Hj).
  destruct (host_history _ (host_steps_ok l new_domain Hord new_domain_ok)) as (pj & Hh).
  split_and!; [done| |].
  - apply (sublist_NoDup _ (map step_key (dispatches j))); [by apply history_dispatches in Hh as [? _]|].
    by apply (fmap_sublist step_key).
  - clear pj Hh. intros pj Hh. destruct (history_well_formed _ _ Hh) as [Hwf _].
    pose proof (λ run, sublist_count (λ m, bool_decide (am_runId m = run)) _ _ Hsub) as Hr.
    pose proof (λ id, sublist_count (λ m, bool_decide (am_id m = id)) _ _ Hsub) as Ha.
    split_and!.
    + intros run. specialize (Hr run). pose proof (history_used _ _ run Hh) as Hu. unfold used, of_run_steps in *.
      destruct (jm_get (pj_runs pj) run) as [u|] eqn:E; [|lia].
      destruct (wf_usage _ Hwf run u E) as [[? _] _]. lia.
    + intros id. specialize (Ha id). pose proof (history_used_by _ _ id Hh) as Hu. unfold used_by, of_agent_steps in *.
      destruct (pj_agent pj id) as [a|] eqn:E; [|lia].
      destruct (wf_agents _ Hwf id a E) as [[_ ?] _]. lia.
    + intros run u E. destruct (wf_usage _ Hwf run u E) as [[_ Hmax] [_ <-]]. done.
Qed.

(** C25. Opening the journal of a host that died after an orderly run (as in C11), when
    it succeeds, leaves no agent
    ready, checking, running or recovering, no quantum and no scope to reconcile; it
    calls no step, only appends to the journal, and no agent is lost nor any step it has
    used forgotten. *)
Theorem restart_leaves_nothing_at_work l options w s :
  orderly_steps new_domain l = true →
  let j := journal (h_runtime (steps new_domain l)) in
  open_runtime options w (fresh_runtime j) = (Ok tt, s) →
  all_stopped (projection s) ∧ active s = [] ∧ dirtyScopes s = []
  ∧ (∃ rows, journal s = j ++ rows ∧ stepped s = [] ∧ history (journal s) (projection s))
  ∧ ∀ pj id a, history j pj → pj_agent pj id = Some a →
      ∃ a', pj_agent (projection s) id = Some a' ∧ (as_stepsUsed a ≤ as_stepsUsed a')%Z ∧ as_runId a' = as_runId a.
Proof.
  intros Hord j Hrun. destruct (host_history _ (host_steps_ok l new_domain Hord new_domain_ok)) as (pj0 & Hh0). fold j in Hh0.
  pose proof (open_runtime_ok options w j pj0 Hh0) as Hopen. rewrite Hrun in Hopen.
  destruct Hopen as ([_ Hs Hact _ _] & Hstop & Hdirty & _).
  pose proof (grows_open options w (fresh_runtime j)) as [_ (rows & _ & Hj & _)]. rewrite Hrun in Hj.
  pose proof (calls_nothing_open options w (fresh_runtime j)) as Hcalls. rewrite Hrun in Hcalls. simpl in Hj, Hcalls.
  split_and!; [done..|by exists rows|]. intros pj id a Hh Ha. apply (history_keeps rows j pj); [done| |done].
  by rewrite -Hj.
Qed.

(** C26. In a runtime that is up - not closed, after an orderly run (as in C11; in
    [overlapping_quanta] a quantum is not seen) - an interruption of a scope that does
    not throw fences all of it: of the agents below (or at) the given one those that still run keep their status, are asked
    to stop and their signals are aborted, the others that have not ended are
    interrupted; nothing else changes, and the promises of all that is at work are
    waited for. *)
Theorem cancelling_fences_the_scope l w id pending s' :
  up l →
  let h := steps new_domain l in
  let s := h_runtime h in
  cancelScope (h_options h) w id s = (Ok pending, s') →
  (∀ x a, below (projection s) x id → pj_agent (projection s) x = Some a →
     (∃ a', pj_agent (projection s') x = Some a' ∧ settled_member a' = true
        ∧ as_status a' = (if settled_member a || live_member s a then as_status a else ag_interrupted))
     ∧ (∀ t, jm_get (quanta s) x = Some t → t ∈ pending ∧ is_aborted t s')
     ∧ (∀ r, jm_get (recoveries s) x = Some r → r_ticket r ∈ pending))
  ∧ (∀ x, ¬ below (projection s) x id → pj_agent (projection s') x = pj_agent (projection s) x).
Proof.
  intros Hup h s Hrun. destruct (up_inv l Hup) as [HI _]. fold h in HI. fold s in HI.
  pose proof (cancelScope_waits _ _ _ _ _ _ (inv_log _ _ HI) Hrun) as (members & Hm & Hw).
  destruct (cancelScope_fences _ _ _ _ _ _ _ HI Hrun) as ((members' & Hm' & Hin & Hout) & Hq & Hr).
  unfold caught_up in Hm'. simpl in Hm'. rewrite scope_later Hm in Hm'. injection Hm' as <-.
  pose proof (caught_up_log _ (inv_log _ _ HI)) as [Hwf _]%history_well_formed.
  assert (scope (projection (caught_up s)) id = Ok members) as Hm' by by rewrite /caught_up /= scope_later.
  destruct (scope_spec _ Hwf _ _ Hm') as [_ Hmem]. split.
  - intros x a Hx Ha. pose proof (agent_id _ (wf_family _ Hwf) x a Ha) as <-.
    assert (a ∈ members) as Hin_a by (apply Hmem; split; [exact Ha|exact Hx]).
    split; [|by rewrite -Hq -Hr; apply Hw].
    destruct (Hin a Hin_a) as (a' & Ha' & Hb). exists a'. split; [done|]. unfold becomes in Hb.
    destruct (settled_member a) eqn:Hset; [by subst|]. split; [by eapply cancelled_settled|].
    unfold as_status at 1. rewrite Hb. change (cancelled_member (caught_up s) a) with (cancelled_member s a).
    unfold cancelled_member. simpl. by destruct (live_member s a).
  - intros x Hx. apply Hout. intros (a & Ha & <-)%elem_of_ids. apply Hx. by apply Hmem in Ha as [_ ?].
Qed.

(** C27. While the journal can be written, reconciling the scopes of a runtime that is up
    (not closed, after an orderly run as in C11) returns: no scope is left to reconcile, everything is read, and the only agents
    whose status changed are interrupted or completed. *)
Theorem reconciling_returns l w :
  up l → w_fenced w = false →
  let h := steps new_domain l in
  ∃ s', reconcileScopes (h_options h) w (h_runtime h) = (Ok tt, s')
  ∧ dirtyScopes s' = [] ∧ history (journal s') (projection s')
  ∧ ∀ id a', pj_agent (projection s') id = Some a' → ∃ a, pj_agent (projection (h_runtime h)) id = Some a
      ∧ (as_status a' = as_status a ∨ as_status a' = ag_interrupted ∨ as_status a' = ag_completed).
Proof.
  intros Hup Hw h. destruct (up_inv l Hup) as [HI Hd]. destruct Hup as [_ Hcl]. fold h in HI, Hd, Hcl.
  destruct (ok_total None (reconcileScopes (h_options h) w) (h_runtime h)
    (λ _ s', synced s' ∧ calmly (caught_up (h_runtime h)) s' ∧ dirtyScopes s' = []))
    as ([] & s' & Hrun & Hs & [_ Hcalm] & Hdirty).
  - apply ok_reconcileScopes; [done|]. intros s' _ ? ? ?. done.
  - by apply (reconcileScopes_total (h_options h) w Hw None).
  - exists s'. split_and!; [done|done|exact Hs|]. exact Hcalm.
Qed.

(** ** Concrete runs *)

Definition calm_world : World := mkWorld false (λ run, bool_decide (run = "run")) (λ _ _, false) (λ _, false).
Definition in_calm (l : list Event) : list (World * Event) := map (λ e, (calm_world, e)) l.
Definition family_options : AgentRuntimeOptions := mkOptions 3 (mkBudget 3 4 2) false false.
Definition new_agent (id : string) (parent : option string) : Event :=
  ECreate (mkCreate id "run" parent JNull JNull None 3).
Definition ready_again : outcome string (option StepStatus * jsval) := Ok (Some step_ready, JNull).
(** An agent makes a child and waits for it; the child takes a step and begins
    another. *)
Definition family_works : list (World * Event) := in_calm
  [ERestart family_options; new_agent "root" None; EDrain; EDrainStep; EAdvance 1 (Ok "") (Ok "");
   new_agent "child" (Some "root"); EStepAnswered 1 (Ok (Some step_completed, JNull)); EFinishStep 1;
   EQuantumFinally 1; EDrainStep; EAdvance 2 (Ok "") (Ok ""); EStepAnswered 2 ready_again; EFinishStep 2;
   EQuantumFinally 2; EDrainStep; EAdvance 3 (Ok "") (Ok "")].
(** The family is interrupted, the step of the child ends; the host dies. *)
Definition family_ends : list (World * Event) := family_works ++ in_calm
  [EInterrupt "root"; EStepAnswered 3 ready_again; EFinishStep 3; EQuantumFinally 3; EBarrier "root"; EDrainStep;
   new_agent "other" None; EOther; ERestart family_options].
Definition statuses (h : Host) : list (string * AgentStatus) :=
  map (λ e, (e.1, as_status e.2.2)) (pj_states (projection (h_runtime h))).

Lemma agents_journal_is_a_history_witness :
  statuses (steps new_domain family_ends)
    = [("root", ag_interrupted); ("child", ag_interrupted); ("other", ag_paused)]
  ∧ ∃ pj, history (journal (h_runtime (steps new_domain family_ends))) pj.
Proof.
  split; [vm_compute; reflexivity|].
  exact (proj1 (agents_journal_is_a_history family_ends ltac:(vm_compute; reflexivity))).
Defined.
Lemma agents_step_once_within_budget_witness :
  map step_key (step_calls new_domain family_ends) = [("root", 1%Z); ("child", 1%Z); ("child", 2%Z)]
  ∧ step_calls new_domain family_ends `sublist_of` dispatches (journal (h_runtime (steps new_domain family_ends))).
Proof.
  split; [vm_compute; reflexivity|].
  exact (proj1 (agents_step_once_within_budget family_ends ltac:(vm_compute; reflexivity))).
Defined.

Lemma restart_leaves_nothing_at_work_witness :
  statuses (steps new_domain family_works) = [("root", ag_waiting); ("child", ag_running)]
  ∧ ∃ s, open_runtime family_options calm_world (fresh_runtime (journal (h_runtime (steps new_domain family_works))))
      = (Ok tt, s) ∧ all_stopped (projection s).
Proof.
  split; [vm_compute; reflexivity|]. eexists. split; [vm_compute; reflexivity|].
  refine (proj1 (restart_leaves_nothing_at_work family_works family_options calm_world _ _ _));
    vm_compute; reflexivity.
Defined.

Lemma cancelling_fences_the_scope_witness :
  ∃ s', cancelScope family_options calm_world "root" (h_runtime (steps new_domain family_works)) = (Ok [3], s')
  ∧ ∃ a', pj_agent (projection s') "child" = Some a' ∧ settled_member a' = true ∧ is_aborted 3 s'.
Proof.
  eexists. split; [vm_compute; reflexivity|].
  edestruct (cancelling_fences_the_scope family_works calm_world "root") as [H _];
    [split; vm_compute; reflexivity|vm_compute; reflexivity|].
  edestruct (H "child") as ((a' & Ha & Hs & _) & Hq & _); [|vm_compute; reflexivity|].
  - apply rtc_once. eexists. split; vm_compute; reflexivity.
  - exists a'. split; [exact Ha|]. split; [exact Hs|]. apply (Hq 3). vm_compute. reflexivity.
Defined.

Lemma reconciling_returns_witness :
  dirtyScopes (h_runtime (steps new_domain family_works)) = ["root"]
  ∧ ∃ s', reconcileScopes family_options calm_world (h_runtime (steps new_domain family_works)) = (Ok tt, s')
    ∧ dirtyScopes s' = [].
Proof.
  split; [vm_compute; reflexivity|].
  destruct (reconciling_returns family_works calm_world) as (s' & Hrun & Hd & _);
    [split; vm_compute; reflexivity|reflexivity|].
  exists s'. split; [exact Hrun|exact Hd].
Defined.

(** When the promise of a quantum has settled but its [finally] has not run, a round of
    the drain can start a second quantum of the agent: the [finally] of the first then
    unregisters the second ([this.quanta.delete(state.id)]). An interruption of the
    agent does not see the second at work, does not abort it and records the agent as
    interrupted; the step completes and the interrupted agent is ready again. *)
Definition overlapping : list (World * Event) := in_calm
  [ERestart family_options; new_agent "a" None; new_agent "b" None; EDrain; EDrainStep;
   EAdvance 1 (Ok "") (Ok ""); EAdvance 2 (Ok "") (Ok ""); EStepAnswered 1 ready_again; EStepAnswered 2 ready_again;
   EFinishStep 1; EQuantumFinally 1; EFinishStep 2; EDrainStep; EQuantumFinally 2; EAdvance 4 (Ok "") (Ok "");
   EInterrupt "b"].
Example overlapping_quanta :
  orderly_steps new_domain overlapping = false
  ∧ jm_get (statuses (steps new_domain overlapping)) "b" = Some ag_interrupted
  ∧ jm_get (statuses (steps new_domain (overlapping ++ in_calm [EStepAnswered 4 ready_again; EFinishStep 4]))) "b"
    = Some ag_ready.
Proof. split_and!; vm_compute; reflexivity. Qed.

(** With an evidence validator the second quantum outlives an interruption of the agent
    and a reconstruction that is abandoned: it charges and calls step 2, the abandoned
    reconstruction puts back the agent of step 1, and the host is called for step 2
    again. *)
Definition checking_options : AgentRuntimeOptions := mkOptions 3 (mkBudget 3 9 2) true false.
Definition begins (t : nat) : list Event := [EAdvance t (Ok "") (Ok ""); EValidated t (Ok valid) (Ok "")].
Definition repeated : list (World * Event) := in_calm
  ([ERestart checking_options; new_agent "a" None; new_agent "b" None; EDrain; EDrainStep]
   ++ begins 1 ++ begins 2
   ++ [EStepAnswered 1 ready_again; EStepAnswered 2 ready_again; EFinishStep 1; EQuantumFinally 1; EFinishStep 2;
       EDrainStep; EQuantumFinally 2; EAdvance 3 (Ok "") (Ok ""); EAdvance 4 (Ok "") (Ok "");
       EInterrupt "b"; EBarrier "b"; ERecover "b"; EPrepareCalled "b"; EValidated 4 (Ok valid) (Ok "");
       EPrepared "b" (Ok None); ERecoveryFinally "b"; EStepAnswered 4 ready_again; EFinishStep 4; EQuantumFinally 4;
       EDrainStep]
   ++ begins 7).
Example step_repeated :
  orderly_steps new_domain repeated = false
  ∧ map step_key (step_calls new_domain repeated) = [("a", 1%Z); ("b", 1%Z); ("b", 2%Z); ("b", 2%Z)].
Proof. split; vm_compute; reflexivity. Qed.

(** A run whose id is the empty string: the budget row of its first agent is one that
    [sync] refuses ([!event.runId]), then and after every restart. *)
Definition any_run_world : World := mkWorld false (λ _, true) (λ _ _, false) (λ _, false).
Definition empty_run : list (World * Event) :=
  [(any_run_world, ERestart family_options); (any_run_world, ECreate (mkCreate "a" "" None JNull JNull None 3))].
Example empty_run_poisons_the_journal :
  journal (h_runtime (steps new_domain empty_run)) = [RowBudget 1 (Some "") (o_runBudget family_options)]
  ∧ (create family_options calm_world (mkCreate "b" "run" None JNull JNull None 3) (h_runtime (steps new_domain empty_run))).1
    = Throw (Err "Invalid or duplicate agent Run budget event")
  ∧ (open_runtime family_options calm_world (fresh_runtime (journal (h_runtime (steps new_domain empty_run))))).1
    = Throw (Err "Invalid or duplicate agent Run budget event").
Proof. split_and!; vm_compute; reflexivity. Qed.
